(* ===== verification/_CoqProject ===== *)
-Q . S2P
Prelude.v
Hlc.v
KeyedOrder.v
LatestDurable.v
Kernel.v
KernelMark.v
KernelPull.v
KernelRun.v
KernelHistory.v
KernelDispose.v
SeqCrdt.v
TextCrdt.v
WorkQueue.v
Queue.v
Temporal.v
Registers.v
ReactiveMap.v
Reconcile.v
Outbox.v
ReliableSync.v
ChartDef.v
StateChart.v
ChartLegal.v
Relay.v
RelayEgress.v
Ingress.v
IngressFlow.v
IngressShell.v
Windowing.v
RateShape.v
Presence.v
Membership.v
Service.v
Coordination.v
Resilience.v
StdTimers.v
Receipts.v
CommandPlane.v
Distributed.v
DistributedNet.v
Capability.v
MsgpackCodec.v
Wire.v
ShmArena.v
Transport.v
Permissions.v
LosslessTree.v
LosslessView.v
LosslessSync.v
LosslessRender.v
LosslessEdit.v
SignalWire.v
Signaling.v
StableId.v
TreeWire.v
ReplayEncode.v
Replay.v
Projection.v
SemTree.v
