(* ===== verification/Prelude.v ===== *)
(** * lazily-go: a verification development of the reactive kernel and the
    replicated data types built on it

    This is the root file.  It documents the whole development and holds the
    prelude every other file requires: Go's wrapping integers and their scope,
    shared tactics ([go_cases], [zrange], [unwrap], [deex]), the hint database
    [go], the [Join] interface of replicated states, sums over maps, folds that
    report a change, and the cell that a component projects its state onto.

    ** The program

    [lazily] is a Go library of lazily evaluated reactive values.  Its kernel is
    a graph of sources, computeds and effects ([core.go], [disposal.go]).  On top
    of it stand keyed maps, queues, state charts and temporal sources, each a pure
    core whose readers are projected onto cells; beside it stand replicated data
    types (clock, sequence, text, registers) and the pieces that carry changes
    between processes (relay, durable outbox, reliable sync, latest-durable
    projection).  Components meet in three ways: a core calls [Set] on a cell and
    so invalidates graph readers; replicas exchange states or deltas stamped by
    one hybrid clock; and the sync driver moves frames between an outbox, a sink
    and a source it knows only through interfaces.

    ** Files and what they model (all sources under [src/])

    - [Kernel.v]: [core.go], [disposal.go].  A [Context] is the record [ctx]: the
      heap of nodes (a Go pointer is a [nid]), scheduler, batch state, arena.  A
      method is an action [M A] that returns, panics with the state it leaves, or
      runs out of fuel.  User closures are data ([comp], [eff]).  The parameter
      [ord] is the order in which Go ranges over an edge set; the theorems over
      histories hold for the orders that visit lower dependencies first
      ([PullOrder]), which is every order when no node reads both a node and one
      below it ([shortcut_free_order]).  [KernelMark.v] proves the invalidation
      walk, [KernelPull.v] reads, [KernelRun.v] writes, batches and the effect
      drain, [KernelHistory.v] the contract over whole histories (without disposal,
      [Eager], [Lazy] and [Clear]), [KernelDispose.v] the disposals that may
      follow such a history, stale handles and the exhaustion report.  [SemTree.v]:
      [sem_tree.go], a program over it.
    - [Hlc.v]: [hlc.go], [crdt.go].  Stamps, clock, frontier, watermark, plane.
    - [SeqCrdt.v]: [seq_crdt.go].  [TextCrdt.v]: [text_crdt.go].
      [Registers.v]: [registers.go].
    - [KeyedOrder.v]: [keyed_order.go].  [ReactiveMap.v]: [reactive_map.go] and the
      [SourceMap] of [collections.go]; [Reconcile.v]: its keyed reconciliation.
    - [Queue.v]: [queue.go], the storage contract as a class.  [WorkQueue.v]:
      [work_queue.go].
    - [Temporal.v]: [temporal.go], cores and cells over uint64 ticks.
    - [LatestDurable.v]: [latest_durable_projection_core.go].  [Projection.v]: its
      shell [latest_durable_projection.go], and the mirror of [state_projection.go].
    - [Outbox.v]: [durable_outbox_store.go], two stores behind the class
      [OutboxStore], the outbox behind [DurableOutbox].  [ReliableSync.v]:
      [reliable_sync.go], the driver proved against [DurableOutbox] alone, with the
      messages and epoch rules it uses from [ipc.go].
    - [ChartDef.v], [StateChart.v]: [state_chart.go] and [state_machine.go].  A
      document is the value [encoding/json] decodes.  [ChartLegal.v] proves that a
      chart keeps a legal configuration.
    - [Relay.v]: [merge.go] and the relay and spill store of [relay.go];
      [RelayEgress.v]: its transports (a class with two instances), roles and
      egress policies.
    - [Ingress.v]: [ingress_core.go], the admission core of the keyed ingress;
      [IngressFlow.v] proves delivery and refusal; [IngressShell.v]: [ingress.go], its
      readers and the pump over any transport.
    - [Windowing.v]: [windowing.go].  [RateShape.v]: [rateshape.go].  [Presence.v]:
      [presence.go].  [Membership.v]: [membership.go].  [Service.v]: [service.go].
      [Coordination.v]: [coordination.go].  [Resilience.v]: [resilience.go].
      [StdTimers.v]: [stdlib.go].  Each core is a transition over uint64 ticks, each
      cell a core beside the [Cell] it projects onto.
    - [Receipts.v]: [causal_receipts.go].  [CommandPlane.v]: [command_plane.go], the
      command projection over those receipts and its RPC client.
    - [Distributed.v]: [distributed.go], the replicated cell plane, and the keys of
      [ipc.go]; [DistributedNet.v]: planes that exchange frames over a network.
      [Capability.v]: [capability.go].
    - [MsgpackCodec.v]: [msgpack_codec.go], bytes to value trees and back.  [Wire.v]:
      [ipc.go] and [delta_wire_gen.go], messages to value trees and back.
      [Permissions.v]: the permission boundary and transition helpers of [ipc.go].
      [ShmArena.v]: [shm_blob_arena.go].  [Transport.v]: [transport.go] and
      [transport_shm.go], the class [BlobBackend] and its three instances.
    - [LosslessTree.v]: [lossless_tree_crdt.go], the document tree whose leaves are
      text CRDTs: sort keys, dotted frontiers, the six operations, local edits, the
      causal buffer.  [LosslessView.v]: a replica read as a map of views, an
      operation as its writes on that map, and which operations commute.
      [LosslessSync.v]: what a replica keeps invariant, and the buffer.
      [LosslessRender.v]: rendering, reachable replicas, delivery and convergence.
      [LosslessEdit.v]: editing, splitting and merging.  [TreeWire.v]: the json
      trees of its operations and of text operations.
    - [SignalWire.v], [Signaling.v]: [signaling.go], frames, and the room as a step
      function over the events of its owner, reader and pump goroutines.
    - [StableId.v]: [stable_id.go], words, keys, similarity and alignment.
    - [ReplayEncode.v], [Replay.v]: [replay.go], the canonical bytes of a value, and
      logs, fingerprints and the replaying harness over graphs that act on a world.

    ** Conventions

    A mutable Go object is a record passed and returned; a method keeps its Go
    name where Rocq allows it, with the receiver's name in front where two clash.
    A Go [error] or [(T, bool)] result is an option, a sum or an inductive of
    outcomes; a panic is [None], or [Panic] in the kernel.  [uint64] and [int64]
    are [Z] with every operation that can leave the range wrapped ([+ᵤ], [+ₛ]);
    an [int] that counts elements in memory is a [nat].  A Go map is a [gmap]; where
    the program's result could depend on range order, the order is a parameter.
    Components that only project onto a cell use [Cell]: its value and how often a
    [Set] changed it, which is what the kernel's store guard makes observable.

    ** What the theorems show

    - Kernel, over histories that create, set, merge, batch and read, in a
      [PullOrder]: every read is the value the graph denotes, every operation returns
      within its fuel, invalidation is exact, disposals that follow leave no edge
      and no resolvable handle, the cached counter is exact.  A memoised tree is its
      fold, and an edit spares every cache beside its path, in any order.
    - Clock and replicas: stamps strictly increase; frontiers, sequences, texts,
      counters and registers converge whatever the order and repetition of merges,
      where an identifier or a stamp determines what it names; local edits take effect and land where asked; deltas are as good as states.
    - The document tree: a diff applied delivers every operation of the other replica
      and asks for nothing again, replicas with the same operations render one text
      when conflicting ones came in one order, edits change one leaf and splits and
      merges of leaves change none, as long as live siblings have keys of their own.  Blocks of text: the alignment uses no old block
      twice and misses no match; similarity is the longest common subsequence.
    - Signaling: a client that follows its frames knows the room, a relayed frame
      carries the peer its server knows under the sending connection's identifier,
      whatever the frame says, no interleaving blocks or panics the owner.
    - Queues, maps, time: first-in first-out with exact readers over any storage,
      no item lost in the work queue, a durable subscriber reads what a mailbox opened at
      its first subscription holds, the three
      planes of a map are independent, the diff is minimal, intervals and cron
      sources count every boundary once.
    - Delivery: no accepted update is lost by the projection core, reconnects
      fence, the outbox replays exactly what is unacknowledged, across restarts, for
      frames whose journal line stays under the read limit, the receiver
      applies each change exactly once, and a reconnect converges; a relay's egress
      equals the flat fold for every drain schedule, its spill tail replays
      exactly what was not acknowledged; an ingress scope delivers its producer's
      log in order and exactly once (its delivery clause is for a scope that is not
      suspended), and a refusal changes nothing.
    - Realtime: windows fold exactly the elements they cover, a lease's token rises
      with every grant, breakers trip on the threshold, back-off is the capped doubling
      of a positive base (of any base below 64 attempts), presence and membership views are exactly the live peers, a registry
      replays to itself, a barrier latches only on evidence.
    - Replay: one value has one encoding and different values have different ones; a
      verified fingerprint is that of the log under this graph, digests of different
      values differing unless they collide, a failed check of a replay that returns
      names the first checkpoint and cell that differ, and a graph that depends on its
      log alone is proved.
    - Commands: the receipt ledger is its log; judged by a ledger of its own, a
      command is terminal exactly when a receipt made it so and never changes
      afterwards, and receipts that disagree are the recorded conflicts; an image
      restores what it summarises.
    - The wire: packing and reading are inverse for every tree the wire can carry and
      the reader ends on any bytes; every message decodes to its normal form, which
      spells an absent blob backend out, from both frames; a blob descriptor resolves to its bytes or to nothing; spilling keeps
      what every value resolves to; permissions are the grants made and not revoked;
      a negotiation fails closed; planes of one network with the same families agree
      whatever the order of the frames.
    - Charts: an accepted document is fully understood, and the machine of a tree with
      no history child of a parallel state stays in a legal configuration.

    ** Bounds and fuel

    Fuel stands for recursion that Go leaves unbounded.  [refresh] descends the
    dependencies, which go to earlier nodes, so the number of nodes is enough;
    [op_fuel] multiplies it with the drain budget (100000 by default, as in the
    code) for a flush; [markCone] has the measure [mark_fuel], since each node is
    raised at most twice.  The text walk needs the number of elements, the chart
    walks the number of states, [longestIncreasingSubsequence] the length, pumping
    a transport the number of buffered operations, the sync loops the number of
    frames, the MessagePack reader the number of bytes, the walk of a document tree
    the number of nodes, draining its buffer the number of buffered operations,
    collapsing a range the number of its holes, a key between two others the sum of
    their lengths: each is proved enough where it is used.  Counters are assumed short of
    their wrap (a logical clock below the largest int64, fewer than 2^64 operations)
    only where a theorem says so.

    ** What modelling showed

    Lemmas record where the code departs from what it says or from what a theorem
    would need: [refresh_order_matters], [TryGet_stale_after_error],
    [exhaustion_names_nobody], [first_run_write_lost] and
    [effect_starved_after_dispose] (kernel); [insert_between_ties_lands_after],
    [root_op_diverges], [merge_resurrects_overwritten], [reused_stamp_diverges]
    (replicas); [oversized_record_hides_the_rest], [torn_tail_swallows_next_append]
    (outbox);
    [gc_breaks_ephemeral_reader] (topic); [Claim_unknown_key_grows_snapshot]
    (projection); [Reconcile_misses_order] (maps); [source_failure_loses_applied],
    [stale_snapshot_wedges] (sync); [crossing_transition_drops_region],
    [self_transition_survives_exit], [history_region_is_activated] (charts); [open_page_ack_loses_window],
    [rate_refill_wraps] (relay); [suspended_scope_delivers],
    [open_keeps_superseded_window] (ingress); [tumbling_tick_hangs],
    [half_open_allows_many], [zero_base_jumps_to_cap] (realtime);
    [stale_image_unterminates], [image_forgets_conflict] (commands);
    [open_newer_unreported], [eviction_unreported] (ingress readers);
    [unregistered_family_overwrites], [unregistered_family_order_matters],
    [late_register_misses_members] (plane);
    [spilled_frame_refused], [read_bound_wraps], [view_changes_under_update],
    [refused_write_wedges_region], [empty_grant_counts_peer],
    [negative_peer_refused] (wire);
    [edit_split_diverge], [one_head_is_not_enough], [split_at_tie_moves_text],
    [equal_keys_by_arrival], [split_revives_tail], [missing_ids_are_roots] (document
    tree); [stale_join_leaves_ghost], [stale_join_hits_successor],
    [stale_offer_names_successor], [teardown_drops_frames], [missing_fields_default] (signaling);
    [identity_lost_by_second_edit], [twins_share_a_key], [anchor_overridden] (stable
    ids); [Verify_ignores_seqs], [Check_misses_empty_digest] (replay);
    [redirtied_sends_stale_value] (mirror).

    ** Not modelled

    The thread-safe shells repeat modelled operations behind a mutex; the async
    plane needs a model of its own interleavings.  Open are the async plane's
    revision discipline, and the [ComputedMap], dependency maps and source trees of
    [reactive_map.go] and [collections.go].  Left out for good: the text between a
    value and its json tree, the generated receipts code, the C boundary,
    operating-system and SQL I/O, the simulation harness, benchmarks and the command
    line peer. *)

From stdpp Require Export prelude gmap list sorting strings.
From Stdlib Require Export ZArith Lia.

#[global] Set Default Goal Selector "!".

(** ** Go machine integers

    Go's [uint64] and [int64] are [Z] kept in range by an explicit wrap after
    every operation that can leave it.  [int] is 64 bits wide on the supported
    platforms and never overflows for an in-memory length, so lengths are [nat]. *)

Definition two64 : Z := 18446744073709551616.
Definition two63 : Z := 9223372036854775808.
Definition u64 (z : Z) : Z := z mod two64.
Definition i64 (z : Z) : Z := (z + two63) mod two64 - two63.
Definition is_u64 (z : Z) : Prop := (0 ≤ z < two64)%Z.
Definition is_i64 (z : Z) : Prop := (- two63 ≤ z < two63)%Z.
Definition max_u64 : Z := 18446744073709551615.
Definition max_i64 : Z := 9223372036854775807.

#[export] Instance is_u64_dec z : Decision (is_u64 z).
Proof. unfold is_u64; apply _. Defined.
#[export] Instance is_i64_dec z : Decision (is_i64 z).
Proof. unfold is_i64; apply _. Defined.

Declare Scope go_scope.
Delimit Scope go_scope with go.
Notation "a +ᵤ b" := (u64 (a + b)) (at level 50, left associativity) : go_scope.
Notation "a -ᵤ b" := (u64 (a - b)) (at level 50, left associativity) : go_scope.
Notation "a *ᵤ b" := (u64 (a * b)) (at level 40, left associativity) : go_scope.
Notation "a +ₛ b" := (i64 (a + b)) (at level 50, left associativity) : go_scope.
Notation "a -ₛ b" := (i64 (a - b)) (at level 50, left associativity) : go_scope.
#[global] Open Scope go_scope.

Create HintDb go.

Section machine_integers.
Local Open Scope Z_scope.

Lemma u64_small z : is_u64 z → u64 z = z.
Proof. intros H. by apply Z.mod_small. Qed.

Lemma u64_range z : is_u64 (u64 z).
Proof. by apply Z.mod_pos_bound. Qed.

Lemma i64_small z : is_i64 z → i64 z = z.
Proof.
  unfold is_i64, i64, two63, two64. intros H.
  rewrite Z.mod_small by lia. lia.
Qed.

Lemma i64_succ_ne z : is_i64 z → (z +ₛ 1)%Z ≠ z.
Proof.
  unfold is_i64, i64, two63, two64. intros H Heq.
  pose proof (Z.div_mod (z + 1 + 9223372036854775808) 18446744073709551616 ltac:(done)) as Hd.
  pose proof (Z.mod_pos_bound (z + 1 + 9223372036854775808) 18446744073709551616 ltac:(done)) as Hb.
  lia.
Qed.
Lemma i64_range z : is_i64 (i64 z).
Proof.
  unfold is_i64, i64, two63, two64.
  pose proof (Z.mod_pos_bound (z + 9223372036854775808) 18446744073709551616). lia.
Qed.

Lemma u64_nonneg z : 0 ≤ u64 z.
Proof. apply u64_range. Qed.

Lemma i64_u64 z : is_i64 z → i64 (u64 z) = z.
Proof.
  unfold is_i64, i64, u64, two63, two64. intros H.
  rewrite Zplus_mod_idemp_l, Z.mod_small by lia. lia.
Qed.

Lemma u64_i64 z : is_u64 z → u64 (i64 z) = z.
Proof.
  unfold is_u64, i64, u64, two63, two64. intros H.
  rewrite Zminus_mod_idemp_l.
  replace (z + 9223372036854775808 - 9223372036854775808) with z by lia.
  by apply Z.mod_small.
Qed.

(** An inner wrap of a sum is absorbed by the outer one. *)
Lemma i64_add_l a b : i64 (i64 a + b) = i64 (a + b).
Proof.
  unfold i64. f_equal.
  replace ((a + two63) mod two64 - two63 + b + two63) with ((a + two63) mod two64 + b) by lia.
  rewrite Zplus_mod_idemp_l. f_equal. lia.
Qed.

Lemma i64_add_r a b : i64 (a + i64 b) = i64 (a + b).
Proof. by rewrite Z.add_comm, i64_add_l, Z.add_comm. Qed.
End machine_integers.

#[export] Hint Resolve u64_range i64_range u64_nonneg : go.

(** ** Optional values

    Go's comparable [Opt[T]] and the [(T, bool)] results are [option T]: the
    zero value carried next to [Present = false] is never read. *)

(** ** Tactics *)

(** Case on every [match] and [if decide] of the goal and hypotheses, keeping
    the equations, and clean up. *)
Ltac go_cases :=
  repeat (case_match || case_decide); simplify_eq/=.

Ltac deex :=
  repeat match goal with
  | H : ∃ x, _ |- _ => let y := fresh x in destruct H as [y H]
  | H : _ ∧ _ |- _ => destruct H
  end.

(** Unfold the machine-integer wrappers and reason in [Z]. *)
Ltac zrange :=
  unfold is_u64, is_i64, two63, two64, max_u64, max_i64 in *; lia.

(** Rewrite away wraps whose argument is in range. *)
Ltac unwrap :=
  repeat first
    [ rewrite u64_small by zrange
    | rewrite i64_small by zrange ].

(** ** Interfaces *)

(** A join: what every replicated state of the program promises to the code
    that merges replicas in arbitrary order and multiplicity. *)
Class Join (A : Type) (join : A → A → A) (wf : A → Prop) : Prop := {
  join_wf x y : wf x → wf y → wf (join x y);
  join_comm x y : wf x → wf y → join x y = join y x;
  join_assoc x y z : wf x → wf y → wf z → join x (join y z) = join (join x y) z;
  join_idem x : wf x → join x x = x;
}.

Section join_facts.
Context {A : Type} {join : A → A → A} {wf : A → Prop} `{!Join A join wf}.

Lemma foldl_join_wf l x : wf x → Forall wf l → wf (foldl join x l).
Proof.
  intros Hx Hl. revert x Hx. induction Hl; intros; simpl; [done|].
  apply IHHl. by apply join_wf.
Qed.

Lemma foldl_join_out l x y :
  wf x → wf y → Forall wf l → foldl join (join x y) l = join x (foldl join y l).
Proof.
  intros Hx Hy Hl. revert y Hy. induction Hl as [|z l Hz Hl IH]; intros; simpl; [done|].
  rewrite <-IH by (by try apply join_wf). by rewrite join_assoc.
Qed.

(** Deliveries may be reordered. *)
Lemma foldl_join_perm l1 l2 x :
  wf x → Forall wf l1 → l1 ≡ₚ l2 → foldl join x l1 = foldl join x l2.
Proof.
  intros Hx Hl Hp. revert x Hx Hl.
  induction Hp as [|z l1 l2 _ IH|y z l|l1 l2 l3 H12 IH1 _ IH2]; intros x Hx Hl; simpl.
  - done.
  - inversion Hl; subst. apply IH; [by apply join_wf|done].
  - inversion Hl as [|?? Hy Hl']; subst. inversion Hl' as [|?? Hz Hl'']; subst.
    f_equal. rewrite <-!join_assoc by done. f_equal. by apply join_comm.
  - rewrite IH1 by done. apply IH2; [done|]. by rewrite <-H12.
Qed.

(** Deliveries may be repeated. *)
Lemma foldl_join_dup l x y :
  wf x → wf y → Forall wf l → y ∈ l → foldl join x (y :: l) = foldl join x l.
Proof.
  intros Hx Hy Hl Hin. apply list_elem_of_split in Hin as (l1 & l2 & ->).
  assert (Hp : l1 ++ y :: l2 ≡ₚ y :: l1 ++ l2) by (by rewrite Permutation_middle).
  rewrite (foldl_join_perm (l1 ++ y :: l2) (y :: l1 ++ l2)) by done.
  rewrite (foldl_join_perm (y :: l1 ++ y :: l2) (y :: y :: l1 ++ l2)).
  - simpl. rewrite <-(join_assoc x y y) by done. by rewrite join_idem.
  - done.
  - by constructor.
  - by rewrite Hp.
Qed.
(** The order of the join; [foldl join] is the least upper bound. *)
Lemma foldl_join_le l x u :
  wf x → wf u → Forall wf l →
  join (foldl join x l) u = u ↔ join x u = u ∧ Forall (λ y, join y u = u) l.
Proof.
  intros Hx Hu Hl. revert x Hx. induction Hl as [|y l Hy Hl IH]; intros x Hx; simpl.
  - naive_solver.
  - rewrite IH by (by try apply join_wf). rewrite Forall_cons.
    assert (join (join x y) u = u ↔ join x u = u ∧ join y u = u); [|tauto]. split.
    + intros Hxy. split.
      * rewrite <-Hxy at 1. by rewrite !join_assoc, join_idem by (by try apply join_wf).
      * rewrite <-Hxy at 1. rewrite (join_comm x y) by done.
        rewrite !join_assoc, join_idem by (by try apply join_wf). by rewrite (join_comm y x) by done.
    + intros [H1 H2]. by rewrite <-join_assoc, H2 by done.
Qed.

(** Only the set of deliveries matters: neither their order nor their
    multiplicity. *)
Lemma foldl_join_set l1 l2 x :
  wf x → Forall wf l1 → Forall wf l2 → (∀ y, y ∈ l1 ↔ y ∈ l2) → foldl join x l1 = foldl join x l2.
Proof.
  intros Hx H1 H2 Heq. pose proof (foldl_join_wf l1 x Hx H1). pose proof (foldl_join_wf l2 x Hx H2).
  assert (Hle : ∀ l l', Forall wf l → Forall wf l' → (∀ y, y ∈ l → y ∈ l') →
    join (foldl join x l) (foldl join x l') = foldl join x l').
  { intros l l' Hl Hl' Hin. pose proof (foldl_join_wf l' x Hx Hl') as Hw.
    destruct (proj1 (foldl_join_le l' x (foldl join x l') Hx Hw Hl')) as [Ha Hb]; [by apply join_idem|].
    apply foldl_join_le; try done. split; [done|]. apply Forall_forall. intros y Hy.
    rewrite Forall_forall in Hb. auto. }
  rewrite <-(Hle l1 l2) by naive_solver. rewrite join_comm by done. symmetry. apply Hle; naive_solver.
Qed.
End join_facts.

(** A decidable strict total order given by the program's [Compare]. *)
Class StrictCompare (A : Type) (cmp : A → A → Z) : Prop := {
  cmp_values x y : cmp x y = (-1)%Z ∨ cmp x y = 0%Z ∨ cmp x y = 1%Z;
  cmp_eq x y : cmp x y = 0%Z ↔ x = y;
  cmp_anti x y : cmp y x = (- cmp x y)%Z;
  cmp_trans x y z : (cmp x y < 0)%Z → (cmp y z < 0)%Z → (cmp x z < 0)%Z;
}.

Section cmp_facts.
Context {A : Type} {cmp : A → A → Z} `{!StrictCompare A cmp}.
Local Open Scope Z_scope.

Lemma cmp_refl x : cmp x x = 0.
Proof. by apply cmp_eq. Qed.

Lemma cmp_trans_le x y z : cmp x y ≤ 0 → cmp y z ≤ 0 → cmp x z ≤ 0.
Proof.
  intros H1 H2.
  destruct (decide (cmp x y = 0)) as [->%cmp_eq|]; [done|].
  destruct (decide (cmp y z = 0)) as [<-%cmp_eq|]; [done|].
  apply Z.lt_le_incl, (cmp_trans x y z); lia.
Qed.

Lemma cmp_antisym_le x y : cmp x y ≤ 0 → cmp y x ≤ 0 → x = y.
Proof. intros H1 H2. rewrite (cmp_anti x y) in H2. apply cmp_eq. lia. Qed.

(** The larger of two, keeping the first on a tie, is associative,
    commutative and idempotent. *)
Definition cmp_max (x y : A) : A := if (cmp y x <=? 0) then x else y.

Lemma cmp_max_spec x y z : cmp (cmp_max x y) z ≤ 0 ↔ cmp x z ≤ 0 ∧ cmp y z ≤ 0.
Proof.
  unfold cmp_max. destruct (Z.leb_spec (cmp y x) 0) as [H|H].
  - split; [|tauto]. intros Hx. split; [done|]. by eapply cmp_trans_le.
  - split; [|tauto]. intros Hy. split; [|done].
    eapply cmp_trans_le; [|done]. rewrite (cmp_anti y x). lia.
Qed.

Lemma cmp_max_eq x y : (∀ z, cmp x z ≤ 0 ↔ cmp y z ≤ 0) → x = y.
Proof.
  intros H. apply cmp_antisym_le.
  - apply (proj2 (H y)). rewrite cmp_refl. lia.
  - apply (proj1 (H x)). rewrite cmp_refl. lia.
Qed.

#[export] Instance cmp_max_join : Join A cmp_max (λ _, True).
Proof.
  split; [done|..]; intros; apply cmp_max_eq; intros u; rewrite !cmp_max_spec; tauto.
Qed.
End cmp_facts.

(** ** Generic list facts *)

Section lists.
Context {A : Type}.

Lemma foldl_ext_perm {B} (f : B → A → B) l1 l2 b :
  (∀ b x y, f (f b x) y = f (f b y) x) → l1 ≡ₚ l2 → foldl f b l1 = foldl f b l2.
Proof.
  intros Hf Hp. revert b. induction Hp; intros; simpl; naive_solver congruence.
Qed.

Lemma foldl_invariant {B} (P : B → Prop) (f : B → A → B) l b :
  P b → (∀ b x, x ∈ l → P b → P (f b x)) → P (foldl f b l).
Proof.
  revert b. induction l as [|x l IH]; intros b Hb Hf; simpl; [done|].
  apply IH; [|intros; apply Hf; [by right|done]].
  apply Hf; [apply list_elem_of_here|done].
Qed.

Lemma filter_ext_in (P Q : A → Prop) `{!∀ x, Decision (P x), !∀ x, Decision (Q x)} (l : list A) :
  (∀ x, x ∈ l → P x ↔ Q x) → filter P l = filter Q l.
Proof.
  induction l as [|x l IH]; intros Hl; [done|].
  assert (Hx : P x ↔ Q x) by (apply Hl, list_elem_of_here).
  rewrite !filter_cons, IH by (intros; apply Hl; by right). do 2 case_decide; tauto.
Qed.
End lists.

(** ** Folding one finite map into another

    The program merges replicas by ranging over a Go map and updating the
    receiver one key at a time.  Go's iteration order is unspecified; the next
    lemmas show that a per-key update computes the same map in every order. *)

Section map_folds.
Context {K V W : Type} `{Countable K}.
Implicit Types (m : gmap K V) (l : list (K * W)).

Definition fold_entries (g : K → option V → W → option V) m l : gmap K V :=
  foldl (λ m kw, partial_alter (λ o, g kw.1 o kw.2) kw.1 m) m l.

Lemma fold_entries_lookup g m l k :
  NoDup l.*1 →
  fold_entries g m l !! k =
    match (list_to_map l : gmap K W) !! k with
    | Some w => g k (m !! k) w
    | None => m !! k
    end.
Proof.
  unfold fold_entries. revert m.
  induction l as [|[k' w] l IH]; intros m Hnd; simpl; [by rewrite lookup_empty|].
  simpl in Hnd. apply NoDup_cons in Hnd as [Hk' Hnd]. rewrite IH by done.
  destruct (decide (k' = k)) as [->|Hne].
  - rewrite lookup_insert_eq, lookup_partial_alter_eq.
    by rewrite not_elem_of_list_to_map_1.
  - by rewrite lookup_insert_ne, lookup_partial_alter_ne by done.
Qed.

Lemma fold_entries_perm g m l1 l2 :
  NoDup l1.*1 → l1 ≡ₚ l2 → fold_entries g m l1 = fold_entries g m l2.
Proof.
  intros Hnd Hp. apply map_eq. intros k.
  rewrite !fold_entries_lookup by (by rewrite <-?Hp).
  by rewrite (list_to_map_proper l1 l2).
Qed.

Lemma fold_entries_map_lookup g m (m2 : gmap K W) k :
  fold_entries g m (map_to_list m2) !! k =
    match m2 !! k with Some w => g k (m !! k) w | None => m !! k end.
Proof.
  rewrite fold_entries_lookup by apply NoDup_fst_map_to_list.
  by rewrite list_to_map_to_list.
Qed.
End map_folds.

(** A fold that also reports whether any step changed the receiver. *)
Definition fold_changed {S A} (step : S → A → S * bool) (s : S) (l : list A) : S * bool :=
  foldl (λ '(s, c) a, let '(s', c') := step s a in (s', c || c')) (s, false) l.

Section fold_changed.
Context {S A : Type} (step : S → A → S * bool).

Lemma fold_changed_acc s c l :
  foldl (λ '(s, c) a, let '(s', c') := step s a in (s', c || c')) (s, c) l =
    ((fold_changed step s l).1, c || (fold_changed step s l).2).
Proof.
  unfold fold_changed. revert s c. induction l as [|a l IH]; intros s c; simpl.
  - by rewrite orb_false_r.
  - destruct (step s a) as [s' c']; simpl. rewrite (IH s' (c || c')), (IH s' c'). simpl.
    by rewrite orb_assoc.
Qed.

Lemma fold_changed_nil s : fold_changed step s [] = (s, false).
Proof. done. Qed.

Lemma fold_changed_cons s a l :
  fold_changed step s (a :: l) =
    ((fold_changed step (step s a).1 l).1,
     (step s a).2 || (fold_changed step (step s a).1 l).2).
Proof.
  unfold fold_changed at 1; simpl. destruct (step s a) as [s' c']; simpl.
  apply fold_changed_acc.
Qed.

Lemma fold_changed_state s l :
  (fold_changed step s l).1 = foldl (λ s a, (step s a).1) s l.
Proof.
  revert s. induction l as [|a l IH]; intros s; [done|].
  rewrite fold_changed_cons. simpl. apply IH.
Qed.

(** No change reported means no change made. *)
Lemma fold_changed_false s l :
  (∀ s a, (step s a).2 = false → (step s a).1 = s) →
  (fold_changed step s l).2 = false → (fold_changed step s l).1 = s.
Proof.
  intros Hs. revert s. induction l as [|a l IH]; intros s; [done|].
  rewrite fold_changed_cons; simpl. intros [H1 H2]%orb_false_iff.
  rewrite IH; [by apply Hs|done].
Qed.
End fold_changed.

(** Merging one map into another with a per-key update that reports change:
    the result and the reported flag do not depend on the iteration order, and
    the flag is exact. *)
Section keyed_merge.
Context {K V W : Type} `{Countable K}.
Variable g : K → option V → W → option V.
Variable step : gmap K V → K * W → gmap K V * bool.
Hypothesis step_state : ∀ m kw, (step m kw).1 = partial_alter (λ o, g kw.1 o kw.2) kw.1 m.
Hypothesis step_flag : ∀ m kw,
  if (step m kw).2 then g kw.1 (m !! kw.1) kw.2 ≠ m !! kw.1 else g kw.1 (m !! kw.1) kw.2 = m !! kw.1.

Lemma keyed_fold_state m l : (fold_changed step m l).1 = fold_entries g m l.
Proof.
  rewrite fold_changed_state. unfold fold_entries.
  revert m. induction l as [|kw l IH]; intros m; simpl; [done|].
  by rewrite step_state, IH.
Qed.

Lemma keyed_step_same m kw : (step m kw).2 = false → (step m kw).1 = m.
Proof.
  intros Hf. pose proof (step_flag m kw) as Hg. rewrite Hf in Hg. rewrite step_state.
  apply map_eq. intros k'. destruct (decide (kw.1 = k')) as [<-|]; [|by rewrite lookup_partial_alter_ne].
  by rewrite lookup_partial_alter_eq.
Qed.

Lemma keyed_fold_flag m l :
  NoDup l.*1 → (fold_changed step m l).2 = true ↔ (fold_changed step m l).1 ≠ m.
Proof.
  intros Hnd. split.
  - revert m. induction l as [|[k w] l IH]; intros m; [done|].
    rewrite fold_changed_cons; simpl. simpl in Hnd. apply NoDup_cons in Hnd as [Hk Hnd].
    assert (Hat : (fold_changed step (step m (k, w)).1 l).1 !! k = g k (m !! k) w).
    { rewrite keyed_fold_state, fold_entries_lookup by done.
      rewrite not_elem_of_list_to_map_1 by done.
      by rewrite step_state, lookup_partial_alter_eq. }
    rewrite orb_true_iff. intros Hor Heq.
    pose proof (step_flag m (k, w)) as Hg. simpl in Hg.
    destruct ((step m (k, w)).2) eqn:Es.
    + apply Hg. by rewrite <-Hat, Heq.
    + destruct Hor as [|Hor]; [done|]. apply (IH Hnd) in Hor.
      by rewrite (keyed_step_same _ _ Es) in *.
  - intros Hne. destruct (fold_changed step m l).2 eqn:E; [done|].
    exfalso. apply Hne. apply fold_changed_false; [|done]. apply keyed_step_same.
Qed.

Lemma keyed_fold_perm m l1 l2 :
  NoDup l1.*1 → l1 ≡ₚ l2 → fold_changed step m l1 = fold_changed step m l2.
Proof.
  intros Hnd Hp. assert (NoDup l2.*1) by (by rewrite <-Hp).
  assert (Hs : (fold_changed step m l1).1 = (fold_changed step m l2).1).
  { rewrite !keyed_fold_state. by apply fold_entries_perm. }
  apply injective_projections; [done|].
  apply eq_bool_prop_intro. rewrite !Is_true_true, !keyed_fold_flag by done. by rewrite Hs.
Qed.
End keyed_merge.

(** An exact flag in the shape the section above asks for. *)
Lemma exact_flag {A} `{EqDecision A} (b : bool) (x y : A) :
  (b = true ↔ x ≠ y) → if b then x ≠ y else x = y.
Proof. intros Hb. destruct b; [by apply Hb|]. destruct (decide (x = y)); naive_solver. Qed.

(** Maps joined key by key, a missing key being the bottom. *)
Section map_join.
Context {K A : Type} `{Countable K} (join : A → A → A) (wf : K → A → Prop).
Context `{!∀ k, Join A join (wf k)}.

Definition map_join : gmap K A → gmap K A → gmap K A := union_with (λ x y, Some (join x y)).
Definition map_wf (m : gmap K A) : Prop := ∀ k x, m !! k = Some x → wf k x.

(** The per-key update of a merge loop. *)
Definition join_into (o : option A) (w : A) : option A :=
  Some (from_option (λ v, join v w) w o).

Lemma fold_entries_join m1 m2 :
  fold_entries (λ _, join_into) m1 (map_to_list m2) = map_join m1 m2.
Proof.
  apply map_eq. intros k. rewrite fold_entries_map_lookup. unfold map_join.
  rewrite lookup_union_with. by destruct (m1 !! k), (m2 !! k).
Qed.

#[export] Instance map_join_join : Join (gmap K A) map_join map_wf.
Proof.
  unfold map_join. split.
  - intros x y Hx Hy k z. rewrite lookup_union_with.
    specialize (Hx k). specialize (Hy k).
    destruct (x !! k), (y !! k); simpl; intros [= <-]; [apply join_wf|..]; naive_solver.
  - intros x y Hx Hy. apply map_eq. intros k. rewrite !lookup_union_with.
    specialize (Hx k). specialize (Hy k).
    destruct (x !! k), (y !! k); simpl; [|done..]. f_equal. apply join_comm; naive_solver.
  - intros x y z Hx Hy Hz. apply map_eq. intros k. rewrite !lookup_union_with.
    specialize (Hx k). specialize (Hy k). specialize (Hz k).
    destruct (x !! k), (y !! k), (z !! k); simpl; try done. f_equal. apply join_assoc; naive_solver.
  - intros x Hx. apply map_eq. intros k. rewrite !lookup_union_with.
    specialize (Hx k). destruct (x !! k); simpl; [|done]. f_equal. apply join_idem. naive_solver.
Qed.
End map_join.

(** ** Sums over a finite map *)

Section map_sum.
Context {K A : Type} `{Countable K} (f : A → nat).

Definition map_sum (m : gmap K A) : nat := map_fold (λ _ x acc, f x + acc) 0 m.

Lemma map_sum_empty : map_sum ∅ = 0.
Proof. apply map_fold_empty. Qed.

Lemma map_sum_insert_new m i x : m !! i = None → map_sum (<[i := x]> m) = f x + map_sum m.
Proof. intros Hi. unfold map_sum. rewrite map_fold_insert_L; [done| |done]. intros; lia. Qed.

Lemma map_sum_insert m i x :
  map_sum (<[i := x]> m) + from_option f 0 (m !! i) = f x + map_sum m.
Proof.
  destruct (m !! i) as [y|] eqn:E; simpl.
  - rewrite <-insert_delete_eq, map_sum_insert_new by apply lookup_delete_eq.
    rewrite <-(insert_delete_id m i y E) at 2.
    rewrite map_sum_insert_new by apply lookup_delete_eq. lia.
  - rewrite map_sum_insert_new by done. lia.
Qed.
End map_sum.

(** ** Cells seen from outside

    The components that project a state onto [Source] cells use them through
    [NewSource], [Get], [Peek] and [Set] only.  Such a cell is its value and the
    number of times a [Set] changed it: the store guard makes an equal [Set] a
    no-op, so that is how often its dependents are invalidated. *)
Section cells.
Context {A : Type} `{EqDecision A}.

Record Cell := mkCell { cell_value : A; cell_edges : nat }.
Definition NewCell (v : A) : Cell := mkCell v 0.
Definition Cell_Set (c : Cell) (v : A) : Cell :=
  if decide (v = cell_value c) then c else mkCell v (S (cell_edges c)).

Lemma Cell_Set_value c v : cell_value (Cell_Set c v) = v.
Proof. unfold Cell_Set. by case_decide. Qed.

(** A changed value fires one edge, the same value none. *)
Lemma Cell_Set_edges c v : v ≠ cell_value c → cell_edges (Cell_Set c v) = S (cell_edges c).
Proof. intros. unfold Cell_Set. by rewrite decide_False. Qed.
End cells.
Arguments Cell : clear implicits.

(** ** Runs *)

(** The state after a list of inputs and what each of them returned. *)
Fixpoint run {S I O} (step : S → I → S * O) (s : S) (inputs : list I) : S * list O :=
  match inputs with
  | [] => (s, [])
  | i :: inputs => let '(s, o) := step s i in let '(s, os) := run step s inputs in (s, o :: os)
  end.

Lemma run_snoc {S I O} (step : S → I → S * O) s l i :
  run step s (l ++ [i]) = ((step (run step s l).1 i).1, (run step s l).2 ++ [(step (run step s l).1 i).2]).
Proof.
  revert s. induction l as [|i' l IH]; intros s; simpl; [by destruct (step s i)|].
  destruct (step s i') as [s' o]. rewrite IH. by destruct (run step s' l).
Qed.

Lemma run_length {S I O} (step : S → I → S * O) s l : length (run step s l).2 = length l.
Proof. revert s. induction l as [|i l IH]; intros s; simpl; [done|]. destruct (step s i) as [s' o]. specialize (IH s'). destruct (run step s' l). simpl in *. by f_equal. Qed.

(** A property of the inputs, the outputs and the state that every step extends. *)
Lemma run_invariant {S I O} (step : S → I → S * O) (P : list I → list O → S → Prop) s :
  P [] [] s → (∀ l os s i, P l os s → P (l ++ [i]) (os ++ [(step s i).2]) (step s i).1) →
  ∀ l, P l (run step s l).2 (run step s l).1.
Proof.
  intros H0 Hs l. induction l as [|i l IH] using rev_ind; [done|]. rewrite run_snoc. by apply Hs.
Qed.
