(* ===== verification/Hlc.v ===== *)
(** * Hlc: the hybrid logical clock and the CRDT plane

    Models src/hlc.go (stamps and clock) and src/crdt.go (per-peer stamp
    frontier, causal-stability watermark, CRDT plane).  A clock or plane is a
    record; each method returns the new record next to its Go result. *)

From S2P Require Import Prelude.
Local Open Scope Z_scope.

(** ** Data and operations *)

(** [types.go] [PeerId = int64] *)
Definition PeerId : Type := Z.

(** [hlc.go] [type HlcStamp] *)
Record HlcStamp := mkHlcStamp { WallTime : Z; Logical : Z; StampPeer : PeerId }.

#[export] Instance HlcStamp_eq_dec : EqDecision HlcStamp.
Proof. solve_decision. Defined.
#[export] Instance HlcStamp_countable : Countable HlcStamp.
Proof.
  refine (inj_countable' (λ s, (WallTime s, Logical s, StampPeer s))
    (λ '(w, l, p), mkHlcStamp w l p) _). by intros [].
Defined.

(** [hlc.go] [NewHlcStamp] *)
Definition NewHlcStamp (wallTime logical : Z) (peer : PeerId) : HlcStamp :=
  mkHlcStamp wallTime logical peer.

(** [hlc.go] [HlcStamp.Compare] *)
Definition HlcStamp_Compare (s other : HlcStamp) : Z :=
  if negb (WallTime s =? WallTime other) then
    if WallTime s <? WallTime other then -1 else 1
  else if negb (Logical s =? Logical other) then
    if Logical s <? Logical other then -1 else 1
  else if negb (StampPeer s =? StampPeer other) then
    if StampPeer s <? StampPeer other then -1 else 1
  else 0.

(** [hlc.go] [HlcStamp.Less] *)
Definition HlcStamp_Less s other := HlcStamp_Compare s other <? 0.
(** [hlc.go] [HlcStamp.LessEqual] *)
Definition HlcStamp_LessEqual s other := HlcStamp_Compare s other <=? 0.
(** [hlc.go] [HlcStamp.Greater] *)
Definition HlcStamp_Greater s other := 0 <? HlcStamp_Compare s other.
(** [hlc.go] [HlcStamp.GreaterEqual] *)
Definition HlcStamp_GreaterEqual s o := 0 <=? HlcStamp_Compare s o.

(** [hlc.go] [MinStamp] *)
Definition MinStamp (a b : HlcStamp) : HlcStamp := if HlcStamp_LessEqual a b then a else b.
(** [hlc.go] [MaxStamp] *)
Definition MaxStamp (a b : HlcStamp) : HlcStamp := if HlcStamp_GreaterEqual a b then a else b.

(** [hlc.go] [type Hlc] *)
Record Hlc := mkHlc { hlc_peer : PeerId; lastWall : Z; lastLogical : Z }.

(** [hlc.go] [NewHlc] *)
Definition NewHlc (peer : PeerId) : Hlc := mkHlc peer 0 0.

(** [hlc.go] [Hlc.Tick] *)
Definition Hlc_Tick (h : Hlc) (nowMicros : Z) : Hlc * HlcStamp :=
  let '(wall, logical) :=
    if lastWall h <? nowMicros then (nowMicros, 0)
    else (lastWall h, lastLogical h +ₛ 1) in
  (mkHlc (hlc_peer h) wall logical, mkHlcStamp wall logical (hlc_peer h)).

(** [hlc.go] [max2] *)
Definition max2 (a b : Z) : Z := if b <=? a then a else b.
(** [hlc.go] [max3] *)
Definition max3 (a b c : Z) : Z := max2 (max2 a b) c.

(** [hlc.go] [Hlc.Observe] *)
Definition Hlc_Observe (h : Hlc) (remote : HlcStamp) (nowMicros : Z) : Hlc * HlcStamp :=
  let wall := max3 (lastWall h) (WallTime remote) nowMicros in
  let logical :=
    if (wall =? lastWall h) && (wall =? WallTime remote) then
      max2 (lastLogical h) (Logical remote) +ₛ 1
    else if wall =? lastWall h then lastLogical h +ₛ 1
    else if wall =? WallTime remote then Logical remote +ₛ 1
    else 0 in
  (mkHlc (hlc_peer h) wall logical, mkHlcStamp wall logical (hlc_peer h)).

(** The wire mirror of a stamp; [ipc.go] owns the type. *)
(** [ipc.go] [type WireStamp] *)
Record WireStamp := mkWireStamp { wsWallTime : Z; wsLogical : Z; wsPeer : PeerId }.

(** [crdt.go] [HlcStamp.ToWire] *)
Definition HlcStamp_ToWire (s : HlcStamp) : WireStamp :=
  mkWireStamp (WallTime s) (Logical s) (StampPeer s).
(** [crdt.go] [HlcStampFromWire] *)
Definition HlcStampFromWire (stamp : WireStamp) : HlcStamp :=
  mkHlcStamp (wsWallTime stamp) (wsLogical stamp) (wsPeer stamp).

(** [ipc.go] [type StampFrontierEntry] *)
Record StampFrontierEntry := mkStampFrontierEntry { sfePeer : PeerId; sfeStamp : WireStamp }.

(** [crdt.go] [type StampFrontier] *)
Definition StampFrontier : Type := gmap PeerId HlcStamp.
#[global] Typeclasses Transparent StampFrontier.

(** [crdt.go] [NewStampFrontier] *)
Definition NewStampFrontier : gmap PeerId HlcStamp := ∅.

(** [crdt.go] [StampFrontier.Observe] *)
Definition StampFrontier_Observe (f : gmap PeerId HlcStamp) (peer : PeerId) (stamp : HlcStamp)
    : gmap PeerId HlcStamp * bool :=
  match f !! peer with
  | Some cur => if HlcStamp_GreaterEqual cur stamp then (f, false)
                else (<[peer := stamp]> f, true)
  | None => (<[peer := stamp]> f, true)
  end.

(** [crdt.go] [StampFrontierFromWire] *)
Definition StampFrontierFromWire (entries : list StampFrontierEntry) : gmap PeerId HlcStamp :=
  foldl (λ f e, (StampFrontier_Observe f (sfePeer e) (HlcStampFromWire (sfeStamp e))).1)
    NewStampFrontier entries.

(** Ascending order of peer ids, the comparison [sort.Slice] is given. *)
Definition peers_sorted (s : gset PeerId) : list PeerId := merge_sort Z.le (elements s).

(** [crdt.go] [StampFrontier.Peers] *)
Definition StampFrontier_Peers (f : gmap PeerId HlcStamp) : list PeerId := peers_sorted (dom f).
(** [crdt.go] [StampFrontier.Knows] *)
Definition StampFrontier_Knows (f : gmap PeerId HlcStamp) (peer : PeerId) : bool :=
  bool_decide (is_Some (f !! peer)).
(** [crdt.go] [StampFrontier.Get] *)
Definition StampFrontier_Get (f : gmap PeerId HlcStamp) (peer : PeerId) : option HlcStamp :=
  f !! peer.

(** The range over [other.stamps], in the iteration order [order]. *)
Definition StampFrontier_MergeIn (order : list (PeerId * HlcStamp)) (f : gmap PeerId HlcStamp)
    : gmap PeerId HlcStamp * bool :=
  fold_changed (λ f ps, StampFrontier_Observe f ps.1 ps.2) f order.

(** [crdt.go] [StampFrontier.Merge] *)
Definition StampFrontier_Merge (f other : gmap PeerId HlcStamp) : gmap PeerId HlcStamp * bool :=
  StampFrontier_MergeIn (map_to_list other) f.

(** [crdt.go] [StampFrontier.Watermark] *)
Fixpoint Watermark_loop (f : gmap PeerId HlcStamp) (membership : list PeerId)
    (min : option HlcStamp) : option HlcStamp :=
  match membership with
  | [] => min
  | peer :: rest =>
      match f !! peer with
      | None => None
      | Some stamp =>
          Watermark_loop f rest
            (Some match min with None => stamp | Some m => MinStamp m stamp end)
      end
  end.
Definition StampFrontier_Watermark f membership : option HlcStamp :=
  Watermark_loop f membership None.

(** [crdt.go] [StampFrontier.ToWire] *)
Definition StampFrontier_ToWire (f : gmap PeerId HlcStamp) : list StampFrontierEntry :=
  omap (λ p, (λ s, mkStampFrontierEntry p (HlcStamp_ToWire s)) <$> f !! p)
    (StampFrontier_Peers f).

(** [crdt.go] [type CrdtPlane] *)
Record CrdtPlane := mkCrdtPlane {
  self : PeerId;
  clock : Hlc;
  frontier : gmap PeerId HlcStamp;
  membership : gset PeerId;
}.

(** [crdt.go] [NewCrdtPlane] *)
Definition NewCrdtPlane (self : PeerId) : CrdtPlane :=
  mkCrdtPlane self (NewHlc self) NewStampFrontier ∅.

(** [crdt.go] [CrdtPlane.Membership] *)
Definition CrdtPlane_Membership (p : CrdtPlane) : list PeerId := peers_sorted (membership p).

(** [crdt.go] [CrdtPlane.Tick] *)
Definition CrdtPlane_Tick (p : CrdtPlane) (nowMicros : Z) : CrdtPlane * HlcStamp :=
  let '(clock', stamp) := Hlc_Tick (clock p) nowMicros in
  (mkCrdtPlane (self p) clock'
     (StampFrontier_Observe (frontier p) (self p) stamp).1
     ({[self p]} ∪ membership p), stamp).

(** [crdt.go] [CrdtPlane.ObserveRemote] *)
Definition CrdtPlane_ObserveRemote (p : CrdtPlane) (remote : HlcStamp) (nowMicros : Z)
    : CrdtPlane * HlcStamp :=
  let '(clock', stamp) := Hlc_Observe (clock p) remote nowMicros in
  (mkCrdtPlane (self p) clock'
     (StampFrontier_Observe (frontier p) (StampPeer remote) remote).1
     ({[StampPeer remote]} ∪ membership p), stamp).

(** [crdt.go] [CrdtPlane.StabilityWatermark] *)
Definition CrdtPlane_StabilityWatermark (p : CrdtPlane) : option HlcStamp :=
  StampFrontier_Watermark (frontier p) (CrdtPlane_Membership p).

(** [crdt.go] [CrdtPlane.IsCollectable] *)
Definition CrdtPlane_IsCollectable (p : CrdtPlane) (stamp : HlcStamp) : bool :=
  match CrdtPlane_StabilityWatermark p with
  | Some w => HlcStamp_LessEqual stamp w
  | None => false
  end.

(** ** The stamp order *)

#[export] Instance HlcStamp_compare : StrictCompare HlcStamp HlcStamp_Compare.
Proof.
  split.
  - intros [w l p] [w' l' p']; unfold HlcStamp_Compare; simpl. repeat case_match; auto.
  - intros [w l p] [w' l' p']; unfold HlcStamp_Compare; simpl.
    split; [|intros [=]]; repeat case_match; intros; simplify_eq; try done; try f_equal; lia.
  - intros [w l p] [w' l' p']; unfold HlcStamp_Compare; simpl. repeat case_match; lia.
  - intros [w l p] [w' l' p'] [w'' l'' p'']; unfold HlcStamp_Compare; simpl.
    repeat case_match; lia.
Qed.

(** Case analysis of every stamp comparison of the goal into linear facts
    about the three components. *)
Ltac stamp_cases :=
  unfold MinStamp, MaxStamp, HlcStamp_LessEqual, HlcStamp_GreaterEqual,
    HlcStamp_Less, HlcStamp_Greater in *;
  repeat match goal with
  | |- context [(?a <=? ?b)] => destruct (Z.leb_spec a b)
  | |- context [(?a <? ?b)] => destruct (Z.ltb_spec a b)
  | H : context [(?a <=? ?b)] |- _ => destruct (Z.leb_spec a b)
  | H : context [(?a <? ?b)] |- _ => destruct (Z.ltb_spec a b)
  end.

Lemma HlcStamp_Compare_flip s t : HlcStamp_Compare t s = - HlcStamp_Compare s t.
Proof. apply cmp_anti. Qed.

Lemma HlcStamp_Compare_lt s t :
  HlcStamp_Compare s t < 0 ↔
    WallTime s < WallTime t ∨
    WallTime s = WallTime t ∧
      (Logical s < Logical t ∨ Logical s = Logical t ∧ StampPeer s < StampPeer t).
Proof. unfold HlcStamp_Compare. repeat case_match; lia. Qed.

Lemma MaxStamp_cmp_max a b : MaxStamp a b = cmp_max (cmp := HlcStamp_Compare) a b.
Proof.
  unfold MaxStamp, cmp_max, HlcStamp_GreaterEqual. rewrite (HlcStamp_Compare_flip a b).
  stamp_cases; try done; lia.
Qed.

Lemma MinStamp_le a b c :
  HlcStamp_Compare c (MinStamp a b) ≤ 0 ↔ HlcStamp_Compare c a ≤ 0 ∧ HlcStamp_Compare c b ≤ 0.
Proof.
  pose proof (HlcStamp_Compare_flip a b).
  unfold MinStamp, HlcStamp_LessEqual. stamp_cases.
  - split; [|tauto]. intros. split; [done|].
    by eapply (cmp_trans_le (cmp := HlcStamp_Compare) c a b).
  - split; [|tauto]. intros. split; [|done].
    eapply (cmp_trans_le (cmp := HlcStamp_Compare) c b a); [done|lia].
Qed.

(** ** The clock *)

(** The stamp the clock last returned, the bound every later stamp exceeds. *)
Definition Hlc_last (h : Hlc) : HlcStamp := mkHlcStamp (lastWall h) (lastLogical h) (hlc_peer h).

(** Room left in the logical counter for one more event. *)
Definition logical_room (l : Z) : Prop := - two63 ≤ l < max_i64.

Lemma Hlc_Tick_last h now : (Hlc_Tick h now).2 = Hlc_last (Hlc_Tick h now).1.
Proof. unfold Hlc_Tick, Hlc_last. by case_match. Qed.

Lemma Hlc_Tick_lt h now :
  logical_room (lastLogical h) →
  HlcStamp_Compare (Hlc_last h) (Hlc_Tick h now).2 < 0.
Proof.
  unfold logical_room. intros Hr. apply HlcStamp_Compare_lt.
  unfold Hlc_Tick, Hlc_last. destruct (Z.ltb_spec (lastWall h) now); simpl; [lia|].
  rewrite i64_small by zrange. lia.
Qed.

Lemma max2_max a b : max2 a b = Z.max a b.
Proof. unfold max2. case_match; lia. Qed.

Lemma Hlc_Observe_lt h r now :
  logical_room (lastLogical h) → logical_room (Logical r) →
  HlcStamp_Compare (Hlc_last h) (Hlc_Observe h r now).2 < 0 ∧
  HlcStamp_Compare r (Hlc_Observe h r now).2 < 0.
Proof.
  unfold logical_room. intros Hh Hr. rewrite !HlcStamp_Compare_lt.
  unfold Hlc_Observe, Hlc_last, max3. rewrite !max2_max. simpl.
  repeat match goal with |- context [(?a =? ?b)] => destruct (Z.eqb_spec a b) end;
    simpl; try lia; rewrite i64_small by zrange; lia.
Qed.

(** Events of a clock: a local tick or the receipt of a remote stamp. *)
Inductive HlcEvent := EvTick (now : Z) | EvObserve (remote : HlcStamp) (now : Z).

Definition Hlc_step (h : Hlc) (e : HlcEvent) : Hlc * HlcStamp :=
  match e with EvTick now => Hlc_Tick h now | EvObserve r now => Hlc_Observe h r now end.

Fixpoint Hlc_run (h : Hlc) (es : list HlcEvent) : list HlcStamp :=
  match es with
  | [] => []
  | e :: es => (Hlc_step h e).2 :: Hlc_run (Hlc_step h e).1 es
  end.

(** Every stamp of the run, and every remote stamp, leaves room to increment. *)
Fixpoint Hlc_run_room (h : Hlc) (es : list HlcEvent) : Prop :=
  match es with
  | [] => True
  | e :: es => logical_room (lastLogical h) ∧
      match e with EvTick _ => True | EvObserve r _ => logical_room (Logical r) end ∧
      Hlc_run_room (Hlc_step h e).1 es
  end.

Definition stamp_lt (s t : HlcStamp) : Prop := HlcStamp_Compare s t < 0.

#[export] Instance stamp_lt_trans : Transitive stamp_lt.
Proof. intros x y z. apply cmp_trans. Qed.

Lemma Hlc_step_last h e : (Hlc_step h e).2 = Hlc_last (Hlc_step h e).1.
Proof. destruct e; simpl; [apply Hlc_Tick_last|]. unfold Hlc_Observe, Hlc_last. by case_match. Qed.

Lemma Hlc_step_lt h e :
  logical_room (lastLogical h) →
  match e with EvTick _ => True | EvObserve r _ => logical_room (Logical r) end →
  stamp_lt (Hlc_last h) (Hlc_step h e).2.
Proof. intros Hh Hr. destruct e; [by apply Hlc_Tick_lt|by apply Hlc_Observe_lt]. Qed.

Lemma Hlc_run_above h es :
  Hlc_run_room h es → StronglySorted stamp_lt (Hlc_run h es) ∧
    Forall (stamp_lt (Hlc_last h)) (Hlc_run h es).
Proof.
  revert h. induction es as [|e es IH]; intros h Hroom; simpl; [by split; constructor|].
  destruct Hroom as (Hh & Hr & Hroom). apply IH in Hroom as [Hs Ha].
  rewrite <-Hlc_step_last in Ha. pose proof (Hlc_step_lt h e Hh Hr) as Hlt.
  split; constructor; try done.
  eapply Forall_impl; [done|]. intros s Hs'. by etrans.
Qed.

(** ** The frontier *)

Definition opt_max (o : option HlcStamp) (s : HlcStamp) : option HlcStamp :=
  Some (match o with Some c => MaxStamp c s | None => s end).

Lemma Observe_spec f p s :
  (StampFrontier_Observe f p s).1 = partial_alter (λ o, opt_max o s) p f.
Proof.
  apply map_eq. intros q. unfold StampFrontier_Observe, opt_max, MaxStamp.
  destruct (decide (p = q)) as [->|Hne].
  - rewrite lookup_partial_alter_eq.
    destruct (f !! q) as [c|] eqn:E; simpl; [|by rewrite lookup_insert_eq].
    case_match; simpl; [by rewrite E|by rewrite lookup_insert_eq].
  - rewrite lookup_partial_alter_ne by done.
    destruct (f !! p) as [c|]; [case_match|]; simpl; try rewrite lookup_insert_ne; done.
Qed.

Lemma Observe_unchanged f p s :
  (StampFrontier_Observe f p s).2 = false → (StampFrontier_Observe f p s).1 = f.
Proof. unfold StampFrontier_Observe. repeat case_match; done. Qed.

Lemma Observe_flag f p s :
  (StampFrontier_Observe f p s).2 = true ↔ opt_max (f !! p) s ≠ f !! p.
Proof.
  unfold StampFrontier_Observe, opt_max, MaxStamp.
  destruct (f !! p) as [c|]; [|naive_solver].
  destruct (HlcStamp_GreaterEqual c s) eqn:E; simpl; [naive_solver|].
  split; [|done]. intros _ [= ->]. unfold HlcStamp_GreaterEqual in E.
  by rewrite (cmp_refl (cmp := HlcStamp_Compare)) in E.
Qed.

Lemma MergeIn_fold order f :
  (StampFrontier_MergeIn order f).1 = fold_entries (λ _ o s, opt_max o s) f order.
Proof.
  unfold StampFrontier_MergeIn. rewrite fold_changed_state. unfold fold_entries.
  revert f. induction order as [|[p s] l IH]; intros f; simpl; [done|].
  by rewrite Observe_spec, IH.
Qed.

Lemma Merge_lookup f g p :
  (StampFrontier_Merge f g).1 !! p =
    match g !! p with Some s => opt_max (f !! p) s | None => f !! p end.
Proof. unfold StampFrontier_Merge. rewrite MergeIn_fold. apply fold_entries_map_lookup. Qed.

Lemma Merge_union_with f g :
  (StampFrontier_Merge f g).1 = union_with (λ a b, Some (MaxStamp a b)) f g.
Proof.
  apply map_eq. intros p. rewrite Merge_lookup, lookup_union_with.
  by destruct (f !! p), (g !! p).
Qed.

#[export] Instance StampFrontier_join :
  Join (gmap PeerId HlcStamp) (λ f g, (StampFrontier_Merge f g).1) (λ _, True).
Proof.
  pose proof (cmp_max_join (cmp := HlcStamp_Compare)) as J.
  split; [done|..]; intros; rewrite ?Merge_union_with; apply map_eq; intros p;
    rewrite ?lookup_union_with.
  - destruct (x !! p), (y !! p); simpl; try done. f_equal.
    rewrite !MaxStamp_cmp_max. by apply (join_comm (Join := J)).
  - destruct (x !! p), (y !! p), (z !! p); simpl; try done. f_equal.
    rewrite !MaxStamp_cmp_max. by apply (join_assoc (Join := J)).
  - destruct (x !! p); simpl; try done. f_equal.
    rewrite !MaxStamp_cmp_max. by apply (join_idem (Join := J)).
Qed.

(** ** The causal-stability watermark *)

Lemma Watermark_loop_spec f ms min c :
  (∃ w, Watermark_loop f ms min = Some w ∧ HlcStamp_Compare c w ≤ 0) ↔
  (ms ≠ [] ∨ is_Some min) ∧
  (∀ m, min = Some m → HlcStamp_Compare c m ≤ 0) ∧
  (∀ p, p ∈ ms → ∃ s, f !! p = Some s ∧ HlcStamp_Compare c s ≤ 0).
Proof.
  revert min. induction ms as [|p ms IH]; intros min; simpl.
  - split.
    + intros (w & -> & Hw). split_and!; [by right; eauto|by intros ? [= <-]|set_solver].
    + intros ([|[m ->]] & Hm & _); [done|]. eauto.
  - setoid_rewrite elem_of_cons. destruct (f !! p) as [s|] eqn:Hp.
    + rewrite IH. split.
      * intros (_ & Hm & Hall). specialize (Hm _ eq_refl). split_and!; [by left|..].
        -- intros m ->. by apply MinStamp_le in Hm as [].
        -- intros q [->|Hq]; [|by apply Hall]. exists s. split; [done|].
           destruct min; [by apply MinStamp_le in Hm as []|done].
      * intros (_ & Hm & Hall). split_and!; [by right; eauto|..].
        -- intros m [= <-]. destruct (Hall p) as (s' & Hs' & Hc); [by left|].
           rewrite Hp in Hs'. simplify_eq.
           destruct min as [m|]; [|done]. apply MinStamp_le. auto.
        -- intros q Hq. apply Hall. by right.
    + split; [intros (? & ? & _); done|]. intros (_ & _ & Hall).
      destruct (Hall p) as (? & ? & _); [by left|]. congruence.
Qed.

Lemma elem_of_peers_sorted s p : p ∈ peers_sorted s ↔ p ∈ s.
Proof. unfold peers_sorted. rewrite merge_sort_Permutation. set_solver. Qed.

Lemma peers_sorted_NoDup s : NoDup (peers_sorted s).
Proof. unfold peers_sorted. rewrite merge_sort_Permutation. apply NoDup_elements. Qed.

Lemma peers_sorted_strict s : StronglySorted Z.lt (peers_sorted s).
Proof.
  pose proof (peers_sorted_NoDup s) as Hnd.
  assert (Hs : StronglySorted Z.le (peers_sorted s)) by apply (StronglySorted_merge_sort Z.le _).
  induction Hs as [|x l Hs IH Hx]; [constructor|].
  apply NoDup_cons in Hnd as [Hnx Hnd]. constructor; [by apply IH|].
  rewrite Forall_forall in Hx |- *. intros y Hy. specialize (Hx y Hy).
  assert (x ≠ y) by (by intros ->). lia.
Qed.

Lemma peers_sorted_nil s : peers_sorted s = [] ↔ s = ∅.
Proof.
  split.
  - intros Hn. apply set_eq. intros p. rewrite <-elem_of_peers_sorted, Hn. set_solver.
  - intros ->. done.
Qed.

(** ** Wire form *)

Lemma StampFromWire_ToWire s : HlcStampFromWire (HlcStamp_ToWire s) = s.
Proof. by destruct s. Qed.

Definition frontier_entries (f : gmap PeerId HlcStamp) (ps : list PeerId) : list (PeerId * HlcStamp) :=
  omap (λ p, (λ s, (p, s)) <$> f !! p) ps.

Lemma frontier_entries_elem f ps p s :
  (p, s) ∈ frontier_entries f ps ↔ p ∈ ps ∧ f !! p = Some s.
Proof.
  unfold frontier_entries. rewrite list_elem_of_omap. split.
  - intros (q & Hq & Heq). destruct (f !! q) eqn:E; naive_solver.
  - intros [Hp Hs]. exists p. by rewrite Hs.
Qed.

Lemma frontier_entries_NoDup f ps : NoDup ps → NoDup (frontier_entries f ps).*1.
Proof.
  induction 1 as [|p ps Hp _ IH]; simpl; [constructor|].
  unfold frontier_entries in *; simpl. destruct (f !! p) as [s|]; simpl; [|done].
  constructor; [|done]. intros ([q t] & -> & Hin)%list_elem_of_fmap.
  apply frontier_entries_elem in Hin as [Hin _]. done.
Qed.

Lemma FromWire_fold es f :
  foldl (λ f e, (StampFrontier_Observe f (sfePeer e) (HlcStampFromWire (sfeStamp e))).1) f es =
  fold_entries (λ _ o s, opt_max o s) f
    ((λ e, (sfePeer e, HlcStampFromWire (sfeStamp e))) <$> es).
Proof.
  unfold fold_entries. revert f. induction es as [|e es IH]; intros f; simpl; [done|].
  by rewrite Observe_spec, IH.
Qed.

Lemma ToWire_entries f :
  (λ e, (sfePeer e, HlcStampFromWire (sfeStamp e))) <$> StampFrontier_ToWire f =
  frontier_entries f (StampFrontier_Peers f).
Proof.
  unfold StampFrontier_ToWire, frontier_entries.
  induction (StampFrontier_Peers f) as [|p ps IH]; simpl; [done|].
  destruct (f !! p); simpl; [|exact IH]. f_equal; [by rewrite StampFromWire_ToWire|exact IH].
Qed.

Lemma list_to_map_frontier_entries f :
  list_to_map (frontier_entries f (StampFrontier_Peers f)) = f.
Proof.
  apply map_eq. intros p. destruct (f !! p) as [s|] eqn:E.
  - apply elem_of_list_to_map_1.
    + apply frontier_entries_NoDup, peers_sorted_NoDup.
    + apply frontier_entries_elem. split; [|done].
      apply elem_of_peers_sorted, elem_of_dom. eauto.
  - apply not_elem_of_list_to_map_1. intros ([q t] & -> & Hin)%list_elem_of_fmap.
    apply frontier_entries_elem in Hin as [_ Hin]. simpl in *. congruence.
Qed.

(** ** Properties *)

(** C29: The clock promises what every CRDT of the program relies on.  Along any
    sequence of local ticks and received remote stamps, the stamps the clock
    returns are strictly increasing in the (wall, logical, peer) order whatever
    the wall-clock arguments are (they may go backwards), and the stamp returned
    by a receive exceeds the received one; the only assumption is that the
    logical counters stay below the largest int64. *)
Theorem Hlc_stamps_increase h es :
  Hlc_run_room h es →
  StronglySorted stamp_lt (Hlc_run h es) ∧
  ∀ n r now h', es !! n = Some (EvObserve r now) →
    h' = foldl (λ h e, (Hlc_step h e).1) h (take n es) →
    HlcStamp_Less r (Hlc_Observe h' r now).2 = true.
Proof.
  intros Hroom. split; [by apply Hlc_run_above|]. intros n r now h' Hn ->.
  revert h es Hroom Hn. induction n as [|n IH]; intros h [|e es] Hroom Hn; try done;
    destruct Hroom as (Hh & Hr & Hroom); simpl in *; [|by apply IH].
  simplify_eq. apply Z.ltb_lt. by apply Hlc_Observe_lt.
Qed.

Definition hlc_demo : list HlcEvent :=
  [EvTick 5; EvTick 5; EvObserve (mkHlcStamp 9 3 2) 7; EvTick 1].

Lemma Hlc_stamps_increase_witness :
  Hlc_run (NewHlc 1) hlc_demo =
    [mkHlcStamp 5 0 1; mkHlcStamp 5 1 1; mkHlcStamp 9 4 1; mkHlcStamp 9 5 1] ∧
  StronglySorted stamp_lt (Hlc_run (NewHlc 1) hlc_demo).
Proof.
  split; [reflexivity|]. apply (Hlc_stamps_increase (NewHlc 1) hlc_demo).
  simpl. unfold logical_room, two63, max_i64. vm_compute. intuition discriminate.
Defined.

(** Merging frontiers is a join, so replicas converge: the merge is
    commutative, associative and idempotent, gives the same frontier for every
    order in which Go may range over the other map, and reports a change
    exactly when the frontier changed. *)
Theorem StampFrontier_Merge_converges (f g h : gmap PeerId HlcStamp) order :
  order ≡ₚ map_to_list g →
  StampFrontier_MergeIn order f = StampFrontier_Merge f g ∧
  (StampFrontier_Merge f g).1 = (StampFrontier_Merge g f).1 ∧
  (StampFrontier_Merge f (StampFrontier_Merge g h).1).1 =
    (StampFrontier_Merge (StampFrontier_Merge f g).1 h).1 ∧
  (StampFrontier_Merge f f).1 = f ∧
  ((StampFrontier_Merge f g).2 = true ↔ (StampFrontier_Merge f g).1 ≠ f).
Proof.
  intros Ho. pose proof StampFrontier_join as J.
  assert (Hnd : NoDup (map_to_list g).*1) by apply NoDup_fst_map_to_list.
  split_and!.
  - symmetry. apply (keyed_fold_perm (λ _ o s, opt_max o s)); try done.
    + intros. apply Observe_spec.
    + intros. apply exact_flag, Observe_flag.
  - by apply (join_comm (Join := J)).
  - by apply (join_assoc (Join := J)).
  - by apply (join_idem (Join := J)).
  - apply (keyed_fold_flag (λ _ o s, opt_max o s)); try done.
    + intros. apply Observe_spec.
    + intros. apply exact_flag, Observe_flag.
Qed.

Definition frontier_demo1 : gmap PeerId HlcStamp := {[1 := mkHlcStamp 5 0 1]}.
Definition frontier_demo2 : gmap PeerId HlcStamp :=
  {[1 := mkHlcStamp 4 9 1; 2 := mkHlcStamp 7 0 2]}.

Lemma StampFrontier_Merge_converges_witness :
  map_to_list frontier_demo2 ≡ₚ map_to_list frontier_demo2 ∧
  (StampFrontier_Merge frontier_demo1 frontier_demo2).1 =
    (StampFrontier_Merge frontier_demo2 frontier_demo1).1 ∧
  (StampFrontier_Merge frontier_demo1 frontier_demo2).2 = true.
Proof.
  split; [done|]. split; [|reflexivity].
  by apply (StampFrontier_Merge_converges frontier_demo1 frontier_demo2 ∅
              (map_to_list frontier_demo2)).
Defined.

(** [IsCollectable] is sound and complete for causal stability: a delete
    stamp is collectable exactly when the membership is not empty and every
    member has been observed at a stamp at or after it. *)
Theorem CrdtPlane_collectable_iff_observed_everywhere (p : CrdtPlane) (s : HlcStamp) :
  CrdtPlane_IsCollectable p s = true ↔
  membership p ≠ ∅ ∧
  ∀ m, m ∈ membership p →
    ∃ t, StampFrontier_Get (frontier p) m = Some t ∧ HlcStamp_LessEqual s t = true.
Proof.
  unfold CrdtPlane_IsCollectable, CrdtPlane_StabilityWatermark, StampFrontier_Watermark,
    HlcStamp_LessEqual, StampFrontier_Get.
  pose proof (Watermark_loop_spec (frontier p) (CrdtPlane_Membership p) None s) as Hspec.
  trans (∃ w, Watermark_loop (frontier p) (CrdtPlane_Membership p) None = Some w ∧
              HlcStamp_Compare s w ≤ 0).
  { destruct (Watermark_loop _ _ _) as [w|]; [rewrite Z.leb_le|]; naive_solver. }
  rewrite Hspec. unfold CrdtPlane_Membership. rewrite peers_sorted_nil.
  setoid_rewrite elem_of_peers_sorted. setoid_rewrite Z.leb_le.
  split; [|naive_solver]. intros ([|[??]] & _ & ?); naive_solver.
Qed.

(** The wire form of a frontier is lossless and deterministic: decoding
    what [ToWire] emitted rebuilds the frontier, and the emitted entries are in
    ascending peer order without duplicates. *)
Theorem StampFrontier_wire_roundtrip (f : gmap PeerId HlcStamp) :
  StampFrontierFromWire (StampFrontier_ToWire f) = f ∧
  StronglySorted Z.lt (sfePeer <$> StampFrontier_ToWire f).
Proof.
  split.
  - unfold StampFrontierFromWire. rewrite FromWire_fold, ToWire_entries.
    apply map_eq. intros p. rewrite fold_entries_lookup
      by apply frontier_entries_NoDup, peers_sorted_NoDup.
    rewrite list_to_map_frontier_entries. unfold NewStampFrontier.
    rewrite lookup_empty. by destruct (f !! p).
  - assert (Hp : sfePeer <$> StampFrontier_ToWire f = StampFrontier_Peers f).
    { assert (Hd : Forall (λ p, is_Some (f !! p)) (StampFrontier_Peers f)).
      { apply Forall_forall. intros p Hp. by apply elem_of_peers_sorted, elem_of_dom in Hp. }
      unfold StampFrontier_ToWire.
      induction Hd as [|p ps [s Hs] Hd IH]; simpl; [done|].
      rewrite Hs; simpl. f_equal. exact IH. }
    rewrite Hp. apply peers_sorted_strict.
Qed.
