(* ===== verification/KeyedOrder.v ===== *)
(** * KeyedOrder: present set and key order of the keyed maps

    Models src/keyed_order.go, the graph-independent half of every reactive
    map: handle bookkeeping, the authoritative key list, and atomic moves done
    by an in-place slice rotation. *)

From S2P Require Import Prelude.

(** ** Data and operations *)

(** [keyed_order.go] [type keyedOrder] *)
Record keyedOrder (K H : Type) `{Countable K} := mkKeyedOrder {
  entries : gmap K H;
  order : list K;
}.
Arguments mkKeyedOrder {_ _ _ _} _ _.
Arguments entries {_ _ _ _} _.
Arguments order {_ _ _ _} _.

(** [keyed_order.go] [type mapMutation] *)
Inductive mapMutation := mutationNone | mutationInserted | mutationRemoved.
(** [keyed_order.go] [mapMutation.changed] *)
Definition mapMutation_changed (m : mapMutation) : bool :=
  match m with mutationNone => false | _ => true end.

(** [keyed_order.go] [type mapMove] *)
Inductive mapMove := moveMissing | moveUnchanged | moveReordered.
(** [keyed_order.go] [mapMove.applied] *)
Definition mapMove_applied (m : mapMove) : bool :=
  match m with moveMissing => false | _ => true end.
(** [keyed_order.go] [mapMove.changed] *)
Definition mapMove_changed (m : mapMove) : bool :=
  match m with moveReordered => true | _ => false end.

(** Go's [copy(l[dst:dst+n], l[src:src+n])] on one slice (memmove). *)
Definition copy_within {A} (l : list A) (dst src n : nat) : list A :=
  take dst l ++ take n (drop src l) ++ drop (dst + n) l.

Section operations.
Context {K H : Type} `{Countable K}.
Implicit Types (k : keyedOrder K H) (key anchor : K) (h : H).

(** [keyed_order.go] [newKeyedOrder] *)
Definition newKeyedOrder : keyedOrder K H := mkKeyedOrder ∅ [].

(** [keyed_order.go] [keyedOrder.get] *)
Definition keyedOrder_get k key : option H := entries k !! key.

(** [keyed_order.go] [keyedOrder.contains] *)
Definition keyedOrder_contains k key : bool := bool_decide (is_Some (entries k !! key)).

(** [keyed_order.go] [keyedOrder.keys] *)
Definition keyedOrder_keys k : list K := order k.

(** [keyed_order.go] [keyedOrder.length] *)
Definition keyedOrder_length k : nat := length (order k).

(** The first index of a key, the loop of [position] and [remove]. *)
Fixpoint index_of (key : K) (l : list K) : option nat :=
  match l with
  | [] => None
  | existing :: l => if decide (existing = key) then Some 0 else S <$> index_of key l
  end.

(** [keyed_order.go] [keyedOrder.position] *)
Definition keyedOrder_position k key : option nat := index_of key (order k).

(** [keyed_order.go] [keyedOrder.insert] *)
Definition keyedOrder_insert k key h : keyedOrder K H * (H * mapMutation) :=
  match entries k !! key with
  | Some existing => (k, (existing, mutationNone))
  | None => (mkKeyedOrder (<[key := h]> (entries k)) (order k ++ [key]), (h, mutationInserted))
  end.

(** [keyed_order.go] [keyedOrder.remove] *)
Definition keyedOrder_remove k key : keyedOrder K H * (option H * mapMutation) :=
  match entries k !! key with
  | None => (k, (None, mutationNone))
  | Some handle =>
      let order' :=
        match index_of key (order k) with
        | Some i => take i (order k) ++ drop (i + 1) (order k)
        | None => order k
        end in
      (mkKeyedOrder (delete key (entries k)) order', (Some handle, mutationRemoved))
  end.

(** [keyed_order.go] [keyedOrder.rotate] *)
Definition rotate (l : list K) (from to : nat) : list K :=
  match l !! from with
  | None => l
  | Some moved =>
      let l' :=
        if decide (from < to) then copy_within l from (from + 1) (to - from)
        else copy_within l (to + 1) to (from - to) in
      <[to := moved]> l'
  end.

(** [keyed_order.go] [keyedOrder.moveTo] *)
Definition keyedOrder_moveTo k key (index : Z) : keyedOrder K H * mapMove :=
  match keyedOrder_position k key with
  | None => (k, moveMissing)
  | Some from =>
      let to := index in
      let to := if (to <? 0)%Z then 0%Z else to in
      let last := (Z.of_nat (length (order k)) - 1)%Z in
      let to := if (last <? to)%Z then last else to in
      if (Z.of_nat from =? to)%Z then (k, moveUnchanged)
      else (mkKeyedOrder (entries k) (rotate (order k) from (Z.to_nat to)), moveReordered)
  end.

(** [keyed_order.go] [keyedOrder.moveBefore] *)
Definition keyedOrder_moveBefore k key anchor : keyedOrder K H * mapMove :=
  match keyedOrder_position k anchor with
  | None => (k, moveMissing)
  | Some anchorIdx =>
      match keyedOrder_position k key with
      | None => (k, moveMissing)
      | Some from =>
          let target := if decide (from < anchorIdx) then (Z.of_nat anchorIdx - 1)%Z
                        else Z.of_nat anchorIdx in
          keyedOrder_moveTo k key target
      end
  end.

(** [keyed_order.go] [keyedOrder.moveAfter] *)
Definition keyedOrder_moveAfter k key anchor : keyedOrder K H * mapMove :=
  match keyedOrder_position k anchor with
  | None => (k, moveMissing)
  | Some anchorIdx =>
      match keyedOrder_position k key with
      | None => (k, moveMissing)
      | Some from =>
          let target := if decide (from ≤ anchorIdx) then Z.of_nat anchorIdx
                        else (Z.of_nat anchorIdx + 1)%Z in
          keyedOrder_moveTo k key target
      end
  end.
End operations.

(** ** The lockstep invariant and the reference move *)

Section facts.
Context {K H : Type} `{Countable K}.
Implicit Types (k : keyedOrder K H) (key anchor : K) (l : list K).

(** Every key of [entries] appears exactly once in [order] and vice versa. *)
Definition lockstep k : Prop :=
  NoDup (order k) ∧ ∀ key, key ∈ order k ↔ is_Some (entries k !! key).

Lemma index_of_Some key l i :
  index_of key l = Some i → l !! i = Some key ∧ key ∉ take i l.
Proof.
  revert i. induction l as [|x l IH]; intros i; simpl; [done|].
  destruct (decide (x = key)) as [->|Hne]; [intros [= <-]; simpl; set_solver|].
  destruct (index_of key l) as [j|]; intros [= <-]. simpl.
  destruct (IH j eq_refl). split; [done|]. set_solver.
Qed.

Lemma index_of_app key pre post : key ∉ pre → index_of key (pre ++ key :: post) = Some (length pre).
Proof.
  induction pre as [|x pre IH]; intros Hin; simpl; [by rewrite decide_True|].
  rewrite decide_False by set_solver. rewrite IH by set_solver. done.
Qed.

Lemma index_of_None key l : index_of key l = None ↔ key ∉ l.
Proof.
  induction l as [|x l IH]; simpl; [set_solver|].
  destruct (decide (x = key)) as [->|Hne]; [set_solver|].
  destruct (index_of key l); simpl; set_solver.
Qed.

(** A present key splits a duplicate-free list at its index. *)
Lemma index_of_split key l :
  NoDup l → key ∈ l →
  ∃ pre post, l = pre ++ key :: post ∧ index_of key l = Some (length pre) ∧
              (key ∉ pre) ∧ (key ∉ post).
Proof.
  intros Hnd Hin. destruct (index_of key l) as [i|] eqn:E.
  - apply index_of_Some in E as [Hi Hpre].
    exists (take i l), (drop (S i) l). rewrite take_drop_middle by done.
    assert (i < length l) by (by apply lookup_lt_Some in Hi).
    split_and!; [done|by rewrite length_take_le by lia|done|].
    rewrite <-(take_drop_middle l i key) in Hnd by done.
    apply NoDup_app in Hnd as (_ & _ & Hnd). apply NoDup_cons in Hnd. naive_solver.
  - by apply index_of_None in E.
Qed.

(** Lift [key] out of the list, then insert it at [to]. *)
Definition move_ref (key : K) (to : nat) (l : list K) : list K :=
  let l' := filter (λ x, x ≠ key) l in take to l' ++ key :: drop to l'.

Lemma filter_ne_notin key l : key ∉ l → filter (λ x, x ≠ key) l = l.
Proof.
  intros Hin. induction l as [|x l IH]; [done|].
  rewrite filter_cons_True by set_solver. rewrite IH by set_solver. done.
Qed.

Lemma filter_ne_split key pre post :
  key ∉ pre → key ∉ post → filter (λ x, x ≠ key) (pre ++ key :: post) = pre ++ post.
Proof.
  intros H1 H2. rewrite filter_app, filter_cons_False by naive_solver.
  by rewrite !filter_ne_notin.
Qed.

Lemma split_at {A} n (l : list A) :
  n ≤ length l → ∃ l1 l2 : list A, l = l1 ++ l2 ∧ length l1 = n.
Proof.
  intros Hn. exists (take n l), (drop n l). by rewrite take_drop, length_take_le.
Qed.

Lemma copy_up {A} (pre p1 p2 : list A) x :
  copy_within (pre ++ x :: p1 ++ p2) (length pre) (length pre + 1) (length p1) =
  pre ++ p1 ++ drop (length p1) (x :: p1) ++ p2.
Proof.
  unfold copy_within. rewrite take_app_length, !drop_app_add. simpl.
  by rewrite drop_0, take_app_length, app_comm_cons, drop_app_le by (simpl; lia).
Qed.

Lemma rotate_up key pre p1 p2 :
  p1 ≠ [] →
  rotate (pre ++ key :: p1 ++ p2) (length pre) (length pre + length p1) = pre ++ p1 ++ key :: p2.
Proof.
  intros Hp1. assert (0 < length p1) by (destruct p1; simpl; [done|lia]).
  unfold rotate. rewrite list_lookup_middle, decide_True by (done || lia).
  replace (length pre + length p1 - length pre) with (length p1) by lia.
  rewrite copy_up.
  destruct (drop (length p1) (key :: p1)) as [|z q] eqn:E.
  { apply (f_equal length) in E. rewrite length_drop in E. simpl in E. lia. }
  assert (q = []) as ->.
  { apply (f_equal length) in E. rewrite length_drop in E. simpl in E.
    destruct q; [done|simpl in E; lia]. }
  rewrite <-length_app, app_assoc. simpl.
  by rewrite insert_app_r_alt, Nat.sub_diag, <-app_assoc by lia.
Qed.

Lemma rotate_down key a b post :
  rotate (a ++ b ++ key :: post) (length a + length b) (length a) = a ++ key :: b ++ post.
Proof.
  unfold rotate. rewrite app_assoc, <-length_app, list_lookup_middle by done.
  rewrite decide_False by (rewrite length_app; lia).
  rewrite length_app, <-app_assoc.
  replace (length a + length b - length a) with (length b) by lia.
  unfold copy_within. rewrite drop_app_length, take_app_length.
  replace (length a + 1 + length b) with (length a + (length b + 1)) by lia.
  rewrite !drop_app_add. simpl. rewrite drop_0.
  rewrite take_app_add. destruct (b ++ key :: post) as [|y q] eqn:E; [by destruct b|].
  simpl. rewrite <-app_assoc. simpl.
  rewrite insert_app_r_alt, Nat.sub_diag by lia. done.
Qed.

Lemma rotate_ref key pre post to :
  key ∉ pre → key ∉ post → to ≤ length pre + length post → to ≠ length pre →
  rotate (pre ++ key :: post) (length pre) to = move_ref key to (pre ++ key :: post).
Proof.
  intros H1 H2 Hto Hne. unfold move_ref. rewrite filter_ne_split by done.
  destruct (decide (length pre < to)) as [Hlt|Hge].
  - destruct (split_at (to - length pre) post) as (p1 & p2 & -> & Hl); [lia|].
    replace to with (length pre + length p1) by lia.
    rewrite rotate_up by (intros ->; simpl in Hl; lia).
    rewrite take_app_add, drop_app_add, take_app_length, drop_app_length.
    by rewrite <-app_assoc.
  - destruct (split_at to pre) as (a & b & -> & <-); [lia|].
    rewrite length_app, <-!app_assoc, rotate_down.
    by rewrite take_app_length, drop_app_length.
Qed.

Lemma move_ref_same key pre post :
  key ∉ pre → key ∉ post → move_ref key (length pre) (pre ++ key :: post) = pre ++ key :: post.
Proof.
  intros. unfold move_ref. rewrite filter_ne_split by done.
  by rewrite take_app_length, drop_app_length.
Qed.

Lemma move_ref_perm key to l : NoDup l → key ∈ l → move_ref key to l ≡ₚ l.
Proof.
  intros Hnd Hin. destruct (index_of_split key l) as (pre & post & -> & _ & H1 & H2); try done.
  unfold move_ref. rewrite filter_ne_split by done.
  rewrite <-Permutation_middle, take_drop. by rewrite <-Permutation_middle.
Qed.

Lemma NoDup_split_unique {A} (x : A) p q p' q' :
  NoDup (p ++ x :: q) → p ++ x :: q = p' ++ x :: q' → p' = p ∧ q' = q.
Proof.
  revert p'. induction p as [|y p IH]; intros [|y' p'] Hnd Heq; simpl in *; simplify_eq; try done.
  - apply NoDup_cons in Hnd as [Hnd _]. set_solver.
  - apply NoDup_cons in Hnd as [Hnd _]. set_solver.
  - apply NoDup_cons in Hnd as [_ Hnd]. naive_solver.
Qed.

(** A move to another index changes the order, a move to the own index does not. *)
Lemma move_ref_changed key to l :
  NoDup l → key ∈ l → to < length l →
  mapMove_applied (if decide (index_of key l = Some to) then moveUnchanged else moveReordered) = true ∧
  (mapMove_changed (if decide (index_of key l = Some to) then moveUnchanged else moveReordered) = true
     ↔ move_ref key to l ≠ l).
Proof.
  intros Hnd Hin Hto. destruct (index_of_split key l) as (pre & post & -> & Hi & H1 & H2); [done..|].
  rewrite Hi. case_decide as Hd; simpl; (split; [done|]).
  - injection Hd as <-. rewrite move_ref_same by done. naive_solver.
  - split; [|done]. intros _ Heq. apply Hd. rewrite <-Hi, <-Heq at 1.
    unfold move_ref. rewrite filter_ne_split by done.
    rewrite index_of_app by (intros (? & Hx%list_elem_of_lookup_2 & _)%elem_of_take; set_solver).
    rewrite length_app in *. simpl in Hto. by rewrite length_take_le by (rewrite length_app; lia).
Qed.

(** [moveTo] on a duplicate-free order, as lift-and-insert at the clamped index. *)
Definition clamp_index (index : Z) (len : nat) : nat :=
  Z.to_nat (Z.min (Z.of_nat len - 1) (Z.max 0 index)).

Lemma moveTo_ref k key index :
  lockstep k → key ∈ order k →
  keyedOrder_moveTo k key index =
    (mkKeyedOrder (entries k) (move_ref key (clamp_index index (length (order k))) (order k)),
     if decide (index_of key (order k) = Some (clamp_index index (length (order k))))
     then moveUnchanged else moveReordered).
Proof.
  intros [Hnd Hl] Hin.
  destruct (index_of_split key (order k)) as (pre & post & Hord & Hidx & H1 & H2); try done.
  unfold keyedOrder_moveTo, keyedOrder_position. rewrite Hidx. simpl.
  set (to := clamp_index index (length (order k))).
  assert (Hlen : length (order k) = S (length pre + length post))
    by (rewrite Hord, length_app; simpl; lia).
  assert (Hto : (let to := if (index <? 0)%Z then 0%Z else index in
     if (Z.of_nat (length (order k)) - 1 <? to)%Z then (Z.of_nat (length (order k)) - 1)%Z
     else to) = Z.of_nat to).
  { unfold to, clamp_index. simpl. repeat case_match; lia. }
  simpl in Hto. rewrite Hto, Nat2Z.id.
  assert (to ≤ length pre + length post) by (unfold to, clamp_index; lia).
  destruct (Z.eqb_spec (Z.of_nat (length pre)) (Z.of_nat to)) as [E|E].
  - apply Nat2Z.inj in E. rewrite decide_True by congruence. f_equal.
    destruct k as [es ord]; simpl in *. f_equal. rewrite Hord, <-E. by rewrite move_ref_same.
  - rewrite decide_False by (intros [=]; lia). do 2 f_equal.
    rewrite Hord. apply rotate_ref; [done..|lia].
Qed.

Lemma moveTo_missing k key index :
  key ∉ order k → keyedOrder_moveTo k key index = (k, moveMissing).
Proof.
  intros Hin. unfold keyedOrder_moveTo, keyedOrder_position.
  by rewrite (proj2 (index_of_None _ _)).
Qed.

Lemma moveTo_lockstep k key index : lockstep k → lockstep (keyedOrder_moveTo k key index).1.
Proof.
  intros Hk. destruct (decide (key ∈ order k)) as [Hin|Hin].
  - rewrite moveTo_ref by done. destruct Hk as [Hnd Hl]. simpl.
    assert (Hp := move_ref_perm key (clamp_index index (length (order k))) _ Hnd Hin).
    split; simpl; [by rewrite Hp|]. intros k'. by rewrite Hp.
  - by rewrite moveTo_missing.
Qed.

Lemma moveTo_entries k key index : entries (keyedOrder_moveTo k key index).1 = entries k.
Proof. unfold keyedOrder_moveTo. by repeat case_match. Qed.

Lemma insert_lockstep k key h : lockstep k → lockstep (keyedOrder_insert k key h).1.
Proof.
  intros [Hnd Hl]. unfold keyedOrder_insert.
  destruct (entries k !! key) as [e|] eqn:E; [done|]. simpl.
  assert (Hn : key ∉ order k) by (rewrite Hl, E; by intros []).
  split; simpl.
  - apply NoDup_app. split_and!; [done|set_solver|by apply NoDup_singleton].
  - intros k'. rewrite elem_of_app, list_elem_of_singleton, Hl, lookup_insert_is_Some'.
    naive_solver.
Qed.

Lemma remove_order k key :
  lockstep k → order (keyedOrder_remove k key).1 = filter (λ x, x ≠ key) (order k).
Proof.
  intros [Hnd Hl]. unfold keyedOrder_remove.
  destruct (entries k !! key) as [e|] eqn:E; simpl.
  - assert (Hin : key ∈ order k) by (rewrite Hl, E; eauto).
    destruct (index_of_split key (order k)) as (pre & post & Ho & -> & H1 & H2); try done.
    rewrite Ho, take_app_length, filter_ne_split, drop_app_add by done. done.
  - rewrite filter_ne_notin; [done|]. rewrite Hl, E. by intros [].
Qed.

Lemma remove_lockstep k key : lockstep k → lockstep (keyedOrder_remove k key).1.
Proof.
  intros Hk. pose proof (remove_order k key Hk) as Ho. destruct Hk as [Hnd Hl].
  split; rewrite Ho.
  - by apply NoDup_filter.
  - intros k'. rewrite list_elem_of_filter, Hl. unfold keyedOrder_remove.
    destruct (entries k !! key) as [e|] eqn:E; simpl.
    + rewrite lookup_delete_is_Some. naive_solver.
    + split; [naive_solver|]. intros Hs. split; [|done]. intros ->. rewrite E in Hs. by destruct Hs.
Qed.

(** Any move is a [moveTo] or reports a missing key. *)
Lemma moveBefore_moveTo k key anchor :
  (∃ i, keyedOrder_moveBefore k key anchor = keyedOrder_moveTo k key i) ∨
  keyedOrder_moveBefore k key anchor = (k, moveMissing).
Proof. unfold keyedOrder_moveBefore. repeat case_match; eauto. Qed.

Lemma moveAfter_moveTo k key anchor :
  (∃ i, keyedOrder_moveAfter k key anchor = keyedOrder_moveTo k key i) ∨
  keyedOrder_moveAfter k key anchor = (k, moveMissing).
Proof. unfold keyedOrder_moveAfter. repeat case_match; eauto. Qed.

(** In a duplicate-free order without [key], the anchor's index is one less
    when the key stood before it. *)
Lemma anchor_index l key anchor i j :
  NoDup l → key ≠ anchor → index_of key l = Some i → index_of anchor l = Some j →
  ∃ pre post, filter (λ x, x ≠ key) l = pre ++ anchor :: post ∧
    length pre = (if decide (i < j) then j - 1 else j) ∧ length l = S (S (length pre + length post)).
Proof.
  intros Hnd Hne Hi Hj.
  destruct (index_of_split key l) as (a & b & -> & Hi' & Ha & Hb); [done| |].
  { apply index_of_Some in Hi as [? _]. by eapply list_elem_of_lookup_2. }
  rewrite Hi in Hi'. injection Hi' as ->. rewrite filter_ne_split by done.
  apply NoDup_app in Hnd as (Hnda & Hab & Hndb). apply NoDup_cons in Hndb as [_ Hndb].
  assert (Hx : anchor ∈ a ∨ anchor ∈ b).
  { apply index_of_Some in Hj as [Hj _]. apply list_elem_of_lookup_2 in Hj. set_solver. }
  destruct Hx as [Hx|Hx].
  - destruct (index_of_split anchor a) as (p & q & -> & _ & Hp & Hq); [done..|].
    rewrite <-app_assoc in Hj. simpl in Hj. rewrite index_of_app in Hj by done.
    injection Hj as <-. exists p, (q ++ b). rewrite <-app_assoc. simpl.
    rewrite ?length_app; simpl; rewrite ?length_app; simpl.
    split_and!; [done|case_decide; lia|lia].
  - destruct (index_of_split anchor b) as (p & q & -> & _ & Hp & Hq); [done..|].
    change (key :: p ++ anchor :: q) with ((key :: p) ++ anchor :: q) in Hj.
    rewrite (app_assoc a), index_of_app in Hj.
    2: { rewrite not_elem_of_app, not_elem_of_cons. split_and!; [|done|done].
         intros ?. eapply Hab; [done|]. set_solver. }
    injection Hj as <-. exists (a ++ p), q. rewrite <-app_assoc.
    rewrite ?length_app; simpl; rewrite ?length_app; simpl.
    split_and!; [done|case_decide; lia|lia].
Qed.

(** [moveBefore] and [moveAfter] on a well-formed order, as an edit of the
    order without the key. *)
Lemma moveBefore_ref k key anchor :
  lockstep k → key ≠ anchor → key ∈ order k → anchor ∈ order k →
  ∃ pre post, filter (λ x, x ≠ key) (order k) = pre ++ anchor :: post ∧
    order (keyedOrder_moveBefore k key anchor).1 = pre ++ key :: anchor :: post.
Proof.
  intros Hk Hne Hin Hina. destruct Hk as [Hnd Hl].
  destruct (index_of_split key (order k)) as (? & ? & _ & Hi & _); [done..|].
  destruct (index_of_split anchor (order k)) as (? & ? & _ & Hj & _); [done..|].
  destruct (anchor_index _ _ _ _ _ Hnd Hne Hi Hj) as (pre & post & Hf & Hpre & Hlen).
  exists pre, post. split; [done|].
  unfold keyedOrder_moveBefore, keyedOrder_position. rewrite Hi, Hj.
  rewrite moveTo_ref by done. simpl. unfold move_ref. rewrite Hf.
  replace (clamp_index _ _) with (length pre) by (unfold clamp_index; case_decide; lia).
  by rewrite take_app_length, drop_app_length.
Qed.

Lemma moveAfter_ref k key anchor :
  lockstep k → key ≠ anchor → key ∈ order k → anchor ∈ order k →
  ∃ pre post, filter (λ x, x ≠ key) (order k) = pre ++ anchor :: post ∧
    order (keyedOrder_moveAfter k key anchor).1 = pre ++ anchor :: key :: post.
Proof.
  intros Hk Hne Hin Hina. destruct Hk as [Hnd Hl].
  destruct (index_of_split key (order k)) as (p1 & ? & _ & Hi & _); [done..|].
  destruct (index_of_split anchor (order k)) as (p2 & ? & _ & Hj & _); [done..|].
  assert (length p1 ≠ length p2).
  { intros Heq. apply Hne. apply index_of_Some in Hi as [Hi _], Hj as [Hj _]. congruence. }
  destruct (anchor_index _ _ _ _ _ Hnd Hne Hi Hj) as (pre & post & Hf & Hpre & Hlen).
  exists pre, post. split; [done|].
  unfold keyedOrder_moveAfter, keyedOrder_position. rewrite Hi, Hj.
  rewrite moveTo_ref by done. simpl. unfold move_ref. rewrite Hf.
  replace (clamp_index _ _) with (length pre + 1)
    by (unfold clamp_index; repeat case_decide; lia).
  by rewrite take_app_add, drop_app_add, <-app_assoc.
Qed.
End facts.

(** ** Properties *)

(** Operations of the present set, for the reachability statement. *)
Inductive koOp (K H : Type) :=
| OpInsert (key : K) (h : H)
| OpRemove (key : K)
| OpMoveTo (key : K) (index : Z)
| OpMoveBefore (key anchor : K)
| OpMoveAfter (key anchor : K).
Arguments OpInsert {_ _}. Arguments OpRemove {_ _}. Arguments OpMoveTo {_ _}.
Arguments OpMoveBefore {_ _}. Arguments OpMoveAfter {_ _}.

Definition ko_step {K H} `{Countable K} (k : keyedOrder K H) (op : koOp K H) : keyedOrder K H :=
  match op with
  | OpInsert key h => (keyedOrder_insert k key h).1
  | OpRemove key => (keyedOrder_remove k key).1
  | OpMoveTo key i => (keyedOrder_moveTo k key i).1
  | OpMoveBefore key a => (keyedOrder_moveBefore k key a).1
  | OpMoveAfter key a => (keyedOrder_moveAfter k key a).1
  end.

Lemma ko_step_lockstep {K H} `{Countable K} (k : keyedOrder K H) op :
  lockstep k → lockstep (ko_step k op).
Proof.
  intros Hk. destruct op; simpl.
  - by apply insert_lockstep.
  - by apply remove_lockstep.
  - by apply moveTo_lockstep.
  - destruct (moveBefore_moveTo k key anchor) as [[i ->]| ->]; [by apply moveTo_lockstep|done].
  - destruct (moveAfter_moveTo k key anchor) as [[i ->]| ->]; [by apply moveTo_lockstep|done].
Qed.

(** Entries and order never desync: after any sequence of inserts,
    removals and moves (present or missing keys, any indices), every key of the
    present set appears exactly once in the order and vice versa. *)
Theorem keyedOrder_lockstep {K H} `{Countable K} (ops : list (koOp K H)) :
  lockstep (foldl ko_step newKeyedOrder ops).
Proof.
  apply foldl_invariant; [|intros; by apply ko_step_lockstep].
  split; simpl; [constructor|]. intros key. rewrite lookup_empty. split; [set_solver|by intros []].
Qed.

(** The in-place rotation implements the atomic-move algebra.  On a
    well-formed order, [moveTo] lifts the key out and reinserts it at the index
    clamped to the list; [moveBefore] (resp. [moveAfter]) puts it directly
    before (after) its anchor and keeps the relative order of all other keys,
    whichever side the key came from; no handle changes; and a move is reported
    as reordered exactly when the order changed. *)
Theorem keyedOrder_moves_refine {K H} `{Countable K} (k : keyedOrder K H) key anchor index :
  lockstep k → key ≠ anchor → key ∈ order k → anchor ∈ order k →
  (∃ pre post,
    filter (λ x, x ≠ key) (order k) = pre ++ anchor :: post ∧
    order (keyedOrder_moveBefore k key anchor).1 = pre ++ key :: anchor :: post ∧
    order (keyedOrder_moveAfter k key anchor).1 = pre ++ anchor :: key :: post) ∧
  order (keyedOrder_moveTo k key index).1 =
    move_ref key (clamp_index index (length (order k))) (order k) ∧
  (∀ m, m = keyedOrder_moveTo k key index ∨ m = keyedOrder_moveBefore k key anchor ∨
        m = keyedOrder_moveAfter k key anchor →
    entries m.1 = entries k ∧ mapMove_applied m.2 = true ∧
    (mapMove_changed m.2 = true ↔ order m.1 ≠ order k)).
Proof.
  intros Hk Hne Hin Hina.
  assert (Hmove : ∀ m, (∃ i, m = keyedOrder_moveTo k key i) →
    entries m.1 = entries k ∧ mapMove_applied m.2 = true ∧
    (mapMove_changed m.2 = true ↔ order m.1 ≠ order k)).
  { intros m [i ->]. rewrite moveTo_ref by done. simpl. split; [done|].
    apply move_ref_changed; [apply Hk|done|].
    unfold clamp_index. destruct (order k); [by apply not_elem_of_nil in Hin|simpl; lia]. }
  split_and!.
  - destruct (moveBefore_ref k key anchor) as (pre & post & Hf & Hb); [done..|].
    destruct (moveAfter_ref k key anchor) as (pre' & post' & Hf' & Ha); [done..|].
    exists pre, post. split_and!; [done..|]. rewrite Ha.
    assert (pre' = pre ∧ post' = post) as [-> ->]; [|done].
    rewrite Hf in Hf'. assert (Hnd : NoDup (pre ++ anchor :: post))
      by (rewrite <-Hf; by apply NoDup_filter, Hk).
    by apply NoDup_split_unique in Hf'.
  - by rewrite moveTo_ref.
  - intros m [->|[->| ->]]; apply Hmove; [by eauto| |].
    + destruct Hk as [Hnd Hl]. unfold keyedOrder_moveBefore, keyedOrder_position.
      destruct (index_of_split key (order k)) as (? & ? & _ & -> & _); [done..|].
      destruct (index_of_split anchor (order k)) as (? & ? & _ & -> & _); eauto.
    + destruct Hk as [Hnd Hl]. unfold keyedOrder_moveAfter, keyedOrder_position.
      destruct (index_of_split key (order k)) as (? & ? & _ & -> & _); [done..|].
      destruct (index_of_split anchor (order k)) as (? & ? & _ & -> & _); eauto.
Qed.

Definition order_demo : keyedOrder nat nat :=
  foldl ko_step newKeyedOrder [OpInsert 1 10; OpInsert 2 20; OpInsert 3 30; OpInsert 4 40].

Lemma keyedOrder_moves_refine_witness :
  order (keyedOrder_moveBefore order_demo 1 4).1 = [2; 3; 1; 4] ∧
  mapMove_changed (keyedOrder_moveBefore order_demo 1 4).2 = true.
Proof.
  split; [reflexivity|].
  assert (Hl : lockstep order_demo).
  { split; [apply (bool_decide_unpack _); by vm_compute|].
    intros key. change (order order_demo) with [1; 2; 3; 4].
    rewrite <-(elem_of_dom (D := gset nat)).
    replace (dom (entries order_demo)) with (list_to_set [1; 2; 3; 4] : gset nat)
      by (by vm_compute).
    by rewrite elem_of_list_to_set. }
  apply (keyedOrder_moves_refine order_demo 1 4 0%Z Hl).
  - done.
  - change (order order_demo) with [1; 2; 3; 4]. set_solver.
  - change (order order_demo) with [1; 2; 3; 4]. set_solver.
  - by right; left.
  - done.
Defined.
