(* ===== verification/LatestDurable.v ===== *)
(** * LatestDurable: the latest-value durable projection authority

    Models src/latest_durable_projection_core.go: a per-key state machine that
    conflates pending revisions, allows one in-flight attempt per key, advances
    a monotone durable frontier and fences stale actors by generation.  Each
    method returns the new core, the reported change and the outcome. *)

From S2P Require Import Prelude.
Local Open Scope Z_scope.

(** ** Data *)

(** [latest_durable_projection_core.go] [type LatestDurableRevision] *)
Record LatestDurableRevision (V : Type) := mkRevision { rEpoch : Z; rValue : V }.
Arguments mkRevision {_}. Arguments rEpoch {_}. Arguments rValue {_}.

(** [latest_durable_projection_core.go] [type LatestDurableEnvelope] *)
Record LatestDurableEnvelope (K V : Type) := mkEnvelope {
  eGeneration : Z; eKey : K; eEpoch : Z; eValue : V }.
Arguments mkEnvelope {_ _}. Arguments eGeneration {_ _}. Arguments eKey {_ _}.
Arguments eEpoch {_ _}. Arguments eValue {_ _}.

(** [latest_durable_projection_core.go] [const LatestDurableUpsertAccepted] *)
Inductive LatestDurableUpsert :=
| UpsertAccepted
| UpsertUnchanged
| UpsertAlreadyDurable (durableThrough : Z)
| UpsertStaleEpoch (current : Z)
| UpsertEpochConflict.

(** [latest_durable_projection_core.go] [const LatestDurableClaimClaimed] *)
Inductive LatestDurableClaim (K V : Type) :=
| ClaimClaimed (envelope : LatestDurableEnvelope K V)
| ClaimEmpty
| ClaimBusy
| ClaimStaleGeneration (current : Z).
Arguments ClaimClaimed {_ _}. Arguments ClaimEmpty {_ _}. Arguments ClaimBusy {_ _}.
Arguments ClaimStaleGeneration {_ _}.

(** [latest_durable_projection_core.go] [const LatestDurableAckAdvanced] *)
Inductive LatestDurableAck :=
| AckAdvanced (durableThrough : Z)
| AckUnchanged (durableThrough : Z)
| AckUnknownEpoch
| AckStaleGeneration (current : Z).

(** [latest_durable_projection_core.go] [const LatestDurableFailurePending] *)
Inductive LatestDurableFailure :=
| FailurePending
| FailureSuperseded
| FailureUnknownEpoch
| FailureStaleGeneration (current : Z).

(** [latest_durable_projection_core.go] [const LatestDurableReconnectAdvanced] *)
Inductive LatestDurableReconnect :=
| ReconnectAdvanced (generation : Z) (requeued superseded : nat)
| ReconnectUnchanged (generation : Z)
| ReconnectStaleGeneration (current : Z).

(** [latest_durable_projection_core.go] [type latestDurableEntry] *)
Record latestDurableEntry (K V : Type) := mkEntry {
  desired : option (LatestDurableRevision V);
  inflight : option (LatestDurableEnvelope K V);
  durableThrough : option Z;
}.
Arguments mkEntry {_ _}. Arguments desired {_ _}. Arguments inflight {_ _}.
Arguments durableThrough {_ _}.

(** [latest_durable_projection_core.go] [type LatestDurableProjectionCore] *)
Record LatestDurableProjectionCore (K V : Type) `{Countable K} := mkCore {
  generation : Z;
  entries : gmap K (latestDurableEntry K V);
}.
Arguments mkCore {_ _ _ _}. Arguments generation {_ _ _ _}. Arguments entries {_ _ _ _}.

(** ** Operations *)

Section operations.
Context {K V : Type} `{Countable K} `{!EqDecision V}.
Implicit Types (core : LatestDurableProjectionCore K V) (key : K).

(** [latest_durable_projection_core.go] [NewLatestDurableProjectionCore] *)
Definition NewLatestDurableProjectionCore (generation : Z) : LatestDurableProjectionCore K V :=
  mkCore generation ∅.

(** [latest_durable_projection_core.go] [LatestDurableProjectionCore.Count] *)
Definition Count core : nat := size (entries core).

(** The zero entry [&latestDurableEntry{}]. *)
Definition zero_entry : latestDurableEntry K V := mkEntry None None None.

(** [latest_durable_projection_core.go] [LatestDurableProjectionCore.entry] *)
Definition entry core key : LatestDurableProjectionCore K V * latestDurableEntry K V :=
  match entries core !! key with
  | Some e => (core, e)
  | None => (mkCore (generation core) (<[key := zero_entry]> (entries core)), zero_entry)
  end.

(** Assigning the fields of the entry the pointer [entry] points to. *)
Definition set_entry core key e : LatestDurableProjectionCore K V :=
  mkCore (generation core) (<[key := e]> (entries core)).

(** [latest_durable_projection_core.go] [LatestDurableProjectionCore.State] *)
Definition State core key : option (latestDurableEntry K V) := entries core !! key.

(** [latest_durable_projection_core.go] [LatestDurableProjectionCore.Snapshot] *)
Definition Snapshot core : Z * gmap K (latestDurableEntry K V) := (generation core, entries core).

(** [latest_durable_projection_core.go] [LatestDurableProjectionCore.Pending] *)
Definition Pending core key : bool :=
  match entries core !! key with
  | Some e => match inflight e, desired e with None, Some _ => true | _, _ => false end
  | None => false
  end.

(** The newest revision among desired and in-flight. *)
Definition newest_revision (e : latestDurableEntry K V) : option (LatestDurableRevision V) :=
  match inflight e with
  | Some i =>
      match desired e with
      | Some n => if rEpoch n <? eEpoch i then Some (mkRevision (eEpoch i) (eValue i)) else Some n
      | None => Some (mkRevision (eEpoch i) (eValue i))
      end
  | None => desired e
  end.

(** [latest_durable_projection_core.go] [LatestDurableProjectionCore.UpsertDesired] *)
Definition UpsertDesired core key (epoch : Z) (value : V)
    : LatestDurableProjectionCore K V * bool * LatestDurableUpsert :=
  let '(core, e) := entry core key in
  let accept :=
    (set_entry core key (mkEntry (Some (mkRevision epoch value)) (inflight e) (durableThrough e)),
     true, UpsertAccepted) in
  let check_newest :=
    match newest_revision e with
    | Some newest =>
        if epoch <? rEpoch newest then (core, false, UpsertStaleEpoch (rEpoch newest))
        else if epoch =? rEpoch newest then
          if decide (value = rValue newest) then (core, false, UpsertUnchanged)
          else (core, false, UpsertEpochConflict)
        else accept
    | None => accept
    end in
  match durableThrough e with
  | Some d => if epoch <=? d then (core, false, UpsertAlreadyDurable d) else check_newest
  | None => check_newest
  end.

(** [latest_durable_projection_core.go] [LatestDurableProjectionCore.Claim] *)
Definition Claim core key (gen : Z)
    : LatestDurableProjectionCore K V * bool * LatestDurableClaim K V :=
  if negb (gen =? generation core) then (core, false, ClaimStaleGeneration (generation core))
  else
    let '(core, e) := entry core key in
    match inflight e, desired e with
    | Some _, _ => (core, false, ClaimBusy)
    | None, None => (core, false, ClaimEmpty)
    | None, Some d =>
        let envelope := mkEnvelope (generation core) key (rEpoch d) (rValue d) in
        (set_entry core key (mkEntry None (Some envelope) (durableThrough e)),
         true, ClaimClaimed envelope)
    end.

(** [latest_durable_projection_core.go] [LatestDurableProjectionCore.AckApplied] *)
Definition AckApplied core key (gen epoch : Z)
    : LatestDurableProjectionCore K V * bool * LatestDurableAck :=
  if negb (gen =? generation core) then (core, false, AckStaleGeneration (generation core))
  else
    let '(core, e) := entry core key in
    let unknown :=
      match durableThrough e with
      | Some d => if epoch <=? d then (core, false, AckUnchanged d)
                  else (core, false, AckUnknownEpoch)
      | None => (core, false, AckUnknownEpoch)
      end in
    match inflight e with
    | None => unknown
    | Some i =>
        if negb (eEpoch i =? epoch) then unknown
        else
          let advanced :=
            (set_entry core key (mkEntry (desired e) None (Some epoch)), true, AckAdvanced epoch) in
          match durableThrough e with
          | None => advanced
          | Some d =>
              if d <? epoch then advanced
              else (set_entry core key (mkEntry (desired e) None (Some d)), true, AckUnchanged d)
          end
    end.

(** [latest_durable_projection_core.go] [LatestDurableProjectionCore.FailRetryable] *)
Definition FailRetryable core key (gen epoch : Z)
    : LatestDurableProjectionCore K V * bool * LatestDurableFailure :=
  if negb (gen =? generation core) then (core, false, FailureStaleGeneration (generation core))
  else
    let '(core, e) := entry core key in
    match inflight e with
    | None => (core, false, FailureUnknownEpoch)
    | Some i =>
        if negb (eEpoch i =? epoch) then (core, false, FailureUnknownEpoch)
        else
          let pending :=
            (set_entry core key
               (mkEntry (Some (mkRevision (eEpoch i) (eValue i))) None (durableThrough e)),
             true, FailurePending) in
          match desired e with
          | Some d =>
              if eEpoch i <? rEpoch d
              then (set_entry core key (mkEntry (desired e) None (durableThrough e)),
                    true, FailureSuperseded)
              else pending
          | None => pending
          end
    end.

(** The body of the loop of [Reconnect] on one entry: the entry left behind
    and how it is counted (requeued, superseded). *)
Definition reconnect_entry (e : latestDurableEntry K V) : latestDurableEntry K V * (nat * nat) :=
  match inflight e with
  | None => (e, (0, 0)%nat)
  | Some i =>
      let requeue :=
        (mkEntry (Some (mkRevision (eEpoch i) (eValue i))) None (durableThrough e), (1, 0)%nat) in
      match desired e with
      | Some d => if eEpoch i <? rEpoch d
                  then (mkEntry (desired e) None (durableThrough e), (0, 1)%nat) else requeue
      | None => requeue
      end
  end.

(** [latest_durable_projection_core.go] [LatestDurableProjectionCore.Reconnect] *)
Definition Reconnect core (newGeneration : Z)
    : LatestDurableProjectionCore K V * bool * LatestDurableReconnect :=
  if newGeneration <? generation core then
    (core, false, ReconnectStaleGeneration (generation core))
  else if newGeneration =? generation core then
    (core, false, ReconnectUnchanged (generation core))
  else
    let counts := map_fold (λ _ e '(r, s),
      let '(_, (r', s')) := reconnect_entry e in (r + r', s + s')%nat) (0, 0)%nat (entries core) in
    (mkCore newGeneration ((λ e, (reconnect_entry e).1) <$> entries core),
     true, ReconnectAdvanced newGeneration counts.1 counts.2).
End operations.

(** ** Runs *)

Inductive ldOp (K V : Type) :=
| LdUpsert (key : K) (epoch : Z) (value : V)
| LdClaim (key : K) (gen : Z)
| LdAck (key : K) (gen epoch : Z)
| LdFail (key : K) (gen epoch : Z)
| LdReconnect (gen : Z).
Arguments LdUpsert {_ _}. Arguments LdClaim {_ _}. Arguments LdAck {_ _}.
Arguments LdFail {_ _}. Arguments LdReconnect {_ _}.

Section facts.
Context {K V : Type} `{Countable K} `{!EqDecision V}.
Implicit Types (core : LatestDurableProjectionCore K V) (key : K) (e : latestDurableEntry K V)
  (hist : gmap K (LatestDurableRevision V)).

Definition ld_step core (op : ldOp K V) : LatestDurableProjectionCore K V :=
  match op with
  | LdUpsert key ep v => (UpsertDesired core key ep v).1.1
  | LdClaim key gen => (Claim core key gen).1.1
  | LdAck key gen ep => (AckApplied core key gen ep).1.1
  | LdFail key gen ep => (FailRetryable core key gen ep).1.1
  | LdReconnect gen => (Reconnect core gen).1.1
  end.

(** What the producers asked for: per key, the last upsert that was accepted. *)
Definition ld_history core (op : ldOp K V) hist : gmap K (LatestDurableRevision V) :=
  match op with
  | LdUpsert key ep v =>
      match (UpsertDesired core key ep v).2 with
      | UpsertAccepted => <[key := mkRevision ep v]> hist
      | _ => hist
      end
  | _ => hist
  end.

Definition ld_run_from core hist (ops : list (ldOp K V)) :=
  foldl (λ '(core, hist) op, (ld_step core op, ld_history core op hist)) (core, hist) ops.

Definition ld_run (gen : Z) (ops : list (ldOp K V)) :=
  ld_run_from (NewLatestDurableProjectionCore gen) ∅ ops.

(** The entry of a key, the zero entry when there is none. *)
Definition lookup_entry core key : latestDurableEntry K V := default zero_entry (entries core !! key).

Definition olt (a b : option Z) : Prop :=
  match a, b with Some x, Some y => x < y | _, _ => True end.

(** durable < in flight < desired, and the in-flight envelope is the one the
    current generation handed out for this key. *)
Definition entry_wf (gen : Z) key e : Prop :=
  olt (durableThrough e) (eEpoch <$> inflight e) ∧
  olt (durableThrough e) (rEpoch <$> desired e) ∧
  olt (eEpoch <$> inflight e) (rEpoch <$> desired e) ∧
  match inflight e with Some i => eGeneration i = gen ∧ eKey i = key | None => True end.

(** Where the newest accepted revision of a key is. *)
Definition accounted (newest : option (LatestDurableRevision V)) e : Prop :=
  match newest with
  | None => e = zero_entry
  | Some r =>
      desired e = Some r ∨
      (desired e = None ∧ ∃ i, inflight e = Some i ∧ r = mkRevision (eEpoch i) (eValue i)) ∨
      (desired e = None ∧ inflight e = None ∧ durableThrough e = Some (rEpoch r))
  end.

Definition key_ok core hist key : Prop :=
  entry_wf (generation core) key (lookup_entry core key) ∧
  accounted (hist !! key) (lookup_entry core key).

Lemma zero_entry_wf gen key : entry_wf gen key zero_entry.
Proof. by split. Qed.

(** [entry] does not change what any key's entry reads as. *)
Lemma entry_spec core key :
  (entry core key).2 = lookup_entry core key ∧
  generation (entry core key).1 = generation core ∧
  ∀ key', lookup_entry (entry core key).1 key' = lookup_entry core key'.
Proof.
  unfold entry, lookup_entry. destruct (entries core !! key) as [e|] eqn:E; simpl; [done|].
  split_and!; [done..|]. intros key'. destruct (decide (key = key')) as [->|Hne].
  - by rewrite lookup_insert_eq, E.
  - by rewrite lookup_insert_ne.
Qed.

Lemma set_entry_lookup core key e key' :
  lookup_entry (set_entry core key e) key' = if decide (key = key') then e else lookup_entry core key'.
Proof.
  unfold lookup_entry; simpl. case_decide; subst.
  - by rewrite lookup_insert_eq.
  - by rewrite lookup_insert_ne.
Qed.

(** The shape of every single-key operation: it either leaves all entries
    reading the same or replaces the entry of its key. *)
Definition touches core key (core' : LatestDurableProjectionCore K V) e' : Prop :=
  generation core' = generation core ∧
  ∀ key', lookup_entry core' key' = if decide (key = key') then e' else lookup_entry core key'.

Lemma touches_same core key : touches core key (entry core key).1 (lookup_entry core key).
Proof.
  destruct (entry_spec core key) as (_ & Hg & Hl). split; [done|].
  intros key'. rewrite Hl. case_decide; by subst.
Qed.

Lemma touches_refl core key : touches core key core (lookup_entry core key).
Proof. split; [done|]. intros key'. case_decide; by subst. Qed.

Lemma touches_set core key e' : touches core key (set_entry (entry core key).1 key e') e'.
Proof.
  destruct (entry_spec core key) as (_ & Hg & Hl). split; [done|].
  intros key'. by rewrite set_entry_lookup, Hl.
Qed.

Lemma touches_ok core key core' e' hist hist' :
  touches core key core' e' →
  (∀ k, key_ok core hist k) →
  entry_wf (generation core) key e' → accounted (hist' !! key) e' →
  (∀ k, k ≠ key → hist' !! k = hist !! k) →
  ∀ k, key_ok core' hist' k.
Proof.
  intros [Hg Hl] Hok Hwf Hacc Hh k. unfold key_ok. rewrite Hg, Hl.
  case_decide as Hk; [by subst|]. rewrite Hh by done. apply Hok.
Qed.
End facts.

(** Open the entry of the key an operation works on. *)
Ltac open_entry core key :=
  pose proof (touches_same core key) as Hsame;
  pose proof (touches_set core key) as Hset;
  destruct (entry_spec core key) as (He & Hgen & _);
  destruct (entry core key) as [core' e0]; simpl in He, Hgen, Hsame, Hset; subst e0.

(** Split on the guards of an operation, turning boolean tests on epochs into
    arithmetic facts. *)
Ltac ld_cases :=
  repeat match goal with
  | |- context [(?a <=? ?b)] => destruct (Z.leb_spec a b); simpl
  | |- context [(?a <? ?b)] => destruct (Z.ltb_spec a b); simpl
  | |- context [(?a =? ?b)] => destruct (Z.eqb_spec a b); simpl
  | |- context [decide (?P)] => destruct (decide P); simpl
  end.

Section preservation.
Context {K V : Type} `{Countable K} `{!EqDecision V}.
Implicit Types (core : LatestDurableProjectionCore K V) (key : K)
  (hist : gmap K (LatestDurableRevision V)).

Local Ltac same_entry Hsame Hwf Hacc core key hist :=
  solve [eapply (touches_ok core key _ _ hist); [exact Hsame|done|exact Hwf|exact Hacc|done]].

(** The two obligations of a replaced entry. *)
Local Ltac ld_close hist key Hacc :=
  match goal with
  | |- entry_wf _ _ _ =>
      unfold entry_wf in *; simplify_eq/=; split_and!; try done; intuition lia
  | |- accounted _ _ =>
      unfold entry_wf in *;
      destruct (hist !! key) as [r|]; simpl in *; [|by unfold zero_entry in Hacc];
      destruct Hacc as [Hr|[(? & i & ? & ?)|(? & ? & ?)]]; simplify_eq/=; try lia;
      try (left; done);
      try (right; left; split; [done|]; eexists; split; [done|];
           match goal with |- ?r = _ => by destruct r end); try (right; right; eauto; done)
  end.

Lemma upsert_ok core hist key ep v :
  (∀ k, key_ok core hist k) →
  ∀ k, key_ok (ld_step core (LdUpsert key ep v)) (ld_history core (LdUpsert key ep v) hist) k.
Proof.
  intros Hok. destruct (Hok key) as [Hwf Hacc].
  simpl. unfold UpsertDesired, newest_revision. open_entry core key.
  destruct (lookup_entry core key) as [[de|] [fl|] [du|]] eqn:Ee; simpl in *;
  ld_cases; try same_entry Hsame Hwf Hacc core key hist.
  all: eapply (touches_ok core key _ _ hist);
    [apply Hset|done| |by rewrite lookup_insert_eq; left|by intros; rewrite lookup_insert_ne].
  all: unfold entry_wf in *; simplify_eq/=; split_and!; try done; try tauto; lia.
Qed.

Lemma claim_ok core hist key gen :
  (∀ k, key_ok core hist k) →
  ∀ k, key_ok (ld_step core (LdClaim key gen)) hist k.
Proof.
  intros Hok. destruct (Hok key) as [Hwf Hacc].
  simpl. unfold Claim. destruct (Z.eqb_spec gen (generation core)); simpl; [|done].
  open_entry core key.
  destruct (lookup_entry core key) as [[de|] [fl|] [du|]] eqn:Ee; simpl in *;
  ld_cases; try same_entry Hsame Hwf Hacc core key hist.
  all: eapply (touches_ok core key _ _ hist); [apply Hset|done| | |done].
  all: ld_close hist key Hacc.
Qed.

Lemma ack_ok core hist key gen ep :
  (∀ k, key_ok core hist k) →
  ∀ k, key_ok (ld_step core (LdAck key gen ep)) hist k.
Proof.
  intros Hok. destruct (Hok key) as [Hwf Hacc].
  simpl. unfold AckApplied. destruct (Z.eqb_spec gen (generation core)); simpl; [|done].
  open_entry core key.
  destruct (lookup_entry core key) as [[de|] [fl|] [du|]] eqn:Ee; simpl in *;
  ld_cases; try same_entry Hsame Hwf Hacc core key hist.
  all: eapply (touches_ok core key _ _ hist); [apply Hset|done| | |done].
  all: ld_close hist key Hacc.
Qed.

Lemma fail_ok core hist key gen ep :
  (∀ k, key_ok core hist k) →
  ∀ k, key_ok (ld_step core (LdFail key gen ep)) hist k.
Proof.
  intros Hok. destruct (Hok key) as [Hwf Hacc].
  simpl. unfold FailRetryable. destruct (Z.eqb_spec gen (generation core)); simpl; [|done].
  open_entry core key.
  destruct (lookup_entry core key) as [[de|] [fl|] [du|]] eqn:Ee; simpl in *;
  ld_cases; try same_entry Hsame Hwf Hacc core key hist.
  all: eapply (touches_ok core key _ _ hist); [apply Hset|done| | |done].
  all: ld_close hist key Hacc.
Qed.

Lemma reconnect_entry_ok gen gen' key (e : latestDurableEntry K V) o :
  entry_wf gen key e → accounted o e →
  entry_wf gen' key (reconnect_entry e).1 ∧ accounted o (reconnect_entry e).1 ∧
  inflight (reconnect_entry e).1 = None ∧ durableThrough (reconnect_entry e).1 = durableThrough e.
Proof.
  destruct e as [[de|] [fl|] [du|]]; unfold reconnect_entry, entry_wf; simpl; intros Hwf Hacc;
  ld_cases; split_and!; simplify_eq/=; try done; try tauto; try lia.
  all: destruct o as [r|]; simpl in *; [|by unfold zero_entry in Hacc].
  all: destruct Hacc as [Hr|[(? & i & ? & ?)|(? & ? & ?)]]; simplify_eq/=; try lia; eauto 10.
Qed.

Lemma reconnect_lookup core gen key :
  generation core < gen →
  lookup_entry (Reconnect core gen).1.1 key = (reconnect_entry (lookup_entry core key)).1.
Proof.
  intros Hlt. unfold Reconnect, lookup_entry.
  destruct (Z.ltb_spec gen (generation core)), (Z.eqb_spec gen (generation core)); try lia.
  simpl. rewrite lookup_fmap. by destruct (entries core !! key).
Qed.

Lemma reconnect_ok core hist gen :
  (∀ k, key_ok core hist k) →
  ∀ k, key_ok (ld_step core (LdReconnect gen)) hist k.
Proof.
  intros Hok k. destruct (Hok k) as [Hwf Hacc]. simpl.
  destruct (decide (generation core < gen)) as [Hlt|Hge].
  - unfold key_ok. rewrite reconnect_lookup by done.
    destruct (reconnect_entry_ok (generation core) gen k _ _ Hwf Hacc) as (H1 & H2 & _).
    split; [|done]. unfold Reconnect.
    destruct (Z.ltb_spec gen (generation core)), (Z.eqb_spec gen (generation core)); try lia. done.
  - unfold Reconnect.
    destruct (Z.ltb_spec gen (generation core)), (Z.eqb_spec gen (generation core)); try lia; done.
Qed.

Lemma ld_step_ok core hist op :
  (∀ k, key_ok core hist k) → ∀ k, key_ok (ld_step core op) (ld_history core op hist) k.
Proof.
  destruct op; [apply upsert_ok|apply claim_ok|apply ack_ok|apply fail_ok|apply reconnect_ok].
Qed.

Lemma ld_run_from_ok core hist ops :
  (∀ k, key_ok core hist k) →
  ∀ k, key_ok (ld_run_from core hist ops).1 (ld_run_from core hist ops).2 k.
Proof.
  unfold ld_run_from. revert core hist.
  induction ops as [|op ops IH]; intros core hist Hok; simpl; [done|].
  by apply IH, ld_step_ok.
Qed.

Lemma ld_run_ok gen (ops : list (ldOp K V)) k : key_ok (ld_run gen ops).1 (ld_run gen ops).2 k.
Proof.
  apply ld_run_from_ok. intros k'. unfold key_ok, lookup_entry; simpl. by rewrite !lookup_empty.
Qed.

Lemma touches_durable core key core' k d :
  (∃ e', touches core key core' e' ∧ ∀ x, durableThrough (lookup_entry core key) = Some x →
     ∃ y, durableThrough e' = Some y ∧ x ≤ y) →
  durableThrough (lookup_entry core k) = Some d →
  ∃ d', durableThrough (lookup_entry core' k) = Some d' ∧ d ≤ d'.
Proof.
  intros (e' & [_ Hl] & Hx) Hd. rewrite Hl. case_decide; subst; [by apply Hx|].
  exists d. split; [done|lia].
Qed.

(** Only the acknowledgement of the in-flight epoch changes the frontier. *)
Lemma ld_step_durable_exact core hist op k :
  (∀ k, key_ok core hist k) →
  durableThrough (lookup_entry (ld_step core op) k) ≠ durableThrough (lookup_entry core k) →
  ∃ i, inflight (lookup_entry core k) = Some i ∧ op = LdAck k (generation core) (eEpoch i) ∧
    durableThrough (lookup_entry (ld_step core op) k) = Some (eEpoch i).
Proof.
  intros Hok Hne. destruct op as [key ep v|key gen|key gen ep|key gen ep|gen]; simpl in *.
  5: { exfalso. apply Hne. destruct (decide (generation core < gen)) as [Hlt|Hge].
       - rewrite reconnect_lookup by done. destruct (Hok k) as [Hwf Hacc].
         by destruct (reconnect_entry_ok (generation core) gen k _ _ Hwf Hacc) as (_ & _ & _ & ->).
       - unfold Reconnect.
         destruct (Z.ltb_spec gen (generation core)), (Z.eqb_spec gen (generation core));
           try lia; done. }
  all: revert Hne; unfold UpsertDesired, newest_revision, Claim, AckApplied, FailRetryable;
    try (destruct (Z.eqb_spec gen (generation core)); simpl; [|done]).
  all: open_entry core key; destruct (Hok key) as [Hwf _];
    destruct (lookup_entry core key) as [[de|] [fl|] [du|]] eqn:Ee; simpl in *; ld_cases.
  all: rewrite ?(proj2 Hsame), ?(proj2 (Hset _)); case_decide; subst; rewrite ?Ee; simpl;
    intros Hne; try done; unfold entry_wf in *; simpl in *; try lia; eauto.
Qed.

Lemma ld_run_from_app core hist (ops ops' : list (ldOp K V)) :
  ld_run_from core hist (ops ++ ops') =
  ld_run_from (ld_run_from core hist ops).1 (ld_run_from core hist ops).2 ops'.
Proof. unfold ld_run_from. rewrite foldl_app. by destruct (foldl _ _ ops). Qed.

Lemma reconnect_counts (m : gmap K (latestDurableEntry K V)) :
  let counts := map_fold (λ _ e '(r, s),
    let '(_, (r', s')) := reconnect_entry e in (r + r', s + s')%nat) (0, 0)%nat m in
  (counts.1 + counts.2)%nat =
  size (filter (λ ke : K * latestDurableEntry K V, is_Some (inflight ke.2)) m).
Proof.
  simpl. revert m. refine (map_fold_weak_ind (λ c m, (c.1 + c.2)%nat =
    size (filter (λ ke : K * latestDurableEntry K V, is_Some (inflight ke.2)) m)) _ _ _ _).
  - done.
  - intros k e m [r s] Hm IH. simpl in *. unfold reconnect_entry.
    destruct (inflight e) as [i|] eqn:Ei.
    + rewrite map_filter_insert_True by (simpl; rewrite Ei; eauto).
      rewrite map_size_insert_None by (apply map_lookup_filter_None; by left).
      rewrite <-IH. repeat case_match; simplify_eq/=; lia.
    + rewrite map_filter_insert_not'; [simpl; lia| |naive_solver].
      simpl. rewrite Ei. by intros [].
Qed.

(** The durable frontier of a key never moves back. *)
Lemma ld_step_durable core hist op k :
  (∀ k, key_ok core hist k) →
  ∀ d, durableThrough (lookup_entry core k) = Some d →
  ∃ d', durableThrough (lookup_entry (ld_step core op) k) = Some d' ∧ d ≤ d'.
Proof.
  intros Hok d Hd. destruct op as [key ep v|key gen|key gen ep|key gen ep|gen]; simpl.
  5: { destruct (decide (generation core < gen)) as [Hlt|Hge].
       - rewrite reconnect_lookup by done. destruct (Hok k) as [Hwf Hacc].
         destruct (reconnect_entry_ok (generation core) gen k _ _ Hwf Hacc) as (_ & _ & _ & ->).
         exists d. split; [done|lia].
       - exists d. split; [|lia]. unfold Reconnect.
         destruct (Z.ltb_spec gen (generation core)), (Z.eqb_spec gen (generation core));
           try lia; done. }
  all: eapply (touches_durable core key); [|exact Hd].
  all: unfold UpsertDesired, newest_revision, Claim, AckApplied, FailRetryable;
    try (destruct (Z.eqb_spec gen (generation core)); simpl;
         [|eexists; split; [apply touches_refl|intros x Hx; exists x; split; [done|lia]]]).
  all: open_entry core key;
    destruct (lookup_entry core key) as [[de|] [fl|] [du|]] eqn:Ee; simpl in *; ld_cases.
  all: first [ eexists; split; [exact Hsame|] | eexists; split; [apply Hset|] ];
    simpl; intros x Hx; simplify_eq; (eexists; split; [done|lia]).
Qed.

Lemma ld_run_from_durable core hist ops k d :
  (∀ k, key_ok core hist k) →
  durableThrough (lookup_entry core k) = Some d →
  ∃ d', durableThrough (lookup_entry (ld_run_from core hist ops).1 k) = Some d' ∧ d ≤ d'.
Proof.
  unfold ld_run_from. revert core hist d.
  induction ops as [|op ops IH]; intros core hist d Hok Hd; simpl; [eauto with lia|].
  destruct (ld_step_durable core hist op k Hok d Hd) as (d1 & Hd1 & ?).
  destruct (IH _ (ld_history core op hist) d1 (ld_step_ok _ _ _ Hok) Hd1) as (d2 & ? & ?).
  exists d2. split; [done|lia].
Qed.
End preservation.

(** ** Properties *)

Section properties.
Context {K V : Type} `{Countable K} `{!EqDecision V}.

(** C27: No accepted update is lost.  After any sequence of upserts, claims,
    acknowledgements, retryable failures and reconnects, the last accepted
    revision of every key is still to be sent (desired), is the in-flight
    attempt and nothing newer waits, or is the durable frontier itself; and
    the epochs are strictly ordered durable < in flight < desired, with the
    in-flight envelope stamped by the current generation. *)
Theorem LatestDurable_no_lost_update (gen : Z) (ops : list (ldOp K V)) key :
  accounted ((ld_run gen ops).2 !! key) (lookup_entry (ld_run gen ops).1 key) ∧
  entry_wf (generation (ld_run gen ops).1) key (lookup_entry (ld_run gen ops).1 key).
Proof. destruct (ld_run_ok gen ops key). done. Qed.

(** The durable frontier is monotone and moves only by an exact token:
    continuing any run with any operations never lowers a key's frontier, and
    an operation that changes it is the acknowledgement, under the current
    generation, of the epoch that is in flight for that key. *)
Theorem LatestDurable_frontier_monotone (gen : Z) (ops ops' : list (ldOp K V)) op key :
  (∀ d, durableThrough (lookup_entry (ld_run gen ops).1 key) = Some d →
    ∃ d', durableThrough (lookup_entry (ld_run gen (ops ++ ops')).1 key) = Some d' ∧ d ≤ d') ∧
  (durableThrough (lookup_entry (ld_step (ld_run gen ops).1 op) key) ≠
     durableThrough (lookup_entry (ld_run gen ops).1 key) →
   ∃ i, inflight (lookup_entry (ld_run gen ops).1 key) = Some i ∧
     op = LdAck key (generation (ld_run gen ops).1) (eEpoch i) ∧
     durableThrough (lookup_entry (ld_step (ld_run gen ops).1 op) key) = Some (eEpoch i)).
Proof.
  split.
  - unfold ld_run at 2. rewrite ld_run_from_app. fold (ld_run gen ops).
    intros d. apply ld_run_from_durable. intros k. apply ld_run_ok.
  - intros Hne. by apply ld_step_durable_exact with (hist := (ld_run gen ops).2);
      [intros k; apply ld_run_ok|].
Qed.

(** A reconnect fences the previous generation: with a newer generation
    it takes every attempt out of flight, requeueing it or dropping it as
    superseded and counting each exactly once, and from then on a claim,
    acknowledgement or failure report that carries any other generation
    changes nothing and is answered as stale. *)
Theorem LatestDurable_reconnect_fences (core : LatestDurableProjectionCore K V) gen key old ep :
  generation core < gen →
  let core' := (Reconnect core gen).1.1 in
  (∃ r s, (Reconnect core gen).2 = ReconnectAdvanced gen r s ∧
     (r + s)%nat = size (filter (λ ke : K * latestDurableEntry K V, is_Some (inflight ke.2)) (entries core))) ∧
  (∀ k, inflight (lookup_entry core' k) = None) ∧
  (old ≠ gen →
    Claim core' key old = (core', false, ClaimStaleGeneration gen) ∧
    AckApplied core' key old ep = (core', false, AckStaleGeneration gen) ∧
    FailRetryable core' key old ep = (core', false, FailureStaleGeneration gen)).
Proof.
  intros Hlt core'. split_and!.
  - subst core'. unfold Reconnect.
    destruct (Z.ltb_spec gen (generation core)), (Z.eqb_spec gen (generation core)); try lia.
    simpl. eexists _, _. split; [done|]. apply reconnect_counts.
  - intros k. subst core'. rewrite reconnect_lookup by done.
    unfold reconnect_entry. destruct (lookup_entry core k) as [[] [] []]; simpl; ld_cases; done.
  - intros Hne. assert (Hg : generation core' = gen).
    { subst core'. unfold Reconnect.
      destruct (Z.ltb_spec gen (generation core)), (Z.eqb_spec gen (generation core)); try lia; done. }
    unfold Claim, AckApplied, FailRetryable. rewrite Hg.
    destruct (Z.eqb_spec old gen); [done|]. done.
Qed.
End properties.

Definition ld_demo_ops : list (ldOp nat nat) :=
  [LdUpsert 1%nat 1 10%nat; LdClaim 1%nat 7; LdUpsert 1%nat 2 20%nat; LdAck 1%nat 7 1].

Lemma LatestDurable_reconnect_fences_witness :
  (Reconnect (ld_run 7 (ld_demo_ops ++ [LdClaim 1%nat 7])).1 9).2 = ReconnectAdvanced 9 1 0 ∧
  Claim (Reconnect (ld_run 7 (ld_demo_ops ++ [LdClaim 1%nat 7])).1 9).1.1 1%nat 7 =
    ((Reconnect (ld_run 7 (ld_demo_ops ++ [LdClaim 1%nat 7])).1 9).1.1, false, ClaimStaleGeneration 9).
Proof.
  split; [reflexivity|].
  apply (LatestDurable_reconnect_fences (ld_run 7 (ld_demo_ops ++ [LdClaim 1%nat 7])).1 9 1%nat 7 2);
    [by vm_compute|done].
Defined.

(** A claim of a key never seen reports no change of the snapshot, yet the
    snapshot gains an (empty) entry for it. *)
Lemma Claim_unknown_key_grows_snapshot :
  let core : LatestDurableProjectionCore nat nat := NewLatestDurableProjectionCore 1 in
  (Claim core 5%nat 1).1.2 = false ∧ Snapshot (Claim core 5%nat 1).1.1 ≠ Snapshot core.
Proof. split; [reflexivity|]. vm_compute. congruence. Qed.
