(* ===== verification/Kernel.v ===== *)
(** * Kernel: the synchronous reactive graph (core.go, disposal.go)

    One [Context] is the record [ctx]: the heap of graph nodes (a Go pointer is
    a [nid]), the effect scheduler, the batch state and the generation-fenced
    arena.  Every method is an action [M A] of the context that returns,
    panics (with the state the panic leaves behind) or runs out of the fuel
    that bounds Go's unbounded recursion.  User closures are data: a compute
    is a tree of reads ([comp]), an effect body a tree of reads, writes,
    merges, batches and observable outputs ([eff]).  Go ranges over its edge
    sets in an unspecified order: the parameter [ord] chooses it. *)

From S2P Require Import Prelude.


(** A node's identity: the pointer the Go code keys its sets by. *)
Abbreviation nid := nat (only parsing).

(** [core.go] [type occupantKind] *)
Inductive occupantKind := occupantNone | occupantSource | occupantComputed | occupantEffect.
#[export] Instance occupantKind_eq_dec : EqDecision occupantKind.
Proof. solve_decision. Defined.

(** [disposal.go] [type DisposedError] *)
Inductive DisposedKind := KindSlot | KindCell.

(** [core.go] [type StaleComputeError] *)
Inductive kernel_error :=
  | DisposedError (kind : DisposedKind)
  | StaleComputeError.

(** [core.go] [type markEntry] *)
Record markEntry := MarkEntry { me_node : nid; me_force : bool }.

(** The per-recompute view handed to a closure.
    [core.go] [type Compute] *)
Record Compute := MkCompute { cv_node : nid; cv_gen : Z; cv_live : bool }.

(** [core.go] [type EffectRuns] *)
Record EffectRuns := MkEffectRuns { er_effect : nid; er_runs : nat }.

(** [core.go] [type DrainExhaustion] *)
Record DrainExhaustion := MkDrainExhaustion {
  de_iterations : nat; de_budget : nat; de_top : list EffectRuns }.

(** [core.go] [DefaultDrainBudget = ] *)
Definition DefaultDrainBudget : Z := 100000.

Section kernel.
Context {V : Type} `{EqDecision V}.

(** A compute closure: the reads it makes, each either through its view
    ([Get(c, h)], tracked) or through the context ([h.Get()], untracked), and
    the value it returns. *)
Inductive comp :=
  | Ret (v : V)
  | Read (tracked : bool) (n : nid) (k : V → comp).

(** An effect body, which may return a cleanup closure.
    [core.go] [type EffectRun] *)
Inductive eff :=
  | EDone (cleanup : option eff)
  | ERead (tracked : bool) (n : nid) (k : V → eff)
  | ESet (n : nid) (v : V) (k : eff)
  | EMerge (n : nid) (v : V) (k : eff)
  | EBatch (body : eff) (k : eff)
  | EEmit (v : V) (k : eff).

(** [core.go] [type Source] *)
Record Source := MkSource { s_value : V; s_policy : V → V → V }.

(** [value] is [None] exactly when Go's [hasValue] is false.
    [core.go] [type Computed] *)
Record Computed := MkComputed {
  compute : comp;
  equals : option (V → V → bool);
  value : option V;
  cached : bool;
  refreshing : bool;
  eager : bool }.

(** [core.go] [type Effect] *)
Record Effect := MkEffect {
  run : eff;
  cleanup : option eff;
  active : bool;
  running : bool;
  forceRun : bool }.

Inductive concrete :=
  | ASource (s : Source)
  | AComputed (k : Computed)
  | AEffect (e : Effect).

(** [core.go] [type reactiveBase] *)
Record node := MkNode {
  self : concrete;
  dependents : gset nid;
  dependencies : gset nid;
  occupantID : nat;
  occupantGeneration : Z;
  occKind : occupantKind;
  disposed : bool;
  dirty : bool;
  forceRecompute : bool;
  slotIndex : option nat }.

(** [core.go] [type occupantSlot] *)
Record occupantSlot := MkOccupantSlot {
  os_generation : Z; os_kind : occupantKind; os_node : option nid }.

(** [next] names the next allocation; [out] is what effect bodies emitted,
    newest first.
    [core.go] [type Context] *)
Record ctx := MkCtx {
  nodes : gmap nid node;
  next : nid;
  computeGen : Z;
  slots : list nid;
  cachedCount : Z;
  batchDepth : nat;
  batchedCells : gset nid;
  pendingEffects : list (option nid);
  scheduledEffects : gset nid;
  flushingEffects : bool;
  disposing : nat;
  eagerBy : gmap nid nid;
  nodeSlots : list occupantSlot;
  freeNodeSlots : list nat;
  drainBudget : Z;
  drainRuns : gmap nid nat;
  drainOrder : list nid;
  lastDrainExhaustion : option DrainExhaustion;
  out : list V }.

(** ** Field updates *)

Definition with_nodes f c := MkCtx (f (nodes c)) (next c) (computeGen c) (slots c)
  (cachedCount c) (batchDepth c) (batchedCells c) (pendingEffects c) (scheduledEffects c)
  (flushingEffects c) (disposing c) (eagerBy c) (nodeSlots c) (freeNodeSlots c)
  (drainBudget c) (drainRuns c) (drainOrder c) (lastDrainExhaustion c) (out c).
Definition with_next f c := MkCtx (nodes c) (f (next c)) (computeGen c) (slots c)
  (cachedCount c) (batchDepth c) (batchedCells c) (pendingEffects c) (scheduledEffects c)
  (flushingEffects c) (disposing c) (eagerBy c) (nodeSlots c) (freeNodeSlots c)
  (drainBudget c) (drainRuns c) (drainOrder c) (lastDrainExhaustion c) (out c).
Definition with_computeGen f c := MkCtx (nodes c) (next c) (f (computeGen c)) (slots c)
  (cachedCount c) (batchDepth c) (batchedCells c) (pendingEffects c) (scheduledEffects c)
  (flushingEffects c) (disposing c) (eagerBy c) (nodeSlots c) (freeNodeSlots c)
  (drainBudget c) (drainRuns c) (drainOrder c) (lastDrainExhaustion c) (out c).
Definition with_slots f c := MkCtx (nodes c) (next c) (computeGen c) (f (slots c))
  (cachedCount c) (batchDepth c) (batchedCells c) (pendingEffects c) (scheduledEffects c)
  (flushingEffects c) (disposing c) (eagerBy c) (nodeSlots c) (freeNodeSlots c)
  (drainBudget c) (drainRuns c) (drainOrder c) (lastDrainExhaustion c) (out c).
Definition with_cachedCount f c := MkCtx (nodes c) (next c) (computeGen c) (slots c)
  (f (cachedCount c)) (batchDepth c) (batchedCells c) (pendingEffects c) (scheduledEffects c)
  (flushingEffects c) (disposing c) (eagerBy c) (nodeSlots c) (freeNodeSlots c)
  (drainBudget c) (drainRuns c) (drainOrder c) (lastDrainExhaustion c) (out c).
Definition with_batchDepth f c := MkCtx (nodes c) (next c) (computeGen c) (slots c)
  (cachedCount c) (f (batchDepth c)) (batchedCells c) (pendingEffects c) (scheduledEffects c)
  (flushingEffects c) (disposing c) (eagerBy c) (nodeSlots c) (freeNodeSlots c)
  (drainBudget c) (drainRuns c) (drainOrder c) (lastDrainExhaustion c) (out c).
Definition with_batchedCells f c := MkCtx (nodes c) (next c) (computeGen c) (slots c)
  (cachedCount c) (batchDepth c) (f (batchedCells c)) (pendingEffects c) (scheduledEffects c)
  (flushingEffects c) (disposing c) (eagerBy c) (nodeSlots c) (freeNodeSlots c)
  (drainBudget c) (drainRuns c) (drainOrder c) (lastDrainExhaustion c) (out c).
Definition with_pending f g c := MkCtx (nodes c) (next c) (computeGen c) (slots c)
  (cachedCount c) (batchDepth c) (batchedCells c) (f (pendingEffects c))
  (g (scheduledEffects c))
  (flushingEffects c) (disposing c) (eagerBy c) (nodeSlots c) (freeNodeSlots c)
  (drainBudget c) (drainRuns c) (drainOrder c) (lastDrainExhaustion c) (out c).
Definition with_flushing b c := MkCtx (nodes c) (next c) (computeGen c) (slots c)
  (cachedCount c) (batchDepth c) (batchedCells c) (pendingEffects c) (scheduledEffects c)
  b (disposing c) (eagerBy c) (nodeSlots c) (freeNodeSlots c)
  (drainBudget c) (drainRuns c) (drainOrder c) (lastDrainExhaustion c) (out c).
Definition with_disposing f c := MkCtx (nodes c) (next c) (computeGen c) (slots c)
  (cachedCount c) (batchDepth c) (batchedCells c) (pendingEffects c) (scheduledEffects c)
  (flushingEffects c) (f (disposing c)) (eagerBy c) (nodeSlots c) (freeNodeSlots c)
  (drainBudget c) (drainRuns c) (drainOrder c) (lastDrainExhaustion c) (out c).
Definition with_eagerBy f c := MkCtx (nodes c) (next c) (computeGen c) (slots c)
  (cachedCount c) (batchDepth c) (batchedCells c) (pendingEffects c) (scheduledEffects c)
  (flushingEffects c) (disposing c) (f (eagerBy c)) (nodeSlots c) (freeNodeSlots c)
  (drainBudget c) (drainRuns c) (drainOrder c) (lastDrainExhaustion c) (out c).
Definition with_arena f g c := MkCtx (nodes c) (next c) (computeGen c) (slots c)
  (cachedCount c) (batchDepth c) (batchedCells c) (pendingEffects c) (scheduledEffects c)
  (flushingEffects c) (disposing c) (eagerBy c) (f (nodeSlots c)) (g (freeNodeSlots c))
  (drainBudget c) (drainRuns c) (drainOrder c) (lastDrainExhaustion c) (out c).
Definition with_drain budget runs order last c := MkCtx (nodes c) (next c) (computeGen c)
  (slots c)
  (cachedCount c) (batchDepth c) (batchedCells c) (pendingEffects c) (scheduledEffects c)
  (flushingEffects c) (disposing c) (eagerBy c) (nodeSlots c) (freeNodeSlots c)
  budget runs order last (out c).
Definition with_out f c := MkCtx (nodes c) (next c) (computeGen c) (slots c)
  (cachedCount c) (batchDepth c) (batchedCells c) (pendingEffects c) (scheduledEffects c)
  (flushingEffects c) (disposing c) (eagerBy c) (nodeSlots c) (freeNodeSlots c)
  (drainBudget c) (drainRuns c) (drainOrder c) (lastDrainExhaustion c) (f (out c)).

Definition with_self f n := MkNode (f (self n)) (dependents n) (dependencies n)
  (occupantID n) (occupantGeneration n) (occKind n) (disposed n) (dirty n)
  (forceRecompute n) (slotIndex n).
Definition with_dependents f n := MkNode (self n) (f (dependents n)) (dependencies n)
  (occupantID n) (occupantGeneration n) (occKind n) (disposed n) (dirty n)
  (forceRecompute n) (slotIndex n).
Definition with_dependencies f n := MkNode (self n) (dependents n) (f (dependencies n))
  (occupantID n) (occupantGeneration n) (occKind n) (disposed n) (dirty n)
  (forceRecompute n) (slotIndex n).
Definition with_occupant i g k n := MkNode (self n) (dependents n) (dependencies n)
  i g k (disposed n) (dirty n) (forceRecompute n) (slotIndex n).
Definition with_disposed b n := MkNode (self n) (dependents n) (dependencies n)
  (occupantID n) (occupantGeneration n) (occKind n) b (dirty n)
  (forceRecompute n) (slotIndex n).
Definition with_stale d f n := MkNode (self n) (dependents n) (dependencies n)
  (occupantID n) (occupantGeneration n) (occKind n) (disposed n) (d (dirty n))
  (f (forceRecompute n)) (slotIndex n).
Definition with_slotIndex i n := MkNode (self n) (dependents n) (dependencies n)
  (occupantID n) (occupantGeneration n) (occKind n) (disposed n) (dirty n)
  (forceRecompute n) i.

Definition with_value v k :=
  MkComputed (compute k) (equals k) v (cached k) (refreshing k) (eager k).
Definition with_cached b k :=
  MkComputed (compute k) (equals k) (value k) b (refreshing k) (eager k).
Definition with_refreshing b k :=
  MkComputed (compute k) (equals k) (value k) (cached k) b (eager k).
Definition with_eager b k :=
  MkComputed (compute k) (equals k) (value k) (cached k) (refreshing k) b.

Definition with_cleanup o e := MkEffect (run e) o (active e) (running e) (forceRun e).
Definition with_active b e := MkEffect (run e) (cleanup e) b (running e) (forceRun e).
Definition with_running b e := MkEffect (run e) (cleanup e) (active e) b (forceRun e).
Definition with_forceRun b e := MkEffect (run e) (cleanup e) (active e) (running e) b.

(** Update the part of a node its kind selects; the identity on other kinds. *)
Definition on_source f (p : concrete) :=
  match p with ASource s => ASource (f s) | _ => p end.
Definition on_computed f (p : concrete) :=
  match p with AComputed k => AComputed (f k) | _ => p end.
Definition on_effect f (p : concrete) :=
  match p with AEffect e => AEffect (f e) | _ => p end.

(** ** The heap *)

(** What a pointer that was never allocated reads as; no operation of a
    well-formed context dereferences one. *)
Definition no_node : node :=
  MkNode (AEffect (MkEffect (EDone None) None false false false)) ∅ ∅ 0 0%Z occupantNone
    true false false None.

Definition getn (c : ctx) (n : nid) : node := default no_node (nodes c !! n).
Definition updn (n : nid) (f : node → node) (c : ctx) : ctx :=
  with_nodes (<[n := f (getn c n)]>) c.

(** ** Outcomes *)

Inductive outcome (A : Type) :=
  | Ok (a : A) (c : ctx)
  | Panic (e : kernel_error) (c : ctx)
  | OutOfFuel.
Arguments Ok {A}.
Arguments Panic {A}.
Arguments OutOfFuel {A}.

Definition M (A : Type) : Type := ctx → outcome A.

#[global] Instance M_ret : MRet M := λ A a c, Ok a c.
#[global] Instance M_bind : MBind M := λ A B f m c,
  match m c with
  | Ok a c' => f a c'
  | Panic e c' => Panic e c'
  | OutOfFuel => OutOfFuel
  end.

Definition modify (f : ctx → ctx) : M unit := λ c, Ok tt (f c).
Definition gets {A} (f : ctx → A) : M A := λ c, Ok (f c) c.
Definition panic {A} (e : kernel_error) : M A := λ c, Panic e c.
Definition when (b : bool) (m : M unit) : M unit := if b then m else mret tt.

(** Run [m], then [d] whether it returned or panicked: Go's [defer]. *)
Definition deferred {A} (m : M A) (d : M unit) : M A := λ c,
  match m c with
  | Ok a c' => match d c' with
    | Ok _ c'' => Ok a c'' | Panic e c'' => Panic e c'' | OutOfFuel => OutOfFuel end
  | Panic e c' => match d c' with
    | Ok _ c'' => Panic e c'' | Panic e' c'' => Panic e' c'' | OutOfFuel => OutOfFuel end
  | OutOfFuel => OutOfFuel
  end.

(** ** Small observers of a node *)

Definition is_cacheable (n : node) : bool :=
  match self n with AComputed _ => true | _ => false end.
Definition is_effect (n : node) : bool :=
  match self n with AEffect _ => true | _ => false end.

(** [core.go] [Computed.cachedNow] *)
Definition cachedNow (n : node) : bool :=
  match self n with AComputed k => cached k | _ => false end.

(** ** Edges *)

(** [core.go] [reactiveBase.trackTo] *)
Definition trackTo (n : nid) (parent : option nid) (c : ctx) : ctx :=
  match parent with
  | Some p =>
      if decide (p = n) then c
      else if decide (p ∈ dependents (getn c n)) then c
      else updn p (with_dependencies (λ s, {[n]} ∪ s))
             (updn n (with_dependents (λ s, {[p]} ∪ s)) c)
  | None => c
  end.

(** The range over a set of nodes is order-independent here: each iteration
    touches a different node. *)
Definition foldset (f : nid → ctx → ctx) (s : gset nid) (c : ctx) : ctx :=
  foldr f c (elements s).

(** [core.go] [reactiveBase.detachUpstream] *)
Definition detachUpstream (n : nid) (c : ctx) : ctx :=
  updn n (with_dependencies (λ _, ∅))
    (foldset (λ d, updn d (with_dependents (λ s, s ∖ {[n]}))) (dependencies (getn c n)) c).

(** ** Scheduling *)

(** [core.go] [Context.scheduleEffect] *)
Definition scheduleEffect (e : nid) (c : ctx) : ctx :=
  if decide (e ∈ scheduledEffects c) then c
  else with_pending (λ p, p ++ [Some e]) (λ s, {[e]} ∪ s) c.

Fixpoint nil_first (e : nid) (l : list (option nid)) : list (option nid) :=
  match l with
  | [] => []
  | o :: l => if decide (o = Some e) then None :: l else o :: nil_first e l
  end.

(** [pendingEffects] is the live part of Go's slice, from [effectsHead] on.
    [core.go] [Context.removePendingEffect] *)
Definition removePendingEffect (e : nid) (c : ctx) : ctx :=
  with_pending (nil_first e) (λ s, s ∖ {[e]}) c.

(** [core.go] [Effect.markStale] *)
Definition markStale (e : nid) (force : bool) (c : ctx) : ctx :=
  if decide (0 < disposing c) then c
  else scheduleEffect e
    (if force then updn e (with_self (on_effect (with_forceRun true))) c else c).

(** ** Marking *)

(** [core.go] [Computed.onInvalidate] *)
Definition Computed_onInvalidate (n : nid) (c : ctx) : ctx :=
  let was := cachedNow (getn c n) in
  with_cachedCount (λ z, if was then z - 1 else z)%Z
    (updn n (λ nd, with_stale (λ _, true) id
                     (with_self (on_computed (with_cached false)) nd)) c).

(** The hook the frontier walk runs, by kind: [Effect.onInvalidate],
    [Source.onInvalidate] and [Computed.onInvalidate].
    [core.go] [Effect.onInvalidate] *)
Definition onInvalidate (n : nid) (c : ctx) : ctx :=
  match self (getn c n) with
  | ASource _ => c
  | AComputed _ => Computed_onInvalidate n c
  | AEffect _ => markStale n true c
  end.

Section ordered.
Context (ord : ctx → gset nid → list nid) (zero : V).

(** Go's slice used as a stack, top first: pushing the members of a set in
    range order. *)
Definition push_marks (force : bool) (l : list nid) (stack : list markEntry) :=
  foldl (λ st d, MarkEntry d force :: st) stack l.

(** Visit one popped entry: the new state and whether the walk descends.
    [core.go] [markCone] *)
Definition mark_visit (scheduleEffects : bool) (e : markEntry) (c : ctx) : ctx * bool :=
  let n := me_node e in
  let nb := getn c n in
  if disposed nb then (c, false)
  else match self nb with
  | AEffect _ => (if scheduleEffects then markStale n (me_force e) c else c, false)
  | AComputed _ =>
      let propagate := negb (dirty nb) || (me_force e && negb (forceRecompute nb)) in
      let c := if me_force e then updn n (with_stale id (λ _, true)) c else c in
      (onInvalidate n c, propagate)
  | ASource _ => (onInvalidate n c, true)
  end.

(** [core.go] [markCone] *)
Fixpoint markCone_loop (fuel : nat) (scheduleEffects : bool) (stack : list markEntry)
    : M unit := λ c,
  match stack with
  | [] => Ok tt c
  | e :: stack =>
      match fuel with
      | 0 => OutOfFuel
      | S fuel =>
          let '(c, propagate) := mark_visit scheduleEffects e c in
          let stack := if propagate
            then push_marks false (ord c (dependents (getn c (me_node e)))) stack
            else stack in
          markCone_loop fuel scheduleEffects stack c
      end
  end.

(** Each visit that descends raises the staleness level of a node, which takes
    at most two steps: clean, dirty, forced. *)
Definition mark_fuel (c : ctx) : nat :=
  map_fold (λ _ nd acc, 2 * size (dependents nd) + acc) 0 (nodes c).

(** [core.go] [markCone] *)
Definition markCone (stack : list markEntry) (scheduleEffects : bool) : M unit := λ c,
  markCone_loop (length stack + mark_fuel c) scheduleEffects stack c.

(** [core.go] [reactiveBase.markDependents] *)
Definition markDependents (n : nid) (scheduleEffects : bool) : M unit := λ c,
  if decide (dependents (getn c n) = ∅) then Ok tt c
  else markCone (push_marks true (ord c (dependents (getn c n))) []) scheduleEffects c.

(** [core.go] [reactiveBase.invalidate] *)
Definition invalidate (n : nid) : M unit := λ c,
  if is_cacheable (getn c n) then markCone [MarkEntry n true] true c
  else markDependents n true (onInvalidate n c).

(** ** Pulling *)

(** [core.go] [Computed.markClean] *)
Definition markClean (n : nid) (c : ctx) : ctx :=
  let was := cachedNow (getn c n) in
  with_cachedCount (λ z, if was then z else z + 1)%Z
    (updn n (λ nd, with_stale (λ _, false) (λ _, false)
                     (with_self (on_computed (with_cached true)) nd)) c).

(** [core.go] [Context.newCompute] *)
Definition newCompute (n : nid) : M Compute := λ c,
  let g := u64 (computeGen c + 1) in
  Ok (MkCompute n g true) (with_computeGen (λ _, g) c).

(** [core.go] [Compute.trackNode] *)
Definition trackNode (cv : Compute) : M nid :=
  if cv_live cv then mret (cv_node cv) else panic StaleComputeError.

(** [core.go] [Compute.close] *)
Definition close (cv : Compute) : Compute := MkCompute (cv_node cv) (cv_gen cv) false.

(** The value a handle holds. *)
Definition stored (nd : node) : option V :=
  match self nd with
  | ASource s => Some (s_value s) | AComputed k => value k | AEffect _ => None end.

Section pull.
(** The recursive [refresh] call. *)
Context (refresh : nid → M bool).

(** Both handle kinds: [Source.getVia] and [Computed.getVia]. An effect is not
    [Trackable].
    [core.go] [Computed.getVia] *)
Definition getVia (n : nid) (parent : option nid) : M V := λ c,
  match self (getn c n) with
  | ASource s =>
      if disposed (getn c n) then Panic (DisposedError KindCell) c
      else Ok (s_value s) (trackTo n parent c)
  | AComputed _ =>
      if disposed (getn c n) then Panic (DisposedError KindSlot) c
      else let c := trackTo n parent c in
        if cachedNow (getn c n) then Ok (default zero (stored (getn c n))) c
        else (_ ← refresh n; gets (λ c, default zero (stored (getn c n)))) c
  | AEffect _ => Ok zero c
  end.

(** A read through the compute view, or through its [Untracked()] context.
    [core.go] [Get] *)
Definition Get_via (cv : Compute) (tracked : bool) (n : nid) : M V :=
  if tracked then p ← trackNode cv; getVia n (Some p) else getVia n None.

Fixpoint run_comp (cv : Compute) (p : comp) : M V :=
  match p with
  | Ret v => mret v
  | Read tracked n k => v ← Get_via cv tracked n; run_comp cv (k v)
  end.

(** [core.go] [Computed.recomputeNow] *)
Definition run_compute (n : nid) (p : comp) : M V :=
  modify (detachUpstream n);; cv ← newCompute n; run_comp cv p.

(** [core.go] [Computed.recomputeNow] *)
Definition recomputeNow (n : nid) (k : Computed) : M bool :=
  v ← run_compute n (compute k);
  prev ← gets (λ c, stored (getn c n));
  let unchanged := match prev, equals k with
    | Some old, Some eq => eq old v | _, _ => false end in
  modify (markClean n);;
  if unchanged then mret false
  else
    modify (updn n (with_self (on_computed (with_value (Some v)))));;
    if decide (prev = None) then mret false
    else markDependents n false;; mret true.

(** The walk over a snapshot of dependencies shared by [Computed.refresh] and
    [Effect.dependenciesChanged].
    [core.go] [Effect.dependenciesChanged] *)
Fixpoint refresh_all (deps : list nid) (changed : bool) : M bool :=
  match deps with
  | [] => mret changed
  | d :: deps => r ← refresh d; refresh_all deps (changed || r)
  end.

Definition set_refreshing (b : bool) (n : nid) : M unit :=
  modify (updn n (with_self (on_computed (with_refreshing b)))).
End pull.

(** Sources and effects inherit [reactiveBase.refresh], which reports false.
    [core.go] [Computed.refresh] *)
Fixpoint refresh (fuel : nat) (n : nid) : M bool :=
  match fuel with
  | 0 => λ _, OutOfFuel
  | S fuel => λ c,
      match self (getn c n) with
      | AComputed k =>
          if disposed (getn c n) || cached k then Ok false c
          else if refreshing k then Ok false c
          else if bool_decide (is_Some (value k)) && negb (forceRecompute (getn c n)) then
            (set_refreshing true n;;
             changed ← refresh_all (refresh fuel) (ord c (dependencies (getn c n))) false;
             set_refreshing false n;;
             if changed : bool then recomputeNow (refresh fuel) n k
             else modify (markClean n);; mret false) c
          else recomputeNow (refresh fuel) n k c
      | _ => Ok false c
      end
  end.

(** [core.go] [Computed.Get] *)
Definition Get (fuel : nat) (n : nid) : M V := getVia (refresh fuel) n None.

(** Any other panic is raised again.
    [disposal.go] [Computed.TryGet] *)
Definition TryGet (fuel : nat) (n : nid) : M (V + kernel_error) := λ c,
  match Get fuel n c with
  | Ok v c => Ok (inl v) c
  | Panic (DisposedError k) c => Ok (inr (DisposedError k)) c
  | Panic e c => Panic e c
  | OutOfFuel => OutOfFuel
  end.

(** [core.go] [Computed.Peek] *)
Definition Peek (n : nid) : M (option V) :=
  gets (λ c, if cachedNow (getn c n) then stored (getn c n) else None).

(** ** Writes, batches and effects *)

Fixpoint invalidate_all (l : list nid) : M unit :=
  match l with [] => mret tt | n :: l => invalidate n;; invalidate_all l end.

(** [core.go] [topEffectRuns] *)
Fixpoint scan_left (top : list EffectRuns) (n : nat) (at_ : nat) : nat :=
  match at_ with
  | 0 => 0
  | S a => if decide (default 0 (er_runs <$> top !! a) < n) then scan_left top n a else at_
  end.

(** [core.go] [topEffectRuns] *)
Definition topEffectRuns (order : list nid) (runs : gmap nid nat) : list EffectRuns :=
  foldl (λ top e,
    let n := default 0 (runs !! e) in
    let at_ := scan_left top n (length top) in
    if decide (n = 0) then top
    else if decide (8 ≤ at_) then top
    else take 8 (take at_ top ++ MkEffectRuns e n :: drop at_ top)) [] order.

(** [core.go] [Context.DrainBudget] *)
Definition DrainBudget (c : ctx) : Z :=
  if (drainBudget c <=? 0)%Z then DefaultDrainBudget else drainBudget c.

(** [core.go] [Context.SetDrainBudget] *)
Definition SetDrainBudget (n : Z) (c : ctx) : ctx :=
  with_drain (if (n <? 1)%Z then 1 else n)%Z (drainRuns c) (drainOrder c)
    (lastDrainExhaustion c) c.

(** [core.go] [Context.ClearDrainExhaustion] *)
Definition ClearDrainExhaustion (c : ctx) : ctx :=
  with_drain (drainBudget c) (drainRuns c) (drainOrder c) None c.

(** [core.go] [Context.drainExhaustionReport] *)
Definition drainExhaustionReport (iterations : nat) (c : ctx) : DrainExhaustion :=
  MkDrainExhaustion iterations (Z.to_nat (DrainBudget c))
    (topEffectRuns (drainOrder c) (drainRuns c)).

Section effects.
(** The recursive [refresh] and [flushEffects] calls. *)
Context (refresh : nid → M bool) (flush : M unit).

(** [core.go] [Context.cellChanged] *)
Definition cellChanged (n : nid) : M unit := λ c,
  if decide (0 < batchDepth c) then Ok tt (with_batchedCells (λ s, {[n]} ∪ s) c)
  else (invalidate n;; flush) c.

(** [core.go] [Source.Set] *)
Definition Set_ (n : nid) (v : V) : M unit := λ c,
  match self (getn c n) with
  | ASource s =>
      if disposed (getn c n) then Ok tt c
      else if decide (v = s_value s) then Ok tt c
      else cellChanged n
        (updn n (with_self (on_source (λ s, MkSource v (s_policy s)))) c)
  | _ => Ok tt c
  end.

(** [core.go] [Source.Merge] *)
Definition Merge (n : nid) (op : V) : M unit := λ c,
  match self (getn c n) with
  | ASource s => Set_ n (s_policy s (s_value s) op) c
  | _ => Ok tt c
  end.

(** [core.go] [Source.Invalidate] *)
Definition Invalidate (n : nid) : M unit := invalidate n;; flush.

(** [core.go] [Context.flushBatch] *)
Definition flushBatch : M unit := λ c,
  if decide (batchedCells c = ∅) then flush c
  else (invalidate_all (ord c (batchedCells c));; flush) (with_batchedCells (λ _, ∅) c).

(** [core.go] [Context.Batch] *)
Definition Batch (fn : M unit) : M unit :=
  modify (with_batchDepth S);;
  deferred fn
    (modify (with_batchDepth pred);;
     ((λ c, if decide (batchDepth c = 0) then flushBatch c else Ok tt c) : M unit)).

Fixpoint run_eff (cv : Compute) (p : eff) : M (option eff) :=
  match p with
  | EDone cl => mret cl
  | ERead tracked n k => v ← Get_via refresh cv tracked n; run_eff cv (k v)
  | ESet n v k => Set_ n v;; run_eff cv k
  | EMerge n v k => Merge n v;; run_eff cv k
  | EBatch b k => Batch (_ ← run_eff cv b; mret tt);; run_eff cv k
  | EEmit v k => modify (with_out (cons v));; run_eff cv k
  end.

Definition upd_effect (e : nid) (f : Effect → Effect) (c : ctx) : ctx :=
  updn e (with_self (on_effect f)) c.

(** A cleanup closure runs after the view it captured was closed. *)
Definition run_cleanup (e : nid) (cl : option eff) : M unit :=
  match cl with
  | Some p => _ ← run_eff (close (MkCompute e 0 true)) p; mret tt
  | None => mret tt
  end.

(** [core.go] [Effect.rerun] *)
Definition rerun (e : nid) : M unit := λ c,
  match self (getn c e) with
  | AEffect ef =>
      if negb (active ef) || running ef then Ok tt c
      else
        (modify (upd_effect e (with_running true));;
         deferred
           (modify (detachUpstream e);;
            modify (upd_effect e (with_cleanup None));;
            run_cleanup e (cleanup ef);;
            cv ← newCompute e;
            cl ← run_eff cv (run ef);
            modify (upd_effect e (with_cleanup cl)))
           (modify (upd_effect e (with_running false)))) c
  | _ => Ok tt c
  end.

(** Pop one entry: the effect to run, if it is live and something it read may
    have changed.
    [core.go] [Context.flushEffects] *)
Definition drain_pop (o : option nid) (rest : list (option nid)) : M (option nid) := λ c,
  let c := with_pending (λ _, rest) id c in
  match o with
  | None => Ok None c
  | Some e =>
      let c := with_pending id (λ s, s ∖ {[e]}) c in
      match self (getn c e) with
      | AEffect ef =>
          let c := upd_effect e (with_forceRun false) c in
          if negb (forceRun ef) && active ef then
            (changed ← refresh_all refresh (ord c (dependencies (getn c e))) false;
             mret (if changed : bool then Some e else None)) c
          else Ok (Some e) c
      | _ => Ok None c
      end
  end.

(** [core.go] [Context.flushEffects] *)
Fixpoint drain (steps : nat) (iterations : nat) : M unit := λ c,
  match pendingEffects c with
  | [] => Ok tt c
  | o :: rest =>
      match steps with
      | 0 => OutOfFuel
      | S steps =>
          (r ← drain_pop o rest;
           match r with
           | None => drain steps iterations
           | Some e => (λ c,
               let c := with_drain (drainBudget c)
                 (partial_alter (λ o, Some (S (default 0 o))) e (drainRuns c))
                 (drainOrder c) (lastDrainExhaustion c) c in
               if (DrainBudget c <=? Z.of_nat (S iterations))%Z then
                 Ok tt (with_drain (drainBudget c) (drainRuns c) (drainOrder c)
                          (Some (drainExhaustionReport (S iterations) c)) c)
               else (rerun e;; drain steps (S iterations)) c) : M unit
           end) c
      end
  end.
End effects.

(** [core.go] [Context.flushEffects] *)
Fixpoint flushEffects (fuel : nat) : M unit :=
  match fuel with
  | 0 => λ _, OutOfFuel
  | S fuel => λ c,
      if flushingEffects c then Ok tt c
      else
        deferred
          (modify (λ c, with_drain (drainBudget c) ∅ [] (lastDrainExhaustion c)
                          (with_flushing true c));;
           drain (refresh fuel) (flushEffects fuel) fuel 0)
          (modify (with_flushing false)) c
  end.

(** The public writers, with the recursive calls tied. *)
Definition Set' (fuel : nat) (n : nid) (v : V) : M unit := Set_ (flushEffects fuel) n v.
Definition Merge' (fuel : nat) (n : nid) (v : V) : M unit := Merge (flushEffects fuel) n v.
Definition Batch' (fuel : nat) (fn : M unit) : M unit := Batch (flushEffects fuel) fn.

(** ** The arena of node handles *)

(** [freeNodeSlots] is Go's slice used as a stack, top first.
    [core.go] [Context.registerNode] *)
Definition registerNode (n : nid) (kind : occupantKind) (c : ctx) : ctx :=
  let '(i, c) := match freeNodeSlots c with
    | i :: free => (i, with_arena (λ l, l) (λ _, free) c)
    | [] => (length (nodeSlots c),
             with_arena (λ l, l ++ [MkOccupantSlot 0 occupantNone None]) (λ f, f) c)
    end in
  let gen := default 0%Z (os_generation <$> nodeSlots c !! i) in
  updn n (with_occupant i gen kind)
    (with_arena (alter (λ s, MkOccupantSlot (os_generation s) kind (Some n)) i) (λ f, f) c).

(** [core.go] [Context.resolveNode] *)
Definition resolveNode (n : nid) (kind : occupantKind) (c : ctx) : option nid :=
  let b := getn c n in
  if decide (occKind b = kind) then
    match nodeSlots c !! occupantID b with
    | Some slot =>
        if decide (os_kind slot = kind ∧ os_generation slot = occupantGeneration b)
        then os_node slot else None
    | None => None
    end
  else None.

(** [core.go] [Context.retireNode] *)
Definition retireNode (n : nid) (c : ctx) : ctx :=
  let i := occupantID (getn c n) in
  with_arena (alter (λ s, MkOccupantSlot (u64 (os_generation s + 1)) occupantNone None) i)
    (cons i) c.

(** [core.go] [Context.registerSlot] *)
Definition registerSlot (n : nid) (c : ctx) : ctx :=
  with_slots (λ l, l ++ [n]) (updn n (with_slotIndex (Some (length (slots c)))) c).

(** Swap-remove.
    [core.go] [Context.unregisterSlot] *)
Definition unregisterSlot (n : nid) (c : ctx) : ctx :=
  match slotIndex (getn c n) with
  | Some i =>
      match last (slots c) with
      | Some moved =>
          if decide (i < length (slots c)) then
            updn n (with_slotIndex None)
              (with_slots (λ l, take (length l - 1) (<[i := moved]> l))
                (updn moved (with_slotIndex (Some i)) c))
          else c
      | None => c
      end
  | None => c
  end.

(** [core.go] [Computed.clearCache] *)
Definition clearCache (n : nid) : ctx → ctx :=
  updn n (λ nd, with_stale (λ _, true) (λ _, true)
                  (with_self (on_computed (λ k, with_cached false (with_value None k))) nd)).

(** [core.go] [Context.Clear] *)
Definition Clear (c : ctx) : ctx :=
  with_cachedCount (λ _, 0%Z) (foldl (λ c n, clearCache n c) c (slots c)).

(** [core.go] [Context.Size] *)
Definition Size (c : ctx) : Z := cachedCount c.

(** ** Constructors *)

(** [core.go] [newReactiveBase] *)
Definition newReactiveBase (p : concrete) : node :=
  MkNode p ∅ ∅ 0 0%Z occupantNone false false false None.

Definition alloc (p : concrete) (c : ctx) : nid * ctx :=
  (next c, with_next S (updn (next c) (λ _, newReactiveBase p) c)).

(** [core.go] [NewContext] *)
Definition NewContext : ctx :=
  MkCtx ∅ 0 0 [] 0 0 ∅ [] ∅ false 0 ∅ [] [] 0 ∅ [] None [].

(** [core.go] [NewSourceWithPolicy] *)
Definition NewSourceWithPolicy (initial : V) (policy : V → V → V) : M nid := λ c,
  let '(n, c) := alloc (ASource (MkSource initial policy)) c in
  Ok n (registerNode n occupantSource c).

(** [core.go] [NewSource] *)
Definition NewSource (initial : V) : M nid := NewSourceWithPolicy initial (λ _ op, op).

Definition new_computed (p : comp) (eq : option (V → V → bool)) : M nid := λ c,
  let '(n, c) := alloc (AComputed (MkComputed p eq None false false false)) c in
  Ok n (registerSlot n (registerNode n occupantComputed c)).

(** [core.go] [NewSlot] *)
Definition NewSlot (p : comp) : M nid := new_computed p None.

(** Go sets [equals] on the slot [NewSlot] returned; it is set here at
    allocation.
    [core.go] [NewComputed] *)
Definition NewComputed (p : comp) : M nid :=
  new_computed p (Some (λ prev next, bool_decide (prev = next))).

(** [core.go] [NewComputedRippleWhen] *)
Definition NewComputedRippleWhen (p : comp) (changed : V → V → bool) : M nid :=
  new_computed p (Some (λ prev next, negb (changed prev next))).

(** [core.go] [NewEffect] *)
Definition NewEffect (fuel : nat) (body : eff) : M nid := λ c,
  let '(n, c) := alloc (AEffect (MkEffect body None true false false)) c in
  (rerun (refresh fuel) (flushEffects fuel) n;; mret n) (registerNode n occupantEffect c).

(** ** Disposal *)

(** [disposal.go] [Context.disposeEffect] *)
Definition disposeEffect (fuel : nat) (e : nid) : M unit := λ c,
  match self (getn c e) with
  | AEffect ef =>
      (modify (λ c, updn e (with_disposed true) (upd_effect e (with_active false) c));;
       modify (removePendingEffect e);;
       modify (detachUpstream e);;
       modify (upd_effect e (with_cleanup None));;
       modify (retireNode e);;
       run_cleanup (refresh fuel) (flushEffects fuel) e (cleanup ef)) c
  | _ => Ok tt c
  end.

(** Drop both directions of every downstream edge of [n]. *)
Definition detachDownstream (n : nid) (c : ctx) : ctx :=
  updn n (with_dependents (λ _, ∅))
    (foldset (λ d, updn d (with_dependencies (λ s, s ∖ {[n]}))) (dependents (getn c n)) c).

(** Drop a cacheable's memoized value and its registry slot.
    [disposal.go] [Context.teardown] *)
Definition drop_value (n : nid) (c : ctx) : ctx :=
  if is_cacheable (getn c n) then
    unregisterSlot n (clearCache n
      (with_cachedCount (λ z, if cachedNow (getn c n) then z - 1 else z)%Z c))
  else c.

(** [disposal.go] [Context.teardown] *)
Definition teardown (n : nid) : M unit := λ c,
  let c := detachUpstream n (drop_value n (updn n (with_disposed true) c)) in
  let survivors := ord c (dependents (getn c n)) in
  (modify (with_disposing S);;
   invalidate_all survivors;;
   modify (with_disposing pred);;
   modify (retireNode n)) (detachDownstream n c).

(** [disposal.go] [Context.disposeNode] *)
Fixpoint disposeNode (fuel : nat) (n : nid) : M unit :=
  match fuel with
  | 0 => λ _, OutOfFuel
  | S fuel => λ c,
      match resolveNode n (occKind (getn c n)) c with
      | None => Ok tt c
      | Some n =>
          if disposed (getn c n) then Ok tt c
          else
            (match eagerBy c !! n with
             | Some p => modify (with_eagerBy (delete n));; disposeNode fuel p
             | None => mret tt
             end;;
             (if is_effect (getn c n) then disposeEffect fuel n else teardown n)) c
      end
  end.

(** [core.go] [Computed.Eager] *)
Definition Eager (fuel : nat) (n : nid) : M nid := λ c,
  match self (getn c n) with
  | AComputed k =>
      if disposed (getn c n) || eager k then Ok n c
      else
        (modify (updn n (with_self (on_computed (with_eager true))));;
         puller ← NewEffect fuel (ERead true n (λ _, EDone None));
         modify (with_eagerBy (<[n := puller]>));;
         mret n) c
  | _ => Ok n c
  end.

(** [core.go] [Computed.Lazy] *)
Definition Lazy (fuel : nat) (n : nid) : M unit := λ c,
  match self (getn c n) with
  | AComputed k =>
      if negb (eager k) then Ok tt c
      else
        (match eagerBy c !! n with
         | Some p => modify (with_eagerBy (delete n));; disposeNode fuel p
         | None => mret tt
         end;;
         modify (updn n (with_self (on_computed (with_eager false))))) c
  | _ => Ok tt c
  end.

(** [disposal.go] [Context.DependentCount] *)
Definition DependentCount (c : ctx) (n : nid) : nat :=
  if disposed (getn c n) then 0 else size (dependents (getn c n)).

(** [disposal.go] [Context.DependencyCount] *)
Definition DependencyCount (c : ctx) (n : nid) : nat :=
  if disposed (getn c n) then 0 else size (dependencies (getn c n)).

(** [disposal.go] [type TeardownScope] *)
Record TeardownScope := MkTeardownScope { owned : list nid; closed : bool }.

(** [disposal.go] [Own] *)
Definition Own (s : TeardownScope) (n : nid) : TeardownScope :=
  if closed s then s else MkTeardownScope (owned s ++ [n]) (closed s).

(** [disposal.go] [TeardownScope.Disarm] *)
Definition Disarm (s : TeardownScope) : TeardownScope := MkTeardownScope [] (closed s).

Fixpoint dispose_list (fuel : nat) (l : list nid) : M unit :=
  match l with [] => mret tt | n :: l => disposeNode fuel n;; dispose_list fuel l end.

(** [disposal.go] [TeardownScope.Close] *)
Definition Close (fuel : nat) (s : TeardownScope) : M TeardownScope :=
  dispose_list fuel (rev (owned s));; mret (MkTeardownScope [] true).

End ordered.
End kernel.

Arguments Ok {V A}.
Arguments Panic {V A}.
Arguments OutOfFuel {V A}.
