(* ===== verification/KernelMark.v ===== *)
(** * KernelMark: the invalidation walk of the kernel (core.go [markCone])

    The walk always terminates, keeps every edge and every stored value, makes
    exactly the reachable cone stale, and preserves the kernel's staleness
    invariant. *)

From S2P Require Import Prelude Kernel.

Section mark.
Context {V : Type} `{EqDecision V}.
Implicit Types (c : @ctx V) (nd : @node V) (n d : nat) (e : markEntry) (st : list markEntry).

(** ** The heap *)

Lemma getn_updn n f c m :
  getn (updn n f c) m = if decide (m = n) then f (getn c n) else getn c m.
Proof.
  unfold getn, updn; simpl. case_decide; subst.
  - by rewrite lookup_insert_eq.
  - by rewrite lookup_insert_ne.
Qed.
Lemma getn_updn_eq n f c : getn (updn n f c) n = f (getn c n).
Proof. rewrite getn_updn. by case_decide. Qed.
Lemma getn_updn_ne n f c m : m ≠ n → getn (updn n f c) m = getn c m.
Proof. intros. rewrite getn_updn. by case_decide. Qed.

(** A node without its staleness: what the walk never touches. *)
Definition skel nd : node :=
  with_stale (λ _, false) (λ _, false)
    (with_self (λ p, on_effect (with_forceRun false) (on_computed (with_cached false) p)) nd).

Definition same_shape c c' : Prop := ∀ n, skel (getn c' n) = skel (getn c n).

#[export] Instance same_shape_refl : Reflexive same_shape.
Proof. by intros c n. Qed.
#[export] Instance same_shape_trans : Transitive same_shape.
Proof. intros a b c H1 H2 n. by rewrite H2. Qed.

Definition is_source nd : bool := match self nd with ASource _ => true | _ => false end.

Section skel.
Context (nd nd' : @node V) (Hsk : skel nd' = skel nd).

Lemma skel_dependents : dependents nd' = dependents nd.
Proof using Hsk. by apply (f_equal dependents) in Hsk. Qed.
Lemma skel_dependencies : dependencies nd' = dependencies nd.
Proof using Hsk. by apply (f_equal dependencies) in Hsk. Qed.
Lemma skel_disposed : disposed nd' = disposed nd.
Proof using Hsk. by apply (f_equal disposed) in Hsk. Qed.
Lemma skel_stored : stored nd' = stored nd.
Proof using Hsk.
  apply (f_equal stored) in Hsk. revert Hsk. unfold stored, skel; simpl.
  by destruct (self nd), (self nd').
Qed.
Lemma skel_cacheable : is_cacheable nd' = is_cacheable nd.
Proof using Hsk.
  apply (f_equal is_cacheable) in Hsk. revert Hsk. unfold is_cacheable, skel; simpl.
  by destruct (self nd), (self nd').
Qed.
Lemma skel_effect : is_effect nd' = is_effect nd.
Proof using Hsk.
  apply (f_equal is_effect) in Hsk. revert Hsk. unfold is_effect, skel; simpl.
  by destruct (self nd), (self nd').
Qed.
Lemma skel_source : is_source nd' = is_source nd.
Proof using Hsk.
  apply (f_equal is_source) in Hsk. revert Hsk. unfold is_source, skel; simpl.
  by destruct (self nd), (self nd').
Qed.
End skel.

(** The context fields no marking or pulling touches. *)
Definition statics c :=
  (next c, slots c, batchDepth c, batchedCells c, flushingEffects c, disposing c,
   eagerBy c, nodeSlots c, freeNodeSlots c, drainBudget c, drainRuns c, drainOrder c,
   lastDrainExhaustion c, out c).
Definition pend c := (pendingEffects c, scheduledEffects c).

(** Number of current values held: what [Size] reports. *)
Definition count_cached c : nat := map_sum (λ nd, Nat.b2n (cachedNow nd)) (nodes c).
Definition count_ok c : Prop := cachedCount c = Z.of_nat (count_cached c).

Lemma count_updn n f c :
  count_cached (updn n f c) + Nat.b2n (cachedNow (getn c n))
  = Nat.b2n (cachedNow (f (getn c n))) + count_cached c.
Proof.
  unfold count_cached.
  pose proof (map_sum_insert (λ nd, Nat.b2n (cachedNow nd)) (nodes c) n (f (getn c n))) as Hs.
  simpl in Hs. rewrite <-Hs. f_equal. unfold getn. by destruct (nodes c !! n).
Qed.

(** ** Edges *)

(** Both directions agree, effects are pure sinks and sources pure sources. *)
Record edges_ok c : Prop := {
  e_sym : ∀ a b, a ∈ dependents (getn c b) ↔ b ∈ dependencies (getn c a);
  e_src : ∀ a b, a ∈ dependents (getn c b) → is_source (getn c a) = false;
  e_eff : ∀ a b, a ∈ dependents (getn c b) → is_effect (getn c b) = false;
}.

Lemma edges_ok_shape c c' : same_shape c c' → edges_ok c → edges_ok c'.
Proof.
  intros Hs [H1 H2 H3]. split; intros a b.
  - by rewrite (skel_dependents _ _ (Hs b)), (skel_dependencies _ _ (Hs a)).
  - rewrite (skel_dependents _ _ (Hs b)), (skel_source _ _ (Hs a)). apply H2.
  - rewrite (skel_dependents _ _ (Hs b)), (skel_effect _ _ (Hs b)). apply H3.
Qed.

(** Stale flags are never set on a value that is current, and a disposed node
    holds none. *)
Record flags_ok c : Prop := {
  f_dirty : ∀ n, dirty (getn c n) = true → cachedNow (getn c n) = false;
  f_force : ∀ n, forceRecompute (getn c n) = true → cachedNow (getn c n) = false;
  f_disposed : ∀ n, disposed (getn c n) = true → cachedNow (getn c n) = false;
}.

(** A computed whose value is not current. *)
Definition stale nd : bool := is_cacheable nd && negb (cachedNow nd).

(** Nothing downstream of a stale computed is current. *)
Definition down_ok c : Prop :=
  ∀ d n, n ∈ dependents (getn c d) → stale (getn c d) = true → cachedNow (getn c n) = false.

(** ** One visit *)

Definition visited (force : bool) nd : node :=
  with_stale (λ _, true) (λ f, force || f) (with_self (on_computed (with_cached false)) nd).

Lemma mark_visit_computed sched e c k :
  self (getn c (me_node e)) = AComputed k → disposed (getn c (me_node e)) = false →
  ∀ m, getn (mark_visit sched e c).1 m =
    if decide (m = me_node e) then visited (me_force e) (getn c m) else getn c m.
Proof.
  intros Hk Hd m. unfold mark_visit. rewrite Hd, Hk. simpl.
  unfold onInvalidate, Computed_onInvalidate.
  destruct e as [n []]; simpl in *.
  - rewrite getn_updn_eq. simpl. rewrite Hk. unfold getn at 1; simpl. fold (getn (V:=V)).
    change (default no_node (_ !! m)) with
      (getn (updn n (λ nd, with_stale (λ _, true) id (with_self (on_computed (with_cached false)) nd))
         (updn n (with_stale id (λ _, true)) c)) m).
    rewrite !getn_updn. case_decide; subst; [|done]. rewrite !decide_True by done.
    unfold visited, with_stale, with_self; simpl. by rewrite Hk.
  - rewrite Hk. 
    change (getn (with_cachedCount _ ?x) m) with (getn x m).
    rewrite getn_updn. case_decide; subst; [|done].
    unfold visited, with_stale, with_self; simpl. by rewrite Hk.
Qed.

Lemma scheduleEffect_getn n c m : getn (scheduleEffect n c) m = getn c m.
Proof. unfold scheduleEffect. by case_decide. Qed.
Lemma scheduleEffect_statics n c : statics (scheduleEffect n c) = statics c.
Proof. unfold scheduleEffect. by case_decide. Qed.

(** Every other visit leaves all but an effect's pending force flag. *)
Lemma mark_visit_other sched e c m :
  (is_cacheable (getn c (me_node e)) = false ∨ disposed (getn c (me_node e)) = true) →
  getn (mark_visit sched e c).1 m = getn c m ∨
  (is_effect (getn c m) = true ∧
   getn (mark_visit sched e c).1 m = with_self (on_effect (with_forceRun true)) (getn c m)).
Proof.
  unfold mark_visit, is_cacheable.
  destruct (disposed (getn c (me_node e))); simpl; [by left|]. intros [Hc|]; [|done].
  destruct (self (getn c (me_node e))) eqn:Es; simpl in *; [|done|].
  - left. unfold onInvalidate. by rewrite Es.
  - destruct sched; [|by left]. unfold markStale.
    case_decide; [by left|]. rewrite scheduleEffect_getn.
    destruct (me_force e); [|by left].
    rewrite getn_updn. case_decide; subst; [|by left]. right.
    unfold is_effect. by rewrite Es.
Qed.

Lemma mark_visit_cases sched e c m :
  (is_cacheable (getn c (me_node e)) = true ∧ disposed (getn c (me_node e)) = false ∧
   getn (mark_visit sched e c).1 m =
     if decide (m = me_node e) then visited (me_force e) (getn c m) else getn c m) ∨
  ((is_cacheable (getn c (me_node e)) = false ∨ disposed (getn c (me_node e)) = true) ∧
   (getn (mark_visit sched e c).1 m = getn c m ∨
    (is_effect (getn c m) = true ∧
     getn (mark_visit sched e c).1 m = with_self (on_effect (with_forceRun true)) (getn c m)))).
Proof.
  destruct (disposed (getn c (me_node e))) eqn:Ed.
  { right. split; [tauto|]. apply mark_visit_other; tauto. }
  destruct (is_cacheable (getn c (me_node e))) eqn:Ec.
  - left. do 2 (split; [done|]). unfold is_cacheable in Ec.
    destruct (self (getn c (me_node e))) eqn:Es; [done| |done].
    by eapply mark_visit_computed.
  - right. split; [tauto|]. apply mark_visit_other; tauto.
Qed.

(** A visit only touches its own node. *)
Lemma mark_visit_ne sched e c m :
  m ≠ me_node e → getn (mark_visit sched e c).1 m = getn c m.
Proof.
  intros Hne. unfold mark_visit. destruct (disposed _); [done|].
  destruct (self (getn c (me_node e))) as [s|k|ef] eqn:Es; simpl.
  - unfold onInvalidate. by rewrite Es.
  - unfold onInvalidate. destruct (me_force e).
    + rewrite getn_updn_eq; simpl. rewrite Es. unfold Computed_onInvalidate.
      change (getn (with_cachedCount ?f ?x) m) with (getn x m). by rewrite !getn_updn_ne.
    + rewrite Es. unfold Computed_onInvalidate.
      change (getn (with_cachedCount ?f ?x) m) with (getn x m). by rewrite getn_updn_ne.
  - destruct sched; [|done]. unfold markStale. case_decide; [done|].
    rewrite scheduleEffect_getn. destruct (me_force e); [|done]. by rewrite getn_updn_ne.
Qed.

Lemma visited_skel force nd : skel (visited force nd) = skel nd.
Proof. unfold skel, visited, with_stale, with_self; simpl. by destruct (self nd). Qed.
Lemma forceRun_skel b nd : skel (with_self (on_effect (with_forceRun b)) nd) = skel nd.
Proof. unfold skel, with_stale, with_self; simpl. by destruct (self nd). Qed.
Lemma forceRun_cached b nd :
  cachedNow (with_self (on_effect (with_forceRun b)) nd) = cachedNow nd.
Proof. unfold cachedNow, with_self; simpl. by destruct (self nd). Qed.
Lemma visited_cached force nd : cachedNow (visited force nd) = false.
Proof. unfold cachedNow, visited, with_self; simpl. by destruct (self nd). Qed.

Lemma mark_visit_shape sched e c : same_shape c (mark_visit sched e c).1.
Proof.
  intros m. destruct (mark_visit_cases sched e c m) as [(_ & _ & ->)|[_ [->|[_ ->]]]].
  - case_decide; [apply visited_skel|done].
  - done.
  - apply forceRun_skel.
Qed.

Lemma markStale_statics n b c : statics (markStale n b c) = statics c.
Proof.
  unfold markStale. case_decide; [done|]. rewrite scheduleEffect_statics. by destruct b.
Qed.

Lemma onInvalidate_statics n c : statics (onInvalidate n c) = statics c.
Proof.
  unfold onInvalidate. destruct (self _); [done|done|]. apply markStale_statics.
Qed.

Lemma mark_visit_statics sched e c : statics (mark_visit sched e c).1 = statics c.
Proof.
  unfold mark_visit. destruct (disposed _); [done|].
  destruct (self (getn c (me_node e))); simpl.
  - apply onInvalidate_statics.
  - rewrite onInvalidate_statics. by destruct (me_force e).
  - destruct sched; [apply markStale_statics|done].
Qed.

Lemma mark_visit_pend e c : pend (mark_visit false e c).1 = pend c.
Proof.
  unfold mark_visit. destruct (disposed _); [done|].
  destruct (self (getn c (me_node e))) as [|k|] eqn:Es; simpl; [|..|done].
  - unfold onInvalidate. by rewrite Es.
  - unfold onInvalidate. destruct (me_force e); [|by rewrite Es].
    rewrite getn_updn_eq. simpl. by rewrite Es.
Qed.

Lemma updn_count n f c :
  cachedNow (f (getn c n)) = cachedNow (getn c n) → count_ok c → count_ok (updn n f c).
Proof.
  unfold count_ok. intros Hf Hc. pose proof (count_updn n f c) as Hu. rewrite Hf in Hu.
  change (cachedCount (updn n f c)) with (cachedCount c). lia.
Qed.

Lemma markStale_count n b c : count_ok c → count_ok (markStale n b c).
Proof.
  intros Hc. unfold markStale. case_decide; [done|].
  assert (Hs : ∀ c, count_ok c → count_ok (scheduleEffect n c)).
  { intros c' Hc'. unfold scheduleEffect. by case_decide. }
  apply Hs. destruct b; [|done]. apply updn_count; [apply forceRun_cached|done].
Qed.

Lemma onInvalidate_count n c : count_ok c → count_ok (onInvalidate n c).
Proof.
  intros Hc. unfold onInvalidate. destruct (self (getn c n)) eqn:Es; [done| |].
  - unfold count_ok, Computed_onInvalidate in *.
    pose proof (count_updn n (λ nd, with_stale (λ _, true) id
      (with_self (on_computed (with_cached false)) nd)) c) as Hu.
    change (count_cached (with_cachedCount ?f ?x)) with (count_cached x). simpl.
    unfold cachedNow, with_self in *; simpl in *. rewrite Es in *. simpl in *.
    destruct (cached k); simpl in *; lia.
  - by apply markStale_count.
Qed.

Lemma mark_visit_count sched e c : count_ok c → count_ok (mark_visit sched e c).1.
Proof.
  intros Hc. unfold mark_visit. destruct (disposed _); [done|].
  destruct (self (getn c (me_node e))); simpl.
  - by apply onInvalidate_count.
  - apply onInvalidate_count. destruct (me_force e); [|done]. by apply updn_count.
  - destruct sched; [by apply markStale_count|done].
Qed.

(** ** Runs of the walk *)

Section walk.
Context (ord : @ctx V → gset nat → list nat).
Hypothesis ord_perm : ∀ c s, ord c s ≡ₚ elements s.

Lemma elem_of_ord c s n : n ∈ ord c s ↔ n ∈ s.
Proof using ord_perm. by rewrite ord_perm, elem_of_elements. Qed.

Lemma length_ord c s : length (ord c s) = size s.
Proof using ord_perm. by rewrite ord_perm. Qed.

Definition stack_after (propagate : bool) c e st : list markEntry :=
  if propagate then push_marks false (ord c (dependents (getn c (me_node e)))) st else st.

Inductive mark_run (sched : bool) : list markEntry → ctx → ctx → Prop :=
  | mark_done c : mark_run sched [] c c
  | mark_step e st c c1 p c' :
      mark_visit sched e c = (c1, p) →
      mark_run sched (stack_after p c1 e st) c1 c' →
      mark_run sched (e :: st) c c'.

Lemma push_marks_length f l st : length (push_marks f l st) = length l + length st.
Proof. unfold push_marks. revert st. induction l; intros; simpl; [done|]. rewrite IHl. simpl. lia. Qed.

Lemma elem_of_push_marks e f l st :
  e ∈ push_marks f l st ↔ (me_node e ∈ l ∧ me_force e = f) ∨ e ∈ st.
Proof.
  unfold push_marks. revert st. induction l as [|d l IH]; intros st; simpl.
  - set_solver.
  - rewrite IH, !elem_of_cons. destruct e as [n b]; simpl. split.
    + intros [[? ?]|[[= -> ->]|?]]; tauto.
    + intros [[[->|?] ->]|?]; tauto.
Qed.

Lemma elem_of_stack_after e' p c e st :
  e' ∈ stack_after p c e st ↔
  (p = true ∧ me_node e' ∈ dependents (getn c (me_node e)) ∧ me_force e' = false) ∨ e' ∈ st.
Proof using ord_perm.
  unfold stack_after. destruct p.
  - rewrite elem_of_push_marks, elem_of_ord. naive_solver.
  - naive_solver.
Qed.

(** *** Termination *)

Definition level nd : nat := Nat.b2n (dirty nd) + Nat.b2n (forceRecompute nd).
Definition weight nd : nat := (2 - level nd) * size (dependents nd).
Definition pot c : nat := map_sum weight (nodes c).

Lemma pot_le c : pot c ≤ mark_fuel c.
Proof.
  unfold pot, mark_fuel, map_sum.
  induction (nodes c) as [|i x m Hi IH] using map_ind; [by rewrite !map_fold_empty|].
  rewrite !map_fold_insert_L by (done || intros; lia).
  enough (weight x ≤ 2 * size (dependents x)) by lia. unfold weight. nia.
Qed.

Lemma pot_with n f c : pot (updn n f c) + weight (getn c n) = weight (f (getn c n)) + pot c.
Proof.
  unfold pot. pose proof (map_sum_insert weight (nodes c) n (f (getn c n))) as Hs.
  simpl in Hs. rewrite <-Hs. f_equal. unfold getn. by destruct (nodes c !! n).
Qed.

Lemma forceRun_pot n b c : pot (updn n (with_self (on_effect (with_forceRun b))) c) = pot c.
Proof.
  pose proof (pot_with n (with_self (on_effect (with_forceRun b))) c) as Hp.
  unfold weight, level in Hp. simpl in Hp. lia.
Qed.

Lemma markStale_pot n b c : pot (markStale n b c) = pot c.
Proof.
  unfold markStale. case_decide; [done|].
  assert (Hs : ∀ c, pot (scheduleEffect n c) = pot c).
  { intros c'. unfold scheduleEffect. by case_decide. }
  rewrite Hs. destruct b; [apply forceRun_pot|done].
Qed.

Lemma mark_visit_pot sched e c :
  is_source (getn c (me_node e)) = false →
  pot (mark_visit sched e c).1 +
    (if (mark_visit sched e c).2 then size (dependents (getn c (me_node e))) else 0) ≤ pot c.
Proof.
  intros Hsrc. unfold mark_visit, is_source in *. destruct (disposed _); [simpl; lia|].
  destruct (self (getn c (me_node e))) eqn:Es; [done| |]; simpl.
  - unfold onInvalidate. destruct (me_force e).
    + rewrite getn_updn_eq; simpl. rewrite Es. unfold Computed_onInvalidate.
      change (pot (with_cachedCount ?f ?x)) with (pot x).
      match goal with |- pot (updn _ ?f (updn _ ?g c)) + _ ≤ _ =>
        pose proof (pot_with (me_node e) f (updn (me_node e) g c)) as H1;
        pose proof (pot_with (me_node e) g c) as H2 end.
      rewrite getn_updn_eq in H1. unfold weight, level in *. simpl in *.
      destruct (dirty _), (forceRecompute _); simpl in *; lia.
    + rewrite Es. unfold Computed_onInvalidate.
      change (pot (with_cachedCount ?f ?x)) with (pot x).
      match goal with |- pot (updn _ ?f c) + _ ≤ _ =>
        pose proof (pot_with (me_node e) f c) as H1 end.
      unfold weight, level in *. simpl in *.
      destruct (dirty _), (forceRecompute _); simpl in *; lia.
  - destruct sched; [rewrite markStale_pot|]; lia.
Qed.

Definition sinks c st : Prop := ∀ e, e ∈ st → is_source (getn c (me_node e)) = false.

Lemma stack_after_sinks sched e st c :
  edges_ok c → sinks c (e :: st) →
  sinks (mark_visit sched e c).1
    (stack_after (mark_visit sched e c).2 (mark_visit sched e c).1 e st).
Proof using ord_perm.
  intros He Hst e' Hin. set (c1 := (mark_visit sched e c).1) in *.
  pose proof (mark_visit_shape sched e c) as Hs. fold c1 in Hs.
  rewrite (skel_source _ _ (Hs _)). apply elem_of_stack_after in Hin as [(_ & Hin & _)|Hin].
  - rewrite (skel_dependents _ _ (Hs _)) in Hin. by eapply e_src.
  - apply Hst. by right.
Qed.

(** The walk terminates within its fuel. *)
Lemma markCone_loop_runs sched fuel st c :
  edges_ok c → sinks c st → length st + pot c ≤ fuel →
  ∃ c', markCone_loop ord fuel sched st c = Ok tt c' ∧ mark_run sched st c c'.
Proof using ord_perm.
  revert st c. induction fuel as [|fuel IH]; intros [|e st] c He Hst Hf; simpl in *; try lia.
  - eexists. split; [done|constructor].
  - eexists. split; [done|constructor].
  - destruct (mark_visit sched e c) as [c1 p] eqn:Ev.
    pose proof (mark_visit_shape sched e c) as Hs.
    pose proof (stack_after_sinks sched e st c He Hst) as Hk.
    pose proof (mark_visit_pot sched e c (Hst e (list_elem_of_here _ _))) as Hp.
    rewrite Ev in *; simpl in *.
    assert (He1 : edges_ok c1) by (by eapply edges_ok_shape).
    destruct (IH (stack_after p c1 e st) c1 He1 Hk) as (c' & Hl & Hr).
    { unfold stack_after. destruct p; [|lia].
      rewrite push_marks_length, length_ord, (skel_dependents _ _ (Hs _)). lia. }
    exists c'. split; [exact Hl|]. by econstructor.
Qed.

Lemma markCone_runs sched st c :
  edges_ok c → sinks c st →
  ∃ c', markCone ord st sched c = Ok tt c' ∧ mark_run sched st c c'.
Proof using ord_perm.
  intros He Hst. apply markCone_loop_runs; [done..|]. pose proof (pot_le c). lia.
Qed.

(** *** What a run preserves *)

(** A node nothing depends on and no root names is left alone. *)
Lemma mark_run_untouched sched st c c' m :
  mark_run sched st c c' → (∀ b, m ∉ dependents (getn c b)) →
  (∀ e, e ∈ st → me_node e ≠ m) → getn c' m = getn c m.
Proof using ord_perm.
  induction 1 as [|e st c c1 p c' Hv _ IH]; [done|]. intros Hm Hst.
  pose proof (mark_visit_ne sched e c m) as Hne.
  pose proof (mark_visit_shape sched e c) as Hs. rewrite Hv in *; simpl in *.
  rewrite <-Hne by (apply not_eq_sym, Hst, list_elem_of_here). apply IH.
  - intros b. by rewrite (skel_dependents _ _ (Hs b)).
  - intros e'. rewrite elem_of_stack_after. intros [(_ & Hin & _)|Hin].
    + intros <-. rewrite (skel_dependents _ _ (Hs _)) in Hin. by apply (Hm _ Hin).
    + apply Hst. by right.
Qed.

Lemma mark_run_shape sched st c c' : mark_run sched st c c' → same_shape c c'.
Proof.
  induction 1 as [|e st c c1 p c' Hv _ IH]; [done|].
  rewrite <-IH. pose proof (mark_visit_shape sched e c) as Hs. by rewrite Hv in Hs.
Qed.

Lemma mark_run_statics sched st c c' : mark_run sched st c c' → statics c' = statics c.
Proof.
  induction 1 as [|e st c c1 p c' Hv _ IH]; [done|].
  rewrite IH. pose proof (mark_visit_statics sched e c) as Hs. by rewrite Hv in Hs.
Qed.

Lemma mark_run_pend st c c' : mark_run false st c c' → pend c' = pend c.
Proof.
  remember false as b. induction 1 as [|e st c c1 p c' Hv _ IH]; [done|]. subst.
  rewrite IH by done. pose proof (mark_visit_pend e c) as Hs. by rewrite Hv in Hs.
Qed.

Lemma mark_run_count sched st c c' : mark_run sched st c c' → count_ok c → count_ok c'.
Proof.
  induction 1 as [|e st c c1 p c' Hv _ IH]; [done|]. intros Hc. apply IH.
  pose proof (mark_visit_count sched e c Hc) as Hs. by rewrite Hv in Hs.
Qed.

(** One visit only ever makes its own node stale. *)
Lemma mark_visit_flags sched e c m :
  let nd := getn c m in let nd' := getn (mark_visit sched e c).1 m in
  (cachedNow nd' = true → cachedNow nd = true) ∧
  (dirty nd = true → dirty nd' = true) ∧
  (forceRecompute nd = true → forceRecompute nd' = true) ∧
  (forceRecompute nd' = true → forceRecompute nd = true ∨ (m = me_node e ∧ me_force e = true)) ∧
  (cachedNow nd = true → cachedNow nd' = false → m = me_node e) ∧
  (dirty nd' = true → dirty nd = true ∨ cachedNow nd' = false).
Proof.
  simpl. destruct (mark_visit_cases sched e c m) as [(_ & _ & ->)|[_ [->|[Hf ->]]]].
  - case_decide; subst.
    + rewrite visited_cached. simpl. destruct (me_force e); naive_solver.
    + split_and!; intros; try tauto. congruence.
  - split_and!; intros; try tauto. congruence.
  - rewrite forceRun_cached. simpl. split_and!; intros; try tauto. congruence.
Qed.

Lemma mark_visit_uncached sched e c :
  flags_ok c → cachedNow (getn (mark_visit sched e c).1 (me_node e)) = false.
Proof.
  intros Hf. destruct (mark_visit_cases sched e c (me_node e)) as [(_ & _ & ->)|[Hn Hc]].
  - rewrite decide_True by done. apply visited_cached.
  - assert (Hu : cachedNow (getn c (me_node e)) = false).
    { destruct Hn as [Hn|Hn]; [|by apply f_disposed].
      unfold is_cacheable, cachedNow in *. by destruct (self _). }
    destruct Hc as [->|[_ ->]]; [done|]. by rewrite forceRun_cached.
Qed.

Lemma mark_visit_flags_ok sched e c : flags_ok c → flags_ok (mark_visit sched e c).1.
Proof.
  intros Hf. pose proof (mark_visit_shape sched e c) as Hs.
  assert (Hm : ∀ m, cachedNow (getn (mark_visit sched e c).1 m) = true →
                    cachedNow (getn c m) = true ∧ m ≠ me_node e).
  { intros m Hc. split; [by apply (mark_visit_flags sched e c m)|].
    intros ->. by rewrite mark_visit_uncached in Hc. }
  split; intros n Hn; apply not_true_is_false; intros Hc;
    destruct (Hm n Hc) as [Hc0 Hne];
    destruct (mark_visit_flags sched e c n) as (_ & _ & _ & H4 & _ & H6).
  - destruct (H6 Hn) as [Hd|Hd]; [|congruence]. rewrite (f_dirty _ Hf n Hd) in Hc0. done.
  - destruct (H4 Hn) as [Hd|[? _]]; [|done]. rewrite (f_force _ Hf n Hd) in Hc0. done.
  - rewrite (skel_disposed _ _ (Hs n)) in Hn. by rewrite (f_disposed _ Hf n Hn) in Hc0.
Qed.

Lemma mark_run_flags_ok sched st c c' : mark_run sched st c c' → flags_ok c → flags_ok c'.
Proof.
  induction 1 as [|e st c c1 p c' Hv _ IH]; [done|]. intros Hc. apply IH.
  pose proof (mark_visit_flags_ok sched e c Hc) as Hs. by rewrite Hv in Hs.
Qed.

(** The staleness invariant, short of the nodes still on the stack. *)
Definition down_but st c : Prop :=
  ∀ d n, n ∈ dependents (getn c d) → stale (getn c d) = true →
    cachedNow (getn c n) = false ∨ ∃ e, e ∈ st ∧ me_node e = n.

Lemma down_but_nil c : down_but [] c ↔ down_ok c.
Proof.
  split; intros H d n Hn Hd.
  - destruct (H d n Hn Hd) as [?|(? & ?%elem_of_nil & _)]; done.
  - left. by eapply H.
Qed.

Lemma down_but_mono st st' c : st ⊆ st' → down_but st c → down_but st' c.
Proof. intros Hss H d n Hn Hd. destruct (H d n Hn Hd); naive_solver. Qed.

(** A visit that does not descend found its node already dirty, and the walk
    that dirtied it marked its dependents. *)
Lemma mark_visit_stop sched e c :
  is_cacheable (getn c (me_node e)) = true → disposed (getn c (me_node e)) = false →
  (mark_visit sched e c).2 = false → dirty (getn c (me_node e)) = true.
Proof.
  unfold mark_visit, is_cacheable. intros Hc ->. destruct (self _); [done| |done]. simpl.
  by destruct (dirty _).
Qed.

Lemma mark_visit_down sched e st c :
  flags_ok c → down_but (e :: st) c →
  down_but (stack_after (mark_visit sched e c).2 (mark_visit sched e c).1 e st)
    (mark_visit sched e c).1.
Proof using ord_perm.
  intros Hf Hd d n Hn Hst.
  pose proof (mark_visit_shape sched e c) as Hs.
  rewrite (skel_dependents _ _ (Hs d)) in Hn.
  (* a dependent known stale before, or on the old stack *)
  assert (Hold : stale (getn c d) = true →
    cachedNow (getn (mark_visit sched e c).1 n) = false ∨
    ∃ e', e' ∈ stack_after (mark_visit sched e c).2 (mark_visit sched e c).1 e st ∧ me_node e' = n).
  { intros Hsd. destruct (Hd d n Hn Hsd) as [Hc|(e' & He' & <-)].
    - left. apply not_true_is_false. intros Hc'.
      apply (mark_visit_flags sched e c n) in Hc'. congruence.
    - apply elem_of_cons in He' as [->|He']; [left; by apply mark_visit_uncached|].
      right. exists e'. split; [|done]. apply elem_of_stack_after. by right. }
  destruct (mark_visit_cases sched e c d) as [(Hca & Hdi & Hg)|[_ Hg]].
  - case_decide as Hde; [subst d|apply Hold; by rewrite <-Hg].
    destruct (mark_visit sched e c).2 eqn:Ep.
    + right. exists (MarkEntry n false). split; [|done]. apply elem_of_stack_after. left.
      by rewrite (skel_dependents _ _ (Hs _)).
    + apply Hold. unfold stale. rewrite Hca. simpl.
      rewrite (f_dirty _ Hf); [done|]. by apply (mark_visit_stop sched e c).
  - apply Hold. destruct Hg as [<-|[Heff Hg]]; [done|].
    unfold stale, is_cacheable, is_effect in *. rewrite Hg in Hst. simpl in Hst.
    by destruct (self (getn c d)).
Qed.

Lemma mark_run_down sched st c c' :
  mark_run sched st c c' → flags_ok c → down_but st c → down_ok c'.
Proof using ord_perm.
  induction 1 as [c|e st c c1 p c' Hv _ IH]; intros Hf Hd; [by apply down_but_nil|].
  apply IH.
  - pose proof (mark_visit_flags_ok sched e c Hf) as Hs. by rewrite Hv in Hs.
  - pose proof (mark_visit_down sched e st c Hf Hd) as Hs. by rewrite Hv in Hs.
Qed.

(** Staleness only grows; forced nodes are the forced roots. *)
Lemma mark_run_mono sched st c c' m :
  mark_run sched st c c' →
  (cachedNow (getn c' m) = true → cachedNow (getn c m) = true) ∧
  (dirty (getn c m) = true → dirty (getn c' m) = true) ∧
  (forceRecompute (getn c m) = true → forceRecompute (getn c' m) = true).
Proof.
  induction 1 as [|e st c c1 p c' Hv _ IH]; [done|].
  pose proof (mark_visit_flags sched e c m) as Hs. rewrite Hv in Hs. simpl in Hs. tauto.
Qed.

Lemma mark_run_force sched st c c' m :
  mark_run sched st c c' → forceRecompute (getn c' m) = true →
  forceRecompute (getn c m) = true ∨ MarkEntry m true ∈ st.
Proof using ord_perm.
  induction 1 as [|e st c c1 p c' Hv _ IH]; [by left|]. intros Hf.
  destruct (IH Hf) as [H1|Hin].
  - pose proof (mark_visit_flags sched e c m) as Hs. rewrite Hv in Hs. simpl in Hs.
    destruct Hs as (_ & _ & _ & Hs & _). destruct (Hs H1) as [?|[-> ?]]; [by left|right].
    destruct e; simpl in *; subst. apply list_elem_of_here.
  - right. apply elem_of_stack_after in Hin as [(_ & _ & ?)|Hin]; [done|]. by right.
Qed.

(** Every root that bears a value ends up stale, forced if it was forced. *)
Lemma mark_run_root sched st c c' e :
  mark_run sched st c c' → flags_ok c → e ∈ st →
  cachedNow (getn c' (me_node e)) = false ∧
  (is_cacheable (getn c (me_node e)) = true → disposed (getn c (me_node e)) = false →
   me_force e = true → forceRecompute (getn c' (me_node e)) = true).
Proof using ord_perm.
  induction 1 as [|e0 st c c1 p c' Hv Hr IH]; intros Hf He; [by apply elem_of_nil in He|].
  pose proof (mark_visit_flags_ok sched e0 c Hf) as Hf1.
  pose proof (mark_visit_shape sched e0 c) as Hs.
  pose proof (mark_visit_uncached sched e0 c Hf) as Hu.
  pose proof (mark_run_mono sched _ c1 c' (me_node e) Hr) as (Hm1 & _ & Hm3).
  rewrite Hv in *; simpl in *.
  apply elem_of_cons in He as [->|He].
  - split; [by destruct (cachedNow (getn c' (me_node e0))); [rewrite Hm1 in Hu|]|].
    intros Hc Hdi Hfo. apply Hm3.
    destruct (mark_visit_cases sched e0 c (me_node e0)) as [(_ & _ & Hg)|[[|] _]]; [|congruence..].
    rewrite Hv, decide_True in Hg by done. simpl in Hg. rewrite Hg. simpl. by rewrite Hfo.
  - destruct (IH Hf1) as [H1 H2]; [apply elem_of_stack_after; by right|].
    split; [done|]. by rewrite <-(skel_cacheable _ _ (Hs _)), <-(skel_disposed _ _ (Hs _)).
Qed.

(** Only nodes reachable from a root can lose their current value. *)
Definition edge c (d n : nat) : Prop := n ∈ dependents (getn c d).
Definition reach c st (n : nat) : Prop := ∃ e, e ∈ st ∧ rtc (edge c) (me_node e) n.

Lemma mark_run_cached sched st c c' n :
  mark_run sched st c c' → cachedNow (getn c n) = true → cachedNow (getn c' n) = false →
  reach c st n.
Proof using ord_perm.
  induction 1 as [c|e st c c1 p c' Hv Hr IH]; [congruence|]. intros H1 H2.
  pose proof (mark_visit_shape sched e c) as Hs.
  pose proof (mark_visit_flags sched e c n) as Hfl.
  rewrite Hv in *; simpl in *.
  destruct (cachedNow (getn c1 n)) eqn:Ec1.
  - destruct (IH eq_refl H2) as (e' & Hin & Hrt).
    assert (Hrt' : rtc (edge c) (me_node e') n).
    { revert Hrt. apply rtc_subrel. intros a b. unfold edge.
      by rewrite (skel_dependents _ _ (Hs a)). }
    apply elem_of_stack_after in Hin as [(_ & Hin & _)|Hin].
    + exists e. split; [apply list_elem_of_here|]. eapply rtc_l; [|done].
      by rewrite (skel_dependents _ _ (Hs _)) in Hin.
    + exists e'. split; [by right|done].
  - exists e. split; [apply list_elem_of_here|].
    destruct Hfl as (_ & _ & _ & _ & Hfl & _). by rewrite (Hfl H1 eq_refl).
Qed.

Lemma stale_split c d n :
  edges_ok c → n ∈ dependents (getn c d) → is_source (getn c d) = false →
  cachedNow (getn c d) = false → stale (getn c d) = true.
Proof.
  intros He Hn Hs Hc. pose proof (e_eff _ He _ _ Hn).
  unfold stale, is_cacheable, is_effect, is_source in *. rewrite Hc. by destruct (self _).
Qed.

Lemma reach_stale c n d :
  edges_ok c → down_ok c → rtc (edge c) d n → is_source (getn c d) = false →
  cachedNow (getn c d) = false → cachedNow (getn c n) = false.
Proof.
  intros He Hd Hrt. induction Hrt as [|d m n Hdm Hrt IH]; [done|]. intros Hs Hc.
  apply IH; [by eapply e_src|]. eapply Hd; [done|]. by eapply stale_split.
Qed.

(** A walk whose roots are already stale changes no current value: the pull
    side's marking only raises force flags. *)
Lemma mark_run_stale_roots sched st c c' n :
  mark_run sched st c c' → edges_ok c → down_ok c → sinks c st →
  (∀ e, e ∈ st → cachedNow (getn c (me_node e)) = false) →
  cachedNow (getn c' n) = cachedNow (getn c n).
Proof using ord_perm.
  intros Hr He Hd Hsk Hst.
  destruct (cachedNow (getn c n)) eqn:E1, (cachedNow (getn c' n)) eqn:E2; try done.
  - destruct (mark_run_cached _ _ _ _ _ Hr E1 E2) as (e & Hin & Hrt).
    rewrite (reach_stale c n (me_node e)) in E1 by auto. done.
  - apply (mark_run_mono _ _ _ _ _ Hr) in E2. congruence.
Qed.

(** A pull-time walk leaves effects alone. *)
Lemma mark_visit_effect e c m :
  is_effect (getn c m) = true → getn (mark_visit false e c).1 m = getn c m.
Proof.
  intros Hm. destruct (decide (m = me_node e)) as [->|Hne].
  - unfold mark_visit, is_effect in *. destruct (disposed _); [done|].
    by destruct (self (getn c (me_node e))).
  - destruct (mark_visit_cases false e c m) as [(_ & _ & ->)|[Hn _]]; [by case_decide|].
    unfold mark_visit, is_cacheable in *. destruct (disposed _); [done|].
    destruct (self (getn c (me_node e))) eqn:Es; [|by destruct Hn|done].
    unfold onInvalidate. simpl. by rewrite Es.
Qed.

Lemma mark_run_effect st c c' m :
  mark_run false st c c' → is_effect (getn c m) = true → getn c' m = getn c m.
Proof.
  remember false as b. induction 1 as [|e st c c1 p c' Hv _ IH]; [done|]. subst. intros Hm.
  pose proof (mark_visit_effect e c m Hm) as Hs. rewrite Hv in Hs. simpl in Hs.
  rewrite <-Hs. apply IH; by rewrite ?Hs.
Qed.

(** A source is never visited as such: its node is kept as it is. *)
Lemma mark_run_source sched st c c' m :
  mark_run sched st c c' → is_source (getn c m) = true → self (getn c' m) = self (getn c m).
Proof.
  intros Hr%mark_run_shape Hm. specialize (Hr m).
  apply (f_equal self) in Hr. unfold skel, is_source in *. simpl in Hr.
  by destruct (self (getn c m)), (self (getn c' m)).
Qed.

(** [markDependents] is a walk from the dependents, all forced. *)
Lemma markDependents_runs sched n c :
  edges_ok c →
  ∃ st c', markDependents ord n sched c = Ok tt c' ∧ mark_run sched st c c' ∧
    ∀ e, e ∈ st ↔ me_force e = true ∧ me_node e ∈ dependents (getn c n).
Proof using ord_perm.
  intros He. unfold markDependents. case_decide as Hd.
  - exists [], c. split_and!; [done|constructor|]. intros e. rewrite Hd. set_solver.
  - set (st := push_marks true _ _).
    assert (Hst : ∀ e, e ∈ st ↔ me_force e = true ∧ me_node e ∈ dependents (getn c n)).
    { intros e. unfold st. rewrite elem_of_push_marks, elem_of_ord. set_solver. }
    destruct (markCone_runs sched st c He) as (c' & Hm & Hr).
    { intros e Hin. apply Hst in Hin as [_ Hin]. by eapply e_src. }
    exists st, c'. done.
Qed.

End walk.
End mark.
