(* ===== verification/KernelPull.v ===== *)
(** * KernelPull: reads of the kernel return the value the graph denotes
    (core.go [getVia], [refresh], [recomputeNow])

    The invariant [Inv] relates every stored value to the values its node
    read; a pull re-establishes it at the node read, touching only the nodes
    below it. *)

From S2P Require Import Prelude Kernel KernelMark.
From Stdlib Require Import Sorting.Sorted.

Section denotation.
Context {V : Type}.

(** Evaluate a compute against an environment, collecting what it reads. *)
Fixpoint eval (env : nat → option V) (p : @comp V) : option (V * gset nat) :=
  match p with
  | Ret v => Some (v, ∅)
  | Read _ d k =>
      w ← env d; '(v, ds) ← eval env (k w); Some (v, {[d]} ∪ ds)
  end.

(** The value a node denotes: a source its value, a computed its compute over
    what its inputs denote. *)
Fixpoint den (c : @ctx V) (fuel : nat) (n : nat) : option V :=
  match fuel with
  | 0 => None
  | S fuel =>
      match self (getn c n) with
      | ASource s => Some (s_value s)
      | AComputed k => fst <$> eval (den c fuel) (compute k)
      | AEffect _ => None
      end
  end.

(** Every read of the tree is tracked and satisfies [Q]. *)
Fixpoint all_reads (Q : nat → Prop) (p : @comp V) : Prop :=
  match p with
  | Ret _ => True
  | Read tracked d k => tracked = true ∧ Q d ∧ ∀ v, all_reads Q (k v)
  end.

Lemma eval_ext env1 env2 p v ds :
  eval env1 p = Some (v, ds) → (∀ d, d ∈ ds → env1 d = env2 d) → eval env2 p = Some (v, ds).
Proof.
  revert v ds. induction p as [u|t d k IH]; intros v ds; simpl; [done|].
  intros (w & Hw & [[v' ds'] [Hv [= <- <-]]]%bind_Some)%bind_Some Hext.
  rewrite <-Hext, Hw by set_solver. simpl.
  rewrite (IH w v' ds' Hv); [done|]. intros. apply Hext. set_solver.
Qed.

Lemma eval_dom env p v ds d : eval env p = Some (v, ds) → d ∈ ds → is_Some (env d).
Proof.
  revert v ds. induction p as [u|t d' k IH]; intros v ds; simpl.
  - intros [= <- <-]. set_solver.
  - intros (w & Hw & [[v' ds'] [Hv [= <- <-]]]%bind_Some)%bind_Some.
    rewrite elem_of_union, elem_of_singleton. intros [->|Hd]; [by eexists|by eapply IH].
Qed.

Lemma eval_reads env p v ds Q :
  all_reads Q p → eval env p = Some (v, ds) → ∀ d, d ∈ ds → Q d.
Proof.
  revert v ds. induction p as [u|t d' k IH]; intros v ds; simpl.
  - intros _ [= <- <-]. set_solver.
  - intros (_ & HQ & Hk) (w & Hw & [[v' ds'] [Hv [= <- <-]]]%bind_Some)%bind_Some d.
    rewrite elem_of_union, elem_of_singleton. intros [->|Hd]; [done|by eapply IH].
Qed.

Lemma all_reads_impl Q Q' p : (∀ d, Q d → Q' d) → all_reads Q p → all_reads Q' p.
Proof. intros HQ. induction p as [|t d k IH]; simpl; naive_solver. Qed.
End denotation.

Section pull.
Context {V : Type} `{EqDecision V} (zero : V).
Implicit Types (c : @ctx V) (nd : @node V) (n d m : nat) (P B : gset nat).

(** ** What pulling never changes *)

Definition comp_of nd : option comp :=
  match self nd with AComputed k => Some (compute k) | _ => None end.
Definition guard_of nd : option (V → V → bool) :=
  match self nd with AComputed k => equals k | _ => None end.
Definition refreshing_of nd : bool :=
  match self nd with AComputed k => refreshing k | _ => false end.

Definition fixed nd :=
  (disposed nd,
   match self nd with
   | ASource s => inl (inl s)
   | AComputed k => inl (inr (compute k, equals k))
   | AEffect e => inr e
   end).

Section fixed.
Context (nd nd' : @node V) (Hf : fixed nd' = fixed nd).
Lemma fixed_disposed : disposed nd' = disposed nd.
Proof using Hf. by injection Hf. Qed.
Lemma fixed_comp : comp_of nd' = comp_of nd.
Proof using Hf. unfold fixed, comp_of in *. destruct (self nd), (self nd'); simplify_eq/=; congruence. Qed.
Lemma fixed_guard : guard_of nd' = guard_of nd.
Proof using Hf. unfold fixed, guard_of in *. destruct (self nd), (self nd'); simplify_eq/=; congruence. Qed.
Lemma fixed_source : is_source nd' = is_source nd.
Proof using Hf. unfold fixed, is_source in *. destruct (self nd), (self nd'); simplify_eq/=; congruence. Qed.
Lemma fixed_cacheable : is_cacheable nd' = is_cacheable nd.
Proof using Hf. unfold fixed, is_cacheable in *. destruct (self nd), (self nd'); simplify_eq/=; congruence. Qed.
Lemma fixed_effect : is_effect nd' = is_effect nd.
Proof using Hf. unfold fixed, is_effect in *. destruct (self nd), (self nd'); simplify_eq/=; congruence. Qed.
Lemma fixed_stored : is_cacheable nd = false → stored nd' = stored nd.
Proof using Hf.
  unfold fixed, is_cacheable, stored in *. destruct (self nd), (self nd'); simplify_eq/=; congruence.
Qed.
End fixed.

(** A node that may be read: a live source or computed. *)
Definition readable nd : bool := negb (disposed nd) && negb (is_effect nd).
(** Its value is current. *)
Definition fresh nd : bool := is_source nd || cachedNow nd.

Lemma fresh_not_stale nd : fresh nd = true → stale nd = false.
Proof. unfold fresh, stale, is_source, is_cacheable, cachedNow. by destruct (self nd) as [|[? ? ? [] ? ?]|]. Qed.

(** ** Edge updates *)

Definition edge_upd (f g : gset nat → gset nat) nd : node :=
  with_dependents f (with_dependencies g nd).

Lemma trackTo_getn n p c m :
  edges_ok c → p ≠ n →
  getn (trackTo n (Some p) c) m =
    edge_upd (if decide (m = n) then ({[p]} ∪.) else id)
             (if decide (m = p) then ({[n]} ∪.) else id) (getn c m).
Proof.
  intros He Hp. unfold trackTo. rewrite decide_False by done.
  destruct (decide (p ∈ dependents (getn c n))) as [Hin|Hin].
  - assert (H1 : {[p]} ∪ dependents (getn c n) = dependents (getn c n)) by set_solver.
    assert (H2 : {[n]} ∪ dependencies (getn c p) = dependencies (getn c p)).
    { apply (e_sym _ He) in Hin. set_solver. }
    unfold edge_upd. repeat case_decide; subst; try done; simpl.
    + unfold with_dependents, with_dependencies; simpl. rewrite H1. by destruct (getn c n).
    + unfold with_dependents, with_dependencies; simpl. unfold id. rewrite H2.
      by destruct (getn c p).
    + by destruct (getn c m).
  - rewrite !getn_updn. unfold edge_upd.
    repeat case_decide; subst; try done; by destruct (getn c m).
Qed.

Lemma foldr_getn f (l : list nat) c m :
  NoDup l →
  getn (foldr (λ d, updn d f) c l) m = if decide (m ∈ l) then f (getn c m) else getn c m.
Proof.
  induction 1 as [|d l Hd _ IH]; cbn [foldr].
  - rewrite decide_False by apply not_elem_of_nil. done.
  - rewrite getn_updn, IH. destruct (decide (m = d)) as [->|Hne].
    + rewrite IH, (decide_False (P := d ∈ l)) by done.
      by rewrite (decide_True (P := d ∈ d :: l)) by apply list_elem_of_here.
    + destruct (decide (m ∈ l)).
      * by rewrite (decide_True (P := m ∈ d :: l)) by (by right).
      * by rewrite (decide_False (P := m ∈ d :: l)) by (rewrite elem_of_cons; tauto).
Qed.

Lemma foldset_getn f s c m :
  getn (foldset (λ d, updn d f) s c) m = if decide (m ∈ s) then f (getn c m) else getn c m.
Proof.
  unfold foldset. rewrite foldr_getn by apply NoDup_elements.
  pose proof (elem_of_elements s m). repeat case_decide; tauto.
Qed.

Lemma foldset_proj {A} (proj : @ctx V → A) f s c :
  (∀ n f c, proj (updn n f c) = proj c) → proj (foldset (λ d, updn d f) s c) = proj c.
Proof. intros Hp. unfold foldset. induction (elements s); simpl; [done|]. by rewrite Hp. Qed.

Lemma detachUpstream_getn n c m :
  edges_ok c →
  getn (detachUpstream n c) m =
    edge_upd (λ s, s ∖ {[n]}) (if decide (m = n) then λ _, ∅ else id) (getn c m).
Proof.
  intros He. unfold detachUpstream, edge_upd.
  assert (Hs : m ∉ dependencies (getn c n) →
    dependents (getn c m) ∖ {[n]} = dependents (getn c m)).
  { rewrite <-(e_sym _ He). set_solver. }
  rewrite getn_updn, !foldset_getn. destruct (decide (m = n)) as [->|Hne].
  - case_decide; [done|]. unfold with_dependents, with_dependencies; simpl. by rewrite Hs.
  - case_decide; [by destruct (getn c m)|].
    unfold with_dependents, with_dependencies; simpl. rewrite Hs by done. by destruct (getn c m).
Qed.

Lemma trackTo_count n p c : count_ok c → count_ok (trackTo n p c).
Proof.
  intros Hc. unfold trackTo. destruct p; [|done]. repeat case_decide; [done..|].
  apply updn_count; [done|]. by apply updn_count.
Qed.

Lemma detachUpstream_count n c : count_ok c → count_ok (detachUpstream n c).
Proof.
  intros Hc. unfold detachUpstream. apply updn_count; [done|]. unfold foldset.
  induction (elements _); simpl; [done|]. by apply updn_count.
Qed.

Lemma trackTo_proj {A} (proj : @ctx V → A) n p c :
  (∀ n f c, proj (updn n f c) = proj c) → proj (trackTo n p c) = proj c.
Proof.
  intros Hp. unfold trackTo. destruct p; [|done]. repeat case_decide; [done..|].
  by rewrite !Hp.
Qed.

Lemma detachUpstream_proj {A} (proj : @ctx V → A) n c :
  (∀ n f c, proj (updn n f c) = proj c) → proj (detachUpstream n c) = proj c.
Proof. intros Hp. unfold detachUpstream. rewrite Hp. by apply foldset_proj. Qed.

(** ** The invariant

    [reads] is the static read relation of the program's computes and [R] any
    well-founded transitive relation that contains it: [R n d] says [d] may be
    below [n]. *)
Section inv.
Context (reads R : nat → nat → Prop).
Hypothesis R_reads : ∀ n d, reads n d → R n d.
Hypothesis R_trans : ∀ a b d, R a b → R b d → R a d.
Hypothesis R_lt : ∀ n d, R n d → d < n.

Record Prog c : Prop := {
  p_comp : ∀ n p, comp_of (getn c n) = Some p → disposed (getn c n) = false →
    all_reads (λ d, reads n d ∧ readable (getn c d) = true) p;
  p_guard : ∀ n eq u v, guard_of (getn c n) = Some eq → eq u v = true → u = v;
}.

Definition env c : nat → option V := λ d, stored (getn c d).

(** [P] holds the computeds being recomputed; [B] the nodes whose value
    changed but whose dependents were not told yet. *)
Record Inv P B c : Prop := {
  i_prog : Prog c;
  i_edges : edges_ok c;
  i_flags : flags_ok c;
  i_down : down_ok c;
  i_count : count_ok c;
  i_deps : ∀ n d, d ∈ dependencies (getn c n) →
    readable (getn c d) = true ∧ (is_cacheable (getn c n) = true → reads n d);
  i_val : ∀ n, cachedNow (getn c n) = true → stored (getn c n) ≠ None;
  i_P : ∀ n, n ∈ P → cachedNow (getn c n) = false;
  i_cons : ∀ n p v, n ∉ P → comp_of (getn c n) = Some p → disposed (getn c n) = false →
    stored (getn c n) = Some v → forceRecompute (getn c n) = false →
    dependencies (getn c n) ## B →
    eval (env c) p = Some (v, dependencies (getn c n));
}.

Lemma Inv_weaken P B n c : Inv P B c → cachedNow (getn c n) = false → Inv ({[n]} ∪ P) B c.
Proof.
  intros [] Hn. split; try done.
  - intros m. rewrite elem_of_union, elem_of_singleton. naive_solver.
  - intros m p v Hm. apply i_cons0. set_solver.
Qed.

(** *** Frames of a pull

    [Q] bounds the nodes whose value may move, [par] is the parent whose reads
    are being recorded. *)
Record pf (par : option nat) (Q : nat → Prop) c c' : Prop := {
  pf_fixed : ∀ m, fixed (getn c' m) = fixed (getn c m);
  pf_refreshing : ∀ m, refreshing_of (getn c' m) = refreshing_of (getn c m);
  pf_cached : ∀ m, cachedNow (getn c m) = true →
    cachedNow (getn c' m) = true ∧ stored (getn c' m) = stored (getn c m);
  pf_out : ∀ m, ¬ Q m →
    stored (getn c' m) = stored (getn c m) ∧ cachedNow (getn c' m) = cachedNow (getn c m);
  pf_deps : ∀ m, ¬ Q m ∨ is_cacheable (getn c m) = false → par ≠ Some m →
    dependencies (getn c' m) = dependencies (getn c m);
  pf_statics : statics c' = statics c;
  pf_pend : pend c' = pend c;
}.

Lemma pf_refl par Q c : pf par Q c c.
Proof. by split. Qed.

Lemma pf_trans par Q c1 c2 c3 : pf par Q c1 c2 → pf par Q c2 c3 → pf par Q c1 c3.
Proof.
  intros [A1 A2 A3 A4 A5 A6 A7] [B1 B2 B3 B4 B5 B6 B7]. split; try congruence.
  - intros m Hm. destruct (A3 m Hm) as [H1 H2]. destruct (B3 m H1). split; congruence.
  - intros m Hm. destruct (A4 m Hm), (B4 m Hm). split; congruence.
  - intros m Hm Hp. rewrite B5; [by apply A5| |done].
    destruct Hm as [?|Hc]; [by left|right]. by rewrite (fixed_cacheable _ _ (A1 m)).
Qed.

Lemma pf_mono par par' Q Q' c c' :
  (∀ m, Q m → Q' m) → (par = None ∨ par = par') → pf par Q c c' → pf par' Q' c c'.
Proof.
  intros HQ Hp [A1 A2 A3 A4 A5 A6 A7]. split; try done.
  - intros m Hm. apply A4. naive_solver.
  - intros m Hm Hpm. apply A5; naive_solver.
Qed.

Lemma Prog_pf par Q c c' : pf par Q c c' → Prog c → Prog c'.
Proof.
  intros Hpf [H1 H2]. split; intros n.
  - intros p. rewrite (fixed_comp _ _ (pf_fixed _ _ _ _ Hpf n)),
      (fixed_disposed _ _ (pf_fixed _ _ _ _ Hpf n)). intros Hc Hd.
    eapply all_reads_impl; [|by apply H1]. intros d. unfold readable; simpl.
    by rewrite (fixed_disposed _ _ (pf_fixed _ _ _ _ Hpf d)),
      (fixed_effect _ _ (pf_fixed _ _ _ _ Hpf d)).
  - intros eq u v. rewrite (fixed_guard _ _ (pf_fixed _ _ _ _ Hpf n)). apply H2.
Qed.

Lemma pf_readable par Q c c' n : pf par Q c c' → readable (getn c' n) = readable (getn c n).
Proof.
  intros Hpf. unfold readable.
  by rewrite (fixed_disposed _ _ (pf_fixed _ _ _ _ Hpf n)),
    (fixed_effect _ _ (pf_fixed _ _ _ _ Hpf n)).
Qed.

Lemma pf_fresh par Q c c' n : pf par Q c c' → fresh (getn c n) = true →
  fresh (getn c' n) = true ∧ stored (getn c' n) = stored (getn c n).
Proof.
  intros Hpf. unfold fresh. rewrite (fixed_source _ _ (pf_fixed _ _ _ _ Hpf n)).
  rewrite !orb_true_iff. intros [Hs|Hc].
  - split; [by left|]. apply fixed_stored; [by apply (pf_fixed _ _ _ _ Hpf)|].
    unfold is_source, is_cacheable in *. by destruct (self _).
  - destruct (pf_cached _ _ _ _ Hpf n Hc). tauto.
Qed.

(** An update of edges only. *)
Definition edges_only c c' : Prop :=
  statics c' = statics c ∧ pend c' = pend c ∧ ∀ m, ∃ f g, getn c' m = edge_upd f g (getn c m).

Lemma edges_only_pf par Q c c' :
  edges_only c c' →
  (∀ m, ¬ Q m ∨ is_cacheable (getn c m) = false → par ≠ Some m →
    dependencies (getn c' m) = dependencies (getn c m)) →
  pf par Q c c'.
Proof.
  intros (Hs & Hp & Hm) Hd. split; try done; intros m; destruct (Hm m) as (f & g & ->); done.
Qed.

(** Rebuild the invariant after an update of the edges of one recomputing node
    or effect. *)
Lemma edges_only_Inv P B c c' p :
  Inv P B c → edges_only c c' → edges_ok c' → count_ok c' →
  cachedNow (getn c p) = false → (is_cacheable (getn c p) = true → p ∈ P) →
  (∀ m, m ≠ p → dependencies (getn c' m) = dependencies (getn c m)) →
  (∀ d, d ∈ dependencies (getn c' p) → d ∈ dependencies (getn c p) ∨
    readable (getn c d) = true ∧ (is_cacheable (getn c p) = true → reads p d)) →
  Inv P B c'.
Proof.
  intros HI Ho He' Hct Hp HpP Hoth Hdp.
  pose proof (edges_only_pf (Some p) (λ _, False) c c' Ho) as Hpf.
  assert (Hpf' : pf (Some p) (λ _, False) c c').
  { apply Hpf. intros m _ Hm. apply Hoth. naive_solver. }
  clear Hpf. destruct Ho as (Hs & Hpe & Hm).
  assert (Hfl : ∀ m, cachedNow (getn c' m) = cachedNow (getn c m) ∧
    stored (getn c' m) = stored (getn c m) ∧ dirty (getn c' m) = dirty (getn c m) ∧
    forceRecompute (getn c' m) = forceRecompute (getn c m) ∧
    disposed (getn c' m) = disposed (getn c m) ∧ comp_of (getn c' m) = comp_of (getn c m) ∧
    is_cacheable (getn c' m) = is_cacheable (getn c m) ∧
    readable (getn c' m) = readable (getn c m) ∧ stale (getn c' m) = stale (getn c m)).
  { intros m. by destruct (Hm m) as (f & g & ->). }
  assert (Henv : ∀ m, env c' m = env c m) by (intros m; by apply Hfl).
  destruct HI. split; try done.
  - by eapply Prog_pf.
  - destruct i_flags0. split; intros n; destruct (Hfl n) as (-> & _ & E1 & E2 & E3 & _);
      rewrite ?E1, ?E2, ?E3; auto.
  - intros d n Hn Hsd. apply (e_sym _ He') in Hn.
    destruct (Hfl n) as (-> & _). destruct (Hfl d) as (_ & _ & _ & _ & _ & _ & _ & _ & Hst).
    destruct (decide (n = p)) as [->|Hne]; [done|]. rewrite Hoth in Hn by done.
    apply (i_down0 d n); [by apply e_sym|congruence].
  - intros n d. destruct (Hfl n) as (_ & _ & _ & _ & _ & _ & -> & _).
    destruct (Hfl d) as (_ & _ & _ & _ & _ & _ & _ & -> & _).
    destruct (decide (n = p)) as [->|]; [|rewrite Hoth by done; by apply i_deps0].
    intros [Hd|Hd]%Hdp; [by apply i_deps0|done].
  - intros n. destruct (Hfl n) as (-> & -> & _). apply i_val0.
  - intros n. destruct (Hfl n) as (-> & _). apply i_P0.
  - intros n q v HnP. destruct (Hfl n) as (_ & -> & _ & -> & -> & -> & _).
    intros Hq Hdi Hv Hf. rewrite Hoth.
    + intros Hdis. eapply eval_ext; [by eapply i_cons0|]. intros; by rewrite Henv.
    + intros ->. apply HnP, HpP. unfold comp_of, is_cacheable in *. by destruct (self _).
Qed.

(** The edge [Get(c, d)] registers for the recomputing node or effect [p]. *)
Lemma trackTo_ok P B c d p :
  Inv P B c → p ≠ d → is_source (getn c p) = false → cachedNow (getn c p) = false →
  (is_cacheable (getn c p) = true → p ∈ P ∧ reads p d) → readable (getn c d) = true →
  let c' := trackTo d (Some p) c in
  Inv P B c' ∧ pf (Some p) (λ _, False) c c' ∧
  dependencies (getn c' p) = {[d]} ∪ dependencies (getn c p) ∧
  (∀ m, self (getn c' m) = self (getn c m)).
Proof.
  intros HI Hne Hsrc Hp Hcomp Hrd c'.
  assert (Hg : ∀ m, getn c' m = edge_upd (if decide (m = d) then ({[p]} ∪.) else id)
             (if decide (m = p) then ({[d]} ∪.) else id) (getn c m)).
  { intros m. apply trackTo_getn; [by apply HI|done]. }
  assert (Ho : edges_only c c').
  { split_and!; [by apply (trackTo_proj statics)|by apply (trackTo_proj pend)|].
    intros m. rewrite Hg. eauto. }
  assert (Hdp : dependencies (getn c' p) = {[d]} ∪ dependencies (getn c p)).
  { rewrite Hg. simpl. by rewrite (decide_True (P := p = p)). }
  assert (Hoth : ∀ m, m ≠ p → dependencies (getn c' m) = dependencies (getn c m)).
  { intros m Hm. rewrite Hg. simpl. by rewrite (decide_False (P := m = p)). }
  split_and!; [|apply edges_only_pf; naive_solver|done|intros m; by rewrite Hg].
  apply (edges_only_Inv P B c c' p); try done.
  - destruct (i_edges _ _ _ HI) as [E1 E2 E3]. split; intros a b.
    + rewrite !Hg. simpl. unfold id. destruct (decide (b = d)), (decide (a = p));
        rewrite ?elem_of_union, ?elem_of_singleton, ?E1; tauto.
    + rewrite !Hg. simpl. change (is_source (edge_upd ?f ?g ?x)) with (is_source x). unfold id.
      destruct (decide (b = d)); rewrite ?elem_of_union, ?elem_of_singleton; [|apply E2].
      intros [->|Hin]; [done|by eapply E2].
    + rewrite !Hg. simpl. change (is_effect (edge_upd ?f ?g ?x)) with (is_effect x). unfold id.
      destruct (decide (b = d)) as [->|]; [intros _|apply E3].
      unfold readable in Hrd. by destruct (is_effect (getn c d)), (disposed (getn c d)).
  - apply trackTo_count, HI.
  - intros Hc. by apply Hcomp.
  - rewrite Hdp. intros x. rewrite elem_of_union, elem_of_singleton. naive_solver.
Qed.

(** Detaching the node about to recompute. *)
Lemma detachUpstream_ok P B c n :
  Inv P B c → cachedNow (getn c n) = false → (is_cacheable (getn c n) = true → n ∈ P) →
  let c' := detachUpstream n c in
  Inv P B c' ∧ pf (Some n) (λ _, False) c c' ∧ dependencies (getn c' n) = ∅ ∧
  (∀ m, self (getn c' m) = self (getn c m) ∧ dependents (getn c' m) ⊆ dependents (getn c m)).
Proof.
  intros HI Hn HP c'.
  assert (Hg : ∀ m, getn c' m =
    edge_upd (λ s, s ∖ {[n]}) (if decide (m = n) then λ _, ∅ else id) (getn c m)).
  { intros m. apply detachUpstream_getn, HI. }
  assert (Ho : edges_only c c').
  { split_and!; [by apply (detachUpstream_proj statics)|by apply (detachUpstream_proj pend)|].
    intros m. rewrite Hg. eauto. }
  assert (Hdp : dependencies (getn c' n) = ∅).
  { rewrite Hg. simpl. by rewrite decide_True. }
  assert (Hoth : ∀ m, m ≠ n → dependencies (getn c' m) = dependencies (getn c m)).
  { intros m Hm. rewrite Hg. simpl. by rewrite decide_False. }
  split_and!; [|apply edges_only_pf; naive_solver|done|].
  - apply (edges_only_Inv P B c c' n); try done.
    + destruct (i_edges _ _ _ HI) as [E1 E2 E3]. split; intros a b.
      * rewrite !Hg. simpl. unfold id.
        rewrite elem_of_difference, elem_of_singleton, E1. destruct (decide (a = n)); set_solver.
      * rewrite !Hg. simpl. intros [Hin _]%elem_of_difference. by eapply E2.
      * rewrite !Hg. simpl. intros [Hin _]%elem_of_difference. by eapply E3.
    + apply detachUpstream_count, HI.
    + rewrite Hdp. set_solver.
  - intros m. rewrite Hg. simpl. split; [done|set_solver].
Qed.

(** *** Notifying the dependents of a changed node *)
Section ordered.
Context (ord : @ctx V → gset nat → list nat).
Hypothesis ord_perm : ∀ c s, ord c s ≡ₚ elements s.

Lemma skel_comp nd nd' : skel nd' = skel nd → comp_of nd' = comp_of nd.
Proof.
  intros H%(f_equal self). unfold comp_of, skel in *; simpl in *.
  destruct (self nd), (self nd'); simplify_eq/=; congruence.
Qed.
Lemma skel_guard nd nd' : skel nd' = skel nd → guard_of nd' = guard_of nd.
Proof.
  intros H%(f_equal self). unfold guard_of, skel in *; simpl in *.
  destruct (self nd), (self nd'); simplify_eq/=; congruence.
Qed.
Lemma skel_refreshing nd nd' : skel nd' = skel nd → refreshing_of nd' = refreshing_of nd.
Proof.
  intros H%(f_equal self). unfold refreshing_of, skel in *; simpl in *.
  destruct (self nd), (self nd'); simplify_eq/=; congruence.
Qed.
Lemma skel_readable nd nd' : skel nd' = skel nd → readable nd' = readable nd.
Proof.
  intros H. unfold readable. by rewrite (skel_disposed _ _ H), (skel_effect _ _ H).
Qed.
Lemma skel_fixed nd nd' :
  skel nd' = skel nd → (is_effect nd = true → nd' = nd) → fixed nd' = fixed nd.
Proof.
  intros H He. destruct (is_effect nd) eqn:E; [by rewrite He|].
  unfold fixed. rewrite (skel_disposed _ _ H). f_equal.
  apply (f_equal self) in H. unfold skel, is_effect in *; simpl in *.
  destruct (self nd), (self nd'); simplify_eq/=; congruence.
Qed.

Lemma Prog_shape c c' : same_shape c c' → Prog c → Prog c'.
Proof.
  intros Hs [H1 H2]. split; intros n.
  - intros p. rewrite (skel_comp _ _ (Hs n)), (skel_disposed _ _ (Hs n)). intros Hc Hd.
    eapply all_reads_impl; [|by apply H1]. intros d. simpl. by rewrite (skel_readable _ _ (Hs d)).
  - intros eq u v. rewrite (skel_guard _ _ (Hs n)). apply H2.
Qed.

Lemma mark_Inv sched P B n st c c' :
  Inv P ({[n]} ∪ B) c → mark_run ord sched st c c' →
  (∀ m, m ∈ dependents (getn c n) → MarkEntry m true ∈ st) →
  Inv P B c'.
Proof.
  intros HI Hr Hst. pose proof (mark_run_shape _ _ _ _ _ Hr) as Hs.
  destruct HI. split.
  - by eapply Prog_shape.
  - by eapply edges_ok_shape.
  - by eapply mark_run_flags_ok.
  - eapply mark_run_down; [done..|]. intros d m Hm Hd. left. by eapply i_down0.
  - by eapply mark_run_count.
  - intros m d. rewrite (skel_dependencies _ _ (Hs m)), (skel_readable _ _ (Hs d)),
      (skel_cacheable _ _ (Hs m)). apply i_deps0.
  - intros m Hm. rewrite (skel_stored _ _ (Hs m)). apply i_val0.
    by apply (mark_run_mono _ _ _ _ _ _ Hr).
  - intros m Hm. apply not_true_is_false. intros Hc.
    apply (mark_run_mono _ _ _ _ _ _ Hr) in Hc. by rewrite i_P0 in Hc.
  - intros m p v HmP. rewrite (skel_comp _ _ (Hs m)), (skel_disposed _ _ (Hs m)),
      (skel_stored _ _ (Hs m)), (skel_dependencies _ _ (Hs m)). intros Hc Hd Hv Hf Hdis.
    assert (Hn : n ∉ dependencies (getn c m)).
    { intros Hin. apply (e_sym _ i_edges0), Hst in Hin.
      apply (mark_run_root _ ord_perm _ _ _ _ _ Hr) in Hin as [_ Hin]; [|done].
      simpl in Hin. enough (forceRecompute (getn c' m) = true) by congruence.
      apply Hin; [|done..]. unfold comp_of, is_cacheable in *. by destruct (self _). }
    eapply eval_ext.
    + apply (i_cons0 m); try done.
      * apply not_true_is_false. intros Hfo. apply (mark_run_mono _ _ _ _ _ _ Hr) in Hfo. congruence.
      * set_solver.
    + intros d _. unfold env. by rewrite (skel_stored _ _ (Hs d)).
Qed.

Lemma notify_ok sched P B n c :
  Inv P ({[n]} ∪ B) c →
  ∃ st c', markDependents ord n sched c = Ok tt c' ∧ Inv P B c' ∧ mark_run ord sched st c c' ∧
    (∀ e, e ∈ st ↔ me_force e = true ∧ me_node e ∈ dependents (getn c n)).
Proof.
  intros HI. destruct (markDependents_runs ord ord_perm sched n c) as (st & c' & Hm & Hr & Hst);
    [by apply HI|].
  exists st, c'. split_and!; [done| |done..]. eapply mark_Inv; [done..|].
  intros m Hin. by apply Hst.
Qed.

(** A pull-time notification only raises force flags. *)
Lemma notify_pf P B n st c c' :
  Inv P B c → mark_run ord false st c c' →
  (∀ e, e ∈ st → me_node e ∈ dependents (getn c n)) →
  (∀ m, m ∈ dependents (getn c n) → cachedNow (getn c m) = false) →
  pf None (λ _, False) c c'.
Proof.
  intros HI Hr Hst Hun. pose proof (mark_run_shape _ _ _ _ _ Hr) as Hs.
  assert (Hc : ∀ m, cachedNow (getn c' m) = cachedNow (getn c m)).
  { intros m. eapply (mark_run_stale_roots _ ord_perm); [done|apply HI..| |].
    - intros e He. eapply e_src; [apply HI|]. by apply Hst.
    - intros e He. by apply Hun, Hst. }
  split.
  - intros m. apply skel_fixed; [done|]. intros He. by eapply mark_run_effect.
  - intros m. apply (skel_refreshing _ _ (Hs m)).
  - intros m. by rewrite Hc, (skel_stored _ _ (Hs m)).
  - intros m _. by rewrite Hc, (skel_stored _ _ (Hs m)).
  - intros m _ _. apply (skel_dependencies _ _ (Hs m)).
  - by eapply mark_run_statics.
  - by eapply mark_run_pend.
Qed.

(** *** A node becomes current *)

Definition settle (w : V) nd : node :=
  with_stale (λ _, false) (λ _, false)
    (with_self (on_computed (λ k, with_cached true (with_value (Some w) k))) nd).

Lemma settle_pf n w c c' :
  (∀ m, getn c' m = if decide (m = n) then settle w (getn c m) else getn c m) →
  statics c' = statics c → pend c' = pend c → cachedNow (getn c n) = false →
  pf None (λ m, m = n) c c'.
Proof.
  intros Hg Hs Hp Hn. split; try done; intros m; rewrite Hg; case_decide; subst; try done.
  - unfold fixed, settle; simpl. by destruct (self _).
  - unfold refreshing_of, settle; simpl. by destruct (self _).
  - by rewrite Hn.
Qed.

Lemma settle_Inv P B n w p c c' :
  Inv ({[n]} ∪ P) B c → n ∉ P →
  (∀ m, getn c' m = if decide (m = n) then settle w (getn c m) else getn c m) →
  statics c' = statics c → pend c' = pend c → count_ok c' →
  comp_of (getn c n) = Some p → disposed (getn c n) = false →
  (∀ d, d ∈ dependencies (getn c n) → fresh (getn c d) = true) →
  (dependencies (getn c n) ## B → eval (env c) p = Some (w, dependencies (getn c n))) →
  Inv P ({[n]} ∪ B) c' ∧
  (stored (getn c n) = None ∨ stored (getn c n) = Some w → Inv P B c').
Proof.
  intros HI HnP Hg Hs Hp Hct Hcomp Hdi Hfr Hev.
  assert (Hst : cachedNow (getn c n) = false) by (apply (i_P _ _ _ HI); set_solver).
  pose proof (settle_pf n w c c' Hg Hs Hp Hst) as Hpf.
  assert (Hcn : is_cacheable (getn c n) = true).
  { unfold comp_of, is_cacheable in *. by destruct (self _). }
  assert (Hself : n ∉ dependencies (getn c n)).
  { intros Hin. destruct (i_deps _ _ _ HI n n Hin) as [_ Hr].
    apply Hr, R_reads, R_lt in Hcn. lia. }
  assert (Henv : ∀ d, d ≠ n → env c' d = env c d).
  { intros d Hd. unfold env. rewrite Hg. by rewrite decide_False. }
  assert (Hn' : getn c' n = settle w (getn c n)) by (rewrite Hg; by rewrite decide_True).
  assert (Hedge : ∀ m, dependents (getn c' m) = dependents (getn c m) ∧
    dependencies (getn c' m) = dependencies (getn c m)) by (intros m; rewrite Hg; by case_decide).
  assert (Hw : stored (getn c' n) = Some w).
  { rewrite Hn'. unfold stored, settle, comp_of in *; simpl. by destruct (self (getn c n)). }
  assert (Hgen : ∀ B', (B ⊆ B') →
    (∀ m p' v, m ∉ {[n]} ∪ P → comp_of (getn c m) = Some p' → disposed (getn c m) = false →
      stored (getn c m) = Some v → forceRecompute (getn c m) = false →
      dependencies (getn c m) ## B' → eval (env c) p' = Some (v, dependencies (getn c m)) →
      n ∈ dependencies (getn c m) → stored (getn c n) = Some w) →
    Inv P B' c').
  { intros B' HB Hoth. destruct HI. split.
    - by eapply Prog_pf.
    - destruct i_edges0 as [E1 E2 E3]. split; intros a b; destruct (Hedge a) as [_ Ea]; destruct (Hedge b) as [-> _]; rewrite ?Ea.
      + apply E1.
      + rewrite (fixed_source _ _ (pf_fixed _ _ _ _ Hpf a)). apply E2.
      + rewrite (fixed_effect _ _ (pf_fixed _ _ _ _ Hpf b)). apply E3.
    - destruct i_flags0. split; intros m; rewrite Hg; case_decide; subst; auto; simpl; try done.
      by rewrite Hdi.
    - intros d m. destruct (Hedge d) as [-> _]. intros Hm Hsd.
      assert (Hsd0 : stale (getn c d) = true).
      { rewrite Hg in Hsd. case_decide; [|done]. subst.
        exfalso. revert Hsd. unfold stale, settle, is_cacheable, cachedNow; simpl.
        by destruct (self _). }
      rewrite Hg. case_decide; subst; [|by eapply i_down0].
      apply (e_sym _ i_edges0), Hfr, fresh_not_stale in Hm. congruence.
    - done.
    - intros m d. destruct (Hedge m) as [_ ->]. rewrite (pf_readable _ _ _ _ d Hpf).
      rewrite (fixed_cacheable _ _ (pf_fixed _ _ _ _ Hpf m)). apply i_deps0.
    - intros m. destruct (decide (m = n)) as [->|Hmn]; [by rewrite Hw|].
      rewrite Hg, decide_False by done. apply i_val0.
    - intros m Hm. rewrite Hg, decide_False by set_solver. apply i_P0. set_solver.
    - intros m p' v HmP. destruct (Hedge m) as [_ ->].
      rewrite (fixed_comp _ _ (pf_fixed _ _ _ _ Hpf m)), (fixed_disposed _ _ (pf_fixed _ _ _ _ Hpf m)).
      intros Hp' Hd'. destruct (decide (m = n)) as [->|Hmn].
      + rewrite Hw. intros [= <-] _ Hdis. assert (p' = p) as -> by congruence.
        eapply eval_ext; [apply Hev; set_solver|].
        intros d Hd. symmetry. apply Henv. by intros ->.
      + rewrite Hg, decide_False by done. intros Hv Hf Hdis.
        assert (He : eval (env c) p' = Some (v, dependencies (getn c m))).
        { apply (i_cons0 m); try done; set_solver. }
        eapply eval_ext; [done|]. intros d Hd. destruct (decide (d = n)) as [->|Hdn].
        * unfold env. rewrite Hw. apply (Hoth m p' v); try done. set_solver.
        * symmetry. by apply Henv. }
  split.
  - apply Hgen; [set_solver|]. intros. set_solver.
  - intros Hold. apply Hgen; [done|]. intros m p' v _ _ _ _ _ _ He Hin.
    destruct Hold as [Hold|Hold]; [|done].
    destruct (eval_dom _ _ _ _ _ He Hin) as [x Hx]. unfold env in Hx. congruence.
Qed.

(** *** Reads *)

Definition below n m : Prop := m = n ∨ R n m.

(** What a recursive [refresh] guarantees of node [n]. *)
Definition refresh_ok (rf : nat → M bool) n : Prop := ∀ c P B,
  Inv P B c → readable (getn c n) = true → (∀ m, m ∈ P → n < m) →
  (∀ m, m ≤ n → refreshing_of (getn c m) = false) →
  ∃ b c', rf n c = Ok b c' ∧ Inv P B c' ∧ pf None (below n) c c' ∧
    fresh (getn c' n) = true ∧
    (b = false → ∀ v, stored (getn c n) = Some v → stored (getn c' n) = Some v).

Lemma stored_fresh P B c n :
  Inv P B c → fresh (getn c n) = true → is_Some (stored (getn c n)).
Proof.
  intros HI. unfold fresh. rewrite orb_true_iff. intros [Hs|Hc].
  - unfold is_source, stored in *. by destruct (self _).
  - pose proof (i_val _ _ _ HI n Hc). by destruct (stored (getn c n)).
Qed.

(** The recomputing node or running effect a read is attributed to. *)
Definition parent_ok P c (par : option nat) d : Prop :=
  match par with
  | None => True
  | Some p => p ≠ d ∧ is_source (getn c p) = false ∧ cachedNow (getn c p) = false ∧
      (is_cacheable (getn c p) = true → p ∈ P ∧ reads p d)
  end.

Lemma getVia_ok rf par d c P B :
  refresh_ok rf d → Inv P B c → parent_ok P c par d → readable (getn c d) = true →
  (∀ m, m ∈ P → d < m) → (∀ m, m ≤ d → refreshing_of (getn c m) = false) →
  ∃ v c', getVia zero rf d par c = Ok v c' ∧ stored (getn c' d) = Some v ∧
    fresh (getn c' d) = true ∧ Inv P B c' ∧ pf par (below d) c c' ∧
    (∀ p, par = Some p → dependencies (getn c' p) = {[d]} ∪ dependencies (getn c p)).
Proof.
  intros Hrf HI Hpar Hrd HP Href.
  assert (Htr : ∃ c1, trackTo d par c = c1 ∧ Inv P B c1 ∧ pf par (λ _, False) c c1 ∧
    (∀ p, par = Some p → dependencies (getn c1 p) = {[d]} ∪ dependencies (getn c p)) ∧
    (∀ m, self (getn c1 m) = self (getn c m))).
  { destruct par as [p|]; simpl in Hpar.
    - destruct Hpar as (H1 & H2 & H3 & H4).
      destruct (trackTo_ok P B c d p HI H1 H2 H3 H4 Hrd) as (A1 & A2 & A3 & A4).
      eexists. split_and!; [done|done|done|naive_solver|done].
    - exists c. split_and!; [done|done|apply pf_refl|done|done]. }
  destruct Htr as (c1 & Htr & HI1 & Hpf1 & Hdp1 & Hself1).
  unfold readable in Hrd. apply andb_true_iff in Hrd as [Hdis%negb_true_iff Heff%negb_true_iff].
  assert (Hrd1 : readable (getn c1 d) = true).
  { rewrite (pf_readable _ _ _ _ d Hpf1). unfold readable. by rewrite Hdis, Heff. }
  assert (Hpf1' : pf par (below d) c c1) by (eapply pf_mono; [|by right|done]; done).
  unfold getVia. rewrite Htr. unfold is_effect in Heff.
  destruct (self (getn c d)) as [s|k|] eqn:Es; [| |done]; rewrite Hdis.
  - exists (s_value s), c1. split_and!; [done| | |done..].
    + unfold stored. by rewrite Hself1, Es.
    + unfold fresh, is_source. by rewrite Hself1, Es.
  - destruct (cachedNow (getn c1 d)) eqn:Ec.
    + assert (Hfr : fresh (getn c1 d) = true) by (unfold fresh; by rewrite Ec, orb_true_r).
      destruct (stored_fresh _ _ _ _ HI1 Hfr) as [v Hv].
      exists v, c1. split_and!; [by rewrite Hv|done..].
    + destruct (Hrf c1 P B HI1 Hrd1 HP) as (b & c2 & Hr & HI2 & Hpf2 & Hfr & _).
      { intros m Hm. rewrite (pf_refreshing _ _ _ _ Hpf1). by apply Href. }
      destruct (stored_fresh _ _ _ _ HI2 Hfr) as [v Hv].
      exists v, c2. split_and!; try done.
      * unfold mbind, M_bind. rewrite Hr. unfold gets. by rewrite Hv.
      * eapply pf_trans; [exact Hpf1'|]. eapply pf_mono; [|by left|done]. done.
      * intros p ->. rewrite <-Hdp1 by done. simpl in Hpar.
        destruct Hpar as (H1 & H2 & H3 & H4). apply (pf_deps _ _ _ _ Hpf2); [|done].
        rewrite (fixed_cacheable _ _ (pf_fixed _ _ _ _ Hpf1 p)).
        destruct (is_cacheable (getn c p)); [left|by right].
        destruct (H4 eq_refl) as [_ Hlt%R_reads%R_lt]. intros [->|Hbl%R_lt]; [done|lia].
Qed.

(** A recompute evaluates its closure over current values, recording what it
    reads. *)
Lemma run_comp_ok rf cv n q c P B :
  cv_live cv = true → cv_node cv = n →
  (∀ d, reads n d → refresh_ok rf d) →
  Inv P B c → n ∈ P → is_cacheable (getn c n) = true → (∀ m, m ∈ P → n ≤ m) →
  (∀ m, m < n → refreshing_of (getn c m) = false) →
  all_reads (λ d, reads n d ∧ readable (getn c d) = true) q →
  ∃ v ds c', run_comp zero rf cv q c = Ok v c' ∧ Inv P B c' ∧ pf (Some n) (R n) c c' ∧
    eval (env c') q = Some (v, ds) ∧
    dependencies (getn c' n) = dependencies (getn c n) ∪ ds ∧
    (∀ d, d ∈ ds → fresh (getn c' d) = true).
Proof.
  intros Hlive <- Hrf. set (n := cv_node cv) in *. revert c.
  induction q as [v|t d k IH]; intros c HI HnP Hcn HP Href Hq; simpl in *.
  - exists v, ∅, c. split_and!; [done|done|apply pf_refl|done|set_solver|set_solver].
  - destruct Hq as (-> & [Hrd Hread] & Hk).
    pose proof (R_lt _ _ (R_reads _ _ Hrd)) as Hdn.
    destruct (getVia_ok rf (Some n) d c P B) as (w & c1 & Hg & Hw & Hfr & HI1 & Hpf1 & Hdp1); auto.
    { simpl. split_and!; [lia| |by apply (i_P _ _ _ HI)|done].
      unfold is_source, is_cacheable in *. by destruct (self _). }
    { intros m Hm. specialize (HP m Hm). lia. }
    { intros m Hm. apply Href. lia. }
    assert (Hpf1' : pf (Some n) (R n) c c1).
    { eapply pf_mono; [|by right|done]. intros m [->|Hm]; [by apply R_reads|].
      eapply R_trans; [by apply R_reads|done]. }
    destruct (IH w c1) as (v & ds & c2 & Hrun & HI2 & Hpf2 & Hev & Hdp2 & Hfr2); auto.
    { by rewrite (fixed_cacheable _ _ (pf_fixed _ _ _ _ Hpf1 n)). }
    { intros m Hm. rewrite (pf_refreshing _ _ _ _ Hpf1). by apply Href. }
    { eapply all_reads_impl; [|by apply Hk]. intros x. simpl.
      by rewrite (pf_readable _ _ _ _ x Hpf1). }
    destruct (pf_fresh _ _ _ _ _ Hpf2 Hfr) as [Hfr' Hst'].
    exists v, ({[d]} ∪ ds), c2. split_and!; [|done|by eapply pf_trans| | |].
    + unfold mbind, M_bind. unfold Get_via, trackNode. rewrite Hlive. unfold mbind, M_bind, mret, M_ret.
      fold n. by rewrite Hg.
    + change (env c2 d) with (stored (getn c2 d)). rewrite Hst', Hw. simpl. by rewrite Hev.
    + rewrite Hdp2, (Hdp1 n) by done. set_solver.
    + intros x. rewrite elem_of_union, elem_of_singleton. intros [->|]; auto.
Qed.

Lemma Inv_computeGen P B f c : Inv P B c → Inv P B (with_computeGen f c).
Proof.
  intros [[] [] [] ? ? ? ? ? ?]. split; [by split|by split|by split|done..].
Qed.

Lemma pf_computeGen par Q f c : pf par Q c (with_computeGen f c).
Proof. by split. Qed.

Lemma pf_close Q n c c' :
  pf (Some n) Q c c' → Q n → is_cacheable (getn c n) = true → pf None Q c c'.
Proof.
  intros [A1 A2 A3 A4 A5 A6 A7] Hq Hc. split; try done.
  intros m Hm _. apply A5; [done|]. intros [= <-]. destruct Hm; [done|congruence].
Qed.

Lemma markClean_getn n c m :
  getn (markClean n c) m = if decide (m = n) then
    with_stale (λ _, false) (λ _, false) (with_self (on_computed (with_cached true)) (getn c m))
  else getn c m.
Proof.
  unfold markClean. change (getn (with_cachedCount ?f ?x) m) with (getn x m).
  rewrite getn_updn. by case_decide; subst.
Qed.

Lemma markClean_count n c :
  is_cacheable (getn c n) = true → count_ok c → count_ok (markClean n c).
Proof.
  unfold count_ok, markClean. intros Hk Hc.
  pose proof (count_updn n (λ nd, with_stale (λ _, false) (λ _, false)
                     (with_self (on_computed (with_cached true)) nd)) c) as Hu.
  change (count_cached (with_cachedCount ?f ?x)) with (count_cached x). simpl in *.
  unfold cachedNow, with_self, is_cacheable in *; simpl in *.
  destruct (self (getn c n)); [done| |done]. simpl in *.
  destruct (cached k); simpl in *; lia.
Qed.

Lemma updn_value_count n w c :
  count_ok c → count_ok (updn n (with_self (on_computed (with_value w))) c).
Proof.
  apply updn_count. unfold cachedNow, with_self; simpl. by destruct (self _).
Qed.

Lemma recomputeNow_ok rf n k c P B :
  (∀ d, reads n d → refresh_ok rf d) → Inv P B c →
  self (getn c n) = AComputed k → disposed (getn c n) = false → cached k = false →
  (∀ m, m ∈ P → n < m) → (∀ m, m < n → refreshing_of (getn c m) = false) →
  ∃ b c', recomputeNow ord zero rf n k c = Ok b c' ∧ Inv P B c' ∧ pf None (below n) c c' ∧
    fresh (getn c' n) = true ∧
    (b = false → ∀ v, stored (getn c n) = Some v → stored (getn c' n) = Some v).
Proof.
  intros Hrf HI Hk Hdi Hca HP Href.
  assert (Hun : cachedNow (getn c n) = false) by (unfold cachedNow; by rewrite Hk).
  assert (Hcn : is_cacheable (getn c n) = true) by (unfold is_cacheable; by rewrite Hk).
  assert (HnP : n ∉ P) by (intros Hin; specialize (HP n Hin); lia).
  destruct (detachUpstream_ok ({[n]} ∪ P) B c n) as (HI0 & Hpf0 & Hdp0 & Hself0);
    [by apply Inv_weaken|done|set_solver|].
  set (c0 := detachUpstream n c) in *.
  set (g := u64 (computeGen c0 + 1)). set (c0' := with_computeGen (λ _, g) c0).
  assert (Hcomp0 : comp_of (getn c0' n) = Some (compute k)).
  { unfold comp_of. change (self (getn c0' n)) with (self (getn c0 n)).
    destruct (Hself0 n) as [-> _]. by rewrite Hk. }
  assert (Hdi0 : disposed (getn c0' n) = false).
  { change (disposed (getn c0' n)) with (disposed (getn c0 n)).
    by rewrite (fixed_disposed _ _ (pf_fixed _ _ _ _ Hpf0 n)). }
  assert (HI0' : Inv ({[n]} ∪ P) B c0') by (by apply Inv_computeGen).
  destruct (run_comp_ok rf (MkCompute n g true) n (compute k) c0' ({[n]} ∪ P) B)
    as (v & ds & c1 & Hrun & HI1 & Hpf1 & Hev & Hdp1 & Hfr1); auto.
  { set_solver. }
  { unfold is_cacheable. change (self (getn c0' n)) with (self (getn c0 n)).
    destruct (Hself0 n) as [-> _]. by rewrite Hk. }
  { intros m [->%elem_of_singleton|Hm]%elem_of_union; [lia|]. specialize (HP m Hm). lia. }
  { intros m Hm. change (getn c0' m) with (getn c0 m).
    rewrite (pf_refreshing _ _ _ _ Hpf0). by apply Href. }
  { by apply (p_comp _ (i_prog _ _ _ HI0')). }
  change (dependencies (getn c0' n)) with (dependencies (getn c0 n)) in Hdp1.
  rewrite Hdp0 in Hdp1. assert (Hds : dependencies (getn c1 n) = ds) by set_solver.
  clear Hdp1. subst ds.
  assert (Hpf01 : pf (Some n) (R n) c c1).
  { eapply pf_trans; [|exact Hpf1]. eapply pf_trans; [|apply pf_computeGen].
    eapply pf_mono; [|by right|exact Hpf0]. done. }
  assert (Hirr : ¬ R n n) by (intros H%R_lt; lia).
  destruct (pf_out _ _ _ _ Hpf01 n Hirr) as [Hst1 Hun1]. rewrite Hun in Hun1.
  assert (Hcomp1 : comp_of (getn c1 n) = Some (compute k)).
  { rewrite (fixed_comp _ _ (pf_fixed _ _ _ _ Hpf01 n)). unfold comp_of. by rewrite Hk. }
  assert (Hdi1 : disposed (getn c1 n) = false).
  { by rewrite (fixed_disposed _ _ (pf_fixed _ _ _ _ Hpf01 n)). }
  assert (Hcn1 : is_cacheable (getn c1 n) = true).
  { by rewrite (fixed_cacheable _ _ (pf_fixed _ _ _ _ Hpf01 n)). }
  assert (Hguard : ∀ eq, equals k = Some eq → guard_of (getn c n) = Some eq).
  { intros eq He. unfold guard_of. by rewrite Hk. }
  assert (Hclose : pf None (below n) c c1).
  { eapply pf_close; [|by left|done]. eapply pf_mono; [|by right|done]. by right. }
  assert (Hsettled : ∀ c', getn c' n = settle v (getn c1 n) → fresh (getn c' n) = true).
  { intros c' ->. clear -Hcn1. unfold fresh, cachedNow, is_source, settle, is_cacheable in *.
    simpl. by destruct (self (getn c1 n)). }
  (* the prefix of the method *)
  set (unchanged := match stored (getn c1 n), equals k with
    | Some old, Some eq => eq old v | _, _ => false end).
  unfold recomputeNow, run_compute. unfold mbind, M_bind, modify, newCompute.
  fold c0 g c0'. rewrite Hrun. unfold gets. fold unchanged.
  destruct unchanged eqn:Eu; unfold unchanged in Eu.
  - (* guard says unchanged *)
    destruct (stored (getn c1 n)) as [old|] eqn:Eold; [|done].
    destruct (equals k) as [eq|] eqn:Eeq; [|done].
    apply (p_guard _ (i_prog _ _ _ HI) n) in Eu; [subst old|by apply Hguard].
    assert (Hg : ∀ m, getn (markClean n c1) m =
      if decide (m = n) then settle v (getn c1 m) else getn c1 m).
    { intros m. rewrite markClean_getn. case_decide; [subst|done].
      unfold settle, with_self, stored, is_cacheable in *; simpl.
      destruct (self (getn c1 n)); [done| |done]. simpl. unfold with_cached, with_value; simpl.
      by rewrite Eold. }
    destruct (settle_Inv P B n v (compute k) c1 (markClean n c1)) as [_ HI2]; auto.
    { by apply markClean_count, HI1. }
    exists false, (markClean n c1). split_and!; [done|apply HI2; by right| | |].
    + eapply pf_trans; [exact Hclose|]. eapply pf_mono; [|by left|by eapply settle_pf].
      by left.
    + apply Hsettled. by rewrite Hg, decide_True.
    + intros _ u Hu. rewrite Hst1 in Eold. rewrite Hg, decide_True by done.
      unfold settle, stored, is_cacheable in *; simpl.
      destruct (self (getn c1 n)); [done| |done]. simpl. congruence.
  - (* the value is stored *)
    set (c2 := updn n _ (markClean n c1)).
    assert (Hg : ∀ m, getn c2 m =
      if decide (m = n) then settle v (getn c1 m) else getn c1 m).
    { intros m. unfold c2. rewrite getn_updn, !markClean_getn.
      rewrite (decide_True (P := n = n)) by done. case_decide; [subst|done].
      unfold settle, with_self; simpl. by destruct (self (getn c1 n)). }
    destruct (settle_Inv P B n v (compute k) c1 c2) as [HI2 HI2']; auto.
    { by apply updn_value_count, markClean_count, HI1. }
    assert (Hpf2 : pf None (below n) c c2).
    { eapply pf_trans; [exact Hclose|]. eapply pf_mono; [|by left|by eapply settle_pf].
      by left. }
    assert (Hfr2 : fresh (getn c2 n) = true).
    { apply Hsettled. by rewrite Hg, decide_True. }
    unfold mret, M_ret. case_decide as Hnone.
    + exists false, c2. split_and!; [done|apply HI2'; by left|done|done|]. congruence.
    + destruct (notify_ok false P B n c2 HI2) as (st & c3 & Hn & HI3 & Hr3 & Hst3).
      rewrite Hn.
      assert (Hpf3 : pf None (λ _, False) c2 c3).
      { eapply (notify_pf _ _ n); [exact HI2|exact Hr3| |].
        - intros e He. by apply Hst3 in He as [_ He].
        - intros m Hm. rewrite Hg in *. rewrite decide_True in Hm by done.
          change (dependents (settle v (getn c1 n))) with (dependents (getn c1 n)) in Hm.
          assert (m ≠ n).
          { intros ->. apply (e_sym _ (i_edges _ _ _ HI1)), (i_deps _ _ _ HI1) in Hm as [_ Hm].
            by apply Hirr, R_reads, Hm. }
          rewrite decide_False by done. apply (i_down _ _ _ HI1 n); [done|].
          unfold stale. by rewrite Hcn1, Hun1. }
      exists true, c3. split_and!; [done|done| | |done].
      * eapply pf_trans; [exact Hpf2|]. eapply pf_mono; [|by left|done]. done.
      * by apply (pf_fresh _ _ _ _ _ Hpf3 Hfr2).
Qed.

(** The invariant only observes these parts of a node. *)
Definition obs nd :=
  (comp_of nd, guard_of nd, disposed nd, (is_effect nd, is_source nd, is_cacheable nd),
   stored nd, cachedNow nd, dirty nd, forceRecompute nd, dependents nd, dependencies nd).

Lemma Inv_obs P B c c' :
  (∀ m, obs (getn c' m) = obs (getn c m)) → count_ok c' → Inv P B c → Inv P B c'.
Proof.
  intros Ho Hc HI.
  assert (Hm : ∀ m, comp_of (getn c' m) = comp_of (getn c m) ∧
    guard_of (getn c' m) = guard_of (getn c m) ∧ disposed (getn c' m) = disposed (getn c m) ∧
    is_effect (getn c' m) = is_effect (getn c m) ∧ is_source (getn c' m) = is_source (getn c m) ∧
    is_cacheable (getn c' m) = is_cacheable (getn c m) ∧ stored (getn c' m) = stored (getn c m)).
  { intros m. specialize (Ho m). unfold obs in Ho. by injection Ho. }
  assert (Hm' : ∀ m, cachedNow (getn c' m) = cachedNow (getn c m) ∧
    dirty (getn c' m) = dirty (getn c m) ∧
    forceRecompute (getn c' m) = forceRecompute (getn c m) ∧
    dependents (getn c' m) = dependents (getn c m) ∧
    dependencies (getn c' m) = dependencies (getn c m)).
  { intros m. specialize (Ho m). unfold obs in Ho. by injection Ho. }
  clear Ho.
  assert (Hrd : ∀ m, readable (getn c' m) = readable (getn c m)).
  { intros m. unfold readable. by destruct (Hm m) as (_ & _ & -> & -> & _). }
  destruct HI as [[P1 P2] [E1 E2 E3] [F1 F2 F3] HD _ HDe HV HP HC]. split; [split|split|split| |done|..].
  - intros n p. destruct (Hm n) as (-> & _ & -> & _). intros Hp Hd.
    eapply all_reads_impl; [|by apply P1]. intros d. simpl. by rewrite Hrd.
  - intros n eq u v. destruct (Hm n) as (_ & -> & _). apply P2.
  - intros a b. destruct (Hm' b) as (_ & _ & _ & -> & _). destruct (Hm' a) as (_ & _ & _ & _ & ->).
    apply E1.
  - intros a b. destruct (Hm' b) as (_ & _ & _ & -> & _).
    destruct (Hm a) as (_ & _ & _ & _ & -> & _). apply E2.
  - intros a b. destruct (Hm' b) as (_ & _ & _ & -> & _).
    destruct (Hm b) as (_ & _ & _ & -> & _). apply E3.
  - intros n. destruct (Hm' n) as (-> & -> & _). apply F1.
  - intros n. destruct (Hm' n) as (-> & _ & -> & _). apply F2.
  - intros n. destruct (Hm' n) as (-> & _). destruct (Hm n) as (_ & _ & -> & _). apply F3.
  - intros d n. unfold stale. destruct (Hm' d) as (-> & _ & _ & -> & _).
    destruct (Hm d) as (_ & _ & _ & _ & _ & -> & _). destruct (Hm' n) as (-> & _). apply HD.
  - intros n d. rewrite Hrd. destruct (Hm' n) as (_ & _ & _ & _ & ->).
    destruct (Hm n) as (_ & _ & _ & _ & _ & -> & _). apply HDe.
  - intros n. destruct (Hm' n) as (-> & _). destruct (Hm n) as (_ & _ & _ & _ & _ & _ & ->).
    apply HV.
  - intros n. destruct (Hm' n) as (-> & _). apply HP.
  - intros n p v HnP. destruct (Hm n) as (-> & _ & -> & _ & _ & _ & ->).
    destruct (Hm' n) as (_ & _ & -> & _ & ->). intros H1 H2 H3 H4 H5.
    eapply eval_ext; [by apply HC|]. intros d _. unfold env.
    by destruct (Hm d) as (_ & _ & _ & _ & _ & _ & ->).
Qed.

Lemma set_refreshing_getn b n c m :
  getn (updn n (with_self (on_computed (with_refreshing b))) c) m =
    if decide (m = n) then with_self (on_computed (with_refreshing b)) (getn c m) else getn c m.
Proof. rewrite getn_updn. by case_decide; subst. Qed.

Lemma set_refreshing_Inv b n P B c :
  Inv P B c → Inv P B (updn n (with_self (on_computed (with_refreshing b))) c).
Proof.
  intros HI. eapply Inv_obs; [|apply updn_count; [|by apply HI]|done].
  - intros m. rewrite set_refreshing_getn. case_decide; [|done].
    unfold obs, comp_of, guard_of, is_effect, is_source, is_cacheable, stored, cachedNow; simpl.
    by destruct (self (getn c m)).
  - unfold cachedNow; simpl. by destruct (self (getn c n)).
Qed.

(** *** The dependency walk *)
Section walk.
Hypothesis ord_below : ∀ c n s,
  (∀ d, d ∈ s → reads n d) → StronglySorted (λ a b, ¬ R a b) (ord c s).

Lemma refresh_all_ok rf (Q : nat → Prop) l : ∀ changed c P B,
  (∀ d, d ∈ l → refresh_ok rf d ∧ readable (getn c d) = true ∧ (∀ m, m ∈ P → d < m) ∧
    (∀ m, m ≤ d → refreshing_of (getn c m) = false) ∧ ∀ m, below d m → Q m) →
  Inv P B c →
  ∃ b c', refresh_all rf l changed c = Ok b c' ∧ Inv P B c' ∧ pf None Q c c' ∧
    (∀ d, d ∈ l → fresh (getn c' d) = true) ∧ (changed = true → b = true) ∧
    (b = false → StronglySorted (λ a b, ¬ R a b) l → ∀ d, d ∈ l → ∀ v,
      stored (getn c d) = Some v → stored (getn c' d) = Some v).
Proof.
  induction l as [|d l IH]; intros changed c P B Hl HI; simpl.
  - exists changed, c. split_and!; [done|done|apply pf_refl| |done|].
    + by intros d ?%elem_of_nil.
    + by intros _ _ d ?%elem_of_nil.
  - destruct (Hl d) as (Hrf & Hrd & HP & Href & HQ); [apply list_elem_of_here|].
    destruct (Hrf c P B HI Hrd HP Href) as (b1 & c1 & Hr1 & HI1 & Hpf1 & Hfr1 & Hst1).
    assert (Hpf1' : pf None Q c c1) by (eapply pf_mono; [|by left|exact Hpf1]; done).
    destruct (IH (changed || b1) c1 P B) as (b & c2 & Hr2 & HI2 & Hpf2 & Hfr2 & Hch2 & Hst2); [|done|].
    { intros x Hx. destruct (Hl x) as (X1 & X2 & X3 & X4 & X5); [by right|].
      split_and!; [done| |done| |done].
      - by rewrite (pf_readable _ _ _ _ x Hpf1).
      - intros m Hm. rewrite (pf_refreshing _ _ _ _ Hpf1). by apply X4. }
    exists b, c2. split_and!; [|done|by eapply pf_trans| | |].
    + unfold mbind, M_bind. rewrite Hr1. exact Hr2.
    + intros x [->|Hx]%elem_of_cons; [|by apply Hfr2]. by apply (pf_fresh _ _ _ _ _ Hpf2).
    + intros ->. apply Hch2. done.
    + intros -> Hss x Hx v Hv. inversion Hss as [|?? Hss' Hall]; subst.
      assert (b1 = false) as ->.
      { destruct b1; [|done]. rewrite orb_true_r in Hch2. by rewrite Hch2. }
      destruct (decide (x = d)) as [->|Hne].
      * destruct (pf_fresh _ _ _ _ _ Hpf2 Hfr1) as [_ ->]. by apply Hst1.
      * apply elem_of_cons in Hx as [->|Hx]; [done|]. apply (Hst2 eq_refl Hss' x Hx).
        destruct (pf_out _ _ _ _ Hpf1 x) as [-> _]; [|done].
        intros [->|HR]; [done|]. rewrite Forall_forall in Hall. by apply (Hall x Hx).
Qed.

Lemma recomputeNow_ext rf n k k' c :
  compute k = compute k' → equals k = equals k' →
  recomputeNow ord zero rf n k c = recomputeNow ord zero rf n k' c.
Proof. intros H1 H2. unfold recomputeNow. by rewrite H1, H2. Qed.

Lemma pf_unrefreshing n c c1 c2 c3 :
  refreshing_of (getn c n) = false → is_cacheable (getn c n) = true →
  (∀ m, getn c1 m = if decide (m = n) then with_self (on_computed (with_refreshing true)) (getn c m)
                    else getn c m) →
  pf None (R n) c1 c2 →
  (∀ m, getn c3 m = if decide (m = n) then with_self (on_computed (with_refreshing false)) (getn c2 m)
                    else getn c2 m) →
  statics c1 = statics c → pend c1 = pend c → statics c3 = statics c2 → pend c3 = pend c2 →
  pf None (R n) c c3.
Proof.
  intros Hrn Hcn Hg1 Hpf Hg3 S1 S2 S3 S4.
  assert (O : ∀ b nd, fixed (with_self (on_computed (with_refreshing b)) nd) = fixed nd ∧
    stored (with_self (on_computed (with_refreshing b)) nd) = stored nd ∧
    cachedNow (with_self (on_computed (with_refreshing b)) nd) = cachedNow nd ∧
    is_cacheable (with_self (on_computed (with_refreshing b)) nd) = is_cacheable nd ∧
    dependencies (with_self (on_computed (with_refreshing b)) nd) = dependencies nd).
  { intros b nd. unfold fixed, stored, cachedNow, is_cacheable; simpl. by destruct (self nd). }
  assert (O1 : ∀ m, fixed (getn c1 m) = fixed (getn c m) ∧ stored (getn c1 m) = stored (getn c m) ∧
    cachedNow (getn c1 m) = cachedNow (getn c m) ∧
    is_cacheable (getn c1 m) = is_cacheable (getn c m) ∧
    dependencies (getn c1 m) = dependencies (getn c m)).
  { intros m. rewrite Hg1. case_decide; [apply O|done]. }
  assert (O3 : ∀ m, fixed (getn c3 m) = fixed (getn c2 m) ∧ stored (getn c3 m) = stored (getn c2 m) ∧
    cachedNow (getn c3 m) = cachedNow (getn c2 m) ∧
    is_cacheable (getn c3 m) = is_cacheable (getn c2 m) ∧
    dependencies (getn c3 m) = dependencies (getn c2 m)).
  { intros m. rewrite Hg3. case_decide; [apply O|done]. }
  destruct Hpf as [A1 A2 A3 A4 A5 A6 A7]. split; try congruence; intros m;
    destruct (O1 m) as (X1 & X2 & X3 & X4 & X5); destruct (O3 m) as (Y1 & Y2 & Y3 & Y4 & Y5).
  - congruence.
  - rewrite Hg3. case_decide as Hm; [subst m|by rewrite A2, Hg1, decide_False].
    rewrite Hrn. pose proof (fixed_cacheable _ _ (A1 n)) as Hcc. rewrite X4, Hcn in Hcc.
    unfold refreshing_of, is_cacheable in *; simpl. by destruct (self (getn c2 n)).
  - intros Hm. rewrite <-X3 in Hm. destruct (A3 m Hm). split; congruence.
  - intros Hm. destruct (A4 m Hm). split; congruence.
  - intros Hm Hp. rewrite Y5, A5; [done| |done]. by rewrite X4.
Qed.

Theorem refresh_correct fuel n : n < fuel → refresh_ok (refresh ord zero fuel) n.
Proof.
  revert n. induction fuel as [|fuel IH]; intros n Hn; [lia|].
  intros c P B HI Hrd HP Href. simpl.
  pose proof Hrd as Hrd'. unfold readable in Hrd'.
  apply andb_true_iff in Hrd' as [Hdi%negb_true_iff Heff%negb_true_iff].
  destruct (self (getn c n)) as [s|k|e] eqn:Es.
  { exists false, c. split_and!; [done|done|apply pf_refl| |done]. unfold fresh, is_source. by rewrite Es. }
  2: { unfold is_effect in Heff. by rewrite Es in Heff. }
  assert (Hcn : is_cacheable (getn c n) = true) by (unfold is_cacheable; by rewrite Es).
  rewrite Hdi. simpl. destruct (cached k) eqn:Eca.
  { exists false, c. split_and!; [done|done|apply pf_refl| |done].
    unfold fresh, cachedNow. by rewrite Es, Eca, orb_true_r. }
  assert (Hrn : refreshing_of (getn c n) = false) by (by apply Href).
  assert (Hrk : refreshing k = false) by (unfold refreshing_of in Hrn; by rewrite Es in Hrn).
  rewrite Hrk.
  assert (HrecIH : ∀ d, reads n d → refresh_ok (refresh ord zero fuel) d).
  { intros d Hd%R_reads%R_lt. apply IH. lia. }
  assert (HnP : n ∉ P) by (intros Hin; specialize (HP n Hin); lia).
  assert (Hun : cachedNow (getn c n) = false) by (unfold cachedNow; by rewrite Es).
  destruct (bool_decide _ && _) eqn:Econd; cycle 1.
  { apply recomputeNow_ok; auto. intros m Hm. apply Href. lia. }
  apply andb_true_iff in Econd as [[w Hw]%bool_decide_eq_true Hforce%negb_true_iff].
  (* the dependency walk *)
  set (c1 := updn n (with_self (on_computed (with_refreshing true))) c).
  assert (HI1 : Inv P B c1) by by apply set_refreshing_Inv.
  assert (Hdeps : ∀ d, d ∈ dependencies (getn c n) → readable (getn c d) = true ∧ reads n d).
  { intros d Hd. destruct (i_deps _ _ _ HI n d Hd). auto. }
  assert (Hoth : ∀ d, d ≠ n → getn c1 d = getn c d).
  { intros d Hd. unfold c1. by rewrite set_refreshing_getn, decide_False. }
  destruct (refresh_all_ok (refresh ord zero fuel) (R n) (ord c (dependencies (getn c n)))
    false c1 P B) as (b & c2 & Hr2 & HI2 & Hpf2 & Hfr2 & _ & Hst2); [|done|].
  { intros d Hd%elem_of_ord; [|done]. destruct (Hdeps d Hd) as [Hdr Hdn].
    pose proof (R_lt _ _ (R_reads _ _ Hdn)) as Hlt.
    split_and!; [by apply HrecIH|by rewrite Hoth by lia| | |].
    - intros m Hm. specialize (HP m Hm). lia.
    - intros m Hm. rewrite Hoth by lia. apply Href. lia.
    - intros m [->|Hm]; [by apply R_reads|]. eapply R_trans; [by apply R_reads|done]. }
  set (c3 := updn n (with_self (on_computed (with_refreshing false))) c2).
  assert (HI3 : Inv P B c3) by by apply set_refreshing_Inv.
  assert (Hpf3 : pf None (R n) c c3).
  { apply (pf_unrefreshing n c c1 c2 c3); try done; intros m; apply set_refreshing_getn. }
  assert (Hirr : ¬ R n n) by (intros H%R_lt; lia).
  destruct (pf_out _ _ _ _ Hpf3 n Hirr) as [Hst3 Hun3]. rewrite Hun in Hun3.
  assert (Hdep3 : dependencies (getn c3 n) = dependencies (getn c n)).
  { apply (pf_deps _ _ _ _ Hpf3); [by left|done]. }
  assert (Hdi3 : disposed (getn c3 n) = false).
  { by rewrite (fixed_disposed _ _ (pf_fixed _ _ _ _ Hpf3 n)). }
  assert (Hfx : ∃ k3, self (getn c3 n) = AComputed k3 ∧ compute k3 = compute k ∧
    equals k3 = equals k ∧ cached k3 = false).
  { pose proof (pf_fixed _ _ _ _ Hpf3 n) as Hfx. unfold fixed in Hfx. rewrite Es in Hfx.
    destruct (self (getn c3 n)) as [|k3|] eqn:E3; simplify_eq. exists k3.
    split_and!; [done..|]. unfold cachedNow in Hun3. by rewrite E3 in Hun3. }
  destruct Hfx as (k3 & Es3 & Ek3 & Eq3 & Ec3).
  assert (Hpfb : pf None (below n) c c3) by (eapply pf_mono; [|by left|done]; by right).
  unfold set_refreshing, modify, mbind, M_bind. fold c1. rewrite Hr2. fold c3.
  destruct b.
  - (* something below changed *)
    rewrite (recomputeNow_ext _ _ k k3) by done.
    destruct (recomputeNow_ok (refresh ord zero fuel) n k3 c3 P B)
      as (b & c4 & Hr4 & HI4 & Hpf4 & Hfr4 & Hst4); auto.
    { intros m Hm. rewrite (pf_refreshing _ _ _ _ Hpf3). apply Href. lia. }
    exists b, c4. split_and!; [done|done|by eapply pf_trans|done|].
    intros Hb v Hv. apply Hst4; [done|]. by rewrite Hst3.
  - (* nothing changed: the old value is still right *)
    assert (Hws : stored (getn c n) = Some w) by (unfold stored; by rewrite Es).
    assert (Hg : ∀ m, getn (markClean n c3) m =
      if decide (m = n) then settle w (getn c3 m) else getn c3 m).
    { intros m. rewrite markClean_getn. case_decide; [subst m|done].
      rewrite Hws in Hst3. unfold settle, with_self, stored in *; simpl. rewrite Es3 in *.
      unfold on_computed, with_cached, with_value; simpl. by rewrite Hst3. }
    destruct (settle_Inv P B n w (compute k) c3 (markClean n c3)) as [_ HI4]; auto.
    + by apply Inv_weaken.
    + apply markClean_count; [|by apply HI3]. unfold is_cacheable. by rewrite Es3.
    + unfold comp_of. by rewrite Es3, Ek3.
    + intros d. rewrite Hdep3. intros Hd. specialize (Hfr2 d).
      unfold c3. rewrite set_refreshing_getn. destruct (Hdeps d Hd) as [_ Hlt%R_reads%R_lt].
      rewrite decide_False by lia. apply Hfr2. by apply elem_of_ord.
    + rewrite Hdep3. intros Hdis.
      assert (Hev : eval (env c) (compute k) = Some (w, dependencies (getn c n))).
      { apply (i_cons _ _ _ HI n); try done. unfold comp_of. by rewrite Es. }
      eapply eval_ext; [exact Hev|]. intros d Hd.
      destruct (eval_dom _ _ _ _ _ Hev Hd) as [u Hu]. rewrite Hu. symmetry.
      destruct (Hdeps d Hd) as [_ Hlt%R_reads%R_lt].
      unfold env, c3. rewrite set_refreshing_getn, decide_False by lia.
      apply Hst2; [done| | |].
      * apply ord_below with (n := n). intros x Hx. by apply Hdeps.
      * by apply elem_of_ord.
      * rewrite Hoth by lia. exact Hu.
    + exists false, (markClean n c3). split_and!; [done| | | |].
      * apply HI4. right. by rewrite Hst3.
      * eapply pf_trans; [exact Hpfb|]. eapply pf_mono; [|by left|by eapply settle_pf]. by left.
      * unfold fresh. rewrite Hg, decide_True by done. unfold is_source, cachedNow, settle; simpl.
        by rewrite Es3.
      * intros _ v Hv. rewrite Hg, decide_True by done. unfold settle, stored; simpl.
        rewrite Es3; simpl. congruence.
Qed.

(** ** Denotation *)

(** With no notification outstanding, a current value is what the node
    denotes. *)
Lemma fresh_den c fuel n :
  Inv ∅ ∅ c → fresh (getn c n) = true → n < fuel → den c fuel n = stored (getn c n).
Proof.
  intros HI. revert n. induction fuel as [|fuel IH]; intros n Hfr Hn; [lia|]. simpl.
  unfold fresh in Hfr. apply orb_true_iff in Hfr as [Hs|Hc].
  { unfold is_source, stored in *. by destruct (self (getn c n)). }
  destruct (self (getn c n)) as [s|k|e] eqn:Es.
  1: { unfold cachedNow in Hc. by rewrite Es in Hc. }
  2: { unfold cachedNow in Hc. by rewrite Es in Hc. }
  destruct (stored (getn c n)) as [v|] eqn:Ev; [|by destruct (i_val _ _ _ HI n)].
  assert (Hf : forceRecompute (getn c n) = false).
  { apply not_true_is_false. intros Hf. apply (f_force _ (i_flags _ _ _ HI)) in Hf. congruence. }
  assert (Hd : disposed (getn c n) = false).
  { apply not_true_is_false. intros Hd. apply (f_disposed _ (i_flags _ _ _ HI)) in Hd. congruence. }
  assert (Hev : eval (env c) (compute k) = Some (v, dependencies (getn c n))).
  { apply (i_cons _ _ _ HI n); try done. unfold comp_of. by rewrite Es. }
  rewrite (eval_ext (env c) (den c fuel) _ _ _ Hev); [done|].
  intros d Hdn. destruct (i_deps _ _ _ HI n d Hdn) as [Hrd Hreads].
  assert (Hlt : d < n).
  { apply R_lt, R_reads, Hreads. unfold is_cacheable. by rewrite Es. }
  symmetry. apply IH; [|lia].
  apply (e_sym _ (i_edges _ _ _ HI)) in Hdn.
  unfold readable in Hrd. apply andb_true_iff in Hrd as [_ Heff%negb_true_iff].
  destruct (cachedNow (getn c d)) eqn:Ecd; [unfold fresh; by rewrite Ecd, orb_true_r|].
  destruct (is_cacheable (getn c d)) eqn:Ecc.
  - rewrite (i_down _ _ _ HI d n) in Hc; [done|done|]. unfold stale. by rewrite Ecc, Ecd.
  - unfold fresh, is_source, is_cacheable, is_effect in *. by destruct (self (getn c d)).
Qed.

Lemma den_fixed c c' fuel n :
  (∀ m, fixed (getn c' m) = fixed (getn c m)) → den c' fuel n = den c fuel n.
Proof.
  intros Hf. revert n. induction fuel as [|fuel IH]; intros n; simpl; [done|].
  specialize (Hf n). unfold fixed in Hf.
  destruct (self (getn c n)), (self (getn c' n)); simplify_eq/=; [congruence| |done].
  match goal with H : compute _ = compute _ |- _ => rewrite H end. f_equal.
  clear -IH. generalize (compute k). intros p.
  induction p as [|t d q IHp]; simpl; [done|]. rewrite IH.
  destruct (den c fuel d); simpl; [|done]. by rewrite IHp.
Qed.

Lemma Get_ok fuel n c :
  Inv ∅ ∅ c → readable (getn c n) = true → (∀ m, refreshing_of (getn c m) = false) →
  n < fuel →
  ∃ v c', Get ord zero fuel n c = Ok v c' ∧ den c (S n) n = Some v ∧
    Inv ∅ ∅ c' ∧ pf None (below n) c c'.
Proof.
  intros HI Hrd Href Hn.
  destruct (getVia_ok (refresh ord zero fuel) None n c ∅ ∅) as
    (v & c' & Hg & Hv & Hfr & HI' & Hpf & _);
    [by apply refresh_correct|done|done|done|set_solver|auto|].
  exists v, c'. split_and!; [done| |done|done].
  rewrite <-(den_fixed c c') by apply Hpf. rewrite <-Hv. apply fresh_den; [done..|lia].
Qed.
End walk.
End ordered.
End inv.
End pull.
