(* ===== verification/KernelRun.v ===== *)
(** * KernelRun: writes, batches, effects and whole histories of the kernel
    (core.go [Set], [Batch], [rerun], [flushEffects])

    Every public operation preserves [KInv], no operation of a well-formed
    program panics, the effect drain terminates within an explicit bound, and
    in every reachable state a read returns the value the graph denotes. *)

From S2P Require Import Prelude Kernel KernelMark KernelPull.
From Stdlib Require Import Sorting.Sorted.

(** An effect body reads live values only, through its view only while that
    view is live; the cleanup it returns runs after the view was closed. *)
Fixpoint eff_ok {V} (Q : nat → Prop) (live : bool) (p : @eff V) : Prop :=
  match p with
  | EDone None => True
  | EDone (Some q) => eff_ok Q false q
  | ERead tracked d k => (tracked = true → live = true) ∧ Q d ∧ ∀ v, eff_ok Q live (k v)
  | ESet _ _ k | EMerge _ _ k | EEmit _ k => eff_ok Q live k
  | EBatch b k => eff_ok Q live b ∧ eff_ok Q live k
  end.

Definition cleanup_ok {V} (Q : nat → Prop) (cl : option (@eff V)) : Prop :=
  match cl with Some p => eff_ok Q false p | None => True end.

Section run.
Context {V : Type} `{EqDecision V} (zero : V).
Implicit Types (c : @ctx V) (nd : @node V) (n d m e : nat) (B : gset nat).

(** What no operation changes about an existing node. *)
Definition kinds nd :=
  (comp_of nd, guard_of nd, disposed nd, (is_effect nd, is_source nd, is_cacheable nd),
   refreshing_of nd, match self nd with AEffect ef => Some (run ef) | _ => None end).

Definition cleanup_of nd : option eff :=
  match self nd with AEffect ef => cleanup ef | _ => None end.
Definition run_of nd : option eff :=
  match self nd with AEffect ef => Some (run ef) | _ => None end.

Lemma kinds_proj nd nd' :
  kinds nd' = kinds nd →
  comp_of nd' = comp_of nd ∧ guard_of nd' = guard_of nd ∧ disposed nd' = disposed nd ∧
  is_effect nd' = is_effect nd ∧ is_source nd' = is_source nd ∧
  is_cacheable nd' = is_cacheable nd ∧ refreshing_of nd' = refreshing_of nd ∧
  run_of nd' = run_of nd.
Proof. unfold kinds. intros [= -> -> -> -> -> -> -> ?]. done. Qed.

Record kfr c c' : Prop := {
  kf_kinds : ∀ m, kinds (getn c' m) = kinds (getn c m);
  kf_next : next c' = next c;
  kf_depth : batchDepth c' = batchDepth c;
  kf_flush : flushingEffects c' = flushingEffects c;
  kf_budget : drainBudget c' = drainBudget c;
  kf_batched : batchDepth c = 0 → batchedCells c = ∅ → batchedCells c' = ∅;
}.

#[export] Instance kfr_refl : Reflexive kfr.
Proof. intros c. by split. Qed.
#[export] Instance kfr_trans : Transitive kfr.
Proof.
  intros a b c [A1 A2 A3 A4 A5 A6] [B1 B2 B3 B4 B5 B6]. split; try congruence.
  intros H1 H2. apply B6; [congruence|auto].
Qed.

Lemma kfr_readable c c' n : kfr c c' → readable (getn c' n) = readable (getn c n).
Proof.
  intros Hk. destruct (kinds_proj _ _ (kf_kinds _ _ Hk n)) as (_ & _ & E1 & E2 & _).
  unfold readable. by rewrite E1, E2.
Qed.

Lemma kfr_run c c' n : kfr c c' → run_of (getn c' n) = run_of (getn c n).
Proof.
  intros Hk. by destruct (kinds_proj _ _ (kf_kinds _ _ Hk n)) as (_ & _ & _ & _ & _ & _ & _ & E).
Qed.

(** What a pointer not allocated yet reads as. *)
Definition unalloc nd : Prop :=
  self nd = self (no_node (V := V)) ∧ disposed nd = true ∧ dependencies nd = ∅.

(** The pending worklist: each scheduled effect exactly once. *)
Definition pend_ok c : Prop :=
  ∃ l : list nat, pendingEffects c = Some <$> l ∧ NoDup l ∧
    (∀ e, e ∈ l ↔ e ∈ scheduledEffects c) ∧ (∀ e, e ∈ l → e < next c).

Lemma scheduleEffect_pend e c : e < next c → pend_ok c → pend_ok (scheduleEffect e c).
Proof.
  intros He (l & Hp & Hnd & Hs & Hlt). unfold scheduleEffect. case_decide as Hin; [by exists l|].
  exists (l ++ [e]); simpl. split_and!.
  - by rewrite Hp, fmap_app.
  - apply NoDup_app. split_and!; [done| |apply NoDup_singleton].
    intros x Hx ->%list_elem_of_singleton. by apply Hin, Hs.
  - intros x. rewrite elem_of_app, list_elem_of_singleton, Hs. set_solver.
  - intros x [Hx| ->%list_elem_of_singleton]%elem_of_app; auto.
Qed.

Lemma pend_ok_eq c c' : pend c' = pend c → next c' = next c → pend_ok c → pend_ok c'.
Proof. intros [= E1 E2] E3. unfold pend_ok. by rewrite E1, E2, E3. Qed.

Lemma markStale_pend e b c : e < next c → pend_ok c → pend_ok (markStale e b c).
Proof.
  intros He Hp. unfold markStale. case_decide; [done|].
  apply scheduleEffect_pend; by destruct b.
Qed.

Lemma mark_visit_pend_ok sched en c :
  me_node en < next c → pend_ok c → pend_ok (mark_visit sched en c).1.
Proof.
  intros He Hp. unfold mark_visit. destruct (disposed _); [done|].
  destruct (self (getn c (me_node en))) as [s|k|ef] eqn:Es; simpl.
  - unfold onInvalidate. by rewrite Es.
  - unfold onInvalidate. destruct (me_force en).
    + rewrite getn_updn_eq; simpl. rewrite Es. by eapply pend_ok_eq; [..|exact Hp].
    + rewrite Es. by eapply pend_ok_eq; [..|exact Hp].
  - destruct sched; [by apply markStale_pend|done].
Qed.

Section ordered.
Context (ord : @ctx V → gset nat → list nat).
Hypothesis ord_perm : ∀ c s, ord c s ≡ₚ elements s.

Lemma mark_run_pend_ok sched st c c' :
  mark_run ord sched st c c' →
  (∀ a b, a ∈ dependents (getn c b) → a < next c) →
  (∀ en, en ∈ st → me_node en < next c) → pend_ok c → pend_ok c'.
Proof.
  induction 1 as [|en st c c1 p c' Hv _ IH]; [done|]. intros Hb Hst Hp.
  pose proof (mark_visit_pend_ok sched en c) as Hp1.
  pose proof (mark_visit_shape sched en c) as Hs.
  pose proof (mark_visit_statics sched en c) as Hst1.
  rewrite Hv in *; simpl in *. injection Hst1 as Hn _ _ _ _ _ _ _ _ _ _ _ _ _.
  apply IH.
  - intros a b. rewrite (skel_dependents _ _ (Hs b)), Hn. apply Hb.
  - intros x. rewrite elem_of_stack_after, Hn by done. intros [(_ & Hin & _)|Hin].
    + rewrite (skel_dependents _ _ (Hs _)) in Hin. by eapply Hb.
    + apply Hst. by right.
  - apply Hp1; [|done]. apply Hst, list_elem_of_here.
Qed.

Lemma skel_kinds nd nd' : skel nd' = skel nd → kinds nd' = kinds nd ∧ cleanup_of nd' = cleanup_of nd.
Proof.
  intros H. unfold kinds. rewrite (skel_comp _ _ H), (skel_guard _ _ H), (skel_disposed _ _ H),
    (skel_effect _ _ H), (skel_source _ _ H), (skel_cacheable _ _ H), (skel_refreshing _ _ H).
  apply (f_equal self) in H. unfold skel, cleanup_of in *; simpl in *.
  destruct (self nd), (self nd'); simplify_eq/=; [done|done|].
  destruct e, e0; simplify_eq/=. done.
Qed.

Context (reads R : nat → nat → Prop).
Hypothesis R_reads : ∀ n d, reads n d → R n d.
Hypothesis R_trans : ∀ a b d, R a b → R b d → R a d.
Hypothesis R_lt : ∀ n d, R n d → d < n.
Hypothesis ord_below : ∀ c n s,
  (∀ d, d ∈ s → reads n d) → StronglySorted (λ a b, ¬ R a b) (ord c s).

(** ** The invariant of a context between operations

    [B] holds the written sources whose dependents were not told yet. *)
Record KInvB B c : Prop := {
  k_inv : Inv reads ∅ B c;
  k_refr : ∀ m, refreshing_of (getn c m) = false;
  k_next : ∀ m, next c ≤ m → unalloc (getn c m);
  k_src : ∀ s, s ∈ B → is_source (getn c s) = true;
  k_eff : ∀ e p, run_of (getn c e) = Some p → eff_ok (λ d, readable (getn c d) = true) true p;
  k_cl : ∀ e, cleanup_ok (λ d, readable (getn c d) = true) (cleanup_of (getn c e));
  k_pend : pend_ok c;
}.
Definition KInv c : Prop := KInvB (batchedCells c) c.

Lemma k_lt B c a b : KInvB B c → a ∈ dependents (getn c b) → a < next c.
Proof.
  intros HK Ha. destruct (decide (a < next c)) as [|Hn]; [done|exfalso].
  apply (e_sym _ (i_edges _ _ _ _ (k_inv _ _ HK))) in Ha.
  destruct (k_next _ _ HK a) as (_ & _ & Hd); [by apply Nat.nlt_ge|]. rewrite Hd in Ha.
  by apply not_elem_of_empty in Ha.
Qed.

Lemma eff_ok_impl Q Q' live (p : @eff V) :
  (∀ d, Q d → Q' d) → eff_ok Q live p → eff_ok Q' live p.
Proof.
  intros HQ. revert live p. fix IH 2. intros live [[q|]|t d k|n v k|n v k|b k|v k]; simpl.
  - apply IH.
  - done.
  - intros (H1 & H2 & H3). split_and!; [done|by apply HQ|]. intros v. apply IH, H3.
  - apply IH.
  - apply IH.
  - intros [H1 H2]. split; by apply IH.
  - apply IH.
Qed.

Lemma cleanup_ok_impl Q Q' (cl : option (@eff V)) :
  (∀ d, Q d → Q' d) → cleanup_ok Q cl → cleanup_ok Q' cl.
Proof. destruct cl; simpl; [apply eff_ok_impl|done]. Qed.

(** Rebuild the invariant when only the graph state moved. *)
Lemma KInvB_frame B B' c c' :
  KInvB B c → Inv reads ∅ B' c' → B' ⊆ B → kfr c c' →
  (∀ m, next c ≤ m → unalloc (getn c' m)) →
  (∀ e, cleanup_ok (λ d, readable (getn c d) = true) (cleanup_of (getn c' e))) →
  pend_ok c' → KInvB B' c'.
Proof.
  intros HK HI HB Hf Hnx Hcl Hp. split; try done.
  - intros m. destruct (kinds_proj _ _ (kf_kinds _ _ Hf m)) as (_ & _ & _ & _ & _ & _ & -> & _).
    apply HK.
  - intros m. rewrite (kf_next _ _ Hf). apply Hnx.
  - intros s Hs. destruct (kinds_proj _ _ (kf_kinds _ _ Hf s)) as (_ & _ & _ & _ & -> & _).
    by apply (k_src _ _ HK), HB.
  - intros e p. rewrite (kfr_run _ _ e Hf). intros Hr.
    eapply eff_ok_impl; [|by eapply k_eff]. intros d. simpl. by rewrite (kfr_readable _ _ d Hf).
  - intros e. eapply cleanup_ok_impl; [|by apply Hcl]. intros d. simpl.
    by rewrite (kfr_readable _ _ d Hf).
Qed.

(** ** Invalidation of a written source *)

Lemma statics_kfr c c' :
  (∀ m, kinds (getn c' m) = kinds (getn c m)) → statics c' = statics c → kfr c c'.
Proof. intros Hk. unfold statics. intros [= ]. split; congruence. Qed.

Lemma invalidate_ok B n c :
  KInvB ({[n]} ∪ B) c → is_source (getn c n) = true →
  ∃ c', invalidate ord n c = Ok tt c' ∧ KInvB B c' ∧ kfr c c' ∧ batchedCells c' = batchedCells c.
Proof.
  intros HK Hsrc. unfold invalidate, onInvalidate, is_cacheable.
  unfold is_source in Hsrc. destruct (self (getn c n)) eqn:Es; [|done..].
  destruct (notify_ok reads R R_reads R_trans R_lt ord ord_perm true ∅ B n c) as
    (st & c' & Hm & HI & Hr & Hst); [by apply HK|].
  pose proof (mark_run_shape _ _ _ _ _ Hr) as Hs.
  pose proof (mark_run_statics _ _ _ _ _ Hr) as Hss.
  assert (Hf : kfr c c').
  { apply statics_kfr; [|done]. intros m. apply (skel_kinds _ _ (Hs m)). }
  exists c'. split_and!; [done| |done|by injection Hss].
  eapply KInvB_frame; [done|done|set_solver|done| | |].
  - intros m Hle. erewrite mark_run_untouched; [by apply (k_next _ _ HK)|done|done| |].
    + intros b Hb. apply (k_lt _ _ _ _ HK) in Hb. lia.
    + intros en Hen <-. apply Hst in Hen as [_ Hen]. apply (k_lt _ _ _ _ HK) in Hen. lia.
  - intros e. destruct (skel_kinds _ _ (Hs e)) as [_ ->]. apply HK.
  - eapply mark_run_pend_ok; [done| | |by apply HK].
    + intros a b. by eapply k_lt.
    + intros en Hen. apply Hst in Hen as [_ Hen]. by eapply k_lt.
Qed.

(** ** Small updates *)

Lemma KInvB_same B c c' :
  nodes c' = nodes c → cachedCount c' = cachedCount c → pend_ok c' → next c' = next c →
  KInvB B c → KInvB B c'.
Proof.
  intros Hn Hc Hp Hx [I1 I2 I3 I4 I5 I6 I7].
  assert (Hg : ∀ m, getn c' m = getn c m) by (intros m; unfold getn; by rewrite Hn).
  split; try done.
  - eapply Inv_obs; [|..|exact I1].
    + intros m. by rewrite Hg.
    + unfold count_ok, count_cached. rewrite Hn, Hc. apply I1.
  - intros m. by rewrite Hg.
  - intros m. rewrite Hx, Hg. apply I3.
  - intros m. rewrite Hg. apply I4.
  - intros e p. rewrite Hg. intros Hr. eapply eff_ok_impl; [|by apply (I5 e)].
    intros d. simpl. by rewrite Hg.
  - intros e. rewrite Hg. eapply cleanup_ok_impl; [|apply (I6 e)]. intros d. simpl. by rewrite Hg.
Qed.

(** Changing an effect's run state, and its cleanup to an admissible one. *)
Lemma upd_effect_KInv e f c :
  (∀ ef, run (f ef) = run ef) →
  (∀ ef, self (getn c e) = AEffect ef →
    cleanup_ok (λ d, readable (getn c d) = true) (cleanup (f ef))) →
  (next c ≤ e → ∀ ef, self (getn c e) = AEffect ef → f ef = ef) →
  KInv c → KInv (upd_effect e f c) ∧ kfr c (upd_effect e f c).
Proof.
  intros Hrun Hcl Hun HK.
  assert (Hg : ∀ m, getn (upd_effect e f c) m =
    if decide (m = e) then with_self (on_effect f) (getn c m) else getn c m).
  { intros m. unfold upd_effect. rewrite getn_updn. by case_decide; subst. }
  assert (Ho : ∀ nd, obs (with_self (on_effect f) nd) = obs nd).
  { intros nd. unfold obs, comp_of, guard_of, is_effect, is_source, is_cacheable, stored, cachedNow.
    simpl. by destruct (self nd). }
  assert (Hf : kfr c (upd_effect e f c)).
  { split; try done. intros m. rewrite Hg. case_decide; [|done].
    unfold kinds, comp_of, guard_of, is_effect, is_source, is_cacheable, refreshing_of. simpl.
    destruct (self (getn c m)); simpl; [done..|]. by rewrite Hrun. }
  split; [|done]. eapply KInvB_frame; [exact HK| |done|done| | |].
  - eapply Inv_obs; [|..|apply HK].
    + intros m. rewrite Hg. case_decide; [apply Ho|done].
    + apply updn_count; [|apply HK]. by injection (Ho (getn c e)).
  - intros m Hm. rewrite Hg. case_decide; [subst m|by apply (k_next _ _ HK)].
    destruct (k_next _ _ HK e Hm) as (H1 & H2 & H3). split_and!; [|done|done]. simpl.
    rewrite H1. simpl. f_equal. apply Hun; [done|]. by rewrite H1.
  - intros m. rewrite Hg. case_decide; [subst m|apply (k_cl _ _ HK)].
    unfold cleanup_of; simpl. destruct (self (getn c e)) eqn:Es; [done..|]. by apply Hcl.
  - by apply (pend_ok_eq c), HK.
Qed.

Lemma readable_lt B c d : KInvB B c → readable (getn c d) = true → d < next c.
Proof.
  intros HK Hd. destruct (decide (d < next c)); [done|exfalso].
  destruct (k_next _ _ HK d) as (_ & Hx & _); [by apply Nat.nlt_ge|]. unfold readable in Hd. by rewrite Hx in Hd.
Qed.

(** A pull keeps the invariant. *)
Lemma pf_KInv par Q c c' :
  KInv c → Inv reads ∅ (batchedCells c) c' → pf par Q c c' →
  (∀ p, par = Some p → p < next c) → KInv c' ∧ kfr c c' ∧ pend c' = pend c.
Proof.
  intros HK HI Hpf Hpar.
  assert (Hself : ∀ m ef, self (getn c m) = AEffect ef → self (getn c' m) = AEffect ef).
  { intros m ef Hm. pose proof (pf_fixed _ _ _ _ Hpf m) as Hx. unfold fixed in Hx.
    rewrite Hm in Hx. by destruct (self (getn c' m)); simplify_eq. }
  assert (Hself' : ∀ m ef, self (getn c' m) = AEffect ef → self (getn c m) = AEffect ef).
  { intros m ef Hm. pose proof (pf_fixed _ _ _ _ Hpf m) as Hx. unfold fixed in Hx.
    rewrite Hm in Hx. by destruct (self (getn c m)); simplify_eq. }
  assert (Hf : kfr c c').
  { apply statics_kfr; [|by apply Hpf]. intros m. unfold kinds.
    pose proof (pf_fixed _ _ _ _ Hpf m) as Hm.
    rewrite (fixed_comp _ _ Hm), (fixed_guard _ _ Hm), (fixed_disposed _ _ Hm), (fixed_effect _ _ Hm),
      (fixed_source _ _ Hm), (fixed_cacheable _ _ Hm), (pf_refreshing _ _ _ _ Hpf m).
    f_equal. destruct (self (getn c m)) as [| |ef] eqn:Es.
    - destruct (self (getn c' m)) as [| |ef'] eqn:Es'; [done..|].
      apply Hself' in Es'. congruence.
    - destruct (self (getn c' m)) as [| |ef'] eqn:Es'; [done..|].
      apply Hself' in Es'. congruence.
    - by rewrite (Hself m ef). }
  pose proof (pf_statics _ _ _ _ Hpf) as Hst. unfold statics in Hst.
  split_and!; [|done|apply Hpf]. unfold KInv.
  replace (batchedCells c') with (batchedCells c) by (by injection Hst).
  eapply KInvB_frame; [exact HK|done..| | |].
  - intros m Hm. destruct (k_next _ _ HK m Hm) as (H1 & H2 & H3). split_and!.
    + by apply (Hself m), H1.
    + by rewrite (fixed_disposed _ _ (pf_fixed _ _ _ _ Hpf m)).
    + rewrite (pf_deps _ _ _ _ Hpf m); [done| |].
      * right. unfold is_cacheable. by rewrite H1.
      * intros Hp. apply Hpar in Hp. lia.
  - intros e. pose proof (k_cl _ _ HK e) as Hc. unfold cleanup_of in *.
    destruct (self (getn c' e)) as [| |ef] eqn:Es; [done..|].
    apply Hself' in Es. by rewrite Es in Hc.
  - eapply pend_ok_eq; [apply Hpf|by injection Hst|apply HK].
Qed.

(** ** Writes *)

Section effects.
Context (rf : nat → @M V bool) (fl : @M V unit) (F : bool) (N : nat) (D : Z).

(** What the recursive calls promise: a refresh of any allocated node, and a
    flush from a state whose drain flag is [F] and drain budget [D]. *)
Definition amb c : Prop := flushingEffects c = F ∧ next c ≤ N ∧ drainBudget c = D.
Definition fl_ok : Prop := ∀ c, KInv c → amb c →
  ∃ c', fl c = Ok tt c' ∧ KInv c' ∧ kfr c c'.
Hypothesis Hrf : ∀ d, d < N → refresh_ok reads R rf d.
Hypothesis Hfl : fl_ok.

(** The result of an action that cannot fail and keeps the invariant. *)
Definition keeps (m : @M V unit) c : Prop := ∃ c', m c = Ok tt c' ∧ KInv c' ∧ kfr c c'.

Definition at_ok c : Prop := KInv c ∧ amb c.

Lemma amb_kfr c c' : amb c → kfr c c' → amb c'.
Proof. intros (H1 & H2 & H3) []. unfold amb. split_and!; congruence. Qed.

Lemma at_ok_kfr c c' : at_ok c → KInv c' → kfr c c' → at_ok c'.
Proof.
  intros [_ Ha] HK Hf. split; [done|by eapply amb_kfr].
Qed.

Lemma keeps_bind (m1 m2 : @M V unit) c :
  at_ok c → keeps m1 c → (∀ c', at_ok c' → kfr c c' → keeps m2 c') → keeps (m1;; m2) c.
Proof.
  intros Ha (c1 & H1 & HK1 & Hf1) H2.
  destruct (H2 c1) as (c2 & H3 & HK2 & Hf2); [by eapply at_ok_kfr|done|].
  exists c2. split_and!; [|done|by etrans]. unfold mbind, M_bind. by rewrite H1.
Qed.

(** A write stores the value and tells the dependents, now or at the end of
    the batch. *)
Lemma source_write_ok n v c :
  KInv c → is_source (getn c n) = true →
  KInvB ({[n]} ∪ batchedCells c) (updn n (with_self (on_source (λ s, MkSource v (s_policy s)))) c) ∧
  kfr c (updn n (with_self (on_source (λ s, MkSource v (s_policy s)))) c).
Proof.
  intros HK Hsrc. set (c1 := updn n _ c).
  assert (Hg : ∀ m, getn c1 m = if decide (m = n) then
    with_self (on_source (λ s, MkSource v (s_policy s))) (getn c m) else getn c m).
  { intros m. unfold c1. rewrite getn_updn. by case_decide; subst. }
  assert (Hk : ∀ m, kinds (getn c1 m) = kinds (getn c m)).
  { intros m. rewrite Hg. case_decide; [|done].
    unfold kinds, comp_of, guard_of, is_effect, is_source, is_cacheable, refreshing_of. simpl.
    by destruct (self (getn c m)). }
  assert (Hf : kfr c c1) by (by split).
  assert (Hst : ∀ m, m ≠ n → stored (getn c1 m) = stored (getn c m)).
  { intros m Hm. by rewrite Hg, decide_False. }
  assert (Hcs : ∀ m, cachedNow (getn c1 m) = cachedNow (getn c m) ∧
    dirty (getn c1 m) = dirty (getn c m) ∧ forceRecompute (getn c1 m) = forceRecompute (getn c m) ∧
    dependents (getn c1 m) = dependents (getn c m) ∧
    dependencies (getn c1 m) = dependencies (getn c m)).
  { intros m. rewrite Hg. case_decide; [|done]. unfold cachedNow; simpl. by destruct (self _). }
  split; [|done].
  assert (HK' : KInvB ({[n]} ∪ batchedCells c) c).
  { destruct HK as [HI H2 H3 H4 H5 H6 H7]. split; try done.
    - destruct HI. split; try done. intros. apply i_cons; try done. set_solver.
    - intros s [->%elem_of_singleton|Hs]%elem_of_union; auto. }
  eapply KInvB_frame; [exact HK'| |done|done| | |].
  - destruct (k_inv _ _ HK') as [P1 [E1 E2 E3] [F1 F2 F3] HD HC HDe HV HP HCo]. split; try done.
    + destruct P1 as [P1 P2]. split; intros m.
      * intros p. destruct (kinds_proj _ _ (Hk m)) as (-> & _ & -> & _). intros Hp Hd.
        eapply all_reads_impl; [|by apply P1]. intros d; simpl. by rewrite (kfr_readable _ _ d Hf).
      * destruct (kinds_proj _ _ (Hk m)) as (_ & -> & _). apply P2.
    + split; intros a b; destruct (Hcs b) as (_ & _ & _ & -> & _).
      * destruct (Hcs a) as (_ & _ & _ & _ & ->). apply E1.
      * destruct (kinds_proj _ _ (Hk a)) as (_ & _ & _ & _ & -> & _). apply E2.
      * destruct (kinds_proj _ _ (Hk b)) as (_ & _ & _ & -> & _). apply E3.
    + split; intros m; destruct (Hcs m) as (-> & D1 & D2 & _); rewrite ?D1, ?D2; auto.
      destruct (kinds_proj _ _ (Hk m)) as (_ & _ & -> & _). apply F3.
    + intros d m. unfold stale. destruct (Hcs d) as (-> & _ & _ & -> & _).
      destruct (Hcs m) as (-> & _). destruct (kinds_proj _ _ (Hk d)) as (_ & _ & _ & _ & _ & -> & _).
      apply HD.
    + unfold c1. apply updn_count; [|done]. unfold cachedNow; simpl. by destruct (self _).
    + intros m d. rewrite (kfr_readable _ _ d Hf). destruct (Hcs m) as (_ & _ & _ & _ & ->).
      destruct (kinds_proj _ _ (Hk m)) as (_ & _ & _ & _ & _ & -> & _). apply HDe.
    + intros m. destruct (Hcs m) as (-> & _). intros Hm. destruct (decide (m = n)) as [->|].
      * unfold is_source, cachedNow in *. by destruct (self (getn c n)).
      * rewrite Hst by done. by apply HV.
    + intros m p u Hm. destruct (kinds_proj _ _ (Hk m)) as (-> & _ & -> & _).
      destruct (Hcs m) as (_ & _ & -> & _ & ->). intros Hp.
      rewrite Hst; cycle 1.
      { intros ->. unfold is_source, comp_of in *. by destruct (self (getn c n)). }
      intros Hd Hv Hfo Hdis. eapply eval_ext; [by apply (HCo m)|].
      intros d Hd'. unfold env. rewrite Hst; [done|]. intros ->. set_solver.
  - intros m Hm. rewrite Hg. case_decide; [subst m|by apply (k_next _ _ HK)].
    destruct (k_next _ _ HK n Hm) as (Hs & _). unfold is_source in Hsrc. by rewrite Hs in Hsrc.
  - intros m. pose proof (k_cl _ _ HK m) as Hc. rewrite Hg. case_decide; [|done].
    unfold cleanup_of in *; simpl. by destruct (self (getn c m)).
  - by apply (pend_ok_eq c), HK.
Qed.

Lemma cellChanged_ok n c :
  KInvB ({[n]} ∪ batchedCells c) c → is_source (getn c n) = true →
  amb c →
  keeps (cellChanged ord fl n) c.
Proof.
  intros HK Hsrc Ham. unfold cellChanged, keeps. case_decide as Hb.
  - eexists. split_and!; [done| |].
    + unfold KInv; simpl. by apply (KInvB_same _ c); try apply HK.
    + split; try done. simpl. lia.
  - destruct (invalidate_ok (batchedCells c) n c HK Hsrc) as (c1 & Hi & HK1 & Hf1 & Hbc).
    destruct (Hfl c1) as (c2 & Hf & HK2 & Hf2).
    { unfold KInv. by rewrite Hbc. }
    { by eapply amb_kfr. }
    exists c2. split_and!; [|done|by etrans]. unfold mbind, M_bind. by rewrite Hi.
Qed.

Lemma keeps_refl c : KInv c → keeps (λ c, Ok tt c) c.
Proof. intros HK. by exists c. Qed.

Lemma Set_ok n v c : at_ok c → keeps (Set_ ord fl n v) c.
Proof.
  intros [HK Ham]. unfold keeps, Set_. destruct (self (getn c n)) as [s| |] eqn:Es.
  - destruct (disposed _); [by apply keeps_refl|]. case_decide; [by apply keeps_refl|].
    assert (Hsrc : is_source (getn c n) = true) by (unfold is_source; by rewrite Es).
    destruct (source_write_ok n v c HK Hsrc) as [HK1 Hf1].
    match goal with |- ∃ c', cellChanged _ _ _ ?x = _ ∧ _ => set (c1 := x) in * end.
    destruct (cellChanged_ok n c1) as (c2 & Hc & HK2 & Hf2); [done| | |].
    + by destruct (kinds_proj _ _ (kf_kinds _ _ Hf1 n)) as (_ & _ & _ & _ & -> & _).
    + by eapply amb_kfr.
    + exists c2. split_and!; [done|done|by etrans].
  - by apply keeps_refl.
  - by apply keeps_refl.
Qed.

Lemma Merge_ok n v c : at_ok c → keeps (Merge ord fl n v) c.
Proof.
  intros Ha. unfold keeps, Merge. destruct (self (getn c n)).
  - by apply Set_ok.
  - by apply keeps_refl, Ha.
  - by apply keeps_refl, Ha.
Qed.

(** ** Batches *)

Lemma invalidate_all_ok l c :
  KInvB (list_to_set l) c →
  ∃ c', invalidate_all ord l c = Ok tt c' ∧ KInvB ∅ c' ∧ kfr c c' ∧
    batchedCells c' = batchedCells c.
Proof.
  revert c. induction l as [|n l IH]; intros c HK; simpl in *.
  - by exists c.
  - destruct (invalidate_ok (list_to_set l) n c HK) as (c1 & Hi & HK1 & Hf1 & Hb1).
    { apply (k_src _ _ HK). set_solver. }
    destruct (IH c1 HK1) as (c2 & Hi2 & HK2 & Hf2 & Hb2).
    exists c2. split_and!; [|done|by etrans|congruence]. unfold mbind, M_bind. by rewrite Hi.
Qed.

Lemma flushBatch_ok c :
  at_ok c → ∃ c', flushBatch ord fl c = Ok tt c' ∧ KInv c' ∧ kfr c c' ∧
    (batchDepth c = 0 → batchedCells c' = ∅).
Proof.
  intros [HK Ham]. unfold flushBatch. case_decide as Hb.
  - destruct (Hfl c HK Ham) as (c1 & H1 & HK1 & Hf1). exists c1. split_and!; [done..|].
    intros Hd. by apply (kf_batched _ _ Hf1).
  - set (c0 := with_batchedCells (λ _, ∅) c).
    assert (Hf0 : kfr c c0) by by split.
    assert (HK0 : KInvB (list_to_set (ord c (batchedCells c))) c0).
    { apply (KInvB_same _ c); try done; [by apply HK|].
      replace (list_to_set (ord c (batchedCells c)) : gset nat) with (batchedCells c); [done|].
      apply set_eq. intros x. by rewrite elem_of_list_to_set, elem_of_ord. }
    destruct (invalidate_all_ok _ c0 HK0) as (c1 & Hi & HK1 & Hf1 & Hb1).
    change (batchedCells c0) with (∅ : gset nat) in Hb1.
    assert (HKc1 : KInv c1) by (unfold KInv; by rewrite Hb1).
    destruct (Hfl c1 HKc1) as (c2 & H2 & HK2 & Hf2).
    { by eapply amb_kfr; [eapply amb_kfr|]. }
    exists c2. split_and!; [|done|by etrans; [|etrans]|].
    + unfold mbind, M_bind. by rewrite Hi.
    + intros Hd. apply (kf_batched _ _ Hf2); [|done]. by rewrite (kf_depth _ _ Hf1).
Qed.

Lemma Batch_ok fn c :
  at_ok c → (∀ c1, at_ok c1 → kfr (with_batchDepth S c) c1 → keeps fn c1) →
  keeps (Batch ord fl fn) c.
Proof.
  intros [HK Ham] Hfn. set (c1 := with_batchDepth S c).
  assert (HK1 : KInv c1).
  { apply (KInvB_same _ c); try done. apply HK. }
  destruct (Hfn c1) as (c2 & H2 & HK2 & Hf2); [done|done|].
  set (c3 := with_batchDepth pred c2).
  assert (Hd3 : batchDepth c3 = batchDepth c).
  { change (batchDepth c3) with (pred (batchDepth c2)). by rewrite (kf_depth _ _ Hf2). }
  assert (HK3 : KInv c3).
  { apply (KInvB_same _ c2); try done. apply HK2. }
  assert (Hk3 : ∀ m, kinds (getn c3 m) = kinds (getn c m)).
  { intros m. exact (kf_kinds _ _ Hf2 m). }
  assert (H3 : next c3 = next c ∧ flushingEffects c3 = flushingEffects c ∧
    drainBudget c3 = drainBudget c).
  { split_and!; [exact (kf_next _ _ Hf2)|exact (kf_flush _ _ Hf2)|exact (kf_budget _ _ Hf2)]. }
  destruct H3 as (Hn3 & Hfl3 & Hbu3).
  assert (Hb : Batch ord fl fn c =
    if decide (batchDepth c3 = 0) then flushBatch ord fl c3 else Ok tt c3).
  { unfold Batch, modify, mbind, M_bind, deferred. fold c1. rewrite H2. fold c3.
    case_decide; [|done]. destruct (flushBatch ord fl c3) as [[]| |]; done. }
  unfold keeps. rewrite Hb. case_decide as Hd.
  - destruct (flushBatch_ok c3) as (c4 & H4 & HK4 & Hf4 & Hb4).
    { split; [done|]. destruct Ham as (A1 & A2 & A3). unfold amb. split_and!; congruence. }
    exists c4. split_and!; [done|done|]. destruct Hf4. split; try congruence.
    intros _ _. by apply Hb4.
  - exists c3. split_and!; [done|done|]. split; try done. lia.
Qed.

(** ** Effect bodies *)

Definition live_parent cv c : Prop :=
  cv_live cv = true → is_effect (getn c (cv_node cv)) = true ∧ cv_node cv < next c.

Lemma live_parent_kfr cv c c' : kfr c c' → live_parent cv c → live_parent cv c'.
Proof.
  intros Hf H Hl. destruct (H Hl) as [H1 H2]. rewrite (kf_next _ _ Hf).
  by destruct (kinds_proj _ _ (kf_kinds _ _ Hf (cv_node cv))) as (_ & _ & _ & -> & _).
Qed.

Lemma Get_via_ok cv tracked d c :
  at_ok c → (tracked = true → cv_live cv = true) → live_parent cv c →
  readable (getn c d) = true →
  ∃ v c', Get_via zero rf cv tracked d c = Ok v c' ∧ KInv c' ∧ kfr c c' ∧
    stored (getn c' d) = Some v ∧ fresh (getn c' d) = true.
Proof.
  intros [HK (HF & HN & HD)] Hlive Hpar Hrd.
  assert (Hd : d < next c) by (by eapply readable_lt).
  set (par := if tracked then Some (cv_node cv) else None).
  destruct (getVia_ok zero reads R R_reads R_lt rf par d c ∅ (batchedCells c))
    as (v & c' & Hg & Hv & Hfr & HI & Hpf & _).
  - apply Hrf. lia.
  - apply HK.
  - unfold par. destruct tracked; [|done]. destruct (Hpar (Hlive eq_refl)) as [He _].
    simpl. unfold is_effect, is_source, cachedNow, is_cacheable in *. split_and!.
    + intros Heq. subst d. unfold readable, is_effect in Hrd.
      destruct (self (getn c (cv_node cv))); try done. by rewrite andb_false_r in Hrd.
    + by destruct (self _).
    + by destruct (self _).
    + by destruct (self _).
  - done.
  - set_solver.
  - intros. apply HK.
  - destruct (pf_KInv par (below R d) c c' HK HI Hpf) as (HK' & Hf' & _).
    { unfold par. destruct tracked; [|done]. intros p [= <-]. by apply Hpar, Hlive. }
    exists v, c'. split_and!; [|done..]. unfold Get_via, trackNode, par in *.
    destruct tracked; [|done]. by rewrite (Hlive eq_refl).
Qed.

Lemma eff_ok_kfr live p c c' :
  kfr c c' → eff_ok (λ d, readable (getn c d) = true) live p →
  eff_ok (λ d, readable (getn c' d) = true) live (p : @eff V).
Proof. intros Hf. apply eff_ok_impl. intros d. simpl. by rewrite (kfr_readable _ _ d Hf). Qed.

Lemma run_eff_ok cv p : ∀ c,
  at_ok c → eff_ok (λ d, readable (getn c d) = true) (cv_live cv) p → live_parent cv c →
  ∃ cl c', run_eff ord zero rf fl cv p c = Ok cl c' ∧ KInv c' ∧ kfr c c' ∧
    cleanup_ok (λ d, readable (getn c d) = true) cl.
Proof.
  assert (Hstep : ∀ (m : @M V unit) k c, at_ok c → keeps m c →
    (∀ c1, at_ok c1 → kfr c c1 → ∃ cl c', run_eff ord zero rf fl cv k c1 = Ok cl c' ∧ KInv c' ∧
      kfr c1 c' ∧ cleanup_ok (λ d, readable (getn c1 d) = true) cl) →
    ∃ cl c', (m;; run_eff ord zero rf fl cv k) c = Ok cl c' ∧ KInv c' ∧ kfr c c' ∧
      cleanup_ok (λ d, readable (getn c d) = true) cl).
  { intros m k c Ha (c1 & H1 & HK1 & Hf1) Hk.
    destruct (Hk c1) as (cl & c2 & H2 & HK2 & Hf2 & Hcl); [by eapply at_ok_kfr|done|].
    exists cl, c2. split_and!; [|done|by etrans|].
    - unfold mbind, M_bind. by rewrite H1.
    - eapply cleanup_ok_impl; [|exact Hcl]. intros d; simpl. by rewrite (kfr_readable _ _ d Hf1). }
  induction p as [cl|t d k IH|n v k IH|n v k IH|b IHb k IH|v k IH]; intros c Ha Hok Hpar;
    simpl in *.
  - exists cl, c. split_and!; [done|apply Ha|done|]. by destruct cl.
  - destruct Hok as (Hl & Hrd & Hk).
    destruct (Get_via_ok cv t d c Ha Hl Hpar Hrd) as (v & c1 & Hg & HK1 & Hf1 & _).
    destruct (IH v c1) as (cl & c2 & H2 & HK2 & Hf2 & Hcl).
    + by eapply at_ok_kfr.
    + by eapply eff_ok_kfr.
    + by eapply live_parent_kfr.
    + exists cl, c2. split_and!; [|done|by etrans|].
      * unfold mbind, M_bind. by rewrite Hg.
      * eapply cleanup_ok_impl; [|exact Hcl]. intros x; simpl. by rewrite (kfr_readable _ _ x Hf1).
  - apply Hstep; [done|by apply Set_ok|]. intros c1 Ha1 Hf1.
    apply IH; [done|by eapply eff_ok_kfr|by eapply live_parent_kfr].
  - apply Hstep; [done|by apply Merge_ok|]. intros c1 Ha1 Hf1.
    apply IH; [done|by eapply eff_ok_kfr|by eapply live_parent_kfr].
  - destruct Hok as [Hb Hk]. apply Hstep; [done| |].
    + apply Batch_ok; [done|]. intros c1 Ha1 Hf1.
      assert (Hrd1 : ∀ d, readable (getn c1 d) = readable (getn c d)).
      { intros d. by rewrite (kfr_readable _ _ d Hf1). }
      destruct (IHb c1 Ha1) as (cl & c2 & H2 & HK2 & Hf2 & _).
      * eapply eff_ok_impl; [|exact Hb]. intros d; simpl. by rewrite Hrd1.
      * eapply live_parent_kfr; [exact Hf1|]. exact Hpar.
      * exists c2. split_and!; [|done|done]. unfold mbind, M_bind. by rewrite H2.
    + intros c1 Ha1 Hf1. apply IH; [done|by eapply eff_ok_kfr|by eapply live_parent_kfr].
  - apply Hstep; [done| |].
    + exists (with_out (cons v) c). split_and!; [done| |by split].
      apply (KInvB_same _ c); try done; apply Ha.
    + intros c1 Ha1 Hf1. apply IH; [done|by eapply eff_ok_kfr|by eapply live_parent_kfr].
Qed.

Lemma run_cleanup_ok e cl c :
  at_ok c → cleanup_ok (λ d, readable (getn c d) = true) cl →
  keeps (run_cleanup ord zero rf fl e cl) c.
Proof.
  intros Ha Hcl. unfold keeps, run_cleanup. destruct cl as [p|]; [|by apply keeps_refl, Ha].
  destruct (run_eff_ok (close (MkCompute e 0 true)) p c Ha Hcl) as (r & c' & Hr & HK & Hf & _).
  { done. }
  exists c'. split_and!; [|done|done]. unfold mbind, M_bind. by rewrite Hr.
Qed.

(** ** Running one effect *)

Lemma effect_lt c e ef : KInv c → self (getn c e) = AEffect ef → active ef = true → e < next c.
Proof.
  intros HK He Ha. destruct (decide (e < next c)); [done|exfalso].
  destruct (k_next _ _ HK e) as (Hs & _); [lia|]. rewrite He in Hs. simplify_eq/=.
Qed.

Lemma keeps_modify f c : KInv (f c) → kfr c (f c) → keeps (modify f) c.
Proof. intros. by exists (f c). Qed.

Lemma detach_effect_ok e c : at_ok c → e < next c → is_effect (getn c e) = true →
  keeps (modify (detachUpstream e)) c.
Proof.
  intros (HK & _) Hlt He. apply keeps_modify.
  all: destruct (detachUpstream_ok reads R R_reads R_trans R_lt ∅ (batchedCells c) c e)
    as (HI & Hpf & _); [apply HK| | |].
  all: try (unfold is_effect, cachedNow, is_cacheable in *; by destruct (self _)).
  all: destruct (pf_KInv (Some e) (λ _, False) c (detachUpstream e c) HK HI Hpf) as (H1 & H2 & _);
    [by intros p [= <-]|done].
Qed.

Lemma effect_kfr c c' e : kfr c c' → is_effect (getn c' e) = is_effect (getn c e).
Proof. intros Hf. by destruct (kinds_proj _ _ (kf_kinds _ _ Hf e)) as (_ & _ & _ & -> & _). Qed.

Lemma upd_effect_keeps e f c :
  at_ok c → e < next c → (∀ ef, run (f ef) = run ef) →
  (∀ ef, self (getn c e) = AEffect ef →
    cleanup_ok (λ d, readable (getn c d) = true) (cleanup (f ef))) →
  keeps (modify (upd_effect e f)) c.
Proof.
  intros (HK & _) Hlt Hr Hcl.
  destruct (upd_effect_KInv e f c Hr Hcl) as [H1 H2]; [lia|done|]. by apply keeps_modify.
Qed.

Lemma old_cleanup_ok c e ef :
  KInv c → self (getn c e) = AEffect ef → cleanup_ok (λ d, readable (getn c d) = true) (cleanup ef).
Proof. intros HK He. pose proof (k_cl _ _ HK e) as H. unfold cleanup_of in H. by rewrite He in H. Qed.

Lemma rerun_body_ok e ef c :
  at_ok c → e < next c → is_effect (getn c e) = true → run_of (getn c e) = Some (run ef) →
  cleanup_ok (λ d, readable (getn c d) = true) (cleanup ef) →
  keeps (modify (detachUpstream e);;
         modify (upd_effect e (with_cleanup None));;
         run_cleanup ord zero rf fl e (cleanup ef);;
         cv ← newCompute e;
         cl ← run_eff ord zero rf fl cv (run ef);
         modify (upd_effect e (with_cleanup cl))) c.
Proof.
  intros Ha Hlt He Hrun Hcl.
  apply keeps_bind; [done|by apply detach_effect_ok|]. intros c1 Ha1 Hf1.
  assert (Hlt1 : e < next c1) by (by rewrite (kf_next _ _ Hf1)).
  apply keeps_bind; [done|by apply upd_effect_keeps|]. intros c2 Ha2 Hf2.
  assert (Hf02 : kfr c c2) by (by etrans).
  apply keeps_bind; [done| |].
  { apply run_cleanup_ok; [done|]. eapply cleanup_ok_impl; [|exact Hcl].
    intros d; simpl. by rewrite (kfr_readable _ _ d Hf02). }
  intros c3 Ha3 Hf3. assert (Hf03 : kfr c c3) by (by etrans).
  set (g := u64 (computeGen c3 + 1)). set (c4 := with_computeGen (λ _, g) c3).
  assert (HK4 : KInv c4) by (apply (KInvB_same _ c3); try done; apply Ha3).
  assert (Hf4 : kfr c c4) by (etrans; [exact Hf03|by split]).
  assert (Ha4 : at_ok c4) by (by eapply at_ok_kfr).
  destruct (run_eff_ok (MkCompute e g true) (run ef) c4 Ha4) as (cl & c5 & H5 & HK5 & Hf5 & Hcl5).
  { eapply eff_ok_kfr; [exact Hf4|]. apply (k_eff _ _ (proj1 Ha) e). done. }
  { intros _. change (cv_node (MkCompute e g true)) with e.
    by rewrite (effect_kfr _ _ _ Hf4), (kf_next _ _ Hf4). }
  assert (Ha5 : at_ok c5) by (by eapply at_ok_kfr).
  destruct (upd_effect_keeps e (with_cleanup cl) c5 Ha5) as (c6 & H6 & HK6 & Hf6).
  { by rewrite (kf_next _ _ Hf5), (kf_next _ _ Hf4). }
  { done. }
  { intros ef' _. simpl. eapply cleanup_ok_impl; [|exact Hcl5]. intros d; simpl.
    by rewrite (kfr_readable _ _ d Hf5). }
  exists c6. split_and!; [|done|].
  - unfold mbind, M_bind, newCompute. fold g c4. by rewrite H5.
  - etrans; [|exact Hf6]. etrans; [|exact Hf5]. by split.
Qed.

Lemma rerun_ok e c : at_ok c → keeps (rerun ord zero rf fl e) c.
Proof.
  intros Ha. unfold keeps, rerun. destruct (self (getn c e)) as [| |ef] eqn:Es;
    [by apply keeps_refl, Ha..|].
  destruct (active ef) eqn:Eact; simpl; [|by apply keeps_refl, Ha].
  destruct (running ef); simpl; [by apply keeps_refl, Ha|].
  assert (Hlt : e < next c) by (eapply effect_lt; [apply Ha|done|done]).
  assert (Heff : is_effect (getn c e) = true) by (unfold is_effect; by rewrite Es).
  assert (Hcl : cleanup_ok (λ d, readable (getn c d) = true) (cleanup ef)).
  { eapply old_cleanup_ok; [apply Ha|done]. }
  destruct (upd_effect_keeps e (with_running true) c Ha Hlt) as (c1 & H1 & HK1 & Hf1); [done| |].
  { intros ef' He'. assert (ef' = ef) as -> by congruence. done. }
  injection H1 as H1.
  assert (Ha1 : at_ok c1) by (by eapply at_ok_kfr).
  destruct (rerun_body_ok e ef c1) as (c2 & H2 & HK2 & Hf2).
  { done. }
  { by rewrite (kf_next _ _ Hf1). }
  { by rewrite (effect_kfr _ _ _ Hf1). }
  { rewrite (kfr_run _ _ _ Hf1). unfold run_of. by rewrite Es. }
  { eapply cleanup_ok_impl; [|exact Hcl]. intros d; simpl. by rewrite (kfr_readable _ _ d Hf1). }
  assert (Ha2 : at_ok c2) by (by eapply at_ok_kfr).
  destruct (upd_effect_keeps e (with_running false) c2 Ha2) as (c3 & H3 & HK3 & Hf3).
  { by rewrite (kf_next _ _ Hf2), (kf_next _ _ Hf1). }
  { done. }
  { intros ef' He'. simpl. eapply old_cleanup_ok; [exact HK2|exact He']. }
  exists c3. split_and!; [|done|by etrans; [|etrans]].
  unfold mbind at 1, M_bind at 1. unfold modify at 1. rewrite H1.
  unfold deferred. rewrite H2. by rewrite H3.
Qed.

(** ** The drain *)

Lemma drain_pop_ok o rest c :
  at_ok c → pendingEffects c = o :: rest →
  ∃ r c', drain_pop ord rf o rest c = Ok r c' ∧ KInv c' ∧ kfr c c' ∧ pendingEffects c' = rest.
Proof.
  intros [HK Ham] Hp. pose proof Ham as (HF & HN & HD).
  destruct (k_pend _ _ HK) as (l & Hl & Hnd & Hs & Hlt).
  rewrite Hp in Hl. destruct l as [|e l]; [done|]. simpl in Hl. injection Hl as -> Hrest.
  apply NoDup_cons in Hnd as [Hel Hnd]. unfold drain_pop.
  set (c1 := with_pending id (λ s, s ∖ {[e]}) (with_pending (λ _, rest) id c)).
  assert (HK1 : KInv c1).
  { apply (KInvB_same _ c); try done. exists l. split_and!; [done|done| |].
    - intros x. simpl. unfold id. rewrite elem_of_difference, elem_of_singleton, <-Hs, elem_of_cons.
      split; [intros Hx; split; [by right|by intros ->]|]. intros [[->|Hx] Hne]; done.
    - intros x Hx. apply Hlt. by right. }
  assert (Hf1 : kfr c c1) by (by split).
  assert (Ha1 : at_ok c1) by (eapply at_ok_kfr; [by split|done|done]).
  destruct (self (getn c1 e)) as [| |ef] eqn:Es; [by exists None, c1..|].
  destruct (upd_effect_keeps e (with_forceRun false) c1 Ha1) as (c2 & H2 & HK2 & Hf2).
  { apply Hlt, list_elem_of_here. }
  { done. }
  { intros ef' He'. simpl. eapply old_cleanup_ok; [exact HK1|exact He']. }
  injection H2 as H2. rewrite H2.
  assert (Hp2 : pendingEffects c2 = rest) by (by rewrite <-H2).
  assert (Hf12 : kfr c c2) by (by etrans).
  destruct (negb (forceRun ef) && active ef); [|by exists (Some e), c2].
  destruct (refresh_all_ok reads R rf (λ _, True) (ord c2 (dependencies (getn c2 e))) false c2 ∅
    (batchedCells c2)) as (b & c3 & H3 & HI3 & Hpf3 & _).
  { intros d Hd%elem_of_ord; [|done].
    destruct (i_deps _ _ _ _ (k_inv _ _ HK2) e d Hd) as [Hrd _]. split_and!; [|done|set_solver| |done].
    - apply Hrf. apply (readable_lt _ _ _ HK2) in Hrd. rewrite (kf_next _ _ Hf12) in Hrd. lia.
    - intros. apply HK2. }
  { apply HK2. }
  destruct (pf_KInv None _ c2 c3 HK2 HI3 Hpf3) as (HK3 & Hf3 & Hpe); [done|].
  exists (if b then Some e else None), c3. split_and!; [|done|by etrans|].
  - unfold mbind, M_bind. rewrite H3. by destruct b.
  - unfold pend in Hpe. injection Hpe as Hpe _. congruence.
Qed.

Lemma pend_length c : pend_ok c → length (pendingEffects c) ≤ next c.
Proof.
  intros (l & -> & Hnd & _ & Hlt). rewrite length_fmap, <-(length_seq (next c) 0).
  apply submseteq_length, NoDup_submseteq; [done|]. intros x Hx. apply elem_of_seq.
  specialize (Hlt x Hx). lia.
Qed.

(** Work left in the drain: at most [next] entries between two effect runs, and
    the budget bounds the runs. *)
Lemma drain_ok steps : ∀ it c,
  at_ok c →
  (Z.to_nat (DrainBudget c) - it) * S (next c) + length (pendingEffects c) ≤ steps →
  keeps (drain ord zero rf fl steps it) c.
Proof.
  induction steps as [|steps IH]; intros it c Ha Hsteps; unfold keeps; simpl;
    destruct (pendingEffects c) as [|o rest] eqn:Ep.
  - by apply keeps_refl, Ha.
  - simpl in Hsteps. exfalso. clear -Hsteps. destruct (_ * _); simpl in Hsteps; lia.
  - by apply keeps_refl, Ha.
  - destruct (drain_pop_ok o rest c Ha Ep) as (r & c1 & H1 & HK1 & Hf1 & Hp1).
    assert (Ha1 : at_ok c1) by (by eapply at_ok_kfr).
    assert (Hb1 : DrainBudget c1 = DrainBudget c).
    { unfold DrainBudget. by rewrite (kf_budget _ _ Hf1). }
    unfold mbind at 1, M_bind at 1. rewrite H1. destruct r as [e|].
    + set (c2 := with_drain _ (partial_alter _ _ _) _ _ c1).
      assert (HK2 : KInv c2) by (apply (KInvB_same _ c1); try done; apply HK1).
      assert (Hf2 : kfr c1 c2) by (by split).
      assert (Ha2 : at_ok c2) by (by eapply at_ok_kfr).
      destruct (DrainBudget c2 <=? Z.of_nat (S it))%Z eqn:Eb.
      * eexists. split_and!; [done| |].
        -- apply (KInvB_same _ c2); try done. apply HK2.
        -- etrans; [exact Hf1|]. by split.
      * apply Z.leb_gt in Eb.
        destruct (rerun_ok e c2 Ha2) as (c3 & H3 & HK3 & Hf3).
        assert (Ha3 : at_ok c3) by (by eapply at_ok_kfr).
        assert (Hn3 : next c3 = next c).
        { rewrite (kf_next _ _ Hf3). change (next c2) with (next c1). apply Hf1. }
        assert (Hb3 : DrainBudget c3 = DrainBudget c).
        { unfold DrainBudget. rewrite (kf_budget _ _ Hf3). change (drainBudget c2) with (drainBudget c1).
          apply Hb1. }
        change (DrainBudget c2) with (DrainBudget c1) in Eb.
        destruct (IH (S it) c3 Ha3) as (c4 & H4 & HK4 & Hf4).
        { pose proof (pend_length c3 (k_pend _ _ HK3)). rewrite Hb3, Hn3 in *.
          rewrite Hb1 in Eb. simpl in Hsteps.
          assert (Z.to_nat (DrainBudget c) - it = S (Z.to_nat (DrainBudget c) - S it)) by lia.
          nia. }
        exists c4. split_and!; [|done|].
        -- unfold mbind, M_bind. rewrite H3. exact H4.
        -- etrans; [exact Hf1|]. etrans; [exact Hf2|]. by etrans.
    + destruct (IH it c1 Ha1) as (c4 & H4 & HK4 & Hf4).
      { rewrite Hb1, Hp1, (kf_next _ _ Hf1). simpl in Hsteps. lia. }
      exists c4. split_and!; [done|done|by etrans].
Qed.
End effects.

(** ** The flush *)

(** Enough fuel for a flush: [next] refreshes deep, and between two of at most
    [budget] effect runs at most one pop per node. *)
Definition flush_fuel (n : nat) (b : Z) : nat :=
  S (Z.to_nat (if (b <=? 0)%Z then DefaultDrainBudget else b) * S n + n).

Lemma flush_nested fuel N D : fl_ok (flushEffects ord zero (S fuel)) true N D.
Proof. intros c HK (HF & _). exists c. simpl. by rewrite HF. Qed.

Lemma budget_pos c : 1 ≤ Z.to_nat (DrainBudget c).
Proof.
  unfold DrainBudget. destruct (drainBudget c <=? 0)%Z eqn:E.
  - unfold DefaultDrainBudget. lia.
  - apply Z.leb_gt in E. lia.
Qed.

Lemma flushEffects_S fuel c :
  flushEffects ord zero (S fuel) c =
  if flushingEffects c then Ok tt c
  else deferred
    (modify (λ c, with_drain (drainBudget c) ∅ [] (lastDrainExhaustion c) (with_flushing true c));;
     drain ord zero (refresh ord zero fuel) (flushEffects ord zero fuel) fuel 0)
    (modify (with_flushing false)) c.
Proof. done. Qed.

Lemma flushEffects_ok F N D fuel :
  flush_fuel N D ≤ fuel → fl_ok (flushEffects ord zero fuel) F N D.
Proof.
  intros Hfuel c HK (HF & HN & HD).
  assert (Hbu : flush_fuel N D = S (Z.to_nat (DrainBudget c) * S N + N)).
  { unfold flush_fuel, DrainBudget. by rewrite HD. }
  pose proof (budget_pos c) as Hpos.
  destruct fuel as [|[|fuel]]; [unfold flush_fuel in *; lia|rewrite Hbu in Hfuel; nia|].
  rewrite flushEffects_S. destruct (flushingEffects c) eqn:Ef; [by exists c|].
  set (c1 := with_drain (drainBudget c) ∅ [] (lastDrainExhaustion c) (with_flushing true c)).
  assert (HK1 : KInv c1) by (apply (KInvB_same _ c); try done; apply HK).
  assert (Ha1 : at_ok true N D c1) by done.
  destruct (drain_ok (refresh ord zero (S fuel)) (flushEffects ord zero (S fuel)) true N D) with
    (steps := S fuel) (it := 0) (c := c1) as (c2 & H2 & HK2 & Hf2); [| |done| |].
  - intros d Hd. apply refresh_correct; try done. rewrite Hbu in Hfuel. nia.
  - apply flush_nested.
  - pose proof (pend_length c1 (k_pend _ _ HK1)) as Hl.
    change (DrainBudget c1) with (DrainBudget c). change (next c1) with (next c) in *.
    rewrite Hbu in Hfuel. nia.
  - exists (with_flushing false c2). split_and!.
    + unfold deferred, mbind, M_bind, modify. fold c1. by rewrite H2.
    + apply (KInvB_same _ c2); try done. apply HK2.
    + destruct Hf2. by split.
Qed.
End ordered.
End run.
