(* ===== verification/KernelHistory.v ===== *)
(** * KernelHistory: the kernel's contract over whole histories (core.go)

    A history is any sequence of [NewSource], [NewSlot], [NewComputed], [NewEffect],
    [Set], [Merge], [Batch], [SetDrainBudget] and [Get] of a program whose computes
    read earlier, live nodes through their view; disposal, [Eager], [Lazy] and
    [Clear] are not in it.  No operation panics or runs out of fuel, and every read
    returns the value the graph denotes for the current sources, provided Go
    ranges over a node's dependency set in a [PullOrder].  For a program in which no
    node reads both a node and one below it, every order is one
    ([shortcut_free_order]); for one that does, some orders give a stale read
    ([refresh_order_matters] in KernelDispose).  The files KernelMark, KernelPull
    and KernelRun prove it one method at a time. *)

From S2P Require Import Prelude Kernel KernelMark KernelPull KernelRun.
From Stdlib Require Import Sorting.Sorted.

(** What the theorems ask of Go's choice of iteration order, which Go leaves open:
    a set is visited in some order, and a node's dependencies with those below
    another one first.  [reads] is the static read relation and [R] a well-founded
    transitive relation containing it. *)
Class PullOrder {V} (ord : @ctx V → gset nat → list nat) (reads R : nat → nat → Prop) : Prop := {
  po_perm c s : ord c s ≡ₚ elements s;
  po_reads n d : reads n d → R n d;
  po_trans a b d : R a b → R b d → R a d;
  po_lt n d : R n d → d < n;
  po_below c n s : (∀ d, d ∈ s → reads n d) → StronglySorted (λ a b, ¬ R a b) (ord c s);
}.

Definition ascending {V} (_ : @ctx V) (s : gset nat) : list nat := merge_sort Nat.le (elements s).
Definition earlier (n d : nat) : Prop := d < n.

#[export] Instance ascending_order {V} : PullOrder (@ascending V) earlier earlier.
Proof.
  unfold ascending, earlier. split; try (intros; lia).
  - intros c s. apply merge_sort_Permutation.
  - intros c n s _. assert (Hs : StronglySorted Nat.le (merge_sort Nat.le (elements s))).
    { apply StronglySorted_merge_sort; repeat intro; unfold Nat.le in *; lia. }
    induction Hs as [|a l _ IH Ha]; constructor; [done|].
    eapply Forall_impl; [exact Ha|]. intros b. simpl. unfold Nat.le. lia.
Qed.

(** When no dependency of a node is below another one, every order will do. *)
Definition shortcut_free (reads R : nat → nat → Prop) : Prop :=
  ∀ n a b, reads n a → reads n b → ¬ R a b.

Lemma shortcut_free_order {V} (ord : @ctx V → gset nat → list nat) reads R :
  (∀ c s, ord c s ≡ₚ elements s) →
  (∀ n d, reads n d → R n d) → (∀ a b d, R a b → R b d → R a d) → (∀ n d, R n d → d < n) →
  shortcut_free reads R → PullOrder ord reads R.
Proof.
  intros Hp H1 H2 H3 Hs. split; try done. intros c n s Hd.
  assert (Hm : ∀ x, x ∈ ord c s → reads n x).
  { intros x. rewrite Hp, elem_of_elements. apply Hd. }
  clear Hd. induction (ord c s) as [|a l IH]; [constructor|]. constructor.
  - apply IH. intros x Hx. apply Hm. by right.
  - apply Forall_forall. intros b Hb. eapply Hs; apply Hm; [apply list_elem_of_here|by right].
Qed.

Section history.
Context {V : Type} `{EqDecision V} (zero : V).
Context (ord : @ctx V → gset nat → list nat) (reads R : nat → nat → Prop)
  `{HO : !PullOrder ord reads R}.
Implicit Types (c : @ctx V) (nd : @node V) (n d m : nat).

Inductive op :=
  | ONewSource (v : V) (policy : V → V → V)
  | ONewSlot (p : @comp V)
  | ONewComputed (p : @comp V)
  | ONewEffect (body : @eff V)
  | OSet (n : nat) (v : V)
  | OMerge (n : nat) (v : V)
  | OBatch (body : @eff V)
  | OSetDrainBudget (n : Z)
  | OGet (n : nat).

(** A batch body runs with the context, an untracked surface. *)
Definition batch_body (fuel : nat) (body : @eff V) : @M V unit :=
  _ ← run_eff ord zero (refresh ord zero fuel) (flushEffects ord zero fuel)
        (close (MkCompute 0 0 true)) body;
  mret tt.

Definition exec (fuel : nat) (o : op) : @M V (option V) :=
  match o with
  | ONewSource v policy => _ ← NewSourceWithPolicy v policy; mret None
  | ONewSlot p => _ ← NewSlot p; mret None
  | ONewComputed p => _ ← NewComputed p; mret None
  | ONewEffect body => _ ← NewEffect ord zero fuel body; mret None
  | OSet n v => Set' ord zero fuel n v;; mret None
  | OMerge n v => Merge' ord zero fuel n v;; mret None
  | OBatch body =>
      Batch' ord zero fuel (batch_body fuel body);; mret None
  | OSetDrainBudget n => modify (SetDrainBudget n);; mret None
  | OGet n => v ← Get ord zero fuel n; mret (Some v)
  end.

Definition op_ok c (o : op) : Prop :=
  match o with
  | ONewSlot p | ONewComputed p =>
      all_reads (λ d, reads (next c) d ∧ readable (getn c d) = true) p
  | ONewEffect body => eff_ok (λ d, readable (getn c d) = true) true body
  | OBatch body => eff_ok (λ d, readable (getn c d) = true) false body
  | OGet n => readable (getn c n) = true
  | _ => True
  end.

(** Between top-level operations. *)
Definition Top c : Prop :=
  KInv reads c ∧ batchDepth c = 0 ∧ batchedCells c = ∅ ∧ flushingEffects c = false.

(** Fuel that always suffices for the next operation. *)
Definition op_fuel c : nat := flush_fuel (S (next c)) (drainBudget c).

(** ** Allocation *)

Definition fresh_node (p : concrete) nd : Prop :=
  self nd = p ∧ dependents nd = ∅ ∧ dependencies nd = ∅ ∧ disposed nd = false ∧
  dirty nd = false ∧ forceRecompute nd = false.

Lemma k_dependents B c m : KInvB reads B c → next c ≤ m → dependents (getn c m) = ∅.
Proof.
  intros HK Hm. apply set_eq. intros a. split; [|set_solver]. intros Ha.
  apply (e_eff _ (i_edges _ _ _ _ (k_inv _ _ _ HK))) in Ha.
  destruct (k_next _ _ _ HK m Hm) as (Hs & _). unfold is_effect in Ha. by rewrite Hs in Ha.
Qed.

Lemma alloc_KInv p c c' :
  KInv reads c → (∀ m, m ≠ next c → getn c' m = getn c m) → fresh_node p (getn c' (next c)) →
  next c' = S (next c) → pend c' = pend c → batchedCells c' = batchedCells c → count_ok c' →
  match p with
  | ASource _ => True
  | AComputed k => value k = None ∧ cached k = false ∧ refreshing k = false ∧
      all_reads (λ d, reads (next c) d ∧ readable (getn c d) = true) (compute k) ∧
      (∀ eq u v, equals k = Some eq → eq u v = true → u = v)
  | AEffect ef => cleanup ef = None ∧ eff_ok (λ d, readable (getn c d) = true) true (run ef)
  end →
  KInv reads c'.
Proof.
  intros HK Hoth (Fs & Fd & Fe & Fi & Fdi & Ff) Hnx Hp Hb Hc Hk.
  assert (Hrd : ∀ d, readable (getn c d) = true → readable (getn c' d) = true).
  { intros d Hd. rewrite Hoth; [done|]. apply (readable_lt _ _ _ _ HK) in Hd. lia. }
  assert (Hun : cachedNow (getn c' (next c)) = false).
  { unfold cachedNow. rewrite Fs. destruct p; [done| |done]. by destruct Hk as (_ & -> & _). }
  assert (Hdep : ∀ a b, a ∈ dependents (getn c' b) →
    a ≠ next c ∧ b ≠ next c ∧ a ∈ dependents (getn c b)).
  { intros a b Ha. destruct (decide (b = next c)) as [->|Hb']; [rewrite Fd in Ha; set_solver|].
    rewrite Hoth in Ha by done. split_and!; [|done|done]. apply (k_lt _ _ _ _ _ HK) in Ha. lia. }
  destruct HK as [HI H2 H3 H4 H5 H6 H7]. unfold KInv. rewrite Hb. split.
  - destruct HI as [[P1 P2] [E1 E2 E3] [F1 F2 F3] HD _ HDe HV HP HC]. split; [split|split|split|..].
    + intros n q. destruct (decide (n = next c)) as [->|Hn].
      * unfold comp_of. rewrite Fs. destruct p as [s|k|ef]; [done| |done]. intros [= <-] _.
        destruct Hk as (_ & _ & _ & Hk & _). eapply all_reads_impl; [|exact Hk].
        intros d [? ?]. auto.
      * rewrite Hoth by done. intros Hq Hd. eapply all_reads_impl; [|by apply P1].
        intros d [? ?]. auto.
    + intros n eq u v. destruct (decide (n = next c)) as [->|Hn].
      * unfold guard_of. rewrite Fs. destruct p as [s|k|ef]; [done| |done].
        intros He. by apply Hk.
      * rewrite Hoth by done. apply P2.
    + intros a b. split.
      * intros Hin. destruct (Hdep _ _ Hin) as (Ha & Hb' & Hin'). rewrite Hoth by done. by apply E1.
      * destruct (decide (a = next c)) as [->|Ha]; [rewrite Fe; set_solver|].
        rewrite Hoth by done. intros Hin%E1.
        destruct (decide (b = next c)) as [->|Hb']; [|by rewrite Hoth].
        apply E3 in Hin. destruct (H3 (next c)) as (Hs & _); [lia|].
        unfold is_effect in Hin. by rewrite Hs in Hin.
    + intros a b Hin. destruct (Hdep _ _ Hin) as (Ha & _ & Hin'). rewrite Hoth by done. by eapply E2.
    + intros a b Hin. destruct (Hdep _ _ Hin) as (_ & Hb' & Hin'). rewrite Hoth by done. by eapply E3.
    + intros n. destruct (decide (n = next c)) as [->|Hn]; [done|]. rewrite Hoth by done. apply F1.
    + intros n. destruct (decide (n = next c)) as [->|Hn]; [done|]. rewrite Hoth by done. apply F2.
    + intros n. destruct (decide (n = next c)) as [->|Hn]; [done|]. rewrite Hoth by done. apply F3.
    + intros d n Hin. destruct (Hdep _ _ Hin) as (Hn & Hd & Hin'). rewrite !Hoth by done.
      by apply HD.
    + done.
    + intros n d. destruct (decide (n = next c)) as [->|Hn]; [rewrite Fe; set_solver|].
      rewrite Hoth by done. intros Hin. destruct (HDe n d Hin). auto.
    + intros n. destruct (decide (n = next c)) as [->|Hn]; [by rewrite Hun|].
      rewrite Hoth by done. apply HV.
    + intros n. set_solver.
    + intros n q v HnP. destruct (decide (n = next c)) as [->|Hn].
      * unfold comp_of, stored. rewrite Fs. destruct p as [s|k|ef]; [done| |done].
        intros _ _ Hv. destruct Hk as (Hk & _). congruence.
      * rewrite Hoth by done. intros Hq Hd Hv Hf Hdis.
        eapply eval_ext; [by eapply HC|]. intros d Hin. unfold env.
        destruct (decide (d = next c)) as [->|Hdn]; [|by rewrite Hoth].
        destruct (HDe n (next c) Hin) as [Hr _]. unfold readable in Hr.
        destruct (H3 (next c)) as (_ & Hx & _); [lia|]. by rewrite Hx in Hr.
  - intros m. destruct (decide (m = next c)) as [->|Hm]; [|rewrite Hoth by done; apply H2].
    unfold refreshing_of. rewrite Fs. destruct p; [done| |done]. apply Hk.
  - intros m. rewrite Hnx. intros Hm. rewrite Hoth by lia. apply H3. lia.
  - intros s Hs. destruct (decide (s = next c)) as [->|Hsn]; [|rewrite Hoth by done; by apply H4].
    specialize (H4 _ Hs). destruct (H3 (next c)) as (Hx & _); [lia|].
    unfold is_source in H4. by rewrite Hx in H4.
  - intros e q. destruct (decide (e = next c)) as [->|He].
    + unfold run_of. rewrite Fs. destruct p as [| |ef]; [done..|]. intros [= <-].
      eapply eff_ok_impl; [|apply Hk]. auto.
    + rewrite Hoth by done. intros Hq. eapply eff_ok_impl; [|by apply (H5 e)]. auto.
  - intros e. destruct (decide (e = next c)) as [->|He].
    + unfold cleanup_of. rewrite Fs. destruct p as [| |ef]; [done..|]. by destruct Hk as [-> _].
    + rewrite Hoth by done. eapply cleanup_ok_impl; [|apply H6]. auto.
  - destruct H7 as (l & L1 & L2 & L3 & L4). injection Hp as Hp1 Hp2. exists l.
    rewrite Hp1, Hp2, Hnx. split_and!; [done..|]. intros x Hx. specialize (L4 x Hx). lia.
Qed.

(** [alloc] then [registerNode]. *)
Definition born (p : concrete) (kind : occupantKind) c : ctx :=
  registerNode (next c) kind (alloc p c).2.

Lemma born_facts p kind c :
  (∀ m, m ≠ next c → getn (born p kind c) m = getn c m) ∧
  fresh_node p (getn (born p kind c) (next c)) ∧
  next (born p kind c) = S (next c) ∧ pend (born p kind c) = pend c ∧
  batchedCells (born p kind c) = batchedCells c ∧ batchDepth (born p kind c) = batchDepth c ∧
  flushingEffects (born p kind c) = flushingEffects c ∧
  drainBudget (born p kind c) = drainBudget c.
Proof.
  unfold born, registerNode, alloc. cbn [fst snd].
  set (a := with_next S _).
  assert (Ha : ∀ g i x m, getn (with_arena (V := V) g i x) m = getn x m) by done.
  assert (Han : ∀ m, getn a m = if decide (m = next c) then newReactiveBase p else getn c m).
  { intros m. unfold a. change (getn (with_next ?f ?x)) with (getn x). apply getn_updn. }
  destruct (freeNodeSlots a) as [|i free]; cbn [fst snd].
  - split_and!; try done.
    + intros m Hm. by rewrite getn_updn, decide_False, !Ha, Han, decide_False.
    + by rewrite getn_updn_eq, !Ha, Han, decide_True.
  - split_and!; try done.
    + intros m Hm. by rewrite getn_updn, decide_False, !Ha, Han, decide_False.
    + by rewrite getn_updn_eq, !Ha, Han, decide_True.
Qed.

Lemma born_count p kind B c :
  KInvB reads B c → (∀ k, p = AComputed k → cached k = false) → count_ok (born p kind c).
Proof.
  intros HK Hp. unfold born, registerNode, alloc. cbn [fst snd].
  set (a := with_next S _).
  assert (Ha : count_ok a).
  { unfold a. change (count_ok (with_next S ?x)) with (count_ok x). apply updn_count; [|apply HK].
    destruct (k_next _ _ _ HK (next c)) as (Hs & _); [lia|]. unfold cachedNow at 2. rewrite Hs.
    unfold cachedNow; simpl. destruct p; [done| |done]. by apply Hp. }
  destruct (freeNodeSlots a) as [|i free]; cbn [fst snd]; by apply updn_count.
Qed.

(** ** One operation *)

Lemma register_slot_KInv n c :
  KInv reads c → n < next c → KInv reads (registerSlot n c) ∧
  (Top c → Top (registerSlot n c)).
Proof.
  intros HK Hn.
  assert (Hg : ∀ m, obs (getn (registerSlot n c) m) = obs (getn c m) ∧
    kinds (getn (registerSlot n c) m) = kinds (getn c m) ∧
    cleanup_of (getn (registerSlot n c) m) = cleanup_of (getn c m) ∧
    (unalloc (getn c m) → unalloc (getn (registerSlot n c) m))).
  { intros m. unfold registerSlot. change (getn (with_slots ?f ?x)) with (getn x).
    rewrite getn_updn. by case_decide; subst. }
  assert (HK' : KInv reads (registerSlot n c)).
  { eapply (KInvB_frame reads (batchedCells c)); [exact HK| |done| | | |].
    - eapply Inv_obs; [intros m; apply Hg| |apply HK]. by apply updn_count, HK.
    - split; try done. apply Hg.
    - intros m Hm. apply Hg. by apply (k_next _ _ _ HK).
    - intros e. destruct (Hg e) as (_ & _ & -> & _). apply HK.
    - by apply (pend_ok_eq c), HK. }
  split; [done|]. by intros (_ & H).
Qed.

Lemma new_computed_ok p eq c :
  Top c → all_reads (λ d, reads (next c) d ∧ readable (getn c d) = true) p →
  (∀ g u v, eq = Some g → g u v = true → u = v) →
  ∃ c', new_computed p eq c = Ok (next c) c' ∧ Top c' ∧ next c' = S (next c) ∧
    drainBudget c' = drainBudget c.
Proof.
  intros (HK & Hd & Hb & Hf) Hp Heq.
  destruct (born_facts (AComputed (MkComputed p eq None false false false)) occupantComputed c)
    as (B1 & B2 & B3 & B4 & B5 & B6 & B7 & B8).
  set (c1 := born _ _ c) in *.
  assert (HK1 : KInv reads c1).
  { eapply alloc_KInv; [exact HK|exact B1|exact B2|done..| |].
    - eapply born_count; [exact HK|]. by intros k [= <-].
    - done. }
  destruct (register_slot_KInv (next c) c1 HK1) as [HK2 HT]; [lia|].
  exists (registerSlot (next c) c1). split_and!; [done| |done|done].
  apply HT. split_and!; congruence.
Qed.

Lemma new_source_ok v policy c :
  Top c → ∃ c', NewSourceWithPolicy v policy c = Ok (next c) c' ∧ Top c' ∧
    next c' = S (next c) ∧ drainBudget c' = drainBudget c.
Proof.
  intros (HK & Hd & Hb & Hf).
  destruct (born_facts (ASource (MkSource v policy)) occupantSource c)
    as (B1 & B2 & B3 & B4 & B5 & B6 & B7 & B8).
  exists (born (ASource (MkSource v policy)) occupantSource c). split_and!; [done| |done|done].
  split_and!; [|congruence..]. eapply alloc_KInv; [exact HK|exact B1|exact B2|done..| |done].
  eapply born_count; [exact HK|done].
Qed.

(** A top-level action that keeps the invariant keeps the context at rest. *)
Lemma keeps_Top (m : @M V unit) c :
  Top c → keeps reads m c →
  ∃ c', m c = Ok tt c' ∧ Top c' ∧ next c' = next c ∧ drainBudget c' = drainBudget c.
Proof.
  intros (HK & Hd & Hb & Hf) (c' & Hm & HK' & Hfr). exists c'. split_and!; [done| |apply Hfr..].
  split_and!; [done| | |].
  - by rewrite (kf_depth _ _ Hfr).
  - by apply (kf_batched _ _ Hfr).
  - by rewrite (kf_flush _ _ Hfr).
Qed.

(** Discharge the order hypotheses from the class. *)
Ltac po := first [exact po_perm | exact po_reads | exact po_trans | exact po_lt | exact po_below
                 | idtac].

Section exec.
Context (fuel : nat) (c : @ctx V) (Hfuel : op_fuel c ≤ fuel) (HT : Top c).

Lemma exec_fl : fl_ok reads (flushEffects ord zero fuel) false (S (next c)) (drainBudget c).
Proof using All.
  eapply flushEffects_ok; po. exact Hfuel.
Qed.

Lemma exec_rf d : d < S (next c) → refresh_ok reads R (refresh ord zero fuel) d.
Proof using All.
  intros Hd. eapply refresh_correct; po.
  unfold op_fuel, flush_fuel in Hfuel. lia.
Qed.

Lemma exec_at : at_ok reads false (S (next c)) (drainBudget c) c.
Proof using All.
  destruct HT as (HK & _ & _ & Hf). split; [done|]. split_and!; [done|lia|done].
Qed.

Lemma exec_Set n v : keeps reads (Set' ord zero fuel n v) c.
Proof using All.
  eapply Set_ok; po; [exact exec_rf|exact exec_fl|exact exec_at].
Qed.

Lemma exec_Merge n v : keeps reads (Merge' ord zero fuel n v) c.
Proof using All.
  eapply Merge_ok; po; [exact exec_rf|exact exec_fl|exact exec_at].
Qed.

Lemma exec_Batch body :
  eff_ok (λ d, readable (getn c d) = true) false body →
  keeps reads (Batch' ord zero fuel (batch_body fuel body)) c.
Proof using All.
  intros Hb. eapply Batch_ok; po; [exact exec_rf|exact exec_fl|exact exec_at|].
  intros c1 Ha1 Hf1.
  destruct (run_eff_ok zero ord po_perm reads R po_reads po_trans po_lt po_below
    (refresh ord zero fuel) (flushEffects ord zero fuel) false (S (next c)) (drainBudget c)
    exec_rf exec_fl (close (MkCompute 0 0 true)) body c1 Ha1) as (cl & c2 & H2 & HK2 & Hf2 & _).
  - eapply eff_ok_impl; [|exact Hb]. intros d; simpl. by rewrite (kfr_readable _ _ d Hf1).
  - done.
  - exists c2. split_and!; [|done|done]. unfold batch_body, mbind, M_bind. by rewrite H2.
Qed.

Lemma exec_NewEffect body :
  eff_ok (λ d, readable (getn c d) = true) true body →
  ∃ c', NewEffect ord zero fuel body c = Ok (next c) c' ∧ Top c' ∧ next c' = S (next c) ∧
    drainBudget c' = drainBudget c.
Proof using All.
  intros Hb. destruct HT as (HK & Hd & Hbc & Hf).
  destruct (born_facts (AEffect (MkEffect body None true false false)) occupantEffect c)
    as (B1 & B2 & B3 & B4 & B5 & B6 & B7 & B8).
  set (c1 := born _ _ c) in *.
  assert (HK1 : KInv reads c1).
  { eapply alloc_KInv; [exact HK|exact B1|exact B2|done..| |done].
    by eapply born_count. }
  assert (HT1 : Top c1) by (split_and!; congruence).
  destruct (keeps_Top (rerun ord zero (refresh ord zero fuel) (flushEffects ord zero fuel) (next c)) c1)
    as (c2 & H2 & HT2 & Hn2 & Hb2); [done| |].
  { eapply rerun_ok; po; [exact exec_rf|exact exec_fl|].
    split; [done|]. split_and!; [congruence|lia|congruence]. }
  exists c2. split_and!; [|done|congruence|congruence].
  unfold NewEffect. change (alloc _ c) with (next c, (alloc (AEffect (MkEffect body None true false false)) c).2).
  unfold mbind, M_bind. fold (born (AEffect (MkEffect body None true false false)) occupantEffect c).
  fold c1. by rewrite H2.
Qed.

Lemma exec_Get n :
  readable (getn c n) = true →
  ∃ v c', Get ord zero fuel n c = Ok v c' ∧ den c (S n) n = Some v ∧ Top c' ∧
    next c' = next c ∧ drainBudget c' = drainBudget c.
Proof using All.
  intros Hn. destruct HT as (HK & Hd & Hb & Hf).
  assert (Hlt : n < next c) by (by eapply readable_lt).
  destruct (Get_ok zero reads R po_reads po_trans po_lt ord po_perm po_below fuel n c)
    as (v & c' & Hg & Hv & HI & Hpf).
  - pose proof (k_inv _ _ _ HK) as HI. by rewrite Hb in HI.
  - done.
  - apply HK.
  - unfold op_fuel, flush_fuel in Hfuel. lia.
  - destruct (pf_KInv reads None (below R n) c c' HK)
      as (HK' & Hfr & _); [by rewrite Hb|done|done|].
    exists v, c'. split_and!; [done|done| |apply Hfr..].
    destruct (keeps_Top (λ _, Ok tt c') c) as (c'' & [= <-] & H' & _); [done|by exists c'|done].
Qed.
End exec.

Lemma exec_ok fuel o c :
  Top c → op_ok c o → op_fuel c ≤ fuel →
  ∃ r c', exec fuel o c = Ok r c' ∧ Top c' ∧ (∀ n, o = OGet n → r = den c (S n) n).
Proof.
  intros HT Ho Hf. destruct o as [v pol|p|p|body|n v|n v|body|b|n]; simpl in *.
  - destruct (new_source_ok v pol c HT) as (c' & H1 & HT' & _).
    exists None, c'. split_and!; [|done|done]. unfold mbind, M_bind. by rewrite H1.
  - destruct (new_computed_ok p None c HT Ho) as (c' & H1 & HT' & _); [done|].
    exists None, c'. split_and!; [|done|done]. unfold mbind, M_bind, NewSlot. by rewrite H1.
  - destruct (new_computed_ok p (Some (λ u w, bool_decide (u = w))) c HT Ho) as (c' & H1 & HT' & _).
    { intros g u v [= <-]. by intros ?%bool_decide_eq_true. }
    exists None, c'. split_and!; [|done|done]. unfold mbind, M_bind, NewComputed. by rewrite H1.
  - destruct (exec_NewEffect fuel c Hf HT body Ho) as (c' & H1 & HT' & _).
    exists None, c'. split_and!; [|done|done]. unfold mbind, M_bind. by rewrite H1.
  - destruct (keeps_Top _ c HT (exec_Set fuel c Hf HT n v)) as (c' & H1 & HT' & _).
    exists None, c'. split_and!; [|done|done]. unfold mbind, M_bind. by rewrite H1.
  - destruct (keeps_Top _ c HT (exec_Merge fuel c Hf HT n v)) as (c' & H1 & HT' & _).
    exists None, c'. split_and!; [|done|done]. unfold mbind, M_bind. by rewrite H1.
  - destruct (keeps_Top _ c HT (exec_Batch fuel c Hf HT body Ho)) as (c' & H1 & HT' & _).
    exists None, c'. split_and!; [|done|done]. unfold mbind, M_bind. by rewrite H1.
  - exists None, (SetDrainBudget b c). split_and!; [done| |done].
    destruct HT as (HK & HT). split; [|done]. apply (KInvB_same _ _ c); try done. apply HK.
  - destruct (exec_Get fuel c Hf HT n Ho) as (v & c' & H1 & Hv & HT' & _).
    exists (Some v), c'. split_and!; [|done|by intros m [= <-]]. unfold mbind, M_bind. by rewrite H1.
Qed.

(** ** Histories *)

Inductive history : @ctx V → Prop :=
  | history_new : history NewContext
  | history_step c o fuel r c' :
      history c → op_ok c o → op_fuel c ≤ fuel → exec fuel o c = Ok r c' → history c'.

Lemma NewContext_Top : Top NewContext.
Proof.
  assert (Hg : ∀ n, getn (V := V) NewContext n = no_node).
  { intros n. unfold getn; simpl. by rewrite lookup_empty. }
  split_and!; [|done..]. split.
  - by split.
  - intros m. by rewrite Hg.
  - intros m _. by rewrite Hg.
  - intros s. simpl. set_solver.
  - intros e p. rewrite Hg. intros [= <-]. done.
  - intros e. by rewrite Hg.
  - exists []. split_and!; [done|constructor|set_solver|set_solver].
Qed.

Lemma history_Top c : history c → Top c.
Proof.
  induction 1 as [|c o fuel r c' _ IH Ho Hf He]; [apply NewContext_Top|].
  destruct (exec_ok fuel o c IH Ho Hf) as (r' & c'' & He' & HT & _). congruence.
Qed.

Lemma history_exec c o fuel :
  history c → op_ok c o → op_fuel c ≤ fuel →
  ∃ r c', exec fuel o c = Ok r c' ∧ history c' ∧ (∀ n, o = OGet n → r = den c (S n) n).
Proof.
  intros Hh Ho Hf. destruct (exec_ok fuel o c (history_Top _ Hh) Ho Hf) as (r & c' & He & _ & Hr).
  exists r, c'. split_and!; [done|by eapply history_step|done].
Qed.

Lemma den_total c n :
  history c → readable (getn c n) = true → is_Some (den c (S n) n).
Proof.
  intros Hh Hn. destruct (exec_Get (op_fuel c) c (le_n _) (history_Top _ Hh) n Hn) as (v & _ & _ & -> & _).
  by exists v.
Qed.

(** Run a list of operations, each with enough fuel. *)
Definition step (c : @ctx V) (o : op) : @ctx V :=
  match exec (op_fuel c) o c with Ok _ c' => c' | _ => c end.

Fixpoint ops_ok (c : @ctx V) (ops : list op) : Prop :=
  match ops with [] => True | o :: ops => op_ok c o ∧ ops_ok (step c o) ops end.

Lemma history_ops c ops : history c → ops_ok c ops → history (foldl step c ops).
Proof.
  revert c. induction ops as [|o ops IH]; intros c Hh; simpl; [done|]. intros [Ho Hops].
  apply IH; [|done]. unfold step.
  destruct (history_exec c o (op_fuel c) Hh Ho (le_n _)) as (r & c' & He & Hh' & _). by rewrite He.
Qed.

(** C1: after any history of constructors, writes, merges, batches, drain budgets and
    reads (no disposal, [Eager], [Lazy] or [Clear]) of a program whose computes read
    earlier, live nodes, a read of a live node returns a value, and the value the
    graph denotes: a source's own value, a computed's closure over what its inputs
    denote now.  So no stale value and no mixture of old and new inputs is observed
    there.  It is claimed for the orders of Go's range over a node's dependencies
    that visit a dependency below another one first ([PullOrder]): every order, when
    no node reads both a node and one below it; otherwise another order can give a
    stale read ([refresh_order_matters]). *)
Theorem Kernel_reads_denote c n fuel :
  history c → readable (getn c n) = true → op_fuel c ≤ fuel →
  ∃ v c', Get ord zero fuel n c = Ok v c' ∧ den c (S n) n = Some v ∧
    (∀ m, den c' (S m) m = den c (S m) m).
Proof.
  intros Hh Hn Hf. destruct (history_Top _ Hh) as (HK & Hd & Hb & Hfl).
  destruct (Get_ok zero reads R po_reads po_trans po_lt ord po_perm po_below fuel n c)
    as (v & c' & Hg & Hv & HI & Hpf).
  - pose proof (k_inv _ _ _ HK) as HI. by rewrite Hb in HI.
  - done.
  - apply HK.
  - apply (readable_lt _ _ _ _ HK) in Hn. unfold op_fuel, flush_fuel in Hf. lia.
  - exists v, c'. split_and!; [done|done|]. intros m. apply den_fixed, Hpf.
Qed.

(** C2: after any history of constructors, writes, merges, batches, drain budgets and
    reads (no disposal, [Eager], [Lazy] or [Clear]) of a program whose computes read
    earlier, live nodes, the next such operation does not panic, diverge or leave the
    context unusable: it returns within [op_fuel] (the drain's budget times the number
    of nodes) into a state from which the program can go on.  As in C1, for an order
    of range that is a [PullOrder]. *)
Theorem Kernel_operations_return c o fuel :
  history c → op_ok c o → op_fuel c ≤ fuel →
  ∃ r c', exec fuel o c = Ok r c' ∧ history c' ∧
    batchDepth c' = 0 ∧ batchedCells c' = ∅ ∧ flushingEffects c' = false.
Proof.
  intros Hh Ho Hf. destruct (history_exec c o fuel Hh Ho Hf) as (r & c' & He & Hh' & _).
  exists r, c'. split_and!; try done; by apply history_Top.
Qed.

(** [Size] is exact: the counter equals the number of computeds holding a
    current value in every state a history reaches. *)
Theorem Kernel_Size_counts_cached c :
  history c → Size c = Z.of_nat (map_sum (λ nd, Nat.b2n (cachedNow nd)) (nodes c)).
Proof.
  intros Hh. destruct (history_Top _ Hh) as (HK & _).
  exact (i_count _ _ _ _ (k_inv _ _ _ HK)).
Qed.

(** C3: in any state such a history reaches (constructors, writes, merges, batches,
    drain budgets and reads; no disposal, [Eager], [Lazy] or [Clear]; a [PullOrder]),
    the invalidation walk of a write is exact: it terminates, keeps every edge and
    every stored value, drops the currency of exactly the computeds reachable from
    the written source, and forces exactly its direct readers. *)
Theorem Kernel_invalidation_exact c n :
  history c → is_source (getn c n) = true →
  ∃ c', invalidate ord n c = Ok tt c' ∧
    (∀ m, dependents (getn c' m) = dependents (getn c m) ∧
          dependencies (getn c' m) = dependencies (getn c m) ∧
          stored (getn c' m) = stored (getn c m)) ∧
    (∀ m, cachedNow (getn c m) = true → cachedNow (getn c' m) = false ↔ tc (edge c) n m) ∧
    (∀ m, is_cacheable (getn c m) = true → disposed (getn c m) = false →
      forceRecompute (getn c' m) = true ↔
      forceRecompute (getn c m) = true ∨ m ∈ dependents (getn c n)).
Proof.
  intros Hh Hsrc. destruct (history_Top c Hh) as (HK & _). pose proof (k_inv _ _ _ HK) as HI.
  pose proof (i_edges _ _ _ _ HI) as He. pose proof (i_flags _ _ _ _ HI) as Hf.
  destruct (markDependents_runs ord po_perm true n c He) as (st & c' & Hm & Hr & Hst).
  pose proof (mark_run_shape _ _ _ _ _ Hr) as Hs.
  assert (He' : edges_ok c') by (by eapply edges_ok_shape).
  assert (Hd' : down_ok c').
  { eapply (mark_run_down ord po_perm); [exact Hr|done|]. apply (down_but_mono [] st).
    - intros x Hx. by apply elem_of_nil in Hx.
    - apply down_but_nil, HI. }
  assert (Hr' : ∀ m, reach c st m ↔ tc (edge c) n m).
  { intros m. unfold reach. split.
    - intros (e & Hin & Hrt). apply Hst in Hin as [_ Hin]. eapply tc_rtc_r; [by apply tc_once|done].
    - intros Htc. inversion Htc as [? ? Hx|? y ? Hx Hy]; subst.
      + exists (MarkEntry m true). by split; [apply Hst|].
      + exists (MarkEntry y true). split; [by apply Hst|by apply tc_rtc]. }
  exists c'. split_and!.
  - unfold invalidate, onInvalidate, is_cacheable. unfold is_source in Hsrc.
    by destruct (self (getn c n)).
  - intros m. split_and!; [apply (skel_dependents _ _ (Hs m))|apply (skel_dependencies _ _ (Hs m))|
      apply (skel_stored _ _ (Hs m))].
  - intros m Hc. rewrite <-Hr'. split.
    + intros Hc'. by eapply (mark_run_cached ord po_perm).
    + intros (e & Hin & Hrt). eapply (reach_stale c' m (me_node e)); try done.
      * eapply rtc_subrel; [|exact Hrt]. intros a b. unfold edge. by rewrite (skel_dependents _ _ (Hs a)).
      * rewrite (skel_source _ _ (Hs _)). apply Hst in Hin as [_ Hin]. by eapply e_src.
      * by apply (mark_run_root ord po_perm _ _ _ _ _ Hr Hf Hin).
  - intros m Hca Hdi. split.
    + intros Hfo. destruct (mark_run_force ord po_perm _ _ _ _ m Hr Hfo) as [|Hin]; [by left|right].
      by apply Hst in Hin as [_ Hin].
    + intros [Hfo|Hin]; [by apply (mark_run_mono ord _ _ _ _ m Hr)|].
      assert (Hen : MarkEntry m true ∈ st) by (by apply Hst).
      by apply (mark_run_root ord po_perm _ _ _ _ _ Hr Hf Hen).
Qed.
End history.

(** ** A concrete history

    [a = 1], [b = a mod 2], [sum = a * 10 + b], and an effect that logs
    [sum]. *)

Definition demo_ops : list (@op Z) :=
  [OSetDrainBudget 5; ONewSource 1%Z (λ _ op, op);
   ONewComputed (Read true 0 (λ a, Ret (a mod 2)%Z));
   ONewComputed (Read true 0 (λ a, Read true 1 (λ b, Ret (a * 10 + b)%Z)));
   ONewEffect (ERead true 2 (λ v, EEmit v (EDone None)));
   OSet 0 3%Z].

Definition demo : @ctx Z := foldl (step 0%Z ascending) NewContext demo_ops.

Lemma demo_history : history 0%Z ascending earlier demo.
Proof.
  apply (history_ops _ _ earlier earlier); [constructor|]. vm_compute. repeat split; lia.
Qed.

Lemma demo_out : out demo = [31%Z; 11%Z].
Proof. vm_compute. reflexivity. Qed.

Lemma Kernel_reads_denote_witness :
  ∃ v c', Get ascending 0%Z (op_fuel demo) 2 demo = Ok v c' ∧ den demo 3 2 = Some v ∧
    (∀ m, den c' (S m) m = den demo (S m) m).
Proof.
  apply (Kernel_reads_denote 0%Z ascending earlier earlier demo 2 (op_fuel demo)).
  - exact demo_history.
  - vm_compute. reflexivity.
  - apply le_n.
Defined.

Lemma Kernel_operations_return_witness :
  ∃ r c', exec 0%Z ascending (op_fuel demo) (OSet 0 8%Z) demo = Ok r c' ∧
    history 0%Z ascending earlier c' ∧
    batchDepth c' = 0 ∧ batchedCells c' = ∅ ∧ flushingEffects c' = false.
Proof.
  apply (Kernel_operations_return 0%Z ascending earlier earlier demo).
  - exact demo_history.
  - exact I.
  - apply le_n.
Defined.

Lemma Kernel_Size_counts_cached_witness :
  Size demo = Z.of_nat (map_sum (λ nd, Nat.b2n (cachedNow nd)) (nodes demo)).
Proof. apply (Kernel_Size_counts_cached 0%Z ascending earlier earlier). exact demo_history. Defined.

Lemma Kernel_invalidation_exact_witness :
  ∃ c', invalidate ascending 0 demo = Ok tt c' ∧
    (∀ m, dependents (getn c' m) = dependents (getn demo m) ∧
          dependencies (getn c' m) = dependencies (getn demo m) ∧
          stored (getn c' m) = stored (getn demo m)) ∧
    (∀ m, cachedNow (getn demo m) = true → cachedNow (getn c' m) = false ↔ tc (edge demo) 0 m) ∧
    (∀ m, is_cacheable (getn demo m) = true → disposed (getn demo m) = false →
      forceRecompute (getn c' m) = true ↔
      forceRecompute (getn demo m) = true ∨ m ∈ dependents (getn demo 0)).
Proof.
  apply (Kernel_invalidation_exact 0%Z ascending earlier earlier demo 0).
  - exact demo_history.
  - vm_compute. reflexivity.
Defined.
