(* ===== verification/KernelDispose.v ===== *)
(** * KernelDispose: teardown, stale handles and the drain report
    (disposal.go, core.go [registerNode], [topEffectRuns])

    Disposal removes every edge of the node, forces its surviving dependents
    and runs nothing; a handle whose node was disposed never resolves again,
    even once its arena slot is reused. *)

From S2P Require Import Prelude Kernel KernelMark KernelPull KernelRun KernelHistory.

Section dispose.
Context {V : Type} `{EqDecision V} (zero : V).
Context (ord : @ctx V → gset nat → list nat).
Hypothesis ord_perm : ∀ c s, ord c s ≡ₚ elements s.
Implicit Types (c : @ctx V) (nd : @node V) (n d m : nat).

(** ** Marking during a teardown schedules nothing *)

Lemma mark_visit_disposing sched e c :
  0 < disposing c → pend (mark_visit sched e c).1 = pend c.
Proof.
  intros Hd. unfold mark_visit. destruct (disposed _); [done|].
  destruct (self (getn c (me_node e))) eqn:Es; simpl.
  - unfold onInvalidate. by rewrite Es.
  - unfold onInvalidate. destruct (me_force e).
    + rewrite getn_updn_eq. simpl. by rewrite Es.
    + by rewrite Es.
  - destruct sched; [|done]. unfold markStale. by rewrite decide_True.
Qed.

Lemma mark_run_disposing sched st c c' :
  mark_run ord sched st c c' → 0 < disposing c → pend c' = pend c.
Proof using Type.
  induction 1 as [|e st c c1 p c' Hv _ IH]; [done|]. intros Hd.
  pose proof (mark_visit_disposing sched e c Hd) as H1.
  pose proof (mark_visit_statics sched e c) as H2. rewrite Hv in *; simpl in *.
  rewrite IH; [done|]. injection H2 as. congruence.
Qed.

(** The effect of a teardown's cascade on one context. *)
Record cascaded c c' : Prop := {
  ca_shape : same_shape c c';
  ca_statics : statics c' = statics c;
  ca_pend : pend c' = pend c;
  ca_flags : flags_ok c';
  ca_cached : ∀ m, cachedNow (getn c' m) = true → cachedNow (getn c m) = true;
  ca_force : ∀ m, forceRecompute (getn c m) = true → forceRecompute (getn c' m) = true;
  ca_count : count_ok c → count_ok c';
}.

Lemma cascaded_refl c : flags_ok c → cascaded c c.
Proof. intros. by split. Qed.

Lemma cascaded_trans c1 c2 c3 : cascaded c1 c2 → cascaded c2 c3 → cascaded c1 c3.
Proof.
  intros [A1 A2 A3 A4 A5 A6 A7] [B1 B2 B3 B4 B5 B6 B7].
  split; [by etrans|congruence|congruence|done|auto|auto|auto].
Qed.

Lemma cascaded_disposing c c' : cascaded c c' → disposing c' = disposing c.
Proof. intros [_ Hs _ _ _ _ _]. unfold statics in Hs. by injection Hs. Qed.

Lemma invalidate_disposing n c :
  edges_ok c → flags_ok c → 0 < disposing c → is_source (getn c n) = false →
  ∃ c', invalidate ord n c = Ok tt c' ∧ cascaded c c' ∧ cachedNow (getn c' n) = false ∧
    (is_cacheable (getn c n) = true → disposed (getn c n) = false →
     forceRecompute (getn c' n) = true).
Proof using ord_perm.
  intros He Hf Hd Hs. unfold invalidate. destruct (is_cacheable (getn c n)) eqn:Ec.
  - destruct (markCone_runs ord ord_perm true [MarkEntry n true] c He) as (c' & Hm & Hr).
    { intros e ->%list_elem_of_singleton. done. }
    destruct (mark_run_root ord ord_perm true _ c c' (MarkEntry n true) Hr Hf) as [H1 H2];
      [by apply list_elem_of_singleton|].
    exists c'. split_and!; [done| |done|auto]. split.
    + by eapply mark_run_shape.
    + by eapply mark_run_statics.
    + by eapply mark_run_disposing.
    + by eapply mark_run_flags_ok.
    + intros m. by apply (mark_run_mono ord true _ c c' m Hr).
    + intros m. by apply (mark_run_mono ord true _ c c' m Hr).
    + by eapply mark_run_count.
  - assert (Hde : dependents (getn c n) = ∅).
    { apply set_eq. intros a. split; [|set_solver]. intros Ha%(e_eff _ He).
      unfold is_source, is_effect, is_cacheable in *. by destruct (self _). }
    assert (Ho : onInvalidate n c = c).
    { unfold onInvalidate, is_source, is_cacheable in *. destruct (self _); [done..|].
      unfold markStale. by rewrite decide_True. }
    exists c. rewrite Ho. unfold markDependents. rewrite decide_True by done.
    split_and!; [done|by apply cascaded_refl| |done].
    unfold is_cacheable, cachedNow in *. by destruct (self _).
Qed.

Lemma invalidate_all_disposing l c :
  edges_ok c → flags_ok c → 0 < disposing c →
  (∀ n, n ∈ l → is_source (getn c n) = false) →
  ∃ c', invalidate_all ord l c = Ok tt c' ∧ cascaded c c' ∧
    (∀ n, n ∈ l → cachedNow (getn c' n) = false ∧
      (is_cacheable (getn c n) = true → disposed (getn c n) = false →
       forceRecompute (getn c' n) = true)).
Proof using ord_perm.
  revert c. induction l as [|n l IH]; intros c He Hf Hd Hl; simpl.
  - exists c. split_and!; [done|by apply cascaded_refl|]. by intros n ?%elem_of_nil.
  - destruct (invalidate_disposing n c He Hf Hd) as (c1 & H1 & Hc1 & Hn1 & Hn2);
      [apply Hl, list_elem_of_here|].
    destruct (IH c1) as (c2 & H2 & Hc2 & Hl2).
    + by eapply edges_ok_shape; [apply Hc1|].
    + apply Hc1.
    + by rewrite (cascaded_disposing _ _ Hc1).
    + intros m Hm. rewrite (skel_source _ _ (ca_shape _ _ Hc1 m)). apply Hl. by right.
    + exists c2. split_and!; [|by eapply cascaded_trans|].
      * unfold mbind, M_bind. by rewrite H1.
      * intros m [->|Hm]%elem_of_cons.
        -- split; [|intros; by apply Hc2, Hn2]. apply not_true_is_false. intros Hc.
           apply (ca_cached _ _ Hc2) in Hc. congruence.
        -- destruct (Hl2 m Hm) as [H3 H4]. split; [done|]. intros Hca Hdi. apply H4.
           ++ by rewrite (skel_cacheable _ _ (ca_shape _ _ Hc1 m)).
           ++ by rewrite (skel_disposed _ _ (ca_shape _ _ Hc1 m)).
Qed.

(** ** Teardown *)

Lemma slotIndex_only_getn n i c m :
  dependents (getn (updn n (with_slotIndex i) c) m) = dependents (getn c m) ∧
  dependencies (getn (updn n (with_slotIndex i) c) m) = dependencies (getn c m) ∧
  self (getn (updn n (with_slotIndex i) c) m) = self (getn c m) ∧
  disposed (getn (updn n (with_slotIndex i) c) m) = disposed (getn c m) ∧
  dirty (getn (updn n (with_slotIndex i) c) m) = dirty (getn c m) ∧
  forceRecompute (getn (updn n (with_slotIndex i) c) m) = forceRecompute (getn c m) ∧
  occupantID (getn (updn n (with_slotIndex i) c) m) = occupantID (getn c m) ∧
  occupantGeneration (getn (updn n (with_slotIndex i) c) m) = occupantGeneration (getn c m) ∧
  occKind (getn (updn n (with_slotIndex i) c) m) = occKind (getn c m).
Proof. rewrite getn_updn. by case_decide; subst. Qed.

(** What the first half of [teardown] leaves: the node marked disposed and its
    value dropped; every other node as it was, but for its registry index. *)
Record dropped n c c' : Prop := {
  dr_edges : ∀ m, dependents (getn c' m) = dependents (getn c m) ∧
    dependencies (getn c' m) = dependencies (getn c m);
  dr_kind : ∀ m, is_source (getn c' m) = is_source (getn c m) ∧
    is_effect (getn c' m) = is_effect (getn c m) ∧ is_cacheable (getn c' m) = is_cacheable (getn c m);
  dr_other : ∀ m, m ≠ n → self (getn c' m) = self (getn c m) ∧
    disposed (getn c' m) = disposed (getn c m) ∧ dirty (getn c' m) = dirty (getn c m) ∧
    forceRecompute (getn c' m) = forceRecompute (getn c m);
  dr_disposed : disposed (getn c' n) = true;
  dr_uncached : cachedNow (getn c' n) = false;
  dr_pend : pend c' = pend c;
  dr_out : out c' = out c;
  dr_disposing : disposing c' = disposing c;
  dr_occ : ∀ m, occupantID (getn c' m) = occupantID (getn c m) ∧
    occupantGeneration (getn c' m) = occupantGeneration (getn c m) ∧
    occKind (getn c' m) = occKind (getn c m);
  dr_arena : nodeSlots c' = nodeSlots c;
}.

Lemma drop_value_ok n c : dropped n c (drop_value n (updn n (with_disposed true) c)).
Proof.
  set (c1 := updn n (with_disposed true) c).
  assert (H1 : ∀ m, getn c1 m = if decide (m = n) then with_disposed true (getn c m) else getn c m).
  { intros m. unfold c1. rewrite getn_updn. by case_decide; subst. }
  unfold drop_value. destruct (is_cacheable (getn c1 n)) eqn:Ec; cycle 1.
  { assert (Ec' : is_cacheable (getn c n) = false).
    { revert Ec. rewrite H1. by rewrite decide_True. }
    split; try done.
    - intros m. rewrite H1. by case_decide.
    - intros m. rewrite H1. by case_decide.
    - intros m Hm. by rewrite H1, decide_False.
    - by rewrite H1, decide_True.
    - rewrite H1, decide_True by done. unfold cachedNow, is_cacheable in *; simpl.
      by destruct (self (getn c n)).
    - intros m. rewrite H1. by case_decide. }
  set (c2 := clearCache n (with_cachedCount _ c1)).
  assert (H2 : ∀ m, getn c2 m = if decide (m = n) then
      with_stale (λ _, true) (λ _, true)
        (with_self (on_computed (λ k, with_cached false (with_value None k))) (getn c1 m))
      else getn c1 m).
  { intros m. unfold c2, clearCache. rewrite getn_updn.
    change (getn (with_cachedCount ?f ?x)) with (getn x). by case_decide; subst. }
  assert (H12 : dropped n c c2).
  { split; try done.
    - intros m. rewrite H2, H1. by case_decide.
    - intros m. rewrite H2, H1. case_decide; [|done].
      unfold is_source, is_effect, is_cacheable; simpl. by destruct (self (getn c m)).
    - intros m Hm. by rewrite H2, H1, !decide_False.
    - by rewrite H2, H1, !decide_True.
    - rewrite H2, H1, !decide_True by done. unfold cachedNow; simpl. by destruct (self (getn c n)).
    - intros m. rewrite H2, H1. by case_decide. }
  unfold unregisterSlot. destruct (slotIndex (getn c2 n)) as [i|]; [|done].
  destruct (last (slots c2)) as [moved|]; [|done]. case_decide; [|done].
  set (c3 := updn n _ _).
  assert (H3 : ∀ m, dependents (getn c3 m) = dependents (getn c2 m) ∧
    dependencies (getn c3 m) = dependencies (getn c2 m) ∧ self (getn c3 m) = self (getn c2 m) ∧
    disposed (getn c3 m) = disposed (getn c2 m) ∧ dirty (getn c3 m) = dirty (getn c2 m) ∧
    forceRecompute (getn c3 m) = forceRecompute (getn c2 m) ∧
    occupantID (getn c3 m) = occupantID (getn c2 m) ∧
    occupantGeneration (getn c3 m) = occupantGeneration (getn c2 m) ∧
    occKind (getn c3 m) = occKind (getn c2 m)).
  { intros m. unfold c3.
    destruct (slotIndex_only_getn n None (with_slots (λ l, take (length l - 1) (<[i:=moved]> l))
      (updn moved (with_slotIndex (Some i)) c2)) m)
      as (-> & -> & -> & -> & -> & -> & -> & -> & ->).
    change (getn (with_slots ?f ?x)) with (getn x). apply slotIndex_only_getn. }
  destruct H12 as [D1 D2 D3 D4 D5 D6 D7 D8 D9 D10]. split; try done.
  - intros m. destruct (H3 m) as (-> & -> & _). apply D1.
  - intros m. destruct (H3 m) as (_ & _ & Hs & _). unfold is_source, is_effect, is_cacheable.
    rewrite Hs. apply D2.
  - intros m Hm. destruct (H3 m) as (_ & _ & -> & -> & -> & -> & _). by apply D3.
  - destruct (H3 n) as (_ & _ & _ & -> & _). done.
  - destruct (H3 n) as (_ & _ & Hs & _). unfold cachedNow. by rewrite Hs.
  - intros m. destruct (H3 m) as (_ & _ & _ & _ & _ & _ & -> & -> & ->). apply D9.
Qed.

Lemma detachDownstream_getn n c m :
  edges_ok c →
  getn (detachDownstream n c) m =
    edge_upd (if decide (m = n) then λ _, ∅ else id) (λ s, s ∖ {[n]}) (getn c m).
Proof.
  intros He. unfold detachDownstream, edge_upd.
  assert (Hs : m ∉ dependents (getn c n) →
    dependencies (getn c m) ∖ {[n]} = dependencies (getn c m)).
  { rewrite (e_sym _ He). set_solver. }
  rewrite getn_updn, !foldset_getn. destruct (decide (m = n)) as [->|Hne].
  - case_decide; [done|]. unfold with_dependents, with_dependencies; simpl. by rewrite Hs.
  - case_decide; [by destruct (getn c m)|].
    unfold with_dependents, with_dependencies; simpl. rewrite Hs by done. by destruct (getn c m).
Qed.

Lemma dropped_edges_ok n c c' : dropped n c c' → edges_ok c → edges_ok c'.
Proof.
  intros Hdr [E1 E2 E3]. split; intros a b; destruct (dr_edges _ _ _ Hdr a) as [_ Ha];
    destruct (dr_edges _ _ _ Hdr b) as [Hb _]; rewrite ?Ha, ?Hb.
  - apply E1.
  - destruct (dr_kind _ _ _ Hdr a) as [-> _]. apply E2.
  - destruct (dr_kind _ _ _ Hdr b) as (_ & -> & _). apply E3.
Qed.

Lemma dropped_flags_ok n c c' : dropped n c c' → flags_ok c → flags_ok c'.
Proof.
  intros Hdr [F1 F2 F3].
  split; intros m; (destruct (decide (m = n)) as [->|Hm]; [intros _; by apply Hdr|]);
    destruct (dr_other _ _ _ Hdr m Hm) as (H1 & H2 & H3 & H4); unfold cachedNow;
    rewrite ?H1, ?H2, ?H3, ?H4; [apply F1|apply F2|apply F3].
Qed.

Lemma edge_upd_comp f g f' g' nd :
  edge_upd f g (edge_upd f' g' nd) = edge_upd (λ s, f (f' s)) (λ s, g (g' s)) nd.
Proof. done. Qed.

(** The graph after both detachments: [n] is gone from every edge set. *)
Lemma detached_ok n c :
  edges_ok c → flags_ok c →
  let c' := detachDownstream n (detachUpstream n c) in
  edges_ok c' ∧ flags_ok c' ∧
  (∀ m, dependents (getn c' m) = (if decide (m = n) then ∅ else dependents (getn c m) ∖ {[n]}) ∧
    dependencies (getn c' m) = (if decide (m = n) then ∅ else dependencies (getn c m) ∖ {[n]})) ∧
  (∀ m, ∃ f g, getn c' m = edge_upd f g (getn c m)).
Proof.
  intros He Hf c'.
  pose proof (λ m, detachUpstream_getn n c m He) as H1.
  assert (He1 : edges_ok (detachUpstream n c)).
  { destruct He as [E1 E2 E3]. split; intros a b; rewrite !H1; simpl.
    - unfold id. rewrite elem_of_difference, elem_of_singleton, E1.
      destruct (decide (a = n)); set_solver.
    - intros [Hin _]%elem_of_difference. by eapply E2.
    - intros [Hin _]%elem_of_difference. by eapply E3. }
  pose proof (λ m, detachDownstream_getn n _ m He1) as H2.
  assert (Hall : ∀ m, ∃ f g, getn c' m = edge_upd f g (getn c m)).
  { intros m. unfold c'. rewrite H2, H1, edge_upd_comp. eauto. }
  assert (Hed : ∀ m, dependents (getn c' m) = (if decide (m = n) then ∅ else dependents (getn c m) ∖ {[n]}) ∧
    dependencies (getn c' m) = (if decide (m = n) then ∅ else dependencies (getn c m) ∖ {[n]})).
  { intros m. unfold c'. rewrite H2, H1. simpl. unfold id. case_decide; subst; set_solver. }
  split_and!; [| |done|done].
  - destruct He as [E1 E2 E3]. split; intros a b; destruct (Hed a) as [_ Ha]; destruct (Hed b) as [Hb _];
      rewrite ?Ha, ?Hb.
    + destruct (decide (a = n)), (decide (b = n));
        rewrite ?elem_of_difference, ?elem_of_singleton, ?elem_of_empty, ?E1; tauto.
    + destruct (Hall a) as (f & g & ->). case_decide; [by intros ?%elem_of_empty|].
      intros [Hin _]%elem_of_difference. exact (E2 a b Hin).
    + destruct (Hall b) as (f & g & ->). case_decide; [by intros ?%elem_of_empty|].
      intros [Hin _]%elem_of_difference. exact (E3 a b Hin).
  - destruct Hf as [F1 F2 F3]. split; intros m; destruct (Hall m) as (f & g & ->);
      [apply F1|apply F2|apply F3].
Qed.

Lemma detach_proj {A} (proj : @ctx V → A) n c :
  (∀ n f c, proj (updn n f c) = proj c) → proj (detachDownstream n (detachUpstream n c)) = proj c.
Proof.
  intros Hp. unfold detachDownstream. rewrite Hp, foldset_proj by done. by apply detachUpstream_proj.
Qed.

Lemma retireNode_getn n c m : getn (retireNode n c) m = getn c m.
Proof. done. Qed.

(** What [teardown] guarantees. *)
Record torn n c c' : Prop := {
  to_disposed : disposed (getn c' n) = true;
  to_gone : ∀ m, (n ∉ dependents (getn c' m)) ∧ (n ∉ dependencies (getn c' m));
  to_alone : dependents (getn c' n) = ∅ ∧ dependencies (getn c' n) = ∅;
  to_rest : ∀ a b, a ≠ n → b ≠ n →
    (a ∈ dependents (getn c' b) ↔ a ∈ dependents (getn c b));
  to_stale : ∀ m, m ∈ dependents (getn c n) → m ≠ n → cachedNow (getn c' m) = false ∧
    (is_cacheable (getn c m) = true → disposed (getn c m) = false →
     forceRecompute (getn c' m) = true);
  to_quiet : pend c' = pend c ∧ out c' = out c ∧ disposing c' = disposing c;
  to_handle : ∀ kind, resolveNode n kind c' = None;
}.

Lemma u64_succ_ne g : u64 (g + 1) ≠ g.
Proof.
  unfold u64, two64. intros H.
  pose proof (Z.div_mod (g + 1) 18446744073709551616). lia.
Qed.

Lemma teardown_ok n c :
  edges_ok c → flags_ok c →
  ∃ c', teardown ord n c = Ok tt c' ∧ torn n c c' ∧ edges_ok c' ∧ flags_ok c'.
Proof using ord_perm.
  intros He Hf. set (c1 := drop_value n (updn n (with_disposed true) c)).
  pose proof (drop_value_ok n c) as Hdr. fold c1 in Hdr.
  pose proof (dropped_edges_ok _ _ _ Hdr He) as He1.
  pose proof (dropped_flags_ok _ _ _ Hdr Hf) as Hf1.
  destruct (detached_ok n c1 He1 Hf1) as (He3 & Hf3 & Hed & Hall).
  set (c2 := detachUpstream n c1) in *. set (c3 := detachDownstream n c2) in *.
  set (c4 := with_disposing S c3).
  assert (Hsurv : dependents (getn c2 n) = dependents (getn c n) ∖ {[n]}).
  { unfold c2. rewrite detachUpstream_getn by done. simpl. by destruct (dr_edges _ _ _ Hdr n) as [-> _]. }
  assert (Hkind : ∀ m, is_source (getn c4 m) = is_source (getn c m) ∧
    is_cacheable (getn c4 m) = is_cacheable (getn c m)).
  { intros m. change (getn c4 m) with (getn c3 m). destruct (Hall m) as (f & g & ->).
    destruct (dr_kind _ _ _ Hdr m) as (H1 & _ & H2). done. }
  destruct (invalidate_all_disposing (ord c2 (dependents (getn c2 n))) c4) as (c5 & H5 & Hc5 & Hst5).
  { by eapply (edges_ok_shape c3). }
  { destruct Hf3. by split. }
  { simpl. lia. }
  { intros m Hm. rewrite ord_perm, elem_of_elements, Hsurv in Hm. destruct (Hkind m) as [-> _].
    apply elem_of_difference in Hm as [Hm _]. by eapply e_src. }
  exists (retireNode n (with_disposing pred c5)). split_and!.
  - unfold teardown. fold c1 c2 c3. unfold mbind, M_bind, modify. fold c4. by rewrite H5.
  - pose proof (ca_shape _ _ Hc5) as Hsh.
    set (c6 := with_disposing pred c5).
    assert (H6 : ∀ m, getn (retireNode n c6) m = getn c5 m) by done.
    assert (Hd5 : ∀ m, dependents (getn c5 m) = dependents (getn c3 m) ∧
      dependencies (getn c5 m) = dependencies (getn c3 m)).
    { intros m. split; [apply (skel_dependents _ _ (Hsh m))|apply (skel_dependencies _ _ (Hsh m))]. }
    assert (Hdis : ∀ m, disposed (getn c5 m) = disposed (getn c1 m)).
    { intros m. rewrite (skel_disposed _ _ (Hsh m)). change (getn c4 m) with (getn c3 m).
      by destruct (Hall m) as (f & g & ->). }
    split.
    + rewrite H6, Hdis. apply Hdr.
    + intros m. rewrite H6. destruct (Hd5 m) as [-> ->]. destruct (Hed m) as [-> ->].
      case_decide; rewrite ?elem_of_difference, ?elem_of_singleton, ?elem_of_empty; tauto.
    + rewrite H6. destruct (Hd5 n) as [-> ->]. destruct (Hed n) as [-> ->]. by rewrite !decide_True.
    + intros a b Ha Hb. rewrite H6. destruct (Hd5 b) as [-> _]. destruct (Hed b) as [-> _].
      rewrite decide_False by done. destruct (dr_edges _ _ _ Hdr b) as [-> _].
      rewrite elem_of_difference, elem_of_singleton. tauto.
    + intros m Hm Hmn. rewrite H6. destruct (Hst5 m) as [S1 S2].
      { rewrite ord_perm, elem_of_elements, Hsurv, elem_of_difference, elem_of_singleton. tauto. }
      split; [done|]. intros Hca Hdi. apply S2.
      * by destruct (Hkind m) as [_ ->].
      * change (getn c4 m) with (getn c3 m). destruct (Hall m) as (f & g & ->).
        change (disposed (getn c1 m) = false).
        by destruct (dr_other _ _ _ Hdr m Hmn) as (_ & -> & _).
    + assert (Hp3 : pend c3 = pend c ∧ out c3 = out c ∧ disposing c3 = disposing c).
      { split_and!.
        - unfold c3, c2. rewrite (detach_proj pend) by done. apply Hdr.
        - unfold c3, c2. rewrite (detach_proj out) by done. apply Hdr.
        - unfold c3, c2. rewrite (detach_proj disposing) by done. apply Hdr. }
      destruct Hp3 as (P1 & P2 & P3).
      pose proof (f_equal snd (ca_statics _ _ Hc5)) as Ho. change (out c5 = out c3) in Ho.
      pose proof (ca_pend _ _ Hc5) as Hp5. change (pend c5 = pend c3) in Hp5.
      pose proof (cascaded_disposing _ _ Hc5) as Hd. change (disposing c5 = S (disposing c3)) in Hd.
      split_and!.
      * change (pend (retireNode n c6)) with (pend c5). congruence.
      * change (out (retireNode n c6)) with (out c5). congruence.
      * change (disposing (retireNode n c6)) with (pred (disposing c5)). by rewrite Hd.
    + intros kind. unfold resolveNode. rewrite H6. case_decide as Hk; [|done].
      unfold retireNode. cbn [nodeSlots with_arena].
      change (getn c6 n) with (getn c5 n).
      destruct (nodeSlots c6 !! occupantID (getn c5 n)) as [slot|] eqn:Es.
      * rewrite list_lookup_alter_eq, Es. simpl. case_decide as Hg; [|done].
        destruct Hg as [<- Hg]. (* the kind of a retired slot is none *)
        done.
      * by rewrite list_lookup_alter_eq, Es.
  - assert (He4 : edges_ok c4) by by eapply (edges_ok_shape c3).
    destruct (edges_ok_shape _ _ (ca_shape _ _ Hc5) He4). by split.
  - destruct (ca_flags _ _ Hc5). by split.
Qed.

Lemma disposeNode_live fuel n c :
  resolveNode n (occKind (getn c n)) c = Some n → disposed (getn c n) = false →
  is_effect (getn c n) = false → eagerBy c !! n = None →
  disposeNode ord zero (S fuel) n c = teardown ord n c.
Proof.
  intros Hr Hd He Hg. cbn [disposeNode]. rewrite Hr, Hd, Hg, He. done.
Qed.
End dispose.

Section dispose_history.
Context {V : Type} `{EqDecision V} (zero : V).
Context (ord : @ctx V → gset nat → list nat) (reads R : nat → nat → Prop)
  `{!PullOrder ord reads R}.

(** The states that disposals reach after a history.  A handle may be stale; the node
    it resolves to, if any, is no effect and no eager effect keeps it. *)
Inductive disposals : @ctx V → Prop :=
  | disposals_history c : history zero ord reads c → disposals c
  | disposals_step c n fuel c' : disposals c →
      (∀ m, resolveNode n (occKind (getn c n)) c = Some m →
        is_effect (getn c m) = false ∧ eagerBy c !! m = None) →
      disposeNode ord zero (S fuel) n c = Ok tt c' → disposals c'.

Lemma disposals_ok c : disposals c → edges_ok c ∧ flags_ok c.
Proof.
  induction 1 as [c Hh|c n fuel c' _ [He Hf] Hm Hd].
  - destruct (history_Top zero ord reads R c Hh) as (HK & _).
    split; [apply (i_edges _ _ _ _ (k_inv _ _ _ HK))|apply (i_flags _ _ _ _ (k_inv _ _ _ HK))].
  - cbn [disposeNode] in Hd. destruct (resolveNode n (occKind (getn c n)) c) as [m|]; [|by injection Hd as <-].
    destruct (Hm m eq_refl) as [Heff Hg]. rewrite Hg, Heff in Hd. destruct (disposed (getn c m)); [by injection Hd as <-|].
    destruct (teardown_ok ord po_perm m c He Hf) as (c1 & Ht & _ & H1 & H2).
    unfold mbind, M_bind, mret, M_ret in Hd. rewrite Ht in Hd. by injection Hd as <-.
Qed.

(** C4: disposing a source or computed, in any state that a history of constructors,
    writes, merges, batches, drain budgets and reads reaches, and then any number of
    disposals of sources and computeds (a program without [Eager], [Lazy] and [Clear]
    that neither disposes an effect nor builds on after its first disposal, and a
    [PullOrder]).  If the node is live, its handle resolves and no eager effect keeps
    it, the disposal returns with the node disposed, in no edge set of any other node
    and with empty edge sets of its own, every other edge kept; every node that read
    it is stale, forced if it is a computed, so no reader stays frozen on the old
    value; nothing is scheduled, run or emitted; the handle no longer resolves, and
    disposing it again changes nothing. *)
Theorem Kernel_dispose_tears_down c n fuel :
  disposals c →
  is_effect (getn c n) = false → disposed (getn c n) = false →
  resolveNode n (occKind (getn c n)) c = Some n → eagerBy c !! n = None →
  ∃ c', disposeNode ord zero (S fuel) n c = Ok tt c' ∧ torn n c c' ∧
    disposeNode ord zero (S fuel) n c' = Ok tt c'.
Proof.
  intros [He Hf]%disposals_ok Heff Hd Hr Hg.
  destruct (teardown_ok ord po_perm n c He Hf) as (c' & Ht & Hto & _).
  exists c'. split_and!; [by rewrite disposeNode_live|done|].
  cbn [disposeNode]. by rewrite (to_handle _ _ _ Hto).
Qed.
End dispose_history.

(** ** The arena fence *)

Section arena.
Context {V : Type}.
Implicit Types (c : @ctx V).

(** What the rest of the program does to the arena. *)
Inductive arena_op := Register (n : nat) (kind : occupantKind) | Retire (n : nat).

Definition arena_step c (o : arena_op) : ctx :=
  match o with Register n kind => registerNode n kind c | Retire n => retireNode n c end.

(** The handle [x] is behind the generation of its slot. *)
Definition fenced c (x : nat) (room : Z) : Prop :=
  ∃ slot, nodeSlots c !! occupantID (getn c x) = Some slot ∧
    (occupantGeneration (getn c x) < os_generation slot)%Z ∧
    (0 ≤ os_generation slot ∧ os_generation slot + room < two64)%Z.

Lemma fenced_resolve c x room kind : fenced c x room → resolveNode x kind c = None.
Proof.
  intros (slot & Hs & Hlt & _). unfold resolveNode. case_decide; [|done]. rewrite Hs.
  rewrite decide_False; [done|]. intros [_ Heq]. lia.
Qed.

Lemma fenced_step c x room o :
  (match o with Register n _ => n ≠ x | Retire _ => True end) → (1 ≤ room)%Z →
  fenced c x room → fenced (arena_step c o) x (room - 1).
Proof.
  intros Ho Hroom (slot & Hs & Hlt & Hrg). destruct o as [n kind|n]; simpl.
  - unfold registerNode. destruct (freeNodeSlots c) as [|i free].
    + set (a := with_arena _ _ c).
      assert (Ha : nodeSlots a !! occupantID (getn c x) = Some slot).
      { change (nodeSlots a) with (nodeSlots c ++ [MkOccupantSlot 0 occupantNone None]).
        by apply lookup_app_l_Some. }
      unfold fenced. rewrite getn_updn_ne by done.
      change (getn (with_arena ?f ?g a) x) with (getn c x).
      change (nodeSlots (updn ?n ?f ?y)) with (nodeSlots y). cbn [nodeSlots with_arena].
      destruct (decide (length (nodeSlots c) = occupantID (getn c x))) as [Heq|Hne].
      * rewrite <-Heq in *. rewrite list_lookup_alter_eq, Ha. eexists; split; [done|]. simpl. lia.
      * rewrite list_lookup_alter_ne by done. exists slot. split_and!; [done|lia..].
    + set (a := with_arena _ _ c). unfold fenced. rewrite getn_updn_ne by done.
      change (getn (with_arena ?f ?g a) x) with (getn c x).
      change (nodeSlots (updn ?n ?f ?y)) with (nodeSlots y). cbn [nodeSlots with_arena].
      destruct (decide (i = occupantID (getn c x))) as [->|Hne].
      * rewrite list_lookup_alter_eq. change (nodeSlots a) with (nodeSlots c). rewrite Hs.
        eexists; split; [done|]. simpl. lia.
      * rewrite list_lookup_alter_ne by done. exists slot. split_and!; [done|lia..].
  - unfold fenced, retireNode. change (getn (with_arena ?f ?g c) x) with (getn c x).
    cbn [nodeSlots with_arena].
    destruct (decide (occupantID (getn c n) = occupantID (getn c x))) as [->|Hne].
    + rewrite list_lookup_alter_eq, Hs. eexists; split; [done|]. simpl.
      rewrite u64_small by zrange. lia.
    + rewrite list_lookup_alter_ne by done. exists slot. split_and!; [done|lia..].
Qed.

(** C5: once a node is retired its handle never resolves again, whatever is
    registered and retired afterwards: a later occupant of the same arena slot,
    of the same kind or another, is never mistaken for it (no ABA), for as long
    as the slot's 64-bit generation has not wrapped. *)
Theorem Kernel_stale_handle_never_resolves c x kind slot (ops : list arena_op) :
  nodeSlots c !! occupantID (getn c x) = Some slot →
  os_generation slot = occupantGeneration (getn c x) →
  (0 ≤ os_generation slot)%Z → (os_generation slot + 1 + Z.of_nat (length ops) < two64)%Z →
  Forall (λ o, match o with Register n _ => n ≠ x | Retire _ => True end) ops →
  resolveNode x kind (foldl arena_step (retireNode x c) ops) = None.
Proof.
  intros Hs Hg H0 Hroom Hops.
  assert (Hf : fenced (retireNode x c) x (Z.of_nat (length ops))).
  { unfold fenced, retireNode. change (getn (with_arena ?f ?g c) x) with (getn c x).
    cbn [nodeSlots with_arena]. rewrite list_lookup_alter_eq, Hs. eexists; split; [done|]. simpl.
    rewrite u64_small by zrange. lia. }
  clear Hs Hg H0 Hroom. revert Hf. generalize (retireNode x c).
  induction Hops as [|o ops Ho _ IH]; intros c0 Hf; simpl.
  - by eapply fenced_resolve.
  - apply IH. replace (Z.of_nat (length ops)) with (Z.of_nat (length (o :: ops)) - 1)%Z by (simpl; lia).
    apply fenced_step; [done|simpl; lia|done].
Qed.
End arena.

(** ** The drain report *)

#[export] Instance EffectRuns_eq_dec : EqDecision EffectRuns.
Proof. solve_decision. Defined.

Section top_effects.
Implicit Types (top : list EffectRuns) (runs : gmap nat nat) (order : list nat).

Definition runs_of runs (e : nat) : nat := default 0 (runs !! e).
Definition descending top : Prop := StronglySorted (λ a b, er_runs b ≤ er_runs a) top.

Lemma scan_left_spec top n k :
  k ≤ length top →
  scan_left top n k ≤ k ∧
  (∀ i r, scan_left top n k ≤ i < k → top !! i = Some r → er_runs r < n) ∧
  (scan_left top n k = 0 ∨ ∃ r, top !! (scan_left top n k - 1) = Some r ∧ n ≤ er_runs r).
Proof.
  induction k as [|k IH]; intros Hk; simpl.
  - split_and!; [done|lia|by left].
  - destruct (lookup_lt_is_Some_2 top k) as [r Hr]; [lia|]. rewrite Hr. simpl. case_decide.
    + destruct IH as (I1 & I2 & I3); [lia|]. split_and!; [lia| |done].
      intros i r' Hi Hr'. destruct (decide (i = k)) as [->|]; [congruence|]. apply (I2 i r'); [lia|done].
    + split_and!; [done|intros; lia|]. right. exists r. replace (S k - 1) with k by lia. split; [done|lia].
Qed.

(** In a descending list the scan splits the larger-or-equal from the smaller. *)
Lemma scan_left_split top n :
  descending top →
  (∀ r, r ∈ take (scan_left top n (length top)) top → n ≤ er_runs r) ∧
  (∀ r, r ∈ drop (scan_left top n (length top)) top → er_runs r < n).
Proof.
  intros Hd. destruct (scan_left_spec top n (length top) (le_n _)) as (S1 & S2 & S3).
  set (k := scan_left _ _ _) in *. split.
  - intros r Hr. destruct S3 as [->|(r' & Hr' & Hn)]; [by apply elem_of_nil in Hr|].
    assert (Hk : k ≠ 0) by (intros ->; by apply elem_of_nil in Hr).
    apply list_elem_of_lookup in Hr as [i Hi]. apply lookup_take_Some in Hi as [Hi Hlt].
    destruct (decide (i = k - 1)) as [->|Hne]; [congruence|].
    enough (er_runs r' ≤ er_runs r) by lia.
    eapply (StronglySorted_app_1_elem_of (λ a b, er_runs b ≤ er_runs a) (take (S i) top) (drop (S i) top)).
    + by rewrite take_drop.
    + apply list_elem_of_lookup. exists i. apply lookup_take_Some. split; [done|lia].
    + apply list_elem_of_lookup. exists (k - 1 - S i). rewrite lookup_drop. rewrite <-Hr'. f_equal. lia.
  - intros r Hr. apply list_elem_of_lookup in Hr as [i Hi]. rewrite lookup_drop in Hi.
    apply (S2 (k + i) r); [|done]. pose proof (lookup_lt_Some _ _ _ Hi). lia.
Qed.

Lemma descending_take k top : descending top → descending (take k top).
Proof.
  intros Hd. rewrite <-(take_drop k top) in Hd. by apply StronglySorted_app_1_l in Hd.
Qed.

Lemma descending_insert r top :
  descending top →
  descending (take (scan_left top (er_runs r) (length top)) top ++
              r :: drop (scan_left top (er_runs r) (length top)) top).
Proof.
  intros Hd. destruct (scan_left_split top (er_runs r) Hd) as [H1 H2].
  set (k := scan_left _ _ _) in *. apply StronglySorted_app_2.
  - intros a b Ha [->|Hb]%elem_of_cons; [by apply H1|].
    apply H1 in Ha. apply H2 in Hb. lia.
  - by apply descending_take.
  - constructor.
    + rewrite <-(take_drop k top) in Hd. by apply StronglySorted_app_1_r in Hd.
    + apply Forall_forall. intros b Hb. apply H2 in Hb. lia.
Qed.

(** What the report promises about the effects counted so far. *)
Record reported runs (seen : list nat) top : Prop := {
  rp_desc : descending top;
  rp_len : length top ≤ 8;
  rp_true : ∀ r, r ∈ top → er_effect r ∈ seen ∧ er_runs r = runs_of runs (er_effect r) ∧ er_runs r ≠ 0;
  rp_top : ∀ e, e ∈ seen → runs_of runs e ≠ 0 →
    MkEffectRuns e (runs_of runs e) ∈ top ∨
    (length top = 8 ∧ ∀ r, r ∈ top → runs_of runs e ≤ er_runs r);
}.

Lemma reported_insert runs seen top e :
  reported runs seen top → runs_of runs e ≠ 0 →
  let n := runs_of runs e in let k := scan_left top n (length top) in
  k < 8 →
  reported runs (seen ++ [e]) (take 8 (take k top ++ MkEffectRuns e n :: drop k top)).
Proof.
  intros [D L T P] Hn n k Hk. set (l := take k top ++ MkEffectRuns e n :: drop k top).
  destruct (scan_left_spec top n (length top) (le_n _)) as (S1 & _). fold k in S1.
  assert (Hl : length l = S (length top)).
  { unfold l. rewrite length_app, length_take. simpl. rewrite length_drop. lia. }
  assert (Hmem : ∀ r, r ∈ l ↔ r = MkEffectRuns e n ∨ r ∈ top).
  { intros r. unfold l. rewrite elem_of_app, elem_of_cons.
    rewrite <-(take_drop k top) at 3. rewrite elem_of_app. tauto. }
  assert (Hdl : descending l) by (apply (descending_insert (MkEffectRuns e n)); done).
  assert (Hcut : ∀ r r', r ∈ l → r ∉ take 8 l → r' ∈ take 8 l → er_runs r ≤ er_runs r').
  { intros r r' Hr Hnr Hr'. rewrite <-(take_drop 8 l) in Hdl, Hr.
    apply elem_of_app in Hr as [Hr|Hr]; [done|].
    eapply (StronglySorted_app_1_elem_of (λ a b, er_runs b ≤ er_runs a)); [exact Hdl|done|done]. }
  assert (Hsub : ∀ r, r ∈ take 8 l → r ∈ l).
  { intros r Hr. rewrite <-(take_drop 8 l). apply elem_of_app. by left. }
  assert (Hnew : MkEffectRuns e n ∈ take 8 l).
  { apply list_elem_of_lookup. exists k. apply lookup_take_Some. split; [|done].
    unfold l. apply list_lookup_middle. rewrite length_take. lia. }
  split.
  - by apply descending_take.
  - rewrite length_take. lia.
  - intros r Hr%Hsub%Hmem. destruct Hr as [->|Hr]; simpl.
    + split_and!; [|done|done]. apply elem_of_app. right. apply list_elem_of_here.
    + destruct (T r Hr) as (T1 & T2 & T3). split_and!; [|done|done]. apply elem_of_app. by left.
  - intros x Hx Hnx. apply elem_of_app in Hx as [Hx| ->%list_elem_of_singleton]; [|by left].
    assert (Hfull : length top = 8 → length (take 8 l) = 8) by (rewrite length_take; lia).
    destruct (P x Hx Hnx) as [Hin|[H8 Hall]].
    + destruct (decide (MkEffectRuns x (runs_of runs x) ∈ take 8 l)) as [|Hnot]; [by left|right].
      assert (Hinl : MkEffectRuns x (runs_of runs x) ∈ l) by (apply Hmem; by right).
      split.
      * destruct (decide (length top = 8)); [by apply Hfull|]. exfalso. apply Hnot.
        rewrite take_ge; [done|]. lia.
      * intros r Hr. by apply (Hcut _ r Hinl Hnot Hr).
    + right. split; [by apply Hfull|]. intros r Hr%Hsub%Hmem. destruct Hr as [->|Hr]; [|by apply Hall].
      simpl. (* the new entry pushed one of the eight out *)
      assert (Hlast : ∃ r0, r0 ∈ top ∧ er_runs r0 ≤ n).
      { destruct (lookup_lt_is_Some_2 l 8) as [r0 Hr0]; [lia|].
        assert (Hk8 : k < 8) by done.
        exists r0. assert (Hr0' : r0 ∈ drop k top).
        { unfold l in Hr0. rewrite lookup_app_r in Hr0 by (rewrite length_take; lia).
          rewrite length_take in Hr0. replace (8 - k `min` length top) with (S (7 - k)) in Hr0 by lia.
          simpl in Hr0. by eapply list_elem_of_lookup_2. }
        split; [rewrite <-(take_drop k top); apply elem_of_app; by right|].
        destruct (scan_left_split top n D) as [_ H2]. fold k in H2. specialize (H2 r0 Hr0'). lia. }
      destruct Hlast as (r0 & Hr0 & Hle). specialize (Hall r0 Hr0). lia.
Qed.

Lemma reported_step runs seen top e :
  reported runs seen top →
  reported runs (seen ++ [e])
    (let n := default 0 (runs !! e) in
     let at_ := scan_left top n (length top) in
     if decide (n = 0) then top
     else if decide (8 ≤ at_) then top
     else take 8 (take at_ top ++ MkEffectRuns e n :: drop at_ top)).
Proof.
  intros HR. cbv zeta. fold (runs_of runs e).
  assert (Hskip : (runs_of runs e ≠ 0 → length top = 8 ∧ ∀ r, r ∈ top → runs_of runs e ≤ er_runs r) →
    reported runs (seen ++ [e]) top).
  { intros He. destruct HR as [D L T P]. split; try done.
    - intros r Hr. destruct (T r Hr) as (T1 & T2). split; [apply elem_of_app; by left|done].
    - intros x Hx Hn. apply elem_of_app in Hx as [Hx| ->%list_elem_of_singleton]; [by apply P|].
      right. by apply He. }
  case_decide as Hn; [by apply Hskip|]. case_decide as Hk.
  - apply Hskip. intros _. destruct (scan_left_spec top (runs_of runs e) (length top) (le_n _)) as (S1 & _).
    pose proof (rp_len _ _ _ HR). split; [lia|]. intros r Hr.
    destruct (scan_left_split top (runs_of runs e) (rp_desc _ _ _ HR)) as [H1 _].
    apply H1. rewrite take_ge; [done|lia].
  - apply reported_insert; [done|done|lia].
Qed.

(** [topEffectRuns] reports at most eight effects, busiest first, each with
    its true non-zero run count, and any effect that ran but is left out ran no
    more often than every one of the eight reported. *)
Theorem topEffectRuns_reports_busiest order runs :
  let top := topEffectRuns order runs in
  StronglySorted (λ a b, er_runs b ≤ er_runs a) top ∧ length top ≤ 8 ∧
  (∀ r, r ∈ top → er_effect r ∈ order ∧ runs !! er_effect r = Some (er_runs r) ∧ er_runs r ≠ 0) ∧
  (∀ e n, e ∈ order → runs !! e = Some n → n ≠ 0 →
    MkEffectRuns e n ∈ top ∨ (length top = 8 ∧ ∀ r, r ∈ top → n ≤ er_runs r)).
Proof.
  cbv zeta. assert (HR : reported runs order (topEffectRuns order runs)).
  { unfold topEffectRuns.
    assert (Hgen : ∀ l seen top, reported runs seen top → reported runs (seen ++ l) (foldl (λ top e,
      let n := default 0 (runs !! e) in
      let at_ := scan_left top n (length top) in
      if decide (n = 0) then top
      else if decide (8 ≤ at_) then top
      else take 8 (take at_ top ++ MkEffectRuns e n :: drop at_ top)) top l)).
    { induction l as [|e l IH]; intros seen top HR; simpl; [by rewrite app_nil_r|].
      replace (seen ++ e :: l) with ((seen ++ [e]) ++ l) by (by rewrite <-app_assoc).
      apply IH. by apply reported_step. }
    apply (Hgen order [] []).
    split; [constructor|simpl; lia|by intros r ?%elem_of_nil|by intros e ?%elem_of_nil]. }
  destruct HR as [D L T P]. split_and!; [done|done| |].
  - intros r Hr. destruct (T r Hr) as (T1 & T2 & T3). split_and!; [done| |done].
    unfold runs_of in T2. destruct (runs !! er_effect r); simpl in *; congruence.
  - intros e n He Hn Hn0. specialize (P e He). unfold runs_of in P. rewrite Hn in P. by apply P.
Qed.
End top_effects.

(** ** Concrete instances *)

(** The demonstration after its source is disposed. *)
Definition demo_torn : @ctx Z :=
  match disposeNode ascending 0%Z 1 0 demo with Ok _ c => c | _ => demo end.

Lemma demo_torn_disposals : disposals 0%Z ascending earlier demo_torn.
Proof.
  eapply (disposals_step _ _ _ demo 0 0); [constructor; exact demo_history| |vm_compute; reflexivity].
  intros m. vm_compute. intros [= <-]. done.
Qed.

Lemma Kernel_dispose_tears_down_witness :
  ∃ c', disposeNode ascending 0%Z 1 1 demo_torn = Ok tt c' ∧ torn 1 demo_torn c' ∧
    disposeNode ascending 0%Z 1 1 c' = Ok tt c'.
Proof.
  apply (Kernel_dispose_tears_down 0%Z ascending earlier earlier demo_torn 1 0).
  - exact demo_torn_disposals.
  - vm_compute. reflexivity.
  - vm_compute. reflexivity.
  - vm_compute. reflexivity.
  - vm_compute. reflexivity.
Defined.

Lemma Kernel_stale_handle_never_resolves_witness :
  resolveNode 1 occupantComputed
    (foldl arena_step (retireNode 1 demo) [Register 7 occupantComputed; Retire 7]) = None.
Proof.
  apply (Kernel_stale_handle_never_resolves demo 1 occupantComputed
    (MkOccupantSlot 0 occupantComputed (Some 1)) [Register 7 occupantComputed; Retire 7]).
  - vm_compute. reflexivity.
  - vm_compute. reflexivity.
  - simpl. lia.
  - vm_compute. reflexivity.
  - repeat constructor. lia.
Defined.

(** ** Where the kernel does not keep its promise

    [sum] reads [a] directly and through [b]; visiting [b] before [a] in
    [refresh] (Go's map order may) leaves [sum] marked clean with the old
    value, because only the local [dependencyChanged] is consulted after the
    walk and not the [forceRecompute] that the walk raised. *)

Definition desc (_ : @ctx Z) (s : gset nat) : list nat := rev (merge_sort Nat.le (elements s)).

Definition shortcut (ord : @ctx Z → gset nat → list nat) : @M Z Z :=
  s ← NewSource 1%Z;
  a ← NewComputed (Read true s Ret);
  b ← NewComputed (Read true a (λ v, Ret (v mod 2)%Z));
  sum ← NewComputed (Read true a (λ v, Read true b (λ w, Ret (v * 10 + w)%Z)));
  Get ord 0%Z 9 sum;; Set' ord 0%Z 9 s 3%Z;; Get ord 0%Z 9 sum.

Lemma refresh_order_matters :
  (∃ c, shortcut ascending NewContext = Ok 31%Z c) ∧ (∃ c, shortcut desc NewContext = Ok 11%Z c).
Proof. split; eexists; vm_compute; reflexivity. Qed.

(** A [DisposedError] raised during the dependency walk leaves [refreshing]
    set: the second [TryGet] reports no error and returns the stale value. *)
Definition stuck : @M Z (Z + kernel_error) :=
  s ← NewSource 1%Z;
  x ← NewComputed (Read true s Ret);
  m ← NewComputed (Read true x Ret);
  n ← NewComputed (Read true m Ret);
  Get ascending 0%Z 9 n;; disposeNode ascending 0%Z 9 x;;
  r ← TryGet ascending 0%Z 9 n;
  match r with inr _ => TryGet ascending 0%Z 9 n | inl _ => mret r end.

Lemma TryGet_stale_after_error : ∃ c, stuck NewContext = Ok (inl 1%Z) c.
Proof. eexists. vm_compute. reflexivity. Qed.

(** The sync drain never fills [drainOrder], so an exhausted drain names no
    effect. *)
Definition feedback : @M Z unit :=
  modify (SetDrainBudget 5);;
  s ← NewSource 0%Z;
  e ← NewEffect ascending 0%Z 9 (ERead true s (λ v, ESet s (v + 1)%Z (EDone None)));
  Set' ascending 0%Z 99 s 10%Z.

Lemma exhaustion_names_nobody :
  ∃ c, feedback NewContext = Ok tt c ∧ lastDrainExhaustion c = Some (MkDrainExhaustion 5 5 []) ∧
    drainRuns c !! 1 = Some 5.
Proof. eexists. split_and!; vm_compute; reflexivity. Qed.

(** An effect whose first run writes what it read is not run again: the nested
    flush pops it while it is still running. *)
Lemma first_run_write_lost :
  ∃ c, (s ← NewSource 0%Z;
        _ ← NewEffect ascending 0%Z 9
              (ERead true s (λ v, EEmit v (if decide (v = 0%Z) then ESet s 1%Z (EDone None) else EDone None)));
        mret tt) NewContext = Ok tt c ∧ out c = [0%Z] ∧ pendingEffects c = [].
Proof. eexists. split_and!; vm_compute; reflexivity. Qed.

(** A teardown dirties a computed without scheduling the effects below it, and
    a later write stops at that dirty node: the effect is never scheduled again
    although the computed no longer reads what was disposed. *)
Lemma effect_starved_after_dispose :
  ∃ c, (a ← NewSource 0%Z;
        x ← NewSource 7%Z;
        m ← NewComputed (Read true a Ret);
        n ← NewComputed (Read true m (λ v, if decide (v = 0%Z) then Read true x Ret else Ret v));
        _ ← NewEffect ascending 0%Z 9 (ERead true n (λ v, EEmit v (EDone None)));
        disposeNode ascending 0%Z 9 x;;
        Set' ascending 0%Z 9 a 5%Z;;
        Get ascending 0%Z 9 n) NewContext = Ok 5%Z c ∧ out c = [7%Z] ∧ pendingEffects c = [].
Proof. eexists. split_and!; vm_compute; reflexivity. Qed.
