(* ===== verification/SeqCrdt.v ===== *)
(** * SeqCrdt: the move-aware sequence CRDT (seq_crdt.go)

    Each element is three last-writer-wins registers (value, position, deleted)
    stamped by the hybrid clock; order is lexicographic on fractional keys.
    The mirror fields [valueStamp], [posStamp], [delStamp] of [seqEntry] are
    written at creation and read by nobody; the model leaves them out. *)

From S2P Require Import Prelude Hlc.

(** ** Last-writer-wins registers *)

Section lww.
Context {V : Type}.

(** [seq_crdt.go] [type LwwRegister] *)
Record LwwRegister := mkLww { Value : V; Stamp : HlcStamp }.

(** [seq_crdt.go] [NewLwwRegister] *)
Definition NewLwwRegister (value : V) (stamp : HlcStamp) : LwwRegister := mkLww value stamp.

(** [seq_crdt.go] [LwwRegister.Set] *)
Definition LwwRegister_Set (r : LwwRegister) (newValue : V) (newStamp : HlcStamp)
    : LwwRegister * bool :=
  if (0 <? HlcStamp_Compare newStamp (Stamp r))%Z then (mkLww newValue newStamp, true)
  else (r, false).

(** [seq_crdt.go] [LwwRegister.MergeFrom] *)
Definition LwwRegister_MergeFrom (r other : LwwRegister) : LwwRegister * bool :=
  LwwRegister_Set r (Value other) (Stamp other).

(** Stamps are unique per event: [vals] gives the value written under each. *)
Definition lww_wf (vals : HlcStamp → V) (r : LwwRegister) : Prop := Value r = vals (Stamp r).

Lemma MergeFrom_stamp r s :
  Stamp (LwwRegister_MergeFrom r s).1 = cmp_max (cmp := HlcStamp_Compare) (Stamp r) (Stamp s).
Proof.
  unfold LwwRegister_MergeFrom, LwwRegister_Set, cmp_max.
  destruct (Z.ltb_spec 0 (HlcStamp_Compare (Stamp s) (Stamp r)));
    destruct (Z.leb_spec (HlcStamp_Compare (Stamp s) (Stamp r)) 0); try done; lia.
Qed.

Lemma MergeFrom_wf vals r s :
  lww_wf vals r → lww_wf vals s → lww_wf vals (LwwRegister_MergeFrom r s).1.
Proof. unfold LwwRegister_MergeFrom, LwwRegister_Set. intros. by case_match. Qed.

Lemma lww_eq vals r s : lww_wf vals r → lww_wf vals s → Stamp r = Stamp s → r = s.
Proof. destruct r, s; unfold lww_wf; simpl. intros -> ->. by intros ->. Qed.

#[export] Instance lww_join vals :
  Join LwwRegister (λ r s, (LwwRegister_MergeFrom r s).1) (lww_wf vals).
Proof.
  split.
  - apply MergeFrom_wf.
  - intros x y Hx Hy. apply (lww_eq vals); [by apply MergeFrom_wf..|].
    rewrite !MergeFrom_stamp. by apply (join_comm (wf := λ _, True)).
  - intros x y z Hx Hy Hz. apply (lww_eq vals); [repeat apply MergeFrom_wf; done..|].
    rewrite !MergeFrom_stamp. by apply (join_assoc (wf := λ _, True)).
  - intros x Hx. apply (lww_eq vals); [by apply MergeFrom_wf|done|].
    rewrite MergeFrom_stamp. by apply (join_idem (wf := λ _, True)).
Qed.

Lemma MergeFrom_flag r s :
  (LwwRegister_MergeFrom r s).2 = true ↔ Stamp (LwwRegister_MergeFrom r s).1 ≠ Stamp r.
Proof.
  unfold LwwRegister_MergeFrom, LwwRegister_Set.
  destruct (Z.ltb_spec 0 (HlcStamp_Compare (Stamp s) (Stamp r))); simpl; [|done].
  split; [|done]. intros _ Heq. rewrite Heq, (cmp_refl (cmp := HlcStamp_Compare)) in *. lia.
Qed.

Lemma MergeFrom_unchanged r s :
  (LwwRegister_MergeFrom r s).2 = false → (LwwRegister_MergeFrom r s).1 = r.
Proof. unfold LwwRegister_MergeFrom, LwwRegister_Set. by case_match. Qed.
End lww.
Arguments LwwRegister : clear implicits.

(** ** Positions and fractional keys *)

(** A byte string; each byte is a [Z] in [0..255]. *)
Definition frac := list Z.

(** [seq_crdt.go] [type Position] *)
Record Position := mkPosition { Frac : frac; PosPeer : PeerId }.

(** The shared prefix byte by byte, then the shorter key, then the peer.
    [seq_crdt.go] [Position.Compare] *)
Fixpoint frac_Compare (a b : frac) : Z :=
  match a, b with
  | [], [] => 0
  | [], _ :: _ => -1
  | _ :: _, [] => 1
  | x :: a, y :: b => if (x =? y)%Z then frac_Compare a b else if (x <? y)%Z then -1 else 1
  end.

(** [seq_crdt.go] [Position.Compare] *)
Definition Position_Compare (p other : Position) : Z :=
  let c := frac_Compare (Frac p) (Frac other) in
  if negb (c =? 0)%Z then c
  else if negb (PosPeer p =? PosPeer other)%Z then if (PosPeer p <? PosPeer other)%Z then -1 else 1
  else 0.

(** [keyBetween lo nil]: with no upper bound every round either returns or
    recurses on the rest of [lo].
    [seq_crdt.go] [keyBetween] *)
Fixpoint key_above (lo : frac) : frac :=
  let a := hd 0%Z lo in
  if (a + 1 <? 256)%Z then [((a + 256) / 2)%Z]
  else a :: match lo with [] => [] | _ :: lo => key_above lo end.

(** The loop of [keyBetween] below a bound; [rounds] is [capLen + 1 - i] and
    [lo], [hi] are [lo[i:]], [hi[i:]].
    [seq_crdt.go] [keyBetween] *)
Fixpoint key_loop (rounds : nat) (lo hi : frac) : frac :=
  match rounds with
  | 0 => [128%Z]
  | S rounds =>
      let a := hd 0%Z lo in
      let b := hd 0%Z hi in
      if (a + 1 <? b)%Z then [((a + b) / 2)%Z]
      else a :: (if (a <? b)%Z then key_above (tl lo) else key_loop rounds (tl lo) (tl hi))
  end.

(** A nil bound is [None]; a nil and an empty [lo] behave alike.
    [seq_crdt.go] [keyBetween] *)
Definition keyBetween (lo hi : option frac) : frac :=
  let lo := default [] lo in
  match hi with
  | None => key_above lo
  | Some hi => key_loop (length lo + length hi + 3) lo hi
  end.

(** ** The replica *)

Section seq.
Context {Id V : Type} `{Countable Id}.

(** [seq_crdt.go] [type seqEntry] *)
Record seqEntry := mkSeqEntry {
  value : LwwRegister V;
  position : LwwRegister Position;
  deleted : LwwRegister bool;
}.

(** [seq_crdt.go] [seqEntry.maxStamp] *)
Definition maxStamp (e : seqEntry) : HlcStamp :=
  MaxStamp (Stamp (value e)) (MaxStamp (Stamp (position e)) (Stamp (deleted e))).

(** [seq_crdt.go] [seqEntry.mergeFrom] *)
Definition mergeFrom (e other : seqEntry) : seqEntry * bool :=
  let '(v, c1) := LwwRegister_MergeFrom (value e) (value other) in
  let '(p, c2) := LwwRegister_MergeFrom (position e) (position other) in
  let '(d, c3) := LwwRegister_MergeFrom (deleted e) (deleted other) in
  (mkSeqEntry v p d, c1 || c2 || c3).

(** [seq_crdt.go] [type SeqCrdt] *)
Record SeqCrdt := mkSeqCrdt { peer : PeerId; hlc : Hlc; entries : gmap Id seqEntry }.

(** [seq_crdt.go] [NewSeqCrdt] *)
Definition NewSeqCrdt (peer : PeerId) : SeqCrdt := mkSeqCrdt peer (NewHlc peer) ∅.

(** [seq_crdt.go] [SeqCrdt.stamp] *)
Definition stamp (s : SeqCrdt) (nowMicros : Z) : SeqCrdt * HlcStamp :=
  let '(h, st) := Hlc_Tick (hlc s) nowMicros in (mkSeqCrdt (peer s) h (entries s), st).

Definition with_entries (f : gmap Id seqEntry → gmap Id seqEntry) (s : SeqCrdt) : SeqCrdt :=
  mkSeqCrdt (peer s) (hlc s) (f (entries s)).

(** [seq_crdt.go] [SeqCrdt.fracOf] *)
Definition fracOf (s : SeqCrdt) (ref : option Id) : option frac :=
  i ← ref; e ← entries s !! i; Some (Frac (Value (position e))).

(** [seq_crdt.go] [SeqCrdt.InsertBetween] *)
Definition InsertBetween (s : SeqCrdt) (id : Id) (v : V) (left right : option Id) (nowMicros : Z)
    : SeqCrdt :=
  match entries s !! id with
  | Some _ => s
  | None =>
      let pos := mkPosition (keyBetween (fracOf s left) (fracOf s right)) (peer s) in
      let '(s, st) := stamp s nowMicros in
      with_entries (<[id := mkSeqEntry (NewLwwRegister v st) (NewLwwRegister pos st)
                               (NewLwwRegister false st)]>) s
  end.

(** Live ids with their positions, in map iteration order. *)
Definition live_items (s : SeqCrdt) : list (Id * Position) :=
  omap (λ ie, if Value (deleted ie.2) then None else Some (ie.1, Value (position ie.2)))
    (map_to_list (entries s)).

Definition better (lt : Z → bool) (best : option (Id * Position)) (it : Id * Position) :=
  match best with
  | None => Some it
  | Some b => if lt (Position_Compare it.2 b.2) then Some it else best
  end.

(** [seq_crdt.go] [SeqCrdt.firstId] *)
Definition firstId (s : SeqCrdt) : option Id :=
  fst <$> foldl (better (λ c, c <? 0)%Z) None (live_items s).
(** [seq_crdt.go] [SeqCrdt.lastId] *)
Definition lastId (s : SeqCrdt) : option Id :=
  fst <$> foldl (better (λ c, 0 <? c)%Z) None (live_items s).

(** [seq_crdt.go] [SeqCrdt.InsertBack] *)
Definition InsertBack s id v now := InsertBetween s id v (lastId s) None now.
(** [seq_crdt.go] [SeqCrdt.InsertFront] *)
Definition InsertFront s id v now := InsertBetween s id v None (firstId s) now.

(** Write one register of an existing entry under a fresh stamp. *)
Definition set_register (s : SeqCrdt) (id : Id) (nowMicros : Z)
    (f : seqEntry → HlcStamp → seqEntry * bool) : SeqCrdt * bool :=
  match entries s !! id with
  | None => (s, false)
  | Some e =>
      let '(s, st) := stamp s nowMicros in
      let '(e, changed) := f e st in
      (with_entries (<[id := e]>) s, changed)
  end.

(** [seq_crdt.go] [SeqCrdt.SetValue] *)
Definition SetValue (s : SeqCrdt) (id : Id) (v : V) (nowMicros : Z) : SeqCrdt * bool :=
  set_register s id nowMicros (λ e st,
    let '(r, c) := LwwRegister_Set (value e) v st in (mkSeqEntry r (position e) (deleted e), c)).

(** [seq_crdt.go] [SeqCrdt.MoveBetween] *)
Definition MoveBetween (s : SeqCrdt) (id : Id) (left right : option Id) (nowMicros : Z)
    : SeqCrdt * bool :=
  let pos := mkPosition (keyBetween (fracOf s left) (fracOf s right)) (peer s) in
  set_register s id nowMicros (λ e st,
    let '(r, c) := LwwRegister_Set (position e) pos st in (mkSeqEntry (value e) r (deleted e), c)).

(** [seq_crdt.go] [SeqCrdt.Remove] *)
Definition Remove (s : SeqCrdt) (id : Id) (nowMicros : Z) : SeqCrdt * bool :=
  set_register s id nowMicros (λ e st,
    let '(r, c) := LwwRegister_Set (deleted e) true st in (mkSeqEntry (value e) (position e) r, c)).

Definition pos_le (a b : Id * Position) : Prop := (Position_Compare a.2 b.2 ≤ 0)%Z.
#[export] Instance pos_le_dec a b : Decision (pos_le a b).
Proof. unfold pos_le. apply _. Defined.

(** [sort.Slice] may order ties either way; [merge_sort] is one such order.
    [seq_crdt.go] [SeqCrdt.orderedIds] *)
Definition orderedIds (s : SeqCrdt) : list Id := (merge_sort pos_le (live_items s)).*1.

(** [seq_crdt.go] [seqIndexOf] *)
Definition seqIndexOf (l : list Id) (target : Id) : option nat :=
  fst <$> list_find (λ x, x = target) l.

(** [seq_crdt.go] [SeqCrdt.MoveAfter] *)
Definition MoveAfter (s : SeqCrdt) (id anchor : Id) (nowMicros : Z) : SeqCrdt * bool :=
  let order := orderedIds s in
  match seqIndexOf order anchor with
  | None => (s, false)
  | Some ai => MoveBetween s id (Some anchor) (order !! (ai + 1)) nowMicros
  end.

(** [seq_crdt.go] [SeqCrdt.MoveBefore] *)
Definition MoveBefore (s : SeqCrdt) (id anchor : Id) (nowMicros : Z) : SeqCrdt * bool :=
  let order := orderedIds s in
  match seqIndexOf order anchor with
  | None => (s, false)
  | Some ai =>
      MoveBetween s id (match ai with 0 => None | S i => order !! i end) (Some anchor) nowMicros
  end.

(** [seq_crdt.go] [SeqCrdt.Contains] *)
Definition Contains (s : SeqCrdt) (id : Id) : bool :=
  match entries s !! id with Some e => negb (Value (deleted e)) | None => false end.

(** [seq_crdt.go] [SeqCrdt.Get] *)
Definition Get (s : SeqCrdt) (id : Id) : option V :=
  match entries s !! id with
  | Some e => if Value (deleted e) then None else Some (Value (value e))
  | None => None
  end.

(** [seq_crdt.go] [SeqCrdt.Values] *)
Definition Values (s : SeqCrdt) : list (Id * V) :=
  omap (λ i, pair i <$> Get s i) (orderedIds s).

(** [seq_crdt.go] [SeqCrdt.TombstoneCount] *)
Definition TombstoneCount (s : SeqCrdt) : nat :=
  length (filter (λ ie, Is_true (Value (deleted ie.2))) (map_to_list (entries s))).

(** [seq_crdt.go] [SeqCrdt.Fork] *)
Definition Fork (s : SeqCrdt) (p : PeerId) : SeqCrdt :=
  mkSeqCrdt p (mkHlc p (lastWall (hlc s)) (lastLogical (hlc s))) (entries s).

(** One round of the range over [other.entries] of [Merge]. *)
Definition merge_one (m : gmap Id seqEntry) (ke : Id * seqEntry) : gmap Id seqEntry * bool :=
  match m !! ke.1 with
  | Some existing => let '(e, c) := mergeFrom existing ke.2 in (<[ke.1 := e]> m, c)
  | None => (<[ke.1 := ke.2]> m, true)
  end.

(** [order1] and [order2] are the orders in which Go ranges over
    [other.entries].
    [seq_crdt.go] [SeqCrdt.Merge] *)
Definition MergeIn (order1 order2 : list (Id * seqEntry)) (s : SeqCrdt) (nowMicros : Z)
    : SeqCrdt * bool :=
  let h := foldl (λ h ke, (Hlc_Observe h (maxStamp ke.2) nowMicros).1) (hlc s) order1 in
  let '(m, changed) := fold_changed merge_one (entries s) order2 in
  (mkSeqCrdt (peer s) h m, changed).

(** [seq_crdt.go] [SeqCrdt.Merge] *)
Definition Merge (s other : SeqCrdt) (nowMicros : Z) : SeqCrdt * bool :=
  MergeIn (map_to_list (entries other)) (map_to_list (entries other)) s nowMicros.

(** [seq_crdt.go] [SeqCrdt.GcWith] *)
Definition GcWith (s : SeqCrdt) (isStable : HlcStamp → bool) : SeqCrdt * nat :=
  let dead := filter (λ ie : Id * seqEntry,
    Is_true (Value (deleted ie.2) && isStable (Stamp (deleted ie.2)))) (map_to_list (entries s)) in
  (with_entries (λ m, foldr (λ ie, delete ie.1) m dead) s, length dead).

(** [seq_crdt.go] [SeqCrdt.Gc] *)
Definition Gc (s : SeqCrdt) (watermark : HlcStamp) : SeqCrdt * nat :=
  GcWith s (λ st, HlcStamp_Compare st watermark <=? 0)%Z.
End seq.
Arguments seqEntry : clear implicits.
Arguments SeqCrdt Id V {_ _}.

(** ** Fractional keys *)

Section keys.
Local Open Scope Z_scope.

Definition byte (b : Z) : Prop := 0 ≤ b < 256.
(** The keys the program makes: bytes, not ending in zero. *)
Definition canon (k : frac) : Prop := Forall byte k ∧ last k ≠ Some 0.

Lemma canon_nil : canon [].
Proof. split; [constructor|done]. Qed.

Lemma canon_tail x k : canon (x :: k) → byte x ∧ canon k.
Proof.
  intros [Hb Hl]. inversion Hb; subst. split; [done|]. split; [done|].
  destruct k; [done|]. by rewrite last_cons_cons in Hl.
Qed.

Lemma canon_cons x k : byte x → canon k → (k = [] → x ≠ 0) → canon (x :: k).
Proof.
  intros Hx [Hb Hl] Hk. split; [by constructor|].
  destruct k as [|y k]; [simpl; intros [= ->]; by apply Hk|by rewrite last_cons_cons].
Qed.

Lemma canon_one x : 0 < x < 256 → canon [x].
Proof. intros. apply canon_cons; [unfold byte; lia|apply canon_nil|lia]. Qed.

Lemma frac_Compare_same x a b : frac_Compare (x :: a) (x :: b) = frac_Compare a b.
Proof. simpl. by rewrite Z.eqb_refl. Qed.

Lemma frac_Compare_lt x y a b : x < y → frac_Compare (x :: a) (y :: b) = -1.
Proof. intros. simpl. destruct (Z.eqb_spec x y); [lia|]. destruct (Z.ltb_spec x y); [done|lia]. Qed.

Lemma frac_Compare_cons_lt x y a b :
  frac_Compare (x :: a) (y :: b) < 0 → x < y ∨ x = y ∧ frac_Compare a b < 0.
Proof.
  simpl. destruct (Z.eqb_spec x y); [auto|]. destruct (Z.ltb_spec x y); [auto|lia].
Qed.

Lemma mid_bounds a b : a + 1 < b → a < (a + b) / 2 < b.
Proof. intros. pose proof (Z.div_mod (a + b) 2). pose proof (Z.mod_pos_bound (a + b) 2). lia. Qed.

Lemma key_above_spec lo :
  canon lo → canon (key_above lo) ∧ frac_Compare lo (key_above lo) < 0 ∧ key_above lo ≠ [].
Proof.
  induction lo as [|x lo IH]; intros Hc.
  - split_and!; [by apply canon_one|simpl; lia|done].
  - apply canon_tail in Hc as [Hx Hc]. cbn [key_above hd]. unfold byte in Hx.
    destruct (Z.ltb_spec (x + 1) 256).
    + pose proof (mid_bounds x 256). split_and!; [apply canon_one; lia| |done].
      rewrite frac_Compare_lt by lia. lia.
    + destruct (IH Hc) as (I1 & I2 & I3). split_and!; [|by rewrite frac_Compare_same|done].
      by apply canon_cons.
Qed.

Lemma key_loop_spec rounds lo hi :
  (length hi ≤ rounds)%nat → canon lo → canon hi → frac_Compare lo hi < 0 →
  canon (key_loop rounds lo hi) ∧ frac_Compare lo (key_loop rounds lo hi) < 0 ∧
  frac_Compare (key_loop rounds lo hi) hi < 0 ∧ key_loop rounds lo hi ≠ [].
Proof.
  revert lo hi. induction rounds as [|rounds IH]; intros lo hi Hr Hlo Hhi Hlt.
  { destruct hi; [by destruct lo|simpl in Hr; lia]. }
  destruct hi as [|y hi]; [by destruct lo|]. simpl in Hr.
  apply canon_tail in Hhi as Hhi'. destruct Hhi' as [Hy Hhi']. unfold byte in Hy.
  destruct lo as [|x lo].
  - cbn [key_loop hd tl]. change (0 + 1) with 1. destruct (Z.ltb_spec 1 y).
    + pose proof (mid_bounds 0 y).
      split_and!; [apply canon_one; lia|simpl; lia| |done]. rewrite frac_Compare_lt by lia. lia.
    + destruct (Z.ltb_spec 0 y).
      * split_and!; [|simpl; lia| |done].
        -- apply canon_cons; [unfold byte; lia|apply (key_above_spec []), canon_nil|done].
        -- rewrite frac_Compare_lt by lia. lia.
      * assert (y = 0) as -> by lia.
        assert (Hne : frac_Compare [] hi < 0).
        { destruct hi; [|simpl; lia]. destruct Hhi as [_ Hl]. done. }
        destruct (IH [] hi) as (I1 & I2 & I3 & I4); [lia|apply canon_nil|done..|].
        split_and!; [by apply canon_cons|simpl; lia|by rewrite frac_Compare_same|done].
  - apply canon_tail in Hlo as Hlo'. destruct Hlo' as [Hx Hlo']. unfold byte in Hx.
    cbn [key_loop hd tl]. apply frac_Compare_cons_lt in Hlt.
    destruct (Z.ltb_spec (x + 1) y).
    + pose proof (mid_bounds x y). split_and!; [apply canon_one; lia| | |done];
        rewrite frac_Compare_lt by lia; lia.
    + destruct (Z.ltb_spec x y).
      * destruct (key_above_spec lo Hlo') as (K1 & K2 & K3).
        split_and!; [by apply canon_cons|by rewrite frac_Compare_same| |done].
        rewrite frac_Compare_lt by lia. lia.
      * destruct Hlt as [|[-> Hlt]]; [lia|].
        destruct (IH lo hi) as (I1 & I2 & I3 & I4); [lia|done..|].
        split_and!; [by apply canon_cons|by rewrite frac_Compare_same..|done].
Qed.

Lemma keyBetween_canon lo hi :
  (∀ l, lo = Some l → canon l) → (∀ h, hi = Some h → canon h) → canon (keyBetween lo hi).
Proof.
  intros Hlo Hhi. assert (Hl : canon (default [] lo)) by (destruct lo; [by apply Hlo|apply canon_nil]).
  unfold keyBetween. destruct hi as [h|]; [|by apply key_above_spec].
  assert (Hh : canon h) by by apply Hhi. clear Hlo Hhi. revert Hl Hh. generalize (default [] lo).
  intros l. generalize (length l + length h + 3)%nat. intros rounds. revert l h.
  induction rounds as [|rounds IH]; intros l h Hl Hh; [by apply canon_one|]. simpl.
  assert (Ha : byte (hd 0 l)).
  { destruct l; [unfold byte; simpl; lia|]. by apply canon_tail in Hl as [? _]. }
  assert (Hb : byte (hd 0 h)).
  { destruct h; [unfold byte; simpl; lia|]. by apply canon_tail in Hh as [? _]. }
  assert (Htl : canon (tl l)) by (destruct l; [done|by apply canon_tail in Hl as [_ ?]]).
  assert (Hth : canon (tl h)) by (destruct h; [done|by apply canon_tail in Hh as [_ ?]]).
  unfold byte in *. destruct (Z.ltb_spec (hd 0 l + 1) (hd 0 h)).
  { pose proof (mid_bounds (hd 0 l) (hd 0 h)). apply canon_one. lia. }
  destruct (Z.ltb_spec (hd 0 l) (hd 0 h)).
  - destruct (key_above_spec (tl l) Htl) as (K1 & _ & K3). by apply canon_cons.
  - apply canon_cons; [done|by apply IH|]. destruct rounds; simpl; [done|]. by repeat case_match.
Qed.

Lemma keyBetween_ne lo hi : keyBetween lo hi ≠ [].
Proof.
  unfold keyBetween. destruct hi as [h|].
  - rewrite Nat.add_comm. cbn [Nat.add key_loop]. by case_match.
  - destruct (default [] lo); cbn [key_above]; by case_match.
Qed.

(** [keyBetween] returns a key strictly between its bounds, for any bounds
    that are in order and were themselves made by [keyBetween] (bytes not
    ending in zero; a missing lower bound is minus infinity, a missing upper one
    plus infinity), and the key it returns can be a bound in turn. *)
Theorem keyBetween_strictly_between lo hi :
  (∀ l, lo = Some l → canon l) → (∀ h, hi = Some h → canon h) →
  (∀ l h, lo = Some l → hi = Some h → frac_Compare l h < 0) → hi ≠ Some [] →
  let k := keyBetween lo hi in
  canon k ∧ (∀ l, lo = Some l → frac_Compare l k < 0) ∧
  (∀ h, hi = Some h → frac_Compare k h < 0).
Proof.
  intros Hlo Hhi Hlt Hne. simpl. split; [by apply keyBetween_canon|].
  assert (Hl : canon (default [] lo)) by (destruct lo; [by apply Hlo|apply canon_nil]).
  unfold keyBetween. destruct hi as [h|].
  - assert (Hlh : frac_Compare (default [] lo) h < 0).
    { destruct lo as [l|]; [by apply Hlt|]. destruct h; [done|simpl; lia]. }
    destruct (key_loop_spec (length (default [] lo) + length h + 3) (default [] lo) h)
      as (_ & K2 & K3 & _); [lia|done|by apply Hhi|done|].
    split; [intros l ->; done|by intros ? [= <-]].
  - split; [|done]. intros l ->. by apply key_above_spec.
Qed.

Lemma keyBetween_strictly_between_witness :
  let k := keyBetween (Some [127; 255]) (Some [128]) in
  canon k ∧ (∀ l, Some [127; 255] = Some l → frac_Compare l k < 0) ∧
  (∀ h, Some [128] = Some h → frac_Compare k h < 0).
Proof.
  apply (keyBetween_strictly_between (Some [127; 255]) (Some [128])).
  - intros l [= <-]. split; [|done]. repeat (apply Forall_cons_2 || apply Forall_nil_2); unfold byte; lia.
  - intros h [= <-]. split; [|done]. repeat (apply Forall_cons_2 || apply Forall_nil_2); unfold byte; lia.
  - intros l h [= <-] [= <-]. reflexivity.
  - done.
Defined.
End keys.

(** ** Placement and convergence *)

Section theorems.
Context {Id V : Type} `{Countable Id}.
Implicit Types (s o : SeqCrdt Id V) (e : seqEntry V) (m : gmap Id (seqEntry V)).

Definition pos_of e : Position := Value (position e).
Definition good_key (k : frac) : Prop := canon k ∧ k ≠ [].
Definition canon_map m : Prop := ∀ i e, m !! i = Some e → good_key (Frac (pos_of e)).

Lemma fracOf_canon s ref l : canon_map (entries s) → fracOf s ref = Some l → good_key l.
Proof.
  intros Hc. unfold fracOf. intros (i & -> & (e & He & [= <-])%bind_Some)%bind_Some.
  by eapply Hc.
Qed.

Lemma canon_insert m i e : canon_map m → good_key (Frac (pos_of e)) → canon_map (<[i := e]> m).
Proof.
  intros Hm He j e'. destruct (decide (i = j)) as [->|Hne].
  - rewrite lookup_insert_eq. by intros [= <-].
  - rewrite lookup_insert_ne by done. apply Hm.
Qed.

Lemma stamp_entries s now : entries (stamp s now).1 = entries s.
Proof. unfold stamp. by destruct (Hlc_Tick _ _). Qed.

Lemma new_frac_canon s left right :
  canon_map (entries s) → good_key (keyBetween (fracOf s left) (fracOf s right)).
Proof.
  intros Hc. split; [|apply keyBetween_ne].
  apply keyBetween_canon; intros k Hk; by apply (fracOf_canon s _ _ Hc Hk).
Qed.

Lemma InsertBetween_canon s i v l r now :
  canon_map (entries s) → canon_map (entries (InsertBetween s i v l r now)).
Proof.
  intros Hc. unfold InsertBetween. destruct (entries s !! i); [done|].
  pose proof (stamp_entries s now) as Hs. destruct (stamp s now) as [s' st]. simpl in *. subst.
  rewrite Hs. apply canon_insert; [done|]. by apply new_frac_canon.
Qed.

Lemma set_register_canon s i now f :
  canon_map (entries s) →
  (∀ e st, entries s !! i = Some e → good_key (Frac (pos_of (f e st).1))) →
  canon_map (entries (set_register s i now f).1).
Proof.
  intros Hc Hf. unfold set_register. destruct (entries s !! i) as [e|] eqn:Ee; [|done].
  pose proof (stamp_entries s now) as Hs. destruct (stamp s now) as [s' st]. simpl in *.
  specialize (Hf e st eq_refl). destruct (f e st) as [e' c]. simpl in *. rewrite Hs.
  by apply canon_insert.
Qed.

Lemma mergeFrom_pos e e' : pos_of (mergeFrom e e').1 = pos_of e ∨ pos_of (mergeFrom e e').1 = pos_of e'.
Proof.
  unfold mergeFrom, pos_of, LwwRegister_MergeFrom, LwwRegister_Set. repeat case_match; simplify_eq/=; auto.
Qed.

Lemma merge_one_canon m ke :
  canon_map m → good_key (Frac (pos_of ke.2)) → canon_map (merge_one m ke).1.
Proof.
  intros Hm Hk. unfold merge_one. destruct (m !! ke.1) as [e|] eqn:Ee; [|by apply canon_insert].
  pose proof (mergeFrom_pos e ke.2) as Hp. destruct (mergeFrom e ke.2) as [e' c]. simpl in *.
  apply canon_insert; [done|]. destruct Hp as [->| ->]; [by eapply Hm|done].
Qed.

Lemma Merge_entries s o now :
  entries (Merge s o now).1 = (fold_changed merge_one (entries s) (map_to_list (entries o))).1 ∧
  (Merge s o now).2 = (fold_changed merge_one (entries s) (map_to_list (entries o))).2.
Proof. unfold Merge, MergeIn. by destruct (fold_changed _ _ _). Qed.

(** Every stamp of the replica is at or below its clock, peers aside. *)
Definition under (h : Hlc) (st : HlcStamp) : Prop :=
  (WallTime st < lastWall h ∨ WallTime st = lastWall h ∧ Logical st ≤ lastLogical h)%Z.
Definition entry_under (h : Hlc) e : Prop :=
  under h (Stamp (value e)) ∧ under h (Stamp (position e)) ∧ under h (Stamp (deleted e)).
Definition dominated s : Prop := ∀ i e, entries s !! i = Some e → entry_under (hlc s) e.

(** Room in the logical counter for one event, and for receiving [o]. *)
Definition tick_room s : Prop := logical_room (lastLogical (hlc s)).
Definition merge_room s o : Prop :=
  let n := Z.of_nat (length (map_to_list (entries o))) in
  (n ≤ max_i64 ∧ - two63 ≤ lastLogical (hlc s) ∧ lastLogical (hlc s) + n < max_i64 ∧
   ∀ i e, entries o !! i = Some e →
     - two63 ≤ Logical (maxStamp e) ∧ Logical (maxStamp e) + n < max_i64)%Z.

(** The states replicas reach by local edits, forks, merges and collection;
    with [room], no logical counter ever runs out of its 64 bits. *)
Inductive reach (room : bool) : SeqCrdt Id V → Prop :=
  | reach_new p : reach room (NewSeqCrdt p)
  | reach_insert s i v l r now :
      reach room s → (room → tick_room s) → reach room (InsertBetween s i v l r now)
  | reach_set s i v now : reach room s → (room → tick_room s) → reach room (SetValue s i v now).1
  | reach_move s i l r now :
      reach room s → (room → tick_room s) → reach room (MoveBetween s i l r now).1
  | reach_remove s i now : reach room s → (room → tick_room s) → reach room (Remove s i now).1
  | reach_fork s p : reach room s → reach room (Fork s p)
  | reach_merge s o now :
      reach room s → reach room o → (room → merge_room s o) → reach room (Merge s o now).1
  | reach_gc s f : reach room s → reach room (GcWith s f).1.

Lemma GcWith_entries s f i e : entries (GcWith s f).1 !! i = Some e → entries s !! i = Some e.
Proof.
  unfold GcWith. simpl. induction (filter _ _) as [|x l IHl]; simpl; [done|].
  intros [_ Hie]%lookup_delete_Some. auto.
Qed.

Lemma reach_canon b s : reach b s → canon_map (entries s).
Proof.
  induction 1 as [p|s i v l r now _ IH _|s i v now _ IH _|s i l r now _ IH _|s i now _ IH _|s p _ IH
    |s o now _ IH1 _ IH2 _|s f _ IH].
  - by intros i e.
  - by apply InsertBetween_canon.
  - apply set_register_canon; [done|]. intros e st He.
    unfold LwwRegister_Set. case_match; simpl; exact (IH _ _ He).
  - apply set_register_canon; [done|]. intros e st He. unfold LwwRegister_Set.
    destruct (0 <? _)%Z; [by apply new_frac_canon|exact (IH _ _ He)].
  - apply set_register_canon; [done|]. intros e st He.
    unfold LwwRegister_Set. case_match; simpl; exact (IH _ _ He).
  - done.
  - destruct (Merge_entries s o now) as [-> _]. rewrite fold_changed_state.
    apply (foldl_invariant canon_map); [done|]. intros m [k e] Hke Hm.
    apply merge_one_canon; [done|]. apply elem_of_map_to_list in Hke. by eapply IH2.
  - intros i e Hie%GcWith_entries. by eapply IH.
Qed.

Lemma Position_Compare_frac p q : (frac_Compare (Frac p) (Frac q) < 0)%Z → (Position_Compare p q < 0)%Z.
Proof.
  intros Hl. unfold Position_Compare. destruct (Z.eqb_spec (frac_Compare (Frac p) (Frac q)) 0); simpl; lia.
Qed.

(** An element inserted between two live neighbours that are in key order
    lands strictly between them, in every state the replica can reach; a missing
    neighbour is the respective end of the sequence.  Nothing else moves. *)
Theorem SeqCrdt_insert_lands_between s i v left right now :
  reach false s → entries s !! i = None →
  (∀ l r el er, left = Some l → right = Some r → entries s !! l = Some el → entries s !! r = Some er →
     (frac_Compare (Frac (pos_of el)) (Frac (pos_of er)) < 0)%Z) →
  ∃ e, entries (InsertBetween s i v left right now) = <[i := e]> (entries s) ∧
    Value (value e) = v ∧ Value (deleted e) = false ∧
    (∀ l el, left = Some l → entries s !! l = Some el → (Position_Compare (pos_of el) (pos_of e) < 0)%Z) ∧
    (∀ r er, right = Some r → entries s !! r = Some er → (Position_Compare (pos_of e) (pos_of er) < 0)%Z).
Proof.
  intros Hr Hi Hlt. pose proof (reach_canon _ s Hr) as Hc.
  destruct (keyBetween_strictly_between (fracOf s left) (fracOf s right)) as (_ & K1 & K2).
  - intros k Hk. by apply (fracOf_canon s _ _ Hc Hk).
  - intros k Hk. by apply (fracOf_canon s _ _ Hc Hk).
  - unfold fracOf. intros l h (x & -> & (ex & Hx & [= <-])%bind_Some)%bind_Some
      (y & -> & (ey & Hy & [= <-])%bind_Some)%bind_Some. by eapply Hlt.
  - intros Hk. by apply (fracOf_canon s _ _ Hc Hk).
  - unfold InsertBetween. rewrite Hi.
    pose proof (stamp_entries s now) as Hs. destruct (stamp s now) as [s' st]. simpl in *.
    eexists. split_and!; [by rewrite Hs|done|done| |].
    + intros l el -> Hel. apply Position_Compare_frac, K1. unfold fracOf. simpl. by rewrite Hel.
    + intros r er -> Her. apply Position_Compare_frac, K2. unfold fracOf. simpl. by rewrite Her.
Qed.
(** *** The clock stays above everything the replica holds *)

Lemma under_tick h now st :
  logical_room (lastLogical h) → under h st →
  under (Hlc_Tick h now).1 st ∧ (0 < HlcStamp_Compare (Hlc_Tick h now).2 st)%Z.
Proof.
  unfold logical_room, under. intros Hr Hu. rewrite (cmp_anti (cmp := HlcStamp_Compare) st).
  assert (Hlt : (HlcStamp_Compare st (Hlc_Tick h now).2 < 0)%Z); [|split; [|lia]].
  - apply HlcStamp_Compare_lt. unfold Hlc_Tick. destruct (Z.ltb_spec (lastWall h) now); simpl; [lia|].
    rewrite i64_small by zrange. lia.
  - unfold Hlc_Tick. destruct (Z.ltb_spec (lastWall h) now); simpl; [lia|].
    rewrite i64_small by zrange. lia.
Qed.

Lemma under_own h now : under (Hlc_Tick h now).1 (Hlc_Tick h now).2.
Proof. unfold Hlc_Tick, under. case_match; simpl; lia. Qed.

Lemma under_observe h r now st :
  logical_room (lastLogical h) → logical_room (Logical r) → under h st ∨ under (mkHlc 0%Z (WallTime r) (Logical r)) st →
  under (Hlc_Observe h r now).1 st.
Proof.
  unfold logical_room, under, Hlc_Observe, max3. rewrite !max2_max. simpl. intros Hh Hr Hu.
  repeat match goal with |- context [(?a =? ?b)%Z] => destruct (Z.eqb_spec a b) end;
    simpl; try lia; rewrite i64_small by zrange; lia.
Qed.

Lemma observe_logical h r now n :
  (- two63 ≤ lastLogical h)%Z → (lastLogical h + n < max_i64)%Z → (1 ≤ n ≤ max_i64)%Z →
  (- two63 ≤ Logical r)%Z → (Logical r + n < max_i64)%Z →
  let h' := (Hlc_Observe h r now).1 in (- two63 ≤ lastLogical h' ∧ lastLogical h' + (n - 1) < max_i64)%Z.
Proof.
  unfold Hlc_Observe. rewrite max2_max. simpl. intros.
  repeat match goal with |- context [(?a =? ?b)%Z] => destruct (Z.eqb_spec a b) end;
    simpl; try rewrite i64_small by zrange; zrange.
Qed.

Lemma maxStamp_under h e : under h (maxStamp e) → entry_under h e.
Proof.
  assert (Hm : ∀ a b, under h (MaxStamp a b) → under h a ∧ under h b).
  { intros a b. pose proof (HlcStamp_Compare_lt a b). pose proof (HlcStamp_Compare_lt b a).
    pose proof (HlcStamp_Compare_flip a b).
    unfold under, MaxStamp, HlcStamp_GreaterEqual. case_match; intros; split; lia. }
  unfold maxStamp, entry_under. intros [? [??]%Hm]%Hm. auto.
Qed.

Definition observe_all (h : Hlc) (l : list (Id * seqEntry V)) (now : Z) : Hlc :=
  foldl (λ h ke, (Hlc_Observe h (maxStamp ke.2) now).1) h l.

Lemma observe_all_under l now h :
  (Z.of_nat (length l) ≤ max_i64)%Z →
  (- two63 ≤ lastLogical h)%Z → (lastLogical h + Z.of_nat (length l) < max_i64)%Z →
  Forall (λ ke, (- two63 ≤ Logical (maxStamp ke.2) ∧
    Logical (maxStamp ke.2) + Z.of_nat (length l) < max_i64)%Z) l →
  (∀ st, under h st → under (observe_all h l now) st) ∧
  Forall (λ ke, entry_under (observe_all h l now) ke.2) l.
Proof.
  revert h. induction l as [|ke l IH]; intros h Hn Hlo Hhi Hl; [by split; [|constructor]|].
  apply Forall_cons in Hl as [Hke Hl]. cbn [length] in *. cbn [observe_all foldl].
  destruct (observe_logical h (maxStamp ke.2) now (Z.of_nat (S (length l)))) as [Ho1 Ho2]; [lia..|].
  destruct (IH (Hlc_Observe h (maxStamp ke.2) now).1) as [I1 I2]; [lia..| |].
  { eapply Forall_impl; [done|]. simpl. lia. }
  split.
  - intros st Hst. apply I1, under_observe; [unfold logical_room; lia..|by left].
  - constructor; [|done]. apply maxStamp_under, I1, under_observe; [unfold logical_room; lia..|].
    right. unfold under. simpl. lia.
Qed.

Lemma dominated_tick s now :
  tick_room s → dominated s → dominated (stamp s now).1 ∧ under (hlc (stamp s now).1) (stamp s now).2.
Proof.
  intros Hr Hd. unfold stamp. pose proof (under_own (hlc s) now) as Ho.
  pose proof (λ st, under_tick (hlc s) now st Hr) as Ht.
  destruct (Hlc_Tick (hlc s) now) as [h st]. simpl in *. split; [|done].
  intros i e He. destruct (Hd i e He) as (?&?&?). unfold entry_under. split_and!; by apply Ht.
Qed.

Lemma dominated_insert s i e :
  dominated s → entry_under (hlc s) e → dominated (with_entries (<[i := e]>) s).
Proof.
  intros Hd He j e'. simpl. destruct (decide (i = j)) as [->|].
  - rewrite lookup_insert_eq. by intros [= <-].
  - rewrite lookup_insert_ne by done. apply Hd.
Qed.

Lemma dominated_set s i now f :
  tick_room s → dominated s →
  (∀ e st h, entries s !! i = Some e → entry_under h e → under h st → entry_under h (f e st).1) →
  dominated (set_register s i now f).1.
Proof.
  intros Hr Hd Hf. unfold set_register. destruct (entries s !! i) as [e|] eqn:Ee; [|done].
  destruct (dominated_tick s now Hr Hd) as [Hd' Hst].
  pose proof (stamp_entries s now) as Hs. destruct (stamp s now) as [s' st]. simpl in *.
  specialize (Hf e st (hlc s') eq_refl). destruct (f e st) as [e' c]. simpl in *.
  apply dominated_insert; [done|]. apply Hf; [|done]. apply (Hd' i). by rewrite Hs.
Qed.

Lemma mergeFrom_under h e e' : entry_under h e → entry_under h e' → entry_under h (mergeFrom e e').1.
Proof.
  unfold entry_under, mergeFrom, LwwRegister_MergeFrom, LwwRegister_Set. intros (?&?&?) (?&?&?).
  repeat case_match; simplify_eq/=; split_and!; done.
Qed.

Lemma dominated_merge s o now :
  dominated s → merge_room s o → dominated (Merge s o now).1.
Proof.
  intros Hd (Hr0 & Hr1 & Hr2 & Hr3). destruct (Merge_entries s o now) as [He _].
  set (l := map_to_list (entries o)) in *.
  destruct (observe_all_under l now (hlc s)) as [U1 U2]; [done..| |].
  { apply Forall_forall. intros [k e] Hke. apply elem_of_map_to_list in Hke. by eapply Hr3. }
  assert (Hh : hlc (Merge s o now).1 = observe_all (hlc s) l now).
  { unfold Merge, MergeIn. by destruct (fold_changed _ _ _). }
  unfold dominated. rewrite Hh, He, fold_changed_state.
  apply (foldl_invariant (λ m, ∀ i e, m !! i = Some e → entry_under (observe_all (hlc s) l now) e)).
  - intros i e Hie. destruct (Hd i e Hie) as (?&?&?). split_and!; auto.
  - rewrite Forall_forall in U2. intros m [k e'] Hin%U2 Hm i e. simpl in Hin.
    unfold merge_one. simpl. destruct (m !! k) as [ek|] eqn:Ek.
    + pose proof (mergeFrom_under _ ek e' (Hm _ _ Ek) Hin) as Hu.
      destruct (mergeFrom ek e') as [e2 c]. simpl in *.
      intros [[-> ->]|[_ ?]]%lookup_insert_Some; eauto.
    + simpl; intros [[-> ->]|[_ ?]]%lookup_insert_Some; eauto.
Qed.

Lemma reach_dominated s : reach true s → dominated s.
Proof.
  assert (Hset : ∀ A (r : LwwRegister A) v st h, under h (Stamp r) → under h st →
    under h (Stamp (LwwRegister_Set r v st).1)).
  { intros. unfold LwwRegister_Set. by case_match. }
  induction 1 as [p|s i v l r now _ IH Hr|s i v now _ IH Hr|s i l r now _ IH Hr|s i now _ IH Hr
    |s p _ IH|s o now _ IH1 _ IH2 Hr|s f _ IH]; try specialize (Hr I).
  - by intros i e.
  - unfold InsertBetween. destruct (entries s !! i); [done|].
    destruct (dominated_tick s now Hr IH) as [Hd Hst]. destruct (stamp s now) as [s' st].
    by apply dominated_insert.
  - apply dominated_set; [done..|]. intros e st h _ (?&?&?) Hst. specialize (Hset _ (value e) v st h).
    destruct (LwwRegister_Set _ _ _). unfold entry_under; simpl in *. auto.
  - apply dominated_set; [done..|]. intros e st h _ (?&?&?) Hst.
    pose proof (λ v, Hset _ (position e) v st h) as Hp. cbv zeta.
    match goal with |- context [LwwRegister_Set (position e) ?v st] => specialize (Hp v) end.
    destruct (LwwRegister_Set _ _ _). unfold entry_under; simpl in *. auto.
  - apply dominated_set; [done..|]. intros e st h _ (?&?&?) Hst. specialize (Hset _ (deleted e) true st h).
    destruct (LwwRegister_Set _ _ _). unfold entry_under; simpl in *. auto.
  - exact IH.
  - by apply dominated_merge.
  - intros i e Hie%GcWith_entries. by eapply IH.
Qed.

Lemma set_register_hit s i now f e :
  entries s !! i = Some e →
  entries (set_register s i now f).1 = <[i := (f e (Hlc_Tick (hlc s) now).2).1]> (entries s) ∧
  (set_register s i now f).2 = (f e (Hlc_Tick (hlc s) now).2).2.
Proof.
  intros He. unfold set_register, stamp. rewrite He. destruct (Hlc_Tick (hlc s) now) as [h st].
  simpl. by destruct (f e st).
Qed.

Lemma Set_newer {A} (r : LwwRegister A) v st :
  (0 < HlcStamp_Compare st (Stamp r))%Z → LwwRegister_Set r v st = (mkLww v st, true).
Proof. unfold LwwRegister_Set. destruct (Z.ltb_spec 0 (HlcStamp_Compare st (Stamp r))); [done|lia]. Qed.

(** A local edit of a known element always takes effect: whatever stamps
    the replica received from peers whose clocks ran ahead, its next stamp is
    newer, so [SetValue], [MoveBetween] and [Remove] report a change and their
    register holds the new value (the logical counter not being exhausted). *)
Theorem SeqCrdt_local_edits_win s i e v left right now :
  reach true s → tick_room s → entries s !! i = Some e →
  let st := (Hlc_Tick (hlc s) now).2 in
  let pos := mkPosition (keyBetween (fracOf s left) (fracOf s right)) (peer s) in
  ((SetValue s i v now).2 = true ∧
   entries (SetValue s i v now).1 =
     <[i := mkSeqEntry (mkLww v st) (position e) (deleted e)]> (entries s)) ∧
  ((MoveBetween s i left right now).2 = true ∧
   entries (MoveBetween s i left right now).1 =
     <[i := mkSeqEntry (value e) (mkLww pos st) (deleted e)]> (entries s)) ∧
  ((Remove s i now).2 = true ∧
   entries (Remove s i now).1 =
     <[i := mkSeqEntry (value e) (position e) (mkLww true st)]> (entries s)).
Proof.
  intros Hreach Hr He. destruct (reach_dominated s Hreach i e He) as (U1 & U2 & U3).
  cbv zeta. unfold SetValue, MoveBetween, Remove.
  rewrite !(proj1 (set_register_hit s i now _ e He)), !(proj2 (set_register_hit s i now _ e He)).
  by rewrite !Set_newer by (by apply under_tick).
Qed.

(** *** Convergence

    Stamps are unique per event, so what a register of an element holds is a
    function of its stamp: [vals], [poss], [dels] are those functions. *)

Context (vals : Id → HlcStamp → V) (poss : Id → HlcStamp → Position) (dels : Id → HlcStamp → bool).

Definition entry_wf (i : Id) e : Prop :=
  lww_wf (vals i) (value e) ∧ lww_wf (poss i) (position e) ∧ lww_wf (dels i) (deleted e).

Lemma mergeFrom_parts e e' :
  (mergeFrom e e').1 = mkSeqEntry (LwwRegister_MergeFrom (value e) (value e')).1
    (LwwRegister_MergeFrom (position e) (position e')).1
    (LwwRegister_MergeFrom (deleted e) (deleted e')).1.
Proof. unfold mergeFrom. by repeat case_match. Qed.

#[export] Instance entry_join i : Join (seqEntry V) (λ e e', (mergeFrom e e').1) (entry_wf i).
Proof.
  split; unfold entry_wf.
  - intros x y (?&?&?) (?&?&?). rewrite mergeFrom_parts. split_and!; by apply MergeFrom_wf.
  - intros x y (?&?&?) (?&?&?). rewrite !mergeFrom_parts. f_equal.
    + by apply (join_comm (Join := lww_join (vals i))).
    + by apply (join_comm (Join := lww_join (poss i))).
    + by apply (join_comm (Join := lww_join (dels i))).
  - intros x y z (?&?&?) (?&?&?) (?&?&?). rewrite !mergeFrom_parts. simpl. f_equal.
    + by apply (join_assoc (Join := lww_join (vals i))).
    + by apply (join_assoc (Join := lww_join (poss i))).
    + by apply (join_assoc (Join := lww_join (dels i))).
  - intros [] (?&?&?). rewrite !mergeFrom_parts. simpl in *. f_equal.
    + by apply (join_idem (Join := lww_join (vals i))).
    + by apply (join_idem (Join := lww_join (poss i))).
    + by apply (join_idem (Join := lww_join (dels i))).
Qed.

Lemma mergeFrom_flag e e' : if (mergeFrom e e').2 then (mergeFrom e e').1 ≠ e else (mergeFrom e e').1 = e.
Proof.
  pose proof (MergeFrom_flag (value e) (value e')) as F1.
  pose proof (MergeFrom_flag (position e) (position e')) as F2.
  pose proof (MergeFrom_flag (deleted e) (deleted e')) as F3.
  pose proof (MergeFrom_unchanged (value e) (value e')) as U1.
  pose proof (MergeFrom_unchanged (position e) (position e')) as U2.
  pose proof (MergeFrom_unchanged (deleted e) (deleted e')) as U3.
  unfold mergeFrom. destruct (LwwRegister_MergeFrom (value e) _) as [v c1],
    (LwwRegister_MergeFrom (position e) _) as [q c2], (LwwRegister_MergeFrom (deleted e) _) as [d c3].
  simpl in *. destruct c1, c2, c3; simpl; try (intros <-; simpl in *; intuition congruence).
  rewrite U1, U2, U3 by done. by destruct e.
Qed.

Definition seq_join : gmap Id (seqEntry V) → gmap Id (seqEntry V) → gmap Id (seqEntry V) :=
  map_join (λ e e', (mergeFrom e e').1).
Definition seq_wf m : Prop := map_wf entry_wf m.

Lemma merge_one_state m ke :
  (merge_one m ke).1 = partial_alter (λ x, join_into (λ e e', (mergeFrom e e').1) x ke.2) ke.1 m.
Proof.
  unfold merge_one, join_into. apply map_eq. intros j. destruct (decide (ke.1 = j)) as [<-|].
  - rewrite lookup_partial_alter_eq. destruct (m !! ke.1); simpl.
    + destruct (mergeFrom _ _). simpl. by rewrite lookup_insert_eq.
    + by rewrite lookup_insert_eq.
  - rewrite lookup_partial_alter_ne by done. destruct (m !! ke.1); simpl.
    + destruct (mergeFrom _ _). simpl. by rewrite lookup_insert_ne.
    + by rewrite lookup_insert_ne.
Qed.

Lemma merge_one_flag m ke :
  if (merge_one m ke).2 then join_into (λ e e', (mergeFrom e e').1) (m !! ke.1) ke.2 ≠ m !! ke.1
  else join_into (λ e e', (mergeFrom e e').1) (m !! ke.1) ke.2 = m !! ke.1.
Proof.
  unfold merge_one, join_into. destruct (m !! ke.1) as [e|]; simpl; [|done].
  pose proof (mergeFrom_flag e ke.2) as Hf. destruct (mergeFrom e ke.2) as [e' []]; simpl in *; congruence.
Qed.

Lemma Merge_join s o now : entries (Merge s o now).1 = seq_join (entries s) (entries o).
Proof.
  rewrite (proj1 (Merge_entries s o now)).
  rewrite (keyed_fold_state (λ _, join_into (λ e e', (mergeFrom e e').1))) by apply merge_one_state.
  apply fold_entries_join.
Qed.

Lemma MergeIn_entries l1 l2 s now :
  entries (MergeIn l1 l2 s now).1 = (fold_changed merge_one (entries s) l2).1 ∧
  (MergeIn l1 l2 s now).2 = (fold_changed merge_one (entries s) l2).2.
Proof. unfold MergeIn. by destruct (fold_changed _ _ _). Qed.

(** A replica receiving a sequence of others' states. *)
Definition deliver s (l : list (SeqCrdt Id V * Z)) : SeqCrdt Id V :=
  foldl (λ s on, (Merge s on.1 on.2).1) s l.

Lemma deliver_entries s l :
  entries (deliver s l) = foldl seq_join (entries s) ((λ on, entries on.1) <$> l).
Proof.
  unfold deliver. revert s. induction l as [|on l IH]; intros s; simpl; [done|].
  by rewrite IH, Merge_join.
Qed.

(** C8: replicas converge, provided that a stamp determines what it stamps
    ([seq_wf]: for each element there is one value, one position and one deletion
    flag per stamp, as there is when replicas have peer identifiers of their own
    and no stamp is issued twice; [reused_stamp_diverges] shows what happens
    otherwise).  Under that assumption on every state exchanged, the entries after
    receiving other replicas' states depend only on the set of states received, not
    on their order, repetition or the times they arrived; one merge is commutative;
    the order in which Go ranges over the other map does not matter; and [Merge]
    reports a change exactly when the entries change. *)
Theorem SeqCrdt_converges s l1 l2 :
  seq_wf (entries s) → Forall (λ on, seq_wf (entries on.1)) (l1 ++ l2) →
  (∀ m, m ∈ (λ on : SeqCrdt Id V * Z, entries on.1) <$> l1 ↔
        m ∈ (λ on : SeqCrdt Id V * Z, entries on.1) <$> l2) →
  entries (deliver s l1) = entries (deliver s l2) ∧
  ∀ on, on ∈ l1 →
    entries (Merge s on.1 on.2).1 = entries (Merge on.1 s on.2).1 ∧
    ((Merge s on.1 on.2).2 = true ↔ entries (Merge s on.1 on.2).1 ≠ entries s) ∧
    ∀ order1 order2, order2 ≡ₚ map_to_list (entries on.1) →
      entries (MergeIn order1 order2 s on.2).1 = entries (Merge s on.1 on.2).1 ∧
      (MergeIn order1 order2 s on.2).2 = (Merge s on.1 on.2).2.
Proof.
  intros Hs Hl Heq.
  assert (J : Join (gmap Id (seqEntry V)) seq_join seq_wf) by (apply map_join_join, entry_join). 
  rewrite Forall_app in Hl. destruct Hl as [Hl1 Hl2]. split.
  - rewrite !deliver_entries. apply (foldl_join_set (Join0 := J)); [done| | |done]; apply Forall_fmap; [exact Hl1|exact Hl2].
  - intros on Hon. rewrite Forall_forall in Hl1. specialize (Hl1 on Hon).
    assert (Hnd : NoDup (map_to_list (entries on.1)).*1) by apply NoDup_fst_map_to_list.
    split_and!.
    + rewrite !Merge_join. by apply (join_comm (Join := J)).
    + rewrite (proj1 (Merge_entries s on.1 on.2)), (proj2 (Merge_entries s on.1 on.2)).
      by apply (keyed_fold_flag (λ _, join_into (λ e e', (mergeFrom e e').1)) _
        merge_one_state merge_one_flag).
    + intros o1 o2 Hp. destruct (MergeIn_entries o1 o2 s on.2) as [-> ->].
      destruct (Merge_entries s on.1 on.2) as [-> ->].
      rewrite (keyed_fold_perm (λ _, join_into (λ e e', (mergeFrom e e').1)) _
        merge_one_state merge_one_flag (entries s) o2 (map_to_list (entries on.1))); [done| |done].
      by rewrite Hp.
Qed.
End theorems.

(** ** Concrete replicas *)

Definition seq_demo1 : SeqCrdt nat nat := InsertBack (NewSeqCrdt 1%Z) 10 100 5.
Definition seq_demo : SeqCrdt nat nat := InsertBack seq_demo1 20 200 6.
(** A fork at peer 2 overwrites element 10, and then removes element 20. *)
Definition seq_fork : SeqCrdt nat nat := (SetValue (Fork seq_demo 2%Z) 10 111 4).1.
Definition seq_fork2 : SeqCrdt nat nat := (Remove seq_fork 20 9).1.

Lemma seq_demo_reach b : reach b seq_demo.
Proof.
  unfold seq_demo, seq_demo1, InsertBack. apply reach_insert; [apply reach_insert; [apply reach_new|]|];
    intros _; unfold tick_room, logical_room; vm_compute; by split.
Qed.

Example seq_fork2_values : Values (Merge seq_demo seq_fork2 10).1 = [(10, 111)].
Proof. reflexivity. Qed.

Lemma SeqCrdt_insert_lands_between_witness :
  ∃ e, entries (InsertBetween seq_demo 15 150 (Some 10) (Some 20) 7) = <[15 := e]> (entries seq_demo) ∧
    Value (value e) = 150 ∧ Value (deleted e) = false ∧
    (∀ l el, Some 10 = Some l → entries seq_demo !! l = Some el →
       (Position_Compare (pos_of el) (pos_of e) < 0)%Z) ∧
    (∀ r er, Some 20 = Some r → entries seq_demo !! r = Some er →
       (Position_Compare (pos_of e) (pos_of er) < 0)%Z).
Proof.
  apply SeqCrdt_insert_lands_between; [apply seq_demo_reach|reflexivity|].
  intros l r el er [= <-] [= <-]. vm_compute. by intros [= <-] [= <-].
Defined.

Lemma SeqCrdt_local_edits_win_witness :
  (SetValue seq_demo 10 7 0).2 = true ∧ (MoveBetween seq_demo 10 (Some 20) None 0).2 = true ∧
  (Remove seq_demo 10 0).2 = true.
Proof.
  destruct (SeqCrdt_local_edits_win seq_demo 10
    (mkSeqEntry (mkLww 100 (mkHlcStamp 5 0 1%Z)) (mkLww (mkPosition [128%Z] 1%Z) (mkHlcStamp 5 0 1%Z))
       (mkLww false (mkHlcStamp 5 0 1%Z))) 7 (Some 20) None 0) as ((?&_)&(?&_)&(?&_)).
  - apply seq_demo_reach.
  - unfold tick_room, logical_room; vm_compute; by split.
  - reflexivity.
  - by split_and!.
Defined.

Lemma map_wf_list {K A} `{Countable K} (wf : K → A → Prop) (m : gmap K A) :
  Forall (λ ke, wf ke.1 ke.2) (map_to_list m) → map_wf wf m.
Proof.
  rewrite Forall_forall. intros Hl k x Hkx%elem_of_map_to_list. exact (Hl (k, x) Hkx).
Qed.

Definition demo_vals (i : nat) (st : HlcStamp) : nat :=
  if decide (st = mkHlcStamp 5 0 1%Z) then 100 else if decide (st = mkHlcStamp 6 0 1%Z) then 200 else 111.
Definition demo_poss (i : nat) (st : HlcStamp) : Position :=
  if decide (i = 10) then mkPosition [128%Z] 1%Z else mkPosition [192%Z] 1%Z.
Definition demo_dels (i : nat) (st : HlcStamp) : bool :=
  bool_decide (st = mkHlcStamp 9 0 2%Z).

Lemma demo_wf s : s ∈ [seq_demo; seq_fork; seq_fork2] → seq_wf demo_vals demo_poss demo_dels (entries s).
Proof.
  intros Hs. apply map_wf_list.
  repeat (apply elem_of_cons in Hs as [->|Hs]; [vm_compute; repeat constructor|]).
  by apply elem_of_nil in Hs.
Qed.

Lemma SeqCrdt_converges_witness :
  entries (deliver seq_demo [(seq_fork, 7%Z); (seq_fork2, 8%Z)]) =
    entries (deliver seq_demo [(seq_fork2, 9%Z); (seq_fork, 5%Z); (seq_fork2, 6%Z)]).
Proof.
  destruct (SeqCrdt_converges demo_vals demo_poss demo_dels seq_demo
    [(seq_fork, 7%Z); (seq_fork2, 8%Z)] [(seq_fork2, 9%Z); (seq_fork, 5%Z); (seq_fork2, 6%Z)])
    as [Heq _].
  - apply demo_wf. set_solver.
  - repeat (apply Forall_cons_2 || apply Forall_nil_2); apply demo_wf; set_solver.
  - intros m. rewrite !fmap_cons, fmap_nil. set_solver.
  - exact Heq.
Defined.

(** Two replicas under one peer identifier issue one stamp for two values: each
    keeps its own, so the merges differ. *)
Lemma reused_stamp_diverges :
  let a := InsertBack (NewSeqCrdt 1%Z) 10 100 5 in
  let b := InsertBack (NewSeqCrdt 1%Z) 10 200 5 in
  Values (Merge a b 6).1 = [(10, 100)] ∧ Values (Merge b a 6).1 = [(10, 200)].
Proof. by split; vm_compute. Qed.

(** Two replicas that insert concurrently at the same place make keys that
    differ only in the peer; inserting between those two elements then lands
    after both, because [keyBetween] is given equal bounds. *)
Definition tie_demo : SeqCrdt nat nat :=
  (Merge (InsertBack (NewSeqCrdt 1%Z) 10 100 5) (InsertBack (NewSeqCrdt 2%Z) 20 200 5) 6).1.

Lemma insert_between_ties_lands_after :
  orderedIds tie_demo = [10; 20] ∧
  orderedIds (InsertBetween tie_demo 15 150 (Some 10) (Some 20) 7) = [10; 20; 15].
Proof. by split; vm_compute. Qed.
