(* ===== verification/TextCrdt.v ===== *)
(** * TextCrdt: the character CRDT (text_crdt.go)

    Elements keyed by operation id, each with its left origin and an optional
    delete id; the visible text is a depth-first walk of the origin tree.  The
    two cached orderings are part of the state.  The walk recurses on the
    origin tree, so it runs with fuel; [None] stands for the unbounded recursion
    Go would enter.  The JSON decoding of ids and operations ([OpIdFromWire],
    [TextOpFromWire], [wireInt64]) is not modelled. *)

From S2P Require Import Prelude Hlc.

(** ** Data *)

(** [text_crdt.go] [type OpId] *)
Record OpId := mkOpId { Counter : Z; Peer : PeerId }.

#[export] Instance OpId_eq_dec : EqDecision OpId.
Proof. solve_decision. Defined.
#[export] Instance OpId_countable : Countable OpId.
Proof. by refine (inj_countable' (λ i, (Counter i, Peer i)) (λ '(c, p), mkOpId c p) _); intros []. Defined.

(** [text_crdt.go] [OpId.Compare] *)
Definition OpId_Compare (id other : OpId) : Z :=
  if negb (Counter id =? Counter other)%Z then if (Counter id <? Counter other)%Z then -1 else 1
  else if negb (Peer id =? Peer other)%Z then if (Peer id <? Peer other)%Z then -1 else 1
  else 0.

(** [text_crdt.go] [type textElem] *)
Record textElem := mkTextElem { ch : string; origin : option OpId; deleted : option OpId }.

(** [text_crdt.go] [type TextOp] *)
Record TextOp := mkTextOp { Id : OpId; Ch : string; Origin : option OpId; Deleted : option OpId }.

(** [text_crdt.go] [lines 167-170 textRootKey] *)
Definition textRootKey : OpId := mkOpId 0%Z 0%Z.

(** A nil cache is [None].  An ordering with no elements is a nil slice, so it
    is never found in the cache again.
    [text_crdt.go] [type TextCrdt] *)
Record TextCrdt := mkTextCrdt {
  peer : PeerId;
  counter : Z;
  elems : gmap OpId textElem;
  orderedLiveCache : option (list OpId);
  orderedAllCache : option (list OpId);
}.

(** [text_crdt.go] [NewTextCrdt] *)
Definition NewTextCrdt (peer : PeerId) : TextCrdt := mkTextCrdt peer 0 ∅ None None.

(** [text_crdt.go] [TextCrdt.nextId] *)
Definition nextId (t : TextCrdt) : TextCrdt * OpId :=
  let c := counter t +ₛ 1 in
  (mkTextCrdt (peer t) c (elems t) (orderedLiveCache t) (orderedAllCache t), mkOpId c (peer t)).

(** [text_crdt.go] [TextCrdt.invalidateOrdered] *)
Definition invalidateOrdered (t : TextCrdt) : TextCrdt :=
  mkTextCrdt (peer t) (counter t) (elems t) None None.

Definition with_elems (f : gmap OpId textElem → gmap OpId textElem) (t : TextCrdt) : TextCrdt :=
  mkTextCrdt (peer t) (counter t) (f (elems t)) (orderedLiveCache t) (orderedAllCache t).

(** ** The visible order *)

Definition newest_first (a b : OpId) : Prop := (0 ≤ OpId_Compare a b)%Z.
#[export] Instance newest_first_dec a b : Decision (newest_first a b).
Proof. unfold newest_first. apply _. Defined.

(** The bucket an element is filed under. *)
Definition origin_key (e : textElem) : OpId := default textRootKey (origin e).

(** [byOrigin[k]] after sorting: ids are unique, so the sort leaves one order.
    [text_crdt.go] [lines 229-242 TextCrdt.orderedIds] *)
Definition byOrigin (m : gmap OpId textElem) (k : OpId) : list OpId :=
  merge_sort newest_first (filter (λ ie : OpId * textElem, origin_key ie.2 = k) (map_to_list m)).*1.

(** [out] of the walk from [originKey].
    [text_crdt.go] [lines 244-255 TextCrdt.orderedIds] *)
Fixpoint dfs (fuel : nat) (m : gmap OpId textElem) (keep : OpId → bool) (originKey : OpId)
    : option (list OpId) :=
  match fuel with
  | 0 => None
  | S fuel =>
      parts ← mapM (λ id, sub ← dfs fuel m keep id; Some ((if keep id then [id] else []) ++ sub))
        (byOrigin m originKey);
      Some (concat parts)
  end.

Definition is_live (m : gmap OpId textElem) (id : OpId) : bool :=
  match m !! id with Some e => bool_decide (deleted e = None) | None => false end.

(** One more than the number of elements is deeper than any walk that ends. *)
Definition walk (m : gmap OpId textElem) (includeDeleted : bool) : option (list OpId) :=
  dfs (S (size m)) m (λ id, includeDeleted || is_live m id) textRootKey.

Definition as_cache (out : list OpId) : option (list OpId) :=
  match out with [] => None | _ => Some out end.

(** [text_crdt.go] [TextCrdt.orderedIds] *)
Definition orderedIds (t : TextCrdt) (includeDeleted : bool) : option (TextCrdt * list OpId) :=
  match (if includeDeleted then orderedAllCache t else orderedLiveCache t) with
  | Some out => Some (t, out)
  | None =>
      out ← walk (elems t) includeDeleted;
      Some (if includeDeleted
            then mkTextCrdt (peer t) (counter t) (elems t) (orderedLiveCache t) (as_cache out)
            else mkTextCrdt (peer t) (counter t) (elems t) (as_cache out) (orderedAllCache t), out)
  end.

(** ** Edits *)

(** The left neighbour's id; a Go index is any [int].
    [text_crdt.go] [lines 267-271 TextCrdt.Insert] *)
Definition left_origin (visible : list OpId) (index : Z) : option OpId :=
  if negb (index =? 0)%Z && (index - 1 <? Z.of_nat (length visible))%Z
  then visible !! Z.to_nat (index - 1) else None.

(** A negative index panics on [visible[index-1]]; the model asks for
    [0 ≤ index] and gives [None] otherwise.
    [text_crdt.go] [TextCrdt.Insert] *)
Definition Insert (t : TextCrdt) (index : Z) (c : string) : option TextCrdt :=
  '(t, visible) ← orderedIds t false;
  if (index <? 0)%Z then None
  else
    let origin := left_origin visible index in
    let '(t, id) := nextId t in
    let t := invalidateOrdered t in
    Some (with_elems (<[id := mkTextElem c origin None]>) t).

(** The loop of [InsertStr]: each character's origin is the one before it.
    [text_crdt.go] [lines 291-302 TextCrdt.InsertStr] *)
Fixpoint insert_chain (t : TextCrdt) (origin : option OpId) (s : list string) : TextCrdt :=
  match s with
  | [] => t
  | c :: s =>
      let '(t, id) := nextId t in
      insert_chain (with_elems (<[id := mkTextElem c origin None]>) t) (Some id) s
  end.

(** [s] is the string as its characters ([range s] over runes).
    [text_crdt.go] [TextCrdt.InsertStr] *)
Definition InsertStr (t : TextCrdt) (index : Z) (s : list string) : option TextCrdt :=
  '(t, visible) ← orderedIds t false;
  if (index <? 0)%Z then None
  else Some (insert_chain (invalidateOrdered t) (left_origin visible index) s).

(** [text_crdt.go] [TextCrdtFromStr] *)
Definition TextCrdtFromStr (peer : PeerId) (s : list string) : option TextCrdt :=
  InsertStr (NewTextCrdt peer) 0 s.

(** [text_crdt.go] [TextCrdt.Delete] *)
Definition Delete (t : TextCrdt) (index : Z) : option TextCrdt :=
  '(t, visible) ← orderedIds t false;
  if (index <? 0)%Z || (Z.of_nat (length visible) <=? index)%Z then Some t
  else
    id ← visible !! Z.to_nat index;
    e ← elems t !! id;
    let '(t, del) := nextId t in
    match deleted e with
    | None =>
        Some (mkTextCrdt (peer t) (counter t)
          (<[id := mkTextElem (ch e) (origin e) (Some del)]> (elems t)) None (orderedAllCache t))
    | Some _ => Some t
    end.

Definition chars_of (m : gmap OpId textElem) (ids : list OpId) : list string :=
  omap (λ id, ch <$> m !! id) ids.

(** The text as its characters; [Text] also fills the live cache.
    [text_crdt.go] [TextCrdt.Text] *)
Definition Text (t : TextCrdt) : option (TextCrdt * list string) :=
  '(t, ids) ← orderedIds t false; Some (t, chars_of (elems t) ids).

(** [text_crdt.go] [TextCrdt.Len] *)
Definition Len (t : TextCrdt) : option (TextCrdt * nat) :=
  '(t, ids) ← orderedIds t false; Some (t, length ids).

(** [text_crdt.go] [TextCrdt.TombstoneCount] *)
Definition TombstoneCount (t : TextCrdt) : option (TextCrdt * nat) :=
  '(t, n) ← Len t; Some (t, size (elems t) - n).

(** [text_crdt.go] [TextCrdt.Clock] *)
Definition Clock (t : TextCrdt) : OpId := mkOpId (counter t) (peer t).

(** [text_crdt.go] [TextCrdt.Fork] *)
Definition Fork (t : TextCrdt) (p : PeerId) : TextCrdt := mkTextCrdt p (counter t) (elems t) None None.
(** [text_crdt.go] [TextCrdt.Clone] *)
Definition Clone (t : TextCrdt) : TextCrdt := Fork t (peer t).

(** ** Merging *)

(** The new counter: the largest of the clock, the id and the delete id. *)
Definition observe_op (c : Z) (id : OpId) (oe : textElem) : Z :=
  let m := if (c <? Counter id)%Z then Counter id else c in
  match deleted oe with
  | Some d => if (m <? Counter d)%Z then Counter d else m
  | None => m
  end.

(** [text_crdt.go] [lines 386-401 TextCrdt.mergeElem] *)
Definition merge_entry (existing : option textElem) (oe : textElem) : textElem * bool :=
  match existing with
  | None => (oe, true)
  | Some x =>
      match deleted x, deleted oe with
      | Some dx, Some d =>
          if (OpId_Compare d dx <? 0)%Z then (mkTextElem (ch x) (origin x) (Some d), true) else (x, false)
      | None, Some d => (mkTextElem (ch x) (origin x) (Some d), true)
      | _, None => (x, false)
      end
  end.

(** [text_crdt.go] [TextCrdt.mergeElem] *)
Definition mergeElem (t : TextCrdt) (ie : OpId * textElem) : TextCrdt * bool :=
  let '(e, changed) := merge_entry (elems t !! ie.1) ie.2 in
  (mkTextCrdt (peer t) (observe_op (counter t) ie.1 ie.2) (<[ie.1 := e]> (elems t))
     (orderedLiveCache t) (orderedAllCache t), changed).

(** The Go string: the bytes of the characters, one after the other. *)
Definition joined (s : list string) : string := foldr String.append EmptyString s.

(** The body [Merge] and [ApplyDelta] share, over the elements in order. *)
Definition merge_all (t : TextCrdt) (l : list (OpId * textElem)) : option (TextCrdt * bool) :=
  '(t, before) ← Text t;
  let '(t, anyChange) := fold_changed mergeElem t l in
  let t := if anyChange then invalidateOrdered t else t in
  '(t, after) ← Text t;
  Some (t, negb (bool_decide (joined after = joined before))).

(** [order] is the order in which Go ranges over [other.elems].
    [text_crdt.go] [TextCrdt.Merge] *)
Definition MergeIn (order : list (OpId * textElem)) (t : TextCrdt) : option (TextCrdt * bool) :=
  merge_all t order.
Definition Merge (t other : TextCrdt) : option (TextCrdt * bool) :=
  MergeIn (map_to_list (elems other)) t.

Definition op_entry (op : TextOp) : OpId * textElem := (Id op, mkTextElem (Ch op) (Origin op) (Deleted op)).
Definition entry_op (ie : OpId * textElem) : TextOp :=
  mkTextOp ie.1 (ch ie.2) (origin ie.2) (deleted ie.2).

(** [text_crdt.go] [TextCrdt.ApplyDelta] *)
Definition ApplyDelta (t : TextCrdt) (ops : list TextOp) : option (TextCrdt * bool) :=
  merge_all t (op_entry <$> ops).

(** [text_crdt.go] [TextCrdt.VersionVector] *)
Definition bump (vv : gmap PeerId Z) (id : OpId) : gmap PeerId Z :=
  match vv !! Peer id with
  | Some cur => if (cur <? Counter id)%Z then <[Peer id := Counter id]> vv else vv
  | None => <[Peer id := Counter id]> vv
  end.
(** [text_crdt.go] [TextCrdt.VersionVector] *)
Definition VersionVector (t : TextCrdt) : gmap PeerId Z :=
  foldl (λ vv ie, let vv := bump vv ie.1 in
                  match deleted ie.2 with Some d => bump vv d | None => vv end)
    ∅ (map_to_list (elems t)).

(** [text_crdt.go] [lines 464-464 TextCrdt.DeltaSince] *)
Definition seen (theirVv : gmap PeerId Z) (id : OpId) : bool :=
  (Counter id <=? default 0 (theirVv !! Peer id))%Z.

Definition is_new (theirVv : gmap PeerId Z) (ie : OpId * textElem) : bool :=
  negb (seen theirVv ie.1) || match deleted ie.2 with Some d => negb (seen theirVv d) | None => false end.

(** [text_crdt.go] [TextCrdt.DeltaSince] *)
Definition DeltaSince (t : TextCrdt) (theirVv : gmap PeerId Z) : list TextOp :=
  entry_op <$> filter (λ ie, Is_true (is_new theirVv ie)) (map_to_list (elems t)).

(** ** Tombstone collection *)

(** [text_crdt.go] [lines 412-427 TextCrdt.GcWith] *)
Definition collectable (m : gmap OpId textElem) (isStable : OpId → bool) : gmap OpId textElem :=
  let referenced := omap (λ ie : OpId * textElem, origin ie.2) (map_to_list m) in
  filter (λ ie : OpId * textElem,
    Is_true (match deleted ie.2 with Some d => isStable d | None => false end &&
             bool_decide (ie.1 ∉ referenced))) m.

(** Each round but the last removes an element.
    [text_crdt.go] [lines 411-433 TextCrdt.GcWith] *)
Fixpoint gc_loop (rounds : nat) (m : gmap OpId textElem) (isStable : OpId → bool) (removed : nat)
    : option (gmap OpId textElem * nat) :=
  match rounds with
  | 0 => None
  | S rounds =>
      let c := collectable m isStable in
      if decide (c = ∅) then Some (m, removed)
      else gc_loop rounds (m ∖ c) isStable (removed + size c)
  end.

(** [text_crdt.go] [TextCrdt.GcWith] *)
Definition GcWith (t : TextCrdt) (isStable : OpId → bool) : option (TextCrdt * nat) :=
  '(m, removed) ← gc_loop (S (size (elems t))) (elems t) isStable 0;
  let t := with_elems (λ _, m) t in
  Some (if bool_decide (0 < removed)%nat then invalidateOrdered t else t, removed).

(** ** The walk *)

#[export] Instance OpId_compare : StrictCompare OpId OpId_Compare.
Proof.
  split.
  - intros [c p] [c' p']; unfold OpId_Compare; simpl. repeat case_match; auto.
  - intros [c p] [c' p']; unfold OpId_Compare; simpl.
    split; [|intros [=]]; repeat case_match; intros; simplify_eq; try done; try f_equal; lia.
  - intros [c p] [c' p']; unfold OpId_Compare; simpl. repeat case_match; lia.
  - intros [c p] [c' p'] [c'' p'']; unfold OpId_Compare; simpl. repeat case_match; lia.
Qed.

Implicit Types (m : gmap OpId textElem) (e : textElem) (id k o d : OpId) (t : TextCrdt).

Lemma OpId_Compare_counter a b : (Counter a < Counter b)%Z → (OpId_Compare a b < 0)%Z.
Proof. unfold OpId_Compare. intros. repeat case_match; lia. Qed.

#[export] Instance newest_first_trans : Transitive newest_first.
Proof.
  unfold newest_first. intros x y z H1 H2. rewrite (cmp_anti (cmp := OpId_Compare)).
  rewrite (cmp_anti (cmp := OpId_Compare)) in H1. rewrite (cmp_anti (cmp := OpId_Compare)) in H2.
  pose proof (cmp_trans_le (cmp := OpId_Compare) z y x). lia.
Qed.
#[export] Instance newest_first_total : Total newest_first.
Proof. unfold newest_first. intros x y. rewrite (cmp_anti (cmp := OpId_Compare) x y). lia. Qed.
#[export] Instance newest_first_anti : AntiSymm (=) newest_first.
Proof.
  unfold newest_first. intros x y H1 H2. rewrite (cmp_anti (cmp := OpId_Compare)) in H2.
  apply (cmp_eq (cmp := OpId_Compare)). lia.
Qed.

Lemma byOrigin_elem m k id : id ∈ byOrigin m k ↔ ∃ e, m !! id = Some e ∧ origin_key e = k.
Proof.
  unfold byOrigin. rewrite merge_sort_Permutation, list_elem_of_fmap. split.
  - intros ([i e] & -> & [Hk Hin]%list_elem_of_filter). apply elem_of_map_to_list in Hin. eauto.
  - intros (e & He & Hk). exists (id, e). split; [done|]. apply list_elem_of_filter.
    by rewrite elem_of_map_to_list.
Qed.

Lemma byOrigin_sorted m k : StronglySorted newest_first (byOrigin m k).
Proof. apply StronglySorted_merge_sort; apply _. Qed.

Lemma byOrigin_NoDup m k : NoDup (byOrigin m k).
Proof.
  unfold byOrigin. rewrite merge_sort_Permutation.
  pose proof (NoDup_fst_map_to_list m) as Hnd. induction (map_to_list m) as [|ie l IH]; [constructor|].
  simpl in Hnd. apply NoDup_cons in Hnd as [Hni Hnd]. rewrite filter_cons. case_decide; [|by apply IH].
  simpl. constructor; [|by apply IH]. intros (x & Hx & [_ Hin]%list_elem_of_filter)%list_elem_of_fmap.
  apply Hni. rewrite Hx. by apply list_elem_of_fmap_2.
Qed.

(** The siblings are the one list that is sorted, duplicate-free and has the
    right members. *)
Lemma byOrigin_eq m k l :
  NoDup l → StronglySorted newest_first l →
  (∀ id, id ∈ l ↔ ∃ e, m !! id = Some e ∧ origin_key e = k) → byOrigin m k = l.
Proof.
  intros Hnd Hs Hl. apply (StronglySorted_unique newest_first); [apply byOrigin_sorted|done|].
  apply NoDup_Permutation; [apply byOrigin_NoDup|done|]. intros id. by rewrite byOrigin_elem, Hl.
Qed.

Lemma byOrigin_ext m m' k :
  (∀ id, origin_key <$> m !! id = origin_key <$> m' !! id) → byOrigin m k = byOrigin m' k.
Proof.
  intros Hext. apply byOrigin_eq; [apply byOrigin_NoDup|apply byOrigin_sorted|].
  intros id. rewrite byOrigin_elem. specialize (Hext id).
  destruct (m !! id), (m' !! id); simplify_eq/=; naive_solver congruence.
Qed.

Lemma byOrigin_insert m x e k :
  m !! x = None → (∀ id e', m !! id = Some e' → (OpId_Compare id x < 0)%Z) →
  byOrigin (<[x := e]> m) k = (if decide (origin_key e = k) then [x] else []) ++ byOrigin m k.
Proof.
  intros Hx Hmax. apply byOrigin_eq.
  - case_decide; simpl; [|apply byOrigin_NoDup]. constructor; [|apply byOrigin_NoDup].
    rewrite byOrigin_elem, Hx. by intros (? & ? & _).
  - case_decide; simpl; [|apply byOrigin_sorted]. constructor; [apply byOrigin_sorted|].
    apply Forall_forall. intros id (e' & He & _)%byOrigin_elem. apply Hmax in He.
    unfold newest_first. rewrite (cmp_anti (cmp := OpId_Compare)). lia.
  - intros id. rewrite elem_of_app, byOrigin_elem. destruct (decide (id = x)) as [->|Hne].
    + rewrite lookup_insert_eq, Hx. case_decide; [set_solver|]. split; [set_solver|].
      intros (? & [= <-] & ?). done.
    + rewrite lookup_insert_ne by done. case_decide; set_solver.
Qed.

(** What holds of every replica: ids and clock are positive and the clock is at
    or above every id, and an element is newer than its origin. *)
Definition elem_wf (c : Z) id e : Prop :=
  (0 < Counter id ≤ c)%Z ∧ (∀ o, origin e = Some o → 0 < Counter o < Counter id)%Z ∧
  (∀ d, deleted e = Some d → 0 < Counter d ≤ c)%Z.
Definition text_wf (c : Z) m : Prop := ∀ id e, m !! id = Some e → elem_wf c id e.

Lemma child_newer c m k id : text_wf c m → id ∈ byOrigin m k → (Counter k < Counter id)%Z.
Proof.
  intros Hw (e & He & <-)%byOrigin_elem. destruct (Hw _ _ He) as (? & Ho & _).
  unfold origin_key. destruct (origin e) as [o|]; simpl; [|lia]. by apply Ho.
Qed.

Definition newer m (c : Z) : gmap OpId textElem := filter (λ ie, (c < Counter ie.1)%Z) m.

Lemma newer_size m c c' id e :
  m !! id = Some e → (c < Counter id)%Z → (Counter id ≤ c')%Z → size (newer m c') < size (newer m c).
Proof.
  intros He Hc Hc'. apply map_subset_size. split.
  - apply map_filter_subseteq_ext. simpl. lia.
  - intros Hsub. assert (Hin : newer m c !! id = Some e) by (by apply map_lookup_filter_Some).
    eapply lookup_weaken in Hin; [|exact Hsub]. apply map_lookup_filter_Some in Hin as [_ Hs].
    simpl in Hs. lia.
Qed.

Lemma dfs_total c m keep n k : text_wf c m → size (newer m (Counter k)) < n → is_Some (dfs n m keep k).
Proof.
  intros Hw. revert k. induction n as [|n IH]; intros k Hn; [lia|]. cbn [dfs].
  assert (Hs : is_Some (mapM (λ id, sub ← dfs n m keep id; Some ((if keep id then [id] else []) ++ sub))
    (byOrigin m k))).
  { apply mapM_is_Some_2, Forall_forall. intros id Hid.
    pose proof (child_newer c m k id Hw Hid) as Hlt. apply byOrigin_elem in Hid as (e & He & _).
    pose proof (newer_size m (Counter k) (Counter id) id e He Hlt).
    destruct (IH id) as [sub Hsub]; [lia|]. unfold compose. rewrite Hsub. by eauto. }
  destruct Hs as [parts ->]. by eauto.
Qed.

Lemma walk_total c m b : text_wf c m → is_Some (walk m b).
Proof.
  intros Hw. apply (dfs_total c); [done|]. unfold newer.
  pose proof (map_subseteq_size _ _ (map_filter_subseteq (λ ie, (Counter textRootKey < Counter ie.1)%Z) m)).
  lia.
Qed.

(** Unfolding a walk that ended. *)
Lemma dfs_Some n m keep k l :
  dfs (S n) m keep k = Some l →
  ∃ subs, Forall2 (λ id sub, dfs n m keep id = Some sub) (byOrigin m k) subs ∧
    l = concat (zip_with (λ (id : OpId) sub, (if keep id then [id] else []) ++ sub) (byOrigin m k) subs).
Proof.
  cbn [dfs]. intros (parts & Hp & [= <-])%bind_Some. apply mapM_Some in Hp.
  induction Hp as [|id p ids parts (sub & Hsub & [= <-])%bind_Some Hp IH]; [by exists []|].
  destruct IH as (subs & Hs & Heq). exists (sub :: subs). split; [by constructor|]. simpl. by rewrite Heq.
Qed.

Lemma dfs_intro n m keep k subs :
  Forall2 (λ id sub, dfs n m keep id = Some sub) (byOrigin m k) subs →
  dfs (S n) m keep k =
    Some (concat (zip_with (λ (id : OpId) sub, (if keep id then [id] else []) ++ sub) (byOrigin m k) subs)).
Proof.
  intros Hs. cbn [dfs]. apply bind_Some. eexists; split; [|done]. apply mapM_Some.
  induction Hs as [|id sub ids subs Hid _ IH]; simpl; constructor; [by rewrite Hid|done].
Qed.

Lemma dfs_mono n n' m keep k l : dfs n m keep k = Some l → n ≤ n' → dfs n' m keep k = Some l.
Proof.
  revert n' k l. induction n as [|n IH]; intros n' k l Hl Hle; [done|].
  destruct n' as [|n']; [lia|]. apply dfs_Some in Hl as (subs & Hs & ->).
  apply dfs_intro. eapply Forall2_impl; [done|]. intros id sub Hid. apply IH; [done|lia].
Qed.

(** The walk depends on the origins only, [keep] apart. *)
Lemma dfs_ext n m m' keep keep' k :
  (∀ id, origin_key <$> m !! id = origin_key <$> m' !! id) → (∀ id, keep id = keep' id) →
  dfs n m keep k = dfs n m' keep' k.
Proof.
  intros Hm Hk. revert k. induction n as [|n IH]; intros k; [done|]. cbn [dfs].
  rewrite (byOrigin_ext m m') by done. f_equal. apply mapM_ext. intros id. by rewrite IH, Hk.
Qed.

(** Keeping fewer elements filters the output. *)
Lemma dfs_filter n m keep k l :
  dfs n m (λ _, true) k = Some l → dfs n m keep k = Some (filter (λ id, Is_true (keep id)) l).
Proof.
  revert k l. induction n as [|n IH]; intros k l Hl; [done|].
  apply dfs_Some in Hl as (subs & Hs & ->).
  rewrite (dfs_intro _ _ _ _ ((λ sub, filter (λ id, Is_true (keep id)) sub) <$> subs)).
  - f_equal. clear IH. induction Hs as [|id sub ids subs _ _ IHs]; [done|].
    rewrite fmap_cons. cbn [zip_with concat]. rewrite IHs, !filter_app.
    do 2 f_equal. rewrite filter_cons, filter_nil. by destruct (keep id).
  - rewrite Forall2_fmap_r. eapply Forall2_impl; [done|]. intros. by apply IH.
Qed.

(** [x] placed right after [k] wherever [k] stands. *)
Definition place_after k x (l : list OpId) : list OpId :=
  concat ((λ y, if decide (y = k) then [y; x] else [y]) <$> l).

Lemma place_after_app k x l1 l2 : place_after k x (l1 ++ l2) = place_after k x l1 ++ place_after k x l2.
Proof. unfold place_after. by rewrite fmap_app, concat_app. Qed.

Lemma place_after_one k x y :
  place_after k x [y] = y :: if decide (k = y) then [x] else [].
Proof. unfold place_after. simpl. do 2 case_decide; naive_solver. Qed.

Lemma place_after_absent k x l : k ∉ l → place_after k x l = l.
Proof.
  induction l as [|y l IH]; [done|]. rewrite not_elem_of_cons. intros [Hne Hl].
  change (y :: l) with ([y] ++ l) at 1. rewrite place_after_app, IH by done.
  unfold place_after. simpl. by rewrite decide_False.
Qed.

(** A new leaf, newer than everything, shows right after its origin. *)
Lemma dfs_insert n m x e k l :
  m !! x = None → (∀ id e', m !! id = Some e' → (OpId_Compare id x < 0)%Z) →
  (∀ id e', m !! id = Some e' → origin_key e' ≠ x) → origin_key e ≠ x → x ≠ k →
  dfs n m (λ _, true) k = Some l →
  dfs (S n) (<[x := e]> m) (λ _, true) k =
    Some ((if decide (origin_key e = k) then [x] else []) ++ place_after (origin_key e) x l).
Proof.
  intros Hx Hmax Hno Hox. assert (Hleaf : ∀ n', 0 < n' → dfs n' (<[x := e]> m) (λ _, true) x = Some []).
  { intros [|n'] ?; [lia|]. cbn [dfs]. rewrite byOrigin_insert, decide_False by done.
    assert (byOrigin m x = []) as ->; [|done]. apply elem_of_nil_inv.
    intros id (e' & He & Hk)%byOrigin_elem. by eapply Hno. }
  revert k l. induction n as [|n IH]; intros k l Hxk Hl; [done|].
  apply dfs_Some in Hl as (subs & Hs & ->).
  assert (Hsub : Forall2 (λ id sub, dfs (S n) (<[x := e]> m) (λ _, true) id = Some sub) (byOrigin m k)
    (zip_with (λ id sub, (if decide (origin_key e = id) then [x] else []) ++ place_after (origin_key e) x sub)
       (byOrigin m k) subs)).
  { assert (Hne : Forall (λ id, x ≠ id) (byOrigin m k)).
    { apply Forall_forall. intros id (e' & He & _)%byOrigin_elem <-. congruence. }
    clear -Hs IH Hne. induction Hs as [|id sub ids subs Hid _ IHs]; simpl; [constructor|].
    apply Forall_cons in Hne as [Hne Hne']. constructor; [by apply IH|by apply IHs]. }
  assert (Hcat : ∀ ids subs, concat (zip_with (λ id sub, [id] ++ sub) ids
      (zip_with (λ id sub, (if decide (origin_key e = id) then [x] else []) ++ place_after (origin_key e) x sub) ids subs))
    = place_after (origin_key e) x (concat (zip_with (λ id sub, [id] ++ sub) ids subs))).
  { clear. intros ids subs. revert subs. induction ids as [|id ids IH]; intros [|sub subs]; simpl; try done.
    rewrite IH. change (id :: sub ++ ?r) with ([id] ++ (sub ++ r)). rewrite !place_after_app.
    rewrite place_after_one. simpl. by rewrite <-!(assoc_L (++)). }
  assert (Hn : 0 < S n) by lia.
  pose proof (byOrigin_insert m x e k Hx Hmax) as Hb. case_decide as Hok.
  - rewrite (dfs_intro _ _ _ _ ([] :: zip_with (λ id sub, (if decide (origin_key e = id) then [x] else []) ++
      place_after (origin_key e) x sub) (byOrigin m k) subs)).
    + rewrite Hb. simpl. by rewrite <-Hcat.
    + rewrite Hb. constructor; [exact (Hleaf (S n) Hn)|exact Hsub].
  - rewrite (dfs_intro _ _ _ _ (zip_with (λ id sub, (if decide (origin_key e = id) then [x] else []) ++
      place_after (origin_key e) x sub) (byOrigin m k) subs)); rewrite Hb; [simpl; by rewrite <-Hcat|exact Hsub].
Qed.

(** [y] is reached from [k] by following the origin tree down. *)
Definition below m : OpId → OpId → Prop := tc (λ a b, b ∈ byOrigin m a).

Lemma below_newer c m k y : text_wf c m → below m k y → (Counter k < Counter y)%Z.
Proof.
  intros Hw. induction 1 as [a b Hab|a b d Hab _ IH]; pose proof (child_newer c m a b Hw Hab); lia.
Qed.

Lemma parent_unique m a a' b : b ∈ byOrigin m a → b ∈ byOrigin m a' → a = a'.
Proof. rewrite !byOrigin_elem. intros (e & He & <-) (e' & He' & <-). congruence. Qed.

Lemma below_parent m a k b : b ∈ byOrigin m k → below m a b → a = k ∨ below m a k.
Proof.
  intros Hb Hab. revert Hb. unfold below in Hab.
  induction Hab as [a b Hab|a d b Had _ IH]; intros Hb.
  - left. by eapply parent_unique.
  - right. destruct (IH Hb) as [->|Hd]; [by apply tc_once|by eapply tc_l].
Qed.

Lemma below_comparable m a b z : below m a z → below m b z → a = b ∨ below m a b ∨ below m b a.
Proof.
  intros Haz. revert b. induction Haz as [a z Haz|a d z Had Hdz IH]; intros b Hbz.
  - destruct (below_parent _ _ _ _ Haz Hbz) as [->|]; auto.
  - destruct (IH b Hbz) as [->|[Hdb|Hbd]].
    + right. left. by apply tc_once.
    + right. left. by eapply tc_l.
    + destruct (below_parent _ _ _ _ Had Hbd) as [->|]; auto.
Qed.

(** Subtrees of two siblings are disjoint. *)
Lemma siblings_disjoint c m k a b z :
  text_wf c m → a ∈ byOrigin m k → b ∈ byOrigin m k → a ≠ b →
  (z = a ∨ below m a z) → (z = b ∨ below m b z) → False.
Proof.
  intros Hw Ha Hb Hne Hza Hzb.
  assert (Hno : ∀ a b, a ∈ byOrigin m k → b ∈ byOrigin m k → ¬ below m a b).
  { clear -Hw. intros a b Ha Hb Hab. pose proof (child_newer c m k a Hw Ha).
    destruct (below_parent _ _ _ _ Hb Hab) as [->|Hak]; [lia|].
    pose proof (below_newer c m a k Hw Hak). lia. }
  destruct Hza as [->|Hza], Hzb as [Heq|Hzb]; [done|by apply (Hno b a)|subst; by apply (Hno a b)|].
  destruct (below_comparable m a b z Hza Hzb) as [?|[?|?]]; [done|by apply (Hno a b)|by apply (Hno b a)].
Qed.

Lemma dfs_elem n m k l y : dfs n m (λ _, true) k = Some l → y ∈ l ↔ below m k y.
Proof.
  revert k l. induction n as [|n IH]; intros k l Hl; [done|].
  apply dfs_Some in Hl as (subs & Hs & ->).
  assert (Hcat : ∀ ids, Forall2 (λ id sub, dfs n m (λ _, true) id = Some sub) ids subs →
    y ∈ concat (zip_with (λ (id : OpId) sub, [id] ++ sub) ids subs) ↔
    ∃ id, id ∈ ids ∧ (y = id ∨ below m id y)).
  { clear Hs. intros ids Hs. induction Hs as [|id sub ids subs Hid _ IHs]; simpl; [set_solver|].
    rewrite elem_of_cons, elem_of_app, (IH _ _ Hid), IHs. setoid_rewrite elem_of_cons. naive_solver. }
  rewrite Hcat by done. split.
  - intros (id & Hid & [->|Hy]); [by apply tc_once|by eapply tc_l].
  - intros Hy. inversion Hy as [? ? Hy'|? z ? Hz Hzy]; subst; eauto.
Qed.

Lemma dfs_NoDup c n m k l : text_wf c m → dfs n m (λ _, true) k = Some l → NoDup l.
Proof.
  intros Hw. revert k l. induction n as [|n IH]; intros k l Hl; [done|].
  apply dfs_Some in Hl as (subs & Hs & ->).
  assert (Hch : ∀ id, id ∈ byOrigin m k → id ∈ byOrigin m k) by done. revert Hch.
  generalize (byOrigin_NoDup m k). revert Hs. generalize (byOrigin m k) at 1 2 3 5.
  intros ids Hs Hnd Hch. induction Hs as [|id sub ids subs Hid Hs IHs]; simpl; [constructor|].
  apply NoDup_cons in Hnd as [Hni Hnd].
  assert (Hrest : ∀ z, z ∈ concat (zip_with (λ (id : OpId) sub, id :: sub) ids subs) →
    ∃ id', id' ∈ ids ∧ (z = id' ∨ below m id' z)).
  { clear -Hs. induction Hs as [|id sub ids subs Hid _ IH]; simpl; [set_solver|].
    intros z. rewrite elem_of_cons, elem_of_app, (dfs_elem n m id sub z Hid). set_solver. }
  assert (Hdis : ∀ z, z = id ∨ below m id z → z ∉ concat (zip_with (λ (id : OpId) sub, id :: sub) ids subs)).
  { intros z Hz (id' & Hid' & Hz')%Hrest.
    apply (siblings_disjoint c m k id id' z Hw); [apply Hch; set_solver..| |done|done].
    by intros ->. }
  change (NoDup ((id :: sub) ++ concat (zip_with (λ (id : OpId) sub, id :: sub) ids subs))).
  apply NoDup_app. split_and!.
  - constructor; [|by eapply IH]. rewrite (dfs_elem n m id sub id Hid). intros Hb.
    pose proof (below_newer c m id id Hw Hb). lia.
  - intros z [->|Hz]%elem_of_cons; apply Hdis; [by left|right]. by apply (dfs_elem n m id sub).
  - apply IHs; [done|]. intros z Hz. apply Hch. by right.
Qed.

(** ** The visible list under edits *)

Lemma walk_all m : walk m true = dfs (S (size m)) m (λ _, true) textRootKey.
Proof. done. Qed.

Lemma walk_live m l : walk m true = Some l → walk m false = Some (filter (λ id, Is_true (is_live m id)) l).
Proof. rewrite walk_all. apply dfs_filter. Qed.

Lemma below_in m k y : below m k y → is_Some (m !! y).
Proof. induction 1 as [a b (e & He & _)%byOrigin_elem|]; eauto. Qed.

Lemma walk_ids c m l id :
  text_wf c m → walk m true = Some l → id ∈ l → is_Some (m !! id) ∧ (0 < Counter id)%Z.
Proof.
  intros Hw Hl Hid. eapply dfs_elem in Hid; [|exact Hl]. split; [by eapply below_in|].
  apply (below_newer c) in Hid; [|done]. simpl in Hid. lia.
Qed.

Lemma walk_lists c m : text_wf c m →
  ∃ l, walk m true = Some l ∧ NoDup l ∧ walk m false = Some (filter (λ id, Is_true (is_live m id)) l).
Proof.
  intros Hw. destruct (walk_total c m true Hw) as [l Hl]. exists l.
  split_and!; [done|by eapply dfs_NoDup|by apply walk_live].
Qed.

Lemma live_in m v id : walk m false = Some v → id ∈ v → ∃ e, m !! id = Some e ∧ deleted e = None.
Proof.
  unfold walk. generalize (S (size m)) textRootKey. intros n. revert v.
  induction n as [|n IH]; intros v k Hv Hid; [done|].
  apply dfs_Some in Hv as (subs & Hs & ->). induction Hs as [|i sub ids subs Hi _ IHs]; simpl in *; [set_solver|].
  rewrite !elem_of_app in Hid. destruct Hid as [[Hid|Hid]|Hid]; [|by eapply IH|by apply IHs].
  unfold is_live in Hid. destruct (m !! i) as [e|] eqn:Ei; [|set_solver].
  case_bool_decide; [|set_solver]. apply list_elem_of_singleton in Hid as ->. eauto.
Qed.

Lemma visible_split_unique {A} (a b a' b' : list A) x :
  NoDup (a ++ x :: b) → a ++ x :: b = a' ++ x :: b' → a = a' ∧ b = b'.
Proof.
  revert a'. induction a as [|y a IH]; intros [|z a']; simpl; intros Hnd [= Heq]; simplify_eq.
  - done.
  - apply NoDup_cons in Hnd as [Hni _]. set_solver.
  - apply NoDup_cons in Hnd as [Hni _]. set_solver.
  - apply NoDup_cons in Hnd as [_ Hnd]. destruct (IH a' Hnd) as [-> ->]; naive_solver.
Qed.

Lemma place_after_split k x a b :
  k ∉ a → k ∉ b → place_after k x (a ++ k :: b) = a ++ k :: x :: b.
Proof.
  intros Ha Hb. change (k :: b) with ([k] ++ b). rewrite !place_after_app, place_after_one.
  rewrite decide_True, !place_after_absent by done. done.
Qed.

(** The origin the program computes for visible index [i]. *)
Definition origin_at (v : list OpId) (i : nat) : option OpId :=
  match i with 0 => None | S i => v !! i end.

(** A fresh newest element whose origin is the [i]-th visible one becomes
    visible at [i]. *)
Lemma insert_live c c' m p s v i :
  text_wf c m → (0 ≤ c < c')%Z → walk m false = Some v → i ≤ length v →
  walk (<[mkOpId c' p := mkTextElem s (origin_at v i) None]> m) false =
    Some (take i v ++ mkOpId c' p :: drop i v).
Proof.
  intros Hw Hc Hv Hi. set (x := mkOpId c' p). set (e := mkTextElem s (origin_at v i) None).
  destruct (walk_lists c m Hw) as (l & Hl & Hnd & Hv'). rewrite Hv in Hv'. injection Hv' as Hveq.
  assert (Hmax : ∀ id e', m !! id = Some e' → (OpId_Compare id x < 0)%Z).
  { intros id e' He. destruct (Hw _ _ He) as (? & _). apply OpId_Compare_counter. simpl. lia. }
  assert (Hx : m !! x = None).
  { destruct (m !! x) as [e'|] eqn:Ex; [|done]. destruct (Hw _ _ Ex) as (? & _). simpl in *. lia. }
  assert (Hno : ∀ id e', m !! id = Some e' → origin_key e' ≠ x).
  { intros id e' He Hk. destruct (Hw _ _ He) as (? & Ho & _). unfold origin_key in Hk.
    destruct (origin e') as [o|]; simpl in Hk; subst; simpl in *; [|injection Hk; lia].
    specialize (Ho _ eq_refl). simpl in Ho. lia. }
  assert (Hox : origin_key e ≠ x ∧ (origin_key e = textRootKey ↔ i = 0)).
  { destruct i as [|i]; simpl; [split; [intros [=]; lia|done]|].
    unfold origin_key. simpl. destruct (lookup_lt_is_Some_2 v i) as [k Hk]; [lia|]. rewrite Hk. simpl.
    assert (Hin : k ∈ l) by (apply list_elem_of_lookup_2 in Hk; subst v; by apply list_elem_of_filter in Hk as [_ ?]).
    destruct (walk_ids c m l k Hw Hl Hin) as [[ek Hek] Hpos]. split; [|split; [intros ->; simpl in *; lia|done]].
    intros ->. congruence. }
  destruct Hox as [Hox Hroot].
  assert (Hlive : ∀ id, id ∈ l → is_live (<[x := e]> m) id = is_live m id).
  { intros id Hid. destruct (walk_ids c m l id Hw Hl Hid) as [[ek Hek] _]. unfold is_live.
    rewrite lookup_insert_ne; [done|]. intros <-. congruence. }
  assert (Hfl : ∀ q, q ⊆ l → filter (λ id, Is_true (is_live (<[x := e]> m) id)) q =
                             filter (λ id, Is_true (is_live m id)) q).
  { intros q Hq. apply filter_ext_in. intros id Hid. by rewrite Hlive by auto. }
  assert (Hlx : is_live (<[x := e]> m) x = true).
  { unfold is_live. rewrite lookup_insert_eq. done. }
  assert (Hfull : walk (<[x := e]> m) true =
    Some ((if decide (origin_key e = textRootKey) then [x] else []) ++ place_after (origin_key e) x l)).
  { rewrite walk_all, map_size_insert_None by done.
    apply dfs_insert; try done. intros Heq. apply (f_equal Counter) in Heq. simpl in Heq. lia. }
  rewrite (walk_live _ _ Hfull). f_equal. destruct i as [|i].
  - rewrite decide_True by (by apply Hroot). simpl. rewrite filter_cons_True by (by rewrite Hlx).
    f_equal. rewrite place_after_absent, Hfl; [done..|]. unfold origin_key. simpl. intros Hin.
    destruct (walk_ids c m l textRootKey Hw Hl Hin) as [_ ?]. simpl in *. lia.
  - rewrite decide_False by (intros ?%Hroot; done). simpl app.
    destruct (lookup_lt_is_Some_2 v i) as [k Hk]; [lia|].
    assert (Hke : origin_key e = k) by (unfold origin_key; simpl; by rewrite Hk). rewrite Hke.
    pose proof Hk as Hin. apply list_elem_of_lookup_2 in Hin. rewrite Hveq in Hin.
    apply list_elem_of_filter in Hin as [Hkl Hin]. apply list_elem_of_split in Hin as (a & b & ->).
    pose proof Hnd as Hnd'. apply NoDup_app in Hnd' as (_ & Hda & Hnb%NoDup_cons).
    rewrite place_after_split; [|intros Ha; apply (Hda k Ha); by left|by destruct Hnb].
    rewrite filter_app, filter_cons_True by (by rewrite Hlive by set_solver).
    rewrite filter_cons_True by (by rewrite Hlx). rewrite !Hfl by set_solver.
    rewrite filter_app, filter_cons_True in Hveq by done.
    pose proof (take_drop_middle v i k Hk) as Hmid.
    destruct (visible_split_unique (take i v) (drop (S i) v)
      (filter (λ id, Is_true (is_live m id)) a) (filter (λ id, Is_true (is_live m id)) b) k) as [Ht Hd].
    { rewrite Hmid, Hveq. rewrite <-(filter_cons_True _ k b Hkl), <-filter_app. by apply NoDup_filter. }
    { by rewrite Hmid. }
    rewrite (take_S_r v i k) by done. rewrite Ht, Hd. by rewrite <-(assoc_L (++)).
Qed.

(** Tombstoning the [i]-th visible element removes it from the visible list and
    leaves the full order alone. *)
Lemma delete_live c m v i id e d :
  text_wf c m → walk m false = Some v → v !! i = Some id → m !! id = Some e →
  let m' := <[id := mkTextElem (ch e) (origin e) (Some d)]> m in
  walk m' false = Some (delete i v) ∧ walk m' true = walk m true.
Proof.
  intros Hw Hv Hi He m'.
  assert (Hsz : size m' = size m) by (unfold m'; apply map_size_insert_Some; eauto).
  assert (Hext : ∀ k, origin_key <$> m' !! k = origin_key <$> m !! k).
  { intros k. unfold m'. destruct (decide (id = k)) as [<-|]; [|by rewrite lookup_insert_ne].
    by rewrite lookup_insert_eq, He. }
  assert (Hall : walk m' true = walk m true).
  { rewrite !walk_all, Hsz. by apply dfs_ext. }
  split; [|done]. destruct (walk_lists c m Hw) as (l & Hl & Hnd & Hv').
  rewrite Hv in Hv'. injection Hv' as ->.
  rewrite (walk_live m' l) by (by rewrite Hall). f_equal.
  pose proof (NoDup_filter (λ id, Is_true (is_live m id)) l Hnd) as Hndv.
  assert (Hd : ∀ k, is_live m' k = is_live m k && negb (bool_decide (k = id))).
  { intros k. unfold is_live, m'. case_bool_decide as Hk; subst.
    - rewrite lookup_insert_eq. simpl. by rewrite andb_false_r.
    - rewrite lookup_insert_ne by done. by rewrite andb_true_r. }
  clear -Hd Hndv Hi. revert Hndv i Hi. induction l as [|k l IH]; intros Hnd i Hi; [done|].
  rewrite !filter_cons in *. rewrite Hd. destruct (is_live m k); simpl in *; [|by apply IH].
  apply NoDup_cons in Hnd as [Hk Hnd]. destruct i as [|i]; simpl in *.
  - simplify_eq. rewrite bool_decide_true by done. simpl. apply filter_ext_in. intros j Hj.
    rewrite Hd. case_bool_decide; subst; [|by rewrite andb_true_r].
    rewrite andb_false_r. split; [done|]. intros Hlv. apply Hk. by apply list_elem_of_filter.
  - rewrite bool_decide_false.
    + simpl. by rewrite (IH Hnd i Hi).
    + intros ->. apply Hk. by eapply list_elem_of_lookup_2.
Qed.

Lemma chars_of_take_drop m v :
  (∀ id, id ∈ v → is_Some (m !! id)) →
  length (chars_of m v) = length v ∧
  ∀ i, take i (chars_of m v) = chars_of m (take i v) ∧ drop i (chars_of m v) = chars_of m (drop i v) ∧
       delete i (chars_of m v) = chars_of m (delete i v).
Proof.
  unfold chars_of. induction v as [|id v IH]; intros Hv; [by split; [|intros []]|].
  destruct (Hv id) as [e He]; [by left|]. destruct IH as [IH1 IH2]; [intros; apply Hv; by right|].
  csimpl. rewrite He. csimpl. rewrite IH1. split; [done|]. intros [|i]; csimpl; rewrite ?He; csimpl.
  - by rewrite ?He.
  - destruct (IH2 i) as (I1 & I2 & I3). by rewrite I1, I2, I3.
Qed.

Lemma chars_of_app m v w : chars_of m (v ++ w) = chars_of m v ++ chars_of m w.
Proof. apply omap_app. Qed.

Lemma chars_of_ext m m' v : (∀ id, id ∈ v → ch <$> m !! id = ch <$> m' !! id) → chars_of m v = chars_of m' v.
Proof.
  unfold chars_of. induction v as [|id v IH]; intros Hv; [done|]. csimpl.
  rewrite (Hv id) by (by left). rewrite IH; [done|]. intros. apply Hv. by right.
Qed.

(** ** The replica invariant *)

Definition cache_ok t : Prop :=
  (∀ out, orderedLiveCache t = Some out → walk (elems t) false = Some out) ∧
  (∀ out, orderedAllCache t = Some out → walk (elems t) true = Some out).

Record inv t : Prop := {
  inv_wf : text_wf (counter t) (elems t);
  inv_cache : cache_ok t;
  inv_counter : (0 ≤ counter t)%Z;
}.

(** Reading the order, from the cache or not, gives the walk of the elements
    and changes nothing but the caches. *)
Lemma orderedIds_ok t b : inv t →
  ∃ t' out, orderedIds t b = Some (t', out) ∧ walk (elems t) b = Some out ∧ inv t' ∧
    elems t' = elems t ∧ counter t' = counter t ∧ peer t' = peer t.
Proof.
  intros [Hw Hc Hn]. destruct (walk_total _ _ b Hw) as [out Hout]. unfold orderedIds.
  destruct (if b then orderedAllCache t else orderedLiveCache t) as [out'|] eqn:E.
  - exists t, out'. split_and!; try done. destruct Hc. destruct b; auto.
  - rewrite Hout. simpl. eexists _, out. split; [done|].
    assert (Ha : ∀ q, as_cache out = Some q → q = out) by (destruct out; naive_solver).
    destruct b; simpl; (split_and!; [done| |done..]); (constructor; [done| |done]); destruct Hc as [H1 H2];
      (split; [|try done]); simpl; try done; intros q Hq; by apply Ha in Hq as ->.
Qed.

Lemma Text_ok t : inv t →
  ∃ t' v, Text t = Some (t', chars_of (elems t) v) ∧ walk (elems t) false = Some v ∧ inv t' ∧
    elems t' = elems t ∧ counter t' = counter t ∧ peer t' = peer t.
Proof.
  intros Hi. destruct (orderedIds_ok t false Hi) as (t' & v & Ho & Hv & Hi' & He & Hc & Hp).
  exists t', v. unfold Text. rewrite Ho. simpl. by rewrite He.
Qed.

(** The visible characters of an element set. *)
Definition text_of m : option (list string) := chars_of m <$> walk m false.

Lemma elem_wf_mono c c' id e : (c ≤ c')%Z → elem_wf c id e → elem_wf c' id e.
Proof. intros Hc (H1 & H2 & H3). split_and!; [lia|lia|done|]. intros d Hd. specialize (H3 d Hd). lia. Qed.

Lemma text_wf_insert c c' m id e :
  text_wf c m → (c ≤ c')%Z → elem_wf c' id e → text_wf c' (<[id := e]> m).
Proof.
  intros Hw Hc He i x [[-> ->]|[_ Hx]]%lookup_insert_Some; [done|]. eapply elem_wf_mono; [done|]. by apply Hw.
Qed.

Lemma cache_ok_none p c m : cache_ok (mkTextCrdt p c m None None).
Proof. by split. Qed.

Lemma take_S_insert {A} (l : list A) i x : i ≤ length l → take (S i) (take i l ++ x :: drop i l) = take i l ++ [x].
Proof.
  intros Hi. rewrite take_app_ge; rewrite length_take; [|lia].
  by replace (S i - i `min` length l) with 1 by lia.
Qed.
Lemma drop_S_insert {A} (l : list A) i x : i ≤ length l → drop (S i) (take i l ++ x :: drop i l) = drop i l.
Proof.
  intros Hi. rewrite drop_app_ge; rewrite length_take; [|lia].
  by replace (S i - i `min` length l) with 1 by lia.
Qed.
Lemma subset_take {A} (l : list A) i : take i l ⊆ l.
Proof. intros x. rewrite elem_of_take. intros (j & Hj & _). by eapply list_elem_of_lookup_2. Qed.
Lemma subset_drop {A} (l : list A) i : drop i l ⊆ l.
Proof. intros x Hx. rewrite <-(take_drop i l). set_solver. Qed.

(** Appending a chain of characters at visible index [i]. *)
Lemma insert_chain_ok s t v i :
  text_wf (counter t) (elems t) → (0 ≤ counter t)%Z → (counter t + Z.of_nat (length s) < max_i64)%Z →
  orderedLiveCache t = None → orderedAllCache t = None →
  walk (elems t) false = Some v → i ≤ length v →
  let t' := insert_chain t (origin_at v i) s in
  inv t' ∧ counter t' = (counter t + Z.of_nat (length s))%Z ∧ peer t' = peer t ∧
  text_of (elems t') = Some (take i (chars_of (elems t) v) ++ s ++ drop i (chars_of (elems t) v)).
Proof.
  revert t v i. induction s as [|c s IH]; intros t v i Hw Hn Hr Hl Ha Hv Hi t'.
  - unfold t'. simpl in *. rewrite take_drop. unfold text_of. rewrite Hv.
    split_and!; [|lia|done|done]. split; [done| |done]. destruct t; simpl in *; subst. apply cache_ok_none.
  - cbn [length insert_chain] in *. unfold t'. clear t'. cbn [insert_chain].
    unfold nextId. rewrite i64_small by zrange. set (x := mkOpId (counter t + 1) (peer t)).
    set (e := mkTextElem c (origin_at v i) None).
    pose proof (insert_live (counter t) (counter t + 1) (elems t) (peer t) c v i Hw) as Hins.
    specialize (Hins ltac:(lia) Hv Hi).
    assert (Hel : ∀ id, id ∈ v → is_Some (elems t !! id) ∧ id ≠ x).
    { intros id Hid. destruct (live_in _ _ _ Hv Hid) as (e' & He' & _). split; [eauto|].
      destruct (Hw _ _ He') as (? & _). intros ->. simpl in *. lia. }
    destruct (IH (mkTextCrdt (peer t) (counter t + 1) (<[x := e]> (elems t)) (orderedLiveCache t)
      (orderedAllCache t)) (take i v ++ x :: drop i v) (S i)) as (I1 & I2 & I3 & I4); simpl; try done; try lia.
    { apply (text_wf_insert (counter t)); [done|lia|]. split_and!; simpl; try lia; [|done].
      intros o Ho. destruct i as [|i]; [done|]. simpl in Ho. apply list_elem_of_lookup_2 in Ho.
      destruct (Hel _ Ho) as [[eo Heo] _]. destruct (Hw _ _ Heo) as (? & _). lia. }
    { rewrite length_app, length_take. simpl. lia. }
    assert (Horig : (take i v ++ x :: drop i v) !! i = Some x).
    { rewrite lookup_app_r by (rewrite length_take; lia). rewrite length_take.
      by replace (i - i `min` length v) with 0 by lia. }
    unfold origin_at in I1, I2, I3, I4. rewrite Horig in I1, I2, I3, I4. unfold with_elems. simpl in *.
    split_and!; [done|lia|done|]. rewrite I4. f_equal.
    assert (Hsame : ∀ w, w ⊆ v → chars_of (<[x := e]> (elems t)) w = chars_of (elems t) w).
    { intros w Hwv. apply chars_of_ext. intros id Hid%Hwv. rewrite lookup_insert_ne; [done|].
      intros <-. by apply (Hel x). }
    destruct (chars_of_take_drop (elems t) v) as [Hlen Htd]; [intros ? ?; by apply Hel|].
    destruct (Htd i) as (T1 & T2 & _).
    assert (Hch : chars_of (<[x := e]> (elems t)) (take i v ++ x :: drop i v) =
      take i (chars_of (elems t) v) ++ c :: drop i (chars_of (elems t) v)).
    { change (x :: drop i v) with ([x] ++ drop i v). rewrite !chars_of_app, (Hsame (take i v)), (Hsame (drop i v)), T1, T2.
      - f_equal. unfold chars_of at 2. csimpl. by rewrite lookup_insert_eq.
      - apply subset_drop.
      - apply subset_take. }
    rewrite Hch. rewrite take_S_insert, drop_S_insert by lia. by rewrite <-(assoc_L (++)).
Qed.

(** *** Merging element sets *)

(** The earlier delete wins; a live element yields to any delete. *)
Definition del_join (a b : option OpId) : option OpId :=
  match a, b with
  | Some x, Some y => Some (if (OpId_Compare y x <? 0)%Z then y else x)
  | None, Some y => Some y
  | _, None => a
  end.

Lemma merge_entry_Some x e :
  (merge_entry (Some x) e).1 = mkTextElem (ch x) (origin x) (del_join (deleted x) (deleted e)).
Proof.
  unfold merge_entry, del_join. destruct x as [c g [dx|]], (deleted e); simpl; try done. by case_match.
Qed.

Lemma del_join_comm a b : del_join a b = del_join b a.
Proof.
  destruct a as [x|], b as [y|]; simpl; try done. f_equal.
  pose proof (cmp_anti (cmp := OpId_Compare) x y). pose proof (cmp_eq (cmp := OpId_Compare) x y).
  destruct (Z.ltb_spec (OpId_Compare y x) 0), (Z.ltb_spec (OpId_Compare x y) 0); try lia; try done.
  apply H0. lia.
Qed.

Lemma del_join_assoc a b c : del_join a (del_join b c) = del_join (del_join a b) c.
Proof.
  destruct a as [x|], b as [y|], c as [z|]; simpl; try done. f_equal.
  pose proof (cmp_trans (cmp := OpId_Compare) z y x). pose proof (cmp_trans_le (cmp := OpId_Compare) x y z).
  pose proof (cmp_anti (cmp := OpId_Compare) x y). pose proof (cmp_anti (cmp := OpId_Compare) y z).
  pose proof (cmp_anti (cmp := OpId_Compare) x z).
  destruct (Z.ltb_spec (OpId_Compare z y) 0), (Z.ltb_spec (OpId_Compare y x) 0);
    repeat match goal with |- context [(?a <? 0)%Z] => destruct (Z.ltb_spec a 0) end; try done; lia.
Qed.

Lemma del_join_idem a : del_join a a = a.
Proof. destruct a as [x|]; simpl; [|done]. by rewrite (cmp_refl (cmp := OpId_Compare)). Qed.

(** An id determines its character and origin. *)
Definition elem_of_op (chs : OpId → string) (orgs : OpId → option OpId) id e : Prop :=
  ch e = chs id ∧ origin e = orgs id.

#[export] Instance textElem_join chs orgs id :
  Join textElem (λ x e, (merge_entry (Some x) e).1) (elem_of_op chs orgs id).
Proof.
  split; unfold elem_of_op.
  - intros x y [??] [??]. by rewrite merge_entry_Some.
  - intros x y [??] [??]. rewrite !merge_entry_Some, del_join_comm. by f_equal; congruence.
  - intros x y z [??] [??] [??]. rewrite !merge_entry_Some. simpl. by rewrite del_join_assoc.
  - intros [] _. rewrite merge_entry_Some. simpl. by rewrite del_join_idem.
Qed.

Definition text_join : gmap OpId textElem → gmap OpId textElem → gmap OpId textElem :=
  map_join (λ x e, (merge_entry (Some x) e).1).

Definition merge_step m (ie : OpId * textElem) : gmap OpId textElem * bool :=
  let '(e, c) := merge_entry (m !! ie.1) ie.2 in (<[ie.1 := e]> m, c).

Lemma merge_step_state m ie :
  (merge_step m ie).1 = partial_alter (λ x, join_into (λ x e, (merge_entry (Some x) e).1) x ie.2) ie.1 m.
Proof.
  unfold merge_step. destruct (merge_entry (m !! ie.1) ie.2) as [e c] eqn:E. simpl.
  apply map_eq. intros j. destruct (decide (ie.1 = j)) as [<-|].
  - rewrite lookup_insert_eq, lookup_partial_alter_eq. unfold join_into. apply (f_equal fst) in E.
    simpl in E. by destruct (m !! ie.1); simpl in *; subst.
  - by rewrite lookup_insert_ne, lookup_partial_alter_ne.
Qed.

Lemma merge_step_flag m ie :
  if (merge_step m ie).2 then join_into (λ x e, (merge_entry (Some x) e).1) (m !! ie.1) ie.2 ≠ m !! ie.1
  else join_into (λ x e, (merge_entry (Some x) e).1) (m !! ie.1) ie.2 = m !! ie.1.
Proof.
  unfold merge_step, join_into. destruct (m !! ie.1) as [x|]; simpl; [|done].
  destruct (deleted x) as [dx|] eqn:Ex, (deleted ie.2) as [d|] eqn:Ed; simpl; try done.
  - destruct (Z.ltb_spec (OpId_Compare d dx) 0); simpl; [|done]. intros Heq. simplify_eq.
    apply (f_equal deleted) in Heq. simpl in Heq. rewrite Ex in Heq. simplify_eq.
    rewrite (cmp_refl (cmp := OpId_Compare)) in *. lia.
  - intros Heq. simplify_eq. apply (f_equal deleted) in Heq. simpl in Heq. congruence.
Qed.

Lemma mergeElem_step t ie :
  mergeElem t ie =
    (mkTextCrdt (peer t) (observe_op (counter t) ie.1 ie.2) (merge_step (elems t) ie).1
       (orderedLiveCache t) (orderedAllCache t), (merge_step (elems t) ie).2).
Proof. unfold mergeElem, merge_step. by destruct (merge_entry _ _). Qed.

Lemma fold_mergeElem t l :
  fold_changed mergeElem t l =
    (mkTextCrdt (peer t) (foldl (λ c ie, observe_op c ie.1 ie.2) (counter t) l)
       (fold_changed merge_step (elems t) l).1 (orderedLiveCache t) (orderedAllCache t),
     (fold_changed merge_step (elems t) l).2).
Proof.
  revert t. induction l as [|ie l IH]; intros t; [by destruct t|].
  by rewrite !fold_changed_cons, IH, mergeElem_step.
Qed.

Lemma observe_op_spec c id e :
  (c ≤ observe_op c id e)%Z ∧ (Counter id ≤ observe_op c id e)%Z ∧
  (∀ d, deleted e = Some d → (Counter d ≤ observe_op c id e)%Z).
Proof.
  unfold observe_op. destruct (Z.ltb_spec c (Counter id)), (deleted e) as [d|]; try case_match;
    split_and!; intros; simplify_eq; try lia.
Qed.

Lemma merge_fold_wf c co m l :
  text_wf c m → Forall (λ ie, elem_wf co ie.1 ie.2) l →
  text_wf (foldl (λ c ie, observe_op c ie.1 ie.2) c l) (fold_changed merge_step m l).1 ∧
  (c ≤ foldl (λ c ie, observe_op c ie.1 ie.2) c l)%Z.
Proof.
  intros Hw Hl. revert c m Hw. induction Hl as [|ie l Hie Hl IH]; intros c m Hw; [by split; [|simpl; lia]|].
  rewrite fold_changed_cons. cbn [foldl fst].
  destruct (observe_op_spec c ie.1 ie.2) as (O1 & O2 & O3).
  destruct (IH (observe_op c ie.1 ie.2) (merge_step m ie).1) as [I1 I2]; [|split; [done|lia]].
  destruct Hie as (E1 & E2 & E3). rewrite merge_step_state. intros i x. unfold join_into.
  destruct (decide (ie.1 = i)) as [<-|]; [|rewrite lookup_partial_alter_ne by done; intros Hx;
    eapply elem_wf_mono; [exact O1|by apply Hw]].
  rewrite lookup_partial_alter_eq. intros Hx%(inj Some). subst x.
  destruct (m !! ie.1) as [y|] eqn:Ey; cbn [from_option].
  - rewrite merge_entry_Some. destruct (Hw _ _ Ey) as (Y1 & Y2 & Y3). split_and!; simpl; [lia|lia|done|].
    intros d Hd. destruct (deleted y) as [dy|], (deleted ie.2) as [di|]; simplify_eq/=;
      try specialize (Y3 _ eq_refl); try specialize (E3 _ eq_refl); try specialize (O3 _ eq_refl);
      try case_match; lia.
  - split_and!; [lia|lia|done|]. intros d Hd. specialize (E3 d Hd). specialize (O3 d Hd). lia.
Qed.

(** [Merge] and [ApplyDelta] return, keep the invariant, compute the fold over
    the elements and report exactly whether the visible text changed. *)
Lemma merge_all_ok t l co :
  inv t → Forall (λ ie, elem_wf co ie.1 ie.2) l → NoDup l.*1 →
  ∃ t' b, merge_all t l = Some (t', b) ∧ inv t' ∧ peer t' = peer t ∧
    elems t' = (fold_changed merge_step (elems t) l).1 ∧
    (b = true ↔ joined <$> text_of (elems t') ≠ joined <$> text_of (elems t)).
Proof.
  intros Hi Hl Hnd. destruct (Text_ok t Hi) as (t1 & v & Ht & Hv & Hi1 & He1 & Hc1 & Hp1).
  unfold merge_all. rewrite Ht. cbn [mbind option_bind]. rewrite fold_mergeElem, He1.
  set (m' := (fold_changed merge_step (elems t) l).1). set (ch' := (fold_changed merge_step (elems t) l).2).
  destruct (merge_fold_wf (counter t1) co (elems t) l) as [Hw' Hcm]; [rewrite <-He1; by apply inv_wf|done|].
  set (t2 := if ch' then invalidateOrdered _ else _).
  assert (Hi2 : inv t2 ∧ elems t2 = m' ∧ peer t2 = peer t).
  { pose proof (inv_counter t1 Hi1). unfold t2. destruct ch' eqn:Ech; simpl.
    - split_and!; [|done..]. split; simpl; [done|apply cache_ok_none|lia].
    - assert (Hsame : m' = elems t).
      { apply (fold_changed_false merge_step); [|done].
        intros s a. by apply (keyed_step_same (λ _, join_into (λ x e, (merge_entry (Some x) e).1)) _ merge_step_state merge_step_flag). }
      split_and!; [|done..]. split; simpl; [done| |lia]. rewrite Hsame, <-He1. exact (inv_cache t1 Hi1). }
  destruct Hi2 as (Hi2 & He2 & Hp2).
  destruct (Text_ok t2 Hi2) as (t3 & v3 & Ht3 & Hv3 & Hi3 & He3 & Hc3 & Hp3).
  rewrite Ht3. cbn [mbind option_bind]. eexists t3, _. split; [done|].
  split_and!; [done|congruence|congruence|]. unfold text_of. rewrite He3, Hv3, Hv. simpl.
  rewrite negb_true_iff, bool_decide_eq_false. by rewrite (inj_iff Some).
Qed.

(** *** Collection ends *)

Lemma gc_loop_ok rounds m f n :
  size m < rounds → ∃ m' (k : nat), gc_loop rounds m f n = Some (m', n + k) ∧ m' ⊆ m ∧ (k = 0 → m' = m).
Proof.
  revert m n. induction rounds as [|rounds IH]; intros m n Hs; [lia|]. cbn [gc_loop].
  case_decide as Hc; [exists m, 0; by rewrite Nat.add_0_r|].
  assert (Hsub : collectable m f ⊆ m) by apply map_filter_subseteq.
  assert (Hlt : size (m ∖ collectable m f) + size (collectable m f) = size m).
  { rewrite Nat.add_comm, <-map_size_disj_union by (by apply map_disjoint_difference_r1).
    by rewrite map_difference_union. }
  assert (size (collectable m f) ≠ 0) by (by intros ?%map_size_empty_inv).
  destruct (IH (m ∖ collectable m f) (n + size (collectable m f))) as (m' & k & -> & Hm & _); [lia|].
  exists m', (size (collectable m f) + k). rewrite (assoc_L Nat.add). split_and!; [done| |lia].
  etrans; [done|]. by apply map_subseteq_difference_l.
Qed.

(** ** Reachable replicas *)

(** The states a replica passes through: local edits, reads, forks, merges of
    and deltas from other reachable replicas, and collection, the clock never
    running out of its 64 bits. *)
Inductive reach : TextCrdt → Prop :=
  | reach_new p : reach (NewTextCrdt p)
  | reach_read t b t' out : reach t → orderedIds t b = Some (t', out) → reach t'
  | reach_insert t i c t' :
      reach t → (counter t + 1 < max_i64)%Z → Insert t i c = Some t' → reach t'
  | reach_insert_str t i s t' :
      reach t → (counter t + Z.of_nat (length s) < max_i64)%Z → InsertStr t i s = Some t' → reach t'
  | reach_delete t i t' : reach t → (counter t + 1 < max_i64)%Z → Delete t i = Some t' → reach t'
  | reach_fork t p : reach t → reach (Fork t p)
  | reach_merge t (o : TextCrdt) t' b : reach t → reach o → Merge t o = Some (t', b) → reach t'
  | reach_delta t (o : TextCrdt) vv t' b :
      reach t → reach o → ApplyDelta t (DeltaSince o vv) = Some (t', b) → reach t'
  | reach_gc t f t' n : reach t → GcWith t f = Some (t', n) → reach t'.

Lemma nextId_room t : (0 ≤ counter t)%Z → (counter t + 1 < max_i64)%Z →
  nextId t = (mkTextCrdt (peer t) (counter t + 1) (elems t) (orderedLiveCache t) (orderedAllCache t),
              mkOpId (counter t + 1) (peer t)).
Proof. intros. unfold nextId. by rewrite i64_small by zrange. Qed.

(** Where the program puts an insertion asked for at index [i]: past the end
    of the text it falls back to the document start. *)
Definition place (i : Z) (n : nat) : nat := if (i <=? Z.of_nat n)%Z then Z.to_nat i else 0.

Lemma left_origin_place v i : (0 ≤ i)%Z → left_origin v i = origin_at v (place i (length v)).
Proof.
  intros Hi. unfold left_origin, place. destruct (Z.eqb_spec i 0) as [->|]; simpl.
  { by destruct (0 <=? _)%Z. }
  destruct (Z.ltb_spec (i - 1) (Z.of_nat (length v))), (Z.leb_spec i (Z.of_nat (length v))); try lia; [|done].
  replace (Z.to_nat i) with (S (Z.to_nat (i - 1))) by lia. done.
Qed.

Lemma place_le i n : (0 ≤ i)%Z → place i n ≤ n.
Proof. unfold place. intros. case_match; lia. Qed.

Lemma text_of_walk m v : walk m false = Some v → text_of m = Some (chars_of m v).
Proof. unfold text_of. by intros ->. Qed.

Lemma text_of_length c m v : text_wf c m → walk m false = Some v → length (chars_of m v) = length v.
Proof.
  intros Hw Hv. apply chars_of_take_drop. intros id Hid.
  destruct (live_in m v id Hv Hid) as (e & He & _). eauto.
Qed.

Lemma InsertStr_ok t i s str :
  inv t → text_of (elems t) = Some str → (0 ≤ i)%Z → (counter t + Z.of_nat (length s) < max_i64)%Z →
  let k := place i (length str) in
  ∃ t', InsertStr t i s = Some t' ∧ inv t' ∧
    text_of (elems t') = Some (take k str ++ s ++ drop k str).
Proof.
  intros Hi Hs H0 Hr. destruct (orderedIds_ok t false Hi) as (t1 & v & Ho & Hv & Hi1 & He & Hc & Hp).
  rewrite (text_of_walk _ _ Hv) in Hs. injection Hs as <-.
  rewrite (text_of_length (counter t) _ v) by (by try apply inv_wf). cbv zeta.
  unfold InsertStr. rewrite Ho. cbn [mbind option_bind]. destruct (Z.ltb_spec i 0); [lia|].
  rewrite left_origin_place by done.
  destruct (insert_chain_ok s (invalidateOrdered t1) v (place i (length v))) as (I1 & I2 & I3 & I4); simpl.
  - by apply inv_wf.
  - by apply inv_counter.
  - lia.
  - done.
  - done.
  - by rewrite He.
  - by apply place_le.
  - eexists. split; [done|]. split; [done|]. by rewrite I4, <-He.
Qed.

(** [Insert] is [InsertStr] of one character. *)
Lemma Insert_InsertStr t i c : Insert t i c = InsertStr t i [c].
Proof.
  unfold Insert, InsertStr. destruct (orderedIds t false) as [[t1 v]|]; [|done]. cbn [mbind option_bind].
  destruct (i <? 0)%Z; [done|]. unfold insert_chain, nextId, invalidateOrdered, with_elems. done.
Qed.

Lemma Delete_ok t i str :
  inv t → text_of (elems t) = Some str → (counter t + 1 < max_i64)%Z →
  ∃ t', Delete t i = Some t' ∧ inv t' ∧
    text_of (elems t') =
      Some (if ((i <? 0) || (Z.of_nat (length str) <=? i))%Z then str else delete (Z.to_nat i) str).
Proof.
  intros Hi Hs Hr. destruct (orderedIds_ok t false Hi) as (t1 & v & Ho & Hv & Hi1 & He & Hc & Hp).
  rewrite (text_of_walk _ _ Hv) in Hs. injection Hs as <-.
  rewrite (text_of_length (counter t) _ v) by (by try apply inv_wf).
  unfold Delete. rewrite Ho. cbn [mbind option_bind].
  destruct ((i <? 0) || (Z.of_nat (length v) <=? i))%Z eqn:Ei.
  { exists t1. split_and!; [done|done|]. by rewrite He, (text_of_walk _ _ Hv). }
  apply orb_false_iff in Ei as [?%Z.ltb_ge ?%Z.leb_gt].
  destruct (lookup_lt_is_Some_2 v (Z.to_nat i)) as [id Hid]; [lia|].
  pose proof Hid as Hin. apply list_elem_of_lookup_2 in Hin.
  destruct (live_in _ _ _ Hv Hin) as (e & Hel & Hdel).
  rewrite Hid. cbn [mbind option_bind]. rewrite He, Hel. cbn [mbind option_bind].
  pose proof (inv_wf t1 Hi1) as Hw1. rewrite He, Hc in Hw1.
  rewrite nextId_room by (rewrite ?Hc; by try apply inv_counter). rewrite Hdel. eexists. split; [done|].
  pose proof (delete_live (counter t) (elems t) v (Z.to_nat i) id e (mkOpId (counter t1 + 1) (peer t1)) Hw1 Hv
    Hid Hel) as [D1 D2]. simpl. rewrite He. split.
  - pose proof (inv_counter t Hi). split; simpl; [| |lia].
    + destruct (Hw1 _ _ Hel) as (W1 & W2 & W3). apply (text_wf_insert (counter t)); [done|lia|].
      split_and!; simpl; [lia|lia|done|]. intros d [= <-]. simpl. lia.
    + split; simpl; [done|]. intros out Hout. rewrite D2, <-He. by apply inv_cache.
  - rewrite (text_of_walk _ _ D1). f_equal.
    destruct (chars_of_take_drop (elems t) v) as [_ Htd].
    { intros k Hk. destruct (live_in _ _ _ Hv Hk) as (? & ? & _). eauto. }
    destruct (Htd (Z.to_nat i)) as (_ & _ & ->). apply chars_of_ext. intros k _.
    destruct (decide (id = k)) as [<-|]; [by rewrite lookup_insert_eq, Hel|by rewrite lookup_insert_ne].
Qed.

Lemma elems_wf_list c m : text_wf c m → Forall (λ ie, elem_wf c ie.1 ie.2) (map_to_list m).
Proof. intros Hw. apply Forall_forall. intros [id e] Hin%elem_of_map_to_list. by apply Hw. Qed.

Lemma Text_Merge_ok t (o : TextCrdt) : inv t → inv o →
  ∃ t' b, Merge t o = Some (t', b) ∧ inv t' ∧ elems t' = text_join (elems t) (elems o) ∧
    (b = true ↔ joined <$> text_of (elems t') ≠ joined <$> text_of (elems t)).
Proof.
  intros Ht Ho. destruct (merge_all_ok t (map_to_list (elems o)) (counter o)) as (t' & b & H1 & H2 & _ & H3 & H4).
  - done.
  - by apply elems_wf_list, inv_wf.
  - apply NoDup_fst_map_to_list.
  - exists t', b. split_and!; [done|done| |done]. rewrite H3.
    rewrite (keyed_fold_state (λ _, join_into (λ x e, (merge_entry (Some x) e).1))) by apply merge_step_state.
    apply fold_entries_join.
Qed.

Lemma op_entry_entry_op (l : list (OpId * textElem)) : op_entry <$> (entry_op <$> l) = l.
Proof. induction l as [|[i []] l IH]; csimpl; [done|]. by f_equal. Qed.

Definition delta_entries vv m : list (OpId * textElem) :=
  filter (λ ie, Is_true (is_new vv ie)) (map_to_list m).

Lemma ApplyDelta_ok t (o : TextCrdt) vv : inv t → inv o →
  ∃ t' b, ApplyDelta t (DeltaSince o vv) = Some (t', b) ∧ inv t' ∧ peer t' = peer t ∧
    elems t' = (fold_changed merge_step (elems t) (delta_entries vv (elems o))).1 ∧
    (b = true ↔ joined <$> text_of (elems t') ≠ joined <$> text_of (elems t)).
Proof.
  intros Ht Ho. unfold ApplyDelta, DeltaSince. rewrite op_entry_entry_op.
  apply (merge_all_ok t _ (counter o) Ht).
  - apply Forall_forall. intros ie [_ Hin]%list_elem_of_filter.
    pose proof (elems_wf_list _ _ (inv_wf o Ho)) as Hl. rewrite Forall_forall in Hl. auto.
  - unfold delta_entries. clear. pose proof (NoDup_fst_map_to_list (elems o)) as Hnd.
    induction (map_to_list (elems o)) as [|ie l IH]; [constructor|].
    csimpl. apply NoDup_cons in Hnd as [Hni Hnd]. rewrite filter_cons. case_decide; [|by apply IH].
    csimpl. constructor; [|by apply IH]. intros (x & Hx & [_ Hin]%list_elem_of_filter)%list_elem_of_fmap.
    apply Hni. rewrite Hx. by apply list_elem_of_fmap_2.
Qed.

Lemma GcWith_ok t f : inv t → ∃ t' n, GcWith t f = Some (t', n) ∧ inv t' ∧ elems t' ⊆ elems t.
Proof.
  intros [Hw Hc Hn]. unfold GcWith.
  destruct (gc_loop_ok (S (size (elems t))) (elems t) f 0) as (m' & k & -> & Hsub & H0); [lia|].
  cbn [mbind option_bind]. eexists _, _. split; [done|].
  assert (Hw' : text_wf (counter t) m').
  { intros id e He. apply Hw. by eapply lookup_weaken. }
  case_bool_decide; simpl; (split; [split; simpl; try done|done]).
  rewrite H0 by lia. done.
Qed.

Lemma reach_inv t : reach t → inv t.
Proof.
  induction 1 as [p|t b t' out _ IH E|t i c t' _ IH Hr E|t i s t' _ IH Hr E|t i t' _ IH Hr E|t p _ IH
    |t o t' b _ IH1 _ IH2 E|t o vv t' b _ IH1 _ IH2 E|t f t' n _ IH E].
  - split; simpl; [by intros ??|apply cache_ok_none|done].
  - destruct (orderedIds_ok t b IH) as (? & ? & E' & _ & ? & _). congruence.
  - destruct (Text_ok t IH) as (? & v & _ & Hv & _). rewrite Insert_InsertStr in E.
    destruct (decide (0 ≤ i)%Z); [|unfold InsertStr in E; destruct (orderedIds t false) as [[]|]; simpl in E;
      [destruct (Z.ltb_spec i 0); [done|lia]|done]].
    destruct (InsertStr_ok t i [c] _ IH (text_of_walk _ _ Hv)) as (? & ? & ? & _); [done|simpl; lia|congruence].
  - destruct (Text_ok t IH) as (? & v & _ & Hv & _).
    destruct (decide (0 ≤ i)%Z); [|unfold InsertStr in E; destruct (orderedIds t false) as [[]|]; simpl in E;
      [destruct (Z.ltb_spec i 0); [done|lia]|done]].
    destruct (InsertStr_ok t i s _ IH (text_of_walk _ _ Hv)) as (? & ? & ? & _); [done..|congruence].
  - destruct (Text_ok t IH) as (? & v & _ & Hv & _).
    destruct (Delete_ok t i _ IH (text_of_walk _ _ Hv) Hr) as (? & ? & ? & _). congruence.
  - destruct IH. split; simpl; [done|apply cache_ok_none|done].
  - destruct (Text_Merge_ok t o IH1 IH2) as (? & ? & ? & ? & _). congruence.
  - destruct (ApplyDelta_ok t o vv IH1 IH2) as (? & ? & ? & ? & _). congruence.
  - destruct (GcWith_ok t f IH) as (? & ? & ? & ? & _). congruence.
Qed.

(** ** What the replica promises *)

(** C28: in every reachable state the text reads back (the walk of the origin
    tree ends, cached or not), and each edit returns and splices it: [Insert] and
    [InsertStr] put the characters at the visible index asked for (at the
    document start when the index is past the end), whatever concurrent
    insertions and tombstones stand there, and [Delete] removes exactly the
    indexed character (nothing when out of range). *)
Theorem TextCrdt_edits_splice t :
  reach t →
  ∃ str, (∃ t', Text t = Some (t', str) ∧ elems t' = elems t) ∧
    (∀ i s, (0 ≤ i)%Z → (counter t + Z.of_nat (length s) < max_i64)%Z →
      let k := place i (length str) in
      ∃ t1 t2, InsertStr t i s = Some t1 ∧ Text t1 = Some (t2, take k str ++ s ++ drop k str)) ∧
    (∀ i c, (0 ≤ i)%Z → (counter t + 1 < max_i64)%Z →
      let k := place i (length str) in
      ∃ t1 t2, Insert t i c = Some t1 ∧ Text t1 = Some (t2, take k str ++ c :: drop k str)) ∧
    (∀ i, (counter t + 1 < max_i64)%Z →
      ∃ t1 t2, Delete t i = Some t1 ∧
        Text t1 = Some (t2, if ((i <? 0) || (Z.of_nat (length str) <=? i))%Z then str
                            else delete (Z.to_nat i) str)).
Proof.
  intros Hi%reach_inv. destruct (Text_ok t Hi) as (t' & v & Ht & Hv & _ & He & _).
  exists (chars_of (elems t) v). pose proof (text_of_walk _ _ Hv) as Hs.
  assert (Hread : ∀ t1 str, inv t1 → text_of (elems t1) = Some str → ∃ t2, Text t1 = Some (t2, str)).
  { intros t1 str Hi1 Hs1. destruct (Text_ok t1 Hi1) as (t2 & v1 & Ht1 & Hv1 & _).
    rewrite (text_of_walk _ _ Hv1) in Hs1. injection Hs1 as <-. eauto. }
  split_and!.
  - eauto.
  - intros i s H0 Hr. destruct (InsertStr_ok t i s _ Hi Hs H0 Hr) as (t1 & E1 & Hi1 & Hs1).
    destruct (Hread t1 _ Hi1 Hs1) as [t2 ?]. eauto.
  - intros i c H0 Hr. rewrite Insert_InsertStr.
    destruct (InsertStr_ok t i [c] _ Hi Hs H0 Hr) as (t1 & E1 & Hi1 & Hs1).
    destruct (Hread t1 _ Hi1 Hs1) as [t2 ?]. eauto.
  - intros i Hr. destruct (Delete_ok t i _ Hi Hs Hr) as (t1 & E1 & Hi1 & Hs1).
    destruct (Hread t1 _ Hi1 Hs1) as [t2 ?]. eauto.
Qed.

(** A replica merging others in turn. *)
Definition deliver t (l : list TextCrdt) : option TextCrdt :=
  foldl (λ acc (other : TextCrdt), acc ← acc; '(acc, _) ← Merge acc other; Some acc) (Some t) l.

Lemma deliver_ok t l : inv t → Forall inv l →
  ∃ t', deliver t l = Some t' ∧ inv t' ∧ elems t' = foldl text_join (elems t) (elems <$> l).
Proof.
  intros Hi Hl. unfold deliver. revert t Hi. induction Hl as [|o l Ho _ IH]; intros t Hi; simpl; [eauto|].
  destruct (Text_Merge_ok t o Hi Ho) as (t1 & b & -> & Hi1 & He1 & _). simpl.
  destruct (IH t1 Hi1) as (t' & E' & Hi' & He'). exists t'. rewrite He', He1. done.
Qed.

(** C7: text replicas converge.  With ids naming one character and origin each,
    a replica that merges other replicas ends with the same elements and reads
    the same text whatever the order and repetition of the merges. *)
Theorem TextCrdt_converges chs orgs t l1 l2 :
  Forall reach (t :: l1 ++ l2) → Forall (λ t, map_wf (elem_of_op chs orgs) (elems t)) (t :: l1 ++ l2) →
  (∀ m, m ∈ elems <$> l1 ↔ m ∈ elems <$> l2) →
  ∃ t1 t2 t1' t2' str, deliver t l1 = Some t1 ∧ deliver t l2 = Some t2 ∧ elems t1 = elems t2 ∧
    Text t1 = Some (t1', str) ∧ Text t2 = Some (t2', str).
Proof.
  intros Hreach Hwf Heq. rewrite !Forall_cons, !Forall_app in *.
  destruct Hreach as (Ht & Hl1 & Hl2), Hwf as (Wt & W1 & W2).
  assert (Hinv : ∀ l, Forall reach l → Forall inv l).
  { intros l Hl. eapply Forall_impl; [done|]. apply reach_inv. }
  destruct (deliver_ok t l1) as (t1 & D1 & I1 & E1); [by apply reach_inv|by apply Hinv|].
  destruct (deliver_ok t l2) as (t2 & D2 & I2 & E2); [by apply reach_inv|by apply Hinv|].
  assert (J : Join (gmap OpId textElem) text_join (map_wf (elem_of_op chs orgs)))
    by (apply map_join_join, textElem_join).
  assert (Hee : elems t1 = elems t2).
  { rewrite E1, E2. apply (foldl_join_set (Join0 := J)); [done| | |done]; apply Forall_fmap; [exact W1|exact W2]. }
  destruct (Text_ok t1 I1) as (t1' & v & T1 & Hv1 & _). destruct (Text_ok t2 I2) as (t2' & v2 & T2 & Hv2 & _).
  rewrite <-Hee, Hv1 in Hv2. simplify_eq. rewrite <-Hee in T2. eauto 10.
Qed.

(** *** Delta sync *)

(** The operations a replica holds: its insertions and its deletions. *)
Definition op_of m op : Prop := ∃ id e, m !! id = Some e ∧ (op = id ∨ deleted e = Some op).

Lemma bump_seen vv x id : (0 < Counter x)%Z →
  seen (bump vv x) id = seen vv id || (bool_decide (Peer x = Peer id) && (Counter id <=? Counter x)%Z).
Proof.
  intros Hx. unfold seen, bump. destruct (decide (Peer x = Peer id)) as [Hp|Hp].
  - rewrite bool_decide_true by done. rewrite <-Hp. destruct (vv !! Peer x) as [cur|] eqn:E; simpl.
    + destruct (Z.ltb_spec cur (Counter x)); [rewrite lookup_insert_eq|rewrite E]; simpl;
        apply eq_bool_prop_intro; rewrite orb_True, !Is_true_true, !Z.leb_le; lia.
    + rewrite lookup_insert_eq. simpl. apply eq_bool_prop_intro.
      rewrite orb_True, !Is_true_true, !Z.leb_le; lia.
  - rewrite bool_decide_false by done. simpl. rewrite orb_false_r.
    destruct (vv !! Peer x); [case_match; [|done]|]; by rewrite lookup_insert_ne.
Qed.

Definition entry_ops (ie : OpId * textElem) : list OpId := ie.1 :: option_list (deleted ie.2).

Lemma entry_ops_elem ie op : op ∈ entry_ops ie ↔ op = ie.1 ∨ deleted ie.2 = Some op.
Proof.
  unfold entry_ops. rewrite elem_of_cons. destruct (deleted ie.2); simpl;
    rewrite ?list_elem_of_singleton, ?elem_of_nil; naive_solver.
Qed.

Lemma vv_fold l vv :
  foldl (λ vv ie, let vv := bump vv ie.1 in
                  match deleted ie.2 with Some d => bump vv d | None => vv end) vv l =
  foldl bump vv (l ≫= entry_ops).
Proof.
  revert vv. induction l as [|ie l IH]; intros vv; [done|]. csimpl. rewrite foldl_app, IH.
  unfold entry_ops. by destruct (deleted ie.2).
Qed.

Lemma vv_seen ops vv id : Forall (λ x, 0 < Counter x)%Z ops →
  seen (foldl bump vv ops) id = true ↔
    seen vv id = true ∨ ∃ op, op ∈ ops ∧ Peer op = Peer id ∧ (Counter id ≤ Counter op)%Z.
Proof.
  intros Hops. revert vv. induction Hops as [|x ops Hx _ IH]; intros vv; simpl; [set_solver|].
  rewrite IH, bump_seen, orb_true_iff, andb_true_iff, bool_decide_eq_true, Z.leb_le by done.
  setoid_rewrite elem_of_cons. naive_solver.
Qed.

(** The vector covers exactly the ids at or below an operation held from their
    peer. *)
Lemma VersionVector_seen t id : inv t → (0 < Counter id)%Z →
  seen (VersionVector t) id = true ↔
    ∃ op, op_of (elems t) op ∧ Peer op = Peer id ∧ (Counter id ≤ Counter op)%Z.
Proof.
  intros Hi Hid. unfold VersionVector. rewrite vv_fold, vv_seen.
  - unfold seen at 1. rewrite lookup_empty. simpl. rewrite Z.leb_le. split.
    + intros [?|(op & ([j e] & Hop & Hj)%list_elem_of_bind & ?)]; [lia|].
      apply elem_of_map_to_list in Hj. exists op. split; [|done]. exists j, e. split; [done|].
      by apply entry_ops_elem in Hop.
    + intros (op & (j & e & Hj & Hop) & ?). right. exists op. split; [|done]. apply list_elem_of_bind.
      exists (j, e). split; [|by apply elem_of_map_to_list]. by apply entry_ops_elem.
  - apply Forall_forall. intros op ([j e] & Hop & Hj)%list_elem_of_bind. apply elem_of_map_to_list in Hj.
    destruct (inv_wf t Hi _ _ Hj) as (H1 & _ & H3). apply entry_ops_elem in Hop as [->|Hd]; simpl in *; [lia|].
    specialize (H3 _ Hd). lia.
Qed.

(** Causal delivery: [t] holds every operation of [o] that is at or below one it
    holds from the same peer; for a deletion, an id that wins over it. *)
Definition causal t (o : TextCrdt) : Prop :=
  ∀ id e, elems o !! id = Some e →
    (∀ op, op_of (elems t) op → Peer op = Peer id → (Counter id ≤ Counter op)%Z → is_Some (elems t !! id)) ∧
    (∀ d op, deleted e = Some d → op_of (elems t) op → Peer op = Peer d → (Counter d ≤ Counter op)%Z →
       ∃ et, elems t !! id = Some et ∧ del_join (deleted et) (Some d) = deleted et).

Lemma fold_merge_lookup m l i :
  NoDup l.*1 → (fold_changed merge_step m l).1 !! i =
    match (list_to_map l : gmap OpId textElem) !! i with
    | Some e => join_into (λ x e, (merge_entry (Some x) e).1) (m !! i) e
    | None => m !! i
    end.
Proof.
  intros Hnd. rewrite (keyed_fold_state (λ _, join_into (λ x e, (merge_entry (Some x) e).1)))
    by apply merge_step_state. by rewrite fold_entries_lookup.
Qed.

Lemma delta_entries_lookup vv m i :
  NoDup (delta_entries vv m).*1 ∧
  (list_to_map (delta_entries vv m) : gmap OpId textElem) !! i =
    e ← m !! i; if is_new vv (i, e) then Some e else None.
Proof.
  assert (Heq : delta_entries vv m ≡ₚ map_to_list (filter (λ ie, Is_true (is_new vv ie)) m)).
  { unfold delta_entries. apply NoDup_Permutation.
    - apply NoDup_filter, NoDup_map_to_list.
    - apply NoDup_map_to_list.
    - intros [j e]. rewrite list_elem_of_filter, !elem_of_map_to_list, map_lookup_filter_Some. tauto. }
  assert (Hnd : NoDup (delta_entries vv m).*1) by (rewrite Heq; apply NoDup_fst_map_to_list).
  split; [done|]. rewrite (list_to_map_proper _ _ Hnd Heq), list_to_map_to_list.
  rewrite map_lookup_filter. destruct (m !! i); simpl; [|done]. by destruct (is_new _ _).
Qed.

(** Delta sync equals state sync.  A snapshot ([DeltaSince] of the empty
    vector) rebuilds the element set on a fresh replica, and, under causal
    delivery, applying what [DeltaSince] sends for the receiver's
    [VersionVector] gives the elements a full [Merge] would. *)
Theorem TextCrdt_delta_sync t (o : TextCrdt) p :
  reach t → reach o → causal t o →
  (∃ t' b, ApplyDelta (NewTextCrdt p) (DeltaSince o ∅) = Some (t', b) ∧ elems t' = elems o) ∧
  (∃ t1 t2 b1 b2, ApplyDelta t (DeltaSince o (VersionVector t)) = Some (t1, b1) ∧
     Merge t o = Some (t2, b2) ∧ elems t1 = elems t2 ∧ b1 = b2).
Proof.
  intros Ht%reach_inv Ho%reach_inv Hc. split.
  - destruct (ApplyDelta_ok (NewTextCrdt p) o ∅) as (t' & b & E & _ & _ & He & _);
      [split; simpl; [by intros ??|apply cache_ok_none|done]|done|].
    exists t', b. split; [done|]. rewrite He. apply map_eq. intros i.
    destruct (delta_entries_lookup ∅ (elems o) i) as [Hnd Hl]. rewrite fold_merge_lookup, Hl by done.
    simpl. rewrite lookup_empty. destruct (elems o !! i) as [e|] eqn:Ei; simpl; [|done].
    destruct (inv_wf o Ho _ _ Ei) as (Hpos & _). unfold is_new, seen. simpl. rewrite lookup_empty. simpl.
    destruct (Z.leb_spec (Counter i) 0); [lia|]. done.
  - destruct (ApplyDelta_ok t o (VersionVector t) Ht Ho) as (t1 & b1 & E1 & _ & _ & He1 & Hb1).
    destruct (Text_Merge_ok t o Ht Ho) as (t2 & b2 & E2 & _ & He2 & Hb2).
    exists t1, t2, b1, b2. assert (Hee : elems t1 = elems t2).
    { rewrite He1, He2. apply map_eq. intros i. unfold text_join, map_join. rewrite lookup_union_with.
      destruct (delta_entries_lookup (VersionVector t) (elems o) i) as [Hnd Hl].
      rewrite fold_merge_lookup, Hl by done. destruct (elems o !! i) as [e|] eqn:Ei; cbn [mbind option_bind];
        [|by destruct (elems t !! i)].
      destruct (is_new (VersionVector t) (i, e)) eqn:En; [by destruct (elems t !! i)|].
      unfold is_new in En. simpl in En. apply orb_false_iff in En as [En1 En2].
      apply negb_false_iff in En1. destruct (inv_wf o Ho _ _ Ei) as (Hpos & _ & Hdpos).
      apply VersionVector_seen in En1 as (op & Hop & Hp & Hle); [|done|lia].
      destruct (Hc i e Ei) as [C1 C2]. destruct (C1 op Hop Hp Hle) as [et Het]. rewrite Het.
      cbn [union_with option_union_with]. rewrite merge_entry_Some. f_equal.
      destruct (deleted e) as [d|] eqn:Ed.
      - apply negb_false_iff in En2. specialize (Hdpos _ eq_refl).
        apply VersionVector_seen in En2 as (op' & Hop' & Hp' & Hle'); [|done|lia].
        destruct (C2 d op' eq_refl Hop' Hp' Hle') as (et' & Het' & Hd). simplify_eq. rewrite Hd. by destruct et.
      - destruct et as [? ? []]; done. }
    split_and!; [done|done|done|]. apply eq_bool_prop_intro. by rewrite !Is_true_true, Hb1, Hb2, Hee.
Qed.

(** ** Concrete replicas *)

Definition get (o : option TextCrdt) : TextCrdt := default (NewTextCrdt 0%Z) o.

Definition text_demo : TextCrdt := get (TextCrdtFromStr 1%Z ["a"; "b"; "c"]%string).
(** A fork at peer 2 deletes "b" while a fork at peer 3 inserts before it. *)
Definition text_fork2 : TextCrdt := get (Delete (Fork text_demo 2%Z) 1).
Definition text_fork3 : TextCrdt := get (Insert (Fork text_demo 3%Z) 1 "x").

Example text_demo_merge :
  snd <$> ('(t, _) ← Merge text_fork2 text_fork3; Text t) = Some ["a"; "x"; "c"]%string.
Proof. reflexivity. Qed.

Lemma text_demo_reach : Forall reach [text_demo; text_fork2; text_fork3].
Proof.
  assert (H1 : reach text_demo).
  { apply (reach_insert_str (NewTextCrdt 1%Z) 0 ["a"; "b"; "c"]%string); [apply reach_new|done|reflexivity]. }
  repeat constructor; [done| |].
  - apply (reach_delete (Fork text_demo 2%Z) 1); [by apply reach_fork|done|reflexivity].
  - apply (reach_insert (Fork text_demo 3%Z) 1 "x"); [by apply reach_fork|done|reflexivity].
Qed.

Lemma TextCrdt_edits_splice_witness :
  ∃ t1 t2, InsertStr text_demo 2 ["y"; "z"]%string = Some t1 ∧
    Text t1 = Some (t2, ["a"; "b"; "y"; "z"; "c"]%string).
Proof.
  pose proof text_demo_reach as Hr. rewrite !Forall_cons in Hr.
  destruct (TextCrdt_edits_splice text_demo (proj1 Hr)) as (str & (t' & Ht & _) & Hs & _).
  assert (str = ["a"; "b"; "c"]%string) as -> by (vm_compute in Ht; congruence).
  exact (Hs 2%Z ["y"; "z"]%string ltac:(lia) ltac:(reflexivity)).
Defined.

Definition demo_ops : gmap OpId textElem := elems (get (fst <$> Merge text_fork2 text_fork3)).
Definition demo_chs (id : OpId) : string := from_option ch EmptyString (demo_ops !! id).
Definition demo_orgs (id : OpId) : option OpId := demo_ops !! id ≫= origin.

Lemma demo_ops_wf : Forall (λ t, map_wf (elem_of_op demo_chs demo_orgs) (elems t)) [text_demo; text_fork2; text_fork3].
Proof.
  repeat (apply Forall_cons_2 || apply Forall_nil_2); intros id e He; apply elem_of_map_to_list in He; vm_compute in He;
    repeat (apply elem_of_cons in He as [[= -> ->]|He]; [by split|]); by apply elem_of_nil in He.
Qed.

Lemma TextCrdt_converges_witness :
  ∃ t1 t2, deliver text_demo [text_fork2; text_fork3] = Some t1 ∧
    deliver text_demo [text_fork3; text_fork2; text_fork3] = Some t2 ∧ elems t1 = elems t2.
Proof.
  pose proof text_demo_reach as Hr. pose proof demo_ops_wf as Hw.
  destruct (TextCrdt_converges demo_chs demo_orgs text_demo [text_fork2; text_fork3]
    [text_fork3; text_fork2; text_fork3]) as (t1 & t2 & _ & _ & _ & E1 & E2 & Heq & _).
  - cbn [app]. rewrite !Forall_cons in *. tauto.
  - cbn [app]. rewrite !Forall_cons in *. tauto.
  - intros m. rewrite !fmap_cons, fmap_nil, !elem_of_cons, elem_of_nil. tauto.
  - exists t1, t2. by split_and!.
Defined.

Lemma demo_causal : causal text_demo text_fork2.
Proof.
  intros id e He. apply elem_of_map_to_list in He. vm_compute in He.
  assert (Hops : ∀ op, op_of (elems text_demo) op → op ∈ [mkOpId 1 1; mkOpId 2 1; mkOpId 3 1]%Z).
  { intros op (i & x & Hx & Hop). apply elem_of_map_to_list in Hx. vm_compute in Hx.
    repeat (apply elem_of_cons in Hx as [[= -> ->]|Hx]; [destruct Hop as [->|[=]]; set_solver|]).
    by apply elem_of_nil in Hx. }
  repeat (apply elem_of_cons in He as [[= -> ->]|He]; [split; [intros; by eexists|]|]);
    [..|by apply elem_of_nil in He]; intros d op [= <-] Hop%Hops Hp; simpl in Hp;
    repeat (apply elem_of_cons in Hop as [->|Hop]; [done|]); by apply elem_of_nil in Hop.
Qed.

Lemma TextCrdt_delta_sync_witness :
  ∃ t1 t2 b1 b2, ApplyDelta text_demo (DeltaSince text_fork2 (VersionVector text_demo)) = Some (t1, b1) ∧
    Merge text_demo text_fork2 = Some (t2, b2) ∧ elems t1 = elems t2 ∧ b1 = b2.
Proof.
  pose proof text_demo_reach as Hr. rewrite !Forall_cons in Hr.
  apply (TextCrdt_delta_sync text_demo text_fork2 9%Z); [apply Hr|apply Hr|apply demo_causal].
Defined.

(** An operation with id [{0, 0}], which the wire decoder accepts, is filed under
    itself and the walk never ends. *)
Lemma root_op_diverges n keep : dfs n {[textRootKey := mkTextElem "x" None None]} keep textRootKey = None.
Proof.
  induction n as [|n IH]; [done|]. cbn [dfs].
  replace (byOrigin {[textRootKey := mkTextElem "x" None None]} textRootKey) with [textRootKey] by reflexivity.
  cbn [mapM]. by rewrite IH.
Qed.
