(* ===== verification/WorkQueue.v ===== *)
(** * WorkQueue: the competing-consumer work queue (work_queue.go)

    The queue, its leases and its dead letters, with the four derived readers as
    cached values that an operation drops ([None]) when it invalidates them.  A
    Go panic is [None]. *)

From S2P Require Import Prelude.

Section work_queue.
Context {T : Type}.

(** ** Data *)

(** [work_queue.go] [type WorkQueueItem] *)
Record WorkQueueItem := mkItem { ItemID : Z; Value : T; Attempts : Z }.

(** [work_queue.go] [type WorkQueueDelivery] *)
Record WorkQueueDelivery := mkDelivery {
  DeliveryID : Z;
  dItemID : Z;
  dValue : T;
  Worker : string;
  Attempt : Z;
  Deadline : Z;
}.

(** [work_queue.go] [type WorkQueueDeadLetterReason] *)
Inductive WorkQueueDeadLetterReason := WorkQueueDeadLetterNack | WorkQueueDeadLetterExpired.

(** [work_queue.go] [type WorkQueueDeadLetter] *)
Record WorkQueueDeadLetter := mkDeadLetter {
  lItemID : Z;
  lValue : T;
  lAttempts : Z;
  Reason : WorkQueueDeadLetterReason;
}.

(** The readers hold the value they last derived, or nothing once invalidated.
    [work_queue.go] [type WorkQueueCell] *)
Record WorkQueueCell := mkWorkQueue {
  VisibilityTimeout : Z;
  MaxDeliveries : Z;
  pending : list WorkQueueItem;
  inFlight : gmap Z WorkQueueDelivery;
  deadLetters : list WorkQueueDeadLetter;
  nextItemID : Z;
  nextDeliveryID : Z;
  pendingLen : option nat;
  isEmpty : option bool;
  inFlightLen : option nat;
  deadLetterLen : option nat;
}.

(** ** Operations *)

(** [work_queue.go] [NewWorkQueueCell] *)
Definition NewWorkQueueCell (visibilityTimeout maxDeliveries : Z) : option WorkQueueCell :=
  if (visibilityTimeout <=? 0)%Z then None
  else if (maxDeliveries <? 1)%Z then None
  else Some (mkWorkQueue visibilityTimeout maxDeliveries [] ∅ [] 0 0 None None None None).

(** [work_queue.go] [WorkQueueCell.counts] *)
Definition counts (q : WorkQueueCell) : nat * nat * nat :=
  (length (pending q), size (inFlight q), length (deadLetters q)).

Definition drop_if {A} (b : bool) (o : option A) : option A := if b then None else o.

(** [work_queue.go] [WorkQueueCell.invalidate] *)
Definition invalidate (before : nat * nat * nat) (q : WorkQueueCell) : WorkQueueCell :=
  let '(pendingBefore, inFlightBefore, deadBefore) := before in
  let '(pendingAfter, inFlightAfter, deadAfter) := counts q in
  mkWorkQueue (VisibilityTimeout q) (MaxDeliveries q) (pending q) (inFlight q) (deadLetters q)
    (nextItemID q) (nextDeliveryID q)
    (drop_if (negb (pendingBefore =? pendingAfter)) (pendingLen q))
    (drop_if (negb (eqb (pendingBefore =? 0) (pendingAfter =? 0))) (isEmpty q))
    (drop_if (negb (inFlightBefore =? inFlightAfter)) (inFlightLen q))
    (drop_if (negb (deadBefore =? deadAfter)) (deadLetterLen q)).

Definition with_queues (p : list WorkQueueItem) (f : gmap Z WorkQueueDelivery)
    (d : list WorkQueueDeadLetter) (q : WorkQueueCell) : WorkQueueCell :=
  mkWorkQueue (VisibilityTimeout q) (MaxDeliveries q) p f d (nextItemID q) (nextDeliveryID q)
    (pendingLen q) (isEmpty q) (inFlightLen q) (deadLetterLen q).
Definition with_ids (i d : Z) (q : WorkQueueCell) : WorkQueueCell :=
  mkWorkQueue (VisibilityTimeout q) (MaxDeliveries q) (pending q) (inFlight q) (deadLetters q) i d
    (pendingLen q) (isEmpty q) (inFlightLen q) (deadLetterLen q).

(** [work_queue.go] [WorkQueueCell.Push] *)
Definition Push (q : WorkQueueCell) (value : T) : option (WorkQueueCell * Z) :=
  let before := counts q in
  if (nextItemID q =? max_u64)%Z then None
  else
    let itemID := nextItemID q in
    let q := with_ids (itemID +ᵤ 1) (nextDeliveryID q) q in
    let q := with_queues (pending q ++ [mkItem itemID value 0]) (inFlight q) (deadLetters q) q in
    Some (invalidate before q, itemID).

(** [work_queue.go] [WorkQueueCell.Claim] *)
Definition Claim (q : WorkQueueCell) (worker : string) (now : Z)
    : option (WorkQueueCell * option WorkQueueDelivery) :=
  if (now <? 0)%Z then None
  else match pending q with
  | [] => Some (q, None)
  | item :: rest =>
      if (nextDeliveryID q =? max_u64)%Z then None
      else if (max_i64 -ₛ VisibilityTimeout q <? now)%Z then None
      else
        let before := counts q in
        let delivery := mkDelivery (nextDeliveryID q) (ItemID item) (Value item) worker
                          (Attempts item +ᵤ 1) (now +ₛ VisibilityTimeout q) in
        let q := with_queues rest (inFlight q) (deadLetters q) q in
        let q := with_ids (nextItemID q) (nextDeliveryID q +ᵤ 1) q in
        let q := with_queues (pending q) (<[DeliveryID delivery := delivery]> (inFlight q))
                   (deadLetters q) q in
        Some (invalidate before q, Some delivery)
  end.

(** The delivery [Ack] and [Nack] act on: in flight and held by the worker. *)
Definition held (q : WorkQueueCell) (worker : string) (deliveryID : Z) : option WorkQueueDelivery :=
  match inFlight q !! deliveryID with
  | Some d => if decide (Worker d = worker) then Some d else None
  | None => None
  end.

(** [work_queue.go] [WorkQueueCell.Ack] *)
Definition Ack (q : WorkQueueCell) (worker : string) (deliveryID : Z) : WorkQueueCell * bool :=
  match held q worker deliveryID with
  | None => (q, false)
  | Some _ =>
      let before := counts q in
      let q := with_queues (pending q) (delete deliveryID (inFlight q)) (deadLetters q) q in
      (invalidate before q, true)
  end.

(** [work_queue.go] [WorkQueueCell.fail] *)
Definition fail (q : WorkQueueCell) (d : WorkQueueDelivery) (reason : WorkQueueDeadLetterReason)
    : WorkQueueCell :=
  if (MaxDeliveries q <=? Attempt d)%Z then
    with_queues (pending q) (inFlight q)
      (deadLetters q ++ [mkDeadLetter (dItemID d) (dValue d) (Attempt d) reason]) q
  else
    with_queues (pending q ++ [mkItem (dItemID d) (dValue d) (Attempt d)]) (inFlight q) (deadLetters q) q.

(** [work_queue.go] [WorkQueueCell.Nack] *)
Definition Nack (q : WorkQueueCell) (worker : string) (deliveryID : Z) : WorkQueueCell * bool :=
  match held q worker deliveryID with
  | None => (q, false)
  | Some d =>
      let before := counts q in
      let q := with_queues (pending q) (delete deliveryID (inFlight q)) (deadLetters q) q in
      (invalidate before (fail q d WorkQueueDeadLetterNack), true)
  end.

(** The in-flight deliveries past their deadline, by ascending id.
    [work_queue.go] [lines 195-204 WorkQueueCell.ReapExpired] *)
Definition expired (q : WorkQueueCell) (now : Z) : list Z :=
  merge_sort Z.le (map_to_list (filter (λ kd : Z * WorkQueueDelivery, (Deadline kd.2 < now)%Z)
    (inFlight q))).*1.

(** [work_queue.go] [lines 206-210 WorkQueueCell.ReapExpired] *)
Definition reap_one (q : WorkQueueCell) (deliveryID : Z) : WorkQueueCell :=
  match inFlight q !! deliveryID with
  | None => q
  | Some d =>
      fail (with_queues (pending q) (delete deliveryID (inFlight q)) (deadLetters q) q) d
        WorkQueueDeadLetterExpired
  end.

(** [work_queue.go] [WorkQueueCell.ReapExpired] *)
Definition ReapExpired (q : WorkQueueCell) (now : Z) : option (WorkQueueCell * nat) :=
  if (now <? 0)%Z then None
  else match expired q now with
  | [] => Some (q, 0)
  | e => let before := counts q in Some (invalidate before (foldl reap_one q e), length e)
  end.

(** A derived reader: the cached value, or the value derived and cached now. *)
Definition read {A} (cached : option A) (now : A) : A := default now cached.

(** [work_queue.go] [WorkQueueCell.PendingLen] *)
Definition PendingLen (q : WorkQueueCell) : nat := read (pendingLen q) (length (pending q)).
(** [work_queue.go] [WorkQueueCell.IsEmpty] *)
Definition IsEmpty (q : WorkQueueCell) : bool := read (isEmpty q) (length (pending q) =? 0).
(** [work_queue.go] [WorkQueueCell.InFlightLen] *)
Definition InFlightLen (q : WorkQueueCell) : nat := read (inFlightLen q) (size (inFlight q)).
(** [work_queue.go] [WorkQueueCell.DeadLetterLen] *)
Definition DeadLetterLen (q : WorkQueueCell) : nat := read (deadLetterLen q) (length (deadLetters q)).

(** Some of the four readers are read, and hold the value read. *)
Definition read_some (a b c d : bool) (q : WorkQueueCell) : WorkQueueCell :=
  mkWorkQueue (VisibilityTimeout q) (MaxDeliveries q) (pending q) (inFlight q) (deadLetters q)
    (nextItemID q) (nextDeliveryID q)
    (if a then Some (PendingLen q) else pendingLen q) (if b then Some (IsEmpty q) else isEmpty q)
    (if c then Some (InFlightLen q) else inFlightLen q)
    (if d then Some (DeadLetterLen q) else deadLetterLen q).

(** ** The requests of a run *)

Inductive request :=
  | RPush (value : T)
  | RClaim (worker : string) (now : Z)
  | RAck (worker : string) (id : Z)
  | RNack (worker : string) (id : Z)
  | RReap (now : Z)
  | RRead (a b c d : bool).

(** A run remembers the items acknowledged, with their values. *)
Definition exec (qa : WorkQueueCell * list (Z * T)) (r : request) : option (WorkQueueCell * list (Z * T)) :=
  let '(q, acked) := qa in
  match r with
  | RPush v => '(q, _) ← Push q v; Some (q, acked)
  | RClaim w now => '(q, _) ← Claim q w now; Some (q, acked)
  | RAck w id =>
      let item := (λ d, (dItemID d, dValue d)) <$> held q w id in
      Some ((Ack q w id).1, acked ++ option_list item)
  | RNack w id => Some ((Nack q w id).1, acked)
  | RReap now => '(q, _) ← ReapExpired q now; Some (q, acked)
  | RRead a b c d => Some (read_some a b c d q, acked)
  end.

Fixpoint run (qa : WorkQueueCell * list (Z * T)) (rs : list request) : option (WorkQueueCell * list (Z * T)) :=
  match rs with [] => Some qa | r :: rs => qa ← exec qa r; run qa rs end.

(** The items pushed: the [n]-th push gets id [n]. *)
Definition pushes (rs : list request) : list T :=
  omap (λ r, match r with RPush v => Some v | _ => None end) rs.
Definition numbered (vs : list T) : list (Z * T) := imap (λ n v, (Z.of_nat n, v)) vs.

(** ** Conservation *)

Definition flight_items (m : gmap Z WorkQueueDelivery) : list (Z * T) :=
  (λ kd, (dItemID kd.2, dValue kd.2)) <$> map_to_list m.

(** Every place an item can be. *)
Definition items (q : WorkQueueCell) (acked : list (Z * T)) : list (Z * T) :=
  ((λ i, (ItemID i, Value i)) <$> pending q) ++ flight_items (inFlight q) ++
  ((λ l, (lItemID l, lValue l)) <$> deadLetters q) ++ acked.

Definition fresh_cache {A} (o : option A) (now : A) : Prop := ∀ x, o = Some x → x = now.

Record caches_ok (q : WorkQueueCell) : Prop := {
  ok_pending : fresh_cache (pendingLen q) (length (pending q));
  ok_empty : fresh_cache (isEmpty q) (length (pending q) =? 0);
  ok_flight : fresh_cache (inFlightLen q) (size (inFlight q));
  ok_dead : fresh_cache (deadLetterLen q) (length (deadLetters q));
}.

(** Retries stay within the limit, leases are filed under their own fresh id. *)
Record attempts_ok (q : WorkQueueCell) : Prop := {
  ok_max : (1 ≤ MaxDeliveries q < two64)%Z;
  ok_timeout : (0 < VisibilityTimeout q ≤ max_i64)%Z;
  ok_pending_attempts : Forall (λ i, 0 ≤ Attempts i < MaxDeliveries q)%Z (pending q);
  ok_flight_attempts : map_Forall (λ k d, DeliveryID d = k ∧ (0 ≤ k < nextDeliveryID q)%Z ∧
    (1 ≤ Attempt d ≤ MaxDeliveries q)%Z) (inFlight q);
  ok_dead_attempts : Forall (λ l, lAttempts l = MaxDeliveries q) (deadLetters q);
  ok_delivery : (0 ≤ nextDeliveryID q < two64)%Z;
}.

Record inv (q : WorkQueueCell) (acked log : list (Z * T)) : Prop := {
  inv_items : items q acked ≡ₚ log;
  inv_next : nextItemID q = Z.of_nat (length log) ∧ (nextItemID q < two64)%Z;
  inv_attempts : attempts_ok q;
  inv_caches : caches_ok q;
}.

Lemma flight_insert m k d : m !! k = None →
  flight_items (<[k := d]> m) ≡ₚ (dItemID d, dValue d) :: flight_items m.
Proof. intros Hk. unfold flight_items. by rewrite map_to_list_insert. Qed.

Lemma flight_delete m k d : m !! k = Some d →
  flight_items m ≡ₚ (dItemID d, dValue d) :: flight_items (delete k m).
Proof. intros Hk. rewrite <-(insert_delete_id m k d Hk) at 1. apply flight_insert, lookup_delete_eq. Qed.

(** Dropping exactly the readers whose count moved keeps the rest exact. *)
Lemma invalidate_caches q0 q :
  caches_ok q0 → pendingLen q = pendingLen q0 → isEmpty q = isEmpty q0 →
  inFlightLen q = inFlightLen q0 → deadLetterLen q = deadLetterLen q0 →
  caches_ok (invalidate (counts q0) q).
Proof.
  intros [C1 C2 C3 C4] E1 E2 E3 E4. unfold invalidate, counts, drop_if. simpl.
  split; simpl; rewrite ?E1, ?E2, ?E3, ?E4; intros x; case_match eqn:E; try done; intros Hx.
  - apply negb_false_iff, Nat.eqb_eq in E. rewrite <-E. auto.
  - apply negb_false_iff, eqb_prop in E. rewrite <-E. auto.
  - apply negb_false_iff, Nat.eqb_eq in E. rewrite <-E. auto.
  - apply negb_false_iff, Nat.eqb_eq in E. rewrite <-E. auto.
Qed.

(** [invalidate] touches the readers only. *)
Lemma invalidate_same b q :
  pending (invalidate b q) = pending q ∧ inFlight (invalidate b q) = inFlight q ∧
  deadLetters (invalidate b q) = deadLetters q ∧ nextItemID (invalidate b q) = nextItemID q ∧
  nextDeliveryID (invalidate b q) = nextDeliveryID q ∧ MaxDeliveries (invalidate b q) = MaxDeliveries q ∧
  VisibilityTimeout (invalidate b q) = VisibilityTimeout q.
Proof. destruct b as [[a b] c]. done. Qed.

(** What an operation must establish, the readers aside. *)
Lemma inv_invalidate q0 q acked0 log0 acked log :
  inv q0 acked0 log0 → pendingLen q = pendingLen q0 → isEmpty q = isEmpty q0 →
  inFlightLen q = inFlightLen q0 → deadLetterLen q = deadLetterLen q0 →
  items q acked ≡ₚ log → nextItemID q = Z.of_nat (length log) → (nextItemID q < two64)%Z →
  attempts_ok q → inv (invalidate (counts q0) q) acked log.
Proof.
  intros [_ _ _ Hc] E1 E2 E3 E4 Hi Hn Hn' [].
  destruct (invalidate_same (counts q0) q) as (P1 & P2 & P3 & P4 & P5 & P6 & P7). split.
  - unfold items. by rewrite P1, P2, P3.
  - by rewrite P4.
  - split; rewrite ?P1, ?P2, ?P3, ?P5, ?P6, ?P7; done.
  - by apply invalidate_caches.
Qed.

Lemma fail_items q d reason acked :
  items (fail q d reason) acked ≡ₚ (dItemID d, dValue d) :: items q acked.
Proof.
  unfold fail, items. case_match; simpl; rewrite fmap_app; simpl; solve_Permutation.
Qed.

Lemma fail_attempts q d reason :
  attempts_ok q → (1 ≤ Attempt d ≤ MaxDeliveries q)%Z → attempts_ok (fail q d reason).
Proof.
  intros [] Hd. unfold fail. destruct (Z.leb_spec (MaxDeliveries q) (Attempt d)); split; simpl; try done.
  - apply Forall_app; split; [done|]. repeat constructor. simpl. lia.
  - apply Forall_app; split; [done|]. repeat constructor; simpl; lia.
Qed.

Lemma attempts_delete q k :
  attempts_ok q → attempts_ok (with_queues (pending q) (delete k (inFlight q)) (deadLetters q) q).
Proof. intros []. split; simpl; try done. by apply map_Forall_delete. Qed.

Lemma numbered_snoc vs v : numbered (vs ++ [v]) = numbered vs ++ [(Z.of_nat (length vs), v)].
Proof. unfold numbered. rewrite imap_app. simpl. by rewrite Nat.add_0_r. Qed.

Lemma Push_inv q acked log v q' id :
  inv q acked log → Push q v = Some (q', id) →
  inv q' acked (log ++ [(Z.of_nat (length log), v)]) ∧ id = Z.of_nat (length log).
Proof.
  intros Hi. unfold Push. destruct (Z.eqb_spec (nextItemID q) max_u64); [done|]. intros [<- <-]%(inj Some)%pair_eq.
  pose proof (inv_next _ _ _ Hi) as [Hn Hb].
  assert (0 ≤ nextItemID q)%Z by lia. split; [|done].
  eapply inv_invalidate; [exact Hi|done|done|done|done|..].
  - pose proof (inv_items _ _ _ Hi) as Hp. unfold items in *. simpl. rewrite fmap_app. simpl.
    rewrite <-Hn, <-Hp. solve_Permutation.
  - simpl. rewrite length_app, u64_small by zrange. simpl. lia.
  - simpl. apply u64_range.
  - destruct (inv_attempts _ _ _ Hi). split; simpl; try done.
    apply Forall_app; split; [done|]. repeat constructor; simpl; lia.
Qed.

Lemma Claim_inv q acked log w now q' d :
  inv q acked log → Claim q w now = Some (q', d) → inv q' acked log.
Proof.
  intros Hi. unfold Claim. destruct (now <? 0)%Z eqn:Enow; [done|]. destruct (pending q) as [|item rest] eqn:Ep;
    [by intros [<- <-]%(inj Some)%pair_eq|].
  destruct (Z.eqb_spec (nextDeliveryID q) max_u64); [done|].
  destruct (_ <? now)%Z eqn:Eov; [done|]. intros [<- <-]%(inj Some)%pair_eq.
  destruct (inv_attempts _ _ _ Hi) as [A1 A2 A3 A4 A5 A6].
  assert (Hfresh : inFlight q !! nextDeliveryID q = None).
  { destruct (inFlight q !! nextDeliveryID q) as [d|] eqn:E; [|done]. apply A4 in E as (_ & ? & _). lia. }
  rewrite Ep in A3. apply Forall_cons in A3 as [A3 A3'].
  eapply inv_invalidate; [exact Hi|done|done|done|done|..].
  - pose proof (inv_items _ _ _ Hi) as Hp. unfold items in *. simpl. rewrite Ep in Hp.
    rewrite flight_insert by done. simpl in *. rewrite <-Hp. solve_Permutation.
  - apply Hi.
  - apply Hi.
  - split; simpl; try done.
    + apply map_Forall_insert_2.
      * split_and!; simpl; rewrite ?u64_small by zrange; zrange.
      * eapply map_Forall_impl; [done|]. simpl. intros k d (? & ? & ?). rewrite u64_small by zrange.
        split_and!; [done|lia..].
    + split; [apply u64_nonneg|apply u64_range].
Qed.

Lemma held_in q w id d : held q w id = Some d → inFlight q !! id = Some d ∧ Worker d = w.
Proof. unfold held. destruct (inFlight q !! id); [|done]. case_decide; naive_solver. Qed.

Lemma Ack_inv q acked log w id :
  inv q acked log →
  inv (Ack q w id).1 (acked ++ option_list ((λ d, (dItemID d, dValue d)) <$> held q w id)) log.
Proof.
  intros Hi. unfold Ack. destruct (held q w id) as [d|] eqn:Eh; cbn [fst snd fmap option_fmap option_map option_list]; [|by rewrite app_nil_r].
  apply held_in in Eh as [Eh _]. eapply inv_invalidate; [exact Hi|done|done|done|done|..].
  - pose proof (inv_items _ _ _ Hi) as Hp. unfold items in *. simpl.
    rewrite (flight_delete _ _ _ Eh) in Hp. rewrite <-Hp. solve_Permutation.
  - apply Hi.
  - apply Hi.
  - apply attempts_delete, Hi.
Qed.

(** Failing one delivery, lease dropped, moves its item and nothing else. *)
Lemma fail_one q acked id d reason :
  attempts_ok q → inFlight q !! id = Some d →
  let q' := fail (with_queues (pending q) (delete id (inFlight q)) (deadLetters q) q) d reason in
  items q' acked ≡ₚ items q acked ∧ attempts_ok q' ∧ nextItemID q' = nextItemID q ∧
  inFlight q' = delete id (inFlight q) ∧
  pendingLen q' = pendingLen q ∧ isEmpty q' = isEmpty q ∧ inFlightLen q' = inFlightLen q ∧
  deadLetterLen q' = deadLetterLen q.
Proof.
  intros Ha Hd q'. pose proof (ok_flight_attempts q Ha _ _ Hd) as (_ & _ & Hatt). split_and!.
  - unfold q'. rewrite fail_items. unfold items. simpl. rewrite (flight_delete _ _ _ Hd). solve_Permutation.
  - apply fail_attempts; [by apply attempts_delete|done].
  - unfold q', fail. by case_match.
  - unfold q', fail. by case_match.
  - unfold q', fail. by case_match.
  - unfold q', fail. by case_match.
  - unfold q', fail. by case_match.
  - unfold q', fail. by case_match.
Qed.

Lemma Nack_inv q acked log w id : inv q acked log → inv (Nack q w id).1 acked log.
Proof.
  intros Hi. unfold Nack. destruct (held q w id) as [d|] eqn:Eh; cbn [fst snd fmap option_fmap option_map option_list]; [|done].
  apply held_in in Eh as [Eh _].
  destruct (fail_one q acked id d WorkQueueDeadLetterNack (inv_attempts _ _ _ Hi) Eh)
    as (F1 & F2 & F3 & _ & F4 & F5 & F6 & F7).
  eapply inv_invalidate; [exact Hi|done..| | | |done].
  - rewrite F1. apply Hi.
  - rewrite F3. apply Hi.
  - rewrite F3. apply Hi.
Qed.

Lemma reap_fold q acked l :
  attempts_ok q → items (foldl reap_one q l) acked ≡ₚ items q acked ∧ attempts_ok (foldl reap_one q l) ∧
  nextItemID (foldl reap_one q l) = nextItemID q ∧
  pendingLen (foldl reap_one q l) = pendingLen q ∧ isEmpty (foldl reap_one q l) = isEmpty q ∧
  inFlightLen (foldl reap_one q l) = inFlightLen q ∧ deadLetterLen (foldl reap_one q l) = deadLetterLen q.
Proof.
  revert q. induction l as [|id l IH]; intros q Ha; [done|]. cbn [foldl]. unfold reap_one at 2 4 6 8 10 12 14.
  destruct (inFlight q !! id) as [d|] eqn:Ed; [|by apply IH].
  destruct (fail_one q acked id d WorkQueueDeadLetterExpired Ha Ed) as (F1 & F2 & F3 & _ & F4 & F5 & F6 & F7).
  destruct (IH _ F2) as (I1 & I2 & I3 & I4 & I5 & I6 & I7).
  split_and!; [by rewrite I1, F1|done|congruence..].
Qed.

Lemma Reap_inv q acked log now q' n :
  inv q acked log → ReapExpired q now = Some (q', n) → inv q' acked log.
Proof.
  intros Hi. unfold ReapExpired. destruct (now <? 0)%Z; [done|].
  destruct (expired q now) as [|e0 e]; [by intros [<- <-]%(inj Some)%pair_eq|]. intros [<- <-]%(inj Some)%pair_eq.
  destruct (reap_fold q acked (e0 :: e) (inv_attempts _ _ _ Hi)) as (F1 & F2 & F3 & F4 & F5 & F6 & F7).
  eapply inv_invalidate; [exact Hi|done..| | | |done].
  - rewrite F1. apply Hi.
  - rewrite F3. apply Hi.
  - rewrite F3. apply Hi.
Qed.

Lemma read_fresh {A} (o : option A) now : fresh_cache o now → read o now = now.
Proof. destruct o; simpl; [intros H; by apply H|done]. Qed.

Lemma readers_exact q : caches_ok q →
  PendingLen q = length (pending q) ∧ IsEmpty q = (length (pending q) =? 0) ∧
  InFlightLen q = size (inFlight q) ∧ DeadLetterLen q = length (deadLetters q).
Proof. intros []. split_and!; by apply read_fresh. Qed.

Lemma read_some_inv a b c d q acked log : inv q acked log → inv (read_some a b c d q) acked log.
Proof.
  intros [Hi Hn [] Hc]. destruct (readers_exact q Hc) as (R1 & R2 & R3 & R4). destruct Hc as [C1 C2 C3 C4].
  split; [done|done|by split|]. split; simpl; case_match; try done; intros x [= <-]; done.
Qed.

Lemma run_inv q acked rs q' acked' vs :
  inv q acked (numbered vs) → run (q, acked) rs = Some (q', acked') →
  inv q' acked' (numbered (vs ++ pushes rs)).
Proof.
  revert q acked vs. induction rs as [|r rs IH]; intros q acked vs Hi Hrun; simpl in Hrun.
  - simplify_eq. by rewrite app_nil_r.
  - apply bind_Some in Hrun as ([q1 acked1] & He & Hrun).
    assert (Hlen : length (numbered vs) = length vs) by apply length_imap.
    destruct r as [v|w now|w id|w id|now|a b c d]; simpl in He.
    + apply bind_Some in He as ([q2 id] & Hp & [= <- <-]).
      apply (Push_inv _ _ _ _ _ _ Hi) in Hp as [Hp _]. rewrite Hlen, <-numbered_snoc in Hp.
      specialize (IH _ _ _ Hp Hrun). by rewrite <-(assoc_L (++)) in IH.
    + apply bind_Some in He as ([q2 d] & Hp & [= <- <-]). by eapply IH; [eapply Claim_inv|].
    + simplify_eq. by eapply IH; [apply Ack_inv|].
    + simplify_eq. by eapply IH; [apply Nack_inv|].
    + apply bind_Some in He as ([q2 n] & Hp & [= <- <-]). by eapply IH; [eapply Reap_inv|].
    + simplify_eq. by eapply IH; [apply read_some_inv|].
Qed.

(** C12: no item is lost or duplicated.  After any run of pushes, claims,
    acknowledgements, refusals, expiries and reads, every pushed item (the
    [n]-th push has id [n]) is in exactly one of pending, in flight, dead
    letters or acknowledged, with its value; a pending item has attempts left, a
    dead one used them all, leases are filed under ids below the next one, and
    the four derived readers are exact although each operation only drops the
    ones whose count it moved. *)
Theorem WorkQueue_conserves_items timeout max q0 rs q acked :
  (timeout ≤ max_i64)%Z → (max < two64)%Z →
  NewWorkQueueCell timeout max = Some q0 → run (q0, []) rs = Some (q, acked) →
  items q acked ≡ₚ numbered (pushes rs) ∧
  Forall (λ i, Attempts i < max)%Z (pending q) ∧ Forall (λ l, lAttempts l = max) (deadLetters q) ∧
  map_Forall (λ k d, DeliveryID d = k ∧ k < nextDeliveryID q ∧ 1 ≤ Attempt d ≤ max)%Z (inFlight q) ∧
  PendingLen q = length (pending q) ∧ IsEmpty q = (length (pending q) =? 0) ∧
  InFlightLen q = size (inFlight q) ∧ DeadLetterLen q = length (deadLetters q).
Proof.
  intros Ht Hm Hnew Hrun. unfold NewWorkQueueCell in Hnew.
  destruct (Z.leb_spec timeout 0); [done|]. destruct (Z.ltb_spec max 1); [done|]. simplify_eq.
  assert (Hmax : ∀ qa qa', run qa rs = Some qa' → MaxDeliveries qa'.1 = MaxDeliveries qa.1).
  { clear. induction rs as [|r rs IH]; intros qa qa'; simpl; [by intros [= ->]|].
    intros ([q1 a1] & He & Hrun)%bind_Some. rewrite (IH _ _ Hrun). simpl. clear -He.
    assert (Hf : ∀ q d r, MaxDeliveries (fail q d r) = MaxDeliveries q) by (intros; unfold fail; by case_match).
    destruct qa as [q a], r as [v|w now|w id|w id|now|? ? ? ?]; simpl in *.
    - apply bind_Some in He as ([q2 id] & Hp & [= <- <-]). unfold Push in Hp. case_match; by simplify_eq.
    - apply bind_Some in He as ([q2 id] & Hp & [= <- <-]). unfold Claim in Hp. repeat case_match; by simplify_eq.
    - simplify_eq. unfold Ack. by case_match.
    - simplify_eq. unfold Nack. case_match; [|done]. unfold invalidate. simpl. by rewrite Hf.
    - apply bind_Some in He as ([q2 n] & Hp & [= <- <-]). unfold ReapExpired in Hp.
      repeat case_match; simplify_eq; [done|]. destruct (invalidate_same (counts q) (foldl reap_one q (z :: l))) as
        (_ & _ & _ & _ & _ & -> & _). generalize (z :: l). clear -Hf. intros l. revert q.
      induction l as [|id l IH]; intros q; [done|]. simpl. rewrite IH. unfold reap_one. case_match; [|done].
      by rewrite Hf.
    - by simplify_eq. }
  apply Hmax in Hrun as Hmq. simpl in Hmq.
  apply (run_inv _ _ _ _ _ []) in Hrun as [Hi _ [A1 A2 A3 A4 A5 A6] Hc].
  - rewrite Hmq in *. destruct (readers_exact q Hc) as (R1 & R2 & R3 & R4). split_and!; try done.
    + eapply Forall_impl; [done|]. simpl. lia.
    + eapply map_Forall_impl; [done|]. simpl. lia.
  - split; simpl; [by unfold items|done| |by split].
    split; simpl; try done; zrange.
Qed.
End work_queue.
Arguments WorkQueueCell : clear implicits.

Definition work_demo : list (@request nat) :=
  [RPush 7; RPush 8; RPush 9; RRead true true true true; RClaim "w" 0; RClaim "w" 1; RAck "w" 0; RNack "w" 1;
   RClaim "v" 2; RReap 13; RClaim "v" 20].

Definition work_demo_end : WorkQueueCell nat * list (Z * nat) :=
  default (mkWorkQueue 0 0 [] ∅ [] 0 0 None None None None, [])
    (q ← NewWorkQueueCell 10 1; run (q, []) work_demo).

Lemma WorkQueue_conserves_items_witness :
  items work_demo_end.1 work_demo_end.2 ≡ₚ numbered [7; 8; 9].
Proof.
  destruct (NewWorkQueueCell (T := nat) 10 1) as [q0|] eqn:E; [|done].
  apply (WorkQueue_conserves_items 10 1 q0 work_demo work_demo_end.1 work_demo_end.2); [done..|].
  injection E as <-. vm_compute. reflexivity.
Defined.
