(* ===== verification/Queue.v ===== *)
(** * Queue: the reactive queue and the broadcast topic (queue.go)

    [QueueCell] is a shell of cached readers over a storage backend it only
    knows through an interface; the interface and its laws are two classes, the
    slice-backed storage is an instance, and the shell's theorem is proved from
    the laws alone.  [TopicCell] is a retained log with one cursor per
    subscriber.  A Go panic is [None]. *)

From S2P Require Import Prelude.

(** ** Storage backends *)

(** [queue.go] [type QueuePushError] *)
Inductive QueuePushError := QueuePushOk | QueuePushFull | QueuePushClosed.
(** [queue.go] [type QueuePopError] *)
Inductive QueuePopError := QueuePopEmpty | QueuePopClosed.

(** A pop gives a value or says why not.  [Peek] and [Capacity] are optional
    capabilities, [None] when the backend lacks them.
    [queue.go] [type QueueStorage] *)
Class QueueStorage (S T : Type) := {
  sTryPush : S → T → S * QueuePushError;
  sTryPop : S → S * (T + QueuePopError);
  sLen : S → nat;
  sIsClosed : S → bool;
  sClose : S → S;
  sPeek : option (S → option T);
  sCapacity : option (S → option nat);
}.

(** The bound a shell reads off its backend. *)
Definition bound_of {S T} `{QueueStorage S T} (s : S) : option nat := f ← sCapacity; f s.

(** What the backend contract says, over the elements in delivery order. *)
Class FifoBackend (S T : Type) `{QueueStorage S T} (elements : S → list T) : Prop := {
  fifo_len s : sLen s = length (elements s);
  fifo_push s v : match sTryPush s v with
    | (s', QueuePushOk) => elements s' = elements s ++ [v] ∧ sIsClosed s' = sIsClosed s ∧ sIsClosed s = false
    | (s', _) => s' = s
    end;
  fifo_pop s : match sTryPop s with
    | (s', inl v) => elements s = v :: elements s' ∧ sIsClosed s' = sIsClosed s
    | (s', inr e) => s' = s ∧ elements s = [] ∧
        e = if sIsClosed s then QueuePopClosed else QueuePopEmpty
    end;
  fifo_close s : elements (sClose s) = elements s ∧ sIsClosed (sClose s) = true;
  fifo_peek f s : sPeek = Some f → f s = head (elements s);
  fifo_bound_push s v : bound_of (sTryPush s v).1 = bound_of s;
  fifo_bound_pop s : bound_of (sTryPop s).1 = bound_of s;
  fifo_bound_close s : bound_of (sClose s) = bound_of s;
}.

Section vec_deque.
Context {T : Type}.

(** [queue.go] [type VecDequeStorage] *)
Record VecDequeStorage := mkVecDeque { elements : list T; capacity : nat; closed : bool }.

(** [queue.go] [NewVecDequeStorage] *)
Definition NewVecDequeStorage : VecDequeStorage := mkVecDeque [] 0 false.
(** [queue.go] [NewBoundedVecDequeStorage] *)
Definition NewBoundedVecDequeStorage (n : Z) : option VecDequeStorage :=
  if (n <=? 0)%Z then None else Some (mkVecDeque [] (Z.to_nat n) false).

(** [queue.go] [VecDequeStorage.TryPush] *)
Definition VecDeque_TryPush (s : VecDequeStorage) (value : T) : VecDequeStorage * QueuePushError :=
  if closed s then (s, QueuePushClosed)
  else if (0 <? capacity s) && (capacity s <=? length (elements s)) then (s, QueuePushFull)
  else (mkVecDeque (elements s ++ [value]) (capacity s) (closed s), QueuePushOk).

(** [queue.go] [VecDequeStorage.TryPop] *)
Definition VecDeque_TryPop (s : VecDequeStorage) : VecDequeStorage * (T + QueuePopError) :=
  match elements s with
  | [] => (s, inr (if closed s then QueuePopClosed else QueuePopEmpty))
  | v :: rest => (mkVecDeque rest (capacity s) (closed s), inl v)
  end.

(** [queue.go] [VecDequeStorage.Peek] *)
Definition VecDeque_Peek (s : VecDequeStorage) : option T := head (elements s).
(** [queue.go] [VecDequeStorage.Capacity] *)
Definition VecDeque_Capacity (s : VecDequeStorage) : option nat :=
  if 0 <? capacity s then Some (capacity s) else None.
(** [queue.go] [VecDequeStorage.Close] *)
Definition VecDeque_Close (s : VecDequeStorage) : VecDequeStorage :=
  mkVecDeque (elements s) (capacity s) true.

#[export] Instance VecDeque_storage : QueueStorage VecDequeStorage T := {
  sTryPush := VecDeque_TryPush;
  sTryPop := VecDeque_TryPop;
  sLen s := length (elements s);
  sIsClosed := closed;
  sClose := VecDeque_Close;
  sPeek := Some VecDeque_Peek;
  sCapacity := Some VecDeque_Capacity;
}.

#[export] Instance VecDeque_fifo : FifoBackend VecDequeStorage T elements.
Proof.
  split; simpl; try done.
  - intros [l c []] v; unfold VecDeque_TryPush; simpl; [done|]. by destruct (_ && _).
  - intros [[|x l] c b]; unfold VecDeque_TryPop; simpl; done.
  - by intros s f [= <-].
  - intros [l c []] v; unfold VecDeque_TryPush; simpl; [done|]. by destruct (_ && _).
  - by intros [[|x l] c b].
Qed.
End vec_deque.
Arguments VecDequeStorage : clear implicits.

(** ** The shell *)

Section shell.
Context {S T : Type} `{QueueStorage S T}.

(** The four derived readers hold the value they last derived, or nothing once
    invalidated; the closed flag is an input cell.
    [queue.go] [type QueueCell] *)
Record QueueCell := mkQueueCell {
  storage : S;
  rHead : option (option T);
  rLen : option nat;
  rEmpty : option bool;
  rFull : option bool;
  rClosed : bool;
  bound : option nat;
}.

(** [queue.go] [NewQueueCellWithStorage] *)
Definition NewQueueCellWithStorage (s : S) : QueueCell :=
  mkQueueCell s None None None None (sIsClosed s) (bound_of s).

Definition drop_if {A} (b : bool) (o : option A) : option A := if b then None else o.
Definition at_bound (q : QueueCell) (n : nat) : bool :=
  match bound q with Some c => c <=? n | None => false end.

(** [queue.go] [QueueCell.invalidateReaders] *)
Definition invalidateReaders (q : QueueCell) (lenBefore lenAfter : nat) (headChanged : bool) : QueueCell :=
  mkQueueCell (storage q) (drop_if headChanged (rHead q)) None
    (drop_if (negb (eqb (lenBefore =? 0) (lenAfter =? 0))) (rEmpty q))
    (drop_if (negb (eqb (at_bound q lenBefore) (at_bound q lenAfter))) (rFull q))
    (rClosed q) (bound q).

Definition with_storage (s : S) (q : QueueCell) : QueueCell :=
  mkQueueCell s (rHead q) (rLen q) (rEmpty q) (rFull q) (rClosed q) (bound q).

(** [queue.go] [QueueCell.TryPush] *)
Definition TryPush (q : QueueCell) (value : T) : QueueCell * QueuePushError :=
  let lenBefore := sLen (storage q) in
  let '(s, err) := sTryPush (storage q) value in
  let q := with_storage s q in
  match err with
  | QueuePushOk => (invalidateReaders q lenBefore (lenBefore + 1) (lenBefore =? 0), err)
  | _ => (q, err)
  end.

(** [queue.go] [QueueCell.TryPop] *)
Definition TryPop (q : QueueCell) : QueueCell * (T + QueuePopError) :=
  let lenBefore := sLen (storage q) in
  let '(s, r) := sTryPop (storage q) in
  let q := with_storage s q in
  match r with
  | inl v => (invalidateReaders q lenBefore (lenBefore - 1) true, r)
  | inr _ => (q, r)
  end.

(** [queue.go] [QueueCell.Close] *)
Definition Close (q : QueueCell) : QueueCell :=
  if sIsClosed (storage q) then q
  else mkQueueCell (sClose (storage q)) (rHead q) (rLen q) (rEmpty q) (rFull q) true (bound q).

(** [queue.go] [QueueCell.Head] *)
Definition Head (q : QueueCell) : option T :=
  default (match sPeek with Some f => f (storage q) | None => None end) (rHead q).
(** [queue.go] [QueueCell.Len] *)
Definition Len (q : QueueCell) : nat := default (sLen (storage q)) (rLen q).
(** [queue.go] [QueueCell.IsEmpty] *)
Definition IsEmpty (q : QueueCell) : bool := default (sLen (storage q) =? 0) (rEmpty q).
(** [queue.go] [QueueCell.IsFull] *)
Definition IsFull (q : QueueCell) : bool := default (at_bound q (sLen (storage q))) (rFull q).
(** [queue.go] [QueueCell.IsClosed] *)
Definition IsClosed (q : QueueCell) : bool := rClosed q.

(** Some of the readers are read and hold the value read. *)
Definition read_some (h l e f : bool) (q : QueueCell) : QueueCell :=
  mkQueueCell (storage q) (if h then Some (Head q) else rHead q) (if l then Some (Len q) else rLen q)
    (if e then Some (IsEmpty q) else rEmpty q) (if f then Some (IsFull q) else rFull q) (rClosed q) (bound q).

(** A run of the queue: what each push and pop did. *)
Inductive request := QPush (v : T) | QPop | QClose | QRead (h l e f : bool).

Record history := mkHistory { pushed : list T; popped : list T; wasClosed : bool }.

Definition exec (qh : QueueCell * history) (r : request) : QueueCell * history :=
  let '(q, h) := qh in
  match r with
  | QPush v =>
      let '(q, e) := TryPush q v in
      (q, match e with QueuePushOk => mkHistory (pushed h ++ [v]) (popped h) (wasClosed h) | _ => h end)
  | QPop =>
      let '(q, r) := TryPop q in
      (q, match r with inl v => mkHistory (pushed h) (popped h ++ [v]) (wasClosed h) | inr _ => h end)
  | QClose => (Close q, mkHistory (pushed h) (popped h) true)
  | QRead a b c d => (read_some a b c d q, h)
  end.
End shell.
Arguments QueueCell : clear implicits.

Section shell_correct.
Context {S T : Type} `{QueueStorage S T} (els : S → list T) `{!FifoBackend S T els}.

Definition fresh_cache {A} (o : option A) (now : A) : Prop := ∀ x, o = Some x → x = now.

Definition head_now (s : S) : option T := match sPeek with Some f => f s | None => None end.

Record inv (q : QueueCell S T) (h : history (T := T)) : Prop := {
  inv_fifo : pushed h = popped h ++ els (storage q);
  inv_closed : rClosed q = sIsClosed (storage q) ∧ rClosed q = wasClosed h;
  inv_bound : bound q = bound_of (storage q);
  inv_head : fresh_cache (rHead q) (head_now (storage q));
  inv_len : fresh_cache (rLen q) (sLen (storage q));
  inv_empty : fresh_cache (rEmpty q) (sLen (storage q) =? 0);
  inv_full : fresh_cache (rFull q) (at_bound q (sLen (storage q)));
}.

Lemma drop_if_fresh {A} b (o : option A) x y :
  fresh_cache o x → (b = false → x = y) → fresh_cache (drop_if b o) y.
Proof. unfold fresh_cache, drop_if. destruct b; intros H1 H2 z; [done|]. intros Hz. rewrite <-H2; auto. Qed.

Lemma default_fresh {A} (o : option A) now : fresh_cache o now → default now o = now.
Proof. destruct o; simpl; [intros Ho; by apply Ho|done]. Qed.

Lemma fresh_default {A} (o : option A) now : fresh_cache o now → fresh_cache (Some (default now o)) now.
Proof. intros Ho x [= <-]. by apply default_fresh. Qed.

Lemma head_now_els s : head_now s = match sPeek (S := S) (T := T) with Some _ => head (els s) | None => None end.
Proof. unfold head_now. destruct sPeek as [f|] eqn:E; [|done]. by apply fifo_peek. Qed.

(** Moving the storage from [s] to [s'] invalidates what changed. *)
Lemma invalidate_inv q h s' h' hc :
  inv q h → sIsClosed s' = sIsClosed (storage q) → bound_of s' = bound_of (storage q) →
  pushed h' = popped h' ++ els s' → wasClosed h' = wasClosed h →
  (hc = false → head_now (storage q) = head_now s') →
  inv (invalidateReaders (with_storage s' q) (sLen (storage q)) (sLen s') hc) h'.
Proof.
  intros [H1 [H2 H2'] H3 H4 H5 H6 H7] Hc Hb Hp Hw Hh. split; simpl.
  - done.
  - by rewrite Hc, Hw.
  - by rewrite Hb.
  - by eapply drop_if_fresh.
  - done.
  - eapply drop_if_fresh; [exact H6|]. by intros ?%negb_false_iff%eqb_prop.
  - eapply drop_if_fresh; [exact H7|]. by intros ?%negb_false_iff%eqb_prop.
Qed.

Lemma exec_bound qh r : bound (exec qh r).1 = bound qh.1.
Proof.
  destruct qh as [q h], r; simpl; [| | |done].
  - unfold TryPush. by destruct (sTryPush _ _) as [? []].
  - unfold TryPop. by destruct (sTryPop _) as [? []].
  - unfold Close. by case_match.
Qed.

Lemma exec_inv qh r : inv qh.1 qh.2 → inv (exec qh r).1 (exec qh r).2.
Proof.
  destruct qh as [q h]. simpl. intros Hi. destruct r as [v| | |a b c d]; simpl.
  - unfold TryPush. pose proof (fifo_push (storage q) v) as Hp.
    pose proof (fifo_bound_push (storage q) v) as Hb.
    destruct (sTryPush (storage q) v) as [s' []]; simpl in *; try (subst s'; by destruct q).
    destruct Hp as (He & Hc & _).
    replace (sLen (storage q) + 1) with (sLen s') by (rewrite !fifo_len, He, length_app; simpl; lia).
    eapply invalidate_inv; try done; simpl.
    + rewrite (inv_fifo _ _ Hi), He. by rewrite (assoc_L (++)).
    + rewrite fifo_len, !head_now_els, He. destruct sPeek; [|done]. by destruct (els (storage q)).
  - unfold TryPop. pose proof (fifo_pop (storage q)) as Hp. pose proof (fifo_bound_pop (storage q)) as Hb.
    destruct (sTryPop (storage q)) as [s' [v|e]] eqn:Ep; simpl in *; [|destruct Hp as [-> _]; by destruct q].
    destruct Hp as (He & Hc).
    replace (sLen (storage q) - 1) with (sLen s') by (rewrite !fifo_len, He; simpl; lia).
    eapply invalidate_inv; try done; simpl. rewrite (inv_fifo _ _ Hi), He. by rewrite <-(assoc_L (++)).
  - unfold Close. destruct (fifo_close (storage q)) as [He Hc]. destruct Hi as [H1 [H2 H2'] H3 H4 H5 H6 H7].
    destruct (sIsClosed (storage q)) eqn:E; [by split; try done; simpl; split; congruence|].
    assert (Hl : sLen (sClose (storage q)) = sLen (storage q)) by (by rewrite !fifo_len, He).
    split; simpl; [by rewrite He|by rewrite Hc|by rewrite fifo_bound_close|..]; rewrite ?Hl; try done.
    by rewrite head_now_els, He, <-head_now_els.
  - destruct Hi as [H1 H2 H3 H4 H5 H6 H7]. unfold read_some, Head, Len, IsEmpty, IsFull.
    split; simpl; try done; case_match; try done; by apply fresh_default.
Qed.

(** C13: over any backend that meets the contract, the queue is first-in
    first-out and its readers are exact.  After any run of pushes, pops, closes
    and reads, what was pushed is what was popped followed by what is held, in
    order; each of the four cached readers gives the value it would derive now,
    although an operation only drops the ones it knows it changed; and the closed
    flag is set exactly by a close. *)
Theorem QueueCell_fifo_and_readers s rs :
  els s = [] → sIsClosed s = false →
  let '(q, h) := foldl exec (NewQueueCellWithStorage s, mkHistory [] [] false) rs in
  pushed h = popped h ++ els (storage q) ∧
  Len q = length (els (storage q)) ∧ IsEmpty q = (length (els (storage q)) =? 0) ∧
  IsFull q = at_bound q (length (els (storage q))) ∧ bound q = bound_of s ∧
  (is_Some (sPeek (S := S) (T := T)) → Head q = head (els (storage q))) ∧
  IsClosed q = wasClosed h ∧ sIsClosed (storage q) = wasClosed h.
Proof.
  intros He Hc.
  assert (Hinv : let qh := foldl exec (NewQueueCellWithStorage s, mkHistory [] [] false) rs in
    inv qh.1 qh.2 ∧ bound qh.1 = bound_of s).
  { apply (foldl_invariant (λ qh, inv qh.1 qh.2 ∧ bound qh.1 = bound_of s)).
    - split; [|done]. by split; simpl; rewrite ?He, ?Hc.
    - intros qh r _ [Hi Hb]. split; [by apply exec_inv|]. rewrite <-Hb. apply exec_bound. }
  destruct (foldl exec _ rs) as [q h]. simpl in Hinv. destruct Hinv as [[H1 [H2 H3] H4 H5 H6 H7 H8] Hb].
  rewrite !fifo_len in H6, H7, H8. unfold Len, IsEmpty, IsFull, Head. rewrite !fifo_len.
  split_and!; try done.
  - by apply default_fresh.
  - by apply default_fresh.
  - by apply default_fresh.
  - intros [f Hf]. change (match sPeek with Some f => f (storage q) | None => None end) with (head_now (storage q)).
    rewrite (default_fresh _ (head_now (storage q))) by done. by rewrite head_now_els, Hf.
  - by rewrite <-H2.
Qed.
End shell_correct.

Definition queue_demo : list (request (T := nat)) :=
  [QPush 1; QRead true true true true; QPush 2; QPush 3; QPop; QRead true false true false; QClose; QPush 4].

Lemma QueueCell_fifo_and_readers_witness :
  let '(q, h) := foldl exec (NewQueueCellWithStorage (mkVecDeque [] 2 false), mkHistory [] [] false) queue_demo in
  pushed h = [1; 2] ∧ popped h = [1] ∧ Len q = 1 ∧ Head q = Some 2 ∧ IsFull q = false ∧ IsClosed q = true.
Proof.
  pose proof (QueueCell_fifo_and_readers elements (mkVecDeque [] 2 false) queue_demo eq_refl eq_refl) as H.
  destruct (foldl _ _ _) as [q h] eqn:E. destruct H as (Hlog & Hlen & _ & _ & _ & Hhead & Hclosed & _).
  rewrite Hlog, Hlen, Hhead, Hclosed by (vm_compute in E; injection E as <- <-; eauto).
  vm_compute in E. injection E as <- <-. by split_and!.
Defined.

(** ** The broadcast topic *)

(** [queue.go] [type TopicDurability] *)
Inductive TopicDurability := TopicDurable | TopicEphemeral.
#[export] Instance TopicDurability_eq_dec : EqDecision TopicDurability.
Proof. solve_decision. Defined.

(** [queue.go] [type TopicSubscribeOutcome] *)
Inductive TopicSubscribeOutcome := TopicSubscribed | TopicReconnected | TopicAlreadySubscribed.

(** [queue.go] [type topicSubscription] *)
Record topicSubscription := mkSub { cursor : nat; durability : TopicDurability; connected : bool }.

Section topic.
Context {T : Type}.

(** [Exists = false] carries no elements.
    [queue.go] [type TopicRead] *)
Definition TopicRead : Type := option (list T).

(** The readers minted so far, each with the value it last derived.
    [queue.go] [type TopicCell] *)
Record TopicCell := mkTopic {
  baseOffset : nat;
  tElements : list T;
  subscriptions : gmap string topicSubscription;
  readers : gmap string (option TopicRead);
}.

(** [queue.go] [type TopicSnapshot] *)
Record TopicSnapshot := mkTopicSnapshot {
  sBaseOffset : nat;
  sElements : list T;
  sSubscriptions : list (string * topicSubscription);
}.

(** [queue.go] [NewTopicCell] *)
Definition NewTopicCell : TopicCell := mkTopic 0 [] ∅ ∅.
(** [queue.go] [TopicCell.TailOffset] *)
Definition TailOffset (t : TopicCell) : nat := baseOffset t + length (tElements t).

Definition with_subs (f : gmap string topicSubscription → gmap string topicSubscription) (t : TopicCell) :=
  mkTopic (baseOffset t) (tElements t) (f (subscriptions t)) (readers t).

(** [queue.go] [TopicCell.ensureReader] *)
Definition ensureReader (t : TopicCell) (id : string) : TopicCell :=
  match readers t !! id with
  | Some _ => t
  | None => mkTopic (baseOffset t) (tElements t) (subscriptions t) (<[id := None]> (readers t))
  end.

(** [queue.go] [TopicCell.invalidate] *)
Definition topic_invalidate (ids : list string) (t : TopicCell) : TopicCell :=
  mkTopic (baseOffset t) (tElements t) (subscriptions t)
    (foldl (λ r id, alter (λ _, None) id r) (readers t) ids).

(** [queue.go] [TopicCell.Subscribe] *)
Definition Subscribe (t : TopicCell) (id : string) (d : TopicDurability)
    : option (TopicCell * TopicSubscribeOutcome) :=
  match subscriptions t !! id with
  | Some sub =>
      if connected sub then Some (t, TopicAlreadySubscribed)
      else match durability sub with
      | TopicEphemeral => None
      | TopicDurable =>
          Some (topic_invalidate [id] (with_subs (<[id := mkSub (cursor sub) (durability sub) true]>) t),
                TopicReconnected)
      end
  | None =>
      let t := with_subs (<[id := mkSub (TailOffset t) d true]>) t in
      Some (topic_invalidate [id] (ensureReader t id), TopicSubscribed)
  end.

(** [queue.go] [TopicCell.Reconnect] *)
Definition Reconnect (t : TopicCell) (id : string) : option TopicCell :=
  match subscriptions t !! id with
  | Some sub =>
      if decide (durability sub = TopicDurable) then
        Some (if connected sub then t
              else topic_invalidate [id] (with_subs (<[id := mkSub (cursor sub) (durability sub) true]>) t))
      else None
  | None => None
  end.

(** [queue.go] [TopicCell.Disconnect] *)
Definition Disconnect (t : TopicCell) (id : string) : TopicCell :=
  match subscriptions t !! id with
  | Some sub =>
      if connected sub then
        topic_invalidate [id] (with_subs
          (if decide (durability sub = TopicEphemeral) then delete id
           else <[id := mkSub (cursor sub) (durability sub) false]>) t)
      else t
  | None => t
  end.

(** [queue.go] [TopicCell.Publish] *)
Definition Publish (t : TopicCell) (value : T) : TopicCell * nat :=
  let offset := TailOffset t in
  let t := mkTopic (baseOffset t) (tElements t ++ [value]) (subscriptions t) (readers t) in
  let ids := omap (λ ks, if connected ks.2 then Some ks.1 else None) (map_to_list (subscriptions t)) in
  (topic_invalidate ids t, offset).

(** [None] is the panic of slicing from a negative start.
    [queue.go] [TopicCell.readUntracked] *)
Definition readUntracked (t : TopicCell) (id : string) : option TopicRead :=
  match subscriptions t !! id with
  | Some sub =>
      if connected sub then
        if cursor sub <? baseOffset t then None
        else if length (tElements t) <? cursor sub - baseOffset t then None
        else Some (Some (drop (cursor sub - baseOffset t) (tElements t)))
      else Some None
  | None => Some None
  end.

(** [queue.go] [TopicCell.ReadStream] *)
Definition ReadStream (t : TopicCell) (id : string) : option (TopicCell * TopicRead) :=
  let t := ensureReader t id in
  match readers t !! id with
  | Some (Some r) => Some (t, r)
  | _ =>
      r ← readUntracked t id;
      Some (mkTopic (baseOffset t) (tElements t) (subscriptions t) (<[id := Some r]> (readers t)), r)
  end.

(** [queue.go] [TopicCell.Read] *)
Definition Read (t : TopicCell) (id : string) : option (TopicCell * option T) :=
  '(t, r) ← ReadStream t id; Some (t, l ← r; head l).

(** [queue.go] [TopicCell.Advance] *)
Definition Advance (t : TopicCell) (id : string) (count : Z) : option (TopicCell * nat) :=
  match subscriptions t !! id with
  | None => None
  | Some sub =>
      if (count <? 0)%Z then None
      else if negb (connected sub) || (cursor sub =? TailOffset t) then Some (t, cursor sub)
      else
        let c := cursor sub + Z.to_nat count in
        if TailOffset t <? c then None
        else if (0 <? count)%Z then
          Some (topic_invalidate [id] (with_subs (<[id := mkSub c (durability sub) (connected sub)]>) t), c)
        else Some (t, cursor sub)
  end.

(** The slowest durable cursor, or the tail.
    [queue.go] [lines 726-731 TopicCell.GC] *)
Definition gc_frontier (t : TopicCell) : nat :=
  foldl (λ f ks, if decide (durability (ks : string * topicSubscription).2 = TopicDurable)
                 then f `min` cursor ks.2 else f)
    (TailOffset t) (map_to_list (subscriptions t)).

(** [queue.go] [TopicCell.GC] *)
Definition GC (t : TopicCell) : TopicCell * nat :=
  let frontier := gc_frontier t in
  let removed := frontier - baseOffset t in
  (mkTopic frontier (drop removed (tElements t)) (subscriptions t) (readers t), removed).

(** [queue.go] [TopicCell.Snapshot] *)
Definition Snapshot (t : TopicCell) : TopicSnapshot :=
  mkTopicSnapshot (baseOffset t) (tElements t) (map_to_list (subscriptions t)).

(** A saved subscription outside the retained log, or an ephemeral one that is
    not connected, panics.
    [queue.go] [NewTopicCellFromSnapshot] *)
Definition NewTopicCellFromSnapshot (snapshot : TopicSnapshot) : option TopicCell :=
  let t := mkTopic (sBaseOffset snapshot) (sElements snapshot) ∅ ∅ in
  foldl (λ t saved,
    t ← t;
    let sub := (saved : string * topicSubscription).2 in
    if (cursor sub <? baseOffset t) || (TailOffset t <? cursor sub) then None
    else if bool_decide (durability sub = TopicEphemeral) && negb (connected sub) then None
    else Some (ensureReader (with_subs (<[saved.1 := sub]>) t) saved.1))
    (Some t) (sSubscriptions snapshot).

(** ** A run of the topic *)

Inductive topic_request :=
  | TSubscribe (id : string) (d : TopicDurability)
  | TReconnect (id : string)
  | TDisconnect (id : string)
  | TPublish (v : T)
  | TRead (id : string)
  | TAdvance (id : string) (count : Z)
  | TGC.

Definition topic_exec (t : TopicCell) (r : topic_request) : option TopicCell :=
  match r with
  | TSubscribe id d => fst <$> Subscribe t id d
  | TReconnect id => Reconnect t id
  | TDisconnect id => Some (Disconnect t id)
  | TPublish v => Some (Publish t v).1
  | TRead id => fst <$> ReadStream t id
  | TAdvance id n => fst <$> Advance t id n
  | TGC => Some (GC t).1
  end.

Fixpoint topic_run (t : TopicCell) (rs : list topic_request) : option TopicCell :=
  match rs with [] => Some t | r :: rs => t ← topic_exec t r; topic_run t rs end.

Definition published (rs : list topic_request) : list T :=
  omap (λ r, match r with TPublish v => Some v | _ => None end) rs.

(** What a reader shows: the log from the cursor on, to a connected
    subscriber. *)
Definition shown (log : list T) (s : option topicSubscription) : TopicRead :=
  sub ← s; if connected sub then Some (drop (cursor sub) log) else None.

Record topic_inv (log : list T) (t : TopicCell) : Prop := {
  ti_base : baseOffset t ≤ length log;
  ti_elements : tElements t = drop (baseOffset t) log;
  ti_cursor : map_Forall (λ _ s, cursor s ≤ length log ∧
    (durability s = TopicDurable → baseOffset t ≤ cursor s) ∧
    (durability s = TopicEphemeral → connected s = true)) (subscriptions t);
  ti_readers : map_Forall (λ id r, fresh_cache r (shown log (subscriptions t !! id))) (readers t);
}.

Lemma tail_length log t : topic_inv log t → TailOffset t = length log.
Proof. intros [? He _ _]. unfold TailOffset. rewrite He, length_drop. lia. Qed.

Lemma invalidate_readers ids (r : gmap string (option TopicRead)) id :
  foldl (λ r id, alter (λ _, None) id r) r ids !! id =
    if decide (id ∈ ids) then (λ _, None) <$> r !! id else r !! id.
Proof.
  revert r. induction ids as [|i ids IH]; intros r; simpl; [done|]. rewrite IH.
  destruct (decide (i = id)) as [->|Hne].
  - rewrite lookup_alter_eq. rewrite (decide_True (P := id ∈ id :: ids)) by by left.
    destruct (r !! id); by case_decide.
  - rewrite lookup_alter_ne by done. do 2 case_decide; set_solver.
Qed.

Lemma gc_frontier_le t id s :
  gc_frontier t ≤ TailOffset t ∧
  (subscriptions t !! id = Some s → durability s = TopicDurable → gc_frontier t ≤ cursor s) ∧
  (∀ b, b ≤ TailOffset t → (∀ id s, subscriptions t !! id = Some s → durability s = TopicDurable → b ≤ cursor s) →
     b ≤ gc_frontier t).
Proof.
  unfold gc_frontier. assert (Hf : ∀ l f, let g := foldl (λ f ks,
      if decide (durability (ks : string * topicSubscription).2 = TopicDurable) then f `min` cursor ks.2 else f) f l in
    g ≤ f ∧ (∀ ks, ks ∈ l → durability ks.2 = TopicDurable → g ≤ cursor ks.2) ∧
    (∀ b, b ≤ f → (∀ ks, ks ∈ l → durability ks.2 = TopicDurable → b ≤ cursor ks.2) → b ≤ g)).
  { induction l as [|ks l IH]; intros f; simpl; [set_solver by lia|].
    destruct (IH (if decide (durability ks.2 = TopicDurable) then f `min` cursor ks.2 else f)) as (I1 & I2 & I3).
    split_and!.
    - case_decide; lia.
    - intros k [->|Hk]%elem_of_cons Hd; [|by apply I2]. rewrite decide_True in I1 |- * by done. lia.
    - intros b Hb Hl. apply I3; [|intros; apply Hl; [by right|done]].
      case_decide; [|done]. apply Nat.min_glb; [done|]. apply Hl; [by left|done]. }
  destruct (Hf (map_to_list (subscriptions t)) (TailOffset t)) as (F1 & F2 & F3). split_and!; [done|..].
  - intros Hs. apply (F2 (id, s)). by apply elem_of_map_to_list.
  - intros b Hb Hl. apply F3; [done|]. intros [i x] Hix%elem_of_map_to_list. by apply (Hl i).
Qed.

(** Changing one subscription and invalidating its reader keeps the rest. *)
Lemma touch_one log t id o r :
  topic_inv log t →
  (∀ s, o = Some s → cursor s ≤ length log ∧ (durability s = TopicDurable → baseOffset t ≤ cursor s) ∧
    (durability s = TopicEphemeral → connected s = true)) →
  (∀ i, i ≠ id → r !! i = readers t !! i) →
  topic_inv log (topic_invalidate [id]
    (mkTopic (baseOffset t) (tElements t) (partial_alter (λ _, o) id (subscriptions t)) r)).
Proof.
  intros [Hb He Hc Hr] Ho Hsame. split; simpl; [done|done|..].
  - intros i s. destruct (decide (i = id)) as [->|].
    + rewrite lookup_partial_alter_eq. apply Ho.
    + rewrite lookup_partial_alter_ne by done. apply Hc.
  - intros i c. destruct (decide (i = id)) as [->|].
    + rewrite lookup_alter_eq. destruct (r !! id); [|done]. by intros [= <-].
    + rewrite lookup_alter_ne, lookup_partial_alter_ne, Hsame by done. apply Hr.
Qed.

Lemma read_shown log t id r : topic_inv log t → readUntracked t id = Some r → r = shown log (subscriptions t !! id).
Proof.
  intros [Hb He Hc Hr]. unfold readUntracked, shown. destruct (subscriptions t !! id) as [s|] eqn:Es; simpl;
    [|by intros [= <-]]. destruct (connected s); [|by intros [= <-]].
  destruct (Nat.ltb_spec (cursor s) (baseOffset t)); [done|]. case_match; [done|]. intros [= <-].
  rewrite He, drop_drop. do 2 f_equal. lia.
Qed.

Lemma ensureReader_readers t id i :
  readers (ensureReader t id) !! i = (if decide (i = id) then Some (default None (readers t !! id)) else readers t !! i).
Proof.
  unfold ensureReader. destruct (readers t !! id) eqn:E; case_decide; subst; simpl; try done.
  - by rewrite lookup_insert_eq.
  - by rewrite lookup_insert_ne.
Qed.

Lemma ensureReader_same t id :
  baseOffset (ensureReader t id) = baseOffset t ∧ tElements (ensureReader t id) = tElements t ∧
  subscriptions (ensureReader t id) = subscriptions t.
Proof. unfold ensureReader. by case_match. Qed.

Lemma ensureReader_inv log t id : topic_inv log t → topic_inv log (ensureReader t id).
Proof.
  intros [Hb He Hc Hr]. destruct (ensureReader_same t id) as (E1 & E2 & E3). split; rewrite ?E1, ?E2, ?E3; try done.
  intros i c. rewrite ensureReader_readers. case_decide as Hi; [|apply Hr]. subst. intros [= <-].
  destruct (readers t !! id) as [c|] eqn:Ec; simpl; [by apply Hr|done].
Qed.

Lemma ReadStream_ok log t id t' r :
  topic_inv log t → ReadStream t id = Some (t', r) →
  topic_inv log t' ∧ r = shown log (subscriptions t !! id) ∧ subscriptions t' = subscriptions t ∧
  baseOffset t' = baseOffset t.
Proof.
  intros Hi. unfold ReadStream. pose proof (ensureReader_inv log t id Hi) as He.
  destruct (ensureReader_same t id) as (E1 & E2 & E3).
  destruct (readers (ensureReader t id) !! id) as [[c|]|] eqn:Er.
  - intros [= <- <-]. split_and!; [done| |done|done]. rewrite <-E3. exact (ti_readers _ _ He _ _ Er _ eq_refl).
  - intros (r' & Hr & [= <- <-])%bind_Some. apply (read_shown log) in Hr as ->; [|done].
    split_and!; [|by rewrite E3|done|done]. destruct He as [Hb Hl Hc Hrd]. split; simpl; try done.
    intros i c. rewrite lookup_insert_Some. intros [[<- <-]|[_ ?]]; [by intros ? [= <-]|by apply Hrd].
  - intros (r' & Hr & [= <- <-])%bind_Some. apply (read_shown log) in Hr as ->; [|done].
    split_and!; [|by rewrite E3|done|done]. destruct He as [Hb Hl Hc Hrd]. split; simpl; try done.
    intros i c. rewrite lookup_insert_Some. intros [[<- <-]|[_ ?]]; [by intros ? [= <-]|by apply Hrd].
Qed.

Lemma Publish_inv log t v : topic_inv log t → topic_inv (log ++ [v]) (Publish t v).1.
Proof.
  intros Hi. pose proof Hi as [Hb He Hc Hr]. split; simpl.
  - rewrite length_app. lia.
  - rewrite He, drop_app_le by done. done.
  - eapply map_Forall_impl; [exact Hc|]. simpl. intros i s (H1 & H2 & H3). rewrite length_app. split_and!; [lia|done..].
  - intros i c. rewrite invalidate_readers. case_decide as Hin.
    { destruct (readers t !! i); simpl; [|done]. by intros [= <-]. }
    intros Hic x ->. rewrite (Hr i _ Hic x eq_refl). unfold shown.
    destruct (subscriptions t !! i) as [s|] eqn:Es; simpl; [|done]. destruct (connected s) eqn:Ec; [|done].
    exfalso. apply Hin. apply list_elem_of_omap. exists (i, s). rewrite elem_of_map_to_list. simpl. by rewrite Ec.
Qed.

Lemma topic_exec_inv log t r t' :
  topic_inv log t → topic_exec t r = Some t' → topic_inv (log ++ published [r]) t'.
Proof.
  intros Hi. destruct r as [id d|id|id|v|id|id n|]; simpl; rewrite ?app_nil_r; unfold Subscribe, Reconnect, Disconnect, Advance.
  - destruct (subscriptions t !! id) as [s|] eqn:Es.
    + destruct (connected s) eqn:Ec; [by intros [= <-]|]. destruct (durability s) eqn:Ed; [|done].
      intros [= <-]. apply (touch_one log t id (Some _)); [done| |done]. intros ? [= <-]. simpl.
      destruct (ti_cursor _ _ Hi _ _ Es) as (? & ? & _). auto.
    + intros [= <-]. pose proof (tail_length _ _ Hi) as Ht. unfold ensureReader. simpl.
      pose proof (ti_base _ _ Hi).
      assert (Hs : ∀ s, Some (mkSub (TailOffset t) d true) = Some s → cursor s ≤ length log ∧
        (durability s = TopicDurable → baseOffset t ≤ cursor s) ∧ (durability s = TopicEphemeral → connected s = true)).
      { intros ? [= <-]. simpl. rewrite Ht. by split_and!. }
      case_match; simpl; apply (touch_one log t id (Some _)); try done.
      intros i Hne. by rewrite lookup_insert_ne.
  - destruct (subscriptions t !! id) as [s|] eqn:Es; [|done]. case_decide; [|done]. intros [= <-].
    destruct (connected s) eqn:Ec; [done|]. apply (touch_one log t id (Some _)); [done| |done].
    intros ? [= <-]. simpl. destruct (ti_cursor _ _ Hi _ _ Es) as (? & ? & _). auto.
  - intros [= <-]. destruct (subscriptions t !! id) as [s|] eqn:Es; [|done].
    destruct (connected s) eqn:Ec; [|done]. destruct (ti_cursor _ _ Hi _ _ Es) as (? & ? & _). case_decide as Hd.
    + by apply (touch_one log t id None).
    + apply (touch_one log t id (Some _)); [done| |done]. intros ? [= <-]. simpl. by split_and!.
  - intros [= <-]. by apply Publish_inv.
  - intros ([t1 r] & Hr & [= <-])%fmap_Some. by apply (ReadStream_ok log) in Hr as [? _].
  - intros ([t1 r] & Hr & [= <-])%fmap_Some. destruct (subscriptions t !! id) as [s|] eqn:Es; [|done].
    destruct (Z.ltb_spec n 0); [done|]. destruct (_ || _) eqn:E; [by simplify_eq|].
    destruct (Nat.ltb_spec (TailOffset t) (cursor s + Z.to_nat n)); [done|].
    destruct (0 <? n)%Z; simplify_eq; [|done]. apply (touch_one log t id (Some _)); [done| |done].
    intros ? [= <-]. simpl. destruct (ti_cursor _ _ Hi _ _ Es) as (? & Hd & He).
    rewrite (tail_length _ _ Hi) in *. split_and!; [lia| |done]. intros ?%Hd. lia.
  - intros [= <-]. pose proof (tail_length _ _ Hi) as Ht. destruct Hi as [Hb He Hc Hr].
    pose proof (λ id s, gc_frontier_le t id s) as Hg.
    assert (Hge : baseOffset t ≤ gc_frontier t).
    { destruct (Hg ""%string (mkSub 0 TopicDurable true)) as (_ & _ & Hm). apply Hm; [lia|].
      intros i s Hs Hd. by apply (Hc i s Hs). }
    destruct (Hg ""%string (mkSub 0 TopicDurable true)) as (Hle & _). split; simpl.
    + lia.
    + rewrite He, drop_drop. f_equal. lia.
    + intros i s Hs. destruct (Hc i s Hs) as (? & ? & ?). split_and!; [done| |done].
      intros Hd. by apply (Hg i s).
    + done.
Qed.

Lemma topic_run_inv rs log t t' :
  topic_inv log t → topic_run t rs = Some t' → topic_inv (log ++ published rs) t'.
Proof.
  revert log t. induction rs as [|r rs IH]; intros log t Hi; simpl.
  - intros [= <-]. by rewrite app_nil_r.
  - intros (t1 & He & Hrun)%bind_Some. apply (topic_exec_inv log) in He; [|done].
    specialize (IH _ _ He Hrun). rewrite <-(assoc_L (++)) in IH. unfold published in *. by rewrite <-omap_app in IH.
Qed.

(** Collection never outruns a durable cursor, so its reader does not panic. *)
Lemma durable_read_returns log t id s :
  topic_inv log t → subscriptions t !! id = Some s → durability s = TopicDurable → ∃ t' r, ReadStream t id = Some (t', r).
Proof.
  intros [Hb He Hc _] Hs Hd. destruct (Hc id s Hs) as (H1 & H2 & _). specialize (H2 Hd).
  unfold ReadStream. destruct (ensureReader_same t id) as (E1 & E2 & E3).
  assert (Hu : is_Some (readUntracked (ensureReader t id) id)).
  { unfold readUntracked. rewrite E1, E2, E3, Hs. case_match; [|eauto].
    destruct (Nat.ltb_spec (cursor s) (baseOffset t)); [lia|].
    destruct (Nat.ltb_spec (length (tElements t)) (cursor s - baseOffset t)); [|eauto].
    rewrite He, length_drop in *. lia. }
  destruct Hu as [u Hu]. rewrite Hu. simpl. repeat case_match; eauto.
Qed.

(** *** The mailboxes a topic stands for

    One list of unread elements per subscriber, read off the requests alone: a
    publication lands in every box, connected or not, only the subscriber's own
    advance takes elements out, and going offline, coming back and collection
    leave a box as it is. *)
Record mailbox := mkBox { unread : list T; kind : TopicDurability; online : bool }.

Definition deliver (boxes : gmap string mailbox) (r : topic_request) : gmap string mailbox :=
  match r with
  | TSubscribe id d =>
      match boxes !! id with
      | None => <[id := mkBox [] d true]> boxes
      | Some b => <[id := mkBox (unread b) (kind b) true]> boxes
      end
  | TReconnect id => alter (λ b, mkBox (unread b) (kind b) true) id boxes
  | TDisconnect id =>
      match boxes !! id with
      | Some b => if decide (kind b = TopicEphemeral) then delete id boxes
                  else <[id := mkBox (unread b) (kind b) false]> boxes
      | None => boxes
      end
  | TPublish v => (λ b, mkBox (unread b ++ [v]) (kind b) (online b)) <$> boxes
  | TAdvance id n => alter (λ b, if online b then mkBox (drop (Z.to_nat n) (unread b)) (kind b) true else b) id boxes
  | TRead _ | TGC => boxes
  end.
Definition mailboxes (rs : list topic_request) : gmap string mailbox := foldl deliver ∅ rs.

(** What a subscriber is shown: its box, while it is connected. *)
Definition opened (b : option mailbox) : TopicRead := b ← b; if online b then Some (unread b) else None.

Definition box_of (log : list T) (s : topicSubscription) : mailbox := mkBox (drop (cursor s) log) (durability s) (connected s).
Definition boxed (log : list T) (subs : gmap string topicSubscription) : gmap string mailbox := box_of log <$> subs.

Lemma shown_opened log t id : shown log (subscriptions t !! id) = opened (boxed log (subscriptions t) !! id).
Proof. unfold shown, opened, boxed. rewrite lookup_fmap. destruct (subscriptions t !! id) as [s|]; [|done]. simpl. by destruct (connected s). Qed.

Lemma boxed_insert log subs id s : boxed log (<[id := s]> subs) = <[id := box_of log s]> (boxed log subs).
Proof. apply fmap_insert. Qed.

Lemma alter_at {A} (m : gmap string A) i (f : A → A) x : m !! i = Some x → alter f i m = <[i := f x]> m.
Proof.
  intros Hi. apply map_eq. intros j. destruct (decide (i = j)) as [<-|]; [|by rewrite lookup_alter_ne, lookup_insert_ne].
  by rewrite lookup_alter_eq, lookup_insert_eq, Hi.
Qed.

Lemma topic_exec_boxes log t r t' :
  topic_inv log t → topic_exec t r = Some t' →
  boxed (log ++ published [r]) (subscriptions t') = deliver (boxed log (subscriptions t)) r.
Proof.
  intros Hi. destruct r as [id d|id|id|v|id|id n|]; simpl; rewrite ?app_nil_r; unfold Subscribe, Reconnect, Disconnect, Advance.
  - unfold boxed at 2. rewrite lookup_fmap. destruct (subscriptions t !! id) as [s|] eqn:Es; simpl.
    + destruct (connected s) eqn:Ec.
      * intros [= <-]. unfold box_of. simpl. rewrite <-Ec. symmetry. apply insert_id. unfold boxed. by rewrite lookup_fmap, Es.
      * destruct (durability s) eqn:Ed; [|done]. intros [= <-]. simpl. rewrite boxed_insert. done.
    + intros [= <-]. simpl. destruct (ensureReader_same (with_subs <[id:=mkSub (TailOffset t) d true]> t) id) as (_ & _ & ->). simpl.
      rewrite boxed_insert. unfold box_of. simpl. by rewrite (tail_length _ _ Hi), drop_all.
  - destruct (subscriptions t !! id) as [s|] eqn:Es; [|done]. case_decide as Hd; [|done]. intros [= <-].
    assert (Hb : boxed log (subscriptions t) !! id = Some (box_of log s)) by (unfold boxed; by rewrite lookup_fmap, Es).
    rewrite (alter_at _ _ _ _ Hb). unfold box_of. simpl. destruct (connected s) eqn:Ec; [|simpl; by rewrite boxed_insert].
    symmetry. apply insert_id. rewrite Hb. unfold box_of. by rewrite Ec.
  - intros [= <-]. unfold boxed at 2. rewrite lookup_fmap. destruct (subscriptions t !! id) as [s|] eqn:Es; simpl; [|done].
    destruct (ti_cursor _ _ Hi _ _ Es) as (_ & _ & He). destruct (connected s) eqn:Ec; simpl.
    + case_decide; [|by rewrite boxed_insert]. apply fmap_delete.
    + rewrite decide_False by (intros ?%He; congruence). unfold box_of. simpl. symmetry. apply insert_id.
      unfold boxed. rewrite lookup_fmap, Es. simpl. unfold box_of. by rewrite Ec.
  - intros [= <-]. simpl. unfold boxed. rewrite <-map_fmap_compose. apply map_fmap_ext. intros id s Hs.
    unfold box_of. simpl. destruct (ti_cursor _ _ Hi _ _ Hs) as (Hc & _). by rewrite drop_app_le.
  - intros ([t1 r] & Hr & [= <-])%fmap_Some. by apply (ReadStream_ok log) in Hr as (_ & _ & -> & _).
  - intros ([t1 r] & Hr & [= <-])%fmap_Some. destruct (subscriptions t !! id) as [s|] eqn:Es; [|done].
    assert (Hb : boxed log (subscriptions t) !! id = Some (box_of log s)) by (unfold boxed; by rewrite lookup_fmap, Es).
    rewrite (alter_at _ _ _ _ Hb). simpl. destruct (ti_cursor _ _ Hi _ _ Es) as (Hc & _).
    destruct (Z.ltb_spec n 0); [done|]. pose proof (tail_length _ _ Hi) as Ht.
    destruct (connected s) eqn:Ec; simpl in Hr; [|simplify_eq; symmetry; apply insert_id; by rewrite Hb].
    destruct (Nat.eqb_spec (cursor s) (TailOffset t)) as [Heq|Hne].
    { simplify_eq. symmetry. apply insert_id. rewrite Hb. unfold box_of. simpl. rewrite Ec, drop_drop, !drop_ge by lia. done. }
    destruct (Nat.ltb_spec (TailOffset t) (cursor s + Z.to_nat n)); [done|].
    destruct (Z.ltb_spec 0 n); simplify_eq; simpl.
    + rewrite boxed_insert. unfold box_of. simpl. by rewrite drop_drop, ?Ec.
    + replace (Z.to_nat n) with 0 by lia. rewrite drop_0. symmetry. apply insert_id. rewrite Hb. unfold box_of. by rewrite Ec.
  - by intros [= <-].
Qed.

Lemma topic_run_boxes rs log t t' :
  topic_inv log t → topic_run t rs = Some t' →
  boxed (log ++ published rs) (subscriptions t') = foldl deliver (boxed log (subscriptions t)) rs.
Proof.
  revert log t. induction rs as [|r rs IH]; intros log t Hi; simpl.
  - intros [= <-]. by rewrite app_nil_r.
  - intros (t1 & He & Hrun)%bind_Some. rewrite <-(topic_exec_boxes log t r t1) by done.
    apply (topic_exec_inv log) in He; [|done]. rewrite <-(IH _ _ He Hrun). rewrite <-(assoc_L (++)).
    unfold published. by rewrite <-omap_app.
Qed.

End topic.
Arguments TopicCell : clear implicits.

Definition topic_demo : list (topic_request (T := nat)) :=
  [TSubscribe "d" TopicDurable; TPublish 1; TRead "d"; TPublish 2; TAdvance "d" 1; TDisconnect "d"; TPublish 3;
   TGC; TReconnect "d"; TRead "d"].


(** Collection drops the log below the durable cursors only: a connected
    ephemeral subscriber that has not caught up then panics when it reads, and a
    snapshot of such a topic cannot be restored. *)
Lemma gc_breaks_ephemeral_reader :
  ∃ t, topic_run (T := nat) NewTopicCell [TSubscribe "e" TopicEphemeral; TPublish 1; TGC] = Some t ∧
    ReadStream t "e" = None ∧ NewTopicCellFromSnapshot (Snapshot t) = None.
Proof. eexists. split; [reflexivity|]. split; reflexivity. Qed.
