(* ===== verification/Temporal.v ===== *)
(** * Temporal: logical-clock-driven sources (temporal.go)

    Timer, interval, cron and deadline cores over wrapping [uint64] ticks, and
    the cells that project them ([Cell] of the prelude). *)

From S2P Require Import Prelude.
Local Open Scope Z_scope.

(** ** Clock and timer *)

(** [temporal.go] [type ManualClock] *)
Record ManualClock := mkClock { clock_now : Z }.
(** [temporal.go] [ManualClock.Advance] *)
Definition ManualClock_Advance (c : ManualClock) (now : Z) : ManualClock * Z :=
  let c := if clock_now c <? now then mkClock now else c in (c, clock_now c).

(** [temporal.go] [type TimerCore] *)
Record TimerCore := mkTimer { fireAt : Z; fired : bool }.
(** [temporal.go] [NewTimerCore] *)
Definition NewTimerCore (at_ : Z) : TimerCore := mkTimer at_ false.
(** [temporal.go] [TimerCore.Tick] *)
Definition TimerCore_Tick (t : TimerCore) (now : Z) : TimerCore * bool :=
  if fired t || (now <? fireAt t) then (t, false) else (mkTimer (fireAt t) true, true).
(** [temporal.go] [TimerCore.NextFire] *)
Definition TimerCore_NextFire (t : TimerCore) : option Z := if fired t then None else Some (fireAt t).

(** [temporal.go] [type TimerCell] *)
Record TimerCell := mkTimerCell { timer_core : TimerCore; timer_fired : Cell bool }.
(** [temporal.go] [NewTimerCell] *)
Definition NewTimerCell (at_ : Z) : TimerCell := mkTimerCell (NewTimerCore at_) (NewCell false).
(** [temporal.go] [TimerCell.Tick] *)
Definition TimerCell_Tick (t : TimerCell) (now : Z) : TimerCell * bool :=
  let '(core, edge) := TimerCore_Tick (timer_core t) now in
  (mkTimerCell core (Cell_Set (timer_fired t) (fired core)), edge).

(** [temporal.go] [type Deadlined] *)
Record Deadlined (T : Type) := mkDeadlined { expired : bool; dl_value : T }.
Arguments mkDeadlined {T}.
Arguments expired {T}.
Arguments dl_value {T}.

(** [temporal.go] [type DeadlineCell] *)
Record DeadlineCell (T : Type) := mkDeadlineCell { dc_core : TimerCore; dc_value : T; dc_expired : Cell bool }.
Arguments mkDeadlineCell {T}.
Arguments dc_core {T}.
Arguments dc_value {T}.
Arguments dc_expired {T}.
(** [temporal.go] [NewDeadlineCell] *)
Definition NewDeadlineCell {T} (value : T) (deadline : Z) : DeadlineCell T :=
  mkDeadlineCell (NewTimerCore deadline) value (NewCell false).
(** [temporal.go] [DeadlineCell.Tick] *)
Definition DeadlineCell_Tick {T} (d : DeadlineCell T) (now : Z) : DeadlineCell T * bool :=
  let '(core, edge) := TimerCore_Tick (dc_core d) now in
  (mkDeadlineCell core (dc_value d) (Cell_Set (dc_expired d) (fired core)), edge).
(** [temporal.go] [DeadlineCell.State] *)
Definition DeadlineCell_State {T} (d : DeadlineCell T) : Deadlined T :=
  if cell_value (dc_expired d) then mkDeadlined true (dc_value d) else mkDeadlined false (dc_value d).

(** ** Interval *)

(** [temporal.go] [type IntervalCore] *)
Record IntervalCore := mkInterval { period : Z; next : Z; count : Z }.
(** [temporal.go] [NewIntervalCore] *)
Definition NewIntervalCore (p : Z) : IntervalCore :=
  let p := if p <? 1 then 1 else p in mkInterval p p 0.
(** [temporal.go] [IntervalCore.firesThisTick] *)
Definition firesThisTick (iv : IntervalCore) (now : Z) : Z :=
  if now <? next iv then 0 else ((now -ᵤ next iv) / period iv) +ᵤ 1.
(** [temporal.go] [IntervalCore.Tick] *)
Definition IntervalCore_Tick (iv : IntervalCore) (now : Z) : IntervalCore * bool :=
  let fires := firesThisTick iv now in
  if fires =? 0 then (iv, false)
  else (mkInterval (period iv) (next iv +ᵤ u64 (fires * period iv)) (count iv +ᵤ fires), true).
(** [temporal.go] [IntervalCore.NextFire] *)
Definition IntervalCore_NextFire (iv : IntervalCore) : option Z := Some (next iv).

(** [temporal.go] [type IntervalCell] *)
Record IntervalCell := mkIntervalCell { interval_core : IntervalCore; interval_count : Cell Z }.
(** [temporal.go] [NewIntervalCell] *)
Definition NewIntervalCell (p : Z) : IntervalCell := mkIntervalCell (NewIntervalCore p) (NewCell 0).
(** [temporal.go] [IntervalCell.Tick] *)
Definition IntervalCell_Tick (iv : IntervalCell) (now : Z) : IntervalCell * bool :=
  let '(core, edge) := IntervalCore_Tick (interval_core iv) now in
  (mkIntervalCell core (Cell_Set (interval_count iv) (count core)), edge).

(** ** Cron *)

(** [temporal.go] [countUpto] *)
Definition countUpto (n o cycle : Z) : Z :=
  if o =? 0 then n / cycle
  else if o <=? n then ((n -ᵤ o) / cycle) +ᵤ 1
  else 0.

(** [temporal.go] [type CronCore] *)
Record CronCore := mkCron { cycle : Z; offsets : list Z; cursor : Z; cron_count : Z }.

(** Sorting and dropping repeats.
    [temporal.go] [sortUint64] *)
Definition sortUint64 (l : list Z) : list Z := merge_sort Z.le l.

(** [temporal.go] [lines 237-242 NewCronCore] *)
Fixpoint dedup (prev : option Z) (l : list Z) : list Z :=
  match l with
  | [] => []
  | o :: l => if decide (prev = Some o) then dedup prev l else o :: dedup (Some o) l
  end.

(** [temporal.go] [NewCronCore] *)
Definition NewCronCore (c : Z) (offs : list Z) : CronCore :=
  let c := if c <? 1 then 1 else c in
  mkCron c (dedup None (sortUint64 ((λ o, o mod c) <$> offs))) 0 0.

(** [temporal.go] [CronCore.matchesIn] *)
Definition matchesIn (c : CronCore) (lo hi : Z) : Z :=
  foldl (λ sum o, sum +ᵤ (countUpto hi o (cycle c) -ᵤ countUpto lo o (cycle c))) 0 (offsets c).

(** [temporal.go] [CronCore.Tick] *)
Definition CronCore_Tick (c : CronCore) (now : Z) : CronCore * bool :=
  if now <=? cursor c then (c, false)
  else
    let fires := matchesIn c (cursor c) now in
    if fires =? 0 then (mkCron (cycle c) (offsets c) now (cron_count c), false)
    else (mkCron (cycle c) (offsets c) now (cron_count c +ᵤ fires), true).

(** The first offset of the block that is not before [start]. *)
Fixpoint first_from (start block : Z) (offs : list Z) : option Z :=
  match offs with
  | [] => None
  | o :: offs => let cand := block +ᵤ o in if start <=? cand then Some cand else first_from start block offs
  end.

(** [temporal.go] [CronCore.NextFire] *)
Definition CronCore_NextFire (c : CronCore) : option Z :=
  match offsets c with
  | [] => None
  | _ =>
      let start := cursor c +ᵤ 1 in
      let base := start / cycle c *ᵤ cycle c in
      match first_from start base (offsets c) with
      | Some cand => Some cand
      | None => first_from start (base +ᵤ u64 (1 * cycle c)) (offsets c)
      end
  end.

(** [temporal.go] [type CronCell] *)
Record CronCell := mkCronCell { cron_core : CronCore; cron_cell : Cell Z }.
(** [temporal.go] [NewCronCell] *)
Definition NewCronCell (c : Z) (offs : list Z) : CronCell := mkCronCell (NewCronCore c offs) (NewCell 0).
(** [temporal.go] [CronCell.Tick] *)
Definition CronCell_Tick (c : CronCell) (now : Z) : CronCell * bool :=
  let '(core, edge) := CronCore_Tick (cron_core c) now in
  (mkCronCell core (Cell_Set (cron_cell c) (cron_count core)), edge).

(** ** Runs *)

(** The state after a sequence of ticks and the edges they returned. *)
Fixpoint ticks {S} (tick : S → Z → S * bool) (s : S) (nows : list Z) : S * list bool :=
  match nows with
  | [] => (s, [])
  | now :: nows => let '(s, e) := tick s now in let '(s, es) := ticks tick s nows in (s, e :: es)
  end.

(** The latest tick so far; a clock that went back counts for nothing. *)
Definition latest (nows : list Z) : Z := foldl Z.max 0 nows.

Lemma latest_nonneg_from x nows : 0 ≤ x → 0 ≤ foldl Z.max x nows.
Proof. revert x. induction nows; simpl; intros; [done|]. apply IHnows. lia. Qed.

Lemma latest_mono x nows : x ≤ foldl Z.max x nows.
Proof. revert x. induction nows as [|n nows IH]; simpl; intros; [done|]. specialize (IH (x `max` n)). lia. Qed.

(** A run that keeps an invariant indexed by the latest tick. *)
Lemma ticks_inv {S} (tick : S → Z → S * bool) (P : Z → nat → S → Prop) (bound : Z) :
  (∀ m k s now, P m k s → 0 ≤ now → m `max` now ≤ bound →
     P (m `max` now) (if (tick s now).2 then Datatypes.S k else k) (tick s now).1) →
  ∀ nows m k s, P m k s → Forall (λ n, 0 ≤ n) nows → foldl Z.max m nows ≤ bound →
  P (foldl Z.max m nows) (k + length (filter Is_true (ticks tick s nows).2))%nat (ticks tick s nows).1.
Proof.
  intros Hstep nows. induction nows as [|now nows IH]; intros m k s Hp Hn Hb; simpl in *.
  - by rewrite Nat.add_0_r.
  - apply Forall_cons in Hn as [H0 Hn]. specialize (Hstep m k s now Hp H0).
    pose proof (latest_mono (m `max` now) nows). destruct (tick s now) as [s' e]. simpl in Hstep.
    specialize (IH _ _ _ (Hstep ltac:(lia)) Hn Hb). destruct (ticks tick s' nows) as [s'' es]. simpl in *.
    rewrite filter_cons. destruct e; simpl; [by rewrite Nat.add_succ_r|done].
Qed.

(** ** The interval counts every boundary *)

Definition interval_at (p m : Z) (k : nat) (c : IntervalCell) : Prop :=
  interval_core c = mkInterval p ((m / p + 1) * p) (m / p) ∧
  cell_value (interval_count c) = m / p ∧ cell_edges (interval_count c) = k.

Lemma interval_step p m k c now :
  1 ≤ p → 0 ≤ m → interval_at p m k c → 0 ≤ now → m `max` now ≤ max_u64 - p →
  interval_at p (m `max` now) (if (IntervalCell_Tick c now).2 then S k else k) (IntervalCell_Tick c now).1.
Proof.
  intros Hp Hm (Hcore & Hv & Hk) Hnow Hb. unfold IntervalCell_Tick, IntervalCore_Tick, firesThisTick.
  rewrite Hcore. simpl. pose proof (Z.mul_div_le m p). pose proof (Z.mul_succ_div_gt m p).
  destruct (Z.ltb_spec now ((m / p + 1) * p)).
  - simpl. assert (Hq : (m `max` now) / p = m / p).
    { symmetry. apply (Z.div_unique _ _ _ (m `max` now - p * (m / p))); nia. }
    unfold interval_at. simpl. rewrite Hq. unfold Cell_Set. rewrite decide_True by (by rewrite Hv). by split_and!.
  - assert (Hmax : m `max` now = now) by nia. rewrite Hmax.
    set (q := m / p) in *. set (r := (now - (q + 1) * p) / p).
    pose proof (Z.mul_div_le (now - (q + 1) * p) p). pose proof (Z.mul_succ_div_gt (now - (q + 1) * p) p).
    fold r in H2, H3. assert (0 ≤ r) by (apply Z.div_pos; lia). assert (0 ≤ q) by (apply Z.div_pos; lia).
    assert (Hr : now / p = q + 1 + r).
    { symmetry. apply (Z.div_unique _ _ _ (now - p * (q + 1 + r))); nia. }
    assert (Hn : now ≤ max_u64 - p) by lia. unfold max_u64 in Hn.
    rewrite (u64_small (now - _)) by (unfold is_u64, two64; nia). fold r.
    rewrite (u64_small (r + 1)) by (unfold is_u64, two64; nia).
    destruct (Z.eqb_spec (r + 1) 0); [lia|]. simpl.
    rewrite (u64_small ((r + 1) * p)) by (unfold is_u64, two64; nia).
    rewrite !u64_small by (unfold is_u64, two64; nia). unfold interval_at. simpl. rewrite Hr.
    unfold Cell_Set. rewrite decide_False by (rewrite Hv; lia). simpl.
    split_and!; [f_equal; lia|lia|by rewrite Hk].
Qed.

(** An interval counts every boundary exactly once, however the clock jumps.
    After any ticks the count and its cell are the latest tick divided by the
    period, the next fire is the first boundary after it, and dependents were
    invalidated exactly as often as a tick reported a fire; repeated and backward
    ticks do nothing (up to one period short of the 64-bit clock). *)
Theorem Interval_counts_boundaries p0 nows :
  0 ≤ p0 → Forall (λ n, 0 ≤ n) nows → latest nows ≤ max_u64 - Z.max p0 1 →
  let p := Z.max p0 1 in
  let '(c, es) := ticks IntervalCell_Tick (NewIntervalCell p0) nows in
  count (interval_core c) = latest nows / p ∧ cell_value (interval_count c) = latest nows / p ∧
  next (interval_core c) = (latest nows / p + 1) * p ∧
  cell_edges (interval_count c) = length (filter Is_true es).
Proof.
  intros Hp0 Hn Hb p.
  pose proof (ticks_inv IntervalCell_Tick (λ m k c, 0 ≤ m ∧ interval_at p m k c) (max_u64 - p)) as Hrun.
  specialize (Hrun ltac:(intros m k s now [Hm Hi] H0 Hle; split; [lia|by apply interval_step; try lia])).
  specialize (Hrun nows 0 0%nat (NewIntervalCell p0)). fold (latest nows) in Hrun. simpl in Hrun.
  destruct Hrun as [_ (H1 & H2 & H3)]; [|done|done|].
  - split; [done|]. unfold interval_at, NewIntervalCell, NewIntervalCore. simpl. rewrite Z.div_0_l by lia.
    assert (Hpe : (if p0 <? 1 then 1 else p0) = p) by (unfold p; destruct (Z.ltb_spec p0 1); lia).
    rewrite Hpe. split_and!; [f_equal; lia|done|done].
  - destruct (ticks _ _ nows) as [c es]. simpl in *. rewrite H1. by split_and!.
Qed.

Lemma Interval_counts_boundaries_witness :
  count (interval_core (ticks IntervalCell_Tick (NewIntervalCell 10) [3; 25; 25; 7; 31]).1) = 3 ∧
  next (interval_core (ticks IntervalCell_Tick (NewIntervalCell 10) [3; 25; 25; 7; 31]).1) = 40.
Proof.
  pose proof (Interval_counts_boundaries 10 [3; 25; 25; 7; 31] ltac:(lia)
    ltac:(repeat constructor; lia) ltac:(vm_compute; discriminate)) as H. cbv zeta in H.
  destruct (ticks _ _ _) as [c es]. destruct H as (Hc & _ & Hn & _). cbn [fst].
  rewrite Hc, Hn. by split.
Defined.

(** ** The cron source counts every matching tick *)

(** Ticks in [1..n] that the pattern names. *)
Fixpoint hits (c : Z) (offs : list Z) (n : nat) : Z :=
  match n with
  | O => 0
  | S n => hits c offs n + if decide (Z.of_nat (S n) mod c ∈ offs) then 1 else 0
  end.

Lemma countUpto_alt n o c : 0 ≤ o < c → 0 ≤ n < two64 →
  countUpto n o c = n / c + if decide (0 < o ≤ n mod c) then 1 else 0.
Proof.
  intros Ho Hn. unfold countUpto. pose proof (Z.div_mod n c ltac:(lia)). pose proof (Z.mod_pos_bound n c ltac:(lia)).
  destruct (Z.eqb_spec o 0); [rewrite decide_False by lia; lia|].
  assert (0 ≤ n / c) by (apply Z.div_pos; lia).
  destruct (Z.leb_spec o n).
  - rewrite (u64_small (n - o)) by zrange. case_decide.
    + assert (Hd : (n - o) / c = n / c) by (symmetry; apply (Z.div_unique _ _ _ (n mod c - o)); lia).
      rewrite Hd, u64_small; [done|]. assert (n / c ≤ n - o) by (rewrite <-Hd; apply Z.div_le_upper_bound; nia). zrange.
    + assert (Hd : (n - o) / c = n / c - 1) by (symmetry; apply (Z.div_unique _ _ _ (n mod c - o + c)); lia).
      rewrite Hd, u64_small; [lia|]. assert (n / c ≤ n) by (apply Z.div_le_upper_bound; nia). zrange.
  - rewrite decide_False by (rewrite Z.mod_small; lia). rewrite Z.div_small; lia.
Qed.

Lemma countUpto_succ n o c : 0 ≤ o < c → 0 ≤ n → n + 1 < two64 →
  countUpto (n + 1) o c = countUpto n o c + if decide ((n + 1) mod c = o) then 1 else 0.
Proof.
  intros Ho Hn Hb. rewrite !countUpto_alt by lia.
  pose proof (Z.div_mod n c ltac:(lia)). pose proof (Z.mod_pos_bound n c ltac:(lia)).
  destruct (decide (n mod c + 1 = c)).
  - assert (Hd : (n + 1) / c = n / c + 1) by (symmetry; apply (Z.div_unique _ _ _ 0); lia).
    assert (Hm : (n + 1) mod c = 0) by (symmetry; apply (Z.mod_unique _ _ (n / c + 1)); lia).
    rewrite Hd, Hm. repeat case_decide; lia.
  - assert (Hd : (n + 1) / c = n / c) by (symmetry; apply (Z.div_unique _ _ _ (n mod c + 1)); lia).
    assert (Hm : (n + 1) mod c = n mod c + 1) by (symmetry; apply (Z.mod_unique _ _ (n / c)); lia).
    rewrite Hd, Hm. repeat case_decide; lia.
Qed.

Definition total (c : Z) (offs : list Z) (n : Z) : Z := foldr (λ o s, countUpto n o c + s) 0 offs.

Lemma total_succ c offs n : NoDup offs → Forall (λ o, 0 ≤ o < c) offs → 0 ≤ n → n + 1 < two64 →
  total c offs (n + 1) = total c offs n + if decide ((n + 1) mod c ∈ offs) then 1 else 0.
Proof.
  intros Hnd Ho Hn Hb. induction Ho as [|o offs Ho _ IH]; simpl; [done|].
  apply NoDup_cons in Hnd as [Hni Hnd]. rewrite IH, countUpto_succ by done.
  assert (Hc : ∀ x, x ∈ o :: offs ↔ x = o ∨ x ∈ offs) by (intros; apply elem_of_cons).
  repeat case_decide; try lia; subst; naive_solver.
Qed.

Lemma total_hits c offs n : NoDup offs → Forall (λ o, 0 ≤ o < c) offs → Z.of_nat n < two64 →
  total c offs (Z.of_nat n) = hits c offs n.
Proof.
  intros Hnd Ho. induction n as [|n IH]; intros Hb.
  - clear Hnd. simpl. induction Ho as [|o offs Ho _ IHo]; simpl; [done|]. rewrite IHo.
    rewrite countUpto_alt by zrange. rewrite Z.div_0_l, Z.mod_0_l by lia. case_decide; lia.
  - rewrite Nat2Z.inj_succ in *. rewrite <-Z.add_1_r in *. rewrite total_succ, IH by (done || lia).
    cbn [hits]. by rewrite Nat2Z.inj_succ, <-Z.add_1_r.
Qed.

Lemma hits_mono c offs n n' : (n ≤ n')%nat → 0 ≤ hits c offs n' - hits c offs n ≤ Z.of_nat n' - Z.of_nat n.
Proof. induction 1 as [|n' _ IH]; [lia|]. cbn [hits]. case_decide; lia. Qed.

(** The wrapped running sum is the difference of the two totals. *)
Lemma matchesIn_total c lo hi :
  matchesIn c lo hi = u64 (total (cycle c) (offsets c) hi - total (cycle c) (offsets c) lo).
Proof.
  unfold matchesIn. assert (Hf : ∀ offs a, foldl (λ sum o, sum +ᵤ (countUpto hi o (cycle c) -ᵤ countUpto lo o (cycle c)))
      (u64 a) offs = u64 (a + (total (cycle c) offs hi - total (cycle c) offs lo))).
  { induction offs as [|o offs IH]; intros a; simpl; [f_equal; lia|].
    replace (u64 a +ᵤ (countUpto hi o (cycle c) -ᵤ countUpto lo o (cycle c)))
      with (u64 (a + (countUpto hi o (cycle c) - countUpto lo o (cycle c)))).
    - rewrite IH. f_equal. lia.
    - unfold u64. by rewrite <-Zplus_mod. }
  change 0 with (u64 0) at 1. by rewrite Hf.
Qed.

Lemma dedup_spec prev l :
  StronglySorted Z.le l → (∀ p, prev = Some p → Forall (λ x, p ≤ x) l) →
  StronglySorted Z.lt (dedup prev l) ∧ (∀ p, prev = Some p → Forall (λ x, p < x) (dedup prev l)) ∧
  ∀ x, x ∈ dedup prev l ↔ x ∈ l ∧ prev ≠ Some x.
Proof.
  intros Hs. revert prev. induction Hs as [|o l Hs IH Ho]; intros prev Hp; simpl.
  { split_and!; [constructor|constructor|set_solver]. }
  case_decide as Hd.
  - destruct (IH prev) as (I1 & I2 & I3); [intros p ->; by destruct (Forall_cons_1 _ _ _ (Hp p eq_refl))|].
    split_and!; [done|done|]. intros x. rewrite I3, elem_of_cons. naive_solver.
  - destruct (IH (Some o)) as (I1 & I2 & I3); [by intros p [= <-]|].
    assert (Hlt : ∀ p, prev = Some p → p < o).
    { intros p ->. destruct (Forall_cons_1 _ _ _ (Hp p eq_refl)) as [Hle _].
      assert (p ≠ o) by congruence. lia. }
    split_and!.
    + constructor; [done|]. by apply I2.
    + intros p Hpp. constructor; [by apply Hlt|]. eapply Forall_impl; [by apply I2|]. simpl.
      intros x Hx. specialize (Hlt p Hpp). lia.
    + intros x. rewrite !elem_of_cons, I3. destruct (decide (x = o)) as [->|]; [tauto|].
      rewrite Forall_forall in Ho. split.
      * intros [?|[Hx _]]; [done|]. split; [by right|]. intros Hpx. specialize (Hlt x Hpx). specialize (Ho x Hx). lia.
      * intros [[|Hx] Hne]; [done|]. right. split; [done|congruence].
Qed.

(** The offsets a pattern keeps: reduced, in ascending order, without repeats. *)
Definition pattern (c : Z) (offs : list Z) : list Z := (λ o, o mod c) <$> offs.

Lemma NewCronCore_offsets c0 offs : 0 ≤ c0 →
  let core := NewCronCore c0 offs in
  cycle core = Z.max c0 1 ∧ StronglySorted Z.lt (offsets core) ∧ NoDup (offsets core) ∧
  Forall (λ o, 0 ≤ o < cycle core) (offsets core) ∧ ∀ x, x ∈ offsets core ↔ x ∈ pattern (cycle core) offs.
Proof.
  intros Hc. unfold NewCronCore. set (c := if c0 <? 1 then 1 else c0). simpl.
  assert (Hce : c = Z.max c0 1) by (unfold c; destruct (Z.ltb_spec c0 1); lia).
  destruct (dedup_spec None (sortUint64 (pattern c offs))) as (D1 & _ & D3); [|done|].
  { apply StronglySorted_merge_sort; apply _. }
  assert (Hel : ∀ x, x ∈ dedup None (sortUint64 (pattern c offs)) ↔ x ∈ pattern c offs).
  { intros x. rewrite D3. unfold sortUint64. rewrite merge_sort_Permutation. naive_solver. }
  change ((λ o, o mod c) <$> offs) with (pattern c offs).
  split_and!; [done|done| | |done].
  - clear -D1. induction D1 as [|x l _ IH Hx]; constructor; [|done].
    rewrite Forall_forall in Hx. intros Hin%Hx. lia.
  - apply Forall_forall. intros x (o & -> & _)%Hel%list_elem_of_fmap. apply Z.mod_pos_bound. lia.
Qed.

Lemma hits_ext c offs offs' n : (∀ x, x ∈ offs ↔ x ∈ offs') → hits c offs n = hits c offs' n.
Proof.
  intros He. induction n as [|n IH]; [done|]. cbn [hits]. rewrite IH. f_equal.
  destruct (decide (Z.of_nat (S n) mod c ∈ offs)), (decide (Z.of_nat (S n) mod c ∈ offs')); naive_solver.
Qed.

Definition cron_at (c : Z) (os : list Z) (m : Z) (k : nat) (x : CronCell) : Prop :=
  let h := hits c os (Z.to_nat m) in
  cron_core x = mkCron c os m h ∧ cell_value (cron_cell x) = h ∧ cell_edges (cron_cell x) = k.

Lemma cron_step c os m k x now :
  NoDup os → Forall (λ o, 0 ≤ o < c) os → 0 ≤ m → cron_at c os m k x → 0 ≤ now → m `max` now < two64 →
  cron_at c os (m `max` now) (if (CronCell_Tick x now).2 then S k else k) (CronCell_Tick x now).1.
Proof.
  intros Hnd Ho Hm (Hcore & Hv & Hk) Hnow Hb. unfold CronCell_Tick, CronCore_Tick. rewrite Hcore. simpl.
  destruct (Z.leb_spec now m).
  - simpl. rewrite Z.max_l by done. unfold cron_at. simpl. unfold Cell_Set.
    rewrite decide_True by done. by split_and!.
  - rewrite Z.max_r in * by lia.
    assert (Hf : matchesIn (mkCron c os m (hits c os (Z.to_nat m))) m now = hits c os (Z.to_nat now) - hits c os (Z.to_nat m)).
    { rewrite matchesIn_total. simpl. pose proof (total_hits c os (Z.to_nat m) Hnd Ho) as H1.
      pose proof (total_hits c os (Z.to_nat now) Hnd Ho) as H2. rewrite Z2Nat.id in H1, H2 by lia.
      rewrite H1, H2 by lia. pose proof (hits_mono c os (Z.to_nat m) (Z.to_nat now) ltac:(lia)).
      apply u64_small. zrange. }
    rewrite Hf. pose proof (hits_mono c os (Z.to_nat m) (Z.to_nat now) ltac:(lia)).
    pose proof (hits_mono c os 0 (Z.to_nat now) ltac:(lia)) as Hpos. simpl in Hpos.
    destruct (Z.eqb_spec (hits c os (Z.to_nat now) - hits c os (Z.to_nat m)) 0) as [Heq|Hne]; simpl;
      unfold cron_at, Cell_Set; simpl.
    + rewrite decide_True by (rewrite Hv; lia). split_and!; [f_equal; lia|lia|done].
    + rewrite u64_small by zrange. rewrite decide_False by (rewrite Hv; lia). simpl.
      split_and!; [f_equal; lia|lia|by rewrite Hk].
Qed.

(** First of a sorted block at or after [start]. *)
Lemma first_from_spec start block os :
  StronglySorted Z.lt os → Forall (λ o, 0 ≤ o ∧ 0 ≤ block ∧ block + o < two64) os →
  match first_from start block os with
  | Some cand => ∃ o, o ∈ os ∧ cand = block + o ∧ start ≤ cand ∧ ∀ o', o' ∈ os → start ≤ block + o' → cand ≤ block + o'
  | None => ∀ o, o ∈ os → block + o < start
  end.
Proof.
  intros Hs. induction Hs as [|o os Hs IH Ho]; intros Hr; simpl; [set_solver|].
  apply Forall_cons in Hr as [Hr Hr']. rewrite u64_small by zrange.
  destruct (Z.leb_spec start (block + o)) as [Hle|Hlt].
  - exists o. split_and!; [by left|done|done|]. intros o' [->|Hin]%elem_of_cons _; [lia|].
    rewrite Forall_forall in Ho. specialize (Ho o' Hin). lia.
  - specialize (IH Hr'). destruct (first_from start block os) as [cand|].
    + destruct IH as (o' & H1 & H2 & H3 & H4). exists o'. split_and!; [by right|done|done|].
      intros o'' [->|Hin]%elem_of_cons; [lia|auto].
    + intros o' [->|Hin]%elem_of_cons; [lia|auto].
Qed.

(** A cron source counts every tick its pattern names, once, however the
    clock jumps: after any ticks its count and its cell are the number of ticks
    [m] up to the latest one with [m mod cycle] among the reduced offsets,
    dependents were invalidated once per tick that reported a fire, and
    [NextFire] is the first matching tick after the latest one (absent exactly
    when there are no offsets), two cycles short of the 64-bit clock. *)
Theorem Cron_counts_matches c0 offs nows :
  0 ≤ c0 → Forall (λ n, 0 ≤ n) nows → latest nows + 2 * Z.max c0 1 < two64 →
  let c := Z.max c0 1 in
  let '(x, es) := ticks CronCell_Tick (NewCronCell c0 offs) nows in
  cron_count (cron_core x) = hits c (pattern c offs) (Z.to_nat (latest nows)) ∧
  cell_value (cron_cell x) = cron_count (cron_core x) ∧
  cell_edges (cron_cell x) = length (filter Is_true es) ∧
  match CronCore_NextFire (cron_core x) with
  | Some f => latest nows < f ∧ f mod c ∈ pattern c offs ∧
              ∀ m, latest nows < m → m mod c ∈ pattern c offs → f ≤ m
  | None => offs = []
  end.
Proof.
  intros Hc0 Hn Hb c. fold c in Hb. destruct (NewCronCore_offsets c0 offs Hc0) as (O1 & O2 & O3 & O4 & O5).
  fold c in O1. rewrite O1 in O4, O5. set (os := offsets (NewCronCore c0 offs)) in *.
  pose proof (ticks_inv CronCell_Tick (λ m k x, 0 ≤ m ∧ cron_at c os m k x) (two64 - 2 * c)) as Hrun.
  specialize (Hrun ltac:(intros m k s now [Hm Hi] H0 Hle; split; [lia|by apply cron_step; try lia])).
  specialize (Hrun nows 0 0%nat (NewCronCell c0 offs)). fold (latest nows) in Hrun. simpl in Hrun.
  destruct Hrun as [Hm (H1 & H2 & H3)]; [|done|lia|].
  { split; [done|]. unfold cron_at. simpl. split_and!; [|done|done]. by rewrite <-O1. }
  destruct (ticks _ _ nows) as [x es]. simpl in *. rewrite H1. simpl.
  rewrite (hits_ext c os (pattern c offs)) in * by done. split_and!; [done|done|done|].
  unfold CronCore_NextFire. simpl. set (m := latest nows) in *.
  rewrite (u64_small (m + 1)) by zrange.
  pose proof (Z.div_mod (m + 1) c ltac:(lia)) as Hdm. pose proof (Z.mod_pos_bound (m + 1) c ltac:(lia)) as Hmb.
  assert (Hq : 0 ≤ (m + 1) / c) by (apply Z.div_pos; lia).
  set (base := (m + 1) / c * c). assert (Hbase : 0 ≤ base ≤ m + 1) by (unfold base; lia).
  rewrite (u64_small base) by zrange. rewrite (u64_small (1 * c)), Z.mul_1_l by zrange.
  rewrite (u64_small (base + c)) by zrange.
  assert (Hr1 : Forall (λ o, 0 ≤ o ∧ 0 ≤ base ∧ base + o < two64) os).
  { eapply Forall_impl; [exact O4|]. simpl. intros. lia. }
  assert (Hr2 : Forall (λ o, 0 ≤ o ∧ 0 ≤ base + c ∧ base + c + o < two64) os).
  { eapply Forall_impl; [exact O4|]. simpl. intros. lia. }
  assert (Hmod : ∀ q o, o ∈ os → (q * c + o) mod c = o).
  { intros q o Hin. rewrite Forall_forall in O4. specialize (O4 o Hin).
    rewrite Z.add_comm, Z.mod_add, Z.mod_small by lia. done. }
  pose proof (first_from_spec (m + 1) base os O2 Hr1) as F1.
  pose proof (first_from_spec (m + 1) (base + c) os O2 Hr2) as F2.
  (* a later match is in this block or past it *)
  assert (Hsplit : ∀ m', m < m' → m' mod c ∈ os → m' = base + m' mod c ∨ base + c + m' mod c ≤ m').
  { intros m' Hm' _. pose proof (Z.div_mod m' c ltac:(lia)).
    assert ((m + 1) / c ≤ m' / c) by (apply Z.div_le_mono; lia). unfold base.
    destruct (decide ((m + 1) / c = m' / c)); [left; nia|right; nia]. }
  destruct os as [|o0 os0] eqn:Eos.
  { destruct offs as [|o offs]; [done|]. exfalso.
    apply (not_elem_of_nil (o mod c)), O5. unfold pattern. simpl. by left. }
  rewrite <-Eos in *. destruct (first_from (m + 1) base os) as [f|].
  - destruct F1 as (o & Ho & -> & Hge & Hmin). split_and!.
    + lia.
    + apply O5. unfold base. by rewrite Hmod.
    + intros m' Hm' Hin%O5. destruct (Hsplit m' Hm' Hin) as [Heq|Hle].
      * rewrite Heq. apply Hmin; [done|]. lia.
      * rewrite Forall_forall in O4. pose proof (O4 _ Hin). pose proof (O4 _ Ho). lia.
  - destruct (first_from (m + 1) (base + c) os) as [f|].
    + destruct F2 as (o & Ho & -> & Hge & Hmin). split_and!.
      * lia.
      * apply O5. replace (base + c + o) with (((m + 1) / c + 1) * c + o) by (unfold base; lia). by rewrite Hmod.
      * intros m' Hm' Hin%O5. destruct (Hsplit m' Hm' Hin) as [Heq|Hle].
        -- specialize (F1 _ Hin). lia.
        -- etrans; [|exact Hle]. apply Hmin; [done|]. rewrite Forall_forall in O4. specialize (O4 _ Hin). unfold base in *. nia.
    + exfalso. assert (Hin : o0 ∈ os) by (rewrite Eos; by left). specialize (F2 _ Hin).
      rewrite Forall_forall in O4. specialize (O4 _ Hin). unfold base in *. nia.
Qed.

Lemma Cron_counts_matches_witness :
  cron_count (cron_core (ticks CronCell_Tick (NewCronCell 10 [13; 5; 3]) [4; 27; 27]).1) = 6 ∧
  CronCore_NextFire (cron_core (ticks CronCell_Tick (NewCronCell 10 [13; 5; 3]) [4; 27; 27]).1) = Some 33.
Proof.
  pose proof (Cron_counts_matches 10 [13; 5; 3] [4; 27; 27] ltac:(lia) ltac:(repeat constructor; lia)
    ltac:(vm_compute; reflexivity)) as H.
  split; [|reflexivity]. destruct (ticks _ _ _) as [x es]. destruct H as [H _]. cbn [fst]. rewrite H. reflexivity.
Defined.
