(* ===== verification/Registers.v ===== *)
(** * Registers: multi-value register, PN counter, cell bridge (registers.go)

    The register keeps values and their stamps in parallel slices; the counter
    keeps one int64 component per peer and direction. *)

From S2P Require Import Prelude Hlc.

(** ** Multi-value register *)

Section mv.
Context {V : Type}.

(** [registers.go] [type MvRegister] *)
Record MvRegister := mkMv { stamps : list HlcStamp; values : list V }.

(** [registers.go] [NewMvRegister] *)
Definition NewMvRegister : MvRegister := mkMv [] [].

(** [registers.go] [containsAllStamps] *)
Definition containsAllStamps (observed : gset HlcStamp) (want : list HlcStamp) : bool :=
  forallb (λ s, bool_decide (s ∈ observed)) want.

(** The stamps a write did not observe; with no observed set, all of them.
    [registers.go] [lines 50-60 MvRegister.Write] *)
Definition concurrent (observed : option (gset HlcStamp)) (l : list HlcStamp) : nat :=
  length (filter (λ s, Is_true (match observed with None => true | Some o => bool_decide (s ∉ o) end)) l).

(** [registers.go] [MvRegister.Write] *)
Definition Mv_Write (r : MvRegister) (value : V) (stamp : HlcStamp)
    (observedStamps : option (gset HlcStamp)) : MvRegister :=
  let r :=
    if match observedStamps with Some o => containsAllStamps o (stamps r) | None => false end then mkMv [] []
    else if 0 <? length (stamps r) then
      if concurrent observedStamps (stamps r) =? 0 then mkMv [] [] else r
    else r in
  mkMv (stamps r ++ [stamp]) (values r ++ [value]).

(** [registers.go] [MvRegister.containsStamp] *)
Definition containsStamp (r : MvRegister) (stamp : HlcStamp) : bool := bool_decide (stamp ∈ stamps r).

(** [registers.go] [MvRegister.Merge] *)
Definition Mv_Merge (r other : MvRegister) : MvRegister :=
  foldl (λ r '(stamp, v),
    if containsStamp r stamp then r else mkMv (stamps r ++ [stamp]) (values r ++ [v]))
    r (zip (stamps other) (values other)).

(** [registers.go] [MvRegister.ObservedStamps] *)
Definition ObservedStamps (r : MvRegister) : gset HlcStamp := list_to_set (stamps r).

(** *** What it keeps *)

(** The values with their stamps, as a map. *)
Definition entries (r : MvRegister) : gmap HlcStamp V := list_to_map (zip (stamps r) (values r)).

Definition mv_wf (r : MvRegister) : Prop := length (stamps r) = length (values r) ∧ NoDup (stamps r).

Lemma entries_snoc l v s x :
  length l = length v → s ∉ l → entries (mkMv (l ++ [s]) (v ++ [x])) = <[s := x]> (entries (mkMv l v)).
Proof.
  intros Hl Hs. unfold entries. simpl. rewrite zip_with_app by done. simpl.
  rewrite list_to_map_app. simpl. apply map_eq. intros i. rewrite lookup_union. destruct (decide (i = s)) as [->|].
  - rewrite not_elem_of_list_to_map_1; [by rewrite !lookup_insert_eq|]. by rewrite fst_zip by lia.
  - rewrite !lookup_insert_ne, lookup_empty by done. by rewrite right_id by apply _.
Qed.

Lemma entries_lookup r s : mv_wf r → s ∈ stamps r ↔ is_Some (entries r !! s).
Proof.
  intros [Hl Hn]. unfold entries. rewrite <-elem_of_dom, dom_list_to_map, elem_of_list_to_set, fst_zip by lia. done.
Qed.

Lemma Mv_Write_entries r v s o :
  mv_wf r → s ∉ stamps r →
  mv_wf (Mv_Write r v s o) ∧
  entries (Mv_Write r v s o) =
    <[s := v]> (if match o with Some o => containsAllStamps o (stamps r) | None => false end then ∅ else entries r).
Proof.
  intros [Hl Hn] Hs.
  assert (Hone : mv_wf (mkMv [s] [v]) ∧ entries (mkMv [s] [v]) = <[s := v]> ∅)
    by (by split; [split; [done|apply NoDup_singleton]|]).
  assert (Hsnoc : mv_wf (mkMv (stamps r ++ [s]) (values r ++ [v])) ∧
    entries (mkMv (stamps r ++ [s]) (values r ++ [v])) = <[s := v]> (entries r)).
  { split; [split; simpl|destruct r; by apply entries_snoc].
    - rewrite !length_app. simpl. lia.
    - apply NoDup_app. split_and!; [done|set_solver|apply NoDup_singleton]. }
  unfold Mv_Write. destruct (match o with Some _ => _ | None => _ end) eqn:Eo; simpl; [done|].
  destruct (Nat.ltb_spec 0 (length (stamps r))); [|done].
  destruct (Nat.eqb_spec (concurrent o (stamps r)) 0) as [E|]; [|done].
  exfalso. unfold concurrent in E. apply length_zero_iff_nil in E.
  destruct o as [o|].
  - apply not_true_iff_false in Eo. apply Eo. unfold containsAllStamps. apply Is_true_true, forallb_True, Forall_forall.
    intros x Hx. apply bool_decide_spec. destruct (decide (x ∈ o)); [done|]. exfalso.
    apply (not_elem_of_nil x). rewrite <-E. apply list_elem_of_filter. by rewrite bool_decide_spec.
  - destruct (stamps r) as [|x l]; [simpl in *; lia|]. apply (not_elem_of_nil x). rewrite <-E.
    apply list_elem_of_filter. split; [done|by left].
Qed.

Lemma Mv_Merge_entries r other :
  mv_wf r → mv_wf other → mv_wf (Mv_Merge r other) ∧ entries (Mv_Merge r other) = entries r ∪ entries other.
Proof.
  intros Hr [Ho Hno]. unfold Mv_Merge, entries at 3. revert Ho Hno.
  generalize (stamps other) (values other). intros l. revert r Hr.
  induction l as [|s l IH]; intros r Hr [|v vs] Ho Hno; simpl in *; try lia; [by rewrite (right_id_L ∅ (∪))|].
  apply NoDup_cons in Hno as [Hs Hno]. destruct (containsStamp r s) eqn:Hin;
    unfold containsStamp in Hin; [apply bool_decide_eq_true in Hin|apply bool_decide_eq_false in Hin].
  - destruct (IH r Hr vs ltac:(lia) Hno) as [I1 I2]. split; [done|]. rewrite I2.
    apply entries_lookup in Hin; [|done]. destruct Hin as [x Hx].
    apply map_eq. intros i. rewrite !lookup_union. destruct (decide (i = s)) as [->|].
    + rewrite Hx. by destruct (list_to_map _ !! _), (<[_ := _]> _ !! _).
    + by rewrite lookup_insert_ne.
  - assert (Hw : mv_wf (mkMv (stamps r ++ [s]) (values r ++ [v])) ∧
      entries (mkMv (stamps r ++ [s]) (values r ++ [v])) = <[s := v]> (entries r)).
    { destruct Hr as [Hl Hn]. split; [split; simpl|destruct r; by apply entries_snoc].
      - rewrite !length_app. simpl. lia.
      - apply NoDup_app. split_and!; [done|set_solver|apply NoDup_singleton]. }
    destruct Hw as [Hw He]. destruct (IH _ Hw vs ltac:(lia) Hno) as [I1 I2]. split; [done|]. rewrite I2, He.
    rewrite entries_lookup in Hin by done. apply map_eq. intros i. rewrite !lookup_union.
    destruct (decide (i = s)) as [->|]; [|by rewrite !lookup_insert_ne].
    rewrite !lookup_insert_eq. apply eq_None_not_Some in Hin. rewrite Hin. by destruct (list_to_map _ !! _).
Qed.

(** Stamps are unique per event: [vals] is the value written under each. *)
Definition mv_vals (vals : HlcStamp → V) (r : MvRegister) : Prop :=
  mv_wf r ∧ map_wf (λ s v, v = vals s) (entries r).

#[export] Instance first_join (vals : HlcStamp → V) s : Join V (λ x _, x) (λ v, v = vals s).
Proof. split; naive_solver congruence. Qed.

Lemma union_map_join (m1 m2 : gmap HlcStamp V) : m1 ∪ m2 = map_join (λ x _, x) m1 m2.
Proof. done. Qed.

Lemma mv_deliver vals l r :
  mv_vals vals r → Forall (mv_vals vals) l →
  mv_wf (foldl Mv_Merge r l) ∧
  entries (foldl Mv_Merge r l) = foldl (map_join (λ x _, x)) (entries r) (entries <$> l).
Proof.
  intros Hr Hl. revert r Hr. induction Hl as [|o l Ho _ IH]; intros r [Hr Hv]; [done|]. simpl.
  destruct Ho as [Ho Hvo]. destruct (Mv_Merge_entries r o Hr Ho) as [Hw He].
  destruct (IH (Mv_Merge r o)) as [I1 I2].
  - split; [done|]. rewrite He, union_map_join. by apply (join_wf (Join := map_join_join _ _)).
  - split; [done|]. by rewrite I2, He, union_map_join.
Qed.

(** The multi-value register is a set of stamped values.  Stamps and values
    stay index-parallel and distinct; a write under a fresh stamp adds its value,
    replacing everything exactly when it observed every stamp held; and merging
    replicas yields the union, whatever their order and repetition. *)
Theorem MvRegister_is_stamped_set vals r l1 l2 s v o :
  Forall (mv_vals vals) (r :: l1 ++ l2) → s ∉ stamps r →
  (∀ m, m ∈ entries <$> l1 ↔ m ∈ entries <$> l2) →
  (mv_wf (Mv_Write r v s o) ∧
   entries (Mv_Write r v s o) =
     <[s := v]> (if match o with Some o => containsAllStamps o (stamps r) | None => false end
                 then ∅ else entries r)) ∧
  (∀ other, other ∈ l1 → entries (Mv_Merge r other) = entries r ∪ entries other) ∧
  mv_wf (foldl Mv_Merge r l1) ∧ entries (foldl Mv_Merge r l1) = entries (foldl Mv_Merge r l2).
Proof.
  rewrite Forall_cons, Forall_app. intros (Hr & H1 & H2) Hs Heq. split_and!.
  - by apply Mv_Write_entries; [apply Hr|].
  - by apply Mv_Write_entries; [apply Hr|].
  - intros other Hin. rewrite Forall_forall in H1. apply Mv_Merge_entries; [apply Hr|by apply H1].
  - by eapply mv_deliver.
  - destruct (mv_deliver vals l1 r Hr H1) as [_ ->]. destruct (mv_deliver vals l2 r Hr H2) as [_ ->].
    apply (foldl_join_set (Join0 := map_join_join (λ x _, x) (λ s v, v = vals s))); [apply Hr| | |done];
      apply Forall_fmap; (eapply Forall_impl; [done|]); by intros ? [? ?].
Qed.
End mv.
Arguments MvRegister : clear implicits.

Definition mv_stamp (n p : Z) : HlcStamp := mkHlcStamp n 0 p.
Definition mv_demo1 : MvRegister nat := Mv_Write NewMvRegister 7 (mv_stamp 1 1) None.
Definition mv_demo2 : MvRegister nat := Mv_Write mv_demo1 8 (mv_stamp 2 2) None.
Definition mv_demo_vals (s : HlcStamp) : nat := if decide (s = mv_stamp 1 1) then 7 else 8.

Lemma MvRegister_is_stamped_set_witness :
  entries (foldl Mv_Merge mv_demo1 [mv_demo2; mv_demo1]) = entries (foldl Mv_Merge mv_demo1 [mv_demo1; mv_demo2; mv_demo2]).
Proof.
  assert (Hwf : ∀ r, r ∈ [mv_demo1; mv_demo2] → mv_vals mv_demo_vals r).
  { intros r Hr. assert (Hd : mv_wf r) by (split; [|apply (bool_decide_unpack _)];
      repeat (apply elem_of_cons in Hr as [->|Hr]; [by vm_compute|]); by apply elem_of_nil in Hr).
    split; [done|]. intros s v Hsv. apply elem_of_map_to_list in Hsv.
    repeat (apply elem_of_cons in Hr as [->|Hr]; [vm_compute in Hsv;
      repeat (apply elem_of_cons in Hsv as [[= -> ->]|Hsv]; [done|]); by apply elem_of_nil in Hsv|]).
    by apply elem_of_nil in Hr. }
  eapply (MvRegister_is_stamped_set mv_demo_vals mv_demo1 [mv_demo2; mv_demo1] [mv_demo1; mv_demo2; mv_demo2]
    (mv_stamp 9 9) 9 None).
  - cbn [app]. repeat (apply Forall_cons_2; [apply Hwf; set_solver|]). apply Forall_nil_2.
  - apply (bool_decide_unpack _). by vm_compute.
  - intros m. rewrite !fmap_cons, fmap_nil, !elem_of_cons. tauto.
Defined.

(** A causal write is documented to leave one value; merging a replica that has
    not seen it brings the overwritten value back. *)
Lemma merge_resurrects_overwritten :
  let w := Mv_Write mv_demo1 8 (mv_stamp 2 2) (Some (ObservedStamps mv_demo1)) in
  values w = [8] ∧ values (Mv_Merge w mv_demo1) = [8; 7].
Proof. by split; vm_compute. Qed.

(** ** PN counter *)

(** [registers.go] [type PnCounter] *)
Record PnCounter := mkPn { pn_peer : PeerId; positive : gmap PeerId Z; negative : gmap PeerId Z }.

(** [registers.go] [NewPnCounter] *)
Definition NewPnCounter (peer : PeerId) : PnCounter := mkPn peer ∅ ∅.

(** A missing component reads as zero. *)
Definition comp (m : gmap PeerId Z) (p : PeerId) : Z := default 0%Z (m !! p).

(** [registers.go] [PnCounter.IncrementBy] *)
Definition IncrementBy (c : PnCounter) (amount : Z) : PnCounter :=
  mkPn (pn_peer c) (<[pn_peer c := comp (positive c) (pn_peer c) +ₛ amount]> (positive c)) (negative c).
(** [registers.go] [PnCounter.Increment] *)
Definition Increment (c : PnCounter) : PnCounter := IncrementBy c 1.
(** [registers.go] [PnCounter.DecrementBy] *)
Definition DecrementBy (c : PnCounter) (amount : Z) : PnCounter :=
  mkPn (pn_peer c) (positive c) (<[pn_peer c := comp (negative c) (pn_peer c) +ₛ amount]> (negative c)).
(** [registers.go] [PnCounter.Decrement] *)
Definition Decrement (c : PnCounter) : PnCounter := DecrementBy c 1.

(** [order1], [order2] are the orders in which Go ranges over the two maps.
    [registers.go] [PnCounter.Value] *)
Definition ValueIn (order1 order2 : list (PeerId * Z)) : Z :=
  foldl (λ sum pv, sum -ₛ pv.2) (foldl (λ sum pv, sum +ₛ pv.2) 0%Z order1) order2.
Definition PnValue (c : PnCounter) : Z :=
  ValueIn (map_to_list (positive c)) (map_to_list (negative c)).

(** One of the two loops of [Merge].
    [registers.go] [PnCounter.Merge] *)
Definition merge_component (m : gmap PeerId Z) (l : list (PeerId * Z)) : gmap PeerId Z :=
  foldl (λ m pv, if (comp m pv.1 <? pv.2)%Z then <[pv.1 := pv.2]> m else m) m l.
(** [registers.go] [PnCounter.Merge] *)
Definition PnMerge (c other : PnCounter) : PnCounter :=
  mkPn (pn_peer c) (merge_component (positive c) (map_to_list (positive other)))
    (merge_component (negative c) (map_to_list (negative other))).
(** [registers.go] [PnCounter.Copy] *)
Definition Copy (c : PnCounter) : PnCounter := mkPn (pn_peer c) (positive c) (negative c).

Local Open Scope Z_scope.

Definition grow_only (m : gmap PeerId Z) : Prop := ∀ p v, m !! p = Some v → 0 ≤ v.
Definition pn_wf (c : PnCounter) : Prop := grow_only (positive c) ∧ grow_only (negative c).

Lemma comp_nonneg m p : grow_only m → 0 ≤ comp m p.
Proof. unfold comp. intros Hm. destruct (m !! p) eqn:E; simpl; [by eapply Hm|done]. Qed.

(** Merging is the componentwise maximum, in any iteration order. *)
Lemma merge_component_comp m l p : grow_only m → NoDup l.*1 → Forall (λ pv, 0 ≤ pv.2) l →
  grow_only (merge_component m l) ∧
  comp (merge_component m l) p = comp m p `max` default 0 ((list_to_map l : gmap PeerId Z) !! p).
Proof.
  revert m. induction l as [|[q v] l IH]; intros m Hm Hnd Hl; simpl.
  - split; [done|]. rewrite lookup_empty. simpl. pose proof (comp_nonneg m p Hm). lia.
  - simpl in Hnd. apply NoDup_cons in Hnd as [Hq Hnd]. apply Forall_cons in Hl as [Hv Hl]. simpl in *.
    set (m' := if comp m q <? v then <[q := v]> m else m).
    assert (Hm' : grow_only m').
    { unfold m'. case_match; [|done]. intros i x [[<- <-]|[_ Hx]]%lookup_insert_Some; [done|by eapply Hm]. }
    destruct (IH m' Hm' Hnd Hl) as [I1 I2]. split; [done|]. rewrite I2.
    destruct (decide (q = p)) as [->|Hne].
    + rewrite lookup_insert_eq. rewrite not_elem_of_list_to_map_1 by done. simpl.
      pose proof (comp_nonneg m p Hm). unfold m'. destruct (Z.ltb_spec (comp m p) v); [|lia].
      unfold comp at 1. rewrite lookup_insert_eq. simpl. lia.
    + rewrite lookup_insert_ne by done. f_equal. unfold m'. case_match; [|done].
      unfold comp. by rewrite lookup_insert_ne.
Qed.

Lemma grow_only_list m : grow_only m → Forall (λ pv : PeerId * Z, 0 ≤ pv.2) (map_to_list m).
Proof. intros Hm. apply Forall_forall. intros [p v] Hpv%elem_of_map_to_list. by eapply Hm. Qed.

Lemma merge_component_max m1 m2 p : grow_only m1 → grow_only m2 →
  grow_only (merge_component m1 (map_to_list m2)) ∧
  comp (merge_component m1 (map_to_list m2)) p = comp m1 p `max` comp m2 p.
Proof.
  intros H1 H2. destruct (merge_component_comp m1 (map_to_list m2) p H1) as [M1 M2].
  - apply NoDup_fst_map_to_list.
  - by apply grow_only_list.
  - split; [done|]. rewrite M2. unfold comp. by rewrite list_to_map_to_list.
Qed.

(** *** The value *)

Fixpoint sumZ (l : list Z) : Z := match l with [] => 0 | x :: l => x + sumZ l end.

Lemma sumZ_perm l l' : l ≡ₚ l' → sumZ l = sumZ l'.
Proof. induction 1; simpl; lia. Qed.
#[export] Instance sumZ_proper : Proper ((≡ₚ) ==> (=)) sumZ.
Proof. intros l l'. apply sumZ_perm. Qed.

(** The wrapped running sums are the wrapped sum. *)
Lemma ValueIn_sum o1 o2 : ValueIn o1 o2 = i64 (sumZ o1.*2 - sumZ o2.*2).
Proof.
  unfold ValueIn.
  assert (Hp : ∀ l a, foldl (λ sum (pv : PeerId * Z), sum +ₛ pv.2) (i64 a) l = i64 (a + sumZ l.*2)).
  { induction l as [|pv l IH]; intros a; csimpl; [f_equal; lia|]. rewrite i64_add_l, IH. f_equal. lia. }
  assert (Hn : ∀ l a, foldl (λ sum (pv : PeerId * Z), sum -ₛ pv.2) (i64 a) l = i64 (a - sumZ l.*2)).
  { induction l as [|pv l IH]; intros a; csimpl; [f_equal; lia|].
    replace (i64 a - pv.2) with (i64 a + - pv.2) by lia. rewrite i64_add_l, IH. f_equal. lia. }
  change 0 with (i64 0) at 1. by rewrite Hp, Hn.
Qed.

Lemma comp_sum_aux m (ps : list PeerId) : NoDup ps → (∀ p, p ∈ dom m → p ∈ ps) →
  sumZ (map_to_list m).*2 = sumZ (comp m <$> ps).
Proof.
  intros Hnd. induction m as [|i x m Hi IH] using map_ind; intros Hd.
  - clear. induction ps; csimpl; [done|]. unfold comp at 1. rewrite lookup_empty. csimpl. csimpl in IHps. lia.
  - rewrite map_to_list_insert by done. csimpl. rewrite IH by (intros p Hp; apply Hd; set_solver).
    assert (Hin : i ∈ ps) by (apply Hd; set_solver). clear IH Hd.
    induction Hnd as [|p ps Hp Hnd IH]; csimpl; [by apply elem_of_nil in Hin|].
    apply elem_of_cons in Hin as [<-|Hin].
    + unfold comp at 1 3. rewrite lookup_insert_eq, Hi. csimpl.
      replace (comp (<[i := x]> m) <$> ps) with (comp m <$> ps); [done|].
      apply list_fmap_ext. intros j q Hq%list_elem_of_lookup_2. unfold comp. rewrite lookup_insert_ne; [done|].
      intros <-. done.
    + assert (i ≠ p) by (intros ->; done). unfold comp at 1 3. rewrite lookup_insert_ne by done.
      rewrite <-IH by done. lia.
Qed.

(** The sum only sees components: peers outside [ps] hold zero. *)
Lemma comp_sum m (ps : list PeerId) : NoDup ps → (∀ p, p ∉ ps → comp m p = 0) →
  sumZ (map_to_list m).*2 = sumZ (comp m <$> ps).
Proof.
  intros Hnd Hz. set (extra := filter (λ p, p ∉ ps) (elements (dom m))).
  rewrite (comp_sum_aux m (ps ++ extra)).
  - rewrite fmap_app. assert (He : ∀ p, p ∈ extra → comp m p = 0) by (intros p [? _]%list_elem_of_filter; auto).
    generalize (comp m <$> ps). clear -He. induction extra as [|p l IH]; intros k; [by rewrite app_nil_r|].
    csimpl. rewrite (sumZ_perm (k ++ comp m p :: (comp m <$> l)) (comp m p :: k ++ (comp m <$> l))) by solve_Permutation.
    csimpl. rewrite IH by (intros; apply He; by right). rewrite He by (by left). lia.
  - apply NoDup_app. split_and!; [done| |apply NoDup_filter, NoDup_elements].
    by intros p Hp [? _]%list_elem_of_filter.
  - intros p Hp. apply elem_of_app. destruct (decide (p ∈ ps)); [by left|right].
    apply list_elem_of_filter. by rewrite elem_of_elements.
Qed.

(** *** Replicas that only touch their own component *)

Inductive pn_op := PnInc (amount : Z) | PnDec (amount : Z).
Definition pn_apply (c : PnCounter) (op : pn_op) : PnCounter :=
  match op with PnInc a => IncrementBy c a | PnDec a => DecrementBy c a end.
Definition increments (ops : list pn_op) : Z := sumZ (omap (λ o, match o with PnInc a => Some a | _ => None end) ops).
Definition decrements (ops : list pn_op) : Z := sumZ (omap (λ o, match o with PnDec a => Some a | _ => None end) ops).

Definition replica (r : PeerId * list pn_op) : PnCounter := foldl pn_apply (NewPnCounter r.1) r.2.
Definition grows (r : PeerId * list pn_op) : Prop :=
  Forall (λ o, 0 ≤ match o with PnInc a => a | PnDec a => a end) r.2 ∧
  increments r.2 ≤ max_i64 ∧ decrements r.2 ≤ max_i64.

Lemma replica_run ops c :
  Forall (λ o, 0 ≤ match o with PnInc a => a | PnDec a => a end) ops →
  pn_wf c → comp (positive c) (pn_peer c) + increments ops ≤ max_i64 →
  comp (negative c) (pn_peer c) + decrements ops ≤ max_i64 →
  pn_wf (foldl pn_apply c ops) ∧
  (∀ q, comp (positive (foldl pn_apply c ops)) q = comp (positive c) q + if decide (q = pn_peer c) then increments ops else 0) ∧
  (∀ q, comp (negative (foldl pn_apply c ops)) q = comp (negative c) q + if decide (q = pn_peer c) then decrements ops else 0).
Proof.
  intros Hops. revert c. induction Hops as [|o ops Ho Hops IH]; intros c Hw Hi Hd.
  { split_and!; [done|..]; intros q; csimpl; case_decide; unfold increments, decrements; csimpl; lia. }
  assert (Hpos : 0 ≤ increments ops ∧ 0 ≤ decrements ops).
  { clear -Hops. unfold increments, decrements. induction Hops as [|[a|a] ops Ha _ IH]; csimpl in *; lia. }
  destruct Hw as [Hw1 Hw2]. pose proof (comp_nonneg _ (pn_peer c) Hw1). pose proof (comp_nonneg _ (pn_peer c) Hw2).
  assert (Hset : ∀ m p a q, 0 ≤ comp m p + a ≤ max_i64 →
    comp (<[p := comp m p +ₛ a]> m) q = comp m q + if decide (q = p) then a else 0).
  { intros m p a q Hr. unfold comp at 1. case_decide; subst.
    - rewrite lookup_insert_eq. csimpl. apply i64_small. zrange.
    - rewrite lookup_insert_ne by done. unfold comp. lia. }
  assert (Hgrow : ∀ m p a, grow_only m → 0 ≤ comp m p + a ≤ max_i64 → grow_only (<[p := comp m p +ₛ a]> m)).
  { intros m p a Hm Hr i x [[<- <-]|[_ Hx]]%lookup_insert_Some; [|by eapply Hm]. rewrite i64_small by zrange. lia. }
  destruct o as [a|a]; csimpl in *; unfold increments, decrements in *; csimpl in *.
  - destruct (IH (IncrementBy c a)) as (I1 & I2 & I3).
    + split; [|done]. apply Hgrow; [done|lia].
    + csimpl. rewrite Hset, decide_True by (done || lia). lia.
    + csimpl. lia.
    + split_and!; [done|..]; intros q; rewrite ?I2, ?I3; csimpl; rewrite ?Hset by lia; case_decide; lia.
  - destruct (IH (DecrementBy c a)) as (I1 & I2 & I3).
    + split; [done|]. apply Hgrow; [done|lia].
    + csimpl. lia.
    + csimpl. rewrite Hset, decide_True by (done || lia). lia.
    + split_and!; [done|..]; intros q; rewrite ?I2, ?I3; csimpl; rewrite ?Hset by lia; case_decide; lia.
Qed.

Lemma replica_comp r : grows r → pn_wf (replica r) ∧
  (∀ q, comp (positive (replica r)) q = if decide (q = r.1) then increments r.2 else 0) ∧
  (∀ q, comp (negative (replica r)) q = if decide (q = r.1) then decrements r.2 else 0).
Proof.
  intros (H1 & H2 & H3). destruct (replica_run r.2 (NewPnCounter r.1) H1) as (R1 & R2 & R3);
    [by split; intros ??|done|done|]. split_and!; [done|..]; intros q; [rewrite R2|rewrite R3]; simpl;
    unfold comp; rewrite lookup_empty; simpl; lia.
Qed.

(** The merged component is the largest seen. *)
Lemma deliver_comp l c : pn_wf c → Forall pn_wf l →
  pn_wf (foldl PnMerge c l) ∧
  ∀ q, comp (positive (foldl PnMerge c l)) q = foldr Z.max (comp (positive c) q) ((λ o, comp (positive o) q) <$> l) ∧
       comp (negative (foldl PnMerge c l)) q = foldr Z.max (comp (negative c) q) ((λ o, comp (negative o) q) <$> l).
Proof.
  intros Hc Hl. revert c Hc. induction Hl as [|o l [Ho1 Ho2] _ IH]; intros c [Hc1 Hc2]; [done|]. cbn [foldl].
  destruct (IH (PnMerge c o)) as [I1 I2].
  { split; simpl; by eapply (merge_component_max _ _ 0). }
  split; [done|]. intros q. destruct (I2 q) as [-> ->]. simpl.
  rewrite (proj2 (merge_component_max _ _ q Hc1 Ho1)), (proj2 (merge_component_max _ _ q Hc2 Ho2)).
  assert (Hf : ∀ k a b, foldr Z.max (a `max` b) k = b `max` foldr Z.max a k)
    by (clear; induction k as [|z k IH]; intros a b; simpl; [lia|rewrite IH; lia]).
  by rewrite !Hf.
Qed.

Lemma foldr_max_is x k : 0 ≤ x → Forall (λ z, 0 ≤ z ≤ x) k → (x = 0 ∨ x ∈ k) → foldr Z.max 0 k = x.
Proof.
  intros Hx Hk Hin. assert (Hle : 0 ≤ foldr Z.max 0 k ≤ x) by (clear Hin; induction Hk; simpl in *; lia).
  destruct Hin as [->|Hin]; [lia|]. clear Hk Hx. apply proj2 in Hle. induction k as [|z k IH]; [by apply elem_of_nil in Hin|].
  apply elem_of_cons in Hin as [->|Hin]; simpl in *; [lia|]. specialize (IH Hin ltac:(lia)). lia.
Qed.

(** The PN counter counts every increment and decrement once.  When each peer
    edits its own replica, an observer that merges all of them (in any order, any
    number of times) reads the sum of all increments less the sum of all
    decrements, wrapped to 64 bits. *)
Theorem PnCounter_merge_counts_all p rs l :
  NoDup rs.*1 → Forall grows rs → (∀ c, c ∈ l ↔ c ∈ replica <$> rs) →
  PnValue (foldl PnMerge (NewPnCounter p) l) =
    i64 (sumZ ((λ r, increments r.2) <$> rs) - sumZ ((λ r, decrements r.2) <$> rs)).
Proof.
  intros Hnd Hg Hl. rewrite Forall_forall in Hg.
  assert (Hlw : Forall pn_wf l).
  { apply Forall_forall. intros c (r & -> & Hr)%Hl%list_elem_of_fmap. by apply replica_comp, Hg. }
  destruct (deliver_comp l (NewPnCounter p)) as [_ Hd]; [by split; intros ??|done|].
  assert (Hpos : ∀ (side : PnCounter → gmap PeerId Z) (net : list pn_op → Z) (m : gmap PeerId Z),
    (∀ ops, Forall (λ o, 0 ≤ match o with PnInc a => a | PnDec a => a end) ops → 0 ≤ net ops) →
    (∀ r q, r ∈ rs → comp (side (replica r)) q = if decide (q = r.1) then net r.2 else 0) →
    (∀ q, comp m q = foldr Z.max 0 ((λ o, comp (side o) q) <$> l)) →
    sumZ (map_to_list m).*2 = sumZ ((λ r, net r.2) <$> rs)).
  { intros side net m Hnet Hside Hm.
    assert (Hother : ∀ q r0, (∀ r, r ∈ rs → q = r.1 → r = r0) → (r0 ∈ rs ∧ q = r0.1) →
      comp m q = net r0.2).
    { intros q r0 Huniq [Hr0 ->]. rewrite Hm. pose proof (Hg _ Hr0) as (Hops & _).
      apply foldr_max_is; [by apply Hnet|..].
      - apply Forall_fmap, Forall_forall. intros c (r & -> & Hr)%Hl%list_elem_of_fmap. simpl.
        rewrite (Hside r) by done. pose proof (Hnet _ Hops). case_decide; [|lia].
        rewrite (Huniq r Hr) by done. lia.
      - right. apply list_elem_of_fmap. exists (replica r0). rewrite (Hside r0), decide_True by done.
        split; [done|]. apply Hl. by apply list_elem_of_fmap_2. }
    rewrite (comp_sum m rs.*1 Hnd).
    - f_equal. rewrite <-list_fmap_compose. apply list_fmap_ext. intros i r Hi%list_elem_of_lookup_2. simpl.
      apply Hother; [|done]. intros r' Hr' Heq. destruct r as [q ops], r' as [q' ops']. simpl in *. subst q'. f_equal.
      apply elem_of_Permutation in Hi as [k Hk]. rewrite Hk in Hnd, Hr'. simpl in Hnd.
      apply NoDup_cons in Hnd as [Hq _]. apply elem_of_cons in Hr' as [[=]|Hr']; [done|].
      exfalso. apply Hq. apply list_elem_of_fmap. by exists (q, ops').
    - intros q Hq. rewrite Hm. apply foldr_max_is; [done| |by left].
      apply Forall_fmap, Forall_forall. intros c (r & -> & Hr)%Hl%list_elem_of_fmap. simpl.
      rewrite (Hside r), decide_False; [done| |done]. intros ->. apply Hq. by apply list_elem_of_fmap_2. }
  unfold PnValue. rewrite ValueIn_sum.
  rewrite (Hpos positive increments), (Hpos negative decrements); [done|..].
  - clear. unfold decrements. induction 1 as [|[] ? ? _ ?]; csimpl in *; lia.
  - intros r q Hr. by apply replica_comp, Hg.
  - intros q. by rewrite (proj2 (Hd q)).
  - clear. unfold increments. induction 1 as [|[] ? ? _ ?]; csimpl in *; lia.
  - intros r q Hr. by apply replica_comp, Hg.
  - intros q. by rewrite (proj1 (Hd q)).
Qed.

Definition pn_demo : list (PeerId * list pn_op) := [(1, [PnInc 5; PnDec 2]); (2, [PnInc 1; PnInc 1])].

Lemma PnCounter_merge_counts_all_witness :
  PnValue (foldl PnMerge (NewPnCounter 9) [replica (2, [PnInc 1; PnInc 1]); replica (1, [PnInc 5; PnDec 2]);
    replica (2, [PnInc 1; PnInc 1])]) = 5.
Proof.
  rewrite (PnCounter_merge_counts_all 9 pn_demo); [reflexivity|..].
  - apply (bool_decide_unpack _). by vm_compute.
  - repeat (apply Forall_cons_2 || apply Forall_nil_2); split_and!; try (vm_compute; discriminate);
      repeat constructor; vm_compute; discriminate.
  - intros c. unfold pn_demo. rewrite !fmap_cons, fmap_nil, !elem_of_cons. tauto.
Defined.

(** ** The reactive bridge *)

Section cell_crdt.
Context {T : Type} `{EqDecision T}.

(** [registers.go] [type CellCrdt] *)
Record CellCrdt := mkCellCrdt { cell : Cell T; cc_merge : T → T → T }.
(** [registers.go] [NewCellCrdt] *)
Definition NewCellCrdt (initial : T) (merge : T → T → T) : CellCrdt := mkCellCrdt (NewCell initial) merge.
(** [registers.go] [CellCrdt.Write] *)
Definition CellCrdt_Write (c : CellCrdt) (incoming : T) : CellCrdt :=
  mkCellCrdt (Cell_Set (cell c) (cc_merge c (cell_value (cell c)) incoming)) (cc_merge c).

(** Writes fold through the merge function. *)
Lemma CellCrdt_folds c ws :
  cell_value (cell (foldl CellCrdt_Write c ws)) = foldl (cc_merge c) (cell_value (cell c)) ws.
Proof.
  revert c. induction ws as [|w ws IH]; intros c; [done|]. simpl. rewrite IH. simpl. by rewrite Cell_Set_value.
Qed.
End cell_crdt.
