(* ===== verification/ReactiveMap.v ===== *)
(** * ReactiveMap: keyed collections of cells (reactive_map.go, collections.go)

    [SourceMap] is the map over input cells.  An entry's handle is the index of
    its cell in a store, so that handle identity and aliasing are visible: a cell
    is never reused for another key.  The membership and order signals are cells
    holding version numbers.  [ComputedMap] and [SourceTree] are not modelled. *)

From S2P Require Import Prelude KeyedOrder.

Section source_map.
Context {K V : Type} `{Countable K, EqDecision V}.

Definition handle := nat.

(** [reactive_map.go] [type ReactiveMap] *)
Record SourceMap := mkSourceMap {
  keyed : keyedOrder K handle;
  cells : gmap handle (Cell V);
  nextHandle : handle;
  membership : Cell Z;
  orderSignal : Cell Z;
  membershipVersion : Z;
  orderVersion : Z;
}.

Implicit Types (m : SourceMap) (key anchor : K) (value : V).

(** [collections.go] [NewSourceMap] *)
Definition NewSourceMap : SourceMap := mkSourceMap newKeyedOrder ∅ 0 (NewCell 0%Z) (NewCell 0%Z) 0 0.

Definition with_keyed (k : keyedOrder K handle) m : SourceMap :=
  mkSourceMap k (cells m) (nextHandle m) (membership m) (orderSignal m) (membershipVersion m) (orderVersion m).
Definition with_cells (c : gmap handle (Cell V)) m : SourceMap :=
  mkSourceMap (keyed m) c (nextHandle m) (membership m) (orderSignal m) (membershipVersion m) (orderVersion m).

(** [reactive_map.go] [ReactiveMap.bumpOrder] *)
Definition bumpOrder m : SourceMap :=
  let v := orderVersion m +ₛ 1 in
  mkSourceMap (keyed m) (cells m) (nextHandle m) (membership m) (Cell_Set (orderSignal m) v)
    (membershipVersion m) v.

(** [reactive_map.go] [ReactiveMap.bumpMembership] *)
Definition bumpMembership m : SourceMap :=
  let v := membershipVersion m +ₛ 1 in
  bumpOrder (mkSourceMap (keyed m) (cells m) (nextHandle m) (Cell_Set (membership m) v) (orderSignal m)
    v (orderVersion m)).

(** The node the map's [mint] allocates: a cell holding the computed value. *)
Definition mint value m : SourceMap * handle :=
  (mkSourceMap (keyed m) (<[nextHandle m := NewCell value]> (cells m)) (S (nextHandle m)) (membership m)
     (orderSignal m) (membershipVersion m) (orderVersion m), nextHandle m).

(** [reactive_map.go] [ReactiveMap.mintWith] *)
Definition mintWith m key (compute : unit → V) : SourceMap * handle :=
  match keyedOrder_get (keyed m) key with
  | Some h => (m, h)
  | None =>
      let '(m, minted) := mint (compute tt) m in
      let '(k, (h, mutation)) := keyedOrder_insert (keyed m) key minted in
      let m := with_keyed k m in
      (if mapMutation_changed mutation then bumpMembership m else m, h)
  end.

(** [collections.go] [SourceMap.EntryWith] *)
Definition EntryWith m key (defaultValue : unit → V) : SourceMap * handle :=
  match keyedOrder_get (keyed m) key with
  | Some existing => (m, existing)
  | None => mintWith m key defaultValue
  end.

(** [collections.go] [SourceMap.Entry] *)
Definition Entry m key (defaultValue : V) : SourceMap * handle := EntryWith m key (λ _, defaultValue).

(** [collections.go] [SourceMap.Get] *)
Definition Get m key : option V :=
  h ← keyedOrder_get (keyed m) key; cell_value <$> cells m !! h.

(** A cell's [Set] and [Invalidate] through its handle. *)
Definition handle_Set (h : handle) value m : SourceMap := with_cells (alter (λ c, Cell_Set c value) h (cells m)) m.
Definition handle_Invalidate (h : handle) m : SourceMap :=
  with_cells (alter (λ c, mkCell (cell_value c) (S (cell_edges c))) h (cells m)) m.

(** [collections.go] [SourceMap.Set] *)
Definition Set_ m key value : SourceMap :=
  match keyedOrder_get (keyed m) key with
  | Some h => handle_Set h value m
  | None => (mintWith m key (λ _, value)).1
  end.

(** [reactive_map.go] [ReactiveMap.Remove] *)
Definition Remove m key : SourceMap * bool :=
  let '(k, (h, mutation)) := keyedOrder_remove (keyed m) key in
  if negb (mapMutation_changed mutation) then (m, false)
  else
    let m := with_keyed k m in
    let m := match h with Some h => handle_Invalidate h m | None => m end in
    (bumpMembership m, true).

(** [reactive_map.go] [ReactiveMap.applyMove] *)
Definition applyMove m (outcome : keyedOrder K handle * mapMove) : SourceMap * bool :=
  let m := with_keyed outcome.1 m in
  if negb (mapMove_applied outcome.2) then (m, false)
  else (if mapMove_changed outcome.2 then bumpOrder m else m, true).

(** [reactive_map.go] [ReactiveMap.MoveTo] *)
Definition MoveTo m key (index : Z) : SourceMap * bool := applyMove m (keyedOrder_moveTo (keyed m) key index).
(** [reactive_map.go] [ReactiveMap.MoveBefore] *)
Definition MoveBefore m key anchor : SourceMap * bool := applyMove m (keyedOrder_moveBefore (keyed m) key anchor).
(** [reactive_map.go] [ReactiveMap.MoveAfter] *)
Definition MoveAfter m key anchor : SourceMap * bool := applyMove m (keyedOrder_moveAfter (keyed m) key anchor).

(** [reactive_map.go] [ReactiveMap.Keys] *)
Definition Keys m : list K := keyedOrder_keys (keyed m).
(** [reactive_map.go] [ReactiveMap.Len] *)
Definition Len m : nat := keyedOrder_length (keyed m).
(** [reactive_map.go] [ReactiveMap.ContainsKey] *)
Definition ContainsKey m key : bool := keyedOrder_contains (keyed m) key.

(** [collections.go] [type InsertAt] *)
Inductive InsertAt := InsertAtEnd | InsertAtIndex | InsertAtBefore | InsertAtAfter.

(** [collections.go] [SourceMap.Insert] *)
Definition Insert m key value (at_ : InsertAt) anchor : SourceMap * bool :=
  if keyedOrder_contains (keyed m) key then (Set_ m key value, false)
  else
    let m := (EntryWith m key (λ _, value)).1 in
    let m := match at_ with
      | InsertAtEnd | InsertAtIndex => m
      | InsertAtBefore => (MoveBefore m key anchor).1
      | InsertAtAfter => (MoveAfter m key anchor).1
      end in
    (m, true).

(** ** The invariant *)

(** Keys and order in lockstep; every key has its own live cell; the signals
    hold their versions. *)
Record map_inv m : Prop := {
  mi_lockstep : lockstep (keyed m);
  mi_live : ∀ key h, KeyedOrder.entries (keyed m) !! key = Some h → is_Some (cells m !! h);
  mi_fresh : ∀ h, is_Some (cells m !! h) → h < nextHandle m;
  mi_distinct : ∀ k1 k2 h, KeyedOrder.entries (keyed m) !! k1 = Some h →
    KeyedOrder.entries (keyed m) !! k2 = Some h → k1 = k2;
  mi_membership : cell_value (membership m) = membershipVersion m;
  mi_order : cell_value (orderSignal m) = orderVersion m;
  mi_membership_range : is_i64 (membershipVersion m);
  mi_order_range : is_i64 (orderVersion m);
}.

(** The value plane of a key: its handle and cell. *)
Definition plane m key : option (handle * Cell V) :=
  h ← KeyedOrder.entries (keyed m) !! key; pair h <$> cells m !! h.

(** What one operation may change, [touched] being the keys it names: the
    planes of other keys stay, the membership signal fires once exactly when the
    key set changes, the order signal fires exactly when the order changes, and
    a surviving key keeps its handle. *)
Record frame (touched : gset K) m m' : Prop := mkFrame {
  fr_inv : map_inv m';
  fr_planes : ∀ key, key ∉ touched → plane m' key = plane m key;
  fr_membership : cell_edges (membership m') = cell_edges (membership m) +
    (if decide (dom (KeyedOrder.entries (keyed m')) = dom (KeyedOrder.entries (keyed m))) then 0 else 1);
  fr_order : if decide (Keys m' = Keys m) then orderSignal m' = orderSignal m
    else cell_edges (orderSignal m) < cell_edges (orderSignal m');
  fr_handles : ∀ key h h', KeyedOrder.entries (keyed m) !! key = Some h →
    KeyedOrder.entries (keyed m') !! key = Some h' → h' = h;
}.

(** Operations of the map, for the reachability statement. *)
Inductive mapOp :=
| MEntry (key : K) (v : V)
| MSet (key : K) (v : V)
| MInsert (key : K) (v : V) (at_ : InsertAt) (anchor : K)
| MRemove (key : K)
| MMoveTo (key : K) (index : Z)
| MMoveBefore (key anchor : K)
| MMoveAfter (key anchor : K).

Definition map_step m (op : mapOp) : SourceMap :=
  match op with
  | MEntry key v => (Entry m key v).1
  | MSet key v => Set_ m key v
  | MInsert key v at_ anchor => (Insert m key v at_ anchor).1
  | MRemove key => (Remove m key).1
  | MMoveTo key i => (MoveTo m key i).1
  | MMoveBefore key a => (MoveBefore m key a).1
  | MMoveAfter key a => (MoveAfter m key a).1
  end.

(** The keys whose value or presence an operation may change. *)
Definition touched (op : mapOp) : gset K :=
  match op with
  | MEntry key _ | MSet key _ | MInsert key _ _ _ | MRemove key => {[key]}
  | _ => ∅
  end.

(** The value each operation leaves under a key. *)
Definition value_after (op : mapOp) (key : K) (before : option V) : option V :=
  match op with
  | MEntry k v => if decide (key = k) then Some (default v before) else before
  | MSet k v | MInsert k v _ _ => if decide (key = k) then Some v else before
  | MRemove k => if decide (key = k) then None else before
  | _ => before
  end.

Lemma Get_plane m key : Get m key = cell_value ∘ snd <$> plane m key.
Proof.
  unfold Get, plane, keyedOrder_get. destruct (KeyedOrder.entries (keyed m) !! key) as [h|]; [|done].
  simpl. by destruct (cells m !! h).
Qed.

Lemma frame_refl t m : map_inv m → frame t m m.
Proof. intros Hm. split; [done..| | |naive_solver]; rewrite decide_True by done; [lia|done]. Qed.

Lemma NewSourceMap_inv : map_inv NewSourceMap.
Proof.
  split; simpl; try done; [|by intros h []].
  split; simpl; [constructor|]. intros key. rewrite lookup_empty. split; [set_solver|by intros []].
Qed.

(** Every move keeps the entries and says exactly when the order changed. *)
Definition good_move (k : keyedOrder K handle) (out : keyedOrder K handle * mapMove) : Prop :=
  lockstep out.1 ∧ KeyedOrder.entries out.1 = KeyedOrder.entries k ∧
  (mapMove_changed out.2 = true ↔ order out.1 ≠ order k).

Lemma good_moveTo (k : keyedOrder K handle) key i : lockstep k → good_move k (keyedOrder_moveTo k key i).
Proof.
  intros Hk. split; [by apply moveTo_lockstep|]. split; [apply moveTo_entries|].
  destruct (decide (key ∈ order k)) as [Hin|Hin].
  - rewrite moveTo_ref by done. apply move_ref_changed; [apply Hk|done|].
    unfold clamp_index. destruct (order k); [by apply not_elem_of_nil in Hin|simpl; lia].
  - rewrite moveTo_missing by done. simpl. naive_solver.
Qed.

Lemma good_missing (k : keyedOrder K handle) : lockstep k → good_move k (k, moveMissing).
Proof. intros Hk. split_and!; simpl; [done|done|naive_solver]. Qed.

Lemma good_moveBefore (k : keyedOrder K handle) key a : lockstep k → good_move k (keyedOrder_moveBefore k key a).
Proof.
  intros Hk. destruct (moveBefore_moveTo k key a) as [[i ->]| ->]; [by apply good_moveTo|by apply good_missing].
Qed.

Lemma good_moveAfter (k : keyedOrder K handle) key a : lockstep k → good_move k (keyedOrder_moveAfter k key a).
Proof.
  intros Hk. destruct (moveAfter_moveTo k key a) as [[i ->]| ->]; [by apply good_moveTo|by apply good_missing].
Qed.

Lemma applyMove_frame t m out : map_inv m → good_move (keyed m) out → frame t m (applyMove m out).1.
Proof.
  intros Hm (Hl & He & Hc). destruct out as [k mv]; simpl in *.
  assert (Hinv : map_inv (with_keyed k m)).
  { destruct Hm. split; simpl; rewrite ?He; auto. }
  assert (Hplane : ∀ key, plane (with_keyed k m) key = plane m key) by (intros key; unfold plane; simpl; by rewrite He).
  unfold applyMove. cbn [fst snd].
  destruct mv; simpl in *.
  1,2: assert (order k = order (keyed m)) as Ho by (apply dec_stable; intros Hne; naive_solver);
    split; simpl; rewrite ?He; [done|done|rewrite decide_True by done; lia|
            unfold Keys, keyedOrder_keys; simpl; by rewrite decide_True|naive_solver].
  assert (order k ≠ order (keyed m)) as Ho by naive_solver.
  split.
  - destruct Hinv. unfold bumpOrder. split; simpl; auto using Cell_Set_value, i64_range.
  - intros key _. apply Hplane.
  - simpl. rewrite He, decide_True by done. lia.
  - unfold Keys, keyedOrder_keys. simpl. rewrite decide_False by done.
    rewrite Cell_Set_edges; [lia|]. rewrite (mi_order _ Hm). by apply i64_succ_ne, (mi_order_range _ Hm).
  - simpl. rewrite He. naive_solver.
Qed.

(** Minting a key that is absent. *)
Lemma mintWith_new m key v :
  map_inv m → KeyedOrder.entries (keyed m) !! key = None →
  let m' := (mintWith m key (λ _, v)).1 in
  frame {[key]} m m' ∧ plane m' key = Some (nextHandle m, NewCell v) ∧
  Keys m' = Keys m ++ [key] ∧
  cell_edges (orderSignal m') = S (cell_edges (orderSignal m)).
Proof.
  intros Hm Hnone. unfold mintWith, keyedOrder_get. rewrite Hnone. cbn [mint fst snd].
  pose proof (insert_lockstep (keyed m) key (nextHandle m) (mi_lockstep _ Hm)) as Hl.
  unfold keyedOrder_insert in *. cbn [keyed]. rewrite Hnone in *. simpl in *.
  assert (Hfresh : ∀ k h, KeyedOrder.entries (keyed m) !! k = Some h → h ≠ nextHandle m).
  { intros k h Hk ->. pose proof (mi_fresh _ Hm _ (mi_live _ Hm _ _ Hk)). lia. }
  assert (Ho : cell_edges (Cell_Set (orderSignal m) (orderVersion m +ₛ 1)) = S (cell_edges (orderSignal m))).
  { apply Cell_Set_edges. rewrite (mi_order _ Hm). by apply i64_succ_ne, (mi_order_range _ Hm). }
  split_and!; [split; simpl| |done|done].
  - split; simpl; [done| | | |by apply Cell_Set_value..|by apply i64_range|by apply i64_range].
    + intros k h [[<- <-]|[Hne Hk]]%lookup_insert_Some; [rewrite lookup_insert_eq; eauto|].
      rewrite lookup_insert_is_Some'. right. by eapply mi_live.
    + intros h [->|Hh]%lookup_insert_is_Some'; [lia|]. pose proof (mi_fresh _ Hm _ Hh). lia.
    + intros k1 k2 h [[<- <-]|[Hne1 Hk1]]%lookup_insert_Some [[<- Hh]|[Hne2 Hk2]]%lookup_insert_Some; try done.
      * by destruct (Hfresh _ _ Hk2).
      * subst. by destruct (Hfresh _ _ Hk1).
      * by eapply mi_distinct.
  - intros k Hk. unfold plane. simpl. rewrite lookup_insert_ne by set_solver.
    destruct (KeyedOrder.entries (keyed m) !! k) as [h|] eqn:E; [|done]. simpl.
    by rewrite lookup_insert_ne by (intros Heq; by eapply Hfresh).
  - rewrite decide_False.
    + rewrite Cell_Set_edges; [lia|]. rewrite (mi_membership _ Hm).
      by apply i64_succ_ne, (mi_membership_range _ Hm).
    + rewrite dom_insert_L. intros Heq. apply not_elem_of_dom in Hnone. set_solver.
  - unfold Keys, keyedOrder_keys. simpl. rewrite decide_False; [lia|].
    intros Heq%(f_equal length). rewrite length_app in Heq. simpl in Heq. lia.
  - intros k h h' Hk [[<- <-]|[Hne Hk']]%lookup_insert_Some; naive_solver.
  - unfold plane. simpl. rewrite lookup_insert_eq. simpl. by rewrite lookup_insert_eq.
Qed.

(** A cell reached through its handle is one key's plane. *)
Lemma plane_alter m key h f :
  map_inv m → KeyedOrder.entries (keyed m) !! key = Some h →
  map_inv (with_cells (alter f h (cells m)) m) ∧
  (∀ k, plane (with_cells (alter f h (cells m)) m) k = if decide (k = key) then prod_map id f <$> plane m k else plane m k).
Proof.
  intros Hm Hk. split.
  - destruct Hm. split; simpl; auto.
    + intros k h' Hk'. rewrite lookup_alter_is_Some. eauto.
    + intros h'. rewrite lookup_alter_is_Some. auto.
  - intros k. unfold plane. simpl. case_decide as Hd.
    + subst k. rewrite Hk. simpl. rewrite lookup_alter_eq. by destruct (cells m !! h).
    + destruct (KeyedOrder.entries (keyed m) !! k) as [h'|] eqn:E; [|done]. simpl.
      rewrite lookup_alter_ne; [done|]. intros ->. apply Hd. by eapply mi_distinct.
Qed.

Lemma plane_present m key h :
  map_inv m → KeyedOrder.entries (keyed m) !! key = Some h → ∃ c, plane m key = Some (h, c).
Proof.
  intros Hm Hk. destruct (mi_live _ Hm _ _ Hk) as [c Hc]. exists c.
  unfold plane. rewrite Hk. simpl. by rewrite Hc.
Qed.

Lemma Set_frame m key v :
  map_inv m → frame {[key]} m (Set_ m key v) ∧ cell_value ∘ snd <$> plane (Set_ m key v) key = Some v.
Proof.
  intros Hm. unfold Set_, keyedOrder_get.
  destruct (KeyedOrder.entries (keyed m) !! key) as [h|] eqn:E.
  - destruct (plane_alter m key h (λ c, Cell_Set c v) Hm E) as [Hi Hp].
    unfold handle_Set. split.
    + split; simpl; [done| | | |naive_solver].
      * intros k Hk. rewrite Hp, decide_False by set_solver. done.
      * rewrite decide_True by done. lia.
      * unfold Keys. simpl. by rewrite decide_True.
    + rewrite Hp, decide_True by done. destruct (plane_present m key h Hm E) as [c ->].
      simpl. by rewrite Cell_Set_value.
  - destruct (mintWith_new m key v Hm E) as (Hf & Hp & _). split; [done|]. by rewrite Hp.
Qed.

Lemma Entry_frame m key v :
  map_inv m → frame {[key]} m (Entry m key v).1 ∧
  cell_value ∘ snd <$> plane (Entry m key v).1 key = Some (default v (cell_value ∘ snd <$> plane m key)).
Proof.
  intros Hm. unfold Entry, EntryWith, keyedOrder_get.
  destruct (KeyedOrder.entries (keyed m) !! key) as [h|] eqn:E; simpl.
  - split; [by apply frame_refl|]. by destruct (plane_present m key h Hm E) as [c ->].
  - destruct (mintWith_new m key v Hm E) as (Hf & -> & _). split; [done|].
    unfold plane. by rewrite E.
Qed.

Lemma Remove_frame m key :
  map_inv m → frame {[key]} m (Remove m key).1 ∧ plane (Remove m key).1 key = None.
Proof.
  intros Hm. pose proof (mi_lockstep _ Hm) as Hk.
  pose proof (remove_lockstep _ key Hk) as Hl. pose proof (remove_order _ key Hk) as Hord.
  unfold Remove. unfold keyedOrder_remove in *.
  destruct (KeyedOrder.entries (keyed m) !! key) as [h|] eqn:E; simpl in *.
  2:{ split; [by apply frame_refl|]. unfold plane. by rewrite E. }
  destruct (plane_alter m key h (λ c, mkCell (cell_value c) (S (cell_edges c))) Hm E) as [Hi Hp].
  assert (Hin : key ∈ order (keyed m)) by (apply Hk; rewrite E; eauto).
  split; [split; simpl|].
  - destruct Hi as [_ Hlive Hfresh Hdis _ _ _ _]. simpl in *.
    split; simpl; auto using Cell_Set_value, i64_range.
    + intros k h' [_ Hk']%lookup_delete_Some. by eapply Hlive.
    + intros k1 k2 h' [_ H1]%lookup_delete_Some [_ H2]%lookup_delete_Some. by eapply Hdis.
  - intros k Hne. specialize (Hp k). rewrite decide_False in Hp by set_solver.
    rewrite <-Hp. unfold plane. simpl. by rewrite lookup_delete_ne by set_solver.
  - rewrite decide_False.
    + rewrite Cell_Set_edges; [lia|]. rewrite (mi_membership _ Hm).
      by apply i64_succ_ne, (mi_membership_range _ Hm).
    + rewrite dom_delete_L. intros Heq. assert (key ∈ dom (KeyedOrder.entries (keyed m))) by (by eapply elem_of_dom_2).
      set_solver.
  - unfold Keys, keyedOrder_keys. simpl. rewrite decide_False.
    + rewrite Cell_Set_edges; [lia|]. rewrite (mi_order _ Hm). by apply i64_succ_ne, (mi_order_range _ Hm).
    + rewrite Hord. intros Heq. rewrite <-Heq in Hin. by apply list_elem_of_filter in Hin as [? _].
  - intros k h1 h2 H1 [_ H2]%lookup_delete_Some. naive_solver.
  - unfold plane. simpl. by rewrite lookup_delete_eq.
Qed.

(** Inserting an absent key mints it at the end, then moves it. *)
Lemma Insert_frame m key v at_ a :
  map_inv m → frame {[key]} m (Insert m key v at_ a).1 ∧
  cell_value ∘ snd <$> plane (Insert m key v at_ a).1 key = Some v.
Proof.
  intros Hm. unfold Insert, keyedOrder_contains.
  case_bool_decide as Hin; [by apply Set_frame|].
  apply eq_None_not_Some in Hin. unfold EntryWith, keyedOrder_get. rewrite Hin. cbn [fst].
  destruct (mintWith_new m key v Hm Hin) as (Hf & Hp & Hks & Ho).
  set (m1 := (mintWith m key (λ _, v)).1) in *.
  assert (Hm1 : map_inv m1) by apply Hf.
  assert (Hmove : ∀ out, good_move (keyed m1) out →
    frame {[key]} m (applyMove m1 out).1 ∧ cell_value ∘ snd <$> plane (applyMove m1 out).1 key = Some v).
  { intros out Hg. destruct (applyMove_frame ∅ m1 out Hm1 Hg) as [Hi Hpl Hme Hor Hh].
    assert (He : KeyedOrder.entries (keyed (applyMove m1 out).1) = KeyedOrder.entries (keyed m1)).
    { destruct Hg as (_ & He & _). destruct out as [k' []]; exact He. }
    split; [split; [done| | | |]|].
    - intros k Hk. rewrite Hpl by set_solver. by apply Hf.
    - rewrite Hme, He, decide_True, Nat.add_0_r by done. apply Hf.
    - assert (Keys (applyMove m1 out).1 ≠ Keys m) as Hne.
      { intros Heq. assert (key ∈ Keys (applyMove m1 out).1) as Hx.
        { apply (mi_lockstep _ Hi). rewrite He. apply (mi_lockstep _ Hm1). unfold Keys, keyedOrder_keys in Hks.
          rewrite Hks. set_solver. }
        rewrite Heq in Hx. apply (mi_lockstep _ Hm) in Hx as [? ?]. congruence. }
      rewrite decide_False by done. case_decide; [rewrite Hor; lia|lia].
    - intros k h h' Hk. rewrite He. by eapply Hf.
    - rewrite Hpl by set_solver. by rewrite Hp. }
  destruct at_; [| |apply Hmove, good_moveBefore|apply Hmove, good_moveAfter]; try apply Hm1;
    (split; [done|by rewrite Hp]).
Qed.

Lemma map_step_frame m op :
  map_inv m → frame (touched op) m (map_step m op) ∧
  ∀ key, Get (map_step m op) key = value_after op key (Get m key).
Proof.
  intros Hm.
  assert (Hother : ∀ t m' f (key : K), frame {[t]} m m' → (cell_value ∘ snd <$> plane m' t) = f (Get m t) →
    Get m' key = if decide (key = t) then f (Get m key) else Get m key).
  { intros t m' f key Hf Ht. case_decide as Hd; [subst; by rewrite Get_plane|].
    rewrite !Get_plane. f_equal. apply Hf. set_solver. }
  assert (Hmv : ∀ out, good_move (keyed m) out →
    frame ∅ m (applyMove m out).1 ∧ ∀ key, Get (applyMove m out).1 key = Get m key).
  { intros out Hg. pose proof (applyMove_frame ∅ m out Hm Hg) as Hf. split; [done|].
    intros key. rewrite !Get_plane. f_equal. apply Hf. set_solver. }
  pose proof (mi_lockstep _ Hm) as Hk.
  destruct op as [k v|k v|k v at_ a|k|k i|k a|k a]; cbn [touched map_step value_after].
  - destruct (Entry_frame m k v Hm) as [Hf Hp]. split; [done|]. intros key.
    apply (Hother k _ (λ o, Some (default v o))); [done|]. by rewrite Get_plane.
  - destruct (Set_frame m k v Hm) as [Hf Hp]. split; [done|]. intros key. by apply (Hother k _ (λ _, Some v)).
  - destruct (Insert_frame m k v at_ a Hm) as [Hf Hp]. split; [done|]. intros key. by apply (Hother k _ (λ _, Some v)).
  - destruct (Remove_frame m k Hm) as [Hf Hp]. split; [done|]. intros key.
    apply (Hother k _ (λ _, None)); [done|]. by rewrite Hp.
  - by apply Hmv, good_moveTo.
  - by apply Hmv, good_moveBefore.
  - by apply Hmv, good_moveAfter.
Qed.

(** The three reactive planes of a source map are independent.  From any
    state reached by entries, sets, insertions, removals and moves, one further
    operation leaves every key's value as the operation says, touches no cell of
    a key it does not name (a move touches none at all), keeps the handle of
    every surviving key, fires the membership signal exactly once when the key
    set changed and not otherwise, and fires the order signal exactly when the
    key order changed. *)
Theorem SourceMap_planes_independent (ops : list mapOp) (op : mapOp) :
  let m := foldl map_step NewSourceMap ops in
  frame (touched op) m (map_step m op) ∧
  ∀ key, Get (map_step m op) key = value_after op key (Get m key).
Proof.
  apply map_step_frame.
  apply foldl_invariant; [apply NewSourceMap_inv|]. intros m o Hm. by apply map_step_frame.
Qed.
End source_map.
Arguments SourceMap K V {_ _}.
