(* ===== verification/Reconcile.v ===== *)
(** * Reconcile: keyed reconciliation (collections.go)

    The move-minimised diff of two keyed sequences, its patience-sorting longest
    increasing subsequence, and [SourceMap.Reconcile], which applies the diff to
    a map of cells. *)

From S2P Require Import Prelude KeyedOrder ReactiveMap.

(** ** Longest increasing subsequence *)

(** The binary search of the patience sort: first pile whose top is not below
    [x]; the loop halves [hi - lo], so [hi - lo] steps are enough. *)
(** [collections.go] [lines 386-394 longestIncreasingSubsequence] *)
Fixpoint lis_search (fuel : nat) (seq : list Z) (tails : list nat) (x : Z) (lo hi : nat) : nat :=
  match fuel with
  | 0 => lo
  | S fuel =>
      if decide (lo < hi) then
        let mid := (lo + hi) / 2 in
        if decide (seq !!! (tails !!! mid) < x)%Z
        then lis_search fuel seq tails x (mid + 1) hi
        else lis_search fuel seq tails x lo mid
      else lo
  end.

(** One element dealt on the piles; [prev] holds -1 where there is none. *)
(** [collections.go] [lines 385-403 longestIncreasingSubsequence] *)
Definition lis_deal (seq : list Z) (st : list nat * list Z) (i : nat) : list nat * list Z :=
  let '(tails, prev) := st in
  let lo := lis_search (length tails) seq tails (seq !!! i) 0 (length tails) in
  let prev := if decide (0 < lo) then <[i := Z.of_nat (tails !!! (lo - 1))]> prev else prev in
  let tails := if decide (lo = length tails) then tails ++ [i] else <[lo := i]> tails in
  (tails, prev).

(** The walk back over [prev] from the last pile; every step goes to a smaller
    index, so [len(seq)] steps are enough. *)
(** [collections.go] [lines 407-410 longestIncreasingSubsequence] *)
Fixpoint lis_walk (fuel : nat) (prev : list Z) (k : Z) (res : list nat) : list nat :=
  match fuel with
  | 0 => res
  | S fuel => if decide (k = -1)%Z then res
              else lis_walk fuel prev (prev !!! Z.to_nat k) (res ++ [Z.to_nat k])
  end.

(** [collections.go] [longestIncreasingSubsequence] *)
Definition longestIncreasingSubsequence (seq : list Z) : list nat :=
  let n := length seq in
  let '(tails, prev) := foldl (lis_deal seq) ([], replicate n (-1)%Z) (List.seq 0 n) in
  match last tails with
  | None => []
  | Some k => reverse (lis_walk (S n) prev (Z.of_nat k) [])
  end.

Example lis_small : longestIncreasingSubsequence [2; 3; 1; 0; 4; 2]%Z = [0; 1; 4].
Proof. reflexivity. Qed.

Section lis.
Context (seq : list Z).
Implicit Types (tails r : list nat) (prev : list Z).
Abbreviation at_ i := (seq !!! i : Z).

(** [b] may follow [a] in an increasing subsequence. *)
Definition climbs (a b : nat) : Prop := a < b ∧ (at_ a < at_ b)%Z.

Lemma lis_search_spec fuel tails x lo hi :
  hi - lo ≤ fuel → lo ≤ hi ≤ length tails →
  (∀ j k, j < k < length tails → (at_ (tails !!! j) < at_ (tails !!! k))%Z) →
  (∀ j, j < lo → (at_ (tails !!! j) < x)%Z) →
  (∀ j, hi ≤ j < length tails → (x ≤ at_ (tails !!! j))%Z) →
  let lo' := lis_search fuel seq tails x lo hi in
  lo' ≤ length tails ∧ (∀ j, j < lo' → (at_ (tails !!! j) < x)%Z) ∧
  (∀ j, lo' ≤ j < length tails → (x ≤ at_ (tails !!! j))%Z).
Proof.
  revert lo hi. induction fuel as [|fuel IH]; intros lo hi Hf Hb Hs Hlo Hhi; cbn [lis_search].
  { assert (lo = hi) as -> by lia. split_and!; [lia|done|done]. }
  destruct (decide (lo < hi)) as [Hlt|Hge].
  2:{ assert (lo = hi) as -> by lia. split_and!; [lia|done|done]. }
  assert (Hmid : lo ≤ (lo + hi) / 2 < hi).
  { split; [apply Nat.div_le_lower_bound; lia|apply Nat.Div0.div_lt_upper_bound; lia]. }
  set (mid := (lo + hi) / 2) in *. cbv zeta.
  destruct (decide (at_ (tails !!! mid) < x)%Z) as [Hm|Hm]; apply IH; try done; try lia.
  - intros j Hj. destruct (decide (j = mid)) as [->|]; [done|].
    specialize (Hs j mid ltac:(lia)). lia.
  - intros j Hj. destruct (decide (j = mid)) as [->|]; [lia|].
    specialize (Hs mid j ltac:(lia)). lia.
Qed.

(** The walk from [k] finds this list, newest index first. *)
Inductive traced prev : Z → list nat → Prop :=
| traced_nil : traced prev (-1)%Z []
| traced_cons (k : nat) l : traced prev (prev !!! k) l → k < length prev → traced prev (Z.of_nat k) (k :: l).

Lemma lis_walk_traced prev k l fuel res :
  traced prev k l → length l < fuel → lis_walk fuel prev k res = res ++ l.
Proof.
  intros Ht. revert fuel res. induction Ht as [|k l Ht IH Hk]; intros [|fuel] res Hf; simpl in *; try lia.
  - by rewrite app_nil_r.
  - rewrite decide_False by lia. rewrite Nat2Z.id, IH by lia. by rewrite <-app_assoc.
Qed.

(** A traced list only looks at indices up to its head. *)
Lemma traced_insert prev k l i v :
  traced prev k l → (∀ j, j ∈ l → j ≠ i) → traced (<[i := v]> prev) k l.
Proof.
  intros Ht. induction Ht as [|k l Ht IH Hk]; intros Hl; [constructor|].
  constructor; [|by rewrite length_insert].
  rewrite list_lookup_total_insert_ne by (apply not_eq_sym, Hl; left).
  apply IH. intros j Hj. apply Hl. by right.
Qed.

(** What the piles hold after the first [n] elements. *)
Record lis_inv (n : nat) (st : list nat * list Z) : Prop := {
  li_prev : length st.2 = length seq;
  li_fresh : ∀ j, n ≤ j < length seq → st.2 !!! j = (-1)%Z;
  li_below : ∀ j, j < length st.1 → st.1 !!! j < n;
  li_sorted : ∀ j k, j < k < length st.1 → (at_ (st.1 !!! j) < at_ (st.1 !!! k))%Z;
  li_traced : ∀ j, j < length st.1 → ∃ l, length l = S j ∧ head l = Some (st.1 !!! j) ∧
    StronglySorted (flip climbs) l ∧ Forall (λ i, i < n) l ∧ traced st.2 (Z.of_nat (st.1 !!! j)) l;
  li_best : ∀ r e, StronglySorted climbs (r ++ [e]) → Forall (λ i, i < n) (r ++ [e]) →
    length r < length st.1 ∧ (at_ (st.1 !!! length r) ≤ at_ e)%Z;
}.

Lemma sorted_reverse l : StronglySorted (flip climbs) l → StronglySorted climbs (reverse l).
Proof.
  induction 1 as [|a l Hs IH Ha]; [constructor|]. rewrite reverse_cons, StronglySorted_app.
  split_and!; [|done|repeat constructor]. intros x y Hx ->%list_elem_of_singleton. rewrite elem_of_reverse in Hx.
  exact (proj1 (Forall_forall _ _) Ha x Hx).
Qed.

Lemma total_snoc_insert (tails : list nat) lo n :
  lo ≤ length tails →
  let t' := if decide (lo = length tails) then tails ++ [n] else <[lo := n]> tails in
  length t' = Nat.max (length tails) (S lo) ∧
  t' !!! lo = n ∧ ∀ j, j ≠ lo → j < length t' → t' !!! j = tails !!! j ∧ j < length tails.
Proof.
  intros Hlo. simpl. case_decide as Hd.
  - subst. rewrite length_app. simpl. split_and!; [lia|by apply list_lookup_total_middle|].
    intros j Hj Hl. split; [by rewrite lookup_total_app_l by lia|lia].
  - rewrite length_insert. split_and!; [lia|by apply list_lookup_total_insert_eq; lia|].
    intros j Hj Hl. split; [by rewrite list_lookup_total_insert_ne|lia].
Qed.

Lemma traced_here prev n l :
  traced prev (prev !!! n) l → n < length prev → traced prev (Z.of_nat n) (n :: l).
Proof. intros. by constructor. Qed.

Lemma lis_deal_inv n st : n < length seq → lis_inv n st → lis_inv (S n) (lis_deal seq st n).
Proof.
  destruct st as [tails prev]. intros Hn [Hp Hfr Hb Hs Ht Hbest]. simpl in *.
  destruct (lis_search_spec (length tails) tails (at_ n) 0 (length tails))
    as (Hlo & Hlt & Hge); [lia|lia|done|lia|lia|].
  unfold lis_deal. set (lo := lis_search _ _ _ _ _ _) in *.
  destruct (total_snoc_insert tails lo n Hlo) as (Hlen & Hat & Hne).
  set (t' := if decide (lo = length tails) then _ else _) in *. clearbody t' lo.
  set (prev' := if decide (0 < lo) then _ else prev).
  assert (Hp' : length prev' = length seq) by (unfold prev'; case_decide; by rewrite ?length_insert).
  assert (Hold : ∀ j, j ≠ n → prev' !!! j = prev !!! j).
  { intros j Hj. unfold prev'. case_decide; [by rewrite list_lookup_total_insert_ne|done]. }
  assert (Htr : ∀ k l, Forall (λ i, i < n) l → traced prev k l → traced prev' k l).
  { intros k l Hl Hk. unfold prev'. case_decide; [|done]. apply traced_insert; [done|].
    intros j Hj. rewrite Forall_forall in Hl. specialize (Hl j Hj). simpl in Hl. lia. }
  assert (HS : ∀ l, Forall (λ i, i < n) l → Forall (λ i, i < S n) l) by (intros l Hl; eapply Forall_impl; [done|simpl; lia]).
  split; cbn [fst snd]; [done| | | | |].
  - intros j Hj. rewrite Hold by lia. apply Hfr. lia.
  - intros j Hj. destruct (decide (j = lo)) as [->|Hjl]; [lia|].
    destruct (Hne j Hjl Hj) as [-> Hj']. specialize (Hb j Hj'). lia.
  - intros j k [Hjk Hk]. destruct (decide (k = lo)) as [->|Hkl].
    + rewrite Hat. destruct (Hne j) as [-> ?]; [lia..|]. apply Hlt. lia.
    + destruct (Hne k) as [-> ?]; [lia..|]. destruct (decide (j = lo)) as [->|Hjl].
      * rewrite Hat. pose proof (Hge lo ltac:(lia)). specialize (Hs lo k ltac:(lia)). lia.
      * destruct (Hne j) as [-> ?]; [lia..|]. apply Hs. lia.
  - intros j Hj. destruct (decide (j = lo)) as [->|Hjl].
    2:{ destruct (Hne j) as [-> Hj']; [lia..|]. destruct (Ht j Hj') as (l & Hll & Hh & Hso & Hf & Hk).
        exists l. split_and!; auto. }
    rewrite Hat. destruct lo as [|lo].
    + exists [n]. split_and!; [done..|repeat constructor|repeat constructor; lia|].
      apply traced_here; [|lia]. unfold prev'. simpl. rewrite Hfr by lia. constructor.
    + destruct (Ht lo ltac:(lia)) as (l & Hll & Hh & Hso & Hf & Hk). exists (n :: l).
      split_and!; [simpl; lia|done| |constructor; [lia|by apply HS]|].
      * constructor; [done|]. apply Forall_forall. intros i Hi. unfold flip.
        assert (Hin : i < n) by (rewrite Forall_forall in Hf; by apply Hf).
        split; [done|]. specialize (Hlt lo ltac:(lia)).
        destruct l as [|h l]; [set_solver|]. injection Hh as ->.
        apply elem_of_cons in Hi as [->|Hi]; [done|]. apply StronglySorted_inv in Hso as [_ Hall].
        rewrite Forall_forall in Hall. destruct (Hall i Hi). lia.
      * apply traced_here; [|lia]. assert (prev' !!! n = Z.of_nat (tails !!! lo)) as ->; [|by apply Htr].
        unfold prev'. rewrite decide_True by lia. rewrite list_lookup_total_insert_eq by lia.
        do 2 f_equal. lia.
  - intros r e Hso Hf. apply Forall_app in Hf as [Hfr' Hfe]. rewrite list.Forall_singleton in Hfe.
    apply StronglySorted_app in Hso as (Hre & Hsr & _).
    assert (Hbelow : Forall (λ i, i < e) r).
    { apply Forall_forall. intros i Hi. destruct (Hre i e Hi); [set_solver|done]. }
    destruct (decide (e < n)) as [Hen|Hen].
    + destruct (Hbest r e) as [Hl Hv].
      { apply StronglySorted_app. split_and!; [done..|repeat constructor]. }
      { apply Forall_app. split; [|by apply Forall_singleton]. eapply Forall_impl; [done|]. simpl. lia. }
      split; [lia|]. destruct (decide (length r = lo)) as [Hlr|Hlr].
      * rewrite Hlr, Hat. specialize (Hge lo ltac:(lia)). rewrite Hlr in Hv. lia.
      * destruct (Hne (length r)) as [-> ?]; [lia..|]. done.
    + assert (e = n) as -> by lia. clear Hen Hfe.
      assert (Hr : length r ≤ lo).
      { destruct r as [|e' r _] using rev_ind; [simpl; lia|].
        apply Forall_app in Hbelow as [Hb1 Hb2].
        destruct (Hbest r e' Hsr) as [Hl Hv]; [by apply Forall_app|].
        destruct (Hre e' n) as [_ Hlte]; [set_solver..|].
        rewrite length_app. simpl. destruct (decide (lo ≤ length r)); [|lia].
        specialize (Hge (length r) ltac:(lia)). lia. }
      split; [lia|]. destruct (decide (length r = lo)) as [->|Hlr]; [by rewrite Hat|].
      destruct (Hne (length r)) as [-> ?]; [lia..|]. specialize (Hlt (length r) ltac:(lia)). lia.
Qed.

(** The result climbs, and nothing longer does. *)
Lemma longestIncreasingSubsequence_longest :
  let r := longestIncreasingSubsequence seq in
  StronglySorted climbs r ∧ Forall (λ i, i < length seq) r ∧
  ∀ r', StronglySorted climbs r' → Forall (λ i, i < length seq) r' → length r' ≤ length r.
Proof.
  unfold longestIncreasingSubsequence.
  assert (Hinv : ∀ n, n ≤ length seq → lis_inv n (foldl (lis_deal seq) ([], replicate (length seq) (-1)%Z) (List.seq 0 n))).
  { induction n as [|n IH]; intros Hn.
    - split; simpl; [by rewrite length_replicate| |lia..|].
      + intros j Hj. apply lookup_total_replicate_2. lia.
      + intros r e _ [_ Hf]%Forall_app. rewrite Forall_singleton in Hf. lia.
    - rewrite seq_S, foldl_snoc. apply lis_deal_inv; [lia|]. apply IH. lia. }
  specialize (Hinv _ (Nat.le_refl _)). destruct (foldl _ _ _) as [tails prev].
  destruct Hinv as [Hp _ _ _ Ht Hbest]. cbn [fst snd] in *.
  destruct tails as [|k ts _] using rev_ind; cbn [last].
  - split_and!; [constructor..|]. intros r' Hs Hf. destruct r' as [|e r' _] using rev_ind; [done|].
    destruct (Hbest r' e Hs Hf). simpl in *. lia.
  - rewrite last_snoc. destruct (Ht (length ts)) as (l & Hll & _ & Hso & Hf & Hk); [rewrite length_app; simpl; lia|].
    rewrite (list_lookup_total_middle ts []) in Hk by done.
    assert (length l ≤ length seq).
    { destruct l as [|h l]; [simpl; lia|]. simpl in Hll. clear -Hso Hf.
      assert (Hle : length (h :: l) ≤ S h); [|apply Forall_cons in Hf as [? _]; lia].
      clear Hf. revert h Hso. induction l as [|h' l IH]; intros h Hso; [simpl; lia|].
      apply StronglySorted_inv in Hso as [Hso Hall]. specialize (IH h' Hso).
      apply Forall_cons in Hall as [[Hlt _] _]. simpl in *. lia. }
    rewrite (lis_walk_traced _ _ l) by (done || lia). simpl.
    split_and!; [by apply sorted_reverse|by rewrite Forall_reverse|].
    intros r' Hs' Hf'. rewrite length_reverse, Hll. destruct r' as [|e r' _] using rev_ind; [simpl; lia|].
    destruct (Hbest r' e Hs' Hf') as [Hl _]. rewrite !length_app in *. simpl in *. lia.
Qed.
End lis.

(** ** The keyed diff *)

Section diff.
Context {K V : Type} `{Countable K, EqDecision V}.

(** [collections.go] [type KeyValue] *)
Record KeyValue := mkKV { Key : K; Value : V }.

(** [collections.go] [type DiffOp] [type DiffOpInsert] [type DiffOpRemove] [type DiffOpMove] [type DiffOpUpdate] *)
Inductive DiffOp :=
| DiffOpInsert (key : K) (value : V) (index : nat)
| DiffOpRemove (key : K)
| DiffOpMove (key : K) (to : nat)
| DiffOpUpdate (key : K) (value : V).

Implicit Types (prior target : list KeyValue).

(** The index maps of the diff: a later entry overwrites an earlier one. *)
(** [collections.go] [lines 312-317 ReconcileDiff] *)
Definition priorIndex prior : gmap K nat :=
  foldl (λ m ie, <[Key ie.2 := ie.1]> m) ∅ (imap pair prior).
(** [collections.go] [lines 318-321 ReconcileDiff] *)
Definition valueIndex prior : gmap K V :=
  foldl (λ m e, <[Key e := Value e]> m) ∅ prior.

(** The common keys in target order with their prior indices. *)
(** [collections.go] [lines 333-342 ReconcileDiff] *)
Definition commonScan (pidx : gmap K nat) (st : gmap K nat * list K * list Z) (e : KeyValue) :
    gmap K nat * list K * list Z :=
  let '(commonIdxOf, commonKeys, priorIdxSeq) := st in
  match pidx !! Key e with
  | Some pi => (<[Key e := length commonKeys]> commonIdxOf, commonKeys ++ [Key e], priorIdxSeq ++ [Z.of_nat pi])
  | None => st
  end.

(** [collections.go] [ReconcileDiff] *)
Definition ReconcileDiff prior target : list DiffOp :=
  let pidx := priorIndex prior in
  let pval := valueIndex prior in
  let tval := valueIndex target in
  let removes := omap (λ e, match tval !! Key e with None => Some (DiffOpRemove (Key e)) | Some _ => None end) prior in
  let '(commonIdxOf, commonKeys, priorIdxSeq) := foldl (commonScan pidx) (∅, [], []) target in
  let stableSet : gset nat := list_to_set (longestIncreasingSubsequence priorIdxSeq) in
  let places := omap (λ te : nat * KeyValue,
    let '(ti, e) := te in
    match pidx !! Key e with
    | None => Some (DiffOpInsert (Key e) (Value e) ti)
    | Some _ =>
        let commonIdx := default 0 (commonIdxOf !! Key e) in
        if decide (commonIdx ∈ stableSet) then None else Some (DiffOpMove (Key e) ti)
    end) (imap pair target) in
  let updates := omap (λ e,
    match pval !! Key e with
    | Some pv => if decide (pv = Value e) then None else Some (DiffOpUpdate (Key e) (Value e))
    | None => None
    end) target in
  removes ++ places ++ updates.

(** The keys an operation list inserts, removes, moves and updates. *)
Definition op_move (op : DiffOp) : option K := match op with DiffOpMove k _ => Some k | _ => None end.
Definition op_remove (op : DiffOp) : option K := match op with DiffOpRemove k => Some k | _ => None end.
Definition op_insert (op : DiffOp) : option (nat * K * V) :=
  match op with DiffOpInsert k v i => Some (i, k, v) | _ => None end.
Definition op_update (op : DiffOp) : option (K * V) := match op with DiffOpUpdate k v => Some (k, v) | _ => None end.
Definition moved (ops : list DiffOp) : list K := omap op_move ops.

(** Keys of both sequences, in target order. *)
Definition common prior target : list K := filter (λ k, k ∈ Key <$> prior) (Key <$> target).

Lemma index_of_snoc (k x : K) l :
  x ∉ l → index_of k (l ++ [x]) = match index_of k l with
    | Some i => Some i | None => if decide (k = x) then Some (length l) else None end.
Proof.
  induction l as [|y l IH]; intros Hx; simpl.
  - destruct (decide (x = k)), (decide (k = x)); naive_solver.
  - apply not_elem_of_cons in Hx as [Hxy Hx]. destruct (decide (y = k)); [done|].
    rewrite IH by done. destruct (index_of k l); [done|]. by case_decide.
Qed.

Lemma priorIndex_index_of prior k : NoDup (Key <$> prior) → priorIndex prior !! k = index_of k (Key <$> prior).
Proof.
  unfold priorIndex. induction prior as [|e prior IH] using rev_ind; [done|].
  rewrite fmap_app, imap_app. csimpl. intros (Hnd & Hd & _)%NoDup_app. rewrite foldl_snoc. simpl.
  rewrite index_of_snoc by (intros Hin; by apply (Hd _ Hin), list_elem_of_singleton).
  rewrite Nat.add_0_r, length_fmap. destruct (decide (k = Key e)) as [->|Hne].
  - rewrite lookup_insert_eq, (proj2 (index_of_None _ _)); [done|].
    intros Hin. by apply (Hd _ Hin), list_elem_of_singleton.
  - rewrite lookup_insert_ne, IH by done. by destruct (index_of _ _).
Qed.

Lemma valueIndex_Some l k v :
  NoDup (Key <$> l) → valueIndex l !! k = Some v ↔ mkKV k v ∈ l.
Proof.
  unfold valueIndex. induction l as [|e l IH] using rev_ind.
  { intros _. rewrite elem_of_nil. simpl. rewrite lookup_empty. done. }
  rewrite fmap_app. csimpl. intros (Hnd & Hd & _)%NoDup_app. rewrite foldl_snoc, elem_of_app, list_elem_of_singleton.
  destruct (decide (k = Key e)) as [->|Hne].
  - rewrite lookup_insert_eq. split; [intros [= <-]; right; by destruct e|].
    intros [Hin| <-]; [|done]. exfalso. apply (Hd (Key e)); [|by left].
    apply list_elem_of_fmap. by exists (mkKV (Key e) v).
  - rewrite lookup_insert_ne, IH by done. split; [by left|]. intros [?|Heq]; [done|]. by subst.
Qed.

Lemma valueIndex_None l k : valueIndex l !! k = None ↔ k ∉ Key <$> l.
Proof.
  unfold valueIndex. induction l as [|e l IH] using rev_ind; [split; [set_solver|done]|].
  rewrite fmap_app, foldl_snoc. csimpl. rewrite not_elem_of_app, lookup_insert_None, IH.
  rewrite list_elem_of_singleton. naive_solver.
Qed.

Lemma pidx_is_Some prior k : NoDup (Key <$> prior) → is_Some (priorIndex prior !! k) ↔ k ∈ Key <$> prior.
Proof.
  intros Hnd. rewrite priorIndex_index_of by done. destruct (index_of k _) as [i|] eqn:E.
  - apply index_of_Some in E as [E%list_elem_of_lookup_2 _]. split; [done|eauto].
  - apply index_of_None in E. split; [by intros []|done].
Qed.

(** The scan of the target's common keys. *)
Lemma commonScan_spec prior target :
  NoDup (Key <$> prior) → NoDup (Key <$> target) →
  let '(cidx, ck, seq) := foldl (commonScan (priorIndex prior)) (∅, [], []) target in
  ck = common prior target ∧ (∀ k, cidx !! k = index_of k ck) ∧
  length seq = length ck ∧
  ∀ i k, ck !! i = Some k → ∃ p, index_of k (Key <$> prior) = Some p ∧ seq !!! i = Z.of_nat p.
Proof.
  intros Hp. unfold common. induction target as [|e target IH] using rev_ind.
  { intros _. split_and!; [done..|]. by intros i k Hi. }
  rewrite fmap_app. csimpl. intros (Hnd & Hd & _)%NoDup_app. specialize (IH Hnd).
  rewrite foldl_snoc. destruct (foldl _ _ _) as [[cidx ck] seq]. destruct IH as (Hck & Hc & Hl & Hs).
  rewrite filter_app. unfold commonScan.
  assert (Hnotin : Key e ∉ ck).
  { rewrite Hck. intros [_ Hin]%list_elem_of_filter. by apply (Hd _ Hin), list_elem_of_singleton. }
  pose proof (pidx_is_Some prior (Key e) Hp) as Hdom. rewrite priorIndex_index_of in * by done.
  destruct (index_of (Key e) (Key <$> prior)) as [pi|] eqn:E.
  - rewrite filter_cons_True by (apply Hdom; eauto). rewrite filter_nil, <-Hck.
    split_and!; [done| |rewrite !length_app; simpl; lia|].
    + intros k. rewrite index_of_snoc by done. destruct (decide (k = Key e)) as [->|Hne].
      * by rewrite lookup_insert_eq, (proj2 (index_of_None _ _)).
      * rewrite lookup_insert_ne, Hc by done. by destruct (index_of k ck).
    + intros i k [Hi|[Hi Hk]]%lookup_app_Some.
      * rewrite lookup_total_app_l; [by apply Hs|]. rewrite Hl. by apply lookup_lt_Some in Hi.
      * apply list_lookup_singleton_Some in Hk as [Hz <-]. exists pi. split; [done|].
        apply list_lookup_total_middle. lia.
  - rewrite filter_cons_False by (intros Hin; by apply Hdom in Hin as []). rewrite filter_nil, app_nil_r. done.
Qed.

(** Index lists of sublists. *)
Lemma sublist_indices (l1 l2 : list K) :
  l1 `sublist_of` l2 → ∃ r, StronglySorted lt r ∧ Forall2 (λ i k, l2 !! i = Some k) r l1.
Proof.
  induction 1 as [|x l1 l2 Hsub (r & Hr & Hf)|x l1 l2 Hsub (r & Hr & Hf)].
  - exists []. split; constructor.
  - exists (0 :: (S <$> r)). split.
    + constructor; [|apply Forall_fmap, Forall_true; simpl; lia].
      clear Hf. induction Hr as [|i r Hr IH Hi]; csimpl; constructor; [done|].
      apply Forall_fmap. eapply Forall_impl; [done|]. simpl. lia.
    + constructor; [done|]. apply Forall2_fmap_l. by eapply Forall2_impl.
  - exists (S <$> r). split.
    + clear Hf. induction Hr as [|i r Hr IH Hi]; csimpl; constructor; [done|].
      apply Forall_fmap. eapply Forall_impl; [done|]. simpl. lia.
    + apply Forall2_fmap_l. by eapply Forall2_impl.
Qed.

Lemma StronglySorted_lookup {A} (R : relation A) (l : list A) :
  StronglySorted R l ↔ ∀ i j x y, i < j → l !! i = Some x → l !! j = Some y → R x y.
Proof.
  induction l as [|a l IH]; [split; [done|constructor]|].
  rewrite StronglySorted_cons, IH, Forall_lookup. split.
  - intros [Ha Hl] [|i] [|j] x y Hij Hx Hy; simpl in *; try lia; [injection Hx as <-; by eapply Ha|].
    eapply Hl; [|done..]. lia.
  - intros Hl. split.
    + intros j y Hy. by eapply (Hl 0 (S j)); [lia|..].
    + intros i j x y Hij Hx Hy. by eapply (Hl (S i) (S j)); [lia|..].
Qed.

Lemma StronglySorted_sublist {A} (R : relation A) (l1 l2 : list A) :
  l1 `sublist_of` l2 → StronglySorted R l2 → StronglySorted R l1.
Proof.
  induction 1 as [|x l1 l2 Hsub IH|x l1 l2 Hsub IH]; [done| |]; rewrite ?StronglySorted_cons; intros [Hx Hl].
  - split; [|by apply IH]. rewrite Forall_forall in *. intros y Hy. apply Hx. by eapply elem_of_submseteq, sublist_submseteq.
  - by apply IH.
Qed.

(** The order of a duplicate-free sequence, as a relation on its elements. *)
Definition before (l : list K) (x y : K) : Prop :=
  ∃ i j, i < j ∧ l !! i = Some x ∧ l !! j = Some y.

Lemma before_sorted (l : list K) : StronglySorted (before l) l.
Proof. apply StronglySorted_lookup. intros i j x y ???. by exists i, j. Qed.

(** Two arrangements of the same keys in one sequence's order are equal. *)
Lemma before_unique (l l1 l2 : list K) :
  NoDup l → StronglySorted (before l) l1 → StronglySorted (before l) l2 → l1 ≡ₚ l2 → l1 = l2.
Proof.
  intros Hnd H1 H2 Hp. revert l2 H2 Hp. induction H1 as [|x l1 H1 IH Hx]; intros l2 H2 Hp.
  { by apply Permutation_nil_l in Hp as ->. }
  destruct H2 as [|y l2 H2 Hy]; [by apply Permutation_nil_r in Hp|].
  rewrite Forall_forall in Hx, Hy.
  assert (x = y) as ->; [|f_equal; apply IH; [done|by apply Permutation_cons_inv in Hp]].
  destruct (decide (x = y)) as [|Hne]; [done|exfalso].
  assert (Hxin : x ∈ l2) by (assert (x ∈ y :: l2) by (rewrite <-Hp; left); set_solver).
  assert (Hyin : y ∈ l1) by (assert (y ∈ x :: l1) by (rewrite Hp; left); set_solver).
  destruct (Hx y Hyin) as (i & j & Hij & Hi & Hj), (Hy x Hxin) as (i' & j' & Hij' & Hi' & Hj').
  pose proof (NoDup_lookup _ _ _ _ Hnd Hi Hj'). pose proof (NoDup_lookup _ _ _ _ Hnd Hj Hi'). lia.
Qed.

(** The keys the diff leaves in place: the common keys that do not move. *)
Definition kept prior target : list K :=
  filter (λ k, k ∉ moved (ReconcileDiff prior target)) (common prior target).

(** The diff, part by part. *)
Lemma moved_spec prior target :
  NoDup (Key <$> prior) → NoDup (Key <$> target) →
  ∃ seq, length seq = length (common prior target) ∧
    (∀ i k, common prior target !! i = Some k →
       ∃ p, index_of k (Key <$> prior) = Some p ∧ seq !!! i = Z.of_nat p) ∧
    ∀ k, k ∈ moved (ReconcileDiff prior target) ↔
      ∃ i, common prior target !! i = Some k ∧ i ∉ longestIncreasingSubsequence seq.
Proof.
  intros Hp Ht. pose proof (commonScan_spec prior target Hp Ht) as Hscan. unfold ReconcileDiff, moved.
  destruct (foldl _ _ _) as [[cidx ck] seq]. destruct Hscan as (-> & Hc & Hl & Hs).
  exists seq. split_and!; [done..|]. intros k. rewrite !omap_app, !elem_of_app, !list_elem_of_omap.
  split.
  - intros [(op & Hop%list_elem_of_omap & Hk)|[(op & Hop%list_elem_of_omap & Hk)|(op & Hop%list_elem_of_omap & Hk)]].
    1,3: destruct Hop as (e & _ & He); repeat case_match; simplify_eq; done.
    destruct Hop as ([i e] & Hin & He). apply elem_of_lookup_imap in Hin as (? & ? & [= <- <-] & Hin).
    destruct (priorIndex prior !! Key _) as [pi|] eqn:E; [|by injection He as <-].
    case_decide as Hd; [done|]. injection He as <-. simpl in Hk. injection Hk as <-.
    rewrite Hc in Hd. assert (Hck : Key e ∈ common prior target).
    { apply list_elem_of_filter. rewrite <-pidx_is_Some, E by done. split; [eauto|].
      apply list_elem_of_fmap_2. by eapply list_elem_of_lookup_2. }
    destruct (index_of (Key e) (common prior target)) as [j|] eqn:Ej; [|by destruct (proj1 (index_of_None _ _) Ej)].
    exists j. simpl in Hd. rewrite elem_of_list_to_set in Hd. split; [by destruct (index_of_Some _ _ _ Ej)|done].
  - intros (i & Hi & Hin). right; left.
    assert (Hk : k ∈ common prior target) by (by eapply list_elem_of_lookup_2).
    apply list_elem_of_filter in Hk as [Hkp Hkt].
    apply list_elem_of_fmap in Hkt as (e & -> & He). apply list_elem_of_lookup_1 in He as [ti He].
    exists (DiffOpMove (Key e) ti). split; [|done]. apply list_elem_of_omap. exists (ti, e). split.
    { apply elem_of_lookup_imap. eauto. }
    rewrite <-pidx_is_Some in Hkp by done. destruct Hkp as [pi ->]. rewrite Hc.
    assert (index_of (Key e) (common prior target) = Some i) as ->.
    { assert (Hnd : NoDup (common prior target)) by (by apply NoDup_filter).
      destruct (index_of (Key e) _) as [j|] eqn:E.
      - apply index_of_Some in E as [E _]. f_equal. by eapply NoDup_lookup.
      - apply index_of_None in E. destruct E. by eapply list_elem_of_lookup_2. }
    simpl. by rewrite decide_False by (by rewrite elem_of_list_to_set).
Qed.

Lemma omap_omap_nil {A B C} (f : A → option B) (g : B → option C) l :
  (∀ x y, f x = Some y → g y = None) → omap g (omap f l) = [].
Proof.
  intros Hfg. induction l as [|x l IH]; csimpl; [done|].
  destruct (f x) as [y|] eqn:E; csimpl; [by rewrite (Hfg x y E)|done].
Qed.

Lemma omap_sublist {A B C} (f : A → option B) (g : B → option C) (h : A → C) l :
  (∀ x y z, f x = Some y → g y = Some z → z = h x) → omap g (omap f l) `sublist_of` h <$> l.
Proof.
  intros Hfg. induction l as [|x l IH]; csimpl; [constructor|].
  destruct (f x) as [y|] eqn:E; csimpl; [|by constructor].
  destruct (g y) as [z|] eqn:E2; [|by constructor]. rewrite (Hfg x y z E E2). by constructor.
Qed.

Ltac diff_cases := intros; repeat case_match; simplify_eq/=; done.

Lemma moved_sublist prior target : moved (ReconcileDiff prior target) `sublist_of` Key <$> target.
Proof.
  unfold ReconcileDiff, moved. destruct (foldl _ _ _) as [[cidx ck] seq].
  rewrite !omap_app, (omap_omap_nil _ op_move prior), (omap_omap_nil _ op_move target), app_nil_r; [simpl|diff_cases..].
  replace (Key <$> target) with ((λ te : nat * KeyValue, Key te.2) <$> imap pair target).
  - apply omap_sublist. intros [ti e] op k. diff_cases.
  - apply list_eq. intros j. rewrite !list_lookup_fmap, list_lookup_imap. by destruct (target !! j).
Qed.

Lemma removed_spec prior target :
  omap op_remove (ReconcileDiff prior target) = filter (λ k, k ∉ Key <$> target) (Key <$> prior).
Proof.
  unfold ReconcileDiff. destruct (foldl _ _ _) as [[cidx ck] seq].
  rewrite !omap_app, (omap_omap_nil _ op_remove target), app_nil_r by diff_cases.
  rewrite (omap_omap_nil _ op_remove (imap _ _)), app_nil_r by (intros [] ?; diff_cases).
  induction prior as [|e prior IH]; [done|]. csimpl. pose proof (valueIndex_None target (Key e)) as Hv.
  destruct (valueIndex target !! Key e) as [v|] eqn:E; csimpl; rewrite ?IH.
  - rewrite filter_cons_False; [done|]. intros Hk. by apply Hv in Hk.
  - by rewrite filter_cons_True by (by apply Hv).
Qed.

Lemma inserted_spec prior target :
  NoDup (Key <$> prior) →
  omap op_insert (ReconcileDiff prior target) =
    filter (λ ikv, ikv.1.2 ∉ Key <$> prior) (imap (λ i e, (i, Key e, Value e)) target).
Proof.
  intros Hp. unfold ReconcileDiff. destruct (foldl _ _ _) as [[cidx ck] seq].
  rewrite !omap_app, (omap_omap_nil _ op_insert prior), (omap_omap_nil _ op_insert target), app_nil_r by diff_cases.
  simpl.
  assert (Hi : imap (λ i e, (i, Key e, Value e)) target = (λ ie : nat * KeyValue, (ie.1, Key ie.2, Value ie.2)) <$> imap pair target)
    by (by rewrite fmap_imap).
  rewrite Hi. clear Hi. induction (imap pair target) as [|[ti e] l IH]; [done|]. csimpl.
  pose proof (pidx_is_Some prior (Key e) Hp) as Hv.
  destruct (priorIndex prior !! Key e) as [pi|]; csimpl.
  - rewrite filter_cons_False by (simpl; rewrite <-Hv; intros []; eauto). case_decide; csimpl; by rewrite IH.
  - rewrite filter_cons_True by (simpl; rewrite <-Hv; by intros []). by rewrite IH.
Qed.

Lemma updated_spec prior target k v :
  NoDup (Key <$> prior) →
  (k, v) ∈ omap op_update (ReconcileDiff prior target) ↔
  mkKV k v ∈ target ∧ ∃ pv, mkKV k pv ∈ prior ∧ pv ≠ v.
Proof.
  intros Hp. unfold ReconcileDiff. destruct (foldl _ _ _) as [[cidx ck] seq].
  rewrite !omap_app, (omap_omap_nil _ op_update prior) by diff_cases.
  rewrite (omap_omap_nil _ op_update (imap _ _)) by (intros [] ?; diff_cases). simpl.
  rewrite list_elem_of_omap. split.
  - intros (op & Hop%list_elem_of_omap & Hk). destruct Hop as (e & Hin & He).
    destruct (valueIndex prior !! Key e) as [pv|] eqn:E; [|done]. case_decide; [done|].
    injection He as <-. simpl in Hk. injection Hk as <- <-. apply valueIndex_Some in E; [|done].
    split; [by destruct e|]. by exists pv.
  - intros (Hin & pv & Hpv & Hne). exists (DiffOpUpdate k v). split; [|done].
    apply list_elem_of_omap. exists (mkKV k v). split; [done|]. simpl.
    rewrite (proj2 (valueIndex_Some prior k pv Hp) Hpv). by rewrite decide_False.
Qed.

Lemma Forall2_lookup_pair {A B} (P : A → B → Prop) l k i x :
  Forall2 P l k → l !! i = Some x → ∃ y, k !! i = Some y ∧ P x y.
Proof. intros Hf Hx. destruct (Forall2_lookup_l _ _ _ _ _ Hf Hx) as (y & ? & ?). eauto. Qed.

(** Position lists read in a climbing set of positions compare as their values. *)
Lemma climbing_values seq r i j :
  StronglySorted (climbs seq) r → i ∈ r → j ∈ r → i < j → (seq !!! i < seq !!! j)%Z.
Proof.
  intros Hs [a Ha]%list_elem_of_lookup [b Hb]%list_elem_of_lookup Hij.
  rewrite (StronglySorted_lookup (climbs seq)) in Hs.
  destruct (decide (a < b)) as [Hab|Hab]; [by destruct (Hs a b i j Hab Ha Hb)|].
  destruct (decide (a = b)) as [->|]; [rewrite Ha in Hb; simplify_eq; lia|].
  destruct (Hs b a j i) as [? _]; [lia|done..|lia].
Qed.

Lemma filter_sublist (P : K → Prop) `{!∀ k, Decision (P k)} (l1 l2 : list K) :
  l1 `sublist_of` l2 → filter P l1 `sublist_of` filter P l2.
Proof.
  induction 1 as [|x l1 l2 Hsub IH|x l1 l2 Hsub IH]; [done|..]; rewrite !filter_cons; case_decide; try done;
    by constructor.
Qed.

(** The kept keys stand in prior order, and no larger set could. *)
Lemma kept_longest prior target :
  NoDup (Key <$> prior) → NoDup (Key <$> target) →
  StronglySorted (before (Key <$> prior)) (kept prior target) ∧
  ∀ fixed, fixed `sublist_of` (Key <$> prior) → fixed `sublist_of` (Key <$> target) →
    length fixed ≤ length (kept prior target).
Proof.
  intros Hp Ht. destruct (moved_spec prior target Hp Ht) as (seq & Hlen & Hseq & Hmoved).
  destruct (longestIncreasingSubsequence_longest seq) as (Hclimb & Hrange & Hbest).
  set (r := longestIncreasingSubsequence seq) in *. set (ck := common prior target) in *.
  assert (Hck : NoDup ck) by (by apply NoDup_filter).
  assert (Hkept : ∀ i k, ck !! i = Some k → k ∈ kept prior target ↔ i ∈ r).
  { intros i k Hi. unfold kept. rewrite list_elem_of_filter, Hmoved. fold ck. split.
    - intros [Hn _]. apply dec_stable. intros Hnr. apply Hn. by exists i.
    - intros Hr. split; [|by eapply list_elem_of_lookup_2]. intros (j & Hj & Hnr).
      by rewrite (NoDup_lookup _ _ _ _ Hck Hj Hi) in Hnr. }
  split.
  - assert (Hsub : kept prior target `sublist_of` ck) by apply sublist_filter.
    destruct (sublist_indices _ _ Hsub) as (js & Hjs & Hf). apply StronglySorted_lookup. pose proof (proj1 (StronglySorted_lookup lt js) Hjs) as Hjs'.
    intros a b x y Hab Hx Hy.
    destruct (Forall2_lookup_r _ _ _ _ _ Hf Hx) as (i & Hia & Hi), (Forall2_lookup_r _ _ _ _ _ Hf Hy) as (j & Hjb & Hj).
    pose proof (Hjs' a b i j Hab Hia Hjb) as Hij.
    destruct (Hseq i x Hi) as (px & Hpx & Hsx), (Hseq j y Hj) as (py & Hpy & Hsy).
    assert (Hv : (seq !!! i < seq !!! j)%Z).
    { apply (climbing_values seq r); [done| | |done].
      - apply (Hkept i x Hi). by eapply list_elem_of_lookup_2.
      - apply (Hkept j y Hj). by eapply list_elem_of_lookup_2. }
    exists px, py. apply index_of_Some in Hpx as [Hpx _], Hpy as [Hpy _]. split_and!; [lia|done..].
  - intros fixed Hfp Hft.
    assert (Hfc : fixed `sublist_of` ck).
    { replace fixed with (filter (λ k, k ∈ Key <$> prior) fixed).
      - by apply filter_sublist.
      - clear -Hfp. assert (Hin : ∀ k, k ∈ fixed → k ∈ Key <$> prior)
          by (intros; by eapply elem_of_submseteq, sublist_submseteq).
        clear Hfp. induction fixed as [|k l IH]; [done|]. rewrite filter_cons_True by (apply Hin; left).
        f_equal. apply IH. intros. apply Hin. by right. }
    destruct (sublist_indices _ _ Hfc) as (r' & Hr' & Hf1), (sublist_indices _ _ Hfp) as (r2 & Hr2 & Hf2).
    assert (Hl : length fixed ≤ length r).
    { rewrite <-(Forall2_length _ _ _ Hf1). apply Hbest.
      - apply StronglySorted_lookup. rewrite (StronglySorted_lookup lt) in Hr', Hr2. intros a b i j Hab Hi Hj. split; [by apply (Hr' a b)|].
        destruct (Forall2_lookup_pair _ _ _ _ _ Hf1 Hi) as (x & Hx & Hix), (Forall2_lookup_pair _ _ _ _ _ Hf1 Hj) as (y & Hy & Hjy).
        destruct (Forall2_lookup_r _ _ _ _ _ Hf2 Hx) as (px & Hpa & Hpx), (Forall2_lookup_r _ _ _ _ _ Hf2 Hy) as (py & Hpb & Hpy).
        pose proof (Hr2 a b px py Hab Hpa Hpb).
        destruct (Hseq i x Hix) as (px' & [Hpx' _]%index_of_Some & ->), (Hseq j y Hjy) as (py' & [Hpy' _]%index_of_Some & ->).
        rewrite (NoDup_lookup _ _ _ _ Hp Hpx' Hpx), (NoDup_lookup _ _ _ _ Hp Hpy' Hpy). lia.
      - apply Forall_forall. intros i [a Ha]%list_elem_of_lookup.
        destruct (Forall2_lookup_pair _ _ _ _ _ Hf1 Ha) as (x & _ & Hx). rewrite Hlen. by apply lookup_lt_Some in Hx. }
    etrans; [exact Hl|].
    transitivity (length (omap (λ k, index_of k ck) (kept prior target))).
    + apply submseteq_length, NoDup_submseteq.
      * apply NoDup_alt. intros a b i Ha Hb. rewrite (StronglySorted_lookup (climbs seq)) in Hclimb.
        destruct (decide (a < b)); [by destruct (Hclimb a b i i); [done..|lia]|].
        destruct (decide (b < a)); [by destruct (Hclimb b a i i); [done..|lia]|lia].
      * intros i Hi. assert (Hil : i < length ck) by (rewrite <-Hlen; rewrite Forall_forall in Hrange; by apply Hrange).
        apply lookup_lt_is_Some_2 in Hil as [k Hk]. apply list_elem_of_omap. exists k.
        split; [by apply (Hkept i k Hk)|].
        destruct (index_of k ck) as [j|] eqn:E.
        { apply index_of_Some in E as [E _]. f_equal. by eapply NoDup_lookup. }
        apply index_of_None in E. destruct E. by eapply list_elem_of_lookup_2.
    + generalize (kept prior target). intros l. induction l as [|k l IH]; csimpl; [done|].
      destruct (index_of k ck); simpl; lia.
Qed.

(** C31: the diff is right and moves as little as any diff can.  For sequences
    without duplicate keys it removes exactly the keys the target lacks, inserts
    exactly the new ones with their target index and value, and updates exactly
    the common keys whose value changed.  The keys it leaves in place stand in
    the same order in both sequences, and no set of keys that does so is larger,
    so no diff moves fewer keys. *)
Theorem ReconcileDiff_minimal prior target :
  NoDup (Key <$> prior) → NoDup (Key <$> target) →
  let ops := ReconcileDiff prior target in
  let in_place := kept prior target in
  omap op_remove ops = filter (λ k, k ∉ Key <$> target) (Key <$> prior) ∧
  omap op_insert ops = filter (λ ikv, ikv.1.2 ∉ Key <$> prior) (imap (λ i e, (i, Key e, Value e)) target) ∧
  (∀ k v, (k, v) ∈ omap op_update ops ↔ mkKV k v ∈ target ∧ ∃ pv, mkKV k pv ∈ prior ∧ pv ≠ v) ∧
  moved ops ++ in_place ≡ₚ common prior target ∧
  filter (λ k, k ∈ in_place) (Key <$> prior) = in_place ∧
  filter (λ k, k ∈ in_place) (Key <$> target) = in_place ∧
  ∀ fixed, fixed `sublist_of` (Key <$> prior) → fixed `sublist_of` (Key <$> target) →
    length fixed + length (moved ops) ≤ length (common prior target).
Proof.
  intros Hp Ht ops in_place. destruct (kept_longest prior target Hp Ht) as [Hsorted Hbest].
  assert (Hck : NoDup (common prior target)) by (by apply NoDup_filter).
  assert (Hnd : NoDup in_place) by (by apply NoDup_filter).
  assert (Hsplit : moved ops ++ in_place ≡ₚ common prior target).
  { assert (Hm : moved ops ≡ₚ filter (λ k, k ∈ moved ops) (common prior target)).
    { apply NoDup_Permutation; [by eapply sublist_NoDup; [|apply moved_sublist]|by apply NoDup_filter|].
      intros k. rewrite list_elem_of_filter. split; [|naive_solver]. intros Hk. split; [done|].
      destruct (moved_spec prior target Hp Ht) as (seq & _ & _ & Hmv).
      destruct (proj1 (Hmv k) Hk) as (i & Hi & _). by eapply list_elem_of_lookup_2. }
    rewrite Hm at 1. apply filter_app_complement. }
  assert (Hin : ∀ k, k ∈ in_place → k ∈ common prior target)
    by (intros k Hk; by apply list_elem_of_filter in Hk as [_ Hk]).
  split_and!; [apply removed_spec|by apply inserted_spec|intros; by apply updated_spec|done| | |].
  - apply (before_unique (Key <$> prior)); [done| |done|].
    + eapply StronglySorted_sublist; [apply sublist_filter|apply before_sorted].
    + apply NoDup_Permutation; [by apply NoDup_filter|done|]. intros k. rewrite list_elem_of_filter.
      split; [naive_solver|]. intros Hk. split; [done|]. by apply Hin, list_elem_of_filter in Hk as [? _].
  - trans (filter (λ k, (k ∉ moved ops) ∧ k ∈ Key <$> prior) (Key <$> target)).
    + apply filter_ext_in. intros k Hk. unfold in_place, kept, common. rewrite !list_elem_of_filter. tauto.
    + symmetry. apply list_filter_filter.
  - intros fixed Hfp Hft. rewrite <-Hsplit, length_app. specialize (Hbest fixed Hfp Hft).
    unfold in_place. lia.
Qed.

(** The three phases of a diff, and the shape of their operations. *)
Lemma diff_phases prior target :
  ∃ rs ps us, ReconcileDiff prior target = rs ++ ps ++ us ∧
    Forall (λ op, is_Some (op_remove op)) rs ∧
    Forall (λ op, is_Some (op_insert op) ∨ is_Some (op_move op)) ps ∧
    Forall (λ op, is_Some (op_update op)) us.
Proof.
  unfold ReconcileDiff. destruct (foldl _ _ _) as [[cidx ck] seq].
  do 3 eexists. split; [reflexivity|]. split_and!; apply Forall_forall; intros op (x & _ & Hx)%list_elem_of_omap.
  - repeat case_match; simplify_eq. eauto.
  - destruct x. repeat case_match; simplify_eq; simpl; eauto.
  - repeat case_match; simplify_eq. eauto.
Qed.

(** What each operation of a diff says about its key. *)
Lemma diff_member prior target op :
  NoDup (Key <$> prior) → op ∈ ReconcileDiff prior target →
  match op with
  | DiffOpInsert k v _ => mkKV k v ∈ target ∧ k ∉ Key <$> prior
  | DiffOpRemove k => k ∈ Key <$> prior ∧ k ∉ Key <$> target
  | DiffOpMove k _ => True
  | DiffOpUpdate k v => mkKV k v ∈ target ∧ ∃ pv, mkKV k pv ∈ prior ∧ pv ≠ v
  end.
Proof.
  intros Hp Hop. destruct op as [k v i|k|k i|k v]; [| |done|].
  - assert (Hi : (i, k, v) ∈ omap op_insert (ReconcileDiff prior target))
      by (apply list_elem_of_omap; by exists (DiffOpInsert k v i)).
    rewrite inserted_spec in Hi by done. apply list_elem_of_filter in Hi as [Hk Hi]. simpl in Hk.
    apply elem_of_lookup_imap in Hi as (? & e & [= <- -> ->] & He). split; [|done].
    destruct e. by eapply list_elem_of_lookup_2.
  - assert (Hi : k ∈ omap op_remove (ReconcileDiff prior target))
      by (apply list_elem_of_omap; by exists (DiffOpRemove k)).
    rewrite removed_spec in Hi. by apply list_elem_of_filter in Hi as [? ?].
  - apply updated_spec; [done|]. apply list_elem_of_omap. by exists (DiffOpUpdate k v).
Qed.
End diff.
Arguments KeyValue : clear implicits.
Arguments DiffOp : clear implicits.

Example diff_small :
  ReconcileDiff [mkKV "a" 1; mkKV "b" 2; mkKV "c" 3; mkKV "d" 4] [mkKV "c" 3; mkKV "a" 7; mkKV "x" 9; mkKV "d" 4] =
  [DiffOpRemove "b"; DiffOpMove "c" 0; DiffOpInsert "x" 9 2; DiffOpUpdate "a" 7].
Proof. vm_compute. reflexivity. Qed.

Lemma ReconcileDiff_minimal_witness :
  moved (ReconcileDiff [mkKV "a" 1; mkKV "b" 2; mkKV "c" 3; mkKV "d" 4]
    [mkKV "c" 3; mkKV "a" 7; mkKV "x" 9; mkKV "d" 4]) = ["c"] ∧
  ∀ fixed, fixed `sublist_of` ["a"; "b"; "c"; "d"] → fixed `sublist_of` ["c"; "a"; "x"; "d"] → length fixed ≤ 2.
Proof.
  split; [vm_compute; reflexivity|]. intros fixed Hp Ht.
  pose proof (ReconcileDiff_minimal [mkKV "a" 1; mkKV "b" 2; mkKV "c" 3; mkKV "d" 4]
    [mkKV "c" 3; mkKV "a" 7; mkKV "x" 9; mkKV "d" 4]) as Hmin.
  destruct Hmin as (_ & _ & _ & _ & _ & _ & Hbest); [apply (bool_decide_unpack _); by vm_compute..|].
  specialize (Hbest fixed Hp Ht).
  replace (length (moved _)) with 1 in Hbest by (vm_compute; reflexivity).
  replace (length (common _ _)) with 3 in Hbest by (vm_compute; reflexivity). lia.
Defined.

(** ** Reconciling a map of cells *)

Section reconcile.
Context {K V : Type} `{Countable K, EqDecision V, Inhabited K, Inhabited V}.
Implicit Types (m : SourceMap K V) (key : K) (op : DiffOp K V).

(** One operation of the diff, applied to the map. *)
(** [collections.go] [lines 221-230 SourceMap.Reconcile] *)
Definition applyDiffOp m op : SourceMap K V :=
  match op with
  | DiffOpInsert key value _ => (Insert m key value InsertAtEnd inhabitant).1
  | DiffOpRemove key => (Remove m key).1
  | DiffOpMove key to => (MoveTo m key (Z.of_nat to)).1
  | DiffOpUpdate key value => Set_ m key value
  end.

(** Missing target values read as the zero value, as Go's map lookup does. *)
(** [collections.go] [SourceMap.Reconcile] *)
Definition Reconcile m (targetOrder : list K) (targetValues : gmap K V) : SourceMap K V :=
  let prior := (λ k, mkKV k (default inhabitant (Get m k))) <$> KeyedOrder.order (keyed m) in
  let target := (λ k, mkKV k (default inhabitant (targetValues !! k))) <$> targetOrder in
  foldl applyDiffOp m (ReconcileDiff prior target).

(** A diff operation as an operation of the map. *)
Definition as_mapOp op : mapOp (K := K) (V := V) :=
  match op with
  | DiffOpInsert key value _ => MInsert key value InsertAtEnd inhabitant
  | DiffOpRemove key => MRemove key
  | DiffOpMove key to => MMoveTo key (Z.of_nat to)
  | DiffOpUpdate key value => MSet key value
  end.

Lemma applyDiffOp_step m op : applyDiffOp m op = map_step m (as_mapOp op).
Proof. by destruct op. Qed.

Lemma apply_all_inv m (ops : list (DiffOp K V)) : map_inv m → map_inv (foldl applyDiffOp m ops).
Proof.
  revert m. induction ops as [|op ops IH]; intros m Hm; [done|]. simpl. apply IH.
  rewrite applyDiffOp_step. by apply map_step_frame.
Qed.

Lemma apply_all_Get m (ops : list (DiffOp K V)) key :
  map_inv m → Get (foldl applyDiffOp m ops) key = foldl (λ b op, value_after (as_mapOp op) key b) (Get m key) ops.
Proof.
  revert m. induction ops as [|op ops IH]; intros m Hm; [done|]. simpl.
  destruct (map_step_frame m (as_mapOp op) Hm) as [Hf Hg]. rewrite IH.
  - by rewrite applyDiffOp_step, Hg.
  - rewrite applyDiffOp_step. apply Hf.
Qed.

(** Operations that do not name a key leave its cell alone. *)
Lemma apply_all_plane m (ops : list (DiffOp K V)) key :
  map_inv m → (∀ op, op ∈ ops → key ∉ touched (as_mapOp op)) → plane (foldl applyDiffOp m ops) key = plane m key.
Proof.
  revert m. induction ops as [|op ops IH]; intros m Hm Ht; [done|]. simpl.
  destruct (map_step_frame m (as_mapOp op) Hm) as [Hf _]. rewrite applyDiffOp_step, IH.
  - apply Hf, Ht. left.
  - apply Hf.
  - intros op' Hop. apply Ht. by right.
Qed.

Lemma Get_entries m key : map_inv m → is_Some (Get m key) ↔ is_Some (KeyedOrder.entries (keyed m) !! key).
Proof.
  intros Hm. rewrite Get_plane. destruct (KeyedOrder.entries (keyed m) !! key) as [h|] eqn:E.
  - destruct (plane_present m key h Hm E) as [c ->]. csimpl. split; intros _; eauto.
  - unfold plane. rewrite E. csimpl. split; intros [? [=]].
Qed.

(** Without a removal, a key keeps its handle. *)
Lemma apply_all_handle m (ops : list (DiffOp K V)) key h :
  map_inv m → (∀ op, op ∈ ops → op ≠ DiffOpRemove key) →
  KeyedOrder.entries (keyed m) !! key = Some h →
  KeyedOrder.entries (keyed (foldl applyDiffOp m ops)) !! key = Some h.
Proof.
  revert m. induction ops as [|op ops IH]; intros m Hm Ht Hk; [done|]. simpl.
  destruct (map_step_frame m (as_mapOp op) Hm) as [Hf Hg]. rewrite applyDiffOp_step. apply IH.
  - apply Hf.
  - intros op' Hop. apply Ht. by right.
  - assert (Hs : is_Some (Get (map_step m (as_mapOp op)) key)).
    { rewrite Hg. assert (Hp : is_Some (Get m key)) by (apply Get_entries; eauto).
      specialize (Ht op ltac:(left)). destruct Hp as [v ->].
      destruct op; simpl; try case_decide; eauto. by subst. }
    apply Get_entries in Hs as [h' Hh']; [|apply Hf]. rewrite Hh'. f_equal. by eapply fr_handles.
Qed.

Lemma fold_value (f : option V → DiffOp K V → option V) (ops : list (DiffOp K V)) b v :
  (∀ op, op ∈ ops → (∀ b, f b op = b) ∨ (∀ b, f b op = v)) →
  b = v ∨ (∃ op, op ∈ ops ∧ ∀ b, f b op = v) → foldl f b ops = v.
Proof.
  revert b. induction ops as [|op ops IH]; intros b Hall Hb; simpl.
  { destruct Hb as [?|(op & Hop & _)]; [done|by apply not_elem_of_nil in Hop]. }
  apply IH; [intros op' Hop; apply Hall; by right|].
  destruct (Hall op ltac:(left)) as [Ho|Ho]; [|by left]. rewrite Ho.
  destruct Hb as [?|(op' & [->|Hop]%elem_of_cons & Hset)]; [by left| |right; eauto].
  left. by rewrite <-(Ho b), Hset.
Qed.

(** What the operations do to the key order. *)
Lemma Remove_Keys m key : map_inv m → Keys (Remove m key).1 = filter (λ k, k ≠ key) (Keys m).
Proof.
  intros Hm. pose proof (remove_order _ key (mi_lockstep _ Hm)) as Hord.
  unfold Remove, Keys, keyedOrder_keys. unfold keyedOrder_remove in *.
  destruct (KeyedOrder.entries (keyed m) !! key) as [h|] eqn:E; simpl in *; [done|].
  symmetry. apply filter_ne_notin. rewrite (proj2 (mi_lockstep _ Hm)), E. by intros [].
Qed.

Lemma Insert_Keys m key v a : map_inv m → key ∉ Keys m → Keys (Insert m key v InsertAtEnd a).1 = Keys m ++ [key].
Proof.
  intros Hm Hk. unfold Keys, keyedOrder_keys in Hk. rewrite (proj2 (mi_lockstep _ Hm)), <-eq_None_not_Some in Hk.
  unfold Insert, keyedOrder_contains. rewrite bool_decide_eq_false_2 by (rewrite Hk; by intros []).
  unfold EntryWith, keyedOrder_get. rewrite Hk. by apply mintWith_new.
Qed.

Lemma Set_Keys m key v : map_inv m → key ∈ Keys m → Keys (Set_ m key v) = Keys m.
Proof.
  intros Hm Hk. apply (proj2 (mi_lockstep _ Hm)) in Hk as [h Hh].
  unfold Set_, keyedOrder_get. by rewrite Hh.
Qed.

Lemma removes_Keys m (ops : list (DiffOp K V)) :
  map_inv m → Forall (λ op, is_Some (op_remove op)) ops →
  Keys (foldl applyDiffOp m ops) = filter (λ k, k ∉ omap op_remove ops) (Keys m).
Proof.
  intros Hm Hall. revert m Hm. induction Hall as [|op ops [k Hk] Hall IH]; intros m Hm; simpl.
  { generalize (Keys m). intros l. induction l as [|x l IH]; [done|].
    rewrite filter_cons_True by apply not_elem_of_nil. by rewrite <-IH. }
  destruct op; simplify_eq/=. rewrite IH, Remove_Keys by (done || by apply (map_step_frame m (MRemove k))).
  rewrite list_filter_filter. apply list_filter_iff. intros x. rewrite not_elem_of_cons. tauto.
Qed.

Lemma inserts_Keys m (ops : list (DiffOp K V)) :
  map_inv m → Forall (λ op, is_Some (op_insert op)) ops →
  NoDup (Keys m ++ ((λ ikv, ikv.1.2) <$> omap op_insert ops)) →
  Keys (foldl applyDiffOp m ops) = Keys m ++ ((λ ikv, ikv.1.2) <$> omap op_insert ops).
Proof.
  intros Hm Hall. revert m Hm. induction Hall as [|op ops [k Hk] Hall IH]; intros m Hm Hnd; csimpl.
  { by rewrite app_nil_r. }
  destruct op as [key v j| | |]; simplify_eq/=.
  assert (Hins : Keys (Insert m key v InsertAtEnd inhabitant).1 = Keys m ++ [key]).
  { apply Insert_Keys; [done|]. apply NoDup_app in Hnd as (_ & Hd & _). intros Hin. apply (Hd _ Hin). left. }
  rewrite IH; rewrite ?Hins, <-?app_assoc; try done.
  by apply (map_step_frame m (MInsert key v InsertAtEnd inhabitant)).
Qed.

Lemma updates_Keys m (ops : list (DiffOp K V)) :
  map_inv m → Forall (λ op, ∃ kv, op_update op = Some kv ∧ kv.1 ∈ Keys m) ops →
  Keys (foldl applyDiffOp m ops) = Keys m.
Proof.
  intros Hm Hall. revert m Hm Hall. induction ops as [|op ops IH]; intros m Hm Hall; [done|].
  apply Forall_cons in Hall as [([k v] & Hop & Hk) Hall]. destruct op; simplify_eq/=.
  pose proof (Set_Keys m k v Hm Hk) as Hs. rewrite IH; rewrite ?Hs; try done.
  by apply (map_step_frame m (MSet k v)).
Qed.

(** ** Values, handles and order after a reconciliation *)

Section run.
Context (m : SourceMap K V) (targetOrder : list K) (targetValues : gmap K V).
Context (Hm : map_inv m) (Hnd : NoDup targetOrder).
Let wanted key : V := default inhabitant (targetValues !! key).
Let prior := (λ k, mkKV k (default inhabitant (Get m k))) <$> KeyedOrder.order (keyed m).
Let target := (λ k, mkKV k (wanted k)) <$> targetOrder.

Lemma prior_keys : Key <$> prior = KeyedOrder.order (keyed m).
Proof. unfold prior. rewrite <-list_fmap_compose. apply list_fmap_id. Qed.
Lemma target_keys : Key <$> target = targetOrder.
Proof. unfold target. rewrite <-list_fmap_compose. apply list_fmap_id. Qed.

Lemma prior_nodup : NoDup (Key <$> prior).
Proof. rewrite prior_keys. apply (mi_lockstep _ Hm). Qed.

Lemma in_prior key v : mkKV key v ∈ prior ↔ Get m key = Some v.
Proof.
  unfold prior. rewrite list_elem_of_fmap. split.
  - intros (k & [= -> ->] & Hk). apply (mi_lockstep _ Hm), Get_entries in Hk as [v Hv]; [|done].
    by rewrite Hv.
  - intros Hv. exists key. rewrite Hv. split; [done|]. apply (mi_lockstep _ Hm), Get_entries; eauto.
Qed.

Lemma in_target key v : mkKV key v ∈ target ↔ key ∈ targetOrder ∧ v = wanted key.
Proof.
  unfold target. rewrite list_elem_of_fmap. split; [intros (k & [= -> ->] & Hk); done|].
  intros [Hk ->]. by exists key.
Qed.

Lemma in_order key : key ∈ KeyedOrder.order (keyed m) ↔ is_Some (Get m key).
Proof. rewrite Get_entries by done. apply (mi_lockstep _ Hm). Qed.

(** Every key ends with its target value, or with none. *)
Lemma Reconcile_Get key :
  Get (Reconcile m targetOrder targetValues) key =
    if decide (key ∈ targetOrder) then Some (wanted key) else None.
Proof.
  unfold Reconcile. fold prior. change (foldl applyDiffOp m _) with (foldl applyDiffOp m (ReconcileDiff prior target)).
  rewrite apply_all_Get by done.
  apply (fold_value (λ b op, value_after (as_mapOp op) key b)).
  - intros op Hop. apply (diff_member prior target) in Hop; [|apply prior_nodup].
    destruct op as [k v i|k|k i|k v]; simpl; [| |by left|];
      (destruct (decide (key = k)) as [->|]; [right|by left]).
    + destruct Hop as [[Hk ->]%in_target _]. by rewrite decide_True.
    + destruct Hop as [_ Hk]. rewrite target_keys in Hk. by rewrite decide_False.
    + destruct Hop as [[Hk ->]%in_target _]. by rewrite decide_True.
  - case_decide as Hk.
    + destruct (Get m key) as [pv|] eqn:Hg.
      * destruct (decide (pv = wanted key)) as [->|Hne]; [by left|right].
        assert (Hu : (key, wanted key) ∈ omap op_update (ReconcileDiff prior target)).
        { apply updated_spec; [apply prior_nodup|]. rewrite in_target. split; [done|].
          exists pv. by rewrite in_prior. }
        apply list_elem_of_omap in Hu as (op & Hop & Hu). exists op. split; [done|].
        destruct op; simplify_eq/=. intros b. by rewrite decide_True.
      * right. apply list_elem_of_lookup in Hk as [i Hi].
        assert (Hins : (i, key, wanted key) ∈ omap op_insert (ReconcileDiff prior target)).
        { rewrite inserted_spec by apply prior_nodup. apply list_elem_of_filter. simpl. split.
          - rewrite prior_keys, in_order, Hg. by intros [].
          - apply elem_of_lookup_imap. exists i, (mkKV key (wanted key)). split; [done|].
            unfold target. by rewrite list_lookup_fmap, Hi. }
        apply list_elem_of_omap in Hins as (op & Hop & Hu). exists op. split; [done|].
        destruct op; simplify_eq/=. intros b. by rewrite decide_True.
    + destruct (Get m key) as [pv|] eqn:Hg; [right|by left].
      assert (Hr : key ∈ omap op_remove (ReconcileDiff prior target)).
      { rewrite removed_spec, target_keys, prior_keys. apply list_elem_of_filter. split; [done|].
        apply in_order. eauto. }
      apply list_elem_of_omap in Hr as (op & Hop & Hu). exists op. split; [done|].
      destruct op; simplify_eq/=. intros b. by rewrite decide_True.
Qed.

Lemma Reconcile_inv : map_inv (Reconcile m targetOrder targetValues).
Proof. by apply apply_all_inv. Qed.

Lemma Reconcile_handle key h :
  key ∈ targetOrder → KeyedOrder.entries (keyed m) !! key = Some h →
  KeyedOrder.entries (keyed (Reconcile m targetOrder targetValues)) !! key = Some h.
Proof.
  intros Hk Hh. apply apply_all_handle; [done| |done]. intros op Hop ->.
  apply (diff_member prior target) in Hop as [_ Hop]; [|apply prior_nodup]. by rewrite target_keys in Hop.
Qed.

Lemma Reconcile_untouched key :
  key ∈ targetOrder → Get m key = Some (wanted key) →
  plane (Reconcile m targetOrder targetValues) key = plane m key.
Proof.
  intros Hk Hg. apply apply_all_plane; [done|]. intros op Hop. apply (diff_member prior target) in Hop; [|apply prior_nodup].
  destruct op as [k v i|k|k i|k v]; simpl; rewrite ?not_elem_of_singleton; [| |set_solver|]; intros <-.
  - destruct Hop as [_ Hop]. rewrite prior_keys in Hop. apply Hop, in_order. eauto.
  - destruct Hop as [_ Hop]. by rewrite target_keys in Hop.
  - destruct Hop as [[_ ->]%in_target (pv & Hpv%in_prior & Hne)]. congruence.
Qed.

Lemma omap_nil_Forall {A B C} (f : A → option B) (g : A → option C) l :
  Forall (λ x, is_Some (f x)) l → (∀ x, is_Some (f x) → g x = None) → omap g l = [].
Proof. intros Hall Hfg. induction Hall as [|x l Hx Hall IH]; csimpl; [done|]. by rewrite (Hfg x Hx). Qed.

Lemma inserted_keys :
  (λ ikv : nat * K * V, ikv.1.2) <$> omap op_insert (ReconcileDiff prior target) =
  filter (λ k, k ∉ Keys m) targetOrder.
Proof.
  rewrite inserted_spec, prior_keys by apply prior_nodup. change (KeyedOrder.order (keyed m)) with (Keys m).
  assert (Hf : ∀ L : list (nat * K * V), (λ ikv, ikv.1.2) <$> filter (λ ikv, ikv.1.2 ∉ Keys m) L =
    filter (λ k, k ∉ Keys m) ((λ ikv, ikv.1.2) <$> L)).
  { induction L as [|x L IH]; [done|]. csimpl. rewrite !filter_cons. case_decide; csimpl; by rewrite IH. }
  rewrite Hf. f_equal. rewrite <-target_keys. apply list_eq. intros j.
  rewrite !list_lookup_fmap, list_lookup_imap. by destruct (target !! j).
Qed.

(** When no key has to move, the survivors keep their order and the new keys
    follow in target order. *)
Lemma Reconcile_Keys :
  moved (ReconcileDiff prior target) = [] →
  Keys (Reconcile m targetOrder targetValues) =
    filter (λ k, k ∈ targetOrder) (Keys m) ++ filter (λ k, k ∉ Keys m) targetOrder.
Proof.
  intros Hmoved. unfold Reconcile.
  change (foldl applyDiffOp m _) with (foldl applyDiffOp m (ReconcileDiff prior target)).
  pose proof inserted_keys as Hik. pose proof (removed_spec prior target) as Hrk.
  pose proof (λ op, diff_member prior target op prior_nodup) as Hmem.
  destruct (diff_phases prior target) as (rs & ps & us & Heq & Hrs & Hps & Hus). rewrite Heq in *.
  assert (Hps' : Forall (λ op, is_Some (op_insert op)) ps).
  { rewrite Forall_forall in Hps |- *. intros op Hop. destruct (Hps op Hop) as [?|[k Hk]]; [done|].
    exfalso. assert (k ∈ moved (rs ++ ps ++ us)) as Hin; [|rewrite Hmoved in Hin; by apply not_elem_of_nil in Hin].
    apply list_elem_of_omap. exists op. split; [set_solver|done]. }
  rewrite !omap_app, (omap_nil_Forall op_remove op_insert rs), (omap_nil_Forall op_update op_insert us), app_nil_r in Hik;
    [|done|by intros [] []|done|by intros [] []]. simpl in Hik.
  rewrite !omap_app, (omap_nil_Forall op_insert op_remove ps), (omap_nil_Forall op_update op_remove us), !app_nil_r in Hrk;
    [|done|by intros [] []|done|by intros [] []].
  rewrite !foldl_app.
  assert (Hm1 : map_inv (foldl applyDiffOp m rs)) by (by apply apply_all_inv).
  assert (Hk1 : Keys (foldl applyDiffOp m rs) = filter (λ k, k ∈ targetOrder) (Keys m)).
  { rewrite removes_Keys by done. apply filter_ext_in. intros k Hk.
    rewrite Hrk, target_keys, prior_keys, list_elem_of_filter. change (KeyedOrder.order (keyed m)) with (Keys m).
    split; [|tauto]. intros Hn. apply dec_stable. tauto. }
  assert (Hk2 : Keys (foldl applyDiffOp (foldl applyDiffOp m rs) ps) =
    filter (λ k, k ∈ targetOrder) (Keys m) ++ filter (λ k, k ∉ Keys m) targetOrder).
  { rewrite inserts_Keys; rewrite ?Hk1, ?Hik; try done. apply NoDup_app. split_and!.
    - apply NoDup_filter, (mi_lockstep _ Hm).
    - intros k [_ Hk]%list_elem_of_filter [Hn _]%list_elem_of_filter. done.
    - by apply NoDup_filter. }
  rewrite updates_Keys; [done|by apply apply_all_inv|].
  rewrite Hk2. rewrite Forall_forall in Hus |- *. intros op Hop. destruct (Hus op Hop) as [[k v] Hkv].
  exists (k, v). split; [done|]. destruct op; simplify_eq/=.
  destruct (Hmem (DiffOpUpdate k v)) as ([Hk _]%in_target & pv & Hpv%in_prior & _); [set_solver|].
  apply elem_of_app. left. apply list_elem_of_filter. split; [done|]. apply in_order. eauto.
Qed.
End run.

(** Reconciling brings a reachable map to the target's contents and disturbs
    nothing else.  For a target without duplicate keys, the map then holds
    exactly the target's keys with the target's values; a key present before and
    after keeps its handle, and if its value is unchanged its cell is not even
    written; when the diff moves nothing, surviving keys keep their order and new
    keys follow in target order. *)
Theorem Reconcile_reaches_target (ops : list (mapOp (K := K) (V := V))) (order : list K) (values : gmap K V) :
  NoDup order →
  let m := foldl map_step NewSourceMap ops in
  let m' := Reconcile m order values in
  let wanted k := default inhabitant (values !! k) in
  Keys m' ≡ₚ order ∧
  (∀ k, Get m' k = if decide (k ∈ order) then Some (wanted k) else None) ∧
  (∀ k h, k ∈ order → KeyedOrder.entries (keyed m) !! k = Some h → KeyedOrder.entries (keyed m') !! k = Some h) ∧
  (∀ k, k ∈ order → Get m k = Some (wanted k) → plane m' k = plane m k) ∧
  (moved (ReconcileDiff ((λ k, mkKV k (default inhabitant (Get m k))) <$> Keys m) ((λ k, mkKV k (wanted k)) <$> order)) = [] →
   Keys m' = filter (λ k, k ∈ order) (Keys m) ++ filter (λ k, k ∉ Keys m) order).
Proof.
  intros Hnd m m' wanted.
  assert (Hm : map_inv m).
  { apply (foldl_invariant map_inv); [apply NewSourceMap_inv|]. intros x o _ Hx. by apply map_step_frame. }
  pose proof (Reconcile_inv m order values Hm) as Hm'.
  pose proof (Reconcile_Get m order values Hm : ∀ k, Get m' k = _) as Hget.
  split_and!.
  - apply NoDup_Permutation; [apply (mi_lockstep _ Hm')|done|]. intros k.
    trans (is_Some (Get m' k)); [by apply in_order|]. rewrite (Hget k).
    case_decide; split; try done; eauto.
  - exact Hget.
  - intros k h. by apply Reconcile_handle.
  - intros k. by apply Reconcile_untouched.
  - by apply Reconcile_Keys.
Qed.
End reconcile.

Definition reconcile_demo : list (mapOp (K := string) (V := nat)) :=
  [MSet "a" 1; MSet "b" 2; MSet "c" 3; MSet "d" 4].

Lemma Reconcile_reaches_target_witness :
  let m := Reconcile (foldl map_step NewSourceMap reconcile_demo) ["c"; "a"; "x"] {["c" := 3; "a" := 7; "x" := 9]} in
  Keys m ≡ₚ ["c"; "a"; "x"] ∧ Get m "a" = Some 7 ∧ Get m "b" = None.
Proof.
  destruct (Reconcile_reaches_target reconcile_demo ["c"; "a"; "x"] {["c" := 3; "a" := 7; "x" := 9]})
    as (Hk & Hg & _); [apply (bool_decide_unpack _); by vm_compute|].
  cbv zeta. rewrite !Hg. split_and!; [exact Hk|by vm_compute|by vm_compute].
Defined.

(** The order itself is not reached in general: a move goes to the key's target
    index although keys it has yet to pass still stand before it, and an insertion
    always appends, whatever its index. *)
Lemma Reconcile_misses_order :
  Keys (Reconcile (foldl map_step NewSourceMap [MSet "x" 1; MSet "y" 2; MSet "a" 3; MSet "b" 4])
    ["a"; "b"; "y"; "x"] {["x" := 1; "y" := 2; "a" := 3; "b" := 4]}) = ["a"; "y"; "b"; "x"] ∧
  Keys (Reconcile (foldl map_step NewSourceMap [MSet "a" 1]) ["n"; "a"] {["a" := 1; "n" := 2]}) = ["a"; "n"].
Proof. split; vm_compute; reflexivity. Qed.
