(* ===== verification/Outbox.v ===== *)
(** * Outbox: durable at-least-once outbox (durable_outbox_store.go)

    A byte store keeps frames by epoch and a cursor; [DurableStoreOutbox] owns
    serialization, the monotone acknowledgement and the replay order.  The
    contract of a store is the class [OutboxStore]; the process-local map and the
    append-only journal are two instances, and the outbox meets the contract
    [DurableOutbox] over either.  The wire codec is a parameter with its round
    trip as a law.  The journal's file is its text up to JSON's syntax: finished
    lines and a tail without a newline, each a list of fragments, whose lengths
    are those of the records [encoding/json] writes.  A reader takes the lines as
    [bufio.Scanner] does, so a line over 64 KiB ends the scan and a line that is
    not one record is skipped; a crash inside an append leaves part of a record in
    the tail.  Failing system calls are not modelled. *)

From S2P Require Import Prelude.

Local Open Scope Z_scope.

(** ** Ordered scans *)

(** The frames of a map after a cursor, in ascending epoch order: the filter and
    [sort.Slice] of both stores (epochs are distinct, so the order is unique). *)
Definition scan_after {F} (cursor : Z) (entries : gmap Z F) : list (Z * F) :=
  let epochs := merge_sort Z.le (filter (λ e, cursor < e) (elements (dom entries))) in
  omap (λ e, pair e <$> entries !! e) epochs.

Lemma scan_after_ext {F} cursor (m1 m2 : gmap Z F) :
  (∀ e, cursor < e → m1 !! e = m2 !! e) → scan_after cursor m1 = scan_after cursor m2.
Proof.
  intros Heq. unfold scan_after.
  assert (Hs : merge_sort Z.le (filter (λ e, cursor < e) (elements (dom m1))) =
               merge_sort Z.le (filter (λ e, cursor < e) (elements (dom m2)))).
  { apply (Sorted_unique Z.le); [by apply Sorted_merge_sort, _..|].
    rewrite !merge_sort_Permutation. apply NoDup_Permutation; [by apply NoDup_filter, NoDup_elements..|].
    intros e. rewrite !list_elem_of_filter, !elem_of_elements, !elem_of_dom.
    split; intros [He Hm]; (split; [done|]); [rewrite <-Heq|rewrite Heq]; done. }
  rewrite Hs. apply list_omap_ext. apply Forall_Forall2_diag, Forall_forall. intros e He.
  rewrite merge_sort_Permutation in He. apply list_elem_of_filter in He as [He _]. by rewrite Heq.
Qed.

Lemma elem_of_scan_after {F} cursor (m : gmap Z F) e f :
  (e, f) ∈ scan_after cursor m ↔ cursor < e ∧ m !! e = Some f.
Proof.
  unfold scan_after. rewrite list_elem_of_omap. split.
  - intros (e' & He & Heq). rewrite merge_sort_Permutation in He. apply list_elem_of_filter in He as [He _].
    destruct (m !! e') as [f'|] eqn:E; [|done]. by simplify_eq/=.
  - intros [He Hm]. exists e. rewrite Hm. split; [|done]. rewrite merge_sort_Permutation.
    apply list_elem_of_filter. split; [done|]. apply elem_of_elements, elem_of_dom. eauto.
Qed.

Lemma scan_after_fst {F} cursor (m : gmap Z F) :
  (scan_after cursor m).*1 = merge_sort Z.le (filter (λ e, cursor < e) (elements (dom m))).
Proof.
  unfold scan_after.
  assert (Hall : ∀ e, e ∈ merge_sort Z.le (filter (λ e, cursor < e) (elements (dom m))) → is_Some (m !! e)).
  { intros e He. rewrite merge_sort_Permutation in He. apply list_elem_of_filter in He as [_ He].
    by apply elem_of_elements, elem_of_dom in He. }
  induction (merge_sort _ _) as [|e l IH]; [done|]. csimpl.
  destruct (Hall e ltac:(left)) as [f ->]. csimpl. f_equal. apply IH. intros. apply Hall. by right.
Qed.

Lemma scan_after_sorted {F} cursor (m : gmap Z F) : StronglySorted Z.lt (scan_after cursor m).*1.
Proof.
  rewrite scan_after_fst.
  assert (Hs : Sorted Z.le (merge_sort Z.le (filter (λ e, cursor < e) (elements (dom m))))) by (apply Sorted_merge_sort, _).
  assert (Hn : NoDup (merge_sort Z.le (filter (λ e, cursor < e) (elements (dom m))))).
  { rewrite merge_sort_Permutation. apply NoDup_filter, NoDup_elements. }
  apply Sorted_StronglySorted in Hs; [|intros ???; lia].
  induction Hs as [|e l Hs IH He]; [constructor|]. apply NoDup_cons in Hn as [Hin Hn].
  constructor; [by apply IH|]. rewrite Forall_forall in He |- *. intros x Hx. specialize (He x Hx).
  assert (e ≠ x) by congruence. lia.
Qed.

(** ** The byte stores *)

(** What a store promises: it stands for the frames put so far, a floor below
    which frames may be gone, and a cursor that only rises, as long as it is given
    frames it [accepts]. *)
(** [durable_outbox_store.go] [type OutboxStore] *)
Class OutboxStore (F S : Type) := {
  Put : S → Z → F → S;
  DeleteThrough : S → Z → S;
  ScanAfter : S → Z → list (Z * F);
  LoadCursor : S → Z;
  SaveCursor : S → Z → S;
  accepts : S → Z → F → Prop;
  store_rep : S → gmap Z F → Z → Z → Prop;
  Put_rep s w fl cur e f : accepts s e f → store_rep s w fl cur → store_rep (Put s e f) (<[e := f]> w) fl cur;
  DeleteThrough_rep s w fl cur e : store_rep s w fl cur → store_rep (DeleteThrough s e) w (Z.max fl e) cur;
  SaveCursor_rep s w fl cur e : store_rep s w fl cur → store_rep (SaveCursor s e) w fl (Z.max cur e);
  LoadCursor_rep s w fl cur : store_rep s w fl cur → LoadCursor s = cur;
  ScanAfter_rep s w fl cur c : store_rep s w fl cur → fl ≤ c → ScanAfter s c = scan_after c w;
}.

Section in_memory.
Context {F : Type}.

(** [durable_outbox_store.go] [type InMemoryStore] *)
Record InMemoryStore := mkInMemoryStore { mem_entries : gmap Z F; mem_cursor : Z }.

(** [durable_outbox_store.go] [NewInMemoryStore] *)
Definition NewInMemoryStore : InMemoryStore := mkInMemoryStore ∅ 0.
(** [durable_outbox_store.go] [InMemoryStore.Put] *)
Definition mem_Put (s : InMemoryStore) (epoch : Z) (frame : F) : InMemoryStore :=
  mkInMemoryStore (<[epoch := frame]> (mem_entries s)) (mem_cursor s).
(** [durable_outbox_store.go] [InMemoryStore.DeleteThrough] *)
Definition mem_DeleteThrough (s : InMemoryStore) (epoch : Z) : InMemoryStore :=
  mkInMemoryStore (filter (λ ef : Z * F, ¬ ef.1 ≤ epoch) (mem_entries s)) (mem_cursor s).
(** [durable_outbox_store.go] [InMemoryStore.ScanAfter] *)
Definition mem_ScanAfter (s : InMemoryStore) (cursor : Z) : list (Z * F) := scan_after cursor (mem_entries s).
(** [durable_outbox_store.go] [InMemoryStore.LoadCursor] *)
Definition mem_LoadCursor (s : InMemoryStore) : Z := mem_cursor s.
(** [durable_outbox_store.go] [InMemoryStore.SaveCursor] *)
Definition mem_SaveCursor (s : InMemoryStore) (epoch : Z) : InMemoryStore :=
  if decide (mem_cursor s < epoch) then mkInMemoryStore (mem_entries s) epoch else s.

Definition mem_rep (s : InMemoryStore) (w : gmap Z F) (fl cur : Z) : Prop :=
  (∀ e, fl < e → mem_entries s !! e = w !! e) ∧ mem_cursor s = cur.

#[export] Program Instance in_memory_store : OutboxStore F InMemoryStore := {|
  accepts _ _ _ := True; Put := mem_Put; DeleteThrough := mem_DeleteThrough; ScanAfter := mem_ScanAfter;
  LoadCursor := mem_LoadCursor; SaveCursor := mem_SaveCursor; store_rep := mem_rep |}.
Next Obligation.
  intros s w fl cur e f _ [Hw Hc]. split; [|done]. intros e' He'. simpl.
  destruct (decide (e' = e)) as [->|]; [by rewrite !lookup_insert_eq|by rewrite !lookup_insert_ne, Hw].
Qed.
Next Obligation.
  intros s w fl cur e [Hw Hc]. split; [|done]. intros e' He'. simpl. rewrite <-Hw by lia.
  rewrite map_lookup_filter. destruct (mem_entries s !! e'); simpl; [|done].
  rewrite option_guard_True; [done|simpl; lia].
Qed.
Next Obligation.
  intros s w fl cur e [Hw Hc]. unfold mem_SaveCursor. case_decide; (split; [done|simpl; lia]).
Qed.
Next Obligation. by intros s w fl cur [Hw Hc]. Qed.
Next Obligation.
  intros s w fl cur c [Hw Hc] Hle. apply scan_after_ext. intros e He. apply Hw. lia.
Qed.
End in_memory.
Arguments InMemoryStore : clear implicits.

Section journal.

(** [durable_outbox_store.go] [type fileOutboxRecord] *)
Inductive fileOutboxRecord :=
| RecPut (epoch : Z) (frame : list Z)
| RecDelete (epoch : Z)
| RecCursor (epoch : Z).

(** Decimal digits of a [uint64], which has at most twenty of them. *)
Fixpoint digits (fuel : nat) (n : Z) : Z :=
  match fuel with
  | O => 1
  | S fuel => if decide (n < 10) then 1 else 1 + digits fuel (n / 10)
  end.

(** The length of a record's JSON text: the quoted operation, the epoch, and a
    non-empty frame in padded base64. *)
(** [durable_outbox_store.go] [type fileOutboxRecord] *)
Definition record_len (r : fileOutboxRecord) : Z :=
  let head op e := 7 + op + 10 + digits 19 e in (* {"op":"  ","epoch": *)
  match r with
  | RecPut e frame =>
      head 3 e + (if decide (frame = []) then 0 else 10 + 4 * ((Z.of_nat (length frame) + 2) / 3) + 1) + 1
  | RecDelete e => head 6 e + 1
  | RecCursor e => head 6 e + 1
  end.

Arguments record_len : simpl never.

(** What one append left in the file: a whole record or a nonempty proper prefix
    of one.  Every fragment starts with an opening brace that only the last byte
    of a whole record closes, so a line is a JSON record when it is one whole
    fragment and nothing else. *)
Inductive fragment :=
| Whole (r : fileOutboxRecord)
| Torn (len : Z).

Definition fragment_len (f : fragment) : Z := match f with Whole r => record_len r | Torn n => n end.
Definition line_len (l : list fragment) : Z := foldr (λ f n, fragment_len f + n) 0 l.

(** The journal's text: its finished lines and what follows the last newline.
    [durable_outbox_store.go] [type FileOutboxStore] *)
Record FileOutboxStore := mkFileOutboxStore { finished : list (list fragment); unfinished : list fragment }.

(** The record lands behind whatever the last line holds, and ends it.
    [durable_outbox_store.go] [FileOutboxStore.appendRecord] *)
Definition appendRecord (s : FileOutboxStore) (r : fileOutboxRecord) : FileOutboxStore :=
  mkFileOutboxStore (finished s ++ [unfinished s ++ [Whole r]]) [].

(** The same append by a process that dies after [n] bytes of the record and its
    newline reached the file. *)
(** [durable_outbox_store.go] [lines 213-216 FileOutboxStore.appendRecord] *)
Definition crash_append (s : FileOutboxStore) (r : fileOutboxRecord) (n : Z) : FileOutboxStore :=
  if decide (n ≤ 0) then s
  else if decide (n < record_len r) then mkFileOutboxStore (finished s) (unfinished s ++ [Torn n])
  else if decide (n = record_len r) then mkFileOutboxStore (finished s) (unfinished s ++ [Whole r])
  else appendRecord s r.

(** [bufio.MaxScanTokenSize]: a line and its newline have to fit in the buffer. *)
Definition MaxScanTokenSize : Z := 65536.

(** [json.Unmarshal] of a line; [None] is an error, and the line is skipped. *)
Definition unmarshal_line (l : list fragment) : option fileOutboxRecord :=
  match l with [Whole r] => Some r | _ => None end.

(** [bufio.Scanner] over the lines: it stops at the first that does not fit. *)
(** [durable_outbox_store.go] [lines 235-244 FileOutboxStore.records] *)
Fixpoint scan_lines (ls : list (list fragment)) : list fileOutboxRecord :=
  match ls with
  | [] => []
  | l :: ls =>
      if decide (line_len l < MaxScanTokenSize)
      then option_list (unmarshal_line l) ++ scan_lines ls else []
  end.

(** [durable_outbox_store.go] [FileOutboxStore.records] *)
Definition records (s : FileOutboxStore) : list fileOutboxRecord :=
  scan_lines (finished s ++ if decide (unfinished s = []) then [] else [unfinished s]).

(** [durable_outbox_store.go] [FileOutboxStore.Put] *)
Definition file_Put (s : FileOutboxStore) (epoch : Z) (frame : list Z) : FileOutboxStore :=
  appendRecord s (RecPut epoch frame).
(** [durable_outbox_store.go] [FileOutboxStore.DeleteThrough] *)
Definition file_DeleteThrough (s : FileOutboxStore) (epoch : Z) : FileOutboxStore := appendRecord s (RecDelete epoch).
(** [durable_outbox_store.go] [FileOutboxStore.SaveCursor] *)
Definition file_SaveCursor (s : FileOutboxStore) (epoch : Z) : FileOutboxStore := appendRecord s (RecCursor epoch).

(** One record read back by a scan. *)
(** [durable_outbox_store.go] [lines 262-269 FileOutboxStore.ScanAfter] *)
Definition scan_record (st : gmap Z (list Z) * Z) (r : fileOutboxRecord) : gmap Z (list Z) * Z :=
  match r with
  | RecPut epoch frame => (<[epoch := frame]> st.1, st.2)
  | RecDelete epoch => (st.1, if decide (st.2 < epoch) then epoch else st.2)
  | RecCursor _ => st
  end.

(** [durable_outbox_store.go] [FileOutboxStore.ScanAfter] *)
Definition file_ScanAfter (s : FileOutboxStore) (cursor : Z) : list (Z * list Z) :=
  let '(entries, deletedThrough) := foldl scan_record (∅, 0) (records s) in
  let cursor := if decide (cursor < deletedThrough) then deletedThrough else cursor in
  scan_after cursor entries.

(** [durable_outbox_store.go] [FileOutboxStore.LoadCursor] *)
Definition file_LoadCursor (s : FileOutboxStore) : Z :=
  foldl (λ cursor r, match r with
    | RecCursor epoch => if decide (cursor < epoch) then epoch else cursor
    | _ => cursor end) 0 (records s).

(** *** What a scan reads *)

(** A line that fits leaves the scan running. *)
Definition line_fits (l : list fragment) : Prop := line_len l < MaxScanTokenSize.

Lemma scan_lines_app ls1 ls2 :
  Forall line_fits ls1 → scan_lines (ls1 ++ ls2) = scan_lines ls1 ++ scan_lines ls2.
Proof.
  induction 1 as [|l ls Hl _ IH]; [done|]. simpl. unfold line_fits in Hl.
  rewrite !decide_True by done. by rewrite IH, (assoc_L (++)).
Qed.

(** A file that every scan reads to its end and that no crash has torn. *)
Definition intact (s : FileOutboxStore) : Prop := Forall line_fits (finished s) ∧ unfinished s = [].

Lemma records_append s r :
  intact s → record_len r < MaxScanTokenSize →
  records (appendRecord s r) = records s ++ [r] ∧ intact (appendRecord s r).
Proof.
  intros [Hf Ht] Hr. unfold records, appendRecord, intact. simpl. rewrite Ht, !app_nil_r.
  assert (Hl : line_fits [Whole r]) by (unfold line_fits; simpl; lia).
  rewrite scan_lines_app by done. split; [|split; [|done]].
  - simpl. unfold line_fits in Hl. simpl in Hl. by rewrite decide_True.
  - apply Forall_app. auto.
Qed.

Lemma digits_bound fuel n : 1 ≤ digits fuel n ≤ 1 + Z.of_nat fuel.
Proof. revert n. induction fuel as [|fuel IH]; intros n; simpl; [lia|]. case_decide; [lia|]. specialize (IH (n / 10)). lia. Qed.

Lemma short_record_fits r : (∀ e f, r ≠ RecPut e f) → record_len r < MaxScanTokenSize.
Proof.
  unfold MaxScanTokenSize. intros Hr. destruct r as [e f|e|e]; [by destruct (Hr e f)|..]; unfold record_len;
    pose proof (digits_bound 19 e); lia.
Qed.

(** A record over the scanner's limit hides itself and everything appended
    behind it, for good: frames, deletions and cursors alike. *)
Lemma oversized_record_hides_the_rest s r rs :
  intact s → MaxScanTokenSize ≤ record_len r →
  records (foldl appendRecord (appendRecord s r) rs) = records s.
Proof.
  intros [Hf Ht] Hr.
  assert (Hgen : ∀ rs, ∃ ls, foldl appendRecord (appendRecord s r) rs =
    mkFileOutboxStore (finished s ++ [[Whole r]] ++ ls) []).
  { clear rs. intros rs. induction rs as [|r' rs [ls IH]] using rev_ind.
    - exists []. unfold appendRecord. simpl. by rewrite Ht.
    - exists (ls ++ [[Whole r']]). rewrite foldl_snoc, IH. unfold appendRecord. simpl.
      by rewrite <-(assoc_L (++)). }
  destruct (Hgen rs) as [ls ->]. unfold records. simpl. rewrite Ht, decide_True, !app_nil_r by done.
  rewrite scan_lines_app by done. simpl. rewrite decide_False by lia. by rewrite app_nil_r.
Qed.

(** Some frames are over the limit: one of 49,126 bytes is, at any epoch. *)
Lemma frame_over_the_limit e (frame : list Z) :
  49126 ≤ Z.of_nat (length frame) → MaxScanTokenSize ≤ record_len (RecPut e frame).
Proof.
  intros Hl. unfold MaxScanTokenSize, record_len. pose proof (digits_bound 19 e).
  rewrite decide_False by (by intros ->). pose proof (Z.div_le_mono 49128 (Z.of_nat (length frame) + 2) 3).
  assert (49128 / 3 = 16376) by done. lia.
Qed.

(** A crash inside an append: the earlier records are read as before, the record
    itself is read when only its newline is missing, and not otherwise. *)
Lemma crash_append_keeps s r n :
  intact s → record_len r < MaxScanTokenSize →
  records (crash_append s r n) = records s ++ (if decide (record_len r ≤ n) then [r] else []).
Proof.
  intros Hs Hr. pose proof Hs as [Hf Ht]. unfold crash_append.
  assert (Hpos : 0 < record_len r).
  { destruct r as [e f|e|e]; unfold record_len; pose proof (digits_bound 19 e); try lia.
    case_decide; [lia|]. pose proof (Z.div_pos (Z.of_nat (length f) + 2) 3). lia. }
  assert (Htail : ∀ x, fragment_len x < MaxScanTokenSize →
    records (mkFileOutboxStore (finished s) (unfinished s ++ [x])) = records s ++ option_list (unmarshal_line [x])).
  { intros x Hx. unfold records. simpl. rewrite Ht. change ([] ++ [x]) with [x].
    rewrite (decide_False (P := [x] = [])) by done. rewrite decide_True, !app_nil_r by done.
    rewrite scan_lines_app by done. simpl. rewrite decide_True by lia. by rewrite app_nil_r. }
  destruct (decide (n ≤ 0)); [rewrite decide_False by lia; by rewrite app_nil_r|].
  destruct (decide (n < record_len r)).
  { rewrite Htail by (simpl; lia). by rewrite decide_False by lia. }
  rewrite (decide_True (P := record_len r ≤ n)) by lia.
  destruct (decide (n = record_len r)); [by rewrite Htail|]. by apply records_append.
Qed.

(** The record appended after such a crash is glued to the torn one, and both are
    lost: nothing new is read although the append was synced. *)
Lemma torn_tail_swallows_next_append s r n r' :
  intact s → record_len r + record_len r' < MaxScanTokenSize → 0 < n ≤ record_len r →
  records (appendRecord (crash_append s r n) r') = records s ∧
  intact (appendRecord (crash_append s r n) r').
Proof.
  intros [Hf Ht] Hr Hn. unfold crash_append. rewrite decide_False by lia.
  assert (Hglue : ∀ x, fragment_len x ≤ record_len r →
    records (appendRecord (mkFileOutboxStore (finished s) (unfinished s ++ [x])) r') = records s ∧
    intact (appendRecord (mkFileOutboxStore (finished s) (unfinished s ++ [x])) r')).
  { intros x Hx. unfold records, appendRecord, intact. simpl. rewrite Ht, !app_nil_r. simpl.
    assert (Hl : line_fits [x; Whole r']) by (unfold line_fits; simpl; lia).
    rewrite scan_lines_app by done. simpl. unfold line_fits in Hl. simpl in Hl. rewrite decide_True by done.
    split; [destruct x; by rewrite app_nil_r|]. split; [|done]. apply Forall_app. auto. }
  destruct (decide (n < record_len r)); [by apply Hglue; simpl; lia|].
  rewrite decide_True by lia. by apply Hglue.
Qed.

(** *** The journal is a store *)

Definition file_rep (s : FileOutboxStore) (w : gmap Z (list Z)) (fl cur : Z) : Prop :=
  intact s ∧ foldl scan_record (∅, 0) (records s) = (w, fl) ∧ file_LoadCursor s = cur.

Lemma file_append_rep s w fl cur r :
  file_rep s w fl cur → record_len r < MaxScanTokenSize →
  file_rep (appendRecord s r) (scan_record (w, fl) r).1 (scan_record (w, fl) r).2
    (match r with RecCursor e => Z.max cur e | _ => cur end).
Proof.
  intros (Hi & Hw & Hc) Hr. destruct (records_append s r Hi Hr) as [He Hi']. split; [done|].
  unfold file_LoadCursor in *. rewrite He, !foldl_snoc, Hw, Hc. split; [by destruct (scan_record _ _)|].
  destruct r; [done|done|]. case_decide; lia.
Qed.

#[export] Program Instance file_store : OutboxStore (list Z) FileOutboxStore := {|
  accepts _ e f := record_len (RecPut e f) < MaxScanTokenSize;
  Put := file_Put; DeleteThrough := file_DeleteThrough; ScanAfter := file_ScanAfter;
  LoadCursor := file_LoadCursor; SaveCursor := file_SaveCursor; store_rep := file_rep |}.
Next Obligation. intros s w fl cur e f Hf Hs. exact (file_append_rep s w fl cur (RecPut e f) Hs Hf). Qed.
Next Obligation.
  intros s w fl cur e Hs. pose proof (file_append_rep s w fl cur (RecDelete e) Hs) as Hrep. simpl in Hrep.
  replace (Z.max fl e) with (if decide (fl < e) then e else fl) by (case_decide; lia).
  by apply Hrep, short_record_fits.
Qed.
Next Obligation.
  intros s w fl cur e Hs. apply (file_append_rep s w fl cur (RecCursor e) Hs). by apply short_record_fits.
Qed.
Next Obligation. by intros s w fl cur (_ & _ & Hc). Qed.
Next Obligation.
  intros s w fl cur c (_ & Hw & _) Hle. simpl. unfold file_ScanAfter. rewrite Hw.
  by rewrite decide_False by lia.
Qed.
End journal.

(** ** The outbox over a store *)

(** The wire codec of frames, and what the outbox relies on. *)
Class FrameCodec (Msg F : Type) := {
  MarshalJSON : Msg → option F;
  DecodeIpcMessageJSON : F → option Msg;
  codec_roundtrip m f : MarshalJSON m = Some f → DecodeIpcMessageJSON f = Some m;
}.

(** Every frame the codec writes is one the store accepts, at any epoch. *)
Class FrameFits (Msg F S : Type) `{FrameCodec Msg F, OutboxStore F S} :=
  frames_fit : ∀ (s : S) e (m : Msg) (f : F), MarshalJSON m = Some f → accepts s e f.

(** The process-local store takes frames of any length. *)
#[export] Instance in_memory_fits {Msg F} `{FrameCodec Msg F} : FrameFits Msg F (InMemoryStore F).
Proof. done. Qed.

(** What the sync driver asks of its outbox: it stands for the frames appended
    so far (those that encode) and an acknowledged cursor that only rises. *)
(** [reliable_sync.go] [type DurableOutbox] *)
Class DurableOutbox (Msg O : Type) := {
  Append : O → Z → Msg → O;
  AckThrough : O → Z → O;
  ReplayFrom : O → Z → O * list (Z * Msg);
  RetainedEpochs : O → O * list Z;
  encodes : Msg → bool;
  outbox_rep : O → gmap Z Msg → Z → Prop;
  Append_rep o w a e m : outbox_rep o w a →
    outbox_rep (Append o e m) (if encodes m then <[e := m]> w else w) a;
  AckThrough_rep o w a e : outbox_rep o w a → outbox_rep (AckThrough o e) w (Z.max a e);
  ReplayFrom_rep o w a c : outbox_rep o w a →
    outbox_rep (ReplayFrom o c).1 w a ∧ (ReplayFrom o c).2 = scan_after (Z.max a c) w;
  RetainedEpochs_rep o w a : outbox_rep o w a →
    outbox_rep (RetainedEpochs o).1 w a ∧ (RetainedEpochs o).2 = (scan_after a w).*1;
}.

Section outbox.
Context {Msg F S : Type} `{FrameCodec Msg F, OutboxStore F S}.

(** [outbox_err] is [None] as long as no frame failed to encode or decode.
    [durable_outbox_store.go] [type DurableStoreOutbox] *)
Record DurableStoreOutbox := mkOutbox { store : S; ackedThrough : Z; outbox_err : bool }.
Implicit Types o : DurableStoreOutbox.

(** [durable_outbox_store.go] [NewDurableStoreOutbox] *)
Definition NewDurableStoreOutbox (s : S) : DurableStoreOutbox := mkOutbox s (LoadCursor s) false.

(** [durable_outbox_store.go] [DurableStoreOutbox.AckedThrough] *)
Definition AckedThrough o : DurableStoreOutbox * Z :=
  let persisted := LoadCursor (store o) in
  let o := if decide (ackedThrough o < persisted) then mkOutbox (store o) persisted (outbox_err o) else o in
  (o, ackedThrough o).

(** [durable_outbox_store.go] [DurableStoreOutbox.Append] *)
Definition store_Append o (epoch : Z) (msg : Msg) : DurableStoreOutbox :=
  match MarshalJSON msg with
  | None => mkOutbox (store o) (ackedThrough o) true
  | Some frame => mkOutbox (Put (store o) epoch frame) (ackedThrough o) (outbox_err o)
  end.

(** [durable_outbox_store.go] [DurableStoreOutbox.AckThrough] *)
Definition store_AckThrough o (epoch : Z) : DurableStoreOutbox :=
  let '(o, target) := AckedThrough o in
  let target := if decide (target < epoch) then epoch else target in
  let o := if decide (ackedThrough o < target)
           then mkOutbox (SaveCursor (store o) target) target (outbox_err o) else o in
  mkOutbox (DeleteThrough (store o) target) (ackedThrough o) (outbox_err o).

(** [durable_outbox_store.go] [DurableStoreOutbox.ReplayFrom] *)
Definition store_ReplayFrom o (cursor : Z) : DurableStoreOutbox * list (Z * Msg) :=
  let '(o, acked) := AckedThrough o in
  let cursor := if decide (cursor < acked) then acked else cursor in
  foldl (λ '(o, out) '(e, frame),
    match DecodeIpcMessageJSON frame with
    | None => (mkOutbox (store o) (ackedThrough o) true, out)
    | Some msg => (o, out ++ [(e, msg)])
    end) (o, []) (ScanAfter (store o) cursor).

(** [durable_outbox_store.go] [DurableStoreOutbox.RetainedEpochs] *)
Definition store_RetainedEpochs o : DurableStoreOutbox * list Z :=
  let '(o, acked) := AckedThrough o in
  (o, (ScanAfter (store o) acked).*1).

(** The frames a store holds are encodings of the frames appended. *)
Definition encodes_as (w : gmap Z Msg) (wf : gmap Z F) : Prop :=
  ∀ e, wf !! e = w !! e ≫= MarshalJSON ∧ (is_Some (w !! e) → is_Some (wf !! e)).

(** The outbox stands for [w] acknowledged through [a]: every handle of the
    store saves its acknowledgements, and nothing above them is deleted. *)
Definition store_outbox_rep o (w : gmap Z Msg) (a : Z) : Prop :=
  ∃ wf fl, store_rep (store o) wf fl a ∧ encodes_as w wf ∧ fl ≤ a ∧ ackedThrough o ≤ a.

Lemma AckedThrough_rep o w a :
  store_outbox_rep o w a →
  store_outbox_rep (AckedThrough o).1 w a ∧ ackedThrough (AckedThrough o).1 = a ∧ (AckedThrough o).2 = a.
Proof.
  intros (wf & fl & Hs & He & Hfl & Ha). unfold AckedThrough. rewrite (LoadCursor_rep _ _ _ _ Hs).
  case_decide; simpl; (split_and!; [|lia..]); exists wf, fl; (split_and!; [done..|simpl; lia]).
Qed.

Lemma scan_decode o w wf c :
  encodes_as w wf →
  foldl (λ '(o, out) '(e, frame),
    match DecodeIpcMessageJSON frame with
    | None => (mkOutbox (store o) (ackedThrough o) true, out)
    | Some msg => (o, out ++ [(e, msg)])
    end) (o, []) (scan_after c wf) = (o, scan_after c w).
Proof.
  intros He.
  assert (Hdom : elements (dom wf) = elements (dom w)).
  { f_equal. apply set_eq. intros e. rewrite !elem_of_dom. destruct (He e) as [H1 H2].
    split; [|done]. rewrite H1. intros [f Hf]. destruct (w !! e); [eauto|done]. }
  unfold scan_after. rewrite Hdom. clear Hdom.
  generalize (merge_sort Z.le (filter (λ e, c < e) (elements (dom w)))). intros es.
  assert (Hgen : ∀ out, foldl (λ '(o, out) '(e, frame),
    match DecodeIpcMessageJSON frame with
    | None => (mkOutbox (store o) (ackedThrough o) true, out)
    | Some msg => (o, out ++ [(e, msg)])
    end) (o, out) (omap (λ e, pair e <$> wf !! e) es) = (o, out ++ omap (λ e, pair e <$> w !! e) es)).
  { induction es as [|e es IH]; intros out; csimpl; [by rewrite app_nil_r|].
    destruct (He e) as [H1 H2]. destruct (w !! e) as [m|] eqn:Em; csimpl in *.
    - destruct (H2 ltac:(eauto)) as [f Hf]. rewrite Hf in *. csimpl.
      rewrite (codec_roundtrip m f) by done. rewrite IH. by rewrite <-app_assoc.
    - rewrite H1. csimpl. apply IH. }
  apply Hgen.
Qed.

Lemma store_Append_rep o w a e m :
  (∀ f, MarshalJSON m = Some f → accepts (store o) e f) → store_outbox_rep o w a →
  store_outbox_rep (store_Append o e m) (if bool_decide (is_Some (MarshalJSON m)) then <[e := m]> w else w) a.
Proof.
  intros Hacc (wf & fl & Hs & He & Hfl & Ha). unfold store_Append.
  destruct (MarshalJSON m) as [f|] eqn:Em; [rewrite bool_decide_eq_true_2 by eauto|rewrite bool_decide_eq_false_2 by (by intros [])].
  - exists (<[e := f]> wf), fl. split_and!; [by apply Put_rep; [apply Hacc|]| |done..]. intros e'. destruct (decide (e' = e)) as [->|Hne].
    + rewrite !lookup_insert_eq. simpl. rewrite Em. eauto.
    + rewrite !lookup_insert_ne by done. apply He.
  - exists wf, fl. by split_and!.
Qed.

Lemma store_AckThrough_rep o w a e : store_outbox_rep o w a → store_outbox_rep (store_AckThrough o e) w (Z.max a e).
Proof.
  intros Ho. unfold store_AckThrough. destruct (AckedThrough_rep o w a Ho) as (Ho' & Ha & Ht).
  destruct (AckedThrough o) as [o' target]. simpl in *. subst target.
  destruct Ho' as (wf & fl & Hs & He & Hfl & _).
  destruct (decide (a < e)) as [Hlt|Hge].
  - rewrite decide_True by lia. exists wf, (Z.max fl e). replace (Z.max a e) with e by lia. simpl.
    split_and!; [|done|lia|lia]. apply DeleteThrough_rep.
    apply (SaveCursor_rep _ _ _ _ e) in Hs. by replace (Z.max a e) with e in Hs by lia.
  - rewrite decide_False by lia. exists wf, (Z.max fl a). replace (Z.max a e) with a by lia. simpl.
    split_and!; [|done|lia|lia]. by apply DeleteThrough_rep.
Qed.

Lemma store_ReplayFrom_rep o w a c : store_outbox_rep o w a →
  store_outbox_rep (store_ReplayFrom o c).1 w a ∧ (store_ReplayFrom o c).2 = scan_after (Z.max a c) w.
Proof.
  intros Ho. unfold store_ReplayFrom. destruct (AckedThrough_rep o w a Ho) as (Ho' & Ha & Ht).
  destruct (AckedThrough o) as [o' acked]. simpl in *. subst acked.
  pose proof Ho' as (wf & fl & Hs & He & Hfl & _).
  rewrite (ScanAfter_rep _ _ _ _ _ Hs) by (case_decide; lia).
  rewrite (scan_decode o' w wf) by done. split; [done|]. simpl. f_equal. case_decide; lia.
Qed.

Lemma store_RetainedEpochs_rep o w a : store_outbox_rep o w a →
  store_outbox_rep (store_RetainedEpochs o).1 w a ∧ (store_RetainedEpochs o).2 = (scan_after a w).*1.
Proof.
  intros Ho. unfold store_RetainedEpochs. destruct (AckedThrough_rep o w a Ho) as (Ho' & Ha & Ht).
  destruct (AckedThrough o) as [o' acked]. simpl in *. subst acked. split; [done|].
  destruct Ho' as (wf & fl & Hs & He & Hfl & _). rewrite (ScanAfter_rep _ _ _ _ _ Hs) by lia.
  rewrite !scan_after_fst. do 3 f_equal. apply set_eq. intros e. rewrite !elem_of_dom.
  destruct (He e) as [H1 H2]. split; [|done]. rewrite H1. intros [f Hf]. destruct (w !! e); [eauto|done].
Qed.

#[export] Instance durable_store_outbox `{!FrameFits Msg F S} : DurableOutbox Msg DurableStoreOutbox := {|
  Append := store_Append; AckThrough := store_AckThrough; ReplayFrom := store_ReplayFrom;
  RetainedEpochs := store_RetainedEpochs; encodes m := bool_decide (is_Some (MarshalJSON m));
  outbox_rep := store_outbox_rep;
  Append_rep o w a e m := store_Append_rep o w a e m (frames_fit (store o) e m); AckThrough_rep := store_AckThrough_rep;
  ReplayFrom_rep := store_ReplayFrom_rep; RetainedEpochs_rep := store_RetainedEpochs_rep |}.

(** ** What survives restarts and acknowledgements *)

(** One handle's operations, a restart (a new handle on the same store, between
    two operations), and an acknowledgement through another handle of it. *)
Inductive outboxOp :=
| OAppend (epoch : Z) (msg : Msg)
| OAck (epoch : Z)
| OReopen
| OAckElsewhere (epoch : Z).

Definition outbox_step o (op : outboxOp) : DurableStoreOutbox :=
  match op with
  | OAppend e m => store_Append o e m
  | OAck e => store_AckThrough o e
  | OReopen => NewDurableStoreOutbox (store o)
  | OAckElsewhere e =>
      let other := store_AckThrough (NewDurableStoreOutbox (store o)) e in
      mkOutbox (store other) (ackedThrough o) (outbox_err o)
  end.

(** The last frame appended at each epoch, of those that encode. *)
Definition appended (ops : list outboxOp) : gmap Z Msg :=
  foldl (λ w op, match op with
    | OAppend e m => match MarshalJSON m with Some _ => <[e := m]> w | None => w end
    | _ => w end) ∅ ops.
(** The highest epoch the peer proved. *)
Definition acked (ops : list outboxOp) : Z :=
  foldl (λ a op, match op with OAck e | OAckElsewhere e => Z.max a e | _ => a end) 0 ops.

Lemma reopen_rep o w a : store_outbox_rep o w a → store_outbox_rep (NewDurableStoreOutbox (store o)) w a.
Proof.
  intros (wf & fl & Hs & He & Hfl & Ha). exists wf, fl. simpl. rewrite (LoadCursor_rep _ _ _ _ Hs). by split_and!.
Qed.

(** Every frame appended is one the store accepts. *)
Definition ops_fit (ops : list outboxOp) : Prop :=
  ∀ (s : S) e m f, OAppend e m ∈ ops → MarshalJSON m = Some f → accepts s e f.

Lemma outbox_run_rep s0 ops :
  store_rep s0 ∅ 0 0 → ops_fit ops →
  store_outbox_rep (foldl outbox_step (NewDurableStoreOutbox s0) ops) (appended ops) (acked ops).
Proof.
  intros Hs0. unfold appended, acked. induction ops as [|op ops IH] using rev_ind; intros Hfit.
  - exists ∅, 0. simpl. rewrite (LoadCursor_rep _ _ _ _ Hs0). split_and!; try done.
    intros e. rewrite !lookup_empty. by split.
  - rewrite !foldl_snoc. assert (Hfit' : ops_fit ops).
    { intros s e m f Hin. apply (Hfit s e m f), elem_of_app. by left. }
    specialize (IH Hfit'). destruct op as [e m|e| |e]; simpl.
    + assert (Hacc : ∀ s f, MarshalJSON m = Some f → accepts (s : S) e f).
      { intros s f. apply Hfit, elem_of_app. right. by apply list_elem_of_singleton. }
      pose proof (store_Append_rep _ _ _ e m (Hacc _) IH) as Hrep.
      destruct (MarshalJSON m); [rewrite bool_decide_eq_true_2 in Hrep by eauto|
        rewrite bool_decide_eq_false_2 in Hrep by (by intros [])]; done.
    + apply (store_AckThrough_rep _ _ _ e IH).
    + by apply reopen_rep.
    + pose proof (store_AckThrough_rep _ _ _ e (reopen_rep _ _ _ IH)) as (wf & fl & Hs & He & Hfl & Ha).
      destruct IH as (_ & _ & _ & _ & _ & Ha'). exists wf, fl. simpl in *. split_and!; try done. lia.
Qed.

End outbox.
Arguments DurableStoreOutbox : clear implicits.

(** A codec that refuses odd numbers and writes one byte, over the journal. *)
#[local] Program Instance even_codec : FrameCodec Z (list Z) := {|
  MarshalJSON m := if Z.even m then Some [m] else None;
  DecodeIpcMessageJSON := head |}.
Next Obligation. intros m f. simpl. by destruct (Z.even m); intros [= <-]. Qed.

Definition outbox_demo : list (outboxOp (Msg := Z)) :=
  [OAppend 1 10; OAppend 2 20; OAppend 3 31; OAck 1; OReopen; OAppend 4 40; OAck 0; OAppend 2 22].

(** A codec's frame of one byte fits, at any epoch. *)
Lemma one_byte_fits e b : record_len (RecPut e [b]) < MaxScanTokenSize.
Proof.
  unfold record_len, MaxScanTokenSize. pose proof (digits_bound 19 e). rewrite decide_False by done.
  change ((Z.of_nat (length [b]) + 2) / 3) with 1. lia.
Qed.

