(* ===== verification/ReliableSync.v ===== *)
(** * ReliableSync: gap recovery and the sync driver (reliable_sync.go)

    The receiver's decision function, the liveness cells, and the driver loop
    over an outbox it knows only through the class [DurableOutbox].  The sink
    and the source are seams: a sink is the outcomes its next sends will have
    and the log of frames it took, a source is the list of receive results of one
    tick, the clock and the snapshot provider are arguments. *)

From S2P Require Import Prelude Hlc Outbox.

Local Open Scope Z_scope.

(** ** Frames *)

Section frames.
Context {Ops State Crdt : Type}.

(** [delta_wire_gen.go] [type Delta] *)
Record Delta := mkDelta { BaseEpoch : Z; Epoch : Z; delta_ops : Ops }.

(** [ipc.go] [type IpcMessage] [type IpcMessageSnapshot] [type IpcMessageDelta] [type IpcMessageCrdtSync] [type IpcMessageResyncRequest] [type IpcMessageOutboxAck] *)
Inductive IpcMessage :=
| IpcMessageSnapshot (epoch : Z) (state : State)
| IpcMessageDelta (d : Delta)
| IpcMessageCrdtSync (c : Crdt)
| IpcMessageResyncRequest (fromEpoch : Z)
| IpcMessageOutboxAck (throughEpoch : Z).

(** [reliable_sync.go] [Delta.Span] *)
Definition Span (d : Delta) : Z := Epoch d -ₛ BaseEpoch d.

(** [ipc.go] [DeltaNext] *)
Definition DeltaNext (baseEpoch : Z) (ops : Ops) : Delta := mkDelta baseEpoch (baseEpoch +ₛ 1) ops.

(** [ipc.go] [Delta.IsNextAfter] *)
Definition IsNextAfter (d : Delta) (lastEpoch : Z) : bool :=
  bool_decide (BaseEpoch d = lastEpoch ∧ Epoch d = BaseEpoch d +ₛ 1).
End frames.
Arguments Delta : clear implicits.
Arguments IpcMessage : clear implicits.

(** ** The receiver's decision function *)

(** [reliable_sync.go] [type ResyncAction] *)
Inductive ResyncAction := ResyncActionApply | ResyncActionRequestSnapshot | ResyncActionIgnore.
#[export] Instance ResyncAction_eq_dec : EqDecision ResyncAction.
Proof. solve_decision. Defined.

(** [reliable_sync.go] [type ResyncCoordinator] *)
Record ResyncCoordinator := mkCoordinator { lastEpoch : Z; resyncing : bool }.

(** [reliable_sync.go] [NewResyncCoordinator] *)
Definition NewResyncCoordinator : ResyncCoordinator := mkCoordinator 0 false.
(** [reliable_sync.go] [NewResyncCoordinatorWithEpoch] *)
Definition NewResyncCoordinatorWithEpoch (e : Z) : ResyncCoordinator := mkCoordinator e false.

Section coordinator.
Context {Ops State Crdt : Type}.
Implicit Types (c : ResyncCoordinator) (m : IpcMessage Ops State Crdt).

(** [reliable_sync.go] [ResyncCoordinator.IngestDelta] *)
Definition IngestDelta c (d : Delta Ops) : ResyncCoordinator * (ResyncAction * Z) :=
  if decide (BaseEpoch d = lastEpoch c) then
    if decide (BaseEpoch d +ₛ 1 ≤ Epoch d)
    then (mkCoordinator (Epoch d) false, (ResyncActionApply, 0))
    else (c, (ResyncActionIgnore, 0))
  else if decide (BaseEpoch d < lastEpoch c) then (c, (ResyncActionIgnore, 0))
  else if resyncing c then (c, (ResyncActionIgnore, 0))
  else (mkCoordinator (lastEpoch c) true, (ResyncActionRequestSnapshot, lastEpoch c)).

(** [reliable_sync.go] [ResyncCoordinator.IngestSnapshot] *)
Definition IngestSnapshot c (snapshotEpoch : Z) : ResyncCoordinator * (ResyncAction * Z) :=
  (mkCoordinator snapshotEpoch false, (ResyncActionApply, 0)).

(** [reliable_sync.go] [ResyncCoordinator.Ingest] *)
Definition Ingest c m : ResyncCoordinator * (ResyncAction * Z) :=
  match m with
  | IpcMessageSnapshot epoch _ => IngestSnapshot c epoch
  | IpcMessageDelta d => IngestDelta c d
  | _ => (c, (ResyncActionIgnore, 0))
  end.

(** [reliable_sync.go] [ResyncCoordinator.Ack] *)
Definition Ack c : IpcMessage Ops State Crdt := IpcMessageOutboxAck (lastEpoch c).
End coordinator.

(** ** Liveness cells *)

(** [reliable_sync.go] [type OrSet] *)
Record OrSet := mkOrSet { adds : gset string; removes : gset string }.
(** [reliable_sync.go] [NewOrSet] *)
Definition NewOrSet : OrSet := mkOrSet ∅ ∅.
(** [reliable_sync.go] [OrSet.Add] *)
Definition OrSet_Add (s : OrSet) (tag : string) : OrSet := mkOrSet ({[tag]} ∪ adds s) (removes s).
(** [reliable_sync.go] [OrSet.RemoveObserved] *)
Definition RemoveObserved (s : OrSet) (tags : list string) : OrSet :=
  mkOrSet (adds s) (foldl (λ r t, {[t]} ∪ r) (removes s) tags).
(** [reliable_sync.go] [OrSet.Present] *)
Definition Present (s : OrSet) : bool := existsb (λ t, negb (bool_decide (t ∈ removes s))) (elements (adds s)).
(** [reliable_sync.go] [OrSet.Join] *)
Definition OrSet_Join (s other : OrSet) : OrSet :=
  mkOrSet (adds other ∪ adds s) (removes other ∪ removes s).

Lemma RemoveObserved_removes s tags t : t ∈ removes (RemoveObserved s tags) ↔ t ∈ removes s ∨ t ∈ tags.
Proof.
  simpl. generalize (removes s). induction tags as [|x tags IH]; intros r; simpl; [set_solver|].
  rewrite IH. set_solver.
Qed.

(** Present means some tag survives; a join is present when a tag of either side
    survives the removals of both, so a removal never hides an add it did not
    observe. *)
Lemma Present_iff s : Present s = true ↔ ∃ t, t ∈ adds s ∧ t ∉ removes s.
Proof.
  unfold Present. rewrite existsb_exists. split.
  - intros (t & Ht & Hr). exists t. apply list_elem_of_In, elem_of_elements in Ht.
    by rewrite negb_true_iff, bool_decide_eq_false in Hr.
  - intros (t & Ht & Hr). exists t. rewrite <-list_elem_of_In, elem_of_elements.
    by rewrite negb_true_iff, bool_decide_eq_false.
Qed.

Lemma OrSet_Join_comm s1 s2 : OrSet_Join s1 s2 = OrSet_Join s2 s1.
Proof. unfold OrSet_Join. f_equal; set_solver. Qed.
Lemma OrSet_Join_assoc s1 s2 s3 : OrSet_Join s1 (OrSet_Join s2 s3) = OrSet_Join (OrSet_Join s1 s2) s3.
Proof. unfold OrSet_Join. simpl. f_equal; set_solver. Qed.
Lemma OrSet_Join_idem s : OrSet_Join s s = s.
Proof. destruct s. unfold OrSet_Join. simpl. f_equal; set_solver. Qed.

Section lww.
Context {V : Type}.
(** [reliable_sync.go] [type WireLwwRegister] *)
Record WireLwwRegister := mkWireLww { wreg_stamp : WireStamp; wreg_value : V }.
(** [reliable_sync.go] [WireStamp.Greater] *)
Definition WireStamp_Greater (s other : WireStamp) : bool := HlcStamp_Greater (HlcStampFromWire s) (HlcStampFromWire other).
(** [reliable_sync.go] [WireLwwRegister.Set] *)
Definition WireLww_Set (r : WireLwwRegister) (stamp : WireStamp) (value : V) : WireLwwRegister :=
  if WireStamp_Greater stamp (wreg_stamp r) then mkWireLww stamp value else r.
(** [reliable_sync.go] [WireLwwRegister.Join] *)
Definition WireLww_Join (r other : WireLwwRegister) : WireLwwRegister :=
  if WireStamp_Greater (wreg_stamp other) (wreg_stamp r) then mkWireLww (wreg_stamp other) (wreg_value other) else r.
End lww.

(** ** The driver *)

Section driver.
Context {Ops State Crdt Ob : Type} `{DurableOutbox (IpcMessage Ops State Crdt) Ob}.
Abbreviation Msg := (IpcMessage Ops State Crdt).

(** [reliable_sync.go] [type SyncDriver] *)
Record SyncDriver := mkDriver {
  outbox : Ob;
  coordinator : ResyncCoordinator;
  pending : list (Z * Msg);
  peerAckedThrough : Z;
  ackOwed : bool;
  replayPending : bool;
  stalledSince : option Z;
}.

(** [reliable_sync.go] [type Progress] *)
Record Progress := mkProgress {
  Sent : nat;
  Applied : list Msg;
  ResyncRequested : bool;
  SnapshotsServed : nat;
  PeerAckedThrough : Z;
  Retained : nat;
}.

(** A sink: the outcomes of its next sends (all succeed once they run out) and
    the frames it has taken.  [reliable_sync.go] [type IpcSink] *)
Record wire := mkWire { outcomes : list bool; sent : list Msg }.
Definition Send (w : wire) (m : Msg) : wire * bool :=
  match outcomes w with
  | [] => (mkWire [] (sent w ++ [m]), true)
  | ok :: rest => (mkWire rest (if ok then sent w ++ [m] else sent w), ok)
  end.

(** One receive result; the end of a tick's list is an empty inbound queue. *)
(** [reliable_sync.go] [type IpcSource] *)
Inductive recv := RecvFrame (m : Msg) | RecvError.

Implicit Types (d : SyncDriver) (w : wire) (p : Progress).

(** [reliable_sync.go] [NewSyncDriver] [NewSyncDriverWithEpoch] *)
Definition NewSyncDriverWithEpoch (ob : Ob) (e : Z) : SyncDriver :=
  mkDriver ob (NewResyncCoordinatorWithEpoch e) [] 0 false false None.
Definition NewSyncDriver (ob : Ob) : SyncDriver := NewSyncDriverWithEpoch ob 0.

(** [reliable_sync.go] [SyncDriver.Enqueue] *)
Definition Enqueue d (epoch : Z) (msg : Msg) : SyncDriver :=
  mkDriver (outbox d) (coordinator d) (pending d ++ [(epoch, msg)]) (peerAckedThrough d) (ackOwed d)
    (replayPending d) (stalledSince d).

(** [reliable_sync.go] [SyncDriver.OnReconnect] *)
Definition OnReconnect d : SyncDriver :=
  mkDriver (outbox d) (coordinator d) (pending d) (peerAckedThrough d) true true None.

(** [reliable_sync.go] [SyncDriver.StalledFor] *)
Definition StalledFor d (now : Z) : Z :=
  match stalledSince d with
  | None => 0
  | Some since => if decide (now < since) then 0 else now -ₛ since
  end.

Definition with_outbox (ob : Ob) d : SyncDriver :=
  mkDriver ob (coordinator d) (pending d) (peerAckedThrough d) (ackOwed d) (replayPending d) (stalledSince d).
Definition with_coordinator (c : ResyncCoordinator) d : SyncDriver :=
  mkDriver (outbox d) c (pending d) (peerAckedThrough d) (ackOwed d) (replayPending d) (stalledSince d).
Definition with_pending l d : SyncDriver :=
  mkDriver (outbox d) (coordinator d) l (peerAckedThrough d) (ackOwed d) (replayPending d) (stalledSince d).
Definition with_acked (e : Z) d : SyncDriver :=
  mkDriver (outbox d) (coordinator d) (pending d) e (ackOwed d) (replayPending d) (stalledSince d).
Definition with_owed (b : bool) d : SyncDriver :=
  mkDriver (outbox d) (coordinator d) (pending d) (peerAckedThrough d) b (replayPending d) (stalledSince d).
Definition with_replay (b : bool) d : SyncDriver :=
  mkDriver (outbox d) (coordinator d) (pending d) (peerAckedThrough d) (ackOwed d) b (stalledSince d).
(** [reliable_sync.go] [SyncDriver.stall] *)
Definition stall (now : Z) d : SyncDriver :=
  mkDriver (outbox d) (coordinator d) (pending d) (peerAckedThrough d) (ackOwed d) (replayPending d) (Some now).

(** [reliable_sync.go] [lines 480-488 SyncDriver.Tick] *)
Fixpoint replay_loop (now : Z) (entries : list (Z * Msg)) d w (n : nat) : SyncDriver * wire * nat :=
  match entries with
  | [] => (d, w, n)
  | (_, m) :: rest =>
      let '(w, ok) := Send w m in
      if ok then replay_loop now rest d w (S n) else (with_replay true (stall now d), w, n)
  end.

(** [reliable_sync.go] [lines 494-506 SyncDriver.Tick] *)
Fixpoint drain_loop (now : Z) (todo : list (Z * Msg)) d w (n : nat) : SyncDriver * wire * nat :=
  match todo with
  | [] => (d, w, n)
  | (epoch, m) :: rest =>
      match stalledSince d with
      | Some _ => (d, w, n)
      | None =>
          let d := with_pending rest (with_outbox (Append (outbox d) epoch m) d) in
          let '(w, ok) := Send w m in
          if ok then drain_loop now rest d w (S n) else (stall now d, w, n)
      end
  end.

(** One inbound frame: the switch of the receive loop. *)
(** [reliable_sync.go] [lines 517-549 SyncDriver.Tick] *)
Definition receive (Snapshot : Z → Msg) (now : Z) d w p (m : Msg) : SyncDriver * wire * Progress :=
  match m with
  | IpcMessageOutboxAck through =>
      let d := if decide (peerAckedThrough d < through) then with_acked through d else d in
      (with_outbox (AckThrough (outbox d) through) d, w, p)
  | IpcMessageResyncRequest from =>
      let '(w, ok) := Send w (Snapshot from) in
      if ok then (d, w, mkProgress (Sent p) (Applied p) (ResyncRequested p) (S (SnapshotsServed p)) (PeerAckedThrough p) (Retained p))
      else (stall now d, w, p)
  | IpcMessageCrdtSync _ =>
      (d, w, mkProgress (Sent p) (Applied p ++ [m]) (ResyncRequested p) (SnapshotsServed p) (PeerAckedThrough p) (Retained p))
  | _ =>
      let '(c, (action, fromEpoch)) := Ingest (coordinator d) m in
      let d := with_coordinator c d in
      match action with
      | ResyncActionApply =>
          (with_owed true d, w, mkProgress (Sent p) (Applied p ++ [m]) (ResyncRequested p) (SnapshotsServed p) (PeerAckedThrough p) (Retained p))
      | ResyncActionRequestSnapshot =>
          let '(w, ok) := Send w (IpcMessageResyncRequest fromEpoch) in
          if ok then (d, w, mkProgress (Sent p) (Applied p) true (SnapshotsServed p) (PeerAckedThrough p) (Retained p))
          else (stall now d, w, p)
      | ResyncActionIgnore => (d, w, p)
      end
  end.

(** The receive loop; [false] when the source failed.
    [reliable_sync.go] [lines 509-550 SyncDriver.Tick] *)
Fixpoint receive_loop (Snapshot : Z → Msg) (now : Z) (inbox : list recv) d w p : SyncDriver * wire * Progress * bool :=
  match inbox with
  | [] => (d, w, p, true)
  | RecvError :: _ => (d, w, p, false)
  | RecvFrame m :: rest =>
      let '(d, w, p) := receive Snapshot now d w p m in receive_loop Snapshot now rest d w p
  end.

(** [reliable_sync.go] [lines 477-489 SyncDriver.Tick] *)
Definition replay_phase (now : Z) d w : SyncDriver * wire * nat :=
  if replayPending d then
    let d := with_replay false d in
    let '(ob, entries) := ReplayFrom (outbox d) (peerAckedThrough d) in
    replay_loop now entries (with_outbox ob d) w 0
  else (d, w, 0%nat).

(** [reliable_sync.go] [lines 552-555 SyncDriver.Tick] *)
Definition ack_phase d w : SyncDriver * wire :=
  if ackOwed d then
    let '(w, ok) := Send w (Ack (coordinator d)) in
    (if ok then with_owed false d else d, w)
  else (d, w).

(** A source failure gives no progress at all, [inr tt].
    [reliable_sync.go] [SyncDriver.Tick] *)
Definition Tick (Snapshot : Z → Msg) (now : Z) (inbox : list recv) d w : SyncDriver * wire * (Progress + unit) :=
  let '(d, w, n) := replay_phase now d w in
  let '(d, w, n) := drain_loop now (pending d) d w n in
  let '(d, w, p, ok) := receive_loop Snapshot now inbox d w (mkProgress n [] false 0 0 0) in
  if negb ok then (d, w, inr tt)
  else
    let '(d, w) := ack_phase d w in
    let '(ob, retained) := RetainedEpochs (outbox d) in
    (with_outbox ob d, w,
     inl (mkProgress (Sent p) (Applied p) (ResyncRequested p) (SnapshotsServed p) (peerAckedThrough d) (length retained))).
End driver.
Arguments SyncDriver _ _ _ _ : clear implicits.
Arguments Progress : clear implicits.
Arguments wire : clear implicits.
Arguments recv : clear implicits.

(** ** The sender's history *)

Section history.
Context {Ops State Crdt : Type} (apply : State → Ops → State) (init : State).
Abbreviation Msg := (IpcMessage Ops State Crdt).
Abbreviation history := (list (Z * Ops)).
Implicit Types (log : history) (c : ResyncCoordinator) (m : Msg).

(** The epoch and the state a history reaches. *)
Definition ep log : Z := default 0 (last log.*1).
Definition st log : State := foldl (λ s eo, apply s eo.2) init log.

(** Epochs start above 0, rise, and fit the wire type. *)
Definition log_ok log : Prop := StronglySorted Z.lt (0 :: log.*1) ∧ Forall is_i64 log.*1.

(** A frame that tells the truth about a history: a delta takes one of its
    states to a later one, a snapshot is one of its states. *)
Definition valid log m : Prop :=
  match m with
  | IpcMessageSnapshot e s => ∃ k, (k ≤ length log)%nat ∧ e = ep (take k log) ∧ s = st (take k log)
  | IpcMessageDelta d => ∃ j k, (j < k ≤ length log)%nat ∧ BaseEpoch d = ep (take j log) ∧
      Epoch d = ep (take k log) ∧ apply (st (take j log)) (delta_ops d) = st (take k log)
  | _ => True
  end.

(** The receiver stands at one of the history's states. *)
Definition in_sync log c (s : State) : Prop :=
  ∃ k, (k ≤ length log)%nat ∧ lastEpoch c = ep (take k log) ∧ s = st (take k log).

(** What the host owes for an applied frame, and a whole inbound stream. *)
Definition apply_frame (s : State) m : State :=
  match m with
  | IpcMessageSnapshot _ s' => s'
  | IpcMessageDelta d => apply s (delta_ops d)
  | _ => s
  end.
Definition ingest_one (cs : ResyncCoordinator * State) m : ResyncCoordinator * State :=
  let '(c', (action, _)) := Ingest cs.1 m in
  (c', match action with ResyncActionApply => apply_frame cs.2 m | _ => cs.2 end).
Definition ingest_all cs (frames : list Msg) : ResyncCoordinator * State := foldl ingest_one cs frames.

Lemma ep_take log k : (k ≤ length log)%nat → (0 :: log.*1) !! k = Some (ep (take k log)).
Proof.
  intros Hk. unfold ep. destruct k as [|k]; [done|].
  destruct (lookup_lt_is_Some_2 log k ltac:(lia)) as [[e o] Hl].
  rewrite (take_S_r _ _ _ Hl), fmap_app, last_app. simpl. by rewrite list_lookup_fmap, Hl.
Qed.

Lemma ep_lt log j k : log_ok log → (j < k ≤ length log)%nat → ep (take j log) < ep (take k log).
Proof.
  intros [Hs _] Hjk. pose proof (ep_take log j ltac:(lia)) as Hj. pose proof (ep_take log k ltac:(lia)) as Hk.
  apply list_elem_of_split_length in Hj as (l1 & l2 & Heq & Hl1).
  rewrite Heq in Hs, Hk. apply StronglySorted_app in Hs as (_ & _ & Hs). apply StronglySorted_inv in Hs as [_ Hall].
  rewrite lookup_app_r in Hk by lia. rewrite Forall_forall in Hall. apply Hall.
  replace (k - length l1)%nat with (S (k - length l1 - 1)) in Hk by lia. by eapply list_elem_of_lookup_2.
Qed.

Lemma ep_le log j k : log_ok log → (j ≤ k ≤ length log)%nat → ep (take j log) ≤ ep (take k log).
Proof.
  intros Hlog Hjk. destruct (decide (j = k)) as [->|]; [lia|]. pose proof (ep_lt log j k Hlog ltac:(lia)). lia.
Qed.

Lemma ep_inj log j k : log_ok log → (j ≤ length log)%nat → (k ≤ length log)%nat →
  ep (take j log) = ep (take k log) → j = k.
Proof.
  intros Hlog Hj Hk Heq. destruct (decide (j < k)%nat); [pose proof (ep_lt log j k Hlog ltac:(lia)); lia|].
  destruct (decide (k < j)%nat); [pose proof (ep_lt log k j Hlog ltac:(lia)); lia|lia].
Qed.

Lemma ep_i64 log k : log_ok log → (k ≤ length log)%nat → is_i64 (ep (take k log)).
Proof.
  intros [_ Hall] Hk. pose proof (ep_take log k Hk) as Hl. destruct k as [|k]; simpl in Hl.
  - by vm_compute.
  - rewrite Forall_forall in Hall. apply Hall. by eapply list_elem_of_lookup_2.
Qed.

(** A truthful delta steps forward, within the machine width. *)
Lemma valid_delta log d : log_ok log → valid log (IpcMessageDelta d) → BaseEpoch d < Epoch d ∧ BaseEpoch d +ₛ 1 ≤ Epoch d.
Proof.
  intros Hlog (j & k & Hjk & Hb & He & _). pose proof (ep_lt log j k Hlog Hjk).
  pose proof (ep_i64 log j Hlog ltac:(lia)). pose proof (ep_i64 log k Hlog ltac:(lia)).
  rewrite Hb, He. split; [done|]. rewrite i64_small; [lia|]. unfold is_i64 in *. lia.
Qed.

Lemma ingest_sync log cs m : log_ok log → in_sync log cs.1 cs.2 → valid log m →
  in_sync log (ingest_one cs m).1 (ingest_one cs m).2.
Proof.
  destruct cs as [c s]. intros Hlog (k & Hk & He & Hs) Hv. simpl in *. unfold ingest_one.
  destruct m as [e s'|d|x|f|t]; simpl; [by destruct Hv as (k' & Hk' & -> & ->); exists k'| |by exists k..].
  pose proof (valid_delta log d Hlog Hv) as [_ Hstep]. unfold IngestDelta.
  destruct (decide (BaseEpoch d = lastEpoch c)) as [Hb|Hb].
  - rewrite decide_True by done. destruct Hv as (j & k' & Hjk & Hbj & Hek & Happ). simpl.
    exists k'. split_and!; [lia|done|]. assert (j = k) as ->; [|by rewrite Hs].
    apply (ep_inj log); [done|lia|lia|congruence].
  - case_decide; [by exists k|]. destruct (resyncing c); by exists k.
Qed.

Lemma ingest_all_sync log cs frames : log_ok log → in_sync log cs.1 cs.2 → Forall (valid log) frames →
  in_sync log (ingest_all cs frames).1 (ingest_all cs frames).2.
Proof.
  intros Hlog Hsync Hall. unfold ingest_all. revert cs Hsync. induction Hall as [|m frames Hm Hall IH]; intros cs Hsync; [done|].
  simpl. by apply IH, ingest_sync.
Qed.

(** Deltas move the receiver forward only. *)
Lemma ingest_delta_mono log cs d : log_ok log → valid log (IpcMessageDelta d) →
  lastEpoch cs.1 ≤ lastEpoch (ingest_one cs (IpcMessageDelta d)).1.
Proof.
  intros Hlog Hv. destruct (valid_delta log d Hlog Hv) as [Hlt Hstep]. unfold ingest_one. simpl. unfold IngestDelta.
  repeat case_decide; simpl; try lia. by destruct (resyncing cs.1).
Qed.

(** C9: whatever the network does to the stream, each accepted change takes
    effect exactly once and in order.  For any list of truthful frames of one
    history (lost, repeated, reordered, deltas coalesced over several epochs,
    snapshots old or new), the state the host folds is the history's state at the
    coordinator's epoch; a delta already covered changes nothing; and without
    snapshots the epoch never goes back. *)
Theorem ResyncCoordinator_effect_exactly_once log (frames : list Msg) :
  log_ok log → Forall (valid log) frames →
  let cs := ingest_all (NewResyncCoordinator, init) frames in
  in_sync log cs.1 cs.2 ∧
  (∀ d, valid log (IpcMessageDelta d) → Epoch d ≤ lastEpoch cs.1 →
     ingest_one cs (IpcMessageDelta d) = cs) ∧
  (∀ d, valid log (IpcMessageDelta d) → lastEpoch cs.1 ≤ lastEpoch (ingest_one cs (IpcMessageDelta d)).1) ∧
  (∀ d, valid log (IpcMessageDelta d) → BaseEpoch d = lastEpoch cs.1 →
     lastEpoch (ingest_one cs (IpcMessageDelta d)).1 = Epoch d).
Proof.
  intros Hlog Hall cs. split_and!.
  - apply ingest_all_sync; [done| |done]. exists 0%nat. split_and!; [lia|done|done].
  - intros d Hv Hle. destruct (valid_delta log d Hlog Hv) as [Hlt _]. unfold ingest_one. simpl. unfold IngestDelta.
    rewrite decide_False, decide_True by lia. by destruct cs.
  - intros d Hv. by eapply ingest_delta_mono.
  - intros d Hv Hb. destruct (valid_delta log d Hlog Hv) as [_ Hstep]. unfold ingest_one. simpl. unfold IngestDelta.
    by rewrite !decide_True.
Qed.
End history.

(** ** Two drivers over a lossy network *)

Section network.
Context {Ops State Crdt Ob : Type} `{DurableOutbox (IpcMessage Ops State Crdt) Ob}.
Context (apply : State → Ops → State) (init : State) (empty_outbox : Ob).
Context (empty_outbox_rep : outbox_rep empty_outbox ∅ 0).
Abbreviation Msg := (IpcMessage Ops State Crdt).
Abbreviation history := (list (Z * Ops)).
Abbreviation driver := (SyncDriver Ops State Crdt Ob).
Implicit Types (log : history) (d : driver) (w : wire Ops State Crdt) (m : Msg).
Abbreviation ep := (ep (Ops := Ops)).
Abbreviation st := (st apply init).

(** The frames a host enqueues for a history that stands at [base]. *)
Fixpoint frames (base : Z) log : list (Z * Msg) :=
  match log with
  | [] => []
  | (e, ops) :: log => (e, IpcMessageDelta (mkDelta base e ops)) :: frames e log
  end.

(** One sending host, one receiving host with its projection, and every frame
    ever handed to the network in either direction. *)
Record sys := mkSys {
  snd_driver : driver; rcv_driver : driver; view : State; hist : history;
  toRcv : list Msg; toSnd : list Msg;
}.
Definition init_sys : sys := mkSys (NewSyncDriver empty_outbox) (NewSyncDriver empty_outbox) init [] [] [].

(** The sender's projection answers a resync request with its current state. *)
Definition provider log (from : Z) : Msg := IpcMessageSnapshot (ep log) (st log).

Definition applied_frames (r : Progress Ops State Crdt + unit) : list Msg :=
  match r with inl p => Applied p | inr _ => [] end.

Definition snd_tick (now : Z) (outs : list bool) (inbox : list (recv Ops State Crdt)) (s : sys) : sys :=
  let '(d, w, _) := Tick (provider (hist s)) now inbox (snd_driver s) (mkWire outs []) in
  mkSys d (rcv_driver s) (view s) (hist s) (toRcv s ++ sent w) (toSnd s).
Definition rcv_tick (now : Z) (outs : list bool) (inbox : list (recv Ops State Crdt)) (s : sys) : sys :=
  let '(d, w, r) := Tick (provider (hist s)) now inbox (rcv_driver s) (mkWire outs []) in
  mkSys (snd_driver s) d (foldl (apply_frame apply) (view s) (applied_frames r)) (hist s) (toRcv s) (toSnd s ++ sent w).

(** No snapshot older than what the receiver already has. *)
Fixpoint fresh (c : ResyncCoordinator) (fs : list Msg) : Prop :=
  match fs with
  | [] => True
  | m :: fs => match m with IpcMessageSnapshot e _ => lastEpoch c ≤ e | _ => True end ∧ fresh (Ingest c m).1 fs
  end.

(** What the two hosts and the network may do.  A tick's inbound frames are any
    frames sent before, lost, repeated or reordered at will, its sends fail at
    will, and the sender's source may fail. *)
Inductive sys_step : sys → sys → Prop :=
| step_enqueue s e ops :
    ep (hist s) < e → is_i64 e →
    encodes (IpcMessageDelta (mkDelta (ep (hist s)) e ops) : Msg) = true →
    sys_step s (mkSys (Enqueue (snd_driver s) e (IpcMessageDelta (mkDelta (ep (hist s)) e ops))) (rcv_driver s)
      (view s) (hist s ++ [(e, ops)]) (toRcv s) (toSnd s))
| step_snd_reconnect s :
    sys_step s (mkSys (OnReconnect (snd_driver s)) (rcv_driver s) (view s) (hist s) (toRcv s) (toSnd s))
| step_rcv_reconnect s :
    sys_step s (mkSys (snd_driver s) (OnReconnect (rcv_driver s)) (view s) (hist s) (toRcv s) (toSnd s))
| step_snd_tick s now outs inbox :
    (∀ m, RecvFrame m ∈ inbox → m ∈ toSnd s) →
    sys_step s (snd_tick now outs inbox s)
| step_rcv_tick s now outs fs :
    (∀ m, m ∈ fs → m ∈ toRcv s) → fresh (coordinator (rcv_driver s)) fs →
    sys_step s (rcv_tick now outs (RecvFrame <$> fs) s).

(** A reconnect of both ends followed by one undisturbed exchange: the sender
    ticks, everything it sent arrives in order, the receiver ticks, its answer
    arrives. *)
Definition quiet_exchange (now : Z) (s : sys) : sys :=
  let s := mkSys (OnReconnect (snd_driver s)) (OnReconnect (rcv_driver s)) (view s) (hist s) [] [] in
  let s := snd_tick now [] [] s in
  let s := rcv_tick now [] (RecvFrame <$> toRcv s) s in
  snd_tick now [] (RecvFrame <$> toSnd s) s.

(** ** The invariant *)

Definition from_snd log m : Prop :=
  match m with
  | IpcMessageSnapshot _ _ | IpcMessageDelta _ => valid apply init log m
  | IpcMessageOutboxAck _ => True
  | _ => False
  end.
Definition from_rcv (bound : Z) m : Prop :=
  match m with
  | IpcMessageOutboxAck t => t ≤ bound
  | IpcMessageResyncRequest _ => True
  | _ => False
  end.

(** The sender holds every frame of its history: a prefix appended, the rest
    staged, the peer's acknowledgement below [bound]. *)
Definition snd_inv log (bound : Z) d : Prop :=
  ∃ l1 l2, log = l1 ++ l2 ∧ pending d = frames (ep l1) l2 ∧
    outbox_rep (outbox d) (list_to_map (frames 0 l1)) (peerAckedThrough d) ∧
    (∀ e m, (e, m) ∈ frames 0 log → encodes m = true) ∧ peerAckedThrough d ≤ bound ∧ 0 ≤ peerAckedThrough d.

Definition rcv_inv d : Prop := pending d = [] ∧ ∃ a, outbox_rep (outbox d) ∅ a.

Record sys_inv (s : sys) : Prop := {
  si_log : log_ok (hist s);
  si_snd : snd_inv (hist s) (lastEpoch (coordinator (rcv_driver s))) (snd_driver s);
  si_rcv : rcv_inv (rcv_driver s);
  si_sync : in_sync apply init (hist s) (coordinator (rcv_driver s)) (view s);
  si_toRcv : Forall (from_snd (hist s)) (toRcv s);
  si_toSnd : Forall (from_rcv (lastEpoch (coordinator (rcv_driver s)))) (toSnd s);
}.

Lemma Send_spec w m : (Send w m).2 = true ∧ sent (Send w m).1 = sent w ++ [m] ∨ (Send w m).2 = false ∧ sent (Send w m).1 = sent w.
Proof. unfold Send. destruct (outcomes w) as [|[] rest]; simpl; auto. Qed.

Lemma Send_all (P : Msg → Prop) w m : Forall P (sent w) → P m → Forall P (sent (Send w m).1).
Proof.
  intros Hw Hm. destruct (Send_spec w m) as [[_ ->]|[_ ->]]; [|done]. apply Forall_app. by repeat constructor.
Qed.

(** The loops change only the stall and replay marks, the outbox and what is
    staged, and send only what they were given. *)
Lemma replay_loop_spec (P : Msg → Prop) now entries d w n :
  Forall P (sent w) → (∀ e m, (e, m) ∈ entries → P m) →
  let '(d', w', _) := replay_loop now entries d w n in
  outbox d' = outbox d ∧ coordinator d' = coordinator d ∧ pending d' = pending d ∧
  peerAckedThrough d' = peerAckedThrough d ∧ Forall P (sent w').
Proof.
  revert d w n. induction entries as [|[e m] entries IH]; intros d w n Hw Hp; [done|]. simpl.
  assert (Hw' : Forall P (sent (Send w m).1)) by (apply Send_all; [done|apply (Hp e); left]).
  destruct (Send w m) as [w' []]; simpl in *; [|done]. apply IH; [done|]. intros e' m' Hin. apply (Hp e'). by right.
Qed.

Lemma replay_loop_clean now entries d l n :
  replay_loop now entries d (mkWire [] l) n = (d, mkWire [] (l ++ entries.*2), (n + length entries)%nat).
Proof.
  revert l n. induction entries as [|[e m] entries IH]; intros l n; simpl; [by rewrite app_nil_r, Nat.add_0_r|].
  rewrite IH, <-app_assoc. simpl. do 2 f_equal. lia.
Qed.

Lemma frames_app base l1 l2 : frames base (l1 ++ l2) = frames base l1 ++ frames (default base (last l1.*1)) l2.
Proof.
  revert base. induction l1 as [|[e o] l1 IH]; intros base; [done|]. csimpl. rewrite IH. do 3 f_equal.
  rewrite last_cons. by destruct (last l1.*1).
Qed.

Lemma frames_fst base log : (frames base log).*1 = log.*1.
Proof. revert base. induction log as [|[e o] log IH]; intros base; [done|]. simpl. by rewrite IH. Qed.

Lemma ep_snoc log e (ops : Ops) : ep (log ++ [(e, ops)]) = e.
Proof. unfold ReliableSync.ep. rewrite fmap_app. csimpl. by rewrite last_snoc. Qed.

(** Appending the frames staged next. *)
Lemma frames_lookup_fresh base log : StronglySorted Z.lt (base :: log.*1) → NoDup (frames base log).*1 ∧ base ∉ log.*1.
Proof.
  intros Hs. rewrite frames_fst.
  assert (Hn : NoDup (base :: log.*1)); [|by apply NoDup_cons in Hn as [? ?]].
  induction Hs as [|x l Hs IH Hx]; [constructor|]. constructor; [|done]. intros Hin.
  rewrite Forall_forall in Hx. specialize (Hx x Hin). lia.
Qed.

Lemma frames_snoc_map l1 e ops :
  log_ok (l1 ++ [(e, ops)]) →
  (list_to_map (frames 0 (l1 ++ [(e, ops)])) : gmap Z Msg) =
  <[e := IpcMessageDelta (mkDelta (ep l1) e ops)]> (list_to_map (frames 0 l1)).
Proof.
  intros [Hs _]. destruct (frames_lookup_fresh 0 _ Hs) as [Hnd _].
  rewrite frames_app in *. simpl in *.
  assert (Hp : frames 0 l1 ++ [(e, IpcMessageDelta (mkDelta (default 0 (last l1.*1)) e ops))] ≡ₚ
    (e, IpcMessageDelta (mkDelta (ep l1) e ops)) :: frames 0 l1) by (by rewrite Permutation_app_comm).
  rewrite (list_to_map_proper _ _ Hnd Hp). done.
Qed.

Lemma log_ok_app l1 l2 : log_ok (l1 ++ l2) → log_ok (Ops := Ops) l1.
Proof.
  intros [Hs Hf]. rewrite fmap_app, app_comm_cons in Hs. apply StronglySorted_app in Hs as (_ & Hs & _).
  rewrite fmap_app in Hf. apply Forall_app in Hf as [Hf _]. done.
Qed.

Lemma drain_loop_spec (P : Msg → Prop) now log bound d w n todo :
  log_ok log → snd_inv log bound d → todo = pending d → Forall P (sent w) → (∀ e m, (e, m) ∈ frames 0 log → P m) →
  let '(d', w', _) := drain_loop now todo d w n in
  snd_inv log bound d' ∧ coordinator d' = coordinator d ∧ Forall P (sent w') ∧
  (stalledSince d = None → outcomes w = [] → pending d' = [] ∧ outcomes w' = [] ∧ sent w' = sent w ++ todo.*2) ∧
  peerAckedThrough d' = peerAckedThrough d.
Proof.
  intros Hlog Hd Htodo Hw Hp. revert d w n Hd Htodo Hw. induction todo as [|[e m] todo IH]; intros d w n Hd Htodo Hw.
  { simpl. rewrite app_nil_r. by split_and!. }
  cbn [drain_loop]. destruct (stalledSince d) eqn:Est; [by split_and!|].
  destruct Hd as (l1 & l2 & Hl & Hpe & Hrep & Henc & Hb & H0).
  rewrite <-Htodo in Hpe. destruct l2 as [|[e' ops] l2]; [done|]. simpl in Hpe. injection Hpe as -> -> ->.
  assert (Hin : (e', IpcMessageDelta (mkDelta (ep l1) e' ops)) ∈ frames 0 log).
  { rewrite Hl, frames_app. apply elem_of_app. right. simpl. left. }
  set (d1 := with_pending _ _).
  assert (Hd1 : snd_inv log bound d1).
  { exists (l1 ++ [(e', ops)]), l2. split_and!; try done.
    - by rewrite Hl, <-app_assoc.
    - by rewrite ep_snoc.
    - simpl. rewrite frames_snoc_map.
      + pose proof (Append_rep _ _ _ e' (IpcMessageDelta (mkDelta (ep l1) e' ops)) Hrep) as Ha.
        by rewrite (Henc _ _ Hin) in Ha.
      + apply (log_ok_app _ l2). rewrite <-app_assoc. simpl. by rewrite <-Hl. }
  assert (Hw' : Forall P (sent (Send w (IpcMessageDelta (mkDelta (ep l1) e' ops))).1)).
  { apply Send_all; [done|]. by apply (Hp e'). }
  destruct (Send_spec w (IpcMessageDelta (mkDelta (ep l1) e' ops))) as [[Hok Hsent]|[Hok Hsent]];
    destruct (Send w (IpcMessageDelta (mkDelta (ep l1) e' ops))) as [w' ok] eqn:ES; simpl in Hok, Hsent, Hw'; subst ok.
  - assert (Htd : frames e' l2 = pending d1) by done. specialize (IH d1 w' (S n) Hd1 Htd Hw').
    destruct (drain_loop now (frames e' l2) d1 w' (S n)) as [[d' w''] n']. destruct IH as (Hd' & Hc & Hw'' & Hclean & Hpa).
    split_and!; try done. intros _ Hout.
    assert (Hout' : outcomes w' = []) by (unfold Send in ES; rewrite Hout in ES; by injection ES as <-).
    destruct (Hclean Est Hout') as (? & ? & ->). split_and!; try done. rewrite Hsent, <-app_assoc. done.
  - split_and!; try done. intros _ Hout. exfalso. unfold Send in ES. by rewrite Hout in ES.
Qed.

(** The sender's receive loop only sees what a receiver sends. *)
Lemma snd_receive_spec (P : Msg → Prop) Snapshot now log bound inbox d w p :
  snd_inv log bound d → Forall P (sent w) → (∀ from, P (Snapshot from)) →
  (∀ m, RecvFrame m ∈ inbox → from_rcv bound m) →
  let '(d', w', _, ok) := receive_loop Snapshot now inbox d w p in
  snd_inv log bound d' ∧ coordinator d' = coordinator d ∧ pending d' = pending d ∧ Forall P (sent w') ∧
  peerAckedThrough d ≤ peerAckedThrough d' ∧ (RecvError ∉ inbox → ok = true) ∧
  (ok = true → ∀ t, RecvFrame (IpcMessageOutboxAck t) ∈ inbox → t ≤ peerAckedThrough d').
Proof.
  intros Hd Hw HP Hin. revert d w p Hd Hw. induction inbox as [|[m|] inbox IH]; intros d w p Hd Hw.
  { simpl. split_and!; try done; try lia. intros _ t Ht. by apply not_elem_of_nil in Ht. }
  2:{ simpl. split_and!; try done; try lia. intros Hn. destruct Hn. left. }
  specialize (IH ltac:(intros m' Hm'; apply Hin; by right)).
  pose proof (Hin m ltac:(left)) as Hm. cbn [receive_loop].
  destruct m as [?|?|?|f|t]; try done; cbn [receive].
  - assert (Hw' : Forall P (sent (Send w (Snapshot f)).1)) by (by apply Send_all).
    assert (Hcase : ∀ d1 w1 p1, snd_inv log bound d1 → coordinator d1 = coordinator d → pending d1 = pending d →
      peerAckedThrough d1 = peerAckedThrough d → Forall P (sent w1) →
      let '(d', w', _, ok) := receive_loop Snapshot now inbox d1 w1 p1 in
      snd_inv log bound d' ∧ coordinator d' = coordinator d ∧ pending d' = pending d ∧ Forall P (sent w') ∧
      peerAckedThrough d ≤ peerAckedThrough d' ∧ (RecvError ∉ RecvFrame (IpcMessageResyncRequest f) :: inbox → ok = true) ∧
      (ok = true → ∀ t, RecvFrame (IpcMessageOutboxAck t) ∈ RecvFrame (IpcMessageResyncRequest f) :: inbox → t ≤ peerAckedThrough d')).
    { intros d1 w1 p1 Hd1 Hc Hpe Hpa Hw1. specialize (IH d1 w1 p1 Hd1 Hw1).
      destruct (receive_loop Snapshot now inbox d1 w1 p1) as [[[d' w'] p'] ok].
      destruct IH as (I1 & I2 & I3 & I4 & I5 & I6 & I7). rewrite <-Hc, <-Hpe, <-Hpa. split_and!; try done.
      - intros Hn. apply I6. intros ?. apply Hn. by right.
      - intros Hok t [[=]|Ht]%elem_of_cons. by apply I7. }
    destruct (Send w (Snapshot f)) as [w' []]; by apply Hcase.
  - simpl in Hm. set (d1 := with_outbox _ _).
    assert (Hpa1 : peerAckedThrough d1 = Z.max (peerAckedThrough d) t).
    { unfold d1. simpl. case_decide; simpl; lia. }
    assert (Hd1 : snd_inv log bound d1).
    { destruct Hd as (l1 & l2 & Hl & Hpe & Hrep & Henc & Hb & H0). exists l1, l2.
      rewrite Hpa1. split_and!; try done; try lia; unfold d1; simpl; [by case_decide|].
      case_decide; simpl; by apply AckThrough_rep. }
    assert (Hc1 : coordinator d1 = coordinator d) by (unfold d1; simpl; by case_decide).
    assert (Hpe1 : pending d1 = pending d) by (unfold d1; simpl; by case_decide).
    specialize (IH d1 w p Hd1 Hw). destruct (receive_loop Snapshot now inbox d1 w p) as [[[d' w'] p'] ok].
    destruct IH as (I1 & I2 & I3 & I4 & I5 & I6 & I7). rewrite Hc1 in I2. rewrite Hpe1 in I3.
    split_and!; try done; try lia.
    + intros Hn. apply I6. intros ?. apply Hn. by right.
    + intros Hok t' [[= ->]|Ht]%elem_of_cons; [lia|by apply I7].
Qed.

(** The receiver's loop is the coordinator's fold, with the host's fold of the
    applied frames alongside. *)
Lemma rcv_receive_spec Snapshot now log bound fs d w p s0 :
  rcv_inv d → Forall (from_snd log) fs → Forall (from_rcv bound) (sent w) →
  let '(d', w', p', ok) := receive_loop Snapshot now (RecvFrame <$> fs) d w p in
  ok = true ∧ rcv_inv d' ∧ Forall (from_rcv bound) (sent w') ∧
  (coordinator d', foldl (apply_frame apply) s0 (Applied p')) =
    ingest_all apply (coordinator d, foldl (apply_frame apply) s0 (Applied p)) fs ∧
  (ackOwed d = true → ackOwed d' = true) ∧ (outcomes w = [] → outcomes w' = []).
Proof.
  intros Hd Hall Hw. revert d w p Hd Hw. induction Hall as [|m fs Hm Hall IH]; intros d w p Hd Hw; [by split_and!|].
  csimpl. unfold ingest_all in *. cbn [foldl].
  assert (Hcase : ∀ d1 w1 p1, rcv_inv d1 → Forall (from_rcv bound) (sent w1) →
    (coordinator d1, foldl (apply_frame apply) s0 (Applied p1)) =
      ingest_one apply (coordinator d, foldl (apply_frame apply) s0 (Applied p)) m →
    (ackOwed d = true → ackOwed d1 = true) → (outcomes w = [] → outcomes w1 = []) →
    let '(d', w', p', ok) := receive_loop Snapshot now (RecvFrame <$> fs) d1 w1 p1 in
    ok = true ∧ rcv_inv d' ∧ Forall (from_rcv bound) (sent w') ∧
    (coordinator d', foldl (apply_frame apply) s0 (Applied p')) =
      foldl (ingest_one apply) (ingest_one apply (coordinator d, foldl (apply_frame apply) s0 (Applied p)) m) fs ∧
    (ackOwed d = true → ackOwed d' = true) ∧ (outcomes w = [] → outcomes w' = [])).
  { intros d1 w1 p1 Hd1 Hw1 Heq Ho Hout. specialize (IH d1 w1 p1 Hd1 Hw1).
    destruct (receive_loop Snapshot now (RecvFrame <$> fs) d1 w1 p1) as [[[d' w'] p'] ok].
    destruct IH as (I1 & I2 & I3 & I4 & I5 & I6). rewrite <-Heq. split_and!; auto. }
  destruct Hd as [Hpe [a Hrep]].
  destruct m as [e s'|dl|x|f|t]; try done; cbn [receive].
  - cbn [Ingest IngestSnapshot]. apply Hcase; try done; [by split; [|exists a]|].
    simpl. by rewrite foldl_snoc.
  - cbn [Ingest].
    assert (Hone : ingest_one apply (coordinator d, foldl (apply_frame apply) s0 (Applied p)) (IpcMessageDelta dl : Msg) =
      let '(c', (action, _)) := IngestDelta (coordinator d) dl in
      (c', match action with ResyncActionApply => apply (foldl (apply_frame apply) s0 (Applied p)) (delta_ops dl)
           | _ => foldl (apply_frame apply) s0 (Applied p) end)) by done.
    destruct (IngestDelta (coordinator d) dl) as [c [[] from]].
    + apply Hcase; try done; [by split; [|exists a]|]. rewrite Hone. simpl. by rewrite foldl_snoc.
    + assert (Hw' : Forall (from_rcv bound) (sent (Send w (IpcMessageResyncRequest from)).1)) by (by apply Send_all).
      assert (Hout : outcomes w = [] → outcomes (Send w (IpcMessageResyncRequest from)).1 = [])
        by (intros Ho; unfold Send; by rewrite Ho).
      destruct (Send w (IpcMessageResyncRequest from)) as [w' []]; apply Hcase; try done; by split; [|exists a].
    + apply Hcase; try done. by split; [|exists a].
  - apply Hcase; try done.
    + split; [by simpl; case_decide|]. exists (Z.max a t). simpl. case_decide; by apply AckThrough_rep.
    + unfold ingest_one. simpl. by case_decide.
    + simpl. by case_decide.
Qed.

Lemma scan_after_empty {F} c : scan_after c (∅ : gmap Z F) = [].
Proof.
  destruct (scan_after c ∅) as [|[e f] l] eqn:E; [done|].
  assert (Hin : (e, f) ∈ scan_after c (∅ : gmap Z F)) by (rewrite E; left).
  apply elem_of_scan_after in Hin as [_ Hin]. by rewrite lookup_empty in Hin.
Qed.

Lemma Tick_rcv Snapshot now log outs fs d s0 :
  rcv_inv d → Forall (from_snd log) fs →
  let '(d', w', r) := Tick Snapshot now (RecvFrame <$> fs) d (mkWire outs []) in
  rcv_inv d' ∧ (coordinator d', foldl (apply_frame apply) s0 (applied_frames r)) = ingest_all apply (coordinator d, s0) fs ∧
  Forall (from_rcv (lastEpoch (coordinator d'))) (sent w') ∧
  (outs = [] → ackOwed d = true → IpcMessageOutboxAck (lastEpoch (coordinator d')) ∈ sent w').
Proof.
  intros [Hpe [a Hrep]] Hall. unfold Tick.
  assert (Hph1 : ∃ d1, replay_phase now d (mkWire outs []) = (d1, mkWire outs [], 0%nat) ∧ rcv_inv d1 ∧ pending d1 = [] ∧
    coordinator d1 = coordinator d ∧ ackOwed d1 = ackOwed d).
  { unfold replay_phase. destruct (replayPending d); [|exists d; split_and!; try done; by split; [|exists a]].
    simpl. destruct (ReplayFrom_rep _ _ _ (peerAckedThrough d) Hrep) as [Hrep' Hscan].
    destruct (ReplayFrom (outbox d) (peerAckedThrough d)) as [ob entries]. simpl in *.
    rewrite scan_after_empty in Hscan. subst entries. simpl. eexists. split; [done|]. split_and!; try done.
    split; [done|]. by exists a. }
  destruct Hph1 as (d1 & -> & Hd1 & Hpe1 & Hc1 & Ho1). rewrite Hpe1. cbn [drain_loop].
  assert (Hrl : ∀ bound, let '(d', w', p', ok) := receive_loop Snapshot now (RecvFrame <$> fs) d1 (mkWire outs []) (mkProgress 0 [] false 0 0 0) in
    ok = true ∧ rcv_inv d' ∧ Forall (from_rcv bound) (sent w') ∧
    (coordinator d', foldl (apply_frame apply) s0 (Applied p')) = ingest_all apply (coordinator d1, s0) fs ∧
    (ackOwed d1 = true → ackOwed d' = true) ∧ (outs = [] → outcomes w' = [])).
  { intros bound. apply (rcv_receive_spec Snapshot now log bound fs d1 (mkWire outs []) (mkProgress 0 [] false 0 0 0) s0); [done|done|constructor]. }
  destruct (receive_loop _ _ _ _ _ _) as [[[d2 w2] p2] ok].
  destruct (Hrl 0) as (-> & Hd2 & _ & Hing & Hown & Hout).
  assert (Hsent : ∀ bound, Forall (from_rcv bound) (sent w2)) by (intros bound; apply Hrl). clear Hrl.
  cbn [negb]. rewrite Hc1 in Hing. rewrite Ho1 in Hown.
  set (L := lastEpoch (coordinator d2)).
  assert (Hph4 : ∃ d3 w3, ack_phase d2 w2 = (d3, w3) ∧
    rcv_inv d3 ∧ coordinator d3 = coordinator d2 ∧ Forall (from_rcv L) (sent w3) ∧
    (outs = [] → ackOwed d = true → IpcMessageOutboxAck L ∈ sent w3)).
  { unfold ack_phase. destruct (ackOwed d2) eqn:Eo.
    - assert (Hw3 : Forall (from_rcv L) (sent (Send w2 (Ack (coordinator d2))).1)) by (apply Send_all; [done|simpl; lia]).
      assert (Hin : outs = [] → IpcMessageOutboxAck L ∈ sent (Send w2 (Ack (coordinator d2))).1).
      { intros Ho. unfold Send. rewrite (Hout Ho). simpl. apply elem_of_app. right. left. }
      destruct (Send w2 (Ack (coordinator d2))) as [w3 []]; simpl in *; (do 2 eexists; split; [done|]); split_and!; try done; intros; by apply Hin.
    - exists d2, w2. split_and!; try done. intros _ Ho. by specialize (Hown Ho). }
  destruct Hph4 as (d3 & w3 & -> & [Hpe3 [a3 Hrep3]] & Hc3 & Hs3 & Hin3).
  destruct (RetainedEpochs_rep _ _ _ Hrep3) as [Hrep4 _].
  destruct (RetainedEpochs (outbox d3)) as [ob ret]. simpl in *. rewrite Hc3. split_and!; try done.
  split; [done|]. by exists a3.
Qed.

(** ** The sender's tick *)

Lemma frames_valid log e m : log_ok log → (e, m) ∈ frames 0 log → from_snd log m.
Proof.
  intros Hlog Hin.
  assert (Hgen : ∀ l2 l1, log = l1 ++ l2 → (e, m) ∈ frames (ep l1) l2 → from_snd log m).
  { induction l2 as [|[e' ops] l2 IH]; intros l1 Hl Hf; [by apply not_elem_of_nil in Hf|].
    simpl in Hf. apply elem_of_cons in Hf as [[= -> ->]|Hf].
    - exists (length l1), (S (length l1)). rewrite Hl, length_app, take_app_length. simpl.
      assert (take (S (length l1)) (l1 ++ (e', ops) :: l2) = l1 ++ [(e', ops)]) as ->.
      { change (l1 ++ (e', ops) :: l2) with (l1 ++ [(e', ops)] ++ l2). rewrite app_assoc.
        apply take_app_length'. rewrite length_app. simpl. lia. }
      split_and!; [lia|lia|done|by rewrite ep_snoc|]. unfold ReliableSync.st. by rewrite foldl_snoc.
    - apply (IH (l1 ++ [(e', ops)])); [by rewrite Hl, <-app_assoc|]. by rewrite ep_snoc. }
  by apply (Hgen log []).
Qed.

Lemma ep_provider log from : from_snd log (provider log from).
Proof. exists (length log). rewrite firstn_all. split_and!; [lia|done|done]. Qed.

Lemma scan_frames_in l1 l2 log c e m : log = l1 ++ l2 →
  (e, m) ∈ scan_after c (list_to_map (frames 0 l1) : gmap Z Msg) → (e, m) ∈ frames 0 log.
Proof.
  intros -> [_ Hin]%elem_of_scan_after. apply elem_of_list_to_map_2 in Hin. rewrite frames_app.
  apply elem_of_app. by left.
Qed.

Lemma replay_phase_spec log bound d outs now :
  log_ok log → snd_inv log bound d →
  let '(d', w', _) := replay_phase now d (mkWire outs []) in
  snd_inv log bound d' ∧ coordinator d' = coordinator d ∧ pending d' = pending d ∧ Forall (from_snd log) (sent w') ∧
  peerAckedThrough d' = peerAckedThrough d.
Proof.
  intros Hlog Hd. unfold replay_phase. destruct (replayPending d); [|split_and!; try done; constructor].
  destruct Hd as (l1 & l2 & Hl & Hpe & Hrep & Hrest). simpl.
  destruct (ReplayFrom_rep _ _ _ (peerAckedThrough d) Hrep) as [Hrep' Hscan].
  destruct (ReplayFrom (outbox d) (peerAckedThrough d)) as [ob entries]. simpl in Hrep', Hscan.
  pose proof (replay_loop_spec (from_snd log) now entries (with_outbox ob (with_replay false d)) (mkWire outs []) 0) as Hr.
  destruct (replay_loop _ _ _ _ _) as [[d' w'] n]. destruct Hr as (Ho & Hc & Hp & Ha & Hs).
  { constructor. }
  { intros e m Hin. rewrite Hscan in Hin. apply (frames_valid log e m Hlog). by eapply scan_frames_in. }
  simpl in *. split_and!; try done. exists l1, l2. by rewrite Hp, Ho, Ha.
Qed.

(** Any tick of the sender keeps its frames, and sends only the truth; a tick
    whose source does not fail says how much is still retained. *)
Lemma Tick_snd log bound now outs inbox d :
  log_ok log → snd_inv log bound d → (∀ m, RecvFrame m ∈ inbox → from_rcv bound m) →
  let '(d', w', r) := Tick (provider log) now inbox d (mkWire outs []) in
  snd_inv log bound d' ∧ coordinator d' = coordinator d ∧ Forall (from_snd log) (sent w') ∧
  (pending d = [] → pending d' = []) ∧
  (RecvError ∉ inbox → ∃ p, r = inl p ∧ PeerAckedThrough p = peerAckedThrough d' ∧
     (∀ t, RecvFrame (IpcMessageOutboxAck t) ∈ inbox → t ≤ peerAckedThrough d') ∧
     ∃ l1 l2, log = l1 ++ l2 ∧ pending d' = frames (ep l1) l2 ∧
       Retained p = length (scan_after (peerAckedThrough d') (list_to_map (frames 0 l1) : gmap Z Msg))).
Proof.
  intros Hlog Hd Hin. unfold Tick.
  pose proof (replay_phase_spec log bound d outs now Hlog Hd) as H1.
  destruct (replay_phase now d (mkWire outs [])) as [[d1 w1] n1]. destruct H1 as (Hd1 & Hc1 & Hp1 & Hs1 & _).
  pose proof (drain_loop_spec (from_snd log) now log bound d1 w1 n1 (pending d1) Hlog Hd1 eq_refl Hs1
    (λ e m, frames_valid log e m Hlog)) as H2.
  assert (Hnil : pending d1 = [] → drain_loop now (pending d1) d1 w1 n1 = (d1, w1, n1)) by (by intros ->).
  destruct (drain_loop now (pending d1) d1 w1 n1) as [[d2 w2] n2]. destruct H2 as (Hd2 & Hc2 & Hs2 & _).
  pose proof (snd_receive_spec (from_snd log) (provider log) now log bound inbox d2 w2 (mkProgress n2 [] false 0 0 0)
    Hd2 Hs2 (ep_provider log) Hin) as H3.
  destruct (receive_loop (provider log) now inbox d2 w2 (mkProgress n2 [] false 0 0 0)) as [[[d3 w3] p3] ok].
  destruct H3 as (Hd3 & Hc3 & Hp3 & Hs3 & _ & Hok & Hacks).
  assert (Hpn : pending d = [] → pending d3 = []).
  { intros Hn. rewrite Hp3. rewrite Hn in Hp1. specialize (Hnil Hp1). injection Hnil as -> _ _. done. }
  destruct ok; cbn [negb]; [|split_and!; try done; [congruence|intros Hne; by specialize (Hok Hne)]].
  assert (Hph : ∃ d4 w4, ack_phase d3 w3 = (d4, w4) ∧ snd_inv log bound d4 ∧ coordinator d4 = coordinator d3 ∧
    pending d4 = pending d3 ∧ peerAckedThrough d4 = peerAckedThrough d3 ∧ Forall (from_snd log) (sent w4)).
  { unfold ack_phase. destruct (ackOwed d3); [|by exists d3, w3].
    assert (Hw : Forall (from_snd log) (sent (Send w3 (Ack (coordinator d3))).1)) by (by apply Send_all).
    destruct (Send w3 (Ack (coordinator d3))) as [w4 []]; (do 2 eexists; split; [done|]); by split_and!. }
  destruct Hph as (d4 & w4 & -> & (l1 & l2 & Hl & Hpe & Hrep & Hrest) & Hc4 & Hp4 & Ha4 & Hs4).
  destruct (RetainedEpochs_rep _ _ _ Hrep) as [Hrep' Hret].
  destruct (RetainedEpochs (outbox d4)) as [ob ret]. simpl in Hrep', Hret.
  split_and!; [by exists l1, l2|simpl; congruence|done|simpl; rewrite Hp4; done|].
  intros Hne. eexists. split; [done|]. simpl. split_and!; [done| |].
  - intros t Ht. rewrite Ha4. by apply Hacks.
  - exists l1, l2. split_and!; [done|done|]. by rewrite Hret, length_fmap.
Qed.

(** The frames still unacknowledged are a suffix of the history. *)
Lemma frames_suffix base log a :
  StronglySorted Z.lt (base :: log.*1) → base ≤ a →
  ∃ i, (i ≤ length log)%nat ∧ default base (last (take i log).*1) ≤ a ∧
    filter (λ em : Z * Msg, a < em.1) (frames base log) = frames (default base (last (take i log).*1)) (drop i log).
Proof.
  revert base. induction log as [|[e ops] log IH]; intros base Hs Hle.
  { exists 0%nat. by split_and!. }
  csimpl in *. apply StronglySorted_inv in Hs as [Hs Hall]. destruct (decide (e ≤ a)) as [Hea|Hea].
  - destruct (IH e Hs Hea) as (i & Hi & Hb & Hf). exists (S i). cbn [length]. split; [lia|].
    cbn [frames]. rewrite filter_cons_False by (simpl; lia). csimpl. rewrite last_cons.
    destruct (last (take i log).*1); simpl in *; done.
  - exists 0%nat. split_and!; [lia|done|]. cbn [take drop last fmap list_fmap default].
    assert (Hkeep : ∀ l : list (Z * Msg), Forall (λ em, a < em.1) l → filter (λ em : Z * Msg, a < em.1) l = l).
    { intros l. induction 1 as [|x l Hx Hl IHl]; [done|]. rewrite filter_cons_True by done. by rewrite IHl. }
    apply Hkeep. apply Forall_forall. intros [x m] Hx%(list_elem_of_fmap_2 fst). simpl in Hx |- *.
    change (x ∈ (frames base ((e, ops) :: log)).*1) in Hx. rewrite frames_fst in Hx. csimpl in Hx.
    apply StronglySorted_inv in Hs as [_ Hs]. apply elem_of_cons in Hx as [->|Hx]; [lia|].
    rewrite Forall_forall in Hs. specialize (Hs x Hx). lia.
Qed.

Lemma sorted_nodup {A} (f : A → Z) l : StronglySorted (λ x y, f x < f y) l → NoDup l.
Proof.
  induction 1 as [|x l Hs IH Hx]; constructor; [|done]. intros Hin.
  rewrite Forall_forall in Hx. specialize (Hx x Hin). simpl in Hx. lia.
Qed.

Lemma scan_frames l1 a :
  StronglySorted Z.lt (0 :: l1.*1) →
  scan_after a (list_to_map (frames 0 l1) : gmap Z Msg) = filter (λ em : Z * Msg, a < em.1) (frames 0 l1).
Proof.
  intros Hs. destruct (frames_lookup_fresh 0 _ Hs) as [Hnd _].
  assert (Hsort : ∀ l : list (Z * Msg), StronglySorted Z.lt l.*1 → StronglySorted (λ x y, x.1 < y.1) l).
  { induction l as [|x l IH]; csimpl; intros Hl; [constructor|]. apply StronglySorted_inv in Hl as [Hl Hx].
    constructor; [by apply IH|]. by rewrite Forall_fmap in Hx. }
  assert (Hf : StronglySorted Z.lt (filter (λ em : Z * Msg, a < em.1) (frames 0 l1)).*1).
  { apply StronglySorted_inv in Hs as [Hs _]. rewrite <-(frames_fst 0) in Hs. revert Hs. clear.
    generalize (frames 0 l1). intros l. induction l as [|x l IH]; csimpl; [done|]. intros [Hs Hx]%StronglySorted_inv.
    rewrite filter_cons. case_decide; [|by apply IH]. csimpl. constructor; [by apply IH|].
    rewrite Forall_fmap in Hx |- *. rewrite Forall_forall in Hx |- *. intros y [_ Hy]%list_elem_of_filter. by apply Hx. }
  apply (StronglySorted_unique_strong (λ x y : Z * Msg, x.1 < y.1)).
  - intros x y _ _ ??. lia.
  - apply Hsort, scan_after_sorted.
  - by apply Hsort.
  - apply NoDup_Permutation.
    + by apply (sorted_nodup fst), Hsort, scan_after_sorted.
    + apply NoDup_filter. by eapply NoDup_fmap_1.
    + intros [e m]. rewrite elem_of_scan_after, list_elem_of_filter. simpl.
      by rewrite elem_of_list_to_map.
Qed.

(** ** Every step keeps the invariant *)

Lemma ep_app l1 l2 : ep (l1 ++ l2) = default (ep l1) (last l2.*1).
Proof. unfold ReliableSync.ep. rewrite fmap_app, last_app. by destruct (last l2.*1). Qed.

Lemma log_ok_snoc log e (ops : Ops) : log_ok log → ep log < e → is_i64 e → log_ok (log ++ [(e, ops)]).
Proof.
  unfold log_ok, ReliableSync.ep. intros [Hs Hf] He Hi. rewrite fmap_app. csimpl. split; [|by apply Forall_app; split; [done|constructor; [done|constructor]]].
  clear Hf Hi. revert Hs He. generalize 0. generalize (log.*1). clear log. intros l.
  induction l as [|x l IH]; intros b Hs He; simpl in *.
  - repeat constructor. lia.
  - apply StronglySorted_inv in Hs as [Hs Hx]. rewrite last_cons in He.
    assert (Hs' : StronglySorted Z.lt (x :: l ++ [e])) by (apply IH; [done|]; destruct (last l); simpl in *; lia).
    constructor; [done|]. apply StronglySorted_inv in Hs' as [_ Hall]. apply Forall_cons in Hx as [Hbx _].
    constructor; [done|]. eapply Forall_impl; [done|]. simpl. lia.
Qed.

Lemma take_extend {A} k (l l' : list A) : (k ≤ length l)%nat → take k (l ++ l') = take k l.
Proof. intros. by rewrite take_app_le. Qed.

Lemma in_sync_extend log l' c s : in_sync apply init log c s → in_sync apply init (log ++ l') c s.
Proof.
  intros (k & Hk & He & Hs). exists k. rewrite length_app, take_extend by done. split_and!; [lia|done|done].
Qed.

Lemma from_snd_extend log l' m : from_snd log m → from_snd (log ++ l') m.
Proof.
  destruct m as [e s|d|x|f|t]; simpl; try done.
  - intros (k & Hk & He & Hs). exists k. rewrite length_app, take_extend by done. split_and!; [lia|done|done].
  - intros (j & k & Hjk & Hr). exists j, k. rewrite length_app, !take_extend by lia. split; [lia|done].
Qed.

Lemma from_snd_valid log m : from_snd log m → valid apply init log m.
Proof. by destruct m. Qed.

Lemma snd_inv_mono log b b' d : b ≤ b' → snd_inv log b d → snd_inv log b' d.
Proof. intros Hb (l1 & l2 & H1 & H2 & H3 & H4 & H5 & H6). exists l1, l2. split_and!; try done. lia. Qed.

Lemma from_rcv_mono b b' (l : list Msg) : b ≤ b' → Forall (from_rcv b) l → Forall (from_rcv b') l.
Proof. intros Hb Hl. eapply Forall_impl; [done|]. intros [] Hm; simpl in *; try done. lia. Qed.

Lemma ingest_fresh log cs fs :
  log_ok log → Forall (from_snd log) fs → fresh cs.1 fs → lastEpoch cs.1 ≤ lastEpoch (ingest_all apply cs fs).1.
Proof.
  intros Hlog Hall. revert cs. induction Hall as [|m fs Hm Hall IH]; intros [c s] Hf; [simpl; lia|].
  destruct Hf as [Hm' Hf]. unfold ingest_all in *. cbn [foldl].
  assert (Hc : (ingest_one apply (c, s) m).1 = (Ingest c m).1) by (unfold ingest_one; cbn [fst]; by destruct (Ingest c m) as [? [? ?]]).
  specialize (IH (ingest_one apply (c, s) m)). rewrite Hc in IH. specialize (IH Hf).
  etrans; [|exact IH]. destruct m as [e s'|d|x|f|t]; try done; simpl.
  pose proof (ingest_delta_mono (Crdt := Crdt) apply init log (c, s) d Hlog Hm) as Hmono. rewrite Hc in Hmono. exact Hmono.
Qed.

Lemma sys_step_inv s s' : sys_inv s → sys_step s s' → sys_inv s'.
Proof.
  intros [Hlog Hsnd Hrcv Hsync HtoR HtoS] Hstep. destruct Hstep as [s e ops He Hi Henc|s|s|s now outs inbox Hin|s now outs fs Hin Hfr].
  - split; simpl; try done.
    + by apply log_ok_snoc.
    + destruct Hsnd as (l1 & l2 & Hl & Hpe & Hrep & Hen & Hb & H0). exists l1, (l2 ++ [(e, ops)]). split_and!; try done.
      * by rewrite Hl, <-app_assoc.
      * simpl. rewrite Hpe, frames_app, <-ep_app, <-Hl. done.
      * intros e' m'. rewrite frames_app, elem_of_app. intros [Hm|Hm]; [by eapply Hen|].
        simpl in Hm. apply list_elem_of_singleton in Hm as [= -> ->]. done.
    + by apply in_sync_extend.
    + eapply Forall_impl; [done|]. intros m. apply from_snd_extend.
  - by split.
  - split; simpl; done.
  - unfold snd_tick.
    pose proof (Tick_snd (hist s) _ now outs inbox (snd_driver s) Hlog Hsnd
      (λ m Hm, proj1 (Forall_forall _ _) HtoS m (Hin m Hm))) as Ht.
    destruct (Tick _ now inbox (snd_driver s) _) as [[d w] r]. destruct Ht as (Hd & _ & Hs & _).
    split; simpl; try done. by apply Forall_app.
  - unfold rcv_tick.
    assert (Hfs : Forall (from_snd (hist s)) fs).
    { apply Forall_forall. intros m Hm. rewrite Forall_forall in HtoR. by apply HtoR, Hin. }
    pose proof (Tick_rcv (provider (hist s)) now (hist s) outs fs (rcv_driver s) (view s) Hrcv Hfs) as Ht.
    pose proof (ingest_fresh (hist s) (coordinator (rcv_driver s), view s) fs Hlog Hfs Hfr) as Hmono.
    pose proof (ingest_all_sync apply init (hist s) (coordinator (rcv_driver s), view s) fs Hlog Hsync) as Hsync'.
    destruct (Tick _ now (RecvFrame <$> fs) (rcv_driver s) _) as [[d w] r]. destruct Ht as (Hd & Hing & Hs & _).
    rewrite <-Hing in Hmono, Hsync'. simpl in Hmono, Hsync'. split; simpl; try done.
    + by eapply snd_inv_mono.
    + apply Hsync'. eapply Forall_impl; [done|]. apply from_snd_valid.
    + apply Forall_app. split; [by eapply from_rcv_mono|done].
Qed.

Lemma init_sys_inv : sys_inv init_sys.
Proof.
  split; simpl.
  - split; repeat constructor.
  - exists [], []. split_and!; try done.
    intros e m Hin. by apply not_elem_of_nil in Hin.
  - split; [done|]. by exists 0.
  - exists 0%nat. split_and!; [lia|done|done].
  - constructor.
  - constructor.
Qed.

Lemma reachable_inv s : rtc sys_step init_sys s → sys_inv s.
Proof.
  intros Hr. apply (rtc_ind_r (R := sys_step) sys_inv init_sys); [apply init_sys_inv| |done].
  intros x y _ Hxy Hx. by eapply sys_step_inv.
Qed.

(** ** Convergence *)

(** The tail of a history, in order, brings any receiver at or past its start to
    the end. *)
Lemma ingest_tail log i k cs :
  log_ok log → (i ≤ k ≤ length log)%nat → lastEpoch cs.1 = ep (take k log) → cs.2 = st (take k log) →
  let cs' := ingest_all apply cs (frames (ep (take i log)) (drop i log)).*2 in
  lastEpoch cs'.1 = ep log ∧ cs'.2 = st log.
Proof.
  intros Hlog. remember (length log - i)%nat as n eqn:Hn. revert i k cs Hn.
  induction n as [|n IH]; intros i k cs Hn Hik He Hs.
  - rewrite drop_ge by lia. simpl. rewrite take_ge in He, Hs by lia. done.
  - destruct (lookup_lt_is_Some_2 log i ltac:(lia)) as [[e ops] Hi].
    rewrite (drop_S _ _ _ Hi). unfold ingest_all in *. cbn [frames fmap list_fmap foldl snd].
    pose proof (take_S_r _ _ _ Hi) as HtS.
    assert (Hepi : ep (take (S i) log) = e) by (by rewrite HtS, ep_snoc).
    assert (Hval : valid apply init log (IpcMessageDelta (mkDelta (ep (take i log)) e ops) : Msg)).
    { exists i, (S i). split_and!; [lia|lia|done|done|]. rewrite HtS. unfold ReliableSync.st. by rewrite foldl_snoc. }
    pose proof (valid_delta apply init log _ Hlog Hval) as [Hlt Hstep]. simpl in Hlt, Hstep.
    set (m := IpcMessageDelta (mkDelta (ep (take i log)) e ops)).
    specialize (IH (S i)). rewrite Hepi in IH. destruct cs as [c s]. simpl in He, Hs.
    destruct (decide (k = i)) as [->|Hki].
    + apply (IH (S i)); [lia|lia| |]; unfold ingest_one; simpl; unfold IngestDelta; simpl;
        rewrite He, decide_True, decide_True by done; simpl; [done|].
      rewrite HtS. unfold ReliableSync.st. rewrite foldl_snoc, Hs. done.
    + pose proof (ep_le log (S i) k Hlog ltac:(lia)) as Hle. rewrite Hepi in Hle.
      assert (Hig : ingest_one apply (c, s) m = (c, s)).
      { unfold ingest_one. simpl. unfold IngestDelta. simpl. by rewrite decide_False, decide_True by lia. }
      rewrite Hig. apply (IH k); [lia|lia|done|done].
Qed.

(** The sender's first undisturbed tick sends a tail of the history that starts
    at or before the peer's acknowledgement, in order, and nothing stays staged. *)
Lemma Tick_snd_clean log bound now d :
  log_ok log → snd_inv log bound d →
  let '(d', w', _) := Tick (provider log) now [] (OnReconnect d) (mkWire [] []) in
  pending d' = [] ∧ ∃ i acks, (i ≤ length log)%nat ∧ ep (take i log) ≤ bound ∧
    sent w' = (frames (ep (take i log)) (drop i log)).*2 ++ (IpcMessageOutboxAck <$> acks).
Proof.
  intros Hlog Hd. unfold Tick.
  pose proof Hd as (l1 & l2 & Hl & Hpe & Hrep & Henc & Hb & H0). unfold replay_phase. cbn [OnReconnect replayPending].
  destruct (ReplayFrom_rep _ _ _ (peerAckedThrough d) Hrep) as [Hrep' Hscan]. rewrite Z.max_id in Hscan. simpl.
  destruct (ReplayFrom (outbox d) (peerAckedThrough d)) as [ob entries]. simpl in Hrep', Hscan.
  rewrite replay_loop_clean. cbn [app Nat.add]. set (d1 := with_outbox ob _).
  assert (Hd1 : snd_inv log bound d1) by (by exists l1, l2).
  assert (Hs1 : Forall (λ _ : Msg, True) entries.*2) by (by apply Forall_true).
  pose proof (drain_loop_spec (λ _, True) now log bound d1 (mkWire [] entries.*2) (length entries) (pending d1)
    Hlog Hd1 eq_refl Hs1 (λ _ _ _, I)) as H2.
  destruct (drain_loop _ _ _ _ _) as [[d2 w2] n2]. destruct H2 as (Hd2 & _ & _ & Hclean & _).
  destruct (Hclean eq_refl eq_refl) as (Hp2 & Hout2 & Hsent2). clear Hclean. cbn [receive_loop negb].
  assert (Hlog1 : log_ok l1) by (apply (log_ok_app _ l2); by rewrite <-Hl).
  destruct (frames_suffix 0 l1 (peerAckedThrough d) (proj1 Hlog1) H0) as (i & Hi & Hei & Hf).
  assert (Hw2 : sent w2 = (frames (ep (take i log)) (drop i log)).*2).
  { rewrite Hsent2. cbn [sent]. rewrite Hscan, (scan_frames l1 _ (proj1 Hlog1)), Hf.
    change (pending d1) with (pending d).
    by rewrite Hpe, Hl, take_app_le, drop_app_le, frames_app, <-ep_app, take_drop, fmap_app by done. }
  assert (Hend : ∃ d3 acks, ack_phase d2 w2 = (d3, mkWire [] (sent w2 ++ (IpcMessageOutboxAck <$> acks))) ∧ pending d3 = []).
  { unfold ack_phase, Send. rewrite Hout2. destruct (ackOwed d2).
    - by exists (with_owed false d2), [lastEpoch (coordinator d2)].
    - exists d2, []. rewrite app_nil_r. destruct w2; simpl in *. by rewrite Hout2. }
  destruct Hend as (d3 & acks & -> & Hp3). destruct (RetainedEpochs (outbox d3)) as [ob3 ret]. split; [done|].
  exists i, acks. simpl. rewrite Hw2. rewrite Hl, length_app, take_app_le by done. split_and!; [lia| |done].
  change (default 0 (last (take i l1).*1)) with (ep (take i l1)) in Hei. lia.
Qed.

(** C10: a reconnect heals any divergence.  Take two drivers in any state reached
    by enqueues, reconnects and ticks over a network that loses, repeats and
    reorders frames and fails sends at will (short of handing the receiver a
    snapshot older than its state).  The receiver's projection is exactly a state
    of the sender's history; and after a reconnect of both ends and one
    undisturbed exchange it is the sender's current state, the acknowledgement
    has reached the sender, and nothing is staged or retained any more. *)
Theorem SyncDriver_reconnect_converges (s : sys) now :
  rtc sys_step init_sys s →
  in_sync apply init (hist s) (coordinator (rcv_driver s)) (view s) ∧
  let s' := quiet_exchange now s in
  lastEpoch (coordinator (rcv_driver s')) = ep (hist s) ∧ view s' = st (hist s) ∧
  pending (snd_driver s') = [] ∧ peerAckedThrough (snd_driver s') = ep (hist s) ∧
  (RetainedEpochs (outbox (snd_driver s'))).2 = [].
Proof.
  intros Hr. destruct (reachable_inv s Hr) as [Hlog Hsnd Hrcv Hsync _ _]. split; [done|].
  unfold quiet_exchange, snd_tick, rcv_tick. simpl. set (log := hist s) in *.
  pose proof (Tick_snd_clean log _ now (snd_driver s) Hlog Hsnd) as H1.
  assert (Hsnd' : snd_inv log (lastEpoch (coordinator (rcv_driver s))) (OnReconnect (snd_driver s))).
  { destruct Hsnd as (l1 & l2 & Hx). by exists l1, l2. }
  pose proof (Tick_snd log _ now [] [] (OnReconnect (snd_driver s)) Hlog Hsnd'
    (λ m Hm, False_ind _ (proj1 (elem_of_nil _) Hm))) as H1'.
  destruct (Tick (provider log) now [] (OnReconnect (snd_driver s)) (mkWire [] [])) as [[d1 w1] r1].
  destruct H1 as (Hp1 & i & acks & Hi & Hei & Hw1), H1' as (Hd1 & _ & Hs1 & _). simpl.
  pose proof (Tick_rcv (provider log) now log [] (sent w1) (OnReconnect (rcv_driver s)) (view s) Hrcv Hs1) as H2.
  destruct (Tick (provider log) now (RecvFrame <$> sent w1) (OnReconnect (rcv_driver s)) (mkWire [] [])) as [[d2 w2] r2].
  destruct H2 as (Hd2 & Hing & Hs2 & Hack). specialize (Hack eq_refl eq_refl). simpl in *.
  destruct Hsync as (k & Hk & Hek & Hsk).
  assert (Hik : (i ≤ k)%nat).
  { destruct (decide (i ≤ k)%nat) as [|Hn]; [done|]. pose proof (ep_lt log k i Hlog ltac:(lia)). lia. }
  assert (Hacks : ∀ cs, ingest_all apply cs (IpcMessageOutboxAck <$> acks : list Msg) = cs).
  { clear. induction acks as [|a acks IH]; intros [c v]; [done|]. apply IH. }
  pose proof (ingest_tail log i k (coordinator (rcv_driver s), view s) Hlog ltac:(lia) Hek Hsk) as [He2 Hv2].
  rewrite Hw1 in Hing. unfold ingest_all in Hing, Hacks, He2, Hv2. rewrite foldl_app, Hacks in Hing.
  rewrite <-Hing in He2, Hv2. simpl in He2, Hv2.
  assert (Hle : ep log = ep (take (length log) log)) by (by rewrite firstn_all).
  assert (Hb : lastEpoch (coordinator (rcv_driver s)) ≤ ep log).
  { rewrite Hek, Hle. apply ep_le; [done|lia]. }
  rewrite He2 in Hs2, Hack.
  pose proof (Tick_snd log (ep log) now [] (RecvFrame <$> sent w2) d1 Hlog (snd_inv_mono _ _ _ _ Hb Hd1)) as H3.
  destruct (Tick (provider log) now (RecvFrame <$> sent w2) d1 (mkWire [] [])) as [[d3 w3] r3].
  destruct H3 as (Hd3 & _ & _ & Hp3 & Hfin).
  { intros m (m' & [= ->] & Hm)%list_elem_of_fmap. rewrite Forall_forall in Hs2. by apply Hs2. }
  destruct Hfin as (p & _ & _ & Hall & _); [by intros (? & ? & _)%list_elem_of_fmap|].
  assert (Hge : ep log ≤ peerAckedThrough d3) by (apply Hall, list_elem_of_fmap; eauto).
  specialize (Hp3 Hp1). destruct Hd3 as (l1 & l2 & Hl & Hpe & Hrep & _ & Hle3 & _). simpl.
  assert (Ha : peerAckedThrough d3 = ep log) by lia. split_and!; [done|done|done|done|].
  destruct (RetainedEpochs_rep _ _ _ Hrep) as [_ ->]. rewrite Ha.
  destruct (scan_after (ep log) (list_to_map (frames 0 l1))) as [|[e m] rest] eqn:Esc; [done|exfalso].
  assert (Hin : (e, m) ∈ scan_after (ep log) (list_to_map (frames 0 l1) : gmap Z Msg)) by (rewrite Esc; left).
  pose proof (proj1 (proj1 (elem_of_scan_after _ _ _ _) Hin)) as Hlt.
  apply (scan_frames_in l1 l2 log) in Hin; [|done].
  apply (list_elem_of_fmap_2 fst) in Hin. rewrite frames_fst in Hin. simpl in Hin.
  apply list_elem_of_lookup in Hin as [j Hj].
  assert (Hjl : (S j ≤ length log)%nat) by (apply lookup_lt_Some in Hj; rewrite length_fmap in Hj; lia).
  pose proof (ep_take log (S j) Hjl) as Hej. simpl in Hej. rewrite Hj in Hej. injection Hej as Hej.
  pose proof (ep_le log (S j) (length log) Hlog ltac:(lia)). lia.
Qed.
End network.

(** ** Concrete runs *)

(** Operations append a number to a list; frames are stored as they are. *)
Abbreviation demo_msg := (IpcMessage Z (list Z) unit).
#[local] Program Instance plain_codec : FrameCodec demo_msg demo_msg := {|
  MarshalJSON m := Some m; DecodeIpcMessageJSON f := Some f |}.
Next Obligation. by intros m f [= ->]. Qed.

Definition demo_apply (s : list Z) (x : Z) : list Z := s ++ [x].
Definition demo_outbox : DurableStoreOutbox (InMemoryStore demo_msg) := NewDurableStoreOutbox NewInMemoryStore.

Lemma demo_outbox_rep : outbox_rep demo_outbox (∅ : gmap Z demo_msg) 0.
Proof. exists ∅, 0. split_and!; [by split|intros e; by rewrite !lookup_empty|done|done]. Qed.

Abbreviation demo_sys := (sys (Ops := Z) (State := list Z) (Crdt := unit) (Ob := DurableStoreOutbox (InMemoryStore demo_msg))).
Definition demo_delta (base e x : Z) : demo_msg := IpcMessageDelta (mkDelta base e x).
Definition enqueue (e x : Z) (s : demo_sys) : demo_sys :=
  mkSys (Enqueue (snd_driver s) e (demo_delta (ep (hist s)) e x)) (rcv_driver s) (view s) (hist s ++ [(e, x)]) (toRcv s) (toSnd s).
Abbreviation demo_init := (init_sys (Ops := Z) (Crdt := unit) [] demo_outbox : demo_sys).

(** Two changes; the first send fails, the second is lost on the way. *)
Definition demo_state : demo_sys :=
  snd_tick demo_apply [] 2 [] [] (enqueue 3 30 (snd_tick demo_apply [] 1 [false] [] (enqueue 1 10 demo_init))).

Lemma demo_reachable : rtc (sys_step demo_apply []) demo_init demo_state.
Proof.
  eapply rtc_l; [apply (step_enqueue demo_apply [] demo_init 1 10); [by vm_compute..|done]|].
  eapply rtc_l; [apply (step_snd_tick demo_apply [] _ 1 [false] []); by intros m Hm%elem_of_nil|].
  eapply rtc_l; [apply (step_enqueue demo_apply [] _ 3 30); [by vm_compute..|done]|].
  eapply rtc_l; [apply (step_snd_tick demo_apply [] _ 2 [] []); by intros m Hm%elem_of_nil|].
  apply rtc_refl.
Qed.

Lemma SyncDriver_reconnect_converges_witness :
  view demo_state = [] ∧ view (quiet_exchange demo_apply [] 3 demo_state) = [10; 30] ∧
  (RetainedEpochs (outbox (snd_driver (quiet_exchange demo_apply [] 3 demo_state)))).2 = [].
Proof.
  destruct (SyncDriver_reconnect_converges demo_apply [] demo_outbox demo_outbox_rep demo_state 3 demo_reachable)
    as (_ & _ & Hv & _ & _ & Hret).
  split_and!; [by vm_compute|rewrite Hv; by vm_compute|exact Hret].
Defined.

Lemma ResyncCoordinator_effect_exactly_once_witness :
  let frames := [demo_delta 1 3 30; demo_delta 0 1 10; demo_delta 0 1 10; IpcMessageSnapshot 1 [10]; demo_delta 1 3 30; demo_delta 0 1 10] in
  (ingest_all demo_apply (NewResyncCoordinator, []) frames).2 = [10; 30] ∧
  in_sync demo_apply [] [(1, 10); (3, 30)] (ingest_all demo_apply (NewResyncCoordinator, []) frames).1
    (ingest_all demo_apply (NewResyncCoordinator, []) frames).2.
Proof.
  split; [by vm_compute|].
  apply (ResyncCoordinator_effect_exactly_once demo_apply [] [(1, 10); (3, 30)]).
  - split; [|repeat (apply Forall_cons_2 || apply Forall_nil_2); by vm_compute].
    repeat constructor; lia.
  - assert (H01 : valid demo_apply [] [(1, 10); (3, 30)] (demo_delta 0 1 10)) by (exists 0%nat, 1%nat; split_and!; simpl; try lia; done).
    assert (H12 : valid demo_apply [] [(1, 10); (3, 30)] (demo_delta 1 3 30)) by (exists 1%nat, 2%nat; split_and!; simpl; try lia; done).
    assert (HS : valid demo_apply [] [(1, 10); (3, 30)] (IpcMessageSnapshot 1 [10] : demo_msg)) by (exists 1%nat; split_and!; simpl; try lia; done).
    repeat (apply Forall_cons_2; [assumption|]). apply Forall_nil_2.
Defined.

(** ** What the code does not do *)

(** A source failure throws away the frames applied earlier in the same tick:
    the receiver's epoch has moved, the host folds nothing, and the re-delivered
    frame is ignored. *)
Lemma source_failure_loses_applied :
  let s := snd_tick demo_apply [] 1 [] [] (enqueue 1 10 demo_init) in
  let s := rcv_tick demo_apply [] 2 [] [RecvFrame (demo_delta 0 1 10); RecvError] s in
  let s := quiet_exchange demo_apply [] 3 s in
  lastEpoch (coordinator (rcv_driver s)) = 1 ∧ view s = [] ∧ hist s = [(1, 10)].
Proof. vm_compute. by split_and!. Qed.

(** A late snapshot takes the receiver back below its own acknowledgement, and
    nothing clears [resyncing] when the resync request is then lost: no reconnect
    helps, the receiver ignores everything. *)
Lemma stale_snapshot_wedges :
  let s := snd_tick demo_apply [] 1 [] [] (enqueue 2 20 (enqueue 1 10 demo_init)) in
  let s := rcv_tick demo_apply [] 2 [] [RecvFrame (demo_delta 1 2 20)] s in
  let s := snd_tick demo_apply [] 3 [] [RecvFrame (IpcMessageResyncRequest 0)] s in
  let s := rcv_tick demo_apply [] 4 [] [RecvFrame (demo_delta 0 1 10); RecvFrame (demo_delta 1 2 20)] s in
  let s := snd_tick demo_apply [] 5 [] [] (enqueue 3 30 s) in
  let s := rcv_tick demo_apply [] 6 [] [RecvFrame (demo_delta 2 3 30)] s in
  let s := snd_tick demo_apply [] 7 [] [RecvFrame (IpcMessageOutboxAck 3)] s in
  let s := rcv_tick demo_apply [] 8 [] [RecvFrame (IpcMessageSnapshot 2 [10; 20])] s in
  let s := snd_tick demo_apply [] 9 [] [] (enqueue 4 40 s) in
  let s := rcv_tick demo_apply [] 10 [] [RecvFrame (demo_delta 3 4 40)] s in
  let s := quiet_exchange demo_apply [] 11 s in
  let s := quiet_exchange demo_apply [] 12 s in
  view s = [10; 20] ∧ coordinator (rcv_driver s) = mkCoordinator 2 true ∧ st demo_apply [] (hist s) = [10; 20; 30; 40].
Proof. vm_compute. by split_and!. Qed.
