(* ===== verification/ChartDef.v ===== *)
(** * ChartDef: state chart definitions (state_chart.go)

    The parsed form of a chart, its validation from a decoded JSON document, and
    the tree walks every step of the machine uses.  A document is the value
    [encoding/json] decodes, with object members in document order; a later
    member of one name overrides an earlier one. *)

From S2P Require Import Prelude.

(** ** Stable sorting *)

(** [sort.SliceStable] (and [sort.Strings], whose order is total): an element
    goes before the first one it does not have to follow. *)
Section stable_sort.
Context {A : Type} (lt : A → A → bool).

Fixpoint insert_stable (x : A) (l : list A) : list A :=
  match l with
  | [] => [x]
  | y :: l => if lt y x then y :: insert_stable x l else x :: y :: l
  end.
Definition sort_stable (l : list A) : list A := foldr insert_stable [] l.

Lemma insert_stable_perm x l : insert_stable x l ≡ₚ x :: l.
Proof.
  induction l as [|y l IH]; simpl; [done|]. destruct (lt y x); [|done]. rewrite IH. apply Permutation_swap.
Qed.

Lemma sort_stable_perm l : sort_stable l ≡ₚ l.
Proof. induction l as [|x l IH]; simpl; [done|]. by rewrite insert_stable_perm, IH. Qed.

Lemma elem_of_sort_stable x l : x ∈ sort_stable l ↔ x ∈ l.
Proof. by rewrite sort_stable_perm. Qed.
End stable_sort.

(** Go's [<] on strings: bytewise lexicographic. *)
Definition string_ltb (a b : string) : bool := match String.compare a b with Lt => true | _ => false end.
(** [sort.Strings]. *)
Definition sort_strings (l : list string) : list string := sort_stable string_ltb l.

(** ** Parsed charts *)

(** [state_chart.go] [type kindTag] *)
Inductive kindTag := kindAtomic | kindCompound | kindParallel | kindFinal | kindHistoryShallow | kindHistoryDeep.
#[export] Instance kindTag_eq_dec : EqDecision kindTag.
Proof. solve_decision. Defined.

(** [state_chart.go] [isLeaf] *)
Definition isLeaf (k : kindTag) : bool := bool_decide (k = kindAtomic ∨ k = kindFinal).
(** [state_chart.go] [isHistory] *)
Definition isHistory (k : kindTag) : bool := bool_decide (k = kindHistoryShallow ∨ k = kindHistoryDeep).

(** [state_chart.go] [type transition] *)
Record transition := mkTransition {
  target : string; guard : option string; action : list string; internal : bool }.

(** Absent parents, initials and defaults are the empty string.
    [state_chart.go] [type stateDef] *)
Record stateDef := mkStateDef {
  sd_kind : kindTag; sd_parent : string; sd_initial : string; sd_default : string;
  sd_transitions : gmap string transition; sd_entry : list string; sd_exit : list string }.

(** [state_chart.go] [type ChartDef] *)
Record ChartDef := mkChartDef {
  states : gmap string stateDef;
  children : gmap string (list string);
  doc_order : gmap string nat;
  depths : gmap string nat;
  root : string;
}.

(** ** Parsing *)

Inductive json :=
| JNull
| JBool (b : bool)
| JNum (n : Z)
| JStr (s : string)
| JArr (l : list json)
| JObj (members : list (string * json)).

Inductive chart_error :=
| ErrInitialRequired | ErrStatesRequired
| ErrNotAnObject (id : string) | ErrNotAString (id field : string)
| ErrRun (id : string) | ErrKindNotString (id : string) | ErrUnknownKind (id kind : string)
| ErrParallelNotBool (id : string) | ErrHistoryKind (id : string) | ErrKindContradicts (id kind : string)
| ErrAction | ErrTarget | ErrExprGuard | ErrGuard | ErrInternal | ErrTransition
| ErrInitialUndeclared (s : string) | ErrUndeclared (id field s : string) | ErrTargetUndeclared (id event s : string)
| ErrManyRoots | ErrNoRoot.

Definition result (A : Type) : Type := A + chart_error.
#[export] Instance result_bind : MBind result := λ A B f r, match r with inl a => f a | inr e => inr e end.
Definition ok {A} (a : A) : result A := inl a.
Definition fail {A} (e : chart_error) : result A := inr e.

(** All results of a list, or its first error. *)
Fixpoint collect {A B} (f : A → result B) (l : list A) : result (list B) :=
  match l with
  | [] => ok []
  | x :: l => y ← f x; ys ← collect f l; ok (y :: ys)
  end.

(** A decoded object as a map: a later member overrides an earlier one. *)
Definition object_map (members : list (string * json)) : gmap string json :=
  foldl (λ m nv, <[nv.1 := nv.2]> m) ∅ members.
(** A member; an absent one reads as [null]. *)
Definition member (members : list (string * json)) (name : string) : json :=
  default JNull (object_map members !! name).

(** [state_chart.go] [asStr] *)
Definition asStr (v : json) : string := match v with JStr s => s | _ => "" end.

(** [state_chart.go] [actionList] *)
Definition actionList (raw : json) : result (list string) :=
  match raw with
  | JNull => ok []
  | JArr l => collect (λ e, match e with JStr s => ok s | _ => fail ErrAction end) l
  | _ => fail ErrAction
  end.

(** [state_chart.go] [parseTransition] *)
Definition parseTransition (raw : json) : result transition :=
  match raw with
  | JStr s => ok (mkTransition s None [] false)
  | JObj m =>
      match member m "target" with
      | JStr target =>
          guard ← match member m "guard" with
                  | JNull => ok None
                  | JStr g => ok (Some g)
                  | JObj _ => fail ErrExprGuard
                  | _ => fail ErrGuard
                  end;
          action ← actionList (member m "action");
          internal ← match member m "internal" with
                     | JNull => ok false
                     | JBool b => ok b
                     | _ => fail ErrInternal
                     end;
          ok (mkTransition target guard action internal)
      | _ => fail ErrTarget
      end
  | _ => fail ErrTransition
  end.

(** [state_chart.go] [lines 245-255 parseState] *)
Definition optionalString (id : string) (obj : list (string * json)) (field : string) : result string :=
  match member obj field with
  | JNull => ok ""
  | JStr text => ok text
  | _ => fail (ErrNotAString id field)
  end.

(** [state_chart.go] [lines 300-313 parseState] *)
Definition checkDeclaredKind (id : string) (declared : json) : result unit :=
  match declared with
  | JNull => ok tt
  | JStr s =>
      if decide (s ∈ ["atomic"; "compound"; "parallel"; "history"; "final"]) then ok tt
      else fail (ErrUnknownKind id s)
  | _ => fail (ErrKindNotString id)
  end.

(** [state_chart.go] [lines 321-343 parseState] *)
Definition inferKind (id : string) (obj : list (string * json)) (initial : string) : result kindTag :=
  match member obj "history" with
  | JNull =>
      ok match member obj "parallel" with
         | JBool true => kindParallel
         | _ => if decide (initial ≠ "") then kindCompound else kindAtomic
         end
  | JStr h =>
      if decide (h = "shallow") then ok kindHistoryShallow
      else if decide (h = "deep") then ok kindHistoryDeep
      else fail (ErrHistoryKind id)
  | _ => fail (ErrHistoryKind id)
  end.

(** [state_chart.go] [lines 346-349 parseState] *)
Definition inferredName (k : kindTag) : string :=
  match k with
  | kindAtomic => "atomic" | kindCompound => "compound" | kindParallel => "parallel"
  | kindHistoryShallow | kindHistoryDeep => "history"
  | kindFinal => ""
  end.

(** [state_chart.go] [lines 344-363 parseState] *)
Definition resolveKind (id declared : string) (inferred : kindTag) : result kindTag :=
  if decide (declared = "") then ok inferred
  else if decide (declared = "final") then
    if decide (inferred = kindAtomic) then ok kindFinal else fail (ErrKindContradicts id declared)
  else if decide (declared = inferredName inferred) then ok inferred
  else fail (ErrKindContradicts id declared).

(** [state_chart.go] [parseState] *)
Definition parseState (id : string) (raw : json) : result stateDef :=
  match raw with
  | JObj obj =>
      parent ← optionalString id obj "parent";
      initial ← optionalString id obj "initial";
      defaultChild ← optionalString id obj "default";
      _ ← match member obj "run" with JNull => ok tt | _ => fail (ErrRun id) end;
      _ ← checkDeclaredKind id (member obj "kind");
      _ ← match member obj "parallel" with
          | JNull | JBool _ => ok tt
          | _ => fail (ErrParallelNotBool id)
          end;
      inferred ← inferKind id obj initial;
      kind ← resolveKind id (asStr (member obj "kind")) inferred;
      entry ← actionList (member obj "entry");
      exit ← actionList (member obj "exit");
      transitions ← match member obj "on" with
        | JObj on => collect (λ er : string * json, t ← parseTransition er.2; ok (er.1, t)) (map_to_list (object_map on))
        | _ => ok []
        end;
      ok (mkStateDef kind parent initial defaultChild (list_to_map transitions) entry exit)
  | _ => fail (ErrNotAnObject id)
  end.

(** ** Building a chart *)

(** [state_chart.go] [orderOf] *)
Definition orderOf (order : gmap string nat) (id : string) : Z := default (2 ^ 30)%Z (Z.of_nat <$> order !! id).

(** The recursion descends the parent relation, so a tree needs no more levels
    than it has states.  [state_chart.go] [computeDepth] *)
Fixpoint computeDepth (fuel : nat) (sds : gmap string stateDef) (id : string) (current : nat)
    (out : gmap string nat) : gmap string nat :=
  match fuel with
  | 0 => out
  | S fuel =>
      foldl (λ out c, computeDepth fuel sds c (current + 1) out) (<[id := current]> out)
        (omap (λ cs : string * stateDef, if decide (sd_parent cs.2 = id) then Some cs.1 else None) (map_to_list sds))
  end.

(** [state_chart.go] [lines 155-171 ChartDefFromJSON] *)
Definition checkReferences (sds : gmap string stateDef) (isd : string * stateDef) : result unit :=
  let '(id, sd) := isd in
  let declared field t := if decide (t ≠ "" ∧ sds !! t = None) then fail (ErrUndeclared id field t) else ok tt in
  _ ← declared "parent" (sd_parent sd);
  _ ← declared "initial" (sd_initial sd);
  _ ← declared "default" (sd_default sd);
  _ ← collect (λ et : string * transition,
        if decide (sds !! target et.2 = None) then fail (ErrTargetUndeclared id et.1 (target et.2)) else ok tt)
      (map_to_list (sd_transitions sd));
  ok tt.

(** Children lists and the root, over the keys in document order. *)
(** [state_chart.go] [lines 173-187 ChartDefFromJSON] *)
Fixpoint scanKeys (sds : gmap string stateDef) (keys : list string)
    (kids : gmap string (list string)) (rt : option string) : result (gmap string (list string) * option string) :=
  match keys with
  | [] => ok (kids, rt)
  | key :: keys =>
      let p := default "" (sd_parent <$> sds !! key) in
      if decide (p ≠ "") then scanKeys sds keys (<[p := default [] (kids !! p) ++ [key]]> kids) rt
      else match rt with
           | Some _ => fail ErrManyRoots
           | None => scanKeys sds keys kids (Some key)
           end
  end.

(** The document's [initial] and [states] members, [None] when absent.
    [state_chart.go] [ChartDefFromJSON] [orderedObjectKeys] *)
Definition ChartDefFromJSON (initial_raw states_raw : option json) : result ChartDef :=
  initial ← match initial_raw with
            | Some (JStr s) => ok s
            | Some JNull => ok ""
            | _ => fail ErrInitialRequired
            end;
  members ← match states_raw with Some (JObj m) => ok m | _ => fail ErrStatesRequired end;
  let keys := members.*1 in
  let docOrder := foldl (λ m ik, <[ik.2 := ik.1]> m) (∅ : gmap string nat) (imap pair keys) in
  parsed ← collect (λ key, sd ← parseState key (member members key); ok (key, sd)) keys;
  let sds : gmap string stateDef := foldl (λ m ks, <[ks.1 := ks.2]> m) ∅ parsed in
  _ ← (if decide (sds !! initial = None) then fail (ErrInitialUndeclared initial) else ok tt);
  _ ← collect (checkReferences sds) (map_to_list sds);
  kr ← scanKeys sds keys ∅ None;
  match kr.2 with
  | None => fail ErrNoRoot
  | Some rt =>
      let kids := sort_stable (λ a b, orderOf docOrder a <? orderOf docOrder b)%Z <$> kr.1 in
      ok (mkChartDef sds kids docOrder (computeDepth (S (size sds)) sds rt 0 ∅) rt)
  end.

(** ** Walks *)

Section walks.
Context (d : ChartDef).

(** Every id a parsed chart names is declared, so [kind] never panics on one. *)
(** [state_chart.go] [ChartDef.kind] *)
Definition kind (id : string) : kindTag := default kindAtomic (sd_kind <$> states d !! id).

(** [state_chart.go] [ChartDef.parentOf] *)
Definition parentOf (id : string) : string := default "" (sd_parent <$> states d !! id).
(** [state_chart.go] [ChartDef.depth] *)
Definition depth (id : string) : nat := default 0 (depths d !! id).
Definition childrenOf (id : string) : list string := default [] (children d !! id).

(** A chain has no more links than the chart has states, unless it loops. *)
(** [state_chart.go] [ChartDef.ancestorsInclusive] *)
Fixpoint ancestors_fuel (fuel : nat) (id : string) : list string :=
  match fuel with
  | 0 => []
  | S fuel => id :: (if decide (parentOf id = "") then [] else ancestors_fuel fuel (parentOf id))
  end.
Definition ancestorsInclusive (id : string) : list string := ancestors_fuel (S (size (states d))) id.

(** [state_chart.go] [ChartDef.lca] *)
Definition lca (a b : string) : string :=
  default (root d) (head (filter (λ c, c ∈ ancestorsInclusive a) (ancestorsInclusive b))).

(** [state_chart.go] [ChartDef.isProperDescendant] *)
Definition isProperDescendant (desc anc : string) : bool :=
  if decide (desc = anc) then false else bool_decide (anc ∈ ancestorsInclusive desc).
End walks.

(** ** What an accepted chart satisfies *)

Record refs_ok (d : ChartDef) : Prop := {
  ro_parent id sd : states d !! id = Some sd → sd_parent sd ≠ "" → is_Some (states d !! sd_parent sd);
  ro_initial id sd : states d !! id = Some sd → sd_initial sd ≠ "" → is_Some (states d !! sd_initial sd);
  ro_default id sd : states d !! id = Some sd → sd_default sd ≠ "" → is_Some (states d !! sd_default sd);
  ro_target id sd e t : states d !! id = Some sd → sd_transitions sd !! e = Some t → is_Some (states d !! target t);
  ro_root id sd : states d !! id = Some sd → sd_parent sd = "" ↔ id = root d;
  ro_root_known : is_Some (states d !! root d);
  ro_children p c : c ∈ childrenOf d p ↔ p ≠ "" ∧ ∃ sd, states d !! c = Some sd ∧ sd_parent sd = p;
  ro_compound id sd : states d !! id = Some sd → sd_kind sd = kindCompound → sd_initial sd ≠ "";
}.

Lemma bind_ok {A B} (r : result A) (f : A → result B) b : r ≫= f = ok b → ∃ a, r = ok a ∧ f a = ok b.
Proof. destruct r as [a|e]; [|done]. intros Hf. by exists a. Qed.

Lemma collect_ok {A B} (f : A → result B) l ys : collect f l = ok ys → Forall2 (λ x y, f x = ok y) l ys.
Proof.
  revert ys. induction l as [|x l IH]; intros ys Hc; simpl in Hc; [injection Hc as <-; constructor|].
  apply bind_ok in Hc as (y & Hy & Hc). apply bind_ok in Hc as (ys' & Hys & Hc). injection Hc as <-.
  constructor; [done|]. by apply IH.
Qed.

Lemma collect_ok_in {A B} (f : A → result B) l ys x : collect f l = ok ys → x ∈ l → ∃ y, f x = ok y.
Proof.
  intros Hc%collect_ok [i Hi]%list_elem_of_lookup. destruct (Forall2_lookup_l _ _ _ _ _ Hc Hi) as (y & _ & Hy). eauto.
Qed.

Lemma checkReferences_ok sds id sd u : checkReferences sds (id, sd) = ok u →
  (sd_parent sd ≠ "" → is_Some (sds !! sd_parent sd)) ∧ (sd_initial sd ≠ "" → is_Some (sds !! sd_initial sd)) ∧
  (sd_default sd ≠ "" → is_Some (sds !! sd_default sd)) ∧
  ∀ e t, sd_transitions sd !! e = Some t → is_Some (sds !! target t).
Proof.
  unfold checkReferences. intros H.
  assert (Hd : ∀ field t (k : unit → result unit) u,
    (_ ← (if decide (t ≠ "" ∧ sds !! t = None) then fail (ErrUndeclared id field t) else ok tt); k tt) = ok u →
    (t ≠ "" → is_Some (sds !! t)) ∧ k tt = ok u).
  { intros field t k u' Hk. case_decide as Hc; [done|]. split; [|exact Hk]. intros Ht.
    apply not_eq_None_Some. intros Hn. by apply Hc. }
  destruct (Hd _ _ (λ _, _) _ H) as [H1 Ha]. destruct (Hd _ _ (λ _, _) _ Ha) as [H2 Hb].
  destruct (Hd _ _ (λ _, _) _ Hb) as [H3 Hc']. clear H Ha Hb.
  split_and!; [done..|]. destruct (bind_ok _ _ _ Hc') as (ys & Hc & _). intros e t Ht.
  destruct (collect_ok_in _ _ _ (e, t) Hc) as [y Hy]; [by apply elem_of_map_to_list|].
  simpl in Hy. case_decide as Hn; [done|]. by apply not_eq_None_Some.
Qed.

(** The keys scanned so far, their children lists and their root. *)
Lemma scanKeys_ok sds keys kids rt kids' rt' :
  scanKeys sds keys kids rt = ok (kids', rt') →
  (∀ p, default [] (kids' !! p) = default [] (kids !! p) ++
     filter (λ k, default "" (sd_parent <$> sds !! k) = p ∧ p ≠ "") keys) ∧
  match rt with
  | Some r => rt' = Some r ∧ ∀ k, k ∈ keys → default "" (sd_parent <$> sds !! k) ≠ ""
  | None => match rt' with
            | None => ∀ k, k ∈ keys → default "" (sd_parent <$> sds !! k) ≠ ""
            | Some r => ∃ i, keys !! i = Some r ∧ default "" (sd_parent <$> sds !! r) = "" ∧
                ∀ j k, keys !! j = Some k → default "" (sd_parent <$> sds !! k) = "" → j = i
            end
  end.
Proof.
  revert kids rt. induction keys as [|key keys IH]; intros kids rt; simpl.
  { intros [= -> ->]. split; [intros; by rewrite app_nil_r|]. destruct rt'; [split; [done|]|]; intros k Hk; by apply not_elem_of_nil in Hk. }
  set (pk := default "" (sd_parent <$> sds !! key)). destruct (decide (pk ≠ "")) as [Hp|Hp].
  - intros Hs. apply IH in Hs as [Hk Hr]. split.
    + intros p. rewrite Hk, filter_cons. fold pk. destruct (decide (pk = p)) as [->|Hne].
      * rewrite lookup_insert_eq. simpl. rewrite decide_True by done. by rewrite <-app_assoc.
      * rewrite lookup_insert_ne by done. by rewrite decide_False by (by intros []).
    + destruct rt as [r|]; [|destruct rt' as [r|]].
      * destruct Hr as [-> Hr]. split; [done|]. intros k [->|Hin]%elem_of_cons; [done|by apply Hr].
      * destruct Hr as (i & Hi & He & Hu). exists (S i). split_and!; [done|done|].
        intros [|j] k Hj Hkp; simpl in Hj; [by simplify_eq|]. f_equal. by eapply Hu.
      * intros k [->|Hin]%elem_of_cons; [done|by apply Hr].
  - apply dec_stable in Hp. destruct rt as [r|]; [done|]. intros Hs. apply IH in Hs as [Hk [-> Hr]]. split.
    + intros p. rewrite Hk, filter_cons. fold pk. rewrite decide_False; [done|]. rewrite Hp. by intros [<- ?].
    + exists 0. split_and!; [done|done|]. intros [|j] k Hj Hkp; [done|]. exfalso. simpl in Hj.
      eapply Hr; [by eapply list_elem_of_lookup_2|done].
Qed.

Lemma foldl_insert_lookup {A} (l : list (string * A)) (m : gmap string A) k :
  (foldl (λ m ks, <[ks.1 := ks.2]> m) m l) !! k =
    match last (filter (λ ks, ks.1 = k) l) with Some ks => Some ks.2 | None => m !! k end.
Proof.
  revert m. induction l as [|[k' v] l IH]; intros m; [done|]. simpl. rewrite IH, filter_cons. simpl.
  destruct (decide (k' = k)) as [->|Hne].
  - rewrite last_cons, lookup_insert_eq. by destruct (last _).
  - by rewrite lookup_insert_ne.
Qed.

(** The name a document gives a kind. *)
Definition kind_name (k : kindTag) : string := match k with kindFinal => "final" | _ => inferredName k end.

(** An accepted state says nothing the machine would have to ignore. *)
Definition declared_ok (raw : json) (sd : stateDef) : Prop :=
  ∃ obj, raw = JObj obj ∧ member obj "run" = JNull ∧
    (member obj "kind" = JNull ∨ member obj "kind" = JStr "" ∨ member obj "kind" = JStr (kind_name (sd_kind sd))) ∧
    (sd_kind sd = kindCompound → sd_initial sd ≠ "") ∧
    (∀ on e m, member obj "on" = JObj on → object_map on !! e = Some (JObj m) →
       ∀ g, member m "guard" ≠ JObj g).

Lemma inferKind_ok id obj initial k : inferKind id obj initial = ok k →
  (k = kindCompound → initial ≠ "") ∧ k ≠ kindFinal.
Proof.
  unfold inferKind. destruct (member obj "history") as [|b|n|h|l|o]; try done.
  - intros [= <-]. destruct (member obj "parallel") as [|[]|n|h|l|o]; repeat case_decide; naive_solver.
  - repeat case_decide; intros [= <-]; naive_solver.
Qed.

Lemma resolveKind_ok id declared inferred k : resolveKind id declared inferred = ok k → inferred ≠ kindFinal →
  (k = kindCompound → inferred = kindCompound) ∧ (declared = "" ∨ declared = kind_name k).
Proof.
  unfold resolveKind. repeat case_decide; intros [= <-] Hne; subst; split; try done; try naive_solver.
  right. by destruct inferred.
Qed.

Lemma parseState_ok id raw sd : parseState id raw = ok sd → declared_ok raw sd.
Proof.
  destruct raw as [| | | | |obj]; try done. unfold parseState. intros H.
  destruct (bind_ok _ _ _ H) as (parent & _ & H1). destruct (bind_ok _ _ _ H1) as (initial & Hini & H2).
  destruct (bind_ok _ _ _ H2) as (dflt & _ & H3). destruct (bind_ok _ _ _ H3) as (u1 & Hrun & H4).
  destruct (bind_ok _ _ _ H4) as (u2 & Hkind & H5). destruct (bind_ok _ _ _ H5) as (u3 & _ & H6).
  destruct (bind_ok _ _ _ H6) as (inferred & Hinf & H7). destruct (bind_ok _ _ _ H7) as (k & Hk & H8).
  destruct (bind_ok _ _ _ H8) as (en & _ & H9). destruct (bind_ok _ _ _ H9) as (ex & _ & H10).
  destruct (bind_ok _ _ _ H10) as (ts & Hts & Hsd). injection Hsd as <-. clear H H1 H2 H3 H4 H5 H6 H7 H8 H9 H10.
  apply inferKind_ok in Hinf as [Hc Hnf]. apply resolveKind_ok in Hk as [Hkc Hdecl]; [|done].
  exists obj. simpl. split_and!; [done| | |auto|].
  - by destruct (member obj "run").
  - destruct (member obj "kind") as [| | |s| |]; try done; [by left|]. simpl in Hdecl. destruct Hdecl as [->| ->]; auto.
  - intros on e m Hon He g Hg. rewrite Hon in Hts.
    destruct (collect_ok_in _ _ _ (e, JObj m) Hts) as [y Hy]; [by apply elem_of_map_to_list|].
    destruct (bind_ok _ _ _ Hy) as (t & Ht & _). simpl in Ht. unfold parseTransition in Ht.
    destruct (member m "target"); try done. by rewrite Hg in Ht.
Qed.

(** What an accepting run went through. *)
Lemma ChartDefFromJSON_inv initial_raw states_raw d :
  ChartDefFromJSON initial_raw states_raw = ok d →
  ∃ initial members kids,
    (initial_raw = Some (JStr initial) ∨ initial_raw = Some JNull ∧ initial = "") ∧ is_Some (states d !! initial) ∧
    states_raw = Some (JObj members) ∧
    (∀ id, match states d !! id with
           | Some sd => id ∈ members.*1 ∧ parseState id (member members id) = ok sd
           | None => id ∉ members.*1 end) ∧
    (∀ id sd, states d !! id = Some sd → ∃ u, checkReferences (states d) (id, sd) = ok u) ∧
    scanKeys (states d) members.*1 ∅ None = ok (kids, Some (root d)) ∧
    ∃ lt, children d = sort_stable lt <$> kids.
Proof.
  unfold ChartDefFromJSON. intros H.
  destruct (bind_ok _ _ _ H) as (initial & Hinit & H1). destruct (bind_ok _ _ _ H1) as (members & Hmem & H2).
  destruct (bind_ok _ _ _ H2) as (parsed & Hpar & H3). set (sds := foldl _ _ parsed) in H3.
  destruct (bind_ok _ _ _ H3) as (u1 & Hini & H4). destruct (bind_ok _ _ _ H4) as (u2 & Hrefs & H5).
  destruct (bind_ok _ _ _ H5) as ([kids rt] & Hscan & Hd). clear H H1 H2 H3 H4 H5. simpl in Hd.
  destruct rt as [rt|]; [|done]. injection Hd as <-. exists initial, members, kids. cbn [states root children]. split_and!.
  - destruct initial_raw as [[]|]; simplify_eq; auto.
  - case_decide as Hn; [done|]. by apply not_eq_None_Some.
  - by destruct states_raw as [[]|]; simplify_eq.
  - intros id. unfold sds. rewrite foldl_insert_lookup, lookup_empty. apply collect_ok in Hpar.
    destruct (last (filter (λ ks, ks.1 = id) parsed)) as [[id' sd]|] eqn:El.
    + apply last_Some_elem_of in El. apply list_elem_of_filter in El as [Heq Hin]. simpl in Heq. subst id'.
        apply list_elem_of_lookup in Hin as [i Hi]. destruct (Forall2_lookup_r _ _ _ _ _ Hpar Hi) as (key & Hkey & Hf).
        destruct (bind_ok _ _ _ Hf) as (sd' & Hsd & Heq). injection Heq as -> ->. split; [by eapply list_elem_of_lookup_2|done].
    + apply last_None in El. intros [i Hi]%list_elem_of_lookup.
        destruct (Forall2_lookup_l _ _ _ _ _ Hpar Hi) as (y & Hy & Hf). destruct (bind_ok _ _ _ Hf) as (sd & _ & Heq).
        injection Heq as <-. assert (Hin : (id, sd) ∈ filter (λ ks : string * stateDef, ks.1 = id) parsed).
        { apply list_elem_of_filter. split; [done|]. by eapply list_elem_of_lookup_2. }
        rewrite El in Hin. by apply not_elem_of_nil in Hin.
  - intros id sd Hsd. apply (collect_ok_in _ _ _ _ Hrefs). by apply elem_of_map_to_list.
  - done.
  - eexists. done.
Qed.

Lemma ChartDefFromJSON_refs initial_raw states_raw d : ChartDefFromJSON initial_raw states_raw = ok d → refs_ok d.
Proof.
  intros (initial & members & kids & _ & _ & _ & Hlook & Hcheck & Hscan & lt & Hchildren)%ChartDefFromJSON_inv.
  apply scanKeys_ok in Hscan as [Hkids (ri & Hri & Hrp & Hru)].
  assert (Hkeys : ∀ id sd, states d !! id = Some sd → id ∈ members.*1).
  { intros id sd Hsd. specialize (Hlook id). rewrite Hsd in Hlook. apply Hlook. }
  split.
  - intros id sd Hsd. destruct (Hcheck id sd Hsd) as [u Hu]. by apply checkReferences_ok in Hu as (? & _).
  - intros id sd Hsd. destruct (Hcheck id sd Hsd) as [u Hu]. by apply checkReferences_ok in Hu as (_ & ? & _).
  - intros id sd Hsd. destruct (Hcheck id sd Hsd) as [u Hu]. by apply checkReferences_ok in Hu as (_ & _ & ? & _).
  - intros id sd e t Hsd. destruct (Hcheck id sd Hsd) as [u Hu]. apply checkReferences_ok in Hu as (_ & _ & _ & Ht). apply Ht.
  - intros id sd Hsd. split.
    + intros Hp. pose proof (Hkeys id sd Hsd) as [j Hj]%list_elem_of_lookup.
      rewrite (Hru j id Hj) in Hj by (by rewrite Hsd). congruence.
    + intros ->. by rewrite Hsd in Hrp.
  - specialize (Hlook (root d)). destruct (states d !! root d); [eauto|]. destruct Hlook. by eapply list_elem_of_lookup_2.
  - intros p c. unfold childrenOf. rewrite Hchildren, lookup_fmap.
    assert (Hc : c ∈ default [] (sort_stable lt <$> kids !! p) ↔ c ∈ default [] (kids !! p)).
    { destruct (kids !! p); simpl; [apply elem_of_sort_stable|done]. }
    rewrite Hc, Hkids, lookup_empty. simpl. rewrite list_elem_of_filter. split.
    + intros ([Hp Hpne] & Hin). split; [done|]. specialize (Hlook c). destruct (states d !! c) as [sd|]; [|done].
      exists sd. by split.
    + intros (Hp & sd & Hsd & Hpar'). rewrite Hsd. simpl. split_and!; [done|done|]. by eapply Hkeys.
  - intros id sd Hsd Hk. specialize (Hlook id). rewrite Hsd in Hlook. destruct Hlook as [_ Hp].
    apply parseState_ok in Hp as (obj & _ & _ & _ & Hc & _). by apply Hc.
Qed.

(** C32: a chart document is accepted only if it is fully understood.  In an
    accepted chart exactly one state has no parent and it is the root; every
    parent, initial, default and transition target is declared; the children
    lists are the inverse of the parent field; every state was declared by an
    object that asks for no [run] action and no expression guard and whose kind,
    if given, is the one the machine will use; and a compound state has an
    initial.  A document with two roots, none, or an undeclared initial is
    refused. *)
Theorem ChartDefFromJSON_sound initial_raw states_raw d :
  ChartDefFromJSON initial_raw states_raw = ok d →
  refs_ok d ∧
  ∃ members, states_raw = Some (JObj members) ∧
    (∀ id, is_Some (states d !! id) ↔ id ∈ members.*1) ∧
    (∀ id sd, states d !! id = Some sd → declared_ok (member members id) sd) ∧
    ∃ initial, (initial_raw = Some (JStr initial) ∨ initial_raw = Some JNull ∧ initial = "") ∧ is_Some (states d !! initial).
Proof.
  intros H. split; [by eapply ChartDefFromJSON_refs|].
  apply ChartDefFromJSON_inv in H as (initial & members & kids & Hini & Hkn & Hst & Hlook & _).
  exists members. split_and!; [done| | |eauto].
  - intros id. specialize (Hlook id). destruct (states d !! id); split; intros Hx; [apply Hlook|eauto|by destruct Hx|done].
  - intros id sd Hsd. specialize (Hlook id). rewrite Hsd in Hlook. by eapply parseState_ok, Hlook.
Qed.

(** A two-state chart. *)
Definition switch_doc : json := JObj [
  ("power", JObj [("initial", JStr "off")]);
  ("off", JObj [("parent", JStr "power"); ("on", JObj [("flip", JStr "on")])]);
  ("on", JObj [("kind", JStr "atomic"); ("parent", JStr "power"); ("on", JObj [("flip", JObj [("target", JStr "off"); ("guard", JStr "may")])])])].
Definition switch : ChartDef :=
  match ChartDefFromJSON (Some (JStr "power")) (Some switch_doc) with inl d => d | inr _ => mkChartDef ∅ ∅ ∅ ∅ "" end.

Lemma ChartDefFromJSON_sound_witness : refs_ok switch ∧ is_Some (states switch !! "on") ∧ root switch = "power" ∧
  ChartDefFromJSON (Some (JStr "power")) (Some (JObj [("power", JObj [("initial", JStr "off")])])) = fail (ErrUndeclared "power" "initial" "off") ∧
  ChartDefFromJSON (Some (JStr "a")) (Some (JObj [("a", JObj []); ("b", JObj [])])) = fail ErrManyRoots.
Proof.
  destruct (ChartDefFromJSON_sound (Some (JStr "power")) (Some switch_doc) switch) as (Hr & members & Hm & Hk & _); [by vm_compute|].
  injection Hm as <-. split_and!; [exact Hr|apply Hk; right; right; left|by vm_compute..].
Defined.
