(* ===== verification/StateChart.v ===== *)
(** * StateChart: flat and hierarchical state machines (state_machine.go, state_chart.go)

    The flat machine over a cell, and the Harel chart: entering, exiting, history
    and one run-to-completion step.  The active configuration is a set of state
    ids, mirrored in a cell that holds its canonical key. *)

From S2P Require Import Prelude ChartDef.

(** ** The flat machine *)

Section state_machine.
Context {S E : Type} `{EqDecision S}.

(** [state_machine.go] [type StateMachine] [type Transition] *)
Record StateMachine := mkStateMachine { cell : Cell S; machine_transition : S → E → option S }.

(** [state_machine.go] [NewStateMachine] *)
Definition NewStateMachine (initial : S) (tr : S → E → option S) : StateMachine := mkStateMachine (NewCell initial) tr.
(** [state_machine.go] [StateMachine.State] *)
Definition State (m : StateMachine) : S := cell_value (cell m).
(** [state_machine.go] [StateMachine.Send] *)
Definition machine_Send (m : StateMachine) (event : E) : StateMachine * bool :=
  match machine_transition m (cell_value (cell m)) event with
  | Some next => (mkStateMachine (Cell_Set (cell m) next) (machine_transition m), true)
  | None => (m, false)
  end.
End state_machine.

(** ** The chart *)

(** [state_chart.go] [const configKeySep] *)
Definition configKeySep : string := String (Ascii.ascii_of_nat 31) EmptyString.

(** [state_chart.go] [type shallowRecording] [type deepRecording] [type recording] *)
Inductive recording := shallowRecording (child : string) | deepRecording (rset : list string).

(** [state_chart.go] [keysOf] *)
Definition keysOf (set : gset string) : list string := elements set.

(** [state_chart.go] [newConfiguration] [type Configuration] *)
Definition newConfiguration (set : gset string) : list string := sort_strings (elements set).

(** [state_chart.go] [configKey] *)
Definition configKey (set : gset string) : string := String.concat configKeySep (sort_strings (elements set)).

(** [state_chart.go] [type StateChart] *)
Record StateChart := mkStateChart {
  history : gmap string recording;
  lastActions : list string;
  config : Cell string;
  configStates : gset string;
}.

(** [state_chart.go] [type candidate] *)
Record candidate := mkCandidate { cand_source : string; cand_trans : transition; cand_leaf : string }.

Section chart.
Context (d : ChartDef).
Implicit Types (sc : StateChart) (conf : gset string) (guards : gmap string bool).

Definition entryOf (s : string) : list string := default [] (sd_entry <$> states d !! s).
Definition exitOf (s : string) : list string := default [] (sd_exit <$> states d !! s).
Definition initialOf (s : string) : string := default "" (sd_initial <$> states d !! s).
Definition defaultOf (s : string) : string := default "" (sd_default <$> states d !! s).

(** A descent goes one level down per call, so a tree needs no more calls deep
    than it has states.  [state_chart.go] [StateChart.enterSubtree] *)
Fixpoint enter_fuel (fuel : nat) (state : string) (ea : gset string * list string) : gset string * list string :=
  match fuel with
  | 0 => ea
  | S fuel =>
      let ea := ({[state]} ∪ ea.1, ea.2 ++ entryOf state) in
      match kind d state with
      | kindCompound => if decide (initialOf state ≠ "") then enter_fuel fuel (initialOf state) ea else ea
      | kindParallel => foldl (λ ea region, enter_fuel fuel region ea) ea (childrenOf d state)
      | _ => ea
      end
  end.
Definition enterSubtree (state : string) (ea : gset string * list string) : gset string * list string :=
  enter_fuel (S (size (states d))) state ea.

(** [state_chart.go] [indexOfString] *)
Fixpoint indexOfString (xs : list string) (t : string) : option nat :=
  match xs with
  | [] => None
  | x :: xs => if decide (x = t) then Some 0 else S <$> indexOfString xs t
  end.

(** [state_chart.go] [StateChart.pathBelow] *)
Definition pathBelow (l target : string) : list string :=
  let chain := ancestorsInclusive d target in
  let idx := default (length chain) (indexOfString chain l) in
  reverse (take idx chain).

(** [state_chart.go] [StateChart.restoreViaHistory] *)
Definition restoreViaHistory (hist : gmap string recording) (h region : string) (enter : gset string) : gset string :=
  match hist !! h with
  | Some (shallowRecording child) => (enterSubtree child ({[child]} ∪ enter, [])).1
  | Some (deepRecording rset) => list_to_set rset ∪ enter
  | None =>
      let start := if decide (defaultOf h ≠ "") then defaultOf h else initialOf region in
      if decide (start ≠ "") then
        (enterSubtree start (list_to_set (pathBelow region start) ∪ enter, [])).1
      else enter
  end.

(** [state_chart.go] [lines 811-817 StateChart.computeExitEnter] *)
Definition scope (source : string) (t : transition) (leaf : string) : string :=
  let inner := internal t && (bool_decide (target t = source) || isProperDescendant d (target t) source) in
  if inner then source else lca d leaf (target t).

(** [state_chart.go] [StateChart.computeExitEnter] *)
Definition computeExitEnter (hist : gmap string recording) (source : string) (t : transition) (leaf : string) conf :
    gset string * gset string :=
  let l := scope source t leaf in
  let exit := filter (λ s, isProperDescendant d s l = true) conf in
  let enter :=
    if isHistory (kind d (target t)) then
      let region := if decide (parentOf d (target t) = "") then root d else parentOf d (target t) in
      restoreViaHistory hist (target t) region (list_to_set (pathBelow l region))
    else (enterSubtree (target t) (list_to_set (pathBelow l (target t)), [])).1 in
  (exit, enter).

(** [state_chart.go] [StateChart.historyChildOf] *)
Definition historyChildOf (region : string) : string :=
  default "" (head (filter (λ c, isHistory (kind d c) = true) (childrenOf d region))).

(** [state_chart.go] [StateChart.recordRegion] *)
Definition recordRegion (hist : gmap string recording) (region h : string) conf : gmap string recording :=
  match kind d h with
  | kindHistoryShallow =>
      match head (filter (λ c, c ∈ conf ∧ isHistory (kind d c) = false) (childrenOf d region)) with
      | Some child => <[h := shallowRecording child]> hist
      | None => hist
      end
  | kindHistoryDeep =>
      <[h := deepRecording (sort_strings (elements (filter (λ s, isProperDescendant d s region = true) conf)))]> hist
  | _ => hist
  end.

(** [state_chart.go] [StateChart.sortedLeaves] *)
Definition sortedLeaves conf : list string :=
  sort_strings (filter (λ s, isLeaf (kind d s) = true) (elements conf)).

(** [state_chart.go] [guardPasses] *)
Definition guardPasses (t : transition) guards : bool :=
  match guard t with None => true | Some g => default false (guards !! g) end.

(** [state_chart.go] [StateChart.exitLess] *)
Definition exitLess (a b : string) : bool :=
  if decide (depth d a ≠ depth d b) then depth d b <? depth d a
  else if decide (orderOf (doc_order d) a ≠ orderOf (doc_order d) b)
       then (orderOf (doc_order d) a <? orderOf (doc_order d) b)%Z
       else string_ltb a b.
(** [state_chart.go] [StateChart.enterLess] *)
Definition enterLess (a b : string) : bool :=
  if decide (depth d a ≠ depth d b) then depth d a <? depth d b
  else if decide (orderOf (doc_order d) a ≠ orderOf (doc_order d) b)
       then (orderOf (doc_order d) a <? orderOf (doc_order d) b)%Z
       else string_ltb a b.

(** The innermost enabled transition of a leaf's chain. *)
(** [state_chart.go] [lines 676-687 StateChart.Send] *)
Definition enabledFor (event : string) guards (leaf : string) : option candidate :=
  head (omap (λ anc,
    t ← states d !! anc ≫= λ sd, sd_transitions sd !! event;
    if guardPasses t guards then Some (mkCandidate anc t leaf) else None) (ancestorsInclusive d leaf)).

(** [state_chart.go] [lines 695-701 StateChart.Send] *)
Definition candidateLess (a b : candidate) : bool :=
  if decide (depth d (cand_source a) ≠ depth d (cand_source b))
  then depth d (cand_source b) <? depth d (cand_source a)
  else (orderOf (doc_order d) (cand_source a) <? orderOf (doc_order d) (cand_source b))%Z.

(** One candidate of the greedy pass: it is taken unless it would exit a state
    that a taken one exits. *)
(** [state_chart.go] [lines 706-725 StateChart.Send] *)
Definition take_candidate (hist : gmap string recording) conf
    (st : gset string * gset string * list candidate) (c : candidate) : gset string * gset string * list candidate :=
  let '(exitUnion, enterUnion, taken) := st in
  let '(exitSet, enterSet) := computeExitEnter hist (cand_source c) (cand_trans c) (cand_leaf c) conf in
  if decide (exitSet ∩ exitUnion = ∅) then (exitUnion ∪ exitSet, enterUnion ∪ enterSet, taken ++ [c]) else st.

(** [state_chart.go] [lines 673-725 StateChart.Send] *)
Definition resolve sc (event : string) guards : gset string * gset string * list candidate :=
  let candidates := omap (enabledFor event guards) (sortedLeaves (configStates sc)) in
  foldl (take_candidate (history sc) (configStates sc)) (∅, ∅, []) (sort_stable candidateLess candidates).

(** [state_chart.go] [NewStateChart] *)
Definition NewStateChart : StateChart :=
  let '(enter, actions) := enterSubtree (root d) (∅, []) in
  mkStateChart ∅ actions (NewCell (configKey enter)) enter.

(** [state_chart.go] [StateChart.Send] *)
Definition Send sc (event : string) guards : StateChart * bool :=
  let conf := configStates sc in
  let '(exitUnion, enterUnion, taken) := resolve sc event guards in
  match taken with
  | [] => (mkStateChart (history sc) [] (config sc) conf, false)
  | _ =>
      let hist := foldl (λ hist s, if decide (historyChildOf s ≠ "") then recordRegion hist s (historyChildOf s) conf else hist)
        (history sc) (elements exitUnion) in
      let exitSorted := sort_stable exitLess (keysOf exitUnion) in
      let enterSorted := sort_stable enterLess (keysOf enterUnion) in
      let actions := (exitSorted ≫= exitOf) ++ (taken ≫= λ c, action (cand_trans c)) ++ (enterSorted ≫= entryOf) in
      let newSet := (conf ∖ exitUnion) ∪ enterUnion in
      let newKey := configKey newSet in
      if decide (newKey = cell_value (config sc))
      then (mkStateChart hist actions (config sc) conf, true)
      else (mkStateChart hist actions (Cell_Set (config sc) newKey) newSet, true)
  end.

(** [state_chart.go] [StateChart.ActiveLeaves] *)
Definition ActiveLeaves sc : list string :=
  sort_strings (filter (λ s, isLeaf (kind d s) = true) (newConfiguration (configStates sc))).
(** [state_chart.go] [StateChart.Matches] [Configuration.Contains] *)
Definition Matches sc (id : string) : bool := bool_decide (id ∈ newConfiguration (configStates sc)).
End chart.
