(* ===== verification/ChartLegal.v ===== *)
(** * ChartLegal: a state chart keeps a legal configuration

    The tree behind a chart, what it means for a set of states to be a legal
    configuration, and the proof that entering, exiting and history keep it. *)

From S2P Require Import Prelude ChartDef StateChart.

(** What the machine needs of a chart beyond what the parser checks: a statechart
    tree, in which a history state is not a region of a parallel state
    ([history_region_is_activated] says what happens to one). *)
Record tree_ok (d : ChartDef) : Prop := {
  to_empty : states d !! "" = None;
  to_root : isHistory (kind d (root d)) = false ∧ depth d (root d) = 0;
  to_parent id sd : states d !! id = Some sd → id ≠ root d →
    (kind d (sd_parent sd) = kindCompound ∨ kind d (sd_parent sd) = kindParallel ∧ isHistory (sd_kind sd) = false) ∧
    depth d id = S (depth d (sd_parent sd));
  to_initial id sd : states d !! id = Some sd → sd_kind sd = kindCompound →
    parentOf d (sd_initial sd) = id ∧ isHistory (kind d (sd_initial sd)) = false;
  to_default id sd : states d !! id = Some sd → sd_default sd ≠ "" →
    parentOf d (sd_default sd) = sd_parent sd ∧ isHistory (kind d (sd_default sd)) = false;
}.

(** A legal configuration of the subtree at [r]: closed under parents, one active
    child below a compound, every child below a parallel, no pseudo-state. *)
Record legal (d : ChartDef) (r : string) (C : gset string) : Prop := {
  lg_root : r ∈ C;
  lg_known s : s ∈ C → is_Some (states d !! s) ∧ isHistory (kind d s) = false;
  lg_up s : s ∈ C → s = r ∨ s ≠ root d ∧ parentOf d s ∈ C;
  lg_below s : s ∈ C → r ∈ ancestorsInclusive d s;
  lg_compound s : s ∈ C → kind d s = kindCompound →
    ∃ c, c ∈ C ∧ parentOf d c = s ∧ ∀ c', c' ∈ C → parentOf d c' = s → c' = c;
  lg_parallel s c : s ∈ C → kind d s = kindParallel → is_Some (states d !! c) → parentOf d c = s → c ∈ C;
}.

Section tree.
Context (d : ChartDef) (Hrefs : refs_ok d) (Htree : tree_ok d).
Implicit Types (s a b c l x : string) (C S T : gset string).
Abbreviation known x := (is_Some (states d !! x)).
Abbreviation parent x := (parentOf d x).
Abbreviation below a x := (a ∈ ancestorsInclusive d x).

Lemma known_root : known (root d).
Proof. apply Hrefs. Qed.

Lemma known_ne x : known x → x ≠ "".
Proof. intros [sd Hx] ->. by rewrite (to_empty d Htree) in Hx. Qed.

Lemma parent_empty x : known x → parent x = "" ↔ x = root d.
Proof. intros [sd Hx]. unfold parentOf. rewrite Hx. simpl. by eapply ro_root. Qed.

Lemma known_parent x : known x → x ≠ root d → known (parent x).
Proof.
  intros Hk Hne. pose proof (proj1 (parent_empty x Hk)) as Hp. destruct Hk as [sd Hx]. unfold parentOf in *. rewrite Hx in *. simpl in *.
  eapply ro_parent; [done..|]. intros He. auto.
Qed.

Lemma depth_parent x : known x → x ≠ root d → depth d x = Datatypes.S (depth d (parent x)).
Proof. intros [sd Hx] Hne. unfold parentOf. rewrite Hx. by eapply to_parent. Qed.

Lemma parent_kind x : known x → x ≠ root d →
  kind d (parent x) = kindCompound ∨ kind d (parent x) = kindParallel ∧ isHistory (kind d x) = false.
Proof.
  intros [sd Hx] Hne. unfold parentOf, kind at 3. rewrite Hx. simpl. by eapply to_parent.
Qed.

(** Each state has as many distinct states above it as its depth. *)
Lemma depth_bound x : known x → depth d x < size (states d).
Proof.
  intros Hx.
  assert (Hl : ∃ l : list string, NoDup l ∧ length l = Datatypes.S (depth d x) ∧
    ∀ y, y ∈ l → known y ∧ depth d y ≤ depth d x).
  { remember (depth d x) as n eqn:Hn. revert x Hx Hn. induction n as [n IH] using lt_wf_ind. intros x Hx Hn.
    destruct (decide (x = root d)) as [->|Hne].
    - exists [root d]. rewrite (proj2 (to_root d Htree)) in Hn. split_and!; [apply NoDup_singleton|simpl; lia|].
      intros y ->%list_elem_of_singleton. split; [done|]. rewrite (proj2 (to_root d Htree)). lia.
    - pose proof (depth_parent x Hx Hne) as Hd.
      destruct (IH (depth d (parent x)) ltac:(lia) (parent x) (known_parent x Hx Hne) eq_refl) as (l & Hnd & Hlen & Hall).
      exists (x :: l). split_and!; [|simpl; lia|].
      + constructor; [|done]. intros Hin. destruct (Hall x Hin). lia.
      + intros y [->|Hin]%elem_of_cons; [split; [done|lia]|]. destruct (Hall y Hin). split; [done|lia]. }
  destruct Hl as (l & Hnd & Hlen & Hall).
  assert (Hsub : l ⊆+ elements (dom (states d))).
  { apply NoDup_submseteq; [done|]. intros y Hy. apply elem_of_elements, elem_of_dom. by apply Hall. }
  apply submseteq_length in Hsub. rewrite <-size_dom. unfold size, set_size. simpl. lia.
Qed.

(** ** The chain above a state *)

Lemma ancestors_enough x f f' : known x → depth d x < f → depth d x < f' → ancestors_fuel d f x = ancestors_fuel d f' x.
Proof.
  revert f' x. induction f as [|f IH]; intros f' x Hk Hf Hf'; [lia|]. destruct f' as [|f']; [lia|]. simpl.
  case_decide as Hp; [done|]. assert (Hne : x ≠ root d) by (intros ->; by apply Hp, parent_empty).
  pose proof (depth_parent x Hk Hne). f_equal. apply IH; [by apply known_parent|lia|lia].
Qed.

Lemma anc_unfold x : known x →
  ancestorsInclusive d x = x :: (if decide (x = root d) then [] else ancestorsInclusive d (parent x)).
Proof.
  intros Hk. unfold ancestorsInclusive at 1. cbn [ancestors_fuel]. f_equal.
  pose proof (parent_empty x Hk) as Hp. case_decide as H1; case_decide as H2; try tauto.
  apply ancestors_enough; [by apply known_parent| |].
  - pose proof (depth_bound x Hk). pose proof (depth_parent x Hk H2). lia.
  - pose proof (depth_bound (parent x) (known_parent x Hk H2)). lia.
Qed.

Lemma below_step a x : known x → below a x ↔ a = x ∨ x ≠ root d ∧ below a (parent x).
Proof.
  intros Hk. rewrite anc_unfold by done. rewrite elem_of_cons. case_decide; [|tauto].
  rewrite elem_of_nil. tauto.
Qed.

(** Induction up the chain. *)
Lemma up_ind (P : string → Prop) :
  P (root d) → (∀ x, known x → x ≠ root d → P (parent x) → P x) → ∀ x, known x → P x.
Proof.
  intros Hr Hs x Hk. remember (depth d x) as n eqn:Hn. revert x Hk Hn. induction n as [n IH] using lt_wf_ind.
  intros x Hk Hn. destruct (decide (x = root d)) as [->|Hne]; [done|]. apply Hs; [done|done|].
  pose proof (depth_parent x Hk Hne). eapply IH; [|by apply known_parent|done]. lia.
Qed.

Lemma below_refl x : known x → below x x.
Proof. intros. apply below_step; auto. Qed.

Lemma below_root x : known x → below (root d) x.
Proof.
  revert x. apply up_ind; [apply below_refl, known_root|]. intros x Hk Hne IH. apply below_step; auto.
Qed.

Lemma below_facts a x : known x → below a x → known a ∧ depth d a ≤ depth d x ∧ (depth d a = depth d x → a = x).
Proof.
  intros Hk. revert x Hk. apply (up_ind (λ x, below a x → known a ∧ depth d a ≤ depth d x ∧ (depth d a = depth d x → a = x))).
  - intros Hb. apply below_step in Hb as [->|[? _]]; [|done|apply known_root]. split_and!; [apply known_root|lia|done].
  - intros x Hk Hne IH Hb. apply below_step in Hb as [->|[_ Hb]]; [split_and!; [done|lia|done]| |done].
    destruct (IH Hb) as (Hka & Hle & _). pose proof (depth_parent x Hk Hne). split_and!; [done|lia|lia].
Qed.

Lemma below_known a x : known x → below a x → known a.
Proof. intros. by apply (below_facts a x). Qed.

Lemma below_antisym a x : known x → below a x → below x a → a = x.
Proof.
  intros Hk H1 H2. destruct (below_facts a x Hk H1) as (Ha & Hle & He). destruct (below_facts x a Ha H2) as (_ & Hle' & _).
  apply He. lia.
Qed.

Lemma below_trans a b x : known x → below a b → below b x → below a x.
Proof.
  intros Hk Hab. revert x Hk. apply (up_ind (λ x, below b x → below a x)).
  - intros Hb. apply below_step in Hb as [->|[? _]]; [done|done|apply known_root].
  - intros x Hk Hne IH Hb. apply below_step in Hb as [->|[_ Hb]]; [done| |done]. apply below_step; auto.
Qed.

Lemma below_chain a b x : known x → below a x → below b x → below a b ∨ below b a.
Proof.
  intros Hk. revert x Hk. apply (up_ind (λ x, below a x → below b x → below a b ∨ below b a)).
  - intros Ha Hb. apply below_step in Ha as [->|[? _]]; [|done|apply known_root].
    apply below_step in Hb as [->|[? _]]; [|done|apply known_root]. left. apply below_refl, known_root.
  - intros x Hk Hne IH Ha Hb. pose proof Ha as Ha'. apply below_step in Ha as [->|[_ Ha]]; [by right| |done].
    apply below_step in Hb as [->|[_ Hb]]; [by left| |done]. by apply IH.
Qed.

Lemma below_up a x : known x → below a x → a ≠ x → x ≠ root d ∧ below a (parent x).
Proof. intros Hk Hb Hne. apply below_step in Hb as [?|?]; [done|done|done]. Qed.

Lemma proper_iff x a : isProperDescendant d x a = true ↔ x ≠ a ∧ below a x.
Proof.
  unfold isProperDescendant. case_decide; [split; [done|tauto]|]. rewrite bool_decide_eq_true. tauto.
Qed.

Lemma lca_below a b : known a → known b → below (lca d a b) a ∧ below (lca d a b) b.
Proof.
  intros Ha Hb. unfold lca.
  destruct (filter (λ c, c ∈ ancestorsInclusive d a) (ancestorsInclusive d b)) as [|c l] eqn:E; simpl.
  - split; by apply below_root.
  - assert (Hc : c ∈ filter (λ c, c ∈ ancestorsInclusive d a) (ancestorsInclusive d b)) by (rewrite E; left).
    by apply list_elem_of_filter in Hc.
Qed.

(** ** Legal configurations of a subtree *)

Lemma legal_known r C s : legal d r C → s ∈ C → known s.
Proof. intros Hl Hs. by apply (lg_known _ _ _ Hl). Qed.

(** A state between [r] and an active one is active. *)
Lemma legal_closed r C s a : legal d r C → s ∈ C → below a s → below r a → a ∈ C.
Proof.
  intros Hl Hs. pose proof (legal_known _ _ _ Hl Hs) as Hk. revert s Hk Hs.
  apply (up_ind (λ s, s ∈ C → below a s → below r a → a ∈ C)).
  - intros Hs Ha _. apply below_step in Ha as [->|[? _]]; [done|done|apply known_root].
  - intros x Hk Hne IH Hx Ha Hr. apply below_step in Ha as [->|[_ Ha]]; [done| |done].
    destruct (lg_up _ _ _ Hl x Hx) as [->|[_ Hp]]; [|by apply IH].
    assert (a = r) as ->; [|apply (lg_root _ _ _ Hl)].
    assert (Hka : known a) by (apply (below_known _ (parent r)); [by apply known_parent|done]).
    destruct (below_facts a (parent r)) as (_ & Hle & _); [by apply known_parent|done|].
    destruct (below_facts r a Hka Hr) as (_ & Hle' & _). pose proof (depth_parent r Hk Hne). lia.
Qed.

(** The part of a legal configuration at and below one of its states. *)
Lemma legal_sub r C a : legal d r C → a ∈ C →
  legal d a (filter (λ s, below a s) C).
Proof.
  intros Hl Ha. pose proof (legal_known _ _ _ Hl Ha) as Hka.
  assert (Hchild : ∀ s c, s ∈ filter (λ s, below a s) C → known c → c ≠ root d → parent c = s → c ∈ C → c ∈ filter (λ s, below a s) C).
  { intros s c [Hb Hs]%elem_of_filter Hkc Hne Hp Hc. apply elem_of_filter. split; [|done]. apply below_step; [done|].
    right. by rewrite Hp. }
  assert (Hne : ∀ s c, s ∈ C → known c → parent c = s → c ≠ root d).
  { intros s c Hs Hkc Hp Hr. apply parent_empty in Hr; [|done]. apply (known_ne s); [by eapply legal_known|congruence]. }
  split.
  - apply elem_of_filter. split; [by apply below_refl|done].
  - intros s [_ Hs]%elem_of_filter. by apply (lg_known _ _ _ Hl).
  - intros s [Hb Hs]%elem_of_filter. destruct (decide (s = a)) as [->|Hsa]; [by left|right].
    pose proof (legal_known _ _ _ Hl Hs) as Hks.
    destruct (below_up a s Hks Hb ltac:(congruence)) as [Hr Hp]. split; [done|]. apply elem_of_filter. split; [done|].
    destruct (lg_up _ _ _ Hl s Hs) as [->|[_ ?]]; [|done]. exfalso.
    destruct (below_facts r a Hka (lg_below _ _ _ Hl a Ha)) as (_ & Hle & Heq).
    destruct (below_facts a r Hks Hb) as (_ & Hle' & _). apply Hsa, Heq. lia.
  - intros s [Hb _]%elem_of_filter. done.
  - intros s Hs Hkind. pose proof Hs as [Hb Hsc]%elem_of_filter.
    destruct (lg_compound _ _ _ Hl s Hsc Hkind) as (c & Hc & Hp & Hu). exists c. split_and!; [|done|].
    + assert (Hkc : known c) by (by eapply legal_known). apply (Hchild s c); try done. by apply (Hne s).
    + intros c' [_ Hc']%elem_of_filter. by apply Hu.
  - intros s c Hs Hkind Hkc Hp. pose proof Hs as [Hb Hsc]%elem_of_filter.
    apply (Hchild s c); try done; [by apply (Hne s)|]. by apply (lg_parallel _ _ _ Hl s).
Qed.

(** ** Building and replacing *)

(** A child's depth tells two states on different levels apart. *)
Lemma child_ne s c : known c → parent c = s → s ≠ "" → c ≠ root d ∧ depth d c = Datatypes.S (depth d s) ∧ below s c.
Proof.
  intros Hk Hp Hs. assert (Hr : c ≠ root d) by (intros ->; apply Hs; rewrite <-Hp; by apply parent_empty).
  split_and!; [done|by rewrite <-Hp, <-depth_parent|]. apply below_step; [done|]. right. split; [done|].
  rewrite Hp. apply below_refl. rewrite <-Hp. by apply known_parent.
Qed.

(** A state over legal subtrees of some of its children: one of them below a
    compound, all of them below a parallel. *)
Lemma legal_node s (cs : list string) (T : string → gset string) :
  known s → isHistory (kind d s) = false →
  (∀ c, c ∈ cs → parent c = s ∧ legal d c (T c)) →
  (kind d s = kindCompound → ∃ c, cs = [c]) →
  (kind d s = kindParallel → ∀ c, known c → parent c = s → c ∈ cs) →
  legal d s ({[s]} ∪ ⋃ (T <$> cs)).
Proof.
  intros Hs Hh Hcs Hcomp Hpar.
  assert (Hin : ∀ x, x ∈ ({[s]} ∪ ⋃ (T <$> cs) : gset string) ↔ x = s ∨ ∃ c, c ∈ cs ∧ x ∈ T c).
  { intros x. rewrite elem_of_union, elem_of_singleton, elem_of_union_list. split.
    - intros [?|(Y & (c & -> & Hc)%list_elem_of_fmap & Hx)]; eauto.
    - intros [?|(c & Hc & Hx)]; [by left|right]. exists (T c). split; [|done]. by apply list_elem_of_fmap_2. }
  assert (Hc : ∀ c, c ∈ cs → known c ∧ c ≠ root d ∧ depth d c = Datatypes.S (depth d s) ∧ below s c).
  { intros c Hc. destruct (Hcs c Hc) as [Hp Hl]. assert (Hk : known c) by (eapply legal_known, lg_root; done).
    split; [done|]. by apply child_ne, known_ne. }
  assert (Hbel : ∀ c x, c ∈ cs → x ∈ T c → known x ∧ below c x ∧ Datatypes.S (depth d s) ≤ depth d x).
  { intros c x Hcc Hx. destruct (Hcs c Hcc) as [_ Hl]. destruct (Hc c Hcc) as (Hk & _ & Hd & _).
    pose proof (lg_below _ _ _ Hl x Hx) as Hb. pose proof (legal_known _ _ _ Hl Hx) as Hkx.
    split_and!; [done|done|]. destruct (below_facts c x Hkx Hb). lia. }
  assert (Hsame : ∀ c1 c2 x, c1 ∈ cs → c2 ∈ cs → known x → below c1 x → below c2 x → c1 = c2).
  { intros c1 c2 x H1 H2 Hk Hb1 Hb2. destruct (Hc c1 H1) as (K1 & _ & D1 & _), (Hc c2 H2) as (K2 & _ & D2 & _).
    destruct (below_chain c1 c2 x Hk Hb1 Hb2) as [Hb|Hb].
    - destruct (below_facts c1 c2 K2 Hb) as (_ & _ & He). apply He. lia.
    - destruct (below_facts c2 c1 K1 Hb) as (_ & _ & He). symmetry. apply He. lia. }
  (* A child, inside the set, of a state of [T c] is in [T c]; of [s], is one of [cs]. *)
  assert (Hkid : ∀ x y, (y = s ∨ ∃ c, c ∈ cs ∧ y ∈ T c) → known y → parent y = x →
    (x = s → y ∈ cs) ∧ (∀ c, c ∈ cs → x ∈ T c → y ∈ T c)).
  { intros x y Hy Hky Hp. destruct Hy as [->|(c' & Hc' & Hy)].
    - split.
      + intros ->. destruct (decide (s = root d)) as [Hr|Hr]; [|pose proof (depth_parent s Hs Hr); rewrite Hp in *; lia].
        exfalso. apply (known_ne s Hs). rewrite <-Hp. by apply parent_empty.
      + intros c Hcc Hx. exfalso. destruct (Hbel c x Hcc Hx) as (Hkx & _ & Hd).
        destruct (child_ne x s Hs Hp (known_ne _ Hkx)) as (_ & Hd' & _). lia.
    - destruct (Hcs c' Hc') as [Hpc' Hl']. split.
      + intros ->. destruct (lg_up _ _ _ Hl' y Hy) as [->|[_ Hup]]; [done|]. rewrite Hp in Hup.
        destruct (Hbel c' s Hc' Hup) as (_ & _ & ?). lia.
      + intros c Hcc Hx. destruct (Hbel c x Hcc Hx) as (Hkx & Hb & Hd).
        destruct (child_ne x y Hky Hp (known_ne _ Hkx)) as (Hr & Hdy & Hbxy).
        assert (c = c') as ->; [|done]. apply (Hsame c c' y); [done|done|done| |by apply Hl'].
        by eapply below_trans. }
  split.
  - apply Hin. by left.
  - intros x [->|(c & Hcc & Hx)]%Hin; [done|]. destruct (Hcs c Hcc) as [_ Hl]. by apply (lg_known _ _ _ Hl).
  - intros x [->|(c & Hcc & Hx)]%Hin; [by left|right]. destruct (Hcs c Hcc) as [Hp Hl].
    destruct (lg_up _ _ _ Hl x Hx) as [->|[Hr Hup]].
    + split; [apply (Hc c Hcc)|]. apply Hin. left. done.
    + split; [done|]. apply Hin. eauto.
  - intros x [->|(c & Hcc & Hx)]%Hin; [by apply below_refl|]. destruct (Hbel c x Hcc Hx) as (Hk & Hb & _).
    eapply below_trans; [done| |done]. apply (Hc c Hcc).
  - intros x [->|(c & Hcc & Hx)]%Hin Hkind.
    + destruct (Hcomp Hkind) as [c ->]. exists c. assert (Hcc : c ∈ [c]) by left.
      destruct (Hcs c Hcc) as [Hp Hl]. split_and!; [apply Hin; right; exists c; split; [done|apply Hl]|done|].
      intros c' Hc' Hp'. apply Hin in Hc'.
      assert (Hk' : known c') by (destruct Hc' as [->|(c2 & Hc2 & Hx2)]; [done|by apply (Hbel c2)]).
      destruct (Hkid s c' Hc' Hk' Hp') as [Hx _]. by apply list_elem_of_singleton, Hx.
    + destruct (Hcs c Hcc) as [Hp Hl]. destruct (lg_compound _ _ _ Hl x Hx Hkind) as (y & Hy & Hpy & Hu).
      exists y. split_and!; [apply Hin; eauto|done|]. intros y' Hy' Hpy'. apply Hin in Hy'.
      assert (Hk' : known y') by (destruct Hy' as [->|(c2 & Hc2 & Hx2)]; [done|by apply (Hbel c2)]).
      apply Hu; [|done]. by apply (Hkid x y' Hy' Hk' Hpy').
  - intros x y [->|(c & Hcc & Hx)]%Hin Hkind Hky Hpy.
    + apply Hin. right. exists y. assert (Hyc : y ∈ cs) by (by apply Hpar). split; [done|]. by apply (Hcs y Hyc).
    + apply Hin. right. exists c. split; [done|]. destruct (Hcs c Hcc) as [_ Hl]. by apply (lg_parallel _ _ _ Hl x).
Qed.

(** Swap the part below an active state for another legal one. *)
Lemma legal_replace r C l S :
  legal d r C → l ∈ C → legal d l S →
  legal d r (filter (λ s, isProperDescendant d s l = false) C ∪ S).
Proof.
  intros HC Hl HS.
  assert (Hnp : ∀ x, isProperDescendant d x l = false ↔ ¬ (x ≠ l ∧ below l x)).
  { intros x. rewrite <-proper_iff. by destruct (isProperDescendant d x l). }
  assert (Hin : ∀ x, x ∈ filter (λ s, isProperDescendant d s l = false) C ∪ S ↔ (x ∈ C ∧ ¬ (x ≠ l ∧ below l x)) ∨ x ∈ S).
  { intros x. rewrite elem_of_union, elem_of_filter, Hnp. tauto. }
  pose proof (legal_known _ _ _ HC Hl) as Hkl.
  assert (Hstep : ∀ x y, known y → y ≠ root d → parent y = x → (y ≠ l → below l y → below l x) ∧ (below l x → y ≠ l ∧ below l y)).
  { intros x y Hk Hr Hp. split.
    - intros Hne Hb. destruct (below_up l y Hk Hb ltac:(congruence)) as [_ ?]. by rewrite <-Hp.
    - intros Hb. assert (Hb' : below l y) by (apply below_step; [done|]; right; by rewrite Hp). split; [|done].
      intros ->. rewrite <-Hp in Hb. pose proof (depth_parent l Hk Hr).
      destruct (below_facts l (parent l) (known_parent l Hk Hr) Hb). lia. }
  assert (Hkid : ∀ x y, known x → known y → parent y = x → y ≠ root d).
  { intros x y Hkx Hky Hp. by apply (child_ne x y Hky Hp), known_ne. }
  split.
  - apply Hin. left. split; [apply HC|]. intros [Hne Hb].
    apply Hne. symmetry. apply (below_antisym l r); [|done|by apply HC]. exact (legal_known _ _ _ HC (lg_root _ _ _ HC)).
  - intros s [[Hs _]|Hs]%Hin; [by apply (lg_known _ _ _ HC)|by apply (lg_known _ _ _ HS)].
  - intros s [[Hs Hn]|Hs]%Hin.
    + destruct (lg_up _ _ _ HC s Hs) as [?|[Hr Hp]]; [by left|right]. split; [done|]. apply Hin. left. split; [done|].
      intros [Hne Hb]. apply Hn. by apply (Hstep (parent s) s (legal_known _ _ _ HC Hs) Hr eq_refl).
    + destruct (lg_up _ _ _ HS s Hs) as [->|[Hr Hp]].
      * destruct (lg_up _ _ _ HC l Hl) as [?|[Hr Hp]]; [by left|right]. split; [done|]. apply Hin. left. split; [done|].
        intros [Hne Hb]. by apply (Hstep (parent l) l Hkl Hr eq_refl) in Hb as [].
      * right. split; [done|]. apply Hin. by right.
  - intros s [[Hs _]|Hs]%Hin; [by apply HC|].
    eapply below_trans; [exact (legal_known _ _ _ HS Hs)|by apply HC|by apply HS].
  - intros s Hs Hkind. apply Hin in Hs. destruct (decide (s ∈ S)) as [HsS|HsS].
    + destruct (lg_compound _ _ _ HS s HsS Hkind) as (c & Hc & Hp & Hu). exists c. split_and!; [apply Hin; by right|done|].
      intros c' [[Hc' Hn]|Hc']%Hin Hp'; [|by apply Hu]. exfalso. apply Hn.
      pose proof (legal_known _ _ _ HC Hc') as Hkc. pose proof (legal_known _ _ _ HS HsS) as Hks.
      apply (Hstep s c'); try done; [by eapply Hkid|by apply HS].
    + destruct Hs as [[Hs Hn]|?]; [|done]. assert (Hsl : s ≠ l) by (intros ->; apply HsS, HS).
      pose proof (legal_known _ _ _ HC Hs) as Hks.
      destruct (lg_compound _ _ _ HC s Hs Hkind) as (c & Hc & Hp & Hu).
      pose proof (legal_known _ _ _ HC Hc) as Hkc.
      exists c. split_and!; [|done|].
      * apply Hin. left. split; [done|]. intros [Hne Hb]. apply Hn. split; [done|]. by apply (Hstep s c Hkc (Hkid s c Hks Hkc Hp) Hp).
      * intros c' [[Hc' _]|Hc']%Hin Hp'; [by apply Hu|].
        destruct (lg_up _ _ _ HS c' Hc') as [->|[_ Hp'']]; [by apply Hu|]. rewrite Hp' in Hp''. done.
  - intros s c Hs Hkind Hkc Hp. apply Hin in Hs. apply Hin. destruct (decide (s ∈ S)) as [HsS|HsS].
    + right. by apply (lg_parallel _ _ _ HS s).
    + destruct Hs as [[Hs Hn]|?]; [|done]. assert (Hsl : s ≠ l) by (intros ->; apply HsS, HS).
      pose proof (legal_known _ _ _ HC Hs) as Hks.
      left. split; [by apply (lg_parallel _ _ _ HC s)|]. intros [Hne Hb]. apply Hn. split; [done|].
      by apply (Hstep s c Hkc (Hkid s c Hks Hkc Hp) Hp).
Qed.

(** ** Entering *)

(** Entering adds the same states and the same actions to any accumulator. *)
Lemma enter_frame fuel s ea :
  enter_fuel d fuel s ea = ((enter_fuel d fuel s (∅, [])).1 ∪ ea.1, ea.2 ++ (enter_fuel d fuel s (∅, [])).2).
Proof.
  revert s ea. induction fuel as [|fuel IH]; intros s [E acts]; simpl; [f_equal; [set_solver|by rewrite app_nil_r]|].
  assert (Hbase : ({[s]} ∪ E, acts ++ entryOf d s) = (({[s]} ∪ ∅) ∪ E, acts ++ [] ++ entryOf d s)) by (f_equal; set_solver).
  destruct (kind d s).
  1,4,5,6: by rewrite Hbase.
  - case_decide; [|by rewrite Hbase]. rewrite IH. rewrite (IH _ ({[s]} ∪ ∅, _)). simpl. f_equal; [set_solver|by rewrite <-!app_assoc].
  - rewrite Hbase. simpl. generalize ({[s]} ∪ ∅ : gset string) (entryOf d s). induction (childrenOf d s) as [|c cs IHc]; intros U a; [done|].
    simpl. rewrite (IH c (U ∪ E, acts ++ a)), (IH c (U, a)). simpl. rewrite <-IHc. f_equal. f_equal; [set_solver|by rewrite app_assoc].
Qed.

(** The states a fold over children enters. *)
Lemma enter_children fuel cs ea :
  (foldl (λ ea c, enter_fuel d fuel c ea) ea cs).1 = ⋃ ((λ c, (enter_fuel d fuel c (∅, [])).1) <$> cs) ∪ ea.1.
Proof.
  revert ea. induction cs as [|c cs IH]; intros ea; simpl; [set_solver|]. rewrite IH, (enter_frame fuel c ea). simpl. set_solver.
Qed.

Lemma child_known p c : c ∈ childrenOf d p → known c ∧ parent c = p.
Proof.
  intros (_ & sd & Hsd & Hp)%(ro_children _ Hrefs). split; [eauto|]. unfold parentOf. by rewrite Hsd.
Qed.

Lemma child_listed p c : known c → parent c = p → p ≠ "" → c ∈ childrenOf d p.
Proof.
  intros [sd Hsd] Hp Hne. apply (ro_children _ Hrefs). split; [done|]. exists sd. split; [done|].
  unfold parentOf in Hp. by rewrite Hsd in Hp.
Qed.

(** Entering a state activates a legal subtree. *)
Lemma enter_legal fuel s : known s → isHistory (kind d s) = false → size (states d) ≤ fuel + depth d s →
  legal d s (enter_fuel d fuel s (∅, [])).1.
Proof.
  revert s. induction fuel as [|fuel IH]; intros s Hs Hh Hf; [pose proof (depth_bound s Hs); simpl in Hf; lia|].
  assert (Hsub : ∀ c, known c → parent c = s → isHistory (kind d c) = false →
    parent c = s ∧ legal d c (enter_fuel d fuel c (∅, [])).1).
  { intros c Hc Hp Hhc. split; [done|]. destruct (child_ne s c Hc Hp (known_ne s Hs)) as (_ & Hd & _). apply IH; [done|done|lia]. }
  assert (Hleaf : kind d s ≠ kindCompound → kind d s ≠ kindParallel → legal d s ({[s]} ∪ ∅)).
  { intros H1 H2. apply (legal_node s [] (λ _, ∅)); try done. intros c Hc. by apply not_elem_of_nil in Hc. }
  cbn [enter_fuel]. simpl fst. destruct (kind d s) eqn:Hk; try (by apply Hleaf).
  - destruct Hs as [sd Hsd]. assert (Hk' : sd_kind sd = kindCompound) by (unfold kind in Hk; rewrite Hsd in Hk; done).
    destruct (to_initial _ Htree s sd Hsd Hk') as [Hp Hi]. pose proof (ro_compound _ Hrefs s sd Hsd Hk') as Hne.
    unfold initialOf. rewrite Hsd. simpl. rewrite decide_True by done. rewrite enter_frame. simpl.
    destruct (ro_initial _ Hrefs s sd Hsd Hne) as [sdi Hsdi].
    pose proof (legal_node s [sd_initial sd] (λ c, (enter_fuel d fuel c (∅, [])).1)) as Hn. simpl in Hn.
    replace (_ ∪ ({[s]} ∪ ∅)) with ({[s]} ∪ ((enter_fuel d fuel (sd_initial sd) (∅, [])).1 ∪ ∅)) by set_solver.
    apply Hn; [eauto|by rewrite Hk| |eauto|by rewrite Hk].
    intros c ->%list_elem_of_singleton. apply Hsub; eauto.
  - rewrite enter_children. simpl. rewrite (union_comm_L _ ({[s]} ∪ ∅)), (right_id_L ∅ (∪)).
    apply (legal_node s (childrenOf d s)); [done|by rewrite Hk| |by rewrite Hk|].
    + intros c [Hc Hp]%child_known. apply Hsub; [done|done|].
      destruct (child_ne s c Hc Hp (known_ne s Hs)) as (Hr & _). destruct (parent_kind c Hc Hr) as [Hpk|[_ ?]]; [|done].
      rewrite Hp, Hk in Hpk. done.
    + intros _ c Hc Hp. apply child_listed; [done|done|by apply known_ne].
Qed.

Lemma enterSubtree_spec s ea : known s → isHistory (kind d s) = false →
  ∃ T, (enterSubtree d s ea).1 = T ∪ ea.1 ∧ legal d s T.
Proof.
  intros Hs Hh. exists (enterSubtree d s (∅, [])).1. unfold enterSubtree. split.
  - by rewrite enter_frame.
  - apply enter_legal; [done|done|lia].
Qed.

(** ** The path to a target *)

Lemma pathBelow_self l : known l → pathBelow d l l = [].
Proof. intros Hl. unfold pathBelow. rewrite anc_unfold by done. simpl. by destruct (decide (l = l)). Qed.

Lemma pathBelow_step l t : known t → t ≠ root d → t ≠ l → pathBelow d l t = pathBelow d l (parent t) ++ [t].
Proof.
  intros Ht Hr Hne. unfold pathBelow. rewrite (anc_unfold t) by done. rewrite decide_False by done. generalize (ancestorsInclusive d (parent t)). intros ch. simpl.
  destruct (decide (t = l)) as [?|_]; [done|]. destruct (indexOfString ch l); simpl; by rewrite reverse_cons.
Qed.

(** No state on the path from [l] down to [t] is one of several parallel regions. *)
Definition path_local l t : Prop := Forall (λ x, kind d (parent x) ≠ kindParallel) (pathBelow d l t).

(** The path from an active [l] to [t], over a legal subtree of [t]. *)
Lemma legal_path l t T : known t → below l t → isHistory (kind d l) = false → path_local l t → legal d t T →
  legal d l ({[l]} ∪ (list_to_set (pathBelow d l t) ∪ T)).
Proof.
  intros Ht Hb Hhl Hloc. unfold path_local in Hloc. rewrite Forall_forall in Hloc. revert t Ht T Hb Hloc. apply (up_ind (λ t, ∀ T, below l t → (∀ x, x ∈ pathBelow d l t → kind d (parent x) ≠ kindParallel) → legal d t T →
    legal d l ({[l]} ∪ (list_to_set (pathBelow d l t) ∪ T)))).
  { intros T Hb _ HT. apply below_step in Hb as [->|[? _]]; [|done|apply known_root]. rewrite pathBelow_self by apply known_root. simpl.
    replace (_ ∪ _) with T; [done|]. pose proof (lg_root _ _ _ HT). set_solver. }
  intros t Ht Hr IH T Hb Hloc HT. destruct (decide (t = l)) as [->|Hne].
  { rewrite pathBelow_self by done. simpl. replace (_ ∪ _) with T; [done|]. pose proof (lg_root _ _ _ HT). set_solver. }
  destruct (below_up l t Ht Hb ltac:(congruence)) as [_ Hbp]. pose proof (known_parent t Ht Hr) as Hkp.
  assert (Hpath : pathBelow d l t = pathBelow d l (parent t) ++ [t]) by (by apply pathBelow_step).
  assert (Hpk : kind d (parent t) = kindCompound).
  { destruct (parent_kind t Ht Hr) as [?|[? _]]; [done|]. exfalso. apply (Hloc t); [|done]. rewrite Hpath, elem_of_app, list_elem_of_singleton. by right. }
  assert (HT' : legal d (parent t) ({[parent t]} ∪ T)).
  { pose proof (legal_node (parent t) [t] (λ _, T) Hkp) as Hn. simpl in Hn. rewrite (right_id_L ∅ (∪)) in Hn.
    apply Hn; [by rewrite Hpk|by intros c ->%list_elem_of_singleton|eauto|by rewrite Hpk]. }
  specialize (IH ({[parent t]} ∪ T) Hbp). rewrite Hpath.
  assert (Hin : parent t = l ∨ parent t ∈ pathBelow d l (parent t)).
  { destruct (decide (parent t = l)); [by left|right]. rewrite pathBelow_step; [|done| |done].
    - rewrite elem_of_app, list_elem_of_singleton. by right.
    - intros Hpr. rewrite Hpr in *. apply below_step in Hbp as [?|[? _]]; [congruence|done|apply known_root]. }
  replace ({[l]} ∪ (list_to_set (pathBelow d l (parent t) ++ [t]) ∪ T))
    with ({[l]} ∪ (list_to_set (pathBelow d l (parent t)) ∪ ({[parent t]} ∪ T)) : gset string).
  - apply IH; [|done]. intros x Hx. apply Hloc. rewrite Hpath, elem_of_app. by left.
  - pose proof (lg_root _ _ _ HT). rewrite list_to_set_app_L. simpl. apply set_eq. intros x.
    rewrite !elem_of_union, !elem_of_singleton, !elem_of_list_to_set, elem_of_empty. naive_solver.
Qed.

(** ** History *)

(** A recording is something a history state can restore below its parent. *)
Definition rec_ok h (r : recording) : Prop :=
  match r with
  | shallowRecording c => known c ∧ isHistory (kind d c) = false ∧ parent c = parent h
  | deepRecording rs => legal d (parent h) ({[parent h]} ∪ list_to_set rs)
  end.
Definition hist_ok (hist : gmap string recording) : Prop := map_Forall rec_ok hist.

(** The active states below [s], with [s]. *)
Lemma legal_proper C s : legal d (root d) C → s ∈ C →
  legal d s ({[s]} ∪ filter (λ x, isProperDescendant d x s = true) C).
Proof.
  intros HC Hs. replace (_ ∪ _) with (filter (λ x, below s x) C); [by apply (legal_sub (root d))|].
  apply set_eq. intros x. rewrite elem_of_union, elem_of_singleton, !elem_of_filter, proper_iff.
  destruct (decide (x = s)) as [->|]; [|naive_solver]. split; [by left|]. intros _. split; [|done]. apply below_refl. by eapply legal_known.
Qed.

Lemma recordRegion_ok hist C s : hist_ok hist → legal d (root d) C → s ∈ C → historyChildOf d s ≠ "" →
  hist_ok (recordRegion d hist s (historyChildOf d s) C).
Proof.
  intros Hh HC Hs Hne. unfold historyChildOf in *. destruct (filter _ _) as [|h l] eqn:Ef; [done|]. simpl in *.
  assert (Hin : h ∈ filter (λ c, isHistory (kind d c) = true) (childrenOf d s)) by (rewrite Ef; left).
  apply list_elem_of_filter in Hin as [Hk [Hkh Hp]%child_known].
  unfold recordRegion. destruct (kind d h); try done.
  - destruct (filter (λ c, c ∈ C ∧ _) _) as [|c cs] eqn:Ec; [done|]. simpl.
    assert (Hc : c ∈ filter (λ c, c ∈ C ∧ isHistory (kind d c) = false) (childrenOf d s)) by (rewrite Ec; left).
    apply list_elem_of_filter in Hc as [[Hc Hck] [Hkc Hpc]%child_known].
    apply map_Forall_insert_2; [|done]. split_and!; [done|done|by rewrite Hp].
  - apply map_Forall_insert_2; [|done]. simpl. rewrite Hp. unfold sort_strings.
    replace (list_to_set _) with (filter (λ x, isProperDescendant d x s = true) C); [by apply legal_proper|].
    apply set_eq. intros x. by rewrite elem_of_list_to_set, elem_of_sort_stable, elem_of_elements.
Qed.

Lemma hist_ok_fold hist C (X : list string) : hist_ok hist → legal d (root d) C → (∀ s, s ∈ X → s ∈ C) →
  hist_ok (foldl (λ hist s, if decide (historyChildOf d s ≠ "") then recordRegion d hist s (historyChildOf d s) C else hist) hist X).
Proof.
  intros Hh HC. revert hist Hh. induction X as [|s X IH]; intros hist Hh HX; simpl; [done|].
  apply IH; [|set_solver]. case_decide; [|done]. apply recordRegion_ok; [done..| |done]. apply HX. left.
Qed.

Lemma history_parent h : known h → isHistory (kind d h) = true →
  h ≠ root d ∧ known (parent h) ∧ kind d (parent h) = kindCompound ∧ isHistory (kind d (parent h)) = false.
Proof.
  intros Hk Hh. assert (Hr : h ≠ root d) by (intros ->; rewrite (proj1 (to_root d Htree)) in Hh; done).
  destruct (parent_kind h Hk Hr) as [Hp|[_ ?]]; [|congruence]. rewrite Hp. split_and!; [done|by apply known_parent|done|done].
Qed.

(** Where a history state with no recording starts. *)
Lemma history_start h (start := if decide (defaultOf d h ≠ "") then defaultOf d h else initialOf d (parent h)) :
  known h → isHistory (kind d h) = true →
  start ≠ "" ∧ known start ∧ isHistory (kind d start) = false ∧ parent start = parent h.
Proof.
  intros Hk Hh. destruct (history_parent h Hk Hh) as (Hr & Hkp & Hcomp & _). subst start. case_decide as Hd.
  - split; [done|]. destruct Hk as [sd Hsd]. unfold defaultOf in *. rewrite Hsd in *. simpl in *.
    destruct (to_default _ Htree h sd Hsd Hd) as [Hp Hdh]. split_and!; [by eapply ro_default|done|].
    unfold parentOf at 2. by rewrite Hsd.
  - destruct Hkp as [sd Hsd]. assert (Hkd : sd_kind sd = kindCompound) by (unfold kind in Hcomp; rewrite Hsd in Hcomp; done).
    unfold initialOf. rewrite Hsd. simpl. pose proof (ro_compound _ Hrefs _ _ Hsd Hkd) as Hne.
    destruct (to_initial _ Htree _ sd Hsd Hkd) as [Hp Hdh]. split_and!; [done|by eapply ro_initial|done|done].
Qed.

(** Restoring a history state gives its region a legal interior. *)
Lemma restore_legal hist h enter : hist_ok hist → known h → isHistory (kind d h) = true →
  ∃ T, restoreViaHistory d hist h (parent h) enter = T ∪ enter ∧ legal d (parent h) ({[parent h]} ∪ T).
Proof.
  intros Hhist Hk Hh. destruct (history_parent h Hk Hh) as (Hr & Hkp & Hcomp & Hhp).
  assert (Hone : ∀ c T, parent c = parent h → legal d c T → legal d (parent h) ({[parent h]} ∪ T)).
  { intros c T Hp HT. pose proof (legal_node (parent h) [c] (λ _, T) Hkp) as Hn. simpl in Hn. rewrite (right_id_L ∅ (∪)) in Hn.
    apply Hn; [done|by intros c' ->%list_elem_of_singleton|eauto|by rewrite Hcomp]. }
  unfold restoreViaHistory. destruct (hist !! h) as [[c|rs]|] eqn:Eh.
  - destruct (Hhist h _ Eh) as (Hkc & Hhc & Hpc). destruct (enterSubtree_spec c ({[c]} ∪ enter, []) Hkc Hhc) as (T & -> & HT).
    simpl. exists T. split; [|by apply (Hone c)]. pose proof (lg_root _ _ _ HT). set_solver.
  - exists (list_to_set rs). split; [done|]. exact (Hhist h _ Eh).
  - destruct (history_start h Hk Hh) as (Hne & Hks & Hhs & Hps). cbv zeta in *. revert Hne Hks Hhs Hps.
    generalize (if decide (defaultOf d h ≠ "") then defaultOf d h else initialOf d (parent h)). intros start Hne Hks Hhs Hps.
    rewrite decide_True by done. destruct (child_ne _ start Hks Hps (known_ne _ Hkp)) as (Hsr & Hd & _).
    rewrite pathBelow_step; [|done|done|intros ->; lia]. rewrite Hps, pathBelow_self by done. simpl.
    destruct (enterSubtree_spec start ({[start]} ∪ ∅ ∪ enter, []) Hks Hhs) as (T & -> & HT).
    simpl. exists T. split; [|by apply (Hone start)]. pose proof (lg_root _ _ _ HT). set_solver.
Qed.

(** ** One transition *)

(** The state whose path is entered: the target, or the region of a history target. *)
Definition entered (t : transition) : string :=
  if isHistory (kind d (target t)) then parent (target t) else target t.

(** A transition leaves no parallel region of the path it enters alone. *)
Definition cand_local (c : candidate) : Prop :=
  path_local (scope d (cand_source c) (cand_trans c) (cand_leaf c)) (entered (cand_trans c)).

(** A candidate of an active leaf. *)
Record cand_ok C (c : candidate) : Prop := {
  co_leaf : cand_leaf c ∈ C ∧ isLeaf (kind d (cand_leaf c)) = true;
  co_source : below (cand_source c) (cand_leaf c);
  co_target : known (target (cand_trans c));
}.

Lemma scope_ok C (c : candidate) : legal d (root d) C → cand_ok C c →
  let l := scope d (cand_source c) (cand_trans c) (cand_leaf c) in
  l ∈ C ∧ below l (cand_leaf c) ∧ below l (target (cand_trans c)).
Proof.
  intros HC [[Hl _] Hs Ht] l. pose proof (legal_known _ _ _ HC Hl) as Hkl. pose proof (below_known _ _ Hkl Hs) as Hks.
  assert (below l (cand_leaf c) ∧ below l (target (cand_trans c))) as [H1 H2].
  { unfold l, scope. destruct (internal _ && _) eqn:E; [|by apply lca_below].
    split; [done|]. apply andb_true_iff in E as [_ [E|E]%orb_true_iff].
    - apply bool_decide_eq_true in E. rewrite E. by apply below_refl.
    - by apply proper_iff in E as [_ ?]. }
  split; [|done]. apply (legal_closed (root d) C (cand_leaf c)); [done|done|done|].
  apply below_root. exact (below_known _ _ Hkl H1).
Qed.

(** What a taken candidate exits and enters: all below its scope, and a legal
    replacement for it. *)
Lemma computeExitEnter_spec hist C (c : candidate) : hist_ok hist → legal d (root d) C → cand_ok C c → cand_local c →
  let l := scope d (cand_source c) (cand_trans c) (cand_leaf c) in
  legal d l ({[l]} ∪ (computeExitEnter d hist (cand_source c) (cand_trans c) (cand_leaf c) C).2).
Proof.
  intros Hh HC Hc Hloc l. destruct (scope_ok C c HC Hc) as (Hl & _ & Hlt). fold l in Hl, Hlt.
  unfold cand_local, entered in Hloc. fold l in Hloc. pose proof (co_target _ _ Hc) as Ht.
  unfold computeExitEnter. fold l. simpl. destruct (isHistory (kind d (target (cand_trans c)))) eqn:Eh.
  - destruct (history_parent _ Ht Eh) as (Hr & Hkp & _ & Hhp). rewrite decide_False by (by apply known_ne).
    destruct (restore_legal hist _ (list_to_set (pathBelow d l (parent (target (cand_trans c))))) Hh Ht Eh) as (T & -> & HT).
    assert (Hlp : below l (parent (target (cand_trans c)))).
    { apply below_up; [done|done|]. intros Heq. pose proof (proj2 (lg_known _ _ _ HC l Hl)). congruence. }
    pose proof (legal_path l _ _ Hkp Hlp (proj2 (lg_known _ _ _ HC l Hl)) Hloc HT) as Hp.
    match goal with Hp : legal _ _ ?A |- legal _ _ ?B => replace B with A; [done|] end.
    destruct (decide (parent (target (cand_trans c)) = l)) as [He|He]; [rewrite He, pathBelow_self by (by rewrite <-He); set_solver|].
    assert (parent (target (cand_trans c)) ∈ pathBelow d l (parent (target (cand_trans c)))); [|set_solver].
    rewrite pathBelow_step; [rewrite elem_of_app, list_elem_of_singleton; by right|done| |done].
    intros Hpr. rewrite Hpr in Hlp. apply below_step in Hlp as [->|[? _]]; [by rewrite Hpr in He|done|apply known_root].
  - destruct (enterSubtree_spec (target (cand_trans c)) (list_to_set (pathBelow d l (target (cand_trans c))), []) Ht Eh) as (T & -> & HT).
    rewrite (union_comm_L T). by apply legal_path; [|done|apply (lg_known _ _ _ HC l Hl)|..].
Qed.

Lemma leaf_below a x : known x → isLeaf (kind d a) = true → below a x → x = a.
Proof.
  intros Hk Ha. revert x Hk. apply (up_ind (λ x, below a x → x = a)).
  - intros Hb. apply below_step in Hb as [->|[? _]]; [done|done|apply known_root].
  - intros x Hk Hr IH Hb. apply below_step in Hb as [->|[_ Hb]]; [done| |done]. specialize (IH Hb).
    destruct (parent_kind x Hk Hr) as [Hp|[Hp _]]; rewrite IH in Hp; rewrite Hp in Ha; done.
Qed.

(** ** The greedy pass *)

(** What the taken candidates exit and enter: [ls] the scopes with something to
    exit, [N'] what is entered below them, [L] leaves entered without an exit. *)
Definition pass_inv C hist (st : gset string * gset string * list candidate) : Prop :=
  let '(X, N, taken) := st in
  ∃ (ls : list string) N' L,
    N = N' ∪ L ∧
    (∀ s, s ∈ X ↔ s ∈ C ∧ ∃ l, l ∈ ls ∧ isProperDescendant d s l = true) ∧
    (∀ x, x ∈ N' → ∃ l, l ∈ ls ∧ below l x) ∧
    (∀ l, l ∈ ls → l ∈ C ∧ ∃ s, s ∈ C ∧ isProperDescendant d s l = true) ∧
    (∀ x, x ∈ L → x ∈ C ∧ ∃ c : candidate, c ∈ taken ∧ cand_leaf c = x ∧
       (computeExitEnter d hist (cand_source c) (cand_trans c) (cand_leaf c) C).1 = ∅) ∧
    legal d (root d) ((C ∖ X) ∪ N').

Lemma pass_empty C hist : legal d (root d) C → pass_inv C hist (∅, ∅, []).
Proof.
  intros HC. exists [], ∅, ∅. split_and!; [set_solver|set_solver|set_solver| |set_solver|].
  - intros l Hl. by apply not_elem_of_nil in Hl.
  - by replace (C ∖ ∅ ∪ ∅) with C by set_solver.
Qed.

Lemma pass_step C hist X N taken (c : candidate) : hist_ok hist → legal d (root d) C → cand_ok C c → cand_local c →
  pass_inv C hist (X, N, taken) →
  let ee := computeExitEnter d hist (cand_source c) (cand_trans c) (cand_leaf c) C in
  ee.1 ∩ X = ∅ → pass_inv C hist (X ∪ ee.1, N ∪ ee.2, taken ++ [c]).
Proof.
  intros Hh HC Hc Hloc (ls & N' & L & -> & HX & HN & Hls & HL & Hleg) ee Hdisj.
  pose proof (computeExitEnter_spec hist C c Hh HC Hc Hloc) as Hent. cbv zeta in Hent. fold ee in Hent.
  destruct (scope_ok C c HC Hc) as (Hl & Hlleaf & _). cbv zeta in *.
  assert (HE : ee.1 = filter (λ s, isProperDescendant d s (scope d (cand_source c) (cand_trans c) (cand_leaf c)) = true) C) by done.
  set (l := scope d (cand_source c) (cand_trans c) (cand_leaf c)) in *.
  assert (HinE : ∀ s, s ∈ ee.1 ↔ s ∈ C ∧ isProperDescendant d s l = true) by (intros s; rewrite HE, elem_of_filter; tauto).
  destruct (decide (ee.1 = ∅)) as [He|He].
  - (* Nothing to exit: the scope is the leaf itself. *)
    assert (l = cand_leaf c) as Hlf.
    { destruct (decide (l = cand_leaf c)) as [|Hne]; [done|exfalso]. assert (cand_leaf c ∈ ee.1); [|set_solver].
      apply HinE. split; [apply Hc|]. apply proper_iff. auto. }
    assert (Hsub : ∀ x, x ∈ ee.2 → x = cand_leaf c).
    { intros x Hx. assert (Hx' : x ∈ {[l]} ∪ ee.2) by set_solver. apply leaf_below; [exact (legal_known _ _ _ Hent Hx')|apply Hc|].
      rewrite <-Hlf. by apply (lg_below _ _ _ Hent). }
    exists ls, N', (L ∪ ee.2). split_and!; [set_solver|rewrite He, (right_id_L ∅ (∪)); done|done|done| |].
    + intros x [Hx|Hx]%elem_of_union.
      * destruct (HL x Hx) as (? & c' & Hc' & ?). split; [done|]. exists c'. rewrite elem_of_app. auto.
      * rewrite (Hsub x Hx). split; [apply Hc|]. exists c. split_and!; [rewrite elem_of_app, list_elem_of_singleton; by right|done|done].
    + by rewrite He, (right_id_L ∅ (∪)).
  - (* Something to exit: the scope is unrelated to the earlier ones. *)
    apply set_choose_L in He as [e He]. pose proof He as [HeC Hel]%HinE.
    assert (Hkl : known l) by exact (legal_known _ _ _ HC Hl).
    assert (Hun : ∀ l', l' ∈ ls → ¬ below l l' ∧ ¬ below l' l).
    { intros l' Hl'. destruct (Hls l' Hl') as (Hl'C & s & Hs & Hsl). pose proof (legal_known _ _ _ HC Hl'C) as Hkl'. split; intros Hb.
      - assert (s ∈ ee.1 ∩ X); [|set_solver]. apply elem_of_intersection. split; [|apply HX; eauto].
        apply HinE. split; [done|]. apply proper_iff in Hsl as [Hne Hsl]. apply proper_iff.
        assert (Hks : known s) by exact (legal_known _ _ _ HC Hs). split; [|by eapply below_trans].
        intros ->. apply Hne. by apply below_antisym.
      - assert (e ∈ ee.1 ∩ X); [|set_solver]. apply elem_of_intersection. split; [done|]. apply HX. split; [done|]. exists l'. split; [done|].
        apply proper_iff in Hel as [Hne Hel]. apply proper_iff. assert (Hke : known e) by exact (legal_known _ _ _ HC HeC).
        split; [|by eapply below_trans]. intros ->. apply Hne. by apply below_antisym. }
    assert (HlX : l ∈ C ∖ X).
    { apply elem_of_difference. split; [done|]. intros (_ & l' & Hl' & [_ Hb]%proper_iff)%HX. by apply (Hun l'). }
    exists (l :: ls), (N' ∪ ee.2), L. split_and!; [set_solver| | | | |].
    + intros s. rewrite elem_of_union, HX, HinE. setoid_rewrite elem_of_cons. naive_solver.
    + intros x [Hx|Hx]%elem_of_union; [destruct (HN x Hx) as (l' & ? & ?); exists l'; rewrite elem_of_cons; auto|].
      exists l. rewrite elem_of_cons. split; [by left|]. apply (lg_below _ _ _ Hent). set_solver.
    + intros l' [->|Hl']%elem_of_cons; [|by apply Hls]. split; [done|]. eauto.
    + intros x Hx. destruct (HL x Hx) as (? & c' & Hc' & ?). split; [done|]. exists c'. rewrite elem_of_app. auto.
    + replace (C ∖ (X ∪ ee.1) ∪ (N' ∪ ee.2))
        with (filter (λ s, isProperDescendant d s l = false) (C ∖ X ∪ N') ∪ ({[l]} ∪ ee.2)).
      { apply legal_replace; [done|by apply elem_of_union_l|done]. }
      apply set_eq. intros x. rewrite !elem_of_union, elem_of_filter, elem_of_union, !elem_of_difference, elem_of_union, elem_of_singleton, HinE.
      assert (HxN : x ∈ N' → isProperDescendant d x l = false).
      { intros Hx. destruct (HN x Hx) as (l' & Hl' & Hb). apply not_true_iff_false. intros [_ Hb']%proper_iff.
        assert (Hkx : known x) by (apply (legal_known _ _ _ Hleg); set_solver).
        destruct (Hun l' Hl'). by destruct (below_chain l l' x Hkx Hb' Hb). }
      assert (Hll : isProperDescendant d l l = false) by (apply not_true_iff_false; by intros [? _]%proper_iff).
      apply elem_of_difference in HlX as [_ HlX]. destruct (isProperDescendant d x l) eqn:Ex; [naive_solver congruence|].
      destruct (decide (x = l)) as [->|]; naive_solver.
Qed.

(** All the candidates of a pass, when every taken one is local. *)
Lemma pass_fold C hist cs st : hist_ok hist → legal d (root d) C → Forall (cand_ok C) cs →
  Forall cand_local (foldl (take_candidate d hist C) st cs).2 →
  (Forall cand_local st.2 → pass_inv C hist st) →
  pass_inv C hist (foldl (take_candidate d hist C) st cs).
Proof.
  intros Hh HC Hcs. revert st. induction Hcs as [|c cs Hc Hcs IH]; intros [[X N] taken] Hloc Hst; [by apply Hst|].
  cbn [foldl] in Hloc |- *. apply IH; [exact Hloc|]. clear IH Hloc. unfold take_candidate.
  destruct (computeExitEnter d hist (cand_source c) (cand_trans c) (cand_leaf c) C) as [E M] eqn:Ee. case_decide as Hd; [|done].
  cbn [snd]. intros [Hall Hlc]%Forall_app. rewrite Forall_singleton in Hlc.
  pose proof (pass_step C hist X N taken c Hh HC Hc Hlc (Hst Hall)) as Hp. cbv zeta in Hp. rewrite Ee in Hp. by apply Hp.
Qed.

(** ** One event *)

(** The step takes only local transitions, and none that exits nothing from a leaf
    another one exits. *)
Definition step_local (sc : StateChart) (event : string) (guards : gmap string bool) : Prop :=
  Forall (λ cand, cand_local cand ∧
    ((computeExitEnter d (history sc) (cand_source cand) (cand_trans cand) (cand_leaf cand) (configStates sc)).1 = ∅ →
     cand_leaf cand ∉ (resolve d sc event guards).1.1)) (resolve d sc event guards).2.

Record chart_inv (sc : StateChart) : Prop := {
  ci_legal : legal d (root d) (configStates sc);
  ci_hist : hist_ok (history sc);
  ci_cell : cell_value (config sc) = configKey (configStates sc);
}.

Lemma head_elem {A} (l : list A) (x : A) : head l = Some x → x ∈ l.
Proof. destruct l; [done|]. intros [= ->]. left. Qed.

Lemma enabledFor_ok event guards leaf cand : enabledFor d event guards leaf = Some cand →
  cand_leaf cand = leaf ∧ below (cand_source cand) leaf ∧
  (∃ sd, states d !! cand_source cand = Some sd ∧ sd_transitions sd !! event = Some (cand_trans cand)) ∧
  guardPasses (cand_trans cand) guards = true.
Proof.
  intros (anc & Hin & Hs)%head_elem%list_elem_of_omap. unfold mbind in Hs.
  destruct (states d !! anc) as [sd|] eqn:Ea; [|done]. simpl in Hs.
  destruct (sd_transitions sd !! event) as [t|] eqn:Et; [|done]. simpl in Hs.
  destruct (guardPasses t guards) eqn:Eg; [|done]. injection Hs as <-. simpl. split_and!; [done|done| |done]. exists sd. by rewrite Ea.
Qed.

Lemma sortedLeaves_elem C x : x ∈ sortedLeaves d C ↔ x ∈ C ∧ isLeaf (kind d x) = true.
Proof.
  unfold sortedLeaves, sort_strings. rewrite elem_of_sort_stable, list_elem_of_filter, elem_of_elements. tauto.
Qed.

Lemma ActiveLeaves_elem sc x : x ∈ ActiveLeaves d sc ↔ x ∈ sortedLeaves d (configStates sc).
Proof.
  rewrite sortedLeaves_elem. unfold ActiveLeaves, newConfiguration, sort_strings.
  rewrite elem_of_sort_stable, list_elem_of_filter, elem_of_sort_stable, elem_of_elements. tauto.
Qed.

Lemma candidates_ok sc event guards :
  Forall (cand_ok (configStates sc)) (sort_stable (candidateLess d) (omap (enabledFor d event guards) (sortedLeaves d (configStates sc)))).
Proof.
  rewrite Forall_forall. intros cand (leaf & Hl & He)%elem_of_sort_stable%list_elem_of_omap.
  apply enabledFor_ok in He as (<- & Hb & (sd & Hsd & Ht) & _). apply sortedLeaves_elem in Hl.
  split; [done|done|]. by eapply ro_target.
Qed.

Lemma resolve_inv sc event guards : chart_inv sc → step_local sc event guards →
  pass_inv (configStates sc) (history sc) (resolve d sc event guards).
Proof.
  intros [HC Hh _] Hloc. unfold resolve. apply pass_fold; [done|done|apply candidates_ok| |].
  - eapply Forall_impl; [exact Hloc|]. by intros cand [? _].
  - intros _. by apply pass_empty.
Qed.

Lemma Send_inv sc event guards : chart_inv sc → step_local sc event guards → chart_inv (Send d sc event guards).1.
Proof.
  intros Hsc Hloc. pose proof (resolve_inv sc event guards Hsc Hloc) as Hpass. unfold step_local in Hloc. pose proof Hsc as [HC Hh Hcell].
  unfold Send. destruct (resolve d sc event guards) as [[X N] taken] eqn:Er. destruct taken as [|c0 taken]; [done|].
  set (tk := c0 :: taken) in *. cbn [fst snd] in Hloc. destruct Hpass as (ls & N' & L & -> & HX & _ & _ & HL & Hleg).
  assert (Hnew : (configStates sc ∖ X) ∪ (N' ∪ L) = (configStates sc ∖ X) ∪ N').
  { apply set_eq. intros x. rewrite !elem_of_union. split; [|tauto]. intros [?|[?|Hx]]; [tauto..|]. left.
    destruct (HL x Hx) as (HxC & cand & Hcand & <- & Hempty). apply elem_of_difference. split; [done|].
    rewrite Forall_forall in Hloc. by apply (Hloc cand Hcand). }
  assert (Hhist : hist_ok (foldl (λ hist s, if decide (historyChildOf d s ≠ "") then recordRegion d hist s (historyChildOf d s) (configStates sc) else hist)
    (history sc) (elements X))).
  { apply hist_ok_fold; [done|done|]. intros s Hs%elem_of_elements. by apply HX in Hs as [? _]. }
  case_decide as Hkey; split; simpl; try done; rewrite Hnew in *; [done|].
  by rewrite Cell_Set_value.
Qed.

(** An event is accepted exactly when some active leaf has a transition for it. *)
Lemma resolve_taken hist C cs st : (st.1.1 = ∅ ∨ st.2 ≠ []) →
  (foldl (take_candidate d hist C) st cs).2 = [] ↔ st.2 = [] ∧ cs = [].
Proof.
  revert st. induction cs as [|cand cs IH]; intros [[X N] taken] Hst; [naive_solver|].
  cbn [foldl]. unfold take_candidate at 2. destruct (computeExitEnter _ _ _ _ _ _) as [E M]. simpl in Hst. case_decide as Hd.
  - rewrite IH; simpl; [|right; by destruct taken]. split; [|naive_solver]. intros [Ht _]. by destruct taken.
  - destruct Hst as [->|Hne]; [set_solver|]. rewrite IH; simpl; [|by right]. naive_solver.
Qed.

Lemma Send_accepts sc event guards :
  (Send d sc event guards).2 = true ↔ ∃ leaf, leaf ∈ ActiveLeaves d sc ∧ is_Some (enabledFor d event guards leaf).
Proof.
  assert (Hsend : (Send d sc event guards).2 = true ↔ (resolve d sc event guards).2 ≠ []).
  { unfold Send. destruct (resolve d sc event guards) as [[X N] [|c0 taken]]; [done|]. case_decide; done. }
  rewrite Hsend. unfold resolve. rewrite resolve_taken by (by left). cbn [snd].
  setoid_rewrite ActiveLeaves_elem. split.
  - intros Hne. destruct (omap (enabledFor d event guards) (sortedLeaves d (configStates sc))) as [|cand cs] eqn:Eo; [by destruct Hne|].
    assert (Hin : cand ∈ omap (enabledFor d event guards) (sortedLeaves d (configStates sc))) by (rewrite Eo; left).
    apply list_elem_of_omap in Hin as (leaf & ? & ?). eauto.
  - intros (leaf & Hl & cand & He) [_ Hnil].
    assert (Hin : cand ∈ sort_stable (candidateLess d) (omap (enabledFor d event guards) (sortedLeaves d (configStates sc)))).
    { apply elem_of_sort_stable, list_elem_of_omap. eauto. }
    rewrite Hnil in Hin. by apply not_elem_of_nil in Hin.
Qed.

Lemma Send_rejects sc event guards : (Send d sc event guards).2 = false →
  let sc' := (Send d sc event guards).1 in
  history sc' = history sc ∧ config sc' = config sc ∧ configStates sc' = configStates sc ∧ lastActions sc' = [].
Proof.
  unfold Send. destruct (resolve d sc event guards) as [[X N] [|c0 taken]]; [done|]. case_decide; done.
Qed.

Lemma NewStateChart_inv : chart_inv (NewStateChart d).
Proof.
  unfold NewStateChart. destruct (enterSubtree_spec (root d) (∅, []) known_root (proj1 (to_root d Htree))) as (T & HT & Hl).
  destruct (enterSubtree d (root d) (∅, [])) as [E acts]. simpl in HT. rewrite (right_id_L ∅ (∪)) in HT. subst E.
  split; simpl; [done| |done]. apply map_Forall_empty.
Qed.

(** ** Charts without parallel states *)

Definition no_parallel : Prop := ∀ x, kind d x ≠ kindParallel.

Lemma sequential_comparable C x y : no_parallel → legal d (root d) C → x ∈ C → y ∈ C → below x y ∨ below y x.
Proof.
  intros Hnp HC Hx Hy. pose proof (legal_known _ _ _ HC Hx) as Hkx. pose proof (legal_known _ _ _ HC Hy) as Hky.
  revert y Hky Hy. apply (up_ind (λ y, y ∈ C → below x y ∨ below y x)).
  { intros _. right. by apply below_root. }
  intros y Hky Hr IH Hy. destruct (lg_up _ _ _ HC y Hy) as [?|[_ Hp]]; [done|].
  destruct (IH Hp) as [Hb|Hb]; [left; apply below_step; auto|].
  destruct (decide (x = parent y)) as [->|Hne]; [left; apply below_step; [done|]; right; split; [done|apply below_refl; by apply known_parent]|].
  right. (* the child of [parent y] above [x] is active, hence is [y] *)
  assert (Hc : ∃ z, below z x ∧ z ≠ root d ∧ parent z = parent y).
  { clear IH Hy Hky Hr. revert x Hkx Hx Hb Hne. apply (up_ind (λ x, x ∈ C → below (parent y) x → x ≠ parent y →
      ∃ z, below z x ∧ z ≠ root d ∧ parent z = parent y)).
    - intros _ Hb Hne. by apply below_step in Hb as [?|[? _]]; [|done|apply known_root].
    - intros x Hkx Hr IH Hx Hb Hne. destruct (decide (parent x = parent y)) as [He|He].
      { exists x. split_and!; [by apply below_refl|done|done]. }
      destruct (below_up _ x Hkx Hb ltac:(congruence)) as [_ Hb']. destruct (lg_up _ _ _ HC x Hx) as [?|[_ Hpx]]; [done|].
      destruct (IH Hpx Hb' He) as (z & Hz & ? & ?). exists z. split_and!; [|done|done]. apply below_step; auto. }
  destruct Hc as (z & Hzx & Hzr & Hzp). assert (HzC : z ∈ C).
  { apply (legal_closed (root d) C x); [done|done|done|]. apply below_root. exact (below_known _ _ Hkx Hzx). }
  assert (Hpk : kind d (parent y) = kindCompound) by (destruct (parent_kind y Hky Hr) as [?|[? _]]; [done|by destruct (Hnp (parent y))]).
  destruct (lg_compound _ _ _ HC _ Hp Hpk) as (c & _ & _ & Hu). by rewrite (Hu y Hy eq_refl), <-(Hu z HzC Hzp).
Qed.

Lemma sequential_leaf_unique C x y : no_parallel → legal d (root d) C → x ∈ C → y ∈ C →
  isLeaf (kind d x) = true → below y x.
Proof.
  intros Hnp HC Hx Hy Hl. destruct (sequential_comparable C x y Hnp HC Hx Hy) as [Hb|Hb]; [|done].
  rewrite (leaf_below x y); [|by eapply legal_known|done|done]. apply below_refl. by eapply legal_known.
Qed.

(** Some active state is a leaf. *)
Lemma sequential_leaf_exists C : no_parallel → legal d (root d) C → ∃ x, x ∈ C ∧ isLeaf (kind d x) = true.
Proof.
  intros Hnp HC.
  assert (Hdown : ∀ n x, x ∈ C → size (states d) ≤ n + depth d x → ∃ y, y ∈ C ∧ isLeaf (kind d y) = true).
  { induction n as [|n IH]; intros x Hx Hn; pose proof (legal_known _ _ _ HC Hx) as Hkx; [pose proof (depth_bound x Hkx); lia|].
    destruct (kind d x) eqn:Hk.
    - exists x. split; [done|]. by rewrite Hk.
    - destruct (lg_compound _ _ _ HC x Hx Hk) as (c & Hc & Hp & _). apply (IH c Hc).
      destruct (child_ne x c (legal_known _ _ _ HC Hc) Hp (known_ne x Hkx)) as (_ & -> & _). lia.
    - by destruct (Hnp x).
    - exists x. split; [done|]. by rewrite Hk.
    - pose proof (proj2 (lg_known _ _ _ HC x Hx)) as Hh. by rewrite Hk in Hh.
    - pose proof (proj2 (lg_known _ _ _ HC x Hx)) as Hh. by rewrite Hk in Hh. }
  apply (Hdown (size (states d)) (root d)); [apply HC|lia].
Qed.

Lemma all_equal_singleton {A} (l : list A) (x : A) : NoDup l → x ∈ l → (∀ y, y ∈ l → y = x) → l = [x].
Proof.
  intros Hnd Hx Hall. destruct l as [|a [|b l]]; [by apply not_elem_of_nil in Hx|by rewrite (Hall a); [|left]|].
  exfalso. apply NoDup_cons in Hnd as [Hna _]. apply Hna. rewrite (Hall a), (Hall b); [left|right; left|left].
Qed.

Lemma sequential_leaf C : no_parallel → legal d (root d) C →
  ∃ x, x ∈ C ∧ sortedLeaves d C = [x] ∧ ∀ s, s ∈ C ↔ below s x.
Proof.
  intros Hnp HC. destruct (sequential_leaf_exists C Hnp HC) as (x & Hx & Hl). exists x. pose proof (legal_known _ _ _ HC Hx) as Hkx.
  split_and!; [done| |].
  - apply all_equal_singleton.
    + unfold sortedLeaves, sort_strings. rewrite sort_stable_perm. apply NoDup_filter, NoDup_elements.
    + by apply sortedLeaves_elem.
    + intros y [Hy Hly]%sortedLeaves_elem. apply leaf_below; [by eapply legal_known|done|]. by apply (sequential_leaf_unique C).
  - intros s. split; [intros Hs; by apply (sequential_leaf_unique C)|]. intros Hb.
    apply (legal_closed (root d) C x); [done|done|done|]. apply below_root. by eapply below_known.
Qed.

Lemma sequential_local sc event guards : no_parallel → chart_inv sc → step_local sc event guards.
Proof.
  intros Hnp [HC _ _]. destruct (sequential_leaf _ Hnp HC) as (x & _ & Hx & _). unfold step_local, resolve. rewrite Hx. simpl.
  destruct (enabledFor d event guards x) as [cand|]; [|constructor]. cbn [omap list_omap sort_stable foldr insert_stable foldl]. unfold take_candidate.
  destruct (computeExitEnter _ _ _ _ _ _) as [E M] eqn:Ee. rewrite decide_True by set_solver. cbn [fst snd app]. rewrite Forall_singleton. apply (f_equal fst) in Ee. simpl in Ee. rewrite Ee.
  split; [|set_solver]. apply Forall_forall. intros y _. apply Hnp.
Qed.
End tree.

(** ** Running a chart *)

Section run.
Context (d : ChartDef).

(** The chart after a list of events, each with its guard environment. *)
Definition run_chart (evs : list (string * gmap string bool)) : StateChart :=
  foldl (λ sc ev, (Send d sc ev.1 ev.2).1) (NewStateChart d) evs.

(** Every step of a run is local. *)
Fixpoint all_local (sc : StateChart) (evs : list (string * gmap string bool)) : Prop :=
  match evs with
  | [] => True
  | ev :: evs => step_local d sc ev.1 ev.2 ∧ all_local (Send d sc ev.1 ev.2).1 evs
  end.

#[export] Instance cand_local_dec cand : Decision (cand_local d cand).
Proof. unfold cand_local, path_local. apply _. Defined.
#[export] Instance step_local_dec sc event guards : Decision (step_local d sc event guards).
Proof. unfold step_local. apply _. Defined.
#[export] Instance all_local_dec sc evs : Decision (all_local sc evs).
Proof.
  revert sc. induction evs as [|ev evs IH]; intros sc; simpl; [apply _|]. specialize (IH (Send d sc ev.1 ev.2).1). apply _.
Defined.

Lemma run_chart_inv sc evs : refs_ok d → tree_ok d → chart_inv d sc → no_parallel d ∨ all_local sc evs →
  chart_inv d (foldl (λ sc ev, (Send d sc ev.1 ev.2).1) sc evs).
Proof.
  intros Hr Ht. revert sc. induction evs as [|ev evs IH]; intros sc Hsc Hloc; [done|]. cbn [foldl]. apply IH.
  - apply Send_inv; [done..|]. destruct Hloc as [Hnp|[? _]]; [by apply sequential_local|done].
  - destruct Hloc as [?|[_ ?]]; [by left|by right].
Qed.

Lemma tree_ok_check :
  states d !! "" = None →
  isHistory (kind d (root d)) = false ∧ depth d (root d) = 0 →
  map_Forall (λ id sd,
    (id ≠ root d →
      (kind d (sd_parent sd) = kindCompound ∨ kind d (sd_parent sd) = kindParallel ∧ isHistory (sd_kind sd) = false) ∧
      depth d id = S (depth d (sd_parent sd))) ∧
    (sd_kind sd = kindCompound → parentOf d (sd_initial sd) = id ∧ isHistory (kind d (sd_initial sd)) = false) ∧
    (sd_default sd ≠ "" → parentOf d (sd_default sd) = sd_parent sd ∧ isHistory (kind d (sd_default sd)) = false)) (states d) →
  tree_ok d.
Proof. intros H1 H2 H3. split; [done|done|..]; intros id sd Hsd; apply (H3 id sd Hsd). Qed.
End run.

(** C11: a chart stays in a legal configuration.  Take an accepted document that is
    also a statechart tree, which validation does not check: the parent field is
    acyclic, children are only below compound and parallel states, history states
    only below compound ones, initials and defaults name a child that is no history
    state (a sibling of the history state, for a default), and no state is called by
    the empty name; and any list of events with any guards.  If the chart has no parallel state, or
    every transition taken is local to its region, then after every event the
    active set contains the root, is closed under parents, has exactly one active
    child below a compound state, every child below a parallel one and no history
    pseudo-state; the cell holds the key of that set; an event is accepted exactly
    when an active leaf has an enabled transition, and a rejected one changes
    nothing but the action trace.  Without parallel states exactly one leaf is
    active and the configuration is its chain of ancestors. *)
Theorem StateChart_stays_legal initial_raw states_raw d evs :
  ChartDefFromJSON initial_raw states_raw = ok d → tree_ok d →
  no_parallel d ∨ all_local d (NewStateChart d) evs →
  let sc := run_chart d evs in
  legal d (root d) (configStates sc) ∧
  cell_value (config sc) = configKey (configStates sc) ∧
  (∀ event guards,
    ((Send d sc event guards).2 = true ↔ ∃ leaf, leaf ∈ ActiveLeaves d sc ∧ is_Some (enabledFor d event guards leaf)) ∧
    ((Send d sc event guards).2 = false →
      let sc' := (Send d sc event guards).1 in
      history sc' = history sc ∧ config sc' = config sc ∧ configStates sc' = configStates sc ∧ lastActions sc' = [])) ∧
  (no_parallel d → ∃ leaf, ActiveLeaves d sc = [leaf] ∧ ∀ s, Matches sc s = true ↔ s ∈ ancestorsInclusive d leaf).
Proof.
  intros Hp Ht Hloc sc. pose proof (ChartDefFromJSON_refs _ _ _ Hp) as Hr.
  destruct (run_chart_inv d (NewStateChart d) evs Hr Ht (NewStateChart_inv d Hr Ht) Hloc) as [HC _ Hcell]. fold (run_chart d evs) sc in HC, Hcell.
  split_and!; [done|done|intros event guards; split; [exact (Send_accepts d Hr Ht sc event guards)|exact (Send_rejects d sc event guards)]|].
  intros Hnp. destruct (sequential_leaf d Hr Ht _ Hnp HC) as (x & _ & Hx & Hall). exists x. split.
  - apply all_equal_singleton.
    + unfold ActiveLeaves, newConfiguration, sort_strings. rewrite sort_stable_perm. apply NoDup_filter. rewrite sort_stable_perm. apply NoDup_elements.
    + apply ActiveLeaves_elem. rewrite Hx. left.
    + intros y Hy%ActiveLeaves_elem. rewrite Hx in Hy. by apply list_elem_of_singleton in Hy.
  - intros s. rewrite <-Hall. unfold Matches, newConfiguration, sort_strings. rewrite bool_decide_eq_true, elem_of_sort_stable. apply elem_of_elements.
Qed.

(** A player: two parallel regions inside a region with a deep history. *)
Definition leaf_state (parent : string) (on : list (string * json)) : json := JObj [("parent", JStr parent); ("on", JObj on)].
Definition player_doc : json := JObj [
  ("player", JObj [("initial", JStr "off")]);
  ("off", leaf_state "player" [("start", JStr "main"); ("resume", JStr "last")]);
  ("main", JObj [("parent", JStr "player"); ("initial", JStr "work"); ("on", JObj [("stop", JStr "off")])]);
  ("last", JObj [("parent", JStr "main"); ("history", JStr "deep")]);
  ("work", JObj [("parent", JStr "main"); ("parallel", JBool true)]);
  ("audio", JObj [("parent", JStr "work"); ("initial", JStr "a1"); ("on", JObj [("flip", JStr "video")])]);
  ("a1", leaf_state "audio" [("next", JStr "a2"); ("skip", JStr "a2")]);
  ("a2", leaf_state "audio" [("hop", JStr "a2")]);
  ("video", JObj [("parent", JStr "work"); ("initial", JStr "v1")]);
  ("v1", leaf_state "video" [("next", JStr "v2"); ("hop", JStr "off")]);
  ("v2", leaf_state "video" [])].
Definition player : ChartDef :=
  match ChartDefFromJSON (Some (JStr "player")) (Some player_doc) with inl d => d | inr _ => mkChartDef ∅ ∅ ∅ ∅ "" end.

Lemma player_parsed : ChartDefFromJSON (Some (JStr "player")) (Some player_doc) = ok player.
Proof. vm_compute. reflexivity. Qed.

Lemma player_tree : tree_ok player.
Proof. apply tree_ok_check; [by vm_compute|by vm_compute|]. apply (bool_decide_unpack _). by vm_compute. Qed.

(** Stopping and resuming restores both regions; every step there is local. *)
Lemma StateChart_stays_legal_witness :
  let evs := [("start", ∅); ("next", ∅); ("stop", ∅); ("resume", ∅)] in
  let sc := run_chart player evs in
  legal player "player" (configStates sc) ∧
  newConfiguration (configStates sc) = ["a2"; "audio"; "main"; "player"; "v2"; "video"; "work"] ∧
  (Send player sc "stop" ∅).2 = true.
Proof.
  intros evs sc. destruct (StateChart_stays_legal _ _ player evs player_parsed player_tree) as (HC & _ & Hsend & _).
  { right. apply (bool_decide_unpack _). by vm_compute. }
  split_and!; [exact HC|by vm_compute|]. apply Hsend. exists "v2". split; [apply (bool_decide_unpack _); by vm_compute|].
  eexists. vm_compute. reflexivity.
Defined.

(** The tree conditions are needed: validation accepts a history state below a
    parallel one, and a fresh chart then activates the pseudo-state as a region. *)
Lemma history_region_is_activated :
  let doc := JObj [("p", JObj [("parallel", JBool true)]); ("a", JObj [("parent", JStr "p")]);
                   ("h", JObj [("parent", JStr "p"); ("history", JStr "shallow")])] in
  ∃ d, ChartDefFromJSON (Some (JStr "p")) (Some doc) = ok d ∧
    newConfiguration (configStates (NewStateChart d)) = ["a"; "h"; "p"] ∧ isHistory (kind d "h") = true.
Proof. eexists. split; [vm_compute; reflexivity|]. split; vm_compute; reflexivity. Qed.

(** The locality condition is needed: a transition from one parallel region to a
    sibling leaves its own region without an active state, ... *)
Lemma crossing_transition_drops_region :
  newConfiguration (configStates (run_chart player [("start", ∅); ("flip", ∅)])) = ["main"; "player"; "v1"; "video"; "work"].
Proof. by vm_compute. Qed.

(** ... and a self-transition, which exits nothing, never conflicts with the
    transition of another region that leaves the parallel state. *)
Lemma self_transition_survives_exit :
  newConfiguration (configStates (run_chart player [("start", ∅); ("skip", ∅); ("hop", ∅)])) = ["a2"; "off"; "player"].
Proof. by vm_compute. Qed.
