(* ===== verification/Relay.v ===== *)
(** * Relay: merge policies and the conflating relay (merge.go, relay.go)

    A relay folds a fast ingress into one value under a merge policy, bounds the
    window with a backpressure policy and hands coalesced windows to a slow
    egress; spilled windows go to pages that are replayed until acknowledged. *)

From S2P Require Import Prelude.

(** ** Merge policies *)

(** [merge.go] [type MergePolicy] *)
Record MergePolicy (T : Type) := mkPolicy {
  Name : string; Merge : T → T → T; Commutative : bool; Idempotent : bool; Conflates : bool }.
Arguments mkPolicy {T}.
Arguments Name {T}.
Arguments Merge {T}.
Arguments Commutative {T}.
Arguments Idempotent {T}.
Arguments Conflates {T}.

(** [merge.go] [KeepLatest] *)
Definition KeepLatest {T} : MergePolicy T := mkPolicy "KeepLatest" (λ _ op, op) false true true.
(** [Sum] at [int64].
    [merge.go] [Sum] *)
Definition Sum : MergePolicy Z := mkPolicy "Sum" (λ a b, a +ₛ b) true false true.
(** [Max] at an integer type.
    [merge.go] [Max] *)
Definition Max : MergePolicy Z := mkPolicy "Max" (λ a b, if (a <? b)%Z then b else a) true true true.
(** [merge.go] [SetUnion] *)
Definition SetUnion {E} `{Countable E} : MergePolicy (gset E) := mkPolicy "SetUnion" (λ old op, old ∪ op) true true true.
(** [merge.go] [RawFifo] *)
Definition RawFifo {E} : MergePolicy (list E) := mkPolicy "RawFifo" (λ old op, old ++ op) false false false.

(** What a policy must satisfy: associativity always, the rest as flagged. *)
Record policy_ok {T} (wf : T → Prop) (m : MergePolicy T) : Prop := {
  po_assoc a b c : Merge m (Merge m a b) c = Merge m a (Merge m b c);
  po_comm a b : Commutative m = true → Merge m a b = Merge m b a;
  po_idem a : Idempotent m = true → wf a → Merge m a a = a;
}.

Lemma KeepLatest_ok {T} : policy_ok (λ _ : T, True) KeepLatest.
Proof. by split. Qed.
Lemma Sum_ok : policy_ok (λ _, True) Sum.
Proof.
  split; simpl; [|intros; by rewrite Z.add_comm|done]. intros. rewrite i64_add_l, i64_add_r. f_equal. lia.
Qed.
Lemma Max_ok : policy_ok (λ _, True) Max.
Proof.
  assert (Hm : ∀ a b, Merge Max a b = Z.max a b) by (intros a b; simpl; destruct (Z.ltb_spec a b); lia).
  split; intros; rewrite ?Hm; lia.
Qed.
Lemma SetUnion_ok {E} `{Countable E} : policy_ok (λ _ : gset E, True) SetUnion.
Proof. split; simpl; intros; set_solver. Qed.
Lemma RawFifo_ok {E} : policy_ok (λ _ : list E, True) RawFifo.
Proof. split; simpl; intros; [by rewrite app_assoc|done|done]. Qed.

(** The flags that are off are off for a reason. *)
Lemma flags_needed : Merge KeepLatest 1%Z 2%Z ≠ Merge KeepLatest 2%Z 1%Z ∧ Merge Sum 1%Z 1%Z ≠ 1%Z ∧
  Merge RawFifo [1] [2] ≠ Merge RawFifo [2] [1] ∧ Merge RawFifo [1] [1] ≠ [1].
Proof. done. Qed.

(** ** Relay *)

(** [relay.go] [lines 27-34 BoundDim] *)
Inductive BoundDim := BoundCount | BoundBytes | BoundKeys | BoundAge.
(** [relay.go] [lines 37-53 Overflow] *)
Inductive Overflow := OverflowBlock | OverflowDropNewest | OverflowDropOldest | OverflowConflate | OverflowSpill.
(** [relay.go] [lines 65-76 IngressOutcome] *)
Inductive IngressOutcome := IngressAccepted | IngressConflated | IngressDropped | IngressBlocked.
#[export] Instance BoundDim_eq_dec : EqDecision BoundDim.
Proof. solve_decision. Defined.
#[export] Instance Overflow_eq_dec : EqDecision Overflow.
Proof. solve_decision. Defined.
#[export] Instance IngressOutcome_eq_dec : EqDecision IngressOutcome.
Proof. solve_decision. Defined.

(** [relay.go] [type BackpressurePolicy] *)
Record BackpressurePolicy := mkBackpressure {
  Dimension : Cell BoundDim; HighWater : Cell Z; LowWater : Cell Z; overflow : Cell Overflow }.
(** [relay.go] [NewBackpressurePolicy] *)
Definition NewBackpressurePolicy (dimension : BoundDim) (highWater lowWater : Z) (o : Overflow) : BackpressurePolicy :=
  mkBackpressure (NewCell dimension) (NewCell highWater) (NewCell lowWater) (NewCell o).

Section relay.
Context {T : Type} `{EqDecision T}.
Implicit Types (m : MergePolicy T) (x op : T).

(** The hot head is [None] for an empty window.
    [relay.go] [type RelayCell] [type headOpt] *)
Record RelayCell := mkRelay { policy : BackpressurePolicy; merge : MergePolicy T; head : Cell (option T); pending : Cell Z }.

(** [None] is [ErrConflateNotBounding].
    [relay.go] [NewRelayCell] *)
Definition NewRelayCell (p : BackpressurePolicy) m : option RelayCell :=
  if bool_decide (cell_value (overflow p) = OverflowConflate) && negb (Conflates m) then None
  else Some (mkRelay p m (NewCell None) (NewCell 0%Z)).

(** [relay.go] [RelayCell.OverflowIsLegal] *)
Definition OverflowIsLegal (r : RelayCell) : bool :=
  negb (bool_decide (cell_value (overflow (policy r)) = OverflowConflate)) || Conflates (merge r).
(** [relay.go] [RelayCell.Depth] *)
Definition Depth (r : RelayCell) : Z := cell_value (pending r).
(** [relay.go] [RelayCell.IsFull] *)
Definition IsFull (r : RelayCell) : bool := (cell_value (HighWater (policy r)) <=? Depth r)%Z.
(** [relay.go] [RelayCell.IsEmpty] *)
Definition IsEmpty (r : RelayCell) : bool := bool_decide (cell_value (head r) = None).
(** [relay.go] [RelayCell.readFull] *)
Definition readFull (r : RelayCell) : bool := (cell_value (HighWater (policy r)) <=? cell_value (pending r))%Z.

Definition with_window (h : option T) (n : Z) (r : RelayCell) : RelayCell :=
  mkRelay (policy r) (merge r) (Cell_Set (head r) h) (Cell_Set (pending r) n).

(** [relay.go] [RelayCell.mergeIntoHead] *)
Definition mergeIntoHead (r : RelayCell) op : option T :=
  Some match cell_value (head r) with Some cur => Merge (merge r) cur op | None => op end.

(** [relay.go] [RelayCell.Ingress] *)
Definition Ingress (r : RelayCell) op : RelayCell * IngressOutcome :=
  let wasEmpty := (cell_value (pending r) =? 0)%Z in
  let push := (with_window (mergeIntoHead r op) (cell_value (pending r) +ᵤ 1) r,
               if wasEmpty then IngressAccepted else IngressConflated) in
  if readFull r then
    match cell_value (overflow (policy r)) with
    | OverflowBlock => (r, IngressBlocked)
    | OverflowDropNewest => (r, IngressDropped)
    | OverflowDropOldest => (with_window (Some op) 1 r, IngressDropped)
    | OverflowConflate | OverflowSpill => push
    end
  else push.

(** [relay.go] [RelayCell.Drain] *)
Definition Drain (r : RelayCell) : RelayCell * option T :=
  match cell_value (head r) with
  | Some v => (with_window None 0 r, Some v)
  | None => (r, None)
  end.
(** [relay.go] [RelayCell.Peek] *)
Definition Peek (r : RelayCell) : option T := cell_value (head r).

(** ** Spill store *)

(** [relay.go] [lines 234-245 SpillMode] *)
Inductive SpillMode := SpillCompactOnWrite | SpillAppendCompact.
(** [relay.go] [type SpillPage] *)
Record SpillPage := mkPage { ID : Z; Summary : T; Bytes : Z }.
(** [relay.go] [type SpillStore] *)
Record SpillStore := mkSpill {
  s_merge : MergePolicy T; mode : SpillMode; pageSize : Z; pages : list SpillPage; openFill : Z; nextID : Z; acked : nat }.

(** [relay.go] [NewSpillStore] *)
Definition NewSpillStore (md : SpillMode) (size : Z) m : SpillStore :=
  mkSpill m md (if decide (size < 1)%Z then 1%Z else size) [] 0 0 0.

(** [relay.go] [SpillStore.pushPage] *)
Definition pushPage (s : SpillStore) (summary : T) (bytes : Z) : SpillStore :=
  mkSpill (s_merge s) (mode s) (pageSize s) (pages s ++ [mkPage (nextID s) summary bytes]) (openFill s) (nextID s +ᵤ 1) (acked s).

Definition with_fill (n : Z) (s : SpillStore) : SpillStore :=
  mkSpill (s_merge s) (mode s) (pageSize s) (pages s) n (nextID s) (acked s).

(** [relay.go] [SpillStore.Spill] *)
Definition Spill (s : SpillStore) (window : T) (bytes : Z) : SpillStore :=
  match mode s with
  | SpillAppendCompact => pushPage s window bytes
  | SpillCompactOnWrite =>
      match last (pages s) with
      | Some p =>
          if (pageSize s <=? openFill s)%Z then with_fill 1 (pushPage s window bytes)
          else
            let p' := mkPage (ID p) (Merge (s_merge s) (Summary p) window) (Bytes p +ᵤ bytes) in
            mkSpill (s_merge s) (mode s) (pageSize s) (<[length (pages s) - 1 := p']> (pages s))
              (openFill s +ᵤ 1) (nextID s) (acked s)
      | None => with_fill 1 (pushPage s window bytes)
      end
  end.

(** [relay.go] [SpillStore.Manifest] *)
Definition Manifest (s : SpillStore) : list (Z * Z) := (λ p, (ID p, Bytes p)) <$> pages s.
(** [relay.go] [SpillStore.PendingPages] *)
Definition PendingPages (s : SpillStore) : list SpillPage := drop (acked s) (pages s).
(** [relay.go] [SpillStore.PageCount] *)
Definition PageCount (s : SpillStore) : nat := length (pages s).

(** The cursor moves over the pages with ids up to [id].
    [relay.go] [lines 326-328 SpillStore.AckThrough] *)
Fixpoint ack_scan (l : list SpillPage) (id : Z) (n : nat) : nat :=
  match l with
  | p :: l => if (ID p <=? id)%Z then ack_scan l id (S n) else n
  | [] => n
  end.
(** [relay.go] [SpillStore.AckThrough] *)
Definition AckThrough (s : SpillStore) (id : Z) : SpillStore :=
  mkSpill (s_merge s) (mode s) (pageSize s) (pages s) (openFill s) (nextID s) (ack_scan (drop (acked s) (pages s)) id (acked s)).

(** [relay.go] [SpillStore.Reclaim] *)
Definition Reclaim (s : SpillStore) : SpillStore :=
  mkSpill (s_merge s) (mode s) (pageSize s) (drop (acked s) (pages s)) (openFill s) (nextID s) 0.

(** [relay.go] [SpillStore.FoldPages] *)
Definition FoldPages (s : SpillStore) (s0 : T) : T := foldl (λ acc p, Merge (s_merge s) acc (Summary p)) s0 (pages s).
(** [relay.go] [SpillStore.Reconstruct] *)
Definition Reconstruct (s : SpillStore) (s0 : T) (hot : option T) : T :=
  let cold := FoldPages s s0 in
  match hot with Some h => Merge (s_merge s) cold h | None => cold end.
(** [relay.go] [SpillStore.ReplayUnacked] *)
Definition ReplayUnacked (s : SpillStore) (downstream : T) : T :=
  foldl (λ acc p, Merge (s_merge s) acc (Summary p)) downstream (PendingPages s).
End relay.
Arguments RelayCell : clear implicits.
Arguments SpillStore : clear implicits.
Arguments SpillPage : clear implicits.

(** ** Folding windows *)

Section folds.
Context {T : Type} (m : T → T → T) (assoc : ∀ a b c, m (m a b) c = m a (m b c)).

(** The coalesced value of a window. *)
Definition coalesce (l : list T) : option T := match l with [] => None | x :: l => Some (foldl m x l) end.
(** The egress applies a window, if there was one. *)
Definition apply_window (s0 : T) (w : option T) : T := match w with Some v => m s0 v | None => s0 end.

Lemma foldl_out a b l : foldl m (m a b) l = m a (foldl m b l).
Proof. revert b. induction l as [|x l IH]; intros b; simpl; [done|]. by rewrite assoc, IH. Qed.

Lemma apply_coalesce s0 l : apply_window s0 (coalesce l) = foldl m s0 l.
Proof. destruct l as [|x l]; simpl; [done|]. by rewrite foldl_out. Qed.

(** Applying coalesced windows one by one is applying every operation. *)
Lemma apply_windows s0 (ws : list (list T)) : foldl apply_window s0 (coalesce <$> ws) = foldl m s0 (concat ws).
Proof.
  revert s0. induction ws as [|w ws IH]; intros s0; csimpl; [done|]. by rewrite IH, apply_coalesce, foldl_app.
Qed.

Lemma coalesce_snoc l x : coalesce (l ++ [x]) = Some match coalesce l with Some v => m v x | None => x end.
Proof. destruct l as [|y l]; simpl; [done|]. by rewrite foldl_app. Qed.

Lemma coalesce_None l : coalesce l = None ↔ l = [].
Proof. by destruct l. Qed.
End folds.

(** ** The relay as a bounded window *)

(** What a relay promises: a list of operations not yet drained, bounded by a
    high-water mark and an overflow policy. *)
Section relay_spec.
Context {T : Type} `{EqDecision T}.
Implicit Types (x : T).

Record window := mkWindow { w_high : Z; w_over : Overflow; w_ops : list T }.

Definition w_ingress (w : window) x : window * IngressOutcome :=
  let push := (mkWindow (w_high w) (w_over w) (w_ops w ++ [x]),
               if decide (w_ops w = []) then IngressAccepted else IngressConflated) in
  if decide (w_high w ≤ Z.of_nat (length (w_ops w)))%Z then
    match w_over w with
    | OverflowBlock => (w, IngressBlocked)
    | OverflowDropNewest => (w, IngressDropped)
    | OverflowDropOldest => (mkWindow (w_high w) (w_over w) [x], IngressDropped)
    | OverflowConflate | OverflowSpill => push
    end
  else push.

Inductive relay_op := OpIngress (x : T) | OpDrain | OpOverflow (o : Overflow) | OpHighWater (n : Z).
Inductive relay_obs := ObsIngress (o : IngressOutcome) | ObsDrain (w : option T) | ObsNone.

Definition set_policy (f : BackpressurePolicy → BackpressurePolicy) (r : RelayCell T) : RelayCell T :=
  mkRelay (f (policy r)) (merge r) (head r) (pending r).

(** One call on the relay; the policy cells are retuned live. *)
Definition relay_step (r : RelayCell T) (op : relay_op) : RelayCell T * relay_obs :=
  match op with
  | OpIngress x => let '(r, o) := Ingress r x in (r, ObsIngress o)
  | OpDrain => let '(r, w) := Drain r in (r, ObsDrain w)
  | OpOverflow o => (set_policy (λ p, mkBackpressure (Dimension p) (HighWater p) (LowWater p) (Cell_Set (overflow p) o)) r, ObsNone)
  | OpHighWater n => (set_policy (λ p, mkBackpressure (Dimension p) (Cell_Set (HighWater p) n) (LowWater p) (overflow p)) r, ObsNone)
  end.

Definition w_step (m : T → T → T) (w : window) (op : relay_op) : window * relay_obs :=
  match op with
  | OpIngress x => let '(w, o) := w_ingress w x in (w, ObsIngress o)
  | OpDrain => (mkWindow (w_high w) (w_over w) [], ObsDrain (coalesce m (w_ops w)))
  | OpOverflow o => (mkWindow (w_high w) o (w_ops w), ObsNone)
  | OpHighWater n => (mkWindow n (w_over w) (w_ops w), ObsNone)
  end.

Fixpoint run_ops {St} (step : St → relay_op → St * relay_obs) (s : St) (ops : list relay_op) : St * list relay_obs :=
  match ops with
  | [] => (s, [])
  | op :: ops => let '(s, o) := step s op in let '(s, os) := run_ops step s ops in (s, o :: os)
  end.

Record relay_refines (r : RelayCell T) (w : window) : Prop := {
  rr_high : cell_value (HighWater (policy r)) = w_high w;
  rr_over : cell_value (overflow (policy r)) = w_over w;
  rr_head : cell_value (head r) = coalesce (Merge (merge r)) (w_ops w);
  rr_pending : cell_value (pending r) = Z.of_nat (length (w_ops w));
}.

Lemma relay_step_refines r w op : relay_refines r w → (Z.of_nat (length (w_ops w)) + 1 < two64)%Z →
  relay_refines (relay_step r op).1 (w_step (Merge (merge r)) w op).1 ∧
  (relay_step r op).2 = (w_step (Merge (merge r)) w op).2 ∧ merge (relay_step r op).1 = merge r ∧
  length (w_ops (w_step (Merge (merge r)) w op).1) ≤ S (length (w_ops w)).
Proof.
  intros Hr Hb. pose proof Hr as [Hh Ho Hhd Hp]. destruct op as [x| |o|n]; simpl.
  - assert (Hpush : relay_refines (with_window (mergeIntoHead r x) (cell_value (pending r) +ᵤ 1) r)
      (mkWindow (w_high w) (w_over w) (w_ops w ++ [x]))).
    { split; simpl; [done|done| |].
      - rewrite Cell_Set_value, coalesce_snoc. unfold mergeIntoHead. by rewrite Hhd.
      - rewrite Cell_Set_value, Hp, length_app, u64_small by zrange. simpl. lia. }
    assert (Hempty : (cell_value (pending r) =? 0)%Z = bool_decide (w_ops w = [])).
    { rewrite Hp. destruct (w_ops w); [done|]. by apply Z.eqb_neq. }
    unfold Ingress, w_ingress, readFull. rewrite Hh, Ho, Hempty.
    assert (Hfull : (w_high w <=? cell_value (pending r))%Z = bool_decide (w_high w ≤ Z.of_nat (length (w_ops w)))%Z).
    { rewrite Hp. destruct (Z.leb_spec (w_high w) (Z.of_nat (length (w_ops w)))); symmetry; [by apply bool_decide_eq_true|apply bool_decide_eq_false; lia]. }
    rewrite Hfull. case_bool_decide as Hf; [rewrite decide_True by done|rewrite decide_False by done].
    + destruct (w_over w); simpl; rewrite ?length_app; simpl; split_and!; try done; try lia.
      * split; simpl; [done|done|by rewrite Cell_Set_value|by rewrite Cell_Set_value].
      * by case_bool_decide; case_decide.
      * by case_bool_decide; case_decide.
    + simpl. rewrite length_app. simpl. split_and!; [done| |done|lia]. by case_bool_decide; case_decide.
  - unfold Drain. rewrite Hhd. destruct (w_ops w) as [|y l] eqn:El; simpl; split_and!; try done; try lia.
    split; simpl; [done|done|by rewrite Cell_Set_value|by rewrite Cell_Set_value].
  - split_and!; [|done|done|lia]. split; simpl; [done|by rewrite Cell_Set_value|done|done].
  - split_and!; [|done|done|lia]. split; simpl; [by rewrite Cell_Set_value|done|done|done].
Qed.

Lemma relay_run_refines r w ops : relay_refines r w → (Z.of_nat (length (w_ops w)) + Z.of_nat (length ops) < two64)%Z →
  relay_refines (run_ops relay_step r ops).1 (run_ops (w_step (Merge (merge r))) w ops).1 ∧
  (run_ops relay_step r ops).2 = (run_ops (w_step (Merge (merge r))) w ops).2 ∧ merge (run_ops relay_step r ops).1 = merge r.
Proof.
  revert r w. induction ops as [|op ops IH]; intros r w Hr Hb; [done|]. simpl length in Hb.
  destruct (relay_step_refines r w op Hr ltac:(lia)) as (Hr' & Ho & Hm & Hl). cbn [run_ops].
  destruct (relay_step r op) as [r' o]. destruct (w_step (Merge (merge r)) w op) as [w' o']. simpl in *. subst o'.
  destruct (IH r' w' Hr' ltac:(lia)) as (IH1 & IH2 & IH3). rewrite Hm in *.
  destruct (run_ops relay_step r' ops) as [r2 os]. destruct (run_ops _ w' ops) as [w2 os']. simpl in *. by subst.
Qed.

(** ** Converging under any drain schedule *)

Definition lossless (o : Overflow) : Prop := o ≠ OverflowDropNewest ∧ o ≠ OverflowDropOldest.

(** The operations let in, and the windows let out. *)
Fixpoint accepted (ops : list relay_op) (os : list relay_obs) : list T :=
  match ops, os with
  | OpIngress x :: ops, ObsIngress (IngressAccepted | IngressConflated) :: os => x :: accepted ops os
  | _ :: ops, _ :: os => accepted ops os
  | _, _ => []
  end.
Definition drained (os : list relay_obs) : list (option T) := omap (λ o, match o with ObsDrain w => Some w | _ => None end) os.

Lemma w_run_accepted m w ops (r := run_ops (w_step m) w ops) :
  lossless (w_over w) → (∀ o, OpOverflow o ∈ ops → lossless o) →
  ∃ ws, drained r.2 = coalesce m <$> ws ∧ w_ops w ++ accepted ops r.2 = concat ws ++ w_ops r.1.
Proof.
  subst r. revert w. induction ops as [|op ops IH]; intros w Hw Hops.
  { exists []. simpl. by rewrite app_nil_r. }
  assert (Hops' : ∀ o, OpOverflow o ∈ ops → lossless o) by (intros; apply Hops; by right).
  cbn [run_ops]. destruct (w_step m w op) as [w' o] eqn:Es.
  assert (Hw' : lossless (w_over w')).
  { destruct op as [x| |o'|n]; simpl in Es; simplify_eq; simpl; try done; [|apply Hops; left].
    unfold w_ingress in Es. case_decide; [destruct (w_over w) eqn:Eo|]; simplify_eq; simpl; rewrite ?Eo; done. }
  destruct (IH w' Hw' Hops') as (ws & Hd & Ha). destruct (run_ops (w_step m) w' ops) as [w2 os]. simpl in *.
  destruct op as [x| |o'|n]; simpl in Es; simplify_eq; simpl in *.
  - exists ws. unfold w_ingress in Es.
    assert (Hcase : (w' = w ∧ o = ObsIngress IngressBlocked) ∨
      (w_ops w' = w_ops w ++ [x] ∧ (o = ObsIngress IngressAccepted ∨ o = ObsIngress IngressConflated))).
    { case_decide; [destruct (w_over w) eqn:Eo|]; try (by destruct Hw); simplify_eq; simpl; [by left|..];
        right; (split; [done|]); case_decide; auto. }
    destruct Hcase as [[-> ->]|(Hops1 & [-> | ->])]; simpl; [done|..]; split; try done; by rewrite <-Ha, Hops1, <-app_assoc.
  - exists (w_ops w :: ws). csimpl. rewrite Hd. split; [done|]. rewrite <-app_assoc, <-Ha. done.
  - by exists ws.
  - by exists ws.
Qed.
End relay_spec.
Arguments window : clear implicits.
Arguments relay_op : clear implicits.
Arguments relay_obs : clear implicits.

(** C14: a relay converges under any drain schedule.  For an associative merge and
    any interleaving of ingress, drains and live retuning of the overflow policy
    and the high-water mark, a relay answers as a bounded window of operations
    would: the same outcomes and drained values, a head that is the coalesced
    window, a depth that is its length.  While no dropping overflow is chosen,
    applying the drained windows and then the head to any state gives what
    applying every operation it let in, one by one and in order, gives. *)
Theorem Relay_converges {T} `{EqDecision T} (p : BackpressurePolicy) (m : MergePolicy T) r0 ops s0
    (start := mkWindow (cell_value (HighWater p)) (cell_value (overflow p)) [])
    (r := run_ops relay_step r0 ops) (w := run_ops (w_step (Merge m)) start ops) :
  (∀ a b c, Merge m (Merge m a b) c = Merge m a (Merge m b c)) →
  NewRelayCell p m = Some r0 → (Z.of_nat (length ops) < two64)%Z →
  r.2 = w.2 ∧
  Peek r.1 = coalesce (Merge m) (w_ops w.1) ∧ Depth r.1 = Z.of_nat (length (w_ops w.1)) ∧
  (IsFull r.1 = true ↔ (w_high w.1 ≤ Z.of_nat (length (w_ops w.1)))%Z) ∧ (IsEmpty r.1 = true ↔ w_ops w.1 = []) ∧
  (lossless (cell_value (overflow p)) → (∀ o, OpOverflow o ∈ ops → lossless o) →
    apply_window (Merge m) (foldl (apply_window (Merge m)) s0 (drained r.2)) (Peek r.1) =
      foldl (Merge m) s0 (accepted ops r.2)).
Proof.
  intros Hassoc Hnew Hlen. assert (merge r0 = m ∧ relay_refines r0 start) as [Hm Hr0].
  { unfold NewRelayCell in Hnew. destruct (_ && _); [done|]. injection Hnew as <-. done. }
  destruct (relay_run_refines r0 start ops Hr0 Hlen) as ([Hh _ Hhd Hp] & Hobs & Hm'). rewrite Hm in *.
  rewrite Hm' in Hhd. fold r w in Hh, Hhd, Hp, Hobs. unfold Peek, Depth, IsFull, IsEmpty. split_and!; [done|done|done| | |].
  - rewrite Hh. unfold Depth. rewrite Hp. apply Z.leb_le.
  - by rewrite bool_decide_eq_true, Hhd, coalesce_None.
  - intros Hw Hops. rewrite Hobs, Hhd. destruct (w_run_accepted (Merge m) start ops Hw Hops) as (ws & Hd & Ha). fold w in Hd, Ha.
    rewrite Hd, apply_windows, apply_coalesce, <-foldl_app by done. simpl in Ha. by rewrite Ha.
Qed.

(** Three increments in two windows, the second still open; then a full relay blocks. *)
Lemma Relay_converges_witness :
  let p := NewBackpressurePolicy BoundCount 2 1 OverflowBlock in
  let ops := [OpIngress 5; OpDrain; OpIngress 1; OpIngress 2; OpIngress 9; OpOverflow OverflowConflate; OpIngress 4]%Z in
  ∃ r0, NewRelayCell p Sum = Some r0 ∧
  let r := run_ops relay_step r0 ops in
  accepted ops r.2 = [5; 1; 2; 4]%Z ∧
  apply_window (Merge Sum) (foldl (apply_window (Merge Sum)) 100%Z (drained r.2)) (Peek r.1) = 112%Z.
Proof.
  intros p ops. eexists. split; [reflexivity|]. intros r. split; [by vm_compute|].
  destruct (Relay_converges p Sum _ ops 100%Z (po_assoc _ _ Sum_ok) eq_refl ltac:(done)) as (_ & _ & _ & _ & _ & Hc).
  unfold r. rewrite Hc; [by vm_compute|done|].
  intros o Ho. unfold ops in Ho. rewrite !elem_of_cons, elem_of_nil in Ho. destruct_or!; simplify_eq; done.
Defined.

(** ** Spilling *)

Section spill_spec.
Context {T : Type}.
Implicit Types (x : T).

(** What a durable tail promises: the windows acknowledged, and those that are
    not, by page. *)
Record tail := mkTail { t_acked : list T; t_pages : list (Z * list T); t_next : Z }.

Inductive spill_op := SpSpill (x : T) (bytes : Z) | SpAck (id : Z) | SpReclaim.

Definition spill_step (s : SpillStore T) (op : spill_op) : SpillStore T :=
  match op with SpSpill x b => Spill s x b | SpAck id => AckThrough s id | SpReclaim => Reclaim s end.

(** How many leading pages have ids up to [id]. *)
Fixpoint covered (id : Z) (l : list (Z * list T)) : nat :=
  match l with g :: l => if (g.1 <=? id)%Z then S (covered id l) else 0 | [] => 0 end.

Definition open_page (t : tail) x : tail := mkTail (t_acked t) (t_pages t ++ [(t_next t, [x])]) (t_next t + 1).

Definition tail_step (md : SpillMode) (size : Z) (t : tail) (op : spill_op) : tail :=
  match op with
  | SpSpill x _ =>
      match md, last (t_pages t) with
      | SpillCompactOnWrite, Some (id, ws) =>
          if (size <=? Z.of_nat (length ws))%Z then open_page t x
          else mkTail (t_acked t) (<[length (t_pages t) - 1 := (id, ws ++ [x])]> (t_pages t)) (t_next t)
      | _, _ => open_page t x
      end
  | SpAck id =>
      let n := covered id (t_pages t) in
      mkTail (t_acked t ++ concat (take n (t_pages t)).*2) (drop n (t_pages t)) (t_next t)
  | SpReclaim => t
  end.

Definition spilled (ops : list spill_op) : list T := omap (λ op, match op with SpSpill x _ => Some x | _ => None end) ops.

Lemma spilled_cons op ops : spilled (op :: ops) = spilled [op] ++ spilled ops.
Proof. by destruct op. Qed.

(** A page still being written to is not acknowledged. *)
Definition ack_sealed (s : SpillStore T) (op : spill_op) : Prop :=
  match op, mode s, last (pages s) with
  | SpAck id, SpillCompactOnWrite, Some p => (id < ID p ∨ pageSize s ≤ openFill s)%Z
  | _, _, _ => True
  end.
Fixpoint acks_sealed (s : SpillStore T) (ops : list spill_op) : Prop :=
  match ops with [] => True | op :: ops => ack_sealed s op ∧ acks_sealed (spill_step s op) ops end.

Context (m : T → T → T).
Definition page_of (p : SpillPage T) (g : Z * list T) : Prop := ID p = g.1 ∧ coalesce m g.2 = Some (Summary p).

Record tail_refines (s : SpillStore T) (t : tail) (windows : list T) : Prop := {
  tr_merge : Merge (s_merge s) = m;
  tr_size : (1 ≤ pageSize s)%Z;
  tr_next : nextID s = t_next t ∧ (0 ≤ t_next t ≤ Z.of_nat (length windows))%Z;
  tr_pages : ∃ pre pend, pages s = pre ++ pend ∧ acked s = length pre ∧ Forall2 page_of pend (t_pages t);
  tr_windows : windows = t_acked t ++ concat (t_pages t).*2;
  tr_fill : mode s = SpillCompactOnWrite →
    match last (t_pages t) with
    | Some g => openFill s = Z.of_nat (length g.2)
    | None => pages s = [] ∨ (pageSize s ≤ openFill s)%Z
    end;
}.

Lemma ack_scan_covered (l : list (SpillPage T)) gs id n : Forall2 page_of l gs →
  ack_scan l id n = n + covered id gs.
Proof.
  intros Hl. revert n. induction Hl as [|p g l gs [Hid _] Hl IH]; intros n; simpl; [lia|]. rewrite Hid.
  destruct (g.1 <=? id)%Z; [rewrite IH|]; lia.
Qed.

Lemma covered_le id gs : covered id gs ≤ length gs.
Proof. induction gs as [|g gs IH]; simpl; [done|]. destruct (g.1 <=? id)%Z; lia. Qed.

Lemma covered_last id gs g : last gs = Some g → (id < g.1)%Z → covered id gs < length gs.
Proof.
  revert g. induction gs as [|g' gs IH]; intros g Hl Hlt; [done|]. simpl. rewrite last_cons in Hl.
  destruct (last gs) as [g''|] eqn:El; simplify_eq.
  - specialize (IH g eq_refl Hlt). destruct (g'.1 <=? id)%Z; lia.
  - destruct (Z.leb_spec g.1 id); lia.
Qed.

Lemma last_drop {A} (l : list A) n : last (drop n l) = if decide (n < length l) then last l else None.
Proof.
  case_decide; [|by rewrite drop_ge by lia]. rewrite !last_lookup, lookup_drop, length_drop. f_equal. lia.
Qed.

Lemma last_page pend gs g : Forall2 page_of pend gs → last gs = Some g → ∃ p, last pend = Some p ∧ page_of p g.
Proof.
  intros Hpg Hg. rewrite last_lookup in Hg. destruct (Forall2_lookup_r _ _ _ _ _ Hpg Hg) as (p & Hp & Hpo).
  exists p. rewrite last_lookup. by rewrite (Forall2_length _ _ _ Hpg).
Qed.

Lemma ack_refines s t windows id : tail_refines s t windows → ack_sealed s (SpAck id) →
  tail_refines (AckThrough s id) (tail_step (mode s) (pageSize s) t (SpAck id)) windows.
Proof.
  intros [Hm Hs Hn (pre & pend & Hp & Ha & Hpg) Hw Hf] Hseal. set (n := covered id (t_pages t)).
  assert (Hdrop : drop (acked s) (pages s) = pend) by (by rewrite Hp, Ha, drop_app_length).
  pose proof (Forall2_length _ _ _ Hpg) as Hlen. pose proof (covered_le id (t_pages t)) as Hle.
  split; simpl; fold n; try done.
  - exists (pre ++ take n pend), (drop n pend). split_and!; [by rewrite <-app_assoc, take_drop| |by apply Forall2_drop].
    rewrite Hdrop, (ack_scan_covered pend (t_pages t)) by done. fold n. rewrite length_app, length_take. lia.
  - by rewrite <-app_assoc, <-concat_app, <-fmap_app, take_drop.
  - intros Hmd. specialize (Hf Hmd). rewrite last_drop. destruct (last (t_pages t)) as [g|] eqn:Eg.
    + case_decide as Hd; [done|]. destruct (last_page pend _ g Hpg Eg) as (p & Hlp & [Hid _]). right.
      unfold ack_sealed in Hseal. rewrite Hmd, Hp, last_app, Hlp, Hid in Hseal. destruct Hseal as [Hlt|]; [|done].
      pose proof (covered_last id _ g Eg Hlt). lia.
    + by case_decide.
Qed.

Lemma push_refines s t windows x b fill : tail_refines s t windows → (Z.of_nat (length windows) + 1 < two64)%Z →
  (mode s = SpillCompactOnWrite → fill = 1%Z) →
  tail_refines (with_fill fill (pushPage s x b)) (open_page t x) (windows ++ [x]).
Proof.
  intros [Hm Hs [Hn Hr] (pre & pend & Hp & Ha & Hpg) Hw Hf] Hb Hfill. split; simpl; [done|done| | | |].
  - rewrite Hn, length_app, u64_small by zrange. simpl. lia.
  - exists pre, (pend ++ [mkPage (nextID s) x b]). rewrite Hp, <-app_assoc. split_and!; [done|done|].
    apply Forall2_app; [done|]. by constructor; [split|].
  - by rewrite fmap_app, concat_app, Hw, <-app_assoc.
  - intros Hmd. rewrite last_snoc. simpl. auto.
Qed.

Lemma insert_last {A} (l : list A) (x y : A) : <[length (l ++ [x]) - 1 := y]> (l ++ [x]) = l ++ [y].
Proof. rewrite length_app. simpl. rewrite Nat.add_sub, insert_app_r_alt, Nat.sub_diag by done. done. Qed.

Lemma spill_refines s t windows x b : tail_refines s t windows → (Z.of_nat (length windows) + 1 < two64)%Z →
  tail_refines (Spill s x b) (tail_step (mode s) (pageSize s) t (SpSpill x b)) (windows ++ [x]).
Proof.
  intros Ht Hb. unfold Spill, tail_step. destruct (mode s) eqn:Hmd.
  2: { change (pushPage s x b) with (with_fill (openFill s) (pushPage s x b)). apply push_refines; [done|done|]. congruence. }
  assert (Hpush : tail_refines (with_fill 1 (pushPage s x b)) (open_page t x) (windows ++ [x])) by (by apply push_refines).
  pose proof Ht as [Hm Hs Hn (pre & pend & Hp & Ha & Hpg) Hw Hf]. specialize (Hf Hmd).
  destruct (t_pages t) as [|g gs _] eqn:Eg using rev_ind.
  { simpl in *. apply Forall2_nil_inv_r in Hpg as ->. rewrite app_nil_r in Hp. destruct Hf as [Hnil|Hfill].
    - by rewrite Hnil.
    - destruct (last (pages s)); [|done]. by rewrite (proj2 (Z.leb_le _ _) Hfill). }
  rewrite last_snoc in *. apply Forall2_app_inv_r in Hpg as (pi & pl & Hpi & Hpl & ->).
  apply Forall2_cons_inv_r in Hpl as (p & ? & [Hid Hco] & Hnil & ->). apply Forall2_nil_inv_r in Hnil as ->.
  rewrite Hp, !app_assoc, last_snoc. destruct g as [id ws]. simpl in *. rewrite Hf.
  destruct (pageSize s <=? Z.of_nat (length ws))%Z; [done|].
  rewrite !insert_last. split; simpl; [done|done| | | |].
  - destruct Hn as [? ?]. rewrite length_app. simpl. split; [done|lia].
  - exists pre, (pi ++ [mkPage (ID p) (Merge (s_merge s) (Summary p) x) (Bytes p +ᵤ b)]). split_and!; [by rewrite app_assoc|done|].
    apply Forall2_app; [done|]. constructor; [|done]. split; [done|]. simpl. by rewrite coalesce_snoc, Hco, Hm.
  - rewrite Hw, !fmap_app, !concat_app. simpl. by rewrite !app_nil_r, !app_assoc.
  - intros _. rewrite last_snoc. simpl. rewrite length_app. simpl.
    assert (length ws ≤ length windows).
    { rewrite Hw, fmap_app, concat_app, !length_app. simpl. rewrite length_app. lia. }
    rewrite u64_small by zrange. lia.
Qed.

Lemma reclaim_refines s t windows : tail_refines s t windows → tail_refines (Reclaim s) t windows.
Proof.
  intros [Hm Hs Hn (pre & pend & Hp & Ha & Hpg) Hw Hf]. split; simpl; [done..| | |].
  - exists [], pend. by rewrite Hp, Ha, drop_app_length.
  - done.
  - intros Hmd. specialize (Hf Hmd). destruct (last (t_pages t)); [done|]. destruct Hf as [->|?]; [left; by rewrite drop_nil|by right].
Qed.

Lemma spill_run_refines s t windows ops : tail_refines s t windows → acks_sealed s ops →
  (Z.of_nat (length windows) + Z.of_nat (length ops) < two64)%Z →
  tail_refines (foldl spill_step s ops) (foldl (tail_step (mode s) (pageSize s)) t ops) (windows ++ spilled ops) ∧
  mode (foldl spill_step s ops) = mode s.
Proof.
  revert s t windows. induction ops as [|op ops IH]; intros s t windows Ht Hseal Hb; [by rewrite app_nil_r|].
  simpl in Hb. destruct Hseal as [Hseal Hrest]. cbn [foldl].
  assert (Hkeep : mode (spill_step s op) = mode s ∧ pageSize (spill_step s op) = pageSize s).
  { destruct op as [x b|id|]; simpl; [|done..]. unfold Spill. destruct (mode s) eqn:E; [|done].
    destruct (last _); [destruct (_ <=? _)%Z|]; done. }
  destruct Hkeep as [Hmd Hps]. rewrite <-Hmd, <-Hps.
  assert (Hstep : tail_refines (spill_step s op) (tail_step (mode (spill_step s op)) (pageSize (spill_step s op)) t op) (windows ++ spilled [op])).
  { rewrite Hmd, Hps. destruct op as [x b|id|]; simpl; rewrite ?app_nil_r.
    - apply (spill_refines s t windows x b); [done|lia].
    - by apply (ack_refines s t windows id).
    - by apply reclaim_refines. }
  rewrite (spilled_cons op), app_assoc. apply IH; [done|done|].
  rewrite length_app. assert (length (spilled [op]) ≤ 1) by (destruct op; cbn; lia). lia.
Qed.
End spill_spec.
Arguments spill_op : clear implicits.
Arguments tail : clear implicits.

(** Every page counts, acknowledged or not, until it is reclaimed. *)
Lemma fold_pages_run {T} (M : MergePolicy T) s ops s0 :
  (∀ a b c, Merge M (Merge M a b) c = Merge M a (Merge M b c)) → s_merge s = M → SpReclaim ∉ ops →
  s_merge (foldl spill_step s ops) = M ∧
  FoldPages (foldl spill_step s ops) s0 = foldl (Merge M) (FoldPages s s0) (spilled ops).
Proof.
  intros Hassoc. revert s. induction ops as [|op ops IH]; intros s Hs Hnr; [done|].
  apply not_elem_of_cons in Hnr as [Hne Hnr]. cbn [foldl].
  assert (Hstep : s_merge (spill_step s op) = M ∧ FoldPages (spill_step s op) s0 = foldl (Merge M) (FoldPages s s0) (spilled [op])).
  { destruct op as [x b|id|]; [|done..]. cbn. unfold Spill, FoldPages.
    assert (Hpush : foldl (λ acc p, Merge M acc (Summary p)) s0 (pages s ++ [mkPage (nextID s) x b]) =
      Merge M (foldl (λ acc p, Merge M acc (Summary p)) s0 (pages s)) x) by (by rewrite foldl_app).
    destruct (mode s); [|simpl; by rewrite Hs].
    destruct (last (pages s)) as [p|] eqn:El; [|simpl; by rewrite Hs]. apply last_Some in El as [l El].
    destruct (_ <=? _)%Z; simpl; [by rewrite Hs|]. rewrite Hs, El, insert_last, !foldl_app. simpl. by rewrite Hassoc. }
  destruct Hstep as [Hs' Hf]. destruct (IH _ Hs' Hnr) as [IH1 IH2]. split; [done|].
  by rewrite IH2, Hf, (spilled_cons op ops), foldl_app.
Qed.

Lemma page_ids {T} (m : T → T → T) (l : list (SpillPage T)) gs : Forall2 (page_of m) l gs → ID <$> l = gs.*1.
Proof. induction 1 as [|p g l gs [Hid _] _ IH]; csimpl; [done|]. by rewrite Hid, IH. Qed.

(** Replaying pages is applying their windows. *)
Lemma replay_pages {T} (M : MergePolicy T) (l : list (SpillPage T)) gs d :
  (∀ a b c, Merge M (Merge M a b) c = Merge M a (Merge M b c)) → Forall2 (page_of (Merge M)) l gs →
  foldl (λ acc p, Merge M acc (Summary p)) d l = foldl (Merge M) d (concat gs.*2).
Proof.
  intros Hassoc Hl. revert d. induction Hl as [|p g l gs [_ Hco] Hl IH]; intros d; csimpl; [done|].
  rewrite IH, foldl_app. f_equal. rewrite <-(apply_coalesce (Merge M) Hassoc d g.2). by rewrite Hco.
Qed.

(** The spill tail loses no window and replays exactly what was not
    acknowledged.  For an associative merge, either page mode and any sequence of
    spills, acknowledgements (of pages no longer written to) and reclaims, the
    windows spilled are, in order, those acknowledged followed by those on pending
    pages; a crash replay onto a downstream that applied the acknowledged windows
    gives what applying every window gives, and for an idempotent policy so does a
    replay onto a downstream that applied them all; until a reclaim drops pages,
    reconstruction from the tail and the hot head applies every window. *)
Theorem SpillStore_replays_unacked {T} (m : MergePolicy T) md size ops s0 hot
    (s := foldl spill_step (NewSpillStore md size m) ops)
    (t := foldl (tail_step md (pageSize (NewSpillStore md size m))) (mkTail [] [] 0) ops) :
  (∀ a b c, Merge m (Merge m a b) c = Merge m a (Merge m b c)) →
  (Z.of_nat (length ops) < two64)%Z → acks_sealed (NewSpillStore md size m) ops →
  spilled ops = t_acked t ++ concat (t_pages t).*2 ∧
  ID <$> PendingPages s = (t_pages t).*1 ∧
  ReplayUnacked s (foldl (Merge m) s0 (t_acked t)) = foldl (Merge m) s0 (spilled ops) ∧
  ((∀ a, Merge m a a = a) → ReplayUnacked s (foldl (Merge m) s0 (spilled ops)) = foldl (Merge m) s0 (spilled ops)) ∧
  (SpReclaim ∉ ops → Reconstruct s s0 hot = apply_window (Merge m) (foldl (Merge m) s0 (spilled ops)) hot).
Proof.
  intros Hassoc Hlen Hseal.
  assert (H0 : tail_refines (Merge m) (NewSpillStore md size m) (mkTail [] [] 0) []).
  { split; simpl; [done|case_decide; lia|done| |done|by left]. by exists [], []. }
  destruct (spill_run_refines (Merge m) _ _ [] ops H0 Hseal Hlen) as [[Hm _ _ (pre & pend & Hp & Ha & Hpg) Hw _] _].
  change (mode (NewSpillStore md size m)) with md in Hpg, Hw. fold s in Hm, Hp, Ha, Hpg. fold t in Hpg, Hw. simpl in Hw.
  assert (HM : s_merge s = m).
  { unfold s. clear. generalize (NewSpillStore md size m) (eq_refl : s_merge (NewSpillStore md size m) = m). 
    induction ops as [|op ops IH]; intros s Hs; [done|]. apply IH. destruct op as [x b|id|]; simpl; [|done..].
    unfold Spill. destruct (mode s); [|done]. destruct (last _); [destruct (_ <=? _)%Z|]; done. }
  assert (Hreplay : ∀ d, ReplayUnacked s d = foldl (Merge m) d (concat (t_pages t).*2)).
  { intros d. unfold ReplayUnacked, PendingPages. rewrite Hp, Ha, drop_app_length, HM. by apply replay_pages. }
  split_and!; [done| | | |].
  - unfold PendingPages. rewrite Hp, Ha, drop_app_length. by eapply page_ids.
  - by rewrite Hreplay, Hw, foldl_app.
  - intros Hidem. rewrite Hreplay, Hw, !foldl_app. generalize (foldl (Merge m) s0 (t_acked t)). intros d.
    rewrite <-!(apply_coalesce (Merge m) Hassoc). destruct (coalesce _ _); simpl; [|done]. by rewrite Hassoc, Hidem.
  - intros Hnr. unfold Reconstruct. rewrite HM.
    subst s. by rewrite (proj2 (fold_pages_run m (NewSpillStore md size m) ops s0 Hassoc eq_refl Hnr)).
Qed.

(** Three windows on pages of two; the first page acknowledged once full. *)
Lemma SpillStore_replays_unacked_witness :
  let ops := [SpSpill 1 8; SpSpill 2 8; SpSpill 3 8; SpAck 0; SpReclaim; SpSpill 4 8]%Z in
  let s := foldl spill_step (NewSpillStore SpillCompactOnWrite 2 Sum) ops in
  Summary <$> PendingPages s = [7]%Z ∧ ReplayUnacked s 3%Z = 10%Z.
Proof.
  intros ops s.
  destruct (SpillStore_replays_unacked Sum SpillCompactOnWrite 2 ops 0%Z None (po_assoc _ _ Sum_ok) ltac:(done)) as (_ & _ & Hr & _).
  { vm_compute. tauto. }
  split; [by vm_compute|]. exact Hr.
Defined.

(** The condition on acknowledgements is needed: a page acknowledged while it is
    still open takes the next window with it, and no replay delivers that. *)
Lemma open_page_ack_loses_window :
  let ops := [SpSpill 1 8; SpAck 0; SpSpill 2 8]%Z in
  let s := foldl spill_step (NewSpillStore SpillCompactOnWrite 4 Sum) ops in
  ReplayUnacked s 1%Z = 1%Z ∧ pages (Reclaim s) = [].
Proof. by vm_compute. Qed.
