(* ===== verification/RelayEgress.v ===== *)
(** * RelayEgress: transports, roles and egress policies of the relay (relay.go)

    The transport interface and its two implementations, the outbox and inbox
    roles over a relay, the rate, window, expiry and priority policies, and the
    keyed relay. *)

From S2P Require Import Prelude Relay.

(** ** Transports *)

(** What a transport promises: it frames the delivered operations, in order and
    without loss, and says truthfully whether any are left.
    [relay.go] [type Transport] *)
Class Transport (T Tr : Type) := {
  Deliver : Tr → T → Tr;
  Poll : Tr → Tr * list T;
  HasPending : Tr → bool;
  buffered : Tr → list T;
  tr_deliver t x : buffered (Deliver t x) = buffered t ++ [x];
  tr_poll t : buffered t = (Poll t).2 ++ buffered (Poll t).1;
  tr_pending t : HasPending t = false ↔ buffered t = [];
  tr_progress t : buffered t ≠ [] → (Poll t).2 ≠ [];
}.

Section transports.
Context {T : Type}.

(** [relay.go] [type InProcTransport] *)
Record InProcTransport := mkInProc { ip_buf : list T }.
(** [relay.go] [NewInProcTransport] *)
Definition NewInProcTransport : InProcTransport := mkInProc [].
(** [relay.go] [InProcTransport.Deliver] *)
Definition InProc_Deliver (t : InProcTransport) (op : T) : InProcTransport := mkInProc (ip_buf t ++ [op]).
(** [relay.go] [InProcTransport.Poll] *)
Definition InProc_Poll (t : InProcTransport) : InProcTransport * list T := (mkInProc [], ip_buf t).
(** [relay.go] [InProcTransport.HasPending] *)
Definition InProc_HasPending (t : InProcTransport) : bool := 0 <? length (ip_buf t).

(** [frameSize] is kept positive by the constructor.
    [relay.go] [type FramedTransport] *)
Record FramedTransport := mkFramed { fr_buf : list T; frameSize : nat; fr_pos : 0 < frameSize }.
(** [relay.go] [NewFramedTransport] *)
Definition NewFramedTransport (size : Z) : FramedTransport := mkFramed [] (S (Z.to_nat (size - 1))) ltac:(lia).
(** [relay.go] [FramedTransport.Deliver] *)
Definition Framed_Deliver (t : FramedTransport) (op : T) : FramedTransport := mkFramed (fr_buf t ++ [op]) (frameSize t) (fr_pos t).
(** [relay.go] [FramedTransport.Poll] *)
Definition Framed_Poll (t : FramedTransport) : FramedTransport * list T :=
  let n := if decide (length (fr_buf t) < frameSize t) then length (fr_buf t) else frameSize t in
  (mkFramed (drop n (fr_buf t)) (frameSize t) (fr_pos t), take n (fr_buf t)).
(** [relay.go] [FramedTransport.HasPending] *)
Definition Framed_HasPending (t : FramedTransport) : bool := 0 <? length (fr_buf t).

Lemma pending_nil {A} (l : list A) : (0 <? length l) = false ↔ l = [].
Proof. by destruct l. Qed.

Lemma Framed_progress t : fr_buf t ≠ [] → (Framed_Poll t).2 ≠ [].
Proof.
  destruct t as [[|x buf] [|n] pos]; simpl; [done|done|lia|]. intros _. case_decide; simpl; done.
Qed.

#[export] Instance InProc_transport : Transport T InProcTransport.
Proof.
  refine {| Deliver := InProc_Deliver; Poll := InProc_Poll; HasPending := InProc_HasPending; buffered := ip_buf |}.
  - done.
  - intros t. simpl. by rewrite app_nil_r.
  - intros t. apply pending_nil.
  - done.
Defined.

#[export] Instance Framed_transport : Transport T FramedTransport.
Proof.
  refine {| Deliver := Framed_Deliver; Poll := Framed_Poll; HasPending := Framed_HasPending; buffered := fr_buf |}.
  - done.
  - intros t. simpl. by rewrite take_drop.
  - intros t. apply pending_nil.
  - apply Framed_progress.
Defined.
End transports.
Arguments InProcTransport : clear implicits.
Arguments FramedTransport : clear implicits.

Section pump.
Context {T Tr : Type} `{EqDecision T} `{!Transport T Tr}.

Definition ingress_all (r : RelayCell T) (ops : list T) : RelayCell T := foldl (λ r x, (Ingress r x).1) r ops.

(** A host pumps frames into a relay until nothing is pending. *)
Fixpoint pump (fuel : nat) (t : Tr) (r : RelayCell T) : option (RelayCell T) :=
  match fuel with
  | 0 => None
  | S fuel => if HasPending t then pump fuel (Poll t).1 (ingress_all r (Poll t).2) else Some r
  end.

(** As many polls as there are operations are enough, and the relay ends as if
    every operation had been handed over directly, whatever the framing. *)
Lemma transport_independent fuel t r : length (buffered t) < fuel → pump fuel t r = Some (ingress_all r (buffered t)).
Proof.
  revert t r. induction fuel as [|fuel IH]; intros t r Hf; [lia|]. simpl.
  destruct (HasPending t) eqn:Ep.
  - assert (Hne : buffered t ≠ []) by (intros He%tr_pending; congruence).
    pose proof (tr_progress t Hne) as Hp. pose proof (tr_poll t) as Hpoll. rewrite Hpoll.
    rewrite IH; [unfold ingress_all; by rewrite foldl_app|].
    rewrite Hpoll, length_app in Hf. destruct (Poll t).2; simpl in *; [done|lia].
  - apply tr_pending in Ep. by rewrite Ep.
Qed.

Lemma buffered_deliver t ops : buffered (foldl Deliver t ops) = buffered t ++ ops.
Proof.
  revert t. induction ops as [|x ops IH]; intros t; simpl; [by rewrite app_nil_r|]. by rewrite IH, tr_deliver, <-app_assoc.
Qed.
End pump.

(** ** Roles *)

Section roles.
Context {T : Type} `{EqDecision T}.

(** [relay.go] [type Outbox] *)
Record Outbox := mkOutbox { ob_relay : RelayCell T }.
(** [relay.go] [NewOutboxWithOverflow] *)
Definition NewOutboxWithOverflow (dimension : BoundDim) (highWater : Z) (o : Overflow) (m : MergePolicy T) : option Outbox :=
  mkOutbox <$> NewRelayCell (NewBackpressurePolicy dimension highWater (highWater / 2) o) m.
(** [relay.go] [NewOutbox] *)
Definition NewOutbox (highWater : Z) (m : MergePolicy T) : option Outbox :=
  NewOutboxWithOverflow BoundCount highWater OverflowConflate m.
(** [relay.go] [Outbox.Send] *)
Definition Send (o : Outbox) (op : T) : Outbox * IngressOutcome := let '(r, out) := Ingress (ob_relay o) op in (mkOutbox r, out).
(** [relay.go] [Outbox.Drain] *)
Definition Outbox_Drain (o : Outbox) : Outbox * option T := let '(r, w) := Drain (ob_relay o) in (mkOutbox r, w).
(** [relay.go] [Outbox.IsFull] *)
Definition Outbox_IsFull (o : Outbox) : bool := IsFull (ob_relay o).

(** [relay.go] [type Inbox] *)
Record Inbox := mkInbox { ib_relay : RelayCell T; credits : Z; maxCredits : Z }.
(** [relay.go] [NewInboxWithOverflow] *)
Definition NewInboxWithOverflow (highWater : Z) (o : Overflow) (maxCredits : Z) (m : MergePolicy T) : option Inbox :=
  (λ r, mkInbox r maxCredits maxCredits) <$> NewRelayCell (NewBackpressurePolicy BoundCount highWater (highWater / 2) o) m.
(** [relay.go] [NewInbox] *)
Definition NewInbox (highWater maxCredits : Z) (m : MergePolicy T) : option Inbox :=
  NewInboxWithOverflow highWater OverflowConflate maxCredits m.
(** [relay.go] [Inbox.Ready] *)
Definition Ready (i : Inbox) : bool := (0 <? credits i)%Z.
(** [relay.go] [Inbox.Receive] *)
Definition Receive (i : Inbox) (op : T) : Inbox * IngressOutcome :=
  let c := if (0 <? credits i)%Z then (credits i - 1)%Z else credits i in
  let '(r, out) := Ingress (ib_relay i) op in (mkInbox r c (maxCredits i), out).
(** [relay.go] [Inbox.Consume] *)
Definition Consume (i : Inbox) (replenish : Z) : Inbox * option T :=
  let '(r, w) := Drain (ib_relay i) in
  let c := (credits i +ᵤ replenish)%go in
  (mkInbox r (if (maxCredits i <? c)%Z then maxCredits i else c) (maxCredits i), w).

(** The credit meter never exceeds its budget, and a credit is spent per
    delivery while there are any. *)
Lemma Receive_credits i op : (0 ≤ credits i ≤ maxCredits i)%Z →
  (credits (Receive i op).1 = Z.max 0 (credits i - 1) ∧ maxCredits (Receive i op).1 = maxCredits i)%Z.
Proof.
  intros Hc. unfold Receive. destruct (Ingress (ib_relay i) op). simpl. split; [|done]. destruct (Z.ltb_spec 0 (credits i)); lia.
Qed.

Lemma Consume_credits i n : (0 ≤ credits i ≤ maxCredits i)%Z → (0 ≤ n)%Z → (maxCredits i + n < two64)%Z →
  credits (Consume i n).1 = Z.min (maxCredits i) (credits i + n)%Z.
Proof.
  intros Hc Hn Hb. unfold Consume. destruct (Drain (ib_relay i)). simpl. rewrite u64_small by zrange.
  destruct (Z.ltb_spec (maxCredits i) (credits i + n)); lia.
Qed.
End roles.
Arguments Outbox : clear implicits.
Arguments Inbox : clear implicits.

(** ** Egress policies *)

(** [relay.go] [type RatePolicy] *)
Record RatePolicy := mkRate { capacity : Z; tokens : Z; refillPerTick : Z }.
(** [relay.go] [NewRatePolicy] *)
Definition NewRatePolicy (capacity refill : Z) : RatePolicy := mkRate capacity capacity refill.
(** [relay.go] [RatePolicy.TryEgress] *)
Definition TryEgress (r : RatePolicy) : RatePolicy * bool :=
  if (0 <? tokens r)%Z then (mkRate (capacity r) (tokens r - 1) (refillPerTick r), true) else (r, false).
(** [relay.go] [RatePolicy.Tick] *)
Definition Rate_Tick (r : RatePolicy) : RatePolicy :=
  let t := (tokens r +ᵤ refillPerTick r)%go in
  mkRate (capacity r) (if (capacity r <? t)%Z then capacity r else t) (refillPerTick r).

(** Over [n] ticks and any egress attempts between them, at most the capacity
    plus [n] refills pass. *)
Fixpoint rate_run (r : RatePolicy) (ops : list bool) : RatePolicy * nat :=
  match ops with
  | [] => (r, 0)
  | true :: ops => let '(r, b) := TryEgress r in let '(r, n) := rate_run r ops in (r, if b then S n else n)
  | false :: ops => rate_run (Rate_Tick r) ops
  end.

Lemma rate_bound r ops : (0 ≤ tokens r ≤ capacity r)%Z → (0 ≤ refillPerTick r)%Z → (capacity r + refillPerTick r < two64)%Z →
  (Z.of_nat (rate_run r ops).2 + tokens (rate_run r ops).1 ≤
    tokens r + refillPerTick r * Z.of_nat (length (filter (λ b, b = false) ops)))%Z.
Proof.
  revert r. induction ops as [|[] ops IH]; intros r Ht Hr Hb; cbn [rate_run].
  - simpl. lia.
  - rewrite filter_cons, decide_False by done. unfold TryEgress. destruct (Z.ltb_spec 0 (tokens r)).
    + specialize (IH (mkRate (capacity r) (tokens r - 1) (refillPerTick r)) ltac:(simpl; lia) Hr Hb).
      destruct (rate_run _ ops) as [r' n]. simpl in *. lia.
    + specialize (IH r Ht Hr Hb). destruct (rate_run r ops) as [r' n]. simpl in *. lia.
  - rewrite filter_cons, decide_True by done. simpl length.
    assert (Htick : (0 ≤ tokens (Rate_Tick r) ≤ capacity r)%Z ∧ (tokens (Rate_Tick r) ≤ tokens r + refillPerTick r)%Z).
    { unfold Rate_Tick. simpl. rewrite u64_small by zrange. destruct (Z.ltb_spec (capacity r) (tokens r + refillPerTick r)); lia. }
    specialize (IH (Rate_Tick r) (proj1 Htick) Hr Hb). change (refillPerTick (Rate_Tick r)) with (refillPerTick r) in IH. lia.
Qed.

(** The refill is documented to saturate; near 2^64 it wraps instead. *)
Lemma rate_refill_wraps : tokens (Rate_Tick (NewRatePolicy max_u64 2)) = 1%Z.
Proof. by vm_compute. Qed.

(** [relay.go] [type WindowPolicy] *)
Record WindowPolicy := mkWindowPolicy { windowOps : Z; w_pending : Z }.
(** [relay.go] [NewWindowPolicy] *)
Definition NewWindowPolicy (n : Z) : WindowPolicy := mkWindowPolicy (if (n <? 1)%Z then 1%Z else n) 0.
(** [relay.go] [WindowPolicy.OnIngress] *)
Definition OnIngress (w : WindowPolicy) : WindowPolicy * bool :=
  let p := (w_pending w +ᵤ 1)%go in
  if (windowOps w <=? p)%Z then (mkWindowPolicy (windowOps w) 0, true) else (mkWindowPolicy (windowOps w) p, false).
(** [relay.go] [WindowPolicy.Tick] *)
Definition Window_Tick (w : WindowPolicy) : WindowPolicy * bool :=
  if (0 <? w_pending w)%Z then (mkWindowPolicy (windowOps w) 0, true) else (w, false).

(** The window never holds [windowOps] operations unflushed. *)
Lemma OnIngress_bound w : (0 ≤ w_pending w < windowOps w)%Z → is_u64 (windowOps w) →
  (0 ≤ w_pending (OnIngress w).1 < windowOps w)%Z ∧ ((OnIngress w).2 = true ↔ w_pending w + 1 = windowOps w)%Z.
Proof.
  intros Hw Hu. unfold OnIngress. rewrite u64_small by zrange.
  destruct (Z.leb_spec (windowOps w) (w_pending w + 1)); simpl; split; try lia; split; try done; lia.
Qed.

(** [relay.go] [type ExpiryPolicy] *)
Record ExpiryPolicy := mkExpiry { ttl : Z; now : Z }.
(** [relay.go] [NewExpiryPolicy] *)
Definition NewExpiryPolicy (t : Z) : ExpiryPolicy := mkExpiry t 0.
(** [relay.go] [ExpiryPolicy.Advance] *)
Definition Advance (e : ExpiryPolicy) (by_ : Z) : ExpiryPolicy := mkExpiry (ttl e) (now e +ᵤ by_)%go.
(** [relay.go] [ExpiryPolicy.IsLive] *)
Definition IsLive (e : ExpiryPolicy) (stampedAt : Z) : bool :=
  let age := if (stampedAt <? now e)%Z then (now e - stampedAt)%Z else 0%Z in (age <=? ttl e)%Z.
(** [relay.go] [RetainLive] *)
Definition RetainLive {T} (e : ExpiryPolicy) (batch : list (Z * T)) : list T :=
  omap (λ tv, if IsLive e tv.1 then Some tv.2 else None) batch.

(** ** Priority *)

Section priority.
Context {T : Type}.

(** [relay.go] [type priorityItem] *)
Record priorityItem := mkPItem { priority : Z; seq : Z; pvalue : T }.
(** [relay.go] [type PriorityStorage] *)
Record PriorityStorage := mkPriority { items : list priorityItem; pseq : Z }.
(** [relay.go] [PriorityStorage.Push] *)
Definition Push (p : PriorityStorage) (prio : Z) (v : T) : PriorityStorage :=
  mkPriority (items p ++ [mkPItem prio (pseq p) v]) (pseq p +ᵤ 1)%go.

Definition beats (a b : priorityItem) : bool :=
  (priority b <? priority a)%Z || ((priority a =? priority b)%Z && (seq a <? seq b)%Z).

(** The index of the best item so far, over the items from index [i].
    [relay.go] [lines 680-685 PriorityStorage.Pop] *)
Fixpoint best_from (l : list priorityItem) (i best : nat) (b : priorityItem) : nat :=
  match l with
  | [] => best
  | a :: l => if beats a b then best_from l (S i) i a else best_from l (S i) best b
  end.

(** [relay.go] [PriorityStorage.Pop] *)
Definition Pop (p : PriorityStorage) : PriorityStorage * option T :=
  match items p with
  | [] => (p, None)
  | b :: l =>
      let best := best_from l 1 0 b in
      (mkPriority (delete best (items p)) (pseq p), pvalue <$> items p !! best)
  end.

Lemma best_from_spec (l : list priorityItem) i best b (all : list priorityItem) : all !! best = Some b → (∀ k, all !! (i + k) = l !! k) →
  (∀ j c, all !! j = Some c → j < i → beats c b = false) →
  ∃ x, all !! best_from l i best b = Some x ∧ ∀ j c, all !! j = Some c → beats c x = false.
Proof.
  revert i best b. induction l as [|a l IH]; intros i best b Hb Hl Hall; simpl.
  - exists b. split; [done|]. intros j c Hj. destruct (decide (j < i)); [by eapply Hall|].
    specialize (Hl (j - i)). replace (i + (j - i)) with j in Hl by lia. rewrite Hj in Hl. done.
  - pose proof (Hl 0) as Ha. rewrite Nat.add_0_r in Ha. simpl in Ha.
    assert (Hl' : ∀ k, all !! (S i + k) = l !! k) by (intros k; specialize (Hl (S k)); by rewrite Nat.add_succ_r in Hl).
    destruct (beats a b) eqn:E.
    + apply IH; [done|done|]. intros j c Hj Hlt. destruct (decide (j = i)) as [->|].
      * rewrite Ha in Hj. simplify_eq. unfold beats. rewrite Z.ltb_irrefl, Z.eqb_refl, Z.ltb_irrefl. done.
      * specialize (Hall j c Hj ltac:(lia)). revert E Hall. unfold beats.
        destruct (Z.ltb_spec (priority b) (priority a)), (Z.eqb_spec (priority a) (priority b)), (Z.ltb_spec (seq a) (seq b)),
          (Z.ltb_spec (priority b) (priority c)), (Z.eqb_spec (priority c) (priority b)), (Z.ltb_spec (seq c) (seq b)),
          (Z.ltb_spec (priority a) (priority c)), (Z.eqb_spec (priority c) (priority a)), (Z.ltb_spec (seq c) (seq a)); simpl; try done; lia.
    + apply IH; [done|done|]. intros j c Hj Hlt. destruct (decide (j = i)) as [->|]; [|apply (Hall j c Hj); lia].
      rewrite Ha in Hj. by simplify_eq.
Qed.

(** [Pop] removes exactly one item: one of highest priority, and the oldest of these. *)
Lemma Pop_best p : items p ≠ [] → ∃ i x, items p !! i = Some x ∧ (Pop p).2 = Some (pvalue x) ∧
  items (Pop p).1 = delete i (items p) ∧
  ∀ y, y ∈ items p → (priority y < priority x)%Z ∨ priority y = priority x ∧ (seq x ≤ seq y)%Z.
Proof.
  unfold Pop. destruct (items p) as [|b l] eqn:Ei; [done|]. intros _.
  destruct (best_from_spec l 1 0 b (b :: l)) as (x & Hx & Hall); [done|done| |].
  { intros j c Hj Hlt. assert (j = 0) as -> by lia. simpl in Hj. simplify_eq. unfold beats. by rewrite Z.ltb_irrefl, Z.eqb_refl, Z.ltb_irrefl. }
  exists (best_from l 1 0 b), x. split_and!; [done|by rewrite Hx|done|]. intros y [j Hj]%list_elem_of_lookup.
  specialize (Hall j y Hj). unfold beats in Hall. apply orb_false_iff in Hall as [H1 H2].
  destruct (Z.ltb_spec (priority x) (priority y)); [done|]. destruct (Z.eqb_spec (priority y) (priority x)); simpl in H2; [|lia].
  destruct (Z.ltb_spec (seq y) (seq x)); [done|]. by right.
Qed.
End priority.

(** ** Keyed relay *)

Section keyed.
Context {K T : Type} `{Countable K} `{EqDecision T}.

(** [relay.go] [type KeyedRelay] *)
Record KeyedRelay := mkKeyed { k_high : Z; k_over : Overflow; k_merge : MergePolicy T; shards : gmap K (RelayCell T); k_order : list K }.
(** [relay.go] [NewKeyedRelay] *)
Definition NewKeyedRelay (highWater : Z) (o : Overflow) (m : MergePolicy T) : option KeyedRelay :=
  if bool_decide (o = OverflowConflate) && negb (Conflates m) then None else Some (mkKeyed highWater o m ∅ []).

Definition new_shard (k : KeyedRelay) : option (RelayCell T) :=
  NewRelayCell (NewBackpressurePolicy BoundCount (k_high k) (k_high k / 2)%Z (k_over k)) (k_merge k).

(** The shard of a new key cannot be refused: the configuration was checked.
    [relay.go] [KeyedRelay.Ingress] *)
Definition Keyed_Ingress (k : KeyedRelay) (key : K) (op : T) : option (KeyedRelay * IngressOutcome) :=
  '(r, order) ← match shards k !! key with
                | Some r => Some (r, k_order k)
                | None => r ← new_shard k; Some (r, k_order k ++ [key])
                end;
  let '(r, out) := Ingress r op in
  Some (mkKeyed (k_high k) (k_over k) (k_merge k) (<[key := r]> (shards k)) order, out).
(** [relay.go] [KeyedRelay.Drain] *)
Definition Keyed_Drain (k : KeyedRelay) (key : K) : KeyedRelay * option T :=
  match shards k !! key with
  | None => (k, None)
  | Some r => let '(r, w) := Drain r in (mkKeyed (k_high k) (k_over k) (k_merge k) (<[key := r]> (shards k)) (k_order k), w)
  end.

(** Each key behaves as a relay of its own, and the other keys do not move. *)
Lemma Keyed_Ingress_shard k k0 key op : NewKeyedRelay (k_high k) (k_over k) (k_merge k) = Some k0 →
  ∃ r k' out, (shards k !! key = Some r ∨ shards k !! key = None ∧ new_shard k = Some r) ∧
    Keyed_Ingress k key op = Some (k', out) ∧ Ingress r op = (default r (shards k' !! key), out) ∧
    (∀ key', key' ≠ key → shards k' !! key' = shards k !! key').
Proof.
  intros Hk. assert (Hnew : is_Some (new_shard k)).
  { unfold NewKeyedRelay in Hk. unfold new_shard, NewRelayCell. simpl. destruct (_ && _); [done|eauto]. }
  unfold Keyed_Ingress. destruct (shards k !! key) as [r|] eqn:Er; [|destruct Hnew as [r Hr]; rewrite Hr]; simpl;
    destruct (Ingress r op) as [r' out] eqn:Ei; eexists r, _, out; (split_and!; [by auto|done| |]); simpl;
    [by rewrite lookup_insert_eq|by intros; rewrite lookup_insert_ne|by rewrite lookup_insert_eq|by intros; rewrite lookup_insert_ne].
Qed.
End keyed.
