(* ===== verification/Ingress.v ===== *)
(** * Ingress: the admission algebra of the ingress family (ingress_core.go)

    Keyed scopes that decide whether an inbound envelope is admissible: lifecycle,
    generation fence, freshness, handoff, dedupe, reorder buffer, backpressure,
    merge.  Every transition returns the reader kinds it dirtied.  The two int
    bounds of the policy, [ReorderWindow] and [ReceiptCapacity], are [nat]: a
    negative window acts as zero, a negative capacity (which the constructor
    accepts) makes Go panic at the first receipt. *)

From S2P Require Import Prelude Relay.

(** ** Transports *)

(** [ingress_core.go] [lines 49-62 IngressTransportKind] *)
Inductive IngressTransportKind :=
  IngressTransportEventChannel | IngressTransportRpcTriggered | IngressTransportBoundedPolling.
#[export] Instance IngressTransportKind_eq_dec : EqDecision IngressTransportKind.
Proof. solve_decision. Defined.

(** [ingress_core.go] [type IngressSchedule] *)
Record IngressSchedule := mkSchedule { Kind : IngressTransportKind; PollInterval : option Z }.
(** [ingress_core.go] [IngressScheduleFor] *)
Definition IngressScheduleFor (kind : IngressTransportKind) (pollInterval : Z) : IngressSchedule :=
  if decide (kind ≠ IngressTransportBoundedPolling) then mkSchedule kind None
  else mkSchedule kind (Some (if (pollInterval <? 1)%Z then 1%Z else pollInterval)).

(** ** Decisions, readers, policy *)

(** [ingress_core.go] [lines 200-223 IngressDropReason] *)
Inductive IngressDropReason :=
| IngressDropStaleGeneration | IngressDropDuplicateSequence | IngressDropDuplicateBuffered
| IngressDropReorderWindowOverflow | IngressDropExpired | IngressDropBackpressure | IngressDropScopeClosed.
(** [ingress_core.go] [lines 227-237 IngressError] *)
Inductive IngressError := IngressErrorTransportClosed | IngressErrorDecodeFailed | IngressErrorAuthorityLost.

(** [ingress_core.go] [lines 244-281 IngressAdmission] *)
Inductive IngressAdmission :=
| IngressAdmitted (deliveredThrough : Z)
| IngressCoalesced (deliveredThrough : Z)
| IngressHeld (gapFrom : Z)
| IngressHandedOff (from to : Z)
| IngressRefused (reason : IngressDropReason)
| IngressBackpressured.

(** [ingress_core.go] [IngressAdmission.IsDelivered] *)
Definition IsDelivered (a : IngressAdmission) : bool :=
  match a with IngressAdmitted _ | IngressCoalesced _ | IngressHandedOff _ _ => true | _ => false end.

(** [ingress_core.go] [lines 331-343 IngressLifecycle] *)
Inductive IngressLifecycle := Opening | Live | Suspended | Closed.
(** [ingress_core.go] [lines 347-363 IngressReadiness] *)
Inductive IngressReadiness := ReadyUnknown | Warming | Ready | Stale | ReadySuspended | ReadyClosed.
#[export] Instance IngressDropReason_eq_dec : EqDecision IngressDropReason.
Proof. solve_decision. Defined.
#[export] Instance IngressError_eq_dec : EqDecision IngressError.
Proof. solve_decision. Defined.
#[export] Instance IngressAdmission_eq_dec : EqDecision IngressAdmission.
Proof. solve_decision. Defined.
#[export] Instance IngressLifecycle_eq_dec : EqDecision IngressLifecycle.
Proof. solve_decision. Defined.
#[export] Instance IngressReadiness_eq_dec : EqDecision IngressReadiness.
Proof. solve_decision. Defined.

(** [ingress_core.go] [type IngressAuthority] *)
Record IngressAuthority := mkAuthority { au_generation : Z; au_delivered : option Z; au_stamped : Z }.
(** [ingress_core.go] [type IngressRetry] *)
Record IngressRetry := mkRetry { Attempt : Z; Backoff : Z; rt_resume : Z }.
(** [ingress_core.go] [type ReplayRequest] *)
Record ReplayRequest := mkReplay { rq_generation : Z; FromSequence : Z }.
#[export] Instance IngressAuthority_eq_dec : EqDecision IngressAuthority.
Proof. solve_decision. Defined.
#[export] Instance IngressRetry_eq_dec : EqDecision IngressRetry.
Proof. solve_decision. Defined.

(** [ingress_core.go] [type IngressPolicy] *)
Record IngressPolicy := mkIngressPolicy {
  ReorderWindow : nat; FreshnessHorizon : Z; ig_high : Z; ig_overflow : Overflow;
  ReceiptCapacity : nat; RetryBase : Z; RetryCeiling : Z }.
(** [ingress_core.go] [DefaultIngressPolicy] *)
Definition DefaultIngressPolicy : IngressPolicy := mkIngressPolicy 8 1000 64 OverflowConflate 256 10 10000.

(** [ingress_core.go] [lines 449-458 IngressReceiptChannel] *)
Inductive IngressReceiptChannel := ReceiptAccepted | ReceiptDropped | ReceiptError.
#[export] Instance IngressReceiptChannel_eq_dec : EqDecision IngressReceiptChannel.
Proof. solve_decision. Defined.
(** [ingress_core.go] [type IngressReceiptOutcome] *)
Inductive IngressReceiptOutcome :=
| OutcomeAccepted (deliveredThrough : Z) (conflated : bool)
| OutcomeDropped (reason : IngressDropReason)
| OutcomeError (err : IngressError).

(** ** Change sets *)

(** [ingress_core.go] [type IngressScopeChange] *)
Record IngressScopeChange := mkChange { ch_value : bool; ch_readiness : bool; ch_authority : bool; ch_retry : bool }.
(** [ingress_core.go] [IngressScopeChange.IsEmpty] *)
Definition change_IsEmpty (c : IngressScopeChange) : bool :=
  negb (ch_value c || ch_readiness c || ch_authority c || ch_retry c).
(** [ingress_core.go] [ingressScopeChangeAll] *)
Definition changeAll : IngressScopeChange := mkChange true true true true.
(** [ingress_core.go] [ingressScopeChangeReadinessOnly] *)
Definition changeReadinessOnly : IngressScopeChange := mkChange false true false false.
(** [ingress_core.go] [ingressScopeChangeValueOnly] *)
Definition changeValueOnly : IngressScopeChange := mkChange true false false false.
(** [ingress_core.go] [ingressScopeChangeRetryOnly] *)
Definition changeRetryOnly : IngressScopeChange := mkChange false false false true.
(** [ingress_core.go] [ingressScopeChangeCreation] *)
Definition changeCreation : IngressScopeChange := mkChange false true true false.
(** [ingress_core.go] [IngressScopeChange.union] *)
Definition change_union (c o : IngressScopeChange) : IngressScopeChange :=
  mkChange (ch_value c || ch_value o) (ch_readiness c || ch_readiness o)
    (ch_authority c || ch_authority o) (ch_retry c || ch_retry o).

(** ** The scope and its derived readers *)

(** [ingress_core.go] [type IngressScopeView] *)
Record IngressScopeView := mkView {
  Lifecycle : IngressLifecycle; Generation : Z; DeliveredThrough : option Z; StampedAt : Z; Buffered : nat;
  WindowDepth : Z; ConsecutiveErrors : Z; ObservedNow : Z; Policy : IngressPolicy }.

(** [ingress_core.go] [ingressElapsed] *)
Definition ingressElapsed (now stamp : Z) : Z := if (now <? stamp)%Z then 0%Z else (now - stamp)%Z.
(** [ingress_core.go] [IngressScopeView.IsFresh] *)
Definition IsFresh (v : IngressScopeView) : bool :=
  (ingressElapsed (ObservedNow v) (StampedAt v) <=? FreshnessHorizon (Policy v))%Z.
(** [ingress_core.go] [IngressScopeView.Readiness] *)
Definition view_Readiness (v : IngressScopeView) : IngressReadiness :=
  match Lifecycle v with
  | Closed => ReadyClosed
  | Suspended => ReadySuspended
  | Opening => Warming
  | Live => match DeliveredThrough v with None => Warming | Some _ => if IsFresh v then Ready else Stale end
  end.
(** [ingress_core.go] [IngressScopeView.Authority] *)
Definition view_Authority (v : IngressScopeView) : option IngressAuthority :=
  if decide (Lifecycle v = Closed) then None
  else Some (mkAuthority (Generation v) (DeliveredThrough v) (StampedAt v)).
(** [ingress_core.go] [IngressScopeView.ResumeFrom] *)
Definition ResumeFrom (v : IngressScopeView) : Z :=
  match DeliveredThrough v with None => 0%Z | Some n => (n +ᵤ 1)%go end.
(** [ingress_core.go] [IngressScopeView.HasGap] *)
Definition HasGap (v : IngressScopeView) : bool := 0 <? Buffered v.
(** [ingress_core.go] [IngressScopeView.Retry] *)
Definition view_Retry (v : IngressScopeView) : option IngressRetry :=
  if (ConsecutiveErrors v =? 0)%Z then None
  else
    let shift := (if 31 <? ConsecutiveErrors v - 1 then 31 else ConsecutiveErrors v - 1)%Z in
    let factor := u64 (Z.shiftl 1 shift) in
    let base := RetryBase (Policy v) in
    let backoff := if negb (factor =? 0)%Z && (max_u64 / factor <? base)%Z then max_u64 else (base *ᵤ factor)%go in
    let backoff := if (RetryCeiling (Policy v) <? backoff)%Z then RetryCeiling (Policy v) else backoff in
    Some (mkRetry (ConsecutiveErrors v) backoff (ResumeFrom v)).

Section ingress.
Context {K T : Type} `{Countable K}.

(** [ingress_core.go] [type IngressEnvelope] [NewIngressEnvelope] *)
Record IngressEnvelope := NewIngressEnvelope { en_key : K; en_generation : Z; en_sequence : Z; en_stamped : Z; Payload : T }.

(** [ingress_core.go] [type IngressReceipt] *)
Record IngressReceipt := mkReceipt {
  Offset : Z; rc_key : K; rc_generation : Z; rc_sequence : option Z; Outcome : IngressReceiptOutcome }.
(** [ingress_core.go] [IngressReceipt.Channel] *)
Definition Channel (r : IngressReceipt) : IngressReceiptChannel :=
  match Outcome r with OutcomeAccepted _ _ => ReceiptAccepted | OutcomeDropped _ => ReceiptDropped | OutcomeError _ => ReceiptError end.

(** [ingress_core.go] [type IngressChange] *)
Record IngressChange := mkIngressChange {
  Scopes : list (K * IngressScopeChange); AcceptedReceipts : bool; DroppedReceipts : bool; ErrorReceipts : bool }.
Definition no_change : IngressChange := mkIngressChange [] false false false.
(** [ingress_core.go] [IngressChange.IsEmpty] *)
Definition IsEmptyChange (c : IngressChange) : bool :=
  match Scopes c with [] => negb (AcceptedReceipts c) && negb (DroppedReceipts c) && negb (ErrorReceipts c) | _ => false end.
(** [ingress_core.go] [IngressChange.mark] *)
Definition mark (c : IngressChange) (key : K) (ch : IngressScopeChange) : IngressChange :=
  if change_IsEmpty ch then c
  else mkIngressChange (Scopes c ++ [(key, ch)]) (AcceptedReceipts c) (DroppedReceipts c) (ErrorReceipts c).
(** [ingress_core.go] [IngressChange.markChannel] *)
Definition markChannel (c : IngressChange) (channel : IngressReceiptChannel) : IngressChange :=
  match channel with
  | ReceiptAccepted => mkIngressChange (Scopes c) true (DroppedReceipts c) (ErrorReceipts c)
  | ReceiptDropped => mkIngressChange (Scopes c) (AcceptedReceipts c) true (ErrorReceipts c)
  | ReceiptError => mkIngressChange (Scopes c) (AcceptedReceipts c) (DroppedReceipts c) true
  end.

(** A buffered payload with its stamp; the window is [None] when empty.
    [ingress_core.go] [type ingressScope] [type ingressPending] *)
Record ingressScope := mkScope {
  lifecycle : IngressLifecycle; generation : Z; deliveredThrough : option Z; stampedAt : Z;
  sc_pending : gmap Z (T * Z); sc_window : option T; windowDepth : Z; consecutiveErrors : Z }.

(** [ingress_core.go] [newIngressScope] *)
Definition newIngressScope (gen : Z) : ingressScope := mkScope Opening gen None 0 ∅ None 0 0.
(** [ingress_core.go] [ingressScope.view] *)
Definition scope_view (s : ingressScope) (observedNow : Z) (p : IngressPolicy) : IngressScopeView :=
  mkView (lifecycle s) (generation s) (deliveredThrough s) (stampedAt s) (size (sc_pending s)) (windowDepth s)
    (consecutiveErrors s) observedNow p.
(** [ingress_core.go] [ingressScope.nextExpected] *)
Definition nextExpected (s : ingressScope) : Z :=
  match deliveredThrough s with None => 0%Z | Some n => (n +ᵤ 1)%go end.
(** [ingress_core.go] [ingressScope.liveOrOpening] *)
Definition liveOrOpening (s : ingressScope) : IngressLifecycle :=
  match deliveredThrough s with Some _ => Live | None => Opening end.

Definition with_lifecycle (l : IngressLifecycle) (s : ingressScope) : ingressScope :=
  mkScope l (generation s) (deliveredThrough s) (stampedAt s) (sc_pending s) (sc_window s) (windowDepth s) (consecutiveErrors s).
Definition with_errors (n : Z) (s : ingressScope) : ingressScope :=
  mkScope (lifecycle s) (generation s) (deliveredThrough s) (stampedAt s) (sc_pending s) (sc_window s) (windowDepth s) n.
Definition with_pending (m : gmap Z (T * Z)) (s : ingressScope) : ingressScope :=
  mkScope (lifecycle s) (generation s) (deliveredThrough s) (stampedAt s) m (sc_window s) (windowDepth s) (consecutiveErrors s).
Definition with_delivered (n : Z) (s : ingressScope) : ingressScope :=
  mkScope (lifecycle s) (generation s) (Some n) (stampedAt s) (sc_pending s) (sc_window s) (windowDepth s) (consecutiveErrors s).
(** [ingress_core.go] [ingressScope.clearWindow] *)
Definition clearWindow (s : ingressScope) : ingressScope :=
  mkScope (lifecycle s) (generation s) (deliveredThrough s) (stampedAt s) (sc_pending s) None 0 (consecutiveErrors s).
(** A new generation restarts the sequence space; the window stays. *)
Definition reset_sequence (gen : Z) (s : ingressScope) : ingressScope :=
  mkScope (lifecycle s) gen None (stampedAt s) ∅ (sc_window s) (windowDepth s) (consecutiveErrors s).

(** ** The core *)

(** [ingress_core.go] [type IngressCore] *)
Record IngressCore := mkCore {
  core_policy : IngressPolicy; core_merge : MergePolicy T; scopes : gmap K ingressScope;
  receipts : list IngressReceipt; nextReceiptOffset : Z; observedNow : Z }.

(** [ingress_core.go] [type ingressDecision] [type ingressDecisionKind] *)
Inductive ingressDecision :=
| DecisionRefuse (reason : IngressDropReason)
| DecisionBlock
| DecisionBuffered (gapFrom : Z)
| DecisionDelivered (deliveredThrough : Z) (conflated : bool) (handoff : option (Z * Z)).

Inductive IngressConfigError := ErrIngressConflateNotBounding | ErrIngressZeroReceiptCapacity.

(** [ingress_core.go] [NewIngressCore] *)
Definition NewIngressCore (p : IngressPolicy) (m : MergePolicy T) : IngressCore + IngressConfigError :=
  if bool_decide (ig_overflow p = OverflowConflate) && negb (Conflates m) then inr ErrIngressConflateNotBounding
  else if decide (ReceiptCapacity p = 0) then inr ErrIngressZeroReceiptCapacity
  else inl (mkCore p m ∅ [] 0 0).

Definition with_scopes (f : gmap K ingressScope → gmap K ingressScope) (c : IngressCore) : IngressCore :=
  mkCore (core_policy c) (core_merge c) (f (scopes c)) (receipts c) (nextReceiptOffset c) (observedNow c).

(** [ingress_core.go] [IngressCore.View] *)
Definition View (c : IngressCore) (key : K) : option IngressScopeView :=
  (λ s, scope_view s (observedNow c) (core_policy c)) <$> scopes c !! key.
(** [ingress_core.go] [IngressCore.Readiness] *)
Definition Readiness (c : IngressCore) (key : K) : IngressReadiness :=
  match View c key with Some v => view_Readiness v | None => ReadyUnknown end.
(** [ingress_core.go] [IngressCore.Authority] *)
Definition Authority (c : IngressCore) (key : K) : option IngressAuthority := View c key ≫= view_Authority.
(** [ingress_core.go] [IngressCore.Retry] *)
Definition Retry (c : IngressCore) (key : K) : option IngressRetry := View c key ≫= view_Retry.
(** [ingress_core.go] [IngressCore.Peek] *)
Definition PeekWindow (c : IngressCore) (key : K) : option T := scopes c !! key ≫= sc_window.
(** [ingress_core.go] [IngressCore.Receipts] *)
Definition Receipts (c : IngressCore) (channel : IngressReceiptChannel) : list IngressReceipt :=
  filter (λ r, Channel r = channel) (receipts c).

(** [ingress_core.go] [IngressCore.pushReceipt] *)
Definition pushReceipt (c : IngressCore) (key : K) (gen : Z) (seq : option Z) (o : IngressReceiptOutcome) : IngressCore :=
  let l := receipts c ++ [mkReceipt (nextReceiptOffset c) key gen seq o] in
  mkCore (core_policy c) (core_merge c) (scopes c) (drop (length l - ReceiptCapacity (core_policy c)) l)
    (nextReceiptOffset c +ᵤ 1)%go (observedNow c).

Definition set_scope (key : K) (s : ingressScope) (c : IngressCore) : IngressCore := with_scopes (<[key := s]>) c.

(** [ingress_core.go] [IngressCore.Open] *)
Definition Open (c : IngressCore) (key : K) (gen : Z) : IngressCore * IngressChange :=
  match scopes c !! key with
  | None => (set_scope key (newIngressScope gen) c, mark no_change key changeCreation)
  | Some s =>
      let s' :=
        if decide (lifecycle s = Closed) then newIngressScope gen
        else
          let s := with_lifecycle (liveOrOpening s) s in
          if (generation s <? gen)%Z then reset_sequence gen s else s in
      let ch :=
        if decide (lifecycle s ≠ lifecycle s' ∨ generation s ≠ generation s' ∨ deliveredThrough s ≠ deliveredThrough s')
        then mark no_change key (mkChange false (bool_decide (lifecycle s ≠ lifecycle s')) true false)
        else no_change in
      (set_scope key s' c, ch)
  end.

(** [ingress_core.go] [IngressCore.Suspend] *)
Definition Suspend (c : IngressCore) (key : K) : IngressCore * IngressChange * option ReplayRequest :=
  match scopes c !! key with
  | None => (c, no_change, None)
  | Some s =>
      if decide (lifecycle s = Suspended ∨ lifecycle s = Closed) then (c, no_change, None)
      else (set_scope key (with_lifecycle Suspended s) c, mark no_change key changeReadinessOnly,
            Some (mkReplay (generation s) (nextExpected s)))
  end.

(** [ingress_core.go] [IngressCore.Reconnect] *)
Definition Reconnect (c : IngressCore) (key : K) (gen : Z) : IngressCore * IngressChange * ReplayRequest :=
  let created := bool_decide (scopes c !! key = None) in
  let s := default (newIngressScope gen) (scopes c !! key) in
  let handoff := (generation s <? gen)%Z in
  let s1 := if handoff then clearWindow (reset_sequence gen s) else s in
  let s2 := with_errors 0 (with_lifecycle (liveOrOpening s1) s1) in
  let base := mkChange (handoff && bool_decide (is_Some (sc_window s))) (bool_decide (lifecycle s1 ≠ lifecycle s2))
    handoff (0 <? consecutiveErrors s)%Z in
  let base := if created then change_union base changeCreation else base in
  (set_scope key s2 c, mark no_change key base, mkReplay (generation s2) (nextExpected s2)).

(** [ingress_core.go] [IngressCore.Close] *)
Definition Close (c : IngressCore) (key : K) : IngressCore * IngressChange :=
  match scopes c !! key with
  | None => (c, no_change)
  | Some s =>
      if decide (lifecycle s = Closed) then (c, no_change)
      else (set_scope key (with_errors 0 (clearWindow (with_pending ∅ (with_lifecycle Closed s)))) c,
            mark no_change key (mkChange (bool_decide (is_Some (sc_window s))) true true (0 <? consecutiveErrors s)%Z))
  end.

(** Go ranges over the scopes in any order, which only orders the change list.
    [ingress_core.go] [IngressCore.Tick] *)
Definition Tick (c : IngressCore) (now : Z) : IngressCore * IngressChange :=
  if decide (now = observedNow c) then (c, no_change)
  else
    (mkCore (core_policy c) (core_merge c) (scopes c) (receipts c) (nextReceiptOffset c) now,
     foldl (λ ch ks, if decide (view_Readiness (scope_view ks.2 (observedNow c) (core_policy c)) ≠
                               view_Readiness (scope_view ks.2 now (core_policy c)))
                     then mark ch ks.1 changeReadinessOnly else ch) no_change (map_to_list (scopes c))).

(** [ingress_core.go] [IngressCore.Fail] *)
Definition Fail (c : IngressCore) (key : K) (err : IngressError) : IngressCore * IngressChange :=
  let created := bool_decide (scopes c !! key = None) in
  let s := default (newIngressScope 0) (scopes c !! key) in
  let s := with_errors (if (consecutiveErrors s <? 4294967295)%Z then consecutiveErrors s + 1 else consecutiveErrors s)%Z s in
  let base := if created then change_union changeRetryOnly changeCreation else changeRetryOnly in
  let c := pushReceipt (set_scope key s c) key (generation s) None (OutcomeError err) in
  (c, markChannel (mark no_change key base) ReceiptError).

(** [ingress_core.go] [IngressCore.Drain] *)
Definition DrainWindow (c : IngressCore) (key : K) : IngressCore * IngressChange * option T :=
  match scopes c !! key with
  | Some s =>
      match sc_window s with
      | Some v => (set_scope key (clearWindow s) c, mark no_change key changeValueOnly, Some v)
      | None => (c, no_change, None)
      end
  | None => (c, no_change, None)
  end.

(** ** Admission *)

(** [ingress_core.go] [IngressCore.mergeInto] *)
Definition mergeInto (m : MergePolicy T) (s : ingressScope) (payload : T) (stamp : Z) : ingressScope * bool :=
  let '(w, conflated) := match sc_window s with
    | None => (payload, false)
    | Some w => (Merge m w payload, true)
    end in
  (mkScope (lifecycle s) (generation s) (deliveredThrough s) (if (stampedAt s <? stamp)%Z then stamp else stampedAt s)
     (sc_pending s) (Some w) (windowDepth s +ᵤ 1)%go (consecutiveErrors s), conflated).

(** Every turn takes one envelope out of the buffer, so its size bounds the turns.
    [ingress_core.go] [lines 1317-1330 IngressCore.decide] *)
Fixpoint flush (fuel : nat) (m : MergePolicy T) (s : ingressScope) (through : Z) (conflated : bool) : ingressScope * Z * bool :=
  match fuel with
  | 0 => (s, through, conflated)
  | S fuel =>
      let next := nextExpected s in
      match sc_pending s !! next with
      | None => (s, through, conflated)
      | Some (payload, stamp) =>
          let '(s, b) := mergeInto m (with_pending (delete next (sc_pending s)) s) payload stamp in
          flush fuel m (with_delivered next s) next (conflated || b)
      end
  end.

(** [ingress_core.go] [lines 1263-1340 IngressCore.decide] *)
Definition deliver (p : IngressPolicy) (m : MergePolicy T) (s : ingressScope) (e : IngressEnvelope) (handoff : option (Z * Z)) :
    ingressScope * ingressDecision :=
  let expected := nextExpected s in
  if (en_sequence e <? expected)%Z then (s, DecisionRefuse IngressDropDuplicateSequence)
  else if (expected <? en_sequence e)%Z then
    if decide (is_Some (sc_pending s !! en_sequence e)) then (s, DecisionRefuse IngressDropDuplicateBuffered)
    else if decide (ReorderWindow p ≤ size (sc_pending s)) then (s, DecisionRefuse IngressDropReorderWindowOverflow)
    else (with_pending (<[en_sequence e := (Payload e, en_stamped e)]> (sc_pending s)) s, DecisionBuffered expected)
  else
    let accept s :=
      let '(s, conflated) := mergeInto m s (Payload e) (en_stamped e) in
      let s := with_errors 0 (with_lifecycle Live (with_delivered (en_sequence e) s)) in
      let '(s, through, conflated) := flush (size (sc_pending s)) m s (en_sequence e) conflated in
      (s, DecisionDelivered through conflated handoff) in
    if (ig_high p <=? windowDepth s)%Z then
      match ig_overflow p with
      | OverflowBlock => (s, DecisionBlock)
      | OverflowDropNewest => (s, DecisionRefuse IngressDropBackpressure)
      | OverflowDropOldest => accept (clearWindow s)
      | OverflowConflate | OverflowSpill => accept s
      end
    else accept s.

(** [ingress_core.go] [IngressCore.decide] *)
Definition decide_ (c : IngressCore) (s : ingressScope) (e : IngressEnvelope) : ingressScope * ingressDecision :=
  let p := core_policy c in
  if decide (lifecycle s = Closed) then (s, DecisionRefuse IngressDropScopeClosed)
  else if (en_generation e <? generation s)%Z then (s, DecisionRefuse IngressDropStaleGeneration)
  else if (FreshnessHorizon p <? ingressElapsed (observedNow c) (en_stamped e))%Z then (s, DecisionRefuse IngressDropExpired)
  else if (generation s <? en_generation e)%Z
  then deliver p (core_merge c) (clearWindow (reset_sequence (en_generation e) s)) e (Some (generation s, en_generation e))
  else deliver p (core_merge c) s e None.

(** [ingress_core.go] [IngressCore.Admit] *)
Definition Admit (c : IngressCore) (e : IngressEnvelope) : IngressCore * IngressChange * IngressAdmission :=
  let key := en_key e in
  let before := scopes c !! key in
  let '(s, d) := decide_ c (default (newIngressScope (en_generation e)) before) e in
  let keep := match before, d with
              | None, (DecisionRefuse _ | DecisionBlock) => false
              | _, _ => true
              end in
  let c1 := if keep then set_scope key s c else c in
  let fence := if keep then generation s else en_generation e in
  match d with
  | DecisionRefuse reason =>
      (pushReceipt c1 key fence (Some (en_sequence e)) (OutcomeDropped reason),
       markChannel no_change ReceiptDropped, IngressRefused reason)
  | DecisionBlock =>
      (pushReceipt c1 key fence (Some (en_sequence e)) (OutcomeDropped IngressDropBackpressure),
       markChannel no_change ReceiptDropped, IngressBackpressured)
  | DecisionBuffered gapFrom =>
      let ch := match before with
                | None => changeCreation
                | Some b =>
                    mkChange (negb (eqb (bool_decide (is_Some (sc_window b))) (bool_decide (is_Some (sc_window s)))))
                      (bool_decide (lifecycle b ≠ lifecycle s) ||
                       negb (eqb (bool_decide (is_Some (deliveredThrough b))) (bool_decide (is_Some (deliveredThrough s)))))
                      (bool_decide (generation b ≠ generation s) || bool_decide (deliveredThrough b ≠ deliveredThrough s))
                      false
                end in
      (c1, mark no_change key ch, IngressHeld gapFrom)
  | DecisionDelivered through conflated handoff =>
      (pushReceipt c1 key fence (Some (en_sequence e)) (OutcomeAccepted through conflated),
       markChannel (mark no_change key changeAll) ReceiptAccepted,
       match handoff with
       | Some (from, to) => IngressHandedOff from to
       | None => if conflated then IngressCoalesced through else IngressAdmitted through
       end)
  end.
End ingress.
Arguments IngressEnvelope : clear implicits.
Arguments IngressReceipt : clear implicits.
Arguments IngressChange : clear implicits.
Arguments ingressScope : clear implicits.
Arguments IngressCore K T {_ _}.
