(* ===== verification/IngressFlow.v ===== *)
(** * IngressFlow: what the ingress core delivers (ingress_core.go)

    One generation of one scope is delivered in sequence order, once, whatever the
    arrival order; a refused envelope changes no scope; the receipt log is bounded
    and its offsets are consecutive. *)

From S2P Require Import Prelude Relay Ingress.

(** ** Runs *)

Section runs.
Context {K T : Type} `{Countable K}.
Implicit Types (c : IngressCore K T) (key : K).

Inductive ingress_op :=
| OAdmit (e : IngressEnvelope K T) | OOpen (key : K) (gen : Z) | OSuspend (key : K) | OReconnect (key : K) (gen : Z)
| OClose (key : K) | OTick (now : Z) | OFail (key : K) (err : IngressError) | ODrain (key : K).

Definition ingress_step c (op : ingress_op) : IngressCore K T * IngressChange K :=
  match op with
  | OAdmit e => (Admit c e).1
  | OOpen key gen => Open c key gen
  | OSuspend key => (Suspend c key).1
  | OReconnect key gen => (Reconnect c key gen).1
  | OClose key => Close c key
  | OTick now => Tick c now
  | OFail key err => Fail c key err
  | ODrain key => (DrainWindow c key).1
  end.

(** The scope an operation is about. *)
Definition op_key (op : ingress_op) : option K :=
  match op with
  | OAdmit e => Some (en_key e)
  | OOpen key _ | OSuspend key | OReconnect key _ | OClose key | OFail key _ | ODrain key => Some key
  | OTick _ => None
  end.

(** A run, with the windows drained from [key]. *)
Fixpoint flow_run (key : K) c (ops : list ingress_op) : IngressCore K T * list (option T) :=
  match ops with
  | [] => (c, [])
  | op :: ops =>
      let out := match op with ODrain k => if decide (k = key) then [(DrainWindow c k).2] else [] | _ => [] end in
      let '(c', outs) := flow_run key (ingress_step c op).1 ops in
      (c', out ++ outs)
  end.

Lemma pushReceipt_scopes c key gen seq o : scopes (pushReceipt c key gen seq o) = scopes c ∧
  core_policy (pushReceipt c key gen seq o) = core_policy c ∧ core_merge (pushReceipt c key gen seq o) = core_merge c ∧
  observedNow (pushReceipt c key gen seq o) = observedNow c.
Proof. done. Qed.

Lemma step_policy c op : core_policy (ingress_step c op).1 = core_policy c ∧ core_merge (ingress_step c op).1 = core_merge c.
Proof.
  destruct op as [e|key gen|key|key gen|key|now|key err|key]; simpl.
  - unfold Admit. destruct (decide_ _ _ _) as [s [r| |q|q b ho]]; destruct (scopes c !! en_key e); done.
  - unfold Open. destruct (scopes c !! key); done.
  - unfold Suspend. destruct (scopes c !! key); [case_decide|]; done.
  - done.
  - unfold Close. destruct (scopes c !! key); [case_decide|]; done.
  - unfold Tick. case_decide; done.
  - done.
  - unfold DrainWindow. destruct (scopes c !! key) as [s|]; [destruct (sc_window s)|]; done.
Qed.

Lemma step_other c op key : op_key op ≠ Some key → scopes (ingress_step c op).1 !! key = scopes c !! key.
Proof.
  intros Hne. destruct op as [e|k gen|k|k gen|k|now|k err|k]; simpl in *; try (assert (Hk : k ≠ key) by congruence).
  - assert (Hk : en_key e ≠ key) by congruence. unfold Admit.
    destruct (decide_ _ _ _) as [s [r| |q|q b ho]]; destruct (scopes c !! en_key e); simpl; try done; by rewrite lookup_insert_ne.
  - unfold Open. destruct (scopes c !! k); simpl; by rewrite lookup_insert_ne.
  - unfold Suspend. destruct (scopes c !! k); [case_decide|]; simpl; try done; by rewrite lookup_insert_ne.
  - by rewrite lookup_insert_ne.
  - unfold Close. destruct (scopes c !! k); [case_decide|]; simpl; try done; by rewrite lookup_insert_ne.
  - unfold Tick. by case_decide.
  - by rewrite lookup_insert_ne.
  - unfold DrainWindow. destruct (scopes c !! k) as [s|]; [destruct (sc_window s)|]; simpl; try done; by rewrite lookup_insert_ne.
Qed.
End runs.
Arguments ingress_op : clear implicits.

(** ** In-order delivery within a generation *)

Section flow.
Context {K T : Type} `{Countable K}.
Context (m : MergePolicy T) (assoc : ∀ a b c, Merge m (Merge m a b) c = Merge m a (Merge m b c)).
Context (p : IngressPolicy) (no_drop : ig_overflow p ≠ OverflowDropOldest).
Context (key : K) (g : Z) (pay : Z → T).
Implicit Types (s : ingressScope T) (n : Z) (out : list (option T)).

(** What the egress has after applying the drained windows and the open one. *)
Definition egress (s0 : T) out (w : option T) : T := apply_window (Merge m) (foldl (apply_window (Merge m)) s0 out) w.

(** [n] payloads are delivered, in order, once; the buffer holds later ones. *)
Record flow s n out : Prop := {
  fl_gen : generation s = g;
  fl_range : (0 ≤ n ≤ max_u64)%Z;
  fl_delivered : deliveredThrough s = if decide (n = 0%Z) then None else Some (n - 1)%Z;
  fl_pending q v st : sc_pending s !! q = Some (v, st) → (n ≤ q < max_u64)%Z ∧ v = pay q;
  fl_window : size (sc_pending s) ≤ ReorderWindow p;
  fl_egress (s0 : T) : egress s0 out (sc_window s) = foldl (Merge m) s0 (pay <$> seqZ 0 n);
}.

Lemma flow_next s n out : flow s n out → nextExpected s = n.
Proof.
  intros Hf. unfold nextExpected. rewrite (fl_delivered _ _ _ Hf). pose proof (fl_range _ _ _ Hf).
  case_decide; [done|]. rewrite u64_small by zrange. lia.
Qed.

Lemma egress_merge (s0 : T) out (w : option T) (v : T) :
  egress s0 out (Some match w with Some w => Merge m w v | None => v end) = Merge m (egress s0 out w) v.
Proof. unfold egress. destruct w as [w|]; simpl; [by rewrite assoc|done]. Qed.

(** Delivering the payload that is next. *)
Lemma flow_deliver s n out st : flow s n out → (n < max_u64)%Z → sc_pending s !! n = None →
  flow (with_delivered n (mergeInto m s (pay n) st).1) (n + 1) out.
Proof.
  intros Hf Hn Hp. pose proof (fl_range _ _ _ Hf). unfold mergeInto.
  destruct (sc_window s) as [w|] eqn:Ew; simpl; split; simpl; try apply Hf; try lia; try (rewrite decide_False by lia; f_equal; lia).
  1,3: intros q v st' Hq; destruct (fl_pending _ _ _ Hf q v st' Hq) as [? ->]; split; [|done];
    assert (q ≠ n) by (intros ->; congruence); lia.
  all: intros s0; rewrite seqZ_app, fmap_app, foldl_app, <-(fl_egress _ _ _ Hf), Ew by lia; simpl.
  - exact (egress_merge s0 out (Some w) (pay n)).
  - exact (egress_merge s0 out None (pay n)).
Qed.

Lemma flush_flow fuel s n out through b : flow s n out → size (sc_pending s) ≤ fuel →
  let r := flush fuel m s through b in ∃ n', flow r.1.1 n' out ∧ (n ≤ n')%Z ∧ sc_pending r.1.1 !! n' = None ∧
    (through = n - 1 → r.1.2 = n' - 1)%Z ∧ lifecycle r.1.1 = lifecycle s.
Proof.
  revert s n through b. induction fuel as [|fuel IH]; intros s n through b Hf Hsz.
  { simpl. exists n. split_and!; try done. apply Nat.le_0_r, map_size_empty_inv in Hsz. by rewrite Hsz. }
  cbn [flush]. rewrite (flow_next s n out Hf). destruct (sc_pending s !! n) as [[v st]|] eqn:Ep; [|exists n; by split_and!].
  destruct (fl_pending _ _ _ Hf n v st Ep) as [Hn ->].
  assert (Hf' : flow (with_pending (delete n (sc_pending s)) s) n out).
  { destruct Hf as [H1 H2 H3 H4 H5 H6]. split; simpl; try done.
    - intros q v st' Hq. rewrite lookup_delete_Some in Hq. exact (H4 q v st' (proj2 Hq)).
    - rewrite map_size_delete_Some by eauto. lia. }
  pose proof (flow_deliver _ n out st Hf' ltac:(lia) (lookup_delete_eq _ _)) as Hd.
  assert (Hkeep : sc_pending (mergeInto m (with_pending (delete n (sc_pending s)) s) (pay n) st).1 = delete n (sc_pending s) ∧
    lifecycle (mergeInto m (with_pending (delete n (sc_pending s)) s) (pay n) st).1 = lifecycle s).
  { unfold mergeInto. simpl. by destruct (sc_window s). }
  destruct Hkeep as [Hpend Hlife]. destruct (mergeInto _ _ _ _) as [s' b'] eqn:Em. simpl in Hd, Hpend, Hlife.
  destruct (IH (with_delivered n s') (n + 1)%Z n (b || b') Hd) as (n' & H1 & H2 & H3 & H4 & H5).
  { simpl. rewrite Hpend, map_size_delete_Some by eauto. lia. }
  exists n'. split_and!; [done|lia|done|intros _; apply H4; lia|]. rewrite H5. done.
Qed.

(** A strict flow: the next payload is not in the buffer. *)
Definition flow_at s n out : Prop := flow s n out ∧ sc_pending s !! n = None.

Lemma deliver_flow s n out (e : IngressEnvelope K T) ho : flow_at s n out → (0 ≤ en_sequence e < max_u64)%Z → Payload e = pay (en_sequence e) →
  let r := deliver p m s e ho in ∃ n', flow_at r.1 n' out ∧ (n ≤ n')%Z ∧
    (∀ through b h, r.2 = DecisionDelivered through b h → through = n' - 1 ∧ n < n')%Z ∧
    ((∃ q, r.2 = DecisionRefuse q) ∨ r.2 = DecisionBlock → r.1 = s).
Proof.
  intros [Hf Hp] Hseq Hpay. unfold deliver. rewrite (flow_next s n out Hf).
  destruct (Z.ltb_spec (en_sequence e) n) as [Hlt|Hge].
  { exists n. split_and!; [done|lia|intros; simplify_eq|done]. }
  destruct (Z.ltb_spec n (en_sequence e)) as [Hgt|Hle].
  { case_decide as Hb; [exists n; split_and!; [done|lia|intros; simplify_eq|done]|].
    case_decide as Hw; [exists n; split_and!; [done|lia|intros; simplify_eq|done]|].
    exists n. cbn [fst snd]. split_and!; [|lia|intros; simplify_eq|by intros [[]|]].
    apply eq_None_not_Some in Hb. split; [|simpl; rewrite lookup_insert_ne by lia; done].
    destruct Hf as [H1 H2 H3 H4 H5 H6]. split; simpl; try done.
    - intros q v st Hq. rewrite lookup_insert_Some in Hq. destruct Hq as [[<- [= <- <-]]|[_ Hq]]; [split; [lia|done]|by apply (H4 q v st)].
    - rewrite map_size_insert_None by done. lia. }
  assert (Hn : en_sequence e = n) by lia. rewrite Hn in *.
  assert (Haccept : ∃ n', let r := (let '(s1, conflated) := mergeInto m s (Payload e) (en_stamped e) in
      let s2 := with_errors 0 (with_lifecycle Live (with_delivered n s1)) in
      let '(s3, through, conflated0) := flush (size (sc_pending s2)) m s2 n conflated in
      (s3, DecisionDelivered through conflated0 ho)) in
    flow_at r.1 n' out ∧ (n ≤ n')%Z ∧ (∀ through b h, r.2 = DecisionDelivered through b h → through = n' - 1 ∧ n < n')%Z ∧
    ((∃ q, r.2 = DecisionRefuse q) ∨ r.2 = DecisionBlock → r.1 = s)).
  { pose proof (flow_deliver s n out (en_stamped e) Hf ltac:(lia) Hp) as Hd. rewrite Hpay.
    destruct (mergeInto m s (pay n) (en_stamped e)) as [s1 b1]. cbn [fst] in Hd.
    assert (Hd' : flow (with_errors 0 (with_lifecycle Live (with_delivered n s1))) (n + 1) out) by (destruct Hd; by split).
    cbv zeta. set (s2 := with_errors 0 (with_lifecycle Live (with_delivered n s1))) in *.
    destruct (flush_flow _ s2 _ _ n b1 Hd' (le_n (size (sc_pending s2)))) as (n' & H1 & H2 & H3 & H4 & _). exists n'.
    destruct (flush (size (sc_pending s2)) m s2 n b1) as [[s3 through] b3]. cbn [fst snd] in *. split_and!; [by split|lia| |by intros [[]|]].
    intros ? ? ? [= <- _ _]. split; [apply H4|]; lia. }
  assert (Hstay : ∀ d, (∀ through b h, d ≠ DecisionDelivered through b h) → ∃ n', let r := (s, d) in
    flow_at r.1 n' out ∧ (n ≤ n')%Z ∧ (∀ through b h, r.2 = DecisionDelivered through b h → through = n' - 1 ∧ n < n')%Z ∧
    ((∃ q, r.2 = DecisionRefuse q) ∨ r.2 = DecisionBlock → r.1 = s)).
  { intros d Hd. exists n. cbn [fst snd]. split_and!; [done|lia|intros ? ? ? Hx; by destruct (Hd _ _ _ Hx)|done]. }
  destruct (_ <=? _)%Z; [|exact Haccept]. destruct (ig_overflow p); try exact Haccept; try (by apply Hstay). done.
Qed.

Lemma flush_lifecycle fuel s through b : lifecycle (flush fuel m s through b).1.1 = lifecycle s.
Proof.
  revert s through b. induction fuel as [|fuel IH]; intros s through b; [done|]. cbn [flush].
  destruct (sc_pending s !! nextExpected s) as [[v st]|]; [|done]. unfold mergeInto. simpl.
  destruct (sc_window s); by rewrite IH.
Qed.

Lemma deliver_lifecycle s (e : IngressEnvelope K T) ho :
  lifecycle (deliver p m s e ho).1 = lifecycle s ∨ lifecycle (deliver p m s e ho).1 = Live.
Proof.
  assert (Haccept : ∀ s0, lifecycle (let '(s1, conflated) := mergeInto m s0 (Payload e) (en_stamped e) in
      let s2 := with_errors 0 (with_lifecycle Live (with_delivered (en_sequence e) s1)) in
      let '(s3, through, conflated0) := flush (size (sc_pending s2)) m s2 (en_sequence e) conflated in
      (s3, DecisionDelivered through conflated0 ho)).1 = Live).
  { intros s0. destruct (mergeInto m s0 _ _) as [s1 b1]. cbv zeta. set (s2 := with_errors 0 _).
    pose proof (flush_lifecycle (size (sc_pending s2)) s2 (en_sequence e) b1) as Hl.
    destruct (flush _ _ s2 _ _) as [[s3 through] b3]. exact Hl. }
  unfold deliver. destruct (_ <? _)%Z; [by left|]. destruct (_ <? _)%Z; [repeat case_decide; by left|].
  destruct (_ <=? _)%Z; [|right; apply Haccept]. destruct (ig_overflow p); try (by left); right; apply Haccept.
Qed.

(** One producer's log, at [key] and generation [g]: envelopes may be lost,
    repeated, reordered or late; older incarnations may still speak. *)
Definition truthful (op : ingress_op K T) : Prop :=
  match op with
  | OAdmit e => en_key e = key → (en_generation e < g)%Z ∨
      en_generation e = g ∧ (0 ≤ en_sequence e < max_u64)%Z ∧ Payload e = pay (en_sequence e)
  | OOpen k gen | OReconnect k gen => k = key → (gen ≤ g)%Z
  | OClose k => k ≠ key
  | _ => True
  end.

Definition flow_core (c : IngressCore K T) n out : Prop :=
  core_policy c = p ∧ core_merge c = m ∧ ∃ s, scopes c !! key = Some s ∧ lifecycle s ≠ Closed ∧ flow_at s n out.

Lemma admit_flow c n out e : flow_core c n out → truthful (OAdmit e) → en_key e = key →
  ∃ n', flow_core (Admit c e).1.1 n' out ∧ (n ≤ n')%Z ∧ (IsDelivered (Admit c e).2 = true → (n < n')%Z).
Proof.
  intros (Hpol & Hmer & s & Hs & Hl & Hf) Ht Hk. specialize (Ht Hk). rewrite <-Hk in Hs.
  assert (Hdec : ∃ n', lifecycle (decide_ c s e).1 ≠ Closed ∧ flow_at (decide_ c s e).1 n' out ∧ (n ≤ n')%Z ∧
    ∀ th b h, (decide_ c s e).2 = DecisionDelivered th b h → (n < n')%Z).
  { pose proof (fl_gen _ _ _ (proj1 Hf)) as Hg. unfold decide_. rewrite decide_False by done. rewrite Hpol, Hmer, Hg.
    destruct (Z.ltb_spec (en_generation e) g) as [Hlt|Hge]; [exists n; split_and!; [done|done|lia|by intros]|].
    destruct (_ <? _)%Z; [exists n; split_and!; [done|done|lia|by intros]|].
    destruct Ht as [?|(Hgen & Hseq & Hpay)]; [lia|]. destruct (Z.ltb_spec g (en_generation e)) as [|_]; [lia|].
    destruct (deliver_flow s n out e None Hf Hseq Hpay) as (n' & H1 & H2 & H3 & _). exists n'. split_and!; [|done|done|].
    - destruct (deliver_lifecycle s e None) as [->| ->]; done.
    - intros th b h Hd. by apply (H3 th b h). }
  destruct Hdec as (n' & H1 & H2 & H3 & H4). exists n'. unfold Admit, flow_core. rewrite <-Hk, Hs. cbn [default from_option id].
  destruct (decide_ c s e) as [s' d]. cbn [fst snd] in *.
  assert (Hset : core_policy (set_scope (en_key e) s' c) = p ∧ core_merge (set_scope (en_key e) s' c) = m ∧
    ∃ s, scopes (set_scope (en_key e) s' c) !! en_key e = Some s ∧ lifecycle s ≠ Closed ∧ flow_at s n' out).
  { split_and!; [done|done|]. exists s'. split_and!; [apply lookup_insert_eq|done|exact H2]. }
  destruct d as [r| |q|th b h]; cbn [fst snd]; (split_and!; [exact (proj1 Hset)|exact (proj1 (proj2 Hset))|exact (proj2 (proj2 Hset))|done|]); try done.
  intros _. by apply (H4 th b h).
Qed.

Lemma step_flow c n out op : flow_core c n out → truthful op →
  ∃ n', flow_core (ingress_step c op).1 n'
    (out ++ match op with ODrain k => if decide (k = key) then [(DrainWindow c k).2] else [] | _ => [] end) ∧ (n ≤ n')%Z.
Proof.
  intros Hc Ht. pose proof Hc as (Hpol & Hmer & s & Hs & Hl & Hf & Hp).
  destruct (step_policy c op) as [Hpol' Hmer']. rewrite Hpol in Hpol'. rewrite Hmer in Hmer'.
  destruct (decide (op_key op = Some key)) as [Hk|Hk].
  2: { exists n. split; [|lia]. replace (out ++ _) with out.
    - split; [done|split; [done|]]. exists s. by rewrite (step_other c op key Hk).
    - destruct op; simpl in *; try by rewrite app_nil_r. case_decide; [subst; done|by rewrite app_nil_r]. }
  assert (Hsame : ∀ s', generation s' = generation s → deliveredThrough s' = deliveredThrough s → sc_pending s' = sc_pending s →
    sc_window s' = sc_window s → lifecycle s' ≠ Closed → scopes (ingress_step c op).1 !! key = Some s' →
    flow_core (ingress_step c op).1 n (out ++ [])).
  { intros s' E1 E2 E3 E4 E5 E6. split; [done|split; [done|]]. exists s'. rewrite app_nil_r.
    split_and!; [done|done|]. split; [|by rewrite E3]. destruct Hf as [F1 F2 F3 F4 F5 F6]. split; rewrite ?E1, ?E2, ?E3, ?E4; done. }
  assert (Hgen : generation s = g) by apply Hf.
  assert (Hlo : liveOrOpening s ≠ Closed) by (unfold liveOrOpening; by destruct (deliveredThrough s)).
  destruct op as [e|k gen|k|k gen|k|now|k err|k]; simpl in Hk; simplify_eq; simpl in Ht.
  - destruct (admit_flow c n out e Hc Ht Hk) as (n' & H1 & H2 & _). exists n'. by rewrite app_nil_r.
  - exists n. split; [|lia]. apply (Hsame (with_lifecycle (liveOrOpening s) s)); try done. simpl. unfold Open. rewrite Hs. simpl.
    rewrite decide_False by done. rewrite (proj2 (Z.ltb_ge _ _)) by (rewrite Hgen; by apply Ht). apply lookup_insert_eq.
  - exists n. split; [|lia]. simpl in Hsame |- *. unfold Suspend in *. rewrite Hs in Hsame |- *. case_decide; [by apply (Hsame s)|].
    apply (Hsame (with_lifecycle Suspended s)); try done. apply lookup_insert_eq.
  - exists n. split; [|lia]. apply (Hsame (with_errors 0 (with_lifecycle (liveOrOpening s) s))); try done. simpl.
    rewrite Hs. simpl. rewrite (proj2 (Z.ltb_ge _ _)) by (rewrite Hgen; by apply Ht). apply lookup_insert_eq.
  - exists n. split; [|lia]. simpl in Hsame |- *. rewrite Hs in Hsame |- *. simpl in Hsame |- *.
    eapply Hsame; [..|apply lookup_insert_eq]; done.
  - exists n. split; [|lia]. rewrite decide_True by done. clear Hsame. simpl in Hpol', Hmer' |- *. unfold DrainWindow in *. rewrite Hs in Hpol', Hmer' |- *.
    destruct (sc_window s) as [v|] eqn:Ew; simpl; (split; [done|split; [done|]]).
    + exists (clearWindow s). split_and!; [apply lookup_insert_eq|done|]. split; [|done]. destruct Hf as [F1 F2 F3 F4 F5 F6]. split; simpl; try done.
      intros s0. rewrite <-F6, Ew. unfold egress. by rewrite foldl_app.
    + exists s. split_and!; [done|done|]. split; [|done]. destruct Hf as [F1 F2 F3 F4 F5 F6]. split; try done.
      intros s0. rewrite <-F6. unfold egress. by rewrite foldl_app.
Qed.

Lemma run_flow c n out ops : flow_core c n out → (∀ op, op ∈ ops → truthful op) →
  ∃ n', flow_core (flow_run key c ops).1 n' (out ++ (flow_run key c ops).2) ∧ (n ≤ n')%Z.
Proof.
  revert c n out. induction ops as [|op ops IH]; intros c n out Hc Ht.
  { exists n. simpl. rewrite app_nil_r. split; [done|lia]. }
  cbn [flow_run]. destruct (step_flow c n out op Hc (Ht op ltac:(left))) as (n1 & Hc1 & Hle).
  destruct (IH _ n1 _ Hc1 (λ o Ho, Ht o ltac:(by right))) as (n2 & Hc2 & Hle2).
  destruct (flow_run key (ingress_step c op).1 ops) as [c' outs]. exists n2. simpl in *. rewrite app_assoc. split; [done|lia].
Qed.
End flow.

(** C33: one producer incarnation is delivered in order, exactly once.  Take a scope
    open at a generation, an associative merge and any overflow policy but
    DropOldest.  Whatever happens (envelopes of the producer's log arriving lost,
    repeated, reordered, late or refused, envelopes of older incarnations, drains,
    suspensions, reconnects and failures, other scopes), what the egress has after
    the drained windows and the open one is the fold of the payloads up to the
    watermark, each once and in sequence order; the buffer holds only later
    payloads, never more than its window; and while the scope is not suspended and
    the window is below its high-water mark, a fresh envelope with the next sequence
    is always delivered.  Of a suspended scope nothing is claimed there: it is
    documented to stop delivering, and the code delivers
    ([suspended_scope_delivers]). *)
Theorem Ingress_delivers_in_order {K T} `{Countable K} (m : MergePolicy T) p (key : K) g (pay : Z → T) c0 ops :
  (∀ a b c, Merge m (Merge m a b) c = Merge m a (Merge m b c)) → ig_overflow p ≠ OverflowDropOldest →
  core_policy c0 = p → core_merge c0 = m → scopes c0 !! key = Some (newIngressScope g) →
  (∀ op, op ∈ ops → truthful key g pay op) →
  let c := (flow_run key c0 ops).1 in
  ∃ s n, scopes c !! key = Some s ∧ generation s = g ∧ nextExpected s = n ∧ (0 ≤ n ≤ max_u64)%Z ∧
    (∀ s0, egress m s0 (flow_run key c0 ops).2 (sc_window s) = foldl (Merge m) s0 (pay <$> seqZ 0 n)) ∧
    size (sc_pending s) ≤ ReorderWindow p ∧
    (∀ q v st, sc_pending s !! q = Some (v, st) → (n < q)%Z ∧ v = pay q) ∧
    (∀ e, lifecycle s ≠ Suspended → en_key e = key → en_generation e = g → en_sequence e = n → Payload e = pay n → (n < max_u64)%Z →
      (ingressElapsed (observedNow c) (en_stamped e) ≤ FreshnessHorizon p)%Z → (windowDepth s < ig_high p)%Z →
      IsDelivered (Admit c e).2 = true ∧
      ∃ s', scopes (Admit c e).1.1 !! key = Some s' ∧ (n < nextExpected s')%Z).
Proof.
  intros Hassoc Hover Hpol Hmer Hs0 Ht c.
  assert (H0 : flow_core m p key g pay c0 0 []).
  { split; [done|split; [done|]]. exists (newIngressScope g). split_and!; [done|done|]. split; [|apply lookup_empty].
    split; simpl; [done|done|done| |rewrite map_size_empty; lia|done]. intros q v st Hq. by rewrite lookup_empty in Hq. }
  destruct (run_flow m Hassoc p Hover key g pay c0 0 [] ops H0 Ht) as (n & Hc & _). simpl in Hc. fold c in Hc.
  pose proof Hc as (Hp & Hm & s & Hs & Hl & Hf & Hpn). exists s, n.
  pose proof (flow_next _ _ _ _ _ _ _ Hf) as Hnext.
  split; [done|]. split; [apply Hf|]. split; [done|]. split; [apply Hf|]. split; [apply Hf|]. split; [apply Hf|]. split.
  - intros q v st Hq. destruct (fl_pending _ _ _ _ _ _ _ Hf q v st Hq) as [? ?].
    assert (q ≠ n) by (intros ->; congruence). split; [lia|done].
  - intros e _ Hk Hg Hq Hpay Hn Hfresh Hdepth.
    assert (Hdel : IsDelivered (Admit c e).2 = true).
    { unfold Admit. rewrite Hk, Hs. cbn [default from_option id]. unfold decide_. rewrite decide_False by done.
      rewrite Hp, Hm, (fl_gen _ _ _ _ _ _ _ Hf), Hg, !Z.ltb_irrefl, (proj2 (Z.ltb_ge _ _)) by done.
      unfold deliver. rewrite Hnext, Hq, !Z.ltb_irrefl, (proj2 (Z.leb_gt _ _)) by done.
      destruct (mergeInto m s _ _) as [s1 b1]. destruct (flush _ _ _ _ _) as [[s3 th] b3]. cbn [snd].
      by destruct b3. }
    split; [done|]. assert (Hte : truthful key g pay (OAdmit e)).
    { intros _. right. rewrite Hq. split_and!; [done|apply Hf|done|done]. }
    destruct (admit_flow m Hassoc p Hover key g pay c n _ e Hc Hte Hk) as (n' & (_ & _ & s' & Hs' & _ & Hf' & _) & _ & Hlt).
    exists s'. split; [done|]. rewrite (flow_next _ _ _ _ _ _ _ Hf'). by apply Hlt.
Qed.

(** ** Refusals and receipts *)

Section refusals.
Context {K T : Type} `{Countable K}.
Implicit Types (c : IngressCore K T).

Lemma deliver_refused p (m : MergePolicy T) s (e : IngressEnvelope K T) ho :
  (∃ r, (deliver p m s e ho).2 = DecisionRefuse r) ∨ (deliver p m s e ho).2 = DecisionBlock → (deliver p m s e ho).1 = s.
Proof.
  unfold deliver. destruct (_ <? _)%Z; [done|]. destruct (_ <? _)%Z; [repeat case_decide; simpl; by intros [[]|]|].
  assert (Haccept : ∀ s0, (∃ r, (let '(s1, conflated) := mergeInto m s0 (Payload e) (en_stamped e) in
      let s2 := with_errors 0 (with_lifecycle Live (with_delivered (en_sequence e) s1)) in
      let '(s3, through, conflated0) := flush (size (sc_pending s2)) m s2 (en_sequence e) conflated in
      (s3, DecisionDelivered through conflated0 ho)).2 = DecisionRefuse r) ∨ (let '(s1, conflated) := mergeInto m s0 (Payload e) (en_stamped e) in
      let s2 := with_errors 0 (with_lifecycle Live (with_delivered (en_sequence e) s1)) in
      let '(s3, through, conflated0) := flush (size (sc_pending s2)) m s2 (en_sequence e) conflated in
      (s3, DecisionDelivered through conflated0 ho)).2 = DecisionBlock → False).
  { intros s0. destruct (mergeInto m s0 _ _) as [s1 b1]. cbv zeta. destruct (flush _ _ _ _ _) as [[s3 th] b3]. by intros [[]|]. }
  destruct (_ <=? _)%Z; [|by intros ?%Haccept]. destruct (ig_overflow p); try done; by intros ?%Haccept.
Qed.

(** The envelope is of a newer incarnation than an open scope holds. *)
Definition hands_off c (e : IngressEnvelope K T) : Prop :=
  ∃ s, scopes c !! en_key e = Some s ∧ lifecycle s ≠ Closed ∧ (generation s < en_generation e)%Z.

Lemma decide_refused c s e : ¬ (lifecycle s ≠ Closed ∧ (generation s < en_generation e)%Z) →
  (∃ r, (decide_ c s e).2 = DecisionRefuse r) ∨ (decide_ c s e).2 = DecisionBlock → (decide_ c s e).1 = s.
Proof.
  intros Hno. unfold decide_. case_decide; [done|]. destruct (_ <? _)%Z; [done|]. destruct (_ <? _)%Z; [done|].
  destruct (Z.ltb_spec (generation s) (en_generation e)); [by destruct Hno|]. apply deliver_refused.
Qed.

(** The receipt log: bounded, with consecutive offsets up to the next one. *)
Definition log_ok c : Prop :=
  length (receipts c) ≤ ReceiptCapacity (core_policy c) ∧ (0 ≤ nextReceiptOffset c)%Z ∧
  Offset <$> receipts c = seqZ (nextReceiptOffset c - Z.of_nat (length (receipts c))) (Z.of_nat (length (receipts c))).

Lemma fmap_drop_ {A B} (f : A → B) (l : list A) n : f <$> drop n l = drop n (f <$> l).
Proof. revert n. induction l as [|x l IH]; intros [|n]; try done. simpl. apply IH. Qed.

Lemma seqZ_drop a (n k : nat) : k ≤ n → drop k (seqZ a (Z.of_nat n)) = seqZ (a + Z.of_nat k) (Z.of_nat (n - k)).
Proof.
  intros Hk. replace (Z.of_nat n) with (Z.of_nat k + Z.of_nat (n - k))%Z by lia. rewrite seqZ_app by lia.
  rewrite drop_app_length'; [done|]. rewrite length_seqZ. lia.
Qed.

Lemma pushReceipt_log c key gen seq o : log_ok c → (nextReceiptOffset c < max_u64)%Z → log_ok (pushReceipt c key gen seq o).
Proof.
  intros (Hlen & Hpos & Hoff) Hmax. unfold log_ok, pushReceipt. simpl. set (cap := ReceiptCapacity (core_policy c)) in *.
  assert (Hall : Offset <$> (receipts c ++ [mkReceipt (nextReceiptOffset c) key gen seq o]) =
    seqZ (nextReceiptOffset c + 1 - Z.of_nat (length (receipts c) + 1)) (Z.of_nat (length (receipts c) + 1))).
  { rewrite fmap_app, Hoff, Nat2Z.inj_add, seqZ_app by lia.
    f_equal; [f_equal; lia|].
    replace (_ + Z.of_nat (length (receipts c)))%Z with (nextReceiptOffset c) by lia. unfold seqZ. csimpl. by rewrite Z.add_0_l. }
  rewrite u64_small by zrange. rewrite length_drop, length_app. simpl. split_and!; [lia|lia|].
  rewrite fmap_drop_, Hall, seqZ_drop by lia. f_equal; lia.
Qed.

Lemma step_log c op : log_ok c → (nextReceiptOffset c < max_u64)%Z →
  log_ok (ingress_step c op).1 ∧ (nextReceiptOffset c ≤ nextReceiptOffset (ingress_step c op).1 ≤ nextReceiptOffset c + 1)%Z.
Proof.
  intros Hc Hmax.
  assert (Hpush : ∀ c' key gen seq o, receipts c' = receipts c → nextReceiptOffset c' = nextReceiptOffset c → core_policy c' = core_policy c →
    log_ok (pushReceipt c' key gen seq o) ∧
    (nextReceiptOffset c ≤ nextReceiptOffset (pushReceipt c' key gen seq o) ≤ nextReceiptOffset c + 1)%Z).
  { intros c' key gen seq o Hr Hn Hp. split.
    - apply pushReceipt_log; [|lia]. unfold log_ok. by rewrite Hr, Hn, Hp.
    - simpl. rewrite Hn. destruct Hc as (_ & ? & _). rewrite u64_small by zrange. lia. }
  assert (Hsame : ∀ c', receipts c' = receipts c → nextReceiptOffset c' = nextReceiptOffset c → core_policy c' = core_policy c →
    log_ok c' ∧ (nextReceiptOffset c ≤ nextReceiptOffset c' ≤ nextReceiptOffset c + 1)%Z).
  { intros c' Hr Hn Hp. split; [unfold log_ok; by rewrite Hr, Hn, Hp|lia]. }
  destruct op as [e|key gen|key|key gen|key|now|key err|key]; cbn [ingress_step].
  - unfold Admit. destruct (decide_ _ _ _) as [s [r| |q|q b ho]]; destruct (scopes c !! en_key e); cbn [fst snd]; first [by apply Hpush|by apply Hsame].
  - unfold Open. destruct (scopes c !! key); by apply Hsame.
  - unfold Suspend. destruct (scopes c !! key); [case_decide|]; by apply Hsame.
  - by apply Hsame.
  - unfold Close. destruct (scopes c !! key); [case_decide|]; by apply Hsame.
  - unfold Tick. case_decide; by apply Hsame.
  - by apply Hpush.
  - unfold DrainWindow. destruct (scopes c !! key) as [s|]; [destruct (sc_window s)|]; by apply Hsame.
Qed.

Lemma run_log c ops : log_ok c → (nextReceiptOffset c + Z.of_nat (length ops) ≤ max_u64)%Z →
  log_ok (foldl (λ c op, (ingress_step c op).1) c ops).
Proof.
  revert c. induction ops as [|op ops IH]; intros c Hc Hn; [done|]. simpl in Hn |- *.
  destruct (step_log c op Hc ltac:(lia)) as [Hc' Hn']. apply IH; [done|lia].
Qed.

Lemma run_policy c ops : core_policy (foldl (λ c op, (ingress_step c op).1) c ops) = core_policy c.
Proof. revert c. induction ops as [|op ops IH]; intros c; simpl; [done|]. rewrite IH. apply step_policy. Qed.

Lemma pushReceipt_last c key gen seq o : 0 < ReceiptCapacity (core_policy c) →
  last (receipts (pushReceipt c key gen seq o)) = Some (mkReceipt (nextReceiptOffset c) key gen seq o).
Proof.
  intros Hcap. simpl. rewrite length_app. simpl. rewrite drop_app_le by lia. apply last_snoc.
Qed.

(** The reason an admission is refused for. *)
Definition refusal (a : IngressAdmission) : option IngressDropReason :=
  match a with IngressRefused r => Some r | IngressBackpressured => Some IngressDropBackpressure | _ => None end.

Lemma Admit_refused c e reason : refusal (Admit c e).2 = Some reason → ¬ hands_off c e → 0 < ReceiptCapacity (core_policy c) →
  scopes (Admit c e).1.1 = scopes c ∧ (Admit c e).1.2 = mkIngressChange [] false true false ∧
  ∃ gen, last (receipts (Admit c e).1.1) = Some (mkReceipt (nextReceiptOffset c) (en_key e) gen (Some (en_sequence e)) (OutcomeDropped reason)).
Proof.
  intros Hr Hno Hcap. unfold hands_off in Hno. unfold Admit in *.
  destruct (scopes c !! en_key e) as [s|] eqn:Es; cbn [default from_option id] in *.
  - pose proof (decide_refused c s e) as Hd.
    assert (Hs : ¬ (lifecycle s ≠ Closed ∧ (generation s < en_generation e)%Z)) by (intros [??]; apply Hno; by exists s).
    specialize (Hd Hs). destruct (decide_ c s e) as [s' d]. cbn [fst snd] in Hd.
    destruct d as [r| |q|th b [[f t]|]]; try destruct b; cbn [snd refusal] in Hr; simplify_eq; cbn [fst snd];
      (rewrite Hd by eauto; split_and!; [by apply insert_id|done|]; eexists; exact (pushReceipt_last (set_scope (en_key e) s c) _ _ _ _ Hcap)).
  - destruct (decide_ c _ e) as [s' d].
    destruct d as [r| |q|th b [[f t]|]]; try destruct b; cbn [snd refusal] in Hr; simplify_eq; cbn [fst snd];
      (split_and!; [done|done|]; eexists; by apply pushReceipt_last).
Qed.
End refusals.

(** Refusing is a decision with a fixed order that changes nothing.  In any
    reachable core an envelope for a closed scope is refused as such; one below the
    fence of an open scope is refused as a stale generation whatever its sequence
    and stamp, so a zombie is never mistaken for a retry; one older than the
    freshness horizon is refused as expired and neither takes a reorder slot,
    hands off a generation nor creates a scope.  A refused or blocked envelope that
    is not of a newer incarnation leaves every scope as it was, dirties only the
    dropped-receipt reader and leaves exactly one receipt with its reason; and the
    log never exceeds its capacity and numbers receipts consecutively. *)
Theorem Ingress_refusals_change_nothing {K T} `{Countable K} (m : MergePolicy T) p c0 ops e
    (c := foldl (λ (c : IngressCore K T) op, (ingress_step c op).1) c0 ops) :
  NewIngressCore p m = inl c0 → (Z.of_nat (length ops) ≤ max_u64)%Z →
  (∀ s, scopes c !! en_key e = Some s → lifecycle s = Closed → (Admit c e).2 = IngressRefused IngressDropScopeClosed) ∧
  (∀ s, scopes c !! en_key e = Some s → lifecycle s ≠ Closed → (en_generation e < generation s)%Z →
    (Admit c e).2 = IngressRefused IngressDropStaleGeneration ∧ scopes (Admit c e).1.1 = scopes c) ∧
  ((FreshnessHorizon p < ingressElapsed (observedNow c) (en_stamped e))%Z →
    scopes (Admit c e).1.1 = scopes c ∧ is_Some (refusal (Admit c e).2) ∧
    ((∀ s, scopes c !! en_key e = Some s → lifecycle s ≠ Closed ∧ (generation s ≤ en_generation e)%Z) →
      (Admit c e).2 = IngressRefused IngressDropExpired)) ∧
  (∀ reason, refusal (Admit c e).2 = Some reason → ¬ hands_off c e →
    scopes (Admit c e).1.1 = scopes c ∧ (Admit c e).1.2 = mkIngressChange [] false true false ∧
    ∃ gen, last (receipts (Admit c e).1.1) =
      Some (mkReceipt (nextReceiptOffset c) (en_key e) gen (Some (en_sequence e)) (OutcomeDropped reason))) ∧
  length (receipts c) ≤ ReceiptCapacity p ∧
  Offset <$> receipts c = seqZ (nextReceiptOffset c - Z.of_nat (length (receipts c))) (Z.of_nat (length (receipts c))).
Proof.
  intros Hnew Hlen. assert (H0 : log_ok c0 ∧ nextReceiptOffset c0 = 0%Z ∧ core_policy c0 = p ∧ 0 < ReceiptCapacity p).
  { unfold NewIngressCore in Hnew. destruct (_ && _); [done|]. case_decide; [done|]. injection Hnew as <-. split_and!; [|done|done|lia].
    unfold log_ok. simpl. split_and!; [lia|done|done]. }
  destruct H0 as (Hlog0 & Hn0 & Hp0 & Hcap). destruct (run_log c0 ops Hlog0 ltac:(lia)) as (Hl1 & _ & Hl3).
  assert (Hp : core_policy c = p) by (unfold c; by rewrite run_policy). fold c in Hl1, Hl3. rewrite Hp in Hl1.
  assert (Hexp : (FreshnessHorizon p < ingressElapsed (observedNow c) (en_stamped e))%Z → ∀ s,
    (decide_ c s e).1 = s ∧ ∃ r, (decide_ c s e).2 = DecisionRefuse r ∧ (lifecycle s ≠ Closed → (generation s ≤ en_generation e)%Z → r = IngressDropExpired)).
  { intros Hx s. unfold decide_. rewrite Hp. case_decide; [split; [done|]; eexists; by split|].
    destruct (Z.ltb_spec (en_generation e) (generation s)); [split; [done|]; eexists; split; [done|lia]|].
    rewrite (proj2 (Z.ltb_lt _ _)) by done. split; [done|]. by eexists. }
  split_and!; [| | |intros reason Hr Hno; apply Admit_refused; [done|done|by rewrite Hp]|done|done].
  - intros s Hs Hcl. unfold Admit. rewrite Hs. cbn [default from_option id]. unfold decide_. by rewrite decide_True.
  - intros s Hs Hop Hg. unfold Admit. rewrite Hs. cbn [default from_option id]. unfold decide_. rewrite decide_False by done.
    rewrite (proj2 (Z.ltb_lt _ _)) by done. split; [done|]. by apply insert_id.
  - intros Hx. unfold Admit. destruct (scopes c !! en_key e) as [s|] eqn:Es; cbn [default from_option id].
    + destruct (Hexp Hx s) as (H1 & r & H2 & H3). destruct (decide_ c s e) as [s' d]. simpl in H1, H2. subst s' d. cbn [fst snd].
      split_and!; [by apply insert_id|by eexists|]. intros Hall. destruct (Hall s eq_refl). by rewrite H3.
    + destruct (Hexp Hx (newIngressScope (en_generation e))) as (H1 & r & H2 & H3).
      destruct (decide_ c _ e) as [s' d]. simpl in H1, H2. subst s' d. cbn [fst snd].
      split_and!; [done|by eexists|]. intros _. by rewrite H3.
Qed.

(** ** A run *)

Definition demo_core : IngressCore Z Z :=
  match NewIngressCore (mkIngressPolicy 2 100 10 OverflowConflate 4 10 1000) Sum with inl c => c | inr _ => mkCore DefaultIngressPolicy Sum ∅ [] 0 0 end.
(** The producer's log at key 7 and generation 1: the payload of sequence [q] is [10 + q]. *)
Definition demo_env (gen q : Z) : IngressEnvelope Z Z := NewIngressEnvelope 7%Z gen q 0%Z (10 + q)%Z.
Definition demo_ops : list (ingress_op Z Z) :=
  [OAdmit (demo_env 1 2); OAdmit (demo_env 1 1); OAdmit (demo_env 0 0); OAdmit (demo_env 1 0); ODrain 7%Z; OAdmit (demo_env 1 1); OAdmit (demo_env 1 3)].

Lemma Ingress_delivers_in_order_witness :
  let c0 := (Open demo_core 7%Z 1).1 in
  let r := flow_run 7%Z c0 demo_ops in
  nextExpected <$> scopes r.1 !! 7%Z = Some 4%Z ∧ r.2 = [Some 33%Z] ∧
  egress Sum 0%Z r.2 (scopes r.1 !! 7%Z ≫= sc_window) = 46%Z ∧ IsDelivered (Admit r.1 (demo_env 1 4)).2 = true.
Proof.
  intros c0 r.
  destruct (Ingress_delivers_in_order Sum (core_policy demo_core) 7%Z 1%Z (λ q, 10 + q)%Z c0 demo_ops (po_assoc _ _ Sum_ok) ltac:(done) eq_refl eq_refl)
    as (s & n & Hs & _ & Hn & _ & He & _ & _ & Hp); [by vm_compute| |].
  { intros op Hop. unfold demo_ops in Hop. rewrite !elem_of_cons, elem_of_nil in Hop.
    destruct_or!; subst; simpl; try done; intros _; first [by left|by right]. }
  fold r in Hs, He, Hp.
  assert (H4 : nextExpected <$> scopes r.1 !! 7%Z = Some 4%Z) by (vm_compute; reflexivity).
  assert (Hd : windowDepth <$> scopes r.1 !! 7%Z = Some 1%Z) by (vm_compute; reflexivity).
  assert (Hlive : lifecycle <$> scopes r.1 !! 7%Z = Some Live) by (vm_compute; reflexivity).
  assert (Hnow : observedNow r.1 = 0%Z) by (vm_compute; reflexivity).
  assert (Hout : r.2 = [Some 33%Z]) by (vm_compute; reflexivity).
  clearbody r. rewrite Hs in H4, Hd, Hlive |- *. injection H4 as H4. injection Hd as Hd. injection Hlive as Hlive. assert (n = 4%Z) as -> by (rewrite <-Hn; exact H4).
  split_and!; [by rewrite <-H4|done| |].
  - change (Some s ≫= sc_window) with (sc_window s). rewrite (He 0%Z). by vm_compute.
  - apply (Hp (demo_env 1 4)); try done; [by rewrite Hlive|by rewrite Hnow|by rewrite Hd].
Defined.

Lemma Ingress_refusals_change_nothing_witness :
  let c := foldl (λ c op, (ingress_step c op).1) demo_core (OOpen 7%Z 1 :: demo_ops) in
  (Admit c (demo_env 0 9)).2 = IngressRefused IngressDropStaleGeneration ∧
  scopes (Admit c (demo_env 1 2)).1.1 = scopes c ∧ (Admit c (demo_env 1 2)).2 = IngressRefused IngressDropDuplicateSequence ∧
  Offset <$> receipts c = [0; 1; 2; 3]%Z.
Proof.
  intros c.
  destruct (Ingress_refusals_change_nothing Sum (core_policy demo_core) demo_core (OOpen 7%Z 1 :: demo_ops) (demo_env 0 9)) as (_ & Hst & _ & _ & _ & Hoff);
    [reflexivity|by vm_compute|].
  destruct (Ingress_refusals_change_nothing Sum (core_policy demo_core) demo_core (OOpen 7%Z 1 :: demo_ops) (demo_env 1 2)) as (_ & _ & _ & Hre & _);
    [reflexivity|by vm_compute|]. fold c in Hst, Hre, Hoff.
  assert (Hc : (λ s, (lifecycle s, generation s)) <$> scopes c !! 7%Z = Some (Live, 1%Z)) by (vm_compute; reflexivity).
  destruct (scopes c !! 7%Z) as [s|] eqn:Es; [|done]. injection Hc as Hl Hg.
  split_and!.
  - apply (Hst s); [done|by rewrite Hl|by rewrite Hg].
  - apply (Hre IngressDropDuplicateSequence); [by vm_compute|]. intros (s' & Hs' & _ & Hlt).
    change (scopes c !! 7%Z = Some s') in Hs'. rewrite Es in Hs'. injection Hs' as <-. rewrite Hg in Hlt.
    change (1 < 1)%Z in Hlt. lia.
  - by vm_compute.
  - rewrite Hoff. by vm_compute.
Defined.

(** A scope that was suspended is documented to stop delivering; an envelope that
    arrives is delivered all the same and makes it live again. *)
Lemma suspended_scope_delivers :
  let c := (Suspend (Open demo_core 7%Z 1).1 7%Z).1.1 in
  (Admit c (demo_env 1 0)).2 = IngressAdmitted 0 ∧ lifecycle <$> scopes (Admit c (demo_env 1 0)).1.1 !! 7%Z = Some Live.
Proof. by vm_compute. Qed.

(** Opening at a newer generation restarts the sequence but keeps the window of
    the old incarnation, into which the new one's payload is merged. *)
Lemma open_keeps_superseded_window :
  let c := (Open (Admit (Open demo_core 7%Z 1).1 (demo_env 1 0)).1.1 7%Z 2).1 in
  (Admit c (demo_env 2 0)).2 = IngressCoalesced 0 ∧ PeekWindow (Admit c (demo_env 2 0)).1.1 7%Z = Some 20%Z.
Proof. by vm_compute. Qed.
