(* ===== verification/IngressShell.v ===== *)
(** * IngressShell: the reactive ingress (ingress.go) over its core

    Each scope has four readers and the ingress three receipt readers, each a slot: a
    cached value that an invalidation clears and a read computes again.  The shell
    clears exactly what the core reports.  The theorem says when that report is enough
    for every read to be current; the lemmas at the end show the transitions that
    report too little. *)

From S2P Require Import Prelude Relay Ingress IngressFlow.

Section shell.
Context {K T : Type} `{Countable K}.
Implicit Types (c : IngressCore K T).

(** A cached read: the value and the slot after it.  A slot is unguarded, so clearing it
    is what its dependents see. *)
Definition read_slot {A} (cache : option A) (compute : A) : A * option A := (default compute cache, Some (default compute cache)).

(** [ingress.go] [type IngressScopeReaders] [type IngressWindow] *)
Record IngressScopeReaders := mkReaders {
  rd_value : option (option T); rd_readiness : option IngressReadiness; rd_authority : option (option IngressAuthority); rd_retry : option (option IngressRetry) }.
(** [ingress.go] [lines 126-143 IngressCell.ScopeReaders] *)
Definition fresh_readers : IngressScopeReaders := mkReaders None None None None.
(** [ingress.go] [type IngressReceiptReaders] *)
Record IngressReceiptReaders := mkReceiptReaders { rr_accepted : option (list (IngressReceipt K)); rr_dropped : option (list (IngressReceipt K)); rr_errors : option (list (IngressReceipt K)) }.
(** [ingress.go] [type IngressCell] *)
Record IngressCell := mkCell { core : IngressCore K T; readers : gmap K IngressScopeReaders; rec_readers : IngressReceiptReaders; transportKind : IngressTransportKind;
  pollInterval : Z; schedule : option IngressSchedule }.
(** [ingress.go] [NewIngressCell] *)
Definition NewIngressCell (p : IngressPolicy) (m : MergePolicy T) (kind : IngressTransportKind) (poll : Z) : IngressCell + IngressConfigError :=
  match NewIngressCore p m with inl c => inl (mkCell c ∅ (mkReceiptReaders None None None) kind poll None) | inr e => inr e end.
(** [ingress.go] [IngressCell.ScopeReaders] *)
Definition ScopeReaders (i : IngressCell) (key : K) : IngressCell * IngressScopeReaders :=
  match readers i !! key with
  | Some r => (i, r)
  | None => (mkCell (core i) (<[key := fresh_readers]> (readers i)) (rec_readers i) (transportKind i) (pollInterval i) (schedule i), fresh_readers)
  end.
Definition clear {A} (b : bool) (cache : option A) : option A := if b then None else cache.
(** [ingress.go] [lines 162-176 IngressCell.apply] *)
Definition clear_scope (rs : gmap K IngressScopeReaders) (d : K * IngressScopeChange) : gmap K IngressScopeReaders :=
  let r := default fresh_readers (rs !! d.1) in
  <[d.1 := mkReaders (clear (ch_value d.2) (rd_value r)) (clear (ch_readiness d.2) (rd_readiness r)) (clear (ch_authority d.2) (rd_authority r))
             (clear (ch_retry d.2) (rd_retry r))]> rs.
(** One batch: nothing reads between the core's change and the last clearing.
    [ingress.go] [IngressCell.apply] *)
Definition apply (i : IngressCell) (ch : IngressChange K) : IngressCell :=
  if IsEmptyChange ch then i
  else
    mkCell (core i) (foldl clear_scope (readers i) (Scopes ch))
      (mkReceiptReaders (clear (AcceptedReceipts ch) (rr_accepted (rec_readers i))) (clear (DroppedReceipts ch) (rr_dropped (rec_readers i)))
         (clear (ErrorReceipts ch) (rr_errors (rec_readers i)))) (transportKind i) (pollInterval i) (schedule i).
Definition with_core (i : IngressCell) c : IngressCell := mkCell c (readers i) (rec_readers i) (transportKind i) (pollInterval i) (schedule i).

(** [ingress.go] [IngressCell.Open] *)
Definition Cell_Open (i : IngressCell) (key : K) (gen : Z) : IngressCell := let '(c, ch) := Open (core i) key gen in apply (with_core i c) ch.
(** [ingress.go] [IngressCell.Admit] *)
Definition Cell_Admit (i : IngressCell) (e : IngressEnvelope K T) : IngressCell * IngressAdmission :=
  let '(c, ch, a) := Admit (core i) e in (apply (with_core i c) ch, a).
(** [ingress.go] [IngressCell.Suspend] *)
Definition Cell_Suspend (i : IngressCell) (key : K) : IngressCell * option ReplayRequest := let '(c, ch, r) := Suspend (core i) key in (apply (with_core i c) ch, r).
(** [ingress.go] [IngressCell.Reconnect] *)
Definition Cell_Reconnect (i : IngressCell) (key : K) (gen : Z) : IngressCell * ReplayRequest :=
  let '(c, ch, r) := Reconnect (core i) key gen in (apply (with_core i c) ch, r).
(** [ingress.go] [IngressCell.Close] *)
Definition Cell_Close (i : IngressCell) (key : K) : IngressCell := let '(c, ch) := Close (core i) key in apply (with_core i c) ch.
(** [ingress.go] [IngressCell.Fail] *)
Definition Cell_Fail (i : IngressCell) (key : K) (err : IngressError) : IngressCell := let '(c, ch) := Fail (core i) key err in apply (with_core i c) ch.
(** [ingress.go] [IngressCell.Tick] *)
Definition Cell_Tick (i : IngressCell) (now : Z) : IngressCell := let '(c, ch) := Tick (core i) now in apply (with_core i c) ch.
(** [ingress.go] [IngressCell.Drain] *)
Definition Cell_Drain (i : IngressCell) (key : K) : IngressCell * option T := let '(c, ch, v) := DrainWindow (core i) key in (apply (with_core i c) ch, v).

Definition with_readers (i : IngressCell) (key : K) (r : IngressScopeReaders) : IngressCell :=
  mkCell (core i) (<[key := r]> (readers i)) (rec_readers i) (transportKind i) (pollInterval i) (schedule i).
(** [ingress.go] [IngressCell.Value] *)
Definition Value (i : IngressCell) (key : K) : IngressCell * option T :=
  let '(i, r) := ScopeReaders i key in let '(v, s) := read_slot (rd_value r) (PeekWindow (core i) key) in
  (with_readers i key (mkReaders s (rd_readiness r) (rd_authority r) (rd_retry r)), v).
(** [ingress.go] [IngressCell.Readiness] *)
Definition Cell_Readiness (i : IngressCell) (key : K) : IngressCell * IngressReadiness :=
  let '(i, r) := ScopeReaders i key in let '(v, s) := read_slot (rd_readiness r) (Readiness (core i) key) in
  (with_readers i key (mkReaders (rd_value r) s (rd_authority r) (rd_retry r)), v).
(** [ingress.go] [IngressCell.Authority] *)
Definition Cell_Authority (i : IngressCell) (key : K) : IngressCell * option IngressAuthority :=
  let '(i, r) := ScopeReaders i key in let '(v, s) := read_slot (rd_authority r) (Authority (core i) key) in
  (with_readers i key (mkReaders (rd_value r) (rd_readiness r) s (rd_retry r)), v).
(** [ingress.go] [IngressCell.Retry] *)
Definition Cell_Retry (i : IngressCell) (key : K) : IngressCell * option IngressRetry :=
  let '(i, r) := ScopeReaders i key in let '(v, s) := read_slot (rd_retry r) (Retry (core i) key) in
  (with_readers i key (mkReaders (rd_value r) (rd_readiness r) (rd_authority r) s), v).
Definition with_rec (i : IngressCell) (r : IngressReceiptReaders) : IngressCell := mkCell (core i) (readers i) r (transportKind i) (pollInterval i) (schedule i).
(** [ingress.go] [IngressCell.Accepted] [IngressCell.receiptReader] *)
Definition Accepted (i : IngressCell) : IngressCell * list (IngressReceipt K) :=
  let '(v, s) := read_slot (rr_accepted (rec_readers i)) (Receipts (core i) ReceiptAccepted) in
  (with_rec i (mkReceiptReaders s (rr_dropped (rec_readers i)) (rr_errors (rec_readers i))), v).
(** [ingress.go] [IngressCell.Dropped] *)
Definition Dropped (i : IngressCell) : IngressCell * list (IngressReceipt K) :=
  let '(v, s) := read_slot (rr_dropped (rec_readers i)) (Receipts (core i) ReceiptDropped) in
  (with_rec i (mkReceiptReaders (rr_accepted (rec_readers i)) s (rr_errors (rec_readers i))), v).
(** [ingress.go] [IngressCell.Errors] *)
Definition Errors (i : IngressCell) : IngressCell * list (IngressReceipt K) :=
  let '(v, s) := read_slot (rr_errors (rec_readers i)) (Receipts (core i) ReceiptError) in
  (with_rec i (mkReceiptReaders (rr_accepted (rec_readers i)) (rr_dropped (rec_readers i)) s), v).
(** [ingress.go] [IngressCell.Schedule] *)
Definition Schedule (i : IngressCell) : IngressCell * IngressSchedule :=
  let '(v, s) := read_slot (schedule i) (IngressScheduleFor (transportKind i) (pollInterval i)) in
  (mkCell (core i) (readers i) (rec_readers i) (transportKind i) (pollInterval i) s, v).
(** A source that is set to the value it has invalidates nothing.
    [ingress.go] [IngressCell.SetTransport] *)
Definition SetTransport (i : IngressCell) (k : IngressTransportKind) : IngressCell :=
  mkCell (core i) (readers i) (rec_readers i) k (pollInterval i) (clear (bool_decide (transportKind i ≠ k)) (schedule i)).
(** [ingress.go] [IngressCell.SetPollInterval] *)
Definition SetPollInterval (i : IngressCell) (n : Z) : IngressCell :=
  mkCell (core i) (readers i) (rec_readers i) (transportKind i) n (clear (bool_decide (pollInterval i ≠ n)) (schedule i)).

(** ** Transports *)

(** What [Pump] needs of a transport.
    [ingress_core.go] [type IngressTransport] *)
Class IngressTransport (Tr : Type) := {
  tr_Kind : Tr → IngressTransportKind; tr_Drain : Tr → Tr * list (IngressEnvelope K T); tr_RequestReplay : Tr → K → ReplayRequest → Tr * bool }.
(** [ingress_core.go] [type InProcIngress] [type IngressReplayRecord] *)
Record InProcIngress := mkInProc { ip_kind : IngressTransportKind; inbound : list (IngressEnvelope K T); replays : list (K * ReplayRequest) }.
(** [ingress_core.go] [NewInProcIngress] *)
Definition NewInProcIngress (k : IngressTransportKind) : InProcIngress := mkInProc k [] [].
(** [ingress_core.go] [InProcIngress.Push] *)
Definition Push (t : InProcIngress) (e : IngressEnvelope K T) : InProcIngress := mkInProc (ip_kind t) (inbound t ++ [e]) (replays t).
(** [ingress_core.go] [InProcIngress.Drain] *)
Definition InProc_Drain (t : InProcIngress) : InProcIngress * list (IngressEnvelope K T) := (mkInProc (ip_kind t) [] (replays t), inbound t).
(** [ingress_core.go] [InProcIngress.RequestReplay] *)
Definition InProc_RequestReplay (t : InProcIngress) (key : K) (r : ReplayRequest) : InProcIngress * bool :=
  if decide (ip_kind t = IngressTransportBoundedPolling) then (t, false) else (mkInProc (ip_kind t) (inbound t) (replays t ++ [(key, r)]), true).
#[export] Instance InProc_transport : IngressTransport InProcIngress := { tr_Kind := ip_kind; tr_Drain := InProc_Drain; tr_RequestReplay := InProc_RequestReplay }.

(** [ingress.go] [lines 244-250 IngressCell.Pump] [ingressContainsKey] *)
Definition pump_admit (st : IngressCell * list IngressAdmission * list K) (e : IngressEnvelope K T) : IngressCell * list IngressAdmission * list K :=
  let '(i, outcomes, touched) := st in
  let '(i, a) := Cell_Admit i e in
  (i, outcomes ++ [a], if decide (en_key e ∈ touched) then touched else touched ++ [en_key e]).
(** [ingress.go] [lines 251-260 IngressCell.Pump] *)
Definition pump_replay {Tr} `{!IngressTransport Tr} (i : IngressCell) (t : Tr) (key : K) : Tr :=
  match View (core i) key with
  | Some v => if HasGap v then (tr_RequestReplay t key (mkReplay (Generation v) (ResumeFrom v))).1 else t
  | None => t
  end.
(** [ingress.go] [IngressCell.Pump] *)
Definition Pump {Tr} `{!IngressTransport Tr} (i : IngressCell) (t : Tr) : IngressCell * Tr * list IngressAdmission :=
  let '(t, batch) := tr_Drain t in
  let '(i, outcomes, touched) := foldl pump_admit (i, [], []) batch in
  (i, foldl (pump_replay i) t touched, outcomes).
End shell.
Arguments IngressScopeReaders : clear implicits.
Arguments IngressReceiptReaders : clear implicits.
Arguments IngressCell K T {_ _}.
Arguments InProcIngress : clear implicits.
Arguments IngressTransport : clear implicits.

(** ** When the report is enough *)

Section currency.
Context {K T : Type} `{Countable K}.
Implicit Types (c : IngressCore K T) (i : IngressCell K T) (ch : IngressChange K).

(** The report marks this reader of this scope. *)
Definition marks (f : IngressScopeChange → bool) (key : K) ch : bool := existsb (λ d, bool_decide (d.1 = key) && f d.2) (Scopes ch).
(** Whatever the report leaves out reads the same before and after. *)
Record covers c c' ch : Prop := {
  co_value key : marks ch_value key ch = false → PeekWindow c' key = PeekWindow c key;
  co_readiness key : marks ch_readiness key ch = false → Readiness c' key = Readiness c key;
  co_authority key : marks ch_authority key ch = false → Authority c' key = Authority c key;
  co_retry key : marks ch_retry key ch = false → Retry c' key = Retry c key;
  co_accepted : AcceptedReceipts ch = false → Receipts c' ReceiptAccepted = Receipts c ReceiptAccepted;
  co_dropped : DroppedReceipts ch = false → Receipts c' ReceiptDropped = Receipts c ReceiptDropped;
  co_errors : ErrorReceipts ch = false → Receipts c' ReceiptError = Receipts c ReceiptError }.

(** A receipt of this channel evicts none of another. *)
Definition room c (channel : IngressReceiptChannel) : Prop :=
  length (receipts c) < ReceiptCapacity (core_policy c) ∨ ∃ r, hd_error (receipts c) = Some r ∧ Channel r = channel.
(** The transitions whose report is enough.  An envelope of a newer incarnation must be
    delivered, or held by a scope without errors; a scope may be opened at a newer
    generation only before its first delivery and reopened without errors; a
    closed scope is not reconnected; and a receipt evicts none of another channel. *)
Definition reported c (op : ingress_op K T) : Prop :=
  match op with
  | OAdmit e =>
      match (Admit c e).2 with
      | IngressHeld _ => ∀ s, hands_off c e → scopes c !! en_key e = Some s → consecutiveErrors s = 0%Z
      | IngressRefused _ | IngressBackpressured => ¬ hands_off c e ∧ room c ReceiptDropped
      | _ => room c ReceiptAccepted
      end
  | OOpen key gen =>
      ∀ s, scopes c !! key = Some s →
        if decide (lifecycle s = Closed) then consecutiveErrors s = 0%Z else (generation s < gen)%Z → deliveredThrough s = None
  | OReconnect key _ => ∀ s, scopes c !! key = Some s → lifecycle s ≠ Closed
  | OFail _ _ => room c ReceiptError
  | _ => True
  end.

(** What the readers of a scope are computed from. *)
Lemma readers_of_view c c' key : View c' key = View c key →
  Readiness c' key = Readiness c key ∧ Authority c' key = Authority c key ∧ Retry c' key = Retry c key.
Proof. unfold Readiness, Authority, Retry. by intros ->. Qed.

(** Only one scope changed, and only as marked. *)
Lemma covers_scope c c' key s' d :
  core_policy c' = core_policy c → observedNow c' = observedNow c → receipts c' = receipts c → scopes c' = <[key := s']> (scopes c) →
  (ch_value d = false → sc_window s' = scopes c !! key ≫= sc_window) →
  (ch_readiness d = false → view_Readiness (scope_view s' (observedNow c) (core_policy c)) = Readiness c key) →
  (ch_authority d = false → view_Authority (scope_view s' (observedNow c) (core_policy c)) = Authority c key) →
  (ch_retry d = false → view_Retry (scope_view s' (observedNow c) (core_policy c)) = Retry c key) →
  covers c c' (mark no_change key d).
Proof.
  intros Hp Hn Hr Hs Hv Hrd Hau Hre.
  assert (Hmark : ∀ f, (change_IsEmpty d = true → f d = false) → marks f key (mark no_change key d) = f d).
  { intros f Hf. unfold mark. destruct (change_IsEmpty d); simpl; [by rewrite Hf|]. unfold marks. simpl. rewrite bool_decide_true by done. by rewrite orb_false_r. }
  assert (Hem : change_IsEmpty d = true → ch_value d = false ∧ ch_readiness d = false ∧ ch_authority d = false ∧ ch_retry d = false).
  { unfold change_IsEmpty. destruct (ch_value d), (ch_readiness d), (ch_authority d), (ch_retry d); done. }
  assert (Hother : ∀ k, k ≠ key → scopes c' !! k = scopes c !! k) by (intros k Hk; by rewrite Hs, lookup_insert_ne).
  assert (Hview : ∀ k, k ≠ key → View c' k = View c k) by (intros k Hk; unfold View; by rewrite Hother, Hp, Hn).
  assert (Hat : View c' key = Some (scope_view s' (observedNow c) (core_policy c))) by (unfold View; by rewrite Hs, lookup_insert_eq, Hp, Hn).
  split; try (intros _; unfold Receipts; by rewrite Hr).
  - intros k Hm. unfold PeekWindow. destruct (decide (k = key)) as [->|Hk]; [|by rewrite Hother].
    rewrite Hs, lookup_insert_eq. simpl. apply Hv. rewrite <-Hm, Hmark; [done|]. naive_solver.
  - intros k Hm. destruct (decide (k = key)) as [->|Hk]; [|by apply readers_of_view, Hview].
    unfold Readiness at 1. rewrite Hat. apply Hrd. rewrite <-Hm, Hmark; [done|]. naive_solver.
  - intros k Hm. destruct (decide (k = key)) as [->|Hk]; [|by apply readers_of_view, Hview].
    unfold Authority at 1. rewrite Hat. apply Hau. rewrite <-Hm, Hmark; [done|]. naive_solver.
  - intros k Hm. destruct (decide (k = key)) as [->|Hk]; [|by apply readers_of_view, Hview].
    unfold Retry at 1. rewrite Hat. apply Hre. rewrite <-Hm, Hmark; [done|]. naive_solver.
Qed.

Lemma covers_refl c : covers c c no_change.
Proof. by split. Qed.

(** A receipt on top. *)
Lemma covers_receipt c c' ch key gen seq o :
  covers c c' ch → receipts c' = receipts c → core_policy c' = core_policy c → length (receipts c) ≤ ReceiptCapacity (core_policy c) →
  let channel := match o with OutcomeAccepted _ _ => ReceiptAccepted | OutcomeDropped _ => ReceiptDropped | OutcomeError _ => ReceiptError end in
  room c channel → covers c (pushReceipt c' key gen seq o) (markChannel ch channel).
Proof.
  intros [hv hr ha ht h1 h2 h3] Hl Hp Hcap channel Hroom.
  assert (Hrec : ∀ other, other ≠ channel → Receipts (pushReceipt c' key gen seq o) other = Receipts c other).
  { intros other Hne. unfold Receipts, pushReceipt. simpl. rewrite Hl, Hp, length_app. simpl.
    assert (Hnew : ∀ l : list (IngressReceipt K), filter (λ r, Channel r = other) (l ++ [mkReceipt (nextReceiptOffset c') key gen seq o]) = filter (λ r, Channel r = other) l).
    { intros l. rewrite filter_app, filter_cons_False, filter_nil, app_nil_r; [done|]. unfold Channel; simpl. by destruct o. }
    destruct Hroom as [Hlt|(r & Hh & Hc)].
    - replace (_ + 1 - _) with 0 by lia. rewrite drop_0. apply Hnew.
    - destruct (receipts c) as [|x l] eqn:Ex; [done|]. injection Hh as ->. simpl in *.
      destruct (S (length l + 1) - ReceiptCapacity (core_policy c)) as [|[|n]] eqn:En; [exact (Hnew (r :: l))| |lia].
      simpl. rewrite drop_0, Hnew, filter_cons_False; [done|]. by rewrite Hc. }
  assert (Hm : ∀ f k, marks f k (markChannel ch channel) = marks f k ch) by (by intros; destruct channel).
  split; intros *; rewrite ?Hm.
  - apply hv.
  - apply hr.
  - apply ha.
  - apply ht.
  - intros Hf. destruct (decide (channel = ReceiptAccepted)) as [Heq|Hne]; [by rewrite Heq in Hf|]. by apply Hrec.
  - intros Hf. destruct (decide (channel = ReceiptDropped)) as [Heq|Hne]; [by rewrite Heq in Hf|]. by apply Hrec.
  - intros Hf. destruct (decide (channel = ReceiptError)) as [Heq|Hne]; [by rewrite Heq in Hf|]. by apply Hrec.
Qed.

Lemma deliver_held p (m : MergePolicy T) s (e : IngressEnvelope K T) ho q : (deliver p m s e ho).2 = DecisionBuffered q → ∃ b, (deliver p m s e ho).1 = with_pending b s.
Proof.
  unfold deliver. destruct (_ <? _)%Z; [done|]. destruct (_ <? _)%Z.
  - repeat case_decide; [done|done|]. intros _. by eexists.
  - assert (Haccept : ∀ s0, (let '(s1, conflated) := mergeInto m s0 (Payload e) (en_stamped e) in
      let s2 := with_errors 0 (with_lifecycle Live (with_delivered (en_sequence e) s1)) in
      let '(s3, through, conflated0) := flush (size (sc_pending s2)) m s2 (en_sequence e) conflated in
      (s3, DecisionDelivered through conflated0 ho)).2 ≠ DecisionBuffered q).
    { intros s0. destruct (mergeInto _ _ _ _). simpl. by destruct (flush _ _ _ _ _) as [[??]?]. }
    destruct (_ <=? _)%Z; [|intros Hq; by destruct (Haccept s Hq)].
    destruct (ig_overflow p); try done; intros Hq; by first [destruct (Haccept s Hq)|destruct (Haccept (clearWindow s) Hq)].
Qed.

Lemma decide_held c s e q : (decide_ c s e).2 = DecisionBuffered q →
  lifecycle s ≠ Closed ∧ ∃ b, (decide_ c s e).1 = with_pending b (if (generation s <? en_generation e)%Z then clearWindow (reset_sequence (en_generation e) s) else s).
Proof.
  unfold decide_. case_decide; [done|]. destruct (_ <? _)%Z; [done|]. destruct (_ <? _)%Z; [done|].
  destruct (_ <? _)%Z; intros [b Hb]%deliver_held; (split; [done|by exists b]).
Qed.

Lemma admit_covers c e : length (receipts c) ≤ ReceiptCapacity (core_policy c) → reported c (OAdmit e) → covers c (Admit c e).1.1 (Admit c e).1.2.
Proof.
  intros Hcap Hrep. unfold reported in Hrep. unfold Admit in *.
  destruct (decide_ c (default (newIngressScope (en_generation e)) (scopes c !! en_key e)) e) as [s d] eqn:Ed. set (key := en_key e) in *.
  assert (Hs : ∀ keep : bool, receipts (if keep then set_scope key s c else c) = receipts c ∧ core_policy (if keep then set_scope key s c else c) = core_policy c) by (by intros []).
  assert (Hstay : (∃ r, d = DecisionRefuse r) ∨ d = DecisionBlock → ¬ hands_off c e → covers c (if match scopes c !! key, d with None, (DecisionRefuse _ | DecisionBlock) => false | _, _ => true end then set_scope key s c else c) no_change).
  { intros Hd Hno. destruct (scopes c !! key) as [b|] eqn:Eb; simpl in Ed.
    - assert (s = b) as ->.
      { pose proof (decide_refused c b e) as Hdr. rewrite Ed in Hdr. apply Hdr; [|done]. intros [? ?]. apply Hno. by exists b. }
      assert (set_scope key b c = c) as ->; [|by destruct Hd as [[? ->]| ->]]. unfold set_scope, with_scopes. rewrite insert_id by done. by destruct c.
    - by destruct Hd as [[? ->]| ->]. }
  destruct d as [r| |q|q b ho]; cbn [fst snd] in *.
  - destruct Hrep as [Hno Hroom]. apply (covers_receipt _ _ _ _ _ _ (OutcomeDropped r)); try done; [|apply Hs..]. apply Hstay; [left; by exists r|done].
  - destruct Hrep as [Hno Hroom]. apply (covers_receipt _ _ _ _ _ _ (OutcomeDropped IngressDropBackpressure)); try done; [|apply Hs..]. apply Hstay; [by right|done].
  - pose proof (decide_held c _ e q ltac:(by rewrite Ed)) as [Hl [pd Hb]]. rewrite Ed in Hb. cbn [fst] in Hb. subst s.
    destruct (scopes c !! key) as [b|] eqn:Eb; cbn [default from_option id] in *.
    + assert (HV : View c key = Some (scope_view b (observedNow c) (core_policy c))) by (unfold View; by rewrite Eb).
      assert (Herr : (generation b < en_generation e)%Z → consecutiveErrors b = 0%Z) by (intros Hg; apply Hrep; [by exists b|done]).
      apply (covers_scope c _ key (with_pending pd (if (generation b <? en_generation e)%Z then clearWindow (reset_sequence (en_generation e) b) else b))); try done;
        unfold Readiness, Authority, Retry; rewrite ?HV, ?Eb; simpl; clear Hstay Hs Ed; destruct (Z.ltb_spec (generation b) (en_generation e)) as [Hg|Hg]; try done; simpl.
      * destruct (sc_window b); done.
      * unfold view_Readiness; simpl. rewrite bool_decide_false by (intros Hx; by apply Hx). destruct (deliveredThrough b); done.
      * rewrite bool_decide_true by lia. done.
      * unfold view_Retry; simpl. by rewrite Herr.
    + apply (covers_scope c _ key (with_pending pd (if (en_generation e <? en_generation e)%Z then clearWindow (reset_sequence (en_generation e) (newIngressScope (en_generation e))) else newIngressScope (en_generation e))));
        try done; rewrite Z.ltb_irrefl; unfold Retry, View; rewrite ?Eb; done.
  - assert (Hcov : covers c (set_scope key s c) (mark no_change key changeAll)) by (by apply (covers_scope c _ key s)).
    assert (Hr : room c ReceiptAccepted) by (destruct ho as [[]|]; [done|]; by destruct b).
    assert (Hk : (match scopes c !! key, DecisionDelivered q b ho with None, (DecisionRefuse _ | DecisionBlock) => false | _, _ => true end) = true) by (by destruct (scopes c !! key)).
    rewrite Hk. by apply (covers_receipt _ _ _ _ _ _ (OutcomeAccepted q b)).
Qed.

Definition scope_ok (s : ingressScope T) : Prop := (0 ≤ consecutiveErrors s)%Z ∧ (lifecycle s = Closed → sc_window s = None).
Definition core_ok c : Prop := map_Forall (λ _, scope_ok) (scopes c) ∧ length (receipts c) ≤ ReceiptCapacity (core_policy c).

Lemma open_covers c key gen : core_ok c → reported c (OOpen key gen) → covers c (Open c key gen).1 (Open c key gen).2.
Proof.
  intros [Hok _] Hrep. unfold Open. unfold reported in Hrep. destruct (scopes c !! key) as [s|] eqn:Es.
  - destruct (Hok _ _ Es) as [_ Hclosed]. specialize (Hrep s eq_refl).
    assert (HrC : lifecycle s = Closed → consecutiveErrors s = 0%Z) by (intros Hc; by rewrite decide_True in Hrep by done).
    assert (HrO : lifecycle s ≠ Closed → (generation s < gen)%Z → deliveredThrough s = None) by (intros Hc; by rewrite decide_False in Hrep by done).
    clear Hrep. assert (HV : View c key = Some (scope_view s (observedNow c) (core_policy c))) by (unfold View; by rewrite Es).
    set (s' := if decide (lifecycle s = Closed) then _ else _). cbn [fst snd].
    assert (Hfix : (if decide (lifecycle s ≠ lifecycle s' ∨ generation s ≠ generation s' ∨ deliveredThrough s ≠ deliveredThrough s')
       then mark no_change key (mkChange false (bool_decide (lifecycle s ≠ lifecycle s')) true false) else no_change) =
       mark no_change key (mkChange false (bool_decide (lifecycle s ≠ lifecycle s')) (bool_decide (lifecycle s ≠ lifecycle s' ∨ generation s ≠ generation s' ∨ deliveredThrough s ≠ deliveredThrough s')) false)).
    { case_decide as Hd; [by rewrite (bool_decide_true (_ ∨ _))|]. rewrite (bool_decide_false (_ ∨ _)) by done. by rewrite bool_decide_false by naive_solver. }
    rewrite Hfix. apply (covers_scope c _ key s'); try done; unfold Readiness, Authority, Retry; rewrite ?HV, ?Es; simpl; clear Hfix.
    + intros _. subst s'. case_decide; simpl; [by rewrite Hclosed|]. by destruct (_ <? _)%Z.
    + intros Hl%bool_decide_eq_false. apply dec_stable in Hl. unfold view_Readiness; simpl. rewrite <-Hl. subst s'. destruct (lifecycle s) eqn:El; try done.
      case_decide as Hc; [done|]. unfold IsFresh. simpl. destruct (Z.ltb_spec (generation s) gen); simpl; [|done]. by rewrite HrO.
    + intros Hl%bool_decide_eq_false. unfold view_Authority. simpl. 
      assert (H1 : lifecycle s = lifecycle s') by (apply dec_stable; tauto). assert (H2 : generation s = generation s') by (apply dec_stable; tauto).
      assert (H3 : deliveredThrough s = deliveredThrough s') by (apply dec_stable; tauto).
      rewrite <-H1, <-H2, <-H3. subst s'. destruct (decide (lifecycle s = Closed)); [done|]. do 2 f_equal. repeat case_decide; try done. by destruct (_ <? _)%Z.
    + intros _. subst s'. unfold view_Retry. simpl. case_decide as Hc; simpl; [by rewrite HrC|]. destruct (Z.ltb_spec (generation s) gen); simpl; [|done].
      unfold ResumeFrom. simpl. by rewrite HrO.
  - cbn [fst snd]. apply (covers_scope c _ key (newIngressScope gen)); try done; unfold Retry, View; rewrite ?Es; done.
Qed.

Lemma scope_covers c op key : core_ok c → reported c op →
  match op with OSuspend k | OReconnect k _ | OClose k | OFail k _ | ODrain k => k = key | _ => False end → covers c (ingress_step c op).1 (ingress_step c op).2.
Proof.
  intros [Hok Hcap] Hrep Hop.
  assert (HV : ∀ s, scopes c !! key = Some s → View c key = Some (scope_view s (observedNow c) (core_policy c))) by (intros s Es; unfold View; by rewrite Es).
  destruct op as [|?|k|k gen|k|?|k err|k]; try done; subst k; cbn [ingress_step].
  - unfold Suspend. destruct (scopes c !! key) as [s|] eqn:Es; [|apply covers_refl]. case_decide as Hl; [apply covers_refl|]. cbn [fst snd].
    apply (covers_scope c _ key (with_lifecycle Suspended s)); try done; unfold Authority, Retry; rewrite ?(HV s eq_refl), ?Es; try done.
    intros _. unfold view_Authority; simpl. destruct (decide (lifecycle s = Closed)); [naive_solver|]. done.
  - unfold Reconnect. cbn [fst snd]. destruct (scopes c !! key) as [s|] eqn:Es; cbn [default from_option id].
    + specialize (Hrep s Es). rewrite bool_decide_false by done. cbn iota. set (h := (generation s <? gen)%Z).
      eapply (covers_scope c _ key); try done; unfold Readiness, Authority, Retry; rewrite ?(HV s eq_refl), ?Es; simpl.
      * destruct h; simpl; [|done]. by destruct (sc_window s).
      * intros Hl%bool_decide_eq_false. apply dec_stable in Hl. unfold view_Readiness; simpl. rewrite <-Hl. destruct h; simpl in *; [|done]. by rewrite Hl.
      * unfold view_Authority; simpl. rewrite (decide_False (P := lifecycle s = Closed)) by done. intros Hh. rewrite Hh. simpl. rewrite decide_False; [done|]. unfold liveOrOpening. by destruct (deliveredThrough s).
      * intros He. destruct (Z.ltb_spec 0 (consecutiveErrors s)) as [|Hz]; [done|]. unfold view_Retry; simpl.
        assert (consecutiveErrors s = 0%Z) as -> by (destruct (Hok _ _ Es); lia). done.
    + rewrite bool_decide_true by done. cbn iota. eapply (covers_scope c _ key); try done; unfold Readiness, Authority, Retry, View; rewrite ?Es; simpl; try done.
      * destruct (_ <? _)%Z; done.
      * by rewrite orb_true_r.
      * by rewrite orb_true_r.
  - unfold Close. destruct (scopes c !! key) as [s|] eqn:Es; [|apply covers_refl]. case_decide as Hl; [apply covers_refl|]. cbn [fst snd].
    eapply (covers_scope c _ key); try done; unfold Readiness, Authority, Retry; rewrite ?(HV s eq_refl), ?Es; simpl; try done.
    + by destruct (sc_window s).
    + intros He. assert (consecutiveErrors s = 0%Z) as Hz by (destruct (Hok _ _ Es); lia). unfold view_Retry. simpl. by rewrite Hz.
  - unfold Fail. cbn [fst snd]. apply (covers_receipt _ _ _ _ _ _ (OutcomeError err)); try done.
    destruct (scopes c !! key) as [s|] eqn:Es; cbn [default from_option id].
    + rewrite bool_decide_false by done. cbn iota. eapply (covers_scope c _ key); try done; unfold Readiness, Authority, Retry; rewrite ?(HV s eq_refl), ?Es; simpl; done.
    + rewrite bool_decide_true by done. cbn iota. eapply (covers_scope c _ key); try done; unfold Readiness, Authority, Retry, View; rewrite ?Es; done.
  - unfold DrainWindow. destruct (scopes c !! key) as [s|] eqn:Es; [|apply covers_refl]. destruct (sc_window s) as [v|] eqn:Ew; [|apply covers_refl]. cbn [fst snd].
    eapply (covers_scope c _ key); try done; unfold Readiness, Authority, Retry; rewrite ?(HV s eq_refl), ?Es; done.
Qed.

Lemma tick_covers c now : covers c (Tick c now).1 (Tick c now).2.
Proof.
  unfold Tick. case_decide; [apply covers_refl|]. cbn [fst snd].
  set (f := λ ch (ks : K * ingressScope T), _). set (c' := mkCore _ _ _ _ _ _).
  assert (Hview : ∀ k, Authority c' k = Authority c k ∧ Retry c' k = Retry c k) by (intros k; unfold Authority, Retry, View; simpl; by destruct (scopes c !! k)).
  assert (Hmark : ∀ l ch key, marks ch_readiness key (foldl f ch l) = marks ch_readiness key ch ||
    existsb (λ ks, bool_decide (ks.1 = key) && bool_decide (view_Readiness (scope_view ks.2 (observedNow c) (core_policy c)) ≠ view_Readiness (scope_view ks.2 now (core_policy c)))) l).
  { induction l as [|x l IH]; intros ch key; simpl; [by rewrite orb_false_r|]. rewrite IH, orb_assoc. f_equal. unfold f at 1. case_decide as Hd.
    - unfold marks, mark. simpl. rewrite existsb_app. simpl. rewrite orb_false_r, andb_true_r. f_equal. rewrite (bool_decide_true (_ ≠ _)) by done. by rewrite andb_true_r.
    - rewrite (bool_decide_false (_ ≠ _)) by tauto. by rewrite andb_false_r, orb_false_r. }
  split; try done; try (intros k _; apply Hview).
  intros k Hm. rewrite Hmark in Hm. simpl in Hm. unfold Readiness, View. simpl. destruct (scopes c !! k) as [s|] eqn:Es; simpl; [|done].
  destruct (decide (view_Readiness (scope_view s (observedNow c) (core_policy c)) = view_Readiness (scope_view s now (core_policy c)))) as [He|Hne]; [done|].
  exfalso. assert (Ht : existsb (λ ks : K * ingressScope T, bool_decide (ks.1 = k) &&
      bool_decide (view_Readiness (scope_view ks.2 (observedNow c) (core_policy c)) ≠ view_Readiness (scope_view ks.2 now (core_policy c)))) (map_to_list (scopes c)) = true).
  { apply existsb_exists. exists (k, s). split; [by apply list_elem_of_In, elem_of_map_to_list|]. simpl. by rewrite !bool_decide_true. }
  by rewrite Ht in Hm.
Qed.

Lemma step_covers c op : core_ok c → reported c op → covers c (ingress_step c op).1 (ingress_step c op).2.
Proof.
  intros Hok Hrep. pose proof (proj2 Hok) as Hcap. destruct op as [e|k gen|k|k gen|k|now|k err|k].
  - by apply admit_covers.
  - by apply open_covers.
  - by apply (scope_covers c (OSuspend k) k).
  - by apply (scope_covers c (OReconnect k gen) k).
  - by apply (scope_covers c (OClose k) k).
  - apply tick_covers.
  - by apply (scope_covers c (OFail k err) k).
  - by apply (scope_covers c (ODrain k) k).
Qed.

Lemma core_ok_set c key s : core_ok c → scope_ok s → core_ok (set_scope key s c).
Proof. intros [Hm Hl] Hs. split; [|done]. simpl. by apply map_Forall_insert_2. Qed.
Lemma core_ok_push c key gen seq o : core_ok c → core_ok (pushReceipt c key gen seq o).
Proof. intros [Hm Hl]. split; [done|]. simpl. rewrite length_drop. lia. Qed.

Lemma flush_keeps fuel m (s : ingressScope T) th b :
  consecutiveErrors (flush fuel m s th b).1.1 = consecutiveErrors s ∧ lifecycle (flush fuel m s th b).1.1 = lifecycle s.
Proof.
  revert s th b. induction fuel as [|fuel IH]; intros s th b; [done|]. cbn [flush].
  destruct (sc_pending s !! nextExpected s) as [[v st]|]; [|done]. unfold mergeInto. simpl.
  destruct (sc_window s); match goal with |- context [flush fuel m ?x _ ?y] => by destruct (IH x (nextExpected s) y) as [-> ->] end.
Qed.
Definition open_scope (s : ingressScope T) : Prop := (0 ≤ consecutiveErrors s)%Z ∧ lifecycle s ≠ Closed.
Lemma deliver_open p m (s : ingressScope T) (e : IngressEnvelope K T) ho : open_scope s → open_scope (deliver p m s e ho).1.
Proof.
  intros Hs.
  assert (Haccept : ∀ s0, open_scope (let '(s1, conflated) := mergeInto m s0 (Payload e) (en_stamped e) in
      let s2 := with_errors 0 (with_lifecycle Live (with_delivered (en_sequence e) s1)) in
      let '(s3, through, conflated0) := flush (size (sc_pending s2)) m s2 (en_sequence e) conflated in
      (s3, DecisionDelivered through conflated0 ho)).1).
  { intros s0. destruct (mergeInto _ _ _ _) as [s1 b]. cbv zeta. set (s2 := with_errors _ _).
    destruct (flush_keeps (size (sc_pending s2)) m s2 (en_sequence e) b) as [H1 H2]. destruct (flush _ _ _ _ _) as [[??]?]. simpl in H1, H2. split; simpl; [by rewrite H1|by rewrite H2]. }
  unfold deliver. destruct (_ <? _)%Z; [done|]. destruct (_ <? _)%Z; [by repeat case_decide|].
  destruct (_ <=? _)%Z; [|apply Haccept]. destruct (ig_overflow p); try done; apply (Haccept s) || apply (Haccept (clearWindow s)).
Qed.
Lemma decide_ok c s e : scope_ok s → scope_ok (decide_ c s e).1.
Proof.
  intros [He Hc]. unfold decide_. case_decide as Hl; [done|]. destruct (_ <? _)%Z; [done|]. destruct (_ <? _)%Z; [done|].
  assert (Ho : ∀ s : ingressScope T, open_scope s → scope_ok s) by (by intros ? [? ?]). destruct (_ <? _)%Z; by apply Ho, deliver_open.
Qed.

Lemma step_ok c op : core_ok c → core_ok (ingress_step c op).1.
Proof.
  intros Hok. assert (Hat : ∀ k s, scopes c !! k = Some s → scope_ok s) by (intros k s; apply (proj1 Hok)).
  assert (Hnew : ∀ g, scope_ok (newIngressScope g)) by done.
  assert (Hdef : ∀ k g, scope_ok (default (newIngressScope g) (scopes c !! k))) by (intros k g; destruct (scopes c !! k) eqn:Ek; simpl; eauto).
  destruct op as [e|k gen|k|k gen|k|now|k err|k]; cbn [ingress_step fst].
  - unfold Admit. pose proof (decide_ok c _ e (Hdef (en_key e) (en_generation e))) as Hs. destruct (decide_ _ _ _) as [s d]. cbn [fst] in Hs.
    set (keep := match scopes c !! en_key e, d with None, (DecisionRefuse _ | DecisionBlock) => false | _, _ => true end).
    assert (Hc : core_ok (if keep then set_scope (en_key e) s c else c)) by (destruct keep; [by apply core_ok_set|done]).
    destruct d; cbn [fst]; by try apply core_ok_push.
  - unfold Open. destruct (scopes c !! k) as [s|] eqn:Es; cbn [fst]; [|by apply core_ok_set]. apply core_ok_set; [done|]. destruct (Hat _ _ Es) as [He Hc].
    case_decide; [done|]. destruct (_ <? _)%Z; (split; [done|]); simpl; unfold liveOrOpening; by destruct (deliveredThrough s).
  - unfold Suspend. destruct (scopes c !! k) as [s|] eqn:Es; [|done]. case_decide; [done|]. apply core_ok_set; [done|]. by destruct (Hat _ _ Es).
  - unfold Reconnect. cbn [fst]. apply core_ok_set; [done|]. split; [done|]. simpl. unfold liveOrOpening. by destruct (deliveredThrough _).
  - unfold Close. destruct (scopes c !! k) as [s|] eqn:Es; [|done]. case_decide; [done|]. by apply core_ok_set.
  - unfold Tick. case_decide; [done|]. by destruct Hok.
  - unfold Fail. cbn [fst]. apply core_ok_push, core_ok_set; [done|]. destruct (Hdef k 0%Z) as [He Hc]. split; [simpl; by destruct (_ <? _)%Z; lia|done].
  - unfold DrainWindow. destruct (scopes c !! k) as [s|] eqn:Es; [|done]. destruct (sc_window s); [|done]. apply core_ok_set; [done|]. destruct (Hat _ _ Es). by split.
Qed.

(** Every cached value is what the core says now. *)
Record current i : Prop := {
  cu_value key r v : readers i !! key = Some r → rd_value r = Some v → v = PeekWindow (core i) key;
  cu_readiness key r v : readers i !! key = Some r → rd_readiness r = Some v → v = Readiness (core i) key;
  cu_authority key r v : readers i !! key = Some r → rd_authority r = Some v → v = Authority (core i) key;
  cu_retry key r v : readers i !! key = Some r → rd_retry r = Some v → v = Retry (core i) key;
  cu_accepted v : rr_accepted (rec_readers i) = Some v → v = Receipts (core i) ReceiptAccepted;
  cu_dropped v : rr_dropped (rec_readers i) = Some v → v = Receipts (core i) ReceiptDropped;
  cu_errors v : rr_errors (rec_readers i) = Some v → v = Receipts (core i) ReceiptError;
  cu_schedule v : schedule i = Some v → v = IngressScheduleFor (transportKind i) (pollInterval i) }.

Definition cleared (rs : gmap K (IngressScopeReaders T)) (ds : list (K * IngressScopeChange)) (key : K) : IngressScopeReaders T :=
  let r := default fresh_readers (rs !! key) in
  let m f := existsb (λ d, bool_decide (d.1 = key) && f d.2) ds in
  mkReaders (clear (m ch_value) (rd_value r)) (clear (m ch_readiness) (rd_readiness r)) (clear (m ch_authority) (rd_authority r)) (clear (m ch_retry) (rd_retry r)).
Lemma clear_clear {A} (a b : bool) (x : option A) : clear a (clear b x) = clear (b || a) x.
Proof. by destruct a, b. Qed.
Lemma clear_scopes rs ds key : default fresh_readers (foldl clear_scope rs ds !! key) = cleared rs ds key.
Proof.
  revert rs. induction ds as [|d ds IH]; intros rs; [unfold cleared; simpl; by destruct (rs !! key) as [[]|]|]. simpl. rewrite IH. unfold cleared, clear_scope. simpl.
  destruct (decide (d.1 = key)) as [<-|Hne]; [rewrite lookup_insert_eq|rewrite lookup_insert_ne, bool_decide_false by done; done].
  rewrite bool_decide_true by done. simpl. by rewrite !clear_clear.
Qed.
Lemma clear_Some {A} b (x : option A) v : clear b x = Some v → b = false ∧ x = Some v.
Proof. by destruct b. Qed.

Lemma readers_default (rs : gmap K (IngressScopeReaders T)) key r : rs !! key = Some r → r = default fresh_readers (rs !! key).
Proof. by intros ->. Qed.

Lemma current_default i : current i →
  ∀ key, let r := default fresh_readers (readers i !! key) in
    (∀ v, rd_value r = Some v → v = PeekWindow (core i) key) ∧ (∀ v, rd_readiness r = Some v → v = Readiness (core i) key) ∧
    (∀ v, rd_authority r = Some v → v = Authority (core i) key) ∧ (∀ v, rd_retry r = Some v → v = Retry (core i) key).
Proof. intros [] key. destruct (readers i !! key) as [r|] eqn:Er; simpl; [|done]. split_and!; eauto. Qed.

Lemma apply_current i c' ch : current i → covers (core i) c' ch → current (apply (with_core i c') ch).
Proof.
  intros Hcur Hcov. pose proof (current_default i Hcur) as Hd. unfold apply. destruct (IsEmptyChange ch) eqn:Ee.
  - assert (Hch : Scopes ch = [] ∧ AcceptedReceipts ch = false ∧ DroppedReceipts ch = false ∧ ErrorReceipts ch = false).
    { unfold IsEmptyChange in Ee. destruct (Scopes ch); [|done]. destruct (AcceptedReceipts ch), (DroppedReceipts ch), (ErrorReceipts ch); done. }
    destruct Hch as (Hn & H1 & H2 & H3). assert (Hm : ∀ f key, marks f key ch = false) by (intros; unfold marks; by rewrite Hn).
    destruct Hcur as [a1 a2 a3 a4 a5 a6 a7 a8], Hcov as [b1 b2 b3 b4 b5 b6 b7].
    split; simpl; intros *; [rewrite b1 by apply Hm; apply a1|rewrite b2 by apply Hm; apply a2|rewrite b3 by apply Hm; apply a3|rewrite b4 by apply Hm; apply a4|
      rewrite b5 by done; apply a5|rewrite b6 by done; apply a6|rewrite b7 by done; apply a7|apply a8].
  - destruct Hcur as [_ _ _ _ a5 a6 a7 a8], Hcov as [b1 b2 b3 b4 b5 b6 b7]. split; simpl.
    1-4: intros key r v Hr Hv; apply readers_default in Hr; rewrite clear_scopes in Hr; subst r; simpl in Hv; apply clear_Some in Hv as [Hm Hv]; destruct (Hd key) as (D1 & D2 & D3 & D4).
    + rewrite b1 by done. by apply D1.
    + rewrite b2 by done. by apply D2.
    + rewrite b3 by done. by apply D3.
    + rewrite b4 by done. by apply D4.
    + intros v [Hf Hv]%clear_Some. rewrite b5 by done. by apply a5.
    + intros v [Hf Hv]%clear_Some. rewrite b6 by done. by apply a6.
    + intros v [Hf Hv]%clear_Some. rewrite b7 by done. by apply a7.
    + apply a8.
Qed.

(** ** Runs of the shell *)

Inductive shell_op :=
| SCore (op : ingress_op K T) | SValue (key : K) | SReadiness (key : K) | SAuthority (key : K) | SRetry (key : K)
| SAccepted | SDropped | SErrors | SSchedule | STransport (k : IngressTransportKind) | SInterval (n : Z).
Definition shell_step i (op : shell_op) : IngressCell K T :=
  match op with
  | SCore (OAdmit e) => (Cell_Admit i e).1 | SCore (OOpen k g) => Cell_Open i k g | SCore (OSuspend k) => (Cell_Suspend i k).1
  | SCore (OReconnect k g) => (Cell_Reconnect i k g).1 | SCore (OClose k) => Cell_Close i k | SCore (OTick n) => Cell_Tick i n
  | SCore (OFail k e) => Cell_Fail i k e | SCore (ODrain k) => (Cell_Drain i k).1
  | SValue k => (Value i k).1 | SReadiness k => (Cell_Readiness i k).1 | SAuthority k => (Cell_Authority i k).1 | SRetry k => (Cell_Retry i k).1
  | SAccepted => (Accepted i).1 | SDropped => (Dropped i).1 | SErrors => (Errors i).1 | SSchedule => (Schedule i).1
  | STransport k => SetTransport i k | SInterval n => SetPollInterval i n
  end.
(** Every core operation of the run is one whose report is enough where it happens. *)
Fixpoint reported_run i (ops : list shell_op) : Prop :=
  match ops with
  | [] => True
  | op :: ops => match op with SCore o => reported (core i) o | _ => True end ∧ reported_run (shell_step i op) ops
  end.

Lemma shell_core i op : shell_step i (SCore op) = apply (with_core i (ingress_step (core i) op).1) (ingress_step (core i) op).2.
Proof.
  destruct op as [e|k gen|k|k gen|k|now|k err|k]; cbn [shell_step ingress_step].
  - unfold Cell_Admit. by destruct (Admit (core i) e) as [[??]?].
  - unfold Cell_Open. by destruct (Open (core i) k gen).
  - unfold Cell_Suspend. by destruct (Suspend (core i) k) as [[??]?].
  - unfold Cell_Reconnect. by destruct (Reconnect (core i) k gen) as [[??]?].
  - unfold Cell_Close. by destruct (Close (core i) k).
  - unfold Cell_Tick. by destruct (Tick (core i) now).
  - unfold Cell_Fail. by destruct (Fail (core i) k err).
  - unfold Cell_Drain. by destruct (DrainWindow (core i) k) as [[??]?].
Qed.
Lemma apply_core i c' ch : core (apply (with_core i c') ch) = c'.
Proof. unfold apply. by destruct (IsEmptyChange ch). Qed.

(** A read keeps the ingress current and answers with what the core says. *)
Lemma read_ok i key (mk : IngressScopeReaders T → IngressScopeReaders T) :
  current i → (let i' := (ScopeReaders i key).1 in let r := mk (ScopeReaders i key).2 in
    (∀ v, rd_value r = Some v → v = PeekWindow (core i) key) ∧ (∀ v, rd_readiness r = Some v → v = Readiness (core i) key) ∧
    (∀ v, rd_authority r = Some v → v = Authority (core i) key) ∧ (∀ v, rd_retry r = Some v → v = Retry (core i) key) →
    current (with_readers i' key r)).
Proof.
  intros Hcur i' r (H1 & H2 & H3 & H4).
  assert (Hi : core i' = core i ∧ rec_readers i' = rec_readers i ∧ transportKind i' = transportKind i ∧ pollInterval i' = pollInterval i ∧ schedule i' = schedule i ∧
    ∀ k x, k ≠ key → readers i' !! k = Some x → readers i !! k = Some x).
  { unfold i', ScopeReaders. destruct (readers i !! key) eqn:Er; simpl; split_and!; try done. intros k x Hk. by rewrite lookup_insert_ne. }
  clearbody i' r. destruct Hi as (E1 & E2 & E3 & E4 & E5 & E6). destruct Hcur as [a1 a2 a3 a4 a5 a6 a7 a8].
  split; simpl; rewrite ?E1, ?E2, ?E3, ?E4, ?E5; try done; intros k x v [[<- <-]|[Hk Hx]]%lookup_insert_Some Hv; eauto.
Qed.

Lemma read_current i key : current i →
  current (Value i key).1 ∧ (Value i key).2 = PeekWindow (core i) key ∧ current (Cell_Readiness i key).1 ∧ (Cell_Readiness i key).2 = Readiness (core i) key ∧
  current (Cell_Authority i key).1 ∧ (Cell_Authority i key).2 = Authority (core i) key ∧ current (Cell_Retry i key).1 ∧ (Cell_Retry i key).2 = Retry (core i) key.
Proof.
  intros Hcur.
  assert (Hr : core (ScopeReaders i key).1 = core i ∧ (ScopeReaders i key).2 = default fresh_readers (readers i !! key)) by (unfold ScopeReaders; by destruct (readers i !! key)).
  destruct Hr as [Hc Hr]. destruct (current_default i Hcur key) as (D1 & D2 & D3 & D4). rewrite <-Hr in D1, D2, D3, D4.
  pose proof (λ mk, read_ok i key mk Hcur) as Hok. cbv zeta in Hok.
  unfold Value, Cell_Readiness, Cell_Authority, Cell_Retry, read_slot. destruct (ScopeReaders i key) as [i' r]. cbn [fst snd] in *. rewrite !Hc.
  split_and!.
  - apply (Hok (λ r, mkReaders (Some (default (PeekWindow (core i) key) (rd_value r))) (rd_readiness r) (rd_authority r) (rd_retry r))). split_and!; try done.
    intros v [= <-]. destruct (rd_value r) eqn:Er; [by apply D1|done].
  - destruct (rd_value r) eqn:Er; [by apply D1|done].
  - apply (Hok (λ r, mkReaders (rd_value r) (Some (default (Readiness (core i) key) (rd_readiness r))) (rd_authority r) (rd_retry r))). split_and!; try done.
    intros v [= <-]. destruct (rd_readiness r) eqn:Er; [by apply D2|done].
  - destruct (rd_readiness r) eqn:Er; [by apply D2|done].
  - apply (Hok (λ r, mkReaders (rd_value r) (rd_readiness r) (Some (default (Authority (core i) key) (rd_authority r))) (rd_retry r))). split_and!; try done.
    intros v [= <-]. destruct (rd_authority r) eqn:Er; [by apply D3|done].
  - destruct (rd_authority r) eqn:Er; [by apply D3|done].
  - apply (Hok (λ r, mkReaders (rd_value r) (rd_readiness r) (rd_authority r) (Some (default (Retry (core i) key) (rd_retry r))))). split_and!; try done.
    intros v [= <-]. destruct (rd_retry r) eqn:Er; [by apply D4|done].
  - destruct (rd_retry r) eqn:Er; [by apply D4|done].
Qed.

Lemma log_current i : current i →
  (current (Accepted i).1 ∧ (Accepted i).2 = Receipts (core i) ReceiptAccepted) ∧ (current (Dropped i).1 ∧ (Dropped i).2 = Receipts (core i) ReceiptDropped) ∧
  (current (Errors i).1 ∧ (Errors i).2 = Receipts (core i) ReceiptError) ∧
  (current (Schedule i).1 ∧ (Schedule i).2 = IngressScheduleFor (transportKind i) (pollInterval i)).
Proof.
  intros [a1 a2 a3 a4 a5 a6 a7 a8]. unfold Accepted, Dropped, Errors, Schedule, read_slot. simpl.
  assert (E5 : default (Receipts (core i) ReceiptAccepted) (rr_accepted (rec_readers i)) = Receipts (core i) ReceiptAccepted) by (destruct (rr_accepted _); [by apply a5|done]).
  assert (E6 : default (Receipts (core i) ReceiptDropped) (rr_dropped (rec_readers i)) = Receipts (core i) ReceiptDropped) by (destruct (rr_dropped _); [by apply a6|done]).
  assert (E7 : default (Receipts (core i) ReceiptError) (rr_errors (rec_readers i)) = Receipts (core i) ReceiptError) by (destruct (rr_errors _); [by apply a7|done]).
  assert (E8 : default (IngressScheduleFor (transportKind i) (pollInterval i)) (schedule i) = IngressScheduleFor (transportKind i) (pollInterval i)) by (destruct (schedule i); [by apply a8|done]).
  rewrite E5, E6, E7, E8. split_and!; try done; (split; simpl; try done; congruence).
Qed.

Lemma shell_step_ok i op : current i ∧ core_ok (core i) → match op with SCore o => reported (core i) o | _ => True end →
  current (shell_step i op) ∧ core_ok (core (shell_step i op)).
Proof.
  intros [Hcur Hok] Hrep. assert (Hsr : ∀ key, core (ScopeReaders i key).1 = core i) by (intros key; unfold ScopeReaders; by destruct (readers i !! key)).
  destruct op as [o|key|key|key|key| | | | |k|n]; [|..].
  { rewrite shell_core, apply_core. split; [apply apply_current; [done|by apply step_covers]|by apply step_ok]. }
  1-4: split; [by apply (read_current i key)|]; simpl; unfold Value, Cell_Readiness, Cell_Authority, Cell_Retry; specialize (Hsr key); destruct (ScopeReaders i key); simpl in *; by rewrite Hsr.
  1-4: split; [by apply (log_current i)|done].
  - split; [|done]. destruct Hcur. split; simpl; try done. intros v [Hk%bool_decide_eq_false Hv]%clear_Some. apply dec_stable in Hk. rewrite <-Hk. auto.
  - split; [|done]. destruct Hcur. split; simpl; try done. intros v [Hk%bool_decide_eq_false Hv]%clear_Some. apply dec_stable in Hk. rewrite <-Hk. auto.
Qed.

Lemma shell_run_ok i ops : current i ∧ core_ok (core i) → reported_run i ops → current (foldl shell_step i ops) ∧ core_ok (core (foldl shell_step i ops)).
Proof. revert i. induction ops as [|op ops IH]; intros i Hi Hrep; [done|]. destruct Hrep as [H1 H2]. simpl. apply IH; [|done]. by apply shell_step_ok. Qed.
End currency.
Arguments shell_op : clear implicits.

(** What the ingress shows is what its core says.  After any operations, reads and
    retunes whose core operations each report enough where they happen, every read of
    every scope, receipt channel and schedule answers with the core's current value,
    cached or not; and whatever the next operation, exactly the readers it marks lose
    their cached value, so an unmarked reader is never computed again. *)
Theorem Ingress_readers_current {K T} `{Countable K} p (m : MergePolicy T) kind poll (i0 : IngressCell K T) ops key op
    (i := foldl shell_step i0 ops) (ch := (ingress_step (core i) op).2)
    (r := default fresh_readers (readers i !! key)) (r' := default fresh_readers (readers (shell_step i (SCore op)) !! key)) :
  NewIngressCell p m kind poll = inl i0 → reported_run i0 ops →
  ((Value i key).2 = PeekWindow (core i) key ∧ (Cell_Readiness i key).2 = Readiness (core i) key ∧
   (Cell_Authority i key).2 = Authority (core i) key ∧ (Cell_Retry i key).2 = Retry (core i) key) ∧
  ((Accepted i).2 = Receipts (core i) ReceiptAccepted ∧ (Dropped i).2 = Receipts (core i) ReceiptDropped ∧ (Errors i).2 = Receipts (core i) ReceiptError) ∧
  (Schedule i).2 = IngressScheduleFor (transportKind i) (pollInterval i) ∧
  (rd_value r' = clear (marks ch_value key ch) (rd_value r) ∧ rd_readiness r' = clear (marks ch_readiness key ch) (rd_readiness r) ∧
   rd_authority r' = clear (marks ch_authority key ch) (rd_authority r) ∧ rd_retry r' = clear (marks ch_retry key ch) (rd_retry r)).
Proof.
  intros Hnew Hrep.
  assert (H0 : current i0 ∧ core_ok (core i0)).
  { unfold NewIngressCell, NewIngressCore in Hnew. destruct (_ && _); [done|]. case_decide; [done|]. injection Hnew as <-. split; [by split|]. split; [by apply map_Forall_empty|simpl; lia]. }
  pose proof (shell_run_ok i0 ops H0 Hrep) as [Hcur _]. fold i in Hcur. destruct (read_current i key Hcur) as (_ & ? & _ & ? & _ & ? & _ & ?).
  destruct (log_current i Hcur) as ([_ ?] & [_ ?] & [_ ?] & [_ ?]). split_and!; try done.
  1-4: unfold r', r; rewrite shell_core; unfold apply; fold ch; destruct (IsEmptyChange ch) eqn:Ee;
    [unfold IsEmptyChange in Ee; simpl; unfold marks; by destruct (Scopes ch)|simpl; by rewrite clear_scopes].
Qed.

Definition demo_cell : IngressCell Z Z := mkCell demo_core ∅ (mkReceiptReaders None None None) IngressTransportEventChannel 0 None.
Definition demo_shell_ops : list (shell_op Z Z) :=
  [SReadiness 7%Z; SCore (OOpen 7%Z 1); SCore (OAdmit (demo_env 1 0)); SReadiness 7%Z; SValue 7%Z; SCore (OTick 500); SAccepted; SCore (OFail 7%Z IngressErrorDecodeFailed)].
Lemma Ingress_readers_current_witness :
  let i := foldl shell_step demo_cell demo_shell_ops in
  (Cell_Readiness i 7%Z).2 = Stale ∧ (Value i 7%Z).2 = Some 10%Z ∧ length (Errors i).2 = 1.
Proof.
  assert (Hrun : reported_run demo_cell demo_shell_ops).
  { refine (conj I (conj _ (conj _ (conj I (conj I (conj I (conj I (conj _ I)))))))).
    - intros s Hs. vm_compute in Hs. discriminate Hs.
    - left. vm_compute. lia.
    - left. vm_compute. lia. }
  cbv zeta. destruct (Ingress_readers_current (mkIngressPolicy 2 100 10 OverflowConflate 4 10 1000) Sum IngressTransportEventChannel 0 demo_cell demo_shell_ops 7%Z (OTick 0) ltac:(reflexivity) Hrun)
    as ((H1 & H2 & _) & (_ & _ & H3) & _).
  split_and!; [etrans; [exact H2|]|etrans; [exact H1|]|etrans; [exact (f_equal length H3)|]]; vm_compute; reflexivity.
Defined.

(** ** Transitions that report too little *)

(** The reads a consumer made before, and what it reads after [op]. *)
Definition after_reads (c : IngressCore Z Z) (op : ingress_op Z Z) : IngressCell Z Z :=
  foldl shell_step (mkCell c ∅ (mkReceiptReaders None None None) IngressTransportEventChannel 0 None)
    [SValue 7%Z; SReadiness 7%Z; SAuthority 7%Z; SRetry 7%Z; SAccepted; SDropped; SErrors; SCore op].
Definition live_core : IngressCore Z Z := (Admit (Open demo_core 7%Z 1).1 (demo_env 1 0)).1.1.

(** Opening a live scope at a newer generation makes it warming; its readiness reader
    still says ready. *)
Lemma open_newer_unreported :
  let i := after_reads live_core (OOpen 7%Z 2) in (Cell_Readiness i 7%Z).2 = Ready ∧ Readiness (core i) 7%Z = Warming.
Proof. split; vm_compute; reflexivity. Qed.
(** Reconnecting a closed scope gives it authority again; its authority reader still
    says it has none. *)
Lemma reconnect_closed_unreported :
  let i := after_reads (Close live_core 7%Z).1 (OReconnect 7%Z 1) in (Cell_Authority i 7%Z).2 = None ∧ is_Some (Authority (core i) 7%Z).
Proof. split; vm_compute; [reflexivity|by eexists]. Qed.
(** A held envelope of a newer generation restarts the sequence of a scope with errors;
    its retry reader still resumes behind the old incarnation's log. *)
Lemma held_handoff_unreported :
  let i := after_reads (Fail live_core 7%Z IngressErrorDecodeFailed).1 (OAdmit (demo_env 2 1)) in
  rt_resume <$> (Cell_Retry i 7%Z).2 = Some 1%Z ∧ rt_resume <$> Retry (core i) 7%Z = Some 0%Z.
Proof. split; vm_compute; reflexivity. Qed.
(** An envelope of a newer generation that is then refused has already fenced the scope
    and dropped its window; no reader of the scope is told. *)
Lemma refused_handoff_unreported :
  let c := (Admit (Open (mkCore (mkIngressPolicy 0 100 10 OverflowConflate 4 10 1000) Sum ∅ [] 0 0) 7%Z 1).1 (demo_env 1 0)).1.1 in
  let i := after_reads c (OAdmit (demo_env 2 3)) in
  (Value i 7%Z).2 = Some 10%Z ∧ PeekWindow (core i) 7%Z = None ∧ (Cell_Readiness i 7%Z).2 = Ready ∧ Readiness (core i) 7%Z = Warming.
Proof. split_and!; vm_compute; reflexivity. Qed.
(** At capacity a receipt evicts the oldest one, of whatever channel; only the channel of
    the new one is told. *)
Lemma eviction_unreported :
  let c := (Admit (Open (mkCore (mkIngressPolicy 2 100 10 OverflowConflate 1 10 1000) Sum ∅ [] 0 0) 7%Z 1).1 (demo_env 1 0)).1.1 in
  let i := after_reads c (OFail 7%Z IngressErrorDecodeFailed) in length (Accepted i).2 = 1 ∧ Receipts (core i) ReceiptAccepted = [].
Proof. split; vm_compute; reflexivity. Qed.

(** A pump admits what the transport decoded, in order, and asks it to replay the gap. *)
Lemma Pump_demo :
  let t := Push (Push (NewInProcIngress IngressTransportEventChannel) (demo_env 1 2)) (demo_env 1 1) in
  let '(i, t', out) := Pump demo_cell t in
  out = [IngressHeld 0; IngressHeld 0] ∧ inbound t' = [] ∧ replays t' = [(7%Z, mkReplay 1 0)].
Proof. vm_compute. split_and!; reflexivity. Qed.
