(* ===== verification/Windowing.v ===== *)
(** * Windowing: stream windows as merges (windowing.go)

    The four window cores, each a little bookkeeping around a fold under a merge
    policy, and the cells that keep the last aggregate emitted.  The count windows
    emit the fold of the right suffix of the stream at the right pushes; the
    session window emits the folds of the sessions of its timed stream. *)

From S2P Require Import Prelude Relay.

(** ** Cores *)

(** [windowing.go] [mergeInto] *)
Definition mergeInto {T} (policy : MergePolicy T) (acc : option T) (v : T) : option T :=
  match acc with Some a => Some (Merge policy a v) | None => Some v end.

(** [windowing.go] [foldWindow] *)
Definition foldWindow {T} (policy : MergePolicy T) (items : list T) : option T :=
  foldl (mergeInto policy) None items.

(** [windowing.go] [satSub] *)
Definition satSub (a b : Z) : Z := if (a <? b)%Z then 0%Z else (a -ᵤ b)%Z.

(** [windowing.go] [type TumblingCountCore] *)
Record TumblingCountCore (T : Type) := mkTumblingCount { tc_n : Z; tc_policy : MergePolicy T; tc_acc : option T; tc_count : Z }.
(** [windowing.go] [type TumblingTimeCore] *)
Record TumblingTimeCore (T : Type) := mkTumblingTime { tt_period : Z; tt_next : Z; tt_policy : MergePolicy T; tt_acc : option T }.
(** [windowing.go] [type SlidingCore] *)
Record SlidingCore (T : Type) := mkSliding { sl_size : nat; sl_slide : Z; sl_policy : MergePolicy T; sl_buffer : list T; sl_since : Z }.
(** The last push is set or not, as [lastSet] says.
    [windowing.go] [type SessionCore] *)
Record SessionCore (T : Type) := mkSession { ss_gap : Z; ss_policy : MergePolicy T; ss_acc : option T; ss_last : option Z }.
Arguments mkTumblingCount {T}.
Arguments tc_n {T}.
Arguments tc_policy {T}.
Arguments tc_acc {T}.
Arguments tc_count {T}.
Arguments mkTumblingTime {T}.
Arguments tt_period {T}.
Arguments tt_next {T}.
Arguments tt_policy {T}.
Arguments tt_acc {T}.
Arguments mkSliding {T}.
Arguments sl_size {T}.
Arguments sl_slide {T}.
Arguments sl_policy {T}.
Arguments sl_buffer {T}.
Arguments sl_since {T}.
Arguments mkSession {T}.
Arguments ss_gap {T}.
Arguments ss_policy {T}.
Arguments ss_acc {T}.
Arguments ss_last {T}.

(** A length given as Go's [int] may be negative; it is clamped to one. *)
Definition at_least_one (z : Z) : Z := if (z <? 1)%Z then 1%Z else z.

(** [windowing.go] [NewTumblingCountCore] *)
Definition NewTumblingCountCore {T} (n : Z) (policy : MergePolicy T) : TumblingCountCore T :=
  mkTumblingCount (at_least_one n) policy None 0.
(** [windowing.go] [TumblingCountCore.Push] *)
Definition TumblingCountCore_Push {T} (c : TumblingCountCore T) (v : T) : TumblingCountCore T * option T :=
  let acc := mergeInto (tc_policy c) (tc_acc c) v in
  let count := (tc_count c +ᵤ 1)%Z in
  if (tc_n c <=? count)%Z then (mkTumblingCount (tc_n c) (tc_policy c) None 0, acc)
  else (mkTumblingCount (tc_n c) (tc_policy c) acc count, None).

(** [windowing.go] [NewTumblingTimeCore] *)
Definition NewTumblingTimeCore {T} (period : Z) (policy : MergePolicy T) : TumblingTimeCore T :=
  let period := at_least_one period in mkTumblingTime period period policy None.
(** [windowing.go] [TumblingTimeCore.Push] *)
Definition TumblingTimeCore_Push {T} (c : TumblingTimeCore T) (_ : Z) (v : T) : TumblingTimeCore T :=
  mkTumblingTime (tt_period c) (tt_next c) (tt_policy c) (mergeInto (tt_policy c) (tt_acc c) v).
(** The loop over the boundaries passed; [None] when the fuel runs out.
    [windowing.go] [lines 110-112 TumblingTimeCore.Tick] *)
Fixpoint skip_boundaries (fuel : nat) (period next now : Z) : option Z :=
  match fuel with
  | O => None
  | S fuel => if (next <=? now)%Z then skip_boundaries fuel period (next +ᵤ period)%Z now else Some next
  end.
Definition skip_fuel (period next now : Z) : nat := S (S (Z.to_nat ((now - next) / period))).
(** [windowing.go] [TumblingTimeCore.Tick] *)
Definition TumblingTimeCore_Tick {T} (c : TumblingTimeCore T) (now : Z) : option (TumblingTimeCore T * option T) :=
  if (now <? tt_next c)%Z then Some (c, None)
  else
    next ← skip_boundaries (skip_fuel (tt_period c) (tt_next c) now) (tt_period c) (tt_next c) now;
    Some (mkTumblingTime (tt_period c) next (tt_policy c) None, tt_acc c).

(** [windowing.go] [NewSlidingCore] *)
Definition NewSlidingCore {T} (size slide : Z) (policy : MergePolicy T) : SlidingCore T :=
  mkSliding (Z.to_nat (at_least_one size)) (at_least_one slide) policy [] 0.
(** The trimming loop keeps the last [size] elements.
    [windowing.go] [lines 147-149 SlidingCore.Push] *)
Fixpoint trim {T} (size : nat) (l : list T) : list T :=
  match l with [] => [] | _ :: l' => if decide (size < length l) then trim size l' else l end.
(** [windowing.go] [SlidingCore.Push] *)
Definition SlidingCore_Push {T} (c : SlidingCore T) (v : T) : SlidingCore T * option T :=
  let buffer := trim (sl_size c) (sl_buffer c ++ [v]) in
  let since := (sl_since c +ᵤ 1)%Z in
  if (sl_slide c <=? since)%Z
  then (mkSliding (sl_size c) (sl_slide c) (sl_policy c) buffer 0, foldWindow (sl_policy c) buffer)
  else (mkSliding (sl_size c) (sl_slide c) (sl_policy c) buffer since, None).

(** [windowing.go] [NewSessionCore] *)
Definition NewSessionCore {T} (gap : Z) (policy : MergePolicy T) : SessionCore T := mkSession gap policy None None.
(** The session has been idle for longer than its gap.
    [windowing.go] [lines 179-179 SessionCore.Push] *)
Definition idle {T} (c : SessionCore T) (now : Z) : bool :=
  match ss_last c, ss_acc c with Some last, Some _ => (ss_gap c <? satSub now last)%Z | _, _ => false end.
(** [windowing.go] [SessionCore.Push] *)
Definition SessionCore_Push {T} (c : SessionCore T) (now : Z) (v : T) : SessionCore T * option T :=
  if idle c now then (mkSession (ss_gap c) (ss_policy c) (Some v) (Some now), ss_acc c)
  else (mkSession (ss_gap c) (ss_policy c) (mergeInto (ss_policy c) (ss_acc c) v) (Some now), None).
(** [windowing.go] [SessionCore.Flush] *)
Definition SessionCore_Flush {T} (c : SessionCore T) (now : Z) : SessionCore T * option T :=
  if idle c now then (mkSession (ss_gap c) (ss_policy c) None (ss_last c), ss_acc c) else (c, None).

(** ** Cells *)

(** Only an emitted aggregate reaches the output cell. *)
Definition project {T} `{EqDecision T} (output : Cell (option T)) (e : option T) : Cell (option T) :=
  match e with Some _ => Cell_Set output e | None => output end.

(** [windowing.go] [type TumblingCountWindow] *)
Record TumblingCountWindow (T : Type) := mkTumblingCountWindow { tcw_core : TumblingCountCore T; tcw_output : Cell (option T) }.
(** [windowing.go] [type TumblingTimeWindow] *)
Record TumblingTimeWindow (T : Type) := mkTumblingTimeWindow { ttw_core : TumblingTimeCore T; ttw_output : Cell (option T) }.
(** [windowing.go] [type SlidingWindow] *)
Record SlidingWindow (T : Type) := mkSlidingWindow { slw_core : SlidingCore T; slw_output : Cell (option T) }.
(** [windowing.go] [type SessionWindow] *)
Record SessionWindow (T : Type) := mkSessionWindow { ssw_core : SessionCore T; ssw_output : Cell (option T) }.
Arguments mkTumblingCountWindow {T}.
Arguments tcw_core {T}.
Arguments tcw_output {T}.
Arguments mkTumblingTimeWindow {T}.
Arguments ttw_core {T}.
Arguments ttw_output {T}.
Arguments mkSlidingWindow {T}.
Arguments slw_core {T}.
Arguments slw_output {T}.
Arguments mkSessionWindow {T}.
Arguments ssw_core {T}.
Arguments ssw_output {T}.

Section cells.
Context {T : Type} `{EqDecision T}.
Implicit Types (policy : MergePolicy T) (v : T) (now : Z).

(** [windowing.go] [TumblingCount] *)
Definition TumblingCount (n : Z) policy : TumblingCountWindow T :=
  mkTumblingCountWindow (NewTumblingCountCore n policy) (NewCell None).
(** [windowing.go] [TumblingCountWindow.Push] *)
Definition TumblingCountWindow_Push (w : TumblingCountWindow T) v : TumblingCountWindow T * option T :=
  let '(core, e) := TumblingCountCore_Push (tcw_core w) v in
  (mkTumblingCountWindow core (project (tcw_output w) e), e).

(** [windowing.go] [TumblingTime] *)
Definition TumblingTime (period : Z) policy : TumblingTimeWindow T :=
  mkTumblingTimeWindow (NewTumblingTimeCore period policy) (NewCell None).
(** [windowing.go] [TumblingTimeWindow.Push] *)
Definition TumblingTimeWindow_Push (w : TumblingTimeWindow T) now v : TumblingTimeWindow T :=
  mkTumblingTimeWindow (TumblingTimeCore_Push (ttw_core w) now v) (ttw_output w).
(** [windowing.go] [TumblingTimeWindow.Tick] *)
Definition TumblingTimeWindow_Tick (w : TumblingTimeWindow T) now : option (TumblingTimeWindow T * option T) :=
  '(core, e) ← TumblingTimeCore_Tick (ttw_core w) now;
  Some (mkTumblingTimeWindow core (project (ttw_output w) e), e).

(** [windowing.go] [Sliding] *)
Definition Sliding (size slide : Z) policy : SlidingWindow T :=
  mkSlidingWindow (NewSlidingCore size slide policy) (NewCell None).
(** [windowing.go] [SlidingWindow.Push] *)
Definition SlidingWindow_Push (w : SlidingWindow T) v : SlidingWindow T * option T :=
  let '(core, e) := SlidingCore_Push (slw_core w) v in
  (mkSlidingWindow core (project (slw_output w) e), e).

(** [windowing.go] [Session] *)
Definition Session (gap : Z) policy : SessionWindow T :=
  mkSessionWindow (NewSessionCore gap policy) (NewCell None).
(** [windowing.go] [SessionWindow.Push] *)
Definition SessionWindow_Push (w : SessionWindow T) now v : SessionWindow T * option T :=
  let '(core, e) := SessionCore_Push (ssw_core w) now v in
  (mkSessionWindow core (project (ssw_output w) e), e).
(** [windowing.go] [SessionWindow.Flush] *)
Definition SessionWindow_Flush (w : SessionWindow T) now : SessionWindow T * option T :=
  let '(core, e) := SessionCore_Flush (ssw_core w) now in
  (mkSessionWindow core (project (ssw_output w) e), e).
End cells.

(** ** Count windows *)

(** What a window over the last [size] elements that fires every [slide] pushes
    emits at the push that makes the stream [l]. *)
Definition emission {T} (policy : MergePolicy T) (size slide : Z) (l : list T) : option T :=
  if decide (Z.of_nat (length l) mod slide = 0)%Z then foldWindow policy (drop (length l - Z.to_nat size) l) else None.

Lemma trim_drop {T} size (l : list T) : trim size l = drop (length l - size) l.
Proof.
  induction l as [|x l IH]; [done|]. simpl. case_decide.
  - rewrite IH. by replace (S (length l) - size) with (S (length l - size)) by lia.
  - by replace (S (length l) - size) with 0 by lia.
Qed.

Lemma mod_succ a n : (1 ≤ n → 0 ≤ a → (a + 1) mod n = if decide (a mod n + 1 = n) then 0 else a mod n + 1)%Z.
Proof.
  intros Hn Ha. pose proof (Z.div_mod a n ltac:(lia)). pose proof (Z.mod_pos_bound a n ltac:(lia)). case_decide.
  - symmetry. apply (Z.mod_unique _ _ (a / n + 1)); lia.
  - symmetry. apply (Z.mod_unique _ _ (a / n)); lia.
Qed.

Section count_windows.
Context {T : Type} `{EqDecision T} (policy : MergePolicy T).

(** The output cell after emissions [es]: the last one present. *)
Definition last_emitted {T} (es : list (option T)) : option T := foldl (λ o e, match e with Some _ => e | None => o end) None es.

Lemma project_value (output : Cell (option T)) e : cell_value (project output e) = match e with Some _ => e | None => cell_value output end.
Proof. destruct e; simpl; [apply Cell_Set_value|done]. Qed.

Lemma last_emitted_snoc (es : list (option T)) e : last_emitted (es ++ [e]) = match e with Some _ => e | None => last_emitted es end.
Proof. unfold last_emitted. by rewrite foldl_app. Qed.

(** The state of a sliding window after the stream [l]. *)
Lemma sliding_state size slide l :
  let size := at_least_one size in let slide := at_least_one slide in
  (slide ≤ max_u64)%Z →
  let r := run SlidingWindow_Push (Sliding size slide policy) l in
  slw_core r.1 = mkSliding (Z.to_nat size) slide policy (drop (length l - Z.to_nat size) l) (Z.of_nat (length l) mod slide) ∧
  cell_value (slw_output r.1) = last_emitted r.2 ∧
  (∀ i, i < length l → r.2 !! i = Some (emission policy size slide (take (S i) l))).
Proof.
  intros size' slide' Hs. assert (Hz : (1 ≤ size')%Z ∧ (1 ≤ slide')%Z) by (unfold size', slide', at_least_one; case_match; case_match; lia).
  assert (Hi : ∀ z, (1 ≤ z)%Z → at_least_one z = z) by (intros z Hz'; unfold at_least_one; destruct (Z.ltb_spec z 1); lia).
  clearbody size' slide'. clear size slide. induction l as [|v l IH] using rev_ind.
  - simpl. unfold Sliding, NewSlidingCore. rewrite !Hi, Z.mod_0_l by lia. split_and!; [done|done|lia].
  - cbv zeta in *. rewrite run_snoc. destruct IH as (Hc & Ho & He). cbn [fst snd].
    set (r := run SlidingWindow_Push (Sliding size' slide' policy) l) in *.
    pose proof (run_length SlidingWindow_Push (Sliding size' slide' policy) l) as Hlen. fold r in Hlen.
    unfold SlidingWindow_Push, SlidingCore_Push. rewrite Hc. cbn [sl_size sl_slide sl_policy sl_buffer sl_since].
    pose proof (Z.mod_pos_bound (Z.of_nat (length l)) slide' ltac:(lia)).
    rewrite u64_small by (unfold is_u64, two64, max_u64 in *; lia).
    assert (Hb : trim (Z.to_nat size') (drop (length l - Z.to_nat size') l ++ [v]) = drop (length (l ++ [v]) - Z.to_nat size') (l ++ [v])).
    { rewrite trim_drop, !length_app, length_drop. simpl. rewrite <-drop_app_le by lia. rewrite drop_drop. f_equal. lia. }
    rewrite Hb. assert (Hmod : (Z.of_nat (length (l ++ [v])) mod slide' =
      if decide (Z.of_nat (length l) mod slide' + 1 = slide') then 0 else Z.of_nat (length l) mod slide' + 1)%Z).
    { rewrite length_app. simpl. rewrite Nat2Z.inj_add. apply mod_succ; lia. }
    rewrite Hmod. assert (Hem : emission policy size' slide' (l ++ [v]) =
      if decide (Z.of_nat (length l) mod slide' + 1 = slide')%Z then foldWindow policy (drop (length (l ++ [v]) - Z.to_nat size') (l ++ [v])) else None).
    { unfold emission. rewrite Hmod. repeat case_decide; try done; lia. }
    destruct (Z.leb_spec slide' (Z.of_nat (length l) mod slide' + 1)); case_decide; try lia; cbn [fst snd slw_core slw_output];
      (split_and!; [done|by rewrite project_value, last_emitted_snoc, Ho|]); intros i Hl; rewrite length_app in Hl; simpl in Hl;
      (destruct (decide (i < length l)); [rewrite lookup_app_l by lia; rewrite He by done; by rewrite take_app_le by lia|]);
      replace i with (length l + 0) by lia; rewrite lookup_app_r by lia; rewrite Hlen, Nat.add_0_r, Nat.sub_diag; simpl;
      rewrite take_ge by (rewrite length_app; simpl; lia); by rewrite Hem.
Qed.
End count_windows.

Section tumbling_count.
Context {T : Type} `{EqDecision T} (policy : MergePolicy T).

(** A count-tumbling window is the sliding window that slides by its size. *)
Lemma tumbling_is_sliding n l :
  let n := at_least_one n in (n ≤ max_u64)%Z →
  let t := run TumblingCountWindow_Push (TumblingCount n policy) l in
  let s := run SlidingWindow_Push (Sliding n n policy) l in
  tcw_core t.1 = mkTumblingCount n policy (foldWindow policy (drop (length l - Z.to_nat (Z.of_nat (length l) mod n)) l)) (Z.of_nat (length l) mod n) ∧
  tcw_output t.1 = slw_output s.1 ∧ t.2 = s.2.
Proof.
  intros n' Hs. assert (Hn : (1 ≤ n')%Z) by (unfold n', at_least_one; case_match; lia).
  assert (Hi : at_least_one n' = n') by (unfold at_least_one; destruct (Z.ltb_spec n' 1); lia).
  clearbody n'. clear n. induction l as [|v l IH] using rev_ind.
  - simpl. unfold TumblingCount, NewTumblingCountCore. rewrite Hi, Z.mod_0_l by lia. split_and!; done.
  - cbv zeta in *. destruct IH as (Hc & Ho & He).
    pose proof (sliding_state policy n' n' l) as Hsl. rewrite Hi in Hsl. destruct (Hsl Hs) as (Hsc & _ & _). clear Hsl.
    rewrite !run_snoc. cbn [fst snd].
    set (t := run TumblingCountWindow_Push (TumblingCount n' policy) l) in *.
    set (s := run SlidingWindow_Push (Sliding n' n' policy) l) in *. clearbody t s.
    unfold TumblingCountWindow_Push, TumblingCountCore_Push, SlidingWindow_Push, SlidingCore_Push. rewrite Hc, Hsc.
    cbn [sl_size sl_slide sl_policy sl_buffer sl_since tc_n tc_policy tc_acc tc_count].
    pose proof (Z.mod_pos_bound (Z.of_nat (length l)) n' ltac:(lia)) as Hb.
    pose proof (Z.mod_le (Z.of_nat (length l)) n' ltac:(lia) ltac:(lia)) as Hle.
    assert (Hmod : (Z.of_nat (length (l ++ [v])) mod n' =
      if decide (Z.of_nat (length l) mod n' + 1 = n') then 0 else Z.of_nat (length l) mod n' + 1)%Z).
    { rewrite length_app. simpl. rewrite Nat2Z.inj_add. apply mod_succ; lia. }
    rewrite Hmod, u64_small by (unfold is_u64, two64, max_u64 in *; lia).
    set (q := (Z.of_nat (length l) mod n')%Z) in *. clearbody q.
    assert (Hacc : mergeInto policy (foldWindow policy (drop (length l - Z.to_nat q) l)) v =
      foldWindow policy (drop (length (l ++ [v]) - Z.to_nat (q + 1)) (l ++ [v]))).
    { unfold foldWindow. rewrite length_app, drop_app_le by (simpl; lia). rewrite foldl_app. simpl.
      by replace (length l + 1 - Z.to_nat (q + 1)) with (length l - Z.to_nat q) by lia. }
    rewrite trim_drop. rewrite Hacc. clear Hacc.
    assert (Hbuf : (q + 1 = n')%Z → drop (length (drop (length l - Z.to_nat n') l ++ [v]) - Z.to_nat n') (drop (length l - Z.to_nat n') l ++ [v]) =
      drop (length (l ++ [v]) - Z.to_nat (q + 1)) (l ++ [v])).
    { intros ->. rewrite !length_app, length_drop. simpl. rewrite <-drop_app_le by lia. rewrite drop_drop. f_equal. lia. }
    rewrite Ho, He. destruct (Z.leb_spec n' (q + 1)); case_decide; try lia; cbn [fst snd tcw_core tcw_output slw_output].
    + rewrite <-Hbuf by lia. split_and!; try done. rewrite Nat.sub_0_r, drop_ge by lia. done.
    + by split_and!.
Qed.
End tumbling_count.

(** A count window emits the fold of exactly the right elements.  After any
    stream, the push that completes the [i]-th element of a sliding window emits,
    every [slide] pushes and never in between, the fold of the last [size] elements;
    its cell holds the last aggregate emitted; and a tumbling window of [n] is in
    every respect, invalidations included, the sliding window of size and slide
    [n], its fold computed incrementally.  A size or slide below one counts as one. *)
Theorem Count_windows_fold_suffix {T} `{EqDecision T} (policy : MergePolicy T) size slide n l :
  (slide ≤ max_u64)%Z → (n ≤ max_u64)%Z →
  let s := run SlidingWindow_Push (Sliding size slide policy) l in
  let t := run TumblingCountWindow_Push (TumblingCount n policy) l in
  let s' := run SlidingWindow_Push (Sliding n n policy) l in
  (∀ i, i < length l → s.2 !! i = Some (emission policy (at_least_one size) (at_least_one slide) (take (S i) l))) ∧
  cell_value (slw_output s.1) = last_emitted s.2 ∧
  t.2 = s'.2 ∧ tcw_output t.1 = slw_output s'.1 ∧
  (∀ i, i < length l → t.2 !! i = Some (emission policy (at_least_one n) (at_least_one n) (take (S i) l))).
Proof.
  intros H1 H2. cbv zeta.
  assert (Hi : ∀ z, at_least_one (at_least_one z) = at_least_one z) by (intros z; unfold at_least_one; destruct (z <? 1)%Z eqn:E; [done|by rewrite E]).
  assert (Hm : ∀ z, (z ≤ max_u64 → at_least_one z ≤ max_u64)%Z) by (intros z; unfold at_least_one, max_u64; case_match; lia).
  assert (Hs : ∀ a b, Sliding (at_least_one a) (at_least_one b) policy = Sliding a b policy) by (intros; unfold Sliding, NewSlidingCore; by rewrite !Hi).
  assert (Ht : TumblingCount (at_least_one n) policy = TumblingCount n policy) by (unfold TumblingCount, NewTumblingCountCore; by rewrite Hi).
  pose proof (sliding_state policy size slide l (Hm _ H1)) as (_ & Ho & He).
  pose proof (sliding_state policy n n l (Hm _ H2)) as (_ & _ & Hn).
  pose proof (tumbling_is_sliding policy n l (Hm _ H2)) as (_ & Hto & Hts). cbv zeta in *.
  rewrite !Hs in *. rewrite Ht in *. rewrite Hts. by split_and!.
Qed.

Lemma Count_windows_fold_suffix_witness :
  (run SlidingWindow_Push (Sliding 3 2 Sum) [1; 2; 3; 4; 5]%Z).2 = [None; Some 3; None; Some 9; None]%Z ∧
  (run TumblingCountWindow_Push (TumblingCount 2 Sum) [1; 2; 3; 4; 5]%Z).2 = [None; Some 3; None; Some 7; None]%Z ∧
  (run SlidingWindow_Push (Sliding 3 2 Sum) [1; 2; 3; 4; 5]%Z).2 !! 3 = Some (Some 9%Z).
Proof.
  destruct (Count_windows_fold_suffix Sum 3 2 2 [1; 2; 3; 4; 5]%Z ltac:(by vm_compute) ltac:(by vm_compute)) as (He & _ & Ht & _).
  split_and!; [reflexivity|rewrite Ht; reflexivity|]. rewrite He by (simpl; lia). reflexivity.
Defined.

(** ** Timed windows *)

Inductive timed_op (T : Type) := TPush (now : Z) (v : T) | TTick (now : Z).
Arguments TPush {T}.
Arguments TTick {T}.
Definition op_now {T} (op : timed_op T) : Z := match op with TPush now _ => now | TTick now => now end.

Section timed.
Context {T : Type} `{EqDecision T} (policy : MergePolicy T).

Definition tumbling_step (w : TumblingTimeWindow T) (op : timed_op T) : option (TumblingTimeWindow T * option T) :=
  match op with TPush now v => Some (TumblingTimeWindow_Push w now v, None) | TTick now => TumblingTimeWindow_Tick w now end.
Fixpoint tumbling_run (w : TumblingTimeWindow T) (ops : list (timed_op T)) : option (TumblingTimeWindow T * list (option T)) :=
  match ops with
  | [] => Some (w, [])
  | op :: ops => '(w, o) ← tumbling_step w op; '(w, os) ← tumbling_run w ops; Some (w, o :: os)
  end.

(** The window as a reader understands it: the period the clock is in and what was
    pushed since a tick last entered a new one.  A tick in a later period emits. *)
Definition tumbling_spec_step (period : Z) (s : Z * list T) (op : timed_op T) : (Z * list T) * option T :=
  match op with
  | TPush _ v => ((s.1, s.2 ++ [v]), None)
  | TTick now => if (s.1 <? now / period)%Z then ((now / period, [])%Z, foldWindow policy s.2) else (s, None)
  end.

Lemma skip_boundaries_ok period now fuel next :
  (1 ≤ period → 0 ≤ next → now ≤ max_u64 - period → next mod period = 0 →
  Z.max 0 (now - next) / period + (if decide (next ≤ now) then 1 else 0) < Z.of_nat fuel →
  skip_boundaries fuel period next now = Some (if decide (next ≤ now) then (now / period + 1) * period else next))%Z.
Proof.
  intros Hp Hn Hb Hm Hf. revert next Hn Hm Hf. induction fuel as [|fuel IH]; intros next Hn Hm Hf; simpl.
  - pose proof (Z.div_pos (Z.max 0 (now - next)) period). case_decide; lia.
  - destruct (Z.leb_spec next now); [|by rewrite decide_False by lia].
    rewrite u64_small by (unfold is_u64, two64, max_u64 in *; lia). rewrite !decide_True in * by lia.
    assert (Hm' : ((next + period) mod period = 0)%Z) by (rewrite <-(Z.mul_1_l period) at 1; by rewrite Z.mod_add by lia).
    pose proof (Z.div_mod next period ltac:(lia)) as Hd. rewrite Hm in Hd.
    pose proof (Z.div_mod now period ltac:(lia)) as Hd2. pose proof (Z.mod_pos_bound now period ltac:(lia)).
    assert (Hq : (next / period ≤ now / period)%Z) by (apply Z.div_le_mono; lia).
    rewrite Z.max_r in Hf by lia.
    assert (Hdiv : ((now - next) / period = now / period - next / period)%Z).
    { symmetry. apply (Z.div_unique _ _ _ (now mod period)); lia. }
    rewrite Hdiv in Hf.
    rewrite IH; [|lia|done|].
    + f_equal. case_decide; [done|]. assert (now / period = next / period)%Z by nia. nia.
    + assert (Hge : (next + period ≤ now → next / period + 1 ≤ now / period)%Z) by (intros; apply Z.div_le_lower_bound; lia).
      case_decide; destruct (Z.max_spec 0 (now - (next + period))) as [[? ->]|[? ->]].
      all: try (rewrite Z.div_0_l by lia).
      all: try (replace (now - (next + period))%Z with (now - next + (-1) * period)%Z by lia; rewrite Z.div_add, Hdiv by lia).
      all: lia.
Qed.

Lemma tumbling_run_spec period w s ops :
  let p := at_least_one period in
  Forall (λ op, 0 ≤ op_now op ≤ max_u64 - p)%Z ops →
  ttw_core w = mkTumblingTime p ((s.1 + 1) * p)%Z policy (foldWindow policy s.2) → (0 ≤ s.1)%Z →
  ((s.1 + 1) * p ≤ max_u64)%Z →
  ∃ w', tumbling_run w ops = Some (w', (run (tumbling_spec_step p) s ops).2) ∧
    tt_acc (ttw_core w') = foldWindow policy (run (tumbling_spec_step p) s ops).1.2 ∧
    cell_value (ttw_output w') = foldl (λ o e, match e with Some _ => e | None => o end) (cell_value (ttw_output w)) (run (tumbling_spec_step p) s ops).2.
Proof.
  intros p Hops. assert (Hp : (1 ≤ p)%Z) by (unfold p, at_least_one; case_match; lia). clearbody p.
  revert w s. induction Hops as [|op ops Hop Hops IH]; intros w s Hw Hs0 Hsm; simpl; [exists w; by rewrite Hw|].
  destruct op as [now v|now]; simpl in *.
  - destruct (IH (TumblingTimeWindow_Push w now v) (s.1, s.2 ++ [v])) as (w' & Hr & Ha & Ho); [|done|done|].
    { unfold TumblingTimeWindow_Push, TumblingTimeCore_Push. rewrite Hw. simpl. unfold foldWindow. by rewrite foldl_app. }
    rewrite Hr. destruct (run _ (s.1, s.2 ++ [v]) ops) as [s' os]. simpl in *. by exists w'.
  - unfold TumblingTimeWindow_Tick, TumblingTimeCore_Tick. rewrite Hw. cbn [tt_next tt_period tt_policy tt_acc].
    pose proof (Z.div_mod now p ltac:(lia)). pose proof (Z.mod_pos_bound now p ltac:(lia)).
    destruct (Z.ltb_spec now ((s.1 + 1) * p)).
    + simpl. assert (now / p < s.1 + 1)%Z by (apply Z.div_lt_upper_bound; lia).
      destruct (Z.ltb_spec s.1 (now / p)); [lia|].
      destruct (IH (mkTumblingTimeWindow (ttw_core w) (ttw_output w)) s) as (w' & Hr & Ha & Ho); [done..|].
      rewrite Hw in Hr. rewrite Hr. destruct (run _ s ops) as [s' os]. simpl in *. by exists w'.
    + assert (s.1 + 1 ≤ now / p)%Z by (apply Z.div_le_lower_bound; lia).
      destruct (Z.ltb_spec s.1 (now / p)); [|lia].
      rewrite (skip_boundaries_ok p now); try lia.
      * rewrite decide_True by lia. simpl.
        destruct (IH (mkTumblingTimeWindow (mkTumblingTime p ((now / p + 1) * p)%Z policy None) (project (ttw_output w) (foldWindow policy s.2)))
          ((now / p)%Z, [])) as (w' & Hr & Ha & Ho); [done|simpl; lia|simpl; nia|].
        rewrite Hr. destruct (run _ (_, []) ops) as [s' os]. simpl in *. exists w'. split_and!; [done..|]. rewrite Ho.
        f_equal. by destruct (foldWindow policy s.2) eqn:E; simpl; [rewrite Cell_Set_value|].
      * apply Z.mod_mul. lia.
      * unfold skip_fuel. rewrite Z.max_r, decide_True by lia. rewrite !Nat2Z.inj_succ, Z2Nat.id by (apply Z.div_pos; lia). lia.
Qed.
End timed.

(** A time-tumbling window returns from every operation and is the reference
    that keeps the period of the clock and what was pushed since it was entered:
    a tick emits the fold of what is pending exactly when it enters a later period,
    however many periods it skips, and an empty window emits nothing; its cell
    holds the last aggregate (up to one period short of the 64-bit clock). *)
Theorem Tumbling_time_folds_periods {T} `{EqDecision T} (policy : MergePolicy T) period ops :
  let p := at_least_one period in
  (p ≤ max_u64)%Z → Forall (λ op : timed_op T, 0 ≤ op_now op ≤ max_u64 - p)%Z ops →
  ∃ w, tumbling_run (TumblingTime period policy) ops = Some (w, (run (tumbling_spec_step policy p) (0%Z, []) ops).2) ∧
    tt_acc (ttw_core w) = foldWindow policy (run (tumbling_spec_step policy p) (0%Z, []) ops).1.2 ∧
    cell_value (ttw_output w) = last_emitted (run (tumbling_spec_step policy p) (0%Z, []) ops).2.
Proof.
  intros p Hp Hops. apply (tumbling_run_spec policy period (TumblingTime period policy) (0%Z, []) ops); try done.
  all: fold p; cbn [fst]; rewrite Z.add_0_l, Z.mul_1_l; done.
Qed.

Lemma Tumbling_time_folds_periods_witness :
  ∃ w, tumbling_run (TumblingTime 10 Sum) [TPush 1 5%Z; TPush 2 6%Z; TTick 9; TTick 31; TPush 32 1%Z; TTick 39; TTick 40] =
    Some (w, [None; None; None; Some 11%Z; None; None; Some 1%Z]).
Proof.
  destruct (Tumbling_time_folds_periods Sum 10 [TPush 1 5%Z; TPush 2 6%Z; TTick 9; TTick 31; TPush 32 1%Z; TTick 39; TTick 40])
    as (w & Hw & _); [by vm_compute|repeat constructor; by vm_compute|]. by exists w.
Defined.

(** At the top of the clock the boundary wraps and the loop never passes [now]. *)
Lemma tumbling_tick_hangs fuel : skip_boundaries fuel two63 two63 max_u64 = None.
Proof.
  assert (H : ∀ fuel b, skip_boundaries fuel two63 (if b : bool then two63 else 0) max_u64 = None); [|by apply (H fuel true)].
  clear fuel. induction fuel as [|fuel IH]; intros b; [done|]. cbn [skip_boundaries].
  destruct b; [exact (IH false)|exact (IH true)].
Qed.

(** ** Sessions *)

Section sessions.
Context {T : Type} `{EqDecision T} (policy : MergePolicy T) (gap : Z).

(** Grouping a timed stream: an element whose distance from the one before is
    larger than the gap begins a new group.  [g] is the group in progress. *)
Fixpoint sessions_from (g : list (Z * T)) (l : list (Z * T)) : list (list (Z * T)) :=
  match l with
  | [] => [g]
  | x :: l =>
      match last g with
      | Some y => if (gap <? satSub x.1 y.1)%Z then g :: sessions_from [x] l else sessions_from (g ++ [x]) l
      | None => sessions_from [x] l
      end
  end.
Definition sessions (l : list (Z * T)) : list (list (Z * T)) := match l with [] => [] | x :: l => sessions_from [x] l end.

Lemma sessions_from_concat g l : concat (sessions_from g l) = g ++ l.
Proof.
  revert g. induction l as [|x l IH]; intros g; simpl; [done|].
  destruct (last g) as [y|] eqn:E; [|apply last_None in E as ->; by rewrite IH].
  case_match; simpl; rewrite IH; [done|by rewrite <-app_assoc].
Qed.

Lemma sessions_from_snoc g l x : g ≠ [] → ∃ init cur, sessions_from g l = init ++ [cur] ∧ cur ≠ [] ∧ last (g ++ l) = last cur ∧
  sessions_from g (l ++ [x]) = init ++ (match last cur with Some y => if (gap <? satSub x.1 y.1)%Z then [cur; [x]] else [cur ++ [x]] | None => [[x]] end).
Proof.
  revert g. induction l as [|z l IH]; intros g Hg; simpl.
  - exists [], g. rewrite app_nil_r. by split_and!.
  - destruct (last g) as [y|] eqn:E; [|by apply last_None in E].
    case_match.
    + destruct (IH [z]) as (init & cur & H1 & H2 & H3 & H4); [done|]. exists (g :: init), cur.
      rewrite H1, H4. split_and!; try done. rewrite <-H3. change (z :: l) with ([z] ++ l). rewrite (last_app g).
      destruct (last ([z] ++ l)) eqn:El; [done|]. by apply last_None in El.
    + destruct (IH (g ++ [z])) as (init & cur & H1 & H2 & H3 & H4); [by destruct g|]. exists init, cur.
      rewrite H1, H4. split_and!; try done. by rewrite <-H3, <-app_assoc.
Qed.

Lemma sessions_snoc l x : ∃ init cur, (l = [] → init = [] ∧ cur = []) ∧ (l ≠ [] → sessions l = init ++ [cur] ∧ cur ≠ []) ∧ last l = last cur ∧
  sessions (l ++ [x]) = init ++ (match last cur with Some y => if (gap <? satSub x.1 y.1)%Z then [cur; [x]] else [cur ++ [x]] | None => [[x]] end).
Proof.
  destruct l as [|z l]; simpl; [by exists [], []|].
  destruct (sessions_from_snoc [z] l x) as (init & cur & H1 & H2 & H3 & H4); [done|]. exists init, cur. by split_and!.
Qed.

Definition session_step (w : SessionWindow T) (op : timed_op T) : SessionWindow T * option T :=
  match op with TPush now v => SessionWindow_Push w now v | TTick now => SessionWindow_Flush w now end.
Definition pushed (ops : list (timed_op T)) : list (Z * T) := omap (λ op, match op with TPush now v => Some (now, v) | TTick _ => None end) ops.
Definition group_fold (g : list (Z * T)) : option T := foldWindow policy g.*2.

Lemma group_fold_snoc g now v : group_fold (g ++ [(now, v)]) = mergeInto policy (group_fold g) v.
Proof. unfold group_fold, foldWindow. by rewrite fmap_app, foldl_app. Qed.
Lemma group_fold_some g : g ≠ [] → is_Some (group_fold g).
Proof.
  induction g as [|[now v] g _] using rev_ind; [done|]. intros _. rewrite group_fold_snoc.
  destruct (group_fold g); by eexists.
Qed.

(** What has been emitted, in order, and what is open: the groups of the stream
    pushed so far, of which a flush may have emitted the last one too. *)
Definition session_ok (w : SessionWindow T) (os : list (option T)) (clock : Z) (l : list (Z * T)) : Prop :=
  ss_gap (ssw_core w) = gap ∧ ss_policy (ssw_core w) = policy ∧
  ss_last (ssw_core w) = fst <$> last l ∧
  (∀ x, last l = Some x → x.1 ≤ clock)%Z ∧
  (Some <$> omap id os) ++ (match ss_acc (ssw_core w) with Some a => [Some a] | None => [] end) = group_fold <$> sessions l ∧
  cell_value (ssw_output w) = last_emitted os ∧
  (ss_acc (ssw_core w) = None → ∀ x, last l = Some x → gap < satSub clock x.1)%Z ∧
  (∀ a, ss_acc (ssw_core w) = Some a → l ≠ []).

Lemma session_step_ok w os clock l op :
  session_ok w os clock l → (clock ≤ op_now op ≤ max_u64)%Z → (0 ≤ gap)%Z → Forall (λ x, 0 ≤ x.1)%Z l → (0 ≤ op_now op)%Z →
  session_ok (session_step w op).1 (os ++ [(session_step w op).2]) (op_now op) (l ++ pushed [op]).
Proof.
  intros (Hg & Hp & Hl & Hc & Hs & Ho & Hn & Ha) Hop H0 Hpos Hnow.
  destruct w as [[g p acc lst] out]. cbn [ssw_core ssw_output ss_gap ss_policy ss_acc ss_last] in *. subst g p lst.
  assert (Hsat : ∀ x, last l = Some x → satSub (op_now op) x.1 = (op_now op - x.1)%Z ∧ satSub clock x.1 = (clock - x.1)%Z).
  { intros x Hx. specialize (Hc x Hx). rewrite Forall_forall in Hpos. specialize (Hpos x ltac:(by apply last_Some_elem_of)).
    unfold satSub. destruct (Z.ltb_spec (op_now op) x.1), (Z.ltb_spec clock x.1); try lia.
    rewrite !u64_small by (unfold is_u64, two64, max_u64 in *; lia). done. }
  assert (Hidle : idle (mkSession gap policy acc (fst <$> last l)) (op_now op) = true ↔
    is_Some acc ∧ ∃ x, last l = Some x ∧ (gap < op_now op - x.1)%Z).
  { unfold idle. cbn [ss_last ss_acc ss_gap]. destruct (last l) as [x|] eqn:El; simpl.
    - destruct acc; [|split; [done|by intros [[] _]]]. destruct (Hsat x eq_refl) as [-> _].
      rewrite Z.ltb_lt. split; [intros; split; [by eexists|by exists x]|intros (_ & ? & [= <-] & ?); done].
    - split; [by destruct acc|by intros (_ & ? & ? & _)]. }
  assert (HomS : ∀ a : T, Some <$> omap id (os ++ [Some a]) = (Some <$> omap id os) ++ [Some a]) by (intros a; by rewrite omap_app, fmap_app).
  assert (HomN : omap id (os ++ [@None T]) = omap id os) by (by rewrite omap_app, app_nil_r).
  assert (Hcell : ∀ e, cell_value (project out e) = last_emitted (os ++ [e])).
  { intros e. rewrite project_value, last_emitted_snoc. by destruct e. }
  destruct op as [now v|now]; cbn [session_step op_now pushed omap list_omap] in *.
  - unfold SessionWindow_Push, SessionCore_Push. cbn [ssw_core ssw_output ss_gap ss_policy ss_acc].
    destruct (sessions_snoc l (now, v)) as (init & cur & Hnil & Hcons & Hlast & Hnew).
    assert (Hlx : last (l ++ [(now, v)]) = Some (now, v)) by apply last_snoc.
    destruct (idle _ now) eqn:Ei.
    + destruct (proj1 Hidle eq_refl) as [[a ->] (x & Hx & Hgap)]. cbn [fst snd]. split_and!; cbn [ssw_core ssw_output ss_gap ss_policy ss_acc ss_last]; try done.
      * by rewrite Hlx.
      * intros y. rewrite Hlx. intros [= <-]. done.
      * rewrite Hnew, <-Hlast, Hx. destruct (Hsat x Hx) as [Hsx _]. cbn [fst]. rewrite Hsx, (proj2 (Z.ltb_lt _ _)) by done.
        destruct (Hcons (Ha a eq_refl)) as [Hsl _]. rewrite HomS, Hs, Hsl, !fmap_app. by rewrite <-app_assoc.
      * intros b _. by destruct l.
    + assert (Hni : ¬ (is_Some acc ∧ ∃ x, last l = Some x ∧ (gap < now - x.1)%Z)) by (intros Hi; by apply Hidle in Hi). cbn [fst snd].
      split_and!; cbn [ssw_core ssw_output ss_gap ss_policy ss_acc ss_last]; try done.
      * by rewrite Hlx.
      * intros y. rewrite Hlx. intros [= <-]. done.
      * rewrite HomN, Hnew, <-Hlast. destruct acc as [a|]; simpl.
        -- destruct (last l) as [x|] eqn:El; [|by apply last_None in El; destruct (Ha a eq_refl)].
           destruct (Hsat x eq_refl) as [-> _]. rewrite (proj2 (Z.ltb_ge _ _)) by (destruct (Z.lt_ge_cases gap (now - x.1)); [exfalso; apply Hni; eauto|lia]).
           destruct (Hcons (Ha a eq_refl)) as [Hsl _]. rewrite Hsl, fmap_app in Hs. apply app_inj_2 in Hs as [-> [= Hc']]; [|done].
           rewrite fmap_app. simpl. by rewrite group_fold_snoc, <-Hc'.
        -- destruct (last l) as [x|] eqn:El.
           ++ destruct (Hsat x eq_refl) as [-> Hsc]. specialize (Hn eq_refl x eq_refl). rewrite Hsc in Hn.
              rewrite (proj2 (Z.ltb_lt _ _)) by lia.
              destruct Hcons as [Hsl _]; [by intros ->|]. rewrite app_nil_r in Hs. rewrite Hs, Hsl, !fmap_app. by rewrite <-app_assoc.
           ++ apply last_None in El. destruct (Hnil El) as [-> ->]. subst l. simpl in Hs. rewrite app_nil_r in Hs. by rewrite Hs.
      * destruct acc; done.
      * intros b _. by destruct l.
  - rewrite app_nil_r. unfold SessionWindow_Flush, SessionCore_Flush. cbn [ssw_core ssw_output ss_gap ss_policy ss_acc ss_last].
    destruct (idle _ now) eqn:Ei.
    + destruct (proj1 Hidle eq_refl) as [[a ->] (x & Hx & Hgap)]. cbn [fst snd]. split_and!; cbn [ssw_core ssw_output ss_gap ss_policy ss_acc ss_last]; try done.
      * intros y Hy. specialize (Hc y Hy). lia.
      * rewrite HomS, app_nil_r. exact Hs.
      * intros _ y Hy. destruct (Hsat y Hy) as [-> _]. by simplify_eq.
    + cbn [fst snd]. split_and!; cbn [ssw_core ssw_output ss_gap ss_policy ss_acc ss_last]; try done.
      * intros y Hy. specialize (Hc y Hy). lia.
      * by rewrite HomN.
      * intros He y Hy. specialize (Hn He y Hy). destruct (Hsat y Hy) as [H1 H2]. lia.
Qed.
End sessions.

(** Times never go back along a run. *)
Fixpoint in_order {T} (clock : Z) (ops : list (timed_op T)) : Prop :=
  match ops with [] => True | op :: ops => (clock ≤ op_now op ≤ max_u64)%Z ∧ in_order (op_now op) ops end.

Lemma session_run {T} `{EqDecision T} (policy : MergePolicy T) gap ops w os clock l :
  session_ok policy gap w os clock l → in_order clock ops → (0 ≤ gap)%Z → (0 ≤ clock)%Z → Forall (λ x, 0 ≤ x.1)%Z l →
  session_ok policy gap (run session_step w ops).1 (os ++ (run session_step w ops).2) (foldl (λ _ op, op_now op) clock ops) (l ++ pushed ops).
Proof.
  revert w os clock l. induction ops as [|op ops IH]; intros w os clock l Hok Ho Hg Hc Hl.
  - simpl. by rewrite !app_nil_r.
  - destruct Ho as [Hop Ho]. pose proof (session_step_ok policy gap w os clock l op Hok Hop Hg Hl ltac:(lia)) as Hstep.
    cbn [run foldl]. destruct (session_step w op) as [w' o]. simpl in Hstep.
    specialize (IH w' (os ++ [o]) (op_now op) (l ++ pushed [op]) Hstep Ho Hg ltac:(lia)).
    destruct (run session_step w' ops) as [w'' os']. cbn [fst snd] in *.
    rewrite (cons_middle o os []), app_nil_r in *. rewrite <-app_assoc in IH. simpl in IH.
    replace (l ++ pushed (op :: ops)) with ((l ++ pushed [op]) ++ pushed ops) by (rewrite <-app_assoc; by destruct op).
    apply IH. apply Forall_app. split; [done|]. destruct op; simpl in *; [|constructor]. constructor; [simpl; lia|constructor].
Qed.

(** A session window emits one aggregate per session.  Whatever flushes are
    interleaved, as long as the clock does not go back, the aggregates emitted so
    far, followed by the one still open, are the folds of the groups into which the
    gap cuts the stream, in order, each exactly once; no element is lost or counted
    twice, and the cell holds the last aggregate emitted. *)
Theorem Session_window_folds_sessions {T} `{EqDecision T} (policy : MergePolicy T) gap (ops : list (timed_op T)) :
  (0 ≤ gap)%Z → in_order 0 ops →
  let r := run session_step (Session gap policy) ops in
  (Some <$> omap id r.2) ++ (match ss_acc (ssw_core r.1) with Some a => [Some a] | None => [] end) =
    group_fold policy <$> sessions gap (pushed ops) ∧
  concat (sessions gap (pushed ops)) = pushed ops ∧
  cell_value (ssw_output r.1) = last_emitted r.2.
Proof.
  intros Hg Ho. cbv zeta.
  destruct (session_run policy gap ops (Session gap policy) [] 0 []) as (_ & _ & _ & _ & Hs & Hc & _); try done.
  rewrite app_nil_l in *. split_and!; [done| |done].
  unfold sessions. destruct (pushed ops); [done|]. by rewrite sessions_from_concat.
Qed.

Lemma Session_window_folds_sessions_witness :
  let ops := [TPush 1 1%Z; TPush 3 2%Z; TTick 5; TTick 20; TPush 21 4%Z; TPush 40 8%Z] in
  (run session_step (Session 5 Sum) ops).2 = [None; None; None; Some 3%Z; None; Some 4%Z] ∧
  group_fold Sum <$> sessions 5 (pushed ops) = [Some 3; Some 4; Some 8]%Z.
Proof.
  intros ops. destruct (Session_window_folds_sessions Sum 5 ops ltac:(lia)) as (H & _).
  { repeat split; by vm_compute. }
  split; [reflexivity|]. rewrite <-H. reflexivity.
Defined.
