(* ===== verification/RateShape.v ===== *)
(** * Rate shaping: debounce, throttle, sample (rateshape.go)

    Source operators over a logical clock and the cells that keep the last value
    emitted.  A probabilistic sampler passes an input when its draw is below a
    floating-point rate: the comparison is a parameter here, and of the generator
    only the integer part is modelled. *)

From S2P Require Import Prelude.
Local Open Scope Z_scope.

(** [rateshape.go] [rsMax64] *)
Definition rsMax64 (a b : Z) : Z := if b <? a then a else b.

Section operators.
Context {T : Type} `{EqDecision T}.
Implicit Types (now : Z) (v : T).

(** [rateshape.go] [setOutput] *)
Definition setOutput (cell : Cell (option T)) (emitted : option T) : Cell (option T) :=
  match emitted with Some _ => Cell_Set cell emitted | None => cell end.

(** ** Debounce *)

(** [rateshape.go] [type DebounceCore] *)
Record DebounceCore := mkDebounce { quiet : Z; pending : option T; fireAt : Z; armed : bool }.
(** [rateshape.go] [NewDebounceCore] *)
Definition NewDebounceCore (quiet : Z) : DebounceCore := mkDebounce quiet None 0 false.
(** [rateshape.go] [DebounceCore.Input] *)
Definition DebounceCore_Input (d : DebounceCore) now v : DebounceCore := mkDebounce (quiet d) (Some v) (now +ᵤ quiet d) true.
(** [rateshape.go] [DebounceCore.Tick] *)
Definition DebounceCore_Tick (d : DebounceCore) now : DebounceCore * option T :=
  if armed d && bool_decide (is_Some (pending d)) && (fireAt d <=? now)
  then (mkDebounce (quiet d) None (fireAt d) false, pending d) else (d, None).
(** [rateshape.go] [type DebounceCell] *)
Record DebounceCell := mkDebounceCell { debounce_core : DebounceCore; debounce_output : Cell (option T) }.
(** [rateshape.go] [NewDebounceCell] *)
Definition NewDebounceCell (quiet : Z) : DebounceCell := mkDebounceCell (NewDebounceCore quiet) (NewCell None).
(** [rateshape.go] [DebounceCell.Input] *)
Definition DebounceCell_Input (c : DebounceCell) now v : DebounceCell :=
  mkDebounceCell (DebounceCore_Input (debounce_core c) now v) (debounce_output c).
(** [rateshape.go] [DebounceCell.Tick] *)
Definition DebounceCell_Tick (c : DebounceCell) now : DebounceCell * option T :=
  let '(core, emitted) := DebounceCore_Tick (debounce_core c) now in
  (mkDebounceCell core (setOutput (debounce_output c) emitted), emitted).

(** ** Throttle *)

(** [rateshape.go] [type ThrottleEdge] *)
Inductive ThrottleEdge := ThrottleLeading | ThrottleTrailing.
(** [rateshape.go] [type ThrottleCore] *)
Record ThrottleCore := mkThrottle { edge : ThrottleEdge; window : Z; windowEnd : option Z; windowStart : option Z; held_latest : option T }.
(** [rateshape.go] [NewThrottleCore] *)
Definition NewThrottleCore (edge : ThrottleEdge) (window : Z) : ThrottleCore := mkThrottle edge window None None None.
(** [rateshape.go] [ThrottleCore.Input] *)
Definition ThrottleCore_Input (c : ThrottleCore) now v : ThrottleCore * option T :=
  match edge c with
  | ThrottleLeading =>
      if (match windowEnd c with Some e => now <? e | None => false end) then (c, None)
      else (mkThrottle (edge c) (window c) (Some (now +ᵤ window c)) (windowStart c) (held_latest c), Some v)
  | ThrottleTrailing =>
      (mkThrottle (edge c) (window c) (windowEnd c) (match windowStart c with None => Some now | s => s end) (Some v), None)
  end.
(** [rateshape.go] [ThrottleCore.Tick] *)
Definition ThrottleCore_Tick (c : ThrottleCore) now : ThrottleCore * option T :=
  match edge c with
  | ThrottleLeading => (c, None)
  | ThrottleTrailing =>
      match windowStart c with
      | None => (c, None)
      | Some ws =>
          if (ws +ᵤ window c <=? now) && bool_decide (is_Some (held_latest c))
          then (mkThrottle (edge c) (window c) (windowEnd c) None None, held_latest c) else (c, None)
      end
  end.
(** [rateshape.go] [type ThrottleCell] *)
Record ThrottleCell := mkThrottleCell { throttle_core : ThrottleCore; throttle_output : Cell (option T) }.
(** [rateshape.go] [NewThrottleCell] *)
Definition NewThrottleCell (edge : ThrottleEdge) (window : Z) : ThrottleCell := mkThrottleCell (NewThrottleCore edge window) (NewCell None).
(** [rateshape.go] [ThrottleCell.Input] *)
Definition ThrottleCell_Input (c : ThrottleCell) now v : ThrottleCell * option T :=
  let '(core, emitted) := ThrottleCore_Input (throttle_core c) now v in
  (mkThrottleCell core (setOutput (throttle_output c) emitted), emitted).
(** [rateshape.go] [ThrottleCell.Tick] *)
Definition ThrottleCell_Tick (c : ThrottleCell) now : ThrottleCell * option T :=
  let '(core, emitted) := ThrottleCore_Tick (throttle_core c) now in
  (mkThrottleCell core (setOutput (throttle_output c) emitted), emitted).

(** ** Sample *)

(** The kind tag and its parameter.
    [rateshape.go] [type SampleMode] *)
Inductive SampleMode := SampleCount (n : Z) | SampleTime (period : Z).
(** [rateshape.go] [type SampleCore] *)
Record SampleCore := mkSample { mode : SampleMode; counter : Z; next : Z; held : option T }.
(** [rateshape.go] [NewSampleCore] *)
Definition NewSampleCore (mode : SampleMode) : SampleCore :=
  mkSample mode 0 (match mode with SampleTime period => rsMax64 period 1 | SampleCount _ => 0 end) None.
(** [rateshape.go] [SampleCore.Input] *)
Definition SampleCore_Input (c : SampleCore) v : SampleCore * option T :=
  match mode c with
  | SampleCount n =>
      let n := rsMax64 n 1 in
      let counter := counter c +ᵤ 1 in
      (mkSample (mode c) counter (next c) (held c), if counter mod n =? 0 then Some v else None)
  | SampleTime _ => (mkSample (mode c) (counter c) (next c) (Some v), None)
  end.
(** [rateshape.go] [SampleCore.Tick] *)
Definition SampleCore_Tick (c : SampleCore) now : SampleCore * option T :=
  match mode c with
  | SampleCount _ => (c, None)
  | SampleTime period =>
      let period := rsMax64 period 1 in
      if now <? next c then (c, None)
      else
        let fires := ((now -ᵤ next c) / period) +ᵤ 1 in
        (mkSample (mode c) (counter c) (next c +ᵤ u64 (fires * period)) (held c), held c)
  end.
(** [rateshape.go] [type SampleCell] *)
Record SampleCell := mkSampleCell { sample_core : SampleCore; sample_output : Cell (option T) }.
(** [rateshape.go] [NewSampleCell] *)
Definition NewSampleCell (mode : SampleMode) : SampleCell := mkSampleCell (NewSampleCore mode) (NewCell None).
(** [rateshape.go] [SampleCell.Input] *)
Definition SampleCell_Input (c : SampleCell) v : SampleCell * option T :=
  let '(core, emitted) := SampleCore_Input (sample_core c) v in
  (mkSampleCell core (setOutput (sample_output c) emitted), emitted).
(** [rateshape.go] [SampleCell.Tick] *)
Definition SampleCell_Tick (c : SampleCell) now : SampleCell * option T :=
  let '(core, emitted) := SampleCore_Tick (sample_core c) now in
  (mkSampleCell core (setOutput (sample_output c) emitted), emitted).

(** ** Probabilistic sample *)

(** The generator's integer state and the 53 bits of a draw; the quotient by 2^53
    is exact, so a draw is below one.
    [rateshape.go] [type Lcg] *)
Record Lcg := mkLcg { lcg_state : Z }.
(** [rateshape.go] [Lcg.NextFloat64] *)
Definition Lcg_Next (l : Lcg) : Lcg * Z :=
  let s := lcg_state l +ᵤ 0x9E3779B97F4A7C15 in
  let z := s in
  let z := Z.lxor z (Z.shiftr z 30) *ᵤ 0xBF58476D1CE4E5B9 in
  let z := Z.lxor z (Z.shiftr z 27) *ᵤ 0x94D049BB133111EB in
  let z := Z.lxor z (Z.shiftr z 31) in
  (mkLcg s, Z.shiftr z 11).
(** [below] is the comparison of a draw with the clamped rate.
    [rateshape.go] [type ProbabilisticSampleCell] *)
Record ProbabilisticSampleCell := mkProbCell { below : Z → bool; rng : Lcg; prob_output : Cell (option T) }.
(** [rateshape.go] [ProbabilisticSampleCell.InputWithDraw] *)
Definition InputWithDraw (c : ProbabilisticSampleCell) v (draw : Z) : ProbabilisticSampleCell * option T :=
  if below c draw then (mkProbCell (below c) (rng c) (Cell_Set (prob_output c) (Some v)), Some v) else (c, None).
(** [rateshape.go] [ProbabilisticSampleCell.Input] *)
Definition ProbabilisticSampleCell_Input (c : ProbabilisticSampleCell) v : ProbabilisticSampleCell * option T :=
  let '(l, draw) := Lcg_Next (rng c) in InputWithDraw (mkProbCell (below c) l (prob_output c)) v draw.
End operators.
Arguments DebounceCore : clear implicits.
Arguments DebounceCell : clear implicits.
Arguments ThrottleCore : clear implicits.
Arguments ThrottleCell : clear implicits.
Arguments SampleCore : clear implicits.
Arguments SampleCell : clear implicits.
Arguments ProbabilisticSampleCell : clear implicits.

(** ** Histories *)

Inductive shape_op (T : Type) := SInput (now : Z) (v : T) | STick (now : Z).
Arguments SInput {T}.
Arguments STick {T}.

Section histories.
Context {T : Type} `{EqDecision T}.
Implicit Types (l : list (shape_op T)).

Definition debounce_step (c : DebounceCell T) (op : shape_op T) : DebounceCell T * option T :=
  match op with SInput now v => (DebounceCell_Input c now v, None) | STick now => DebounceCell_Tick c now end.
Definition throttle_step (c : ThrottleCell T) (op : shape_op T) : ThrottleCell T * option T :=
  match op with SInput now v => ThrottleCell_Input c now v | STick now => ThrottleCell_Tick c now end.
Definition sample_step (c : SampleCell T) (op : shape_op T) : SampleCell T * option T :=
  match op with SInput _ v => SampleCell_Input c v | STick now => SampleCell_Tick c now end.

(** No deadline of the history wraps. *)
Definition fits (d : Z) l : Prop := Forall (λ op, match op with SInput now _ => is_u64 (now + d) | STick _ => True end) l.

(** The input waiting, with the tick it is due at. *)
Definition waiting_step (q : Z) (s : option (Z * T)) (op : shape_op T) : option (Z * T) :=
  match op with
  | SInput t v => Some (t + q, v)
  | STick n => match s with Some (f, _) => if f <=? n then None else s | None => None end
  end.
Definition waiting (q : Z) l : option (Z * T) := foldl (waiting_step q) None l.

(** The input waiting is the last one, and no tick since has reached its due time. *)
Lemma waiting_spec q l f v :
  waiting q l = Some (f, v) ↔
  ∃ l1 l2 t0, l = l1 ++ SInput t0 v :: l2 ∧ f = t0 + q ∧ Forall (λ op, ∃ n, op = STick n ∧ n < f) l2.
Proof.
  revert f v. induction l as [|op l IH] using rev_ind; intros f v.
  - split; [done|]. intros (l1 & l2 & t0 & Hl & _). by destruct l1.
  - unfold waiting. rewrite foldl_snoc. fold (waiting q l). destruct op as [t w|n]; simpl.
    + split.
      * intros [= <- <-]. exists l, [], t. by split_and!.
      * intros (l1 & l2 & t0 & Hl & -> & Ht). destruct l2 as [|o l2 _] using rev_ind.
        -- apply app_inj_2 in Hl as [_ [= -> ->]]; done.
        -- rewrite app_comm_cons, app_assoc in Hl. apply app_inj_2 in Hl as [_ [= <-]]; [|done].
           apply Forall_app in Ht as [_ Ht]. rewrite Forall_singleton in Ht; destruct Ht as (n & ? & _). done.
    + assert (Hex : (∃ l1 l2 t0, l ++ [STick n] = l1 ++ SInput t0 v :: l2 ∧ f = t0 + q ∧ Forall (λ op, ∃ n, op = STick n ∧ n < f) l2) ↔
        waiting q l = Some (f, v) ∧ n < f).
      { rewrite IH. split.
        - intros (l1 & l2 & t0 & Hl & Hf & Ht). destruct l2 as [|o l2 _] using rev_ind; [apply app_inj_2 in Hl as [_ ?]; done|].
          rewrite app_comm_cons, app_assoc in Hl. apply app_inj_2 in Hl as [Hl [= <-]]; [|done].
          apply Forall_app in Ht as [Ht1 Ht2]. rewrite Forall_singleton in Ht2; destruct Ht2 as (n' & [= <-] & ?). split; [|done]. by exists l1, l2, t0.
        - intros [(l1 & l2 & t0 & -> & Hf & Ht) Hn]. exists l1, (l2 ++ [STick n]), t0. rewrite <-app_assoc. split_and!; [done..|].
          apply Forall_app. split; [done|]. apply Forall_singleton. by exists n. }
      rewrite Hex. clear Hex IH. destruct (waiting q l) as [[f' v']|]; [|naive_solver].
      destruct (Z.leb_spec f' n); split; try done.
      * intros [[= -> ->] ?]. lia.
      * intros [= -> ->]. done.
      * by intros [[= -> ->] _].
Qed.

Lemma setOutput_value cell (e : option T) : cell_value (setOutput cell e) = match e with Some _ => e | None => cell_value cell end.
Proof. destruct e; simpl; [apply Cell_Set_value|done]. Qed.

Definition emitted_last (os : list (option T)) : option T := foldl (λ o e, match e with Some _ => e | None => o end) None os.
Lemma emitted_last_snoc os e : emitted_last (os ++ [e]) = match e with Some _ => e | None => emitted_last os end.
Proof. unfold emitted_last. by rewrite foldl_snoc. Qed.

Lemma debounce_state q l : fits q l →
  let r := run debounce_step (NewDebounceCell q) l in
  quiet (debounce_core r.1) = q ∧ pending (debounce_core r.1) = snd <$> waiting q l ∧
  armed (debounce_core r.1) = bool_decide (is_Some (waiting q l)) ∧
  (∀ f v, waiting q l = Some (f, v) → fireAt (debounce_core r.1) = f) ∧
  cell_value (debounce_output r.1) = emitted_last r.2.
Proof.
  induction l as [|op l IH] using rev_ind; intros Hf; [by split_and!|].
  apply Forall_app in Hf as [Hf Hop]. rewrite Forall_singleton in Hop. destruct (IH Hf) as (H1 & H2 & H3 & H4 & H5).
  cbv zeta. rewrite run_snoc. cbn [fst snd]. rewrite emitted_last_snoc, <-H5.
  unfold waiting. rewrite foldl_snoc. fold (waiting q l). set (c := (run debounce_step _ l).1) in *. clearbody c. clear H5 IH.
  destruct op as [t v|n]; cbn [debounce_step waiting_step].
  - unfold DebounceCell_Input, DebounceCore_Input. cbn. rewrite H1, u64_small by done. split_and!; try done. by intros f w [= <- <-].
  - unfold DebounceCell_Tick, DebounceCore_Tick. rewrite H2, H3. destruct (waiting q l) as [[f v]|] eqn:Ew; simpl.
    + rewrite (H4 f v eq_refl). destruct (Z.leb_spec f n); simpl; rewrite ?Cell_Set_value; split_and!; try done.
    + by split_and!.
Qed.

(** The window open, with its first input's tick and its latest value. *)
Definition open_step (w : Z) (s : option (Z * T)) (op : shape_op T) : option (Z * T) :=
  match op with
  | SInput t v => Some (match s with Some (t1, _) => t1 | None => t end, v)
  | STick n => match s with Some (t1, _) => if t1 + w <=? n then None else s | None => None end
  end.
Definition open_window (w : Z) l : option (Z * T) := foldl (open_step w) None l.

Lemma open_window_fits w l t1 v : fits w l → open_window w l = Some (t1, v) → is_u64 (t1 + w).
Proof.
  revert t1 v. induction l as [|op l IH] using rev_ind; intros t1 v Hf; [done|].
  apply Forall_app in Hf as [Hf Hop]. rewrite Forall_singleton in Hop. unfold open_window. rewrite foldl_snoc. fold (open_window w l).
  destruct (open_window w l) as [[t2 v2]|] eqn:E; destruct op as [t u|n]; simpl.
  - intros [= <- _]. by eapply IH.
  - case_match; [done|]. intros [= <- <-]. by eapply IH.
  - by intros [= <- _].
  - done.
Qed.

Lemma trailing_state w l : fits w l →
  let r := run throttle_step (NewThrottleCell ThrottleTrailing w) l in
  edge (throttle_core r.1) = ThrottleTrailing ∧ window (throttle_core r.1) = w ∧
  windowStart (throttle_core r.1) = fst <$> open_window w l ∧ held_latest (throttle_core r.1) = snd <$> open_window w l ∧
  cell_value (throttle_output r.1) = emitted_last r.2.
Proof.
  induction l as [|op l IH] using rev_ind; intros Hf; [by split_and!|].
  pose proof Hf as Hf'. apply Forall_app in Hf' as [Hfl _]. destruct (IH Hfl) as (H1 & H2 & H3 & H4 & H5).
  cbv zeta. rewrite run_snoc. cbn [fst snd]. rewrite emitted_last_snoc, <-H5. pose proof (λ t v, open_window_fits w l t v Hfl) as Hb.
  unfold open_window. rewrite foldl_snoc. fold (open_window w l). set (c := (run throttle_step _ l).1) in *. clearbody c. clear H5 IH.
  destruct op as [t v|n]; cbn [throttle_step open_step].
  - unfold ThrottleCell_Input, ThrottleCore_Input. rewrite H1. cbn. rewrite H3. split_and!; try done. by destruct (open_window w l) as [[]|].
  - unfold ThrottleCell_Tick, ThrottleCore_Tick. rewrite H1, H3, H4. destruct (open_window w l) as [[t1 v]|] eqn:Ew; cbn [fmap option_fmap option_map].
    + rewrite H2, u64_small by (by eapply Hb). simpl. rewrite andb_true_r. destruct (t1 + w <=? n); simpl; rewrite ?Cell_Set_value; by split_and!.
    + simpl. by split_and!.
Qed.

(** The last emission of a leading throttle. *)
Definition passed_step (w : Z) (s : option Z) (op : shape_op T) : option Z :=
  match op with SInput t _ => match s with Some e => if e + w <=? t then Some t else s | None => Some t end | STick _ => s end.
Definition passed (w : Z) l : option Z := foldl (passed_step w) None l.

Lemma leading_state w l : fits w l →
  let r := run throttle_step (NewThrottleCell ThrottleLeading w) l in
  edge (throttle_core r.1) = ThrottleLeading ∧ window (throttle_core r.1) = w ∧
  windowEnd (throttle_core r.1) = (λ e, e + w) <$> passed w l ∧
  cell_value (throttle_output r.1) = emitted_last r.2.
Proof.
  induction l as [|op l IH] using rev_ind; intros Hf; [by split_and!|].
  apply Forall_app in Hf as [Hf Hop]. rewrite Forall_singleton in Hop. destruct (IH Hf) as (H1 & H2 & H3 & H5).
  cbv zeta. rewrite run_snoc. cbn [fst snd]. rewrite emitted_last_snoc, <-H5.
  unfold passed. rewrite foldl_snoc. fold (passed w l). set (c := (run throttle_step _ l).1) in *. clearbody c. clear H5 IH.
  destruct op as [t v|n]; cbn [throttle_step passed_step].
  - unfold ThrottleCell_Input, ThrottleCore_Input. rewrite H1, H2, H3.
    destruct (passed w l) as [e|]; cbn [fmap option_fmap option_map]; [destruct (Z.ltb_spec t (e + w)), (Z.leb_spec (e + w) t); try lia|];
      cbn; rewrite ?u64_small, ?Cell_Set_value by done; by split_and!.
  - unfold ThrottleCell_Tick, ThrottleCore_Tick. rewrite H1. simpl. by split_and!.
Qed.
End histories.

(** Each operator emits exactly when its history says.  A debounce emits a value
    at a tick exactly when it is the last input and its quiet period has passed for
    the first time; a leading throttle passes an input exactly when a full window has
    passed since the last one it passed, so two passed inputs are never closer than
    the window; a trailing throttle emits at a tick the latest input of the window
    its first input opened, once the window has passed; and the output cell always
    holds the last value emitted (deadlines short of the 64-bit wrap). *)
Theorem Rate_shaping_emits {T} `{EqDecision T} q w (l : list (shape_op T)) now v :
  fits q l → fits w l →
  let d := run debounce_step (NewDebounceCell q) l in
  let lead := run throttle_step (NewThrottleCell ThrottleLeading w) l in
  let trail := run throttle_step (NewThrottleCell ThrottleTrailing w) l in
  ((debounce_step d.1 (STick now)).2 = Some v ↔
    ∃ l1 l2 t0, l = l1 ++ SInput t0 v :: l2 ∧ Forall (λ op, ∃ n, op = STick n ∧ n < t0 + q) l2 ∧ t0 + q ≤ now) ∧
  (throttle_step lead.1 (SInput now v)).2 = 
    match passed w l with Some e => if decide (e + w ≤ now) then Some v else None | None => Some v end ∧
  (throttle_step trail.1 (STick now)).2 = (t1v ← open_window w l; if decide (t1v.1 + w ≤ now) then Some t1v.2 else None) ∧
  (throttle_step lead.1 (STick now)).2 = None ∧ (throttle_step trail.1 (SInput now v)).2 = None ∧
  cell_value (debounce_output d.1) = emitted_last d.2 ∧
  cell_value (throttle_output lead.1) = emitted_last lead.2 ∧ cell_value (throttle_output trail.1) = emitted_last trail.2.
Proof.
  intros Hq Hw. cbv zeta.
  destruct (debounce_state q l Hq) as (D1 & D2 & D3 & D4 & D5). destruct (leading_state w l Hw) as (L1 & L2 & L3 & L4).
  destruct (trailing_state w l Hw) as (T1 & T2 & T3 & T4 & T5). cbv zeta in *.
  split; [|split_and!; try done].
  - transitivity (∃ f, waiting q l = Some (f, v) ∧ f ≤ now).
    + cbn [debounce_step]. unfold DebounceCell_Tick, DebounceCore_Tick. rewrite D2, D3.
      destruct (waiting q l) as [[f u]|]; simpl; [|naive_solver]. rewrite (D4 f u eq_refl).
      destruct (Z.leb_spec f now); simpl; split; try done.
      * intros [= ->]. by exists f.
      * by intros (? & [= -> ->] & _).
      * intros (? & [= -> ->] & ?). lia.
    + setoid_rewrite waiting_spec. naive_solver.
  - cbn [throttle_step]. unfold ThrottleCell_Input, ThrottleCore_Input. rewrite L1, L3.
    destruct (passed w l) as [e|]; simpl; [|done]. destruct (Z.ltb_spec now (e + w)); case_decide; try done; lia.
  - cbn [throttle_step]. unfold ThrottleCell_Tick, ThrottleCore_Tick. rewrite T1, T3, T4.
    destruct (open_window w l) as [[t1 u]|] eqn:E; simpl; [|done]. rewrite T2, u64_small by (by eapply open_window_fits).
    destruct (Z.leb_spec (t1 + w) now); case_decide; try done; lia.
  - cbn [throttle_step]. unfold ThrottleCell_Tick, ThrottleCore_Tick. by rewrite L1.
  - cbn [throttle_step]. unfold ThrottleCell_Input, ThrottleCore_Input. by rewrite T1.
Qed.

Lemma Rate_shaping_emits_witness :
  let l := [SInput 0 1%positive; SInput 4 2%positive; STick 6] in
  (debounce_step (run debounce_step (NewDebounceCell 5) l).1 (STick 9)).2 = Some 2%positive ∧
  (throttle_step (run throttle_step (NewThrottleCell ThrottleLeading 5) l).1 (SInput 4 3%positive)).2 = None ∧
  (throttle_step (run throttle_step (NewThrottleCell ThrottleTrailing 8) l).1 (STick 8)).2 = Some 2%positive.
Proof.
  intros l. assert (Hf : ∀ d, 0 ≤ d ≤ 8 → fits d l).
  { intros d Hd. unfold l, fits. rewrite !Forall_cons, Forall_nil. split_and!; try done; zrange. }
  destruct (Rate_shaping_emits 5 5 l 9 2%positive) as (Hd & _); [apply Hf; lia..|].
  destruct (Rate_shaping_emits 5 5 l 4 3%positive) as (_ & Hl & _); [apply Hf; lia..|].
  destruct (Rate_shaping_emits 8 8 l 8 2%positive) as (_ & _ & Ht & _); [apply Hf; lia..|].
  split_and!; [|rewrite Hl; reflexivity|rewrite Ht; reflexivity].
  apply Hd. exists [SInput 0 1%positive], [STick 6], 4. split_and!; [done| |done].
  constructor; [by exists 6|constructor].
Defined.

(** ** Sampling *)

Section sampling.
Context {T : Type} `{EqDecision T}.

Lemma rsMax64_max a b : rsMax64 a b = Z.max a b.
Proof. unfold rsMax64. destruct (Z.ltb_spec b a); lia. Qed.

(** Counting samples every [n]-th input. *)
Lemma sample_count_state n (vs : list T) : Z.of_nat (length vs) ≤ max_u64 →
  let r := run SampleCell_Input (NewSampleCell (SampleCount n)) vs in
  mode (sample_core r.1) = SampleCount n ∧ counter (sample_core r.1) = Z.of_nat (length vs) ∧
  cell_value (sample_output r.1) = emitted_last r.2 ∧
  (∀ i v, vs !! i = Some v → r.2 !! i = Some (if decide (Z.of_nat (S i) mod Z.max n 1 = 0) then Some v else None)).
Proof.
  induction vs as [|v vs IH] using rev_ind; intros Hl; [by split_and!|].
  rewrite length_app in *. simpl in Hl. destruct (IH ltac:(lia)) as (H1 & H2 & H3 & H4). cbv zeta. rewrite run_snoc. cbn [fst snd].
  pose proof (run_length SampleCell_Input (NewSampleCell (SampleCount n)) vs) as Hlen.
  rewrite emitted_last_snoc, <-H3. set (r := run _ _ vs) in *. clearbody r.
  unfold SampleCell_Input, SampleCore_Input. rewrite H1, H2, rsMax64_max, u64_small by zrange. cbn [fst snd sample_core sample_output mode counter].
  replace (Z.of_nat (length vs) + 1) with (Z.of_nat (length vs + 1)) by lia. split_and!; [done|done|by rewrite setOutput_value|].
  intros i u Hi. destruct (decide (i = length vs)) as [->|].
  - rewrite lookup_app_r, Nat.sub_diag in Hi by lia. injection Hi as <-. rewrite lookup_app_r, Hlen, Nat.sub_diag by lia. cbn [lookup list_lookup].
    replace (length vs + 1)%nat with (S (length vs)) by lia. f_equal.
    destruct (Z.eqb_spec (Z.of_nat (S (length vs)) mod Z.max n 1) 0); case_decide; done.
  - pose proof (lookup_lt_Some _ _ _ Hi) as Hlt. rewrite length_app in Hlt. simpl in Hlt.
    rewrite lookup_app_l in Hi by lia. rewrite lookup_app_l by lia. by apply H4.
Qed.

(** Time sampling: the period the clock is in, and the value held. *)
Definition sampling_step (p : Z) (s : Z * option T) (op : shape_op T) : (Z * option T) * option T :=
  match op with
  | SInput _ v => ((s.1, Some v), None)
  | STick now => if s.1 <? now / p then ((now / p, s.2), s.2) else (s, None)
  end.

Lemma sample_time_state p0 (l : list (shape_op T)) :
  let p := Z.max p0 1 in
  Forall (λ op, match op with STick now => 0 ≤ now ≤ max_u64 - p | SInput _ _ => True end) l →
  p ≤ max_u64 →
  let r := run sample_step (NewSampleCell (SampleTime p0)) l in
  let s := run (sampling_step p) (0, None) l in
  r.2 = s.2 ∧ cell_value (sample_output r.1) = emitted_last r.2 ∧
  sample_core r.1 = mkSample (SampleTime p0) 0 ((s.1.1 + 1) * p) s.1.2 ∧ 0 ≤ s.1.1 ∧ (s.1.1 + 1) * p ≤ max_u64.
Proof.
  intros p Hl Hp. induction l as [|op l IH] using rev_ind.
  - unfold NewSampleCell, NewSampleCore. cbn. rewrite rsMax64_max. split_and!; try done; fold p; [|lia]. by rewrite Z.mul_1_l.
  - apply Forall_app in Hl as [Hl Hop]. rewrite Forall_singleton in Hop. destruct (IH Hl) as (H1 & H2 & H3 & H4 & H5). cbv zeta.
    rewrite !run_snoc. cbn [fst snd]. rewrite emitted_last_snoc, <-H2, H1.
    set (r := run sample_step _ l) in *. set (s := run (sampling_step p) _ l) in *. clearbody r s.
    destruct op as [t v|now]; cbn [sample_step sampling_step].
    + unfold SampleCell_Input, SampleCore_Input. rewrite H3. by split_and!.
    + unfold SampleCell_Tick, SampleCore_Tick. rewrite H3. cbn [mode next counter held]. rewrite rsMax64_max. fold p.
      pose proof (Z.div_mod now p ltac:(lia)). pose proof (Z.mod_pos_bound now p ltac:(lia)).
      destruct (Z.ltb_spec now ((s.1.1 + 1) * p)).
      * assert (now / p < s.1.1 + 1) by (apply Z.div_lt_upper_bound; lia). destruct (Z.ltb_spec s.1.1 (now / p)); [lia|]. cbn. by split_and!.
      * assert (s.1.1 + 1 ≤ now / p) by (apply Z.div_le_lower_bound; lia). destruct (Z.ltb_spec s.1.1 (now / p)); [|lia].
        assert (Hge : 0 ≤ (s.1.1 + 1) * p) by (apply Z.mul_nonneg_nonneg; lia).
        rewrite (u64_small (now - _)) by zrange.
        assert (Hdiv : (now - (s.1.1 + 1) * p) / p = now / p - (s.1.1 + 1)) by (symmetry; apply (Z.div_unique _ _ _ (now mod p)); lia).
        rewrite Hdiv. replace (now / p - (s.1.1 + 1) + 1) with (now / p - s.1.1) by lia.
        assert (now / p ≤ now) by (apply Z.div_le_upper_bound; nia).
        rewrite (u64_small (now / p - s.1.1)) by zrange. rewrite (u64_small ((now / p - s.1.1) * p)) by (unfold is_u64, two64, max_u64 in *; nia).
        rewrite u64_small by (unfold is_u64, two64, max_u64 in *; nia).
        cbn [fst snd sample_output sample_core]. rewrite setOutput_value. split_and!; try done; [f_equal; lia|lia|nia].
Qed.
End sampling.

(** Sampling is exact.  By count, every [n]-th input and no other is emitted (zero
    counts as one, fewer inputs than the counter can count); by time, a tick emits the
    value held, which it keeps, exactly when it enters a later period, once however
    many periods it skips; and the output cell always holds the last value emitted. *)
Theorem Sampling_emits_exactly {T} `{EqDecision T} n p0 (vs : list T) (l : list (shape_op T)) (p := Z.max p0 1) :
  Z.of_nat (length vs) ≤ max_u64 → p ≤ max_u64 →
  Forall (λ op, match op with STick now => 0 ≤ now ≤ max_u64 - p | SInput _ _ => True end) l →
  let c := run SampleCell_Input (NewSampleCell (SampleCount n)) vs in
  let t := run sample_step (NewSampleCell (SampleTime p0)) l in
  (∀ i v, vs !! i = Some v → c.2 !! i = Some (if decide (Z.of_nat (S i) mod Z.max n 1 = 0) then Some v else None)) ∧
  t.2 = (run (sampling_step p) (0, None) l).2 ∧
  cell_value (sample_output c.1) = emitted_last c.2 ∧ cell_value (sample_output t.1) = emitted_last t.2.
Proof.
  intros Hv Hp Hl. destruct (sample_count_state n vs Hv) as (_ & _ & C1 & C2). destruct (sample_time_state p0 l Hl Hp) as (T1 & T2 & _).
  by split_and!.
Qed.

Lemma Sampling_emits_exactly_witness :
  (run SampleCell_Input (NewSampleCell (SampleCount 2)) [7; 8; 9]%Z).2 !! 1%nat = Some (Some 8) ∧
  (run sample_step (NewSampleCell (SampleTime 10)) [SInput 0 5; STick 9; STick 35; STick 36; STick 40]).2 = [None; None; Some 5; None; Some 5].
Proof.
  destruct (Sampling_emits_exactly 2 10 [7; 8; 9] [SInput 0 5; STick 9; STick 35; STick 36; STick 40]) as (Hc & Ht & _);
    [by vm_compute|by vm_compute|repeat constructor; by vm_compute|].
  split; [by apply (Hc 1%nat)|rewrite Ht; reflexivity].
Defined.
