(* ===== verification/Presence.v ===== *)
(** * Presence: the ephemeral plane (presence.go)

    Values that expire: a single one, and a map by peer with heartbeats, shown
    through a version cell that is bumped only when the live view changes.  The
    view is at any time exactly the peers whose last heartbeat is recent enough. *)

From S2P Require Import Prelude.
Local Open Scope Z_scope.

(** ** Collections behind a version cell

    A collection cannot live in a cell, so its readers subscribe to a counter that
    is bumped when the collection differs from the one shown before. *)
Section projected.
Context {A : Type} `{EqDecision A}.

Record Projected := mkProjected { version : Cell Z; shown : A }.
Definition NewProjected (a : A) : Projected := mkProjected (NewCell 0) a.
Definition project_to (r : Projected) (next : A) : Projected :=
  if decide (next = shown r) then r else mkProjected (Cell_Set (version r) (cell_value (version r) +ᵤ 1)) next.

Lemma project_shown r next : shown (project_to r next) = next.
Proof. unfold project_to. by case_decide. Qed.

Lemma u64_bump_ne z : 0 ≤ z < two64 → z +ᵤ 1 ≠ z.
Proof.
  intros Hz. unfold u64. destruct (decide (z + 1 = two64)) as [e|].
  - rewrite e, Z.mod_same by done. unfold two64 in *. lia.
  - rewrite Z.mod_small; lia.
Qed.

(** The counter counts the changes (modulo its width), each of which is one edge. *)
Definition projected_ok (r : Projected) (changes : nat) : Prop :=
  cell_edges (version r) = changes ∧ cell_value (version r) = u64 (Z.of_nat changes).
Lemma project_ok r next n : projected_ok r n → projected_ok (project_to r next) (if decide (next = shown r) then n else S n).
Proof.
  intros [H1 H2]. unfold project_to. case_decide; [done|]. unfold projected_ok. cbn [version].
  rewrite Cell_Set_edges, Cell_Set_value, H1, H2 by (rewrite H2; apply u64_bump_ne, u64_range). split; [done|].
  unfold u64. rewrite Zplus_mod_idemp_l. f_equal. lia.
Qed.
End projected.
Arguments Projected : clear implicits.

(** ** One ephemeral value *)

Section ephemeral.
Context {V : Type} `{EqDecision V}.

(** [presence.go] [type EphemeralCore] *)
Record EphemeralCore := mkEphemeral { value : option V; expiry : Z }.
(** [presence.go] [NewEphemeralCore] *)
Definition NewEphemeralCore : EphemeralCore := mkEphemeral None 0.
(** [presence.go] [EphemeralCore.Set] *)
Definition EphemeralCore_Set (c : EphemeralCore) (v : V) (now ttl : Z) : EphemeralCore := mkEphemeral (Some v) (now +ᵤ ttl).
(** [presence.go] [EphemeralCore.Tick] *)
Definition EphemeralCore_Tick (c : EphemeralCore) (now : Z) : EphemeralCore :=
  if bool_decide (is_Some (value c)) && (expiry c <=? now) then mkEphemeral None (expiry c) else c.
(** [presence.go] [type EphemeralCell] *)
Record EphemeralCell := mkEphemeralCell { ephemeral_core : EphemeralCore; ephemeral_value : Cell (option V) }.
(** [presence.go] [NewEphemeralCell] *)
Definition NewEphemeralCell : EphemeralCell := mkEphemeralCell NewEphemeralCore (NewCell None).
(** [presence.go] [EphemeralCell.refresh] *)
Definition EphemeralCell_refresh (c : EphemeralCell) (core : EphemeralCore) : EphemeralCell :=
  mkEphemeralCell core (Cell_Set (ephemeral_value c) (value core)).
(** [presence.go] [EphemeralCell.Set] *)
Definition EphemeralCell_Set (c : EphemeralCell) (v : V) (now ttl : Z) : EphemeralCell :=
  EphemeralCell_refresh c (EphemeralCore_Set (ephemeral_core c) v now ttl).
(** [presence.go] [EphemeralCell.Tick] *)
Definition EphemeralCell_Tick (c : EphemeralCell) (now : Z) : EphemeralCell :=
  EphemeralCell_refresh c (EphemeralCore_Tick (ephemeral_core c) now).
(** [presence.go] [EphemeralCell.Value] *)
Definition EphemeralCell_Value (c : EphemeralCell) : option V := cell_value (ephemeral_value c).
End ephemeral.

(** ** Ephemeral maps *)

Section maps.
Context {K V : Type} `{Countable K} `{EqDecision V}.
Implicit Types (key peer : K) (now ttl : Z).

(** [presence.go] [type ephemeralEntry] *)
Record ephemeralEntry := mkEntry { en_value : V; en_expiry : Z }.
(** [presence.go] [type EphemeralMapCore] *)
Record EphemeralMapCore := mkMapCore { entries : gmap K ephemeralEntry }.
(** [presence.go] [EphemeralMapCore.Set] *)
Definition EphemeralMapCore_Set (c : EphemeralMapCore) key (v : V) now ttl : EphemeralMapCore := mkMapCore (<[key := mkEntry v (now +ᵤ ttl)]> (entries c)).
(** [presence.go] [EphemeralMapCore.Evict] *)
Definition EphemeralMapCore_Evict (c : EphemeralMapCore) key : EphemeralMapCore := mkMapCore (delete key (entries c)).
(** [presence.go] [EphemeralMapCore.Tick] *)
Definition EphemeralMapCore_Tick (c : EphemeralMapCore) now : EphemeralMapCore := mkMapCore (filter (λ ke, now < en_expiry ke.2) (entries c)).
(** [presence.go] [EphemeralMapCore.Get] *)
Definition EphemeralMapCore_Get (c : EphemeralMapCore) key now : option V :=
  match entries c !! key with Some e => if en_expiry e <=? now then None else Some (en_value e) | None => None end.
(** [presence.go] [EphemeralMapCore.Present] *)
Definition EphemeralMapCore_Present (c : EphemeralMapCore) now : gmap K V :=
  omap (λ e, if now <? en_expiry e then Some (en_value e) else None) (entries c).

(** [presence.go] [type presentReader] *)
Definition presentReader := Projected (gmap K V).
(** Equality of the two maps is [comparableMapEqual].
    [presence.go] [presentReader.refresh] *)
Definition presentReader_refresh (r : presentReader) (core : EphemeralMapCore) now : presentReader :=
  project_to r (EphemeralMapCore_Present core now).

(** [presence.go] [type PresenceCell] *)
Record PresenceCell := mkPresence { presence_core : EphemeralMapCore; reader : presentReader; presence_ttl : Z }.
(** [presence.go] [NewPresenceCell] *)
Definition NewPresenceCell ttl : PresenceCell := mkPresence (mkMapCore ∅) (NewProjected ∅) ttl.
(** [presence.go] [PresenceCell.Heartbeat] *)
Definition Heartbeat (c : PresenceCell) peer (v : V) now : PresenceCell :=
  let core := EphemeralMapCore_Set (presence_core c) peer v now (presence_ttl c) in
  mkPresence core (presentReader_refresh (reader c) core now) (presence_ttl c).
(** [presence.go] [PresenceCell.Evict] *)
Definition Evict (c : PresenceCell) peer now : PresenceCell :=
  let core := EphemeralMapCore_Evict (presence_core c) peer in
  mkPresence core (presentReader_refresh (reader c) core now) (presence_ttl c).
(** [presence.go] [PresenceCell.Tick] *)
Definition Tick (c : PresenceCell) now : PresenceCell :=
  let core := EphemeralMapCore_Tick (presence_core c) now in
  mkPresence core (presentReader_refresh (reader c) core now) (presence_ttl c).
(** [presence.go] [PresenceCell.Present] *)
Definition Present (c : PresenceCell) : gmap K V := shown (reader c).

(** [presence.go] [type AwarenessCell] *)
Record AwarenessCell := mkAwareness { awareness_core : EphemeralMapCore; awareness_reader : presentReader; awareness_ttl : Z }.
(** [presence.go] [NewAwarenessCell] *)
Definition NewAwarenessCell ttl : AwarenessCell := mkAwareness (mkMapCore ∅) (NewProjected ∅) ttl.
(** [presence.go] [AwarenessCell.Set] *)
Definition AwarenessCell_Set (c : AwarenessCell) peer (v : V) now : AwarenessCell :=
  let core := EphemeralMapCore_Set (awareness_core c) peer v now (awareness_ttl c) in
  mkAwareness core (presentReader_refresh (awareness_reader c) core now) (awareness_ttl c).
(** [presence.go] [AwarenessCell.Tick] *)
Definition AwarenessCell_Tick (c : AwarenessCell) now : AwarenessCell :=
  let core := EphemeralMapCore_Tick (awareness_core c) now in
  mkAwareness core (presentReader_refresh (awareness_reader c) core now) (awareness_ttl c).
(** [presence.go] [AwarenessCell.Get] *)
Definition AwarenessCell_Get (c : AwarenessCell) peer now : option V := EphemeralMapCore_Get (awareness_core c) peer now.
(** [presence.go] [AwarenessCell.Present] *)
Definition AwarenessCell_Present (c : AwarenessCell) : gmap K V := shown (awareness_reader c).

(** ** The live view *)

Inductive presence_op := PHeartbeat (peer : K) (v : V) (now : Z) | PEvict (peer : K) (now : Z) | PTick (now : Z).
Definition presence_now (op : presence_op) : Z := match op with PHeartbeat _ _ now | PEvict _ now | PTick now => now end.
Definition presence_step (c : PresenceCell) (op : presence_op) : PresenceCell :=
  match op with PHeartbeat p v now => Heartbeat c p v now | PEvict p now => Evict c p now | PTick now => Tick c now end.

(** The last heartbeat of a peer that was not evicted since. *)
Definition heard_step (peer : K) (s : option (Z * V)) (op : presence_op) : option (Z * V) :=
  match op with
  | PHeartbeat p v now => if decide (p = peer) then Some (now, v) else s
  | PEvict p _ => if decide (p = peer) then None else s
  | PTick _ => s
  end.
Definition heard (peer : K) (l : list presence_op) : option (Z * V) := foldl (heard_step peer) None l.
(** It is alive while its time to live has not passed. *)
Definition alive_at (ttl now : Z) (s : option (Z * V)) : option V :=
  match s with Some (t, v) => if decide (now < t + ttl) then Some v else None | None => None end.

Fixpoint clock_ok (ttl clock : Z) (l : list presence_op) : Prop :=
  match l with [] => True | op :: l => clock ≤ presence_now op ∧ is_u64 (presence_now op + ttl) ∧ clock_ok ttl (presence_now op) l end.

(** Each peer's entry is its last heartbeat, unless that has expired. *)
Definition view_ok (ttl clock : Z) (core : EphemeralMapCore) (l : list presence_op) : Prop :=
  ∀ k, match heard k l with
       | Some (t, v) => entries core !! k = Some (mkEntry v (t + ttl)) ∨ (entries core !! k = None ∧ t + ttl ≤ clock)
       | None => entries core !! k = None
       end.

Lemma view_present ttl clock core l k : view_ok ttl clock core l →
  EphemeralMapCore_Present core clock !! k = alive_at ttl clock (heard k l) ∧
  EphemeralMapCore_Get core k clock = alive_at ttl clock (heard k l).
Proof.
  intros Hv. specialize (Hv k). unfold EphemeralMapCore_Present, EphemeralMapCore_Get, alive_at. rewrite lookup_omap.
  destruct (heard k l) as [[t v]|]; [|by rewrite Hv].
  destruct Hv as [->|[-> Hle]]; simpl; [|by rewrite decide_False by lia].
  destruct (Z.ltb_spec clock (t + ttl)), (Z.leb_spec (t + ttl) clock); case_decide; try lia; done.
Qed.

Lemma view_step ttl clock c l op : presence_ttl c = ttl → clock ≤ presence_now op → is_u64 (presence_now op + ttl) →
  view_ok ttl clock (presence_core c) l →
  presence_ttl (presence_step c op) = ttl ∧
  view_ok ttl (presence_now op) (presence_core (presence_step c op)) (l ++ [op]) ∧
  reader (presence_step c op) = presentReader_refresh (reader c) (presence_core (presence_step c op)) (presence_now op).
Proof.
  intros Ht Hc Hu Hv. split; [by destruct op|]. split; [|by destruct op]. intros k. specialize (Hv k). unfold heard. rewrite foldl_snoc. fold (heard k l).
  destruct op as [p v now|p now|now]; simpl in *.
  - unfold EphemeralMapCore_Set. cbn [entries]. rewrite Ht, u64_small by done. case_decide; subst; [by left; rewrite lookup_insert_eq|].
    rewrite lookup_insert_ne by done. destruct (heard k l) as [[t w]|]; [|done]. destruct Hv as [?|[? ?]]; [by left|right; split; [done|lia]].
  - unfold EphemeralMapCore_Evict. cbn [entries]. case_decide; subst; [by rewrite lookup_delete_eq|].
    rewrite lookup_delete_ne by done. destruct (heard k l) as [[t w]|]; [|done]. destruct Hv as [?|[? ?]]; [by left|right; split; [done|lia]].
  - unfold EphemeralMapCore_Tick. cbn [entries]. destruct (heard k l) as [[t w]|]; [|apply map_lookup_filter_None; by left].
    destruct Hv as [Hv|[Hv ?]]; [|right; split; [apply map_lookup_filter_None; by left|lia]].
    destruct (decide (now < t + ttl)); [left; by apply map_lookup_filter_Some|right; split; [|lia]].
    apply map_lookup_filter_None. right. rewrite Hv. intros ? [= <-]. done.
Qed.
End maps.
Arguments ephemeralEntry : clear implicits.
Arguments EphemeralMapCore K V {_ _}.
Arguments PresenceCell K V {_ _}.
Arguments AwarenessCell K V {_ _}.
Arguments presence_op : clear implicits.

Section theorems.
Context {K V : Type} `{Countable K} `{EqDecision V}.
Implicit Types (l : list (presence_op K V)) (c : PresenceCell K V).

Definition presence_run c l : PresenceCell K V := foldl presence_step c l.
Definition last_now (clock : Z) l : Z := foldl (λ _ op, presence_now op) clock l.

(** How many operations of a run change what is shown. *)
Fixpoint view_changes c l : nat :=
  match l with [] => 0 | op :: l => (if decide (Present (presence_step c op) = Present c) then 0%nat else 1%nat) + view_changes (presence_step c op) l end.

Lemma presence_run_ok ttl clock c l0 l n :
  presence_ttl c = ttl → view_ok ttl clock (presence_core c) l0 → projected_ok (reader c) n → clock_ok ttl clock l →
  shown (reader c) = EphemeralMapCore_Present (presence_core c) clock →
  let c' := presence_run c l in
  view_ok ttl (last_now clock l) (presence_core c') (l0 ++ l) ∧ projected_ok (reader c') (n + view_changes c l)%nat ∧
  shown (reader c') = EphemeralMapCore_Present (presence_core c') (last_now clock l).
Proof.
  revert clock c l0 n. induction l as [|op l IH]; intros clock c l0 n Ht Hv Hp Hc Hs; cbv zeta.
  - simpl. rewrite app_nil_r, Nat.add_0_r. by split_and!.
  - destruct Hc as (Hle & Hu & Hc). destruct (view_step ttl clock c l0 op Ht Hle Hu Hv) as (Ht' & Hv' & Hr').
    cbn [presence_run last_now foldl view_changes]. rewrite (cons_middle op l0 l), app_assoc.
    destruct (IH (presence_now op) (presence_step c op) (l0 ++ [op])
      (n + if decide (Present (presence_step c op) = Present c) then 0 else 1)%nat Ht' Hv') as (H1 & H2 & H3); [|done| |].
    + rewrite Hr'. unfold presentReader_refresh. pose proof (project_ok (reader c) (EphemeralMapCore_Present (presence_core (presence_step c op)) (presence_now op)) n Hp) as Hok.
      unfold Present. rewrite Hr'. unfold presentReader_refresh. rewrite project_shown. case_decide; [by rewrite Nat.add_0_r|by rewrite Nat.add_1_r].
    + rewrite Hr'. apply project_shown.
    + split_and!; [done| |done]. by rewrite Nat.add_assoc.
Qed.

(** The presence view is exactly who was heard from recently.  After any
    heartbeats, evictions and ticks on a clock that does not go back, the view maps
    a peer to the value of its last heartbeat precisely when it has not been evicted
    since and its time to live has not passed, whether or not a tick has dropped the
    entry; and the version cell is bumped once for each operation that changes that
    view and for no other. *)
Theorem Presence_live_view ttl l (c := presence_run (NewPresenceCell ttl) l) :
  clock_ok ttl 0 l →
  (∀ k, Present c !! k = alive_at ttl (last_now 0 l) (heard k l)) ∧
  (∀ k, EphemeralMapCore_Get (presence_core c) k (last_now 0 l) = Present c !! k) ∧
  cell_edges (version (reader c)) = view_changes (NewPresenceCell ttl) l ∧
  cell_value (version (reader c)) = u64 (Z.of_nat (view_changes (NewPresenceCell ttl) l)).
Proof.
  intros Hc. destruct (presence_run_ok ttl 0 (NewPresenceCell ttl) [] l 0) as (Hv & [He Hn] & Hs); try done.
  fold c in Hv, He, Hn, Hs. rewrite app_nil_l in Hv. unfold Present. rewrite Hs.
  split_and!; [intros k; by apply (view_present ttl _ _ l k)|intros k|done|done].
  destruct (view_present ttl _ _ l k Hv) as [-> ->]. done.
Qed.

(** Awareness is presence without evictions. *)
Lemma awareness_is_presence (a : AwarenessCell K V) c p v now :
  awareness_core a = presence_core c → awareness_reader a = reader c → awareness_ttl a = presence_ttl c →
  (awareness_core (AwarenessCell_Set a p v now) = presence_core (Heartbeat c p v now) ∧
   awareness_reader (AwarenessCell_Set a p v now) = reader (Heartbeat c p v now)) ∧
  awareness_core (AwarenessCell_Tick a now) = presence_core (Tick c now) ∧
  awareness_reader (AwarenessCell_Tick a now) = reader (Tick c now).
Proof. intros Hc Hr Ht. unfold AwarenessCell_Set, AwarenessCell_Tick, Heartbeat, Tick. simpl. by rewrite Hc, Hr, Ht. Qed.
End theorems.

Lemma Presence_live_view_witness :
  let l := [PHeartbeat 1%positive 7%Z 0; PHeartbeat 2%positive 8%Z 3; PHeartbeat 1%positive 7%Z 4; PTick 12; PEvict 2%positive 12] in
  let c := presence_run (NewPresenceCell 10) l in
  Present c !! 1%positive = Some 7 ∧ Present c !! 2%positive = None ∧ cell_edges (version (reader c)) = 3%nat.
Proof.
  intros l c. destruct (Presence_live_view 10 l) as (H1 & _ & H2 & _); [repeat split; by vm_compute|].
  fold c in H1, H2. rewrite !H1, H2. split_and!; vm_compute; reflexivity.
Defined.

(** A single ephemeral value is the last one set until its time has passed. *)
Lemma Ephemeral_value_expires {V} `{EqDecision V} (c : EphemeralCell) (v : V) now ttl now' :
  is_u64 (now + ttl) →
  EphemeralCell_Value (EphemeralCell_Set c v now ttl) = Some v ∧
  EphemeralCell_Value (EphemeralCell_Tick (EphemeralCell_Set c v now ttl) now') = if decide (now' < now + ttl) then Some v else None.
Proof.
  intros Hu. unfold EphemeralCell_Tick, EphemeralCell_Set, EphemeralCell_refresh, EphemeralCore_Tick, EphemeralCore_Set, EphemeralCell_Value.
  cbn [ephemeral_core ephemeral_value]. rewrite !Cell_Set_value. cbn [value expiry]. rewrite u64_small by done. split; [done|].
  simpl. case_decide; destruct (Z.leb_spec (now + ttl) now'); try lia; done.
Qed.
