(* ===== verification/Membership.v ===== *)
(** * Membership: failure detection and the SWIM state machine (membership.go)

    The detector's bookkeeping and the state machine of a peer.  The suspicion level
    is floating-point ([math.Exp], [math.Log10]) and enters as a parameter: whether
    it is above the threshold, as a function of the interval samples and the time
    since the last heartbeat.  The events of a run are a faithful diff of the
    states, whatever the detector says. *)

From S2P Require Import Prelude Presence.
Local Open Scope Z_scope.

(** [membership.go] [type PeerState] *)
Inductive PeerState := Alive | Suspect | Dead | Left.
#[export] Instance PeerState_eq_dec : EqDecision PeerState.
Proof. solve_decision. Defined.
(** [membership.go] [PeerState.String] *)
Definition PeerState_String (s : PeerState) : string :=
  match s with Alive => "Alive" | Suspect => "Suspect" | Dead => "Dead" | Left => "Left" end.

(** [membership.go] [saturatingSubU64] *)
Definition saturatingSubU64 (a b : Z) : Z := if a <? b then 0 else a -ᵤ b.

(** ** Detector *)

(** Samples are kept as the integers that [float64] rounds.
    [membership.go] [type PhiAccrual] *)
Record PhiAccrual := mkPhi { window : list Z; maxSamples : Z; lastHeartbeat : option Z }.
(** [membership.go] [NewPhiAccrual] *)
Definition NewPhiAccrual (maxSamples : Z) : PhiAccrual := mkPhi [] (if maxSamples <? 1 then 1 else maxSamples) None.
(** The loop that keeps the last samples.
    [membership.go] [lines 129-131 PhiAccrual.Heartbeat] *)
Fixpoint trim_samples (n : Z) (l : list Z) : list Z :=
  match l with [] => [] | _ :: l' => if n <? Z.of_nat (length l) then trim_samples n l' else l end.
(** [membership.go] [PhiAccrual.Heartbeat] *)
Definition PhiAccrual_Heartbeat (d : PhiAccrual) (now : Z) : PhiAccrual :=
  let w := match lastHeartbeat d with
           | Some last => trim_samples (maxSamples d) (window d ++ [saturatingSubU64 now last])
           | None => window d
           end in
  mkPhi w (maxSamples d) (Some now).

Section membership.
Context {P : Type} `{Countable P} (le : relation P) `{!RelDecision le}.
(** The suspicion level of a window with samples, and of a detector without an
    estimate, is above the threshold. *)
Variable phi_above : list Z → Z → bool.
Variable zero_above : bool.
Implicit Types (peer : P) (now : Z).

(** [membership.go] [PhiAccrual.Phi] *)
Definition Phi_above (d : PhiAccrual) now : bool :=
  match lastHeartbeat d with
  | None => zero_above
  | Some last => match window d with [] => zero_above | w => phi_above w (saturatingSubU64 now last) end
  end.

(** ** Events and states *)

(** One constructor per kind, with the fields that are meaningful for it.
    [membership.go] [type PeerChangeEvent] *)
Inductive PeerChangeEvent := PeerJoined (peer : P) | PeerDeparted (peer : P) | PeerStateChanged (peer : P) (from to : PeerState).

(** [membership.go] [type peerRecord] *)
Record peerRecord := mkPeer { state : PeerState; detector : PhiAccrual; suspectSince : option Z }.
(** The two tunables that are not the threshold.
    [membership.go] [type MembershipCore] *)
Record MembershipCore := mkMembership { cfg_SuspectTimeout : Z; cfg_MaxSamples : Z; peers : gmap P peerRecord }.
(** [membership.go] [NewMembershipCore] *)
Definition NewMembershipCore (suspectTimeout maxSamples : Z) : MembershipCore := mkMembership suspectTimeout maxSamples ∅.
Definition with_peers (m : MembershipCore) (ps : gmap P peerRecord) : MembershipCore := mkMembership (cfg_SuspectTimeout m) (cfg_MaxSamples m) ps.

(** [membership.go] [MembershipCore.sortedPeers] *)
Definition sortedPeers (m : MembershipCore) : list P := merge_sort le (map_to_list (peers m)).*1.
(** [membership.go] [MembershipCore.AliveSet] *)
Definition AliveSet (m : MembershipCore) : list P := filter (λ p, state <$> peers m !! p = Some Alive) (sortedPeers m).
(** [membership.go] [MembershipCore.State] *)
Definition State (m : MembershipCore) peer : option PeerState := state <$> peers m !! peer.

(** [membership.go] [MembershipCore.Join] *)
Definition Join (m : MembershipCore) peer now : MembershipCore * list PeerChangeEvent :=
  let det := PhiAccrual_Heartbeat (NewPhiAccrual (cfg_MaxSamples m)) now in
  let prev := peers m !! peer in
  (with_peers m (<[peer := mkPeer Alive det None]> (peers m)),
   match prev with
   | None => [PeerJoined peer]
   | Some r => match state r with Alive => [] | from => [PeerStateChanged peer from Alive] end
   end).
(** [membership.go] [MembershipCore.Heartbeat] *)
Definition Heartbeat (m : MembershipCore) peer now : MembershipCore * list PeerChangeEvent :=
  match peers m !! peer with
  | None => Join m peer now
  | Some r =>
      let det := PhiAccrual_Heartbeat (detector r) now in
      match state r with
      | Alive | Left => (with_peers m (<[peer := mkPeer (state r) det (suspectSince r)]> (peers m)), [])
      | from => (with_peers m (<[peer := mkPeer Alive det None]> (peers m)), [PeerStateChanged peer from Alive])
      end
  end.
(** [membership.go] [MembershipCore.Leave] *)
Definition Leave (m : MembershipCore) peer (_ : Z) : MembershipCore * list PeerChangeEvent :=
  match peers m !! peer with
  | None => (m, [])
  | Some r => if decide (state r = Left) then (m, []) else (with_peers m (<[peer := mkPeer Left (detector r) None]> (peers m)), [PeerDeparted peer])
  end.
(** One peer's turn in the clock loop.
    [membership.go] [lines 295-312 MembershipCore.Tick] *)
Definition tick_peer (timeout now : Z) (peer : P) (r : peerRecord) : peerRecord * list PeerChangeEvent :=
  match state r with
  | Alive => if Phi_above (detector r) now then (mkPeer Suspect (detector r) (Some now), [PeerStateChanged peer Alive Suspect]) else (r, [])
  | Suspect =>
      match suspectSince r with
      | Some since => if timeout <=? saturatingSubU64 now since then (mkPeer Dead (detector r) (Some since), [PeerStateChanged peer Suspect Dead]) else (r, [])
      | None => (r, [])
      end
  | _ => (r, [])
  end.
(** [membership.go] [MembershipCore.Tick] *)
Definition Tick (m : MembershipCore) now : MembershipCore * list PeerChangeEvent :=
  foldl (λ '(m, events) peer,
    match peers m !! peer with
    | Some r => let '(r, es) := tick_peer (cfg_SuspectTimeout m) now peer r in (with_peers m (<[peer := r]> (peers m)), events ++ es)
    | None => (m, events)
    end) (m, []) (sortedPeers m).

(** ** The reactive view *)

(** [membership.go] [type MembershipCell] *)
Record MembershipCell := mkMembershipCell { core : MembershipCore; alive : Projected (list P) }.
(** [membership.go] [NewMembershipCell] *)
Definition NewMembershipCell (suspectTimeout maxSamples : Z) : MembershipCell :=
  mkMembershipCell (NewMembershipCore suspectTimeout maxSamples) (NewProjected []).
(** [membership.go] [MembershipCell.refresh] *)
Definition refresh (c : MembershipCell) (m : MembershipCore) : MembershipCell := mkMembershipCell m (project_to (alive c) (AliveSet m)).
(** [membership.go] [MembershipCell.Join] *)
Definition MembershipCell_Join (c : MembershipCell) peer now : MembershipCell * list PeerChangeEvent :=
  let '(m, es) := Join (core c) peer now in (refresh c m, es).
(** [membership.go] [MembershipCell.Heartbeat] *)
Definition MembershipCell_Heartbeat (c : MembershipCell) peer now : MembershipCell * list PeerChangeEvent :=
  let '(m, es) := Heartbeat (core c) peer now in (refresh c m, es).
(** [membership.go] [MembershipCell.Leave] *)
Definition MembershipCell_Leave (c : MembershipCell) peer now : MembershipCell * list PeerChangeEvent :=
  let '(m, es) := Leave (core c) peer now in (refresh c m, es).
(** [membership.go] [MembershipCell.Tick] *)
Definition MembershipCell_Tick (c : MembershipCell) now : MembershipCell * list PeerChangeEvent :=
  let '(m, es) := Tick (core c) now in (refresh c m, es).
(** [membership.go] [MembershipCell.PeerSet] *)
Definition PeerSet (c : MembershipCell) : list P := shown (alive c).

(** ** Runs *)

Inductive member_op := MJoin (peer : P) (now : Z) | MHeartbeat (peer : P) (now : Z) | MLeave (peer : P) (now : Z) | MTick (now : Z).
Definition member_step (c : MembershipCell) (op : member_op) : MembershipCell * list PeerChangeEvent :=
  match op with
  | MJoin p now => MembershipCell_Join c p now | MHeartbeat p now => MembershipCell_Heartbeat c p now
  | MLeave p now => MembershipCell_Leave c p now | MTick now => MembershipCell_Tick c now
  end.

(** What a subscriber knows from the events alone; an event that does not fit what
    it knows is refused. *)
Definition apply_event (view : option (gmap P PeerState)) (e : PeerChangeEvent) : option (gmap P PeerState) :=
  v ← view;
  match e with
  | PeerJoined p => if decide (v !! p = None) then Some (<[p := Alive]> v) else None
  | PeerDeparted p => if decide (v !! p = None ∨ v !! p = Some Left) then None else Some (<[p := Left]> v)
  | PeerStateChanged p from to => if decide (v !! p = Some from ∧ from ≠ to) then Some (<[p := to]> v) else None
  end.

Definition states (m : MembershipCore) : gmap P PeerState := state <$> peers m.

(** A suspect always knows since when. *)
Definition suspects_ok (m : MembershipCore) : Prop := ∀ p r, peers m !! p = Some r → state r = Suspect → is_Some (suspectSince r).
End membership.
Arguments PeerChangeEvent : clear implicits.
Arguments MembershipCore P {_ _}.
Arguments MembershipCell P {_ _}.
Arguments member_op : clear implicits.

Section theorems.
Context {P : Type} `{Countable P} (le : relation P) `{!RelDecision le, !Total le, !Transitive le, !AntiSymm eq le}.
Variable phi_above : list Z → Z → bool.
Variable zero_above : bool.
Implicit Types (peer p : P) (now : Z) (m : MembershipCore P) (c : MembershipCell P) (op : member_op P).
Abbreviation Tick := (Tick le phi_above zero_above).
Abbreviation tick_peer := (tick_peer phi_above zero_above).
Abbreviation step := (member_step le phi_above zero_above).

Lemma sortedPeers_spec m : NoDup (sortedPeers le m) ∧ Sorted le (sortedPeers le m) ∧ ∀ p, p ∈ sortedPeers le m ↔ is_Some (peers m !! p).
Proof.
  pose proof (merge_sort_Permutation le (map_to_list (peers m)).*1) as Hp. unfold sortedPeers. split_and!.
  - rewrite Hp. apply NoDup_fst_map_to_list.
  - by apply Sorted_merge_sort.
  - intros p. rewrite Hp, list_elem_of_fmap. split.
    + intros ([k r] & -> & Hk%elem_of_map_to_list). by exists r.
    + intros [r Hr]. exists (p, r). by rewrite elem_of_map_to_list.
Qed.

Definition apply_all (v : option (gmap P PeerState)) (es : list (PeerChangeEvent P)) := foldl apply_event v es.

Lemma states_insert m p r : states (with_peers m (<[p := r]> (peers m))) = <[p := state r]> (states m).
Proof. unfold states. cbn [peers with_peers]. by rewrite fmap_insert. Qed.
Lemma states_lookup m p : states m !! p = State m p.
Proof. unfold states, State. apply lookup_fmap. Qed.
Lemma states_same m p r r' : peers m !! p = Some r → state r' = state r → <[p := state r']> (states m) = states m.
Proof. intros Hr ->. apply insert_id. rewrite states_lookup. unfold State. by rewrite Hr. Qed.

Lemma tick_peer_events timeout now m p r :
  peers m !! p = Some r →
  apply_all (Some (states m)) (tick_peer timeout now p r).2 = Some (<[p := state (tick_peer timeout now p r).1]> (states m)).
Proof.
  intros Hr. assert (Hl : states m !! p = Some (state r)) by (rewrite states_lookup; unfold State; by rewrite Hr).
  unfold tick_peer. destruct (state r) eqn:Es; [destruct (Phi_above _ _ _ _)|destruct (suspectSince r); [destruct (_ <=? _)|]|..];
    simpl; try (rewrite Es, insert_id; done); by rewrite decide_True.
Qed.

(** The clock loop over the peers [ks]: each is looked at once. *)
Definition tick_loop now (m : MembershipCore P) (es : list (PeerChangeEvent P)) (ks : list P) : MembershipCore P * list (PeerChangeEvent P) :=
  foldl (λ '(m, events) peer,
    match peers m !! peer with
    | Some r => let '(r, es) := tick_peer (cfg_SuspectTimeout m) now peer r in (with_peers m (<[peer := r]> (peers m)), events ++ es)
    | None => (m, events)
    end) (m, es) ks.

Lemma tick_loop_cons now m es k ks :
  tick_loop now m es (k :: ks) =
    match peers m !! k with
    | Some r => let '(r, es') := tick_peer (cfg_SuspectTimeout m) now k r in tick_loop now (with_peers m (<[k := r]> (peers m))) (es ++ es') ks
    | None => tick_loop now m es ks
    end.
Proof. unfold tick_loop. simpl. destruct (peers m !! k) as [r|]; [|done]. by destruct (tick_peer _ _ _ r). Qed.

Lemma tick_loop_ok now m es ks v0 :
  apply_all v0 es = Some (states m) →
  apply_all v0 (tick_loop now m es ks).2 = Some (states (tick_loop now m es ks).1) ∧
  cfg_SuspectTimeout (tick_loop now m es ks).1 = cfg_SuspectTimeout m ∧ cfg_MaxSamples (tick_loop now m es ks).1 = cfg_MaxSamples m.
Proof.
  revert m es. induction ks as [|k ks IH]; intros m es He; [done|]. rewrite tick_loop_cons.
  destruct (peers m !! k) as [r|] eqn:Er; [|by apply IH].
  pose proof (tick_peer_events (cfg_SuspectTimeout m) now m k r Er) as Hev.
  destruct (tick_peer (cfg_SuspectTimeout m) now k r) as [r' es']. cbn [fst snd] in Hev.
  destruct (IH (with_peers m (<[k := r']> (peers m))) (es ++ es')) as (H1 & H2 & H3); [|by split_and!].
  unfold apply_all. rewrite foldl_app. fold (apply_all v0 es). rewrite He, states_insert. done.
Qed.

Lemma tick_loop_lookup now m es ks p : NoDup ks →
  peers (tick_loop now m es ks).1 !! p =
    if decide (p ∈ ks) then (λ r, (tick_peer (cfg_SuspectTimeout m) now p r).1) <$> peers m !! p else peers m !! p.
Proof.
  revert m es. induction ks as [|k ks IH]; intros m es Hnd; [by rewrite decide_False by set_solver|].
  apply NoDup_cons in Hnd as [Hk Hnd]. rewrite tick_loop_cons.
  destruct (peers m !! k) as [r|] eqn:Er.
  - destruct (tick_peer (cfg_SuspectTimeout m) now k r) as [r' es'] eqn:Et.
    rewrite (IH (with_peers m (<[k := r']> (peers m))) (es ++ es') Hnd). cbn [peers with_peers cfg_SuspectTimeout].
    destruct (decide (p = k)) as [->|Hne].
    + rewrite decide_False, decide_True by (done || by left). rewrite lookup_insert_eq, Er. simpl. by rewrite Et.
    + rewrite lookup_insert_ne by done. repeat case_decide; set_solver.
  - rewrite (IH m es Hnd). destruct (decide (p = k)) as [->|Hne].
    + rewrite decide_False, decide_True by (done || by left). by rewrite Er.
    + repeat case_decide; set_solver.
Qed.

Lemma Tick_lookup now m p : peers (Tick m now).1 !! p = (λ r, (tick_peer (cfg_SuspectTimeout m) now p r).1) <$> peers m !! p.
Proof.
  destruct (sortedPeers_spec m) as (Hnd & _ & Hin). change (Tick m now) with (tick_loop now m [] (sortedPeers le m)).
  rewrite tick_loop_lookup by done. case_decide as Hp; [done|]. rewrite Hin in Hp. destruct (peers m !! p); [|done]. destruct Hp. by eexists.
Qed.

Lemma step_events c op :
  apply_all (Some (states (core c))) (step c op).2 = Some (states (core (step c op).1)).
Proof.
  assert (Hjoin : ∀ m p now, apply_all (Some (states m)) (Join m p now).2 = Some (states (Join m p now).1)).
  { intros m p now. unfold Join. cbn [fst snd]. rewrite states_insert. cbn [state]. destruct (peers m !! p) as [r|] eqn:Er.
    - assert (Hl : states m !! p = Some (state r)) by (rewrite states_lookup; unfold State; by rewrite Er).
      destruct (state r); simpl; [by rewrite insert_id|by rewrite decide_True..].
    - assert (Hl : states m !! p = None) by (rewrite states_lookup; unfold State; by rewrite Er). simpl. by rewrite decide_True. }
  destruct op as [p now|p now|p now|now]; cbn [member_step].
  - unfold MembershipCell_Join. specialize (Hjoin (core c) p now). by destruct (Join (core c) p now).
  - unfold MembershipCell_Heartbeat, Heartbeat. destruct (peers (core c) !! p) as [r|] eqn:Er.
    + assert (Hl : states (core c) !! p = Some (state r)) by (rewrite states_lookup; unfold State; by rewrite Er).
      destruct (state r) eqn:Es; cbn [fst snd refresh core]; rewrite states_insert; simpl; rewrite ?Es; try (by rewrite insert_id); by rewrite decide_True.
    + specialize (Hjoin (core c) p now). by destruct (Join (core c) p now).
  - unfold MembershipCell_Leave, Leave. destruct (peers (core c) !! p) as [r|] eqn:Er; [|done].
    assert (Hl : states (core c) !! p = Some (state r)) by (rewrite states_lookup; unfold State; by rewrite Er).
    case_decide; [done|]. cbn [fst snd refresh core]. rewrite states_insert. simpl. rewrite decide_False; [done|]. rewrite Hl. naive_solver.
  - unfold MembershipCell_Tick. pose proof (tick_loop_ok now (core c) [] (sortedPeers le (core c)) (Some (states (core c))) eq_refl) as [Ht _].
    change (tick_loop now (core c) [] (sortedPeers le (core c))) with (Tick (core c) now) in Ht. by destruct (Tick (core c) now).
Qed.

(** Where an operation takes a peer, from its record. *)
Definition next_state (timeout : Z) op p (r : option peerRecord) : option PeerState :=
  match op with
  | MJoin q _ => if decide (q = p) then Some Alive else state <$> r
  | MHeartbeat q _ => if decide (q = p) then (match state <$> r with Some Left => Some Left | _ => Some Alive end) else state <$> r
  | MLeave q _ => if decide (q = p) then (_ ← r; Some Left) else state <$> r
  | MTick now =>
      r ← r;
      match state r with
      | Alive => if Phi_above phi_above zero_above (detector r) now then Some Suspect else Some Alive
      | Suspect => match suspectSince r with Some t => if decide (timeout ≤ saturatingSubU64 now t) then Some Dead else Some Suspect | None => Some Suspect end
      | s => Some s
      end
  end.

Lemma step_core c op : core (step c op).1 =
  match op with
  | MJoin p now => (Join (core c) p now).1 | MHeartbeat p now => (Membership.Heartbeat (core c) p now).1
  | MLeave p now => (Leave (core c) p now).1 | MTick now => (Tick (core c) now).1
  end ∧ alive (step c op).1 = project_to (alive c) (AliveSet le (core (step c op).1)).
Proof.
  destruct op as [p now|p now|p now|now]; cbn [member_step];
    [unfold MembershipCell_Join; destruct (Join _ _ _)|unfold MembershipCell_Heartbeat; destruct (Membership.Heartbeat _ _ _)|
     unfold MembershipCell_Leave; destruct (Leave _ _ _)|unfold MembershipCell_Tick; destruct (Tick _ _)]; done.
Qed.

Lemma step_state c op p : State (core (step c op).1) p = next_state (cfg_SuspectTimeout (core c)) op p (peers (core c) !! p).
Proof.
  unfold State. rewrite (proj1 (step_core c op)). destruct op as [q now|q now|q now|now]; cbn [next_state].
  - unfold Join. cbn [fst peers with_peers]. case_decide; subst; [by rewrite lookup_insert_eq|by rewrite lookup_insert_ne].
  - unfold Membership.Heartbeat. destruct (peers (core c) !! q) as [r|] eqn:Er.
    + destruct (state r) eqn:Es; cbn [fst peers with_peers]; (case_decide; subst; [rewrite lookup_insert_eq, ?Er; simpl; by rewrite Es|by rewrite lookup_insert_ne]).
    + unfold Join. cbn [fst peers with_peers]. case_decide; subst; [by rewrite lookup_insert_eq, Er|by rewrite lookup_insert_ne].
  - unfold Leave. destruct (peers (core c) !! q) as [r|] eqn:Er.
    + case_decide as Hl; cbn [fst peers with_peers]; case_decide; subst; rewrite ?Er, ?lookup_insert_eq, ?lookup_insert_ne by done; simpl; by rewrite ?Hl.
    + cbn [fst]. case_decide; subst; by rewrite ?Er.
  - rewrite Tick_lookup. destruct (peers (core c) !! p) as [r|]; [|done]. simpl. unfold Membership.tick_peer.
    destruct (state r) eqn:Es; [destruct (Phi_above _ _ _ _)|destruct (suspectSince r) as [t|]; [|simpl; by rewrite ?Es]|..]; simpl; rewrite ?Es; try done.
    destruct (Z.leb_spec (cfg_SuspectTimeout (core c)) (saturatingSubU64 now t)); case_decide; try lia; simpl; by rewrite ?Es.
Qed.

Lemma step_config c op : cfg_SuspectTimeout (core (step c op).1) = cfg_SuspectTimeout (core c).
Proof.
  rewrite (proj1 (step_core c op)). destruct op as [p now|p now|p now|now].
  - done.
  - unfold Membership.Heartbeat. destruct (peers (core c) !! p) as [r|]; [by destruct (state r)|done].
  - unfold Leave. destruct (peers (core c) !! p) as [r|]; [|done]. by case_decide.
  - apply (tick_loop_ok now (core c) [] (sortedPeers le (core c)) (Some (states (core c))) eq_refl).
Qed.

Lemma StronglySorted_filter (Q : P → Prop) `{!∀ x, Decision (Q x)} (l : list P) : StronglySorted le l → StronglySorted le (filter Q l).
Proof.
  induction 1 as [|x l _ IH Hx]; [constructor|]. rewrite filter_cons. case_decide; [|done]. constructor; [done|].
  rewrite Forall_forall in *. intros y [_ Hy]%list_elem_of_filter. auto.
Qed.

Lemma AliveSet_spec m : StronglySorted le (AliveSet le m) ∧ NoDup (AliveSet le m) ∧ ∀ p, p ∈ AliveSet le m ↔ State m p = Some Alive.
Proof.
  destruct (sortedPeers_spec m) as (Hnd & Hs & Hin). unfold AliveSet. split_and!.
  - apply StronglySorted_filter. by apply Sorted_StronglySorted.
  - by apply NoDup_filter.
  - intros p. rewrite list_elem_of_filter, Hin. unfold State. destruct (peers m !! p) as [r|]; simpl; [|naive_solver]. split; [tauto|]. intros ->. by eauto.
Qed.

Lemma member_run timeout samples ops (r := run step (NewMembershipCell timeout samples) ops) :
  apply_all (Some ∅) (concat r.2) = Some (states (core r.1)) ∧ cfg_SuspectTimeout (core r.1) = timeout ∧
  PeerSet r.1 = AliveSet le (core r.1) ∧ suspects_ok (core r.1) ∧ ∃ n, projected_ok (alive r.1) n.
Proof.
  unfold r. apply (run_invariant step (λ _ os c, apply_all (Some ∅) (concat os) = Some (states (core c)) ∧ cfg_SuspectTimeout (core c) = timeout ∧
    PeerSet c = AliveSet le (core c) ∧ suspects_ok (core c) ∧ ∃ n, projected_ok (alive c) n)).
  - split_and!; try done; by exists 0%nat.
  - intros l os c op (H1 & H2 & H3 & H4 & n & H5). split_and!; [..|rewrite (proj2 (step_core c op)); eexists; by apply project_ok].
    + rewrite concat_app. simpl. rewrite app_nil_r. unfold apply_all. rewrite foldl_app. fold (apply_all (Some ∅) (concat os)). rewrite H1. apply step_events.
    + by rewrite step_config.
    + unfold PeerSet. rewrite (proj2 (step_core c op)). apply project_shown.
    + intros p r' Hp Hr'. rewrite (proj1 (step_core c op)) in Hp. destruct op as [q now|q now|q now|now].
      * unfold Join in Hp. cbn [fst peers with_peers] in Hp. apply lookup_insert_Some in Hp as [[_ <-]|[_ Hp]]; [done|by eapply H4].
      * unfold Membership.Heartbeat in Hp. destruct (peers (core c) !! q) as [r0|] eqn:Er.
        -- destruct (state r0) eqn:Es; cbn [fst peers with_peers] in Hp; (apply lookup_insert_Some in Hp as [[_ <-]|[_ Hp]]; [by simpl in Hr'|by eapply H4]).
        -- unfold Join in Hp. cbn [fst peers with_peers] in Hp. apply lookup_insert_Some in Hp as [[_ <-]|[_ Hp]]; [done|by eapply H4].
      * unfold Leave in Hp. destruct (peers (core c) !! q) as [r0|] eqn:Er; [|by eapply H4]. case_decide; [by eapply H4|].
        cbn [fst peers with_peers] in Hp. apply lookup_insert_Some in Hp as [[_ <-]|[_ Hp]]; [done|by eapply H4].
      * rewrite Tick_lookup in Hp. destruct (peers (core c) !! p) as [r0|] eqn:Er; [|done]. injection Hp as <-. unfold Membership.tick_peer in *.
        destruct (state r0) eqn:Es; [destruct (Phi_above _ _ _ _)|destruct (suspectSince r0) as [t|] eqn:Et; [destruct (_ <=? _)|]|..]; simpl in *; try done; try congruence;
          try by eexists. destruct (H4 p r0 Er Es). congruence.
Qed.
End theorems.

(** The membership events are a faithful diff.  Whatever the detector says and
    whatever the order of joins, heartbeats, departures and ticks, a subscriber that
    replays the events of a run over an empty view never meets one that does not fit
    what it knows, and ends with the state of every peer; the peer set shown is the
    sorted duplicate-free list of the peers that are alive; and an operation bumps
    the version exactly when that list changes. *)
Theorem Membership_events_faithful {P} `{Countable P} (le : relation P) `{!RelDecision le, !Total le, !Transitive le, !AntiSymm eq le}
    phi_above zero_above timeout samples (ops : list (member_op P)) (op : member_op P)
    (step := member_step le phi_above zero_above) (r := run step (NewMembershipCell timeout samples) ops) (c' := (step r.1 op).1) :
  (∃ view, foldl apply_event (Some ∅) (concat r.2) = Some view ∧ ∀ p, view !! p = State (core r.1) p) ∧
  (∀ p, p ∈ PeerSet r.1 ↔ State (core r.1) p = Some Alive) ∧ NoDup (PeerSet r.1) ∧ StronglySorted le (PeerSet r.1) ∧
  cell_edges (version (alive c')) = ((if decide (PeerSet c' = PeerSet r.1) then 0 else 1) + cell_edges (version (alive r.1)))%nat.
Proof.
  destruct (member_run le phi_above zero_above timeout samples ops) as (H1 & _ & H3 & _ & n & Hn). fold step r in H1, H3, Hn.
  destruct (AliveSet_spec le (core r.1)) as (Hs & Hnd & Hin). rewrite H3. split_and!; try done.
  - exists (states (core r.1)). split; [exact H1|]. intros p. apply states_lookup.
  - unfold PeerSet, c'. rewrite <-H3. unfold step. rewrite (proj2 (step_core le phi_above zero_above r.1 op)), project_shown.
    unfold PeerSet. unfold project_to. case_decide; [done|]. cbn [version]. rewrite Cell_Set_edges; [done|].
    destruct Hn as [_ ->]. apply u64_bump_ne, u64_range.
Qed.

(** A detector that suspects after twice the longest interval seen. *)
Definition demo_above (w : list Z) (elapsed : Z) : bool := foldr Z.max 0 w * 2 <? elapsed.
Definition demo_members : list (member_op Z) :=
  [MJoin 1 0; MHeartbeat 2 0; MHeartbeat 1 4; MHeartbeat 2 4; MHeartbeat 1 8; MTick 14; MHeartbeat 1 15; MTick 20].

Definition demo_run := run (member_step Z.le demo_above false) (NewMembershipCell 5 10) demo_members.

(** A peer's state machine.  In every reachable state an operation takes a peer
    exactly where [next_state] says: a join makes it alive, a heartbeat revives an
    unknown, suspect or dead peer but not one that left, only a departure makes it
    left, and a tick suspects an alive peer exactly when its detector is above the
    threshold and declares a suspect dead exactly when the timeout has passed since
    it was suspected, which is always known; no operation on another peer moves it. *)
Theorem Membership_transitions {P} `{Countable P} (le : relation P) `{!RelDecision le, !Total le, !Transitive le, !AntiSymm eq le}
    phi_above zero_above timeout samples (ops : list (member_op P)) (op : member_op P) (p : P)
    (step := member_step le phi_above zero_above) (c := (run step (NewMembershipCell timeout samples) ops).1) :
  State (core (step c op).1) p = next_state phi_above zero_above timeout op p (peers (core c) !! p) ∧
  (∀ r, peers (core c) !! p = Some r → state r = Suspect → ∃ since, suspectSince r = Some since ∧
    ∀ now, State (core (step c (MTick now)).1) p = Some (if decide (timeout ≤ saturatingSubU64 now since) then Dead else Suspect)) ∧
  (∀ s, State (core c) p = Some s → s = Dead ∨ s = Left → ∀ now, State (core (step c (MTick now)).1) p = Some s) ∧
  (State (core c) p = Some Left → State (core (step c op).1) p ≠ Some Left → ∃ now, op = MJoin p now).
Proof.
  destruct (member_run le phi_above zero_above timeout samples ops) as (_ & Ht & _ & Hsus & _). fold step in Ht, Hsus. fold c in Ht, Hsus. clearbody c.
  assert (Hn : ∀ op, State (core (step c op).1) p = next_state phi_above zero_above timeout op p (peers (core c) !! p)).
  { intros o. unfold step. by rewrite step_state, Ht. }
  split_and!.
  - apply Hn.
  - intros r Hr Hs. destruct (Hsus p r Hr Hs) as [since Hsi]. exists since. split; [done|]. intros now. rewrite Hn, Hr. simpl. rewrite Hs, Hsi. by case_decide.
  - intros s Hs Hd now. rewrite Hn. unfold State in Hs. destruct (peers (core c) !! p) as [r|]; [|done]. simpl in *. injection Hs as Hs. rewrite Hs. by destruct Hd as [-> | ->].
  - intros Hl Hne. rewrite Hn in Hne. unfold State in Hl. destruct (peers (core c) !! p) as [r|]; [|done]. simpl in Hl. injection Hl as Hl.
    destruct op as [q now|q now|q now|now]; cbn in Hne; [|exfalso; apply Hne; case_decide; cbn; by rewrite ?Hl..|exfalso; apply Hne; by rewrite Hl].
    case_decide; [subst; by exists now|]. cbn in Hne. rewrite Hl in Hne. done.
Qed.

Lemma Membership_events_faithful_witness :
  concat demo_run.2 = [PeerJoined 1; PeerJoined 2; PeerStateChanged 2 Alive Suspect; PeerStateChanged 2 Suspect Dead] ∧
  1 ∈ PeerSet demo_run.1 ∧ 2 ∉ PeerSet demo_run.1.
Proof.
  destruct (Membership_events_faithful Z.le demo_above false 5 10 demo_members (MTick 21)) as (_ & Hin & _). fold demo_run in Hin.
  split_and!; [vm_compute; reflexivity|..]; rewrite Hin; vm_compute; [reflexivity|discriminate].
Defined.

Lemma Membership_transitions_witness :
  State (core (member_step Z.le demo_above false demo_run.1 (MHeartbeat 2 30)).1) 2 = Some Alive ∧
  State (core (member_step Z.le demo_above false demo_run.1 (MTick 99)).1) 2 = Some Dead.
Proof.
  destruct (Membership_transitions Z.le demo_above false 5 10 demo_members (MHeartbeat 2 30) 2) as (H1 & _ & H2 & _). fold demo_run in H1, H2.
  split; [rewrite H1; vm_compute; reflexivity|]. apply (H2 Dead); [vm_compute; reflexivity|by left].
Defined.
