(* ===== verification/Service.v ===== *)
(** * Service: the embedded-service plane (service.go)

    Health and readiness probes, service discovery owned by peers, and a durable
    registry whose projection is the fold of its log.  Collections are shown
    through the version cell of [Presence]. *)

From S2P Require Import Prelude Presence.
Local Open Scope Z_scope.

(** ** Health and readiness *)

(** [service.go] [type Health] *)
Inductive Health := Healthy | Degraded | Unhealthy.
#[export] Instance Health_eq_dec : EqDecision Health.
Proof. solve_decision. Defined.
(** [service.go] [Health.String] *)
Definition Health_String (h : Health) : string :=
  match h with Healthy => "Healthy" | Degraded => "Degraded" | Unhealthy => "Unhealthy" end.
(** [service.go] [type probe] *)
Record probe := mkProbe { up : bool; critical : bool }.
(** [service.go] [type HealthCore] *)
Record HealthCore := mkHealthCore { probes : gmap string probe }.
(** [service.go] [HealthCore.Set] *)
Definition HealthCore_Set (c : HealthCore) (name : string) (u crit : bool) : HealthCore :=
  mkHealthCore (<[name := mkProbe u crit]> (probes c)).
(** The scan of the probes in the order [l], which stops at a critical one that is
    down.
    [service.go] [lines 69-80 HealthCore.Health] *)
Fixpoint health_scan (anyDown : bool) (l : list probe) : Health :=
  match l with
  | [] => if anyDown then Degraded else Healthy
  | p :: l => if up p then health_scan anyDown l else if critical p then Unhealthy else health_scan true l
  end.
(** [service.go] [HealthCore.Health] *)
Definition HealthCore_Health (order : gmap string probe → list probe) (c : HealthCore) : Health := health_scan false (order (probes c)).
(** [service.go] [type HealthCell] *)
Record HealthCell := mkHealthCell { health_core : HealthCore; health : Cell Health }.
(** [service.go] [NewHealthCell] *)
Definition NewHealthCell : HealthCell := mkHealthCell (mkHealthCore ∅) (NewCell Healthy).
(** [service.go] [HealthCell.Set] *)
Definition HealthCell_Set order (h : HealthCell) (name : string) (u crit : bool) : HealthCell :=
  let core := HealthCore_Set (health_core h) name u crit in mkHealthCell core (Cell_Set (health h) (HealthCore_Health order core)).

(** [service.go] [type ReadinessCore] *)
Record ReadinessCore := mkReadinessCore { conditions : gmap string bool }.
(** [service.go] [ReadinessCore.Set] *)
Definition ReadinessCore_Set (c : ReadinessCore) (name : string) (r : bool) : ReadinessCore := mkReadinessCore (<[name := r]> (conditions c)).
(** [service.go] [lines 139-144 ReadinessCore.Ready] *)
Fixpoint ready_scan (l : list bool) : bool := match l with [] => true | r :: l => if r then ready_scan l else false end.
(** [service.go] [ReadinessCore.Ready] *)
Definition ReadinessCore_Ready (order : gmap string bool → list bool) (c : ReadinessCore) : bool := ready_scan (order (conditions c)).
(** [service.go] [type ReadinessCell] *)
Record ReadinessCell := mkReadinessCell { readiness_core : ReadinessCore; ready : Cell bool }.
(** [service.go] [NewReadinessCell] *)
Definition NewReadinessCell : ReadinessCell := mkReadinessCell (mkReadinessCore ∅) (NewCell true).
(** [service.go] [ReadinessCell.Set] *)
Definition ReadinessCell_Set order (r : ReadinessCell) (name : string) (b : bool) : ReadinessCell :=
  let core := ReadinessCore_Set (readiness_core r) name b in mkReadinessCell core (Cell_Set (ready r) (ReadinessCore_Ready order core)).

(** ** Discovery *)

Section discovery.
Context {P : Type} `{EqDecision P}.

(** [service.go] [type discoveryEntry] *)
Record discoveryEntry := mkDiscovery { endpoint : string; owner : P }.
(** [service.go] [type DiscoveryCore] *)
Record DiscoveryCore := mkDiscoveryCore { discovered : gmap string discoveryEntry }.
(** [service.go] [DiscoveryCore.Register] *)
Definition DiscoveryCore_Register (c : DiscoveryCore) (service ep : string) (peer : P) : DiscoveryCore :=
  mkDiscoveryCore (<[service := mkDiscovery ep peer]> (discovered c)).
(** [service.go] [DiscoveryCore.Deregister] *)
Definition DiscoveryCore_Deregister (c : DiscoveryCore) (service : string) : DiscoveryCore := mkDiscoveryCore (delete service (discovered c)).
(** [service.go] [DiscoveryCore.Evict] *)
Definition DiscoveryCore_Evict (c : DiscoveryCore) (peer : P) : DiscoveryCore :=
  mkDiscoveryCore (filter (λ ke, owner ke.2 ≠ peer) (discovered c)).
(** [service.go] [DiscoveryCore.Resolve] *)
Definition DiscoveryCore_Resolve (c : DiscoveryCore) (service : string) : option string := endpoint <$> discovered c !! service.
(** [service.go] [DiscoveryCore.Discovery] *)
Definition DiscoveryCore_Discovery (c : DiscoveryCore) : gmap string string := endpoint <$> discovered c.
(** [service.go] [type DiscoveryCell] *)
Record DiscoveryCell := mkDiscoveryCell { discovery_core : DiscoveryCore; discovery_shown : Projected (gmap string string) }.
(** [service.go] [NewDiscoveryCell] *)
Definition NewDiscoveryCell : DiscoveryCell := mkDiscoveryCell (mkDiscoveryCore ∅) (NewProjected ∅).
(** [service.go] [DiscoveryCell.refresh] *)
Definition DiscoveryCell_refresh (d : DiscoveryCell) (core : DiscoveryCore) : DiscoveryCell :=
  mkDiscoveryCell core (project_to (discovery_shown d) (DiscoveryCore_Discovery core)).
(** [service.go] [DiscoveryCell.Register] *)
Definition DiscoveryCell_Register (d : DiscoveryCell) (service ep : string) (peer : P) : DiscoveryCell :=
  DiscoveryCell_refresh d (DiscoveryCore_Register (discovery_core d) service ep peer).
(** [service.go] [DiscoveryCell.Deregister] *)
Definition DiscoveryCell_Deregister (d : DiscoveryCell) (service : string) : DiscoveryCell :=
  DiscoveryCell_refresh d (DiscoveryCore_Deregister (discovery_core d) service).
(** [service.go] [DiscoveryCell.Evict] *)
Definition DiscoveryCell_Evict (d : DiscoveryCell) (peer : P) : DiscoveryCell :=
  DiscoveryCell_refresh d (DiscoveryCore_Evict (discovery_core d) peer).
End discovery.
Arguments DiscoveryCell : clear implicits.

(** ** Registry *)

(** The kind tag and the fields it uses.
    [service.go] [type registryOp] *)
Inductive registryOp := opRegister (service ep : string) | opDeregister (service : string).
(** [service.go] [type ServiceRegistryCore] *)
Record ServiceRegistryCore := mkRegistryCore { log : list registryOp; projection : gmap string string }.
(** [service.go] [NewServiceRegistryCore] *)
Definition NewServiceRegistryCore : ServiceRegistryCore := mkRegistryCore [] ∅.
(** [service.go] [applyRegistryOp] *)
Definition applyRegistryOp (projection : gmap string string) (op : registryOp) : gmap string string :=
  match op with opRegister s ep => <[s := ep]> projection | opDeregister s => delete s projection end.
(** [service.go] [ServiceRegistryCore.Register] *)
Definition RegistryCore_Register (c : ServiceRegistryCore) (service ep : string) : ServiceRegistryCore :=
  let op := opRegister service ep in mkRegistryCore (log c ++ [op]) (applyRegistryOp (projection c) op).
(** [service.go] [ServiceRegistryCore.Deregister] *)
Definition RegistryCore_Deregister (c : ServiceRegistryCore) (service : string) : ServiceRegistryCore :=
  let op := opDeregister service in mkRegistryCore (log c ++ [op]) (applyRegistryOp (projection c) op).
(** [service.go] [ServiceRegistryCore.Replay] *)
Definition RegistryCore_Replay (c : ServiceRegistryCore) : ServiceRegistryCore := mkRegistryCore (log c) (foldl applyRegistryOp ∅ (log c)).
(** [service.go] [type ServiceRegistry] *)
Record ServiceRegistry := mkRegistry { registry_core : ServiceRegistryCore; registry_shown : Projected (gmap string string) }.
(** [service.go] [NewServiceRegistry] *)
Definition NewServiceRegistry : ServiceRegistry := mkRegistry NewServiceRegistryCore (NewProjected ∅).
(** [service.go] [ServiceRegistry.refresh] *)
Definition ServiceRegistry_refresh (r : ServiceRegistry) (core : ServiceRegistryCore) : ServiceRegistry :=
  mkRegistry core (project_to (registry_shown r) (projection core)).
(** [service.go] [ServiceRegistry.Register] *)
Definition ServiceRegistry_Register (r : ServiceRegistry) (service ep : string) : ServiceRegistry :=
  ServiceRegistry_refresh r (RegistryCore_Register (registry_core r) service ep).
(** [service.go] [ServiceRegistry.Deregister] *)
Definition ServiceRegistry_Deregister (r : ServiceRegistry) (service : string) : ServiceRegistry :=
  ServiceRegistry_refresh r (RegistryCore_Deregister (registry_core r) service).
(** [service.go] [ServiceRegistry.Replay] *)
Definition ServiceRegistry_Replay (r : ServiceRegistry) : ServiceRegistry := ServiceRegistry_refresh r (RegistryCore_Replay (registry_core r)).

(** ** Theorems *)

(** The scan does not depend on the order of the probes. *)
Lemma health_scan_spec l b :
  health_scan b l = if existsb (λ p, negb (up p) && critical p) l then Unhealthy
                    else if b || existsb (λ p, negb (up p)) l then Degraded else Healthy.
Proof.
  revert b. induction l as [|p l IH]; intros b; simpl; [by rewrite orb_false_r|].
  destruct (up p); simpl; [apply IH|]. destruct (critical p); simpl; [done|]. rewrite IH. by rewrite orb_true_r.
Qed.

Lemma existsb_elem {A} (f : A → bool) (l : list A) : existsb f l = true ↔ ∃ x, x ∈ l ∧ f x = true.
Proof. rewrite List.existsb_exists. by setoid_rewrite <-list_elem_of_In. Qed.

Lemma ready_scan_spec l : ready_scan l = true ↔ ∀ b, b ∈ l → b = true.
Proof.
  induction l as [|b l IH]; simpl; [set_solver|]. destruct b.
  - rewrite IH. split; [intros Hl b [->|?]%elem_of_cons; auto|intros Hl b Hb; apply Hl; by right].
  - split; [done|]. intros Hl. by apply Hl, list_elem_of_here.
Qed.

(** What /health and /ready answer.  In whatever order Go ranges over the
    probes, a service is unhealthy exactly when some critical probe is down,
    degraded exactly when only uncritical ones are, and healthy when all are up; it is
    ready exactly when every condition holds; both cells show that after each
    update. *)
Theorem Probes_compose order rorder (h : HealthCell) (r : ReadinessCell) name u crit b :
  (∀ m p, p ∈ order m ↔ ∃ k, m !! k = Some p) → (∀ m b, b ∈ rorder m ↔ ∃ k : string, m !! k = Some b) →
  let h' := HealthCell_Set order h name u crit in
  let ps := <[name := mkProbe u crit]> (probes (health_core h)) in
  let r' := ReadinessCell_Set rorder r name b in
  (cell_value (health h') = Unhealthy ↔ ∃ k p, ps !! k = Some p ∧ up p = false ∧ critical p = true) ∧
  (cell_value (health h') = Healthy ↔ ∀ k p, ps !! k = Some p → up p = true) ∧
  (cell_value (ready r') = true ↔ ∀ k b', <[name := b]> (conditions (readiness_core r)) !! k = Some b' → b' = true).
Proof.
  intros Ho Hr. cbv zeta. unfold HealthCell_Set, ReadinessCell_Set. cbn [health ready]. rewrite !Cell_Set_value.
  unfold HealthCore_Health, ReadinessCore_Ready, HealthCore_Set, ReadinessCore_Set. cbn [probes conditions].
  set (ps := <[name := _]> (probes _)). rewrite health_scan_spec, ready_scan_spec. setoid_rewrite Hr. simpl.
  assert (Hc : existsb (λ p, negb (up p) && critical p) (order ps) = true ↔ ∃ k p, ps !! k = Some p ∧ up p = false ∧ critical p = true).
  { rewrite existsb_elem. setoid_rewrite Ho. setoid_rewrite andb_true_iff. setoid_rewrite negb_true_iff. naive_solver. }
  assert (Hd : existsb (λ p, negb (up p)) (order ps) = true ↔ ∃ k p, ps !! k = Some p ∧ up p = false).
  { rewrite existsb_elem. setoid_rewrite Ho. setoid_rewrite negb_true_iff. naive_solver. }
  split_and!.
  - rewrite <-Hc. destruct (existsb _ _); [done|]. by destruct (existsb _ _).
  - transitivity (existsb (λ p, negb (up p)) (order ps) = false).
    + destruct (existsb (λ p, negb (up p) && critical p) (order ps)) eqn:E; [|destruct (existsb (λ p, negb (up p)) (order ps)); split; done].
      split; [done|]. intros Hf. destruct (proj1 Hc eq_refl) as (k & p & Hp & Hu & _). assert (Ht : existsb (λ p, negb (up p)) (order ps) = true) by (apply Hd; eauto).
      congruence.
    + rewrite <-not_true_iff_false, Hd. split.
      * intros Hn k p Hp. destruct (up p) eqn:E; [done|]. exfalso. eauto.
      * intros Hall (k & p & Hp & Hu). rewrite (Hall k p Hp) in Hu. done.
  - naive_solver.
Qed.

Lemma Probes_compose_witness :
  let ord : gmap string probe → list probe := λ m, (map_to_list m).*2 in
  cell_value (health (HealthCell_Set ord (HealthCell_Set ord NewHealthCell "db" false true) "cache" false false)) = Unhealthy.
Proof.
  intros ord. destruct (Probes_compose ord (λ m, (map_to_list m).*2) (HealthCell_Set ord NewHealthCell "db" false true) NewReadinessCell "cache" false false true)
    as (H & _ & _).
  - intros m p. unfold ord. rewrite list_elem_of_fmap. split; [intros ([k q] & -> & Hk%elem_of_map_to_list); by exists k|].
    intros (k & Hk). exists (k, p). by rewrite elem_of_map_to_list.
  - intros m p. rewrite list_elem_of_fmap. split; [intros ([k q] & -> & Hk%elem_of_map_to_list); by exists k|].
    intros (k & Hk). exists (k, p). by rewrite elem_of_map_to_list.
  - apply H. exists "db", (mkProbe false true). split_and!; vm_compute; reflexivity.
Defined.

(** *** Registry *)

Inductive registry_act := RRegister (service ep : string) | RDeregister (service : string) | RReplay.
Definition registry_step (r : ServiceRegistry) (a : registry_act) : ServiceRegistry :=
  match a with RRegister s e => ServiceRegistry_Register r s e | RDeregister s => ServiceRegistry_Deregister r s | RReplay => ServiceRegistry_Replay r end.
(** The last thing said of a service. *)
Definition said_step (s : string) (o : option string) (a : registry_act) : option string :=
  match a with
  | RRegister s' e => if decide (s' = s) then Some e else o
  | RDeregister s' => if decide (s' = s) then None else o
  | RReplay => o
  end.

Definition registry_ok (r : ServiceRegistry) (acts : list registry_act) : Prop :=
  projection (registry_core r) = foldl applyRegistryOp ∅ (log (registry_core r)) ∧
  (∀ s, projection (registry_core r) !! s = foldl (said_step s) None acts) ∧
  shown (registry_shown r) = projection (registry_core r).

Lemma registry_step_ok r acts a : registry_ok r acts → registry_ok (registry_step r a) (acts ++ [a]).
Proof.
  intros (H1 & H2 & H3). unfold registry_ok. destruct a as [s e|s|]; cbn [registry_step];
    unfold ServiceRegistry_Register, ServiceRegistry_Deregister, ServiceRegistry_Replay, ServiceRegistry_refresh; cbn [registry_core registry_shown];
    rewrite project_shown; unfold RegistryCore_Register, RegistryCore_Deregister, RegistryCore_Replay; cbn [projection log applyRegistryOp];
    rewrite ?foldl_snoc, <-?H1; (split_and!; [done| |done]); intros s'; rewrite foldl_snoc; cbn [said_step]; [..|apply H2];
    rewrite <-H2; case_decide; subst; by rewrite ?lookup_insert_eq, ?lookup_insert_ne, ?lookup_delete_eq, ?lookup_delete_ne.
Qed.

(** The registry survives a restart.  After any registrations, deregistrations
    and replays, a service resolves to the endpoint it was last registered with and
    not deregistered since; rebuilding the projection from the log alone gives the
    same projection, so a replay changes nothing that is shown and wakes no reader;
    and what is shown is always the projection. *)
Theorem Registry_replay_roundtrip (acts : list registry_act) (r := foldl registry_step NewServiceRegistry acts) :
  (∀ s, projection (registry_core r) !! s = foldl (said_step s) None acts) ∧
  projection (RegistryCore_Replay (mkRegistryCore (log (registry_core r)) ∅)) = projection (registry_core r) ∧
  ServiceRegistry_Replay r = r ∧
  shown (registry_shown r) = projection (registry_core r).
Proof.
  assert (Hok : registry_ok r acts).
  { unfold r. induction acts as [|a acts IH] using rev_ind; [by split_and!|]. rewrite foldl_snoc. by apply registry_step_ok. }
  destruct Hok as (H1 & H2 & H3). split_and!; [done|by rewrite H1| |done].
  destruct r as [[l p] sh]. cbn in *. unfold ServiceRegistry_Replay, ServiceRegistry_refresh, RegistryCore_Replay. cbn [registry_core registry_shown log projection].
  rewrite <-H1. unfold project_to. rewrite decide_True by done. done.
Qed.

(** *** Discovery *)

(** Evicting a peer removes exactly its own endpoints. *)
Lemma Discovery_evict_exact {P} `{EqDecision P} (d : DiscoveryCell P) peer s :
  DiscoveryCore_Resolve (discovery_core (DiscoveryCell_Evict d peer)) s =
    (e ← discovered (discovery_core d) !! s; if decide (owner e = peer) then None else Some (endpoint e)) ∧
  shown (discovery_shown (DiscoveryCell_Evict d peer)) !! s = DiscoveryCore_Resolve (discovery_core (DiscoveryCell_Evict d peer)) s.
Proof.
  unfold DiscoveryCell_Evict, DiscoveryCell_refresh. cbn [discovery_core discovery_shown]. rewrite project_shown.
  unfold DiscoveryCore_Discovery, DiscoveryCore_Resolve, DiscoveryCore_Evict. cbn [discovered]. rewrite lookup_fmap. split; [|done].
  destruct (discovered (discovery_core d) !! s) as [e|] eqn:E; simpl.
  - case_decide as Ho.
    + rewrite (proj2 (map_lookup_filter_None _ _ _)); [done|]. right. intros x Hx. rewrite E in Hx. injection Hx as <-. by simpl; intros [].
    + rewrite (proj2 (map_lookup_filter_Some _ _ _ e)); [done|]. by split.
  - by rewrite (proj2 (map_lookup_filter_None _ _ _)); [|left].
Qed.
