(* ===== verification/Coordination.v ===== *)
(** * Coordination: lease, leader, lock, semaphore, barrier (coordination.go)

    A lease is a single holder with an expiry tick and a fencing token; leadership
    and the lock are views of one.  The lease is exclusive and its token never
    repeats, the cells show what the core says, permits are conserved, and two
    quorums of the same electorate meet. *)

From S2P Require Import Prelude.
Local Open Scope Z_scope.

Section lease.
Context {P : Type} `{EqDecision P}.
Implicit Types (peer : P) (now ttl : Z).

(** ** Lease *)

(** [coordination.go] [type LeaseCore] *)
Record LeaseCore := mkLease { holder : option P; expiry : Z; fence : Z }.
(** [coordination.go] [NewLeaseCore] *)
Definition NewLeaseCore : LeaseCore := mkLease None 0 0.
(** [coordination.go] [LeaseCore.isExpired] *)
Definition isExpired (c : LeaseCore) now : bool := bool_decide (is_Some (holder c)) && (expiry c <=? now).
(** [coordination.go] [LeaseCore.IsHeld] *)
Definition IsHeld (c : LeaseCore) now : bool := bool_decide (is_Some (holder c)) && negb (isExpired c now).
(** [coordination.go] [LeaseCore.holderOpt] *)
Definition holderOpt (c : LeaseCore) now : option P := if IsHeld c now then holder c else None.
(** [coordination.go] [LeaseCore.Holder] *)
Definition Holder (c : LeaseCore) now : option P := holderOpt c now.
(** [coordination.go] [LeaseCore.Acquire] *)
Definition Acquire (c : LeaseCore) peer now ttl : LeaseCore * option Z :=
  if negb (bool_decide (is_Some (holder c))) || isExpired c now
  then let f := fence c +ᵤ 1 in (mkLease (Some peer) (now +ᵤ ttl) f, Some f)
  else if decide (holder c = Some peer) then (mkLease (holder c) (now +ᵤ ttl) (fence c), Some (fence c))
  else (c, None).
(** [coordination.go] [LeaseCore.Renew] *)
Definition Renew (c : LeaseCore) peer now ttl : LeaseCore * bool :=
  if IsHeld c now && bool_decide (holder c = Some peer) then (mkLease (holder c) (now +ᵤ ttl) (fence c), true) else (c, false).
(** [coordination.go] [LeaseCore.Release] *)
Definition Release (c : LeaseCore) peer : LeaseCore :=
  if decide (holder c = Some peer) then mkLease None (expiry c) (fence c) else c.
(** [coordination.go] [LeaseCore.Tick] *)
Definition Tick (c : LeaseCore) now : LeaseCore * bool :=
  if isExpired c now then (mkLease None (expiry c) (fence c), true) else (c, false).

(** ** Lease, leader and lock cells *)

(** [coordination.go] [type LeaseCell] *)
Record LeaseCell := mkLeaseCell { lease_core : LeaseCore; lease_holder : Cell (option P) }.
(** [coordination.go] [NewLeaseCell] *)
Definition NewLeaseCell : LeaseCell := mkLeaseCell NewLeaseCore (NewCell None).
(** [coordination.go] [LeaseCell.refresh] *)
Definition LeaseCell_refresh (c : LeaseCell) (core : LeaseCore) now : LeaseCell :=
  mkLeaseCell core (Cell_Set (lease_holder c) (holderOpt core now)).
(** [coordination.go] [LeaseCell.Acquire] *)
Definition LeaseCell_Acquire (c : LeaseCell) peer now ttl : LeaseCell * option Z :=
  let '(core, f) := Acquire (lease_core c) peer now ttl in (LeaseCell_refresh c core now, f).
(** [coordination.go] [LeaseCell.Renew] *)
Definition LeaseCell_Renew (c : LeaseCell) peer now ttl : LeaseCell * bool :=
  let '(core, r) := Renew (lease_core c) peer now ttl in (LeaseCell_refresh c core now, r).
(** [coordination.go] [LeaseCell.Release] *)
Definition LeaseCell_Release (c : LeaseCell) peer now : LeaseCell := LeaseCell_refresh c (Release (lease_core c) peer) now.
(** [coordination.go] [LeaseCell.Tick] *)
Definition LeaseCell_Tick (c : LeaseCell) now : LeaseCell * bool :=
  let '(core, r) := Tick (lease_core c) now in (LeaseCell_refresh c core now, r).

(** [coordination.go] [type LeaderRole] *)
Inductive LeaderRole := Leader | Follower | Candidate.
(** [coordination.go] [LeaderRole.String] *)
Definition LeaderRole_String (r : LeaderRole) : string :=
  match r with Leader => "Leader" | Follower => "Follower" | Candidate => "Candidate" end.
(** [coordination.go] [type LeaderCell] *)
Record LeaderCell := mkLeaderCell { leader_core : LeaseCore; me : P; currentLeader : Cell (option P) }.
(** [coordination.go] [NewLeaderCell] *)
Definition NewLeaderCell (me : P) : LeaderCell := mkLeaderCell NewLeaseCore me (NewCell None).
(** [coordination.go] [LeaderCell.refresh] *)
Definition LeaderCell_refresh (c : LeaderCell) (core : LeaseCore) now : LeaderCell :=
  mkLeaderCell core (me c) (Cell_Set (currentLeader c) (holderOpt core now)).
(** [coordination.go] [LeaderCell.Role] *)
Definition Role (c : LeaderCell) now : LeaderRole :=
  match holderOpt (leader_core c) now with
  | Some h => if decide (h = me c) then Leader else Follower
  | None => Candidate
  end.
(** [coordination.go] [LeaderCell.Contend] *)
Definition Contend (c : LeaderCell) peer now ttl : LeaderCell * LeaderRole :=
  let c := LeaderCell_refresh c (Acquire (leader_core c) peer now ttl).1 now in (c, Role c now).
(** [coordination.go] [LeaderCell.Campaign] *)
Definition Campaign (c : LeaderCell) now ttl : LeaderCell * LeaderRole :=
  let c := LeaderCell_refresh c (Acquire (leader_core c) (me c) now ttl).1 now in (c, Role c now).
(** [coordination.go] [LeaderCell.Tick] *)
Definition LeaderCell_Tick (c : LeaderCell) now : LeaderCell * LeaderRole :=
  let c := LeaderCell_refresh c (Tick (leader_core c) now).1 now in (c, Role c now).
(** [coordination.go] [LeaderCell.CurrentLeader] *)
Definition CurrentLeader (c : LeaderCell) now : option P := Holder (leader_core c) now.

(** [coordination.go] [type LockCell] *)
Record LockCell := mkLockCell { lock_core : LeaseCore; isLocked : Cell bool }.
(** [coordination.go] [NewLockCell] *)
Definition NewLockCell : LockCell := mkLockCell NewLeaseCore (NewCell false).
(** [coordination.go] [LockCell.refresh] *)
Definition LockCell_refresh (c : LockCell) (core : LeaseCore) now : LockCell :=
  mkLockCell core (Cell_Set (isLocked c) (IsHeld core now)).
(** [coordination.go] [LockCell.Acquire] *)
Definition LockCell_Acquire (c : LockCell) peer now ttl : LockCell * option Z :=
  let '(core, f) := Acquire (lock_core c) peer now ttl in (LockCell_refresh c core now, f).
(** [coordination.go] [LockCell.Release] *)
Definition LockCell_Release (c : LockCell) peer now : LockCell := LockCell_refresh c (Release (lock_core c) peer) now.
(** [coordination.go] [LockCell.Tick] *)
Definition LockCell_Tick (c : LockCell) now : LockCell * bool :=
  let '(core, r) := Tick (lock_core c) now in (LockCell_refresh c core now, r).
(** [coordination.go] [LockCell.Validate] *)
Definition Validate (c : LockCell) (f : Z) : bool := fence (lock_core c) =? f.
End lease.
Arguments LeaseCore : clear implicits.
Arguments LeaseCell : clear implicits.
Arguments LeaderCell : clear implicits.
Arguments LockCell : clear implicits.

(** ** Semaphore *)

(** [coordination.go] [type SemaphoreCore] *)
Record SemaphoreCore := mkSemaphore { capacity : Z; acquired : Z }.
(** [coordination.go] [NewSemaphoreCore] *)
Definition NewSemaphoreCore (cap : Z) : SemaphoreCore := mkSemaphore cap 0.
(** [coordination.go] [SemaphoreCore.Available] *)
Definition Available (c : SemaphoreCore) : Z := capacity c -ᵤ acquired c.
(** [coordination.go] [SemaphoreCore.Acquire] *)
Definition SemaphoreCore_Acquire (c : SemaphoreCore) : SemaphoreCore * bool :=
  if acquired c <? capacity c then (mkSemaphore (capacity c) (acquired c +ᵤ 1), true) else (c, false).
(** [coordination.go] [SemaphoreCore.Release] *)
Definition SemaphoreCore_Release (c : SemaphoreCore) : SemaphoreCore :=
  if 0 <? acquired c then mkSemaphore (capacity c) (acquired c -ᵤ 1) else c.
(** [coordination.go] [type SemaphoreCell] *)
Record SemaphoreCell := mkSemaphoreCell { sem_core : SemaphoreCore; available : Cell Z }.
(** [coordination.go] [NewSemaphoreCell] *)
Definition NewSemaphoreCell (cap : Z) : SemaphoreCell := mkSemaphoreCell (NewSemaphoreCore cap) (NewCell cap).
(** [coordination.go] [SemaphoreCell.refresh] *)
Definition SemaphoreCell_refresh (c : SemaphoreCell) (core : SemaphoreCore) : SemaphoreCell :=
  mkSemaphoreCell core (Cell_Set (available c) (Available core)).
(** [coordination.go] [SemaphoreCell.Acquire] *)
Definition SemaphoreCell_Acquire (c : SemaphoreCell) : SemaphoreCell * bool :=
  let '(core, r) := SemaphoreCore_Acquire (sem_core c) in (SemaphoreCell_refresh c core, r).
(** [coordination.go] [SemaphoreCell.Release] *)
Definition SemaphoreCell_Release (c : SemaphoreCell) : SemaphoreCell :=
  SemaphoreCell_refresh c (SemaphoreCore_Release (sem_core c)).

(** ** Barrier and quorum *)

Section barrier.
Context {P : Type} `{Countable P}.

(** [coordination.go] [type BarrierCore] *)
Record BarrierCore := mkBarrier { required : Z; arrived : gset P }.
(** [coordination.go] [NewBarrierCore] *)
Definition NewBarrierCore (r : Z) : BarrierCore := mkBarrier r ∅.
(** [coordination.go] [BarrierCore.Count] *)
Definition Count (c : BarrierCore) : Z := Z.of_nat (size (arrived c)).
(** [coordination.go] [BarrierCore.IsOpen] *)
Definition IsOpen (c : BarrierCore) : bool := required c <=? Count c.
(** [coordination.go] [BarrierCore.Arrive] *)
Definition Arrive (c : BarrierCore) (peer : P) : BarrierCore * bool :=
  let c := mkBarrier (required c) ({[peer]} ∪ arrived c) in (c, IsOpen c).
(** [coordination.go] [type BarrierCell] *)
Record BarrierCell := mkBarrierCell { barrier_core : BarrierCore; isOpen : Cell bool }.
(** [coordination.go] [NewBarrierCell] *)
Definition NewBarrierCell (r : Z) : BarrierCell :=
  let core := NewBarrierCore r in mkBarrierCell core (NewCell (IsOpen core)).
(** [coordination.go] [Quorum] *)
Definition Quorum (total : Z) : BarrierCell := NewBarrierCell (total / 2 +ᵤ 1).
(** [coordination.go] [BarrierCell.Arrive] *)
Definition BarrierCell_Arrive (c : BarrierCell) (peer : P) : BarrierCell * bool :=
  let '(core, r) := Arrive (barrier_core c) peer in (mkBarrierCell core (Cell_Set (isOpen c) (IsOpen core)), r).
End barrier.
Arguments BarrierCore P {_ _}.
Arguments BarrierCell P {_ _}.

(** ** Runs of a lease *)

Section lease_runs.
Context {P : Type} `{EqDecision P}.

Inductive lease_op := LAcquire (peer : P) (now ttl : Z) | LRenew (peer : P) (now ttl : Z) | LRelease (peer : P) (now : Z) | LTick (now : Z).
Definition lease_now (op : lease_op) : Z := match op with LAcquire _ now _ | LRenew _ now _ | LRelease _ now | LTick now => now end.

(** What an operation returns: the grant of an acquisition, with its peer. *)
Definition lease_step (c : LeaseCell P) (op : lease_op) : LeaseCell P * option (P * Z) :=
  match op with
  | LAcquire peer now ttl => let '(c, f) := LeaseCell_Acquire c peer now ttl in (c, pair peer <$> f)
  | LRenew peer now ttl => ((LeaseCell_Renew c peer now ttl).1, None)
  | LRelease peer now => (LeaseCell_Release c peer now, None)
  | LTick now => ((LeaseCell_Tick c now).1, None)
  end.

(** The grants made so far have tokens that never decrease and never pass the
    current one, one token belongs to one peer, and the holder has the current one. *)
Definition lease_ok (n : nat) (gs : list (P * Z)) (c : LeaseCore P) : Prop :=
  0 ≤ fence c ≤ Z.of_nat n ∧ Forall (λ g, 1 ≤ g.2 ≤ fence c) gs ∧ StronglySorted Z.le gs.*2 ∧
  (∀ p p' f, (p, f) ∈ gs → (p', f) ∈ gs → p = p') ∧ (∀ p, holder c = Some p → (p, fence c) ∈ gs).

Lemma lease_ok_same n gs c c' : lease_ok n gs c → fence c' = fence c → (∀ p, holder c' = Some p → holder c = Some p) → lease_ok (S n) gs c'.
Proof. intros (H1 & H2 & H3 & H4 & H5) Hf Hh. unfold lease_ok. rewrite Hf. split_and!; try lia; auto. Qed.

Lemma sorted_snoc (l : list Z) x : StronglySorted Z.le l → Forall (λ y, y ≤ x) l → StronglySorted Z.le (l ++ [x]).
Proof.
  induction 1 as [|y l _ IH Hy]; intros Hl; simpl; [repeat constructor|]. apply Forall_cons in Hl as [? ?].
  constructor; [auto|]. apply Forall_app. by repeat constructor.
Qed.

Lemma lease_ok_acquire n gs c peer now ttl :
  lease_ok n gs c → Z.of_nat n < max_u64 →
  lease_ok (S n) (gs ++ option_list (pair peer <$> (Acquire c peer now ttl).2)) (Acquire c peer now ttl).1.
Proof.
  intros (H1 & H2 & H3 & H4 & H5) Hn. unfold Acquire. case_match eqn:E.
  - rewrite (u64_small (fence c + 1)) by zrange. simpl. unfold lease_ok. simpl. rewrite fmap_app. simpl. split_and!.
    + lia.
    + lia.
    + apply Forall_app. split; [eapply Forall_impl; [done|]; simpl; lia|]. constructor; [simpl; lia|done].
    + apply sorted_snoc; [done|]. apply Forall_fmap. eapply Forall_impl; [done|]. simpl. lia.
    + rewrite Forall_forall in H2. intros p p' f [Hp|Hp]%elem_of_app [Hp'|Hp']%elem_of_app; [by apply (H4 p p' f)|..].
      * apply list_elem_of_singleton in Hp'; simplify_eq. specialize (H2 _ Hp). simpl in H2. lia.
      * apply list_elem_of_singleton in Hp; simplify_eq. specialize (H2 _ Hp'). simpl in H2. lia.
      * apply list_elem_of_singleton in Hp; simplify_eq. by apply list_elem_of_singleton in Hp'; simplify_eq.
    + intros p [= <-]. apply elem_of_app. right. by apply list_elem_of_singleton.
  - case_decide as Hh; simpl; [|rewrite app_nil_r; by apply (lease_ok_same n gs c)].
    assert (Hin := H5 _ Hh). rewrite Forall_forall in H2.
    unfold lease_ok. simpl. rewrite fmap_app. simpl. split_and!.
    + lia.
    + lia.
    + apply Forall_app. split; [by apply Forall_forall|]. constructor; [by apply (H2 _ Hin)|done].
    + apply sorted_snoc; [done|]. apply Forall_fmap, Forall_forall. intros g Hg. apply (H2 _ Hg).
    + intros p p' f Hp Hp'. apply (H4 p p' f).
      * apply elem_of_app in Hp as [|Hp]; [done|]. by apply list_elem_of_singleton in Hp; simplify_eq.
      * apply elem_of_app in Hp' as [|Hp']; [done|]. by apply list_elem_of_singleton in Hp'; simplify_eq.
    + intros p Hp. apply elem_of_app. left. by apply H5.
Qed.

Lemma lease_ok_step n gs c op :
  lease_ok n gs (lease_core c) → Z.of_nat n < max_u64 →
  lease_ok (S n) (gs ++ option_list (lease_step c op).2) (lease_core (lease_step c op).1) ∧
  cell_value (lease_holder (lease_step c op).1) = holderOpt (lease_core (lease_step c op).1) (lease_now op).
Proof.
  intros Hok Hn. assert (Hcv : ∀ core now, cell_value (lease_holder (LeaseCell_refresh c core now)) = holderOpt core now) by (intros; apply Cell_Set_value).
  destruct op as [peer now ttl|peer now ttl|peer now|now]; cbn [lease_step lease_now].
  - pose proof (lease_ok_acquire n gs _ peer now ttl Hok Hn) as Ha. unfold LeaseCell_Acquire.
    destruct (Acquire (lease_core c) peer now ttl) as [core f]. cbn [fst snd] in *. by rewrite Hcv.
  - unfold LeaseCell_Renew, Renew. destruct (_ && _); cbn [fst snd option_list]; rewrite app_nil_r, Hcv; (split; [|done]);
      (apply (lease_ok_same n gs (lease_core c)); [exact Hok|done|done]).
  - unfold LeaseCell_Release, Release. cbn [fst snd option_list]. rewrite app_nil_r, Hcv. split; [|done].
    case_decide; (apply (lease_ok_same n gs (lease_core c)); [exact Hok|done|done]).
  - unfold LeaseCell_Tick, Tick. destruct (isExpired _ _); cbn [fst snd option_list]; rewrite app_nil_r, Hcv; (split; [|done]);
      (apply (lease_ok_same n gs (lease_core c)); [exact Hok|done|done]).
Qed.

Definition grants (os : list (option (P * Z))) : list (P * Z) := os ≫= option_list.

Lemma lease_run ops : Z.of_nat (length ops) ≤ max_u64 →
  lease_ok (length ops) (grants (run lease_step NewLeaseCell ops).2) (lease_core (run lease_step NewLeaseCell ops).1).
Proof.
  induction ops as [|op ops IH] using rev_ind; intros Hn.
  - unfold lease_ok. simpl. split_and!; try done; try constructor. all: try lia. all: set_solver.
  - rewrite length_app in *. simpl in *. rewrite run_snoc. simpl. unfold grants. rewrite bind_app. simpl. rewrite app_nil_r, Nat.add_1_r.
    apply lease_ok_step; [apply IH; lia|lia].
Qed.
End lease_runs.
Arguments lease_op : clear implicits.

(** The fencing token is a total order of tenancies.  In any run of a lease
    cell (fewer operations than the token can count) the tokens handed out never
    decrease, one token is only ever given to one peer, and none passes the current
    one, so a store that refuses smaller tokens refuses every former holder; while a
    peer holds the lease every other acquisition is refused and changes nothing; a
    granted peer is the holder exactly until its time to live has passed; and the
    holder cell shows the live holder after every operation. *)
Theorem Lease_fences {P} `{EqDecision P} (ops : list (lease_op P)) (op : lease_op P)
    (r := run lease_step NewLeaseCell ops) (c := lease_core r.1) :
  Z.of_nat (length ops) < max_u64 →
  StronglySorted Z.le (grants r.2).*2 ∧ (∀ g, g ∈ grants r.2 → 1 ≤ g.2 ≤ fence c) ∧
  (∀ p p' f, (p, f) ∈ grants r.2 → (p', f) ∈ grants r.2 → p = p') ∧
  (∀ p now, Holder c now = Some p → (p, fence c) ∈ grants r.2) ∧
  (∀ p q now ttl, Holder c now = Some p → p ≠ q → Acquire c q now ttl = (c, None)) ∧
  (∀ q now ttl f, (Acquire c q now ttl).2 = Some f → is_u64 (now + ttl) →
    fence (Acquire c q now ttl).1 = f ∧
    ∀ now', Holder (Acquire c q now ttl).1 now' = if decide (now' < now + ttl) then Some q else None) ∧
  cell_value (lease_holder (lease_step r.1 op).1) = Holder (lease_core (lease_step r.1 op).1) (lease_now op).
Proof.
  intros Hn. pose proof (lease_run ops ltac:(lia)) as Hok. destruct (lease_ok_step _ _ r.1 op Hok Hn) as [_ Hcell].
  fold r in Hok. fold c in Hok. destruct Hok as (H1 & H2 & H3 & H4 & H5). clearbody c.
  assert (Hheld : ∀ p now, Holder c now = Some p → holder c = Some p ∧ isExpired c now = false).
  { intros p now. unfold Holder, holderOpt, IsHeld. destruct (isExpired c now); [by rewrite andb_false_r|]. by case_match. }
  split_and!; [done|by apply Forall_forall|done|intros p now Hp; apply H5; by apply (Hheld p now)| | |done].
  - intros p q now ttl Hp Hne. apply Hheld in Hp as [Hp He]. unfold Acquire. rewrite He, Hp. simpl.
    case_decide; [congruence|done].
  - intros q now ttl f. unfold Acquire, Holder, holderOpt, IsHeld, isExpired.
    case_match; [|case_decide; [|done]]; cbn [fst snd]; intros [= <-] Hu; (split; [done|]);
      intros now'; cbn [holder expiry]; rewrite u64_small by done.
    + simpl. case_decide; destruct (Z.leb_spec (now + ttl) now'); try lia; done.
    + rewrite H0. simpl. case_decide; destruct (Z.leb_spec (now + ttl) now'); try lia; done.
Qed.

Lemma Lease_fences_witness :
  let r := run lease_step NewLeaseCell [LAcquire 1%positive 0 10; LAcquire 2%positive 5 10; LTick 12; LAcquire 2%positive 13 10; LRenew 2%positive 14 20] in
  grants r.2 = [(1%positive, 1); (2%positive, 2)] ∧ Acquire (lease_core r.1) 1%positive 20 10 = (lease_core r.1, None) ∧
  Holder (lease_core r.1) 33 = Some 2%positive.
Proof.
  intros r. destruct (Lease_fences [LAcquire 1%positive 0 10; LAcquire 2%positive 5 10; LTick 12; LAcquire 2%positive 13 10; LRenew 2%positive 14 20] (LTick 20))
    as (_ & _ & _ & _ & H & _); [by vm_compute|].
  split_and!; [reflexivity|apply (H 2%positive); [reflexivity|done]|reflexivity].
Defined.

(** ** Leadership, locks, permits, quorums *)

(** Coordination counts.  A node believes it leads exactly when it is the live
    holder of its lease and is a candidate exactly when there is none.  A semaphore
    never hands out more permits than its capacity: after any acquisitions and
    releases the permits available and those held add up to the capacity, the cell
    shows what is available, and an acquisition succeeds exactly when one is.  Two
    quorum gates over one electorate that have both opened share a voter, and a
    gate opens exactly when a strict majority of distinct peers has arrived. *)
Theorem Coordination_counts {P} `{Countable P} (lc : LeaderCell P) now (cap : Z) (acts : list bool) (electorate : gset P) (v1 v2 : list P)
    (sem := foldl (λ (c : SemaphoreCell) (a : bool), if a then (SemaphoreCell_Acquire c).1 else SemaphoreCell_Release c) (NewSemaphoreCell cap) acts)
    (gate := λ v : list P, foldl (λ (c : BarrierCell P) p, (BarrierCell_Arrive c p).1) (Quorum (Z.of_nat (size electorate))) v) :
  is_u64 cap → Z.of_nat (size electorate) ≤ max_u64 →
  list_to_set v1 ⊆ electorate → list_to_set v2 ⊆ electorate →
  (Role lc now = Leader ↔ CurrentLeader lc now = Some (me lc)) ∧ (Role lc now = Candidate ↔ CurrentLeader lc now = None) ∧
  (0 ≤ acquired (sem_core sem) ∧ Available (sem_core sem) + acquired (sem_core sem) = cap ∧ 0 ≤ Available (sem_core sem) ∧
    cell_value (available sem) = Available (sem_core sem) ∧
    ((SemaphoreCell_Acquire sem).2 = true ↔ 0 < Available (sem_core sem))) ∧
  (∀ v, cell_value (isOpen (gate v)) = true ↔ Z.of_nat (size electorate) / 2 < Z.of_nat (size (list_to_set v : gset P))) ∧
  (cell_value (isOpen (gate v1)) = true → cell_value (isOpen (gate v2)) = true → ∃ p, p ∈ v1 ∧ p ∈ v2).
Proof.
  intros Hcap Hel H1 H2. assert (Hgate : ∀ v, cell_value (isOpen (gate v)) = true ↔ Z.of_nat (size electorate) / 2 < Z.of_nat (size (list_to_set v : gset P))).
  { assert (Hst : ∀ v, required (barrier_core (gate v)) = Z.of_nat (size electorate) / 2 + 1 ∧
      arrived (barrier_core (gate v)) = list_to_set v ∧ cell_value (isOpen (gate v)) = IsOpen (barrier_core (gate v))).
    { intros v. unfold gate. induction v as [|p v IH] using rev_ind; cbn [foldl].
      - unfold Quorum. simpl. split_and!; try done. apply u64_small. pose proof (Z.div_lt (Z.of_nat (size electorate)) 2).
        pose proof (Z.div_pos (Z.of_nat (size electorate)) 2). destruct (decide (size electorate = 0%nat)) as [->|]; [by vm_compute|]. zrange.
      - rewrite foldl_snoc. destruct IH as (Hr & Ha & _). set (g := foldl _ _ v) in *. cbn. rewrite Hr, Ha, Cell_Set_value.
        split_and!; [done| |done]. rewrite list_to_set_app_L. set_solver. }
    intros v. destruct (Hst v) as (Hr & Ha & ->). unfold IsOpen, Count. rewrite Hr, Ha, Z.leb_le. lia. }
  split; [|split; [|split; [|split; [exact Hgate|]]]].
  - unfold Role, CurrentLeader, Holder. destruct (holderOpt _ _); [|done]. case_decide; naive_solver.
  - unfold Role, CurrentLeader, Holder. destruct (holderOpt _ _); [|done]. by case_decide.
  - assert (Hinv : capacity (sem_core sem) = cap ∧ 0 ≤ acquired (sem_core sem) ≤ cap ∧ cell_value (available sem) = Available (sem_core sem)).
    { unfold sem. induction acts as [|a acts IH] using rev_ind; [unfold Available; simpl; split_and!; try done; [zrange|by rewrite Z.sub_0_r, u64_small]|].
      rewrite foldl_snoc. destruct IH as (Hc & Ha & Hv). set (c := foldl _ _ acts) in *. clearbody c.
      destruct a; [unfold SemaphoreCell_Acquire, SemaphoreCore_Acquire|unfold SemaphoreCell_Release, SemaphoreCore_Release].
      - destruct (Z.ltb_spec (acquired (sem_core c)) (capacity (sem_core c))); cbn; rewrite Cell_Set_value; [|split_and!; try done; lia].
        rewrite u64_small by zrange. split_and!; try done; lia.
      - destruct (Z.ltb_spec 0 (acquired (sem_core c))); cbn; rewrite Cell_Set_value; [|split_and!; try done; lia].
        rewrite u64_small by zrange. split_and!; try done; lia. }
    clearbody sem. destruct Hinv as (Hc & Ha & ->). unfold Available. rewrite Hc, u64_small by zrange. split_and!; try lia.
    unfold SemaphoreCell_Acquire, SemaphoreCore_Acquire. rewrite Hc. destruct (Z.ltb_spec (acquired (sem_core sem)) cap); simpl; split; try done; lia.
  - rewrite !Hgate. intros Q1 Q2. set (A := list_to_set v1 : gset P) in *. set (B := list_to_set v2 : gset P) in *.
    destruct (set_choose_or_empty (A ∩ B)) as [[p Hp]|He]; [exists p; set_solver|].
    assert (Hd : A ## B) by set_solver. pose proof (subseteq_size (A ∪ B) electorate ltac:(set_solver)) as Hsz.
    rewrite size_union in Hsz by done. pose proof (Z.div_mod (Z.of_nat (size electorate)) 2 ltac:(lia)).
    pose proof (Z.mod_pos_bound (Z.of_nat (size electorate)) 2 ltac:(lia)). lia.
Qed.

Lemma Coordination_counts_witness :
  ∃ p : positive, p ∈ [1; 2; 3]%positive ∧ p ∈ [3; 4; 5]%positive.
Proof.
  destruct (Coordination_counts (NewLeaderCell 1%positive) 0 2 [true; true; true; false] (list_to_set [1; 2; 3; 4; 5]%positive)
    [1; 2; 3]%positive [3; 4; 5]%positive) as (_ & _ & _ & _ & H); [by vm_compute|by vm_compute|set_solver|set_solver|].
  apply H; vm_compute; reflexivity.
Defined.
