(* ===== verification/Resilience.v ===== *)
(** * Resilience: breaker, retry, bulkhead, timeout (resilience.go)

    Four cores over a logical clock and the cells that show them.  The breaker
    blocks exactly until its deadline and trips exactly at its threshold, the
    back-off is the capped power of two whatever overflows, permits are bounded and
    a timeout fires once. *)

From S2P Require Import Prelude.
Local Open Scope Z_scope.

(** ** Circuit breaker *)

(** [resilience.go] [type BreakerState] *)
Inductive BreakerState := BreakerClosed | BreakerOpen | BreakerHalfOpen.
#[export] Instance BreakerState_eq_dec : EqDecision BreakerState.
Proof. solve_decision. Defined.
(** [resilience.go] [BreakerState.String] *)
Definition BreakerState_String (s : BreakerState) : string :=
  match s with BreakerClosed => "Closed" | BreakerOpen => "Open" | BreakerHalfOpen => "HalfOpen" end.

(** [resilience.go] [type CircuitBreakerCore] *)
Record CircuitBreakerCore := mkBreaker {
  window : Z; failureThreshold : Z; resetTimeout : Z; state : BreakerState; outcomes : list bool; openUntil : Z }.
(** [resilience.go] [NewCircuitBreakerCore] *)
Definition NewCircuitBreakerCore (window failureThreshold resetTimeout : Z) : CircuitBreakerCore :=
  mkBreaker (if window <? 1 then 1 else window) (if failureThreshold <? 1 then 1 else failureThreshold) resetTimeout BreakerClosed [] 0.
(** [resilience.go] [CircuitBreakerCore.failures] *)
Definition failures (l : list bool) : Z := foldl (λ n s, if s : bool then n else n + 1) 0 l.
Definition with_state (c : CircuitBreakerCore) (s : BreakerState) (o : list bool) (u : Z) : CircuitBreakerCore :=
  mkBreaker (window c) (failureThreshold c) (resetTimeout c) s o u.
(** [resilience.go] [CircuitBreakerCore.Allow] *)
Definition Allow (c : CircuitBreakerCore) (now : Z) : CircuitBreakerCore * bool :=
  match state c with
  | BreakerClosed => (c, true)
  | BreakerOpen => if openUntil c <=? now then (with_state c BreakerHalfOpen (outcomes c) (openUntil c), true) else (c, false)
  | BreakerHalfOpen => (c, true)
  end.
(** The trimming loop of [Record].
    [resilience.go] [lines 110-112 CircuitBreakerCore.Record] *)
Fixpoint trim_outcomes (window : Z) (l : list bool) : list bool :=
  match l with [] => [] | _ :: l' => if window <? Z.of_nat (length l) then trim_outcomes window l' else l end.
(** [resilience.go] [CircuitBreakerCore.Record] *)
Definition Record_ (c : CircuitBreakerCore) (success : bool) (now : Z) : CircuitBreakerCore :=
  match state c with
  | BreakerHalfOpen =>
      if success then with_state c BreakerClosed [] (openUntil c)
      else with_state c BreakerOpen (outcomes c) (now +ᵤ resetTimeout c)
  | BreakerClosed =>
      let o := trim_outcomes (window c) (outcomes c ++ [success]) in
      if failureThreshold c <=? failures o then with_state c BreakerOpen o (now +ᵤ resetTimeout c)
      else with_state c BreakerClosed o (openUntil c)
  | BreakerOpen => c
  end.

(** [resilience.go] [type CircuitBreakerCell] *)
Record CircuitBreakerCell := mkBreakerCell { breaker_core : CircuitBreakerCore; breaker_state : Cell BreakerState }.
(** [resilience.go] [NewCircuitBreakerCell] *)
Definition NewCircuitBreakerCell (window failureThreshold resetTimeout : Z) : CircuitBreakerCell :=
  mkBreakerCell (NewCircuitBreakerCore window failureThreshold resetTimeout) (NewCell BreakerClosed).
(** [resilience.go] [CircuitBreakerCell.refresh] *)
Definition CircuitBreakerCell_refresh (c : CircuitBreakerCell) (core : CircuitBreakerCore) : CircuitBreakerCell :=
  mkBreakerCell core (Cell_Set (breaker_state c) (state core)).
(** [resilience.go] [CircuitBreakerCell.Allow] *)
Definition CircuitBreakerCell_Allow (c : CircuitBreakerCell) (now : Z) : CircuitBreakerCell * bool :=
  let '(core, r) := Allow (breaker_core c) now in (CircuitBreakerCell_refresh c core, r).
(** [resilience.go] [CircuitBreakerCell.Record] *)
Definition CircuitBreakerCell_Record (c : CircuitBreakerCell) (success : bool) (now : Z) : CircuitBreakerCell :=
  CircuitBreakerCell_refresh c (Record_ (breaker_core c) success now).

(** ** Retry back-off *)

(** [resilience.go] [type RetryPolicyCore] *)
Record RetryPolicyCore := mkRetry { base : Z; cap : Z; attempt : Z }.
(** [resilience.go] [NewRetryPolicyCore] *)
Definition NewRetryPolicyCore (base capacity : Z) : RetryPolicyCore := mkRetry base capacity 0.
(** [resilience.go] [RetryPolicyCore.Delay] *)
Definition Delay (r : RetryPolicyCore) (attempt : Z) : Z :=
  if 64 <=? attempt then cap r
  else
    let shifted := u64 (Z.shiftl (base r) attempt) in
    if negb (Z.shiftr shifted attempt =? base r) then cap r
    else if shifted <? cap r then shifted else cap r.
Definition max_u32 : Z := 4294967295.
(** [resilience.go] [RetryPolicyCore.NextDelay] *)
Definition NextDelay (r : RetryPolicyCore) : RetryPolicyCore * Z :=
  let d := Delay r (attempt r) in
  (if attempt r =? max_u32 then r else mkRetry (base r) (cap r) ((attempt r + 1) mod 4294967296), d).
(** [resilience.go] [RetryPolicyCore.Reset] *)
Definition RetryPolicyCore_Reset (r : RetryPolicyCore) : RetryPolicyCore := mkRetry (base r) (cap r) 0.
(** [resilience.go] [type RetryPolicyCell] *)
Record RetryPolicyCell := mkRetryCell { retry_core : RetryPolicyCore; delay : Cell Z }.
(** [resilience.go] [NewRetryPolicyCell] *)
Definition NewRetryPolicyCell (base capacity : Z) : RetryPolicyCell := mkRetryCell (NewRetryPolicyCore base capacity) (NewCell 0).
(** [resilience.go] [RetryPolicyCell.NextDelay] *)
Definition RetryPolicyCell_NextDelay (r : RetryPolicyCell) : RetryPolicyCell * Z :=
  let '(core, d) := NextDelay (retry_core r) in (mkRetryCell core (Cell_Set (delay r) d), d).
(** [resilience.go] [RetryPolicyCell.Reset] *)
Definition RetryPolicyCell_Reset (r : RetryPolicyCell) : RetryPolicyCell :=
  mkRetryCell (RetryPolicyCore_Reset (retry_core r)) (Cell_Set (delay r) 0).

(** ** Bulkhead *)

(** [resilience.go] [type BulkheadCore] *)
Record BulkheadCore := mkBulkhead { capacity : Z; inUse : Z }.
(** [resilience.go] [NewBulkheadCore] *)
Definition NewBulkheadCore (capacity : Z) : BulkheadCore := mkBulkhead capacity 0.
(** [resilience.go] [BulkheadCore.Acquire] *)
Definition BulkheadCore_Acquire (b : BulkheadCore) : BulkheadCore * bool :=
  if inUse b <? capacity b then (mkBulkhead (capacity b) (inUse b +ᵤ 1), true) else (b, false).
(** [resilience.go] [BulkheadCore.Release] *)
Definition BulkheadCore_Release (b : BulkheadCore) : BulkheadCore :=
  if 0 <? inUse b then mkBulkhead (capacity b) (inUse b -ᵤ 1) else b.
(** [resilience.go] [type BulkheadCell] *)
Record BulkheadCell := mkBulkheadCell { bulkhead_core : BulkheadCore; bulkhead_inUse : Cell Z }.
(** [resilience.go] [NewBulkheadCell] *)
Definition NewBulkheadCell (capacity : Z) : BulkheadCell := mkBulkheadCell (NewBulkheadCore capacity) (NewCell 0).
(** [resilience.go] [BulkheadCell.refresh] *)
Definition BulkheadCell_refresh (b : BulkheadCell) (core : BulkheadCore) : BulkheadCell :=
  mkBulkheadCell core (Cell_Set (bulkhead_inUse b) (inUse core)).
(** [resilience.go] [BulkheadCell.Acquire] *)
Definition BulkheadCell_Acquire (b : BulkheadCell) : BulkheadCell * bool :=
  let '(core, r) := BulkheadCore_Acquire (bulkhead_core b) in (BulkheadCell_refresh b core, r).
(** [resilience.go] [BulkheadCell.Release] *)
Definition BulkheadCell_Release (b : BulkheadCell) : BulkheadCell := BulkheadCell_refresh b (BulkheadCore_Release (bulkhead_core b)).

(** ** Timeout *)

(** [resilience.go] [type TimeoutCore] *)
Record TimeoutCore := mkTimeout { deadline : Z; armed : bool; timedOut : bool }.
(** [resilience.go] [NewTimeoutCore] *)
Definition NewTimeoutCore : TimeoutCore := mkTimeout 0 false false.
(** [resilience.go] [TimeoutCore.Arm] *)
Definition Arm (t : TimeoutCore) (now timeout : Z) : TimeoutCore := mkTimeout (now +ᵤ timeout) true false.
(** [resilience.go] [TimeoutCore.Tick] *)
Definition TimeoutCore_Tick (t : TimeoutCore) (now : Z) : TimeoutCore * bool :=
  if armed t && negb (timedOut t) && (deadline t <=? now) then (mkTimeout (deadline t) (armed t) true, true) else (t, false).
(** [resilience.go] [type TimeoutCell] *)
Record TimeoutCell := mkTimeoutCell { timeout_core : TimeoutCore; timeout_cell : Cell bool }.
(** [resilience.go] [NewTimeoutCell] *)
Definition NewTimeoutCell : TimeoutCell := mkTimeoutCell NewTimeoutCore (NewCell false).
(** [resilience.go] [TimeoutCell.refresh] *)
Definition TimeoutCell_refresh (t : TimeoutCell) (core : TimeoutCore) : TimeoutCell :=
  mkTimeoutCell core (Cell_Set (timeout_cell t) (timedOut core)).
(** [resilience.go] [TimeoutCell.Arm] *)
Definition TimeoutCell_Arm (t : TimeoutCell) (now timeout : Z) : TimeoutCell := TimeoutCell_refresh t (Arm (timeout_core t) now timeout).
(** [resilience.go] [TimeoutCell.Tick] *)
Definition TimeoutCell_Tick (t : TimeoutCell) (now : Z) : TimeoutCell * bool :=
  let '(core, r) := TimeoutCore_Tick (timeout_core t) now in (TimeoutCell_refresh t core, r).

(** ** The breaker *)

Inductive breaker_op := BAllow (now : Z) | BRecord (success : bool) (now : Z).
Definition breaker_now (op : breaker_op) : Z := match op with BAllow now | BRecord _ now => now end.
Definition breaker_step (c : CircuitBreakerCell) (op : breaker_op) : CircuitBreakerCell * option bool :=
  match op with
  | BAllow now => let '(c, r) := CircuitBreakerCell_Allow c now in (c, Some r)
  | BRecord s now => (CircuitBreakerCell_Record c s now, None)
  end.
(** The outcomes recorded since the breaker last closed, kept beside it. *)
Definition history_step (ch : CircuitBreakerCell * list bool) (op : breaker_op) : (CircuitBreakerCell * list bool) * option bool :=
  let '(c', o) := breaker_step ch.1 op in
  ((c', match op with
        | BAllow _ => ch.2
        | BRecord s _ => match state (breaker_core ch.1) with
                         | BreakerClosed => ch.2 ++ [s] | BreakerHalfOpen => if s then [] else ch.2 | BreakerOpen => ch.2 end
        end), o).
Definition last_of (n : Z) (l : list bool) : list bool := drop (length l - Z.to_nat n) l.

Lemma trim_last n l : 0 ≤ n → trim_outcomes n l = last_of n l.
Proof.
  intros Hn. unfold last_of. induction l as [|b l IH]; [done|]. cbn [trim_outcomes]. destruct (Z.ltb_spec n (Z.of_nat (length (b :: l)))) as [H|H]; cbn [length] in *.
  - rewrite IH. by replace (S (length l) - Z.to_nat n)%nat with (S (length l - Z.to_nat n)) by lia.
  - by replace (S (length l) - Z.to_nat n)%nat with 0%nat by lia.
Qed.

Definition breaker_ok (w th rt : Z) (ch : CircuitBreakerCell * list bool) : Prop :=
  let c := breaker_core ch.1 in
  window c = w ∧ failureThreshold c = th ∧ resetTimeout c = rt ∧ cell_value (breaker_state ch.1) = state c ∧
  (state c = BreakerClosed → outcomes c = last_of w ch.2 ∧ failures (outcomes c) < th).

Lemma breaker_ok_refresh w th rt c core h :
  window core = w → failureThreshold core = th → resetTimeout core = rt →
  (state core = BreakerClosed → outcomes core = last_of w h ∧ failures (outcomes core) < th) →
  breaker_ok w th rt (CircuitBreakerCell_refresh c core, h).
Proof. intros. unfold breaker_ok. split_and!; try done. apply Cell_Set_value. Qed.

Lemma last_of_snoc w h s : 1 ≤ w → trim_outcomes w (last_of w h ++ [s]) = last_of w (h ++ [s]).
Proof.
  intros Hw. rewrite trim_last by lia. unfold last_of. rewrite !length_app, length_drop. simpl.
  rewrite <-drop_app_le by lia. rewrite drop_drop. f_equal. lia.
Qed.

Lemma breaker_step_ok w th rt ch op : 1 ≤ w → 1 ≤ th → breaker_ok w th rt ch → breaker_ok w th rt (history_step ch op).1.
Proof.
  intros Hw0 Hth0 (Hw & Hth & Hrt & Hc & Hcl). destruct ch as [[c cell] h]. cbn [fst snd breaker_core breaker_state] in *.
  destruct op as [now|s now]; unfold history_step, breaker_step; cbn [fst snd breaker_core].
  - unfold CircuitBreakerCell_Allow, Allow. cbn [breaker_core]. destruct (state c) eqn:Es.
    + apply breaker_ok_refresh; try done. intros _. by apply Hcl.
    + destruct (_ <=? _); apply breaker_ok_refresh; try done; simpl; intros; exfalso; congruence.
    + apply breaker_ok_refresh; try done; simpl; intros; exfalso; congruence.
  - unfold CircuitBreakerCell_Record, Record_. cbn [breaker_core fst]. destruct (state c) eqn:Es.
    + destruct (Hcl eq_refl) as [-> _]. rewrite Hw, last_of_snoc, Hth by done.
      destruct (Z.leb_spec th (failures (last_of w (h ++ [s])))); by apply breaker_ok_refresh.
    + apply breaker_ok_refresh; try done; simpl; intros; exfalso; congruence.
    + destruct s; apply breaker_ok_refresh; try done. intros _. split; [done|]. unfold failures. simpl. lia.
Qed.

(** The breaker trips and recovers when it says.  In every reachable state its
    cell shows its state; while closed its window is the last outcomes since it
    closed, with fewer failures than the threshold, and the next outcome opens it
    exactly when that window reaches the threshold; once open nothing recorded or
    asked before the deadline changes it or gets through, and the first call at or
    after the deadline does; from half-open a success closes with an empty window
    and a failure opens again until a new deadline.  A window or threshold below one
    counts as one. *)
Theorem Breaker_trips_and_recovers w th rt ops
    (W := if w <? 1 then 1 else w) (TH := if th <? 1 then 1 else th)
    (ch := (run history_step (NewCircuitBreakerCell w th rt, []) ops).1) (c := breaker_core ch.1) :
  cell_value (breaker_state ch.1) = state c ∧
  (state c = BreakerClosed →
    outcomes c = last_of W ch.2 ∧ failures (outcomes c) < TH ∧ (∀ now, Allow c now = (c, true)) ∧
    ∀ s now, (state (Record_ c s now) = BreakerOpen ↔ TH ≤ failures (last_of W (ch.2 ++ [s]))) ∧
      (state (Record_ c s now) = BreakerOpen → openUntil (Record_ c s now) = now +ᵤ rt)) ∧
  (state c = BreakerOpen →
    (∀ ops', Forall (λ op, breaker_now op < openUntil c) ops' →
      breaker_core (run breaker_step ch.1 ops').1 = c ∧ Forall (λ o, o ≠ Some true) (run breaker_step ch.1 ops').2) ∧
    ∀ now, openUntil c ≤ now → (Allow c now).2 = true ∧ state (Allow c now).1 = BreakerHalfOpen) ∧
  (state c = BreakerHalfOpen → ∀ now,
    (state (Record_ c true now) = BreakerClosed ∧ outcomes (Record_ c true now) = []) ∧
    (state (Record_ c false now) = BreakerOpen ∧ openUntil (Record_ c false now) = now +ᵤ rt)).
Proof.
  assert (HW : 1 ≤ W) by (unfold W; destruct (Z.ltb_spec w 1); lia).
  assert (HTH : 1 ≤ TH) by (unfold TH; destruct (Z.ltb_spec th 1); lia).
  assert (Hok : breaker_ok W TH rt ch).
  { unfold ch. apply (run_invariant history_step (λ _ _ s, breaker_ok W TH rt s)).
    - split_and!; try done. intros _. split; [done|]. unfold failures. simpl. lia.
    - intros. by apply breaker_step_ok. }
  destruct Hok as (Hw & Hth & Hrt & Hc & Hcl). fold c in Hw, Hth, Hrt, Hc, Hcl. split; [done|]. split; [|split].
  - intros Hs. destruct (Hcl Hs) as [Ho Hf]. split_and!; [done|done|intros; unfold Allow; by rewrite Hs|].
    intros s now. unfold Record_. rewrite Hs, Hth.
    rewrite Hw, Ho, last_of_snoc by done. destruct (Z.leb_spec TH (failures (last_of W (ch.2 ++ [s])))); cbn; rewrite ?Hrt; split; try done; split; try done; lia.
  - intros Hs. split.
    + intros ops' Hops.
      assert (Hst : ∀ d op, breaker_core d = c → breaker_now op < openUntil c →
        breaker_core (breaker_step d op).1 = c ∧ (breaker_step d op).2 ≠ Some true).
      { intros d op Hd Hop. destruct op as [now|s now]; cbn [breaker_now] in Hop; cbn [breaker_step].
        - unfold CircuitBreakerCell_Allow, Allow. rewrite Hd, Hs. destruct (Z.leb_spec (openUntil c) now); [lia|]. done.
        - unfold CircuitBreakerCell_Record, Record_. rewrite Hd, Hs. done. }
      revert Hops. generalize (eq_refl c : breaker_core ch.1 = c). generalize ch.1 as d. induction ops' as [|op ops' IH]; intros d Hd Hops; [done|].
      apply Forall_cons in Hops as [Hop Hops]. destruct (Hst d op Hd Hop) as [H1 H2]. cbn [run].
      destruct (breaker_step d op) as [d' o]. destruct (IH d' H1 Hops) as [H3 H4]. destruct (run breaker_step d' ops') as [d'' os].
      split; [done|]. by constructor.
    + intros now Hn. unfold Allow. rewrite Hs. by destruct (Z.leb_spec (openUntil c) now); [|lia].
  - intros Hs now. unfold Record_. rewrite Hs. cbn. by rewrite Hrt.
Qed.

(** A half-open breaker is documented to allow a single probe; it allows every
    call until an outcome is recorded. *)
Lemma half_open_allows_many :
  (run breaker_step (NewCircuitBreakerCell 4 1 10) [BRecord false 0; BAllow 5; BAllow 10; BAllow 10; BAllow 11]).2 =
    [None; Some false; Some true; Some true; Some true].
Proof. reflexivity. Qed.

(** ** Back-off *)

(** Whatever the shift overflows, the delay is the capped power of two. *)
Lemma Delay_min r a : is_u64 (base r) → is_u64 (cap r) → 0 ≤ a → a < 64 ∨ 1 ≤ base r →
  Delay r a = Z.min (cap r) (base r * 2 ^ a).
Proof.
  intros Hb Hc Ha Hz. unfold Delay. destruct (Z.leb_spec 64 a).
  - assert (2 ^ 64 ≤ 2 ^ a) by (apply Z.pow_le_mono_r; lia). change (2 ^ 64) with two64 in *. unfold is_u64 in *. nia.
  - rewrite Z.shiftl_mul_pow2 by lia. assert (Hp : 0 < 2 ^ a) by (apply Z.pow_pos_nonneg; lia).
    destruct (Z.lt_ge_cases (base r * 2 ^ a) two64) as [Hs|Hs].
    + unfold is_u64 in *. rewrite u64_small by (unfold is_u64; nia). rewrite Z.shiftr_div_pow2, Z.div_mul, Z.eqb_refl by lia. simpl.
      destruct (Z.ltb_spec (base r * 2 ^ a) (cap r)); lia.
    + assert (Hlt : Z.shiftr (u64 (base r * 2 ^ a)) a < base r).
      { rewrite Z.shiftr_div_pow2 by lia. apply Z.div_lt_upper_bound; [lia|]. pose proof (u64_range (base r * 2 ^ a)) as Hr.
        unfold is_u64 in *. nia. }
      destruct (Z.eqb_spec (Z.shiftr (u64 (base r * 2 ^ a)) a) (base r)); [lia|]. simpl. unfold is_u64 in *. lia.
Qed.

(** The delay of attempt [i]: with a zero base the cap takes over at the word size. *)
Definition backoff (b c i : Z) : Z := if decide (b = 0 ∧ 64 ≤ i) then c else Z.min c (b * 2 ^ i).
Lemma Delay_backoff b c k a : is_u64 b → is_u64 c → 0 ≤ a → Delay (mkRetry b c k) a = backoff b c a.
Proof.
  intros Hb Hc Ha. unfold backoff. case_decide as Hz.
  - unfold Delay. by destruct (Z.leb_spec 64 a); [|lia].
  - apply Delay_min; [done..|]. simpl. unfold is_u64 in Hb. lia.
Qed.
Lemma backoff_le b c i j : is_u64 b → is_u64 c → 0 ≤ i ≤ j → backoff b c i ≤ backoff b c j.
Proof.
  intros Hb Hc Hij. unfold backoff, is_u64 in *. assert (2 ^ i ≤ 2 ^ j) by (apply Z.pow_le_mono_r; lia). repeat case_decide; try lia. nia.
Qed.
Lemma backoff_cap b c i : backoff b c i ≤ c.
Proof. unfold backoff. case_decide; lia. Qed.

(** The delays of [n] calls in a row. *)
Fixpoint delays (n : nat) (r : RetryPolicyCell) : list Z * RetryPolicyCell :=
  match n with O => ([], r) | S n => let '(r, d) := RetryPolicyCell_NextDelay r in let '(ds, r) := delays n r in (d :: ds, r) end.

Lemma delays_ok b c n k cell : is_u64 b → is_u64 c → 0 ≤ k → k + Z.of_nat n ≤ max_u32 →
  (delays n (mkRetryCell (mkRetry b c k) cell)).1 = backoff b c <$> seqZ k (Z.of_nat n) ∧
  retry_core (delays n (mkRetryCell (mkRetry b c k) cell)).2 = mkRetry b c (k + Z.of_nat n) ∧
  (n ≠ 0%nat → cell_value (delay (delays n (mkRetryCell (mkRetry b c k) cell)).2) = backoff b c (k + Z.of_nat n - 1)).
Proof.
  intros Hb Hc. revert k cell. induction n as [|n IH]; intros k cell Hk Hn.
  - simpl. rewrite Z.add_0_r. by split_and!.
  - cbn [delays]. unfold RetryPolicyCell_NextDelay, NextDelay. cbn [retry_core attempt base cap delay].
    destruct (Z.eqb_spec k max_u32); [unfold max_u32 in *; lia|].
    rewrite Z.mod_small by (unfold max_u32 in *; lia).
    set (cell' := Cell_Set cell (Delay (mkRetry b c k) k)).
    destruct (IH (k + 1) cell' ltac:(lia) ltac:(lia)) as (Hd & Hr & Hv).
    assert (Hlast : n = 0%nat → cell_value (delay (delays n (mkRetryCell (mkRetry b c (k + 1)) cell')).2) = Delay (mkRetry b c k) k).
    { intros ->. cbn. apply Cell_Set_value. }
    destruct (delays n (mkRetryCell (mkRetry b c (k + 1)) cell')) as [ds r]. cbn [fst snd] in *.
    assert (Hdk : Delay (mkRetry b c k) k = backoff b c k) by by apply Delay_backoff.
    split_and!.
    + rewrite Nat2Z.inj_succ, seqZ_cons by lia. cbn [fmap list_fmap]. rewrite Hdk, Hd. f_equal. f_equal. f_equal; lia.
    + rewrite Hr. f_equal. lia.
    + intros _. destruct (decide (n = 0%nat)) as [->|Hne].
      * rewrite Hlast, Hdk by done. f_equal. lia.
      * rewrite Hv by done. f_equal. lia.
Qed.

(** C40: The back-off is exponential up to its cap, with no overflow.  From a fresh or
    reset policy the [i]-th delay is the smaller of the cap and base times two to the
    [i], although the shift is done in 64 bits; the one exception is a zero base, whose
    delays are zero for 64 attempts and the cap from then on.  Delays never decrease
    and never pass the cap; the cell shows the last one; and a reset starts the
    sequence over with a zero on the cell.  It holds for up to 2^32-1 calls since the
    policy was made or reset, where the attempt counter saturates. *)
Theorem Retry_backoff_capped b c n (prefix : nat)
    (r0 := (delays prefix (NewRetryPolicyCell b c)).2) (r := RetryPolicyCell_Reset r0) :
  is_u64 b → is_u64 c → Z.of_nat n ≤ max_u32 → Z.of_nat prefix ≤ max_u32 →
  cell_value (delay r) = 0 ∧
  (delays n r).1 = (λ i, if decide (b = 0 ∧ 64 ≤ i) then c else Z.min c (b * 2 ^ i)) <$> seqZ 0 (Z.of_nat n) ∧
  (n ≠ 0%nat → Some (cell_value (delay (delays n r).2)) = last (delays n r).1) ∧
  StronglySorted Z.le (delays n r).1 ∧ Forall (λ d, d ≤ c) (delays n r).1.
Proof.
  intros Hb Hc Hn Hp. destruct (delays_ok b c prefix 0 (NewCell 0) Hb Hc ltac:(lia) ltac:(lia)) as (_ & Hr & _).
  change (mkRetryCell (mkRetry b c 0) (NewCell 0)) with (NewRetryPolicyCell b c) in Hr. fold r0 in Hr.
  assert (Hreset : r = mkRetryCell (mkRetry b c 0) (delay r)) by (unfold r, RetryPolicyCell_Reset, RetryPolicyCore_Reset; by rewrite Hr).
  assert (H0 : cell_value (delay r) = 0) by apply Cell_Set_value. rewrite Hreset. clearbody r.
  destruct (delays_ok b c n 0 (delay r) Hb Hc ltac:(lia) ltac:(lia)) as (Hd & _ & Hv). rewrite Hd.
  split_and!; [done|done| | |].
  - intros Hne. rewrite (Hv Hne). destruct n as [|n]; [done|]. rewrite seqZ_S, fmap_app. cbn [fmap list_fmap]. rewrite last_snoc.
    f_equal. f_equal. lia.
  - assert (Hs : ∀ k m, 0 ≤ k → StronglySorted Z.le (backoff b c <$> seqZ k (Z.of_nat m))); [|by apply (Hs 0)].
    intros k m. revert k. induction m as [|m IH]; intros k Hk; [constructor|].
    rewrite Nat2Z.inj_succ, seqZ_cons by lia. cbn [fmap list_fmap]. rewrite Z.pred_succ. constructor; [apply IH; lia|].
    apply Forall_fmap, Forall_forall. intros i Hi%elem_of_seqZ. apply backoff_le; [done..|lia].
  - apply Forall_fmap, Forall_forall. intros i _. apply backoff_cap.
Qed.

Lemma Retry_backoff_capped_witness :
  (delays 4 (RetryPolicyCell_Reset (delays 3 (NewRetryPolicyCell 100 500)).2)).1 = [100; 200; 400; 500].
Proof.
  destruct (Retry_backoff_capped 100 500 4 3) as (_ & H & _); [by vm_compute|by vm_compute|by vm_compute|by vm_compute|].
  rewrite H. reflexivity.
Defined.

(** With a zero base every delay is zero until the attempt counter reaches the word
    size, when it jumps to the cap. *)
Lemma zero_base_jumps_to_cap c : is_u64 c → Delay (mkRetry 0 c 63) 63 = Z.min c 0 ∧ Delay (mkRetry 0 c 64) 64 = c.
Proof. intros Hc. split; [|done]. rewrite Delay_min; [f_equal; lia|by vm_compute|done|lia|by left]. Qed.

(** ** Bulkhead and timeout *)

Lemma Bulkhead_bounded c (acts : list bool)
    (b := foldl (λ (b : BulkheadCell) (a : bool), if a then (BulkheadCell_Acquire b).1 else BulkheadCell_Release b) (NewBulkheadCell c) acts) :
  is_u64 c →
  0 ≤ inUse (bulkhead_core b) ≤ c ∧ cell_value (bulkhead_inUse b) = inUse (bulkhead_core b) ∧
  ((BulkheadCell_Acquire b).2 = true ↔ inUse (bulkhead_core b) < c).
Proof.
  intros Hc. assert (Hinv : capacity (bulkhead_core b) = c ∧ 0 ≤ inUse (bulkhead_core b) ≤ c ∧ cell_value (bulkhead_inUse b) = inUse (bulkhead_core b)).
  { unfold b. induction acts as [|a acts IH] using rev_ind; [simpl; split_and!; try done; zrange|].
    rewrite foldl_snoc. destruct IH as (H1 & H2 & H3). set (d := foldl _ _ acts) in *. clearbody d.
    destruct a; [unfold BulkheadCell_Acquire, BulkheadCore_Acquire|unfold BulkheadCell_Release, BulkheadCore_Release].
    - destruct (Z.ltb_spec (inUse (bulkhead_core d)) (capacity (bulkhead_core d))); cbn; rewrite Cell_Set_value; [|split_and!; try done; lia].
      rewrite u64_small by zrange. split_and!; try done; lia.
    - destruct (Z.ltb_spec 0 (inUse (bulkhead_core d))); cbn; rewrite Cell_Set_value; [|split_and!; try done; lia].
      rewrite u64_small by zrange. split_and!; try done; lia. }
  clearbody b. destruct Hinv as (H1 & H2 & H3). split_and!; try done; try lia.
  unfold BulkheadCell_Acquire, BulkheadCore_Acquire. rewrite H1. destruct (Z.ltb_spec (inUse (bulkhead_core b)) c); simpl; split; try done; lia.
Qed.

(** After arming, ticks report the timeout once, at the first tick at or after the
    deadline, and the cell stays set. *)
Lemma Timeout_fires_once t now d nows (passed := existsb (λ n, now + d <=? n)) :
  is_u64 (now + d) →
  let r := run TimeoutCell_Tick (TimeoutCell_Arm t now d) nows in
  length (filter Is_true r.2) = (if passed nows then 1 else 0)%nat ∧ cell_value (timeout_cell r.1) = passed nows.
Proof.
  intros Hu r.
  assert (Hinv : timeout_core r.1 = mkTimeout (now + d) true (passed nows) ∧ cell_value (timeout_cell r.1) = passed nows ∧
    length (filter Is_true r.2) = (if passed nows then 1 else 0)%nat); [|tauto].
  unfold r. apply (run_invariant TimeoutCell_Tick (λ nows os t, timeout_core t = mkTimeout (now + d) true (passed nows) ∧
    cell_value (timeout_cell t) = passed nows ∧ length (filter Is_true os) = (if passed nows then 1 else 0)%nat)).
  - unfold TimeoutCell_Arm, TimeoutCell_refresh, Arm. rewrite u64_small by done.
    cbn [timeout_core timeout_cell timedOut]. by rewrite Cell_Set_value.
  - intros l os s n (H1 & H2 & H3). unfold TimeoutCell_Tick, TimeoutCore_Tick, TimeoutCell_refresh. rewrite H1. cbn [armed timedOut deadline].
    assert (He : passed (l ++ [n]) = passed l || (now + d <=? n)) by (unfold passed; rewrite existsb_app; simpl; by rewrite orb_false_r).
    rewrite He. destruct (passed l); cbn [fst snd andb negb orb]; [|destruct (Z.leb_spec (now + d) n)];
      cbn [fst snd timeout_core timeout_cell timedOut]; rewrite Cell_Set_value, filter_app, length_app, H3; by split_and!.
Qed.
