(* ===== verification/StdTimers.v ===== *)
(** * StdTimers: timer, timeout and revision barrier (stdlib.go)

    Deterministic primitives driven by caller-supplied ticks, each under its own
    mutex.  A caller's adapters are functions on the caller's world; the barrier
    calls its cancellation adapter outside the mutex, so the adapter of the model may
    also change the barrier, as other goroutines may meanwhile. *)

From S2P Require Import Prelude.
Local Open Scope Z_scope.

(** ** Timer *)

(** [stdlib.go] [type TimerError] *)
Inductive TimerError := TimerDeadlineOverflow | TimerClockRegression.
(** [stdlib.go] [TimerError.Error] *)
Definition TimerError_Error (e : TimerError) : string :=
  match e with TimerDeadlineOverflow => "deadline_overflow" | TimerClockRegression => "clock_regression" end.
(** [stdlib.go] [CheckedDeadline] *)
Definition CheckedDeadline (now duration : Z) : Z + TimerError :=
  if max_u64 -ᵤ now <? duration then inr TimerDeadlineOverflow else inl (now +ᵤ duration).
(** The outcome with the field it sets.
    [stdlib.go] [type TimerObservation] *)
Inductive TimerObservation := TimerPending (deadline : Z) | TimerFired (firedAt : Z) | TimerUnavailable (deadline : Z).
(** [stdlib.go] [type Timer] *)
Record Timer := mkTimer { deadline : Z; lastNow : Z; firedAt : option Z }.
(** [stdlib.go] [NewTimer] *)
Definition NewTimer (now duration : Z) : Timer + TimerError :=
  match CheckedDeadline now duration with inl d => inl (mkTimer d now None) | inr e => inr e end.
(** [stdlib.go] [Timer.Observe] *)
Definition Timer_Observe (t : Timer) (now : Z) : Timer * (TimerObservation * option TimerError) :=
  match firedAt t with
  | Some f => (t, (TimerFired f, None))
  | None =>
      if now <? lastNow t then (t, (TimerUnavailable (deadline t), Some TimerClockRegression))
      else if deadline t <=? now then (mkTimer (deadline t) now (Some now), (TimerFired now, None))
      else (mkTimer (deadline t) now None, (TimerPending (deadline t), None))
  end.

(** ** Timeout *)

(** [stdlib.go] [type TimeoutOperation] *)
Record TimeoutOperation (T : Type) := mkOperation { op_state : string; op_value : option T }.
Arguments mkOperation {T}.
Arguments op_state {T}.
Arguments op_value {T}.
(** [stdlib.go] [PendingOperation] *)
Definition PendingOperation {T} : TimeoutOperation T := mkOperation "pending" None.
(** [stdlib.go] [CompletedOperation] *)
Definition CompletedOperation {T} (v : T) : TimeoutOperation T := mkOperation "completed" (Some v).
(** [stdlib.go] [UnavailableOperation] *)
Definition UnavailableOperation {T} : TimeoutOperation T := mkOperation "unavailable" None.
(** [stdlib.go] [lines 90-96 TimeoutCancellation] *)
Inductive TimeoutCancellation := CancellationPending | CancellationCancelled | CancellationUnavailable.
(** [stdlib.go] [type TimeoutObservation] *)
Inductive TimeoutObservation (T : Type) :=
  | ObsPending (deadline : Z) | ObsTimedOut | ObsCompleted (v : option T) | ObsCancelled | ObsUnavailable (reason : string).
Arguments ObsPending {T}.
Arguments ObsTimedOut {T}.
Arguments ObsCompleted {T}.
Arguments ObsCancelled {T}.
Arguments ObsUnavailable {T}.
(** [stdlib.go] [type Timeout] *)
Record Timeout_ (T : Type) := mkTimeout { to_deadline : Z; to_lastNow : Z; terminal : option (TimeoutObservation T) }.
Arguments mkTimeout {T}.
Arguments to_deadline {T}.
Arguments to_lastNow {T}.
Arguments terminal {T}.
(** [stdlib.go] [NewTimeout] *)
Definition NewTimeout {T} (now duration : Z) : Timeout_ T + TimerError :=
  match CheckedDeadline now duration with inl d => inl (mkTimeout d now None) | inr e => inr e end.
(** [stdlib.go] [Timeout.latch] *)
Definition Timeout_latch {T} (t : Timeout_ T) (o : TimeoutObservation T) : Timeout_ T * TimeoutObservation T :=
  (mkTimeout (to_deadline t) (to_lastNow t) (Some o), o).
Section poll.
Context {T W : Type} (operation : W → W * TimeoutOperation T) (cancellation : W → W * TimeoutCancellation).
(** [stdlib.go] [Timeout.Poll] *)
Definition Poll (t : Timeout_ T) (now : Z) (w : W) : Timeout_ T * W * TimeoutObservation T :=
  match terminal t with
  | Some o => (t, w, o)
  | None =>
      if now <? to_lastNow t then
        let '(t, o) := Timeout_latch t (ObsUnavailable (TimerError_Error TimerClockRegression)) in (t, w, o)
      else
        let t := mkTimeout (to_deadline t) now None in
        if to_deadline t <=? now then let '(t, o) := Timeout_latch t ObsTimedOut in (t, w, o)
        else
          let '(w, op) := operation w in
          let '(w, cancel) := cancellation w in
          if decide (op_state op = "completed") then let '(t, o) := Timeout_latch t (ObsCompleted (op_value op)) in (t, w, o)
          else if decide (op_state op = "unavailable") then let '(t, o) := Timeout_latch t (ObsUnavailable "operation_unavailable") in (t, w, o)
          else
            match cancel with
            | CancellationCancelled => let '(t, o) := Timeout_latch t ObsCancelled in (t, w, o)
            | CancellationUnavailable => let '(t, o) := Timeout_latch t (ObsUnavailable "cancellation_unavailable") in (t, w, o)
            | CancellationPending => (t, w, ObsPending (to_deadline t))
            end
  end.
End poll.

(** ** Revision barrier *)

(** The terminal outcomes, with their reasons. *)
Inductive outcome := TimedOut | Satisfied | Cancelled | Disposed | Unavailable (reason : string).
#[export] Instance outcome_eq_dec : EqDecision outcome.
Proof. solve_decision. Defined.
(** An outcome of [None] is the string "pending".
    [stdlib.go] [type RevisionBarrierObservation] *)
Record RevisionBarrierObservation := mkBarrierObs { bo_outcome : option outcome; bo_revision : Z; bo_generation : Z }.
(** [stdlib.go] [type RevisionBarrier] *)
Record RevisionBarrier := mkBarrier {
  revision : Z; requiredRevision : Z; generation : Z; bar_deadline : option Z; bar_lastNow : option Z; bar_terminal : option outcome }.
(** [stdlib.go] [NewRevisionBarrier] *)
Definition NewRevisionBarrier (revision required : Z) (deadline : option Z) : RevisionBarrier := mkBarrier revision required 0 deadline None None.
(** [stdlib.go] [RevisionBarrier.snapshot] *)
Definition snapshot (b : RevisionBarrier) : RevisionBarrierObservation := mkBarrierObs (bar_terminal b) (revision b) (generation b).
(** [stdlib.go] [RevisionBarrier.latch] *)
Definition latch (b : RevisionBarrier) (o : outcome) : RevisionBarrier * RevisionBarrierObservation :=
  let b := mkBarrier (revision b) (requiredRevision b) (generation b) (bar_deadline b) (bar_lastNow b) (Some o) in (b, snapshot b).
(** [stdlib.go] [RevisionBarrier.acceptRevision] *)
Definition acceptRevision (b : RevisionBarrier) (r : Z) : RevisionBarrier :=
  if revision b <? r then mkBarrier r (requiredRevision b) (generation b +ᵤ 1) (bar_deadline b) (bar_lastNow b) (bar_terminal b) else b.
(** [stdlib.go] [RevisionBarrier.acceptNow] *)
Definition acceptNow (b : RevisionBarrier) (now : Z) : RevisionBarrier * option RevisionBarrierObservation :=
  if (match bar_lastNow b with Some l => now <? l | None => false end)
  then let '(b, o) := latch b (Unavailable (TimerError_Error TimerClockRegression)) in (b, Some o)
  else (mkBarrier (revision b) (requiredRevision b) (generation b) (bar_deadline b) (Some now) (bar_terminal b), None).
Definition due (b : RevisionBarrier) (now : Z) : bool := match bar_deadline b with Some d => d <=? now | None => false end.
(** [cancellation] may act on the barrier: it runs outside the mutex.
    [stdlib.go] [RevisionBarrier.Observe] *)
Definition Observe (b : RevisionBarrier) (now : Z) (predicate : bool) (cancellation : RevisionBarrier → RevisionBarrier * TimeoutCancellation) :
    RevisionBarrier * RevisionBarrierObservation :=
  match bar_terminal b with
  | Some _ => (b, snapshot b)
  | None =>
      match acceptNow b now with
      | (b, Some o) => (b, o)
      | (b, None) =>
          if due b now then latch b TimedOut
          else if predicate && (requiredRevision b <=? revision b) then latch b Satisfied
          else
            let '(b, cancelled) := cancellation b in
            match bar_terminal b with
            | Some _ => (b, snapshot b)
            | None =>
                match cancelled with
                | CancellationCancelled => latch b Cancelled
                | CancellationUnavailable => latch b (Unavailable "cancellation_unavailable")
                | CancellationPending => (b, snapshot b)
                end
            end
      end
  end.
(** [stdlib.go] [RevisionBarrier.RegisterRecheck] *)
Definition RegisterRecheck (b : RevisionBarrier) (now observedRevision : Z) (predicate : bool) : RevisionBarrier * RevisionBarrierObservation :=
  match bar_terminal b with
  | Some _ => (b, snapshot b)
  | None =>
      match acceptNow b now with
      | (b, Some o) => (b, o)
      | (b, None) =>
          if due b now then latch b TimedOut
          else
            let b := acceptRevision b observedRevision in
            if predicate && (requiredRevision b <=? revision b) then latch b Satisfied else (b, snapshot b)
      end
  end.
(** [stdlib.go] [RevisionBarrier.Advance] *)
Definition Advance (b : RevisionBarrier) (r : Z) (predicate : bool) : RevisionBarrier * RevisionBarrierObservation :=
  match bar_terminal b with
  | Some _ => (b, snapshot b)
  | None =>
      let b := acceptRevision b r in
      if predicate && (requiredRevision b <=? revision b) then latch b Satisfied else (b, snapshot b)
  end.
(** [stdlib.go] [RevisionBarrier.Dispose] *)
Definition Dispose (b : RevisionBarrier) : RevisionBarrier * RevisionBarrierObservation :=
  match bar_terminal b with None => latch b Disposed | Some _ => (b, snapshot b) end.
(** [stdlib.go] [RevisionBarrier.Receipt] *)
Definition Receipt (b : RevisionBarrier) (_ : string) : RevisionBarrier * RevisionBarrierObservation := (b, snapshot b).

(** ** Timer *)

(** A timer is refused exactly when its deadline overflows, and fires at the first
    observation at or after its deadline; from then on every observation reports
    that tick, while one that goes back before it is refused and changes nothing. *)
Lemma Timer_fires_once now duration :
  is_u64 now → is_u64 duration →
  match NewTimer now duration with
  | inr e => e = TimerDeadlineOverflow ∧ max_u64 < now + duration
  | inl t0 => now + duration ≤ max_u64 ∧
      ∀ nows, let t := foldl (λ t n, (Timer_Observe t n).1) t0 nows in
        deadline t = now + duration ∧ now ≤ lastNow t ∧
        ∀ n, match firedAt t with
             | Some f => now + duration ≤ f ∧ Timer_Observe t n = (t, (TimerFired f, None))
             | None => if decide (n < lastNow t) then Timer_Observe t n = (t, (TimerUnavailable (now + duration), Some TimerClockRegression))
                       else if decide (now + duration ≤ n) then (Timer_Observe t n).2 = (TimerFired n, None)
                       else (Timer_Observe t n).2 = (TimerPending (now + duration), None)
             end
  end.
Proof.
  intros Hn Hd. unfold NewTimer, CheckedDeadline. rewrite u64_small by zrange.
  destruct (Z.ltb_spec (max_u64 - now) duration); [split; [done|lia]|]. rewrite u64_small by zrange. split; [lia|].
  intros nows. set (t := foldl _ _ nows). assert (Hinv : deadline t = now + duration ∧ now ≤ lastNow t ∧
    (∀ f, firedAt t = Some f → now + duration ≤ f)).
  { unfold t. induction nows as [|n nows IH] using rev_ind; [by split_and!|].
    rewrite foldl_snoc. destruct IH as (H1 & H2 & H4). set (u := foldl _ _ nows) in *. clearbody u. unfold Timer_Observe.
    destruct (firedAt u) as [f|] eqn:Ef; [cbn [fst]; rewrite Ef; split_and!; naive_solver|].
    destruct (Z.ltb_spec n (lastNow u)); cbn [fst]; [by rewrite Ef|].
    rewrite H1. destruct (Z.leb_spec (now + duration) n); cbn; split_and!; try done; try lia. by intros f [= <-]. }
  destruct Hinv as (H1 & H2 & H4). split_and!; try done. intros n. unfold Timer_Observe.
  destruct (firedAt t) as [f|] eqn:Ef; [split; [by apply H4|done]|]. rewrite H1.
  destruct (Z.ltb_spec n (lastNow t)); case_decide; try lia; [done|].
  destruct (Z.leb_spec (now + duration) n); case_decide; try lia; done.
Qed.

(** ** Timeout *)

Section timeouts.
Context {T W : Type} (operation : W → W * TimeoutOperation T) (cancellation : W → W * TimeoutCancellation).

(** The state and world after polls at [nows], and the observations. *)
Definition poll_step (s : Timeout_ T * W) (now : Z) : (Timeout_ T * W) * TimeoutObservation T :=
  let '(t, w, o) := Poll operation cancellation s.1 now s.2 in ((t, w), o).
Definition both (w : W) : W := (cancellation (operation w).1).1.

(** What one round of the adapters decides: completion first, then an unavailable
    operation, then cancellation. *)
Definition verdict (d : Z) (w : W) : TimeoutObservation T :=
  let op := (operation w).2 in
  if decide (op_state op = "completed") then ObsCompleted (op_value op)
  else if decide (op_state op = "unavailable") then ObsUnavailable "operation_unavailable"
  else match (cancellation (operation w).1).2 with
       | CancellationCancelled => ObsCancelled
       | CancellationUnavailable => ObsUnavailable "cancellation_unavailable"
       | CancellationPending => ObsPending d
       end.
Definition is_pending (o : TimeoutObservation T) : bool := match o with ObsPending _ => true | _ => false end.

(** A poll asks each adapter exactly once or not at all.  Once an observation
    was terminal, every later poll repeats it and touches neither the timeout nor the
    caller's world; a poll at or after the deadline times out without asking; one
    that goes back in time is refused without asking; any other asks the operation
    and then the cancellation once each, and answers in the documented precedence;
    and whatever is not pending is latched. *)
Theorem Timeout_poll_latches (t : Timeout_ T) (w : W) now (r := Poll operation cancellation t now w) :
  (∀ o, terminal t = Some o → r = (t, w, o)) ∧
  (terminal t = None → now < to_lastNow t → r.1.2 = w ∧ r.2 = ObsUnavailable "clock_regression") ∧
  (terminal t = None → to_lastNow t ≤ now → to_deadline t ≤ now → r.1.2 = w ∧ r.2 = ObsTimedOut) ∧
  (terminal t = None → to_lastNow t ≤ now → now < to_deadline t → r.1.2 = both w ∧ r.2 = verdict (to_deadline t) w) ∧
  (terminal t = None → terminal r.1.1 = if is_pending r.2 then None else Some r.2) ∧
  ∀ nows, is_pending r.2 = false → terminal t = None →
    (run poll_step (r.1.1, r.1.2) nows) = ((r.1.1, r.1.2), (λ _, r.2) <$> nows).
Proof.
  assert (Hlatch : terminal t = None → terminal r.1.1 = if is_pending r.2 then None else Some r.2).
  { unfold r, Poll, Timeout_latch. intros ->. destruct (_ <? _); [done|]. destruct (_ <=? _); [done|].
    destruct (operation w) as [w1 op], (cancellation w1) as [w2 c]. repeat case_decide; try done. by destruct c. }
  assert (Hrep : ∀ t' w' o now', terminal t' = Some o → Poll operation cancellation t' now' w' = (t', w', o)) by (intros t' w' o now' Ht; unfold Poll; by rewrite Ht).
  split_and!; try done.
  - intros o Ho. by apply Hrep.
  - unfold r, Poll. intros -> Hn. by rewrite (proj2 (Z.ltb_lt _ _) Hn).
  - unfold r, Poll. intros -> Hn Hd. rewrite (proj2 (Z.ltb_ge _ _) Hn). cbn [to_deadline]. by rewrite (proj2 (Z.leb_le _ _) Hd).
  - unfold r, Poll, verdict, both. intros -> Hn Hd. rewrite (proj2 (Z.ltb_ge _ _) Hn). cbn [to_deadline]. rewrite (proj2 (Z.leb_gt _ _) Hd).
    destruct (operation w) as [w1 op]; cbn [fst snd]. destruct (cancellation w1) as [w2 c]; cbn [fst snd].
    repeat case_decide; try done. by destruct c.
  - intros nows Hp Ht. rewrite Hp in Hlatch. specialize (Hlatch Ht). clearbody r. destruct r as [[t' w'] o]. cbn [fst snd] in *.
    induction nows as [|n nows IH]; [done|]. cbn [run]. unfold poll_step at 1. cbn [fst snd]. rewrite (Hrep t' w' o n Hlatch). by rewrite IH.
Qed.
End timeouts.

(** ** Revision barrier *)

(** Everything that can happen to a barrier: its operations, the observation with
    whatever its cancellation adapter lets happen meanwhile. *)
Inductive barrier_steps : RevisionBarrier → RevisionBarrier → Prop :=
  | bs_refl b : barrier_steps b b
  | bs_trans b1 b2 b3 : barrier_steps b1 b2 → barrier_steps b2 b3 → barrier_steps b1 b3
  | bs_observe b now p canc : (∀ b0, barrier_steps b0 (canc b0).1) → barrier_steps b (Observe b now p canc).1
  | bs_register b now rev p : barrier_steps b (RegisterRecheck b now rev p).1
  | bs_advance b rev p : barrier_steps b (Advance b rev p).1
  | bs_dispose b : barrier_steps b (Dispose b).1
  | bs_receipt b s : barrier_steps b (Receipt b s).1.

(** A terminal outcome is justified by what the barrier holds. *)
Definition barrier_wf (b : RevisionBarrier) : Prop :=
  (bar_terminal b = Some Satisfied → requiredRevision b ≤ revision b) ∧
  (bar_terminal b = Some TimedOut → ∃ d l, bar_deadline b = Some d ∧ bar_lastNow b = Some l ∧ d ≤ l).

Definition le_now (a b : option Z) : Prop := match a, b with Some x, Some y => x ≤ y | Some _, None => False | None, _ => True end.

(** What no operation can undo: the outcome, the bounds, the revision and the clock;
    and the generation counts revision advances only. *)
Record barrier_le (b b' : RevisionBarrier) : Prop := {
  bl_latch : is_Some (bar_terminal b) → b' = b;
  bl_required : requiredRevision b' = requiredRevision b;
  bl_deadline : bar_deadline b' = bar_deadline b;
  bl_revision : revision b ≤ revision b';
  bl_clock : le_now (bar_lastNow b) (bar_lastNow b');
  bl_generation : ∃ k : Z, generation b' = u64 (generation b + k) ∧ 0 ≤ k ≤ revision b' - revision b ∧ (k = 0 → revision b' = revision b);
  bl_wf : barrier_wf b → barrier_wf b';
}.

Definition gen_ok (b : RevisionBarrier) : Prop := is_u64 (generation b).

Lemma le_now_refl a : le_now a a.
Proof. destruct a; simpl; [lia|done]. Qed.

Lemma barrier_le_refl b : gen_ok b → barrier_le b b.
Proof. intros Hg. split; try done; try lia; [apply le_now_refl|]. exists 0. rewrite Z.add_0_r, u64_small by done. split_and!; lia. Qed.

Lemma barrier_le_trans a b c : barrier_le a b → barrier_le b c → barrier_le a c.
Proof.
  intros [a1 a2 a3 a4 a5 (k & a6 & a7 & a8) a9] [b1 b2 b3 b4 b5 (k' & b6 & b7 & b8) b9]. split; try (congruence || lia || auto).
  - intros Ha. rewrite (a1 Ha) in *. auto.
  - destruct (bar_lastNow a), (bar_lastNow b), (bar_lastNow c); simpl in *; try done; lia.
  - exists (k + k'). rewrite b6, a6. unfold u64. rewrite Zplus_mod_idemp_l, Z.add_assoc. by split_and!; try lia.
Qed.

Section barrier_micro.
Variable b : RevisionBarrier.
Hypothesis Hg : gen_ok b.

Lemma latch_le o :
  bar_terminal b = None → (o = Satisfied → requiredRevision b ≤ revision b) →
  (o = TimedOut → ∃ d l, bar_deadline b = Some d ∧ bar_lastNow b = Some l ∧ d ≤ l) → barrier_le b (latch b o).1.
Proof.
  intros Ht Hs Hd. split; try done; [rewrite Ht; by intros []|apply le_now_refl| |].
  - exists 0. simpl. rewrite Z.add_0_r, u64_small by done. split_and!; lia.
  - intros _. split; simpl; intros [= ->]; auto.
Qed.

Lemma acceptRevision_le r : bar_terminal b = None → barrier_le b (acceptRevision b r) ∧ bar_terminal (acceptRevision b r) = None ∧ gen_ok (acceptRevision b r).
Proof.
  intros Ht. unfold acceptRevision. destruct (Z.ltb_spec (revision b) r); [|split_and!; [by apply barrier_le_refl|done|done]].
  split_and!; [|done|apply u64_range]. split; try done; simpl; [rewrite Ht; by intros []|lia|apply le_now_refl| |].
  - exists 1. split_and!; lia.
  - intros _. split; simpl; by rewrite Ht.
Qed.

Lemma acceptNow_le now : bar_terminal b = None →
  barrier_le b (acceptNow b now).1 ∧ gen_ok (acceptNow b now).1 ∧
  ((acceptNow b now).2 = None → bar_terminal (acceptNow b now).1 = None ∧ bar_lastNow (acceptNow b now).1 = Some now).
Proof.
  intros Ht. unfold acceptNow. destruct (match bar_lastNow b with Some l => now <? l | None => false end) eqn:E.
  - split_and!; [by apply latch_le|done|done].
  - split_and!; [|done|done]. split; try done; simpl; [rewrite Ht; by intros []| | |].
    + destruct (bar_lastNow b); simpl; [apply Z.ltb_ge in E; lia|done].
    + exists 0. rewrite Z.add_0_r, u64_small by done. split_and!; lia.
    + intros _. split; simpl; by rewrite Ht.
Qed.
End barrier_micro.

Lemma latch_due b now : gen_ok b → bar_terminal b = None → bar_lastNow b = Some now → due b now = true → barrier_le b (latch b TimedOut).1.
Proof.
  intros Hg Ht Hl Hd. apply latch_le; try done. intros _. unfold due in Hd. destruct (bar_deadline b) as [d|]; [|done].
  exists d, now. split_and!; try done. by apply Z.leb_le.
Qed.
Lemma latch_satisfied b p : gen_ok b → bar_terminal b = None → p && (requiredRevision b <=? revision b) = true → barrier_le b (latch b Satisfied).1.
Proof. intros Hg Ht [_ Hd]%andb_true_iff. apply latch_le; try done. intros _. by apply Z.leb_le. Qed.

Lemma barrier_steps_le b b' : barrier_steps b b' → gen_ok b → barrier_le b b' ∧ gen_ok b'.
Proof.
  assert (Hend : ∀ a c, gen_ok a → barrier_le a c → barrier_le a c ∧ gen_ok c).
  { intros a c _ Hl. split; [done|]. unfold gen_ok. destruct (bl_generation _ _ Hl) as (k & -> & _). apply u64_range. }
  induction 1 as [b|b1 b2 b3 _ IH1 _ IH2|b now p canc _ IH|b now rev p|b rev p|b|b s]; intros Hg; try (apply Hend; [done|]).
  - by apply barrier_le_refl.
  - destruct (IH1 Hg) as [H1 G1]. destruct (IH2 G1) as [H2 G2]. by eapply barrier_le_trans.
  - unfold Observe. destruct (bar_terminal b) eqn:Et; [by apply barrier_le_refl|].
    destruct (acceptNow_le b Hg now Et) as (L1 & G1 & N1). destruct (acceptNow b now) as [b1 [o|]]; [done|]. cbn [fst snd] in *.
    destruct (N1 eq_refl) as [T1 C1]. eapply barrier_le_trans; [exact L1|].
    destruct (due b1 now) eqn:Ed; [by apply (latch_due b1 now)|].
    destruct (p && _) eqn:Ep; [by apply (latch_satisfied b1 p)|].
    specialize (IH b1 G1) as [L2 G2]. destruct (canc b1) as [b2 v]. cbn [fst] in *. eapply barrier_le_trans; [exact L2|].
    destruct (bar_terminal b2) eqn:T2; [by apply barrier_le_refl|]. destruct v; [by apply barrier_le_refl|by apply latch_le..].
  - unfold RegisterRecheck. destruct (bar_terminal b) eqn:Et; [by apply barrier_le_refl|].
    destruct (acceptNow_le b Hg now Et) as (L1 & G1 & N1). destruct (acceptNow b now) as [b1 [o|]]; [done|]. cbn [fst snd] in *.
    destruct (N1 eq_refl) as [T1 C1]. eapply barrier_le_trans; [exact L1|].
    destruct (due b1 now) eqn:Ed; [by apply (latch_due b1 now)|].
    destruct (acceptRevision_le b1 G1 rev T1) as (L2 & T2 & G2). eapply barrier_le_trans; [exact L2|].
    destruct (p && _) eqn:Ep; [by apply (latch_satisfied _ p)|by apply barrier_le_refl].
  - unfold Advance. destruct (bar_terminal b) eqn:Et; [by apply barrier_le_refl|].
    destruct (acceptRevision_le b Hg rev Et) as (L2 & T2 & G2). eapply barrier_le_trans; [exact L2|].
    destruct (p && _) eqn:Ep; [by apply (latch_satisfied _ p)|by apply barrier_le_refl].
  - unfold Dispose. destruct (bar_terminal b) eqn:Et; [by apply barrier_le_refl|]. by apply latch_le.
  - by apply barrier_le_refl.
Qed.

(** A revision barrier cannot be fooled.  Starting from a fresh barrier, along any
    sequence of observations, registrations, advances, receipts and disposal, where
    other operations may run inside an observation while it asks whether it was
    cancelled: the revision and the clock never go back; the generation has moved
    exactly when the revision has, and at most as often; a barrier reported satisfied
    holds at least the required revision and one reported timed out has seen its
    deadline; and an outcome once latched is final, whatever happens later. *)
Theorem Barrier_latches_justified rev req dl b b' :
  barrier_steps (NewRevisionBarrier rev req dl) b → barrier_steps b b' →
  revision b ≤ revision b' ∧ le_now (bar_lastNow b) (bar_lastNow b') ∧
  (∃ k, generation b' = u64 (generation b + k) ∧ 0 ≤ k ≤ revision b' - revision b ∧ (k = 0 → revision b' = revision b)) ∧
  (bar_terminal b = Some Satisfied → req ≤ revision b) ∧
  (bar_terminal b = Some TimedOut → ∃ d l, dl = Some d ∧ bar_lastNow b = Some l ∧ d ≤ l) ∧
  (is_Some (bar_terminal b) → b' = b).
Proof.
  intros H1 H2. destruct (barrier_steps_le _ _ H1) as [[_ L1 L2 _ _ _ L3] G]; [by vm_compute|].
  destruct (barrier_steps_le _ _ H2 G) as [[M1 _ _ M2 M3 M4 _] _].
  destruct L3 as [W1 W2]; [by split|]. simpl in L1, L2. rewrite L1, L2 in *. by split_and!.
Qed.

(** While the observer asks for a cancellation that is granted, another goroutine
    brings the required revision: the barrier is satisfied and stays so. *)
Definition race : RevisionBarrier → RevisionBarrier * TimeoutCancellation :=
  λ b, ((Advance b 5 true).1, CancellationCancelled).

Lemma Barrier_latches_justified_witness :
  let b := (Observe (NewRevisionBarrier 1 5 (Some 100)) 10 true race).1 in
  bar_terminal b = Some Satisfied ∧ 5 ≤ revision b ∧ (Dispose b).1 = b.
Proof.
  intros b. assert (H1 : barrier_steps (NewRevisionBarrier 1 5 (Some 100)) b) by (apply bs_observe; intros b0; apply bs_advance).
  destruct (Barrier_latches_justified 1 5 (Some 100) b (Dispose b).1 H1 (bs_dispose b)) as (_ & _ & _ & Hs & _ & Hl).
  split_and!; [reflexivity|by apply Hs|]. apply Hl. by eexists.
Defined.
