(* ===== verification/Receipts.v ===== *)
(** * Receipts: the causal receipt ledger (causal_receipts.go)

    A projection folds receipts keyed by a receipt id and a causation id: it
    deduplicates, sets receipts of another generation aside, keeps the latest and
    the terminal receipt of a causation and refuses a second, different outcome.  The
    ledger is a function of the log of receipts and the answers given to them. *)

From S2P Require Import Prelude.
Local Open Scope Z_scope.

(** Wire values outside the enumeration are refused when decoded.
    [receipts_wire_gen.go] [lines 44-55 ReceiptOutcome] *)
Inductive ReceiptOutcome := Observed | Accepted | Applied | Rejected.
#[export] Instance ReceiptOutcome_eq_dec : EqDecision ReceiptOutcome.
Proof. solve_decision. Defined.
(** [receipts_wire_gen.go] [ReceiptOutcomeFromWire] *)
Definition ReceiptOutcomeFromWire (v : string) : option ReceiptOutcome :=
  if decide (v = "observed") then Some Observed else if decide (v = "accepted") then Some Accepted
  else if decide (v = "applied") then Some Applied else if decide (v = "rejected") then Some Rejected else None.
(** [causal_receipts.go] [ReceiptOutcome.IsTerminal] *)
Definition outcome_terminal (o : ReceiptOutcome) : bool := match o with Applied | Rejected => true | _ => false end.

(** [receipts_wire_gen.go] [type CausalReceipt] *)
Record CausalReceipt := mkReceipt {
  ReceiptId : string; CausationId : string; Observer : string; Generation : Z; Outcome : ReceiptOutcome;
  Reason : option string; PayloadHash : option string }.
(** [causal_receipts.go] [CausalReceipt.IsTerminal] *)
Definition IsTerminal (r : CausalReceipt) : bool := outcome_terminal (Outcome r).
(** [causal_receipts.go] [NewCausalReceipt] *)
Definition NewCausalReceipt (receiptId causationId observer : string) (generation : Z) (outcome : ReceiptOutcome) : CausalReceipt :=
  mkReceipt receiptId causationId observer generation outcome None None.
(** [causal_receipts.go] [ObservedReceipt] *)
Definition ObservedReceipt (receiptId causationId observer : string) (generation : Z) := NewCausalReceipt receiptId causationId observer generation Observed.
(** [causal_receipts.go] [AcceptedReceipt] *)
Definition AcceptedReceipt (receiptId causationId observer : string) (generation : Z) := NewCausalReceipt receiptId causationId observer generation Accepted.
(** [causal_receipts.go] [AppliedReceipt] *)
Definition AppliedReceipt (receiptId causationId observer : string) (generation : Z) := NewCausalReceipt receiptId causationId observer generation Applied.
(** [causal_receipts.go] [RejectedReceipt] *)
Definition RejectedReceipt (receiptId causationId observer : string) (generation : Z) := NewCausalReceipt receiptId causationId observer generation Rejected.
(** [causal_receipts.go] [CausalReceipt.WithReason] *)
Definition WithReason (r : CausalReceipt) (reason : string) : CausalReceipt :=
  mkReceipt (ReceiptId r) (CausationId r) (Observer r) (Generation r) (Outcome r) (Some reason) (PayloadHash r).
(** [causal_receipts.go] [CausalReceipt.WithPayloadHash] *)
Definition WithPayloadHash (r : CausalReceipt) (hash : string) : CausalReceipt :=
  mkReceipt (ReceiptId r) (CausationId r) (Observer r) (Generation r) (Outcome r) (Reason r) (Some hash).

(** The sealed union of answers.
    [causal_receipts.go] [lines 120-158 ReceiptApplyStatus] *)
Inductive ReceiptApplyStatus :=
  | ReceiptRecorded | ReceiptDuplicate | ReceiptStaleGeneration (expected actual : Z)
  | ReceiptTerminalConflict (causationId : string) (existing incoming : ReceiptOutcome).
#[export] Instance ReceiptApplyStatus_eq_dec : EqDecision ReceiptApplyStatus.
Proof. solve_decision. Defined.

(** [causal_receipts.go] [type ReceiptProjection] *)
Record ReceiptProjection := mkProjection {
  receiptsById : gmap string CausalReceipt; latestByCausation : gmap string CausalReceipt;
  terminalByCausation : gmap string CausalReceipt; staleReceiptIds : gset string; currentGeneration : Z }.
(** The maps [ensure] would create are there from the start.
    [causal_receipts.go] [NewReceiptProjection] *)
Definition NewReceiptProjection : ReceiptProjection := mkProjection ∅ ∅ ∅ ∅ 0.
(** [causal_receipts.go] [ReceiptProjection.ReceiptCount] *)
Definition ReceiptCount (p : ReceiptProjection) : nat := size (receiptsById p) + size (staleReceiptIds p).
(** [causal_receipts.go] [ReceiptProjection.ContainsReceipt] *)
Definition ContainsReceipt (p : ReceiptProjection) (id : string) : bool :=
  bool_decide (is_Some (receiptsById p !! id)) || bool_decide (id ∈ staleReceiptIds p).
(** The last two assignments of [Observe].
    [causal_receipts.go] [lines 255-257 ReceiptProjection.Observe] *)
Definition record_receipt (p : ReceiptProjection) (r : CausalReceipt) (terminal : gmap string CausalReceipt) : ReceiptProjection * ReceiptApplyStatus :=
  (mkProjection (<[ReceiptId r := r]> (receiptsById p)) (<[CausationId r := r]> (latestByCausation p)) terminal (staleReceiptIds p) (currentGeneration p),
   ReceiptRecorded).
(** The terminal rule: the first outcome wins, another one fails closed.
    [causal_receipts.go] [lines 241-257 ReceiptProjection.Observe] *)
Definition settle (p : ReceiptProjection) (r : CausalReceipt) : ReceiptProjection * ReceiptApplyStatus :=
  if IsTerminal r then
    match terminalByCausation p !! CausationId r with
    | Some existing =>
        if decide (Outcome existing = Outcome r) then record_receipt p r (terminalByCausation p)
        else (p, ReceiptTerminalConflict (CausationId r) (Outcome existing) (Outcome r))
    | None => record_receipt p r (<[CausationId r := r]> (terminalByCausation p))
    end
  else record_receipt p r (terminalByCausation p).
(** [causal_receipts.go] [ReceiptProjection.Observe] *)
Definition Observe (p : ReceiptProjection) (current : option Z) (r : CausalReceipt) : ReceiptProjection * ReceiptApplyStatus :=
  if ContainsReceipt p (ReceiptId r) then (p, ReceiptDuplicate)
  else
    match current with
    | Some g =>
        let cur := if currentGeneration p <? g then g else currentGeneration p in
        if decide (Generation r = g) then settle (mkProjection (receiptsById p) (latestByCausation p) (terminalByCausation p) (staleReceiptIds p) cur) r
        else (mkProjection (receiptsById p) (latestByCausation p) (terminalByCausation p) ({[ReceiptId r]} ∪ staleReceiptIds p) cur,
              ReceiptStaleGeneration g (Generation r))
    | None => settle p r
    end.
(** [causal_receipts.go] [ReceiptProjection.LatestFor] *)
Definition LatestFor (p : ReceiptProjection) (causation : string) : option CausalReceipt := latestByCausation p !! causation.
(** [causal_receipts.go] [ReceiptProjection.TerminalFor] *)
Definition TerminalFor (p : ReceiptProjection) (causation : string) : option CausalReceipt := terminalByCausation p !! causation.

(** ** The ledger and its log *)

Definition observe_step (p : ReceiptProjection) (i : option Z * CausalReceipt) : ReceiptProjection * ReceiptApplyStatus := Observe p i.1 i.2.

(** The receipts answered as recorded and as stale, in order. *)
Definition recorded (l : list (option Z * CausalReceipt)) (os : list ReceiptApplyStatus) : list CausalReceipt :=
  (filter (λ io, io.2 = ReceiptRecorded) (zip l os)).*1.*2.
Definition is_stale (s : ReceiptApplyStatus) : bool := match s with ReceiptStaleGeneration _ _ => true | _ => false end.
Definition set_aside (l : list (option Z * CausalReceipt)) (os : list ReceiptApplyStatus) : list CausalReceipt :=
  (filter (λ io, is_stale io.2 = true) (zip l os)).*1.*2.

Definition about (c : string) (rs : list CausalReceipt) : list CausalReceipt := filter (λ r, CausationId r = c) rs.
Definition terminals (c : string) (rs : list CausalReceipt) : list CausalReceipt := filter (λ r, CausationId r = c ∧ IsTerminal r = true) rs.

Record ledger_ok (rs aside : list CausalReceipt) (p : ReceiptProjection) : Prop := {
  lk_by_id id r : receiptsById p !! id = Some r ↔ r ∈ rs ∧ ReceiptId r = id;
  lk_nodup : NoDup (ReceiptId <$> rs);
  lk_latest c : latestByCausation p !! c = last (about c rs);
  lk_terminal c : terminalByCausation p !! c = head (terminals c rs);
  lk_agree r r' : r ∈ rs → r' ∈ rs → IsTerminal r = true → IsTerminal r' = true → CausationId r = CausationId r' → Outcome r = Outcome r';
  lk_stale id : id ∈ staleReceiptIds p ↔ id ∈ ReceiptId <$> aside;
  lk_apart id : id ∈ ReceiptId <$> rs → id ∉ ReceiptId <$> aside;
}.

Lemma ledger_contains rs aside p id : ledger_ok rs aside p → ContainsReceipt p id = true ↔ id ∈ ReceiptId <$> rs ++ aside.
Proof.
  intros H. unfold ContainsReceipt. rewrite orb_true_iff, !bool_decide_eq_true, (lk_stale _ _ _ H), fmap_app, elem_of_app. apply or_iff_compat_r.
  rewrite list_elem_of_fmap. split.
  - intros [r Hr]. apply (lk_by_id _ _ _ H) in Hr as [? <-]. by exists r.
  - intros (r & -> & Hr). exists r. by apply (lk_by_id _ _ _ H).
Qed.

Lemma ledger_cur rs aside p g :
  ledger_ok rs aside p → ledger_ok rs aside (mkProjection (receiptsById p) (latestByCausation p) (terminalByCausation p) (staleReceiptIds p) g).
Proof. by intros []. Qed.

Lemma ledger_record rs aside p r t :
  ledger_ok rs aside p → ReceiptId r ∉ ReceiptId <$> rs ++ aside →
  (∀ c, t !! c = head (terminals c (rs ++ [r]))) →
  (IsTerminal r = true → ∀ r', r' ∈ rs → IsTerminal r' = true → CausationId r' = CausationId r → Outcome r' = Outcome r) →
  ledger_ok (rs ++ [r]) aside (record_receipt p r t).1.
Proof.
  intros H Hnew Ht Hag. rewrite fmap_app, not_elem_of_app in Hnew. destruct Hnew as [Hn1 Hn2]. split; simpl.
  - intros id r'. rewrite lookup_insert_Some, (lk_by_id _ _ _ H), elem_of_app, list_elem_of_singleton. split.
    + intros [[<- <-]|[? [? <-]]]; auto.
    + intros [[Hr' | ->] <-]; [right|by left]. split; [|done]. intros Heq. apply Hn1. rewrite Heq. by apply list_elem_of_fmap_2.
  - rewrite fmap_app. apply NoDup_app. split_and!; [apply (lk_nodup _ _ _ H)|set_solver|apply NoDup_singleton].
  - intros c. unfold about. rewrite filter_app, filter_cons, filter_nil. destruct (decide (CausationId r = c)) as [<-|Hne].
    + by rewrite lookup_insert_eq, last_snoc.
    + rewrite lookup_insert_ne, app_nil_r by done. apply (lk_latest _ _ _ H).
  - exact Ht.
  - intros a b [Ha|Ha%list_elem_of_singleton]%elem_of_app [Hb|Hb%list_elem_of_singleton]%elem_of_app Hta Htb Hc; subst; auto.
    + by apply (lk_agree _ _ _ H).
    + symmetry. by apply Hag.
  - apply (lk_stale _ _ _ H).
  - intros id. rewrite fmap_app, elem_of_app; cbn [fmap list_fmap]; rewrite list_elem_of_singleton. intros [Hid| ->]; [by apply (lk_apart _ _ _ H)|done].
Qed.

Lemma terminals_snoc c rs r : terminals c (rs ++ [r]) = terminals c rs ++ (if decide (CausationId r = c ∧ IsTerminal r = true) then [r] else []).
Proof. unfold terminals. by rewrite filter_app, filter_cons, filter_nil. Qed.

Lemma terminals_elem c rs r : r ∈ terminals c rs ↔ CausationId r = c ∧ IsTerminal r = true ∧ r ∈ rs.
Proof. unfold terminals. rewrite list_elem_of_filter. tauto. Qed.

Lemma ledger_settle rs aside p r :
  ledger_ok rs aside p → ReceiptId r ∉ ReceiptId <$> rs ++ aside →
  ((settle p r).2 = ReceiptRecorded → ledger_ok (rs ++ [r]) aside (settle p r).1) ∧
  ((settle p r).2 ≠ ReceiptRecorded → (settle p r).1 = p ∧ is_stale (settle p r).2 = false).
Proof.
  intros H Hnew. unfold settle. destruct (IsTerminal r) eqn:Et.
  - destruct (terminalByCausation p !! CausationId r) as [e|] eqn:Ee.
    + rewrite (lk_terminal _ _ _ H) in Ee. apply head_Some_elem_of in Ee as He. apply terminals_elem in He as (Hec & Het & Her).
      case_decide as Ho; [|split; [done|by intros _]]. split; [intros _|done]. apply ledger_record; try done.
      * intros c. rewrite terminals_snoc, (lk_terminal _ _ _ H). case_decide as Hc; [|by rewrite app_nil_r]. destruct Hc as [<- _].
        destruct (terminals (CausationId r) rs); [done|]. done.
      * intros _ r' Hr' Ht' Hc'. rewrite <-Ho. apply (lk_agree _ _ _ H); congruence.
    + rewrite (lk_terminal _ _ _ H), head_None in Ee. split; [intros _|done]. apply ledger_record; try done.
      * intros c. rewrite terminals_snoc. destruct (decide (CausationId r = c)) as [<-|Hne].
        -- by rewrite lookup_insert_eq, decide_True, Ee by done.
        -- rewrite lookup_insert_ne, decide_False, app_nil_r by naive_solver. apply (lk_terminal _ _ _ H).
      * intros _ r' Hr' Ht' Hc'. exfalso. assert (Hin : r' ∈ terminals (CausationId r) rs) by (by apply terminals_elem).
        rewrite Ee in Hin. by apply not_elem_of_nil in Hin.
  - split; [intros _|done]. apply ledger_record; try done; [|by rewrite Et].
    intros c. rewrite terminals_snoc, decide_False, app_nil_r by naive_solver congruence. apply (lk_terminal _ _ _ H).
Qed.

Lemma observe_step_ok rs aside p i :
  ledger_ok rs aside p →
  ledger_ok (rs ++ (if decide ((observe_step p i).2 = ReceiptRecorded) then [i.2] else []))
    (aside ++ (if is_stale (observe_step p i).2 then [i.2] else [])) (observe_step p i).1.
Proof.
  intros H. destruct i as [g r]. unfold observe_step, Observe. cbn [fst snd].
  pose proof (ledger_contains rs aside p (ReceiptId r) H) as Hc.
  destruct (ContainsReceipt p (ReceiptId r)); [by rewrite !app_nil_r|].
  assert (Hnew : ReceiptId r ∉ ReceiptId <$> rs ++ aside) by (rewrite <-Hc; done). clear Hc.
  assert (Hsettle : ∀ q, ledger_ok rs aside q →
    ledger_ok (rs ++ (if decide ((settle q r).2 = ReceiptRecorded) then [r] else [])) (aside ++ (if is_stale (settle q r).2 then [r] else [])) (settle q r).1).
  { intros q Hq. destruct (ledger_settle rs aside q r Hq Hnew) as [H1 H2]. case_decide as Hd.
    - rewrite Hd. rewrite app_nil_r. by apply H1.
    - destruct (H2 Hd) as [-> ->]. by rewrite !app_nil_r. }
  destruct g as [g|]; [|by apply Hsettle]. destruct (decide (Generation r = g)); [by apply Hsettle, ledger_cur|]. cbn [fst snd is_stale]. rewrite decide_False, app_nil_r by done.
  rewrite fmap_app, not_elem_of_app in Hnew. destruct Hnew as [Hn1 Hn2]. destruct H as [h1 h2 h3 h4 h5 h6 h7]. split; simpl; try done.
  - intros id. rewrite fmap_app, elem_of_union, elem_of_singleton, h6, elem_of_app. cbn [fmap list_fmap]. rewrite list_elem_of_singleton. tauto.
  - intros id Hid. rewrite fmap_app, not_elem_of_app. split; [by apply h7|]. cbn [fmap list_fmap]. rewrite list_elem_of_singleton. by intros ->.
Qed.

Lemma recorded_snoc l os i o : length os = length l → recorded (l ++ [i]) (os ++ [o]) = recorded l os ++ (if decide (o = ReceiptRecorded) then [i.2] else []).
Proof. intros Hl. unfold recorded. rewrite zip_with_app by done. simpl. rewrite filter_app, filter_cons, filter_nil. simpl. case_decide; by rewrite !fmap_app. Qed.
Lemma set_aside_snoc l os i o : length os = length l → set_aside (l ++ [i]) (os ++ [o]) = set_aside l os ++ (if is_stale o then [i.2] else []).
Proof.
  intros Hl. unfold set_aside. rewrite zip_with_app by done. simpl. rewrite filter_app, filter_cons, filter_nil. simpl.
  destruct (is_stale o); [rewrite decide_True by done|rewrite decide_False by done]; by rewrite !fmap_app.
Qed.

(** The ledger is the log of what it recorded.  After any receipts, under whatever
    current generations, the ledger by id holds exactly the recorded receipts, each id
    once; the latest receipt of a causation is the last one recorded and the terminal
    one is the first terminal one recorded, and no two recorded outcomes of one
    causation differ; exactly the ids answered as stale are set aside and none of
    them was recorded; and a receipt whose id was recorded or set aside is answered as
    a duplicate and changes nothing, so redelivery is harmless. *)
Theorem Receipts_ledger_is_log (l : list (option Z * CausalReceipt)) g r
    (res := run observe_step NewReceiptProjection l) (rs := recorded l res.2) (aside := set_aside l res.2) (p := res.1) :
  (∀ id x, receiptsById p !! id = Some x ↔ x ∈ rs ∧ ReceiptId x = id) ∧ NoDup (ReceiptId <$> rs) ∧
  (∀ c, LatestFor p c = last (about c rs)) ∧ (∀ c, TerminalFor p c = head (terminals c rs)) ∧
  (∀ x y, x ∈ rs → y ∈ rs → IsTerminal x = true → IsTerminal y = true → CausationId x = CausationId y → Outcome x = Outcome y) ∧
  (∀ id, id ∈ staleReceiptIds p ↔ id ∈ ReceiptId <$> aside) ∧ (∀ id, id ∈ ReceiptId <$> rs → id ∉ ReceiptId <$> aside) ∧
  ((Observe p g r).2 = ReceiptDuplicate ↔ ReceiptId r ∈ ReceiptId <$> rs ++ aside) ∧
  ((Observe p g r).2 = ReceiptDuplicate → (Observe p g r).1 = p).
Proof.
  assert (Hok : length res.2 = length l ∧ ledger_ok rs aside p).
  { unfold rs, aside, p, res. apply (run_invariant observe_step (λ l os p, length os = length l ∧ ledger_ok (recorded l os) (set_aside l os) p)).
    - split; [done|]. split; simpl; try done; try set_solver; try constructor; set_solver.
    - intros l' os s i [Hl Hs]. rewrite !length_app. split; [simpl; lia|]. rewrite recorded_snoc, set_aside_snoc by done. by apply observe_step_ok. }
  destruct Hok as [_ Hok]. pose proof (ledger_contains _ _ _ (ReceiptId r) Hok) as Hc. clearbody rs aside p. clear res.
  assert (Hnd : ∀ q, (settle q r).2 ≠ ReceiptDuplicate).
  { intros q. unfold settle. destruct (IsTerminal r); [|done]. destruct (terminalByCausation q !! CausationId r); [|done]. by case_decide. }
  destruct Hok as [h1 h2 h3 h4 h5 h6 h7]. split_and!; try done.
  - rewrite <-Hc. unfold Observe. destruct (ContainsReceipt p (ReceiptId r)); [done|]. split; [|done].
    destruct g as [g|]; [case_decide|]; intros Heq; by destruct (Hnd _ Heq) || done.
  - unfold Observe. destruct (ContainsReceipt p (ReceiptId r)); [done|].
    destruct g as [g|]; [case_decide|]; intros Heq; by destruct (Hnd _ Heq) || done.
Qed.

(** A command is observed, applied, then rejected by another observer, while a
    receipt of an old generation straggles in. *)
Lemma Receipts_demo :
  (run observe_step NewReceiptProjection
    [(Some 2, ObservedReceipt "r1" "cmd" "a" 2); (Some 2, AppliedReceipt "r2" "cmd" "a" 2); (Some 2, RejectedReceipt "r3" "cmd" "b" 2);
     (Some 2, AppliedReceipt "r4" "cmd" "b" 1); (Some 2, AppliedReceipt "r2" "cmd" "a" 2); (None, RejectedReceipt "r3" "cmd" "b" 2)]).2 =
    [ReceiptRecorded; ReceiptRecorded; ReceiptTerminalConflict "cmd" Applied Rejected; ReceiptStaleGeneration 2 1; ReceiptDuplicate;
     ReceiptTerminalConflict "cmd" Applied Rejected].
Proof. vm_compute. reflexivity. Qed.
