(* ===== verification/CommandPlane.v ===== *)
(** * CommandPlane: the command projection and its RPC facade (command_plane.go)

    The reducer over command frames and causal receipts.  Terminal authority is the
    receipt: nothing else makes a command terminal, and nothing changes its outcome
    again.  An image folded into an empty projection stands for what it summarises.
    Frames are the values [encoding/json] decodes; a payload is never looked into. *)

From S2P Require Import Prelude Receipts.
Local Open Scope Z_scope.

(** ** Wire vocabulary *)

(** [command_plane.go] [type DedupePolicy] *)
Inductive DedupePolicy := DedupeNone | SameIdempotencyKey | SameCommandId.
(** [command_plane.go] [dedupePolicyFromWire] *)
Definition dedupePolicyFromWire (v : string) : option DedupePolicy :=
  if decide (v = "none") then Some DedupeNone else if decide (v = "same_idempotency_key") then Some SameIdempotencyKey
  else if decide (v = "same_command_id") then Some SameCommandId else None.
(** [command_plane.go] [type CommandPolicy] *)
Record CommandPolicy := mkPolicy { Dedupe : DedupePolicy; Supersede : bool; CancelOnPreempt : bool }.

(** [command_plane.go] [type CommandSubmit] *)
Record CommandSubmit {Payload : Type} := mkSubmit {
  s_CommandId : string; s_CausationId : string; s_Source : string; s_Target : string; s_Namespace : string; s_Name : string;
  s_AuthorityGeneration : Z; s_IdempotencyKey : string; s_DeadlineMs : Z; s_Policy : CommandPolicy; s_PayloadType : string;
  s_PayloadHash : string; s_Payload : Payload; s_RequiredFeatures : list string }.
Arguments CommandSubmit : clear implicits.
(** [command_plane.go] [type CommandCancel] *)
Record CommandCancel := mkCancel { c_CommandId : string; c_CausationId : string; c_Source : string; c_AuthorityGeneration : Z; c_Reason : option string }.

(** [command_plane.go] [lines 202-212 CommandEventKind] *)
Inductive CommandEventKind := EObserved | EAccepted | EStarted | EProgress | ECancelled | ESuperseded | ETimedOut.
(** [command_plane.go] [commandEventKindFromWire] *)
Definition commandEventKindFromWire (v : string) : option CommandEventKind :=
  if decide (v = "observed") then Some EObserved else if decide (v = "accepted") then Some EAccepted
  else if decide (v = "started") then Some EStarted else if decide (v = "progress") then Some EProgress
  else if decide (v = "cancelled") then Some ECancelled else if decide (v = "superseded") then Some ESuperseded
  else if decide (v = "timed_out") then Some ETimedOut else None.
(** [command_plane.go] [type CommandEvent] *)
Record CommandEvent := mkEvent { e_EventId : string; e_CommandId : string; e_Kind : CommandEventKind; e_Generation : Z; e_Detail : option string }.

(** [command_plane.go] [lines 267-278 CommandStatus] *)
Inductive CommandStatus := Submitted | SAccepted | Running | SApplied | SRejected | Cancelled | Superseded | TimedOut.
#[export] Instance CommandStatus_eq_dec : EqDecision CommandStatus.
Proof. solve_decision. Defined.
(** [command_plane.go] [commandStatusFromWire] *)
Definition commandStatusFromWire (v : string) : option CommandStatus :=
  if decide (v = "submitted") then Some Submitted else if decide (v = "accepted") then Some SAccepted
  else if decide (v = "running") then Some Running else if decide (v = "applied") then Some SApplied
  else if decide (v = "rejected") then Some SRejected else if decide (v = "cancelled") then Some Cancelled
  else if decide (v = "superseded") then Some Superseded else if decide (v = "timed_out") then Some TimedOut else None.
(** [command_plane.go] [isTerminalCommandStatus] *)
Definition isTerminalCommandStatus (s : CommandStatus) : bool :=
  match s with SApplied | SRejected | Cancelled | Superseded | TimedOut => true | _ => false end.
(** [command_plane.go] [phaseRank] *)
Definition phaseRank (s : CommandStatus) : nat := match s with Submitted => 0 | SAccepted => 1 | Running => 2 | _ => 3 end.

(** [command_plane.go] [type CommandProjectionEntry] *)
Record CommandProjectionEntry := mkEntry {
  CommandId : string; Status : CommandStatus; Terminal : bool; Generation : Z; Reason : option string;
  TerminalReceiptId : option string; LastEventId : option string }.
(** [command_plane.go] [type CommandProjectionImage] *)
Record CommandProjectionImage := mkImage { i_Generation : Z; i_Commands : list CommandProjectionEntry }.

(** [command_plane.go] [type CommandMessage] *)
Record CommandMessage {Payload : Type} := mkMessage {
  Tag : string; m_Submit : option (CommandSubmit Payload); m_Cancel : option CommandCancel; m_Events : option (list CommandEvent);
  m_Projection : option CommandProjectionImage }.
Arguments CommandMessage : clear implicits.
(** [command_plane.go] [NewCommandMessageSubmit] *)
Definition NewCommandMessageSubmit {Payload} (s : CommandSubmit Payload) : CommandMessage Payload := mkMessage _ "CommandSubmit" (Some s) None None None.
(** [command_plane.go] [NewCommandMessageCancel] *)
Definition NewCommandMessageCancel {Payload} (c : CommandCancel) : CommandMessage Payload := mkMessage _ "CommandCancel" None (Some c) None None.
(** [command_plane.go] [NewCommandMessageEvents] *)
Definition NewCommandMessageEvents {Payload} (e : list CommandEvent) : CommandMessage Payload := mkMessage _ "CommandEvents" None None (Some e) None.
(** [command_plane.go] [NewCommandMessageProjection] *)
Definition NewCommandMessageProjection {Payload} (p : CommandProjectionImage) : CommandMessage Payload := mkMessage _ "CommandProjection" None None None (Some p).

(** The sealed union of answers.
    [command_plane.go] [lines 504-571 CommandApplyStatus] *)
Inductive CommandApplyStatus :=
  | StatusRecorded | StatusDuplicate | StatusUnknown | StatusStaleGeneration (expected actual : Z)
  | StatusTerminalConflict (commandId : string) (existing incoming : CommandStatus).
#[export] Instance CommandApplyStatus_eq_dec : EqDecision CommandApplyStatus.
Proof. solve_decision. Defined.

(** [command_plane.go] [terminalStatusOf] *)
Definition terminalStatusOf (outcome : ReceiptOutcome) (reason : option string) : CommandStatus :=
  match outcome with
  | Applied => SApplied
  | Rejected =>
      match reason with
      | Some r => if decide (r = "cancelled") then Cancelled else if decide (r = "superseded") then Superseded
                  else if decide (r = "timed_out") then TimedOut else SRejected
      | None => SRejected
      end
  | _ => SAccepted
  end.
(** The empty status is [None].
    [command_plane.go] [progressStatusOf] *)
Definition progressStatusOf (k : CommandEventKind) : option CommandStatus :=
  match k with EObserved | EAccepted => Some SAccepted | EStarted | EProgress => Some Running | _ => None end.

(** ** The projection *)

(** [command_plane.go] [type CommandProjection] *)
Record CommandProjection := mkProjection {
  generation : Z; entries : gmap string CommandProjectionEntry; seenEventIds : gset string; seenReceiptIds : gset string;
  seenCancelIds : gset string; conflicts : gset string }.
(** [command_plane.go] [NewCommandProjection] *)
Definition NewCommandProjection : CommandProjection := mkProjection 0 ∅ ∅ ∅ ∅ ∅.
Definition with_entries (p : CommandProjection) (es : gmap string CommandProjectionEntry) : CommandProjection :=
  mkProjection (generation p) es (seenEventIds p) (seenReceiptIds p) (seenCancelIds p) (conflicts p).
Definition see_receipt (p : CommandProjection) (id : string) : CommandProjection :=
  mkProjection (generation p) (entries p) (seenEventIds p) ({[id]} ∪ seenReceiptIds p) (seenCancelIds p) (conflicts p).
Definition with_status (e : CommandProjectionEntry) (s : CommandStatus) : CommandProjectionEntry :=
  mkEntry (CommandId e) s (Terminal e) (Generation e) (Reason e) (TerminalReceiptId e) (LastEventId e).

(** [command_plane.go] [CommandProjection.Submit] *)
Definition Submit {Payload} (p : CommandProjection) (s : CommandSubmit Payload) : CommandProjection * CommandApplyStatus :=
  match entries p !! s_CommandId s with
  | Some _ => (p, StatusDuplicate)
  | None =>
      let g := if generation p <? s_AuthorityGeneration s then s_AuthorityGeneration s else generation p in
      (mkProjection g (<[s_CommandId s := mkEntry (s_CommandId s) Submitted false (s_AuthorityGeneration s) None None None]> (entries p))
         (seenEventIds p) (seenReceiptIds p) (seenCancelIds p) (conflicts p), StatusRecorded)
  end.
(** [command_plane.go] [CommandProjection.Event] *)
Definition Event (p : CommandProjection) (e : CommandEvent) : CommandProjection * CommandApplyStatus :=
  if decide (e_EventId e ∈ seenEventIds p) then (p, StatusDuplicate)
  else
    match entries p !! e_CommandId e with
    | None => (p, StatusUnknown)
    | Some entry =>
        if decide (e_Generation e = Generation entry) then
          let entry := mkEntry (CommandId entry) (Status entry) (Terminal entry) (Generation entry) (Reason entry) (TerminalReceiptId entry) (Some (e_EventId e)) in
          let entry := match progressStatusOf (e_Kind e) with
                       | Some next => if negb (Terminal entry) && bool_decide (phaseRank (Status entry) ≤ phaseRank next)%nat then with_status entry next else entry
                       | None => entry
                       end in
          (mkProjection (generation p) (<[e_CommandId e := entry]> (entries p)) ({[e_EventId e]} ∪ seenEventIds p) (seenReceiptIds p) (seenCancelIds p) (conflicts p),
           StatusRecorded)
        else (p, StatusStaleGeneration (Generation entry) (e_Generation e))
    end.
(** [command_plane.go] [CommandProjection.Cancel] *)
Definition Cancel (p : CommandProjection) (c : CommandCancel) : CommandProjection * CommandApplyStatus :=
  if decide (c_CausationId c ∈ seenCancelIds p) then (p, StatusDuplicate)
  else
    match entries p !! c_CommandId c with
    | None => (p, StatusUnknown)
    | Some entry =>
        if decide (c_AuthorityGeneration c = Generation entry) then
          (mkProjection (generation p) (entries p) (seenEventIds p) (seenReceiptIds p) ({[c_CausationId c]} ∪ seenCancelIds p) (conflicts p), StatusRecorded)
        else (p, StatusStaleGeneration (Generation entry) (c_AuthorityGeneration c))
    end.
(** [command_plane.go] [receiptGenerationMatches] *)
Definition receiptGenerationMatches (entry receipt : Z) : bool := (0 <=? entry) && (u64 entry =? receipt).
(** [command_plane.go] [receiptGenerationInt64] *)
Definition receiptGenerationInt64 (g : Z) : Z := if max_i64 <? g then max_i64 else i64 g.
(** [command_plane.go] [CommandProjection.ObserveReceipt] *)
Definition ObserveReceipt (p : CommandProjection) (r : CausalReceipt) : CommandProjection * CommandApplyStatus :=
  if decide (ReceiptId r ∈ seenReceiptIds p) then (p, StatusDuplicate)
  else
    match entries p !! CausationId r with
    | None => (p, StatusUnknown)
    | Some entry =>
        if negb (receiptGenerationMatches (Generation entry) (Receipts.Generation r))
        then (p, StatusStaleGeneration (Generation entry) (receiptGenerationInt64 (Receipts.Generation r)))
        else if negb (IsTerminal r) then
          let p := see_receipt p (ReceiptId r) in
          if negb (Terminal entry) && bool_decide (phaseRank (Status entry) ≤ phaseRank SAccepted)%nat
          then (with_entries p (<[CausationId r := with_status entry SAccepted]> (entries p)), StatusRecorded)
          else (p, StatusRecorded)
        else
          let incoming := terminalStatusOf (Outcome r) (Receipts.Reason r) in
          if Terminal entry then
            if decide (Status entry = incoming) then (see_receipt p (ReceiptId r), StatusRecorded)
            else (mkProjection (generation p) (entries p) (seenEventIds p) (seenReceiptIds p) (seenCancelIds p) ({[CausationId r]} ∪ conflicts p),
                  StatusTerminalConflict (CausationId r) (Status entry) incoming)
          else
            let p := see_receipt p (ReceiptId r) in
            (with_entries p (<[CausationId r := mkEntry (CommandId entry) incoming true (Generation entry) (Receipts.Reason r) (Some (ReceiptId r)) (LastEventId entry)]> (entries p)),
             StatusRecorded)
    end.
(** One entry of an image.
    [command_plane.go] [lines 814-822 CommandProjection.ApplyProjection] *)
Definition apply_entry (p : CommandProjection) (e : CommandProjectionEntry) : CommandProjection :=
  mkProjection (generation p) (<[CommandId e := e]> (entries p))
    (match LastEventId e with Some id => {[id]} ∪ seenEventIds p | None => seenEventIds p end)
    (match TerminalReceiptId e with Some id => {[id]} ∪ seenReceiptIds p | None => seenReceiptIds p end) (seenCancelIds p) (conflicts p).
(** [command_plane.go] [CommandProjection.ApplyProjection] *)
Definition ApplyProjection (p : CommandProjection) (img : CommandProjectionImage) : CommandProjection * CommandApplyStatus :=
  let p := if generation p <? i_Generation img
           then mkProjection (i_Generation img) (entries p) (seenEventIds p) (seenReceiptIds p) (seenCancelIds p) (conflicts p) else p in
  (foldl apply_entry p (i_Commands img), StatusRecorded).
(** [command_plane.go] [CommandProjection.ApplyMessage] *)
Definition ApplyMessage {Payload} (p : CommandProjection) (m : CommandMessage Payload) : CommandProjection * CommandApplyStatus :=
  if decide (Tag m = "CommandSubmit") then match m_Submit m with Some s => Submit p s | None => (p, StatusUnknown) end
  else if decide (Tag m = "CommandCancel") then match m_Cancel m with Some c => Cancel p c | None => (p, StatusUnknown) end
  else if decide (Tag m = "CommandEvents") then
    match m_Events m with Some es => foldl (λ '(p, _) e, Event p e) (p, StatusUnknown) es | None => (p, StatusUnknown) end
  else if decide (Tag m = "CommandProjection") then match m_Projection m with Some i => ApplyProjection p i | None => (p, StatusUnknown) end
  else (p, StatusUnknown).
(** [command_plane.go] [CommandProjection.Entry] *)
Definition Entry (p : CommandProjection) (id : string) : option CommandProjectionEntry := entries p !! id.
(** [command_plane.go] [CommandProjection.TerminalFor] *)
Definition TerminalFor (p : CommandProjection) (id : string) : option CommandProjectionEntry :=
  e ← entries p !! id; if Terminal e then Some e else None.
(** [command_plane.go] [CommandProjection.HasConflict] *)
Definition HasConflict (p : CommandProjection) (id : string) : bool := bool_decide (id ∈ conflicts p).
Definition id_le (a b : CommandProjectionEntry) : Prop := String.leb (CommandId a) (CommandId b) = true.
#[export] Instance id_le_dec : RelDecision id_le.
Proof. intros a b. unfold id_le. apply _. Defined.
(** [command_plane.go] [CommandProjection.ToImage] *)
Definition ToImage (p : CommandProjection) : CommandProjectionImage := mkImage (generation p) (merge_sort id_le (map_to_list (entries p)).*2).

(** ** The RPC facade *)

(** [command_plane.go] [type CallState] *)
Inductive CallState := Pending | Resolved (e : CommandProjectionEntry) | Conflict.
(** The transport is what was sent, in order.
    [command_plane.go] [type CommandRpcClient] *)
Record CommandRpcClient {Payload : Type} := mkClient { sent : list (CommandMessage Payload); Projection : CommandProjection }.
Arguments CommandRpcClient : clear implicits.
Arguments mkClient {Payload}.
(** [command_plane.go] [NewCommandRpcClient] *)
Definition NewCommandRpcClient {Payload} : CommandRpcClient Payload := mkClient [] NewCommandProjection.
(** [command_plane.go] [CommandRpcClient.Submit] *)
Definition Rpc_Submit {Payload} (c : CommandRpcClient Payload) (s : CommandSubmit Payload) : CommandRpcClient Payload * string :=
  let msg := NewCommandMessageSubmit s in (mkClient (sent c ++ [msg]) (ApplyMessage (Projection c) msg).1, s_CommandId s).
(** [command_plane.go] [CommandRpcClient.Cancel] *)
Definition Rpc_Cancel {Payload} (c : CommandRpcClient Payload) (k : CommandCancel) : CommandRpcClient Payload :=
  let msg := NewCommandMessageCancel k in mkClient (sent c ++ [msg]) (ApplyMessage (Projection c) msg).1.
(** [command_plane.go] [CommandRpcClient.IngestCommand] *)
Definition IngestCommand {Payload} (c : CommandRpcClient Payload) (m : CommandMessage Payload) : CommandRpcClient Payload * CommandApplyStatus :=
  let '(p, s) := ApplyMessage (Projection c) m in (mkClient (sent c) p, s).
(** [command_plane.go] [CommandRpcClient.IngestReceipt] *)
Definition IngestReceipt {Payload} (c : CommandRpcClient Payload) (r : CausalReceipt) : CommandRpcClient Payload * CommandApplyStatus :=
  let '(p, s) := ObserveReceipt (Projection c) r in (mkClient (sent c) p, s).
(** [command_plane.go] [CommandRpcClient.PollCall] *)
Definition PollCall {Payload} (c : CommandRpcClient Payload) (id : string) : CallState :=
  if HasConflict (Projection c) id then Conflict
  else match TerminalFor (Projection c) id with Some e => Resolved e | None => Pending end.

(** ** The log of a projection *)

(** The frames other than a resynchronisation image. *)
Inductive Frame {Payload : Type} := FSubmit (s : CommandSubmit Payload) | FEvent (e : CommandEvent) | FCancel (c : CommandCancel) | FReceipt (r : CausalReceipt).
Arguments Frame : clear implicits.
Definition fold_frame {Payload} (p : CommandProjection) (f : Frame Payload) : CommandProjection * CommandApplyStatus :=
  match f with FSubmit s => Submit p s | FEvent e => Event p e | FCancel c => Cancel p c | FReceipt r => ObserveReceipt p r end.
Definition receipt_of {Payload} (f : Frame Payload) : option CausalReceipt := match f with FReceipt r => Some r | _ => None end.
Definition is_conflict (s : CommandApplyStatus) : bool := match s with StatusTerminalConflict _ _ _ => true | _ => false end.
(** What a receipt settles a command to. *)
Definition settled (r : CausalReceipt) : CommandStatus := terminalStatusOf (Outcome r) (Receipts.Reason r).

(** *** The ledger: what the frames alone say

    It reads the log and no answer of the projection: the generation each command
    was first submitted at, the receipts that count, and the terminal receipts
    that disagree with one that counted before. *)
Record ledger := mkLedger { opened : gmap string Z; counted : list CausalReceipt; disagreed : list CausalReceipt }.

(** The answer a receipt deserves. *)
Definition judge (L : ledger) (r : CausalReceipt) : CommandApplyStatus :=
  if decide (ReceiptId r ∈ ReceiptId <$> counted L) then StatusDuplicate
  else
    match opened L !! CausationId r with
    | None => StatusUnknown
    | Some g =>
        if decide (0 ≤ g ∧ u64 g = Receipts.Generation r) then
          match (if IsTerminal r then head (terminals (CausationId r) (counted L)) else None) with
          | Some first => if decide (settled first = settled r) then StatusRecorded
                          else StatusTerminalConflict (CausationId r) (settled first) (settled r)
          | None => StatusRecorded
          end
        else StatusStaleGeneration g (receiptGenerationInt64 (Receipts.Generation r))
    end.

Definition enter {Payload} (L : ledger) (f : Frame Payload) : ledger :=
  match f with
  | FSubmit s =>
      match opened L !! s_CommandId s with
      | Some _ => L
      | None => mkLedger (<[s_CommandId s := s_AuthorityGeneration s]> (opened L)) (counted L) (disagreed L)
      end
  | FReceipt r =>
      match judge L r with
      | StatusRecorded => mkLedger (opened L) (counted L ++ [r]) (disagreed L)
      | StatusTerminalConflict _ _ _ => mkLedger (opened L) (counted L) (disagreed L ++ [r])
      | _ => L
      end
  | _ => L
  end.
Definition ledger_of {Payload} (l : list (Frame Payload)) : ledger := foldl enter (mkLedger ∅ [] []) l.

(** The outcome fields of an entry are those its first terminal receipt gives. *)
Definition settled_by (o : option CausalReceipt) (e : CommandProjectionEntry) : Prop :=
  match o with
  | Some r => Terminal e = true ∧ Status e = settled r ∧ Reason e = Receipts.Reason r ∧ TerminalReceiptId e = Some (ReceiptId r) ∧
              0 ≤ Generation e ∧ u64 (Generation e) = Receipts.Generation r
  | None => Terminal e = false ∧ isTerminalCommandStatus (Status e) = false ∧ Reason e = None ∧ TerminalReceiptId e = None
  end.
(** An entry moves forward only, and a terminal one keeps its outcome. *)
Record advances (e e' : CommandProjectionEntry) : Prop := {
  ad_id : CommandId e' = CommandId e; ad_gen : Generation e' = Generation e; ad_rank : (phaseRank (Status e) ≤ phaseRank (Status e'))%nat;
  ad_stays : Terminal e = true → Terminal e' = true ∧ Status e' = Status e ∧ Reason e' = Reason e ∧ TerminalReceiptId e' = TerminalReceiptId e }.
#[export] Instance advances_preorder : PreOrder advances.
Proof. split; [intros e; by split|]. intros a b c [? ? ? Hab] [? ? ? Hbc]. split; [congruence|congruence|lia|]. intros Ha. destruct (Hab Ha) as (Hb & <- & <- & <-). by apply Hbc. Qed.

Record command_ok (rs cs : list CausalReceipt) (p : CommandProjection) : Prop := {
  ck_entry id e : entries p !! id = Some e → CommandId e = id ∧ settled_by (head (terminals id rs)) e;
  ck_known r : r ∈ rs → is_Some (entries p !! CausationId r);
  ck_agree r r' : r ∈ rs → r' ∈ rs → IsTerminal r = true → IsTerminal r' = true → CausationId r = CausationId r' → settled r = settled r';
  ck_seen id : id ∈ seenReceiptIds p ↔ id ∈ ReceiptId <$> rs;
  ck_nodup : NoDup (ReceiptId <$> rs);
  ck_conflict id : id ∈ conflicts p ↔ id ∈ CausationId <$> cs;
  ck_bad r : r ∈ cs → ∃ r', r' ∈ rs ∧ IsTerminal r = true ∧ IsTerminal r' = true ∧ CausationId r' = CausationId r ∧ settled r' ≠ settled r }.

Lemma settled_terminal r : IsTerminal r = true → isTerminalCommandStatus (settled r) = true.
Proof. unfold IsTerminal, settled. destruct r as [? ? ? ? o rn ?]; simpl. destruct o; simpl; try done. intros _. destruct rn as [x|]; [|done]. repeat case_decide; done. Qed.
Lemma settled_by_terminal o e : settled_by o e → Terminal e = bool_decide (is_Some o).
Proof. destruct o; simpl; intros [-> _]; done. Qed.
Lemma receipt_matches e r : receiptGenerationMatches (Generation e) (Receipts.Generation r) = true → 0 ≤ Generation e ∧ u64 (Generation e) = Receipts.Generation r.
Proof. unfold receiptGenerationMatches. lia. Qed.

Lemma ok_put rs cs p q id e :
  command_ok rs cs p → entries q = <[id := e]> (entries p) → seenReceiptIds q = seenReceiptIds p → conflicts q = conflicts p →
  CommandId e = id → settled_by (head (terminals id rs)) e → command_ok rs cs q.
Proof.
  intros [h1 h2 h3 h4 h5 h6 h7] He Hs Hc Hid Hb. split; try done; rewrite ?Hs, ?Hc, ?He; try done.
  - intros id' e' [[<- <-]|[_ Hl]]%lookup_insert_Some; [done|by apply h1].
  - intros r Hr. rewrite lookup_insert_is_Some. destruct (decide (id = CausationId r)); [by left|]. right. auto.
Qed.

Lemma ok_record rs cs p q r e :
  command_ok rs cs p → ReceiptId r ∉ seenReceiptIds p → entries q = <[CausationId r := e]> (entries p) →
  seenReceiptIds q = {[ReceiptId r]} ∪ seenReceiptIds p → conflicts q = conflicts p → CommandId e = CausationId r →
  settled_by (head (terminals (CausationId r) (rs ++ [r]))) e →
  (IsTerminal r = true → ∀ r', r' ∈ terminals (CausationId r) rs → settled r' = settled r) → command_ok (rs ++ [r]) cs q.
Proof.
  intros [h1 h2 h3 h4 h5 h6 h7] Hnew He Hs Hc Hid Hb Hag. assert (Hfm : ReceiptId <$> rs ++ [r] = (ReceiptId <$> rs) ++ [ReceiptId r]) by (by rewrite fmap_app).
  split; rewrite ?Hs, ?Hc, ?He, ?Hfm; try done.
  - intros id' e' [[<- <-]|[Hne Hl]]%lookup_insert_Some; [done|]. rewrite terminals_snoc, decide_False, app_nil_r by naive_solver. by apply h1.
  - intros x Hx. rewrite lookup_insert_is_Some. destruct (decide (CausationId r = CausationId x)); [by left|]. right. split; [done|].
    apply elem_of_app in Hx as [Hx|Hx%list_elem_of_singleton]; [auto|congruence].
  - intros a b [Ha|Ha%list_elem_of_singleton]%elem_of_app [Hb'|Hb'%list_elem_of_singleton]%elem_of_app Hta Htb Heq; subst; auto.
    + apply Hag; [done|]. by apply terminals_elem.
    + symmetry. apply Hag; [done|]. by apply terminals_elem.
  - intros id. rewrite elem_of_union, elem_of_singleton, elem_of_app, list_elem_of_singleton, h4. tauto.
  - apply NoDup_app. split_and!; [done| |apply NoDup_singleton]. intros x Hx ->%list_elem_of_singleton. by rewrite <-h4 in Hx.
  - intros x Hx. destruct (h7 x Hx) as (r' & Hr' & ?). exists r'. rewrite elem_of_app. auto.
Qed.

Lemma ok_conflict rs cs p r e :
  command_ok rs cs p → entries p !! CausationId r = Some e → IsTerminal r = true → Terminal e = true → Status e ≠ settled r →
  command_ok rs (cs ++ [r]) (mkProjection (generation p) (entries p) (seenEventIds p) (seenReceiptIds p) (seenCancelIds p) ({[CausationId r]} ∪ conflicts p)).
Proof.
  intros [h1 h2 h3 h4 h5 h6 h7] Hl Ht Hte Hne. split; simpl; try done.
  - intros id. rewrite fmap_app, elem_of_union, elem_of_singleton, h6, elem_of_app. cbn [fmap list_fmap]. rewrite list_elem_of_singleton. tauto.
  - intros x [Hx|Hx%list_elem_of_singleton]%elem_of_app; [auto|]. subst x. destruct (h1 _ _ Hl) as [_ Hs].
    pose proof (settled_by_terminal _ _ Hs) as Hb. rewrite Hte in Hb. symmetry in Hb. apply bool_decide_eq_true in Hb as [r' Hr'].
    rewrite Hr' in Hs. destruct Hs as (_ & Hst & _). apply head_Some_elem_of, terminals_elem in Hr' as (? & ? & ?). exists r'. split_and!; congruence.
Qed.

Lemma event_ok rs cs p ev : command_ok rs cs p → command_ok rs cs (Event p ev).1.
Proof.
  intros H. unfold Event. case_decide; [done|]. destruct (entries p !! e_CommandId ev) as [e|] eqn:El; [|done]. case_decide; [|done].
  destruct (ck_entry _ _ _ H _ _ El) as [Hid Hs]. eapply ok_put; try done; simpl.
  - destruct (progressStatusOf (e_Kind ev)) as [nx|]; [|done]. by destruct (_ && _).
  - destruct (progressStatusOf (e_Kind ev)) as [nx|] eqn:En; [|by destruct (head _)].
    destruct (negb (Terminal e) && _) eqn:Eg; [|by destruct (head _)]. apply andb_prop in Eg as [Ht _]. apply negb_true_iff in Ht.
    destruct (head _); [by destruct Hs as [Hc _]; rewrite Ht in Hc|]. destruct Hs as (? & ? & ? & ?). split_and!; try done. simpl. by destruct (e_Kind ev); inversion En.
Qed.

Ltac dup_case := cbn [fst snd is_conflict]; rewrite decide_False, !app_nil_r by done.
Lemma receipt_ok rs cs p r :
  command_ok rs cs p →
  command_ok (rs ++ (if decide ((ObserveReceipt p r).2 = StatusRecorded) then [r] else []))
    (cs ++ (if is_conflict (ObserveReceipt p r).2 then [r] else [])) (ObserveReceipt p r).1.
Proof.
  intros H. unfold ObserveReceipt. destruct (decide (ReceiptId r ∈ seenReceiptIds p)) as [Hseen|Hseen]; [by dup_case|].
  destruct (entries p !! CausationId r) as [e|] eqn:El; [|by dup_case].
  destruct (receiptGenerationMatches _ _) eqn:Eg; [|by dup_case]. apply receipt_matches in Eg as [Hg1 Hg2].
  destruct (ck_entry _ _ _ H _ _ El) as [Hid Hs]. destruct (IsTerminal r) eqn:Et; cbn [negb].
  - assert (Hsn : terminals (CausationId r) (rs ++ [r]) = terminals (CausationId r) rs ++ [r]) by (by rewrite terminals_snoc, decide_True).
    pose proof (settled_by_terminal _ _ Hs) as Hb. fold (settled r). destruct (Terminal e) eqn:Ete.
    + symmetry in Hb. apply bool_decide_eq_true in Hb as [r0 Hr0]. destruct (decide (Status e = settled r)) as [Hst|Hst]; cbn [fst snd is_conflict]; rewrite ?app_nil_r.
      * rewrite decide_True by done. eapply ok_record; try done; simpl.
        -- by rewrite insert_id.
        -- rewrite Hsn. destruct (terminals (CausationId r) rs); [done|]. exact Hs.
        -- intros _ r' Hr'. rewrite Hr0 in Hs. rewrite <-Hst. destruct Hs as (_ & -> & _). apply head_Some_elem_of, terminals_elem in Hr0 as (? & ? & ?).
           apply terminals_elem in Hr' as (? & ? & ?). apply (ck_agree _ _ _ H); congruence.
      * by eapply ok_conflict.
    + symmetry in Hb. apply bool_decide_eq_false in Hb. cbn [fst snd is_conflict]. rewrite app_nil_r, decide_True by done.
      assert (Hnil : terminals (CausationId r) rs = []) by (destruct (terminals (CausationId r) rs); [done|]; by destruct Hb).
      eapply ok_record; try done; simpl; rewrite ?Hsn, ?Hnil; [by split_and!|]. intros _ r' Hr'. by apply not_elem_of_nil in Hr'.
  - assert (Hsn : terminals (CausationId r) (rs ++ [r]) = terminals (CausationId r) rs) by (rewrite terminals_snoc, decide_False, app_nil_r by (intros [_ Hx]; rewrite Et in Hx; done); done).
    destruct (negb (Terminal e) && _) eqn:Ep; cbn [fst snd is_conflict]; rewrite app_nil_r, decide_True by done; (eapply ok_record; try done; simpl; try congruence; rewrite ?Hsn).
    + apply andb_prop in Ep as [Ht _]. apply negb_true_iff in Ht. destruct (head _); [by destruct Hs as [Hc _]; rewrite Ht in Hc|]. destruct Hs as (? & ? & ? & ?). by split_and!.
    + by rewrite insert_id.
Qed.

(** A frame that is no receipt adds to neither list. *)
Lemma unread (st : CommandApplyStatus) : (if decide (st = StatusRecorded) then [] else []) = @nil CausalReceipt.
Proof. by case_decide. Qed.
Lemma unread_bool (b : bool) : (if b then [] else []) = @nil CausalReceipt.
Proof. by destruct b. Qed.

Lemma fold_frame_ok {Payload} rs cs p (f : Frame Payload) :
  command_ok rs cs p →
  command_ok (rs ++ (if decide ((fold_frame p f).2 = StatusRecorded) then option_list (receipt_of f) else []))
    (cs ++ (if is_conflict (fold_frame p f).2 then option_list (receipt_of f) else [])) (fold_frame p f).1.
Proof.
  intros H.
  destruct f as [s|ev|c|r]; cbn [fold_frame receipt_of option_list]; [..|by apply receipt_ok]; rewrite unread, unread_bool, !app_nil_r.
  - unfold Submit. destruct (entries p !! s_CommandId s) eqn:El; [done|]. eapply ok_put; try done. simpl.
    destruct (head (terminals (s_CommandId s) rs)) as [r|] eqn:Hh; [|done]. apply head_Some_elem_of, terminals_elem in Hh as (Hc & _ & Hr).
    apply (ck_known _ _ _ H) in Hr. rewrite Hc, El in Hr. by destruct Hr.
  - by apply event_ok.
  - unfold Cancel. case_decide; [done|]. destruct (entries p !! c_CommandId c); [|done]. case_decide; [|done]. by destruct H.
Qed.

(** The projection stands for the ledger of its log. *)
Record projects (L : ledger) (p : CommandProjection) : Prop := {
  lk_ok : command_ok (counted L) (disagreed L) p;
  lk_opened id : opened L !! id = Generation <$> entries p !! id }.

Lemma receipt_answer L p r : projects L p → (ObserveReceipt p r).2 = judge L r.
Proof.
  intros [Hok Hop]. unfold ObserveReceipt, judge. rewrite Hop.
  destruct (decide (ReceiptId r ∈ seenReceiptIds p)) as [Hs|Hs]; rewrite (ck_seen _ _ _ Hok) in Hs.
  { by rewrite decide_True. }
  rewrite decide_False by done. destruct (entries p !! CausationId r) as [e|] eqn:El; simpl; [|done].
  destruct (ck_entry _ _ _ Hok _ _ El) as [_ Hb]. pose proof (settled_by_terminal _ _ Hb) as Ht.
  destruct (receiptGenerationMatches _ _) eqn:Eg; simpl.
  - rewrite (decide_True (P := 0 ≤ Generation e ∧ _)) by (by apply receipt_matches). destruct (IsTerminal r); simpl; [|by destruct (negb _ && _)].
    fold (settled r). destruct (head _) as [first|]; simpl in Hb, Ht; rewrite Ht; simpl; [|done].
    destruct Hb as (_ & -> & _). by destruct (decide (settled first = settled r)).
  - rewrite (decide_False (P := 0 ≤ Generation e ∧ _)); [done|]. unfold receiptGenerationMatches in Eg. lia.
Qed.

Lemma Event_generations p ev id : Generation <$> entries (Event p ev).1 !! id = Generation <$> entries p !! id.
Proof.
  unfold Event. case_decide; [done|]. destruct (entries p !! e_CommandId ev) as [e|] eqn:El; [|done]. case_decide; [|done].
  cbn [fst entries]. destruct (decide (e_CommandId ev = id)) as [<-|Hne]; [|by rewrite lookup_insert_ne].
  rewrite lookup_insert_eq, El. simpl. destruct (progressStatusOf _); [|done]. by destruct (_ && _).
Qed.
Lemma ObserveReceipt_generations p r id : Generation <$> entries (ObserveReceipt p r).1 !! id = Generation <$> entries p !! id.
Proof.
  unfold ObserveReceipt. case_decide; [done|]. destruct (entries p !! CausationId r) as [e|] eqn:El; [|done].
  assert (Hput : ∀ e', Generation e' = Generation e → Generation <$> <[CausationId r := e']> (entries p) !! id = Generation <$> entries p !! id).
  { intros e' He'. destruct (decide (CausationId r = id)) as [<-|Hne]; [|by rewrite lookup_insert_ne].
    rewrite lookup_insert_eq, El. simpl. by f_equal. }
  destruct (receiptGenerationMatches _ _); [|done]. destruct (IsTerminal r); simpl.
  - destruct (Terminal e); [by case_decide|]. by apply Hput.
  - destruct (negb _ && _); [|done]. by apply Hput.
Qed.

Lemma Cancel_entries p c : entries (Cancel p c).1 = entries p.
Proof. unfold Cancel. case_decide; [done|]. destruct (entries p !! c_CommandId c); [|done]. by case_decide. Qed.

Lemma fold_frame_ledger {Payload} L p (f : Frame Payload) : projects L p → projects (enter L f) (fold_frame p f).1.
Proof.
  intros H. pose proof (fold_frame_ok _ _ _ f (lk_ok _ _ H)) as Hok. pose proof (lk_opened _ _ H) as Hop.
  destruct f as [s|ev|c|r]; cbn [fold_frame receipt_of option_list enter] in *.
  - unfold Submit in *. rewrite (Hop (s_CommandId s)). destruct (entries p !! s_CommandId s) eqn:El; [done|]. simpl in *.
    rewrite ?app_nil_r in Hok. split; [done|]. intros id. simpl.
    destruct (decide (s_CommandId s = id)) as [<-|Hne]; [by rewrite !lookup_insert_eq|]. by rewrite !lookup_insert_ne.
  - rewrite unread, unread_bool, !app_nil_r in Hok. split; [done|]. intros id. by rewrite Event_generations.
  - rewrite unread, unread_bool, !app_nil_r in Hok. split; [done|]. intros id. by rewrite Hop, Cancel_entries.
  - rewrite (receipt_answer L p r H) in Hok. split.
    + destruct (judge L r); simpl in *; rewrite ?app_nil_r in *; done.
    + intros id. rewrite ObserveReceipt_generations, <-Hop. by destruct (judge L r).
Qed.

Lemma command_run_ok {Payload} (l : list (Frame Payload)) : projects (ledger_of l) (run fold_frame NewCommandProjection l).1.
Proof.
  apply (run_invariant fold_frame (λ l _ p, projects (ledger_of l) p)).
  - split; [|done]. split; simpl; try done; try set_solver; try constructor.
  - intros l' _ p f H. unfold ledger_of. rewrite foldl_snoc. by apply fold_frame_ledger.
Qed.

Lemma event_advances p ev id e : entries p !! id = Some e → ∃ e', entries (Event p ev).1 !! id = Some e' ∧ advances e e'.
Proof.
  intros El. unfold Event. case_decide; [by exists e|]. destruct (entries p !! e_CommandId ev) as [x|] eqn:Ex; [|by exists e]. case_decide; [|by exists e].
  cbn [fst entries]. destruct (decide (e_CommandId ev = id)) as [<-|Hne]; [|rewrite lookup_insert_ne by done; by exists e].
  rewrite lookup_insert_eq. assert (x = e) as -> by congruence. eexists; split; [done|].
  destruct (progressStatusOf _) as [nx|]; [|by split]. cbn zeta. cbn [Terminal Status]. destruct (negb (Terminal e) && _) eqn:Eg; [|by split].
  apply andb_prop in Eg as [Ht Hr%bool_decide_eq_true]. split; simpl in *; try done. intros Hc. by rewrite Hc in Ht.
Qed.

Lemma receipt_advances p r id e : entries p !! id = Some e → ∃ e', entries (ObserveReceipt p r).1 !! id = Some e' ∧ advances e e'.
Proof.
  intros El. unfold ObserveReceipt. case_decide; [by exists e|]. destruct (entries p !! CausationId r) as [x|] eqn:Ex; [|by exists e].
  destruct (receiptGenerationMatches _ _); [|by exists e].
  assert (Hput : ∀ e', advances x e' → ∃ e'', <[CausationId r := e']> (entries p) !! id = Some e'' ∧ advances e e'').
  { intros e' Ha. destruct (decide (CausationId r = id)) as [<-|Hne]; [|rewrite lookup_insert_ne by done; by exists e].
    rewrite lookup_insert_eq. exists e'. split; [done|]. assert (x = e) as <- by congruence. done. }
  destruct (IsTerminal r) eqn:Et; cbn [negb].
  - fold (settled r). destruct (Terminal x) eqn:Ext; [case_decide; by exists e|]. apply Hput. split; simpl; try done; [|by rewrite Ext].
    apply settled_terminal in Et. destruct (settled r), (Status x); simpl in *; done || lia.
  - destruct (negb (Terminal x) && _) eqn:Eg; [|by exists e]. apply andb_prop in Eg as [Ht Hr%bool_decide_eq_true]. apply Hput.
    split; simpl in *; try done. intros Hc. by rewrite Hc in Ht.
Qed.

Lemma fold_frame_advances {Payload} p (f : Frame Payload) id e :
  entries p !! id = Some e → ∃ e', entries (fold_frame p f).1 !! id = Some e' ∧ advances e e'.
Proof.
  intros El. destruct f as [s|ev|c|r]; cbn [fold_frame]; [|by apply event_advances| |by apply receipt_advances].
  - unfold Submit. destruct (entries p !! s_CommandId s) eqn:Es; [by exists e|]. simpl. exists e. rewrite lookup_insert_ne by congruence. done.
  - exists e. split; [|done]. unfold Cancel. case_decide; [done|]. destruct (entries p !! c_CommandId c); [|done]. by case_decide.
Qed.

Lemma fold_frame_keeps_conflict {Payload} p (f : Frame Payload) id : id ∈ conflicts p → id ∈ conflicts (fold_frame p f).1.
Proof.
  intros Hid. destruct f as [s|ev|c|r]; cbn [fold_frame].
  - unfold Submit. by destruct (entries p !! _).
  - unfold Event. case_decide; [done|]. destruct (entries p !! _); [|done]. by case_decide.
  - unfold Cancel. case_decide; [done|]. destruct (entries p !! _); [|done]. by case_decide.
  - unfold ObserveReceipt. case_decide; [done|]. destruct (entries p !! _) as [x|]; [|done]. destruct (receiptGenerationMatches _ _); [|done].
    destruct (IsTerminal r); simpl; [|by destruct (negb _ && _)]. destruct (Terminal x); [|done]. case_decide; [done|]. simpl. set_solver.
Qed.

Lemma run_advances {Payload} (l : list (Frame Payload)) p id :
  (∀ e, entries p !! id = Some e → ∃ e', entries (run fold_frame p l).1 !! id = Some e' ∧ advances e e') ∧
  (id ∈ conflicts p → id ∈ conflicts (run fold_frame p l).1).
Proof.
  apply (run_invariant fold_frame (λ _ _ q, (∀ e, entries p !! id = Some e → ∃ e', entries q !! id = Some e' ∧ advances e e') ∧ (id ∈ conflicts p → id ∈ conflicts q))).
  - split; [|done]. intros e He. by exists e.
  - intros l' os s f [Ha Hc]. split; [|intros Hp; by apply fold_frame_keeps_conflict, Hc].
    intros e He. destruct (Ha e He) as (e1 & H1 & A1). destruct (fold_frame_advances s f id e1 H1) as (e2 & H2 & A2). exists e2. split; [done|]. by etrans.
Qed.

(** C34: the causal receipt is the only terminal authority.  The ledger of the frames
    says what every receipt deserves: nothing if its id was recorded before, its command
    was never submitted or its generation is not the one the command was first submitted
    at; a conflict if it is terminal and the command's first recorded terminal receipt
    settles otherwise; a record in every other case.  After any submits, events, cancels
    and receipts the projection answers the next receipt exactly so, a command is
    terminal exactly when the ledger holds a terminal receipt for it, and its status,
    reason and receipt id are those of the first one; events and cancels alone never make
    it so.  Whatever follows, its phase never moves back and a terminal outcome never
    changes, and a conflict stays.  A polled call is pending exactly while the ledger
    holds no terminal receipt for it, in conflict exactly when one disagreed and resolved
    otherwise; a recorded receipt is a no-op when it arrives again. *)
Theorem Command_terminal_authority {Payload} (l l' : list (Frame Payload)) (sent : list (CommandMessage Payload)) id r
    (L := ledger_of l) (rs := counted L) (cs := disagreed L)
    (p := (run fold_frame NewCommandProjection l).1) (q := (run fold_frame p l').1) :
  (ObserveReceipt p r).2 = judge L r ∧
  (∀ e, Entry p id = Some e → CommandId e = id ∧ opened L !! id = Some (Generation e) ∧
     settled_by (head (terminals id rs)) e ∧ isTerminalCommandStatus (Status e) = Terminal e) ∧
  (∀ x, x ∈ rs → is_Some (Entry p (CausationId x))) ∧
  (∀ x, x ∈ cs → ∃ y, y ∈ rs ∧ IsTerminal x = true ∧ IsTerminal y = true ∧ CausationId y = CausationId x ∧ settled y ≠ settled x) ∧
  (∀ e, Entry p id = Some e → ∃ e', Entry q id = Some e' ∧ advances e e') ∧ (HasConflict p id = true → HasConflict q id = true) ∧
  (PollCall (mkClient sent p) id = Conflict ↔ id ∈ CausationId <$> cs) ∧
  (PollCall (mkClient sent p) id = Pending ↔ terminals id rs = []) ∧
  (∀ e, PollCall (mkClient sent p) id = Resolved e ↔ (id ∉ CausationId <$> cs) ∧ Entry p id = Some e ∧ terminals id rs ≠ []) ∧
  ((ObserveReceipt p r).2 = StatusDuplicate ↔ ReceiptId r ∈ ReceiptId <$> rs) ∧ (ReceiptId r ∈ ReceiptId <$> rs → (ObserveReceipt p r).1 = p).
Proof.
  pose proof (command_run_ok l) as HL. fold L p in HL. pose proof (receipt_answer _ _ r HL) as Hans.
  pose proof (lk_ok _ _ HL) as Hok. fold rs cs in Hok. pose proof (lk_opened _ _ HL) as Hop.
  clearbody p. clear HL.
  pose proof (run_advances l' p id) as Hadv. fold q in Hadv. clearbody q. destruct Hadv as [Hadv Hconf].
  assert (Hbad : id ∈ CausationId <$> cs → terminals id rs ≠ []).
  { intros (x & -> & Hx)%list_elem_of_fmap Hn. apply (ck_bad _ _ _ Hok) in Hx as (y & ? & ? & ? & ? & ?).
    apply (not_elem_of_nil y). rewrite <-Hn. by apply terminals_elem. }
  assert (Hterm : ∀ e, entries p !! id = Some e → Terminal e = true ↔ terminals id rs ≠ []).
  { intros e He. apply (ck_entry _ _ _ Hok) in He as [_ Hs%settled_by_terminal]. rewrite Hs, bool_decide_eq_true. destruct (terminals id rs); simpl; [|done].
    split; [by intros []|done]. }
  assert (Hnone : entries p !! id = None → terminals id rs = []).
  { intros He. destruct (terminals id rs) as [|y t] eqn:Et; [done|]. assert (Hy : y ∈ terminals id rs) by (rewrite Et; left). apply terminals_elem in Hy as (<- & _ & Hy).
    apply (ck_known _ _ _ Hok) in Hy. rewrite He in Hy. by destruct Hy. }
  split_and!; try done.
  - intros e He. destruct (ck_entry _ _ _ Hok _ _ He) as [Hid Hs]. split_and!; try done; [unfold Entry in He; by rewrite Hop, He|].
    destruct (head (terminals id rs)) as [x|] eqn:Ex.
    + destruct Hs as (-> & -> & _). apply settled_terminal. by apply head_Some_elem_of, terminals_elem in Ex as (_ & ? & _).
    + by destruct Hs as (-> & ? & _).
  - apply (ck_known _ _ _ Hok).
  - apply (ck_bad _ _ _ Hok).
  - unfold HasConflict. rewrite !bool_decide_eq_true. done.
  - rewrite <-(ck_conflict _ _ _ Hok). unfold PollCall, HasConflict, TerminalFor. simpl. case_bool_decide; [done|]. destruct (entries p !! id) as [x|]; simpl; [|done]. by destruct (Terminal x).
  - unfold PollCall, HasConflict, TerminalFor. simpl. case_bool_decide as Hc; [apply (ck_conflict _ _ _ Hok), Hbad in Hc; done|].
    destruct (entries p !! id) as [x|] eqn:Ex; simpl; [|by rewrite Hnone]. specialize (Hterm x eq_refl). destruct (Terminal x).
    + split; [done|]. intros Hn. by apply Hterm in Hn.
    + split; [intros _|done]. destruct (terminals id rs); [done|]. by assert (false = true) by (by apply Hterm).
  - intros e. rewrite <-(ck_conflict _ _ _ Hok). unfold PollCall, HasConflict, TerminalFor, Entry. simpl. case_bool_decide as Hc; [split; [done|by intros []]|].
    destruct (entries p !! id) as [x|] eqn:Ex; simpl; [|by split; [|intros (_ & ? & _)]]. specialize (Hterm x eq_refl). destruct (Terminal x).
    + split; [intros [= <-]; split_and!; try done; by apply Hterm|]. by intros (_ & [= <-] & _).
    + split; [done|]. by intros (_ & _ & Hn%Hterm).
  - rewrite <-(ck_seen _ _ _ Hok). unfold ObserveReceipt. case_decide; [done|]. split; [|done]. destruct (entries p !! CausationId r) as [x|]; [|done].
    destruct (receiptGenerationMatches _ _); [|done]. destruct (IsTerminal r); simpl; [|by destruct (negb _ && _)]. destruct (Terminal x); [|done]. by case_decide.
  - rewrite <-(ck_seen _ _ _ Hok). intros Hs. unfold ObserveReceipt. by rewrite decide_True.
Qed.

(** Every entry is filed under its own command id, whatever is folded. *)
Definition keyed (p : CommandProjection) : Prop := ∀ id e, entries p !! id = Some e → CommandId e = id.

Lemma apply_entries_other es p id : id ∉ CommandId <$> es → entries (foldl apply_entry p es) !! id = entries p !! id.
Proof.
  revert p. induction es as [|y es IH]; intros p Hn; [done|]. cbn [fmap list_fmap] in Hn. apply not_elem_of_cons in Hn as [? ?].
  simpl. rewrite IH by done. simpl. by rewrite lookup_insert_ne.
Qed.
Lemma apply_entries_generation es p : generation (foldl apply_entry p es) = generation p.
Proof. revert p. induction es as [|y es IH]; intros p; [done|]. simpl. by rewrite IH. Qed.
Lemma apply_entries_lookup es p e : NoDup (CommandId <$> es) → e ∈ es → entries (foldl apply_entry p es) !! CommandId e = Some e.
Proof.
  revert p. induction es as [|x es IH]; intros p Hnd; [by intros ?%not_elem_of_nil|]. apply NoDup_cons in Hnd as [Hx Hnd]. simpl.
  intros [->|He]%elem_of_cons; [|by apply IH]. rewrite apply_entries_other by done. simpl. by rewrite lookup_insert_eq.
Qed.

Lemma apply_entries_seen es p :
  (∀ i, i ∈ seenEventIds (foldl apply_entry p es) ↔ i ∈ seenEventIds p ∨ ∃ e, e ∈ es ∧ LastEventId e = Some i) ∧
  (∀ i, i ∈ seenReceiptIds (foldl apply_entry p es) ↔ i ∈ seenReceiptIds p ∨ ∃ e, e ∈ es ∧ TerminalReceiptId e = Some i) ∧
  seenCancelIds (foldl apply_entry p es) = seenCancelIds p ∧ conflicts (foldl apply_entry p es) = conflicts p.
Proof.
  revert p. induction es as [|x es IH]; intros p; simpl; [set_solver|]. destruct (IH (apply_entry p x)) as (H1 & H2 & -> & ->). split_and!; try done.
  - intros i. rewrite H1. simpl. destruct (LastEventId x) eqn:Ex; set_solver.
  - intros i. rewrite H2. simpl. destruct (TerminalReceiptId x) eqn:Ex; set_solver.
Qed.

Lemma image_elems p e : e ∈ i_Commands (ToImage p) ↔ ∃ id, entries p !! id = Some e.
Proof.
  unfold ToImage; simpl. rewrite merge_sort_Permutation, list_elem_of_fmap. split.
  - intros ([id x] & -> & Hx%elem_of_map_to_list). by exists id.
  - intros [id He]. exists (id, e). split; [done|]. by apply elem_of_map_to_list.
Qed.
Lemma image_nodup p : keyed p → NoDup (CommandId <$> i_Commands (ToImage p)).
Proof.
  intros Hk. unfold ToImage; simpl. rewrite merge_sort_Permutation.
  assert (Heq : CommandId <$> (map_to_list (entries p)).*2 = (map_to_list (entries p)).*1).
  { rewrite <-list_fmap_compose. apply list_fmap_ext. intros i [id e] Hl. apply list_elem_of_lookup_2, elem_of_map_to_list in Hl. simpl. by apply Hk. }
  rewrite Heq. apply NoDup_fst_map_to_list.
Qed.

Lemma restore_entries p : keyed p → 0 ≤ generation p →
  let q := (ApplyProjection NewCommandProjection (ToImage p)).1 in
  entries q = entries p ∧ generation q = generation p ∧ conflicts q = ∅ ∧ seenCancelIds q = ∅ ∧
  (∀ i, i ∈ seenEventIds q ↔ ∃ id e, entries p !! id = Some e ∧ LastEventId e = Some i) ∧
  (∀ i, i ∈ seenReceiptIds q ↔ ∃ id e, entries p !! id = Some e ∧ TerminalReceiptId e = Some i).
Proof.
  intros Hk Hg q. unfold q, ApplyProjection. cbn [fst].
  set (p0 := if _ : bool then _ else _). assert (Hp0 : p0 = mkProjection (generation p) ∅ ∅ ∅ ∅ ∅).
  { unfold p0. cbn [i_Generation ToImage NewCommandProjection generation]. destruct (0 <? generation p) eqn:E; [done|]. assert (generation p = 0) as -> by lia. done. }
  rewrite Hp0. clear p0 Hp0 q. pose proof (image_nodup p Hk) as Hnd. set (p0 := mkProjection _ _ _ _ _ _).
  destruct (apply_entries_seen (i_Commands (ToImage p)) p0) as (S1 & S2 & S3 & S4). split_and!; try done.
  - apply map_eq. intros id. destruct (entries p !! id) as [e|] eqn:El.
    + rewrite <-(Hk _ _ El). apply apply_entries_lookup, image_elems; [done|]. by exists id.
    + rewrite apply_entries_other; [done|]. intros (e & -> & He)%list_elem_of_fmap. apply image_elems in He as [id He]. rewrite (Hk _ _ He) in El. congruence.
  - change (generation p) with (generation p0). apply apply_entries_generation.
  - intros i. rewrite S1. setoid_rewrite image_elems. set_solver.
  - intros i. rewrite S2. setoid_rewrite image_elems. set_solver.
Qed.

(** Frames and images, as they reach a projection. *)
Definition fold_any {Payload} (p : CommandProjection) (x : Frame Payload + CommandProjectionImage) : CommandProjection * CommandApplyStatus :=
  match x with inl f => fold_frame p f | inr i => ApplyProjection p i end.
Record summarised (p : CommandProjection) : Prop := {
  su_keyed : keyed p; su_generation : 0 ≤ generation p;
  su_events id e i : entries p !! id = Some e → LastEventId e = Some i → i ∈ seenEventIds p;
  su_receipts id e i : entries p !! id = Some e → TerminalReceiptId e = Some i → i ∈ seenReceiptIds p }.

Lemma summarised_put p q id e :
  summarised p → entries q = <[id := e]> (entries p) → generation p ≤ generation q → seenEventIds p ⊆ seenEventIds q → seenReceiptIds p ⊆ seenReceiptIds q →
  CommandId e = id → (∀ i, LastEventId e = Some i → i ∈ seenEventIds q) → (∀ i, TerminalReceiptId e = Some i → i ∈ seenReceiptIds q) → summarised q.
Proof.
  intros [h1 h2 h3 h4] He Hg Hs1 Hs2 Hid Hl Ht. split; [|lia|..].
  - intros id' e'. rewrite He, lookup_insert_Some. intros [[<- <-]|[_ Hq]]; [done|by apply h1].
  - intros id' e' i. rewrite He, lookup_insert_Some. intros [[<- <-]|[_ Hq]] Hi; [by apply Hl|]. eapply Hs1, h3; eauto.
  - intros id' e' i. rewrite He, lookup_insert_Some. intros [[<- <-]|[_ Hq]] Hi; [by apply Ht|]. eapply Hs2, h4; eauto.
Qed.
Lemma summarised_same p q :
  summarised p → entries q = entries p → generation p ≤ generation q → seenEventIds p ⊆ seenEventIds q → seenReceiptIds p ⊆ seenReceiptIds q → summarised q.
Proof.
  intros [h1 h2 h3 h4] He Hg Hs1 Hs2. split; [|lia|..].
  - intros id e. rewrite He. apply h1.
  - intros id e i. rewrite He. intros ? ?. eapply Hs1, h3; eauto.
  - intros id e i. rewrite He. intros ? ?. eapply Hs2, h4; eauto.
Qed.

Lemma summarised_event p ev : summarised p → summarised (Event p ev).1.
Proof.
  intros H. unfold Event. case_decide; [done|]. destruct (entries p !! e_CommandId ev) as [x|] eqn:Ex; [|done]. case_decide; [|done].
  eapply summarised_put; try done; simpl; [set_solver|..]; destruct (progressStatusOf _); try destruct (negb _ && _); simpl; try (by apply (su_keyed _ H));
    try (intros i [= <-]; set_solver); by apply (su_receipts _ H _ _ _ Ex) || (intros i Hi; by apply (su_receipts _ H _ _ i Ex)).
Qed.
Lemma summarised_receipt p r : summarised p → summarised (ObserveReceipt p r).1.
Proof.
  intros H. unfold ObserveReceipt. case_decide; [done|]. destruct (entries p !! CausationId r) as [x|] eqn:Ex; [|done]. destruct (receiptGenerationMatches _ _); [|done].
  pose proof (su_keyed _ H _ _ Ex) as Hk. pose proof (λ i, su_events _ H _ _ i Ex) as Hev. pose proof (λ i, su_receipts _ H _ _ i Ex) as Hre.
  destruct (IsTerminal r); simpl.
  - destruct (Terminal x); [case_decide; (eapply summarised_same; [done|..]; simpl; done || set_solver)|].
    eapply summarised_put; [done|..]; simpl; try done; [set_solver|]. intros i [= <-]. set_solver.
  - destruct (negb _ && _); simpl; [|eapply summarised_same; [done|..]; simpl; done || set_solver].
    eapply summarised_put; [done|..]; simpl; try done; [set_solver|]. intros i Hi. apply elem_of_union_r. eauto.
Qed.
Lemma summarised_any {Payload} p (x : Frame Payload + CommandProjectionImage) : summarised p → summarised (fold_any p x).1.
Proof.
  intros H. destruct x as [[s|ev|c|r]|img]; cbn [fold_any fold_frame]; [|by apply summarised_event| |by apply summarised_receipt|].
  - unfold Submit. destruct (entries p !! s_CommandId s); [done|]. eapply summarised_put; [done|..]; simpl; try done. destruct (_ <? _) eqn:E; lia.
  - unfold Cancel. case_decide; [done|]. destruct (entries p !! _); [|done]. case_decide; [|done]. eapply summarised_same; [done|..]; done.
  - unfold ApplyProjection. cbn [fst]. set (p0 := if _ : bool then _ else _). assert (H0 : summarised p0).
    { unfold p0. destruct (_ <? _) eqn:E; [|done]. eapply summarised_same; [done|..]; simpl; done || lia. }
    clearbody p0. clear H p. revert p0 H0. induction (i_Commands img) as [|e es IH]; intros p H; [done|]. simpl. apply IH.
    eapply summarised_put; [done|..]; simpl; try done; [destruct (LastEventId e); set_solver|destruct (TerminalReceiptId e); set_solver|..]; intros i ->; set_solver.
Qed.
Lemma run_summarised {Payload} (l : list (Frame Payload + CommandProjectionImage)) : summarised (run fold_any NewCommandProjection l).1.
Proof. apply (run_invariant fold_any (λ _ _ p, summarised p)); [by split|]. intros _ _ s i. apply summarised_any. Qed.

(** A frame whose own id the projection has not folded. *)
Definition fresh_for {Payload} (p : CommandProjection) (f : Frame Payload) : Prop :=
  match f with
  | FSubmit _ => True | FEvent e => e_EventId e ∉ seenEventIds p | FCancel c => c_CausationId c ∉ seenCancelIds p
  | FReceipt r => ReceiptId r ∉ seenReceiptIds p
  end.

Lemma fold_frame_agree {Payload} p q (f : Frame Payload) :
  entries q = entries p → generation q = generation p → fresh_for p f → fresh_for q f →
  (fold_frame q f).2 = (fold_frame p f).2 ∧ entries (fold_frame q f).1 = entries (fold_frame p f).1 ∧ generation (fold_frame q f).1 = generation (fold_frame p f).1.
Proof.
  intros He Hg Hp Hq. destruct f as [s|ev|c|r]; simpl in *.
  - unfold Submit. rewrite He, Hg. destruct (entries p !! _); simpl; [by rewrite He|]. by rewrite ?He.
  - unfold Event. rewrite !decide_False, He, Hg by done. destruct (entries p !! _); simpl; [|by rewrite ?He, ?Hg]. case_decide; simpl; [by rewrite ?He, ?Hg|by rewrite ?He, ?Hg].
  - unfold Cancel. rewrite !decide_False, He, Hg by done. destruct (entries p !! _); simpl; [|by rewrite ?He, ?Hg]. case_decide; simpl; by rewrite ?He, ?Hg.
  - unfold ObserveReceipt. rewrite !decide_False, He by done. destruct (entries p !! _) as [x|]; simpl; [|by rewrite ?He, ?Hg].
    destruct (receiptGenerationMatches _ _); simpl; [|by rewrite ?He, ?Hg]. destruct (IsTerminal r); simpl.
    + destruct (Terminal x); [case_decide; simpl; by rewrite ?He, ?Hg|]. simpl. by rewrite ?He, ?Hg.
    + destruct (negb _ && _); simpl; by rewrite ?He, ?Hg.
Qed.

(** An image restores what it summarises.  Whatever a projection folded, images
    included, its image lists each command once, and an empty projection that folds the
    image has the same entries, generation and image, answers every query and every
    polled call without a conflict alike, takes the last event and the terminal receipt
    of each command for redeliveries, and folds any frame new to the original exactly as
    the original does. *)
Theorem Command_image_restores {Payload} (l : list (Frame Payload + CommandProjectionImage)) (f : Frame Payload) (sent : list (CommandMessage Payload)) id
    (p := (run fold_any NewCommandProjection l).1) (q := (ApplyProjection NewCommandProjection (ToImage p)).1) :
  NoDup (CommandId <$> i_Commands (ToImage p)) ∧ Entry q id = Entry p id ∧ TerminalFor q id = TerminalFor p id ∧
  generation q = generation p ∧ ToImage q = ToImage p ∧
  (HasConflict p id = false → PollCall (mkClient sent q) id = PollCall (mkClient sent p) id) ∧
  (∀ e ev, Entry p id = Some e → LastEventId e = Some (e_EventId ev) → Event q ev = (q, StatusDuplicate)) ∧
  (∀ e r, Entry p id = Some e → TerminalReceiptId e = Some (ReceiptId r) → ObserveReceipt q r = (q, StatusDuplicate)) ∧
  (fresh_for p f → (fold_frame q f).2 = (fold_frame p f).2 ∧ entries (fold_frame q f).1 = entries (fold_frame p f).1 ∧
                   generation (fold_frame q f).1 = generation (fold_frame p f).1).
Proof.
  pose proof (run_summarised l) as Hs. fold p in Hs. clearbody p.
  destruct (restore_entries p (su_keyed _ Hs) (su_generation _ Hs)) as (He & Hg & Hc & Hk & Hev & Hre). fold q in He, Hg, Hc, Hk, Hev, Hre. clearbody q.
  split_and!; try done.
  - apply image_nodup, Hs.
  - unfold Entry. by rewrite He.
  - unfold TerminalFor. by rewrite He.
  - unfold ToImage. by rewrite He, Hg.
  - intros Hcf. unfold PollCall. simpl. rewrite Hcf. unfold HasConflict. rewrite Hc. unfold TerminalFor. by rewrite He.
  - intros e ev Hl Hi. unfold Event. rewrite decide_True; [done|]. apply Hev. by exists id, e.
  - intros e r Hl Hi. unfold ObserveReceipt. rewrite decide_True; [done|]. apply Hre. by exists id, e.
  - intros Hf. apply fold_frame_agree; try done. destruct f as [s|ev|c|r]; simpl in *; try done.
    + rewrite Hev. intros (i & e & Hl & Hi). apply Hf. by eapply (su_events _ Hs).
    + rewrite Hk. set_solver.
    + rewrite Hre. intros (i & e & Hl & Hi). apply Hf. by eapply (su_receipts _ Hs).
Qed.

(** ** What an image does to a projection that is ahead of it *)

Definition demo_submit : CommandSubmit unit :=
  mkSubmit _ "cmd" "cause" "a" "b" "ns" "do" 1 "key" 0 (mkPolicy DedupeNone false false) "t" "h" tt [].
Definition demo_done : CommandProjection :=
  (run fold_frame NewCommandProjection [FSubmit demo_submit; FEvent (mkEvent "e1" "cmd" EStarted 1 None); FReceipt (AppliedReceipt "r1" "cmd" "b" 1)]).1.
(** The image another replica took before it saw the receipt. *)
Definition demo_stale : CommandProjectionImage :=
  ToImage (run fold_frame NewCommandProjection [FSubmit demo_submit; FEvent (mkEvent "e1" "cmd" EStarted 1 None)]).1.

(** An image older than the projection makes a terminal command running again, and the
    terminal receipt, redelivered, is answered as a duplicate: the call stays pending. *)
Lemma stale_image_unterminates :
  let q := (ApplyProjection demo_done demo_stale).1 in
  PollCall (mkClient ([] : list (CommandMessage unit)) demo_done) "cmd" ≠ Pending ∧
  PollCall (mkClient ([] : list (CommandMessage unit)) q) "cmd" = Pending ∧
  ObserveReceipt q (AppliedReceipt "r1" "cmd" "b" 1) = (q, StatusDuplicate).
Proof. split_and!; [intros H; vm_compute in H; discriminate H|reflexivity|reflexivity]. Qed.

(** Images carry no conflicts: a call that failed closed is resolved after a resync. *)
Lemma image_forgets_conflict :
  let p := (ObserveReceipt demo_done (RejectedReceipt "r2" "cmd" "b" 1)).1 in
  let q := (ApplyProjection NewCommandProjection (ToImage p)).1 in
  HasConflict p "cmd" = true ∧ HasConflict q "cmd" = false ∧ is_Some (TerminalFor q "cmd").
Proof. cbv zeta. split_and!; [reflexivity|reflexivity|]. eexists. reflexivity. Qed.

(** A client submits, sees progress of this and of an old generation, cancels, and gets a
    rejected receipt whose reason says it was cancelled. *)
Lemma Command_demo :
  let c := (IngestCommand (Rpc_Cancel (Rpc_Submit NewCommandRpcClient demo_submit).1 (mkCancel "cmd" "k1" "a" 1 None))
              (NewCommandMessageEvents [mkEvent "e1" "cmd" EProgress 1 None; mkEvent "e2" "cmd" EProgress 0 None])) in
  let d := IngestReceipt c.1 (WithReason (RejectedReceipt "r1" "cmd" "b" 1) "cancelled") in
  c.2 = StatusStaleGeneration 1 0 ∧ PollCall c.1 "cmd" = Pending ∧ d.2 = StatusRecorded ∧ length (sent d.1) = 2%nat ∧
  PollCall d.1 "cmd" = Resolved (mkEntry "cmd" Cancelled true 1 (Some "cancelled") (Some "r1") (Some "e1")).
Proof. cbv zeta. split_and!; reflexivity. Qed.
