(* ===== verification/Distributed.v ===== *)
(** * Distributed: the CRDT plane runtime (distributed.go)

    State-based anti-entropy over last-writer-wins cells, with keyed families whose
    entries materialise on ingest.  The plane is a record; the runtime adds the stream
    a subscriber reads and the closed flag.  A command runs to completion in the owner
    goroutine, so a public method is one step; a [Close] that races with a running
    command is not modelled, nor is the stream's buffer of 64 entries.  Payloads
    ([IpcValue]) are never looked into. *)

From Stdlib Require Import Ascii.
From S2P Require Import Prelude Hlc.
Local Open Scope Z_scope.

(** ** Keys *)

(** [ipc.go] [type NodeKey] *)
Record NodeKey := mkNodeKey { Path : string }.
#[export] Instance NodeKey_eq_dec : EqDecision NodeKey.
Proof. solve_decision. Defined.
(** [strings.Split] with the separator [/]. *)
Fixpoint split_slash (s : string) : list string :=
  match s with
  | EmptyString => [EmptyString]
  | String c s =>
      if decide (c = "/"%char) then EmptyString :: split_slash s
      else match split_slash s with [] => [String c EmptyString] | x :: l => String c x :: l end
  end.
(** [ipc.go] [validateNodeKey] *)
Definition validateNodeKey (path : string) : bool :=
  negb (bool_decide (path = EmptyString)) && bool_decide (String.length path ≤ 1024)%nat &&
  bool_decide (length (split_slash path) ≤ 32)%nat && forallb (λ s, negb (bool_decide (s = EmptyString))) (split_slash path).
(** [ipc.go] [NewNodeKey] *)
Definition NewNodeKey (path : string) : option NodeKey := if validateNodeKey path then Some (mkNodeKey path) else None.
(** [distributed.go] [keyNamespace] *)
Fixpoint keyNamespace (path : string) : string :=
  match path with EmptyString => EmptyString | String c s => if decide (c = "/"%char) then EmptyString else String c (keyNamespace s) end.

(** [distributed.go] [lines 41-45 familyNodeBase] *)
Definition familyNodeBase : Z := 2 ^ 48.

Section plane.
Context {V : Type}.

(** [ipc.go] [type CrdtOp] *)
Record CrdtOp := mkOp { Node : Z; Key : option NodeKey; Stamp : WireStamp; State : V }.
(** [ipc.go] [type CrdtSync] *)
Record CrdtSync := mkSync { Frontier : list StampFrontierEntry; Ops : list CrdtOp }.
(** [distributed.go] [type ConvergedEntry] *)
Record ConvergedEntry := mkEntry { ce_Node : Z; ce_Key : option string; ce_State : V }.

(** [distributed.go] [type opDedupKey] *)
Definition opDedupKey : Type := Z * Z * Z * Z.
(** [distributed.go] [dedupKeyOf] *)
Definition dedupKeyOf (op : CrdtOp) : opDedupKey := (Node op, wsWallTime (Stamp op), wsLogical (Stamp op), wsPeer (Stamp op)).

(** [distributed.go] [type crdtPlaneState] *)
Record crdtPlaneState := mkPlane {
  peer : PeerId; winning : gmap Z CrdtOp; log : gset opDedupKey; ops : list CrdtOp; keyToNode : gmap string Z; nodeToKey : gmap Z (option string);
  frontier : gmap PeerId HlcStamp; membership : gset PeerId; clock : Hlc; families : gset string; familyMembers : gmap string (list NodeKey);
  membershipEpoch : Z; nextFamilyNode : Z }.
(** [distributed.go] [newCrdtPlaneState] *)
Definition newCrdtPlaneState (p : PeerId) : crdtPlaneState := mkPlane p ∅ ∅ [] ∅ ∅ NewStampFrontier ∅ (NewHlc p) ∅ ∅ 0 familyNodeBase.

Definition greater (a b : WireStamp) : bool := HlcStamp_Greater (HlcStampFromWire a) (HlcStampFromWire b).

(** [distributed.go] [crdtPlaneState.observeStamp] *)
Definition observeStamp (s : crdtPlaneState) (st : WireStamp) : crdtPlaneState :=
  mkPlane (peer s) (winning s) (log s) (ops s) (keyToNode s) (nodeToKey s) (StampFrontier_Observe (frontier s) (wsPeer st) (HlcStampFromWire st)).1
    ({[wsPeer st]} ∪ membership s) (clock s) (families s) (familyMembers s) (membershipEpoch s) (nextFamilyNode s).
Definition with_keys (s : crdtPlaneState) (k : gmap string Z) (n : gmap Z (option string)) : crdtPlaneState :=
  mkPlane (peer s) (winning s) (log s) (ops s) k n (frontier s) (membership s) (clock s) (families s) (familyMembers s) (membershipEpoch s) (nextFamilyNode s).
Definition set_winning (s : crdtPlaneState) (n : Z) (op : CrdtOp) : crdtPlaneState :=
  mkPlane (peer s) (<[n := op]> (winning s)) (log s) (ops s) (keyToNode s) (nodeToKey s) (frontier s) (membership s) (clock s) (families s) (familyMembers s)
    (membershipEpoch s) (nextFamilyNode s).
(** [distributed.go] [crdtPlaneState.resolveNode] *)
Definition resolveNode (s : crdtPlaneState) (op : CrdtOp) : crdtPlaneState * Z :=
  match Key op with
  | Some k =>
      match keyToNode s !! Path k with
      | Some existing => (s, existing)
      | None => (with_keys s (<[Path k := Node op]> (keyToNode s)) (<[Node op := Some (Path k)]> (nodeToKey s)), Node op)
      end
  | None =>
      match nodeToKey s !! Node op with
      | Some _ => (s, Node op)
      | None => (with_keys s (keyToNode s) (<[Node op := None]> (nodeToKey s)), Node op)
      end
  end.

(** ** Families *)

(** [distributed.go] [crdtPlaneState.registerFamilyLww] *)
Definition registerFamilyLww (s : crdtPlaneState) (ns : string) : crdtPlaneState :=
  mkPlane (peer s) (winning s) (log s) (ops s) (keyToNode s) (nodeToKey s) (frontier s) (membership s) (clock s) ({[ns]} ∪ families s)
    (match familyMembers s !! ns with Some _ => familyMembers s | None => <[ns := []]> (familyMembers s) end) (membershipEpoch s) (nextFamilyNode s).
(** [distributed.go] [crdtPlaneState.bumpMembershipEpoch] *)
Definition bumpMembershipEpoch (s : crdtPlaneState) : crdtPlaneState :=
  mkPlane (peer s) (winning s) (log s) (ops s) (keyToNode s) (nodeToKey s) (frontier s) (membership s) (clock s) (families s) (familyMembers s)
    (membershipEpoch s +ᵤ 1)%go (nextFamilyNode s).
(** Each id in use is tried once, so their number bounds the turns.
    [distributed.go] [lines 329-335 crdtPlaneState.mintFamilyNode] *)
Fixpoint mint (fuel : nat) (w : gmap Z CrdtOp) (next : Z) : Z * Z :=
  match fuel with
  | O => (next, next)
  | S fuel => let next' := (next +ₛ 1)%go in match w !! next with None => (next, next') | Some _ => mint fuel w next' end
  end.
(** [distributed.go] [crdtPlaneState.mintFamilyNode] *)
Definition mintFamilyNode (s : crdtPlaneState) : crdtPlaneState * Z :=
  let '(node, next) := mint (S (size (winning s))) (winning s) (nextFamilyNode s) in
  (mkPlane (peer s) (winning s) (log s) (ops s) (keyToNode s) (nodeToKey s) (frontier s) (membership s) (clock s) (families s) (familyMembers s)
     (membershipEpoch s) next, node).
(** [distributed.go] [crdtPlaneState.recordFamilyMember] *)
Definition recordFamilyMember (s : crdtPlaneState) (ns : string) (key : NodeKey) : crdtPlaneState :=
  let members := default [] (familyMembers s !! ns) in
  if existsb (λ k, bool_decide (Path k = Path key)) members then s
  else
    mkPlane (peer s) (winning s) (log s) (ops s) (keyToNode s) (nodeToKey s) (frontier s) (membership s) (clock s) (families s)
      (<[ns := members ++ [key]]> (familyMembers s)) (membershipEpoch s) (nextFamilyNode s).
(** [distributed.go] [crdtPlaneState.materializeFamilyEntry] *)
Definition materializeFamilyEntry (s : crdtPlaneState) (ns : string) (key : NodeKey) (state : V) (stamp : WireStamp) : crdtPlaneState * Z :=
  let s := recordFamilyMember s ns key in
  let '(s, node) := mintFamilyNode s in
  let s := with_keys s (<[Path key := node]> (keyToNode s)) (<[node := Some (Path key)]> (nodeToKey s)) in
  (bumpMembershipEpoch (set_winning s node (mkOp node (Some key) stamp state)), node).
(** A known key has a winning op, or Go reads the zero op: no key, the zero stamp. *)
Definition zero_stamp : WireStamp := mkWireStamp 0 0 0.
Definition existing_of (s : crdtPlaneState) (node : Z) : option NodeKey * WireStamp :=
  match winning s !! node with Some op => (Key op, Stamp op) | None => (None, zero_stamp) end.
(** [distributed.go] [crdtPlaneState.ingestFamilyOp] *)
Definition ingestFamilyOp (s : crdtPlaneState) (op : CrdtOp) (key : NodeKey) : crdtPlaneState * Z * bool :=
  match keyToNode s !! Path key with
  | Some node =>
      let '(k, st) := existing_of s node in
      if greater (Stamp op) st then (set_winning s node (mkOp node k (Stamp op) (State op)), node, true) else (s, node, false)
  | None => let '(s, node) := materializeFamilyEntry s (keyNamespace (Path key)) key (State op) (Stamp op) in (s, node, true)
  end.
Definition append_op (s : crdtPlaneState) (op : CrdtOp) : crdtPlaneState :=
  mkPlane (peer s) (winning s) ({[dedupKeyOf op]} ∪ log s) (ops s ++ [op]) (keyToNode s) (nodeToKey s) (frontier s) (membership s) (clock s) (families s)
    (familyMembers s) (membershipEpoch s) (nextFamilyNode s).
(** [distributed.go] [crdtPlaneState.recordLocalOp] *)
Definition recordLocalOp (s : crdtPlaneState) (op : CrdtOp) : crdtPlaneState := if decide (dedupKeyOf op ∈ log s) then s else append_op s op.

Definition with_clock (s : crdtPlaneState) (h : Hlc) : crdtPlaneState :=
  mkPlane (peer s) (winning s) (log s) (ops s) (keyToNode s) (nodeToKey s) (frontier s) (membership s) h (families s) (familyMembers s) (membershipEpoch s) (nextFamilyNode s).
(** [distributed.go] [crdtPlaneState.familySetLww] *)
Definition familySetLww (s : crdtPlaneState) (ns suffix : string) (state : V) (now : Z) : crdtPlaneState * option CrdtOp :=
  match NewNodeKey (String.append ns (String.append "/" suffix)) with
  | None => (s, None)
  | Some key =>
      let '(h, hlc) := Hlc_Tick (clock s) now in
      let stamp := HlcStamp_ToWire hlc in
      let s := observeStamp (with_clock s h) stamp in
      match keyToNode s !! Path key with
      | Some node =>
          let '(k, st) := existing_of s node in
          if negb (HlcStamp_Greater hlc (HlcStampFromWire st)) then (s, None)
          else let op := mkOp node k stamp state in (recordLocalOp (set_winning s node op) op, Some op)
      | None =>
          let '(s, node) := materializeFamilyEntry s ns key state stamp in
          let op := mkOp node (Some key) stamp state in (recordLocalOp s op, Some op)
      end
  end.
(** [distributed.go] [crdtPlaneState.familyKeys] *)
Definition familyKeys (s : crdtPlaneState) (ns : string) : list NodeKey := default [] (familyMembers s !! ns).
(** [distributed.go] [crdtPlaneState.familyValueLww] *)
Definition familyValueLww (s : crdtPlaneState) (ns suffix : string) : option V :=
  key ← NewNodeKey (String.append ns (String.append "/" suffix)); node ← keyToNode s !! Path key; op ← winning s !! node; Some (State op).

(** ** Ingest *)

(** One op that is not in the log.
    [distributed.go] [lines 214-241 crdtPlaneState.ingestOps] *)
Definition ingest_new (s : crdtPlaneState) (op : CrdtOp) : crdtPlaneState * option Z :=
  let s := observeStamp (append_op s op) (Stamp op) in
  let plain s :=
    let s := (resolveNode s op).1 in
    if match winning s !! Node op with None => true | Some e => greater (Stamp op) (Stamp e) end then (set_winning s (Node op) op, Some (Node op)) else (s, None) in
  match Key op with
  | Some key =>
      if decide (keyNamespace (Path key) ∈ families s)
      then let '(s, node, ch) := ingestFamilyOp s op key in (s, if ch then Some node else None)
      else plain s
  | None => plain s
  end.
(** [distributed.go] [lines 207-242 crdtPlaneState.ingestOps] *)
Fixpoint ingest_loop (s : crdtPlaneState) (l : list CrdtOp) (applied : nat) (changed : gset Z) : crdtPlaneState * nat * gset Z :=
  match l with
  | [] => (s, applied, changed)
  | op :: l =>
      if decide (dedupKeyOf op ∈ log s) then ingest_loop s l applied changed
      else let '(s, ch) := ingest_new s op in ingest_loop s l (S applied) (match ch with Some n => {[n]} ∪ changed | None => changed end)
  end.
Definition ascending (s : gset Z) : list Z := merge_sort Z.le (elements s).
(** [distributed.go] [crdtPlaneState.ingestOps] *)
Definition ingestOps (s : crdtPlaneState) (l : list CrdtOp) : crdtPlaneState * nat * list Z :=
  let '(s, applied, changed) := ingest_loop s l 0 ∅ in (s, applied, ascending changed).
(** [distributed.go] [crdtPlaneState.ingest] *)
Definition ingest (s : crdtPlaneState) (m : CrdtSync) : crdtPlaneState * nat * list Z :=
  ingestOps (foldl (λ s e, observeStamp s (sfeStamp e)) s (Frontier m)) (Ops m).
(** [distributed.go] [crdtPlaneState.nodes] *)
Definition nodes (s : crdtPlaneState) : list Z := ascending (dom (winning s)).
(** [distributed.go] [crdtPlaneState.entryFor] [crdtPlaneState.convergedFor] *)
Definition convergedFor (s : crdtPlaneState) (l : list Z) : list ConvergedEntry :=
  omap (λ n, (λ op, mkEntry n (mjoin (nodeToKey s !! n)) (State op)) <$> winning s !! n) l.
(** [distributed.go] [crdtPlaneState.converged] *)
Definition converged (s : crdtPlaneState) : list ConvergedEntry := convergedFor s (nodes s).

(** ** The runtime *)

(** The stream is what a subscriber was sent.
    [distributed.go] [type CrdtPlaneRuntime] *)
Record CrdtPlaneRuntime := mkRuntime { rt_peer : PeerId; state : crdtPlaneState; stream : option (list ConvergedEntry); closed : bool }.
(** [distributed.go] [NewCrdtPlaneRuntime] *)
Definition NewCrdtPlaneRuntime (p : PeerId) : CrdtPlaneRuntime := mkRuntime p (newCrdtPlaneState p) None false.
(** A command and the fan-out of its events; nothing happens after [Close].
    [distributed.go] [CrdtPlaneRuntime.submit] [CrdtPlaneRuntime.loop] *)
Definition submit {A} (r : CrdtPlaneRuntime) (none : A) (run : crdtPlaneState → crdtPlaneState * list ConvergedEntry * A) : CrdtPlaneRuntime * A :=
  if closed r then (r, none)
  else let '(s, events, a) := run (state r) in (mkRuntime (rt_peer r) s ((λ l, l ++ events) <$> stream r) false, a).
(** The stream ends when the runtime closes.
    [distributed.go] [CrdtPlaneRuntime.Close] [CrdtPlaneRuntime.closeStream] *)
Definition Close (r : CrdtPlaneRuntime) : CrdtPlaneRuntime := mkRuntime (rt_peer r) (state r) None true.
(** The most recent subscriber wins; after [Close] it gets a closed channel.
    [distributed.go] [CrdtPlaneRuntime.ConvergedStream] *)
Definition ConvergedStream (r : CrdtPlaneRuntime) : CrdtPlaneRuntime := if closed r then r else mkRuntime (rt_peer r) (state r) (Some []) false.
(** [distributed.go] [CrdtPlaneRuntime.IngestOps] *)
Definition IngestOps (r : CrdtPlaneRuntime) (l : list CrdtOp) : CrdtPlaneRuntime * nat :=
  submit r O (λ s, let '(s, a, changed) := ingestOps s l in (s, convergedFor s changed, a)).
(** [distributed.go] [CrdtPlaneRuntime.Ingest] *)
Definition Ingest (r : CrdtPlaneRuntime) (m : CrdtSync) : CrdtPlaneRuntime * nat :=
  submit r O (λ s, let '(s, a, changed) := ingest s m in (s, convergedFor s changed, a)).
Definition query {A} (r : CrdtPlaneRuntime) (none : A) (f : crdtPlaneState → A) : A := (submit r none (λ s, (s, [], f s))).2.
(** [distributed.go] [CrdtPlaneRuntime.Converged] *)
Definition Converged (r : CrdtPlaneRuntime) : list ConvergedEntry := query r [] converged.
(** [distributed.go] [CrdtPlaneRuntime.WinningOp] *)
Definition WinningOp (r : CrdtPlaneRuntime) (n : Z) : option CrdtOp := query r None (λ s, winning s !! n).
(** [distributed.go] [CrdtPlaneRuntime.Value] *)
Definition Value (r : CrdtPlaneRuntime) (n : Z) : option V := query r None (λ s, State <$> winning s !! n).
(** [distributed.go] [CrdtPlaneRuntime.Nodes] *)
Definition Nodes (r : CrdtPlaneRuntime) : list Z := query r [] nodes.
(** [distributed.go] [CrdtPlaneRuntime.Size] *)
Definition Size (r : CrdtPlaneRuntime) : nat := query r O (λ s, size (winning s)).
(** [distributed.go] [CrdtPlaneRuntime.IsEmpty] *)
Definition IsEmpty (r : CrdtPlaneRuntime) : bool := query r true (λ s, bool_decide (size (winning s) = O)).
(** [distributed.go] [CrdtPlaneRuntime.Membership] *)
Definition Membership (r : CrdtPlaneRuntime) : list PeerId := query r [] (λ s, peers_sorted (membership s)).
(** [distributed.go] [CrdtPlaneRuntime.FrontierEntries] *)
Definition FrontierEntries (r : CrdtPlaneRuntime) : list StampFrontierEntry := query r [] (λ s, StampFrontier_ToWire (frontier s)).
(** [distributed.go] [CrdtPlaneRuntime.Ops] *)
Definition Runtime_Ops (r : CrdtPlaneRuntime) : list CrdtOp := query r [] ops.
(** [distributed.go] [CrdtPlaneRuntime.RegisterFamilyLww] *)
Definition RegisterFamilyLww (r : CrdtPlaneRuntime) (ns : string) : CrdtPlaneRuntime := (submit r tt (λ s, (registerFamilyLww s ns, [], tt))).1.
(** [distributed.go] [CrdtPlaneRuntime.FamilySetLww] *)
Definition FamilySetLww (r : CrdtPlaneRuntime) (ns suffix : string) (v : V) (now : Z) : CrdtPlaneRuntime * option CrdtOp :=
  submit r None (λ s, let '(s, op) := familySetLww s ns suffix v now in (s, match op with Some o => convergedFor s [Node o] | None => [] end, op)).
(** [distributed.go] [CrdtPlaneRuntime.FamilyKeys] *)
Definition FamilyKeys (r : CrdtPlaneRuntime) (ns : string) : list NodeKey := query r [] (λ s, familyKeys s ns).
(** [distributed.go] [CrdtPlaneRuntime.FamilyValueLww] *)
Definition FamilyValueLww (r : CrdtPlaneRuntime) (ns suffix : string) : option V := query r None (λ s, familyValueLww s ns suffix).
(** [distributed.go] [CrdtPlaneRuntime.MembershipEpoch] *)
Definition MembershipEpoch (r : CrdtPlaneRuntime) : Z := query r 0 membershipEpoch.
End plane.
Arguments CrdtOp : clear implicits.
Arguments CrdtSync : clear implicits.
Arguments crdtPlaneState : clear implicits.
Arguments CrdtPlaneRuntime : clear implicits.

(** ** The plane is a function of its log *)

Section converge.
Context {V : Type}.
Implicit Types (s : crdtPlaneState V) (op : CrdtOp V) (l : list (CrdtOp V)) (fs : gset string).

(** The key under which an op is a family entry. *)
Definition family_path fs op : option string :=
  match Key op with Some k => if decide (keyNamespace (Path k) ∈ fs) then Some (Path k) else None | None => None end.
Definition plain_ops fs (n : Z) l : list (CrdtOp V) := filter (λ op, family_path fs op = None ∧ Node op = n) l.
Definition key_ops fs (path : string) l : list (CrdtOp V) := filter (λ op, family_path fs op = Some path) l.
(** The op of the greatest stamp, the first of equals. *)
Definition better (b : option (CrdtOp V)) op : option (CrdtOp V) :=
  match b with None => Some op | Some x => if greater (Stamp op) (Stamp x) then Some op else Some x end.
Definition best l : option (CrdtOp V) := foldl better None l.

Lemma best_snoc l op : best (l ++ [op]) = better (best l) op.
Proof. unfold best. by rewrite foldl_app. Qed.
Lemma plain_ops_snoc fs n l op : plain_ops fs n (l ++ [op]) = plain_ops fs n l ++ (if decide (family_path fs op = None ∧ Node op = n) then [op] else []).
Proof. unfold plain_ops. by rewrite filter_app, filter_cons, filter_nil. Qed.
Lemma key_ops_snoc fs path l op : key_ops fs path (l ++ [op]) = key_ops fs path l ++ (if decide (family_path fs op = Some path) then [op] else []).
Proof. unfold key_ops. by rewrite filter_app, filter_cons, filter_nil. Qed.
Lemma family_path_Some fs op path : family_path fs op = Some path → keyNamespace path ∈ fs ∧ Key op = Some (mkNodeKey path).
Proof. unfold family_path. destruct (Key op) as [[k]|]; [|done]. simpl. case_decide; [|done]. by intros [= <-]. Qed.
Lemma greater_lt a b : greater a b = true ↔ HlcStamp_Compare (HlcStampFromWire b) (HlcStampFromWire a) < 0.
Proof. unfold greater, HlcStamp_Greater. rewrite (HlcStamp_Compare_flip (HlcStampFromWire b)). lia. Qed.

Record plane_ok fs s : Prop := {
  po_fams : families s = fs;
  po_log d : d ∈ log s ↔ d ∈ dedupKeyOf <$> ops s;
  po_nodup : NoDup (dedupKeyOf <$> ops s);
  po_plain n : n < familyNodeBase → winning s !! n = best (plain_ops fs n (ops s));
  po_key path : keyNamespace path ∈ fs →
    match best (key_ops fs path (ops s)) with
    | None => keyToNode s !! path = None
    | Some b => ∃ node, keyToNode s !! path = Some node ∧ familyNodeBase ≤ node ∧ winning s !! node = Some (mkOp node (Some (mkNodeKey path)) (Stamp b) (State b))
    end;
  po_low path n : keyNamespace path ∉ fs → keyToNode s !! path = Some n → n < familyNodeBase;
  po_high n op : winning s !! n = Some op → familyNodeBase ≤ n → n < nextFamilyNode s;
  po_members ns : ns ∈ fs → NoDup (familyKeys s ns) ∧ ∀ k, k ∈ familyKeys s ns ↔ keyNamespace (Path k) = ns ∧ is_Some (keyToNode s !! Path k);
  po_next : familyNodeBase ≤ nextFamilyNode s ≤ familyNodeBase + Z.of_nat (length (ops s));
  po_own op : op ∈ ops s → wsPeer (Stamp op) = peer s → HlcStamp_Compare (HlcStampFromWire (Stamp op)) (Hlc_last (clock s)) ≤ 0;
  po_clock : hlc_peer (clock s) = peer s }.

(** The clock may move on as long as its last stamp does not fall. *)
Definition later s (h : Hlc) : Prop := hlc_peer h = peer s ∧ ∀ st, HlcStamp_Compare st (Hlc_last (clock s)) ≤ 0 → HlcStamp_Compare st (Hlc_last h) ≤ 0.

(** What appending an op means for the log. *)
Record extends s s' op : Prop := {
  ex_fams : families s' = families s; ex_peer : peer s' = peer s; ex_log : log s' = {[dedupKeyOf op]} ∪ log s; ex_ops : ops s' = ops s ++ [op];
  ex_fresh : dedupKeyOf op ∉ log s; ex_later : later s (clock s');
  ex_own : wsPeer (Stamp op) = peer s → HlcStamp_Compare (HlcStampFromWire (Stamp op)) (Hlc_last (clock s')) ≤ 0 }.

Lemma extends_log fs s s' op : plane_ok fs s → extends s s' op →
  (∀ d, d ∈ log s' ↔ d ∈ dedupKeyOf <$> ops s') ∧ NoDup (dedupKeyOf <$> ops s') ∧
  (∀ o, o ∈ ops s' → wsPeer (Stamp o) = peer s' → HlcStamp_Compare (HlcStampFromWire (Stamp o)) (Hlc_last (clock s')) ≤ 0) ∧ hlc_peer (clock s') = peer s' ∧ families s' = fs.
Proof.
  intros Hok [e1 e2 e3 e4 e5 [e6 e6'] e7]. rewrite e2, e3, e4, fmap_app. cbn [fmap list_fmap]. split_and!.
  - intros d. rewrite elem_of_union, elem_of_singleton, elem_of_app, list_elem_of_singleton, (po_log _ _ Hok). tauto.
  - apply NoDup_app. split_and!; [apply Hok| |apply NoDup_singleton]. intros d Hd ->%list_elem_of_singleton. by rewrite <-(po_log _ _ Hok) in Hd.
  - intros o [Ho| ->%list_elem_of_singleton]%elem_of_app Hp; [|by apply e7]. by apply e6', (po_own _ _ Hok).
  - done.
  - rewrite e1. apply Hok.
Qed.

(** A plain op. *)
Lemma plain_ok fs s s' op :
  plane_ok fs s → extends s s' op → family_path fs op = None → Node op < familyNodeBase →
  keyToNode s' = keyToNode (resolveNode s op).1 → familyMembers s' = familyMembers s → nextFamilyNode s' = nextFamilyNode s →
  winning s' = (if match winning s !! Node op with None => true | Some e => greater (Stamp op) (Stamp e) end then <[Node op := op]> (winning s) else winning s) →
  plane_ok fs s'.
Proof.
  intros Hok Hex Hpl Hlow Hk Hm Hn Hw. destruct (extends_log fs s s' op Hok Hex) as (L1 & L2 & L3 & L4 & L5).
  pose proof (ex_ops _ _ _ Hex) as Hops.
  assert (Hkey : ∀ path, keyNamespace path ∈ fs → keyToNode s' !! path = keyToNode s !! path).
  { intros path Hp. rewrite Hk. unfold resolveNode. unfold family_path in Hpl. destruct (Key op) as [k|] eqn:Ek; [|by destruct (nodeToKey s !! Node op)].
    case_decide as Hd; [done|]. destruct (keyToNode s !! Path k); simpl; [done|]. rewrite lookup_insert_ne; [done|]. intros Heq. by rewrite <-Heq in Hp. }
  assert (Hwin : ∀ n, n ≠ Node op → winning s' !! n = winning s !! n).
  { intros n Hne. rewrite Hw. destruct (match winning s !! Node op with None => true | Some e => greater (Stamp op) (Stamp e) end); [by rewrite lookup_insert_ne|done]. }
  split; try done.
  - intros n Hb. rewrite Hops, plain_ops_snoc. destruct (decide (n = Node op)) as [->|Hne].
    + rewrite decide_True, best_snoc, <-(po_plain _ _ Hok) by done. rewrite Hw. unfold better. destruct (winning s !! Node op) as [e|] eqn:Ee; [destruct (greater _ _)|]; rewrite ?lookup_insert_eq; done.
    + rewrite decide_False by naive_solver. rewrite app_nil_r, Hwin by done. by apply Hok.
  - intros path Hp. rewrite Hops, key_ops_snoc, decide_False, app_nil_r by (rewrite Hpl; done). rewrite Hkey by done. pose proof (po_key _ _ Hok path Hp) as Ho.
    destruct (best _) as [b|]; [|done]. destruct Ho as (node & H1 & H2 & H3). exists node. split_and!; try done. rewrite Hwin; [done|lia].
  - intros path n Hp. rewrite Hk. unfold resolveNode. destruct (Key op) as [k|]; [|destruct (nodeToKey s !! Node op); by apply Hok].
    destruct (keyToNode s !! Path k); simpl; [by apply Hok|]. rewrite lookup_insert_Some. intros [[<- <-]|[_ Hl]]; [done|by eapply (po_low _ _ Hok)].
  - intros n o Ho Hb. rewrite Hn. apply (po_high _ _ Hok n o); [|done]. rewrite Hwin in Ho by lia. done.
  - intros ns Hns. unfold familyKeys. rewrite Hm. destruct (po_members _ _ Hok ns Hns) as [H1 H2]. split; [done|]. intros k. unfold familyKeys in H2. rewrite H2.
    split; intros [<- Hs]; (split; [done|]); by rewrite Hkey in *.
  - rewrite Hn, Hops, length_app. pose proof (po_next _ _ Hok). simpl. lia.
Qed.

(** A family op whose key is known: last writer wins at the local node. *)
Lemma known_ok fs s s' op path node :
  plane_ok fs s → extends s s' op → family_path fs op = Some path → keyToNode s !! path = Some node →
  keyToNode s' = keyToNode s → familyMembers s' = familyMembers s → nextFamilyNode s' = nextFamilyNode s →
  (let '(k, st) := existing_of s node in winning s' = if greater (Stamp op) st then <[node := mkOp node k (Stamp op) (State op)]> (winning s) else winning s) →
  plane_ok fs s'.
Proof.
  intros Hok Hex Hf Hnode Hk Hm Hn Hw. destruct (extends_log fs s s' op Hok Hex) as (L1 & L2 & L3 & L4 & L5). pose proof (ex_ops _ _ _ Hex) as Hops.
  destruct (family_path_Some _ _ _ Hf) as [Hfam Hko]. pose proof (po_key _ _ Hok path Hfam) as Hkey. destruct (best (key_ops fs path (ops s))) as [b|] eqn:Eb; [|congruence].
  destruct Hkey as (node' & H1 & H2 & H3). assert (node' = node) as -> by congruence. unfold existing_of in Hw. rewrite H3 in Hw. simpl in Hw.
  assert (Hwin : ∀ n, n ≠ node → winning s' !! n = winning s !! n) by (intros n Hne; rewrite Hw; destruct (greater _ _); [by rewrite lookup_insert_ne|done]).
  split; try done.
  - intros n Hb. rewrite Hops, plain_ops_snoc, decide_False, app_nil_r by (rewrite Hf; naive_solver). rewrite Hwin by lia. by apply Hok.
  - intros p Hp. rewrite Hops, key_ops_snoc, Hk. destruct (decide (p = path)) as [->|Hne].
    + rewrite decide_True, best_snoc, Eb by done. simpl. rewrite Hw. destruct (greater (Stamp op) (Stamp b)); exists node; rewrite ?lookup_insert_eq; done.
    + rewrite decide_False, app_nil_r by congruence. pose proof (po_key _ _ Hok p Hp) as Ho. destruct (best (key_ops fs p (ops s))) as [b'|]; [|done].
      destruct Ho as (n' & ? & ? & Hx). exists n'. split_and!; try done. rewrite Hwin; [done|]. intros ->. rewrite H3 in Hx. by injection Hx as ?.
  - intros p n Hp. rewrite Hk. by apply Hok.
  - intros n o Ho Hb. rewrite Hn. rewrite Hw in Ho. destruct (greater _ _); [|by eapply (po_high _ _ Hok)].
    apply lookup_insert_Some in Ho as [[<- _]|[_ Ho]]; [by eapply (po_high _ _ Hok)|by eapply (po_high _ _ Hok)].
  - intros ns Hns. unfold familyKeys. rewrite Hm, Hk. by apply Hok.
  - rewrite Hn, Hops, length_app. pose proof (po_next _ _ Hok). simpl. lia.
Qed.

(** A family op whose key is new: it gets the next local node. *)
Lemma new_ok fs s s' op path (node := nextFamilyNode s) :
  plane_ok fs s → extends s s' op → family_path fs op = Some path → keyToNode s !! path = None →
  keyToNode s' = <[path := node]> (keyToNode s) → nextFamilyNode s' = node + 1 →
  familyMembers s' = <[keyNamespace path := familyKeys s (keyNamespace path) ++ [mkNodeKey path]]> (familyMembers s) →
  winning s' = <[node := mkOp node (Some (mkNodeKey path)) (Stamp op) (State op)]> (winning s) → plane_ok fs s'.
Proof.
  intros Hok Hex Hf Hnone Hk Hn Hm Hw. destruct (extends_log fs s s' op Hok Hex) as (L1 & L2 & L3 & L4 & L5). pose proof (ex_ops _ _ _ Hex) as Hops.
  destruct (family_path_Some _ _ _ Hf) as [Hfam Hko]. pose proof (po_next _ _ Hok) as Hnext. fold node in Hnext.
  assert (Hbest : best (key_ops fs path (ops s)) = None).
  { pose proof (po_key _ _ Hok path Hfam) as Ho. destruct (best _); [|done]. destruct Ho as (? & ? & _). congruence. }
  split; try done.
  - intros n Hb. rewrite Hops, plain_ops_snoc, decide_False, app_nil_r by (rewrite Hf; naive_solver). rewrite Hw, lookup_insert_ne by lia. by apply Hok.
  - intros p Hp. rewrite Hops, key_ops_snoc, Hk, Hw. destruct (decide (p = path)) as [->|Hne].
    + rewrite decide_True, best_snoc, Hbest by done. simpl. exists node. rewrite !lookup_insert_eq. split_and!; [done|lia|done].
    + rewrite decide_False, app_nil_r by congruence. rewrite (lookup_insert_ne (keyToNode s)) by done. pose proof (po_key _ _ Hok p Hp) as Ho. destruct (best (key_ops fs p (ops s))) as [b'|]; [|done].
      destruct Ho as (n' & ? & ? & Hx). exists n'. split_and!; try done. rewrite lookup_insert_ne; [done|]. intros <-. pose proof (po_high _ _ Hok _ _ Hx ltac:(lia)). subst node. lia.
  - intros p n Hp. rewrite Hk, lookup_insert_Some. intros [[<- _]|[_ Hl]]; [done|by eapply (po_low _ _ Hok)].
  - intros n o. rewrite Hw, Hn, lookup_insert_Some. intros [[<- _]|[_ Ho]] Hb; [lia|]. pose proof (po_high _ _ Hok _ _ Ho Hb). subst node. lia.
  - intros ns Hns. unfold familyKeys. rewrite Hm, Hk. destruct (po_members _ _ Hok ns Hns) as [H1 H2]. unfold familyKeys in H1, H2.
    destruct (decide (keyNamespace path = ns)) as [<-|Hne].
    + rewrite lookup_insert_eq. simpl. unfold familyKeys. split.
      * apply NoDup_app. split_and!; [done| |apply NoDup_singleton]. intros k Hk' ->%list_elem_of_singleton. apply H2 in Hk' as [_ Hs]. simpl in Hs. rewrite Hnone in Hs. by destruct Hs.
      * intros k. rewrite elem_of_app, list_elem_of_singleton, H2. destruct k as [kp]. simpl. destruct (decide (path = kp)) as [<-|Hkp].
        -- rewrite lookup_insert_eq. split; [intros _; by split|]. intros _. by right.
        -- rewrite lookup_insert_ne by done. split; [intros [?|[= ?]]; [done|congruence]|by left].
    + rewrite lookup_insert_ne by done. split; [done|]. intros k. rewrite H2. destruct k as [kp]. simpl.
      split; intros [<- Hs]; (split; [done|]); (destruct (decide (path = kp)) as [<-|Hkp]; [done|]); by rewrite lookup_insert_ne in *.
  - rewrite Hn, Hops, length_app. simpl. lia.
Qed.

Lemma observe_ok fs s st : plane_ok fs s → plane_ok fs (observeStamp s st).
Proof. by intros []. Qed.
Lemma later_refl s : hlc_peer (clock s) = peer s → later s (clock s).
Proof. by split. Qed.

Lemma mint_next s : winning s !! nextFamilyNode s = None → nextFamilyNode s < max_i64 → - two63 ≤ nextFamilyNode s →
  (mintFamilyNode s).2 = nextFamilyNode s ∧ nextFamilyNode (mintFamilyNode s).1 = nextFamilyNode s + 1 ∧
  winning (mintFamilyNode s).1 = winning s ∧ familyMembers (mintFamilyNode s).1 = familyMembers s ∧ keyToNode (mintFamilyNode s).1 = keyToNode s.
Proof. intros Hw Hm Hl. unfold mintFamilyNode. simpl. rewrite Hw. simpl. rewrite i64_small by zrange. done. Qed.

(** What a materialisation changes. *)
Lemma materialize_spec s ns path v st (node := nextFamilyNode s) :
  winning s !! node = None → - two63 ≤ node < max_i64 → mkNodeKey path ∉ familyKeys s ns →
  let r := materializeFamilyEntry s ns (mkNodeKey path) v st in
  r.2 = node ∧ keyToNode r.1 = <[path := node]> (keyToNode s) ∧ nextFamilyNode r.1 = node + 1 ∧
  familyMembers r.1 = <[ns := familyKeys s ns ++ [mkNodeKey path]]> (familyMembers s) ∧
  winning r.1 = <[node := mkOp node (Some (mkNodeKey path)) st v]> (winning s) ∧
  families r.1 = families s ∧ peer r.1 = peer s ∧ log r.1 = log s ∧ ops r.1 = ops s ∧ clock r.1 = clock s.
Proof.
  intros Hw Hn Hnone. unfold materializeFamilyEntry, recordFamilyMember.
  assert (Hex : existsb (λ k, bool_decide (Path k = Path (mkNodeKey path))) (default [] (familyMembers s !! ns)) = false).
  { apply not_true_is_false. intros ([k] & Hk & Hp%bool_decide_eq_true)%existsb_exists. simpl in Hp. subst k. apply list_elem_of_In in Hk. done. }
  rewrite Hex. set (s1 := mkPlane _ _ _ _ _ _ _ _ _ _ _ _ _).
  destruct (mint_next s1 Hw) as (M1 & M2 & M3 & M4 & M5); [simpl; lia..|].
  assert (M6 : families (mintFamilyNode s1).1 = families s ∧ peer (mintFamilyNode s1).1 = peer s ∧ log (mintFamilyNode s1).1 = log s ∧ ops (mintFamilyNode s1).1 = ops s ∧ clock (mintFamilyNode s1).1 = clock s)
    by (unfold mintFamilyNode; by destruct (mint _ _ _)).
  destruct (mintFamilyNode s1) as [s2 n]. cbn [fst snd] in *. subst n. simpl. rewrite M3, M4, M5. by destruct M6 as (? & ? & ? & ? & ?).
Qed.
Lemma new_entry_facts fs s path :
  plane_ok fs s → keyNamespace path ∈ fs → keyToNode s !! path = None → Z.of_nat (length (ops s)) < 2 ^ 62 →
  winning s !! nextFamilyNode s = None ∧ - two63 ≤ nextFamilyNode s < max_i64 ∧ mkNodeKey path ∉ familyKeys s (keyNamespace path).
Proof.
  intros Hok Hfam Hnone Hlen. pose proof (po_next _ _ Hok) as Hnext. split_and!.
  - destruct (winning s !! nextFamilyNode s) as [o|] eqn:Eo; [|done]. pose proof (po_high _ _ Hok _ _ Eo ltac:(lia)). lia.
  - unfold two63, familyNodeBase in *. lia.
  - unfold max_i64, two63, familyNodeBase in *. lia.
  - intros Hin. apply (po_members _ _ Hok _ Hfam) in Hin as [_ Hs]. simpl in Hs. rewrite Hnone in Hs. by destruct Hs.
Qed.

Lemma ingest_new_ok fs s op :
  plane_ok fs s → dedupKeyOf op ∉ log s → (family_path fs op = None → Node op < familyNodeBase) → wsPeer (Stamp op) ≠ peer s →
  Z.of_nat (length (ops s)) < 2 ^ 62 → plane_ok fs (ingest_new s op).1 ∧ ops (ingest_new s op).1 = ops s ++ [op] ∧
  log (ingest_new s op).1 = {[dedupKeyOf op]} ∪ log s ∧ peer (ingest_new s op).1 = peer s ∧ clock (ingest_new s op).1 = clock s.
Proof.
  intros Hok Hd Hlow Hp Hlen. pose proof (po_fams _ _ Hok) as Hfs.
  assert (Hext : ∀ s', families s' = families s → peer s' = peer s → log s' = {[dedupKeyOf op]} ∪ log s → ops s' = ops s ++ [op] → clock s' = clock s → extends s s' op).
  { intros s' H1 H2 H3 H4 H5. split; try done. rewrite H5. apply later_refl, Hok. }
  set (s1 := observeStamp (append_op s op) (Stamp op)).
  assert (Hplain : family_path fs op = None → let r := (let s2 := (resolveNode s1 op).1 in
     if match winning s2 !! Node op with None => true | Some e => greater (Stamp op) (Stamp e) end then (set_winning s2 (Node op) op, Some (Node op)) else (s2, None)) in
     plane_ok fs r.1 ∧ ops r.1 = ops s ++ [op] ∧ log r.1 = {[dedupKeyOf op]} ∪ log s ∧ peer r.1 = peer s ∧ clock r.1 = clock s).
  { intros Hf. cbv zeta.
    assert (Hr : ∀ s2, s2 = (resolveNode s1 op).1 → winning s2 = winning s ∧ families s2 = families s ∧ peer s2 = peer s ∧ log s2 = {[dedupKeyOf op]} ∪ log s ∧ ops s2 = ops s ++ [op] ∧
      clock s2 = clock s ∧ familyMembers s2 = familyMembers s ∧ nextFamilyNode s2 = nextFamilyNode s ∧ keyToNode s2 = keyToNode (resolveNode s op).1).
    { intros s2 ->. unfold resolveNode, s1. simpl. destruct (Key op) as [k|]; [by destruct (keyToNode s !! Path k)|by destruct (nodeToKey s !! Node op)]. }
    destruct (Hr _ eq_refl) as (R1 & R2 & R3 & R4 & R5 & R6 & R7 & R8 & R9). rewrite R1. set (b := match winning s !! Node op with None => true | Some e => _ end) in *.
    destruct b eqn:Eb; cbn [fst]; (split; [|by split_and!]); (eapply (plain_ok fs s _ op); [done|by apply Hext|done|by apply Hlow|done|done|done|]); fold b; rewrite Eb; [|done]. simpl. by rewrite R1. }
  unfold ingest_new. fold s1. unfold family_path in Hplain, Hlow. destruct (Key op) as [k|] eqn:Ek; [|by apply Hplain].
  assert (families s1 = fs) as -> by done. case_decide as Hfam; [|by apply Hplain]. clear Hplain Hlow.
  assert (Hf : family_path fs op = Some (Path k)) by (unfold family_path; rewrite Ek; by rewrite decide_True).
  assert (Hk : k = mkNodeKey (Path k)) by (by destruct k). unfold ingestFamilyOp. assert (keyToNode s1 = keyToNode s) as -> by done.
  destruct (keyToNode s !! Path k) as [node|] eqn:En.
  - assert (existing_of s1 node = existing_of s node) as -> by done. destruct (existing_of s node) as [ek est] eqn:Ex. destruct (greater (Stamp op) est) eqn:Eg; cbn [fst].
    + split; [|done]. eapply (known_ok fs s _ op (Path k) node); try done; [by apply Hext|]. rewrite Ex, Eg. done.
    + split; [|done]. eapply (known_ok fs s _ op (Path k) node); try done; [by apply Hext|]. rewrite Ex, Eg. done.
  - assert (Hmat : let r := materializeFamilyEntry s1 (keyNamespace (Path k)) k (State op) (Stamp op) in
      plane_ok fs r.1 ∧ ops r.1 = ops s ++ [op] ∧ log r.1 = {[dedupKeyOf op]} ∪ log s ∧ peer r.1 = peer s ∧ clock r.1 = clock s);
      [|by destruct (materializeFamilyEntry _ _ _ _ _)].
    intros r. destruct (new_entry_facts fs s (Path k) Hok Hfam En Hlen) as (F1 & F2 & F3).
    pose proof (materialize_spec s1 (keyNamespace (Path k)) (Path k) (State op) (Stamp op) F1 F2 F3) as (M1 & M2 & M3 & M4 & M5 & M6 & M7 & M8 & M9 & M10).
    clear Hk. destruct k as [path]. cbn [Path] in *. fold r in M1, M2, M3, M4, M5, M6, M7, M8, M9, M10. split_and!; try done.
    eapply (new_ok fs s r.1 op path); try done; by apply Hext.
Qed.

(** ** Histories *)

Inductive plane_event := EIngest (m : CrdtSync V) | ESet (ns suffix : string) (v : V) (now : Z).
Definition plane_step s (e : plane_event) : crdtPlaneState V :=
  match e with EIngest m => (ingest s m).1.1 | ESet ns suffix v now => (familySetLww s ns suffix v now).1 end.
(** What a plane may be told for its state to be the fold of its log: ops that are not
    of a registered family carry ids below the family base, ops stamped by this very
    peer are echoes of logged ones, sets name a registered family without a separator,
    and the log and the clock are not full.  The code checks none of it; the network of
    [DistributedNet.v] derives the first two from where its ops come from. *)
Definition honest s (e : plane_event) : Prop :=
  match e with
  | EIngest m => Z.of_nat (length (ops s) + length (Ops m)) < 2 ^ 62 ∧
      ∀ op, op ∈ Ops m → (family_path (families s) op = None → Node op < familyNodeBase) ∧ (wsPeer (Stamp op) = peer s → dedupKeyOf op ∈ log s)
  | ESet ns suffix _ _ => keyNamespace (String.append ns (String.append "/" suffix)) = ns ∧ ns ∈ families s ∧ logical_room (lastLogical (clock s)) ∧
      Z.of_nat (length (ops s)) < 2 ^ 62
  end.
Fixpoint honest_run s (es : list plane_event) : Prop := match es with [] => True | e :: es => honest s e ∧ honest_run (plane_step s e) es end.

Lemma ingest_loop_ok fs s l n ch :
  plane_ok fs s → Z.of_nat (length (ops s) + length l) < 2 ^ 62 →
  (∀ op, op ∈ l → (family_path fs op = None → Node op < familyNodeBase) ∧ (wsPeer (Stamp op) = peer s → dedupKeyOf op ∈ log s)) →
  plane_ok fs (ingest_loop s l n ch).1.1.
Proof.
  revert s n ch. induction l as [|op l IH]; intros s n ch Hok Hlen Hh; [done|]. simpl in Hlen |- *. case_decide as Hd.
  - apply IH; [done|lia|]. intros o Ho. apply Hh. by right.
  - destruct (Hh op ltac:(left)) as [Hlow Hown]. destruct (ingest_new_ok fs s op Hok Hd Hlow ltac:(auto) ltac:(lia)) as (I1 & I2 & I3 & I4 & _).
    destruct (ingest_new s op) as [s2 c]. cbn [fst] in *. apply IH; [done|rewrite I2, length_app; simpl; lia|].
    intros o Ho. rewrite I3, I4. destruct (Hh o ltac:(by right)) as [? Hx]. split; [done|]. intros Hp. apply elem_of_union_r. auto.
Qed.

Lemma tick_later fs s now : plane_ok fs s → logical_room (lastLogical (clock s)) →
  later s (Hlc_Tick (clock s) now).1 ∧ HlcStamp_Compare (Hlc_last (clock s)) (Hlc_Tick (clock s) now).2 < 0 ∧ StampPeer (Hlc_Tick (clock s) now).2 = peer s.
Proof.
  intros Hok Hroom. pose proof (Hlc_Tick_lt (clock s) now Hroom) as Hlt. split_and!; [|done|].
  - split.
    + rewrite <-(po_clock _ _ Hok). unfold Hlc_Tick. by destruct (lastWall (clock s) <? now).
    + intros st Hst. rewrite <-Hlc_Tick_last. eapply (cmp_trans_le (cmp := HlcStamp_Compare)); [done|lia].
  - rewrite <-(po_clock _ _ Hok). unfold Hlc_Tick. by destruct (lastWall (clock s) <? now).
Qed.

Lemma fromwire_towire st : HlcStampFromWire (HlcStamp_ToWire st) = st.
Proof. by destruct st. Qed.

Lemma set_ok fs s ns suffix v now : plane_ok fs s → honest s (ESet ns suffix v now) → plane_ok fs (familySetLww s ns suffix v now).1.
Proof.
  intros Hok (Hns & Hfam & Hroom & Hlen). rewrite (po_fams _ _ Hok) in Hfam. unfold familySetLww. set (path := String.append ns (String.append "/" suffix)) in *.
  unfold NewNodeKey. destruct (validateNodeKey path); [|done].
  destruct (tick_later fs s now Hok Hroom) as (Hlat & Hlt & Hpeer). pose proof (Hlc_Tick_last (clock s) now) as Hlast. destruct (Hlc_Tick (clock s) now) as [h hlc]. cbn [fst snd] in *.
  set (stamp := HlcStamp_ToWire hlc). set (s1 := observeStamp (with_clock s h) stamp). cbn [Path].
  assert (Hfresh : ∀ node k w, dedupKeyOf (mkOp node k stamp w : CrdtOp V) ∉ log s).
  { intros node k w Hin. apply (po_log _ _ Hok) in Hin. apply list_elem_of_fmap in Hin as (o & Ho & Hin).
    assert (Hst : Stamp o = stamp).
    { unfold dedupKeyOf in Ho. simpl in Ho. injection Ho as _ H1 H2 H3. destruct (Stamp o), hlc. unfold stamp, HlcStamp_ToWire in *. simpl in *. congruence. }
    pose proof (po_own _ _ Hok o Hin) as Hle. rewrite Hst in Hle. unfold stamp in Hle. rewrite fromwire_towire in Hle. specialize (Hle Hpeer).
    rewrite (HlcStamp_Compare_flip (Hlc_last (clock s))) in Hle. lia. }
  assert (Hext : ∀ s' op, Stamp op = stamp → dedupKeyOf op ∉ log s → families s' = families s → peer s' = peer s → log s' = {[dedupKeyOf op]} ∪ log s → ops s' = ops s ++ [op] → clock s' = h → extends s s' op).
  { intros s' op Hs Hd H1 H2 H3 H4 H5. split; try done; rewrite H5; [done|]. intros _. rewrite Hs. unfold stamp. rewrite fromwire_towire, Hlast.
    rewrite (cmp_refl (cmp := HlcStamp_Compare)). lia. }
  assert (Hs1 : plane_ok fs s1).
  { destruct Hok as [h1 h2 h3 h4 h5 h6 h7 h8 h9 h10 h11]. destruct Hlat as [L1 L2]. split; simpl; try done. intros op Hin Hp. apply L2. by apply h10. }
  assert (keyToNode s1 = keyToNode s) as -> by done. destruct (keyToNode s !! path) as [node|] eqn:En.
  - assert (existing_of s1 node = existing_of s node) as -> by done. destruct (existing_of s node) as [k est] eqn:Ex. destruct (negb _) eqn:Eg; [done|]. apply negb_false_iff in Eg. cbn [fst].
    set (op := mkOp node k stamp v). unfold recordLocalOp. rewrite decide_False by apply Hfresh.
    assert (Hk : k = Some (mkNodeKey path)).
    { pose proof (po_key _ _ Hok path ltac:(by rewrite Hns)) as Ho. destruct (best _); [|congruence]. destruct Ho as (n & H1 & _ & H3). assert (n = node) as -> by congruence.
      unfold existing_of in Ex. rewrite H3 in Ex. by injection Ex as <- _. }
    eapply (known_ok fs s _ op path node); try done; [apply Hext; try done; apply Hfresh| |].
    + unfold family_path. simpl. rewrite Hk. simpl. rewrite decide_True; [done|]. by rewrite Hns.
    + rewrite Ex. simpl. assert (greater stamp est = true) as ->; [|done]. unfold greater, stamp. by rewrite fromwire_towire.
  - destruct (new_entry_facts fs s path Hok ltac:(by rewrite Hns) En Hlen) as (F1 & F2 & F3). rewrite Hns in F3.
    pose proof (materialize_spec s1 ns path v stamp F1 F2 F3) as (M1 & M2 & M3 & M4 & M5 & M6 & M7 & M8 & M9 & M10).
    destruct (materializeFamilyEntry _ _ _ _ _) as [s2 node]. cbn [fst snd] in *. subst node. unfold recordLocalOp. rewrite decide_False by (rewrite M8; apply Hfresh).
    set (op := mkOp _ _ stamp v). eapply (new_ok fs s _ op path); try done.
    + apply Hext; try done; [apply Hfresh|simpl; by rewrite M8|simpl; by rewrite M9].
    + unfold family_path. simpl. rewrite decide_True; [done|]. by rewrite Hns.
    + by rewrite Hns.
Qed.

Lemma run_ok fs s es : plane_ok fs s → honest_run s es → plane_ok fs (foldl plane_step s es).
Proof.
  revert s. induction es as [|e es IH]; intros s Hok Hh; [done|]. destruct Hh as [He Hr]. simpl. apply IH; [|done].
  destruct e as [m|ns suffix v now]; [|by apply set_ok]. destruct He as [Hlen Hops]. simpl. unfold ingest, ingestOps.
  assert (Hfr : ∀ (f : list StampFrontierEntry) s0, plane_ok fs s0 → let s1 := foldl (λ s e, observeStamp s (sfeStamp e)) s0 f in plane_ok fs s1 ∧ ops s1 = ops s0 ∧ log s1 = log s0 ∧ peer s1 = peer s0).
  { intros f. induction f as [|x f IHf]; intros s0 H0; [done|]. simpl. apply (IHf (observeStamp s0 (sfeStamp x))). by apply observe_ok. }
  destruct (Hfr (Frontier m) s Hok) as (G1 & G2 & G3 & G4). pose proof (ingest_loop_ok fs _ (Ops m) 0%nat ∅ G1) as Hl. rewrite G2, G3, G4 in Hl. rewrite (po_fams _ _ Hok) in Hops. specialize (Hl Hlen Hops).
  by destruct (ingest_loop _ _ _ _) as [[??]?].
Qed.

(** A plane whose families are registered before anything arrives. *)
Definition plane_with p (nss : list string) : crdtPlaneState V := foldl registerFamilyLww (newCrdtPlaneState p) nss.
Lemma plane_with_ok p nss : plane_ok (list_to_set nss) (plane_with p nss).
Proof.
  assert (Hg : ∀ (nss : list string) s fs, plane_ok fs s → ops s = [] → keyToNode s = ∅ → (∀ ns, familyKeys s ns = []) → plane_ok (fs ∪ list_to_set nss) (foldl registerFamilyLww s nss)).
  { clear nss. intros nss. induction nss as [|ns l IH]; intros s fs Hok Hops Hk Hm; simpl; [by rewrite union_empty_r_L|].
    assert (Hm' : ∀ x, familyKeys (registerFamilyLww s ns) x = []).
    { intros x. unfold familyKeys. simpl. specialize (Hm x). unfold familyKeys in Hm. destruct (familyMembers s !! ns) eqn:En; [done|]. destruct (decide (ns = x)) as [<-|Hne]; [by rewrite lookup_insert_eq|by rewrite lookup_insert_ne]. }
    rewrite (union_assoc_L fs). apply IH; try done.
    destruct Hok as [h1 h2 h3 h4 h5 h6 h7 h8 h9 h10 h11]. split; simpl; try done.
    - rewrite h1. set_solver.
    - intros n Hn. rewrite (h4 n Hn), Hops. done.
    - intros path Hp. rewrite Hops, Hk. done.
    - intros path n _. by rewrite Hk.
    - intros x _. rewrite Hm', Hk. split; [constructor|]. intros k. split; [by intros ?%not_elem_of_nil|]. rewrite lookup_empty. by intros [_ []]. }
  unfold plane_with. rewrite <-(union_empty_l_L (list_to_set nss)). apply Hg; try done.
  split; simpl; try done; try set_solver; try constructor.
Qed.

Lemma better_in b op : ∃ x, better b op = Some x ∧ (x = op ∨ b = Some x).
Proof. unfold better. destruct b as [y|]; [destruct (greater _ _)|]; eexists; (split; [done|]); auto. Qed.
Lemma best_in l b : best l = Some b → b ∈ l ∧ ∀ x, x ∈ l → HlcStamp_Compare (HlcStampFromWire (Stamp x)) (HlcStampFromWire (Stamp b)) ≤ 0.
Proof.
  revert b. induction l as [|op l IH] using rev_ind; intros b; [done|]. rewrite best_snoc. destruct (best l) as [y|] eqn:Ey; simpl.
  - destruct (IH y eq_refl) as [Hy Hmax]. destruct (greater (Stamp op) (Stamp y)) eqn:Eg; intros [= <-]; rewrite elem_of_app, list_elem_of_singleton.
    + apply greater_lt in Eg. split; [by right|]. intros x [Hx| ->%list_elem_of_singleton]%elem_of_app; [|by rewrite (cmp_refl (cmp := HlcStamp_Compare))].
      eapply (cmp_trans_le (cmp := HlcStamp_Compare)); [by apply Hmax|lia].
    + split; [by left|]. intros x [Hx| ->%list_elem_of_singleton]%elem_of_app; [by apply Hmax|].
      assert (Hn : ¬ HlcStamp_Compare (HlcStampFromWire (Stamp y)) (HlcStampFromWire (Stamp op)) < 0) by (rewrite <-greater_lt; by rewrite Eg).
      rewrite (HlcStamp_Compare_flip (HlcStampFromWire (Stamp y))). lia.
  - intros [= <-]. assert (l = []) as ->; [|split; [by left|]; intros x ->%list_elem_of_singleton; by rewrite (cmp_refl (cmp := HlcStamp_Compare))].
    destruct l as [|z l] using rev_ind; [done|]. rewrite best_snoc in Ey. destruct (better_in (best l) z) as (x & Hx & _). congruence.
Qed.
Lemma best_None l : best l = None ↔ l = [].
Proof.
  split; [|by intros ->]. destruct l as [|z l] using rev_ind; [done|]. rewrite best_snoc. destruct (better_in (best l) z) as (x & Hx & _). congruence.
Qed.

(** Stamps that tell ops apart make the winner independent of the order. *)
Lemma best_agree l1 l2 : (∀ op, op ∈ l1 ↔ op ∈ l2) → (∀ a b, a ∈ l1 → b ∈ l1 → Stamp a = Stamp b → a = b) → best l1 = best l2.
Proof.
  intros Hl Hu. destruct (best l1) as [b1|] eqn:E1, (best l2) as [b2|] eqn:E2.
  - apply best_in in E1 as [I1 M1], E2 as [I2 M2]. f_equal. apply Hu; [done|by apply Hl|].
    pose proof (M1 b2 (proj2 (Hl _) I2)) as H1. pose proof (M2 b1 (proj1 (Hl _) I1)) as H2. rewrite (HlcStamp_Compare_flip (HlcStampFromWire (Stamp b1))) in H1.
    assert (Heq : HlcStampFromWire (Stamp b1) = HlcStampFromWire (Stamp b2)) by (apply (cmp_eq (cmp := HlcStamp_Compare)); lia).
    destruct (Stamp b1), (Stamp b2). unfold HlcStampFromWire in Heq. simpl in Heq. congruence.
  - apply best_in in E1 as [I1 _]. apply best_None in E2. subst l2. apply Hl in I1. by apply not_elem_of_nil in I1.
  - apply best_in in E2 as [I2 _]. apply best_None in E1. subst l1. apply Hl in I2. by apply not_elem_of_nil in I2.
  - done.
Qed.

Lemma key_ops_elem fs path l op : op ∈ key_ops fs path l ↔ op ∈ l ∧ family_path fs op = Some path.
Proof. unfold key_ops. rewrite list_elem_of_filter. tauto. Qed.
Lemma plain_ops_elem fs n l op : op ∈ plain_ops fs n l ↔ op ∈ l ∧ family_path fs op = None ∧ Node op = n.
Proof. unfold plain_ops. rewrite list_elem_of_filter. tauto. Qed.

Lemma family_value fs s ns suffix key : plane_ok fs s → NewNodeKey (String.append ns (String.append "/" suffix)) = Some key → keyNamespace (Path key) ∈ fs →
  familyValueLww s ns suffix = State <$> best (key_ops fs (Path key) (ops s)).
Proof.
  intros Hok Hkey Hfam. unfold familyValueLww. rewrite Hkey. simpl. pose proof (po_key _ _ Hok _ Hfam) as Ho. destruct (best _) as [b|]; simpl.
  - destruct Ho as (node & H1 & _ & H3). by rewrite H1; simpl; rewrite H3.
  - by rewrite Ho.
Qed.
Lemma family_members fs s ns k : plane_ok fs s → ns ∈ fs → k ∈ familyKeys s ns ↔ keyNamespace (Path k) = ns ∧ ∃ op, op ∈ ops s ∧ Key op = Some k.
Proof.
  intros Hok Hns. rewrite (proj2 (po_members _ _ Hok ns Hns)). split; intros [<- Hx]; (split; [done|]).
  - pose proof (po_key _ _ Hok _ Hns) as Ho. destruct (best (key_ops fs (Path k) (ops s))) as [b|] eqn:Eb; [|rewrite Ho in Hx; by destruct Hx].
    apply best_in in Eb as [Hb _]. apply key_ops_elem in Hb as [Hin Hf]. exists b. split; [done|]. apply family_path_Some in Hf as [_ ->]. by destruct k.
  - destruct Hx as (op & Hin & Hk). pose proof (po_key _ _ Hok _ Hns) as Ho. destruct (best (key_ops fs (Path k) (ops s))) as [b|] eqn:Eb; [destruct Ho as (? & -> & _); by eexists|].
    apply best_None in Eb. exfalso. apply (not_elem_of_nil op). rewrite <-Eb. apply key_ops_elem. split; [done|]. unfold family_path. rewrite Hk. by rewrite decide_True.
Qed.
Lemma redelivered s l n ch : (∀ op, op ∈ l → dedupKeyOf op ∈ log s) → ingest_loop s l n ch = (s, n, ch).
Proof. revert n ch. induction l as [|op l IH]; intros n ch Hl; [done|]. simpl. rewrite decide_True by (apply Hl; by left). apply IH. intros o Ho. apply Hl. by right. Qed.
End converge.
Arguments plane_event : clear implicits.

(** The plane is a function of its op log.  After any honest frames and local family
    writes, with the families registered first, an application node holds the greatest
    op the log has for it, a family entry reads the state of the greatest op of its key,
    and a family's members are exactly the keys the log has for it, each once; the log
    has no op twice, and redelivering any part of it applies nothing and changes
    nothing. *)
Theorem Plane_is_its_log {V} p (nss : list string) (es : list (plane_event V)) l
    (fs := list_to_set nss : gset string) (s := foldl plane_step (plane_with p nss) es) :
  honest_run (plane_with p nss) es →
  (∀ n, n < familyNodeBase → winning s !! n = best (plain_ops fs n (ops s))) ∧
  (∀ ns suffix key, NewNodeKey (String.append ns (String.append "/" suffix)) = Some key → keyNamespace (Path key) ∈ fs →
    familyValueLww s ns suffix = State <$> best (key_ops fs (Path key) (ops s))) ∧
  (∀ ns, ns ∈ fs → NoDup (familyKeys s ns) ∧ ∀ k, k ∈ familyKeys s ns ↔ keyNamespace (Path k) = ns ∧ ∃ op, op ∈ ops s ∧ Key op = Some k) ∧
  NoDup (dedupKeyOf <$> ops s) ∧ ((∀ op, op ∈ l → op ∈ ops s) → ingestOps s l = (s, 0%nat, [])).
Proof.
  intros Hh. pose proof (run_ok fs _ es (plane_with_ok p nss) Hh) as Hok. fold s in Hok. clearbody s. split_and!.
  - apply Hok.
  - intros ns suffix key. by apply family_value.
  - intros ns Hns. split; [by apply (po_members _ _ Hok)|]. intros k. by apply (family_members fs).
  - apply Hok.
  - intros Hl. unfold ingestOps. rewrite redelivered; [done|]. intros op Hop. apply (po_log _ _ Hok), list_elem_of_fmap_2. auto.
Qed.

(** What two planes agree on: the winner of every application node, the value of every
    entry of the families [nss] and those families' members. *)
Record agree {V} (nss : list string) (s1 s2 : crdtPlaneState V) : Prop := {
  ag_winning n : n < familyNodeBase → winning s1 !! n = winning s2 !! n;
  ag_value ns suffix key : NewNodeKey (String.append ns (String.append "/" suffix)) = Some key → keyNamespace (Path key) ∈ nss →
    familyValueLww s1 ns suffix = familyValueLww s2 ns suffix;
  ag_members ns : ns ∈ nss → familyKeys s1 ns ≡ₚ familyKeys s2 ns }.

(** Planes of one log agree, provided stamps tell its ops apart. *)
Lemma planes_agree {V} (nss : list string) (s1 s2 : crdtPlaneState V) :
  plane_ok (list_to_set nss) s1 → plane_ok (list_to_set nss) s2 →
  (∀ op, op ∈ ops s1 ↔ op ∈ ops s2) → (∀ a b, a ∈ ops s1 → b ∈ ops s1 → Stamp a = Stamp b → a = b) → agree nss s1 s2.
Proof.
  intros K1 K2 Hops Hu. set (fs := list_to_set nss : gset string) in *. split.
  - intros n Hn. rewrite (po_plain _ _ K1), (po_plain _ _ K2) by done. apply best_agree; intros *; rewrite !plain_ops_elem; [by rewrite Hops|]. intros [? _] [? _]. auto.
  - intros ns suffix key Hkey Hns. rewrite (family_value fs s1 ns suffix key), (family_value fs s2 ns suffix key) by (done || set_solver). f_equal.
    apply best_agree; intros *; rewrite !key_ops_elem; [by rewrite Hops|]. intros [? _] [? _]. auto.
  - intros ns Hns. assert (Hin : ns ∈ fs) by set_solver. apply NoDup_Permutation; [by apply (po_members _ _ K1)|by apply (po_members _ _ K2)|].
    intros k. rewrite (family_members fs s1), (family_members fs s2) by done. by setoid_rewrite Hops.
Qed.

(** ** A replica of a family *)

Definition op_a : CrdtOp Z := mkOp familyNodeBase (Some (mkNodeKey "todo/a")) (mkWireStamp 100 0 1) 10.
Definition op_b : CrdtOp Z := mkOp familyNodeBase (Some (mkNodeKey "todo/b")) (mkWireStamp 200 0 2) 20.
(** Peer 1 writes [todo/a] and hears of peer 2's writes. *)
Definition es_one : list (plane_event Z) := [ESet "todo" "a" 10 100; EIngest (mkSync [] [op_b; op_a]); EIngest (mkSync [mkStampFrontierEntry 2 (mkWireStamp 300 0 2)] [mkOp (familyNodeBase + 1) (Some (mkNodeKey "todo/a")) (mkWireStamp 300 0 2) 30; op_b])].

Lemma honest_set {V} (s : crdtPlaneState V) ns suffix v now :
  keyNamespace (String.append ns (String.append "/" suffix)) = ns → bool_decide (ns ∈ families s) = true → ((- two63 <=? lastLogical (clock s)) && (lastLogical (clock s) <? max_i64)) = true →
  (Z.of_nat (length (ops s)) <? 2 ^ 62) = true → honest s (ESet ns suffix v now).
Proof. intros H1 H2%bool_decide_eq_true H3 H4. apply andb_prop in H3 as [H3 H5]. split; [done|]. split; [done|]. split; [split; [by apply Z.leb_le|by apply Z.ltb_lt]|by apply Z.ltb_lt]. Qed.
Lemma honest_ingest {V} (s : crdtPlaneState V) m :
  (Z.of_nat (length (ops s) + length (Ops m)) <? 2 ^ 62) = true →
  forallb (λ op, (bool_decide (is_Some (family_path (families s) op)) || (Node op <? familyNodeBase)) && (bool_decide (wsPeer (Stamp op) ≠ peer s) || bool_decide (dedupKeyOf op ∈ log s))) (Ops m) = true →
  honest s (EIngest m).
Proof.
  intros H1 H2. split; [by apply Z.ltb_lt|]. intros op Hop. rewrite forallb_forall in H2. apply list_elem_of_In, H2, andb_prop in Hop as [Ha Hb]. split.
  - intros Hn. apply orb_prop in Ha as [Ha|Ha]; [|by apply Z.ltb_lt]. rewrite Hn in Ha. apply bool_decide_eq_true in Ha. by destruct Ha.
  - intros Hp. apply orb_prop in Hb as [Hb|Hb]; apply bool_decide_eq_true in Hb; done.
Qed.
Lemma honest_one : honest_run (plane_with 1 ["todo"]) es_one.
Proof. refine (conj _ (conj _ (conj _ I))); [apply honest_set|apply honest_ingest|apply honest_ingest]; vm_compute; reflexivity. Qed.

Definition plane_one : crdtPlaneState Z := foldl plane_step (plane_with 1 ["todo"]) es_one.

Lemma todo_in : "todo" ∈ (list_to_set ["todo"] : gset string).
Proof. set_solver. Qed.

Lemma one_ops : ops (foldl plane_step (plane_with 1 ["todo"]) es_one) = [op_a; op_b; mkOp (familyNodeBase + 1) (Some (mkNodeKey "todo/a")) (mkWireStamp 300 0 2) 30].
Proof. vm_compute. reflexivity. Qed.

Lemma Plane_is_its_log_witness :
  familyValueLww plane_one "todo" "a" = Some 30 ∧ ingestOps plane_one [op_b; op_a] = (plane_one, 0%nat, []) ∧ NoDup (familyKeys plane_one "todo").
Proof.
  destruct (Plane_is_its_log 1 ["todo"] es_one [op_b; op_a] honest_one) as (_ & Hv & Hm & _ & Hr). split_and!.
  - etrans; [apply (Hv "todo" "a" (mkNodeKey "todo/a")); [vm_compute; reflexivity|exact todo_in]|]. vm_compute. reflexivity.
  - apply Hr. intros op Hop. rewrite one_ops. clear -Hop. apply elem_of_cons in Hop as [->|[->|[]%not_elem_of_nil]%elem_of_cons]; rewrite !elem_of_cons; auto.
  - apply (Hm "todo" todo_in).
Defined.

(** ** Where families leak *)

(** An op of a family this plane has not registered is not dropped: it lands on the
    node id its sender minted, which is a family entry of this plane, and overwrites it. *)
Lemma unregistered_family_overwrites :
  let s := (familySetLww (plane_with 1 ["todo"]) "todo" "a" 10 100).1 in
  let s' := (ingestOps s [mkOp familyNodeBase (Some (mkNodeKey "notes/x")) (mkWireStamp 200 0 2) 99]).1.1 in
  familyValueLww s "todo" "a" = Some 10 ∧ familyValueLww s' "todo" "a" = Some 99.
Proof. split; vm_compute; reflexivity. Qed.
(** So planes that saw the same two ops, of distinct stamps and one of them of a family
    all of them registered, hold different values for its entry when a node id minted
    elsewhere for a family they do not know comes with them. *)
Definition op_note : CrdtOp Z := mkOp familyNodeBase (Some (mkNodeKey "notes/x")) (mkWireStamp 200 0 2) 99.
Lemma unregistered_family_order_matters :
  let s1 := (ingestOps (plane_with 3 ["todo"]) [op_a; op_note]).1.1 in
  let s2 := (ingestOps (plane_with 3 ["todo"]) [op_note; op_a]).1.1 in
  Stamp op_a ≠ Stamp op_note ∧ familyValueLww s1 "todo" "a" = Some 99 ∧ familyValueLww s2 "todo" "a" = Some 10.
Proof. split_and!; [done|vm_compute; reflexivity..]. Qed.
(** A family registered after its ops arrived reads their values but never lists them. *)
Lemma late_register_misses_members :
  let s := (ingestOps (registerFamilyLww (ingestOps (newCrdtPlaneState 1) [op_b]).1.1 "todo") [op_b]).1.1 in
  familyValueLww s "todo" "b" = Some 20 ∧ familyKeys s "todo" = [].
Proof. split; vm_compute; reflexivity. Qed.
(** A namespace with a separator is registered and written here, but its ops are never
    recognised as its own where they arrive. *)
Lemma slashed_namespace_never_syncs :
  let r := familySetLww (plane_with 1 ["team/todo"]) "team/todo" "a" 10 100 in
  let s := (ingestOps (plane_with 2 ["team/todo"]) (match r.2 with Some op => [op] | None => [] end)).1.1 in
  familyKeys r.1 "team/todo" = [mkNodeKey "team/todo/a"] ∧ familyKeys s "team/todo" = [] ∧ membershipEpoch s = 0.
Proof. split_and!; vm_compute; reflexivity. Qed.
(** The runtime fans out what changed, in node order, and answers nothing once closed. *)
Lemma Runtime_demo :
  let r := (IngestOps (ConvergedStream (NewCrdtPlaneRuntime 1)) [mkOp 7 None (mkWireStamp 1 0 2) 70; mkOp 3 None (mkWireStamp 2 0 2) 30; mkOp 7 None (mkWireStamp 0 0 2) 71]).1 in
  stream r = Some [mkEntry 3 None 30; mkEntry 7 None 70] ∧ Nodes r = [3; 7] ∧ Membership r = [2] ∧ Nodes (Close r) = [] ∧ (IngestOps (Close r) []).2 = 0%nat.
Proof. split_and!; vm_compute; reflexivity. Qed.
