(* ===== verification/DistributedNet.v ===== *)
(** * DistributedNet: a network of CRDT planes (distributed.go)

    Planes with distinct peer ids that registered the same families write family
    entries and pass ops on, from whichever plane holds them and in any order,
    grouping and repetition.  Applications feed plain ops of their own.  What a plane
    takes for granted of the ops it is told (that nobody speaks for it, that ids of the
    family range belong to families it knows, that a stamp tells ops apart) is an
    invariant of such a network. *)

From S2P Require Import Prelude Hlc Distributed.
Local Open Scope Z_scope.

Section network.
Context {V : Type}.
Implicit Types (s : crdtPlaneState V) (op : CrdtOp V) (l : list (CrdtOp V)) (fs : gset string) (net : list (crdtPlaneState V)).

(** ** What a step adds to a plane's log *)

Lemma ingest_new_ops s op : ops (ingest_new s op).1 = ops s ++ [op] ∧ log (ingest_new s op).1 = {[dedupKeyOf op]} ∪ log s.
Proof.
  unfold ingest_new, ingestFamilyOp, materializeFamilyEntry, recordFamilyMember, mintFamilyNode, resolveNode, existing_of.
  repeat (case_match; simpl in *; simplify_eq); done.
Qed.

(** Ops are only added, and only those of the message. *)
Lemma ingest_loop_ops s l n ch op :
  (op ∈ ops s → op ∈ ops (ingest_loop s l n ch).1.1) ∧ (op ∈ ops (ingest_loop s l n ch).1.1 → op ∈ ops s ∨ op ∈ l).
Proof.
  revert s n ch. induction l as [|o l IH]; intros s n ch; simpl; [auto|]. rewrite elem_of_cons. case_decide.
  - destruct (IH s n ch) as [H1 H2]. split; [done|]. intros [?|?]%H2; auto.
  - pose proof (ingest_new_ops s o) as [Ho _]. destruct (ingest_new s o) as [s2 c]. cbn [fst] in Ho.
    destruct (IH s2 (S n) (match c with Some x => {[x]} ∪ ch | None => ch end)) as [H1 H2]. rewrite Ho, elem_of_app, list_elem_of_singleton in *.
    split; [auto|]. intros [[?| ->]|?]%H2; auto.
Qed.

(** Stamps that tell ops apart let no op of the message be taken for another. *)
Lemma ingest_loop_takes s l n ch op :
  (∀ d, d ∈ log s → d ∈ dedupKeyOf <$> ops s) → (∀ a b, (a ∈ ops s ∨ a ∈ l) → (b ∈ ops s ∨ b ∈ l) → Stamp a = Stamp b → a = b) →
  op ∈ l → op ∈ ops (ingest_loop s l n ch).1.1.
Proof.
  revert s n ch. induction l as [|o l IH]; intros s n ch Hlog Hu; [by intros ?%not_elem_of_nil|].
  setoid_rewrite elem_of_cons in Hu. simpl. case_decide as Hd.
  - assert (Hu' : ∀ a b, (a ∈ ops s ∨ a ∈ l) → (b ∈ ops s ∨ b ∈ l) → Stamp a = Stamp b → a = b) by (intros a b [?|?] [?|?]; apply Hu; auto).
    intros [->|Hin]%elem_of_cons; [|by apply IH]. apply ingest_loop_ops.
    apply Hlog, list_elem_of_fmap in Hd as (o' & Hk & Ho'). replace o with o'; [done|]. apply Hu; [auto..|].
    unfold dedupKeyOf in Hk. injection Hk as _ H1 H2 H3. destruct (Stamp o), (Stamp o'). simpl in *. congruence.
  - pose proof (ingest_new_ops s o) as [Ho Hl]. destruct (ingest_new s o) as [s2 c]. cbn [fst] in Ho, Hl.
    intros [->|Hin]%elem_of_cons; [apply ingest_loop_ops; rewrite Ho, elem_of_app; right; by left|]. apply IH; [| |done].
    + intros d. rewrite Hl, Ho, fmap_app, elem_of_union, elem_of_singleton, elem_of_app. intros [->|?]; [right; by left|left; auto].
    + intros a b. rewrite Ho, !elem_of_app, !list_elem_of_singleton. intros [[?|?]|?] [[?|?]|?]; apply Hu; auto.
Qed.

Lemma observe_frontier_same (f : list StampFrontierEntry) s :
  let s' := foldl (λ s e, observeStamp s (sfeStamp e)) s f in ops s' = ops s ∧ log s' = log s.
Proof. revert s. induction f as [|x f IH]; intros s; [done|]. simpl. apply (IH (observeStamp s (sfeStamp x))). Qed.

Lemma ingest_state s m : (ingest s m).1.1 = (ingest_loop (foldl (λ s e, observeStamp s (sfeStamp e)) s (Frontier m)) (Ops m) 0 ∅).1.1.
Proof. unfold ingest, ingestOps. by destruct (ingest_loop _ _ _ _) as [[??]?]. Qed.
Lemma ingest_ops s m op :
  (op ∈ ops s → op ∈ ops (ingest s m).1.1) ∧ (op ∈ ops (ingest s m).1.1 → op ∈ ops s ∨ op ∈ Ops m).
Proof. rewrite ingest_state. destruct (observe_frontier_same (Frontier m) s) as [<- _]. apply ingest_loop_ops. Qed.
Lemma ingest_takes fs s m op :
  plane_ok fs s → (∀ a b, (a ∈ ops s ∨ a ∈ Ops m) → (b ∈ ops s ∨ b ∈ Ops m) → Stamp a = Stamp b → a = b) →
  op ∈ ops (ingest s m).1.1 ↔ op ∈ ops s ∨ op ∈ Ops m.
Proof.
  intros Hok Hu. split; [apply ingest_ops|]. intros [Hin|Hin]; [by apply ingest_ops|]. rewrite ingest_state.
  destruct (observe_frontier_same (Frontier m) s) as [E1 E2]. apply ingest_loop_takes; rewrite ?E1, ?E2; [|done..]. intros d. apply Hok.
Qed.

(** A local write logs at most one op: of a registered family, under this peer, with a
    stamp none of this peer's ops has. *)
Lemma set_ops fs s ns suffix v now (s' := (familySetLww s ns suffix v now).1) :
  plane_ok fs s → honest s (ESet ns suffix v now) →
  ops s' = ops s ∨ ∃ op, ops s' = ops s ++ [op] ∧ wsPeer (Stamp op) = peer s ∧ is_Some (family_path fs op) ∧
    ∀ o, o ∈ ops s → wsPeer (Stamp o) = peer s → Stamp o ≠ Stamp op.
Proof.
  intros Hok (Hns & Hfam & Hroom & _). rewrite (po_fams _ _ Hok) in Hfam. unfold s', familySetLww. clear s'.
  set (path := String.append ns (String.append "/" suffix)) in *. unfold NewNodeKey. destruct (validateNodeKey path); [|by left].
  destruct (tick_later fs s now Hok Hroom) as (_ & Hlt & Hpeer). destruct (Hlc_Tick (clock s) now) as [h hlc]. cbn [fst snd] in *.
  set (stamp := HlcStamp_ToWire hlc). set (s1 := observeStamp (with_clock s h) stamp). cbn [Path].
  assert (Hnew : ∀ op, Stamp op = stamp → Key op = Some (mkNodeKey path) →
    wsPeer (Stamp op) = peer s ∧ is_Some (family_path fs op) ∧ ∀ o, o ∈ ops s → wsPeer (Stamp o) = peer s → Stamp o ≠ Stamp op).
  { intros op Hst Hk. rewrite Hst. split_and!; [done| |].
    - unfold family_path. rewrite Hk. simpl. rewrite decide_True; [by eexists|]. by rewrite Hns.
    - intros o Ho Hp Heq. pose proof (po_own _ _ Hok o Ho Hp) as Hle. rewrite Heq in Hle. unfold stamp in Hle. rewrite fromwire_towire in Hle.
      rewrite (HlcStamp_Compare_flip (Hlc_last (clock s))) in Hle. lia. }
  assert (Hrec : ∀ sx op, ops sx = ops s → Stamp op = stamp → Key op = Some (mkNodeKey path) →
    ops (recordLocalOp sx op) = ops s ∨ ∃ x, ops (recordLocalOp sx op) = ops s ++ [x] ∧ wsPeer (Stamp x) = peer s ∧
      is_Some (family_path fs x) ∧ ∀ o, o ∈ ops s → wsPeer (Stamp o) = peer s → Stamp o ≠ Stamp x).
  { intros sx op Hs Hst Hk. unfold recordLocalOp. case_decide; [by left|]. right. exists op. split; [|by apply Hnew]. unfold append_op. cbn [ops]. by rewrite Hs. }
  assert (keyToNode s1 = keyToNode s) as -> by done. destruct (keyToNode s !! path) as [node|] eqn:En.
  - assert (existing_of s1 node = existing_of s node) as -> by done. destruct (existing_of s node) as [k est] eqn:Ex. destruct (negb _); [by left|].
    apply Hrec; [done|done|]. simpl. pose proof (po_key _ _ Hok path ltac:(by rewrite Hns)) as Ho. destruct (best _); [|congruence].
    destruct Ho as (n & H1 & _ & H3). assert (n = node) as -> by congruence. unfold existing_of in Ex. rewrite H3 in Ex. by injection Ex as <- _.
  - assert (Hm : ops (materializeFamilyEntry s1 ns (mkNodeKey path) v stamp).1 = ops s).
    { unfold materializeFamilyEntry, recordFamilyMember, mintFamilyNode. repeat (case_match; simpl in *; simplify_eq); done. }
    destruct (materializeFamilyEntry _ _ _ _ _) as [s2 node]. cbn [fst] in *. by apply Hrec.
Qed.

(** ** The network *)

Inductive net_event := NSet (i : nat) (ns suffix : string) (v : V) (now : Z) | NSync (i : nat) (m : CrdtSync V).
Definition net_step net (e : net_event) : list (crdtPlaneState V) :=
  match e with
  | NSet i ns suffix v now => alter (λ s, plane_step s (ESet ns suffix v now)) i net
  | NSync i m => alter (λ s, plane_step s (EIngest m)) i net
  end.

(** The ops some plane holds. *)
Definition pool net op : Prop := ∃ s, s ∈ net ∧ op ∈ ops s.
(** A plain op an application makes: of no registered family, with a node id below the
    family base, under a peer id that is no plane's, with a stamp of its own. *)
Definition application net l op : Prop :=
  (∀ s, s ∈ net → family_path (families s) op = None ∧ wsPeer (Stamp op) ≠ peer s) ∧ Node op < familyNodeBase ∧
  ∀ o, pool net o ∨ o ∈ l → Stamp o = Stamp op → o = op.

(** Sets name a registered family without a separator, every op passed on is held by a
    plane or made by an application, and no clock or log is full. *)
Definition truthful net (e : net_event) : Prop :=
  match e with
  | NSet i ns suffix v now => ∀ s, net !! i = Some s → honest s (ESet ns suffix v now)
  | NSync i m => ∀ s, net !! i = Some s → Z.of_nat (length (ops s) + length (Ops m)) < 2 ^ 62 ∧
      ∀ op, op ∈ Ops m → pool net op ∨ application net (Ops m) op
  end.
Fixpoint truthful_run net (es : list net_event) : Prop :=
  match es with [] => True | e :: es => truthful net e ∧ truthful_run (net_step net e) es end.
Definition network peers (nss : list string) : list (crdtPlaneState V) := (λ p, plane_with p nss) <$> peers.

(** Every plane is the fold of its log, ids of the family range are those of registered
    families, a plane holds whatever is stamped by its peer, and stamps tell ops apart. *)
Record net_ok fs (peers : list PeerId) net : Prop := {
  no_planes s : s ∈ net → plane_ok fs s;
  no_peers : peer <$> net = peers;
  no_low op : pool net op → family_path fs op = None → Node op < familyNodeBase;
  no_own op s : pool net op → s ∈ net → wsPeer (Stamp op) = peer s → op ∈ ops s;
  no_stamps a b : pool net a → pool net b → Stamp a = Stamp b → a = b }.

Lemma elem_of_alter {A} (f : A → A) i (l : list A) x y :
  l !! i = Some x → y ∈ alter f i l → y = f x ∨ ∃ j, j ≠ i ∧ l !! j = Some y.
Proof.
  intros Hi [j Hj]%list_elem_of_lookup. destruct (decide (j = i)) as [->|Hne].
  - rewrite list_lookup_alter_eq, Hi in Hj. simpl in Hj. left. congruence.
  - rewrite list_lookup_alter_ne in Hj by done. right. by exists j.
Qed.

Lemma alter_absent {A} (f : A → A) i (l : list A) : l !! i = None → alter f i l = l.
Proof.
  intros Hi. apply list_eq. intros j. destruct (decide (j = i)) as [->|Hne]; [by rewrite list_lookup_alter_eq, Hi|by rewrite list_lookup_alter_ne].
Qed.

(** One plane moves on, its log grows, and the ops it now holds keep the network's
    promises. *)
Lemma net_ok_step fs peers net i s (f : crdtPlaneState V → crdtPlaneState V) :
  NoDup peers → net_ok fs peers net → net !! i = Some s → plane_ok fs (f s) → peer (f s) = peer s →
  (∀ op, op ∈ ops s → op ∈ ops (f s)) →
  (∀ op, op ∈ ops (f s) → family_path fs op = None → Node op < familyNodeBase) →
  (∀ op x, op ∈ ops (f s) → x ∈ net → peer x ≠ peer s → wsPeer (Stamp op) = peer x → op ∈ ops x) →
  (∀ a b, (pool net a ∨ a ∈ ops (f s)) → (pool net b ∨ b ∈ ops (f s)) → Stamp a = Stamp b → a = b) →
  net_ok fs peers (alter f i net).
Proof.
  intros Hnd [h1 h2 h3 h4 h5] Hi Hok Hp Hmono Hlow Hown Hst. assert (Hin : s ∈ net) by by eapply list_elem_of_lookup_2.
  assert (Hpool : ∀ op, pool (alter f i net) op → pool net op ∨ op ∈ ops (f s)).
  { intros op (x & Hx & Hop). apply (elem_of_alter f i net s) in Hx as [->|(j & _ & Hj)]; [by right| |done].
    left. exists x. split; [by eapply list_elem_of_lookup_2|done]. }
  assert (Hother : ∀ j x, j ≠ i → net !! j = Some x → peer x ≠ peer s).
  { intros j x Hne Hj Heq. apply Hne. apply (NoDup_lookup peers j i (peer x) Hnd); rewrite <-h2, list_lookup_fmap, ?Hj, ?Hi; [done|]. simpl. by f_equal. }
  split.
  - intros x Hx. apply (elem_of_alter f i net s) in Hx as [->|(j & _ & Hj)]; [done| |done]. apply h1. by eapply list_elem_of_lookup_2.
  - rewrite <-h2. apply list_eq. intros j. rewrite !list_lookup_fmap. destruct (decide (j = i)) as [->|Hne].
    + rewrite list_lookup_alter_eq, Hi. simpl. by f_equal.
    + by rewrite list_lookup_alter_ne.
  - intros op [Ho|Ho]%Hpool; auto.
  - intros op x Ho%Hpool Hx Hpr. apply (elem_of_alter f i net s) in Hx as [->|(j & Hne & Hj)]; [| |done].
    + destruct Ho as [Ho|Ho]; [|done]. apply Hmono. apply h4; [done|done|congruence].
    + assert (Hx : x ∈ net) by by eapply list_elem_of_lookup_2. destruct Ho as [Ho|Ho]; [by apply h4|]. by apply Hown; [..|eapply Hother|].
  - intros a b Ha%Hpool Hb%Hpool. by apply Hst.
Qed.

Lemma plane_step_ok fs s e : plane_ok fs s → honest s e → plane_ok fs (plane_step s e).
Proof. intros Hok Hh. by apply (run_ok fs s [e]). Qed.

Lemma observe_frontier_peer (f : list StampFrontierEntry) s : peer (foldl (λ s e, observeStamp s (sfeStamp e)) s f) = peer s.
Proof. revert s. induction f as [|x f IH]; intros s; [done|]. simpl. apply (IH (observeStamp s (sfeStamp x))). Qed.
Lemma ingest_new_peer s op : peer (ingest_new s op).1 = peer s.
Proof.
  unfold ingest_new, ingestFamilyOp, materializeFamilyEntry, recordFamilyMember, mintFamilyNode, resolveNode, existing_of.
  repeat (case_match; simpl in *; simplify_eq); done.
Qed.
Lemma ingest_peer s m : peer (ingest s m).1.1 = peer s.
Proof.
  rewrite ingest_state, <-(observe_frontier_peer (Frontier m) s). generalize (foldl (λ s e, observeStamp s (sfeStamp e)) s (Frontier m)), 0%nat, (∅ : gset Z).
  induction (Ops m) as [|o l IH]; intros s0 n ch; simpl; [done|]. case_decide; [apply IH|].
  pose proof (ingest_new_peer s0 o) as Hp. destruct (ingest_new s0 o) as [s2 c]. simpl in Hp. rewrite <-Hp. apply IH.
Qed.
Lemma set_peer s ns suffix v now : peer (familySetLww s ns suffix v now).1 = peer s.
Proof.
  unfold familySetLww, materializeFamilyEntry, recordFamilyMember, mintFamilyNode, existing_of, recordLocalOp.
  repeat (case_match; simpl in *; simplify_eq); done.
Qed.

Lemma net_step_ok fs peers net e : NoDup peers → net_ok fs peers net → truthful net e → net_ok fs peers (net_step net e).
Proof.
  intros Hnd Hok Htr. destruct e as [i ns suffix v now|i m]; simpl in *.
  - destruct (net !! i) as [s|] eqn:Hi; [|by rewrite alter_absent].
    specialize (Htr s eq_refl). assert (Hin : s ∈ net) by by eapply list_elem_of_lookup_2. pose proof (no_planes _ _ _ Hok s Hin) as Hs.
    assert (Hpool : ∀ op, op ∈ ops s → pool net op) by (intros op Hop; by exists s).
    pose proof (set_ops fs s ns suffix v now Hs Htr) as Hops.
    apply (net_ok_step fs peers net i s (λ s, (familySetLww s ns suffix v now).1)); try done; [by apply (plane_step_ok fs s (ESet ns suffix v now))|apply set_peer|..];
      (destruct Hops as [->|(o & -> & Hp & [y Hy] & Hf)]; [|setoid_rewrite elem_of_app; setoid_rewrite list_elem_of_singleton]).
    + done.
    + auto.
    + intros op Hop. apply (no_low _ _ _ Hok); auto.
    + intros op [Hop| ->]; [apply (no_low _ _ _ Hok); auto|by rewrite Hy].
    + intros op x Hop Hx _. apply (no_own _ _ _ Hok); auto.
    + intros op x [Hop| ->] Hx Hne Hpx; [apply (no_own _ _ _ Hok); auto|congruence].
    + intros a b [Ha|Ha] [Hb|Hb]; apply (no_stamps _ _ _ Hok); auto.
    + assert (Hold : ∀ a, pool net a → Stamp a ≠ Stamp o).
      { intros a Ha Heq. apply (Hf a); [|congruence|done]. apply (no_own _ _ _ Hok); [done|done|congruence]. }
      assert (Hcase : ∀ a, pool net a ∨ a ∈ ops s ∨ a = o → pool net a ∨ a = o) by (intros a [?|[?| ->]]; auto).
      intros a b [Ha| ->]%Hcase [Hb| ->]%Hcase Heq; [by apply (no_stamps _ _ _ Hok)|by destruct (Hold a)|by destruct (Hold b)|done].
  - destruct (net !! i) as [s|] eqn:Hi; [|by rewrite alter_absent].
    destruct (Htr s eq_refl) as [Hlen Hm]. assert (Hin : s ∈ net) by by eapply list_elem_of_lookup_2. pose proof (no_planes _ _ _ Hok s Hin) as Hs.
    assert (Hpool : ∀ op, op ∈ ops s → pool net op) by (intros op Hop; by exists s).
    assert (Hfs : ∀ x, x ∈ net → families x = fs) by (intros x Hx; apply (po_fams _ _ (no_planes _ _ _ Hok x Hx))).
    assert (Hnew : ∀ op, op ∈ ops (ingest s m).1.1 → pool net op ∨ op ∈ Ops m ∧ application net (Ops m) op).
    { intros op [Hop|Hop]%ingest_ops; [auto|]. destruct (Hm op Hop); auto. }
    apply (net_ok_step fs peers net i s (λ s, (ingest s m).1.1)); try done.
    + apply (plane_step_ok fs s (EIngest m)); [done|]. split; [done|]. intros op Hop. rewrite (Hfs s Hin).
      destruct (Hm op Hop) as [Ho|(Ha & Hl & _)].
      * split; [by apply (no_low _ _ _ Hok)|]. intros Hp. apply (po_log _ _ Hs), list_elem_of_fmap_2. by apply (no_own _ _ _ Hok).
      * split; [done|]. intros Hp. by destruct (proj2 (Ha s Hin)).
    + apply ingest_peer.
    + intros op Hop. by apply ingest_ops.
    + intros op [Hop|[_ (_ & Hl & _)]]%Hnew; [by apply (no_low _ _ _ Hok)|done].
    + intros op x [Hop|[_ (Ha & _)]]%Hnew Hx _ Hp; [by apply (no_own _ _ _ Hok)|]. by destruct (proj2 (Ha x Hx)).
    + assert (Hcase : ∀ a, pool net a ∨ a ∈ ops (ingest s m).1.1 → pool net a ∨ a ∈ Ops m ∧ application net (Ops m) a).
      { intros a [?|?%Hnew]; auto. }
      intros a b Ha%Hcase Hb%Hcase Heq. destruct Ha as [Ha|[Ha (_ & _ & Hua)]], Hb as [Hb|[Hb (_ & _ & Hub)]].
      * by apply (no_stamps _ _ _ Hok).
      * by apply Hub; [left|].
      * symmetry. by apply Hua; [left|].
      * by apply Hub; [right|].
Qed.

Lemma plane_with_new p nss : ops (plane_with (V := V) p nss) = [] ∧ peer (plane_with (V := V) p nss) = p.
Proof.
  assert (Hg : ∀ s, let s' := foldl registerFamilyLww s nss in ops s' = ops s ∧ peer s' = peer s).
  { induction nss as [|ns l IH]; intros s; [done|]. apply (IH (registerFamilyLww s ns)). }
  apply (Hg (newCrdtPlaneState p)).
Qed.
Lemma network_ok peers nss : net_ok (list_to_set nss) peers (network peers nss).
Proof.
  assert (Hno : ∀ op, ¬ pool (network peers nss) op).
  { intros op (s & Hs & Hop). unfold network in Hs. apply list_elem_of_fmap in Hs as (p & -> & _). rewrite (proj1 (plane_with_new p nss)) in Hop. by apply not_elem_of_nil in Hop. }
  split; try (intros; exfalso; by eapply Hno).
  - intros s Hs. unfold network in Hs. apply list_elem_of_fmap in Hs as (p & -> & _). apply plane_with_ok.
  - unfold network. rewrite <-list_fmap_compose. rewrite <-(list_fmap_id peers) at 2. apply list_fmap_ext. intros ? p _. apply (plane_with_new p nss).
Qed.

Lemma network_run_ok peers nss es :
  NoDup peers → truthful_run (network peers nss) es → net_ok (list_to_set nss) peers (foldl net_step (network peers nss) es).
Proof.
  intros Hnd. pose proof (network_ok peers nss) as Hok. revert Hok. generalize (network peers nss).
  induction es as [|e es IH]; intros net Hok Htr; [done|]. destruct Htr as [He Htr]. simpl. apply IH; [|done]. by apply net_step_ok.
Qed.

End network.
Arguments net_event : clear implicits.

(** C35: planes that exchange their ops agree, whatever the order, grouping, repetition
    and route by which the ops came.  In a network of planes with distinct peer ids that
    registered the same families first, where every op a plane is told is held by some
    plane or is a plain op an application made (with a node id below the family base, a
    peer id that is no plane's and a stamp of its own), where sets name a registered
    family without a separator and no log or clock is full, two planes that hold the
    same ops agree on every application node's winner, every family entry's value and
    every family's members; and once each has ingested the other's ops, in any order,
    they do.  An op of a family some plane minted and this one never registered is
    outside: it can overwrite an entry here, and then the order matters. *)
Theorem Plane_converges {V} peers (nss : list string) (es : list (net_event V)) i j s1 s2 (m1 m2 : CrdtSync V)
    (net := foldl net_step (network peers nss) es) (s1' := (ingest s1 m1).1.1) (s2' := (ingest s2 m2).1.1) :
  NoDup peers → truthful_run (network peers nss) es → net !! i = Some s1 → net !! j = Some s2 →
  ((∀ op, op ∈ ops s1 ↔ op ∈ ops s2) → agree nss s1 s2) ∧
  ((∀ op, op ∈ Ops m1 ↔ op ∈ ops s2) → (∀ op, op ∈ Ops m2 ↔ op ∈ ops s1) →
   Z.of_nat (length (ops s1) + length (Ops m1)) < 2 ^ 62 → Z.of_nat (length (ops s2) + length (Ops m2)) < 2 ^ 62 →
   (∀ op, op ∈ ops s1' ↔ op ∈ ops s1 ∨ op ∈ ops s2) ∧ agree nss s1' s2').
Proof.
  intros Hnd Htr Hi Hj. pose proof (network_run_ok peers nss es Hnd Htr) as Hok. fold net in Hok. clearbody net.
  apply list_elem_of_lookup_2 in Hi, Hj. pose proof (no_planes _ _ _ Hok s1 Hi) as K1. pose proof (no_planes _ _ _ Hok s2 Hj) as K2.
  assert (P1 : ∀ op, op ∈ ops s1 → pool net op) by (intros op Hop; by exists s1).
  assert (P2 : ∀ op, op ∈ ops s2 → pool net op) by (intros op Hop; by exists s2).
  split.
  - intros Hops. apply planes_agree; try done. intros a b Ha Hb. apply (no_stamps _ _ _ Hok); auto.
  - intros M1 M2 L1 L2.
    assert (Hstep : ∀ s m, s ∈ net → (∀ op, op ∈ Ops m → pool net op) → Z.of_nat (length (ops s) + length (Ops m)) < 2 ^ 62 →
      plane_ok (list_to_set nss) (ingest s m).1.1 ∧ ∀ op, op ∈ ops (ingest s m).1.1 ↔ op ∈ ops s ∨ op ∈ Ops m).
    { intros s m Hs Hm Hl. pose proof (no_planes _ _ _ Hok s Hs) as K. split.
      - apply (plane_step_ok _ s (EIngest m)); [done|]. split; [done|]. intros op Hop. rewrite (po_fams _ _ K).
        split; [apply (no_low _ _ _ Hok); auto|]. intros Hp. apply (po_log _ _ K), list_elem_of_fmap_2. apply (no_own _ _ _ Hok); auto.
      - intros op. apply (ingest_takes _ s m op K). assert (Hp : ∀ a, a ∈ ops s ∨ a ∈ Ops m → pool net a) by (intros a [?|?]; [by exists s|auto]).
        intros a b Ha%Hp Hb%Hp. by apply (no_stamps _ _ _ Hok). }
    destruct (Hstep s1 m1 Hi) as [O1 E1]; [intros op Hop%M1; auto|done|]. destruct (Hstep s2 m2 Hj) as [O2 E2]; [intros op Hop%M2; auto|done|].
    fold s1' in O1, E1. fold s2' in O2, E2. split; [intros op; rewrite E1, M1; tauto|].
    apply planes_agree; [done..| |].
    + intros op. rewrite E1, E2, M1, M2. tauto.
    + intros a b Ha Hb. rewrite E1, M1 in Ha, Hb. apply (no_stamps _ _ _ Hok); naive_solver.
Qed.

(** ** Two planes *)

#[local] Instance WireStamp_dec : EqDecision WireStamp.
Proof. solve_decision. Defined.
#[local] Instance CrdtOp_dec : EqDecision (CrdtOp Z).
Proof. solve_decision. Defined.

Definition todo_a : CrdtOp Z := mkOp familyNodeBase (Some (mkNodeKey "todo/a")) (mkWireStamp 100 0 1) 10.
Definition todo_b : CrdtOp Z := mkOp (familyNodeBase + 1) (Some (mkNodeKey "todo/b")) (mkWireStamp 200 0 2) 20.
Definition todo_a' : CrdtOp Z := mkOp familyNodeBase (Some (mkNodeKey "todo/a")) (mkWireStamp 300 0 2) 30.
(** An application's op. *)
Definition cell_7 : CrdtOp Z := mkOp 7 None (mkWireStamp 150 0 9) 70.

(** Plane 1 writes [todo/a]; plane 2 hears of it together with the application's op,
    writes [todo/b] and overwrites [todo/a]; plane 1 hears of [todo/b] only. *)
Definition net_demo : list (net_event Z) :=
  [NSet 0 "todo" "a" 10 100; NSync 1 (mkSync [] [cell_7; todo_a; cell_7]); NSet 1 "todo" "b" 20 200; NSet 1 "todo" "a" 30 300; NSync 0 (mkSync [] [todo_b])].

Lemma truthful_sync (net : list (crdtPlaneState Z)) i m :
  forallb (λ s, Z.of_nat (length (ops s) + length (Ops m)) <? 2 ^ 62) net = true →
  forallb (λ op, existsb (λ s, bool_decide (op ∈ ops s)) net ||
    (forallb (λ s, bool_decide (family_path (families s) op = None) && negb (wsPeer (Stamp op) =? peer s) &&
               forallb (λ o, negb (bool_decide (Stamp o = Stamp op))) (ops s)) net &&
     (Node op <? familyNodeBase) && forallb (λ o, negb (bool_decide (Stamp o = Stamp op)) || bool_decide (o = op)) (Ops m))) (Ops m) = true →
  truthful net (NSync i m).
Proof.
  intros H1 H2 s Hs. apply list_elem_of_lookup_2 in Hs as Hin. rewrite forallb_forall in H1, H2. split.
  - specialize (H1 s). rewrite <-list_elem_of_In in H1. by apply Z.ltb_lt, H1.
  - intros op Hop. apply list_elem_of_In, H2, orb_prop in Hop as [Hop|Hop].
    + apply existsb_exists in Hop as (x & Hx%list_elem_of_In & Hb%bool_decide_eq_true). left. by exists x.
    + right. apply andb_prop in Hop as [[Ha Hn]%andb_prop Hu]. rewrite forallb_forall in Ha, Hu.
      assert (Ha' : ∀ x, x ∈ net → family_path (families x) op = None ∧ wsPeer (Stamp op) ≠ peer x ∧ ∀ o, o ∈ ops x → Stamp o ≠ Stamp op).
      { intros x Hx%list_elem_of_In%Ha. apply andb_prop in Hx as [[Hf%bool_decide_eq_true Hp]%andb_prop Ho]. split_and!; [done|by apply negb_true_iff, Z.eqb_neq in Hp|].
        intros o Hio%list_elem_of_In. rewrite forallb_forall in Ho. apply Ho, negb_true_iff, bool_decide_eq_false in Hio. done. }
      split_and!; [intros x Hx; destruct (Ha' x Hx) as (? & ? & _); done|lia|].
      intros o [(x & Hx & Ho)|Ho%list_elem_of_In%Hu] Heq; [by destruct (Ha' x Hx) as (_ & _ & Hne); destruct (Hne o Ho)|].
      apply orb_prop in Ho as [Ho|Ho%bool_decide_eq_true]; [|done]. by apply negb_true_iff, bool_decide_eq_false in Ho.
Qed.

Lemma truthful_set (net : list (crdtPlaneState Z)) i ns suffix v now :
  keyNamespace (String.append ns (String.append "/" suffix)) = ns →
  forallb (λ s, bool_decide (ns ∈ families s) && ((- two63 <=? lastLogical (clock s)) && (lastLogical (clock s) <? max_i64)) &&
    (Z.of_nat (length (ops s)) <? 2 ^ 62)) net = true → truthful net (NSet i ns suffix v now).
Proof.
  intros Hns H s Hs%list_elem_of_lookup_2%list_elem_of_In. rewrite forallb_forall in H. apply H in Hs.
  apply andb_prop in Hs as [[? ?]%andb_prop ?]. by apply honest_set.
Qed.

Lemma net_demo_truthful : truthful_run (network [1; 2] ["todo"]) net_demo.
Proof.
  refine (conj _ (conj _ (conj _ (conj _ (conj _ I))))).
  1, 3, 4: apply truthful_set; vm_compute; reflexivity.
  all: apply truthful_sync; vm_compute; reflexivity.
Qed.

(** What the two planes hold, and what plane 1 reads before and after the exchange. *)
Lemma net_demo_holds :
  let net := foldl net_step (network [1; 2] ["todo"]) net_demo in
  (λ s, (ops s, familyValueLww s "todo" "a", familyValueLww (ingest s (mkSync [] [todo_a'; todo_b; cell_7; todo_a])).1.1 "todo" "a")) <$> net =
    [([todo_a; todo_b], Some 10, Some 30); ([cell_7; todo_a; todo_b; todo_a'], Some 30, Some 30)].
Proof. vm_compute. reflexivity. Qed.

Lemma Plane_converges_witness :
  ∃ s1 s2, foldl net_step (network [1; 2] ["todo"]) net_demo = [s1; s2] ∧
    agree ["todo"] (ingest s1 (mkSync [] [todo_a'; todo_b; cell_7; todo_a])).1.1 (ingest s2 (mkSync [] [todo_b; todo_a; todo_b])).1.1 ∧
    familyValueLww s1 "todo" "a" = Some 10 ∧ familyValueLww (ingest s1 (mkSync [] [todo_a'; todo_b; cell_7; todo_a])).1.1 "todo" "a" = Some 30.
Proof.
  pose proof net_demo_holds as Hnet. cbv zeta in Hnet. destruct (foldl _ _ _) as [|s1 [|s2 [|]]] eqn:E; [discriminate Hnet..| |discriminate Hnet].
  cbn [fmap list_fmap] in Hnet. injection Hnet as O1 V1 R1 O2 V2 R2. exists s1, s2. split; [done|].
  assert (Hnd : NoDup [1; 2]) by (apply (bool_decide_unpack _); vm_compute; exact I). split; [|by split].
  apply (Plane_converges [1; 2] ["todo"] net_demo 0 1 s1 s2 (mkSync [] [todo_a'; todo_b; cell_7; todo_a]) (mkSync [] [todo_b; todo_a; todo_b])
    Hnd net_demo_truthful); rewrite ?E, ?O1, ?O2; [done|done|..|done|done]; intros op; cbn [Ops]; rewrite !elem_of_cons, !elem_of_nil; tauto.
Defined.
