(* ===== verification/Capability.v ===== *)
(** * Capability: the handshake before any graph state flows (capability.go)

    A negotiation checks the fields in a fixed order and fails closed on the first
    that does not fit.  The text of a reason is the constructor of [Reason] with the
    values it quotes.  A frame is the record [encoding/json] decodes, an absent field
    being [None]. *)

From S2P Require Import Prelude.
Local Open Scope Z_scope.

(** [capability.go] [lines 37-38 ProtocolID] *)
Definition ProtocolID : string := "lazily-ipc".
(** [capability.go] [lines 40-41 ProtocolMajorVersion] *)
Definition ProtocolMajorVersion : Z := 1.
(** [capability.go] [lines 43-44 DefaultCodec] *)
Definition DefaultCodec : string := "json".
(** [capability.go] [lines 46-47 DefaultMaxFrameSize] *)
Definition DefaultMaxFrameSize : Z := 2 ^ 20.

(** ** The binding's own declaration *)

(** [capability.go] [type FfiCapability] *)
Inductive FfiCapability := FfiCapabilityHost | FfiCapabilityNone.
(** [capability.go] [FfiCapability.Wire] *)
Definition Wire (f : FfiCapability) : string := match f with FfiCapabilityHost => "host" | FfiCapabilityNone => "none" end.
(** [capability.go] [ParseFfiCapability] *)
Definition ParseFfiCapability (s : string) : option FfiCapability :=
  if decide (s = "host") then Some FfiCapabilityHost else if decide (s = "none") then Some FfiCapabilityNone else None.
(** [capability.go] [type BindingCapabilities] *)
Record BindingCapabilities := mkBinding {
  Binding : string; Ffi : FfiCapability; ReactiveCore : bool; Collections : bool; StateMachine : bool; StateCharts : bool; Ipc : bool; Crdt : bool;
  Permissions : bool; CapabilityNegotiation_ : bool; Async : bool; CoreTier : bool; ClientTier : bool; DurableHostTier : bool; DistributedHostTier : bool;
  AcceleratedHostTier : bool }.
(** [capability.go] [NewBindingCapabilities] *)
Definition NewBindingCapabilities : BindingCapabilities :=
  mkBinding "lazily-go" FfiCapabilityHost true true true true true true true true true true true false false false.

(** ** Negotiation *)

(** Which check failed, with the values its message quotes. *)
Inductive Reason :=
| LocalProtocol | RemoteProtocol | LocalMajor | RemoteMajor | MajorMismatch | CodecMismatch (a b : string) | NotOrdered | NoCeiling | NoSession
| SessionMismatch (a b : string) | FeatureMissing (f : string).
#[export] Instance Reason_eq_dec : EqDecision Reason.
Proof. solve_decision. Defined.
(** [capability.go] [type CapabilityCheck] [CapabilityCheckOk] [CapabilityCheckFail] *)
Inductive CapabilityCheck := CapabilityCheckOk | CapabilityCheckFail (field : string) (reason : Reason).
(** [capability.go] [CapabilityCheck.IsOk] *)
Definition check_IsOk (c : CapabilityCheck) : bool := match c with CapabilityCheckOk => true | _ => false end.
(** [capability.go] [type NegotiatedCapabilities] *)
Record NegotiatedCapabilities := mkNegotiated { n_Codec : string; n_MaxFrameSize : Z; n_Fragmentation : bool; n_SessionID : string }.
(** [capability.go] [type CapabilityNegotiation] *)
Record CapabilityNegotiation := mkNegotiation { n_Check : CapabilityCheck; Capabilities : option NegotiatedCapabilities }.
(** [capability.go] [CapabilityNegotiation.IsOk] *)
Definition IsOk (n : CapabilityNegotiation) : bool := check_IsOk (n_Check n) && bool_decide (is_Some (Capabilities n)).

(** [capability.go] [type CapabilityHandshake] *)
Record CapabilityHandshake := mkHandshake {
  h_ProtocolID : string; h_Major : Z; Codec : string; MaxFrameSize : Z; FragmentationSupported : bool; OrderedReliable : bool; PeerID : Z; SessionID : string;
  Features : list string }.
#[export] Instance CapabilityHandshake_eq_dec : EqDecision CapabilityHandshake.
Proof. solve_decision. Defined.
(** [capability.go] [NewCapabilityHandshake] *)
Definition NewCapabilityHandshake (peer : Z) (session : string) : CapabilityHandshake :=
  mkHandshake ProtocolID ProtocolMajorVersion DefaultCodec DefaultMaxFrameSize false true peer session [].
(** [capability.go] [CapabilityHandshake.WithCodec] *)
Definition WithCodec (h : CapabilityHandshake) (c : string) : CapabilityHandshake :=
  mkHandshake (h_ProtocolID h) (h_Major h) c (MaxFrameSize h) (FragmentationSupported h) (OrderedReliable h) (PeerID h) (SessionID h) (Features h).
(** [capability.go] [CapabilityHandshake.WithMaxFrameSize] *)
Definition WithMaxFrameSize (h : CapabilityHandshake) (n : Z) : CapabilityHandshake :=
  mkHandshake (h_ProtocolID h) (h_Major h) (Codec h) n (FragmentationSupported h) (OrderedReliable h) (PeerID h) (SessionID h) (Features h).
(** [capability.go] [CapabilityHandshake.WithFeatures] *)
Definition WithFeatures (h : CapabilityHandshake) (f : list string) : CapabilityHandshake :=
  mkHandshake (h_ProtocolID h) (h_Major h) (Codec h) (MaxFrameSize h) (FragmentationSupported h) (OrderedReliable h) (PeerID h) (SessionID h) f.
(** [capability.go] [CapabilityHandshake.WithFragmentation] *)
Definition WithFragmentation (h : CapabilityHandshake) (b : bool) : CapabilityHandshake :=
  mkHandshake (h_ProtocolID h) (h_Major h) (Codec h) (MaxFrameSize h) b (OrderedReliable h) (PeerID h) (SessionID h) (Features h).
(** [capability.go] [CapabilityHandshake.WithOrderedReliable] *)
Definition WithOrderedReliable (h : CapabilityHandshake) (b : bool) : CapabilityHandshake :=
  mkHandshake (h_ProtocolID h) (h_Major h) (Codec h) (MaxFrameSize h) (FragmentationSupported h) b (PeerID h) (SessionID h) (Features h).
(** [capability.go] [CapabilityHandshake.HasFeature] *)
Definition HasFeature (h : CapabilityHandshake) (f : string) : bool := existsb (λ x, bool_decide (x = f)) (Features h).

Definition fail (field : string) (r : Reason) : CapabilityNegotiation := mkNegotiation (CapabilityCheckFail field r) None.
(** The first required feature the other peer does not offer.
    [capability.go] [lines 383-392 CapabilityHandshake.Negotiate] *)
Fixpoint missing_feature (offered : gset string) (required : list string) : option string :=
  match required with [] => None | f :: fs => if decide (f ∈ offered) then missing_feature offered fs else Some f end.
(** [capability.go] [CapabilityHandshake.Negotiate] *)
Definition Negotiate (h other : CapabilityHandshake) (required : list string) : CapabilityNegotiation :=
  if negb (bool_decide (h_ProtocolID h = ProtocolID)) then fail "protocol_id" LocalProtocol
  else if negb (bool_decide (h_ProtocolID other = ProtocolID)) then fail "protocol_id" RemoteProtocol
  else if negb (h_Major h =? ProtocolMajorVersion) then fail "protocol_major_version" LocalMajor
  else if negb (h_Major other =? ProtocolMajorVersion) then fail "protocol_major_version" RemoteMajor
  else if negb (h_Major h =? h_Major other) then fail "protocol_major_version" MajorMismatch
  else if negb (bool_decide (Codec h = Codec other)) then fail "codec" (CodecMismatch (Codec h) (Codec other))
  else if negb (OrderedReliable h) || negb (OrderedReliable other) then fail "ordered_reliable" NotOrdered
  else if (MaxFrameSize h <=? 0) || (MaxFrameSize other <=? 0) then fail "max_frame_size" NoCeiling
  else if bool_decide (SessionID h = EmptyString) || bool_decide (SessionID other = EmptyString) then fail "session_id" NoSession
  else if negb (bool_decide (SessionID h = SessionID other)) then fail "session_id" (SessionMismatch (SessionID h) (SessionID other))
  else match missing_feature (list_to_set (Features other)) required with
       | Some f => fail "features" (FeatureMissing f)
       | None =>
           mkNegotiation CapabilityCheckOk
             (Some (mkNegotiated (Codec h) (if MaxFrameSize other <? MaxFrameSize h then MaxFrameSize other else MaxFrameSize h)
                      (FragmentationSupported h && FragmentationSupported other) (SessionID h)))
       end.
(** [capability.go] [CapabilityHandshake.CheckCompatible] *)
Definition CheckCompatible (h other : CapabilityHandshake) (required : list string) : CapabilityCheck := n_Check (Negotiate h other required).
(** [capability.go] [CapabilityHandshake.IsCompatibleWith] *)
Definition IsCompatibleWith (h other : CapabilityHandshake) : bool := check_IsOk (CheckCompatible h other []).

(** ** The wire form *)

(** The decoded object; [encoding/json] refuses a field of another type.
    [capability.go] [lines 456-466 CapabilityHandshake.UnmarshalJSON] *)
Record HandshakeWire := mkWire {
  w_ProtocolID : option string; w_Major : option Z; w_Codec : option string; w_MaxFrameSize : option Z; w_Fragmentation : option bool;
  w_Ordered : option bool; w_PeerID : option Z; w_SessionID : option string; w_Features : option (list string) }.
(** [capability.go] [CapabilityHandshake.ToWire] *)
Definition ToWire (h : CapabilityHandshake) : HandshakeWire :=
  mkWire (Some (h_ProtocolID h)) (Some (h_Major h)) (Some (Codec h)) (Some (MaxFrameSize h)) (Some (FragmentationSupported h)) (Some (OrderedReliable h))
    (Some (PeerID h)) (Some (SessionID h)) (Some (Features h)).
(** [capability.go] [CapabilityHandshake.UnmarshalJSON] *)
Definition UnmarshalJSON (w : HandshakeWire) : option CapabilityHandshake :=
  match w_PeerID w with
  | None => None
  | Some peer =>
      if peer <? 0 then None
      else
        let build m := Some (mkHandshake (default ProtocolID (w_ProtocolID w)) (default ProtocolMajorVersion (w_Major w)) (default DefaultCodec (w_Codec w)) m
          (default false (w_Fragmentation w)) (default true (w_Ordered w)) peer (default EmptyString (w_SessionID w)) (default [] (w_Features w))) in
        match w_MaxFrameSize w with Some m => if m <? 0 then None else build m | None => build DefaultMaxFrameSize end
  end.

(** ** What a negotiation promises *)

(** One endpoint's side of the agreement. *)
Definition sound (h : CapabilityHandshake) : Prop :=
  h_ProtocolID h = ProtocolID ∧ h_Major h = ProtocolMajorVersion ∧ OrderedReliable h = true ∧ 0 < MaxFrameSize h ∧ SessionID h ≠ EmptyString.
Definition agrees (h o : CapabilityHandshake) (required : list string) : Prop :=
  sound h ∧ sound o ∧ Codec h = Codec o ∧ SessionID h = SessionID o ∧ ∀ f, f ∈ required → f ∈ Features o.

Lemma missing_feature_None offered required : missing_feature offered required = None ↔ ∀ f, f ∈ required → f ∈ offered.
Proof.
  induction required as [|f fs IH]; simpl; [split; [by intros _ f ?%not_elem_of_nil|done]|]. case_decide as Hf.
  - rewrite IH. split; [intros Ha x [->|Hx]%elem_of_cons; auto|]. intros Ha x Hx. apply Ha. by right.
  - split; [done|]. intros Ha. destruct Hf. apply Ha. by left.
Qed.
Lemma missing_feature_Some offered required f : missing_feature offered required = Some f → f ∈ required ∧ f ∉ offered.
Proof. induction required as [|x fs IH]; simpl; [done|]. case_decide as Hf; [intros ?%IH; rewrite elem_of_cons; tauto|]. intros [= <-]. split; [by left|done]. Qed.

Ltac guards := repeat match goal with |- context [if ?b then _ else _] => destruct b eqn:?; simpl in * end.
(** Each guard as the fact it checks. *)
Ltac facts := repeat match goal with
  | H : negb _ = true |- _ => apply negb_true_iff in H | H : negb _ = false |- _ => apply negb_false_iff in H
  | H : bool_decide _ = true |- _ => apply bool_decide_eq_true in H | H : bool_decide _ = false |- _ => apply bool_decide_eq_false in H
  | H : _ || _ = false |- _ => apply orb_false_iff in H as [? ?]
  end.

Lemma negotiate_cases h o required :
  (agrees h o required ∧ Negotiate h o required = mkNegotiation CapabilityCheckOk
     (Some (mkNegotiated (Codec h) (Z.min (MaxFrameSize h) (MaxFrameSize o)) (FragmentationSupported h && FragmentationSupported o) (SessionID h)))) ∨
  (¬ agrees h o required ∧ ∃ field r, Negotiate h o required = fail field r).
Proof.
  unfold Negotiate, agrees, sound.
  destruct (bool_decide (h_ProtocolID h = ProtocolID)) eqn:E1; simpl; facts; [|right; split; [tauto|eauto]].
  destruct (bool_decide (h_ProtocolID o = ProtocolID)) eqn:E2; simpl; facts; [|right; split; [tauto|eauto]].
  destruct (Z.eqb_spec (h_Major h) ProtocolMajorVersion) as [E3|E3]; simpl; [|right; split; [tauto|eauto]].
  destruct (Z.eqb_spec (h_Major o) ProtocolMajorVersion) as [E4|E4]; simpl; [|right; split; [tauto|eauto]].
  rewrite E3, E4, Z.eqb_refl. simpl.
  destruct (bool_decide (Codec h = Codec o)) eqn:E5; simpl; facts; [|right; split; [tauto|eauto]].
  destruct (OrderedReliable h) eqn:E6; simpl; [|right; split; [by intros ((_&_&?&_)&_)|eauto]].
  destruct (OrderedReliable o) eqn:E7; simpl; [|right; split; [by intros (_&(_&_&?&_)&_)|eauto]].
  destruct (Z.leb_spec (MaxFrameSize h) 0) as [E8|E8]; simpl; [right; split; [intros ((_&_&_&?&_)&_); lia|eauto]|].
  destruct (Z.leb_spec (MaxFrameSize o) 0) as [E9|E9]; simpl; [right; split; [intros (_&(_&_&_&?&_)&_); lia|eauto]|].
  destruct (bool_decide (SessionID h = EmptyString)) eqn:E10; simpl; facts; [right; split; [tauto|eauto]|].
  destruct (bool_decide (SessionID o = EmptyString)) eqn:E11; simpl; facts; [right; split; [tauto|eauto]|].
  destruct (bool_decide (SessionID h = SessionID o)) eqn:E12; simpl; facts; [|right; split; [tauto|eauto]].
  destruct (missing_feature (list_to_set (Features o)) required) as [f|] eqn:Em.
  - right. apply missing_feature_Some in Em as [H1 H2]. rewrite elem_of_list_to_set in H2. split; [|eauto]. intros (_ & _ & _ & _ & Hf). auto.
  - left. setoid_rewrite missing_feature_None in Em. setoid_rewrite elem_of_list_to_set in Em. split; [by split_and!|]. do 3 f_equal.
    destruct (Z.ltb_spec (MaxFrameSize o) (MaxFrameSize h)); lia.
Qed.

(** Negotiation fails closed and agrees on both ends.  It succeeds exactly when both
    handshakes name the protocol and its version, require ordered delivery, offer a
    positive ceiling and the same codec and session, and the other side offers every
    required feature; a failure carries no capabilities.  On success the ceiling is
    within both ceilings, fragmentation needs both, and the other end, asked the other
    way round, agrees on the very same capabilities.  A handshake survives its wire form
    exactly when its peer id and ceiling are not negative. *)
Theorem Negotiation_fails_closed (h o : CapabilityHandshake) required required' :
  (check_IsOk (CheckCompatible h o required) = true ↔ agrees h o required) ∧
  (IsOk (Negotiate h o required) = check_IsOk (CheckCompatible h o required)) ∧
  (check_IsOk (CheckCompatible h o required) = false → Capabilities (Negotiate h o required) = None) ∧
  (∀ n, Capabilities (Negotiate h o required) = Some n →
    0 < n_MaxFrameSize n ≤ MaxFrameSize h ∧ n_MaxFrameSize n ≤ MaxFrameSize o ∧ (n_Fragmentation n = true ↔ FragmentationSupported h = true ∧ FragmentationSupported o = true) ∧
    n_Codec n = Codec o ∧ n_SessionID n = SessionID o ∧
    ((∀ f, f ∈ required' → f ∈ Features h) → Capabilities (Negotiate o h required') = Some n)) ∧
  IsCompatibleWith h o = IsCompatibleWith o h ∧
  (UnmarshalJSON (ToWire h) = Some h ↔ 0 ≤ PeerID h ∧ 0 ≤ MaxFrameSize h).
Proof.
  assert (Hsym : agrees h o [] ↔ agrees o h []) by (unfold agrees; split; intros (?&?&?&?&?); split_and!; try done; by intros f ?%not_elem_of_nil).
  unfold IsCompatibleWith, CheckCompatible. split_and!.
  - destruct (negotiate_cases h o required) as [[Ha ->]|[Ha (f & r & ->)]]; simpl; tauto || (split; [done|tauto]).
  - destruct (negotiate_cases h o required) as [[Ha ->]|[Ha (f & r & ->)]]; done.
  - destruct (negotiate_cases h o required) as [[Ha ->]|[Ha (f & r & ->)]]; done.
  - intros n. destruct (negotiate_cases h o required) as [[Ha ->]|[Ha (f & r & ->)]]; [|done]. intros [= <-]. simpl. destruct Ha as (H1 & H2 & H3 & H4 & H5).
    pose proof H1 as (_ & _ & _ & Hm & _). pose proof H2 as (_ & _ & _ & Hm' & _). split_and!; try done; try lia; [by rewrite andb_true_iff|]. intros Hf.
    destruct (negotiate_cases o h required') as [[_ ->]|[Hn _]]; [|destruct Hn; by split_and!]. simpl. by rewrite Z.min_comm, andb_comm, H3, H4.
  - destruct (negotiate_cases h o []) as [[Ha ->]|[Ha (f & r & ->)]], (negotiate_cases o h []) as [[Hb ->]|[Hb (f' & r' & ->)]]; simpl; tauto || done.
  - unfold UnmarshalJSON, ToWire. simpl. destruct (Z.ltb_spec (PeerID h) 0), (Z.ltb_spec (MaxFrameSize h) 0); (split; [intros Hx; try discriminate Hx; lia|intros [? ?]; try lia; by destruct h]).
Qed.

(** Two defaults agree, another codec fails closed, and so does a missing feature. *)
Lemma Negotiation_demo :
  let a := WithFeatures (WithFragmentation (NewCapabilityHandshake 1 "s") true) ["blob"] in let b := WithMaxFrameSize (WithFragmentation (NewCapabilityHandshake 2 "s") true) 4096 in
  Negotiate a b [] = mkNegotiation CapabilityCheckOk (Some (mkNegotiated "json" 4096 true "s")) ∧
  CheckCompatible a (WithCodec b "msgpack") [] = CapabilityCheckFail "codec" (CodecMismatch "json" "msgpack") ∧
  CheckCompatible b a ["blob"] = CapabilityCheckOk ∧ CheckCompatible a b ["blob"] = CapabilityCheckFail "features" (FeatureMissing "blob") ∧
  HasFeature a "blob" = true ∧ ParseFfiCapability (Wire (Ffi NewBindingCapabilities)) = Some FfiCapabilityHost.
Proof. split_and!; vm_compute; reflexivity. Qed.
