(* ===== verification/MsgpackCodec.v ===== *)
(** * MsgpackCodec: the MessagePack frame of a value tree (msgpack_codec.go)

    The packer and the reader over the generic value tree that [encoding/json]
    hands the codec.  A Go string is its list of bytes, a byte a [Z] below 256.  A
    [map[string]any] is the list of its entries in the order Go happens to range
    over it: [same] relates the trees that are equal as Go values, and the packer is
    proved blind to the difference.  [json.Number] is the integer its literal
    denotes ([TNum], written as [json.Marshal] and [strconv] write integers) or a
    literal that is no integer ([TReal]). *)

From S2P Require Import Prelude.
Local Open Scope Z_scope.

(** ** The value tree *)

(** [msgpack_codec.go] [lines 111-153 msgpackAppend] *)
Inductive tree :=
| TNull
| TBool (b : bool)
| TStr (s : list Z)
| TNum (n : Z)
| TReal
| TArr (l : list tree)
| TMap (m : list (list Z * tree))
| TBytes (b : list Z)
| TFloat.

Definition tree_rect' (P : tree → Prop) (Hn : P TNull) (Hb : ∀ b, P (TBool b)) (Hs : ∀ s, P (TStr s)) (Hi : ∀ n, P (TNum n)) (Hr : P TReal)
  (Ha : ∀ l, Forall P l → P (TArr l)) (Hm : ∀ m, Forall (λ e : list Z * tree, P e.2) m → P (TMap m)) (Hy : ∀ b, P (TBytes b)) (Hf : P TFloat) :
  ∀ t, P t :=
  fix go t := match t with
  | TNull => Hn | TBool b => Hb b | TStr s => Hs s | TNum n => Hi n | TReal => Hr
  | TArr l => Ha l ((fix gl (l : list tree) : Forall P l := match l with [] => Forall_nil_2 P | x :: l => Forall_cons_2 P x l (go x) (gl l) end) l)
  | TMap m => Hm m ((fix gm (m : list (list Z * tree)) : Forall (λ e : list Z * tree, P e.2) m :=
      match m with [] => Forall_nil_2 _ | e :: m => Forall_cons_2 _ e m (let 'p as e' := e return P e'.2 in go p.2) (gm m) end) m)
  | TBytes b => Hy b | TFloat => Hf
  end.

(** ** Packing *)

Inductive EncError := EncBytes | EncFloat | EncNumber.
Definition enc (A : Type) : Type := A + EncError.

(** [n] in [k] bytes, the most significant first; what does not fit is cut. *)
Fixpoint be (k : nat) (n : Z) : list Z := match k with O => [] | S k => be k (n / 256) ++ [n mod 256] end.
Definition AppendUint16 (dst : list Z) (n : Z) : list Z := dst ++ be 2 n.
Definition AppendUint32 (dst : list Z) (n : Z) : list Z := dst ++ be 4 n.
Definition AppendUint64 (dst : list Z) (n : Z) : list Z := dst ++ be 8 n.

(** [msgpack_codec.go] [msgpackAppendUint] *)
Definition msgpackAppendUint (dst : list Z) (u : Z) : list Z :=
  if u <? 128 then dst ++ [u]
  else if u <=? 255 then dst ++ [204; u]
  else if u <=? 65535 then AppendUint16 (dst ++ [205]) u
  else if u <=? 4294967295 then AppendUint32 (dst ++ [206]) u
  else AppendUint64 (dst ++ [207]) u.
(** [msgpack_codec.go] [msgpackAppendInt] *)
Definition msgpackAppendInt (dst : list Z) (i : Z) : list Z :=
  if 0 <=? i then msgpackAppendUint dst i
  else if -32 <=? i then dst ++ [Z.lor 224 (i + 32) mod 256]
  else if -128 <=? i then dst ++ [208; i mod 256]
  else if -32768 <=? i then AppendUint16 (dst ++ [209]) (i mod 65536)
  else if -2147483648 <=? i then AppendUint32 (dst ++ [210]) (i mod 4294967296)
  else AppendUint64 (dst ++ [211]) (u64 i).
(** [msgpack_codec.go] [msgpackAppendNumber] *)
Definition msgpackAppendNumber (dst : list Z) (n : Z) : enc (list Z) :=
  if decide (is_i64 n) then inl (msgpackAppendInt dst n) else if decide (is_u64 n) then inl (msgpackAppendUint dst n) else inr EncNumber.
(** [msgpack_codec.go] [msgpackAppendString] *)
Definition msgpackAppendString (dst s : list Z) : list Z :=
  let n := Z.of_nat (length s) in
  (if n <? 32 then dst ++ [Z.lor 160 n]
   else if n <=? 255 then dst ++ [217; n]
   else if n <=? 65535 then AppendUint16 (dst ++ [218]) n
   else AppendUint32 (dst ++ [219]) n) ++ s.
(** [msgpack_codec.go] [msgpackAppendArrayHeader] *)
Definition msgpackAppendArrayHeader (dst : list Z) (n : Z) : list Z :=
  if n <? 16 then dst ++ [Z.lor 144 n]
  else if n <=? 65535 then AppendUint16 (dst ++ [220]) n
  else AppendUint32 (dst ++ [221]) n.
(** [msgpack_codec.go] [msgpackAppendMapHeader] *)
Definition msgpackAppendMapHeader (dst : list Z) (n : Z) : list Z :=
  if n <? 16 then dst ++ [Z.lor 128 n]
  else if n <=? 65535 then AppendUint16 (dst ++ [222]) n
  else AppendUint32 (dst ++ [223]) n.

(** Go's order on strings is the lexicographic order of their bytes. *)
Fixpoint str_le (a b : list Z) : bool :=
  match a, b with
  | [], _ => true
  | _ :: _, [] => false
  | x :: a, y :: b => (x <? y) || ((x =? y) && str_le a b)
  end.
(** The entries by [sort.Strings] on their keys, which are distinct. *)
Fixpoint insertKey {A} (e : list Z * A) (l : list (list Z * A)) : list (list Z * A) :=
  match l with [] => [e] | x :: l' => if str_le e.1 x.1 then e :: l else x :: insertKey e l' end.
(** [msgpack_codec.go] [lines 129-133 msgpackAppend] *)
Definition sortKeys {A} (l : list (list Z * A)) : list (list Z * A) := foldr insertKey [] l.

(** Packing an element is the function that appends it.
    [msgpack_codec.go] [lines 121-126 msgpackAppend] *)
Fixpoint appendElements (dst : list Z) (fs : list (list Z → enc (list Z))) : enc (list Z) :=
  match fs with [] => inl dst | f :: fs => match f dst with inl dst => appendElements dst fs | inr e => inr e end end.
(** [msgpack_codec.go] [lines 134-141 msgpackAppend] *)
Fixpoint appendEntries (dst : list Z) (fs : list (list Z * (list Z → enc (list Z)))) : enc (list Z) :=
  match fs with [] => inl dst | (k, f) :: fs => match f (msgpackAppendString dst k) with inl dst => appendEntries dst fs | inr e => inr e end end.
(** [msgpack_codec.go] [msgpackAppend] *)
Fixpoint msgpackAppend (v : tree) (dst : list Z) : enc (list Z) :=
  match v with
  | TNull => inl (dst ++ [192])
  | TBool b => inl (dst ++ [if b then 195 else 194])
  | TStr s => inl (msgpackAppendString dst s)
  | TNum n => msgpackAppendNumber dst n
  | TReal => inr EncNumber
  | TArr l => appendElements (msgpackAppendArrayHeader dst (Z.of_nat (length l))) (map msgpackAppend l)
  | TMap m => appendEntries (msgpackAppendMapHeader dst (Z.of_nat (length m))) (sortKeys (map (λ e, (e.1, msgpackAppend e.2)) m))
  | TBytes _ => inr EncBytes
  | TFloat => inr EncFloat
  end.
(** [msgpack_codec.go] [msgpackEncodeValue] *)
Definition msgpackEncodeValue (v : tree) : enc (list Z) := msgpackAppend v [].

(** ** Reading *)

Inductive DecError := Truncated | Trailing (n : nat) | Bin (tag : Z) | Floating (tag : Z) | Unknown (tag : Z) | NotAKey | Duplicate (k : list Z).
(** A result, an error, or the end of the fuel. *)
Inductive dec (A : Type) := Ok (a : A) | Err (e : DecError) | Out.
Arguments Ok {A} _. Arguments Err {A} _. Arguments Out {A}.
Definition dbind {A B} (m : dec A) (k : A → dec B) : dec B := match m with Ok a => k a | Err e => Err e | Out => Out end.
Local Notation "'let?' x := m 'in' k" := (dbind m (λ x, k)) (at level 10, x pattern, k at level 200).

(** The reader is the part of [buf] from [pos] on, which every method shortens.
    [msgpack_codec.go] [msgpackReader.take] *)
Definition take_ (n : Z) (r : list Z) : dec (list Z * list Z) :=
  if (n <? 0) || (Z.of_nat (length r) <? n) then Err Truncated else Ok (take (Z.to_nat n) r, drop (Z.to_nat n) r).
(** [msgpack_codec.go] [msgpackReader.byteAt] *)
Definition byteAt (r : list Z) : dec (Z * list Z) := let? (b, r) := take_ 1 r in Ok (nth 0 b 0, r).
(** [msgpack_codec.go] [msgpackReader.uintN] *)
Definition uintN (n : Z) (r : list Z) : dec (Z * list Z) :=
  let? (b, r) := take_ n r in Ok (fold_left (λ out v, Z.lor (u64 (Z.shiftl out 8)) v) b 0, r).
(** Go's conversion of an unsigned value of [w] bits to the signed type of that width. *)
Definition signed (w : Z) (u : Z) : Z := let v := u mod 2 ^ w in if v <? 2 ^ (w - 1) then v else v - 2 ^ w.
(** [msgpack_codec.go] [msgpackReader.stringBody] *)
Definition stringBody (n : Z) (r : list Z) : dec (tree * list Z) := let? (b, r) := take_ n r in Ok (TStr b, r).
(** [n] elements are to come, [out] holds those read; [rd] reads one of them.
    [msgpack_codec.go] [msgpackReader.arrayBody] *)
Fixpoint arrayBody (rd : list Z → dec (tree * list Z)) (fuel : nat) (n : Z) (out : list tree) (r : list Z) : dec (tree * list Z) :=
  match fuel with
  | O => Out
  | S fuel => if n <=? 0 then Ok (TArr out, r) else let? (v, r) := rd r in arrayBody rd fuel (n - 1) (out ++ [v]) r
  end.
(** [msgpack_codec.go] [msgpackReader.mapBody] *)
Fixpoint mapBody (rd : list Z → dec (tree * list Z)) (fuel : nat) (n : Z) (out : list (list Z * tree)) (r : list Z) : dec (tree * list Z) :=
  match fuel with
  | O => Out
  | S fuel =>
      if n <=? 0 then Ok (TMap out, r)
      else
        let? (rawKey, r) := rd r in
        match rawKey with
        | TStr key =>
            if decide (key ∈ out.*1) then Err (Duplicate key)
            else let? (v, r) := rd r in mapBody rd fuel (n - 1) (out ++ [(key, v)]) r
        | _ => Err NotAKey
        end
  end.
(** [msgpack_codec.go] [msgpackReader.value] *)
Fixpoint value (fuel : nat) (r : list Z) {struct fuel} : dec (tree * list Z) :=
  match fuel with
  | O => Out
  | S fuel =>
      let? (tag, r) := byteAt r in
      if tag <=? 127 then Ok (TNum tag, r)
      else if 224 <=? tag then Ok (TNum (signed 8 tag), r)
      else if (128 <=? tag) && (tag <=? 143) then mapBody (value fuel) fuel (Z.land tag 15) [] r
      else if (144 <=? tag) && (tag <=? 159) then arrayBody (value fuel) fuel (Z.land tag 15) [] r
      else if (160 <=? tag) && (tag <=? 191) then stringBody (Z.land tag 31) r
      else if tag =? 192 then Ok (TNull, r)
      else if tag =? 194 then Ok (TBool false, r)
      else if tag =? 195 then Ok (TBool true, r)
      else if (196 <=? tag) && (tag <=? 198) then Err (Bin tag)
      else if (202 <=? tag) && (tag <=? 203) then Err (Floating tag)
      else if (204 <=? tag) && (tag <=? 207) then let? (u, r) := uintN (Z.shiftl 1 (tag - 204)) r in Ok (TNum u, r)
      else if (208 <=? tag) && (tag <=? 211) then
        let width := Z.shiftl 1 (tag - 208) in
        let? (u, r) := uintN width r in
        Ok (TNum (if width =? 1 then signed 8 u else if width =? 2 then signed 16 u else if width =? 4 then signed 32 u else signed 64 u), r)
      else if (217 <=? tag) && (tag <=? 219) then let? (n, r) := uintN (Z.shiftl 1 (tag - 217)) r in stringBody n r
      else if (220 <=? tag) && (tag <=? 221) then let? (n, r) := uintN (Z.shiftl 2 (tag - 220)) r in arrayBody (value fuel) fuel n [] r
      else if (222 <=? tag) && (tag <=? 223) then let? (n, r) := uintN (Z.shiftl 2 (tag - 222)) r in mapBody (value fuel) fuel n [] r
      else Err (Unknown tag)
  end.

(** Every call reads a byte, so nesting and loops are bounded by the frame. *)
Definition value_fuel (r : list Z) : nat := S (length r).
(** [msgpack_codec.go] [msgpackDecodeValue] *)
Definition msgpackDecodeValue (data : list Z) : dec tree :=
  let? (v, r) := value (value_fuel data) data in
  match r with [] => Ok v | _ => Err (Trailing (length r)) end.

(** A tree with every map in the order of its keys. *)
Fixpoint norm (v : tree) : tree :=
  match v with
  | TArr l => TArr (map norm l)
  | TMap m => TMap (sortKeys (map (λ e, (e.1, norm e.2)) m))
  | _ => v
  end.

(** ** The frame of a message *)

(** [toTree] is [EncodeJSON] followed by the re-reading of its text, [None] an
    error of either.  The reader's tree goes through [json.Marshal], which writes a
    map in the order of its keys ([norm]), and then [fromTree], the decoding of that
    text by [IpcMessageFromWire]. *)
Section frame.
Context {Msg : Type} (toTree : Msg → option tree) (fromTree : tree → option Msg).
Inductive FrameError := NilMessage | JsonError | Pack (e : EncError) | Read (e : DecError) | NoFuel | Refused.
(** [msgpack_codec.go] [EncodeIpcMessageMsgpack] *)
Definition EncodeIpcMessageMsgpack (m : option Msg) : list Z + FrameError :=
  match m with
  | None => inr NilMessage
  | Some m => match toTree m with None => inr JsonError | Some t => match msgpackEncodeValue t with inl b => inl b | inr e => inr (Pack e) end end
  end.
(** [msgpack_codec.go] [DecodeIpcMessageMsgpack] *)
Definition DecodeIpcMessageMsgpack (data : list Z) : Msg + FrameError :=
  match msgpackDecodeValue data with
  | Err e => inr (Read e) | Out => inr NoFuel
  | Ok t => match fromTree (norm t) with Some m => inl m | None => inr Refused end
  end.
End frame.

Example packs_map : msgpackEncodeValue (TMap [([98], TArr [TNum (-5); TNum 300]); ([97], TNull)])
  = inl [130; 161; 97; 192; 161; 98; 146; 251; 205; 1; 44].
Proof. reflexivity. Qed.
Example reads_map : msgpackDecodeValue [130; 161; 97; 192; 161; 98; 146; 251; 205; 1; 44] = Ok (TMap [([97], TNull); ([98], TArr [TNum (-5); TNum 300])]).
Proof. reflexivity. Qed.

(** ** Trees as Go values *)

Definition byte (b : Z) : Prop := 0 ≤ b < 256.
Definition short {A} (l : list A) : Prop := Z.of_nat (length l) < 2 ^ 32.
(** A tree the wire can carry. *)
Inductive wf : tree → Prop :=
| wf_null : wf TNull
| wf_bool b : wf (TBool b)
| wf_str s : Forall byte s → short s → wf (TStr s)
| wf_num n : is_i64 n ∨ is_u64 n → wf (TNum n)
| wf_arr l : short l → Forall wf l → wf (TArr l)
| wf_map m : short m → NoDup m.*1 → Forall (λ e, Forall byte e.1 ∧ short e.1 ∧ wf e.2) m → wf (TMap m).
(** Equal as Go values: a map's entries come in any order. *)
Inductive same : tree → tree → Prop :=
| same_refl t : same t t
| same_arr l l' : Forall2 same l l' → same (TArr l) (TArr l')
| same_map m m1 m' : Forall2 (λ e e', e.1 = e'.1 ∧ same e.2 e'.2) m m1 → m1 ≡ₚ m' → same (TMap m) (TMap m').
(** ** Sorting by key *)

Lemma str_le_total a b : str_le a b = false → str_le b a = true.
Proof.
  revert b. induction a as [|x a IH]; intros [|y b]; simpl; try done. intros [H1 H2]%orb_false_iff.
  apply orb_true_iff. apply Z.ltb_ge in H1. destruct (Z.eq_dec x y) as [->|]; [right; rewrite Z.eqb_refl in *; simpl in *; by apply IH|left; lia].
Qed.
Lemma str_le_antisym a b : str_le a b = true → str_le b a = true → a = b.
Proof.
  revert b. induction a as [|x a IH]; intros [|y b]; simpl; try done.
  rewrite !orb_true_iff, !andb_true_iff, !Z.ltb_lt, !Z.eqb_eq. intros [?|[-> ?]] [?|[? ?]]; try lia. f_equal. by apply IH.
Qed.
Lemma str_le_trans a b c : str_le a b = true → str_le b c = true → str_le a c = true.
Proof.
  revert b c. induction a as [|x a IH]; intros [|y b] [|z c]; simpl; try done.
  rewrite !orb_true_iff, !andb_true_iff, !Z.ltb_lt, !Z.eqb_eq. intros [?|[-> ?]] [?|[-> ?]]; [left; lia|by left|by left|right]. split; [done|by eapply IH].
Qed.

Lemma insertKey_perm {A} (e : list Z * A) l : insertKey e l ≡ₚ e :: l.
Proof. induction l as [|x l IH]; simpl; [done|]. case_match; [done|]. rewrite IH. constructor. Qed.
Lemma sortKeys_perm {A} (l : list (list Z * A)) : sortKeys l ≡ₚ l.
Proof. induction l as [|e l IH]; simpl; [done|]. by rewrite insertKey_perm, IH. Qed.
Lemma insertKey_map {A B} (f : list Z * A → list Z * B) e l : (∀ e, (f e).1 = e.1) → map f (insertKey e l) = insertKey (f e) (map f l).
Proof. intros Hf. induction l as [|x l IH]; simpl; [done|]. rewrite !Hf. case_match; simpl; [done|by rewrite IH]. Qed.
Lemma sortKeys_map {A B} (f : list Z * A → list Z * B) l : (∀ e, (f e).1 = e.1) → map f (sortKeys l) = sortKeys (map f l).
Proof. intros Hf. induction l as [|x l IH]; simpl; [done|]. by rewrite insertKey_map, IH. Qed.
Lemma insertKey_comm {A} (e e' : list Z * A) l : e.1 ≠ e'.1 → insertKey e (insertKey e' l) = insertKey e' (insertKey e l).
Proof.
  intros Hne. induction l as [|x l IH]; simpl.
  - destruct (str_le e.1 e'.1) eqn:H1, (str_le e'.1 e.1) eqn:H2; try done; [by destruct Hne; apply str_le_antisym|].
    apply str_le_total in H1. congruence.
  - destruct (str_le e'.1 x.1) eqn:H1, (str_le e.1 x.1) eqn:H2; simpl; rewrite ?H1, ?H2; simpl.
    + destruct (str_le e.1 e'.1) eqn:H3, (str_le e'.1 e.1) eqn:H4; try done; [by destruct Hne; apply str_le_antisym|].
      apply str_le_total in H3. congruence.
    + destruct (str_le e.1 e'.1) eqn:H3; [|done]. by rewrite (str_le_trans e.1 e'.1 x.1) in H2.
    + destruct (str_le e'.1 e.1) eqn:H3; [|done]. by rewrite (str_le_trans e'.1 e.1 x.1) in H1.
    + by rewrite IH.
Qed.
Lemma sortKeys_unique {A} (l l' : list (list Z * A)) : NoDup l.*1 → l ≡ₚ l' → sortKeys l = sortKeys l'.
Proof.
  intros Hnd Hp. induction Hp as [|x l l' Hp IH|x y l|l1 l2 l3 Hp1 IH1 Hp2 IH2]; simpl in *; [done| | |].
  - apply NoDup_cons in Hnd as [_ ?]. by rewrite IH.
  - apply NoDup_cons in Hnd as [Hx _]. apply insertKey_comm. intros Heq. apply Hx. rewrite Heq. left.
  - rewrite IH1 by done. apply IH2. by rewrite <- Hp1.
Qed.

(** ** Values up to the order of their maps *)

Definition norm_entry (e : list Z * tree) : list Z * tree := (e.1, norm e.2).
Lemma map_entry_keys {A B} (f : A → B) (m : list (list Z * A)) : (map (λ e, (e.1, f e.2)) m).*1 = m.*1.
Proof. induction m; simpl; [done|by f_equal]. Qed.

Lemma norm_same v : same v (norm v).
Proof.
  induction v using tree_rect'; try constructor.
  - induction H; simpl; by constructor.
  - apply (same_map _ (map norm_entry m)); [|symmetry; apply sortKeys_perm]. induction H as [|e m He Hm IH]; simpl; constructor; [by split|done].
Qed.

Lemma same_norm v v' : wf v → same v v' → norm v = norm v'.
Proof.
  revert v'. induction v as [|b|s|n| |l IH|m IH|b|] using tree_rect'; intros v' Hwf Hs; inversion Hs as [|? l' Hl|? m1 m' Hm Hp]; subst; try done.
  - simpl. f_equal. inversion Hwf as [| | | |? _ Hw|]; subst. clear Hs Hwf.
    induction Hl as [|x y l l' Hxy Hl IHl]; simpl; [done|]. apply Forall_cons in IH as [Hx IH], Hw as [Hwx Hw]. f_equal; [by apply Hx|by apply IHl].
  - simpl. f_equal. inversion Hwf as [| | | | |? _ Hnd Hw]; subst. clear Hs Hwf.
    assert (map norm_entry m = map norm_entry m1) as Hmap.
    { clear Hp Hnd. induction Hm as [|x y l l' [Hk Hxy] Hl IHl]; simpl; [done|]. apply Forall_cons in IH as [Hx IH], Hw as [(_ & _ & Hwx) Hw].
      f_equal; [|by apply IHl]. unfold norm_entry. rewrite Hk. f_equal. by apply Hx. }
    fold norm_entry. rewrite Hmap. apply sortKeys_unique.
    + rewrite <- Hmap. by rewrite (map_entry_keys norm).
    + by apply Permutation_map.
Qed.

(** ** Bytes *)

Lemma be_length k n : length (be k n) = k.
Proof. revert n. induction k as [|k IH]; intros n; simpl; [done|]. rewrite length_app, IH. simpl. lia. Qed.
Lemma be_bytes k n : Forall byte (be k n).
Proof. revert n. induction k as [|k IH]; intros n; simpl; [done|]. apply Forall_app. split; [done|]. constructor; [|done]. apply Z.mod_pos_bound. lia. Qed.

Lemma shift_in x b : 0 ≤ x → byte b → x * 256 + b < 2 ^ 64 → Z.lor (u64 (Z.shiftl x 8)) b = x * 256 + b.
Proof.
  unfold byte. intros Hx Hb Hlt. rewrite Z.shiftl_mul_pow2 by lia. change (2 ^ 8) with 256.
  rewrite u64_small by (change (2 ^ 64) with two64 in Hlt; unfold is_u64; lia).
  assert (Z.land (x * 256) b = 0) as Hl; [|pose proof (Z.add_lor_land (x * 256) b); lia].
  change 256 with (2 ^ 8). rewrite <- Z.shiftl_mul_pow2 by lia. apply Z.bits_inj'. intros n Hn.
  rewrite Z.land_spec, Z.bits_0, Z.shiftl_spec by lia. destruct (Z.lt_ge_cases n 8); [by rewrite Z.testbit_neg_r by lia|].
  apply andb_false_iff. right. destruct (decide (b = 0)) as [->|]; [apply Z.bits_0|]. apply Z.bits_above_log2; [lia|].
  assert (Z.log2 b < 8) by (apply Z.log2_lt_pow2; lia). lia.
Qed.

Definition push (out v : Z) : Z := Z.lor (u64 (Z.shiftl out 8)) v.
Lemma read_be k n out : 0 ≤ n < 256 ^ Z.of_nat k → 0 ≤ out → out * 256 ^ Z.of_nat k + n < 2 ^ 64 →
  fold_left push (be k n) out = out * 256 ^ Z.of_nat k + n.
Proof.
  revert n. induction k as [|k IH]; intros n Hn Ho Hlt; [simpl in *; lia|].
  rewrite Nat2Z.inj_succ, Z.pow_succ_r in * by lia. simpl. rewrite fold_left_app. simpl.
  pose proof (Z.div_mod n 256 ltac:(lia)). pose proof (Z.mod_pos_bound n 256 ltac:(lia)).
  rewrite IH; [| |lia|]; [|split; [apply Z.div_pos; lia|apply Z.div_lt_upper_bound; lia]|nia].
  unfold push. rewrite shift_in; [nia| |done|nia]. assert (0 ≤ n / 256) by (apply Z.div_pos; lia). nia.
Qed.
Lemma read_bound bs : Forall byte bs → Z.of_nat (length bs) ≤ 8 → 0 ≤ fold_left push bs 0 < 256 ^ Z.of_nat (length bs).
Proof.
  induction bs as [|b bs IH] using rev_ind; [simpl; lia|]. rewrite length_app, fold_left_app. simpl. intros [Hb Hx]%Forall_app Hl.
  rewrite Forall_singleton in Hx. replace (Z.of_nat (length bs + 1)) with (Z.succ (Z.of_nat (length bs))) in * by lia. rewrite Z.pow_succ_r by lia.
  specialize (IH Hb ltac:(lia)). unfold byte in Hx.
  assert (256 ^ Z.of_nat (length bs) ≤ 256 ^ 7) by (apply Z.pow_le_mono_r; lia). change (256 ^ 7) with 72057594037927936 in *.
  unfold push at 1 3. rewrite shift_in; [lia|lia|done|]. change (2 ^ 64) with 18446744073709551616. lia.
Qed.

Lemma take_app_exact s rest : take_ (Z.of_nat (length s)) (s ++ rest) = Ok (s, rest).
Proof.
  unfold take_. rewrite length_app. rewrite (proj2 (Z.ltb_ge _ _)), (proj2 (Z.ltb_ge _ _)) by lia. cbn [orb].
  by rewrite Nat2Z.id, take_app_length, drop_app_length.
Qed.
Lemma byteAt_cons b r : byteAt (b :: r) = Ok (b, r).
Proof. unfold byteAt. pose proof (take_app_exact [b] r) as H. cbn [length app] in H. change (Z.of_nat 1) with 1 in H. by rewrite H. Qed.
Lemma uintN_be (k : nat) (w n : Z) rest : w = Z.of_nat k → (k ≤ 8)%nat → 0 ≤ n < 256 ^ Z.of_nat k → uintN w (be k n ++ rest) = Ok (n, rest).
Proof.
  intros -> Hk Hn. unfold uintN. pose proof (take_app_exact (be k n) rest) as Ht. rewrite be_length in Ht. rewrite Ht. cbn [dbind].
  change (fold_left (λ out v, Z.lor (u64 (Z.shiftl out 8)) v)) with (fold_left push). rewrite read_be; [f_equal; f_equal; lia|done|lia|].
  assert (256 ^ Z.of_nat k ≤ 256 ^ 8) by (apply Z.pow_le_mono_r; lia). change (256 ^ 8) with (2 ^ 64) in *. lia.
Qed.

Lemma signed_wrap w i : 1 ≤ w → - 2 ^ (w - 1) ≤ i < 2 ^ (w - 1) → signed w (i mod 2 ^ w) = i.
Proof.
  intros Hw Hi. unfold signed. assert (2 ^ w = 2 * 2 ^ (w - 1)) as He by (rewrite <- Z.pow_succ_r by lia; f_equal; lia).
  rewrite Z.mod_mod by lia. destruct (Z.lt_ge_cases i 0).
  - replace (i mod 2 ^ w) with (i + 2 ^ w).
    + rewrite (proj2 (Z.ltb_ge _ _)) by lia. lia.
    + rewrite <- (Z.mod_small (i + 2 ^ w) (2 ^ w)) by lia. symmetry. rewrite <- Z.add_mod_idemp_r, Z.mod_same by lia. f_equal. lia.
  - rewrite Z.mod_small by lia. by rewrite (proj2 (Z.ltb_lt _ _)) by lia.
Qed.
Lemma signed_range w u : 1 ≤ w ≤ 64 → is_i64 (signed w u).
Proof.
  intros Hw. unfold signed. assert (2 ^ w = 2 * 2 ^ (w - 1)) as He by (rewrite <- Z.pow_succ_r by lia; f_equal; lia).
  assert (0 < 2 ^ (w - 1) ≤ 2 ^ 63) as Hb by (split; [lia|apply Z.pow_le_mono_r; lia]). change (2 ^ 63) with two63 in Hb.
  pose proof (Z.mod_pos_bound u (2 ^ w) ltac:(lia)). unfold is_i64. destruct (Z.ltb_spec (u mod 2 ^ w) (2 ^ (w - 1))); lia.
Qed.

(** A range of literals, checked one by one. *)
Lemma literals (P : Z → Prop) (k : Z) : Forall P (seqZ 0 k) → ∀ n, 0 ≤ n < k → P n.
Proof. intros H n Hn. rewrite Forall_forall in H. apply H, elem_of_seqZ. lia. Qed.

(** ** Headers *)

(** Appending [h] to any buffer, and what the reader does when it meets it. *)
Definition header (app : list Z → list Z) (next : nat → list Z → dec (tree * list Z)) : Prop :=
  ∃ h, (∀ dst, app dst = dst ++ h) ∧ (1 ≤ length h)%nat ∧ Forall byte h ∧ ∀ fuel r, value (S fuel) (h ++ r) = next fuel r.

(** A literal tag followed by a field of [k] bytes. *)
Lemma header_field app next tag (k : nat) n :
  (∀ dst, app dst = dst ++ tag :: be k n) → byte tag →
  (∀ fuel r, value (S fuel) (tag :: be k n ++ r) = next fuel r) → header app next.
Proof. intros Ha Ht Hv. exists (tag :: be k n). split_and!; [done|simpl; lia|constructor; [done|apply be_bytes]|done]. Qed.
(** A tag that holds a number below [k] itself. *)
Lemma header_small (next : Z → nat → list Z → dec (tree * list Z)) base k n : 0 ≤ n < k →
  Forall (λ n, byte (Z.lor base n) ∧ ∀ fuel r, value (S fuel) (Z.lor base n :: r) = next n fuel r) (seqZ 0 k) →
  header (λ dst, dst ++ [Z.lor base n]) (next n).
Proof. intros Hn H. destruct (literals _ k H n Hn) as [Hb Hv]. exists [Z.lor base n]. split_and!; [done|done|by constructor|done]. Qed.

Lemma be_one n : 0 ≤ n < 256 → be 1 n = [n].
Proof. intros Hn. cbn. by rewrite Z.mod_small by lia. Qed.

Ltac each_literal :=
  match goal with |- Forall _ (seqZ 0 ?k) => let l := eval vm_compute in (seqZ 0 k) in change (seqZ 0 k) with l end;
  repeat (apply Forall_cons_2); try apply Forall_nil_2; (split; [by split|intros fuel r; cbn [value]; rewrite byteAt_cons; reflexivity]).
(** The reader at a literal tag whose field has [k] bytes. *)
Ltac at_field k tag n :=
  apply (header_field _ _ tag k n); [intros dst; unfold AppendUint16, AppendUint32, AppendUint64; by rewrite <- ?app_assoc|unfold byte; lia|];
  intros fuel r; cbn [value]; rewrite byteAt_cons; cbn [dbind];
  lazy beta iota delta [Z.leb Z.eqb Z.compare Pos.compare Pos.compare_cont Pos.eqb andb];
  rewrite (uintN_be k _ n r); [|reflexivity|lia|simpl; lia]; cbn [dbind].

Lemma array_header n : 0 ≤ n < 2 ^ 32 → header (λ dst, msgpackAppendArrayHeader dst n) (λ fuel r, arrayBody (value fuel) fuel n [] r).
Proof.
  intros Hn. unfold msgpackAppendArrayHeader. destruct (Z.ltb_spec n 16); [|destruct (Z.leb_spec n 65535)].
  - apply (header_small (λ n fuel r, arrayBody (value fuel) fuel n [] r) 144 16); [lia|each_literal].
  - at_field 2%nat 220 n. reflexivity.
  - at_field 4%nat 221 n. reflexivity.
Qed.
Lemma map_header n : 0 ≤ n < 2 ^ 32 → header (λ dst, msgpackAppendMapHeader dst n) (λ fuel r, mapBody (value fuel) fuel n [] r).
Proof.
  intros Hn. unfold msgpackAppendMapHeader. destruct (Z.ltb_spec n 16); [|destruct (Z.leb_spec n 65535)].
  - apply (header_small (λ n fuel r, mapBody (value fuel) fuel n [] r) 128 16); [lia|each_literal].
  - at_field 2%nat 222 n. reflexivity.
  - at_field 4%nat 223 n. reflexivity.
Qed.

Lemma string_header (s : list Z) : short s → header (λ dst, (if Z.of_nat (length s) <? 32 then dst ++ [Z.lor 160 (Z.of_nat (length s))]
   else if Z.of_nat (length s) <=? 255 then dst ++ [217; Z.of_nat (length s)]
   else if Z.of_nat (length s) <=? 65535 then AppendUint16 (dst ++ [218]) (Z.of_nat (length s))
   else AppendUint32 (dst ++ [219]) (Z.of_nat (length s)))) (λ fuel r, stringBody (Z.of_nat (length s)) r).
Proof.
  unfold short. assert (0 ≤ Z.of_nat (length s)) as H0 by lia. generalize dependent (Z.of_nat (length s)). intros n H0 Hn.
  destruct (Z.ltb_spec n 32); [|destruct (Z.leb_spec n 255); [|destruct (Z.leb_spec n 65535)]].
  - apply (header_small (λ n fuel r, stringBody n r) 160 32); [lia|each_literal].
  - rewrite <- (be_one n) by lia. at_field 1%nat 217 n. reflexivity.
  - at_field 2%nat 218 n. reflexivity.
  - at_field 4%nat 219 n. reflexivity.
Qed.
Lemma uint_header u : is_u64 u → header (λ dst, msgpackAppendUint dst u) (λ fuel r, Ok (TNum u, r)).
Proof.
  unfold is_u64, two64. intros Hu. unfold msgpackAppendUint.
  destruct (Z.ltb_spec u 128); [|destruct (Z.leb_spec u 255); [|destruct (Z.leb_spec u 65535); [|destruct (Z.leb_spec u 4294967295)]]].
  - exists [u]. split_and!; [done|done|constructor; [unfold byte; lia|done]|]. intros fuel r. cbn [value app]. rewrite byteAt_cons. cbn [dbind].
    by rewrite (proj2 (Z.leb_le _ _)) by lia.
  - rewrite <- (be_one u) by lia. at_field 1%nat 204 u. reflexivity.
  - at_field 2%nat 205 u. reflexivity.
  - at_field 4%nat 206 u. reflexivity.
  - at_field 8%nat 207 u. reflexivity.
Qed.

(** The reader gives a negative number back from the bits the packer kept. *)
Lemma int_header i : is_i64 i → header (λ dst, msgpackAppendInt dst i) (λ fuel r, Ok (TNum i, r)).
Proof.
  unfold is_i64, two63. intros Hi. unfold msgpackAppendInt.
  destruct (Z.leb_spec 0 i); [apply uint_header; unfold is_u64, two64; lia|].
  destruct (Z.leb_spec (-32) i).
  { destruct (literals (λ j, byte (Z.lor 224 j mod 256) ∧ ∀ fuel r, value (S fuel) (Z.lor 224 j mod 256 :: r) = Ok (TNum (j - 32), r)) 32) with (i + 32) as [Hb Hv];
      [each_literal|lia|].
    exists [Z.lor 224 (i + 32) mod 256]. split_and!; [done|done|by constructor|]. intros fuel r. cbn [app]. rewrite Hv. do 3 f_equal. lia. }
  destruct (Z.leb_spec (-128) i); [|destruct (Z.leb_spec (-32768) i); [|destruct (Z.leb_spec (-2147483648) i)]].
  - pose proof (Z.mod_pos_bound i 256 ltac:(lia)). rewrite <- (be_one (i mod 256)) by lia. at_field 1%nat 208 (i mod 256).
    do 3 f_equal. apply (signed_wrap 8); lia.
  - pose proof (Z.mod_pos_bound i 65536 ltac:(lia)). at_field 2%nat 209 (i mod 65536). do 3 f_equal. apply (signed_wrap 16); lia.
  - pose proof (Z.mod_pos_bound i 4294967296 ltac:(lia)). at_field 4%nat 210 (i mod 4294967296). do 3 f_equal. apply (signed_wrap 32); lia.
  - pose proof (u64_range i) as Hm. unfold is_u64, two64 in Hm. at_field 8%nat 211 (u64 i). do 3 f_equal.
    apply (signed_wrap 64); [lia|]. change (2 ^ (64 - 1)) with 9223372036854775808. lia.
Qed.

(** ** Packed values *)

(** [bs] is what packing [v] appends, and what the reader reads [v] back from. *)
Definition packed (v : tree) (bs : list Z) : Prop :=
  (∀ dst, msgpackAppend v dst = inl (dst ++ bs)) ∧ (1 ≤ length bs)%nat ∧ Forall byte bs ∧
  ∀ fuel rest, (length bs < fuel)%nat → value fuel (bs ++ rest) = Ok (norm v, rest).

Lemma packed_header v app next : header app next → (∀ dst, msgpackAppend v dst = inl (app dst)) →
  (∀ fuel r, next fuel r = Ok (norm v, r)) → ∃ bs, packed v bs.
Proof.
  intros (h & Ha & Hl & Hb & Hv) Hm Hn. exists h. split_and!; [intros dst; by rewrite Hm, Ha|done|done|].
  intros [|fuel] rest Hf; [lia|]. by rewrite Hv, Hn.
Qed.
(** A header followed by a body the reader continues with. *)
Lemma packed_body v app next body : header app next → (∀ dst, msgpackAppend v dst = inl (app dst ++ body)) → Forall byte body →
  (∀ fuel rest, (length body < fuel)%nat → next fuel (body ++ rest) = Ok (norm v, rest)) → ∃ bs, packed v bs.
Proof.
  intros (h & Ha & Hl & Hb & Hv) Hm Hbody Hn. exists (h ++ body). unfold packed. rewrite length_app.
  split_and!; [intros dst; by rewrite Hm, Ha, <- app_assoc|lia|by apply Forall_app|].
  intros [|fuel] rest Hf; [lia|]. rewrite <- app_assoc, Hv. apply Hn. lia.
Qed.

Lemma packed_string s : Forall byte s → short s → ∃ bs, packed (TStr s) bs.
Proof.
  intros Hb Hs. eapply packed_body; [by apply string_header|done|done|]. intros fuel rest _. unfold stringBody. by rewrite take_app_exact.
Qed.
Lemma packed_number n : is_i64 n ∨ is_u64 n → ∃ bs, packed (TNum n) bs.
Proof.
  intros Hn. destruct (decide (is_i64 n)) as [Hi|Hi].
  - eapply packed_header; [by apply int_header| |done]. intros dst. simpl. unfold msgpackAppendNumber. by rewrite decide_True.
  - destruct Hn as [|Hn]; [done|]. eapply packed_header; [by apply uint_header| |done].
    intros dst. simpl. unfold msgpackAppendNumber. by rewrite decide_False, decide_True.
Qed.

Lemma packed_elements l : Forall (λ v, ∃ bs, packed v bs) l → ∃ bs,
  (∀ dst, appendElements dst (map msgpackAppend l) = inl (dst ++ bs)) ∧ (length l ≤ length bs)%nat ∧ Forall byte bs ∧
  ∀ f g out rest, (length bs < f)%nat → (length bs < g)%nat →
    arrayBody (value f) g (Z.of_nat (length l)) out (bs ++ rest) = Ok (TArr (out ++ map norm l), rest).
Proof.
  induction 1 as [|v l (bv & Ha & Hl & Hb & Hv) _ (bs & IHa & IHl & IHb & IHv)].
  - exists []. split_and!; [intros dst; by rewrite app_nil_r|done|done|]. intros f [|g] out rest _ Hg; [lia|]. simpl. by rewrite app_nil_r.
  - exists (bv ++ bs). rewrite length_app. split_and!; [|simpl; lia|by apply Forall_app|].
    + intros dst. simpl. by rewrite Ha, IHa, app_assoc.
    + intros f [|g] out rest Hf Hg; [lia|]. cbn [arrayBody]. rewrite (proj2 (Z.leb_gt _ _)) by (simpl; lia).
      rewrite <- app_assoc, Hv by lia. cbn [dbind]. replace (Z.of_nat (length (v :: l)) - 1) with (Z.of_nat (length l)) by (simpl; lia).
      rewrite IHv by lia. simpl. by rewrite <- app_assoc.
Qed.

Definition packs_entry (e : list Z * tree) : Prop := (∃ bs, packed (TStr e.1) bs) ∧ ∃ bs, packed e.2 bs.
Lemma packed_entries m : Forall packs_entry m → ∃ bs,
  (∀ dst, appendEntries dst (map (λ e, (e.1, msgpackAppend e.2)) m) = inl (dst ++ bs)) ∧ (length m ≤ length bs)%nat ∧ Forall byte bs ∧
  ∀ f g out rest, (length bs < f)%nat → (length bs < g)%nat → NoDup (out ++ m).*1 →
    mapBody (value f) g (Z.of_nat (length m)) out (bs ++ rest) = Ok (TMap (out ++ map norm_entry m), rest).
Proof.
  induction 1 as [|[k v] m [(bk & Hka & Hkl & Hkb & Hkv) (bv & Ha & Hl & Hb & Hv)] _ (bs & IHa & IHl & IHb & IHv)]; cbn [fst snd] in *.
  - exists []. split_and!; [intros dst; by rewrite app_nil_r|done|done|]. intros f [|g] out rest _ Hg _; [lia|]. simpl. by rewrite app_nil_r.
  - exists (bk ++ bv ++ bs). rewrite !length_app. split_and!; [|simpl; lia|by repeat (apply Forall_app; split)|].
    + intros dst. simpl. pose proof (Hka dst) as Hk. injection Hk as Hk. by rewrite Hk, Ha, IHa, <- !app_assoc.
    + intros f [|g] out rest Hf Hg Hnd; [lia|]. cbn [mapBody]. rewrite (proj2 (Z.leb_gt _ _)) by (simpl; lia).
      rewrite <- app_assoc, Hkv by lia. cbn [dbind norm]. rewrite decide_False.
      2:{ rewrite fmap_app in Hnd. apply NoDup_app in Hnd as (_ & Hd & _). intros Hin. apply (Hd _ Hin). left. }
      rewrite <- app_assoc, Hv by lia. cbn [dbind]. replace (Z.of_nat (length ((k, v) :: m)) - 1) with (Z.of_nat (length m)) by (simpl; lia).
      rewrite IHv; [|lia|lia|]; [simpl; by rewrite <- app_assoc|]. revert Hnd. by rewrite !fmap_app, <- app_assoc.
Qed.

Lemma wf_packed v : wf v → ∃ bs, packed v bs.
Proof.
  induction v as [|b|s|n| |l IH|m IH|b|] using tree_rect'; inversion 1 as [| | | |? Hs Hw|? Hs Hnd Hw]; subst.
  - apply (packed_header _ (λ dst, dst ++ [192]) (λ _ r, Ok (TNull, r))); [|done|done]. exists [192]. split_and!; [done|done|by constructor|].
    intros fuel r. cbn [value app]. by rewrite byteAt_cons.
  - apply (packed_header _ (λ dst, dst ++ [if b then 195 else 194]) (λ _ r, Ok (TBool b, r))); [|done|done].
    exists [if b then 195 else 194]. split_and!; [done|done|by destruct b; constructor|]. intros fuel r. cbn [value app]. rewrite byteAt_cons. by destruct b.
  - by apply packed_string.
  - by apply packed_number.
  - destruct (packed_elements l) as (bs & Ha & Hl & Hb & Hv); [apply Forall_forall; intros v Hv; rewrite Forall_forall in IH, Hw; by auto|].
    eapply packed_body; [apply (array_header (Z.of_nat (length l))); unfold short in Hs; lia|intros dst; apply Ha|done|].
    intros fuel rest Hf. apply (Hv fuel fuel []); lia.
  - assert (∀ e, e ∈ m → packs_entry e) as Hp.
    { rewrite Forall_forall in IH, Hw. intros e He. destruct (Hw e He) as (? & ? & ?). split; [by apply packed_string|by apply IH]. }
    destruct (packed_entries (sortKeys m)) as (bs & Ha & Hl & Hb & Hv); [apply Forall_forall; intros e; rewrite sortKeys_perm; apply Hp|].
    assert (length (sortKeys m) = length m) as Hlen by (by rewrite sortKeys_perm).
    eapply packed_body; [apply (map_header (Z.of_nat (length m))); unfold short in Hs; lia| |done|].
    + intros dst. simpl. rewrite <- (sortKeys_map (λ e, (e.1, msgpackAppend e.2))) by done. apply Ha.
    + intros fuel rest Hf. cbn [norm]. fold norm_entry. rewrite <- (sortKeys_map norm_entry) by done. rewrite <- Hlen. apply (Hv fuel fuel []); [lia|lia|].
      simpl. by rewrite sortKeys_perm.
Qed.

(** ** Range order and refusals *)

Lemma norm_wf v : wf v → wf (norm v).
Proof.
  induction v as [|b|s|n| |l IH|m IH|b|] using tree_rect'; inversion 1 as [| | | |? Hs Hw|? Hs Hnd Hw]; subst; simpl; try by constructor.
  - constructor; [unfold short in *; by rewrite length_map|]. apply Forall_forall. intros v (w & -> & Hv)%list_elem_of_fmap.
    rewrite Forall_forall in IH, Hw. auto.
  - fold norm_entry. constructor.
    + unfold short in *. by rewrite sortKeys_perm, length_map.
    + rewrite sortKeys_perm. by rewrite (map_entry_keys norm).
    + apply Forall_forall. intros e He. rewrite sortKeys_perm in He. apply list_elem_of_fmap in He as (x & -> & Hx).
      rewrite Forall_forall in IH, Hw. destruct (Hw x Hx) as (? & ? & ?). cbn [norm_entry fst snd]. auto.
Qed.

Lemma appendElements_ext fs gs dst : Forall2 (λ f g, ∀ dst, f dst = g dst) fs gs → appendElements dst fs = appendElements dst gs.
Proof. intros H. revert dst. induction H as [|f g fs gs Hfg _ IH]; intros dst; simpl; [done|]. rewrite Hfg. by case_match. Qed.
Lemma appendEntries_ext fs gs dst : Forall2 (λ f g, f.1 = g.1 ∧ ∀ dst, f.2 dst = g.2 dst) fs gs → appendEntries dst fs = appendEntries dst gs.
Proof.
  intros H. revert dst. induction H as [|[k f] [k' g] fs gs [Hk Hfg] _ IH]; intros dst; simpl in *; [done|]. subst. rewrite Hfg. by case_match.
Qed.
Lemma sortKeys_idemp {A} (l : list (list Z * A)) : NoDup l.*1 → sortKeys (sortKeys l) = sortKeys l.
Proof. intros Hnd. apply sortKeys_unique; [|apply sortKeys_perm]. by rewrite sortKeys_perm. Qed.
Lemma norm_norm v : wf v → norm (norm v) = norm v.
Proof. intros Hwf. symmetry. apply same_norm; [done|apply norm_same]. Qed.
(** The packer sees a map only through its sorted entries. *)
Lemma append_norm v dst : wf v → msgpackAppend v dst = msgpackAppend (norm v) dst.
Proof.
  revert dst. induction v as [|b|s|n| |l IH|m IH|b|] using tree_rect'; intros dst; inversion 1 as [| | | |? Hs Hw|? Hs Hnd Hw]; subst; simpl; try done.
  - rewrite length_map. apply appendElements_ext. clear Hs H. induction IH as [|v l Hv _ IHl]; simpl; constructor; apply Forall_cons in Hw as [Hwv Hw]; [|by apply IHl].
    intros d. by apply Hv.
  - fold norm_entry. replace (length (sortKeys (map norm_entry m))) with (length m) by (by rewrite sortKeys_perm, length_map).
    rewrite <- (sortKeys_map norm_entry), <- !(sortKeys_map (λ e, (e.1, msgpackAppend e.2))) by done.
    assert (sortKeys (map norm_entry (sortKeys m)) = map norm_entry (sortKeys m)) as ->.
    { rewrite (sortKeys_map norm_entry) by done. apply sortKeys_idemp. by rewrite (map_entry_keys norm). }
    apply appendEntries_ext. rewrite map_map. assert (∀ e, e ∈ sortKeys m → ∀ d, msgpackAppend e.2 d = msgpackAppend (norm e.2) d) as Hall.
    { intros e He d. rewrite sortKeys_perm in He. rewrite Forall_forall in IH, Hw. apply IH; [done|]. by apply Hw. }
    clear Hs Hnd Hw H IH. induction (sortKeys m) as [|e l IHl]; simpl; constructor; [split; [done|apply Hall; left]|]. apply IHl. intros x Hx. apply Hall. by right.
Qed.
Lemma append_same v v' dst : wf v → wf v' → same v v' → msgpackAppend v dst = msgpackAppend v' dst.
Proof. intros Hv Hv' Hs. rewrite append_norm by done. rewrite (append_norm v') by done. by rewrite (same_norm v v'). Qed.

Lemma same_wf v v' : wf v → same v v' → wf v'.
Proof.
  revert v'. induction v as [|b|s|n| |l IH|m IH|b|] using tree_rect'; intros v' Hwf Hs; inversion Hs as [|? l' Hl|? m1 m' Hm Hp]; subst; try done.
  - inversion Hwf as [| | | |? Hlen Hw|]; subst. constructor; [unfold short in *; by rewrite <- (Forall2_length _ _ _ Hl)|]. clear Hs Hwf Hlen.
    induction Hl as [|x y l l' Hxy Hl IHl]; constructor; apply Forall_cons in IH as [Hx IH], Hw as [Hwx Hw]; auto.
  - inversion Hwf as [| | | | |? Hlen Hnd Hw]; subst. assert (m1.*1 = m.*1) as Hk.
    { clear -Hm. induction Hm as [|x y l l' [Hk _] _ IH]; simpl; [done|by f_equal]. }
    assert (Forall (λ e, Forall byte e.1 ∧ short e.1 ∧ wf e.2) m1) as Hw1.
    { clear Hp Hnd Hs Hwf Hlen Hk. induction Hm as [|x y l l' [Hk Hxy] Hl IHl]; constructor; apply Forall_cons in IH as [Hx IH], Hw as [(? & ? & ?) Hw]; [|auto].
      rewrite <- Hk. auto. }
    constructor; [unfold short in *; by rewrite <- Hp, <- (Forall2_length _ _ _ Hm)|by rewrite <- Hp, Hk|by rewrite <- Hp].
Qed.

(** ** What the reader accepts *)

(** It stops, leaves a shorter rest, and hands on a tree the wire can carry. *)
Definition reads (d : nat) (res : dec (tree * list Z)) : Prop :=
  match res with Ok (v, r) => wf v ∧ Forall byte r ∧ (length r < d)%nat | Err _ => True | Out => False end.
Definition bytes_left {A} (P : A → Prop) (d : nat) (res : dec (A * list Z)) : Prop :=
  match res with Ok (a, r) => P a ∧ Forall byte r ∧ (length r ≤ d)%nat | Err _ => True | Out => False end.

Lemma reads_le d d' res : reads d res → (d ≤ d')%nat → reads d' res.
Proof. destruct res as [[v r]| |]; simpl; [intros (? & ? & ?) ?; split_and!; [done|done|lia]|done|done]. Qed.

Lemma take_reads n r : Forall byte r → bytes_left (λ b, Forall byte b ∧ Z.of_nat (length b) = n) (length r) (take_ n r).
Proof.
  intros Hr. unfold take_. destruct (Z.ltb_spec n 0), (Z.ltb_spec (Z.of_nat (length r)) n); simpl; try done.
  rewrite length_take, length_drop. split_and!; [by apply Forall_take|lia|by apply Forall_drop|lia].
Qed.
Lemma uintN_reads n r : n ≤ 8 → Forall byte r → bytes_left (λ u, 0 ≤ u < 256 ^ n) (length r) (uintN n r).
Proof.
  intros Hn Hr. unfold uintN. pose proof (take_reads n r Hr) as Ht. destruct (take_ n r) as [[b r']| |]; simpl in *; [|done|done].
  destruct Ht as ((Hb & Hl) & Hr' & Hd). split; [|by split]. rewrite <- Hl. apply (read_bound b); [done|lia].
Qed.
Lemma string_reads n d r : n < 2 ^ 32 → Forall byte r → (length r < d)%nat → reads d (stringBody n r).
Proof.
  intros Hn Hr Hd. unfold stringBody. pose proof (take_reads n r Hr) as Ht. destruct (take_ n r) as [[b r']| |]; simpl in *; [|done|done].
  destruct Ht as ((Hb & Hl) & Hr' & Hd'). split_and!; [constructor; [done|unfold short; lia]|done|lia].
Qed.

Section bodies.
Context (rd : list Z → dec (tree * list Z)) (F : nat) (Hrd : ∀ r, Forall byte r → (length r < F)%nat → reads (length r) (rd r)).

Lemma array_reads g n out r d : (length r < g)%nat → (length r < F)%nat → (length r < d)%nat → Forall byte r → Forall wf out →
  0 ≤ n → Z.of_nat (length out) + n < 2 ^ 32 → reads d (arrayBody rd g n out r).
Proof.
  revert n out r. induction g as [|g IH]; intros n out r Hg HF Hd Hr Ho Hn Hs; [lia|]. cbn [arrayBody].
  destruct (Z.leb_spec n 0) as [H0|H0]; [cbn [reads]; split_and!; [constructor; [unfold short; lia|done]|done|done]|].
  pose proof (Hrd r Hr HF) as H. destruct (rd r) as [[v r']| |]; cbn [dbind reads] in *; [|done|done]. destruct H as (Hv & Hr' & Hl).
  apply IH; [lia|lia|lia|done| |lia|]; [apply Forall_app; split; [done|by constructor]|]. rewrite length_app. simpl. lia.
Qed.
Lemma map_reads g n out r d : (length r < g)%nat → (length r < F)%nat → (length r < d)%nat → Forall byte r →
  NoDup out.*1 → Forall (λ e, Forall byte e.1 ∧ short e.1 ∧ wf e.2) out →
  0 ≤ n → Z.of_nat (length out) + n < 2 ^ 32 → reads d (mapBody rd g n out r).
Proof.
  revert n out r. induction g as [|g IH]; intros n out r Hg HF Hd Hr Hnd Ho Hn Hs; [lia|]. cbn [mapBody].
  destruct (Z.leb_spec n 0) as [H0|H0]; [cbn [reads]; split_and!; [constructor; [unfold short; lia|done|done]|done|done]|].
  pose proof (Hrd r Hr HF) as H. destruct (rd r) as [[k r1]| |]; cbn [dbind reads] in *; [|done|done]. destruct H as (Hk & Hr1 & Hl1).
  destruct k as [| |key| | | | | |]; try done. case_decide as Hin; [done|].
  pose proof (Hrd r1 Hr1 ltac:(lia)) as H. destruct (rd r1) as [[v r2]| |]; cbn [dbind reads] in *; [|done|done]. destruct H as (Hv & Hr2 & Hl2).
  inversion Hk; subst.
  apply IH; [lia|lia|lia|done| | |lia|].
  - rewrite fmap_app. apply NoDup_app. split_and!; [done| |apply NoDup_singleton]. intros x Hx ->%list_elem_of_singleton. done.
  - apply Forall_app. split; [done|]. by repeat constructor.
  - rewrite length_app. simpl. lia.
Qed.
End bodies.

Lemma land_low a k : 0 ≤ k → 0 ≤ Z.land a (Z.ones k) < 2 ^ k.
Proof. intros Hk. rewrite Z.land_ones by done. apply Z.mod_pos_bound. lia. Qed.

(** The width of a tag's field: [b] bytes shifted by at most [m]. *)
Lemma width_bound b k m : 0 ≤ b → 0 ≤ k ≤ m → 0 ≤ Z.shiftl b k ≤ b * 2 ^ m.
Proof. intros Hb Hk. rewrite Z.shiftl_mul_pow2 by lia. pose proof (Z.pow_le_mono_r 2 k m ltac:(lia) ltac:(lia)). nia. Qed.
Lemma field_bound w m : w ≤ m → 256 ^ w ≤ 256 ^ m.
Proof. intros Hw. apply Z.pow_le_mono_r; lia. Qed.

Lemma value_reads fuel r : Forall byte r → (length r < fuel)%nat → reads (length r) (value fuel r).
Proof.
  revert r. induction fuel as [|fuel IH]; intros r Hr Hf; [lia|]. cbn [value].
  destruct r as [|tag r]; [done|]. rewrite byteAt_cons. cbn [dbind]. apply Forall_cons in Hr as [Ht Hr]. unfold byte in Ht. cbn [length] in *.
  pose proof (land_low tag 4 ltac:(lia)) as H4. change (Z.ones 4) with 15 in H4. change (2 ^ 4) with 16 in H4.
  pose proof (land_low tag 5 ltac:(lia)) as H5. change (Z.ones 5) with 31 in H5. change (2 ^ 5) with 32 in H5.
  assert (∀ n, 0 ≤ n < 2 ^ 32 → ∀ r', Forall byte r' → (length r' ≤ length r)%nat → reads (S (length r)) (arrayBody (value fuel) fuel n [] r')) as Harr.
  { intros n Hn r' Hr' Hl. apply (array_reads _ fuel); [intros; by apply IH|lia|lia|lia|done|done|lia|simpl; lia]. }
  assert (∀ n, 0 ≤ n < 2 ^ 32 → ∀ r', Forall byte r' → (length r' ≤ length r)%nat → reads (S (length r)) (mapBody (value fuel) fuel n [] r')) as Hmap.
  { intros n Hn r' Hr' Hl. apply (map_reads _ fuel); [intros; by apply IH|lia|lia|lia|done|constructor|done|lia|simpl; lia]. }
  assert (∀ n, n ≤ 8 → bytes_left (λ u, 0 ≤ u < 256 ^ n) (length r) (uintN n r)) as Hu by (intros; by apply uintN_reads).
  assert (∀ v, wf v → reads (S (length r)) (Ok (v, r))) as Hok by (intros v Hv; cbn [reads]; split_and!; [done|done|lia]).
  destruct (Z.leb_spec tag 127). { apply Hok. constructor. right. zrange. }
  destruct (Z.leb_spec 224 tag). { apply Hok. constructor. left. by apply signed_range. }
  destruct (Z.leb_spec 128 tag), (Z.leb_spec tag 143); cbn [andb]; try lia. { apply Hmap; [lia|done|done]. }
  destruct (Z.leb_spec 144 tag), (Z.leb_spec tag 159); cbn [andb]; try lia. { apply Harr; [lia|done|done]. }
  destruct (Z.leb_spec 160 tag), (Z.leb_spec tag 191); cbn [andb]; try lia. { apply string_reads; [lia|done|lia]. }
  destruct (Z.eqb_spec tag 192). { apply Hok. constructor. }
  destruct (Z.eqb_spec tag 194). { apply Hok. constructor. }
  destruct (Z.eqb_spec tag 195). { apply Hok. constructor. }
  destruct ((196 <=? tag) && (tag <=? 198)); [done|]. destruct ((202 <=? tag) && (tag <=? 203)); [done|].
  destruct ((204 <=? tag) && (tag <=? 207)) eqn:E; [rewrite andb_true_iff, !Z.leb_le in E|clear E].
  { pose proof (width_bound 1 (tag - 204) 3 ltac:(lia) ltac:(lia)) as Hw. pose proof (field_bound (Z.shiftl 1 (tag - 204)) 8 ltac:(lia)) as Hb.
    specialize (Hu (Z.shiftl 1 (tag - 204)) ltac:(lia)). destruct (uintN _ r) as [[u r']| |]; cbn [dbind bytes_left reads] in *; [|done|done].
    destruct Hu as (? & ? & ?). split_and!; [constructor; right; change (256 ^ 8) with two64 in Hb; unfold is_u64; lia|done|lia]. }
  destruct ((208 <=? tag) && (tag <=? 211)) eqn:E; [rewrite andb_true_iff, !Z.leb_le in E|clear E].
  { pose proof (width_bound 1 (tag - 208) 3 ltac:(lia) ltac:(lia)) as Hw.
    specialize (Hu (Z.shiftl 1 (tag - 208)) ltac:(lia)). destruct (uintN _ r) as [[u r']| |]; cbn [dbind bytes_left reads] in *; [|done|done].
    destruct Hu as (? & ? & ?). split_and!; [constructor; left; repeat case_match; by apply signed_range|done|lia]. }
  destruct ((217 <=? tag) && (tag <=? 219)) eqn:E; [rewrite andb_true_iff, !Z.leb_le in E|clear E].
  { pose proof (width_bound 1 (tag - 217) 2 ltac:(lia) ltac:(lia)) as Hw. pose proof (field_bound (Z.shiftl 1 (tag - 217)) 4 ltac:(lia)) as Hb.
    specialize (Hu (Z.shiftl 1 (tag - 217)) ltac:(lia)). destruct (uintN _ r) as [[u r']| |]; cbn [dbind bytes_left] in *; [|done|done].
    destruct Hu as (? & ? & ?). apply string_reads; [change (256 ^ 4) with (2 ^ 32) in Hb; lia|done|lia]. }
  destruct ((220 <=? tag) && (tag <=? 221)) eqn:E; [rewrite andb_true_iff, !Z.leb_le in E|clear E].
  { pose proof (width_bound 2 (tag - 220) 1 ltac:(lia) ltac:(lia)) as Hw. pose proof (field_bound (Z.shiftl 2 (tag - 220)) 4 ltac:(lia)) as Hb.
    specialize (Hu (Z.shiftl 2 (tag - 220)) ltac:(lia)). destruct (uintN _ r) as [[u r']| |]; cbn [dbind bytes_left] in *; [|done|done].
    destruct Hu as (? & ? & ?). apply Harr; [change (256 ^ 4) with (2 ^ 32) in Hb; lia|done|done]. }
  destruct ((222 <=? tag) && (tag <=? 223)) eqn:E; [rewrite andb_true_iff, !Z.leb_le in E|done].
  pose proof (width_bound 2 (tag - 222) 1 ltac:(lia) ltac:(lia)) as Hw. pose proof (field_bound (Z.shiftl 2 (tag - 222)) 4 ltac:(lia)) as Hb.
  specialize (Hu (Z.shiftl 2 (tag - 222)) ltac:(lia)). destruct (uintN _ r) as [[u r']| |]; cbn [dbind bytes_left] in *; [|done|done].
  destruct Hu as (? & ? & ?). apply Hmap; [change (256 ^ 4) with (2 ^ 32) in Hb; lia|done|done].
Qed.

(** ** More input, and more fuel, change nothing already read *)

Section extension.
Context (x : list Z).
Definition extends {A} (res res' : dec (A * list Z)) : Prop := ∀ a r, res = Ok (a, r) → res' = Ok (a, r ++ x).

Lemma take_extends n r : extends (take_ n r) (take_ n (r ++ x)).
Proof.
  intros b r' H. unfold take_ in *. rewrite length_app. destruct (Z.ltb_spec n 0); [done|]. destruct (Z.ltb_spec (Z.of_nat (length r)) n); [done|].
  rewrite (proj2 (Z.ltb_ge _ _)) by lia. simpl in *. injection H as <- <-. by rewrite take_app_le, drop_app_le by lia.
Qed.
Lemma dbind_extends {A B} (m m' : dec (A * list Z)) (k : A * list Z → dec (B * list Z)) :
  extends m m' → (∀ a r, extends (k (a, r)) (k (a, r ++ x))) → extends (dbind m k) (dbind m' k).
Proof. intros Hm Hk b r H. destruct m as [[a r1]| |]; [|done|done]. rewrite (Hm a r1 eq_refl). by apply Hk. Qed.
Lemma ok_extends {A} (a : A) r : extends (Ok (a, r)) (Ok (a, r ++ x)).
Proof. intros b r' H. by injection H as <- <-. Qed.
Lemma err_extends {A} e (res : dec (A * list Z)) : extends (Err e) res.
Proof. intros b r' H. done. Qed.

Lemma byteAt_extends r : extends (byteAt r) (byteAt (r ++ x)).
Proof. unfold byteAt. apply dbind_extends; [apply take_extends|]. intros. apply ok_extends. Qed.
Lemma uintN_extends n r : extends (uintN n r) (uintN n (r ++ x)).
Proof. unfold uintN. apply dbind_extends; [apply take_extends|]. intros. apply ok_extends. Qed.
Lemma string_extends n r : extends (stringBody n r) (stringBody n (r ++ x)).
Proof. unfold stringBody. apply dbind_extends; [apply take_extends|]. intros. apply ok_extends. Qed.

Context (rd rd' : list Z → dec (tree * list Z)) (Hrd : ∀ r, extends (rd r) (rd' (r ++ x))).
Lemma rd_extends_bind {B} r (k k' : tree * list Z → dec (B * list Z)) :
  (∀ v r, extends (k (v, r)) (k' (v, r ++ x))) → extends (dbind (rd r) k) (dbind (rd' (r ++ x)) k').
Proof. intros Hk b r' H. destruct (rd r) as [[v r1]| |] eqn:E; [|done|done]. rewrite (Hrd r v r1 E). by apply Hk. Qed.
Lemma array_extends g g' n out r : (g ≤ g')%nat → extends (arrayBody rd g n out r) (arrayBody rd' g' n out (r ++ x)).
Proof.
  revert g' n out r. induction g as [|g IH]; intros [|g'] n out r Hg; [done|done|lia|]. cbn [arrayBody].
  destruct (n <=? 0); [apply ok_extends|]. apply rd_extends_bind. intros v r1. apply IH. lia.
Qed.
Lemma map_extends g g' n out r : (g ≤ g')%nat → extends (mapBody rd g n out r) (mapBody rd' g' n out (r ++ x)).
Proof.
  revert g' n out r. induction g as [|g IH]; intros [|g'] n out r Hg; [done|done|lia|]. cbn [mapBody].
  destruct (n <=? 0); [apply ok_extends|]. apply rd_extends_bind. intros v r1. destruct v; try apply err_extends.
  case_decide; [apply err_extends|]. apply rd_extends_bind. intros v' r2. apply IH. lia.
Qed.
End extension.

Lemma value_extends x fuel fuel' r : (fuel ≤ fuel')%nat → extends x (value fuel r) (value fuel' (r ++ x)).
Proof.
  revert fuel' r. induction fuel as [|fuel IH]; intros [|fuel'] r Hf; [done|done|lia|]. cbn [value].
  assert (∀ r, extends x (value fuel r) (value fuel' (r ++ x))) as Hrd by (intros; apply IH; lia).
  assert (∀ (m m' : dec (Z * list Z)) (k k' : Z * list Z → dec (tree * list Z)), extends x m m' → (∀ a r, extends x (k (a, r)) (k' (a, r ++ x))) →
    extends x (dbind m k) (dbind m' k')) as Hbind.
  { intros m m' k k' Hm Hk b r' H. destruct m as [[a r1]| |]; [|done|done]. rewrite (Hm a r1 eq_refl). by apply Hk. }
  apply Hbind; [apply byteAt_extends|]. clear r. intros tag r.
  repeat match goal with
  | |- extends _ (if ?c then _ else _) _ => destruct c
  | |- extends _ (Err _) _ => apply err_extends
  | |- extends _ (Ok _) _ => apply ok_extends
  | |- extends _ (dbind (uintN _ _) _) _ => apply Hbind; [apply uintN_extends|intros u r1]
  | |- extends _ (stringBody _ _) _ => apply string_extends
  | |- extends _ (arrayBody _ _ _ _ _) _ => apply array_extends; [apply Hrd|lia]
  | |- extends _ (mapBody _ _ _ _ _) _ => apply map_extends; [apply Hrd|lia]
  end.
Qed.

(** ** The codec *)

(** The values the packer accepts, whatever their lengths. *)
Fixpoint packable (v : tree) : bool :=
  match v with
  | TNull | TBool _ | TStr _ => true
  | TNum n => bool_decide (is_i64 n ∨ is_u64 n)
  | TArr l => forallb packable l
  | TMap m => forallb (λ e, packable e.2) m
  | TReal | TBytes _ | TFloat => false
  end.
Definition packs (f : list Z → enc (list Z)) (b : bool) : Prop := ∀ dst, (∃ bs, f dst = inl bs) ↔ b = true.
Lemma packs_elements l : Forall (λ v, packs (msgpackAppend v) (packable v)) l → packs (λ dst, appendElements dst (map msgpackAppend l)) (forallb packable l).
Proof.
  intros H. induction H as [|v l Hv _ IH]; intros dst; simpl; [split; [done|by eexists]|]. rewrite andb_true_iff, <- (Hv dst).
  destruct (msgpackAppend v dst) as [d|e] eqn:E.
  - rewrite <- (IH d). split; [intros H; split; [by eexists|done]|by intros [_ ?]].
  - split; [by intros (? & ?)|by intros [(? & ?) _]].
Qed.
Lemma packs_entries (m : list (list Z * tree)) : Forall (λ e, packs (msgpackAppend e.2) (packable e.2)) m →
  packs (λ dst, appendEntries dst (map (λ e, (e.1, msgpackAppend e.2)) m)) (forallb (λ e, packable e.2) m).
Proof.
  intros H. induction H as [|e m He _ IH]; intros dst; simpl; [split; [done|by eexists]|]. rewrite andb_true_iff, <- (He (msgpackAppendString dst e.1)).
  destruct (msgpackAppend e.2 _) as [d|err] eqn:E.
  - rewrite <- (IH d). split; [intros H; split; [by eexists|done]|by intros [_ ?]].
  - split; [by intros (? & ?)|by intros [(? & ?) _]].
Qed.
Lemma packs_packable v : packs (msgpackAppend v) (packable v).
Proof.
  induction v as [|b|s|n| |l IH|m IH|b|] using tree_rect'; intros dst; simpl; try (split; [done|by eexists]); try (split; [by intros (? & ?)|done]).
  - unfold msgpackAppendNumber. rewrite bool_decide_eq_true. destruct (decide (is_i64 n)); [split; [by left|by eexists]|].
    destruct (decide (is_u64 n)); [split; [by right|by eexists]|]. split; [by intros (? & ?)|by intros [|]].
  - by apply (packs_elements l).
  - rewrite <- (sortKeys_map (λ e, (e.1, msgpackAppend e.2))) by done. pose proof (sortKeys_perm m) as Hp.
    assert (Forall (λ e, packs (msgpackAppend e.2) (packable e.2)) (sortKeys m)) as Hs by (by rewrite Hp).
    rewrite (packs_entries (sortKeys m) Hs _), !forallb_forall. setoid_rewrite <- list_elem_of_In.
    split; intros Hx e He; apply Hx; [by rewrite Hp|by rewrite <- Hp].
Qed.

(** C36: A tree the wire can carry packs into bytes that read back as the same value,
    each map in the order of its keys.  The frame does not depend on the order in
    which Go ranges over a map; nothing may follow it; and no part cut off its end
    is ever taken for a frame. *)
Theorem Msgpack_roundtrip v (Hwf : wf v) :
  ∃ bs, msgpackEncodeValue v = inl bs ∧ Forall byte bs ∧
    msgpackDecodeValue bs = Ok (norm v) ∧ same v (norm v) ∧
    (∀ v', same v v' → msgpackEncodeValue v' = inl bs) ∧
    (∀ more, more ≠ [] → msgpackDecodeValue (bs ++ more) = Err (Trailing (length more))) ∧
    (∀ part rest w, rest ≠ [] → bs = part ++ rest → msgpackDecodeValue part ≠ Ok w).
Proof.
  destruct (wf_packed v Hwf) as (bs & Ha & Hl & Hb & Hv). exists bs.
  assert (msgpackEncodeValue v = inl bs) as He by apply (Ha []).
  assert (∀ more, value (value_fuel (bs ++ more)) (bs ++ more) = Ok (norm v, more)) as Hread.
  { intros more. apply Hv. unfold value_fuel. rewrite length_app. lia. }
  split_and!; [done|done| |apply norm_same| | |].
  - unfold msgpackDecodeValue. specialize (Hread []). rewrite app_nil_r in Hread. by rewrite Hread.
  - intros v' Hs. unfold msgpackEncodeValue. rewrite <- (append_same v v'); [done|done|by apply (same_wf v)|done].
  - intros more Hm. unfold msgpackDecodeValue. rewrite Hread. cbn [dbind]. by destruct more.
  - intros part rest w Hr Heq Hd. unfold msgpackDecodeValue in Hd.
    destruct (value (value_fuel part) part) as [[u r]| |] eqn:E; cbn [dbind] in Hd; [|done|done]. destruct r; [|done].
    pose proof (value_extends rest (value_fuel part) (value_fuel (part ++ rest)) part ltac:(unfold value_fuel; rewrite length_app; lia) _ _ E) as Hx.
    rewrite <- Heq in Hx. specialize (Hread []). rewrite app_nil_r in Hread. rewrite Hread in Hx. injection Hx as _ Hx. by destruct rest.
Qed.

Definition sample : tree := TMap [([98], TArr [TNum (-5); TNum 300; TNull]); ([97], TStr [104; 105])].
Lemma Msgpack_roundtrip_witness : wf sample ∧ ∃ bs, msgpackEncodeValue sample = inl bs ∧ msgpackDecodeValue bs = Ok (norm sample).
Proof.
  assert (wf sample) as Hwf.
  { apply wf_map; [done|by apply (bool_decide_unpack _)|].
    repeat first [apply wf_num; left; by split|by split|constructor]. }
  split; [done|]. destruct (Msgpack_roundtrip sample Hwf) as (bs & He & _ & Hd & _). by exists bs.
Defined.

(** C37: On any bytes the reader comes to an end.  What it accepts is a tree the wire
    can carry (no duplicate key, no byte string, every number in 64 bits), and it
    packs again into a frame that reads as the same value; and the packer fails
    exactly on a number outside 64 bits, a literal that is no integer, a byte string
    or a float. *)
Theorem Msgpack_reads_only_frames :
  (∀ data, Forall byte data →
    match msgpackDecodeValue data with
    | Ok v => wf v ∧ ∃ bs, msgpackEncodeValue v = inl bs ∧ msgpackDecodeValue bs = Ok (norm v)
    | Err _ => True
    | Out => False
    end) ∧
  ∀ v, (∃ bs, msgpackEncodeValue v = inl bs) ↔ packable v = true.
Proof.
  split; [|intros v; apply packs_packable]. intros data Hb. unfold msgpackDecodeValue.
  pose proof (value_reads (value_fuel data) data Hb ltac:(unfold value_fuel; lia)) as Hr.
  destruct (value (value_fuel data) data) as [[v r]| |]; cbn [dbind reads] in *; [|done|done]. destruct Hr as (Hwf & _).
  destruct r; [|done]. split; [done|]. destruct (wf_packed v Hwf) as (bs & Ha & _ & _ & Hv). exists bs. split; [apply Ha|].
  unfold msgpackDecodeValue. pose proof (Hv (value_fuel bs) [] ltac:(unfold value_fuel; lia)) as H. rewrite app_nil_r in H. by rewrite H.
Qed.

(** The frame of a message, for a json codec that reads its own value back. *)
Lemma frame_roundtrip {Msg} (toTree : Msg → option tree) (fromTree : tree → option Msg) m t :
  toTree m = Some t → wf t → fromTree (norm t) = Some m →
  ∃ bs, EncodeIpcMessageMsgpack toTree (Some m) = inl bs ∧ DecodeIpcMessageMsgpack fromTree bs = inl m.
Proof.
  intros Ht Hwf Hf. destruct (wf_packed t Hwf) as (bs & Ha & _ & _ & Hv). exists bs. unfold EncodeIpcMessageMsgpack, DecodeIpcMessageMsgpack.
  rewrite Ht. unfold msgpackEncodeValue. rewrite Ha. split; [done|]. unfold msgpackDecodeValue.
  pose proof (Hv (value_fuel bs) [] ltac:(unfold value_fuel; lia)) as H. rewrite app_nil_r in H. rewrite H. cbn [dbind].
  by rewrite norm_norm, Hf.
Qed.
(** A byte string, a float, a duplicate key and a key that is no string are refused. *)
Example refusals :
  msgpackDecodeValue [196; 1; 7] = Err (Bin 196) ∧ msgpackDecodeValue [202; 0; 0; 0; 0] = Err (Floating 202) ∧
  msgpackDecodeValue [130; 161; 97; 1; 161; 97; 2] = Err (Duplicate [97]) ∧ msgpackDecodeValue [129; 1; 1] = Err NotAKey ∧
  msgpackDecodeValue [223; 255; 255; 255; 255] = Err Truncated ∧ msgpackDecodeValue [192; 192] = Err (Trailing 1).
Proof. split_and!; reflexivity. Qed.
