(* ===== verification/Wire.v ===== *)
(** * Wire: the messages of the wire and their json value trees (ipc.go,
    delta_wire_gen.go)

    A Go value's [MarshalJSON] is the tree of the object it writes, in the order it
    writes the keys; an [UnmarshalJSON] reads such a tree.  The text between the two
    is [encoding/json]'s and is left out, but for what it does to a value: a string
    loses its invalid UTF-8 ([coerceUtf8]), a struct field is found by a key equal
    up to case ([foldName]), the last such key wins, a null leaves a field alone.
    A Go string is the list of its bytes, or a [string] where it is a name. *)

From Stdlib Require Import Ascii.
From S2P Require Import Prelude Hlc MsgpackCodec Distributed.
Local Open Scope Z_scope.

(** ** Strings *)

Definition key (s : string) : list Z := map (λ c, Z.of_N (N_of_ascii c)) (String.list_ascii_of_string s).
Definition unkey (l : list Z) : string := String.string_of_list_ascii (map (λ b, ascii_of_N (Z.to_N b)) l).
Definition tagIs (tag : list Z) (s : string) : bool := bool_decide (tag = key s).

Definition cont (lo hi b : Z) : bool := (lo <=? b) && (b <=? hi).
(** The well-formed sequence a byte string starts with, and its length; [0] if none. *)
Definition utf8_len (l : list Z) : nat :=
  match l with
  | [] => O
  | a :: l =>
      if a <=? 127 then 1%nat
      else if cont 194 223 a then match l with b :: _ => if cont 128 191 b then 2%nat else O | _ => O end
      else if cont 224 239 a then
        let lo := if a =? 224 then 160 else 128 in let hi := if a =? 237 then 159 else 191 in
        match l with b :: c :: _ => if cont lo hi b && cont 128 191 c then 3%nat else O | _ => O end
      else if cont 240 244 a then
        let lo := if a =? 240 then 144 else 128 in let hi := if a =? 244 then 143 else 191 in
        match l with b :: c :: d :: _ => if cont lo hi b && cont 128 191 c && cont 128 191 d then 4%nat else O | _ => O end
      else O
  end.
(** What [json.Marshal] makes of a string: a byte that starts no sequence becomes
    the replacement character. *)
Fixpoint coerceUtf8_ (fuel : nat) (l : list Z) : list Z :=
  match fuel, l with
  | O, _ | _, [] => []
  | S fuel, _ => match utf8_len l with O => [239; 191; 189] ++ coerceUtf8_ fuel (drop 1 l) | n => take n l ++ coerceUtf8_ fuel (drop n l) end
  end.
Definition coerceUtf8 (l : list Z) : list Z := coerceUtf8_ (length l) l.
Definition utf8 (l : list Z) : Prop := coerceUtf8 l = l.
(** Keys are compared without case, in which the long s and the Kelvin sign are
    letters too. *)
Fixpoint foldName (l : list Z) : list Z :=
  match l with
  | [] => []
  | 197 :: 191 :: l => 83 :: foldName l
  | 226 :: 132 :: 170 :: l => 75 :: foldName l
  | b :: l => (if cont 97 122 b then b - 32 else b) :: foldName l
  end.

(** ** Struct decoding by encoding/json *)

Definition str_tree (l : list Z) : tree := TStr (coerceUtf8 l).
(** A field starts at [zero] and every key that names it is decoded into it. *)
Definition field {A} (name : string) (decode : A → tree → option A) (zero : A) (m : list (list Z * tree)) : option A :=
  foldl (λ acc e, a ← acc; if decide (foldName e.1 = foldName (key name)) then decode a e.2 else Some a) (Some zero) m.
(** The object a struct is decoded from; a null leaves the struct alone. *)
Definition object (t : tree) : option (list (list Z * tree)) := match t with TMap m => Some m | TNull => Some [] | _ => None end.
Definition d_int64 (old : Z) (t : tree) : option Z :=
  match t with TNum n => if decide (is_i64 n) then Some n else None | TNull => Some old | _ => None end.
Definition d_string (old : list Z) (t : tree) : option (list Z) := match t with TStr s => Some s | TNull => Some old | _ => None end.
Definition d_raw (_ : option tree) (t : tree) : option (option tree) := Some (Some t).
Definition d_slice {A} (elem : tree → option A) (_ : list A) (t : tree) : option (list A) :=
  match t with TArr l => mapM elem l | TNull => Some [] | _ => None end.
(** [ipc.go] [NodeKey.UnmarshalJSON] *)
Definition NodeKey_UnmarshalJSON (t : tree) : option NodeKey :=
  s ← d_string [] t; NewNodeKey (unkey s).
Definition d_key (_ : option NodeKey) (t : tree) : option (option NodeKey) :=
  match t with TNull => Some None | _ => k ← NodeKey_UnmarshalJSON t; Some (Some k) end.
(** [ipc.go] [NodeKey.MarshalJSON] *)
Definition NodeKey_MarshalJSON (k : NodeKey) : tree := str_tree (key (Path k)).
(** [ipc.go] [taggedJSON] *)
Definition taggedJSON (tag : string) (body : tree) : tree := TMap [(key tag, body)].
(** [ipc.go] [splitTagged] *)
Definition splitTagged (t : tree) : option (list Z * tree) := match t with TMap [e] => Some e | _ => None end.

(** ** The generated decoder's strict readers *)

(** [delta_wire_gen.go] [deltaWireTagged] *)
Definition deltaWireTagged (tag : string) (body : tree) : tree := TMap [(key tag, body)].
(** [delta_wire_gen.go] [deltaWireContains] *)
Definition deltaWireContains (keys : list string) (k : list Z) : bool := existsb (λ s, tagIs k s) keys.
Fixpoint lookupKey (k : list Z) (m : list (list Z * tree)) : option tree :=
  match m with [] => None | (k', t) :: m => if decide (k' = k) then Some t else lookupKey k m end.
(** [delta_wire_gen.go] [deltaWireFields] *)
Definition deltaWireFields (t : tree) (required optional : list string) : option (list (list Z * tree)) :=
  match t with
  | TMap m =>
      if forallb (λ k, bool_decide (is_Some (lookupKey (key k) m))) required && forallb (λ e, deltaWireContains required e.1 || deltaWireContains optional e.1) m
      then Some m else None
  | _ => None
  end.
(** [delta_wire_gen.go] [deltaWireIsNull] *)
Definition deltaWireIsNull (t : tree) : bool := match t with TNull => true | _ => false end.
(** [delta_wire_gen.go] [deltaWireTag] *)
Definition deltaWireTag (t : tree) : option (list Z * tree) := match t with TMap [e] => Some e | _ => None end.
(** [delta_wire_gen.go] [deltaWireString] *)
Definition deltaWireString (t : tree) : option (list Z) := match t with TStr s => Some s | _ => None end.
(** [delta_wire_gen.go] [deltaWireU64] *)
Definition deltaWireU64 (t : tree) : option Z := match t with TNum n => if decide (is_u64 n) then Some n else None | _ => None end.
(** [delta_wire_gen.go] [deltaWireInt64] *)
Definition deltaWireInt64 (t : tree) : option Z := v ← deltaWireU64 t; if max_i64 <? v then None else Some v.
(** [delta_wire_gen.go] [deltaWireCheckInt64] *)
Definition deltaWireCheckInt64 (v : Z) : option unit := if v <? 0 then None else Some ().
(** [delta_wire_gen.go] [deltaWireList] *)
Definition deltaWireList (t : tree) : option (list tree) := match t with TArr l => Some l | _ => None end.
(** [delta_wire_gen.go] [deltaWireBytes] *)
Definition deltaWireBytes (t : tree) : option (list Z) :=
  items ← deltaWireList t; mapM (λ item, v ← deltaWireU64 item; if 255 <? v then None else Some v) items.
(** [delta_wire_gen.go] [deltaWireByteArray] *)
Definition deltaWireByteArray (b : list Z) : tree := TArr (map TNum b).

(** ** Descriptors of blobs *)

(** [ipc.go] [lines 131-141 BlobBackendKind] *)
Definition BlobBackendKind : Type := string.
Definition BackendShm : BlobBackendKind := "shm".
Definition BackendArrow : BlobBackendKind := "arrow".
Definition BackendInProcess : BlobBackendKind := "in_process".
(** [ipc.go] [BlobBackendKind.Normalized] *)
Definition Normalized (k : BlobBackendKind) : BlobBackendKind := if decide (k = EmptyString) then BackendShm else k.
(** [ipc.go] [BlobBackendKind.IsKnown] *)
Definition IsKnown (k : BlobBackendKind) : bool := existsb (λ x, bool_decide (Normalized k = x)) [BackendShm; BackendArrow; BackendInProcess].
(** [ipc.go] [ParseBlobBackendKind] *)
Definition ParseBlobBackendKind (s : string) : option BlobBackendKind :=
  if existsb (λ x, bool_decide (s = x)) [BackendShm; BackendArrow; BackendInProcess] then Some s else None.
(** [ipc.go] [BlobBackendKind.IsDefault] *)
Definition IsDefault (k : BlobBackendKind) : bool := bool_decide (Normalized k = BackendShm).
(** [ipc.go] [BlobBackendKind.routerIndex] *)
Definition routerIndex (k : BlobBackendKind) : option nat :=
  if decide (Normalized k = BackendShm) then Some 0%nat
  else if decide (Normalized k = BackendArrow) then Some 1%nat
  else if decide (Normalized k = BackendInProcess) then Some 2%nat else None.

(** [ipc.go] [type ShmBlobRef] *)
Record ShmBlobRef := mkRef { Offset : Z; Len : Z; Generation : Z; r_Epoch : Z; Checksum : Z; Backend : BlobBackendKind }.
#[export] Instance ShmBlobRef_eq_dec : EqDecision ShmBlobRef.
Proof. solve_decision. Defined.
(** [ipc.go] [ShmBlobRef.WithBackend] *)
Definition WithBackend (r : ShmBlobRef) (k : BlobBackendKind) : ShmBlobRef := mkRef (Offset r) (Len r) (Generation r) (r_Epoch r) (Checksum r) k.
(** [ipc.go] [NewShmBlobRef] *)
Definition NewShmBlobRef (offset length generation epoch checksum : Z) : option ShmBlobRef :=
  if existsb (λ v, v <? 0) [offset; length; generation; epoch; checksum] then None
  else Some (mkRef offset length generation epoch checksum EmptyString).
(** [ipc.go] [ShmBlobRef.MarshalJSON] *)
Definition ShmBlobRef_MarshalJSON (r : ShmBlobRef) : tree :=
  TMap ([(key "offset", TNum (Offset r)); (key "len", TNum (Len r)); (key "generation", TNum (Generation r)); (key "epoch", TNum (r_Epoch r));
    (key "checksum", TNum (Checksum r))] ++
    (if IsDefault (Backend r) then [] else [(key "backend", str_tree (key (Normalized (Backend r))))])).
(** A pointer to a string: a null is the absent pointer. *)
Definition d_string_ptr (_ : option (list Z)) (t : tree) : option (option (list Z)) :=
  match t with TStr s => Some (Some s) | TNull => Some None | _ => None end.
(** [ipc.go] [ShmBlobRef.UnmarshalJSON] *)
Definition ShmBlobRef_UnmarshalJSON (t : tree) : option ShmBlobRef :=
  m ← object t;
  offset ← field "offset" d_int64 0 m; len ← field "len" d_int64 0 m; generation ← field "generation" d_int64 0 m;
  epoch ← field "epoch" d_int64 0 m; checksum ← field "checksum" d_int64 0 m; backend ← field "backend" d_string_ptr None m;
  if (offset <? 0) || (len <? 0) || (generation <? 0) || (epoch <? 0) || (checksum <? 0) then None
  else
    kind ← (match backend with Some s => ParseBlobBackendKind (unkey s) | None => Some BackendShm end);
    Some (mkRef offset len generation epoch checksum kind).

(** ** Values and node bodies *)

(** [delta_wire_gen.go] [type IpcValue] *)
Inductive IpcValue := IpcValueInline (Bytes : list Z) | IpcValueSharedBlob (Blob : ShmBlobRef).
#[export] Instance IpcValue_eq_dec : EqDecision IpcValue.
Proof. solve_decision. Defined.
(** [delta_wire_gen.go] [type NodeState] *)
Inductive NodeState := NodeStatePayload (Bytes : list Z) | NodeStateSharedBlob (Blob : ShmBlobRef) | NodeStateOpaque.

(** [delta_wire_gen.go] [IpcValueInline.MarshalJSON] *)
Definition IpcValueInline_MarshalJSON (b : list Z) : tree := deltaWireTagged "Inline" (deltaWireByteArray b).
(** [delta_wire_gen.go] [IpcValueSharedBlob.MarshalJSON] *)
Definition IpcValueSharedBlob_MarshalJSON (r : ShmBlobRef) : tree := deltaWireTagged "SharedBlob" (ShmBlobRef_MarshalJSON r).
Definition IpcValue_MarshalJSON (v : IpcValue) : tree :=
  match v with IpcValueInline b => IpcValueInline_MarshalJSON b | IpcValueSharedBlob r => IpcValueSharedBlob_MarshalJSON r end.
(** [delta_wire_gen.go] [unmarshalIpcValueInline] *)
Definition unmarshalIpcValueInline (t : tree) : option IpcValue := b ← deltaWireBytes t; Some (IpcValueInline b).
(** [delta_wire_gen.go] [unmarshalIpcValueSharedBlob] *)
Definition unmarshalIpcValueSharedBlob (t : tree) : option IpcValue := r ← ShmBlobRef_UnmarshalJSON t; Some (IpcValueSharedBlob r).
(** [delta_wire_gen.go] [unmarshalIpcValue] *)
Definition unmarshalIpcValue (t : tree) : option IpcValue :=
  '(tag, inner) ← deltaWireTag t;
  if tagIs tag "Inline" then unmarshalIpcValueInline inner else if tagIs tag "SharedBlob" then unmarshalIpcValueSharedBlob inner else None.

(** [delta_wire_gen.go] [NodeStatePayload.MarshalJSON] *)
Definition NodeStatePayload_MarshalJSON (b : list Z) : tree := deltaWireTagged "Payload" (deltaWireByteArray b).
(** [delta_wire_gen.go] [NodeStateSharedBlob.MarshalJSON] *)
Definition NodeStateSharedBlob_MarshalJSON (r : ShmBlobRef) : tree := deltaWireTagged "SharedBlob" (ShmBlobRef_MarshalJSON r).
(** [delta_wire_gen.go] [NodeStateOpaque.MarshalJSON] *)
Definition NodeStateOpaque_MarshalJSON : tree := TStr (key "Opaque").
Definition NodeState_MarshalJSON (s : NodeState) : tree :=
  match s with
  | NodeStatePayload b => NodeStatePayload_MarshalJSON b | NodeStateSharedBlob r => NodeStateSharedBlob_MarshalJSON r
  | NodeStateOpaque => NodeStateOpaque_MarshalJSON
  end.
(** [delta_wire_gen.go] [unmarshalNodeStatePayload] *)
Definition unmarshalNodeStatePayload (t : tree) : option NodeState := b ← deltaWireBytes t; Some (NodeStatePayload b).
(** [delta_wire_gen.go] [unmarshalNodeStateSharedBlob] *)
Definition unmarshalNodeStateSharedBlob (t : tree) : option NodeState := r ← ShmBlobRef_UnmarshalJSON t; Some (NodeStateSharedBlob r).
(** [delta_wire_gen.go] [unmarshalNodeState] *)
Definition unmarshalNodeState (t : tree) : option NodeState :=
  match t with
  | TStr s => if tagIs s "Opaque" then Some NodeStateOpaque else None
  | _ =>
      '(tag, inner) ← deltaWireTag t;
      if tagIs tag "Payload" then unmarshalNodeStatePayload inner else if tagIs tag "SharedBlob" then unmarshalNodeStateSharedBlob inner else None
  end.

(** ** Delta operations *)

(** [delta_wire_gen.go] [type DeltaOp] *)
Inductive DeltaOp :=
| DeltaOpCellSet (Node : Z) (Payload : IpcValue)
| DeltaOpSlotValue (Node : Z) (Payload : IpcValue)
| DeltaOpInvalidate (Node : Z)
| DeltaOpNodeAdd (Node : Z) (TypeTag : list Z) (State : NodeState) (Key : option NodeKey)
| DeltaOpNodeRemove (Node : Z)
| DeltaOpEdgeAdd (Dependent Dependency : Z)
| DeltaOpEdgeRemove (Dependent Dependency : Z)
| DeltaOpQueuePush (Node : Z) (Payload : IpcValue)
| DeltaOpQueuePop (Node : Z)
| DeltaOpQueueClose (Node : Z).

(** [delta_wire_gen.go] [DeltaOpCellSet.MarshalJSON] *)
Definition DeltaOpCellSet_MarshalJSON (node : Z) (p : IpcValue) : option tree :=
  deltaWireCheckInt64 node;; Some (deltaWireTagged "CellSet" (TMap [(key "node", TNum node); (key "payload", IpcValue_MarshalJSON p)])).
(** [delta_wire_gen.go] [DeltaOpSlotValue.MarshalJSON] *)
Definition DeltaOpSlotValue_MarshalJSON (node : Z) (p : IpcValue) : option tree :=
  deltaWireCheckInt64 node;; Some (deltaWireTagged "SlotValue" (TMap [(key "node", TNum node); (key "payload", IpcValue_MarshalJSON p)])).
(** [delta_wire_gen.go] [DeltaOpInvalidate.MarshalJSON] *)
Definition DeltaOpInvalidate_MarshalJSON (node : Z) : option tree :=
  deltaWireCheckInt64 node;; Some (deltaWireTagged "Invalidate" (TMap [(key "node", TNum node)])).
(** [delta_wire_gen.go] [DeltaOpNodeAdd.MarshalJSON] *)
Definition DeltaOpNodeAdd_MarshalJSON (node : Z) (tag : list Z) (s : NodeState) (k : option NodeKey) : option tree :=
  deltaWireCheckInt64 node;;
  Some (deltaWireTagged "NodeAdd" (TMap ([(key "node", TNum node); (key "type_tag", str_tree tag); (key "state", NodeState_MarshalJSON s)] ++
    (match k with Some k => [(key "key", NodeKey_MarshalJSON k)] | None => [] end)))).
(** [delta_wire_gen.go] [DeltaOpNodeRemove.MarshalJSON] *)
Definition DeltaOpNodeRemove_MarshalJSON (node : Z) : option tree :=
  deltaWireCheckInt64 node;; Some (deltaWireTagged "NodeRemove" (TMap [(key "node", TNum node)])).
(** [delta_wire_gen.go] [DeltaOpEdgeAdd.MarshalJSON] *)
Definition DeltaOpEdgeAdd_MarshalJSON (a b : Z) : option tree :=
  deltaWireCheckInt64 a;; deltaWireCheckInt64 b;; Some (deltaWireTagged "EdgeAdd" (TMap [(key "dependent", TNum a); (key "dependency", TNum b)])).
(** [delta_wire_gen.go] [DeltaOpEdgeRemove.MarshalJSON] *)
Definition DeltaOpEdgeRemove_MarshalJSON (a b : Z) : option tree :=
  deltaWireCheckInt64 a;; deltaWireCheckInt64 b;; Some (deltaWireTagged "EdgeRemove" (TMap [(key "dependent", TNum a); (key "dependency", TNum b)])).
(** [delta_wire_gen.go] [DeltaOpQueuePush.MarshalJSON] *)
Definition DeltaOpQueuePush_MarshalJSON (node : Z) (p : IpcValue) : option tree :=
  deltaWireCheckInt64 node;; Some (deltaWireTagged "QueuePush" (TMap [(key "node", TNum node); (key "payload", IpcValue_MarshalJSON p)])).
(** [delta_wire_gen.go] [DeltaOpQueuePop.MarshalJSON] *)
Definition DeltaOpQueuePop_MarshalJSON (node : Z) : option tree :=
  deltaWireCheckInt64 node;; Some (deltaWireTagged "QueuePop" (TMap [(key "node", TNum node)])).
(** [delta_wire_gen.go] [DeltaOpQueueClose.MarshalJSON] *)
Definition DeltaOpQueueClose_MarshalJSON (node : Z) : option tree :=
  deltaWireCheckInt64 node;; Some (deltaWireTagged "QueueClose" (TMap [(key "node", TNum node)])).
Definition DeltaOp_MarshalJSON (o : DeltaOp) : option tree :=
  match o with
  | DeltaOpCellSet n p => DeltaOpCellSet_MarshalJSON n p | DeltaOpSlotValue n p => DeltaOpSlotValue_MarshalJSON n p
  | DeltaOpInvalidate n => DeltaOpInvalidate_MarshalJSON n | DeltaOpNodeAdd n tag s k => DeltaOpNodeAdd_MarshalJSON n tag s k
  | DeltaOpNodeRemove n => DeltaOpNodeRemove_MarshalJSON n | DeltaOpEdgeAdd a b => DeltaOpEdgeAdd_MarshalJSON a b
  | DeltaOpEdgeRemove a b => DeltaOpEdgeRemove_MarshalJSON a b | DeltaOpQueuePush n p => DeltaOpQueuePush_MarshalJSON n p
  | DeltaOpQueuePop n => DeltaOpQueuePop_MarshalJSON n | DeltaOpQueueClose n => DeltaOpQueueClose_MarshalJSON n
  end.

(** Every field a body must have is present, so an index is the value there. *)
Definition at_key (m : list (list Z * tree)) (k : string) : tree := default TNull (lookupKey (key k) m).
(** The body of an operation on one node with a payload. *)
Definition node_payload (t : tree) : option (Z * IpcValue) :=
  f ← deltaWireFields t ["node"; "payload"]%string []; n ← deltaWireInt64 (at_key f "node"); p ← unmarshalIpcValue (at_key f "payload"); Some (n, p).
Definition node_only (t : tree) : option Z := f ← deltaWireFields t ["node"]%string []; deltaWireInt64 (at_key f "node").
Definition node_edge (t : tree) : option (Z * Z) :=
  f ← deltaWireFields t ["dependent"; "dependency"]%string []; a ← deltaWireInt64 (at_key f "dependent"); b ← deltaWireInt64 (at_key f "dependency"); Some (a, b).

(** [delta_wire_gen.go] [unmarshalDeltaOpCellSet] *)
Definition unmarshalDeltaOpCellSet (t : tree) : option DeltaOp := '(n, p) ← node_payload t; Some (DeltaOpCellSet n p).
(** [delta_wire_gen.go] [unmarshalDeltaOpSlotValue] *)
Definition unmarshalDeltaOpSlotValue (t : tree) : option DeltaOp := '(n, p) ← node_payload t; Some (DeltaOpSlotValue n p).
(** [delta_wire_gen.go] [unmarshalDeltaOpInvalidate] *)
Definition unmarshalDeltaOpInvalidate (t : tree) : option DeltaOp := n ← node_only t; Some (DeltaOpInvalidate n).
(** [delta_wire_gen.go] [unmarshalDeltaOpNodeAdd] *)
Definition unmarshalDeltaOpNodeAdd (t : tree) : option DeltaOp :=
  f ← deltaWireFields t ["node"; "type_tag"; "state"]%string ["key"]%string;
  n ← deltaWireInt64 (at_key f "node"); tag ← deltaWireString (at_key f "type_tag"); s ← unmarshalNodeState (at_key f "state");
  k ← (match lookupKey (key "key") f with
       | Some raw => if deltaWireIsNull raw then Some None else k ← NodeKey_UnmarshalJSON raw; Some (Some k)
       | None => Some None
       end);
  Some (DeltaOpNodeAdd n tag s k).
(** [delta_wire_gen.go] [unmarshalDeltaOpNodeRemove] *)
Definition unmarshalDeltaOpNodeRemove (t : tree) : option DeltaOp := n ← node_only t; Some (DeltaOpNodeRemove n).
(** [delta_wire_gen.go] [unmarshalDeltaOpEdgeAdd] *)
Definition unmarshalDeltaOpEdgeAdd (t : tree) : option DeltaOp := '(a, b) ← node_edge t; Some (DeltaOpEdgeAdd a b).
(** [delta_wire_gen.go] [unmarshalDeltaOpEdgeRemove] *)
Definition unmarshalDeltaOpEdgeRemove (t : tree) : option DeltaOp := '(a, b) ← node_edge t; Some (DeltaOpEdgeRemove a b).
(** [delta_wire_gen.go] [unmarshalDeltaOpQueuePush] *)
Definition unmarshalDeltaOpQueuePush (t : tree) : option DeltaOp := '(n, p) ← node_payload t; Some (DeltaOpQueuePush n p).
(** [delta_wire_gen.go] [unmarshalDeltaOpQueuePop] *)
Definition unmarshalDeltaOpQueuePop (t : tree) : option DeltaOp := n ← node_only t; Some (DeltaOpQueuePop n).
(** [delta_wire_gen.go] [unmarshalDeltaOpQueueClose] *)
Definition unmarshalDeltaOpQueueClose (t : tree) : option DeltaOp := n ← node_only t; Some (DeltaOpQueueClose n).
(** [delta_wire_gen.go] [unmarshalDeltaOp] *)
Definition unmarshalDeltaOp (t : tree) : option DeltaOp :=
  '(tag, inner) ← deltaWireTag t;
  if tagIs tag "CellSet" then unmarshalDeltaOpCellSet inner else if tagIs tag "SlotValue" then unmarshalDeltaOpSlotValue inner
  else if tagIs tag "Invalidate" then unmarshalDeltaOpInvalidate inner else if tagIs tag "NodeAdd" then unmarshalDeltaOpNodeAdd inner
  else if tagIs tag "NodeRemove" then unmarshalDeltaOpNodeRemove inner else if tagIs tag "EdgeAdd" then unmarshalDeltaOpEdgeAdd inner
  else if tagIs tag "EdgeRemove" then unmarshalDeltaOpEdgeRemove inner else if tagIs tag "QueuePush" then unmarshalDeltaOpQueuePush inner
  else if tagIs tag "QueuePop" then unmarshalDeltaOpQueuePop inner else if tagIs tag "QueueClose" then unmarshalDeltaOpQueueClose inner else None.

(** [delta_wire_gen.go] [type Delta] *)
Record Delta := mkDelta { BaseEpoch : Z; d_Epoch : Z; d_Ops : list DeltaOp }.
(** [delta_wire_gen.go] [Delta.MarshalJSON] *)
Definition Delta_MarshalJSON (d : Delta) : option tree :=
  deltaWireCheckInt64 (BaseEpoch d);; deltaWireCheckInt64 (d_Epoch d);; ops ← mapM DeltaOp_MarshalJSON (d_Ops d);
  Some (TMap [(key "base_epoch", TNum (BaseEpoch d)); (key "epoch", TNum (d_Epoch d)); (key "ops", TArr ops)]).
(** [delta_wire_gen.go] [Delta.UnmarshalJSON] *)
Definition Delta_UnmarshalJSON (t : tree) : option Delta :=
  f ← deltaWireFields t ["base_epoch"; "epoch"; "ops"]%string []; b ← deltaWireInt64 (at_key f "base_epoch"); e ← deltaWireInt64 (at_key f "epoch");
  items ← deltaWireList (at_key f "ops"); ops ← mapM unmarshalDeltaOp items; Some (mkDelta b e ops).

(** ** Snapshots *)

(** [ipc.go] [type NodeSnapshot] *)
Record NodeSnapshot := mkNodeSnapshot { ns_Node : Z; TypeTag : list Z; ns_State : NodeState; ns_Key : option NodeKey }.
(** [ipc.go] [NodeSnapshot.MarshalJSON] *)
Definition NodeSnapshot_MarshalJSON (n : NodeSnapshot) : tree :=
  TMap ([(key "node", TNum (ns_Node n)); (key "type_tag", str_tree (TypeTag n)); (key "state", NodeState_MarshalJSON (ns_State n))] ++
    (match ns_Key n with Some k => [(key "key", NodeKey_MarshalJSON k)] | None => [] end)).
(** A raw message that is absent decodes as nothing.
    [ipc.go] [NodeSnapshot.UnmarshalJSON] *)
Definition NodeSnapshot_UnmarshalJSON (t : tree) : option NodeSnapshot :=
  m ← object t;
  n ← field "node" d_int64 0 m; tag ← field "type_tag" d_string [] m; raw ← field "state" d_raw None m; k ← field "key" d_key None m;
  raw ← raw; state ← unmarshalNodeState raw; Some (mkNodeSnapshot n tag state k).
(** [ipc.go] [type EdgeSnapshot] *)
Record EdgeSnapshot := mkEdge { Dependent : Z; Dependency : Z }.
Definition EdgeSnapshot_tree (e : EdgeSnapshot) : tree := TMap [(key "dependent", TNum (Dependent e)); (key "dependency", TNum (Dependency e))].
Definition EdgeSnapshot_of (t : tree) : option EdgeSnapshot :=
  m ← object t; a ← field "dependent" d_int64 0 m; b ← field "dependency" d_int64 0 m; Some (mkEdge a b).
(** [ipc.go] [type Snapshot] *)
Record Snapshot := mkSnapshot { s_Epoch : Z; Nodes : list NodeSnapshot; Edges : list EdgeSnapshot; Roots : list Z }.
(** [ipc.go] [Snapshot.MarshalJSON] *)
Definition Snapshot_MarshalJSON (s : Snapshot) : tree :=
  TMap [(key "epoch", TNum (s_Epoch s)); (key "nodes", TArr (map NodeSnapshot_MarshalJSON (Nodes s)));
    (key "edges", TArr (map EdgeSnapshot_tree (Edges s))); (key "roots", TArr (map TNum (Roots s)))].
(** [ipc.go] [Snapshot.UnmarshalJSON] *)
Definition Snapshot_UnmarshalJSON (t : tree) : option Snapshot :=
  m ← object t;
  e ← field "epoch" d_int64 0 m; nodes ← field "nodes" (d_slice NodeSnapshot_UnmarshalJSON) [] m;
  edges ← field "edges" (d_slice EdgeSnapshot_of) [] m; roots ← field "roots" (d_slice (d_int64 0)) [] m; Some (mkSnapshot e nodes edges roots).

(** ** The replicated plane *)

Definition WireStamp_tree (s : WireStamp) : tree := TMap [(key "wall_time", TNum (wsWallTime s)); (key "logical", TNum (wsLogical s)); (key "peer", TNum (wsPeer s))].
Definition WireStamp_of (old : WireStamp) (t : tree) : option WireStamp :=
  m ← object t; w ← field "wall_time" d_int64 (wsWallTime old) m; l ← field "logical" d_int64 (wsLogical old) m; p ← field "peer" d_int64 (wsPeer old) m;
  Some (mkWireStamp w l p).
(** [ipc.go] [NewWireStamp] *)
Definition NewWireStamp (w l p : Z) : WireStamp := mkWireStamp w l p.
Definition CrdtOp := @Distributed.CrdtOp IpcValue.
(** [ipc.go] [NewCrdtOp] *)
Definition NewCrdtOp (node : Z) (stamp : WireStamp) (state : IpcValue) : CrdtOp := mkOp node None stamp state.
(** [ipc.go] [NewKeyedCrdtOp] *)
Definition NewKeyedCrdtOp (node : Z) (k : NodeKey) (stamp : WireStamp) (state : IpcValue) : CrdtOp := mkOp node (Some k) stamp state.
(** [ipc.go] [CrdtOp.MarshalJSON] *)
Definition CrdtOp_MarshalJSON (o : CrdtOp) : tree :=
  TMap [(key "node", TNum (Node o)); (key "key", match Key o with Some k => NodeKey_MarshalJSON k | None => TNull end);
    (key "stamp", WireStamp_tree (Stamp o)); (key "state", IpcValue_MarshalJSON (State o))].
(** [ipc.go] [CrdtOp.UnmarshalJSON] *)
Definition CrdtOp_UnmarshalJSON (t : tree) : option CrdtOp :=
  m ← object t;
  n ← field "node" d_int64 0 m; k ← field "key" d_key None m; st ← field "stamp" WireStamp_of (mkWireStamp 0 0 0) m; raw ← field "state" d_raw None m;
  raw ← raw; state ← unmarshalIpcValue raw; Some (mkOp n k st state).
(** [ipc.go] [StampFrontierEntry.MarshalJSON] *)
Definition StampFrontierEntry_MarshalJSON (e : StampFrontierEntry) : tree := TArr [TNum (sfePeer e); WireStamp_tree (sfeStamp e)].
(** [ipc.go] [StampFrontierEntry.UnmarshalJSON] *)
Definition StampFrontierEntry_UnmarshalJSON (t : tree) : option StampFrontierEntry :=
  match t with
  | TArr [a; b] => p ← d_int64 0 a; if p <? 0 then None else st ← WireStamp_of (mkWireStamp 0 0 0) b; Some (mkStampFrontierEntry p st)
  | _ => None
  end.
Definition CrdtSync := @Distributed.CrdtSync IpcValue.
(** [ipc.go] [CrdtSync.MarshalJSON] *)
Definition CrdtSync_MarshalJSON (c : CrdtSync) : tree :=
  TMap [(key "frontier", TArr (map StampFrontierEntry_MarshalJSON (Frontier c))); (key "ops", TArr (map CrdtOp_MarshalJSON (Ops c)))].
(** [ipc.go] [CrdtSync.UnmarshalJSON] *)
Definition CrdtSync_UnmarshalJSON (t : tree) : option CrdtSync :=
  m ← object t; fr ← field "frontier" (d_slice StampFrontierEntry_UnmarshalJSON) [] m; ops ← field "ops" (d_slice CrdtOp_UnmarshalJSON) [] m; Some (mkSync fr ops).

(** ** Messages *)

(** [ipc.go] [type IpcMessage] *)
Inductive IpcMessage :=
| IpcMessageSnapshot (Value : Snapshot)
| IpcMessageDelta (Value : Delta)
| IpcMessageCrdtSync (Value : CrdtSync)
| IpcMessageResyncRequest (FromEpoch : Z)
| IpcMessageOutboxAck (ThroughEpoch : Z).
(** Each message's [EncodeJSON] is its [MarshalJSON].
    [ipc.go] [lines 813-848 IpcMessage.MarshalJSON] *)
Definition EncodeJSON (m : IpcMessage) : option tree :=
  match m with
  | IpcMessageSnapshot s => Some (taggedJSON "Snapshot" (Snapshot_MarshalJSON s))
  | IpcMessageDelta d => t ← Delta_MarshalJSON d; Some (taggedJSON "Delta" t)
  | IpcMessageCrdtSync c => Some (taggedJSON "CrdtSync" (CrdtSync_MarshalJSON c))
  | IpcMessageResyncRequest e => Some (taggedJSON "ResyncRequest" (TMap [(key "from_epoch", TNum e)]))
  | IpcMessageOutboxAck e => Some (taggedJSON "OutboxAck" (TMap [(key "through_epoch", TNum e)]))
  end.
(** A body that is null leaves the value zero, except where its decoder is strict.
    [ipc.go] [IpcMessageFromWire] *)
Definition IpcMessageFromWire (t : tree) : option IpcMessage :=
  '(tag, body) ← splitTagged t;
  if tagIs tag "Snapshot" then s ← Snapshot_UnmarshalJSON body; Some (IpcMessageSnapshot s)
  else if tagIs tag "Delta" then d ← Delta_UnmarshalJSON body; Some (IpcMessageDelta d)
  else if tagIs tag "CrdtSync" then c ← CrdtSync_UnmarshalJSON body; Some (IpcMessageCrdtSync c)
  else if tagIs tag "ResyncRequest" then m ← object body; e ← field "from_epoch" d_int64 0 m; Some (IpcMessageResyncRequest e)
  else if tagIs tag "OutboxAck" then m ← object body; e ← field "through_epoch" d_int64 0 m; Some (IpcMessageOutboxAck e)
  else None.
(** [ipc.go] [DecodeIpcMessageJSON] *)
Definition DecodeIpcMessageJSON (t : tree) : option IpcMessage := IpcMessageFromWire t.

(** ** The MessagePack frame of a message *)

Definition EncodeMsgpack (m : IpcMessage) : list Z + FrameError := EncodeIpcMessageMsgpack EncodeJSON (Some m).
Definition DecodeMsgpack (data : list Z) : IpcMessage + FrameError := DecodeIpcMessageMsgpack IpcMessageFromWire data.

Definition demo : IpcMessage :=
  IpcMessageDelta (mkDelta 4 5 [DeltaOpCellSet 7 (IpcValueInline [1; 255]); DeltaOpNodeAdd 8 (key "t") NodeStateOpaque (Some (mkNodeKey "a/b"));
    DeltaOpQueuePush 9 (IpcValueSharedBlob (mkRef 0 3 1 0 77 "arrow")); DeltaOpEdgeAdd 8 7]).
Example demo_roundtrips : match EncodeMsgpack demo with inl b => DecodeMsgpack b = inl demo | inr _ => False end.
Proof. vm_compute. reflexivity. Qed.

(** ** What a message must be to cross the wire *)

(** An id or an epoch of the strict decoder: a u64 that fits int64. *)
Definition nid (n : Z) : Prop := 0 ≤ n ≤ max_i64.
Definition text (s : list Z) : Prop := Forall byte s ∧ short s ∧ utf8 s.
Definition payload (b : list Z) : Prop := Forall byte b ∧ short b.
Definition ok_ref (r : ShmBlobRef) : Prop :=
  nid (Offset r) ∧ nid (Len r) ∧ nid (Generation r) ∧ nid (r_Epoch r) ∧ nid (Checksum r) ∧ Backend r ∈ [BackendShm; BackendArrow; BackendInProcess].
Definition ok_value (v : IpcValue) : Prop := match v with IpcValueInline b => payload b | IpcValueSharedBlob r => ok_ref r end.
Definition ok_state (s : NodeState) : Prop := match s with NodeStatePayload b => payload b | NodeStateSharedBlob r => ok_ref r | NodeStateOpaque => True end.
Definition ok_key (k : NodeKey) : Prop := validateNodeKey (Path k) = true ∧ utf8 (key (Path k)).
Definition ok_okey (k : option NodeKey) : Prop := match k with Some k => ok_key k | None => True end.
Definition ok_op (o : DeltaOp) : Prop :=
  match o with
  | DeltaOpCellSet n p | DeltaOpSlotValue n p | DeltaOpQueuePush n p => nid n ∧ ok_value p
  | DeltaOpNodeAdd n tag s k => nid n ∧ text tag ∧ ok_state s ∧ ok_okey k
  | DeltaOpEdgeAdd a b | DeltaOpEdgeRemove a b => nid a ∧ nid b
  | DeltaOpInvalidate n | DeltaOpNodeRemove n | DeltaOpQueuePop n | DeltaOpQueueClose n => nid n
  end.
Definition ok_list {A} (P : A → Prop) (l : list A) : Prop := short l ∧ Forall P l.
Definition ok_delta (d : Delta) : Prop := nid (BaseEpoch d) ∧ nid (d_Epoch d) ∧ ok_list ok_op (d_Ops d).
Definition ok_node (n : NodeSnapshot) : Prop := is_i64 (ns_Node n) ∧ text (TypeTag n) ∧ ok_state (ns_State n) ∧ ok_okey (ns_Key n).
Definition ok_edge (e : EdgeSnapshot) : Prop := is_i64 (Dependent e) ∧ is_i64 (Dependency e).
Definition ok_snapshot (s : Snapshot) : Prop := is_i64 (s_Epoch s) ∧ ok_list ok_node (Nodes s) ∧ ok_list ok_edge (Edges s) ∧ ok_list is_i64 (Roots s).
Definition ok_stamp (s : WireStamp) : Prop := is_i64 (wsWallTime s) ∧ is_i64 (wsLogical s) ∧ is_i64 (wsPeer s).
Definition ok_crdt (o : CrdtOp) : Prop := is_i64 (Node o) ∧ ok_okey (Key o) ∧ ok_stamp (Stamp o) ∧ ok_value (State o).
Definition ok_entry (e : StampFrontierEntry) : Prop := nid (sfePeer e) ∧ ok_stamp (sfeStamp e).
Definition ok_sync (c : CrdtSync) : Prop := ok_list ok_entry (Frontier c) ∧ ok_list ok_crdt (Ops c).
Definition ok_message (m : IpcMessage) : Prop :=
  match m with
  | IpcMessageSnapshot s => ok_snapshot s | IpcMessageDelta d => ok_delta d | IpcMessageCrdtSync c => ok_sync c
  | IpcMessageResyncRequest e | IpcMessageOutboxAck e => is_i64 e
  end.

(** The message a receiver holds: a descriptor without a backend names the default one. *)
Definition normal_ref (r : ShmBlobRef) : ShmBlobRef := WithBackend r (Normalized (Backend r)).
Definition normal_value (v : IpcValue) : IpcValue := match v with IpcValueSharedBlob r => IpcValueSharedBlob (normal_ref r) | _ => v end.
Definition normal_state (s : NodeState) : NodeState := match s with NodeStateSharedBlob r => NodeStateSharedBlob (normal_ref r) | _ => s end.
Definition normal_op (o : DeltaOp) : DeltaOp :=
  match o with
  | DeltaOpCellSet n p => DeltaOpCellSet n (normal_value p) | DeltaOpSlotValue n p => DeltaOpSlotValue n (normal_value p)
  | DeltaOpQueuePush n p => DeltaOpQueuePush n (normal_value p) | DeltaOpNodeAdd n tag s k => DeltaOpNodeAdd n tag (normal_state s) k
  | _ => o
  end.
Definition normal_node (n : NodeSnapshot) : NodeSnapshot := mkNodeSnapshot (ns_Node n) (TypeTag n) (normal_state (ns_State n)) (ns_Key n).
Definition normal_crdt (o : CrdtOp) : CrdtOp := mkOp (Node o) (Key o) (Stamp o) (normal_value (State o)).
Definition normal (m : IpcMessage) : IpcMessage :=
  match m with
  | IpcMessageSnapshot s => IpcMessageSnapshot (mkSnapshot (s_Epoch s) (map normal_node (Nodes s)) (Edges s) (Roots s))
  | IpcMessageDelta d => IpcMessageDelta (mkDelta (BaseEpoch d) (d_Epoch d) (map normal_op (d_Ops d)))
  | IpcMessageCrdtSync c => IpcMessageCrdtSync (mkSync (Frontier c) (map normal_crdt (Ops c)))
  | _ => m
  end.

(** The descriptors of a message. *)
Definition value_refs (v : IpcValue) : list ShmBlobRef := match v with IpcValueSharedBlob r => [r] | _ => [] end.
Definition state_refs (s : NodeState) : list ShmBlobRef := match s with NodeStateSharedBlob r => [r] | _ => [] end.
Definition op_refs (o : DeltaOp) : list ShmBlobRef :=
  match o with
  | DeltaOpCellSet _ p | DeltaOpSlotValue _ p | DeltaOpQueuePush _ p => value_refs p | DeltaOpNodeAdd _ _ s _ => state_refs s | _ => [] end.
Definition message_refs (m : IpcMessage) : list ShmBlobRef :=
  match m with
  | IpcMessageSnapshot s => concat (map (λ n, state_refs (ns_State n)) (Nodes s))
  | IpcMessageDelta d => concat (map op_refs (d_Ops d))
  | IpcMessageCrdtSync c => concat (map (λ o, value_refs (State o)) (Ops c))
  | _ => []
  end.

(** ** Strings and fields *)

Lemma nid_i64 n : nid n → is_i64 n.
Proof. unfold nid. zrange. Qed.
Lemma key_bytes s : Forall byte (key s).
Proof.
  unfold key. apply Forall_forall. intros b (c & -> & _)%list_elem_of_fmap. unfold byte. destruct c as [[] [] [] [] [] [] [] []]; simpl; lia.
Qed.
Lemma unkey_key s : unkey (key s) = s.
Proof.
  unfold unkey, key. rewrite map_map. rewrite (map_ext _ id); [rewrite map_id; apply String.string_of_list_ascii_of_string|].
  intros c. rewrite N2Z.id. apply ascii_N_embedding.
Qed.
Lemma key_length s : length (key s) = String.length s.
Proof. unfold key. rewrite length_map. induction s; simpl; [done|by f_equal]. Qed.

(** The entries that name a field; one of them gives the field its value. *)
Definition hits (name : string) (m : list (list Z * tree)) : list (list Z * tree) := filter (λ e, foldName e.1 = foldName (key name)) m.
Lemma field_hits {A} name (decode : A → tree → option A) zero m :
  field name decode zero m = foldl (λ acc e, a ← acc; decode a e.2) (Some zero) (hits name m).
Proof.
  unfold field, hits. generalize (Some zero). induction m as [|e m IH]; intros acc; [done|]. cbn [foldl]. rewrite filter_cons. rewrite IH.
  case_decide; cbn [foldl]; [done|]. f_equal. by destruct acc.
Qed.
Lemma field_hit {A} name (decode : A → tree → option A) zero m e : hits name m = [e] → field name decode zero m = decode zero e.2.
Proof. intros H. by rewrite field_hits, H. Qed.
Lemma field_miss {A} name (decode : A → tree → option A) zero m : hits name m = [] → field name decode zero m = Some zero.
Proof. intros H. by rewrite field_hits, H. Qed.
(** Run the fields of an object whose keys are literals. *)
Ltac fields := repeat first [erewrite field_hit by reflexivity | rewrite field_miss by reflexivity]; cbn [fst snd norm].

Lemma d_int64_num old n : is_i64 n → d_int64 old (TNum n) = Some n.
Proof. intros H. simpl. by rewrite decide_True. Qed.
Lemma wire_int64_num n : nid n → deltaWireInt64 (TNum n) = Some n.
Proof.
  unfold nid. intros H. unfold deltaWireInt64. simpl. rewrite decide_True by zrange. cbn [mbind option_bind]. by rewrite (proj2 (Z.ltb_ge _ _)) by zrange.
Qed.
Lemma check_nid n : nid n → deltaWireCheckInt64 n = Some ().
Proof. unfold nid, deltaWireCheckInt64. intros H. by rewrite (proj2 (Z.ltb_ge _ _)) by lia. Qed.

(** A codec: the decoder reads what the encoder wrote, sorted, and it is a tree the
    packer takes. *)
Definition codes {A} (ok : A → Prop) (encode : A → tree) (decode : tree → option A) : Prop :=
  ∀ a, ok a → decode (norm (encode a)) = Some a ∧ wf (encode a).

Ltac wf_num_tac := apply wf_num; first [left; by apply nid_i64 | by left].
Ltac literal_keys := split; [apply key_bytes|split; [by vm_compute|]].

Lemma nid_ltb n : nid n → (n <? 0) = false.
Proof. intros H. apply Z.ltb_ge. apply H. Qed.
Ltac steps := repeat (cbn [mbind option_bind orb]; first [rewrite d_int64_num by (done || by apply nid_i64) | rewrite nid_ltb by done]); cbn [mbind option_bind orb].
Ltac wf_tree := repeat first [apply wf_null | wf_num_tac | apply Forall_nil_2 | apply Forall_cons_2 | literal_keys; cbn [snd] | done
  | (apply wf_map; [by vm_compute|by apply (bool_decide_unpack _)|]) | (apply wf_arr; [by vm_compute|])
  | (match goal with |- wf (str_tree ?k) => change (wf (TStr k)) end; apply wf_str; [apply key_bytes|by vm_compute]) ].

Lemma ref_codes : codes ok_ref ShmBlobRef_MarshalJSON ShmBlobRef_UnmarshalJSON.
Proof.
  intros [o l g e c b] (Ho & Hl & Hg & He & Hc & Hb). cbn [Offset Len Generation r_Epoch Checksum Backend] in *. split.
  - unfold ShmBlobRef_UnmarshalJSON, ShmBlobRef_MarshalJSON. rewrite !elem_of_cons, elem_of_nil in Hb.
    destruct Hb as [-> | [-> | [-> |[]]]]; cbn [norm object mbind option_bind]; fields; steps; reflexivity.
  - rewrite !elem_of_cons, elem_of_nil in Hb. unfold ShmBlobRef_MarshalJSON. cbn [Offset Len Generation r_Epoch Checksum Backend].
    destruct Hb as [-> | [-> | [-> |[]]]]; cbn [app]; wf_tree.
Qed.

Lemma list_codes {A} ok (encode : A → tree) decode l : codes ok encode decode → ok_list ok l →
  mapM decode (map norm (map encode l)) = Some l ∧ wf (TArr (map encode l)).
Proof.
  intros Hc [Hs Hl]. assert (mapM decode (map norm (map encode l)) = Some l ∧ Forall wf (map encode l)) as [H1 H2].
  { clear Hs. induction Hl as [|a l Ha _ [IH1 IH2]]; [by split|]. destruct (Hc a Ha) as [Hd Hw]. cbn [map mapM]. rewrite Hd. cbn [mbind option_bind].
    rewrite IH1. split; [done|by constructor]. }
  split; [done|]. apply wf_arr; [unfold short in *; by rewrite length_map|done].
Qed.
Lemma slice_codes {A} ok (encode : A → tree) decode old l : codes ok encode decode → ok_list ok l → d_slice decode old (norm (TArr (map encode l))) = Some l.
Proof. intros Hc Hl. apply (list_codes ok encode decode l Hc Hl). Qed.

Lemma bytes_codes : codes payload deltaWireByteArray deltaWireBytes.
Proof.
  intros b [Hb Hs]. assert (codes byte TNum (λ item, v ← deltaWireU64 item; if 255 <? v then None else Some v)) as Hc.
  { intros n Hn. unfold byte in Hn. split; [|apply wf_num; right; zrange]. cbn [norm]. unfold deltaWireU64. rewrite decide_True by zrange.
    cbn [mbind option_bind]. by rewrite (proj2 (Z.ltb_ge _ _)) by lia. }
  exact (list_codes byte TNum _ b Hc (conj Hs Hb)).
Qed.
Lemma tagged_codes tag body : wf body → norm (deltaWireTagged tag body) = TMap [(key tag, norm body)] ∧
  (short (key tag) → wf (deltaWireTagged tag body)).
Proof.
  intros Hb. split; [done|]. intros Hs. apply wf_map; [done|apply NoDup_singleton|]. apply Forall_singleton. split; [apply key_bytes|done].
Qed.
Ltac wf_tag := apply tagged_codes; [|by vm_compute].

Lemma value_codes : codes ok_value IpcValue_MarshalJSON unmarshalIpcValue.
Proof.
  intros [b|r] Hv.
  - destruct (bytes_codes b Hv) as [Hd Hw]. split; [|by wf_tag]. change (unmarshalIpcValue _) with (unmarshalIpcValueInline (norm (deltaWireByteArray b))).
    unfold unmarshalIpcValueInline. by rewrite Hd.
  - destruct (ref_codes r Hv) as [Hd Hw]. split; [|by wf_tag]. change (unmarshalIpcValue _) with (unmarshalIpcValueSharedBlob (norm (ShmBlobRef_MarshalJSON r))).
    unfold unmarshalIpcValueSharedBlob. by rewrite Hd.
Qed.
Lemma state_codes : codes ok_state NodeState_MarshalJSON unmarshalNodeState.
Proof.
  intros [b|r|] Hv.
  - destruct (bytes_codes b Hv) as [Hd Hw]. split; [|by wf_tag]. change (unmarshalNodeState _) with (unmarshalNodeStatePayload (norm (deltaWireByteArray b))).
    unfold unmarshalNodeStatePayload. by rewrite Hd.
  - destruct (ref_codes r Hv) as [Hd Hw]. split; [|by wf_tag]. change (unmarshalNodeState _) with (unmarshalNodeStateSharedBlob (norm (ShmBlobRef_MarshalJSON r))).
    unfold unmarshalNodeStateSharedBlob. by rewrite Hd.
  - split; [done|]. apply wf_str; [apply key_bytes|by vm_compute].
Qed.
Lemma text_codes s : text s → norm (str_tree s) = TStr s ∧ wf (str_tree s).
Proof. intros (Hb & Hs & Hu). unfold str_tree. rewrite Hu. split; [done|by apply wf_str]. Qed.
Lemma key_codes k : ok_key k → norm (NodeKey_MarshalJSON k) = TStr (key (Path k)) ∧ NodeKey_UnmarshalJSON (TStr (key (Path k))) = Some k ∧ wf (NodeKey_MarshalJSON k).
Proof.
  destruct k as [path]. intros [Hv Hu]. cbn [Path] in *. unfold NodeKey_MarshalJSON. cbn [Path]. unfold str_tree. rewrite Hu. split; [done|]. split.
  - unfold NodeKey_UnmarshalJSON. cbn [d_string mbind option_bind]. unfold NewNodeKey. by rewrite unkey_key, Hv.
  - apply wf_str; [apply key_bytes|]. unfold short. rewrite key_length. unfold validateNodeKey in Hv.
    apply andb_true_iff in Hv as [Hv _]. apply andb_true_iff in Hv as [Hv _]. apply andb_true_iff in Hv as [_ Hv]. apply bool_decide_eq_true in Hv. lia.
Qed.

(** ** Operations *)

(** A strict decoder whose fields sit in an object with literal keys. *)
Definition ocodes {A} (ok : A → Prop) (encode : A → option tree) (decode : tree → option A) : Prop :=
  ∀ a, ok a → ∃ t, encode a = Some t ∧ decode (norm t) = Some a ∧ wf t.

Ltac strict := repeat (cbn [mbind option_bind fst snd norm]; first [rewrite wire_int64_num by done | rewrite check_nid by done]); cbn [mbind option_bind fst snd norm].

Lemma node_only_body n : nid n → node_only (norm (TMap [(key "node", TNum n)])) = Some n ∧ wf (TMap [(key "node", TNum n)]).
Proof. intros Hn. split; [|wf_tree]. exact (wire_int64_num n Hn). Qed.
Lemma node_edge_body a b : nid a → nid b →
  node_edge (norm (TMap [(key "dependent", TNum a); (key "dependency", TNum b)])) = Some (a, b) ∧ wf (TMap [(key "dependent", TNum a); (key "dependency", TNum b)]).
Proof.
  intros Ha Hb. split; [|wf_tree]. change (node_edge _) with (a ← deltaWireInt64 (TNum a); b ← deltaWireInt64 (TNum b); Some (a, b)).
  rewrite !wire_int64_num by done. done.
Qed.
Lemma node_payload_body n p : nid n → ok_value p →
  node_payload (norm (TMap [(key "node", TNum n); (key "payload", IpcValue_MarshalJSON p)])) = Some (n, p) ∧
  wf (TMap [(key "node", TNum n); (key "payload", IpcValue_MarshalJSON p)]).
Proof.
  intros Hn Hp. destruct (value_codes p Hp) as [Hd Hw]. split; [|wf_tree].
  change (node_payload _) with (n ← deltaWireInt64 (TNum n); p ← unmarshalIpcValue (norm (IpcValue_MarshalJSON p)); Some (n, p)).
  rewrite wire_int64_num by done. cbn [mbind option_bind]. by rewrite Hd.
Qed.
Lemma node_add_body n tag s k : nid n → text tag → ok_state s → ok_okey k →
  let body := TMap ([(key "node", TNum n); (key "type_tag", str_tree tag); (key "state", NodeState_MarshalJSON s)] ++
    (match k with Some k => [(key "key", NodeKey_MarshalJSON k)] | None => [] end)) in
  unmarshalDeltaOpNodeAdd (norm body) = Some (DeltaOpNodeAdd n tag s k) ∧ wf body.
Proof.
  intros Hn Ht Hs Hk. destruct (text_codes tag Ht) as [Htn Htw], (state_codes s Hs) as [Hsd Hsw]. destruct k as [k|]; cbn zeta; cbn [app].
  - destruct (key_codes k Hk) as (Hkn & Hkd & Hkw). split; [|wf_tree].
    change (unmarshalDeltaOpNodeAdd _) with (n ← deltaWireInt64 (TNum n); tag ← deltaWireString (norm (str_tree tag)); s ← unmarshalNodeState (norm (NodeState_MarshalJSON s));
      k ← (if deltaWireIsNull (norm (NodeKey_MarshalJSON k)) then Some None else k ← NodeKey_UnmarshalJSON (norm (NodeKey_MarshalJSON k)); Some (Some k));
      Some (DeltaOpNodeAdd n tag s k)).
    rewrite wire_int64_num, Htn, Hsd, Hkn by done. cbn [mbind option_bind deltaWireString deltaWireIsNull]. by rewrite Hkd.
  - split; [|wf_tree].
    change (unmarshalDeltaOpNodeAdd _) with (n ← deltaWireInt64 (TNum n); tag ← deltaWireString (norm (str_tree tag)); s ← unmarshalNodeState (norm (NodeState_MarshalJSON s));
      Some (DeltaOpNodeAdd n tag s None)).
    by rewrite wire_int64_num, Htn, Hsd by done.
Qed.

(** [f] reads the body [Hd] speaks of. *)
Ltac op_case f Hd Hw :=
  rewrite ?check_nid by done; cbn [mbind option_bind]; eexists; split; [reflexivity|];
  match type of Hd with _ (norm ?body) = _ =>
    split; [change (unmarshalDeltaOp _) with (f (norm body)); first [exact Hd|unfold f; rewrite Hd; reflexivity]|apply tagged_codes; [exact Hw|by vm_compute]] end.
Lemma op_codes : ocodes ok_op DeltaOp_MarshalJSON unmarshalDeltaOp.
Proof.
  intros [n p|n p|n|n tag s k|n|a b|a b|n p|n|n] Ho; cbn [ok_op] in Ho; unfold DeltaOp_MarshalJSON.
  - destruct Ho as [Hn Hp], (node_payload_body n p Hn Hp) as [Hd Hw]. unfold DeltaOpCellSet_MarshalJSON. op_case unmarshalDeltaOpCellSet Hd Hw.
  - destruct Ho as [Hn Hp], (node_payload_body n p Hn Hp) as [Hd Hw]. unfold DeltaOpSlotValue_MarshalJSON. op_case unmarshalDeltaOpSlotValue Hd Hw.
  - destruct (node_only_body n Ho) as [Hd Hw]. unfold DeltaOpInvalidate_MarshalJSON. op_case unmarshalDeltaOpInvalidate Hd Hw.
  - destruct Ho as (Hn & Ht & Hs & Hk), (node_add_body n tag s k Hn Ht Hs Hk) as [Hd Hw]. unfold DeltaOpNodeAdd_MarshalJSON. op_case unmarshalDeltaOpNodeAdd Hd Hw.
  - destruct (node_only_body n Ho) as [Hd Hw]. unfold DeltaOpNodeRemove_MarshalJSON. op_case unmarshalDeltaOpNodeRemove Hd Hw.
  - destruct Ho as [Ha Hb], (node_edge_body a b Ha Hb) as [Hd Hw]. unfold DeltaOpEdgeAdd_MarshalJSON. op_case unmarshalDeltaOpEdgeAdd Hd Hw.
  - destruct Ho as [Ha Hb], (node_edge_body a b Ha Hb) as [Hd Hw]. unfold DeltaOpEdgeRemove_MarshalJSON. op_case unmarshalDeltaOpEdgeRemove Hd Hw.
  - destruct Ho as [Hn Hp], (node_payload_body n p Hn Hp) as [Hd Hw]. unfold DeltaOpQueuePush_MarshalJSON. op_case unmarshalDeltaOpQueuePush Hd Hw.
  - destruct (node_only_body n Ho) as [Hd Hw]. unfold DeltaOpQueuePop_MarshalJSON. op_case unmarshalDeltaOpQueuePop Hd Hw.
  - destruct (node_only_body n Ho) as [Hd Hw]. unfold DeltaOpQueueClose_MarshalJSON. op_case unmarshalDeltaOpQueueClose Hd Hw.
Qed.

Lemma ops_codes l : ok_list ok_op l → ∃ ts, mapM DeltaOp_MarshalJSON l = Some ts ∧ mapM unmarshalDeltaOp (map norm ts) = Some l ∧ wf (TArr ts).
Proof.
  intros [Hs Hl]. assert (∃ ts, mapM DeltaOp_MarshalJSON l = Some ts ∧ mapM unmarshalDeltaOp (map norm ts) = Some l ∧ Forall wf ts ∧ length ts = length l) as (ts & H1 & H2 & H3 & H4).
  { clear Hs. induction Hl as [|o l Ho _ (ts & IH1 & IH2 & IH3 & IH4)]; [by exists []|]. destruct (op_codes o Ho) as (t & He & Hd & Hw).
    exists (t :: ts). cbn [map mapM]. rewrite He, Hd. cbn [mbind option_bind]. rewrite IH1, IH2. split_and!; [done|done|by constructor|simpl; by f_equal]. }
  exists ts. split_and!; [done|done|]. apply wf_arr; [unfold short in *; by rewrite H4|done].
Qed.
Lemma delta_codes : ocodes ok_delta Delta_MarshalJSON Delta_UnmarshalJSON.
Proof.
  intros [b e ops] (Hb & He & Ho). cbn [BaseEpoch d_Epoch d_Ops] in *. destruct (ops_codes ops Ho) as (ts & H1 & H2 & H3).
  unfold Delta_MarshalJSON. cbn [BaseEpoch d_Epoch d_Ops]. rewrite !check_nid by done. cbn [mbind option_bind]. rewrite H1. cbn [mbind option_bind].
  eexists. split; [reflexivity|]. split; [|wf_tree].
  change (Delta_UnmarshalJSON _) with (b ← deltaWireInt64 (TNum b); e ← deltaWireInt64 (TNum e); ops ← mapM unmarshalDeltaOp (map norm ts); Some (mkDelta b e ops)).
  rewrite !wire_int64_num by done. cbn [mbind option_bind]. by rewrite H2.
Qed.

(** ** Snapshots and sync frames *)

Lemma node_codes : codes ok_node NodeSnapshot_MarshalJSON NodeSnapshot_UnmarshalJSON.
Proof.
  intros [n tag s k] (Hn & Ht & Hs & Hk). cbn [ns_Node TypeTag ns_State ns_Key] in *.
  destruct (text_codes tag Ht) as [Htn Htw], (state_codes s Hs) as [Hsd Hsw].
  unfold NodeSnapshot_MarshalJSON, NodeSnapshot_UnmarshalJSON. cbn [ns_Node TypeTag ns_State ns_Key]. destruct k as [k|]; cbn [app].
  - destruct (key_codes k Hk) as (Hkn & Hkd & Hkw). split; [|wf_tree]. cbn [norm object mbind option_bind]. fields.
    rewrite Htn, Hkn. steps. cbn [d_string d_raw d_key mbind option_bind]. rewrite Hkd. cbn [mbind option_bind]. by rewrite Hsd.
  - split; [|wf_tree]. cbn [norm object mbind option_bind]. fields. rewrite Htn. steps. cbn [d_string d_raw mbind option_bind]. by rewrite Hsd.
Qed.
Lemma edge_codes : codes ok_edge EdgeSnapshot_tree EdgeSnapshot_of.
Proof.
  intros [a b] [Ha Hb]. cbn [Dependent Dependency] in *. unfold EdgeSnapshot_tree, EdgeSnapshot_of. cbn [Dependent Dependency]. split; [|wf_tree].
  cbn [norm object mbind option_bind]. fields. by steps.
Qed.
Lemma int_codes : codes is_i64 TNum (d_int64 0).
Proof. intros n Hn. split; [by apply d_int64_num|wf_tree]. Qed.
Lemma snapshot_codes : codes ok_snapshot Snapshot_MarshalJSON Snapshot_UnmarshalJSON.
Proof.
  intros [e ns es rs] (He & Hn & Hes & Hr). cbn [s_Epoch Nodes Edges Roots] in *. unfold Snapshot_MarshalJSON, Snapshot_UnmarshalJSON. cbn [s_Epoch Nodes Edges Roots].
  destruct (list_codes _ _ _ _ node_codes Hn) as [Hnd Hnw], (list_codes _ _ _ _ edge_codes Hes) as [Hed Hew], (list_codes _ _ _ _ int_codes Hr) as [Hrd Hrw].
  split; [|wf_tree]. cbn [object mbind option_bind norm]. fields. steps. cbn [d_slice mbind option_bind]. rewrite Hnd. cbn [mbind option_bind]. rewrite Hed. cbn [mbind option_bind].
  by rewrite Hrd.
Qed.
Lemma stamp_codes old : codes ok_stamp WireStamp_tree (WireStamp_of old).
Proof.
  intros [w l p] (Hw & Hl & Hp). cbn [wsWallTime wsLogical wsPeer] in *. unfold WireStamp_tree, WireStamp_of. cbn [wsWallTime wsLogical wsPeer]. split; [|wf_tree].
  cbn [norm object mbind option_bind]. fields. by steps.
Qed.
Lemma crdt_codes : codes ok_crdt CrdtOp_MarshalJSON CrdtOp_UnmarshalJSON.
Proof.
  intros [n k st v] (Hn & Hk & Hs & Hv). cbn [Node Key Stamp State] in *. unfold CrdtOp_MarshalJSON, CrdtOp_UnmarshalJSON. cbn [Node Key Stamp State].
  destruct (stamp_codes (mkWireStamp 0 0 0) st Hs) as [Hsd Hsw], (value_codes v Hv) as [Hvd Hvw]. destruct k as [k|].
  - destruct (key_codes k Hk) as (Hkn & Hkd & Hkw). split; [|wf_tree]. cbn [norm object mbind option_bind]. fields.
    rewrite Hkn. steps. cbn [d_key d_raw mbind option_bind]. rewrite Hkd. cbn [mbind option_bind]. rewrite Hsd. cbn [mbind option_bind]. by rewrite Hvd.
  - split; [|wf_tree]. cbn [norm object mbind option_bind]. fields. steps. cbn [d_key d_raw mbind option_bind]. rewrite Hsd. cbn [mbind option_bind]. by rewrite Hvd.
Qed.
Lemma entry_codes : codes ok_entry StampFrontierEntry_MarshalJSON StampFrontierEntry_UnmarshalJSON.
Proof.
  intros [p st] [Hp Hs]. cbn [sfePeer sfeStamp] in *. destruct (stamp_codes (mkWireStamp 0 0 0) st Hs) as [Hsd Hsw]. unfold StampFrontierEntry_MarshalJSON. cbn [sfePeer sfeStamp].
  split; [|wf_tree]. change (StampFrontierEntry_UnmarshalJSON _) with (p ← d_int64 0 (TNum p); if p <? 0 then None else st ← WireStamp_of (mkWireStamp 0 0 0) (norm (WireStamp_tree st)); Some (mkStampFrontierEntry p st)).
  steps. by rewrite Hsd.
Qed.
Lemma sync_codes : codes ok_sync CrdtSync_MarshalJSON CrdtSync_UnmarshalJSON.
Proof.
  intros [fr ops] [Hf Ho]. cbn [Frontier Ops] in *. unfold CrdtSync_MarshalJSON, CrdtSync_UnmarshalJSON. cbn [Frontier Ops].
  destruct (list_codes _ _ _ _ entry_codes Hf) as [Hfd Hfw], (list_codes _ _ _ _ crdt_codes Ho) as [Hod How].
  split; [|wf_tree]. cbn [object mbind option_bind norm]. fields. cbn [d_slice mbind option_bind]. rewrite Hfd. cbn [mbind option_bind]. by rewrite Hod.
Qed.

Lemma message_codes : ocodes ok_message EncodeJSON IpcMessageFromWire.
Proof.
  intros [s|d|c|e|e] Hm; cbn [ok_message] in Hm; cbn [EncodeJSON].
  - destruct (snapshot_codes s Hm) as [Hd Hw]. eexists. split; [reflexivity|]. split; [|wf_tag; exact Hw].
    change (IpcMessageFromWire _) with (s ← Snapshot_UnmarshalJSON (norm (Snapshot_MarshalJSON s)); Some (IpcMessageSnapshot s)). by rewrite Hd.
  - destruct (delta_codes d Hm) as (t & He & Hd & Hw). rewrite He. cbn [mbind option_bind]. eexists. split; [reflexivity|]. split; [|wf_tag; exact Hw].
    change (IpcMessageFromWire _) with (d ← Delta_UnmarshalJSON (norm t); Some (IpcMessageDelta d)). by rewrite Hd.
  - destruct (sync_codes c Hm) as [Hd Hw]. eexists. split; [reflexivity|]. split; [|wf_tag; exact Hw].
    change (IpcMessageFromWire _) with (c ← CrdtSync_UnmarshalJSON (norm (CrdtSync_MarshalJSON c)); Some (IpcMessageCrdtSync c)). by rewrite Hd.
  - eexists. split; [reflexivity|]. split; [|wf_tag; wf_tree].
    change (IpcMessageFromWire _) with (e ← d_int64 0 (TNum e); Some (IpcMessageResyncRequest e)). by steps.
  - eexists. split; [reflexivity|]. split; [|wf_tag; wf_tree].
    change (IpcMessageFromWire _) with (e ← d_int64 0 (TNum e); Some (IpcMessageOutboxAck e)). by steps.
Qed.

(** *** Descriptors without a backend *)

Lemma ref_normal r : ShmBlobRef_MarshalJSON (normal_ref r) = ShmBlobRef_MarshalJSON r.
Proof.
  destruct r as [o l g e c b]. unfold ShmBlobRef_MarshalJSON, normal_ref, WithBackend, IsDefault. cbn [Offset Len Generation r_Epoch Checksum Backend].
  assert (Normalized (Normalized b) = Normalized b) as ->; [|done]. unfold Normalized. destruct (decide (b = EmptyString)); [done|by rewrite decide_False].
Qed.
Lemma value_normal v : IpcValue_MarshalJSON (normal_value v) = IpcValue_MarshalJSON v.
Proof. destruct v; [done|]. cbn [normal_value IpcValue_MarshalJSON]. unfold IpcValueSharedBlob_MarshalJSON. by rewrite ref_normal. Qed.
Lemma state_normal s : NodeState_MarshalJSON (normal_state s) = NodeState_MarshalJSON s.
Proof. destruct s; try done. cbn [normal_state NodeState_MarshalJSON]. unfold NodeStateSharedBlob_MarshalJSON. by rewrite ref_normal. Qed.
Lemma op_normal o : DeltaOp_MarshalJSON (normal_op o) = DeltaOp_MarshalJSON o.
Proof.
  destruct o; try done; cbn [normal_op]; unfold DeltaOp_MarshalJSON, DeltaOpCellSet_MarshalJSON, DeltaOpSlotValue_MarshalJSON, DeltaOpNodeAdd_MarshalJSON, DeltaOpQueuePush_MarshalJSON;
    by rewrite ?value_normal, ?state_normal.
Qed.
Lemma ops_normal l : mapM DeltaOp_MarshalJSON (map normal_op l) = mapM DeltaOp_MarshalJSON l.
Proof. induction l as [|o l IH]; [done|]. cbn [map mapM]. by rewrite op_normal, IH. Qed.

(** A message and its normal form are the same frame. *)
Lemma encode_normal m : EncodeJSON (normal m) = EncodeJSON m.
Proof.
  destruct m as [s|d|c|e|e]; cbn [normal EncodeJSON]; [..|done|done].
  - unfold Snapshot_MarshalJSON. cbn [s_Epoch Nodes Edges Roots]. rewrite map_map.
    rewrite (map_ext (λ n, NodeSnapshot_MarshalJSON (normal_node n)) NodeSnapshot_MarshalJSON); [done|].
    intros [n tag st k]. unfold NodeSnapshot_MarshalJSON, normal_node. cbn [ns_Node TypeTag ns_State ns_Key]. by rewrite state_normal.
  - unfold Delta_MarshalJSON. cbn [BaseEpoch d_Epoch d_Ops]. by rewrite ops_normal.
  - unfold CrdtSync_MarshalJSON. cbn [Frontier Ops]. rewrite map_map.
    rewrite (map_ext (λ o, CrdtOp_MarshalJSON (normal_crdt o)) CrdtOp_MarshalJSON); [done|].
    intros [n k st v]. unfold CrdtOp_MarshalJSON, normal_crdt. cbn [Node Key Stamp State]. by rewrite value_normal.
Qed.

Lemma normal_map {A} (f : A → A) (refs : A → list ShmBlobRef) l :
  (∀ a, Forall (λ r, Backend r ≠ EmptyString) (refs a) → f a = a) → Forall (λ r, Backend r ≠ EmptyString) (concat (map refs l)) → map f l = l.
Proof. intros Hf. induction l as [|a l IH]; [done|]. cbn [map concat]. intros [Ha Hl]%Forall_app. by rewrite Hf, IH. Qed.
Lemma ref_named r : Backend r ≠ EmptyString → normal_ref r = r.
Proof. destruct r. unfold normal_ref, WithBackend, Normalized. cbn [Backend]. intros H. by rewrite decide_False. Qed.
Lemma value_named v : Forall (λ r, Backend r ≠ EmptyString) (value_refs v) → normal_value v = v.
Proof. destruct v; [done|]. cbn [value_refs]. intros [H _]%Forall_cons. cbn [normal_value]. f_equal. exact (ref_named _ H). Qed.
Lemma state_named v : Forall (λ r, Backend r ≠ EmptyString) (state_refs v) → normal_state v = v.
Proof. destruct v; try done. cbn [state_refs]. intros [H _]%Forall_cons. cbn [normal_state]. f_equal. exact (ref_named _ H). Qed.
Lemma normal_named m : Forall (λ r, Backend r ≠ EmptyString) (message_refs m) → normal m = m.
Proof.
  destruct m as [[e ns es rs]|[b e ops]|[fr ops]|e|e]; cbn [normal message_refs s_Epoch Nodes Edges Roots BaseEpoch d_Epoch d_Ops Frontier Ops]; try done; intros H.
  - rewrite (normal_map _ (λ n, state_refs (ns_State n)) ns); [done| |done]. intros [n tag st k] Ha. unfold normal_node. cbn [ns_Node TypeTag ns_State ns_Key] in *. by rewrite state_named.
  - rewrite (normal_map _ op_refs ops); [done| |done]. intros [] Ha; cbn [normal_op op_refs] in *; by rewrite ?value_named, ?state_named.
  - rewrite (normal_map _ (λ o, value_refs (State o)) ops); [done| |done]. intros [n k st v] Ha. unfold normal_crdt. cbn [Node Key Stamp State] in *. by rewrite value_named.
Qed.

(** C38: Every message that may be sent is encoded, and both its json tree and its
    MessagePack frame decode to that message again, with the default backend written
    out in descriptors that leave theirs absent (and so to the very message when every
    descriptor names one).  May be sent: node ids and epochs of a delta, the fields of a
    blob descriptor and the peers of a sync frontier are not negative, a backend is
    absent or known, keys are valid, strings are UTF-8. *)
Theorem Message_roundtrip m (Hm : ok_message (normal m)) :
  (∃ t, EncodeJSON m = Some t ∧ DecodeIpcMessageJSON (norm t) = Some (normal m)) ∧
  (∃ bs, EncodeMsgpack m = inl bs ∧ Forall byte bs ∧ DecodeMsgpack bs = inl (normal m)) ∧
  (Forall (λ r, Backend r ≠ EmptyString) (message_refs m) → normal m = m).
Proof.
  destruct (message_codes _ Hm) as (t & He & Hd & Hw). rewrite encode_normal in He. split_and!; [by exists t| |apply normal_named].
  assert (He' : EncodeMsgpack m = EncodeMsgpack (normal m)) by (unfold EncodeMsgpack, EncodeIpcMessageMsgpack; by rewrite encode_normal).
  rewrite He'. rewrite <-encode_normal in He.
  destruct (frame_roundtrip EncodeJSON IpcMessageFromWire (normal m) t He Hw Hd) as (bs & H1 & H2). exists bs. split; [done|]. split; [|done].
  destruct (wf_packed t Hw) as (bs' & Ha & _ & Hb & _). unfold EncodeIpcMessageMsgpack in H1. rewrite He in H1. unfold msgpackEncodeValue in H1.
  rewrite Ha in H1. by injection H1 as <-.
Qed.
(** A descriptor as the arena mints it, without a backend. *)
Definition demo_absent : IpcMessage := IpcMessageDelta (mkDelta 4 5 [DeltaOpCellSet 7 (IpcValueSharedBlob (mkRef 0 3 1 0 77 EmptyString))]).
Lemma Message_roundtrip_witness :
  (∃ bs, EncodeMsgpack demo = inl bs ∧ DecodeMsgpack bs = inl demo) ∧
  (∃ bs, EncodeMsgpack demo_absent = inl bs ∧
     DecodeMsgpack bs = inl (IpcMessageDelta (mkDelta 4 5 [DeltaOpCellSet 7 (IpcValueSharedBlob (mkRef 0 3 1 0 77 BackendShm))]))).
Proof.
  assert (ok_message (normal demo)) as Hm.
  { split_and!; [by split|by split|]. split; [done|]. repeat apply Forall_cons_2; [| | | |apply Forall_nil_2].
    - split; [by split|]. split; [|done]. repeat apply Forall_cons_2; try apply Forall_nil_2; by split.
    - split_and!; [by split|split_and!; [apply key_bytes|done|done]|done|by split].
    - split; [by split|]. split_and!; try by split. by apply (bool_decide_unpack _).
    - by repeat split. }
  assert (ok_message (normal demo_absent)) as Ha.
  { split_and!; [by split|by split|]. split; [done|]. repeat apply Forall_cons_2; [|apply Forall_nil_2].
    split; [by split|]. split_and!; try by split. by apply (bool_decide_unpack _). }
  split.
  - destruct (Message_roundtrip demo Hm) as [_ [(bs & H1 & _ & H2) _]]. by exists bs.
  - destruct (Message_roundtrip demo_absent Ha) as [_ [(bs & H1 & _ & H2) _]]. by exists bs.
Defined.

(** A sync frame whose frontier names a negative peer is encoded and then refused. *)
Lemma negative_peer_refused c : Exists (λ e, sfePeer e < 0) (Frontier c) → Forall (λ e, is_i64 (sfePeer e)) (Frontier c) →
  ∃ t, EncodeJSON (IpcMessageCrdtSync c) = Some t ∧ IpcMessageFromWire (norm t) = None.
Proof.
  intros Hx Hr. eexists. split; [reflexivity|].
  assert (mapM StampFrontierEntry_UnmarshalJSON (map norm (map StampFrontierEntry_MarshalJSON (Frontier c))) = None) as Hn.
  { induction (Frontier c) as [|[p st] l IH]; [by apply Exists_nil in Hx|]. apply Forall_cons in Hr as [Hp Hr]. cbn [map mapM sfePeer] in *.
    change (StampFrontierEntry_UnmarshalJSON (norm (StampFrontierEntry_MarshalJSON (mkStampFrontierEntry p st)))) with
      (p ← d_int64 0 (TNum p); if p <? 0 then None else st ← WireStamp_of (mkWireStamp 0 0 0) (norm (WireStamp_tree st)); Some (mkStampFrontierEntry p st)).
    rewrite d_int64_num by done. cbn [mbind option_bind]. destruct (Z.ltb_spec p 0); [done|]. destruct (WireStamp_of _ _); [|done]. cbn [mbind option_bind].
    apply Exists_cons in Hx as [Hx|Hx]; [simpl in Hx; lia|]. by rewrite IH. }
  change (IpcMessageFromWire _) with (c ← CrdtSync_UnmarshalJSON (norm (CrdtSync_MarshalJSON c)); Some (IpcMessageCrdtSync c)).
  unfold CrdtSync_UnmarshalJSON, CrdtSync_MarshalJSON. cbn [object mbind option_bind norm]. fields. cbn [d_slice mbind option_bind]. by rewrite Hn.
Qed.

(** A negative number survives encoding only to be refused: a delta's node id by the
    encoder already, a blob descriptor's field by the decoder. *)
Lemma negative_ref_refused r : Exists (λ n, n < 0) [Offset r; Len r; Generation r; r_Epoch r; Checksum r] →
  Forall is_i64 [Offset r; Len r; Generation r; r_Epoch r; Checksum r] → ShmBlobRef_UnmarshalJSON (norm (ShmBlobRef_MarshalJSON r)) = None.
Proof.
  destruct r as [o l g e c b]. cbn [Offset Len Generation r_Epoch Checksum]. intros Hx Hr.
  repeat match goal with H : Forall _ (_ :: _) |- _ => apply Forall_cons in H as [? H] end.
  assert ((o <? 0) || (l <? 0) || (g <? 0) || (e <? 0) || (c <? 0) = true) as Hb.
  { rewrite !orb_true_iff, !Z.ltb_lt. rewrite !Exists_cons, Exists_nil in Hx. tauto. }
  unfold ShmBlobRef_MarshalJSON, ShmBlobRef_UnmarshalJSON. cbn [Offset Len Generation r_Epoch Checksum Backend].
  destruct (IsDefault b); cbn [app object norm mbind option_bind]; fields; steps; cbn [d_string_ptr mbind option_bind]; by rewrite Hb.
Qed.
