(* ===== verification/ShmArena.v ===== *)
(** * ShmArena: the blob arena in shared memory (shm_blob_arena.go)

    Two arenas in one object.  The host arena is a ring of bytes in which every
    payload follows a header of 40 bytes; the entry arena is a table of slots with
    reference counts.  A slot's payload is a buffer of the heap [bufs], because a
    view hands out the buffer itself.  A Go slice expression out of range is a
    panic. *)

From S2P Require Import Prelude MsgpackCodec Distributed Wire.
Local Open Scope Z_scope.

(** [shm_blob_arena.go] [lines 35-43 ShmBlobHeaderLen] *)
Definition ShmBlobHeaderLen : Z := 40.
Definition shmBlobMagic : Z := 0x4c5a5348.
Definition shmBlobVersion : Z := 1.

(** [shm_blob_arena.go] [fnv1a] *)
Definition fnv1a (bytes : list Z) : Z :=
  i64 (fold_left (λ hash b, u64 (Z.lxor hash b * 0x100000001b3)) bytes 0xcbf29ce484222325).

(** Little-endian fields. *)
Definition PutUint (k : nat) (n : Z) : list Z := rev (be k n).
Definition Uint (b : list Z) : Z := foldr (λ x acc, x + 256 * acc) 0 b.

(** ** The host arena *)

(** [shm_blob_arena.go] [lines 83-87 ShmBlobArena] *)
Record Host := mkHost { hostBytes : list Z; hostWriteOffset : Z; hostNextGeneration : Z }.
Definition capacity (h : Host) : Z := Z.of_nat (length (hostBytes h)).
(** [shm_blob_arena.go] [NewShmBlobArenaWithCapacity] *)
Definition NewShmBlobArenaWithCapacity (cap : Z) : option Host :=
  if cap <? ShmBlobHeaderLen + 1 then None else Some (mkHost (replicate (Z.to_nat cap) 0) 0 1).
(** [shm_blob_arena.go] [ShmBlobArena.Capacity] *)
Definition Capacity (h : Host) : Z := capacity h.
(** [shm_blob_arena.go] [ShmBlobArena.Bytes] *)
Definition Bytes (h : Host) : list Z := hostBytes h.

(** [shm_blob_arena.go] [lines 161-168 ShmBlobArena.WriteBlob] *)
Definition header_bytes (generation epoch len checksum : Z) : list Z :=
  PutUint 4 shmBlobMagic ++ PutUint 2 shmBlobVersion ++ PutUint 2 ShmBlobHeaderLen ++ PutUint 8 generation ++ PutUint 8 (u64 epoch) ++
  PutUint 8 len ++ PutUint 8 checksum.
(** The bytes with [b] written from [off] on. *)
Definition splice (bytes : list Z) (off : Z) (b : list Z) : list Z :=
  take (Z.to_nat off) bytes ++ b ++ drop (Z.to_nat off + length b) bytes.
Inductive WriteError := NoHost | TooLarge | GenerationOverflow.
(** [shm_blob_arena.go] [ShmBlobArena.WriteBlob] *)
Definition WriteBlob (h : Host) (epoch : Z) (payload : list Z) : Host * (ShmBlobRef + WriteError) :=
  let len := Z.of_nat (length payload) in
  if capacity h =? 0 then (h, inr NoHost)
  else if capacity h - ShmBlobHeaderLen <? len then (h, inr TooLarge)
  else
    let total := ShmBlobHeaderLen + len in
    let offset := if capacity h <? hostWriteOffset h + total then 0 else hostWriteOffset h in
    let generation := hostNextGeneration h in
    let next := (generation +ᵤ 1)%go in
    if next =? 0 then (mkHost (hostBytes h) offset next, inr GenerationOverflow)
    else
      let checksum := u64 (fnv1a payload) in
      let ref := mkRef offset len (i64 generation) epoch (i64 checksum) EmptyString in
      let bytes := splice (hostBytes h) offset (header_bytes generation epoch len checksum ++ payload) in
      let woff := if offset + total =? capacity h then 0 else offset + total in
      (mkHost bytes woff next, inl ref).

Inductive ReadError := R_NoHost | Outside | BadMagic | BadVersion | BadHeaderLen | BadGeneration | BadEpoch | BadLen | BadChecksum | BadPayload.
(** A payload, an error, or the panic of a slice out of range. *)
Inductive ReadResult := R_Ok (b : list Z) | R_Err (e : ReadError) | R_Panic.
Definition slice (b : list Z) (lo hi : Z) : list Z := take (Z.to_nat (hi - lo)) (drop (Z.to_nat lo) b).
(** [shm_blob_arena.go] [ShmBlobArena.ReadBlob] *)
Definition ReadBlob (h : Host) (ref : ShmBlobRef) : ReadResult :=
  if capacity h =? 0 then R_Err R_NoHost
  else if (Offset ref <? 0) || (Len ref <? 0) || (capacity h <? (Offset ref +ₛ ShmBlobHeaderLen +ₛ Len ref)%go) then R_Err Outside
  else if capacity h <? Offset ref + ShmBlobHeaderLen then R_Panic
  else
    let header := slice (hostBytes h) (Offset ref) (Offset ref + ShmBlobHeaderLen) in
    if negb (Uint (slice header 0 4) =? shmBlobMagic) then R_Err BadMagic
    else if negb (Uint (slice header 4 6) =? shmBlobVersion) then R_Err BadVersion
    else if negb (Uint (slice header 6 8) =? ShmBlobHeaderLen) then R_Err BadHeaderLen
    else if negb (i64 (Uint (slice header 8 16)) =? Generation ref) then R_Err BadGeneration
    else if negb (i64 (Uint (slice header 16 24)) =? r_Epoch ref) then R_Err BadEpoch
    else if negb (i64 (Uint (slice header 24 32)) =? Len ref) then R_Err BadLen
    else if negb (i64 (Uint (slice header 32 40)) =? Checksum ref) then R_Err BadChecksum
    else
      let from := Offset ref + ShmBlobHeaderLen in
      if capacity h <? from + Len ref then R_Panic
      else
        let payload := slice (hostBytes h) from (from + Len ref) in
        if negb (fnv1a payload =? Checksum ref) then R_Err BadPayload else R_Ok payload.

Example host_demo :
  match NewShmBlobArenaWithCapacity 100 with
  | Some h => let '(h, r) := WriteBlob h 3 [1; 2; 3] in match r with inl r => ReadBlob h r = R_Ok [1; 2; 3] | _ => False end
  | None => False
  end.
Proof. vm_compute. reflexivity. Qed.

(** ** The entry arena *)

(** [shm_blob_arena.go] [type shmArenaEntry] *)
Record shmArenaEntry := mkEntry { generation : Z; epoch : Z; payload : nat; refCount : Z }.
(** [bufs] is the heap of the buffers the entries point to.
    [shm_blob_arena.go] [lines 75-81 ShmBlobArena] *)
Record ShmBlobArena := mkArena { a_epoch : Z; entries : list (option shmArenaEntry); a_generation : Z; bufs : list (list Z) }.
Definition buf (a : ShmBlobArena) (p : nat) : list Z := default [] (bufs a !! p).
(** [shm_blob_arena.go] [shmArenaEntry.checksum] *)
Definition checksum (a : ShmBlobArena) (e : shmArenaEntry) : Z := fnv1a (buf a (payload e)).
(** [shm_blob_arena.go] [shmArenaEntry.toRef] *)
Definition toRef (a : ShmBlobArena) (e : shmArenaEntry) (offset : Z) : ShmBlobRef :=
  mkRef offset (Z.of_nat (length (buf a (payload e)))) (generation e) (epoch e) (checksum a e) EmptyString.
(** [shm_blob_arena.go] [NewShmBlobArena] *)
Definition NewShmBlobArena (ep : Z) : ShmBlobArena := mkArena ep [] 0 [].
(** [shm_blob_arena.go] [ShmBlobArena.Epoch] *)
Definition Epoch_ (a : ShmBlobArena) : Z := a_epoch a.
(** [shm_blob_arena.go] [ShmBlobArena.liveCount] *)
Definition liveCount (a : ShmBlobArena) : nat := length (omap id (entries a)).
(** [shm_blob_arena.go] [ShmBlobArena.Length] *)
Definition Length (a : ShmBlobArena) : nat := liveCount a.
(** [shm_blob_arena.go] [ShmBlobArena.IsEmpty] *)
Definition IsEmpty (a : ShmBlobArena) : bool := bool_decide (liveCount a = 0%nat).
(** The entry at an offset, if it is in range and live. *)
Definition entry_at (a : ShmBlobArena) (offset : Z) : option shmArenaEntry :=
  if (offset <? 0) || (Z.of_nat (length (entries a)) <=? offset) then None else mjoin (entries a !! Z.to_nat offset).
(** [shm_blob_arena.go] [ShmBlobArena.validEntry] *)
Definition validEntry (a : ShmBlobArena) (ref : ShmBlobRef) : option shmArenaEntry :=
  e ← entry_at a (Offset ref);
  if negb (generation e =? Generation ref) then None
  else if negb (epoch e =? r_Epoch ref) then None
  else if negb (Z.of_nat (length (buf a (payload e))) =? Len ref) then None
  else if negb (checksum a e =? Checksum ref) then None else Some e.
(** [shm_blob_arena.go] [ShmBlobArena.Write] *)
Definition Write (a : ShmBlobArena) (bytes : list Z) : ShmBlobArena * ShmBlobRef :=
  let g := (a_generation a +ₛ 1)%go in
  let e := mkEntry g (a_epoch a) (length (bufs a)) 1 in
  let a' := mkArena (a_epoch a) (entries a ++ [Some e]) g (bufs a ++ [bytes]) in
  (a', toRef a' e (Z.of_nat (length (entries a)))).
(** A nil result is [None]; an empty payload is the empty slice.
    [shm_blob_arena.go] [ShmBlobArena.Read] *)
Definition Read (a : ShmBlobArena) (ref : ShmBlobRef) : option (list Z) := e ← validEntry a ref; Some (buf a (payload e)).
(** The buffer itself, not its bytes.
    [shm_blob_arena.go] [ShmBlobArena.ReadView] *)
Definition ReadView (a : ShmBlobArena) (ref : ShmBlobRef) : option nat := e ← validEntry a ref; Some (payload e).
Definition set_entry (a : ShmBlobArena) (offset : Z) (e : option shmArenaEntry) : ShmBlobArena :=
  mkArena (a_epoch a) (<[Z.to_nat offset := e]> (entries a)) (a_generation a) (bufs a).
(** Go's [copy]: as many bytes as fit, from the start. *)
Definition copy (dst src : list Z) : list Z := take (length dst) src ++ drop (length src) dst.
(** [shm_blob_arena.go] [ShmBlobArena.Update] *)
Definition Update (a : ShmBlobArena) (ref : ShmBlobRef) (bytes : list Z) : ShmBlobArena * option ShmBlobRef :=
  match entry_at a (Offset ref) with
  | None => (a, None)
  | Some e =>
      if negb (generation e =? Generation ref) then (a, None)
      else if negb (epoch e =? r_Epoch ref) then (a, None)
      else
        let g := (a_generation a +ₛ 1)%go in
        let e' := mkEntry g (epoch e) (payload e) (refCount e) in
        let a' := mkArena (a_epoch a) (<[Z.to_nat (Offset ref) := Some e']> (entries a)) g (<[payload e := copy (buf a (payload e)) bytes]> (bufs a)) in
        (a', Some (toRef a' e' (Offset ref)))
  end.
(** [shm_blob_arena.go] [ShmBlobArena.Retain] *)
Definition Retain (a : ShmBlobArena) (ref : ShmBlobRef) : ShmBlobArena * bool :=
  match validEntry a ref with
  | None => (a, false)
  | Some e => (set_entry a (Offset ref) (Some (mkEntry (generation e) (epoch e) (payload e) (refCount e + 1))), true)
  end.
(** [shm_blob_arena.go] [ShmBlobArena.Free] *)
Definition Free (a : ShmBlobArena) (ref : ShmBlobRef) : ShmBlobArena * bool :=
  match validEntry a ref with
  | None => (a, false)
  | Some e =>
      let e' := mkEntry (generation e) (epoch e) (payload e) (refCount e - 1) in
      (set_entry a (Offset ref) (if refCount e' <=? 0 then None else Some e'), true)
  end.
(** [shm_blob_arena.go] [ShmBlobArena.AdvanceEpoch] *)
Definition AdvanceEpoch (a : ShmBlobArena) : ShmBlobArena :=
  let ep := (a_epoch a +ₛ 1)%go in
  mkArena ep (map (option_map (λ e, mkEntry (generation e) ep (payload e) (refCount e))) (entries a)) (a_generation a) (bufs a).
(** [shm_blob_arena.go] [ValidateBlobRef] *)
Definition ValidateBlobRef (ref : ShmBlobRef) (maxLen : option Z) : bool :=
  negb (existsb (λ v, v <? 0) [Offset ref; Len ref; Generation ref; r_Epoch ref; Checksum ref]) &&
  match maxLen with Some m => negb (m <? Len ref) | None => true end.

(** ** Histories of the entry arena *)

Inductive op := OWrite (b : list Z) | OUpdate (r : ShmBlobRef) (b : list Z) | ORetain (r : ShmBlobRef) | OFree (r : ShmBlobRef) | OAdvance.
Definition step (a : ShmBlobArena) (o : op) : ShmBlobArena :=
  match o with
  | OWrite b => (Write a b).1 | OUpdate r b => (Update a r b).1 | ORetain r => (Retain a r).1 | OFree r => (Free a r).1 | OAdvance => AdvanceEpoch a
  end.
Definition run (a : ShmBlobArena) (ops : list op) : ShmBlobArena := foldl step a ops.

(** Live entries carry the arena's epoch and a generation it has minted, and own
    their buffers. *)
Record good (a : ShmBlobArena) : Prop := {
  g_entry e : Some e ∈ entries a → epoch e = a_epoch a ∧ generation e ≤ a_generation a ∧ (payload e < length (bufs a))%nat;
  g_owned i j e e' : entries a !! i = Some (Some e) → entries a !! j = Some (Some e') → payload e = payload e' → i = j }.
(** [n] more steps keep both counters in range. *)
Definition room (a : ShmBlobArena) (n : nat) : Prop :=
  0 ≤ a_generation a ∧ a_generation a + Z.of_nat n < two63 ∧ - two63 ≤ a_epoch a ∧ a_epoch a + Z.of_nat n < two63.

Lemma bump_small g n : 0 ≤ g → g + Z.of_nat (S n) < two63 → (g +ₛ 1)%go = g + 1.
Proof. intros H1 H2. apply i64_small. zrange. Qed.
Lemma bump_small' g n : - two63 ≤ g → g + Z.of_nat (S n) < two63 → (g +ₛ 1)%go = g + 1.
Proof. intros H1 H2. apply i64_small. zrange. Qed.

Lemma entry_at_Some a off e : entry_at a off = Some e ↔ 0 ≤ off ∧ entries a !! Z.to_nat off = Some (Some e).
Proof.
  unfold entry_at. destruct (Z.ltb_spec off 0); cbn [orb]; [split; [done|lia]|]. destruct (Z.leb_spec (Z.of_nat (length (entries a))) off).
  - split; [done|]. intros [_ Hl]. apply lookup_lt_Some in Hl. lia.
  - destruct (entries a !! Z.to_nat off) as [[x|]|]; simpl; split; try done; [by intros [= ->]|by intros [_ [= ->]]|by intros [_ ?]|by intros [_ ?]].
Qed.
Lemma validEntry_Some a r e : validEntry a r = Some e ↔
  entry_at a (Offset r) = Some e ∧ generation e = Generation r ∧ epoch e = r_Epoch r ∧ Z.of_nat (length (buf a (payload e))) = Len r ∧ checksum a e = Checksum r.
Proof.
  unfold validEntry. destruct (entry_at a (Offset r)) as [x|]; cbn [mbind option_bind]; [|by split; [|intros (? & _)]].
  destruct (Z.eqb_spec (generation x) (Generation r)), (Z.eqb_spec (epoch x) (r_Epoch r)), (Z.eqb_spec (Z.of_nat (length (buf a (payload x)))) (Len r)),
    (Z.eqb_spec (checksum a x) (Checksum r)); cbn [negb]; split; try done; try (intros (Hx & ?); injection Hx as <-; tauto).
  intros Hx. injection Hx as <-. done.
Qed.
Lemma Read_Some a r b : Read a r = Some b ↔ ∃ e, validEntry a r = Some e ∧ b = buf a (payload e).
Proof. unfold Read. destruct (validEntry a r) as [e|]; cbn [mbind option_bind]; split; [intros [= <-]; eauto|intros (x & [= <-] & ->); done|done|by intros (? & ? & _)]. Qed.

(** Two arenas that agree on the slot and the buffer a descriptor needs read alike. *)
Lemma Read_agree a a' r :
  (∀ e, entry_at a (Offset r) = Some e → generation e = Generation r → epoch e = r_Epoch r →
     ∃ e', entry_at a' (Offset r) = Some e' ∧ generation e' = generation e ∧ epoch e' = epoch e ∧ buf a' (payload e') = buf a (payload e)) →
  (∀ e', entry_at a' (Offset r) = Some e' → generation e' = Generation r → epoch e' = r_Epoch r →
     ∃ e, entry_at a (Offset r) = Some e ∧ generation e' = generation e ∧ epoch e' = epoch e ∧ buf a' (payload e') = buf a (payload e)) →
  Read a' r = Read a r.
Proof.
  intros H1 H2. apply option_eq. intros b. rewrite !Read_Some. split.
  - intros (e' & (He & Hg & Hep & Hl & Hc)%validEntry_Some & ->). destruct (H2 e' He Hg Hep) as (e & He' & Hge & Hee & Hb). exists e. split; [|done].
    apply validEntry_Some. unfold checksum in *. rewrite <- Hb. split_and!; congruence.
  - intros (e & (He & Hg & Hep & Hl & Hc)%validEntry_Some & ->). destruct (H1 e He Hg Hep) as (e' & He' & Hge & Hee & Hb). exists e'. split; [|done].
    apply validEntry_Some. unfold checksum in *. rewrite Hb. split_and!; congruence.
Qed.
Lemma Read_stale a r : (∀ e, entry_at a (Offset r) = Some e → generation e = Generation r → epoch e = r_Epoch r → False) → Read a r = None.
Proof. intros H. destruct (Read a r) as [b|] eqn:E; [|done]. apply Read_Some in E as (e & (? & ? & ? & _)%validEntry_Some & _). destruct (H e); done. Qed.

Lemma good_new ep : good (NewShmBlobArena ep).
Proof. split; simpl; [intros e []%not_elem_of_nil|intros i j e e' Hi]. by rewrite lookup_nil in Hi. Qed.

Lemma good_at a e off : good a → entry_at a off = Some e → epoch e = a_epoch a ∧ generation e ≤ a_generation a ∧ (payload e < length (bufs a))%nat.
Proof. intros Hg (_ & Hl)%entry_at_Some. apply (g_entry a Hg). by eapply list_elem_of_lookup_2. Qed.

Lemma write_good a b n : good a → room a (S n) → good (Write a b).1 ∧ room (Write a b).1 n.
Proof.
  intros [Hg Ho] (H1 & H2 & H3 & H4). unfold Write, room. cbn [fst a_generation a_epoch]. rewrite (bump_small _ n) by done. split; [split|lia]; cbn [fst entries a_epoch a_generation bufs].
  - intros e [He|He%list_elem_of_singleton]%elem_of_app; [destruct (Hg e He) as (? & ? & ?); rewrite length_app; simpl; lia|].
    injection He as ->. rewrite length_app. simpl. lia.
  - intros i j e e' Hi Hj Hp. apply lookup_snoc_Some in Hi, Hj.
    assert (∀ k x, (k < length (entries a))%nat → entries a !! k = Some (Some x) → payload x ≠ length (bufs a)) as Hlt.
    { intros k x _ Hk Heq. destruct (Hg x) as (_ & _ & ?); [by eapply list_elem_of_lookup_2|]. lia. }
    destruct Hi as [(Hi1 & Hi)|(-> & Hi)], Hj as [(Hj1 & Hj)|(-> & Hj)]; [by eapply Ho| | |done].
    + injection Hj as <-. by destruct (Hlt i e Hi1 Hi).
    + injection Hi as <-. by destruct (Hlt j e' Hj1 Hj).
Qed.

(** Replacing a slot by an entry on the same buffer, or by nothing. *)
Lemma set_good a k e x g : good a → entries a !! k = Some (Some e) → a_generation a ≤ g →
  (∀ y, x = Some y → epoch y = a_epoch a ∧ generation y ≤ g ∧ payload y = payload e) →
  ∀ bs, length bs = length (bufs a) → good (mkArena (a_epoch a) (<[k := x]> (entries a)) g bs).
Proof.
  intros [Hg Ho] Hk Hgen Hx bs Hbs. assert (k < length (entries a))%nat as Hlt by (by eapply lookup_lt_Some).
  assert (∀ i y, <[k := x]> (entries a) !! i = Some (Some y) → ∃ z, entries a !! i = Some (Some z) ∧ payload z = payload y) as Hback.
  { intros i y [(-> & Hy & _)|(Hne & Hy)]%list_lookup_insert_Some; [|by exists y]. exists e. split; [done|]. symmetry. by apply Hx. }
  split; cbn [entries a_epoch a_generation bufs].
  - intros y (i & Hi)%list_elem_of_lookup. destruct (Hback i y Hi) as (z & Hz & Hp). destruct (Hg z) as (? & ? & ?); [by eapply list_elem_of_lookup_2|].
    apply list_lookup_insert_Some in Hi as [(-> & Hy & _)|(Hne & Hy)].
    + destruct (Hx y Hy) as (? & ? & ?). rewrite Hbs. split_and!; [done|done|]. by rewrite <- Hp.
    + rewrite Hy in Hz. injection Hz as ->. rewrite Hbs. split_and!; [done|lia|done].
  - intros i j y y' Hi Hj Hp. destruct (Hback i y Hi) as (z & Hz & Hpz), (Hback j y' Hj) as (z' & Hz' & Hpz'). apply (Ho i j z z'); congruence.
Qed.

(** A descriptor no younger than the arena. *)
Definition known (a : ShmBlobArena) (r : ShmBlobRef) : Prop := Generation r ≤ a_generation a ∧ r_Epoch r ≤ a_epoch a.
(** What a step does for a descriptor: the same bytes, or nothing. *)
Definition steady (a a' : ShmBlobArena) (r : ShmBlobRef) : Prop := Read a' r = Read a r ∨ Read a' r = None.

Lemma write_read a b r : good a → (Offset r < Z.of_nat (length (entries a))) → Read (Write a b).1 r = Read a r.
Proof.
  intros Hg Hoff. apply Read_agree; unfold Write; cbn [fst]; unfold buf; cbn [bufs].
  - intros e He _ _. pose proof (good_at a e _ Hg He) as (_ & _ & Hp). exists e. apply entry_at_Some in He as [H0 He].
    split; [apply entry_at_Some; cbn [entries]; by rewrite lookup_app_l by (by eapply lookup_lt_Some)|]. by rewrite lookup_app_l.
  - intros e He _ _. apply entry_at_Some in He as [H0 He]. cbn [entries] in He. rewrite lookup_app_l in He by lia.
    assert (entry_at a (Offset r) = Some e) as Ha by (by apply entry_at_Some). pose proof (good_at a e _ Hg Ha) as (_ & _ & Hp).
    exists e. split_and!; [done|done|done|]. by rewrite lookup_app_l.
Qed.
Lemma write_steady a b n r : good a → room a (S n) → known a r → steady a (Write a b).1 r.
Proof.
  intros Hg (H1 & H2 & _) [Hk _]. destruct (Z.lt_ge_cases (Offset r) (Z.of_nat (length (entries a)))) as [Hoff|Hoff]; [left; by apply write_read|right].
  apply Read_stale. intros e (H0 & He)%entry_at_Some Hge _. unfold Write in He. cbn [fst entries] in He. apply lookup_snoc_Some in He as [[Hl _]|[_ He]]; [lia|].
  injection He as <-. cbn [generation] in Hge. rewrite (bump_small _ n) in Hge by done. lia.
Qed.

(** Everything about a step on the slot [off], whose entry [e] it replaces by [x]. *)
Section slot.
Context (a : ShmBlobArena) (e : shmArenaEntry) (off g : Z) (x : option shmArenaEntry) (bs : list (list Z)).
Context (Hg : good a) (He : entry_at a off = Some e) (Hbs : ∀ p, p ≠ payload e → bs !! p = bufs a !! p).
Local Abbreviation a' := (mkArena (a_epoch a) (<[Z.to_nat off := x]> (entries a)) g bs).

Lemma slot_at o : 0 ≤ o → o ≠ off → entry_at a' o = entry_at a o.
Proof.
  intros H0 Hne. apply option_eq. intros y. apply entry_at_Some in He as [Hoff _]. rewrite !entry_at_Some. cbn [entries].
  rewrite list_lookup_insert_ne by (intros Heq; apply Hne; lia). done.
Qed.
Lemma slot_same : entry_at a' off = x.
Proof.
  apply entry_at_Some in He as [Hoff Hk]. apply option_eq. intros y. rewrite entry_at_Some. cbn [entries].
  rewrite list_lookup_insert_eq by (by eapply lookup_lt_Some). split; [by intros [_ [= ->]]|by intros ->].
Qed.
Lemma slot_read_other r : Offset r ≠ off → Read a' r = Read a r.
Proof.
  intros Hne. pose proof He as [Hoff Hk]%entry_at_Some.
  assert (∀ y, 0 ≤ Offset r → entry_at a (Offset r) = Some y → buf a' (payload y) = buf a (payload y)) as Hb.
  { intros y H0 [_ Hy]%entry_at_Some. unfold buf. cbn [bufs]. rewrite Hbs; [done|]. intros Heq. apply Hne.
    pose proof (g_owned a Hg _ _ _ _ Hy Hk Heq). lia. }
  apply Read_agree.
  - intros y Hy _ _. assert (0 ≤ Offset r) as H0 by (by apply entry_at_Some in Hy as [? _]). exists y. rewrite slot_at by done. split_and!; auto.
  - intros y Hy _ _. assert (0 ≤ Offset r) as H0 by (by apply entry_at_Some in Hy as [? _]). rewrite slot_at in Hy by done. exists y. split_and!; auto.
Qed.
Lemma slot_read_same r : Offset r = off → bs = bufs a → (∀ y, x = Some y → generation y = generation e ∧ epoch y = epoch e ∧ payload y = payload e) →
  steady a a' r.
Proof.
  intros Hoff Hb Hx. unfold steady. assert (∀ p, buf a' p = buf a p) as Hbuf by (intros p; unfold buf; cbn [bufs]; by rewrite Hb).
  pose proof slot_same as Hsame. destruct (entry_at a' off) as [y|] eqn:Ea.
  - left. destruct (Hx y (eq_sym Hsame)) as (Hge & Hep & Hp). apply Read_agree.
    + intros z Hz _ _. rewrite Hoff, He in Hz. injection Hz as <-. exists y. rewrite Hoff. split; [exact Ea|]. by rewrite Hp, Hbuf.
    + intros z Hz _ _. rewrite Hoff, Ea in Hz. injection Hz as <-. exists e. rewrite Hoff. split; [exact He|]. by rewrite Hp, Hbuf.
  - right. apply Read_stale. intros z Hz. by rewrite Hoff, Ea in Hz.
Qed.
End slot.

Lemma retain_step a r0 : (Retain a r0).1 = a ∨ ∃ e, entry_at a (Offset r0) = Some e ∧
  (Retain a r0).1 = mkArena (a_epoch a) (<[Z.to_nat (Offset r0) := Some (mkEntry (generation e) (epoch e) (payload e) (refCount e + 1))]> (entries a)) (a_generation a) (bufs a).
Proof. unfold Retain. destruct (validEntry a r0) as [e|] eqn:E; [right|by left]. apply validEntry_Some in E as (He & _). by exists e. Qed.
Lemma free_step a r0 : (Free a r0).1 = a ∨ ∃ e x, entry_at a (Offset r0) = Some e ∧
  (∀ y, x = Some y → generation y = generation e ∧ epoch y = epoch e ∧ payload y = payload e) ∧
  (Free a r0).1 = mkArena (a_epoch a) (<[Z.to_nat (Offset r0) := x]> (entries a)) (a_generation a) (bufs a).
Proof.
  unfold Free. destruct (validEntry a r0) as [e|] eqn:E; [right|by left]. apply validEntry_Some in E as (He & _). eexists e, _. split; [done|]. split; [|reflexivity].
  cbn zeta. intros y. case_match; [done|]. by intros [= <-].
Qed.
Lemma update_step a r0 b : (Update a r0 b).1 = a ∨ ∃ e, entry_at a (Offset r0) = Some e ∧ generation e = Generation r0 ∧ epoch e = r_Epoch r0 ∧
  let g := (a_generation a +ₛ 1)%go in
  (Update a r0 b).1 = mkArena (a_epoch a) (<[Z.to_nat (Offset r0) := Some (mkEntry g (epoch e) (payload e) (refCount e))]> (entries a)) g
    (<[payload e := copy (buf a (payload e)) b]> (bufs a)).
Proof.
  unfold Update. destruct (entry_at a (Offset r0)) as [e|]; [|by left]. destruct (Z.eqb_spec (generation e) (Generation r0)); [|by left].
  destruct (Z.eqb_spec (epoch e) (r_Epoch r0)); [|by left]. right. by exists e.
Qed.

Lemma step_room a o n : room a (S n) → a_generation a ≤ a_generation (step a o) ∧ a_epoch a ≤ a_epoch (step a o) ∧ room (step a o) n.
Proof.
  intros (H1 & H2 & H3 & H4). unfold room. destruct o as [b|r b|r|r|]; cbn [step].
  - unfold Write. cbn [fst a_generation a_epoch]. rewrite (bump_small _ n) by done. lia.
  - destruct (update_step a r b) as [->|(e & _ & _ & _ & ->)]; [lia|]. cbn [a_generation a_epoch]. rewrite (bump_small _ n) by done. lia.
  - destruct (retain_step a r) as [->|(e & _ & ->)]; cbn [a_generation a_epoch]; lia.
  - destruct (free_step a r) as [->|(e & x & _ & _ & ->)]; cbn [a_generation a_epoch]; lia.
  - unfold AdvanceEpoch. cbn [a_generation a_epoch]. rewrite (bump_small' _ n) by done. lia.
Qed.
Lemma advance_good a : good a → good (AdvanceEpoch a).
Proof.
  intros [Hg Ho]. unfold AdvanceEpoch. cbn zeta. split; cbn [entries a_epoch a_generation bufs].
  - intros y (z & Hy & Hz)%list_elem_of_fmap. destruct z as [z|]; [|done]. injection Hy as ->. cbn [epoch generation payload].
    destruct (Hg z Hz) as (_ & ? & ?). done.
  - intros i j y y'. rewrite !list_lookup_fmap. intros (z & Hz & Hy)%fmap_Some (z' & Hz' & Hy')%fmap_Some Hp.
    destruct z as [z|]; [|done]. destruct z' as [z'|]; [|done]. injection Hy as ->. injection Hy' as ->. cbn [payload] in Hp. by eapply Ho.
Qed.
Lemma step_good a o n : good a → room a (S n) → good (step a o).
Proof.
  intros Hg Hr. destruct Hr as (H1 & H2 & H3 & H4). destruct o as [b|r b|r|r|]; cbn [step].
  - by apply (write_good a b n).
  - destruct (update_step a r b) as [->|(e & He & Hge & Hep & ->)]; [done|]. rewrite (bump_small _ n) by done.
    pose proof (good_at a e _ Hg He) as (? & ? & ?). apply entry_at_Some in He as [_ He]. apply (set_good a _ e); [done|done|lia| |by rewrite length_insert].
    intros y [= <-]. cbn [epoch generation payload]. split_and!; [done|lia|done].
  - destruct (retain_step a r) as [->|(e & He & ->)]; [done|]. pose proof (good_at a e _ Hg He) as (? & ? & ?). apply entry_at_Some in He as [_ He].
    apply (set_good a _ e); [done|done|lia| |done]. intros y [= <-]. done.
  - destruct (free_step a r) as [->|(e & x & He & Hx & ->)]; [done|]. pose proof (good_at a e _ Hg He) as (? & ? & ?). apply entry_at_Some in He as [_ He].
    apply (set_good a _ e); [done|done|lia| |done]. intros y Hy. destruct (Hx y Hy) as (-> & -> & ->). done.
  - by apply advance_good.
Qed.

Lemma update_read_old a r0 b n r : good a → room a (S n) → known a r → steady a (Update a r0 b).1 r.
Proof.
  intros Hg (H1 & H2 & _) [Hk _]. destruct (update_step a r0 b) as [->|(e & He & Hge & Hep & ->)]; [by left|].
  destruct (decide (Offset r = Offset r0)) as [Ho|Ho].
  - right. apply Read_stale. intros y Hy Hgy _. rewrite Ho, slot_same with (e := e) in Hy by done. injection Hy as <-. cbn [generation] in Hgy.
    rewrite (bump_small _ n) in Hgy by done. lia.
  - left. apply (slot_read_other a e); [done|done| |done]. intros p Hp. by rewrite list_lookup_insert_ne by done.
Qed.
Lemma advance_read a n r : good a → room a (S n) → known a r → Read (AdvanceEpoch a) r = None.
Proof.
  intros Hg (H1 & H2 & H3 & H4) [_ Hk]. apply Read_stale. intros e He _ Hep. pose proof (good_at _ e _ (advance_good a Hg) He) as (Hae & _).
  unfold AdvanceEpoch in Hae. cbn [a_epoch] in Hae. rewrite (bump_small' _ n) in Hae by done. lia.
Qed.
Lemma step_steady a o n r : good a → room a (S n) → known a r → steady a (step a o) r.
Proof.
  intros Hg Hr Hk. destruct o as [b|r0 b|r0|r0|]; cbn [step].
  - by apply (write_steady a b n).
  - by apply (update_read_old a r0 b n).
  - destruct (retain_step a r0) as [->|(e & He & ->)]; [by left|]. destruct (decide (Offset r = Offset r0)) as [Ho|Ho].
    + apply (slot_read_same a e); [done|done|done|]. by intros y [= <-].
    + left. by apply (slot_read_other a e).
  - destruct (free_step a r0) as [->|(e & x & He & Hx & ->)]; [by left|]. destruct (decide (Offset r = Offset r0)) as [Ho|Ho].
    + by apply (slot_read_same a e).
    + left. by apply (slot_read_other a e).
  - right. by apply (advance_read a n).
Qed.
Lemma run_steady ops a r : good a → room a (length ops) → known a r → steady a (run a ops) r ∧ good (run a ops).
Proof.
  revert a. induction ops as [|o ops IH]; intros a Hg Hr Hk; [by split; [left|]|]. cbn [length] in Hr. destruct (step_room a o _ Hr) as (Hgen & Hep & Hr').
  destruct (IH (step a o)) as [Hs Hg']; [by eapply step_good|done|unfold known in *; lia|]. split; [|done]. change (run a (o :: ops)) with (run (step a o) ops).
  destruct (step_steady a o _ r Hg Hr Hk) as [H|H], Hs as [H'|H']; unfold steady; [left; congruence|by right|right; congruence|by right].
Qed.
Lemma run_app a xs ys : run a (xs ++ ys) = run (run a xs) ys.
Proof. apply foldl_app. Qed.
Lemma run_room ops a n : room a (length ops + n) → room (run a ops) n.
Proof.
  revert a. induction ops as [|o ops IH]; intros a Hr; [done|]. cbn [length Nat.add] in Hr. apply IH. by apply step_room.
Qed.
Lemma run_known ops a n r : room a (length ops + n) → known a r → known (run a ops) r.
Proof.
  revert a. induction ops as [|o ops IH]; intros a Hr Hk; [done|]. cbn [length Nat.add] in Hr. destruct (step_room a o _ Hr) as (? & ? & ?).
  apply (IH (step a o)); [done|unfold known in *; lia].
Qed.
Lemma write_reads a b : Read (Write a b).1 (Write a b).2 = Some b.
Proof.
  apply Read_Some. unfold Write. cbn zeta. cbn [fst snd].
  exists (mkEntry (a_generation a +ₛ 1)%go (a_epoch a) (length (bufs a)) 1). split; [apply validEntry_Some; split_and!; [|reflexivity..]|].
  - apply entry_at_Some. cbn [Offset toRef entries]. split; [lia|]. rewrite Nat2Z.id. by apply list_lookup_middle.
  - unfold buf. cbn [payload bufs]. by rewrite list_lookup_middle.
Qed.
Lemma update_reads a r b a' r' : good a → Update a r b = (a', Some r') → ∃ e, entry_at a (Offset r) = Some e ∧ Read a' r' = Some (copy (buf a (payload e)) b).
Proof.
  intros Hg Hu. unfold Update in Hu. destruct (entry_at a (Offset r)) as [e|] eqn:He; [|done]. exists e. split; [done|].
  destruct (Z.eqb_spec (generation e) (Generation r)); [|done]. destruct (Z.eqb_spec (epoch e) (r_Epoch r)); [|done]. cbn [negb] in Hu. injection Hu as <- <-.
  pose proof (good_at a e _ Hg He) as (_ & _ & Hp). apply Read_Some. eexists. split.
  - apply validEntry_Some. cbn [Offset toRef]. split; [by eapply slot_same|]. split_and!; reflexivity.
  - cbn [payload]. unfold buf at 2. cbn [bufs]. by rewrite list_lookup_insert_eq.
Qed.

(** C39: A descriptor handed out by a write resolves to the bytes written.  Whatever
    happens in the arena afterwards, and short of a counter wrapping, it resolves to
    those bytes or to nothing, and once it resolves to nothing it never resolves
    again; an advance of the epoch makes it stale. *)
Theorem Arena_descriptor_never_lies ep before b after
  (Hep : - two63 ≤ ep) (Hroom : ep + Z.of_nat (length before + length after + 2) < two63) (Hlen : Z.of_nat (length before + length after + 2) < two63) :
  let a := run (NewShmBlobArena ep) before in
  let '(a', ref) := Write a b in
  Read a' ref = Some b ∧
  (Read (run a' after) ref = Some b ∨ Read (run a' after) ref = None) ∧
  (∀ early late, after = early ++ late → Read (run a' early) ref = None → Read (run a' after) ref = None) ∧
  Read (AdvanceEpoch (run a' after)) ref = None.
Proof.
  intros a. assert (room (NewShmBlobArena ep) (length before + S (length after + 1))) as Hr.
  { unfold room, NewShmBlobArena. cbn [a_generation a_epoch]. split_and!; try lia. }
  assert (good a) as Hg.
  { destruct (run_steady before (NewShmBlobArena ep) (mkRef 0 0 0 ep 0 EmptyString)) as [_ ?]; [apply good_new| | |done].
    - unfold room in *. cbn [NewShmBlobArena a_generation a_epoch] in *. lia.
    - split; cbn; lia. }
  apply run_room in Hr. fold a in Hr. destruct (write_good a b _ Hg Hr) as [Hg' Hr']. pose proof (write_reads a b) as Hread.
  destruct (Write a b) as [a' ref] eqn:Ew. cbn [fst snd] in *.
  assert (known a' ref) as Hk by (unfold Write in Ew; injection Ew as <- <-; split; cbn; lia).
  assert (∀ n m, (n + m = length after + 1)%nat → room a' n ∧ ∀ ops, length ops = n → room (run a' ops) m) as Hrooms.
  { intros n m Hnm. rewrite <- Hnm in Hr'. split; [unfold room in *; lia|]. intros ops <-. by apply run_room. }
  split; [done|]. destruct (Hrooms (length after) 1%nat eq_refl) as [Hra Hra']. destruct (run_steady after a' ref Hg' Hra Hk) as [Hs Hga]. split; [|split].
  - destruct Hs as [Hs|Hs]; [left; congruence|by right].
  - intros early late -> Hn. rewrite run_app. rewrite length_app in *.
    destruct (Hrooms (length early) (length late + 1)%nat ltac:(lia)) as [Hre Hre'].
    destruct (run_steady early a' ref Hg' Hre Hk) as [_ Hge]. specialize (Hre' early eq_refl).
    destruct (run_steady late (run a' early) ref Hge) as [[H|H] _]; [unfold room in *; lia| |congruence|done].
    apply (run_known early a' (length late + 1)); [by rewrite Nat.add_assoc|done].
  - apply (advance_read _ 0); [done|by apply Hra'|by apply (run_known after a' 1)].
Qed.
Definition arena_before : list op := [OWrite [1; 2; 3]; OAdvance].
Lemma Arena_descriptor_never_lies_witness :
  let a := run (NewShmBlobArena 0) arena_before in
  Read (Write a [7; 8]).1 (Write a [7; 8]).2 = Some [7; 8] ∧ Read (AdvanceEpoch (Write a [7; 8]).1) (Write a [7; 8]).2 = None.
Proof.
  destruct (Arena_descriptor_never_lies 0 arena_before [7; 8] [] ltac:(done) ltac:(done) ltac:(done)) as (H1 & _ & _ & H2). by split.
Defined.

(** A view is the buffer: it changes under its holder when the slot is rewritten,
    although the descriptor it came from is refused from then on. *)
Lemma view_changes_under_update : ∃ a r p a', ReadView a r = Some p ∧ (Update a r [9; 9]).1 = a' ∧ buf a p = [1; 2] ∧ buf a' p = [9; 9] ∧ ReadView a' r = None.
Proof.
  exists (Write (NewShmBlobArena 0) [1; 2]).1, (Write (NewShmBlobArena 0) [1; 2]).2, 0%nat. eexists. split; [by vm_compute|]. split; [reflexivity|]. by vm_compute.
Qed.
(** A slot goes with its last reference. *)
Definition retains (n : nat) (a : ShmBlobArena) (r : ShmBlobRef) : ShmBlobArena := Nat.iter n (λ a, (Retain a r).1) a.
Definition frees (n : nat) (a : ShmBlobArena) (r : ShmBlobRef) : ShmBlobArena := Nat.iter n (λ a, (Free a r).1) a.
Lemma retain_valid a r e : validEntry a r = Some e →
  validEntry (Retain a r).1 r = Some (mkEntry (generation e) (epoch e) (payload e) (refCount e + 1)) ∧ bufs (Retain a r).1 = bufs a.
Proof.
  intros He. unfold Retain. rewrite He. split; [|done]. apply validEntry_Some in He as (He & Hg & Hp & Hl & Hc). apply validEntry_Some. split_and!; try done.
  by eapply slot_same.
Qed.
Lemma free_valid a r e : validEntry a r = Some e →
  validEntry (Free a r).1 r = (if refCount e <=? 1 then None else Some (mkEntry (generation e) (epoch e) (payload e) (refCount e - 1))) ∧ bufs (Free a r).1 = bufs a.
Proof.
  intros He. unfold Free. rewrite He. cbn [refCount fst]. split; [|done]. pose proof He as (Ha & Hg & Hp & Hl & Hc)%validEntry_Some.
  replace (refCount e - 1 <=? 0) with (refCount e <=? 1) by (destruct (Z.leb_spec (refCount e) 1), (Z.leb_spec (refCount e - 1) 0); lia || done).
  destruct (refCount e <=? 1).
  - unfold validEntry, set_entry. by rewrite (slot_same a e) by done.
  - apply validEntry_Some. split_and!; try done. by eapply slot_same.
Qed.
Lemma frees_S n a r : frees (S n) a r = (Free (frees n a r) r).1.
Proof. done. Qed.
Lemma frees_release a r e n : validEntry a r = Some e → refCount e = 1 + Z.of_nat n →
  (∀ k, (k ≤ n)%nat → Read (frees k a r) r = Read a r) ∧ Read (frees (S n) a r) r = None.
Proof.
  intros He Hc. assert (∀ k, (k ≤ n)%nat → validEntry (frees k a r) r = Some (mkEntry (generation e) (epoch e) (payload e) (refCount e - Z.of_nat k)) ∧ bufs (frees k a r) = bufs a) as Hk.
  { induction k as [|k IH]; intros Hkn; [split; [|done]; simpl; rewrite Z.sub_0_r; by destruct e|]. destruct (IH ltac:(lia)) as [Hv Hb].
    destruct (free_valid _ _ _ Hv) as [Hv' Hb']. rewrite frees_S, Hb', Hb. split; [|done].
    cbn [generation epoch payload refCount] in Hv'. rewrite Hv', (proj2 (Z.leb_gt _ _)) by lia. do 2 f_equal. lia. }
  split.
  - intros k Hkn. destruct (Hk k Hkn) as [Hv Hb]. unfold Read, buf. by rewrite Hv, He, Hb.
  - destruct (Hk n ltac:(lia)) as [Hv Hb]. destruct (free_valid _ _ _ Hv) as [Hv' _]. unfold Read. rewrite frees_S, Hv'. cbn [refCount]. by rewrite (proj2 (Z.leb_le _ _)) by lia.
Qed.

(** ** The host arena reads back what it wrote *)

Lemma Uint_PutUint k n : 0 ≤ n < 256 ^ Z.of_nat k → Uint (PutUint k n) = n.
Proof.
  unfold PutUint, Uint. revert n. induction k as [|k IH]; intros n Hn; [simpl in *; lia|]. rewrite Nat2Z.inj_succ, Z.pow_succ_r in Hn by lia.
  cbn [be]. rewrite rev_app_distr. cbn [rev app foldr]. rewrite IH; [pose proof (Z.div_mod n 256); lia|].
  split; [apply Z.div_pos; lia|apply Z.div_lt_upper_bound; lia].
Qed.
Lemma PutUint_length k n : length (PutUint k n) = k.
Proof. unfold PutUint. by rewrite length_rev, be_length. Qed.

Lemma slice_app_l x y hi : hi = Z.of_nat (length x) → slice (x ++ y) 0 hi = x.
Proof. intros ->. unfold slice. rewrite Z.sub_0_r, Nat2Z.id. change (Z.to_nat 0) with 0%nat. by rewrite drop_0, take_app_length. Qed.
Lemma slice_app_r x y lo hi : Z.of_nat (length x) ≤ lo → slice (x ++ y) lo hi = slice y (lo - Z.of_nat (length x)) (hi - Z.of_nat (length x)).
Proof.
  intros Hlo. unfold slice. rewrite drop_app_ge by lia. f_equal; [lia|]. f_equal. lia.
Qed.
Lemma slice_take x lo hi n : 0 ≤ lo ≤ hi → hi ≤ Z.of_nat n → slice (take n x) lo hi = slice x lo hi.
Proof. intros Hlo Hn. unfold slice. rewrite !take_drop_commute, take_take. do 2 f_equal. lia. Qed.

(** The header read back field by field. *)
Lemma header_length g e l c : length (header_bytes g e l c) = 40%nat.
Proof. unfold header_bytes. by rewrite !length_app, !PutUint_length. Qed.
Ltac header_field := unfold header_bytes; rewrite ?slice_app_r by (rewrite PutUint_length; lia); rewrite ?PutUint_length; cbn [Z.of_nat Pos.of_succ_nat Pos.succ Z.sub Z.add Z.opp Z.pos_sub Pos.pred_double];
  first [rewrite slice_app_l by (by rewrite PutUint_length) | idtac].
Lemma header_fields g e l c :
  slice (header_bytes g e l c) 0 4 = PutUint 4 shmBlobMagic ∧ slice (header_bytes g e l c) 4 6 = PutUint 2 shmBlobVersion ∧
  slice (header_bytes g e l c) 6 8 = PutUint 2 ShmBlobHeaderLen ∧ slice (header_bytes g e l c) 8 16 = PutUint 8 g ∧
  slice (header_bytes g e l c) 16 24 = PutUint 8 (u64 e) ∧ slice (header_bytes g e l c) 24 32 = PutUint 8 l ∧ slice (header_bytes g e l c) 32 40 = PutUint 8 c.
Proof.
  split_and!; by header_field.
Qed.

(** A host whose counters are in range. *)
Definition host_ok (h : Host) : Prop := 0 < capacity h < two63 ∧ 0 ≤ hostWriteOffset h ≤ capacity h ∧ is_u64 (hostNextGeneration h).
(** The bytes a descriptor covers. *)
Definition region (r : ShmBlobRef) : Z * Z := (Offset r, Offset r + ShmBlobHeaderLen + Len r).
Definition disjoint (r r' : ShmBlobRef) : Prop := (region r).2 ≤ (region r').1 ∨ (region r').2 ≤ (region r).1.

Lemma splice_length bytes off b : 0 ≤ off → off + Z.of_nat (length b) ≤ Z.of_nat (length bytes) → length (splice bytes off b) = length bytes.
Proof. intros H0 H1. unfold splice. rewrite !length_app, length_take, length_drop. lia. Qed.
Lemma splice_there bytes off b : 0 ≤ off → off + Z.of_nat (length b) ≤ Z.of_nat (length bytes) → slice (splice bytes off b) off (off + Z.of_nat (length b)) = b.
Proof.
  intros H0 H1. unfold splice. rewrite slice_app_r by (rewrite length_take; lia). rewrite length_take. rewrite Nat.min_l by lia.
  replace (off - Z.of_nat (Z.to_nat off)) with 0 by lia. apply slice_app_l. lia.
Qed.
Lemma splice_elsewhere bytes off b lo hi : 0 ≤ off → off + Z.of_nat (length b) ≤ Z.of_nat (length bytes) → 0 ≤ lo ≤ hi →
  hi ≤ off ∨ off + Z.of_nat (length b) ≤ lo → slice (splice bytes off b) lo hi = slice bytes lo hi.
Proof.
  intros H0 H1 Hlo [Hhi|Hhi]; unfold splice.
  - transitivity (slice (take (Z.to_nat off) bytes) lo hi); [|apply slice_take; lia]. unfold slice. rewrite drop_app_le by (rewrite length_take; lia).
    rewrite take_app_le; [done|]. rewrite length_drop, length_take. lia.
  - rewrite app_assoc, slice_app_r by (rewrite length_app, length_take; lia). unfold slice. rewrite drop_drop, length_app, length_take. f_equal; [lia|]. f_equal. lia.
Qed.

(** What is stored for a descriptor: the header and the payload it names. *)
Definition stored (h : Host) (r : ShmBlobRef) (p : list Z) : Prop :=
  ∃ g, is_u64 g ∧ Generation r = i64 g ∧ is_i64 (r_Epoch r) ∧ Len r = Z.of_nat (length p) ∧ Checksum r = fnv1a p ∧ 0 ≤ Offset r ∧ (region r).2 ≤ capacity h ∧
    slice (hostBytes h) (region r).1 (region r).2 = header_bytes g (r_Epoch r) (Len r) (u64 (Checksum r)) ++ p.

Lemma slice_slice x lo hi a b : 0 ≤ lo → 0 ≤ a ≤ b → b ≤ hi - lo → slice (slice x lo hi) a b = slice x (lo + a) (lo + b).
Proof. intros Hlo Ha Hb. unfold slice. rewrite skipn_firstn_comm, drop_drop, take_take. f_equal; [|f_equal]; lia. Qed.
Lemma stored_reads h r p : capacity h < two63 → stored h r p → ReadBlob h r = R_Ok p.
Proof.
  intros Hcap (g & Hg & Hgen & Hep & Hlen & Hck & Hoff & Hin & Hsl). unfold region in *. cbn [fst snd] in *. unfold ShmBlobHeaderLen in *.
  assert (slice (hostBytes h) (Offset r) (Offset r + 40) = header_bytes g (r_Epoch r) (Len r) (u64 (Checksum r))) as Hh.
  { replace (Offset r) with (Offset r + 0) at 1 by lia. rewrite <- (slice_slice _ (Offset r) (Offset r + 40 + Len r)) by lia. rewrite Hsl.
    apply slice_app_l. by rewrite header_length. }
  assert (slice (hostBytes h) (Offset r + 40) (Offset r + 40 + Len r) = p) as Hp.
  { replace (Offset r + 40 + Len r) with (Offset r + (40 + Len r)) by lia. rewrite <- (slice_slice _ (Offset r) (Offset r + 40 + Len r)) by lia. rewrite Hsl.
    rewrite slice_app_r by (rewrite header_length; lia). rewrite header_length. rewrite <- (app_nil_r p) at 1. apply slice_app_l. lia. }
  assert (is_i64 (fnv1a p)) as Hfr by apply i64_range.
  unfold ReadBlob. unfold ShmBlobHeaderLen. rewrite Hh, Hp.
  rewrite (proj2 (Z.eqb_neq _ _)) by lia. rewrite (i64_small (Offset r + 40)), (i64_small (Offset r + 40 + Len r)) by zrange.
  rewrite !(proj2 (Z.ltb_ge _ _)) by lia. cbn [orb].
  destruct (header_fields g (r_Epoch r) (Len r) (u64 (Checksum r))) as (-> & -> & -> & -> & -> & -> & ->).
  pose proof (u64_range (r_Epoch r)) as Her. pose proof (u64_range (Checksum r)) as Hcr. unfold is_u64, two64 in *.
  rewrite !Uint_PutUint by (simpl; (done || lia || (unfold two63 in *; lia))). rewrite <- Hgen, !i64_u64 by (done || (rewrite Hck; done)).
  rewrite (i64_small (Len r)) by zrange. rewrite Hck, !Z.eqb_refl. cbn [negb]. done.
Qed.
Lemma WriteBlob_stored h ep p h' r : host_ok h → is_i64 ep → WriteBlob h ep p = (h', inl r) →
  stored h' r p ∧ host_ok h' ∧ capacity h' = capacity h ∧
  ∀ lo hi, 0 ≤ lo ≤ hi → hi ≤ (region r).1 ∨ (region r).2 ≤ lo → slice (hostBytes h') lo hi = slice (hostBytes h) lo hi.
Proof.
  intros ([Hc0 Hc] & Hw & Hg) Hep Hwr. unfold WriteBlob in Hwr. destruct (Z.eqb_spec (capacity h) 0); [lia|].
  destruct (Z.ltb_spec (capacity h - ShmBlobHeaderLen) (Z.of_nat (length p))) as [|Hfit]; [done|]. unfold ShmBlobHeaderLen in *.
  set (off := if capacity h <? hostWriteOffset h + (40 + Z.of_nat (length p)) then 0 else hostWriteOffset h) in *.
  assert (0 ≤ off ∧ off + (40 + Z.of_nat (length p)) ≤ capacity h) as [Ho1 Ho2].
  { unfold off. destruct (Z.ltb_spec (capacity h) (hostWriteOffset h + (40 + Z.of_nat (length p)))); lia. }
  clearbody off. cbn zeta in Hwr. case_match; [done|]. apply pair_equal_spec in Hwr as [<- Hr]. apply (inj inl) in Hr as <-.
  set (b := header_bytes (hostNextGeneration h) ep (Z.of_nat (length p)) (u64 (fnv1a p)) ++ p). assert (Z.of_nat (length b) = 40 + Z.of_nat (length p)) as Hb by (unfold b; rewrite length_app, header_length; lia).
  assert (off + Z.of_nat (length b) ≤ Z.of_nat (length (hostBytes h))) as Hin by (unfold capacity in *; lia).
  assert (length (splice (hostBytes h) off b) = length (hostBytes h)) as Hl by (by apply splice_length).
  split; [|split; [|split]].
  - exists (hostNextGeneration h). unfold region. cbn [Generation r_Epoch Len Checksum Offset fst snd hostBytes]. unfold capacity. cbn [hostBytes]. rewrite Hl.
    split_and!; try done; [by rewrite i64_u64 by apply i64_range|unfold ShmBlobHeaderLen, capacity in *; lia|].
    unfold ShmBlobHeaderLen. rewrite i64_u64 by apply i64_range. replace (off + 40 + Z.of_nat (length p)) with (off + Z.of_nat (length b)) by lia. by apply splice_there.
  - unfold host_ok, capacity. cbn [hostBytes hostWriteOffset hostNextGeneration]. rewrite Hl. split; [done|]. split; [|apply u64_range].
    destruct (Z.eqb_spec (off + (40 + Z.of_nat (length p))) (Z.of_nat (length (hostBytes h)))); unfold capacity in *; lia.
  - unfold capacity. cbn [hostBytes]. by rewrite Hl.
  - intros lo hi Hlo Hd. cbn [hostBytes]. unfold region in Hd. cbn [Offset Len fst snd] in Hd. unfold ShmBlobHeaderLen in Hd. apply splice_elsewhere; [done|done|done|lia].
Qed.

(** Writes after one another, keeping the descriptors of those that succeed. *)
Fixpoint host_run (h : Host) (ws : list (Z * list Z)) : Host * list ShmBlobRef :=
  match ws with
  | [] => (h, [])
  | (ep, p) :: ws =>
      let '(h, r) := WriteBlob h ep p in
      let '(h, rs) := host_run h ws in (h, match r with inl r => r :: rs | inr _ => rs end)
  end.
Lemma WriteBlob_refused h ep p h' e : host_ok h → WriteBlob h ep p = (h', inr e) → hostBytes h' = hostBytes h ∧ host_ok h'.
Proof.
  intros (Hc & Hw & Hg) Hwr. unfold WriteBlob in Hwr. destruct (capacity h =? 0); [injection Hwr as <- _; done|].
  destruct (capacity h - ShmBlobHeaderLen <? Z.of_nat (length p)); [injection Hwr as <- _; done|]. cbn zeta in Hwr.
  destruct ((hostNextGeneration h +ᵤ 1)%go =? 0); [|done]. injection Hwr as <- _. split; [done|]. unfold host_ok, capacity in *. cbn [hostBytes hostWriteOffset hostNextGeneration].
  split; [done|]. split; [case_match; lia|apply u64_range].
Qed.
Lemma stored_kept h h' r p : capacity h' = capacity h →
  slice (hostBytes h') (region r).1 (region r).2 = slice (hostBytes h) (region r).1 (region r).2 → stored h r p → stored h' r p.
Proof. intros Hc Hs (g & H). exists g. by rewrite Hc, Hs. Qed.
Lemma host_run_stored ws : ∀ h r p, host_ok h → stored h r p → Forall (λ w, is_i64 w.1) ws → Forall (disjoint r) (host_run h ws).2 →
  stored (host_run h ws).1 r p ∧ host_ok (host_run h ws).1.
Proof.
  induction ws as [|[ep q] ws IH]; intros h r p Hh Hst Hws Hd; [done|]. apply Forall_cons in Hws as [Hep Hws]. cbn [host_run] in *.
  destruct (WriteBlob h ep q) as [h1 [r1|e]] eqn:Ew; destruct (host_run h1 ws) as [h2 rs] eqn:Er; cbn [fst snd] in *.
  - apply Forall_cons in Hd as [Hd1 Hd]. destruct (WriteBlob_stored h ep q h1 r1 Hh Hep Ew) as (_ & Hh1 & Hc1 & Hsame).
    specialize (IH h1 r p Hh1). rewrite Er in IH. apply IH; [|done|done]. apply (stored_kept h); [done| |done].
    destruct Hst as (g & _ & _ & _ & Hlen & _ & Hoff & _). apply Hsame; [unfold region; cbn [fst snd]; unfold ShmBlobHeaderLen; lia|]. destruct Hd1; lia.
  - destruct (WriteBlob_refused h ep q h1 e Hh Ew) as [Hb Hh1]. specialize (IH h1 r p Hh1). rewrite Er in IH. apply IH; [|done|done].
    apply (stored_kept h); [unfold capacity; by rewrite Hb|by rewrite Hb|done].
Qed.

(** In the host arena a descriptor reads back the payload it was issued for, and
    does so for as long as no later write lands on its bytes; and whatever the bytes
    hold, a read that succeeds returns a payload of the descriptor's length and
    checksum. *)
Theorem Host_reads_back h ep p h' ref ws
  (Hh : host_ok h) (Hep : is_i64 ep) (Hw : WriteBlob h ep p = (h', inl ref)) (Hws : Forall (λ w, is_i64 w.1) ws)
  (Hd : Forall (disjoint ref) (host_run h' ws).2) :
  ReadBlob h' ref = R_Ok p ∧ ReadBlob (host_run h' ws).1 ref = R_Ok p ∧
  ∀ h0 r b, ReadBlob h0 r = R_Ok b → Z.of_nat (length b) = Len r ∧ fnv1a b = Checksum r.
Proof.
  destruct (WriteBlob_stored h ep p h' ref Hh Hep Hw) as (Hst & Hh' & _). destruct (host_run_stored ws h' ref p Hh' Hst Hws Hd) as [Hst' Hh''].
  split; [apply stored_reads; [apply Hh'|done]|]. split; [apply stored_reads; [apply Hh''|done]|]. intros h0 r b Hr. unfold ReadBlob in Hr.
  destruct (capacity h0 =? 0); [done|]. destruct (Z.ltb_spec (Offset r) 0); [done|]. destruct (Z.ltb_spec (Len r) 0); [done|]. cbn [orb] in Hr.
  repeat (case_match; [done|]). cbn zeta in Hr. repeat (case_match; try done). injection Hr as <-.
  repeat match goal with H : (_ <? _) = false |- _ => apply Z.ltb_ge in H | H : negb (_ =? _) = false |- _ => apply negb_false_iff, Z.eqb_eq in H end.
  split; [|done]. unfold slice, capacity, ShmBlobHeaderLen in *. rewrite length_take, length_drop. lia.
Qed.
Definition host0 : Host := default (mkHost [] 0 0) (NewShmBlobArenaWithCapacity 128).
Lemma Host_reads_back_witness :
  let '(h', r) := WriteBlob host0 3 [1; 2] in
  match r with inl ref => ReadBlob (host_run h' [(4, [5; 6; 7])]).1 ref = R_Ok [1; 2] | inr _ => False end.
Proof.
  destruct (WriteBlob host0 3 [1; 2]) as [h' [ref|e]] eqn:Ew; [|by vm_compute in Ew].
  refine (proj1 (proj2 (Host_reads_back host0 3 [1; 2] h' ref [(4, [5; 6; 7])] _ _ Ew _ _))); [by split|by split|by repeat constructor|].
  vm_compute in Ew. injection Ew as <- <-. vm_compute. constructor; [left; done|done].
Defined.

(** The bound of a read is a sum of int64s: a descriptor near the largest offset
    passes it and the slice expression panics. *)
Lemma read_bound_wraps : ReadBlob host0 (mkRef (max_i64 - 10) 5 0 0 0 EmptyString) = R_Panic.
Proof. by vm_compute. Qed.
(** Half of all payloads have a negative checksum, the empty one among them: their
    descriptor is encoded, and then refused by every decoder. *)
Lemma negative_checksum_refused a b : fnv1a b < 0 → good a → room a 1 → a_generation a ≤ max_i64 →
  let r := (Write a b).2 in Z.of_nat (length b) < two63 → Z.of_nat (length (entries a)) < two63 → ShmBlobRef_UnmarshalJSON (norm (ShmBlobRef_MarshalJSON r)) = None.
Proof.
  intros Hn Hg (H1 & H2 & H3 & H4) _ r Hlb Hle. unfold r, Write, toRef, checksum, buf. cbn [fst snd payload generation epoch bufs].
  rewrite list_lookup_middle by done. cbn [default from_option id]. apply negative_ref_refused; cbn [Offset Len Generation r_Epoch Checksum].
  - do 4 right. by left.
  - rewrite (bump_small _ 0) by done. repeat apply Forall_cons_2; try apply Forall_nil_2; try apply i64_range; zrange.
Qed.
Example empty_payload_refused : fnv1a [] < 0 ∧ (let r := (Write (NewShmBlobArena 0) []).2 in ShmBlobRef_UnmarshalJSON (norm (ShmBlobRef_MarshalJSON r)) = None).
Proof. by vm_compute. Qed.
