(* ===== verification/Transport.v ===== *)
(** * Transport: spilling payloads to blob backends (transport.go,
    transport_shm.go)

    The interface [BlobBackend] is a class, with what a client may rely on as laws;
    the in-process, Arrow and shared-memory backends are its instances.  A view of a
    backend is the bytes it shows.  The shared-memory region is its bytes beside the
    counters of its header; opening and mapping are the operating system's, and an
    operation runs alone. *)

From S2P Require Import Prelude MsgpackCodec Distributed Wire ShmArena.
Local Open Scope Z_scope.

(** [transport.go] [lines 31-36 DefaultSpillThreshold] *)
Definition DefaultSpillThreshold : Z := 512.

(** A view shows bytes, or does not resolve; a slice out of range is a panic. *)
Inductive View := Seen (b : list Z) | Unresolved | Panics.
#[export] Instance View_eq_dec : EqDecision View.
Proof. solve_decision. Defined.
Definition seen (v : option (list Z)) : View := match v with Some b => Seen b | None => Unresolved end.

(** [sound] is the backend's own invariant, [issued] the descriptors it must keep:
    a write resolves to its bytes and disturbs no descriptor issued before.
    [transport.go] [type BlobBackend] *)
Class BlobBackend (B : Type) := {
  bb_Kind : B → BlobBackendKind;
  bb_Write : B → list Z → B * option ShmBlobRef;
  bb_ReadView : B → ShmBlobRef → View;
  bb_AdvanceEpoch : B → B;
  sound : B → Prop;
  issued : B → ShmBlobRef → Prop;
  write_kind b bytes : bb_Kind (bb_Write b bytes).1 = bb_Kind b;
  write_sound b bytes : sound b → sound (bb_Write b bytes).1;
  write_resolves b bytes b' ref : sound b → bb_Write b bytes = (b', Some ref) →
    bb_ReadView b' ref = Seen bytes ∧ issued b' ref ∧ Backend ref = bb_Kind b';
  write_keeps b bytes ref x : sound b → issued b ref → bb_ReadView b ref = Seen x →
    issued (bb_Write b bytes).1 ref ∧ bb_ReadView (bb_Write b bytes).1 ref = Seen x }.

(** ** Backends over an arena *)

(** [transport.go] [type InProcessBackend] *)
Record InProcessBackend := mkInProcess { ip_arena : ShmBlobArena }.
(** [transport.go] [NewInProcessBackend] *)
Definition NewInProcessBackend : InProcessBackend := mkInProcess (NewShmBlobArena 0).
(** [transport.go] [InProcessBackendFromArena] *)
Definition InProcessBackendFromArena (a : ShmBlobArena) : InProcessBackend := mkInProcess a.
(** [transport.go] [InProcessBackend.Kind] *)
Definition InProcess_Kind (b : InProcessBackend) : BlobBackendKind := BackendInProcess.
(** [transport.go] [InProcessBackend.Epoch] *)
Definition InProcess_Epoch (b : InProcessBackend) : Z := Epoch_ (ip_arena b).
(** [transport.go] [InProcessBackend.Write] *)
Definition InProcess_Write (b : InProcessBackend) (bytes : list Z) : InProcessBackend * option ShmBlobRef :=
  let '(a, ref) := Write (ip_arena b) bytes in (mkInProcess a, Some (WithBackend ref BackendInProcess)).
(** The bytes of the buffer a view hands out. *)
Definition view (a : ShmBlobArena) (ref : ShmBlobRef) : option (list Z) := p ← ReadView a ref; Some (buf a p).
(** [transport.go] [InProcessBackend.ReadView] *)
Definition InProcess_ReadView (b : InProcessBackend) (ref : ShmBlobRef) : View := seen (view (ip_arena b) ref).
(** [transport.go] [InProcessBackend.AdvanceEpoch] *)
Definition InProcess_AdvanceEpoch (b : InProcessBackend) : InProcessBackend := mkInProcess (AdvanceEpoch (ip_arena b)).

(** [transport.go] [type ArrowBackend] *)
Record ArrowBackend := mkArrow { ar_arena : ShmBlobArena }.
(** [transport.go] [NewArrowBackend] *)
Definition NewArrowBackend : ArrowBackend := mkArrow (NewShmBlobArena 0).
(** [transport.go] [ArrowBackend.Kind] *)
Definition Arrow_Kind (b : ArrowBackend) : BlobBackendKind := BackendArrow.
(** [transport.go] [ArrowBackend.Epoch] *)
Definition Arrow_Epoch (b : ArrowBackend) : Z := Epoch_ (ar_arena b).
(** [transport.go] [ArrowBackend.Write] *)
Definition Arrow_Write (b : ArrowBackend) (bytes : list Z) : ArrowBackend * option ShmBlobRef :=
  let '(a, ref) := Write (ar_arena b) bytes in (mkArrow a, Some (WithBackend ref BackendArrow)).
(** [transport.go] [ArrowBackend.ReadView] *)
Definition Arrow_ReadView (b : ArrowBackend) (ref : ShmBlobRef) : View := seen (view (ar_arena b) ref).
(** [transport.go] [ArrowBackend.AdvanceEpoch] *)
Definition Arrow_AdvanceEpoch (b : ArrowBackend) : ArrowBackend := mkArrow (AdvanceEpoch (ar_arena b)).

Lemma view_read a r : view a r = Read a r.
Proof. unfold view, ReadView, Read. by destruct (validEntry a r). Qed.
(** What a write needs of an arena: every entry's buffer exists. *)
Definition sane (a : ShmBlobArena) : Prop := ∀ e, Some e ∈ entries a → (payload e < length (bufs a))%nat.
Lemma write_sane a b : sane a → sane (Write a b).1.
Proof.
  intros Hs e. unfold Write. cbn [fst entries bufs]. rewrite length_app. cbn [length]. intros [He|He%list_elem_of_singleton]%elem_of_app; [specialize (Hs e He); lia|].
  injection He as ->. cbn [payload]. lia.
Qed.
Lemma sane_write_read a b r x : sane a → Read a r = Some x → Read (Write a b).1 r = Some x.
Proof.
  intros Hs (e & Hv & ->)%Read_Some. apply Read_Some. exists e. pose proof Hv as (He & Hg & Hep & Hl & Hc)%validEntry_Some. apply entry_at_Some in He as [H0 He].
  assert (payload e < length (bufs a))%nat as Hp by (apply Hs; by eapply list_elem_of_lookup_2).
  assert (buf (Write a b).1 (payload e) = buf a (payload e)) as Hb by (unfold buf, Write; cbn [fst bufs]; by rewrite lookup_app_l).
  split; [|done]. apply validEntry_Some. unfold checksum in *. rewrite Hb. split_and!; try done. apply entry_at_Some. split; [done|].
  unfold Write. cbn [fst entries]. rewrite lookup_app_l; [done|]. by eapply lookup_lt_Some.
Qed.

#[export] Program Instance InProcess_backend : BlobBackend InProcessBackend := {
  bb_Kind := InProcess_Kind; bb_Write := InProcess_Write; bb_ReadView := InProcess_ReadView; bb_AdvanceEpoch := InProcess_AdvanceEpoch;
  sound b := sane (ip_arena b); issued _ _ := True }.
Next Obligation. done. Qed.
Next Obligation. intros b bytes Hs. unfold InProcess_Write. pose proof (write_sane (ip_arena b) bytes Hs). by destruct (Write (ip_arena b) bytes). Qed.
Next Obligation.
  intros b bytes b' ref Hs Hw. unfold InProcess_Write in Hw. pose proof (write_reads (ip_arena b) bytes) as Hr. destruct (Write (ip_arena b) bytes) as [a r].
  injection Hw as <- <-. split; [|done]. unfold InProcess_ReadView. rewrite view_read. cbn [fst snd ip_arena ar_arena] in *.
  change (Read a (WithBackend r _)) with (Read a r). by rewrite Hr.
Qed.
Next Obligation.
  intros b bytes ref x Hs _ Hr. split; [done|]. unfold InProcess_ReadView in *. rewrite view_read in *.
  destruct (Read _ ref) as [y|] eqn:Hy in Hr; [|done]. injection Hr as <-. pose proof (sane_write_read _ bytes _ _ Hs Hy) as H.
  unfold InProcess_Write. destruct (Write (ip_arena b) bytes) as [a r]. cbn [fst ip_arena] in *. by rewrite H.
Qed.
#[export] Program Instance Arrow_backend : BlobBackend ArrowBackend := {
  bb_Kind := Arrow_Kind; bb_Write := Arrow_Write; bb_ReadView := Arrow_ReadView; bb_AdvanceEpoch := Arrow_AdvanceEpoch;
  sound b := sane (ar_arena b); issued _ _ := True }.
Next Obligation. done. Qed.
Next Obligation. intros b bytes Hs. unfold Arrow_Write. pose proof (write_sane (ar_arena b) bytes Hs). by destruct (Write (ar_arena b) bytes). Qed.
Next Obligation.
  intros b bytes b' ref Hs Hw. unfold Arrow_Write in Hw. pose proof (write_reads (ar_arena b) bytes) as Hr. destruct (Write (ar_arena b) bytes) as [a r].
  injection Hw as <- <-. split; [|done]. unfold Arrow_ReadView. rewrite view_read. cbn [fst snd ip_arena ar_arena] in *.
  change (Read a (WithBackend r _)) with (Read a r). by rewrite Hr.
Qed.
Next Obligation.
  intros b bytes ref x Hs _ Hr. split; [done|]. unfold Arrow_ReadView in *. rewrite view_read in *.
  destruct (Read _ ref) as [y|] eqn:Hy in Hr; [|done]. injection Hr as <-. pose proof (sane_write_read _ bytes _ _ Hs Hy) as H.
  unfold Arrow_Write. destruct (Write (ar_arena b) bytes) as [a r]. cbn [fst ar_arena] in *. by rewrite H.
Qed.

(** ** The shared-memory backend *)

(** [transport_shm.go] [lines 35-44 shmHeaderLen] *)
Definition shmHeaderLen : Z := 40.
Definition shmSlotLen : Z := 24.
(** The bytes of the region and the three counters of its header, which every handle
    that maps the region shares.  The allocation counter is kept below its wrap.
    [transport_shm.go] [type ShmBackend] *)
Record ShmBackend := mkShm { region_ : list Z; bump : Z; shm_generation : Z; shm_epoch : Z }.
(** [transport_shm.go] [CreateShmBackend] *)
Definition CreateShmBackend (capacity : Z) : option ShmBackend :=
  if capacity <=? shmHeaderLen + shmSlotLen then None else Some (mkShm (replicate (Z.to_nat capacity) 0) shmHeaderLen 0 0).
(** [transport_shm.go] [ShmBackend.Capacity] *)
Definition Shm_Capacity (b : ShmBackend) : Z := Z.of_nat (length (region_ b)).
(** [transport_shm.go] [ShmBackend.Kind] *)
Definition Shm_Kind (b : ShmBackend) : BlobBackendKind := BackendShm.
(** [transport_shm.go] [ShmBackend.Epoch] *)
Definition Shm_Epoch (b : ShmBackend) : Z := shm_epoch b.
(** The counter moves even when the blob does not fit.
    [transport_shm.go] [ShmBackend.Write] *)
Definition Shm_Write (b : ShmBackend) (bytes : list Z) : ShmBackend * option ShmBlobRef :=
  let len := Z.of_nat (length bytes) in
  let need := shmSlotLen + len in
  let off := bump b in
  if Shm_Capacity b <? off + need then (mkShm (region_ b) (off + need) (shm_generation b) (shm_epoch b), None)
  else
    let g := (shm_generation b +ₛ 1)%go in
    let csum := fnv1a bytes in
    let slot := PutUint 8 (u64 g) ++ PutUint 8 len ++ PutUint 8 (u64 csum) in
    (mkShm (splice (region_ b) off (slot ++ bytes)) (off + need) g (shm_epoch b), Some (mkRef (off + shmSlotLen) len g (shm_epoch b) csum BackendShm)).
(** [transport_shm.go] [ShmBackend.ReadView] *)
Definition Shm_ReadView (b : ShmBackend) (ref : ShmBlobRef) : View :=
  let off := Offset ref in
  let slotOff := (off -ₛ shmSlotLen)%go in
  let hi := (off +ₛ Len ref)%go in
  if (slotOff <? shmHeaderLen) || (Shm_Capacity b <? hi) then Unresolved
  else if (off <? slotOff) || (Shm_Capacity b <? off) then Panics
  else
    let slot := slice (region_ b) slotOff off in
    if negb (i64 (Uint (slice slot 0 8)) =? Generation ref) then Unresolved
    else if negb (i64 (Uint (slice slot 8 16)) =? Len ref) then Unresolved
    else if negb (i64 (Uint (slice slot 16 24)) =? Checksum ref) then Unresolved
    else if negb (shm_epoch b =? r_Epoch ref) then Unresolved
    else if hi <? off then Panics else Seen (slice (region_ b) off hi).
(** [transport_shm.go] [ShmBackend.AdvanceEpoch] *)
Definition Shm_AdvanceEpoch (b : ShmBackend) : ShmBackend := mkShm (region_ b) (bump b) (shm_generation b) (shm_epoch b +ₛ 1)%go.

Definition shm_sound (b : ShmBackend) : Prop := shmHeaderLen ≤ bump b ∧ Shm_Capacity b < two63.
(** A descriptor whose slot lies below the allocation mark. *)
Definition shm_issued (b : ShmBackend) (r : ShmBlobRef) : Prop :=
  shmHeaderLen + shmSlotLen ≤ Offset r ∧ 0 ≤ Len r ∧ Offset r + Len r ≤ bump b ∧ Offset r + Len r ≤ Shm_Capacity b.
Lemma shm_view_issued b r : shm_sound b → shm_issued b r → Shm_ReadView b r =
  (let slot := slice (region_ b) (Offset r - 24) (Offset r) in
   if negb (i64 (Uint (slice slot 0 8)) =? Generation r) || negb (i64 (Uint (slice slot 8 16)) =? Len r) || negb (i64 (Uint (slice slot 16 24)) =? Checksum r) ||
      negb (shm_epoch b =? r_Epoch r) then Unresolved else Seen (slice (region_ b) (Offset r) (Offset r + Len r))).
Proof.
  intros (Hb & Hc) (H1 & H2 & H3 & H4). unfold Shm_ReadView, shmHeaderLen, shmSlotLen in *. rewrite (i64_small (Offset r - 24)), (i64_small (Offset r + Len r)) by zrange.
  rewrite (proj2 (Z.ltb_ge (Offset r - 24) 40)), (proj2 (Z.ltb_ge (Shm_Capacity b) (Offset r + Len r))), (proj2 (Z.ltb_ge (Offset r) (Offset r - 24))),
    (proj2 (Z.ltb_ge (Shm_Capacity b) (Offset r))), (proj2 (Z.ltb_ge (Offset r + Len r) (Offset r))) by lia. cbn [orb].
  by repeat (case_match; cbn [orb]).
Qed.
Lemma slot_fields g l c bytes :
  let slot := PutUint 8 g ++ PutUint 8 l ++ PutUint 8 c in
  length slot = 24%nat ∧ slice slot 0 8 = PutUint 8 g ∧ slice slot 8 16 = PutUint 8 l ∧ slice slot 16 24 = PutUint 8 c ∧
  slice (slot ++ bytes) 0 24 = slot ∧ slice (slot ++ bytes) 24 (24 + Z.of_nat (length bytes)) = bytes.
Proof.
  intros slot. assert (length slot = 24%nat) as Hl by (unfold slot; by rewrite !length_app, !PutUint_length). split; [done|].
  assert (slice (slot ++ bytes) 24 (24 + Z.of_nat (length bytes)) = bytes) as Hb.
  { rewrite slice_app_r by lia. rewrite Hl. rewrite <- (app_nil_r bytes) at 1. apply slice_app_l. lia. }
  assert (slice (slot ++ bytes) 0 24 = slot) as Hs by (apply slice_app_l; by rewrite Hl).
  split_and!; try done; unfold slot; by header_field.
Qed.

Lemma shm_write_split b bytes : shm_sound b →
  shm_sound (Shm_Write b bytes).1 ∧ Shm_Capacity (Shm_Write b bytes).1 = Shm_Capacity b ∧ bump b ≤ bump (Shm_Write b bytes).1 ∧
  shm_epoch (Shm_Write b bytes).1 = shm_epoch b ∧
  ∀ lo hi, 0 ≤ lo ≤ hi → hi ≤ bump b → slice (region_ (Shm_Write b bytes).1) lo hi = slice (region_ b) lo hi.
Proof.
  intros (Hb & Hc). unfold Shm_Write, shm_sound, shmHeaderLen, shmSlotLen in *. destruct (Z.ltb_spec (Shm_Capacity b) (bump b + (24 + Z.of_nat (length bytes)))) as [Hlt|Hfit]; cbn [fst].
  - split_and!; cbn [bump region_ shm_epoch]; try done; lia.
  - destruct (slot_fields (u64 (shm_generation b +ₛ 1)) (Z.of_nat (length bytes)) (u64 (fnv1a bytes)) bytes) as (Hl & _).
    set (slot := PutUint 8 _ ++ _) in *. unfold Shm_Capacity in *. cbn [region_ bump shm_epoch].
    assert (bump b + Z.of_nat (length (slot ++ bytes)) ≤ Z.of_nat (length (region_ b))) as Hin by (rewrite length_app; lia).
    rewrite splice_length by (done || lia). split_and!; try done; try lia. intros lo hi Hlo Hhi. apply splice_elsewhere; lia.
Qed.
#[export] Program Instance Shm_backend : BlobBackend ShmBackend := {
  bb_Kind := Shm_Kind; bb_Write := Shm_Write; bb_ReadView := Shm_ReadView; bb_AdvanceEpoch := Shm_AdvanceEpoch; sound := shm_sound; issued := shm_issued }.
Next Obligation. done. Qed.
Next Obligation. intros b bytes Hs. by apply shm_write_split. Qed.
Next Obligation.
  intros b bytes b' ref Hs Hw. destruct (shm_write_split b bytes Hs) as (Hs' & _). rewrite Hw in Hs'. cbn [fst] in Hs'. destruct Hs as [Hb Hc].
  unfold Shm_Write, shmHeaderLen, shmSlotLen in *. destruct (Z.ltb_spec (Shm_Capacity b) (bump b + (24 + Z.of_nat (length bytes)))) as [|Hfit]; [done|].
  set (g := (shm_generation b +ₛ 1)%go) in *. destruct (slot_fields (u64 g) (Z.of_nat (length bytes)) (u64 (fnv1a bytes)) bytes) as (Hl & F1 & F2 & F3 & F4 & F5).
  set (slot := PutUint 8 (u64 g) ++ PutUint 8 (Z.of_nat (length bytes)) ++ PutUint 8 (u64 (fnv1a bytes))) in *.
  apply pair_equal_spec in Hw as [<- Hr]. apply (inj Some) in Hr as <-.
  assert (bump b + Z.of_nat (length (slot ++ bytes)) ≤ Z.of_nat (length (region_ b))) as Hin by (rewrite length_app; unfold Shm_Capacity in *; lia).
  set (b' := mkShm _ _ _ _) in *. assert (Shm_Capacity b' = Shm_Capacity b) as Hcap by (unfold Shm_Capacity, b'; cbn [region_]; rewrite splice_length by (done || lia); done).
  assert (shm_issued b' (mkRef (bump b + 24) (Z.of_nat (length bytes)) g (shm_epoch b) (fnv1a bytes) BackendShm)) as Hi.
  { unfold shm_issued, shmHeaderLen, shmSlotLen. rewrite Hcap. unfold b'. cbn [Offset Len bump]. lia. }
  split; [|by split]. rewrite shm_view_issued by done. cbn [Offset Len Generation Checksum r_Epoch].
  assert (slice (region_ b') (bump b) (bump b + Z.of_nat (length (slot ++ bytes))) = slot ++ bytes) as Hthere by (apply splice_there; lia).
  rewrite length_app, Hl in Hthere.
  assert (slice (region_ b') (bump b + 24 - 24) (bump b + 24) = slot) as ->.
  { rewrite <- F4, <- Hthere, slice_slice by lia. f_equal; lia. }
  assert (slice (region_ b') (bump b + 24) (bump b + 24 + Z.of_nat (length bytes)) = bytes) as ->.
  { rewrite <- F5 at 2. rewrite <- Hthere, slice_slice by lia. f_equal; lia. }
  pose proof (u64_range g) as Hg. pose proof (u64_range (fnv1a bytes)) as Hf. unfold is_u64, two64, Shm_Capacity, two63 in *.
  rewrite F1, F2, F3, !Uint_PutUint by (simpl; lia). rewrite !i64_u64 by apply i64_range. rewrite (i64_small (Z.of_nat (length bytes))) by zrange.
  change (shm_epoch b') with (shm_epoch b). by rewrite !Z.eqb_refl.
Qed.
Next Obligation.
  intros b bytes ref x Hs Hi Hv. destruct (shm_write_split b bytes Hs) as (Hs' & Hcap & Hbump & Hep & Hsl).
  assert (shm_issued (Shm_Write b bytes).1 ref) as Hi' by (unfold shm_issued in *; lia). split; [done|].
  rewrite shm_view_issued in * by done. destruct Hi as (H1 & H2 & H3 & H4). unfold shmHeaderLen, shmSlotLen in *.
  rewrite !Hsl, Hep by lia. done.
Qed.

(** One blob too large takes the room it does not get: nothing can be written after it. *)
Lemma refused_write_wedges_region : ∃ b big, let b' := (Shm_Write b big).1 in
  (Shm_Write b big).2 = None ∧ (∃ r, (Shm_Write b [1]).2 = Some r) ∧ (Shm_Write b' [1]).2 = None.
Proof.
  exists (default (mkShm [] 0 0 0) (CreateShmBackend 96)), (replicate 64 0). cbn zeta. split; [by vm_compute|]. split; [eexists; vm_compute; reflexivity|by vm_compute].
Qed.
(** The bound on the bytes of a view wraps: a slice expression out of range. *)
Lemma view_bound_wraps : Shm_ReadView (default (mkShm [] 0 0 0) (CreateShmBackend 96)) (mkRef 200 (-150) 0 0 0 BackendShm) = Panics.
Proof. by vm_compute. Qed.

(** ** Spilling *)

Section spill.
Context `{BlobBackend B}.

(** [transport.go] [SpillValue] *)
Definition SpillValue (value : IpcValue) (b : B) (threshold : Z) : IpcValue * Z * B :=
  match value with
  | IpcValueInline bytes =>
      if Z.of_nat (length bytes) <? threshold then (value, 0, b)
      else match bb_Write b bytes with (b, Some ref) => (IpcValueSharedBlob ref, Z.of_nat (length bytes), b) | (b, None) => (value, 0, b) end
  | _ => (value, 0, b)
  end.
(** [transport.go] [spillState] *)
Definition spillState (state : NodeState) (b : B) (threshold : Z) : NodeState * Z * B :=
  match state with
  | NodeStatePayload bytes =>
      if Z.of_nat (length bytes) <? threshold then (state, 0, b)
      else match bb_Write b bytes with (b, Some ref) => (NodeStateSharedBlob ref, Z.of_nat (length bytes), b) | (b, None) => (state, 0, b) end
  | _ => (state, 0, b)
  end.
(** A loop over a list, adding up what its elements spill. *)
Fixpoint spill_all {A} (f : A → B → A * Z * B) (l : list A) (b : B) : list A * Z * B :=
  match l with
  | [] => ([], 0, b)
  | x :: l => let '(x, n, b) := f x b in let '(l, m, b) := spill_all f l b in (x :: l, n + m, b)
  end.
(** [transport.go] [lines 207-212 SpillMessage] *)
Definition spill_node (threshold : Z) (n : NodeSnapshot) (b : B) : NodeSnapshot * Z * B :=
  let '(st, k, b) := spillState (ns_State n) b threshold in (mkNodeSnapshot (ns_Node n) (TypeTag n) st (ns_Key n), k, b).
(** [transport.go] [lines 218-247 SpillMessage] *)
Definition spill_op (threshold : Z) (o : DeltaOp) (b : B) : DeltaOp * Z * B :=
  match o with
  | DeltaOpCellSet n p => let '(p, k, b) := SpillValue p b threshold in (DeltaOpCellSet n p, k, b)
  | DeltaOpSlotValue n p => let '(p, k, b) := SpillValue p b threshold in (DeltaOpSlotValue n p, k, b)
  | DeltaOpNodeAdd n tag st key => let '(st, k, b) := spillState st b threshold in (DeltaOpNodeAdd n tag st key, k, b)
  | DeltaOpQueuePush n p => let '(p, k, b) := SpillValue p b threshold in (DeltaOpQueuePush n p, k, b)
  | _ => (o, 0, b)
  end.
(** [transport.go] [lines 254-258 SpillMessage] *)
Definition spill_crdt (threshold : Z) (o : CrdtOp) (b : B) : CrdtOp * Z * B :=
  let '(p, k, b) := SpillValue (State o) b threshold in (mkOp (Node o) (Key o) (Stamp o) p, k, b).
(** [transport.go] [SpillMessage] *)
Definition SpillMessage (m : IpcMessage) (b : B) (threshold : Z) : IpcMessage * Z * B :=
  match m with
  | IpcMessageSnapshot s =>
      let '(nodes, n, b) := spill_all (spill_node threshold) (Nodes s) b in (IpcMessageSnapshot (mkSnapshot (s_Epoch s) nodes (Edges s) (Roots s)), n, b)
  | IpcMessageDelta d => let '(ops, n, b) := spill_all (spill_op threshold) (d_Ops d) b in (IpcMessageDelta (mkDelta (BaseEpoch d) (d_Epoch d) ops), n, b)
  | IpcMessageCrdtSync c => let '(ops, n, b) := spill_all (spill_crdt threshold) (Ops c) b in (IpcMessageCrdtSync (mkSync (Frontier c) ops), n, b)
  | _ => (m, 0, b)
  end.
(** [transport.go] [ResolveValue] *)
Definition ResolveValue (value : IpcValue) (b : B) : View :=
  match value with IpcValueInline bytes => Seen bytes | IpcValueSharedBlob r => bb_ReadView b r end.
End spill.

(** ** The router *)

Record AnyBackend := Box { bx_T : Type; bx_inst : BlobBackend bx_T; bx : bx_T }.
Definition any_Kind (b : AnyBackend) : BlobBackendKind := @bb_Kind _ (bx_inst b) (bx b).
Definition any_ReadView (b : AnyBackend) (r : ShmBlobRef) : View := @bb_ReadView _ (bx_inst b) (bx b) r.
(** The array of three slots, by index.
    [transport.go] [type BlobRouter] *)
Record BlobRouter := mkRouter { backends : gmap nat AnyBackend }.
(** [transport.go] [NewBlobRouter] *)
Definition NewBlobRouter : BlobRouter := mkRouter ∅.
(** An unknown kind is a panic.
    [transport.go] [BlobRouter.Register] *)
Definition Register (r : BlobRouter) (b : AnyBackend) : option BlobRouter :=
  idx ← routerIndex (any_Kind b); Some (mkRouter (<[idx := b]> (backends r))).
(** [transport.go] [BlobRouter.ReadView] *)
Definition Router_ReadView (r : BlobRouter) (ref : ShmBlobRef) : View :=
  match routerIndex (Backend ref) with
  | None => Unresolved
  | Some idx => match backends r !! idx with None => Unresolved | Some b => any_ReadView b ref end
  end.
(** [transport.go] [BlobRouter.Resolve] *)
Definition Resolve (r : BlobRouter) (value : IpcValue) : View :=
  match value with IpcValueInline bytes => Seen bytes | IpcValueSharedBlob ref => Router_ReadView r ref end.

(** ** What spilling preserves *)

(** The places of a message that hold a value, and the message without them. *)
Definition state_site (s : NodeState) : list IpcValue :=
  match s with NodeStatePayload b => [IpcValueInline b] | NodeStateSharedBlob r => [IpcValueSharedBlob r] | NodeStateOpaque => [] end.
Definition blank_value (_ : IpcValue) : IpcValue := IpcValueInline [].
Definition blank_state (s : NodeState) : NodeState := match s with NodeStateOpaque => NodeStateOpaque | _ => NodeStatePayload [] end.
Definition op_sites (o : DeltaOp) : list IpcValue :=
  match o with
  | DeltaOpCellSet _ p | DeltaOpSlotValue _ p | DeltaOpQueuePush _ p => [p]
  | DeltaOpNodeAdd _ _ s _ => state_site s
  | _ => []
  end.
Definition blank_op (o : DeltaOp) : DeltaOp :=
  match o with
  | DeltaOpCellSet n p => DeltaOpCellSet n (blank_value p) | DeltaOpSlotValue n p => DeltaOpSlotValue n (blank_value p)
  | DeltaOpQueuePush n p => DeltaOpQueuePush n (blank_value p) | DeltaOpNodeAdd n t s k => DeltaOpNodeAdd n t (blank_state s) k
  | _ => o
  end.
Definition node_sites (n : NodeSnapshot) : list IpcValue := state_site (ns_State n).
Definition blank_node (n : NodeSnapshot) : NodeSnapshot := mkNodeSnapshot (ns_Node n) (TypeTag n) (blank_state (ns_State n)) (ns_Key n).
Definition crdt_sites (o : CrdtOp) : list IpcValue := [State o].
Definition blank_crdt (o : CrdtOp) : CrdtOp := mkOp (Node o) (Key o) (Stamp o) (blank_value (State o)).
Definition sites (m : IpcMessage) : list IpcValue :=
  match m with
  | IpcMessageSnapshot s => concat (map node_sites (Nodes s)) | IpcMessageDelta d => concat (map op_sites (d_Ops d))
  | IpcMessageCrdtSync c => concat (map crdt_sites (Ops c)) | _ => []
  end.
Definition blank (m : IpcMessage) : IpcMessage :=
  match m with
  | IpcMessageSnapshot s => IpcMessageSnapshot (mkSnapshot (s_Epoch s) (map blank_node (Nodes s)) (Edges s) (Roots s))
  | IpcMessageDelta d => IpcMessageDelta (mkDelta (BaseEpoch d) (d_Epoch d) (map blank_op (d_Ops d)))
  | IpcMessageCrdtSync c => IpcMessageCrdtSync (mkSync (Frontier c) (map blank_crdt (Ops c))) | _ => m
  end.
(** The bytes a value carries itself. *)
Definition inline_size (v : IpcValue) : Z := match v with IpcValueInline b => Z.of_nat (length b) | _ => 0 end.
Definition inline_total (vs : list IpcValue) : Z := foldr (λ v n, inline_size v + n) 0 vs.
Lemma inline_total_app xs ys : inline_total (xs ++ ys) = inline_total xs + inline_total ys.
Proof. unfold inline_total. induction xs as [|x xs IH]; simpl; lia. Qed.

Section laws.
Context `{BlobBackend B}.
Implicit Types b : B.

(** The backend holds what a value refers to. *)
Definition held b (v : IpcValue) : Prop :=
  match v with IpcValueInline _ => True | IpcValueSharedBlob r => issued b r ∧ Backend r = bb_Kind b ∧ ∃ x, bb_ReadView b r = Seen x end.
Definition keeps b b' : Prop := bb_Kind b' = bb_Kind b ∧ ∀ r x, issued b r → bb_ReadView b r = Seen x → issued b' r ∧ bb_ReadView b' r = Seen x.
Lemma backend_keeps_refl b : keeps b b.
Proof. by split. Qed.
Lemma keeps_trans b1 b2 b3 : keeps b1 b2 → keeps b2 b3 → keeps b1 b3.
Proof. intros [K1 H1] [K2 H2]. split; [congruence|]. intros r x Hi Hr. destruct (H1 r x Hi Hr). by apply H2. Qed.
Lemma held_keeps b b' v : keeps b b' → held b v → held b' v ∧ ResolveValue v b' = ResolveValue v b.
Proof.
  intros [Kk Hk] Hh. destruct v as [x|r]; [done|]. destruct Hh as (Hi & Hkd & x & Hr). destruct (Hk r x Hi Hr) as [Hi' Hr']. simpl. rewrite Hr, Hr'. split; [|done].
  split_and!; [done|congruence|by exists x].
Qed.
Lemma helds_keep b b' vs : keeps b b' → Forall (held b) vs → Forall (held b') vs ∧ map (λ v, ResolveValue v b') vs = map (λ v, ResolveValue v b) vs.
Proof.
  intros Hk Hh. induction Hh as [|v vs Hv _ [IH1 IH2]]; [done|]. destruct (held_keeps b b' v Hk Hv) as [H1 H2]. split; [by constructor|]. simpl. by rewrite H2, IH2.
Qed.

(** What it takes of a traversal [f] of things with sites [sts]. *)
Definition spills {A} (sts : A → list IpcValue) (bl : A → A) (f : A → B → A * Z * B) : Prop :=
  ∀ a b a' n b', sound b → Forall (held b) (sts a) → f a b = (a', n, b') →
    sound b' ∧ keeps b b' ∧ Forall (held b') (sts a') ∧
    map (λ v, ResolveValue v b') (sts a') = map (λ v, ResolveValue v b) (sts a) ∧ bl a' = bl a ∧ inline_total (sts a) = inline_total (sts a') + n.

Lemma spills_nothing {A} (sts : A → list IpcValue) bl a b a' n b' : sound b → Forall (held b) (sts a) → (a, 0, b) = (a', n, b') →
  sound b' ∧ keeps b b' ∧ Forall (held b') (sts a') ∧ map (λ v, ResolveValue v b') (sts a') = map (λ v, ResolveValue v b) (sts a) ∧ bl a' = (bl a : A) ∧
  inline_total (sts a) = inline_total (sts a') + n.
Proof. intros Hs Hh [= <- <- <-]. refine (conj Hs (conj (backend_keeps_refl _) (conj Hh (conj eq_refl (conj eq_refl _))))). lia. Qed.
(** A write that takes the bytes of a site, or refuses them. *)
Lemma write_site b bytes b' ro : sound b → bb_Write b bytes = (b', ro) →
  sound b' ∧ keeps b b' ∧ ∀ ref, ro = Some ref → held b' (IpcValueSharedBlob ref) ∧ bb_ReadView b' ref = Seen bytes.
Proof.
  intros Hs Hw. pose proof (write_sound b bytes Hs) as H1. pose proof (write_kind b bytes) as H2. rewrite Hw in H1, H2. cbn [fst] in H1, H2. split; [done|]. split.
  - split; [done|]. intros r x Hi Hr. pose proof (write_keeps b bytes r x Hs Hi Hr) as H3. by rewrite Hw in H3.
  - intros ref ->. destruct (write_resolves b bytes b' ref Hs Hw) as (Hr & Hi & Hk). split; [|done]. split_and!; [done|done|by exists bytes].
Qed.
Lemma SpillValue_spills th : spills (λ v, [v]) blank_value (λ v b, SpillValue v b th).
Proof.
  intros v b v' n b' Hs Hh Hf. unfold SpillValue in Hf. destruct v as [bytes|r]; [|by apply (spills_nothing (λ v, [v]) blank_value (IpcValueSharedBlob r))].
  destruct (Z.of_nat (length bytes) <? th); [by apply (spills_nothing (λ v, [v]) blank_value (IpcValueInline bytes))|].
  destruct (bb_Write b bytes) as [b1 ro] eqn:Hw. destruct (write_site b bytes b1 ro Hs Hw) as (Hs1 & Hk & Hro).
  destruct ro as [ref|]; injection Hf as <- <- <-.
  - destruct (Hro ref eq_refl) as [Hh' Hv]. split_and!; [done|done|by apply Forall_singleton|simpl; by rewrite Hv|done|simpl; lia].
  - split_and!; [done|done|by apply Forall_singleton|done|done|simpl; lia].
Qed.
Lemma spillState_spills th : spills state_site blank_state (λ s b, spillState s b th).
Proof.
  intros s b s' n b' Hs Hh Hf. unfold spillState in Hf. destruct s as [bytes|r|]; [|by apply (spills_nothing state_site blank_state (NodeStateSharedBlob r))|
    by apply (spills_nothing state_site blank_state NodeStateOpaque)].
  destruct (Z.of_nat (length bytes) <? th); [by apply (spills_nothing state_site blank_state (NodeStatePayload bytes))|].
  destruct (bb_Write b bytes) as [b1 ro] eqn:Hw. destruct (write_site b bytes b1 ro Hs Hw) as (Hs1 & Hk & Hro).
  destruct ro as [ref|]; injection Hf as <- <- <-.
  - destruct (Hro ref eq_refl) as [Hh' Hv]. split_and!; [done|done|by apply Forall_singleton|simpl; by rewrite Hv|done|simpl; lia].
  - split_and!; [done|done|by apply Forall_singleton|done|done|simpl; lia].
Qed.
(** The same traversal seen through a constructor. *)
Lemma spills_under {A C} (sts : A → list IpcValue) bl f (sts' : C → list IpcValue) (bl' : C → C) (inj : A → C) a b c n b' :
  spills sts bl f → sound b → Forall (held b) (sts a) → (let '(x, k, b1) := f a b in (inj x, k, b1)) = (c, n, b') →
  (∀ x, sts' (inj x) = sts x) → (∀ x y, bl x = bl y → bl' (inj x) = bl' (inj y)) →
  sound b' ∧ keeps b b' ∧ Forall (held b') (sts' c) ∧ map (λ v, ResolveValue v b') (sts' c) = map (λ v, ResolveValue v b) (sts' (inj a)) ∧
  bl' c = bl' (inj a) ∧ inline_total (sts' (inj a)) = inline_total (sts' c) + n.
Proof.
  intros Hf Hs Hh Hc Hsts Hbl. destruct (f a b) as [[x k] b1] eqn:Ef. injection Hc as <- <- <-.
  destruct (Hf a b x k b1 Hs Hh Ef) as (H1 & H2 & H3 & H4 & H5 & H6). rewrite !Hsts. split_and!; try done. by apply Hbl.
Qed.
Lemma op_spills th : spills op_sites blank_op (spill_op th).
Proof.
  intros o b o' n b' Hs Hh Hf. destruct o as [k p|k p|k|k t s ky|k|x y|x y|k p|k|k]; cbn [spill_op] in Hf;
    try (eapply (spills_nothing op_sites blank_op); [exact Hs| |exact Hf]; exact Hh).
  - eapply (spills_under _ _ _ op_sites blank_op (DeltaOpCellSet k)); [apply SpillValue_spills|done|done|exact Hf|done|done].
  - eapply (spills_under _ _ _ op_sites blank_op (DeltaOpSlotValue k)); [apply SpillValue_spills|done|done|exact Hf|done|done].
  - eapply (spills_under _ _ _ op_sites blank_op (λ s, DeltaOpNodeAdd k t s ky)); [apply spillState_spills|done|done|exact Hf|done|].
    intros x y Hxy. simpl. by rewrite Hxy.
  - eapply (spills_under _ _ _ op_sites blank_op (DeltaOpQueuePush k)); [apply SpillValue_spills|done|done|exact Hf|done|done].
Qed.
Lemma node_spills th : spills node_sites blank_node (spill_node th).
Proof.
  intros [k t s ky] b o' n b' Hs Hh Hf. unfold spill_node in Hf. cbn [ns_Node TypeTag ns_State ns_Key] in *.
  eapply (spills_under _ _ _ node_sites blank_node (λ s, mkNodeSnapshot k t s ky)); [apply spillState_spills|done|done|exact Hf|done|].
  intros x y Hxy. unfold blank_node. simpl. by rewrite Hxy.
Qed.
Lemma crdt_spills th : spills crdt_sites blank_crdt (spill_crdt th).
Proof.
  intros [k ky st v] b o' n b' Hs Hh Hf. unfold spill_crdt in Hf. cbn [Node Key Stamp State] in *.
  eapply (spills_under _ _ _ crdt_sites blank_crdt (λ v, mkOp k ky st v)); [apply SpillValue_spills|done|done|exact Hf|done|done].
Qed.
Lemma all_spills {A} (sts : A → list IpcValue) bl f : spills sts bl f → spills (λ l, concat (map sts l)) (map bl) (spill_all f).
Proof.
  intros Hf l. induction l as [|x l IH]; intros b l' n b' Hs Hh Hl; cbn [spill_all map concat] in *.
  - by apply (spills_nothing (λ l, concat (map sts l)) (map bl) []).
  - apply Forall_app in Hh as [Hx Hh]. destruct (f x b) as [[x' k] b1] eqn:Ef. destruct (spill_all f l b1) as [[l1 m] b2] eqn:El. injection Hl as <- <- <-.
    destruct (Hf x b x' k b1 Hs Hx Ef) as (Hs1 & Hk1 & Hh1 & Hr1 & Hb1 & Ht1).
    destruct (helds_keep b b1 _ Hk1 Hh) as [Hh' Hr']. destruct (IH b1 l1 m b2 Hs1 Hh' El) as (Hs2 & Hk2 & Hh2 & Hr2 & Hb2 & Ht2).
    destruct (helds_keep b1 b2 _ Hk2 Hh1) as [Hh1' Hr1']. cbn [map concat]. rewrite !map_app, !inline_total_app.
    split_and!; [done|by eapply keeps_trans|by apply Forall_app|rewrite Hr1', Hr1, Hr2, Hr'; done|by rewrite Hb1, Hb2|lia].
Qed.

(** Spilling a message to any backend that keeps the contract changes nothing
    but where the bytes are: every value resolves against the backend to what it was,
    what is no value is untouched, the number returned is the number of bytes the
    message no longer carries, and every descriptor issued before still resolves to
    the same bytes. *)
Theorem Spill_preserves_contents m (b : B) th (Hs : sound b) (Hh : Forall (held b) (sites m)) :
  let '(m', n, b') := SpillMessage m b th in
  map (λ v, ResolveValue v b') (sites m') = map (λ v, ResolveValue v b) (sites m) ∧
  blank m' = blank m ∧ inline_total (sites m) = inline_total (sites m') + n ∧
  sound b' ∧ ∀ r x, issued b r → bb_ReadView b r = Seen x → bb_ReadView b' r = Seen x.
Proof.
  assert (∀ {A} (sts : A → list IpcValue) bl f l, spills sts bl f → Forall (held b) (concat (map sts l)) →
    let '(l', n, b') := spill_all f l b in
    map (λ v, ResolveValue v b') (concat (map sts l')) = map (λ v, ResolveValue v b) (concat (map sts l)) ∧ map bl l' = map bl l ∧
    inline_total (concat (map sts l)) = inline_total (concat (map sts l')) + n ∧ sound b' ∧
    ∀ r x, issued b r → bb_ReadView b r = Seen x → bb_ReadView b' r = Seen x) as Hall.
  { intros A sts bl f l Hf Hl. destruct (spill_all f l b) as [[l' n] b'] eqn:E.
    destruct (all_spills sts bl f Hf l b l' n b' Hs Hl E) as (H1 & [_ H2] & _ & H3 & H4 & H5). split_and!; try done. intros r x Hi Hr. by apply H2. }
  destruct m as [s|d|c|e|e]; cbn [SpillMessage sites] in *.
  - pose proof (Hall _ _ _ _ _ (node_spills th) Hh) as Hx. destruct (spill_all _ _ b) as [[l n] b']. destruct Hx as (H1 & H2 & H3 & H4 & H5).
    split_and!; try done. cbn [blank s_Epoch Nodes Edges Roots]. by rewrite H2.
  - pose proof (Hall _ _ _ _ _ (op_spills th) Hh) as Hx. destruct (spill_all _ _ b) as [[l n] b']. destruct Hx as (H1 & H2 & H3 & H4 & H5).
    split_and!; try done. cbn [blank BaseEpoch d_Epoch d_Ops]. by rewrite H2.
  - pose proof (Hall _ _ _ _ _ (crdt_spills th) Hh) as Hx. destruct (spill_all _ _ b) as [[l n] b']. destruct Hx as (H1 & H2 & H3 & H4 & H5).
    split_and!; try done. cbn [blank Frontier Ops]. by rewrite H2.
  - by split_and!.
  - by split_and!.
Qed.
End laws.

Definition big_delta : IpcMessage := IpcMessageDelta (mkDelta 4 5 [DeltaOpCellSet 7 (IpcValueInline [1; 2; 3; 4]); DeltaOpQueuePush 9 (IpcValueInline [5])]).
Lemma Spill_preserves_contents_witness :
  let '(m', n, b') := SpillMessage big_delta NewInProcessBackend 2 in
  n = 4 ∧ m' ≠ big_delta ∧ map (λ v, ResolveValue v b') (sites m') = [Seen [1; 2; 3; 4]; Seen [5]].
Proof.
  destruct (SpillMessage big_delta NewInProcessBackend 2) as [[m' n] b'] eqn:E.
  assert (Forall (held NewInProcessBackend) (sites big_delta)) as Hh by (repeat apply Forall_cons_2; by try apply Forall_nil_2).
  assert (sound NewInProcessBackend) as Hs by (intros e []%not_elem_of_nil).
  pose proof (Spill_preserves_contents big_delta NewInProcessBackend 2 Hs Hh) as H. rewrite E in H. destruct H as (H & _).
  split; [|split; [|exact H]]; vm_compute in E; injection E as <- <- <-; done.
Defined.

(** ** Routing *)

Definition registers (bs : list AnyBackend) (r : BlobRouter) : option BlobRouter := foldl (λ acc b, r ← acc; Register r b) (Some r) bs.
(** The last backend of a kind. *)
Definition last_of (k : BlobBackendKind) (bs : list AnyBackend) : option AnyBackend :=
  foldl (λ acc b, if decide (Normalized (any_Kind b) = k) then Some b else acc) None bs.
Lemma routerIndex_inj k k' i : routerIndex k = Some i → routerIndex k' = Some i ↔ Normalized k' = Normalized k.
Proof.
  unfold routerIndex. intros Hk. split.
  - intros Hk'. repeat case_decide; simplify_eq; congruence.
  - intros ->. done.
Qed.
(** A descriptor resolves against the last backend registered under its own kind and
    against no other; a kind no build knows resolves to nothing, and registering it
    panics. *)
Lemma Router_resolves_by_kind bs : 
  (registers bs NewBlobRouter = None ↔ Exists (λ b, IsKnown (any_Kind b) = false) bs) ∧
  ∀ r ref, registers bs NewBlobRouter = Some r →
    Router_ReadView r ref = match (if IsKnown (Backend ref) then last_of (Normalized (Backend ref)) bs else None) with Some b => any_ReadView b ref | None => Unresolved end.
Proof.
  assert (∀ k, IsKnown k = true ↔ is_Some (routerIndex k)) as Hknown.
  { intros k. unfold IsKnown, routerIndex. cbn [existsb]. rewrite !orb_true_iff, !bool_decide_eq_true. split.
    - intros [Hk|[Hk|[Hk|?]]]; [| | |done]; repeat case_decide; (eapply mk_is_Some; reflexivity) || congruence.
    - intros [i Hi]. repeat case_decide; tauto || done. }
  assert (∀ k, IsKnown k = false ↔ routerIndex k = None) as Hunknown.
  { intros k. specialize (Hknown k). rewrite <- not_true_iff_false, Hknown. symmetry. apply eq_None_not_Some. }
  induction bs as [|b bs IH] using rev_ind.
  - split; [split; [done|intros He; by apply Exists_nil in He]|]. intros r ref [= <-]. unfold Router_ReadView, NewBlobRouter. cbn [backends last_of foldl].
    destruct (routerIndex (Backend ref)); [rewrite lookup_empty|]; by destruct (IsKnown (Backend ref)).
  - destruct IH as [IH1 IH2]. unfold registers, last_of in *. rewrite foldl_app. cbn [foldl]. rewrite Exists_app, Exists_cons, Exists_nil.
    destruct (foldl _ (Some NewBlobRouter) bs) as [r0|]; cbn [mbind option_bind].
    + unfold Register. destruct (routerIndex (any_Kind b)) as [i|] eqn:Ei; cbn [mbind option_bind].
      * split; [split; [done|]|].
        { intros [He|[He|[]]]; [by apply IH1 in He|]. apply Hunknown in He. congruence. }
        intros r ref [= <-]. unfold Router_ReadView in *. cbn [backends]. rewrite foldl_app. cbn [foldl]. specialize (IH2 r0 ref eq_refl).
        destruct (routerIndex (Backend ref)) as [j|] eqn:Ej.
        -- assert (IsKnown (Backend ref) = true) as Hkn by (apply Hknown; rewrite Ej; eapply mk_is_Some; reflexivity). rewrite Hkn in *. destruct (decide (i = j)) as [->|Hne].
           ++ rewrite lookup_insert_eq. rewrite decide_True; [done|]. by apply (routerIndex_inj _ _ _ Ej).
           ++ rewrite lookup_insert_ne by done. rewrite decide_False; [done|]. intros Heq. apply Hne.
              apply (routerIndex_inj _ _ _ Ej) in Heq. congruence.
        -- assert (IsKnown (Backend ref) = false) as Hkn by (by apply Hunknown). by rewrite Hkn.
      * split; [|done]. split; [|done]. intros _. right. left. by apply Hunknown.
    + split; [|done]. split; [|done]. intros _. left. by apply IH1.
Qed.

(** What is spilled cannot always be sent: a descriptor whose checksum is negative is
    encoded and then refused by the decoder, and half of all payloads have one. *)
Lemma spilled_frame_refused : let '(m, _, _) := SpillMessage (IpcMessageDelta (mkDelta 0 1 [DeltaOpCellSet 7 (IpcValueInline [0])])) NewInProcessBackend 1 in
  (∃ t, EncodeJSON m = Some t ∧ IpcMessageFromWire (norm t) = None) ∧ ∃ bs, EncodeMsgpack m = inl bs ∧ DecodeMsgpack bs = inr Refused.
Proof.
  destruct (SpillMessage _ _ _) as [[m n] b'] eqn:E. assert (m = (SpillMessage (IpcMessageDelta (mkDelta 0 1 [DeltaOpCellSet 7 (IpcValueInline [0])])) NewInProcessBackend 1).1.1) as -> by (by rewrite E).
  clear E. split; (eexists; split; [vm_compute; reflexivity|vm_compute; reflexivity]).
Qed.
