(* ===== verification/Permissions.v ===== *)
(** * Permissions: the permission boundary and the transition helpers (ipc.go)

    Who may do what is a map from peers to kinds to nodes, default deny.  A frame for
    a peer is filtered by omission.  The kinds are an open string type. *)

From S2P Require Import Prelude Hlc MsgpackCodec Distributed Wire.
Local Open Scope Z_scope.

(** ** Grants *)

Abbreviation OpKind := string.
(** [ipc.go] [lines 899-910 OpKind] *)
Definition OpKindRead : OpKind := "read".
Definition OpKindWrite : OpKind := "write".
Definition OpKindTriggerEffect : OpKind := "trigger_effect".
(** [ipc.go] [type RemoteOp] *)
Record RemoteOp := mkRemote { Kind : OpKind; o_Node : Z }.
(** [ipc.go] [ReadOp] *)
Definition ReadOp (node : Z) : RemoteOp := mkRemote OpKindRead node.
(** [ipc.go] [WriteOp] *)
Definition WriteOp (node : Z) : RemoteOp := mkRemote OpKindWrite node.
(** [ipc.go] [TriggerEffectOp] *)
Definition TriggerEffectOp (node : Z) : RemoteOp := mkRemote OpKindTriggerEffect node.

Abbreviation ByKind := (gmap string (gset Z)).
(** A nil map reads as an empty one.
    [ipc.go] [type PeerPermissions] *)
Record PeerPermissions := mkPerms { peers : gmap PeerId ByKind }.
(** [ipc.go] [NewPeerPermissions] *)
Definition NewPeerPermissions : PeerPermissions := mkPerms ∅.
(** [ipc.go] [PeerPermissions.Allow] *)
Definition Allow (p : PeerPermissions) (peer : PeerId) (op : RemoteOp) : PeerPermissions * bool :=
  let byKind := default ∅ (peers p !! peer) in
  let nodes := default ∅ (byKind !! Kind op) in
  if decide (o_Node op ∈ nodes) then (mkPerms (<[peer := <[Kind op := nodes]> byKind]> (peers p)), false)
  else (mkPerms (<[peer := <[Kind op := {[o_Node op]} ∪ nodes]> byKind]> (peers p)), true).
(** [ipc.go] [PeerPermissions.AllowMany] *)
Definition AllowMany (p : PeerPermissions) (peer : PeerId) (kind : OpKind) (nodes : list Z) : PeerPermissions :=
  let byKind := default ∅ (peers p !! peer) in
  let s := default ∅ (byKind !! kind) in
  mkPerms (<[peer := <[kind := foldl (λ s n, {[n]} ∪ s) s nodes]> byKind]> (peers p)).
(** [ipc.go] [PeerPermissions.prune] *)
Definition prune (p : PeerPermissions) (peer : PeerId) : PeerPermissions :=
  match peers p !! peer with
  | None => p
  | Some byKind =>
      let byKind := filter (λ e : string * gset Z, e.2 ≠ ∅) byKind in
      if decide (byKind = ∅) then mkPerms (delete peer (peers p)) else mkPerms (<[peer := byKind]> (peers p))
  end.
(** [ipc.go] [PeerPermissions.Revoke] *)
Definition Revoke (p : PeerPermissions) (peer : PeerId) (op : RemoteOp) : PeerPermissions * bool :=
  match peers p !! peer with
  | None => (p, false)
  | Some byKind =>
      match byKind !! Kind op with
      | None => (p, false)
      | Some nodes =>
          if decide (o_Node op ∈ nodes) then (prune (mkPerms (<[peer := <[Kind op := nodes ∖ {[o_Node op]}]> byKind]> (peers p))) peer, true)
          else (p, false)
      end
  end.
(** [ipc.go] [PeerPermissions.RevokePeer] *)
Definition RevokePeer (p : PeerPermissions) (peer : PeerId) : PeerPermissions * bool :=
  match peers p !! peer with None => (p, false) | Some _ => (mkPerms (delete peer (peers p)), true) end.
(** [ipc.go] [PeerPermissions.IsAllowed] *)
Definition IsAllowed (p : PeerPermissions) (peer : PeerId) (op : RemoteOp) : bool :=
  match peers p !! peer with
  | None => false
  | Some byKind => match byKind !! Kind op with None => false | Some nodes => bool_decide (o_Node op ∈ nodes) end
  end.
(** [ipc.go] [PeerPermissions.CanRead] *)
Definition CanRead (p : PeerPermissions) (peer : PeerId) (node : Z) : bool := IsAllowed p peer (ReadOp node).
(** [ipc.go] [type PermissionDenied] *)
Record PermissionDenied := mkDenied { pd_Peer : PeerId; pd_Op : RemoteOp }.
(** A nil error is [None].
    [ipc.go] [PeerPermissions.Check] *)
Definition Check_ (p : PeerPermissions) (peer : PeerId) (op : RemoteOp) : option PermissionDenied :=
  if IsAllowed p peer op then None else Some (mkDenied peer op).
(** [ipc.go] [PeerPermissions.FilterReadable] *)
Definition FilterReadable (p : PeerPermissions) (peer : PeerId) (nodes : list Z) : list Z := base.filter (λ n, CanRead p peer n = true) nodes.
(** [ipc.go] [PeerPermissions.PeerCount] *)
Definition PeerCount (p : PeerPermissions) : nat := size (peers p).

(** ** Filtered frames *)

(** [ipc.go] [EdgeSnapshot.IsReadableBy] *)
Definition IsReadableBy (e : EdgeSnapshot) (p : PeerPermissions) (peer : PeerId) : bool := CanRead p peer (Dependent e) && CanRead p peer (Dependency e).
(** [ipc.go] [Snapshot.FilterReadable] *)
Definition Snapshot_FilterReadable (s : Snapshot) (p : PeerPermissions) (peer : PeerId) : Snapshot :=
  mkSnapshot (s_Epoch s) (base.filter (λ n, CanRead p peer (ns_Node n) = true) (Nodes s)) (base.filter (λ e, IsReadableBy e p peer = true) (Edges s))
    (FilterReadable p peer (Roots s)).
(** [ipc.go] [lines 495-533 DeltaOp.TargetReadable] *)
Definition DeltaOp_TargetReadable (o : DeltaOp) (p : PeerPermissions) (peer : PeerId) : bool :=
  match o with
  | DeltaOpCellSet n _ | DeltaOpSlotValue n _ | DeltaOpInvalidate n | DeltaOpNodeAdd n _ _ _ | DeltaOpNodeRemove n
  | DeltaOpQueuePush n _ | DeltaOpQueuePop n | DeltaOpQueueClose n => CanRead p peer n
  | DeltaOpEdgeAdd a b | DeltaOpEdgeRemove a b => CanRead p peer a && CanRead p peer b
  end.
(** [ipc.go] [Delta.FilterReadable] *)
Definition Delta_FilterReadable (d : Delta) (p : PeerPermissions) (peer : PeerId) : Delta :=
  mkDelta (BaseEpoch d) (d_Epoch d) (base.filter (λ o, DeltaOp_TargetReadable o p peer = true) (d_Ops d)).
(** [ipc.go] [CrdtOp.TargetReadable] *)
Definition CrdtOp_TargetReadable (o : CrdtOp) (p : PeerPermissions) (peer : PeerId) : bool := CanRead p peer (Node o).
(** [ipc.go] [CrdtSync.FilterReadable] *)
Definition CrdtSync_FilterReadable (c : CrdtSync) (p : PeerPermissions) (peer : PeerId) : CrdtSync :=
  mkSync (Frontier c) (base.filter (λ o, CrdtOp_TargetReadable o p peer = true) (Ops c)).

(** ** Epochs *)

(** [ipc.go] [DeltaNext] *)
Definition DeltaNext (baseEpoch : Z) (ops : list DeltaOp) : Delta := mkDelta baseEpoch (baseEpoch +ₛ 1)%go ops.
(** [ipc.go] [Delta.IsNextAfter] *)
Definition IsNextAfter (d : Delta) (lastEpoch : Z) : bool := (BaseEpoch d =? lastEpoch) && (d_Epoch d =? (BaseEpoch d +ₛ 1)%go).
(** [ipc.go] [lines 539-566 DeltaApplyStatus] *)
Inductive DeltaApplyStatus := DeltaApplyStatusApply (NewEpoch : Z) | DeltaApplyStatusResyncRequired (LastEpoch BaseEpoch Epoch : Z).
(** [ipc.go] [Delta.ApplyStatus] *)
Definition ApplyStatus (d : Delta) (lastEpoch : Z) : DeltaApplyStatus :=
  if IsNextAfter d lastEpoch then DeltaApplyStatusApply (d_Epoch d) else DeltaApplyStatusResyncRequired lastEpoch (BaseEpoch d) (d_Epoch d).

(** ** Values and transition helpers *)

(** What [IpcValueOf] takes: a value, a descriptor, bytes, or ints. *)
Inductive Coercible := C_Value (v : IpcValue) | C_Ref (r : ShmBlobRef) | C_Bytes (b : list Z) | C_Ints (l : list Z) | C_Other.
(** [ipc.go] [IpcValueOf] *)
Definition IpcValueOf (c : Coercible) : option IpcValue :=
  match c with
  | C_Value v => Some v | C_Ref r => Some (IpcValueSharedBlob r) | C_Bytes b => Some (IpcValueInline b)
  | C_Ints l => if forallb (λ v, negb ((v <? 0) || (255 <? v))) l then Some (IpcValueInline l) else None
  | C_Other => None
  end.
(** A nil interface is [None].
    [ipc.go] [ipcValueEqual] *)
Definition ipcValueEqual (a b : option IpcValue) : bool :=
  match a, b with
  | Some (IpcValueInline x), Some (IpcValueInline y) => bool_decide (x = y)
  | Some (IpcValueSharedBlob x), Some (IpcValueSharedBlob y) => bool_decide (x = y)
  | None, None => true
  | _, _ => false
  end.
(** [ipc.go] [CellSetOps] *)
Definition CellSetOps (node : Z) (old new : IpcValue) : list DeltaOp := if ipcValueEqual (Some old) (Some new) then [] else [DeltaOpCellSet node new].
(** [ipc.go] [DownstreamInvalidations] *)
Definition DownstreamInvalidations (downstream : list Z) : list DeltaOp := map DeltaOpInvalidate downstream.
(** [ipc.go] [MemoOps] *)
Definition MemoOps (node : Z) (old new : IpcValue) (downstream : list Z) : list DeltaOp :=
  if ipcValueEqual (Some old) (Some new) then [] else DeltaOpSlotValue node new :: DownstreamInvalidations downstream.
(** [ipc.go] [SignalOps] *)
Definition SignalOps (node : Z) (old new : IpcValue) : list DeltaOp := if ipcValueEqual (Some old) (Some new) then [] else [DeltaOpSlotValue node new].
(** [ipc.go] [dedupNodes] *)
Fixpoint dedup_ (seen : gset Z) (nodes : list Z) : list Z :=
  match nodes with [] => [] | n :: nodes => if decide (n ∈ seen) then dedup_ seen nodes else n :: dedup_ ({[n]} ∪ seen) nodes end.
Definition dedupNodes (nodes : list Z) : list Z := dedup_ ∅ nodes.
(** [ipc.go] [type BatchFlush] *)
Record BatchFlush := mkFlush { ChangedCells : list Z; bf_Frontier : list Z; bf_Ops : list DeltaOp }.
(** [ipc.go] [NewBatchFlush] *)
Definition NewBatchFlush (changed frontier : list Z) : BatchFlush := let d := dedupNodes frontier in mkFlush changed d (DownstreamInvalidations d).
(** [ipc.go] [BatchFlush.ToDelta] *)
Definition ToDelta (b : BatchFlush) (baseEpoch : Z) : Delta := DeltaNext baseEpoch (bf_Ops b).

(** ** The set of grants *)

Definition nodes_of (p : PeerPermissions) (peer : PeerId) (kind : OpKind) : gset Z := default ∅ (default ∅ (peers p !! peer) !! kind).
Lemma IsAllowed_nodes p peer op : IsAllowed p peer op = bool_decide (o_Node op ∈ nodes_of p peer (Kind op)).
Proof.
  unfold IsAllowed, nodes_of. destruct (peers p !! peer) as [bk|]; cbn [default from_option id].
  - destruct (bk !! Kind op); cbn [default from_option id]; [done|]. by rewrite bool_decide_false by apply not_elem_of_empty.
  - rewrite lookup_empty. cbn [default from_option]. by rewrite bool_decide_false by apply not_elem_of_empty.
Qed.
Lemma nodes_of_put m peer bk kind s q k :
  nodes_of (mkPerms (<[peer := <[kind := s]> bk]> m)) q k =
    if decide (q = peer) then (if decide (k = kind) then s else default ∅ (bk !! k)) else nodes_of (mkPerms m) q k.
Proof.
  unfold nodes_of. cbn [peers]. destruct (decide (q = peer)) as [->|Hq]; [rewrite lookup_insert_eq|by rewrite lookup_insert_ne by done].
  cbn [default from_option id]. destruct (decide (k = kind)) as [->|Hk]; [by rewrite lookup_insert_eq|by rewrite lookup_insert_ne by done].
Qed.
Lemma nodes_of_prune p peer q k : nodes_of (prune p peer) q k = nodes_of p q k.
Proof.
  unfold prune. destruct (peers p !! peer) as [bk|] eqn:Eb; [|done].
  assert (∀ k, default ∅ (filter (λ e : string * gset Z, e.2 ≠ ∅) bk !! k) = default ∅ (bk !! k)) as Hf.
  { intros k0. destruct (bk !! k0) as [s|] eqn:Es.
    - destruct (decide (s = ∅)) as [->|Hs]; [|by rewrite (map_lookup_filter_Some_2 _ _ _ s Es Hs)].
      rewrite map_lookup_filter_None_2; [done|]. right. intros x Hx Hne. rewrite Es in Hx. injection Hx as <-. by apply Hne.
    - by rewrite map_lookup_filter_None_2 by (by left). }
  case_decide as He; unfold nodes_of; cbn [peers]; (destruct (decide (q = peer)) as [->|Hq]; [rewrite Eb|by rewrite ?lookup_delete_ne, ?lookup_insert_ne by done]).
  - rewrite lookup_delete_eq. cbn [default from_option id]. pose proof (Hf k) as H. rewrite He in H. exact H.
  - rewrite lookup_insert_eq. cbn [default from_option id]. exact (Hf k).
Qed.

(** One change of the grants. *)
Inductive pop := P_Allow (peer : PeerId) (op : RemoteOp) | P_AllowMany (peer : PeerId) (kind : OpKind) (nodes : list Z) | P_Revoke (peer : PeerId) (op : RemoteOp)
| P_RevokePeer (peer : PeerId).
Definition pstep (p : PeerPermissions) (o : pop) : PeerPermissions :=
  match o with
  | P_Allow peer op => (Allow p peer op).1 | P_AllowMany peer kind nodes => AllowMany p peer kind nodes | P_Revoke peer op => (Revoke p peer op).1
  | P_RevokePeer peer => (RevokePeer p peer).1
  end.
Definition prun (ops : list pop) : PeerPermissions := foldl pstep NewPeerPermissions ops.
(** The specification: a set of triples. *)
Definition grants : Type := gset (PeerId * OpKind * Z).
Definition gstep (g : grants) (o : pop) : grants :=
  match o with
  | P_Allow peer op => {[(peer, Kind op, o_Node op)]} ∪ g
  | P_AllowMany peer kind nodes => list_to_set (map (λ n, (peer, kind, n)) nodes) ∪ g
  | P_Revoke peer op => g ∖ {[(peer, Kind op, o_Node op)]}
  | P_RevokePeer peer => filter (λ x, x.1.1 ≠ peer) g
  end.
Definition grun (ops : list pop) : grants := foldl gstep ∅ ops.
Definition peers_of (g : grants) : gset PeerId := set_map (λ x, x.1.1) g.
Definition means (p : PeerPermissions) (g : grants) : Prop := ∀ peer kind n, n ∈ nodes_of p peer kind ↔ (peer, kind, n) ∈ g.

Lemma foldl_add s nodes n : n ∈ foldl (λ s n, {[n]} ∪ s) s nodes ↔ n ∈ nodes ∨ n ∈ (s : gset Z).
Proof.
  revert s. induction nodes as [|x nodes IH]; intros s; cbn [foldl]; [rewrite elem_of_nil; tauto|]. rewrite IH, elem_of_cons, elem_of_union, elem_of_singleton. tauto.
Qed.
Lemma Allow_nodes p peer op q k : nodes_of (Allow p peer op).1 q k = if decide (q = peer ∧ k = Kind op) then {[o_Node op]} ∪ nodes_of p q k else nodes_of p q k.
Proof.
  assert (∀ s, nodes_of (mkPerms (<[peer := <[Kind op := s]> (default ∅ (peers p !! peer))]> (peers p))) q k =
    if decide (q = peer ∧ k = Kind op) then s else nodes_of p q k) as Hput.
  { intros s. rewrite nodes_of_put. destruct (decide (q = peer)) as [->|Hq]; [|by rewrite decide_False by tauto].
    destruct (decide (k = Kind op)) as [->|Hk]; [by rewrite decide_True|by rewrite decide_False by tauto]. }
  unfold Allow. fold (nodes_of p peer (Kind op)). destruct (decide (o_Node op ∈ nodes_of p peer (Kind op))) as [Hn|Hn]; cbn [fst]; rewrite Hput; destruct (decide (q = peer ∧ k = Kind op)) as [[-> ->]|]; try done.
  apply set_eq. intros x. rewrite elem_of_union, elem_of_singleton. split; [by right|by intros [->|]].
Qed.
Lemma AllowMany_nodes p peer kind nodes q k n : n ∈ nodes_of (AllowMany p peer kind nodes) q k ↔ (q = peer ∧ k = kind ∧ n ∈ nodes) ∨ n ∈ nodes_of p q k.
Proof.
  unfold AllowMany. rewrite nodes_of_put. fold (nodes_of p peer kind). destruct (decide (q = peer)) as [->|Hq]; [|tauto].
  destruct (decide (k = kind)) as [->|Hk]; [rewrite foldl_add; tauto|]. fold (nodes_of p peer k). tauto.
Qed.
Lemma Revoke_nodes p peer op q k n : n ∈ nodes_of (Revoke p peer op).1 q k ↔ n ∈ nodes_of p q k ∧ ¬ (q = peer ∧ k = Kind op ∧ n = o_Node op).
Proof.
  unfold Revoke. destruct (peers p !! peer) as [bk|] eqn:Eb.
  2:{ cbn [fst]. split; [|by intros [? _]]. intros Hn. split; [done|]. intros (-> & -> & ->). unfold nodes_of in Hn. rewrite Eb in Hn. cbn [default from_option] in Hn.
      rewrite lookup_empty in Hn. by apply not_elem_of_empty in Hn. }
  assert (∀ k, nodes_of p peer k = default ∅ (bk !! k)) as Hno by (intros; unfold nodes_of; by rewrite Eb).
  destruct (bk !! Kind op) as [s|] eqn:Es.
  2:{ cbn [fst]. split; [|by intros [? _]]. intros Hn. split; [done|]. intros (-> & -> & ->). rewrite Hno, Es in Hn. by apply not_elem_of_empty in Hn. }
  destruct (decide (o_Node op ∈ s)) as [Hin|Hin]; cbn [fst].
  - rewrite nodes_of_prune, nodes_of_put. destruct (decide (q = peer)) as [->|Hq]; [|destruct p; cbn [peers]; tauto].
    destruct (decide (k = Kind op)) as [->|Hk]; rewrite Hno; [rewrite Es; cbn [default from_option id]; rewrite elem_of_difference, elem_of_singleton; tauto|tauto].
  - split; [|by intros [? _]]. intros Hn. split; [done|]. intros (-> & -> & ->). by rewrite Hno, Es in Hn.
Qed.
Lemma RevokePeer_nodes p peer q k n : n ∈ nodes_of (RevokePeer p peer).1 q k ↔ n ∈ nodes_of p q k ∧ q ≠ peer.
Proof.
  unfold RevokePeer. destruct (peers p !! peer) as [bk|] eqn:Eb; cbn [fst]; unfold nodes_of; cbn [peers].
  - destruct (decide (q = peer)) as [->|Hq]; [rewrite lookup_delete_eq|rewrite lookup_delete_ne by done; tauto].
    cbn [default from_option]. rewrite lookup_empty. split; [by intros ?%not_elem_of_empty|tauto].
  - destruct (decide (q = peer)) as [->|Hq]; [|tauto]. rewrite Eb. cbn [default from_option]. rewrite lookup_empty. split; [by intros ?%not_elem_of_empty|tauto].
Qed.
Lemma step_means p g o : means p g → means (pstep p o) (gstep g o).
Proof.
  intros Hm peer kind n. destruct o as [q op|q k nodes|q op|q]; cbn [pstep gstep].
  - rewrite Allow_nodes, elem_of_union, elem_of_singleton, <- (Hm peer kind n). case_decide as Hd.
    + destruct Hd as [-> ->]. rewrite elem_of_union, elem_of_singleton. split; intros [H|H]; try (by right); left; congruence.
    + split; [by right|]. intros [H|H]; [|done]. injection H as -> -> ->. tauto.
  - rewrite AllowMany_nodes, elem_of_union, elem_of_list_to_set, list_elem_of_fmap, (Hm peer kind n). split.
    + intros [(-> & -> & Hn)|H]; [left; by exists n|by right].
    + intros [(x & [= -> -> ->] & Hx)|H]; [by left|by right].
  - rewrite Revoke_nodes, elem_of_difference, elem_of_singleton, (Hm peer kind n). split; intros [H1 H2]; (split; [done|]); [intros [= -> -> ->]; tauto|intros (-> & -> & ->); tauto].
  - rewrite RevokePeer_nodes, elem_of_filter, (Hm peer kind n). simpl. tauto.
Qed.
Lemma run_means ops : means (prun ops) (grun ops).
Proof.
  unfold prun, grun. assert (means NewPeerPermissions ∅) as H0.
  { intros peer kind n. unfold nodes_of, NewPeerPermissions. cbn [peers]. rewrite lookup_empty. cbn [default from_option]. rewrite lookup_empty. done. }
  revert H0. generalize NewPeerPermissions (∅ : grants). induction ops as [|o ops IH]; intros p g Hm; [done|]. cbn [foldl]. by apply IH, step_means.
Qed.

(** A peer is in the map only for a grant, unless it was granted an empty list. *)
Definition tidy (p : PeerPermissions) : Prop := ∀ peer bk, peers p !! peer = Some bk → ∃ kind n, n ∈ nodes_of p peer kind.
Definition proper (o : pop) : Prop := match o with P_AllowMany _ _ nodes => nodes ≠ [] | _ => True end.
Lemma prune_peers p peer q bk : peers (prune p peer) !! q = Some bk → (∃ bk', peers p !! q = Some bk') ∧ (q = peer → ∃ kind n, n ∈ nodes_of p q kind) ∨ q ≠ peer ∧ peers p !! q = Some bk.
Proof.
  unfold prune. destruct (peers p !! peer) as [b|] eqn:Eb.
  - case_decide as He; cbn [peers].
    + intros [Hne Hq]%lookup_delete_Some. right. done.
    + intros [(-> & _)|(Hne & Hq)]%lookup_insert_Some; [left|by right]. split; [by eexists|]. intros _.
      apply map_choose in He as (k & s & [Hs Hne]%map_lookup_filter_Some). cbn [snd] in Hne. apply set_choose_L in Hne as [n Hn]. exists k, n. unfold nodes_of. rewrite Eb.
      cbn [default from_option id]. by rewrite Hs.
  - intros Hq. destruct (decide (q = peer)) as [->|]; [congruence|by right].
Qed.
Lemma step_tidy p o : tidy p → proper o → tidy (pstep p o).
Proof.
  intros Ht Ho q bk Hq. destruct o as [peer op|peer kind nodes|peer op|peer]; cbn [pstep proper] in *.
  - destruct (decide (q = peer)) as [->|Hne].
    + exists (Kind op), (o_Node op). rewrite Allow_nodes, decide_True by done. by apply elem_of_union_l, elem_of_singleton.
    + assert (peers p !! q = Some bk) as Hq' by (unfold Allow in Hq; destruct (decide (o_Node op ∈ _)); cbn [fst peers] in Hq; by rewrite lookup_insert_ne in Hq by done).
      destruct (Ht q bk Hq') as (k & n & Hn). exists k, n. rewrite Allow_nodes. case_decide; [by apply elem_of_union_r|done].
  - destruct (decide (q = peer)) as [->|Hne].
    + destruct nodes as [|n nodes]; [done|]. exists kind, n. apply AllowMany_nodes. left. split_and!; [done|done|left].
    + unfold AllowMany in Hq. cbn [peers] in Hq. rewrite lookup_insert_ne in Hq by done. destruct (Ht q bk Hq) as (k & n & Hn). exists k, n. apply AllowMany_nodes. by right.
  - destruct (decide (q = peer)) as [->|Hne].
    + assert (peers (Revoke p peer op).1 !! peer = Some bk → ∃ kind n, n ∈ nodes_of (Revoke p peer op).1 peer kind) as Hr; [|by apply Hr].
      clear Hq. intros Hq. unfold Revoke in *. destruct (peers p !! peer) as [b|] eqn:Eb; [|by cbn [fst] in Hq; rewrite Eb in Hq].
      destruct (b !! Kind op) as [s|] eqn:Es; [|by apply (Ht peer b)]. destruct (decide (o_Node op ∈ s)); [|by apply (Ht peer b)]. cbn [fst] in *.
      apply prune_peers in Hq as [[_ Hq]|[? _]]; [|done]. destruct (Hq eq_refl) as (k & n & Hn). exists k, n. by rewrite nodes_of_prune.
    + assert (peers p !! q = Some bk) as Hq'.
      { unfold Revoke in Hq. destruct (peers p !! peer) as [b|] eqn:Eb; [|done]. destruct (b !! Kind op) as [s|] eqn:Es; [|done].
        destruct (decide (o_Node op ∈ s)); [|done]. cbn [fst] in Hq. unfold prune in Hq. cbn [peers] in Hq. rewrite lookup_insert_eq in Hq.
        destruct (decide (filter _ _ = ∅)); cbn [peers] in Hq; rewrite ?lookup_delete_ne, ?lookup_insert_ne in Hq by done; done. }
      destruct (Ht q bk Hq') as (k & n & Hn). exists k, n. apply Revoke_nodes. split; [done|tauto].
  - assert (q ≠ peer ∧ peers p !! q = Some bk) as [Hne Hq'].
    { unfold RevokePeer in Hq. destruct (peers p !! peer) as [b|] eqn:Eb; cbn [fst peers] in Hq; [by apply lookup_delete_Some in Hq as [? ?]|]. split; [congruence|done]. }
    destruct (Ht q bk Hq') as (k & n & Hn). exists k, n. by apply RevokePeer_nodes.
Qed.
Lemma tidy_count p g : tidy p → means p g → PeerCount p = size (peers_of g).
Proof.
  intros Ht Hm. unfold PeerCount. rewrite <- size_dom. f_equal. apply set_eq. intros q. rewrite elem_of_dom. unfold peers_of. rewrite elem_of_map. split.
  - intros [bk Hq]. destruct (Ht q bk Hq) as (k & n & Hn). exists (q, k, n). split; [done|]. by apply Hm.
  - intros ([[q' k] n] & -> & Hg). cbn [fst]. apply Hm in Hg. unfold nodes_of in Hg. destruct (peers p !! q') as [bk|]; [by eexists|].
    cbn [default from_option] in Hg. rewrite lookup_empty in Hg. by apply not_elem_of_empty in Hg.
Qed.

(** The permissions are the set of the grants made and not revoked, and nothing
    else: an operation is allowed exactly for a grant of its own peer, kind and node;
    granting and revoking report whether they changed that set; and the peers counted
    are those with a grant, as long as none was granted an empty list. *)
Theorem Permissions_are_their_grants ops :
  let p := prun ops in let g := grun ops in
  (∀ peer op, IsAllowed p peer op = bool_decide ((peer, Kind op, o_Node op) ∈ g) ∧ (Check_ p peer op = None ↔ (peer, Kind op, o_Node op) ∈ g)) ∧
  (∀ peer op, (Allow p peer op).2 = negb (IsAllowed p peer op) ∧ (Revoke p peer op).2 = IsAllowed p peer op) ∧
  (Forall proper ops → PeerCount p = size (peers_of g)).
Proof.
  intros p g. pose proof (run_means ops) as Hm. fold p g in Hm. split; [|split].
  - intros peer op. assert (IsAllowed p peer op = bool_decide ((peer, Kind op, o_Node op) ∈ g)) as Ha by (rewrite IsAllowed_nodes; apply bool_decide_ext, Hm).
    split; [done|]. unfold Check_. rewrite Ha. by case_bool_decide.
  - intros peer op. split.
    + rewrite IsAllowed_nodes. unfold Allow. fold (nodes_of p peer (Kind op)). destruct (decide (o_Node op ∈ nodes_of p peer (Kind op))); cbn [snd];
        [by rewrite bool_decide_true|by rewrite bool_decide_false].
    + unfold Revoke, IsAllowed. destruct (peers p !! peer) as [b|]; [|done]. destruct (b !! Kind op) as [s|]; [|done].
      destruct (decide (o_Node op ∈ s)); cbn [snd]; [by rewrite bool_decide_true|by rewrite bool_decide_false].
  - intros Hp. apply tidy_count; [|done]. assert (∀ l p0, tidy p0 → Forall proper l → tidy (foldl pstep p0 l)) as Hrun.
    { induction l as [|o l IH]; intros p0 H0 Hl; [done|]. apply Forall_cons in Hl as [Ho Hl]. cbn [foldl]. apply IH; [by apply step_tidy|done]. }
    apply Hrun; [|done]. intros q bk Hq. unfold NewPeerPermissions in Hq. cbn [peers] in Hq. by rewrite lookup_empty in Hq.
Qed.
(** An empty grant counts a peer that holds nothing. *)
Lemma empty_grant_counts_peer : PeerCount (AllowMany NewPeerPermissions 7 OpKindRead []) = 1%nat ∧ ∀ op, IsAllowed (AllowMany NewPeerPermissions 7 OpKindRead []) 7 op = false.
Proof.
  split; [done|]. intros op. rewrite IsAllowed_nodes. apply bool_decide_false. rewrite AllowMany_nodes. intros [(_ & _ & []%not_elem_of_nil)|Hn].
  unfold nodes_of, NewPeerPermissions in Hn. cbn [peers] in Hn. rewrite lookup_empty in Hn. cbn [default from_option] in Hn. rewrite lookup_empty in Hn.
  by apply not_elem_of_empty in Hn.
Qed.

(** ** Filtering by omission *)

(** The nodes an operation, and a message, speaks of. *)
Definition op_nodes (o : DeltaOp) : list Z :=
  match o with
  | DeltaOpCellSet n _ | DeltaOpSlotValue n _ | DeltaOpInvalidate n | DeltaOpNodeAdd n _ _ _ | DeltaOpNodeRemove n
  | DeltaOpQueuePush n _ | DeltaOpQueuePop n | DeltaOpQueueClose n => [n]
  | DeltaOpEdgeAdd a b | DeltaOpEdgeRemove a b => [a; b]
  end.
Definition readable (p : PeerPermissions) (peer : PeerId) (ns : list Z) : Prop := Forall (λ n, CanRead p peer n = true) ns.
Lemma op_readable o p peer : DeltaOp_TargetReadable o p peer = true ↔ readable p peer (op_nodes o).
Proof. unfold readable. destruct o; cbn [DeltaOp_TargetReadable op_nodes]; rewrite ?andb_true_iff, ?Forall_cons, ?Forall_nil; tauto. Qed.
Lemma edge_readable e p peer : IsReadableBy e p peer = true ↔ readable p peer [Dependent e; Dependency e].
Proof. unfold readable, IsReadableBy. rewrite andb_true_iff, !Forall_cons, Forall_nil. tauto. Qed.
(** A filtered delta has, in order, exactly the operations all of whose nodes the
    peer may read; a filtered snapshot likewise its nodes, edges and roots; a
    filtered sync frame its operations, while its frontier stays whole. *)
Lemma filter_exact p peer d s c :
  (∀ o, o ∈ d_Ops (Delta_FilterReadable d p peer) ↔ readable p peer (op_nodes o) ∧ o ∈ d_Ops d) ∧
  d_Ops (Delta_FilterReadable d p peer) `sublist_of` d_Ops d ∧
  (∀ n, n ∈ Nodes (Snapshot_FilterReadable s p peer) ↔ readable p peer [ns_Node n] ∧ n ∈ Nodes s) ∧
  (∀ e, e ∈ Edges (Snapshot_FilterReadable s p peer) ↔ readable p peer [Dependent e; Dependency e] ∧ e ∈ Edges s) ∧
  (∀ r, r ∈ Roots (Snapshot_FilterReadable s p peer) ↔ readable p peer [r] ∧ r ∈ Roots s) ∧
  (∀ o, o ∈ Ops (CrdtSync_FilterReadable c p peer) ↔ readable p peer [Node o] ∧ o ∈ Ops c) ∧
  Frontier (CrdtSync_FilterReadable c p peer) = Frontier c.
Proof.
  split_and!; [|apply sublist_filter|..|done]; intros x; cbn; unfold FilterReadable; rewrite list_elem_of_filter; rewrite ?op_readable, ?edge_readable; try done;
    unfold readable; rewrite Forall_singleton; done.
Qed.

(** ** The transition helpers *)

Lemma ipcValueEqual_eq a b : ipcValueEqual (Some a) (Some b) = bool_decide (a = b).
Proof. destruct a, b; simpl; try done; apply bool_decide_ext; split; congruence. Qed.
(** A write of an equal value says nothing; a changed memo publishes once, and then
    invalidates what is downstream, in order. *)
Lemma transitions_guarded node old new ds :
  (old = new → CellSetOps node old new = [] ∧ MemoOps node old new ds = [] ∧ SignalOps node old new = []) ∧
  (old ≠ new → CellSetOps node old new = [DeltaOpCellSet node new] ∧ SignalOps node old new = [DeltaOpSlotValue node new] ∧
     MemoOps node old new ds = DeltaOpSlotValue node new :: map DeltaOpInvalidate ds).
Proof. unfold CellSetOps, MemoOps, SignalOps, DownstreamInvalidations. rewrite !ipcValueEqual_eq. by case_bool_decide. Qed.
Lemma dedup_once seen l : NoDup (dedup_ seen l) ∧ ∀ n, n ∈ dedup_ seen l ↔ n ∈ l ∧ n ∉ seen.
Proof.
  revert seen. induction l as [|x l IH]; intros seen; cbn [dedup_].
  - split; [constructor|]. intros n. rewrite elem_of_nil. tauto.
  - destruct (decide (x ∈ seen)) as [Hx|Hx].
    + destruct (IH seen) as [H1 H2]. split; [done|]. intros n. rewrite H2, elem_of_cons. split; [tauto|]. intros [[->|Hn] Hs]; tauto.
    + destruct (IH ({[x]} ∪ seen)) as [H1 H2]. split.
      * constructor; [|done]. rewrite H2, elem_of_union, elem_of_singleton. tauto.
      * intros n. rewrite !elem_of_cons, H2, elem_of_union, elem_of_singleton. destruct (decide (n = x)) as [->|]; tauto.
Qed.
(** A flush names every node of its frontier once, and its delta is the next one. *)
Lemma flush_coalesces changed frontier base : is_i64 (base + 1) →
  let f := NewBatchFlush changed frontier in
  NoDup (bf_Frontier f) ∧ (∀ n, n ∈ bf_Frontier f ↔ n ∈ frontier) ∧ bf_Ops f = map DeltaOpInvalidate (bf_Frontier f) ∧
  ApplyStatus (ToDelta f base) base = DeltaApplyStatusApply (base + 1).
Proof.
  intros Hb f. destruct (dedup_once ∅ frontier) as [H1 H2]. split_and!; [done| |done|].
  - intros n. unfold f, NewBatchFlush, dedupNodes. cbn [bf_Frontier]. rewrite H2. split; [tauto|]. intros Hn. split; [done|apply not_elem_of_empty].
  - unfold ApplyStatus, IsNextAfter, ToDelta, DeltaNext. cbn [BaseEpoch d_Epoch]. rewrite !Z.eqb_refl. cbn [andb]. by rewrite i64_small.
Qed.
