(* ===== verification/LosslessTree.v ===== *)
(** * LosslessTree: the lossless document tree (lossless_tree_crdt.go)

    A tree of element shells and text leaves, each leaf with a whole text
    replica in it; operations named by Lamport ids, a log of those applied, a
    frontier of those held (per peer a contiguous prefix and a set of holes) and a
    buffer of those whose dependencies are missing.  Reading a leaf fills the
    text's order cache, so reads thread the state.  [None] stands for a panic,
    or for the unbounded recursion of a text whose elements form a cycle.

    A text is the list of its characters, as in [TextCrdt]; a [Frac] is a slice of
    ints, never nil.  Two siblings with one key are ordered as they arrived,
    which is what Go's sort does to a dozen of them; beyond that it promises
    nothing, and theorems ask for distinct keys.  The json forms are in
    [TreeWire]. *)

From S2P Require Import Prelude Hlc TextCrdt SeqCrdt.

Local Open Scope Z_scope.

(** ** Sort keys *)

(** [lossless_tree_crdt.go] [type TreeSortKey] *)
Record TreeSortKey := mkSort { Frac : list Z; k_Peer : PeerId }.
#[export] Instance TreeSortKey_eq_dec : EqDecision TreeSortKey.
Proof. solve_decision. Defined.

(** The shared prefix, then the shorter slice.
    [lossless_tree_crdt.go] [lines 86-103 TreeSortKey.compare] *)
Fixpoint compare_frac (a b : list Z) : Z :=
  match a, b with
  | [], [] => 0
  | [], _ :: _ => -1
  | _ :: _, [] => 1
  | x :: a, y :: b => if x =? y then compare_frac a b else if x <? y then -1 else 1
  end.
(** [lossless_tree_crdt.go] [TreeSortKey.compare] *)
Definition compare (a b : TreeSortKey) : Z :=
  let c := compare_frac (Frac a) (Frac b) in
  if negb (c =? 0) then c
  else if negb (k_Peer a =? k_Peer b) then if k_Peer a <? k_Peer b then -1 else 1
  else 0.

(** The loop of [treeKeyBetween], [rounds] of it left, [lo] and [hi] what is left
    of the bounds; [above] is the call with what is left of [lo] and no upper
    bound.
    [lossless_tree_crdt.go] [lines 157-191 treeKeyBetween] *)
Fixpoint key_rounds (above : list Z → list Z) (rounds : nat) (lo : list Z) (hi : option (list Z)) : list Z :=
  match rounds with
  | O => [128]
  | S rounds =>
      let a := hd 0 lo in
      let b := match hi with None => 256 | Some hi => hd 0 hi end in
      if a + 1 <? b then [Z.quot (a + b) 2]
      else a :: (if a <? b then above (tl lo) else key_rounds above rounds (tl lo) (tl <$> hi))
  end.
(** The nested calls: each has a shorter lower bound.
    [lossless_tree_crdt.go] [treeKeyBetween] *)
Fixpoint key_over (depth : nat) (lo : list Z) : list Z :=
  match depth with O => [] | S depth => key_rounds (key_over depth) (length lo + 3) lo None end.
(** A nil bound is [None].
    [lossless_tree_crdt.go] [treeKeyBetween] *)
Definition treeKeyBetween (lo hi : option (list Z)) : list Z :=
  let l := default [] lo in
  key_rounds (key_over (S (length l))) (length l + length (default [] hi) + 3) l hi.

(** ** Operations *)

(** [lossless_tree_crdt.go] [lines 50-59 LeafKind] *)
Inductive LeafKind := LeafKindToken | LeafKindTrivia | LeafKindRaw | LeafKindError.
#[export] Instance LeafKind_eq_dec : EqDecision LeafKind.
Proof. solve_decision. Defined.

(** [lossless_tree_crdt.go] [lines 195-213 TreeNodeSeed] *)
Inductive TreeNodeSeed :=
  | TreeNodeSeedElement (Kind : string)
  | TreeNodeSeedLeaf (Kind : LeafKind) (Text : list string).

(** [lossless_tree_crdt.go] [type TreeOpKind] *)
Inductive TreeOpKind :=
  | TreeOpCreateNode (Id Parent : OpId) (Sort : TreeSortKey) (Seed : TreeNodeSeed)
  | TreeOpTombstone (Node : OpId)
  | TreeOpReorder (Node : OpId) (Sort : TreeSortKey)
  | TreeOpLeafEdit (Node Prev : OpId) (Ops : list TextOp)
  | TreeOpSplitLeaf (Node NewId : OpId) (Sort : TreeSortKey) (AtChar : Z) (Prev : OpId)
  | TreeOpMergeLeaves (Left Right PrevLeft PrevRight : OpId).
(** [lossless_tree_crdt.go] [type TreeOp] *)
Record TreeOp := mkTreeOp { o_Id : OpId; o_Kind : TreeOpKind }.
(** [lossless_tree_crdt.go] [type TreeUpdate] *)
Record TreeUpdate := mkUpdate { u_Ops : list TreeOp }.

#[export] Instance TextOp_eq_dec : EqDecision TextOp.
Proof. solve_decision. Defined.
#[export] Instance TreeNodeSeed_eq_dec : EqDecision TreeNodeSeed.
Proof. solve_decision. Defined.
#[export] Instance TreeOpKind_eq_dec : EqDecision TreeOpKind.
Proof. solve_decision. Defined.
#[export] Instance TreeOp_eq_dec : EqDecision TreeOp.
Proof. solve_decision. Defined.

(** ** The frontier *)

(** A nil map reads as an empty one.
    [lossless_tree_crdt.go] [type TreeDotRange] *)
Record TreeDotRange := mkRange { Contiguous : Z; Sparse : gset Z }.
(** [lossless_tree_crdt.go] [NewTreeDotRange] *)
Definition NewTreeDotRange : TreeDotRange := mkRange 0 ∅.
(** [lossless_tree_crdt.go] [TreeDotRange.Contains] *)
Definition Range_Contains (r : TreeDotRange) (counter : Z) : bool :=
  (counter <=? Contiguous r) || bool_decide (counter ∈ Sparse r).
(** A round takes a hole away, so there are at most as many as holes.
    [lossless_tree_crdt.go] [lines 594-601 TreeDotRange.Observe] *)
Fixpoint collapse (rounds : nat) (r : TreeDotRange) : TreeDotRange :=
  match rounds with
  | O => r
  | S rounds =>
      let next := Contiguous r +ₛ 1 in
      if decide (next ∈ Sparse r) then collapse rounds (mkRange next (Sparse r ∖ {[next]})) else r
  end.
(** [lossless_tree_crdt.go] [TreeDotRange.Observe] *)
Definition Range_Observe (r : TreeDotRange) (counter : Z) : TreeDotRange :=
  if counter <=? Contiguous r then r
  else let s := {[counter]} ∪ Sparse r in collapse (size s) (mkRange (Contiguous r) s).

(** [lossless_tree_crdt.go] [type TreeVersionFrontier] *)
Abbreviation TreeVersionFrontier := (gmap PeerId TreeDotRange).
(** [lossless_tree_crdt.go] [NewTreeVersionFrontier] *)
Definition NewTreeVersionFrontier : TreeVersionFrontier := ∅.
(** [lossless_tree_crdt.go] [TreeVersionFrontier.Contains] *)
Definition Contains (f : TreeVersionFrontier) (id : OpId) : bool :=
  match f !! Peer id with None => false | Some r => Range_Contains r (Counter id) end.
(** [lossless_tree_crdt.go] [TreeVersionFrontier.Observe] *)
Definition Observe (f : TreeVersionFrontier) (id : OpId) : TreeVersionFrontier :=
  <[Peer id := Range_Observe (default NewTreeDotRange (f !! Peer id)) (Counter id)]> f.

(** ** The replica *)

(** The loop over the characters; a character is its UTF-8 bytes.
    [lossless_tree_crdt.go] [lines 666-681 byteToCodePoint] *)
Fixpoint bytes_loop (s : list string) (b pos cp : Z) : option Z :=
  match s with
  | [] => if pos =? b then Some cp else None
  | r :: s =>
      if pos =? b then Some cp
      else let pos := pos + Z.of_nat (String.length r) in
           if b <? pos then None else bytes_loop s b pos (cp + 1)
  end.
(** [lossless_tree_crdt.go] [byteToCodePoint] *)
Definition byteToCodePoint (s : list string) (b : Z) : option Z := if b <? 0 then None else bytes_loop s b 0 0.

(** [lossless_tree_crdt.go] [lines 688-690 TreeRoot] *)
Definition TreeRoot : OpId := mkOpId 0 0.

(** [lossless_tree_crdt.go] [type treeBody] *)
Inductive treeBody := Element (elementKind : string) | Leaf (leafKind : LeafKind) (text : TextCrdt).
(** [lossless_tree_crdt.go] [type treeNode] *)
Record treeNode := mkNode {
  n_id : OpId;
  parent : option OpId;
  sort : TreeSortKey;
  sortStamp : OpId;
  body : treeBody;
  tomb : option OpId;
  textHead : OpId;
}.
(** [lossless_tree_crdt.go] [type LosslessTreeCrdt] *)
Record LosslessTreeCrdt := mkTree {
  t_peer : PeerId;
  t_counter : Z;
  nodes : gmap OpId treeNode;
  childrenByParent : gmap OpId (list OpId);
  frontier : TreeVersionFrontier;
  log : list TreeOp;
  buffered : list TreeOp;
}.

Definition with_nodes (f : gmap OpId treeNode → gmap OpId treeNode) (t : LosslessTreeCrdt) : LosslessTreeCrdt :=
  mkTree (t_peer t) (t_counter t) (f (nodes t)) (childrenByParent t) (frontier t) (log t) (buffered t).
Definition with_index (f : gmap OpId (list OpId) → gmap OpId (list OpId)) (t : LosslessTreeCrdt) : LosslessTreeCrdt :=
  mkTree (t_peer t) (t_counter t) (nodes t) (f (childrenByParent t)) (frontier t) (log t) (buffered t).
Definition with_buffered (b : list TreeOp) (t : LosslessTreeCrdt) : LosslessTreeCrdt :=
  mkTree (t_peer t) (t_counter t) (nodes t) (childrenByParent t) (frontier t) (log t) b.
Definition with_counter (c : Z) (t : LosslessTreeCrdt) : LosslessTreeCrdt :=
  mkTree (t_peer t) c (nodes t) (childrenByParent t) (frontier t) (log t) (buffered t).
Definition with_body (b : treeBody) (n : treeNode) : treeNode :=
  mkNode (n_id n) (parent n) (sort n) (sortStamp n) b (tomb n) (textHead n).
Definition with_head (h : OpId) (n : treeNode) : treeNode :=
  mkNode (n_id n) (parent n) (sort n) (sortStamp n) (body n) (tomb n) h.
Definition with_tomb (d : option OpId) (n : treeNode) : treeNode :=
  mkNode (n_id n) (parent n) (sort n) (sortStamp n) (body n) d (textHead n).
Definition with_sort (s : TreeSortKey) (stamp : OpId) (n : treeNode) : treeNode :=
  mkNode (n_id n) (parent n) s stamp (body n) (tomb n) (textHead n).

(** [lossless_tree_crdt.go] [NewLosslessTreeCrdt] *)
Definition NewLosslessTreeCrdt (peer : PeerId) : LosslessTreeCrdt :=
  mkTree peer 0 {[TreeRoot := mkNode TreeRoot None (mkSort [] 0) TreeRoot (Element "root") None TreeRoot]} ∅
    NewTreeVersionFrontier [] [].
(** [lossless_tree_crdt.go] [LosslessTreeCrdt.nextOpId] *)
Definition nextOpId (t : LosslessTreeCrdt) : LosslessTreeCrdt * OpId :=
  let c := t_counter t +ₛ 1 in (with_counter c t, mkOpId c (t_peer t)).
(** [lossless_tree_crdt.go] [LosslessTreeCrdt.get] *)
Definition get (t : LosslessTreeCrdt) (id : OpId) : option treeNode := nodes t !! id.
(** [lossless_tree_crdt.go] [LosslessTreeCrdt.indexAdd] *)
Definition indexAdd (parent childID : OpId) (ix : gmap OpId (list OpId)) : gmap OpId (list OpId) :=
  let bucket := default [] (ix !! parent) in
  if decide (childID ∈ bucket) then ix else <[parent := bucket ++ [childID]]> ix.

Definition no_later (a b : treeNode) : Prop := 0 ≤ compare (sort b) (sort a).
#[export] Instance no_later_dec a b : Decision (no_later a b).
Proof. unfold no_later. apply _. Defined.
(** Go's [sort.Slice] on a dozen elements or fewer: each is moved to the front past
    those it is less than. *)
Fixpoint sift (r : treeNode) (l : list treeNode) : list treeNode :=
  match l with [] => [r] | y :: l' => if decide (no_later y r) then y :: sift r l' else r :: l end.
Definition sort_slice (l : list treeNode) : list treeNode := foldl (λ l r, sift r l) [] l.
Definition live_node (t : LosslessTreeCrdt) (id : OpId) : option treeNode :=
  r ← get t id; match tomb r with None => Some r | Some _ => None end.
(** [lossless_tree_crdt.go] [LosslessTreeCrdt.liveChildren] *)
Definition liveChildren (t : LosslessTreeCrdt) (parent : OpId) : list OpId :=
  n_id <$> sort_slice (omap (live_node t) (default [] (childrenByParent t !! parent))).

(** What reading leaf [id] leaves behind: its text with the cache filled. *)
Definition set_body (id : OpId) (b : treeBody) (t : LosslessTreeCrdt) : LosslessTreeCrdt :=
  with_nodes (alter (with_body b) id) t.
(** The loop over the children.
    [lossless_tree_crdt.go] [lines 824-826 LosslessTreeCrdt.Render] *)
Fixpoint walk_list (walk : LosslessTreeCrdt → OpId → option (LosslessTreeCrdt * list string)) (t : LosslessTreeCrdt) (l : list OpId)
    : option (LosslessTreeCrdt * list string) :=
  match l with
  | [] => Some (t, [])
  | c :: l => '(t, s) ← walk t c; '(t, s') ← walk_list walk t l; Some (t, s ++ s')
  end.
(** The walk from a node.
    [lossless_tree_crdt.go] [lines 815-827 LosslessTreeCrdt.Render] *)
Fixpoint walk (depth : nat) (t : LosslessTreeCrdt) (id : OpId) : option (LosslessTreeCrdt * list string) :=
  match depth with
  | O => None
  | S depth =>
      match get t id with
      | None => Some (t, [])
      | Some r =>
          match body r with
          | Leaf k x => '(x, s) ← Text x; Some (set_body id (Leaf k x) t, s)
          | Element _ => walk_list (walk depth) t (liveChildren t id)
          end
      end
  end.
(** No path is longer than the number of nodes.
    [lossless_tree_crdt.go] [LosslessTreeCrdt.Render] *)
Definition Render (t : LosslessTreeCrdt) : option (LosslessTreeCrdt * list string) := walk (S (size (nodes t))) t TreeRoot.
(** [lossless_tree_crdt.go] [LosslessTreeCrdt.LiveNodeCount] *)
Definition LiveNodeCount (t : LosslessTreeCrdt) : nat :=
  size (filter (λ e : OpId * treeNode, e.1 ≠ TreeRoot ∧ tomb e.2 = None) (nodes t)).
(** A deep copy.
    [lossless_tree_crdt.go] [LosslessTreeCrdt.Frontier] *)
Definition Frontier (t : LosslessTreeCrdt) : TreeVersionFrontier := frontier t.
(** The empty string for an absent node or a leaf is [None].
    [lossless_tree_crdt.go] [LosslessTreeCrdt.ElementKind] *)
Definition ElementKind (t : LosslessTreeCrdt) (node : OpId) : option string :=
  r ← get t node; match body r with Element k => Some k | Leaf _ _ => None end.
(** [lossless_tree_crdt.go] [LosslessTreeCrdt.LeafKind] *)
Definition LeafKind_of (t : LosslessTreeCrdt) (node : OpId) : option LeafKind :=
  r ← get t node; match body r with Element _ => None | Leaf k _ => Some k end.
(** [lossless_tree_crdt.go] [LosslessTreeCrdt.Children] *)
Definition Children (t : LosslessTreeCrdt) (parent : OpId) : list OpId := liveChildren t parent.
(** [lossless_tree_crdt.go] [LosslessTreeCrdt.LeafText] *)
Definition LeafText (t : LosslessTreeCrdt) (node : OpId) : option (LosslessTreeCrdt * list string) :=
  r ← get t node;
  match body r with
  | Element _ => None
  | Leaf k x => '(x, s) ← Text x; Some (set_body node (Leaf k x) t, s)
  end.

Definition frac_of (t : LosslessTreeCrdt) (id : OpId) : option (list Z) := (Frac ∘ sort) <$> get t id.
(** The position of the first [x] in [l]. *)
Fixpoint index_of (x : OpId) (l : list OpId) : option nat :=
  match l with [] => None | y :: l => if decide (y = x) then Some O else S <$> index_of x l end.
(** [lossless_tree_crdt.go] [LosslessTreeCrdt.keyAfter] *)
Definition keyAfter (t : LosslessTreeCrdt) (parent : OpId) (after : option OpId) : TreeSortKey :=
  let order := liveChildren t parent in
  let '(lo, hi) :=
    match after with
    | None => (None, head order ≫= frac_of t)
    | Some after =>
        match index_of after order with
        | Some idx => (frac_of t after, order !! S idx ≫= frac_of t)
        | None => (last order ≫= frac_of t, None)
        end
    end in
  mkSort (treeKeyBetween lo hi) (t_peer t).

(** ** Applying an operation *)

(** [lossless_tree_crdt.go] [minOpId] *)
Definition minOpId (a b : OpId) : OpId := if OpId_Compare a b <=? 0 then a else b.
Definition bury (id : OpId) (d : option OpId) : option OpId :=
  Some match d with None => id | Some a => minOpId a id end.
(** The body a seed makes.
    [lossless_tree_crdt.go] [lines 1164-1170 LosslessTreeCrdt.applyOp] *)
Definition seed_body (id : OpId) (s : TreeNodeSeed) : option treeBody :=
  match s with
  | TreeNodeSeedLeaf k text => x ← TextCrdtFromStr (Peer id) text; Some (Leaf k x)
  | TreeNodeSeedElement k => Some (Element k)
  end.
Definition insert_node (n : treeNode) (t : LosslessTreeCrdt) : LosslessTreeCrdt :=
  let t := with_nodes (<[n_id n := n]>) t in
  match parent n with Some p => with_index (indexAdd p (n_id n)) t | None => t end.
(** A negative [atChar] panics on the slice.
    [lossless_tree_crdt.go] [LosslessTreeCrdt.applySplit] *)
Definition applySplit (t : LosslessTreeCrdt) (node newNode : OpId) (key : TreeSortKey) (atChar : Z) (opId : OpId) : option LosslessTreeCrdt :=
  match get t node with
  | Some r =>
      match body r with
      | Leaf k x =>
          '(_, cps) ← Text x;
          if atChar <? 0 then None
          else
            let clamp := Nat.min (Z.to_nat atChar) (length cps) in
            head ← TextCrdtFromStr (Peer node) (take clamp cps);
            tail ← TextCrdtFromStr (Peer newNode) (drop clamp cps);
            let t := with_nodes (<[node := with_head opId (with_body (Leaf k head) r)]>) t in
            match get t newNode with
            | Some _ => Some t
            | None => Some (insert_node (mkNode newNode (parent r) key opId (Leaf k tail) None opId) t)
            end
      | Element _ => Some t
      end
  | None => Some t
  end.
(** [l.body.text.Text()] fills a cache of a text that is replaced at once;
    [r]'s stays.
    [lossless_tree_crdt.go] [LosslessTreeCrdt.applyMerge] *)
Definition applyMerge (t : LosslessTreeCrdt) (left right opId : OpId) : option LosslessTreeCrdt :=
  match get t left, get t right with
  | Some l, Some r =>
      match body l, body r with
      | Leaf kl xl, Leaf kr xr =>
          '(_, sl) ← Text xl;
          '(xr, sr) ← Text xr;
          combined ← TextCrdtFromStr (Peer left) (sl ++ sr);
          let t := with_nodes (alter (with_body (Leaf kr xr)) right) t in
          let t := with_nodes (alter (λ l, with_head opId (with_body (Leaf kl combined) l)) left) t in
          Some (with_nodes (alter (λ r, with_tomb (bury opId (tomb r)) r) right) t)
      | _, _ => Some t
      end
  | _, _ => Some t
  end.
(** [lossless_tree_crdt.go] [LosslessTreeCrdt.applyOp] *)
Definition applyOp (t : LosslessTreeCrdt) (op : TreeOp) : option LosslessTreeCrdt :=
  match o_Kind op with
  | TreeOpCreateNode id parent key seed =>
      match get t id with
      | Some _ => Some t
      | None => b ← seed_body id seed; Some (insert_node (mkNode id (Some parent) key (o_Id op) b None (o_Id op)) t)
      end
  | TreeOpTombstone node => Some (with_nodes (alter (λ r, with_tomb (bury (o_Id op) (tomb r)) r) node) t)
  | TreeOpReorder node key =>
      Some (with_nodes (alter (λ r, if 0 <? OpId_Compare (o_Id op) (sortStamp r) then with_sort key (o_Id op) r else r) node) t)
  | TreeOpLeafEdit node _ ops =>
      match get t node with
      | Some r =>
          match body r with
          | Leaf k x => '(x, _) ← ApplyDelta x ops; Some (with_nodes (<[node := with_head (o_Id op) (with_body (Leaf k x) r)]>) t)
          | Element _ => Some t
          end
      | None => Some t
      end
  | TreeOpSplitLeaf node new key at_ _ => applySplit t node new key at_ (o_Id op)
  | TreeOpMergeLeaves l r _ _ => applyMerge t l r (o_Id op)
  end.
(** [lossless_tree_crdt.go] [LosslessTreeCrdt.record] *)
Definition record (t : LosslessTreeCrdt) (op : TreeOp) : LosslessTreeCrdt :=
  mkTree (t_peer t) (t_counter t) (nodes t) (childrenByParent t) (Observe (frontier t) (o_Id op)) (log t ++ [op]) (buffered t).
(** [lossless_tree_crdt.go] [LosslessTreeCrdt.commitLocal] *)
Definition commitLocal (t : LosslessTreeCrdt) (op : TreeOp) : option LosslessTreeCrdt := t ← applyOp t op; Some (record t op).

(** ** Local operations *)

(** [lossless_tree_crdt.go] [LosslessTreeCrdt.CreateNode] *)
Definition CreateNode (t : LosslessTreeCrdt) (parent : OpId) (after : option OpId) (seed : TreeNodeSeed) : option (LosslessTreeCrdt * OpId) :=
  _ ← get t parent;
  let key := keyAfter t parent after in
  let '(t, opId) := nextOpId t in
  t ← commitLocal t (mkTreeOp opId (TreeOpCreateNode opId parent key seed));
  Some (t, opId).
(** [lossless_tree_crdt.go] [LosslessTreeCrdt.TombstoneNode] *)
Definition TombstoneNode (t : LosslessTreeCrdt) (node : OpId) : option LosslessTreeCrdt :=
  _ ← get t node;
  if decide (node = TreeRoot) then None
  else let '(t, opId) := nextOpId t in commitLocal t (mkTreeOp opId (TreeOpTombstone node)).
(** [lossless_tree_crdt.go] [LosslessTreeCrdt.ReorderChild] *)
Definition ReorderChild (t : LosslessTreeCrdt) (node : OpId) (after : option OpId) : option LosslessTreeCrdt :=
  r ← get t node;
  p ← parent r;
  let key := keyAfter t p after in
  let '(t, opId) := nextOpId t in
  commitLocal t (mkTreeOp opId (TreeOpReorder node key)).
(** [lossless_tree_crdt.go] [lines 959-961 LosslessTreeCrdt.EditLeaf] *)
Fixpoint delete_loop (n : nat) (x : TextCrdt) (start : Z) : option TextCrdt :=
  match n with O => Some x | S n => x ← TextCrdt.Delete x start; delete_loop n x start end.
(** [lossless_tree_crdt.go] [LosslessTreeCrdt.EditLeaf] *)
Definition EditLeaf (t : LosslessTreeCrdt) (node : OpId) (atByte deleteBytes : Z) (ins : list string) : option LosslessTreeCrdt :=
  '(t, s) ← LeafText t node;
  start ← byteToCodePoint s atByte;
  end_ ← byteToCodePoint s (atByte +ₛ deleteBytes);
  let deleteCount := end_ - start in
  r ← get t node;
  match body r with
  | Element _ => None
  | Leaf k x =>
      let x := TextCrdt.Fork x (t_peer t) in
      let vv := VersionVector x in
      x ← delete_loop (Z.to_nat deleteCount) x start;
      x ← InsertStr x start ins;
      let ops := DeltaSince x vv in
      let t := set_body node (Leaf k x) t in
      let '(t, opId) := nextOpId t in
      commitLocal t (mkTreeOp opId (TreeOpLeafEdit node (textHead r) ops))
  end.
(** [lossless_tree_crdt.go] [LosslessTreeCrdt.SplitLeaf] *)
Definition SplitLeaf (t : LosslessTreeCrdt) (node : OpId) (atByte : Z) : option (LosslessTreeCrdt * OpId) :=
  '(t, s) ← LeafText t node;
  atChar ← byteToCodePoint s atByte;
  r ← get t node;
  p ← parent r;
  let key := keyAfter t p (Some node) in
  let '(t, opId) := nextOpId t in
  t ← commitLocal t (mkTreeOp opId (TreeOpSplitLeaf node opId key atChar (textHead r)));
  Some (t, opId).
(** [lossless_tree_crdt.go] [LosslessTreeCrdt.MergeAdjacentLeaves] *)
Definition MergeAdjacentLeaves (t : LosslessTreeCrdt) (left right : OpId) : option LosslessTreeCrdt :=
  '(t, _) ← LeafText t left;
  '(t, _) ← LeafText t right;
  l ← get t left;
  p ← parent l;
  let order := liveChildren t p in
  idx ← index_of left order;
  next ← order !! S idx;
  if decide (next = right) then
    r ← get t right;
    let '(t, opId) := nextOpId t in
    commitLocal t (mkTreeOp opId (TreeOpMergeLeaves left right (textHead l) (textHead r)))
  else None.

(** ** Replication *)

Definition clone_body (b : treeBody) : treeBody := match b with Element k => Element k | Leaf k x => Leaf k (Clone x) end.
(** [order] is the order in which Go ranges over the copied nodes to rebuild the
    index.
    [lossless_tree_crdt.go] [LosslessTreeCrdt.Fork] *)
Definition ForkIn (order : list (OpId * treeNode)) (t : LosslessTreeCrdt) (peer : PeerId) : LosslessTreeCrdt :=
  mkTree peer (t_counter t) ((λ n, with_body (clone_body (body n)) n) <$> nodes t)
    (foldl (λ ix e, match parent e.2 with Some p => indexAdd p e.1 ix | None => ix end) ∅ order)
    (frontier t) (log t) (buffered t).
Definition op_before (a b : TreeOp) : Prop := OpId_Compare (o_Id a) (o_Id b) ≤ 0.
#[export] Instance op_before_dec a b : Decision (op_before a b).
Proof. unfold op_before. apply _. Defined.
(** [lossless_tree_crdt.go] [LosslessTreeCrdt.Diff] *)
Definition Diff (t : LosslessTreeCrdt) (their : TreeVersionFrontier) : TreeUpdate :=
  mkUpdate (merge_sort op_before (base.filter (λ op, Contains their (o_Id op) = false) (log t))).
(** [lossless_tree_crdt.go] [LosslessTreeCrdt.dependenciesReady] *)
Definition dependenciesReady (t : LosslessTreeCrdt) (op : TreeOp) : bool :=
  let present id := bool_decide (is_Some (get t id)) in
  match o_Kind op with
  | TreeOpCreateNode _ parent _ _ => present parent
  | TreeOpTombstone node => present node
  | TreeOpReorder node _ => present node
  | TreeOpLeafEdit node prev _ => present node && Contains (frontier t) prev
  | TreeOpSplitLeaf node _ _ _ prev => present node && Contains (frontier t) prev
  | TreeOpMergeLeaves l r prevLeft prevRight =>
      present l && present r && Contains (frontier t) prevLeft && Contains (frontier t) prevRight
  end.
(** One pass over the pending operations.
    [lossless_tree_crdt.go] [lines 1099-1110 LosslessTreeCrdt.drainBuffered] *)
Fixpoint drain_pass (t : LosslessTreeCrdt) (pending : list TreeOp) (progressed : bool) : option (LosslessTreeCrdt * bool) :=
  match pending with
  | [] => Some (t, progressed)
  | op :: pending =>
      if Contains (frontier t) (o_Id op) then drain_pass t pending progressed
      else if dependenciesReady t op then t ← applyOp t op; drain_pass (record t op) pending true
      else drain_pass (with_buffered (buffered t ++ [op]) t) pending progressed
  end.
(** A pass that progresses shortens the buffer.
    [lossless_tree_crdt.go] [LosslessTreeCrdt.drainBuffered] *)
Fixpoint drain_loop (rounds : nat) (t : LosslessTreeCrdt) : option LosslessTreeCrdt :=
  match rounds with
  | O => None
  | S rounds =>
      '(t, progressed) ← drain_pass (with_buffered [] t) (buffered t) false;
      if progressed : bool then drain_loop rounds t else Some t
  end.
(** [lossless_tree_crdt.go] [LosslessTreeCrdt.drainBuffered] *)
Definition drainBuffered (t : LosslessTreeCrdt) : option LosslessTreeCrdt := drain_loop (S (length (buffered t))) t.
(** The loop over the update.
    [lossless_tree_crdt.go] [lines 1082-1090 LosslessTreeCrdt.ApplyUpdate] *)
Definition receive (t : LosslessTreeCrdt) (op : TreeOp) : LosslessTreeCrdt :=
  let t := if t_counter t <? Counter (o_Id op) then with_counter (Counter (o_Id op)) t else t in
  if Contains (frontier t) (o_Id op) then t else with_buffered (buffered t ++ [op]) t.
(** [lossless_tree_crdt.go] [LosslessTreeCrdt.ApplyUpdate] *)
Definition ApplyUpdate (t : LosslessTreeCrdt) (update : TreeUpdate) : option LosslessTreeCrdt :=
  drainBuffered (foldl receive t (u_Ops update)).

(** ** Keys *)

Lemma compare_frac_seq a b : compare_frac a b = frac_Compare a b.
Proof. done. Qed.

#[export] Instance frac_compare : StrictCompare (list Z) compare_frac.
Proof.
  split.
  - intros a. induction a as [|x a IH]; intros [|y b]; simpl; auto. destruct (x =? y); [apply IH|]. destruct (x <? y); auto.
  - intros a. induction a as [|x a IH]; intros [|y b]; simpl; try done. destruct (Z.eqb_spec x y) as [->|Hne].
    + rewrite IH. split; [by intros ->|by intros [= ->]].
    + destruct (x <? y); (split; [done|congruence]).
  - intros a. induction a as [|x a IH]; intros [|y b]; simpl; try done. rewrite (Z.eqb_sym y x).
    destruct (Z.eqb_spec x y); [apply IH|]. destruct (Z.ltb_spec x y), (Z.ltb_spec y x); lia.
  - intros a. induction a as [|x a IH]; intros [|y b] [|z c]; simpl; try lia.
    repeat match goal with |- context [?u =? ?v] => destruct (Z.eqb_spec u v) end; try lia; try apply IH;
      repeat match goal with |- context [?u <? ?v] => destruct (Z.ltb_spec u v) end; lia.
Qed.
#[export] Instance key_compare : StrictCompare TreeSortKey compare.
Proof.
  assert (Hc : ∀ a b, compare a b = let c := compare_frac (Frac a) (Frac b) in
    if decide (c = 0) then (if decide (k_Peer a = k_Peer b) then 0 else if k_Peer a <? k_Peer b then -1 else 1) else c).
  { intros a b. unfold compare. cbv zeta. destruct (Z.eqb_spec (compare_frac (Frac a) (Frac b)) 0);
      [rewrite decide_True by done|by rewrite decide_False by done]. simpl.
    destruct (Z.eqb_spec (k_Peer a) (k_Peer b)); [by rewrite decide_True by done|by rewrite decide_False by done]. }
  split.
  - intros a b. rewrite Hc. cbv zeta. pose proof (cmp_values (cmp := compare_frac) (Frac a) (Frac b)).
    repeat case_decide; [auto| |done]. destruct (k_Peer a <? k_Peer b); auto.
  - intros [a p] [b q]. rewrite Hc. cbv zeta. cbn [Frac k_Peer]. pose proof (cmp_eq (cmp := compare_frac) a b) as Heq.
    repeat case_decide; [split; [|done]; intros _; f_equal; [by apply Heq|done]| |split; [done|intros [= -> ->]; tauto]].
    destruct (p <? q); (split; [done|congruence]).
  - intros a b. rewrite !Hc. cbv zeta. rewrite (cmp_anti (cmp := compare_frac) (Frac a) (Frac b)).
    repeat case_decide; try lia; try congruence. destruct (Z.ltb_spec (k_Peer a) (k_Peer b)), (Z.ltb_spec (k_Peer b) (k_Peer a)); lia.
  - intros [a p] [b q] [c r]. rewrite !Hc. cbv zeta. cbn [Frac k_Peer].
    pose proof (cmp_eq (cmp := compare_frac) a b). pose proof (cmp_eq (cmp := compare_frac) b c). pose proof (cmp_eq (cmp := compare_frac) a c).
    pose proof (cmp_trans (cmp := compare_frac) a b c).
    destruct (decide (compare_frac a b = 0)) as [E1|E1]; [pose proof (proj1 H E1); subst b|];
    (destruct (decide (compare_frac b c = 0)) as [E2|E2] || destruct (decide (compare_frac a c = 0)) as [E2|E2]).
    all: try (pose proof (proj1 H1 E2); subst c). all: try (pose proof (proj1 H0 E2); subst c).
    all: repeat case_decide; try lia; try tauto.
    all: repeat match goal with |- context [?u <? ?v] => destruct (Z.ltb_spec u v) end; lia.
Qed.

Lemma key_over_above depth lo : (length lo < depth)%nat → Forall byte lo → key_over depth lo = key_above lo.
Proof.
  revert lo. induction depth as [|depth IH]; intros lo Hd Hb; [lia|]. cbn [key_over].
  replace (length lo + 3)%nat with (S (length lo + 2)) by lia. cbn [key_rounds].
  destruct lo as [|x lo]; [done|]. apply Forall_cons in Hb as [Hx Hb]. unfold byte in Hx. cbn [hd tl key_above].
  destruct (Z.ltb_spec (x + 1) 256); [by rewrite Z.quot_div_nonneg by lia|]. f_equal.
  destruct (Z.ltb_spec x 256); [|lia]. apply IH; [simpl in Hd; lia|done].
Qed.

Lemma key_rounds_loop above rounds lo hi :
  (∀ l, (length l ≤ length lo)%nat → Forall byte l → above l = key_above l) → Forall byte lo → Forall byte hi →
  key_rounds above rounds lo (Some hi) = key_loop rounds lo hi.
Proof.
  revert lo hi. induction rounds as [|rounds IH]; intros lo hi Ha Hlo Hhi; [done|]. cbn [key_rounds key_loop].
  assert (0 ≤ hd 0 lo) by (destruct lo as [|x lo]; simpl; [lia|]; apply Forall_cons in Hlo as [Hx _]; unfold byte in Hx; lia).
  assert (0 ≤ hd 0 hi) by (destruct hi as [|x hi]; simpl; [lia|]; apply Forall_cons in Hhi as [Hx _]; unfold byte in Hx; lia).
  assert (Htl : Forall byte (tl lo)) by (destruct lo; [done|by apply Forall_cons in Hlo as [_ ?]]).
  assert (Hth : Forall byte (tl hi)) by (destruct hi; [done|by apply Forall_cons in Hhi as [_ ?]]).
  assert (length (tl lo) ≤ length lo)%nat by (destruct lo; simpl; lia).
  destruct (hd 0 lo + 1 <? hd 0 hi); [by rewrite Z.quot_div_nonneg by lia|]. f_equal.
  destruct (hd 0 lo <? hd 0 hi); [by apply Ha|]. apply IH; [|done..]. intros l Hl. apply Ha. lia.
Qed.

(** On bytes the tree's keys are the sequence's. *)
Lemma treeKeyBetween_seq lo hi : (∀ l, lo = Some l → Forall byte l) → (∀ h, hi = Some h → Forall byte h) →
  treeKeyBetween lo hi = keyBetween lo hi.
Proof.
  intros Hlo Hhi. unfold treeKeyBetween, keyBetween.
  assert (Hl : Forall byte (default [] lo)) by (destruct lo; [by apply Hlo|constructor]).
  destruct hi as [h|].
  - apply key_rounds_loop; [|done|by apply Hhi]. intros l Hle Hb. apply key_over_above; [lia|done].
  - simpl. rewrite Nat.add_0_r, <-(key_over_above (S (S (length (default [] lo)))) (default [] lo)) by (done || lia). done.
Qed.

#[export] Instance no_later_trans : Transitive no_later.
Proof.
  intros a b c. unfold no_later. rewrite (cmp_anti (sort a) (sort b)), (cmp_anti (sort b) (sort c)), (cmp_anti (sort a) (sort c)).
  intros. pose proof (cmp_trans_le (cmp := compare) (sort a) (sort b) (sort c)). lia.
Qed.
#[export] Instance no_later_total : Total no_later.
Proof. intros a b. unfold no_later. rewrite (cmp_anti (sort a) (sort b)). lia. Qed.

Lemma sift_Permutation r l : sift r l ≡ₚ r :: l.
Proof. induction l as [|y l IH]; simpl; [done|]. case_decide; [rewrite IH; apply Permutation_swap|done]. Qed.
Lemma sift_sorted r l : StronglySorted no_later l → StronglySorted no_later (sift r l).
Proof.
  induction 1 as [|y l Hs IH Hy]; simpl; [by repeat constructor|]. case_decide as Hd.
  - constructor; [done|]. rewrite sift_Permutation. by constructor.
  - destruct (total no_later y r) as [?|Hr]; [done|]. constructor; [by constructor|]. constructor; [done|].
    eapply Forall_impl; [exact Hy|]. intros z Hz. by etransitivity.
Qed.
Lemma sort_slice_spec l : sort_slice l ≡ₚ l ∧ StronglySorted no_later (sort_slice l).
Proof.
  unfold sort_slice. assert (H : ∀ acc, StronglySorted no_later acc → foldl (λ l r, sift r l) acc l ≡ₚ acc ++ l ∧ StronglySorted no_later (foldl (λ l r, sift r l) acc l));
    [|by apply (H []); constructor].
  induction l as [|r l IH]; intros acc Ha; cbn [foldl]; [by rewrite app_nil_r|]. destruct (IH (sift r acc)) as [I1 I2]; [by apply sift_sorted|].
  split; [|done]. rewrite I1, sift_Permutation. apply Permutation_middle.
Qed.

(** ** The frontier holds what it observed *)

Record range_ok (r : TreeDotRange) : Prop := {
  ro_prefix : 0 ≤ Contiguous r ≤ max_i64;
  ro_holes c : c ∈ Sparse r → Contiguous r < c ≤ max_i64;
}.
(** Nothing left to collapse. *)
Definition collapsed (r : TreeDotRange) : Prop := Contiguous r +ₛ 1 ∉ Sparse r.

Lemma Range_Contains_spec r c : Range_Contains r c = true ↔ c ≤ Contiguous r ∨ c ∈ Sparse r.
Proof. unfold Range_Contains. by rewrite orb_true_iff, Z.leb_le, bool_decide_eq_true. Qed.

Lemma max_wraps : max_i64 +ₛ 1 = - two63.
Proof. reflexivity. Qed.

Lemma next_hole r : range_ok r → Contiguous r +ₛ 1 ∈ Sparse r → Contiguous r +ₛ 1 = Contiguous r + 1 ∧ Contiguous r < max_i64.
Proof.
  intros [Hp Hh] Hin. apply Hh in Hin. destruct (decide (Contiguous r = max_i64)) as [E|].
  - rewrite E, max_wraps in Hin. zrange.
  - split; [|lia]. apply i64_small. zrange.
Qed.

Lemma collapse_ok rounds r : range_ok r → (size (Sparse r) ≤ rounds)%nat →
  range_ok (collapse rounds r) ∧ collapsed (collapse rounds r) ∧
  ∀ c, Range_Contains (collapse rounds r) c = true ↔ Range_Contains r c = true.
Proof.
  revert r. induction rounds as [|rounds IH]; intros r Hr Hs; cbn [collapse].
  - split_and!; [done| |done]. unfold collapsed. assert (Sparse r = ∅) as -> by (apply leibniz_equiv, size_empty_inv; lia). apply not_elem_of_empty.
  - destruct (decide (Contiguous r +ₛ 1 ∈ Sparse r)) as [Hin|]; [|done]. pose proof (next_hole r Hr Hin) as [E Hlt]. rewrite E in *.
    destruct Hr as [Hp Hh]. destruct (IH (mkRange (Contiguous r + 1) (Sparse r ∖ {[Contiguous r + 1]}))) as (I1 & I2 & I3).
    + split; simpl; [lia|]. intros c Hc. apply elem_of_difference in Hc as [Hc Hne]. rewrite elem_of_singleton in Hne. apply Hh in Hc. lia.
    + simpl. rewrite size_difference by (by apply singleton_subseteq_l). rewrite size_singleton. lia.
    + split_and!; [done|done|]. intros c. rewrite I3, !Range_Contains_spec. cbn [Contiguous Sparse].
      rewrite elem_of_difference, elem_of_singleton.
      destruct (decide (c = Contiguous r + 1)) as [->|]; [|split; intros [?|?]; try tauto; left; lia].
      split; [by right|left; lia].
Qed.

(** The loop ends with nothing to collapse, and holds what was held and the
    counter observed. *)
Lemma Range_Observe_ok r c : range_ok r → collapsed r → c ≤ max_i64 →
  range_ok (Range_Observe r c) ∧ collapsed (Range_Observe r c) ∧
  ∀ c', Range_Contains (Range_Observe r c) c' = true ↔ c' = c ∨ Range_Contains r c' = true.
Proof.
  intros Hr Hc Hm. unfold Range_Observe. destruct (Z.leb_spec c (Contiguous r)).
  - split_and!; [done..|]. intros c'. rewrite Range_Contains_spec. split; [by right|]. intros [->|?]; [by left|done].
  - destruct (collapse_ok (size ({[c]} ∪ Sparse r)) (mkRange (Contiguous r) ({[c]} ∪ Sparse r))) as (I1 & I2 & I3); [|done|].
    + destruct Hr as [Hp Hh]. split; simpl; [done|]. intros x Hx. apply elem_of_union in Hx as [->%elem_of_singleton|Hx]; [lia|by apply Hh].
    + split_and!; [done|done|]. intros c'. rewrite I3, !Range_Contains_spec. cbn [Contiguous Sparse]. rewrite elem_of_union, elem_of_singleton. tauto.
Qed.

(** A frontier made by observing [ids]: it holds those, and, of a peer it knows,
    every counter that is not positive. *)
Record frontier_of (f : TreeVersionFrontier) (ids : list OpId) : Prop := {
  fo_ranges p r : f !! p = Some r → range_ok r ∧ collapsed r;
  fo_holds id : Contains f id = true ↔ id ∈ ids ∨ Counter id ≤ 0 ∧ Peer id ∈ Peer <$> ids;
}.

Lemma new_range_ok : range_ok NewTreeDotRange ∧ collapsed NewTreeDotRange.
Proof. split; [split; simpl; [zrange|]; intros c Hc; by apply not_elem_of_empty in Hc|]. apply not_elem_of_empty. Qed.

Lemma frontier_of_empty : frontier_of NewTreeVersionFrontier [].
Proof.
  unfold NewTreeVersionFrontier. split; [by intros p r Hp; rewrite lookup_empty in Hp|]. intros id. unfold Contains. rewrite lookup_empty.
  split; [done|]. intros [Hin|[_ Hin]]; by apply elem_of_nil in Hin.
Qed.

Lemma Observe_ok f ids id : frontier_of f ids → 0 < Counter id ≤ max_i64 → frontier_of (Observe f id) (ids ++ [id]).
Proof.
  intros [Hr Hh] Hid. set (r := default NewTreeDotRange (f !! Peer id)).
  assert (Hro : range_ok r ∧ collapsed r).
  { unfold r. destruct (f !! Peer id) as [r'|] eqn:E; [by apply (Hr (Peer id))|apply new_range_ok]. }
  destruct Hro as [R1 R2]. destruct (Range_Observe_ok r (Counter id) R1 R2) as (I1 & I2 & I3); [lia|]. split.
  - intros p r'. unfold Observe. destruct (decide (Peer id = p)) as [<-|]; [rewrite lookup_insert_eq; by intros [= <-]|].
    rewrite lookup_insert_ne by done. apply Hr.
  - intros x. unfold Contains, Observe. rewrite fmap_app, !elem_of_app, !list_elem_of_singleton. specialize (Hh x). unfold Contains in Hh.
    destruct (decide (Peer id = Peer x)) as [Ep|Ne].
    + rewrite Ep, lookup_insert_eq, <-Ep. fold r. rewrite I3.
      assert (Hx : Range_Contains r (Counter x) = true ↔ x ∈ ids ∨ Counter x ≤ 0).
      { unfold r. rewrite Ep. destruct (f !! Peer x) as [r'|] eqn:E.
        - simpl. rewrite Hh. split; [tauto|]. intros [?|Hle]; [by left|]. apply Hh.
          apply Range_Contains_spec. left. destruct (Hr _ _ E) as [[Hp _] _]. lia.
        - simpl. rewrite Range_Contains_spec. simpl. rewrite elem_of_empty. split; [intros [?|[]]; by right|].
          intros [Hin|?]; [|by left]. discriminate (proj2 Hh (or_introl Hin)). }
      rewrite Hx. assert (Hxi : Counter x = Counter id ↔ x = id) by (destruct x, id; simpl in *; naive_solver).
      assert (Peer id ∈ Peer <$> [id]) by apply list_elem_of_here. rewrite Hxi. tauto.
    + rewrite lookup_insert_ne by done. rewrite Hh. split; [tauto|].
      intros [[?| ->]|[? [?|Hp]]]; [tauto|done|tauto|]. apply list_elem_of_singleton in Hp. congruence.
Qed.
