(* ===== verification/LosslessView.v ===== *)
(** * LosslessView: what the operations of the document tree do (lossless_tree_crdt.go)

    The specification of [LosslessTree]: a node without its caches, its text's
    owner and its [textHead]; an operation as the writes it makes, each to one
    node; a log as the run of its operations.  [applyOp] implements it
    ([applyOp_view]); writes that do not conflict commute, so two logs of the same
    operations that order the conflicting ones alike have the same run
    ([run_converges]). *)

From S2P Require Import Prelude Hlc TextCrdt LosslessTree.

Local Open Scope Z_scope.

(** ** Views *)

Inductive vbody := VElement (elementKind : string) | VLeaf (leafKind : LeafKind) (elems : gmap OpId textElem).
Record vnode := mkView { v_parent : option OpId; v_sort : TreeSortKey; v_stamp : OpId; v_body : vbody; v_tomb : option OpId }.

Definition view_body (b : treeBody) : vbody :=
  match b with Element k => VElement k | Leaf k x => VLeaf k (elems x) end.
Definition view (n : treeNode) : vnode := mkView (parent n) (sort n) (sortStamp n) (view_body (body n)) (tomb n).
Definition views (t : LosslessTreeCrdt) : gmap OpId vnode := view <$> nodes t.

Definition vwith_body (b : vbody) (v : vnode) : vnode := mkView (v_parent v) (v_sort v) (v_stamp v) b (v_tomb v).
Definition vwith_tomb (d : option OpId) (v : vnode) : vnode := mkView (v_parent v) (v_sort v) (v_stamp v) (v_body v) d.
Definition vwith_sort (s : TreeSortKey) (i : OpId) (v : vnode) : vnode := mkView (v_parent v) s i (v_body v) (v_tomb v).

(** The characters of an element set, and the element set of fresh characters. *)
Definition text_str (e : gmap OpId textElem) : list string := default [] (text_of e).
Definition fresh (p : PeerId) (s : list string) : gmap OpId textElem := from_option elems ∅ (TextCrdtFromStr p s).
Definition edit_text (e : gmap OpId textElem) (ops : list TextOp) : gmap OpId textElem :=
  (fold_changed merge_step e (op_entry <$> ops)).1.

(** ** Writes *)

Inductive write :=
  | WNew (v : vnode)
  | WTomb (id : OpId)
  | WSort (key : TreeSortKey) (id : OpId)
  | WEdit (ops : list TextOp)
  | WText (e : gmap OpId textElem).
Definition effect (w : write) (o : option vnode) : option vnode :=
  match w with
  | WNew v => Some (default v o)
  | WTomb id => (λ v, vwith_tomb (bury id (v_tomb v)) v) <$> o
  | WSort key id => (λ v, if 0 <? OpId_Compare id (v_stamp v) then vwith_sort key id v else v) <$> o
  | WEdit ops => (λ v, match v_body v with VLeaf k e => vwith_body (VLeaf k (edit_text e ops)) v | VElement _ => v end) <$> o
  | WText e => (λ v, match v_body v with VLeaf k _ => vwith_body (VLeaf k e) v | VElement _ => v end) <$> o
  end.
Definition apply_write (m : gmap OpId vnode) (w : OpId * write) : gmap OpId vnode := partial_alter (effect w.2) w.1 m.

Definition seed_view (id : OpId) (s : TreeNodeSeed) : vbody :=
  match s with TreeNodeSeedElement k => VElement k | TreeNodeSeedLeaf k text => VLeaf k (fresh (Peer id) text) end.
Definition leaf_of (m : gmap OpId vnode) (n : OpId) : option (vnode * LeafKind * gmap OpId textElem) :=
  v ← m !! n; match v_body v with VLeaf k e => Some (v, k, e) | VElement _ => None end.
(** The writes of an operation, which a split and a merge choose by what they read. *)
Definition writes (m : gmap OpId vnode) (op : TreeOp) : list (OpId * write) :=
  match o_Kind op with
  | TreeOpCreateNode id p key seed => [(id, WNew (mkView (Some p) key (o_Id op) (seed_view id seed) None))]
  | TreeOpTombstone n => [(n, WTomb (o_Id op))]
  | TreeOpReorder n key => [(n, WSort key (o_Id op))]
  | TreeOpLeafEdit n _ ops => [(n, WEdit ops)]
  | TreeOpSplitLeaf n new key at_ _ =>
      match leaf_of m n with
      | Some (v, k, e) =>
          let s := text_str e in
          [(n, WText (fresh (Peer n) (take (Z.to_nat at_) s)));
           (new, WNew (mkView (v_parent v) key (o_Id op) (VLeaf k (fresh (Peer new) (drop (Z.to_nat at_) s))) None))]
      | None => []
      end
  | TreeOpMergeLeaves l r _ _ =>
      match leaf_of m l, leaf_of m r with
      | Some (_, _, el), Some (_, _, er) => [(l, WText (fresh (Peer l) (text_str el ++ text_str er))); (r, WTomb (o_Id op))]
      | _, _ => []
      end
  end.
Definition vstep (m : gmap OpId vnode) (op : TreeOp) : gmap OpId vnode := foldl apply_write m (writes m op).
Definition vinit : gmap OpId vnode := views (NewLosslessTreeCrdt 0).
Definition run (l : list TreeOp) : gmap OpId vnode := foldl vstep vinit l.

(** ** Well-formed operations *)

(** What the counters of one document stay under. *)
Definition cap : Z := 2305843009213693952.
Definition entry_wf (ie : OpId * textElem) : Prop := elem_wf cap ie.1 ie.2.
(** The operations replicas emit: fresh nodes are named by the operation that
    makes them, an edit's elements are each newer than their origin. *)
Definition op_wf (op : TreeOp) : Prop :=
  0 < Counter (o_Id op) ≤ cap ∧
  match o_Kind op with
  | TreeOpCreateNode id _ _ seed => id = o_Id op ∧ match seed with TreeNodeSeedLeaf _ s => Z.of_nat (length s) ≤ cap | _ => True end
  | TreeOpLeafEdit _ _ ops => Forall (entry_wf ∘ op_entry) ops ∧ NoDup (op_entry <$> ops).*1
  | TreeOpSplitLeaf _ new _ at_ _ => new = o_Id op ∧ 0 ≤ at_
  | _ => True
  end.
(** No text longer than half of [cap], so that two can be joined. *)
Definition fits (m : gmap OpId vnode) : Prop :=
  ∀ n v k e, m !! n = Some v → v_body v = VLeaf k e → 2 * Z.of_nat (length (text_str e)) ≤ cap.

(** ** [applyOp] implements the writes *)

Definition text_ok (x : TextCrdt) : Prop := TextCrdt.inv x ∧ counter x ≤ cap.
Definition texts_ok (t : LosslessTreeCrdt) : Prop :=
  ∀ n r k x, get t n = Some r → body r = Leaf k x → text_ok x.

Lemma text_read x : text_ok x → ∃ x', Text x = Some (x', text_str (elems x)) ∧ text_ok x' ∧ elems x' = elems x.
Proof.
  intros [Hi Hw]. destruct (Text_ok x Hi) as (x' & v & Ht & Hv & Hi' & He & Hc & _). exists x'.
  unfold text_str. rewrite (text_of_walk _ _ Hv). split_and!; [done| |done]. split; [done|]. by rewrite Hc.
Qed.

Lemma fresh_ok p s : Z.of_nat (length s) ≤ cap →
  ∃ x, TextCrdtFromStr p s = Some x ∧ text_ok x ∧ elems x = fresh p s ∧ text_str (fresh p s) = s.
Proof.
  intros Hl. unfold cap in Hl.
  assert (Hx : TextCrdtFromStr p s = Some (insert_chain (NewTextCrdt p) None s)) by done.
  destruct (insert_chain_ok s (NewTextCrdt p) [] 0) as (Hi & Hc & _ & Ht); simpl; try done; try zrange.
  simpl in Hi, Hc, Ht. rewrite app_nil_r in Ht.
  exists (insert_chain (NewTextCrdt p) None s). unfold fresh. rewrite Hx. simpl. split_and!; [done| |done|].
  - split; [done|]. rewrite Hc. unfold cap. lia.
  - unfold text_str. by rewrite Ht.
Qed.

(** Reading moves no clock, merging moves it to the largest one seen. *)
Lemma Text_counter x x' s : Text x = Some (x', s) → counter x' = counter x.
Proof.
  unfold Text, orderedIds. destruct (orderedLiveCache x); [by intros [= <- <-]|].
  destruct (TextCrdt.walk (elems x) false); [|done]. by intros [= <- <-].
Qed.
Lemma merge_all_counter x l x' b : merge_all x l = Some (x', b) → counter x' = foldl (λ c ie, observe_op c ie.1 ie.2) (counter x) l.
Proof.
  unfold merge_all. destruct (Text x) as [[x1 s]|] eqn:E1; [|done]. cbn [mbind option_bind]. rewrite fold_mergeElem.
  apply Text_counter in E1. rewrite E1. set (y := if _ : bool then _ else _).
  assert (Hy : counter y = foldl (λ c ie, observe_op c ie.1 ie.2) (counter x) l) by (unfold y; by case_match). clearbody y.
  destruct (Text y) as [[x2 s2]|] eqn:E2; [|done]. apply Text_counter in E2. cbn [mbind option_bind]. intros [= <- _]. congruence.
Qed.
Lemma observe_op_le c id e : c ≤ cap → elem_wf cap id e → observe_op c id e ≤ cap.
Proof.
  intros Hc (H1 & _ & H3). unfold observe_op. destruct (deleted e) as [d|]; [specialize (H3 d eq_refl)|]; repeat case_match; lia.
Qed.

Lemma apply_delta_ok x ops : text_ok x → Forall (entry_wf ∘ op_entry) ops → NoDup (op_entry <$> ops).*1 →
  ∃ x' b, ApplyDelta x ops = Some (x', b) ∧ text_ok x' ∧ elems x' = edit_text (elems x) ops.
Proof.
  intros [Hi Hw] Ho Hnd. unfold ApplyDelta.
  assert (Hf : Forall (λ ie, elem_wf cap ie.1 ie.2) (op_entry <$> ops)) by by apply Forall_fmap.
  destruct (merge_all_ok x (op_entry <$> ops) cap Hi Hf Hnd) as (x' & b & Hx & Hi' & _ & He & _).
  exists x', b. split_and!; [done| |done]. split; [done|]. rewrite (merge_all_counter _ _ _ _ Hx). clear -Hf Hw.
  revert Hw. generalize (counter x) as c. induction Hf as [|ie l Hie _ IH]; intros c Hw; [done|]. simpl. apply IH. by apply observe_op_le.
Qed.

(** *** Looking through the view *)

Lemma views_lookup t n : views t !! n = view <$> get t n.
Proof. apply lookup_fmap. Qed.

Lemma views_insert t n r : views (with_nodes (<[n := r]>) t) = <[n := view r]> (views t).
Proof. unfold views. simpl. by rewrite fmap_insert. Qed.

Lemma views_alter t n (f : treeNode → treeNode) (g : vnode → vnode) : (∀ r, view (f r) = g (view r)) → views (with_nodes (alter f n) t) = alter g n (views t).
Proof.
  intros Hfg. unfold views. simpl. apply map_eq. intros i. rewrite lookup_fmap.
  destruct (decide (n = i)) as [<-|]; [|by rewrite !lookup_alter_ne, lookup_fmap].
  rewrite !lookup_alter_eq, lookup_fmap. destruct (nodes t !! n); simpl; [by rewrite Hfg|done].
Qed.

Lemma leaf_of_views t n : leaf_of (views t) n =
  r ← get t n; match body r with Leaf k x => Some (view r, k, elems x) | Element _ => None end.
Proof. unfold leaf_of. rewrite views_lookup. destruct (get t n) as [r|]; simpl; [|done]. by destruct (body r). Qed.

Lemma views_insert_node n t : views (insert_node n t) = <[n_id n := view n]> (views t).
Proof. unfold insert_node. destruct (parent n); apply (views_insert t (n_id n) n). Qed.

Lemma get_insert_node n t i : get (insert_node n t) i = if decide (n_id n = i) then Some n else get t i.
Proof.
  unfold get, insert_node. assert (<[n_id n := n]> (nodes t) !! i = if decide (n_id n = i) then Some n else nodes t !! i).
  { case_decide; [subst; by rewrite lookup_insert_eq|by rewrite lookup_insert_ne]. }
  destruct (parent n); done.
Qed.

Lemma texts_ok_insert_node n t : texts_ok t → (∀ k x, body n = Leaf k x → text_ok x) → texts_ok (insert_node n t).
Proof. intros Ht Hn i r k x. rewrite get_insert_node. case_decide; [intros [= <-]; apply Hn|apply Ht]. Qed.

Lemma texts_ok_alter t n (f : treeNode → treeNode) : texts_ok t → (∀ r k x, get t n = Some r → body (f r) = Leaf k x → text_ok x) →
  texts_ok (with_nodes (alter f n) t).
Proof.
  intros Ht Hf i r k x. unfold get, with_nodes. simpl. destruct (decide (n = i)) as [<-|]; [|rewrite lookup_alter_ne by done; apply Ht].
  rewrite lookup_alter_eq. destruct (nodes t !! n) as [r'|] eqn:E; [|done]. simpl. intros [= <-]. by apply Hf.
Qed.

Lemma insert_as_alter t n r (f : treeNode → treeNode) : get t n = Some r → with_nodes (<[n := f r]>) t = with_nodes (alter f n) t.
Proof.
  intros Hr. unfold with_nodes. f_equal. apply map_eq. intros i. unfold get in Hr. destruct (decide (n = i)) as [<-|].
  - by rewrite lookup_insert_eq, lookup_alter_eq, Hr.
  - by rewrite lookup_insert_ne, lookup_alter_ne.
Qed.

Lemma views_set_leaf t n h k x r :
  get t n = Some r → body r = Leaf k x → ∀ x',
  views (with_nodes (alter (λ r, with_head h (with_body (Leaf k x') r)) n) t) = apply_write (views t) (n, WText (elems x')).
Proof.
  intros Hr Hb x'. unfold apply_write. apply map_eq. intros i. unfold views. rewrite lookup_fmap. simpl. unfold get in Hr.
  destruct (decide (n = i)) as [<-|]; [|by rewrite lookup_alter_ne, lookup_partial_alter_ne, lookup_fmap].
  rewrite lookup_alter_eq, lookup_partial_alter_eq, lookup_fmap, Hr. simpl. by rewrite Hb.
Qed.

Lemma views_tomb t n id : views (with_nodes (alter (λ r, with_tomb (bury id (tomb r)) r) n) t) = apply_write (views t) (n, WTomb id).
Proof. by apply (views_alter t n _ (λ v, vwith_tomb (bury id (v_tomb v)) v)). Qed.

Lemma apply_write_new m n v : m !! n = None → apply_write m (n, WNew v) = <[n := v]> m.
Proof. intros Hn. unfold apply_write. simpl. apply partial_alter_ext. intros ? <-. by rewrite Hn. Qed.

Lemma apply_write_old m n v w : m !! n = Some w → apply_write m (n, WNew v) = m.
Proof.
  intros Hn. apply map_eq. intros i. unfold apply_write. simpl.
  destruct (decide (n = i)) as [<-|]; [by rewrite lookup_partial_alter_eq, Hn|by rewrite lookup_partial_alter_ne].
Qed.

Lemma seed_body_ok id seed : match seed with TreeNodeSeedLeaf _ s => Z.of_nat (length s) ≤ cap | _ => True end →
  ∃ b, seed_body id seed = Some b ∧ view_body b = seed_view id seed ∧ ∀ k x, b = Leaf k x → text_ok x.
Proof.
  destruct seed as [k|k s]; simpl; intros Hs; [by eexists|]. destruct (fresh_ok (Peer id) s Hs) as (x & -> & Hx & He & _).
  eexists. split; [done|]. simpl. split; [by rewrite He|]. by intros ?? [= <- <-].
Qed.

Lemma fits_get t n r k x : fits (views t) → get t n = Some r → body r = Leaf k x → 2 * Z.of_nat (length (text_str (elems x))) ≤ cap.
Proof. intros Hf Hr Hb. apply (Hf n (view r) k); [by rewrite views_lookup, Hr|simpl; by rewrite Hb]. Qed.

Lemma take_min {A} (l : list A) n : take (Nat.min n (length l)) l = take n l.
Proof. destruct (Nat.le_ge_cases n (length l)); [by rewrite Nat.min_l|rewrite Nat.min_r by done; by rewrite firstn_all, take_ge]. Qed.
Lemma drop_min {A} (l : list A) n : drop (Nat.min n (length l)) l = drop n l.
Proof. destruct (Nat.le_ge_cases n (length l)); [by rewrite Nat.min_l|rewrite Nat.min_r by done; by rewrite drop_all, drop_ge]. Qed.

Definition same_frame (t t' : LosslessTreeCrdt) : Prop :=
  t_peer t' = t_peer t ∧ t_counter t' = t_counter t ∧ frontier t' = frontier t ∧ log t' = log t ∧ buffered t' = buffered t.

Lemma applySplit_view t n new key at_ prev id :
  texts_ok t → fits (views t) → 0 ≤ at_ →
  ∃ t', applySplit t n new key at_ id = Some t' ∧ texts_ok t' ∧ same_frame t t' ∧
    views t' = foldl apply_write (views t) (writes (views t) (mkTreeOp id (TreeOpSplitLeaf n new key at_ prev))).
Proof.
  intros Ht Hf Ha. unfold applySplit, writes. cbn [o_Kind o_Id]. rewrite leaf_of_views.
  destruct (get t n) as [r|] eqn:Hr; [|by exists t]. cbn [mbind option_bind]. destruct (body r) as [k|k x] eqn:Hb; [by exists t|].
  pose proof (Ht _ _ _ _ Hr Hb) as Hx. pose proof (fits_get _ _ _ _ _ Hf Hr Hb) as Hlen.
  destruct (text_read x Hx) as (x1 & -> & _). cbn [mbind option_bind]. rewrite (proj2 (Z.ltb_ge _ _)) by done.
  rewrite take_min, drop_min. set (s := text_str (elems x)) in *.
  destruct (fresh_ok (Peer n) (take (Z.to_nat at_) s)) as (hd_ & -> & Hh & Eh & _); [rewrite length_take; lia|].
  destruct (fresh_ok (Peer new) (drop (Z.to_nat at_) s)) as (tl_ & -> & Hl & El & _); [rewrite length_drop; lia|].
  cbn [mbind option_bind]. rewrite (insert_as_alter t n r (λ r, with_head id (with_body (Leaf k hd_) r)) Hr). set (t1 := with_nodes _ t).
  assert (Hv1 : views t1 = apply_write (views t) (n, WText (fresh (Peer n) (take (Z.to_nat at_) s)))) by (rewrite <-Eh; by eapply views_set_leaf).
  assert (Ht1 : texts_ok t1) by (apply texts_ok_alter; [done|]; intros ??? _ [= <- <-]; done).
  cbn [foldl]. rewrite <-Hv1. assert (Hg : views t1 !! new = view <$> get t1 new) by apply views_lookup.
  destruct (get t1 new) as [r'|] eqn:E.
  - exists t1. split_and!; [done..|]. by rewrite (apply_write_old _ _ _ (view r')) by done.
  - eexists. split; [done|]. split; [apply texts_ok_insert_node; [done|]; intros ?? [= <- <-]; done|].
    split; [unfold insert_node; simpl; by destruct (parent r)|]. rewrite views_insert_node, apply_write_new by done.
    unfold view at 1. simpl. by rewrite El.
Qed.

Lemma applyMerge_view t l r pl pr id :
  texts_ok t → fits (views t) →
  ∃ t', applyMerge t l r id = Some t' ∧ texts_ok t' ∧ same_frame t t' ∧
    views t' = foldl apply_write (views t) (writes (views t) (mkTreeOp id (TreeOpMergeLeaves l r pl pr))).
Proof.
  intros Ht Hf. unfold applyMerge, writes. cbn [o_Kind o_Id]. rewrite !leaf_of_views in *.
  destruct (get t l) as [nl|] eqn:Hl; [|by exists t]. cbn [mbind option_bind] in *.
  destruct (get t r) as [nr|] eqn:Hr; cbn [mbind option_bind] in *; [|exists t; split_and!; [done..|]; by destruct (body nl)].
  destruct (body nl) as [kl|kl xl] eqn:Bl; [by exists t|]. destruct (body nr) as [kr|kr xr] eqn:Br; [by exists t|].
  destruct (text_read xl (Ht _ _ _ _ Hl Bl)) as (xl' & -> & _). destruct (text_read xr (Ht _ _ _ _ Hr Br)) as (xr' & -> & Hxr & Exr).
  cbn [mbind option_bind]. pose proof (fits_get _ _ _ _ _ Hf Hl Bl). pose proof (fits_get _ _ _ _ _ Hf Hr Br).
  destruct (fresh_ok (Peer l) (text_str (elems xl) ++ text_str (elems xr))) as (x & -> & Hx & Ex & _); [rewrite length_app; lia|].
  cbn [mbind option_bind]. set (t1 := with_nodes (alter (with_body (Leaf kr xr')) r) t).
  assert (Hv1 : views t1 = views t).
  { unfold t1. apply map_eq. intros i. unfold views. rewrite !lookup_fmap. simpl. destruct (decide (r = i)) as [<-|]; [|by rewrite lookup_alter_ne].
    unfold get in Hr. rewrite lookup_alter_eq, Hr. simpl. unfold view. simpl. by rewrite Br, Exr. }
  assert (Ht1 : texts_ok t1) by (apply texts_ok_alter; [done|]; intros ??? _ [= <- <-]; done).
  assert (∃ nl' x', get t1 l = Some nl' ∧ body nl' = Leaf kl x') as (nl' & x' & Hl1 & Bl1).
  { unfold get, t1. simpl. unfold get in Hl, Hr. destruct (decide (r = l)) as [->|]; [|rewrite lookup_alter_ne, Hl by done; eauto].
    assert (nr = nl) as -> by congruence. assert (kr = kl) as -> by congruence. rewrite lookup_alter_eq, Hl. simpl. eauto. }
  eexists. split; [done|]. split; [|split; [done|]].
  - apply texts_ok_alter; [apply texts_ok_alter; [done|]; intros ??? _ [= <- <-]; done|].
    intros r' k y. unfold get. simpl. destruct (decide (l = r)) as [<-|].
    + rewrite lookup_alter_eq. unfold get in Hl1. simpl in Hl1. rewrite Hl1. simpl. intros [= <-]. simpl. by intros [= <- <-].
    + rewrite lookup_alter_ne by done. apply Ht1.
  - rewrite views_tomb, (views_set_leaf t1 l id kl x' nl' Hl1 Bl1 x), Hv1, Ex. done.
Qed.

(** An operation succeeds, makes its writes and keeps the texts sound. *)
Lemma applyOp_view t op : texts_ok t → fits (views t) → op_wf op →
  ∃ t', applyOp t op = Some t' ∧ texts_ok t' ∧ same_frame t t' ∧ views t' = vstep (views t) op.
Proof.
  intros Ht Hf [_ Hw]. destruct op as [id kind]. unfold applyOp, vstep. cbn [o_Kind o_Id] in *.
  destruct kind as [i p key seed|n|n key|n prev ops|n new key at_ prev|l r pl pr].
  - unfold writes. cbn [o_Kind o_Id foldl]. pose proof (views_lookup t i) as Hv. destruct (get t i) as [r|] eqn:E; simpl in Hv.
    + exists t. split_and!; [done..|]. by rewrite (apply_write_old _ _ _ _ Hv).
    + destruct (seed_body_ok i seed (proj2 Hw)) as (b & -> & Eb & Hb). cbn [mbind option_bind]. eexists. split; [done|].
      split; [by apply texts_ok_insert_node|]. split; [done|]. rewrite views_insert_node, apply_write_new by done.
      unfold view at 1. simpl. by rewrite Eb.
  - eexists. split; [done|]. split; [|split; [done|apply views_tomb]]. apply texts_ok_alter; [done|]. intros r k x Hr. apply (Ht n r k x Hr).
  - eexists. split; [done|]. split; [|split; [done|]].
    + apply texts_ok_alter; [done|]. intros r k x Hr. destruct (0 <? _); apply (Ht n r k x Hr).
    + apply (views_alter t n _ (λ v, if 0 <? OpId_Compare id (v_stamp v) then vwith_sort key id v else v)).
      intros r. unfold view at 2. cbn [v_stamp]. by destruct (0 <? _).
  - unfold writes. cbn [o_Kind o_Id foldl]. pose proof (views_lookup t n) as Hv. destruct (get t n) as [r|] eqn:E; simpl in Hv.
    + destruct (body r) as [k|k x] eqn:Hb.
      * exists t. split_and!; [done..|]. unfold apply_write. simpl. apply map_eq. intros j. destruct (decide (n = j)) as [<-|]; [|by rewrite lookup_partial_alter_ne].
        rewrite lookup_partial_alter_eq, Hv. simpl. by rewrite Hb.
      * destruct Hw as [Hw Hnd]. destruct (apply_delta_ok x ops (Ht _ _ _ _ E Hb) Hw Hnd) as (x' & b & -> & Hx' & Ex). cbn [mbind option_bind].
        eexists. split; [done|]. rewrite (insert_as_alter t n r (λ r, with_head id (with_body (Leaf k x') r)) E). split; [|split; [done|]].
        -- apply texts_ok_alter; [done|]. by intros ??? _ [= <- <-].
        -- rewrite (views_set_leaf t n id k x r E Hb). unfold apply_write. apply partial_alter_ext. intros o Ho.
           cbn [fst] in Ho. rewrite Hv in Ho. subst o. simpl. by rewrite Hb, Ex.
    + exists t. split_and!; [done..|]. unfold apply_write. simpl. apply map_eq. intros j. destruct (decide (n = j)) as [<-|]; [|by rewrite lookup_partial_alter_ne].
      by rewrite lookup_partial_alter_eq, Hv.
  - apply applySplit_view; [done|done|apply Hw].
  - by apply applyMerge_view.
Qed.

(** ** Operations that do not conflict commute *)

Definition news (op : TreeOp) : list OpId :=
  match o_Kind op with TreeOpCreateNode id _ _ _ => [id] | TreeOpSplitLeaf _ new _ _ _ => [new] | _ => [] end.
(** The leaves whose text the operation reads or writes. *)
Definition texts_on (op : TreeOp) : list OpId :=
  match o_Kind op with
  | TreeOpLeafEdit n _ _ | TreeOpSplitLeaf n _ _ _ _ => [n]
  | TreeOpMergeLeaves l r _ _ => [l; r]
  | _ => []
  end.
Definition touches (op : TreeOp) : list OpId :=
  news op ++ texts_on op ++ match o_Kind op with TreeOpTombstone n | TreeOpReorder n _ => [n] | _ => [] end.
(** Two edits agree on the characters they both carry. *)
Definition agree (a b : list TextOp) : Prop :=
  Forall (λ x, Forall (λ y, Id x = Id y → Ch x = Ch y ∧ Origin x = Origin y) b) a.
Definition both_edit (a b : TreeOp) : Prop :=
  match o_Kind a, o_Kind b with TreeOpLeafEdit _ _ x, TreeOpLeafEdit _ _ y => agree x y | _, _ => False end.
(** One makes a node the other is about, or both are about the text of a leaf
    and are not two edits. *)
Definition conflict (a b : TreeOp) : Prop :=
  Exists (λ n, n ∈ touches b) (news a) ∨ Exists (λ n, n ∈ touches a) (news b) ∨
  Exists (λ n, n ∈ texts_on b) (texts_on a) ∧ ¬ both_edit a b.
#[export] Instance both_edit_dec a b : Decision (both_edit a b).
Proof. unfold both_edit, agree. repeat case_match; apply _. Defined.
#[export] Instance conflict_dec a b : Decision (conflict a b).
Proof. unfold conflict. apply _. Defined.

(** *** Writes to one node *)

Definition wcomm (a b : write) : Prop :=
  match a, b with
  | WNew _, _ | _, WNew _ => False
  | WSort _ i, WSort _ j => i ≠ j
  | WEdit x, WEdit y => agree x y
  | WEdit _, WText _ | WText _, WEdit _ | WText _, WText _ => False
  | _, _ => True
  end.

Lemma foldl_swap {A B} (f : A → B → A) s l1 l2 :
  (∀ x y s, x ∈ l1 → y ∈ l2 → f (f s x) y = f (f s y) x) → foldl f (foldl f s l1) l2 = foldl f (foldl f s l2) l1.
Proof.
  intros H. revert s. induction l2 as [|y l2 IH]; intros s; [done|]. simpl.
  rewrite <-IH by (intros; apply H; set_solver). f_equal.
  assert (H' : ∀ x s, x ∈ l1 → f (f s x) y = f (f s y) x) by (intros; apply H; [done|apply list_elem_of_here]).
  clear H IH. revert s. induction l1 as [|x l1 IH]; intros s; [done|]. simpl.
  rewrite IH by (intros; apply H'; set_solver). by rewrite H' by apply list_elem_of_here.
Qed.

Definition text_write (e : gmap OpId textElem) (o : TextOp) : gmap OpId textElem :=
  partial_alter (λ x, join_into (λ x e, (merge_entry (Some x) e).1) x (op_entry o).2) (op_entry o).1 e.
Lemma edit_text_fold e ops : edit_text e ops = foldl text_write e ops.
Proof.
  unfold edit_text. rewrite fold_changed_state. revert e. induction ops as [|o ops IH]; intros e; [done|]. csimpl.
  by rewrite merge_step_state, IH.
Qed.

Lemma join_text_Some x w : join_into (λ x e, (merge_entry (Some x) e).1) (Some x) w = Some (mkTextElem (ch x) (origin x) (del_join (deleted x) (deleted w))).
Proof. unfold join_into. f_equal. apply merge_entry_Some. Qed.
Lemma join_text_None w : join_into (λ x e, (merge_entry (Some x) e).1) None w = Some w.
Proof. done. Qed.

Lemma edit_text_comm e a b : agree a b → edit_text (edit_text e a) b = edit_text (edit_text e b) a.
Proof.
  intros Hab. rewrite !edit_text_fold. apply foldl_swap. intros x y s Hx Hy. unfold text_write.
  unfold agree in Hab. rewrite Forall_forall in Hab. specialize (Hab x Hx). rewrite Forall_forall in Hab. specialize (Hab y Hy).
  simpl. destruct (decide (Id x = Id y)) as [E|Hne]; [|by rewrite partial_alter_partial_alter_ne].
  destruct (Hab E) as [Hc Ho]. rewrite E, !partial_alter_partial_alter_eq. apply partial_alter_ext. intros o _. unfold compose. cbv beta.
  destruct o as [o|]; rewrite ?join_text_None, !join_text_Some; cbn [op_entry snd ch origin deleted]; f_equal.
  - by rewrite <-!del_join_assoc, (del_join_comm (Deleted x)).
  - by rewrite Hc, Ho, del_join_comm.
Qed.

Lemma bury_del_join id d : bury id d = del_join (Some id) d.
Proof.
  unfold bury, minOpId, del_join. destruct d as [a|]; [|done]. f_equal.
  pose proof (cmp_eq (cmp := OpId_Compare) a id). destruct (Z.leb_spec (OpId_Compare a id) 0), (Z.ltb_spec (OpId_Compare a id) 0); try lia; try done.
  apply H. lia.
Qed.

Lemma effect_comm a b o : wcomm a b → effect a (effect b o) = effect b (effect a o).
Proof.
  intros Hc. destruct o as [v|]; [|by destruct a, b].
  assert (Hs : ∀ k i k' j, i ≠ j → effect (WSort k i) (effect (WSort k' j) (Some v)) = effect (WSort k' j) (effect (WSort k i) (Some v))).
  { intros k i k' j Hij. cbn [effect fmap option_fmap option_map]. f_equal. destruct v as [p s st bo to]. cbn [v_stamp].
    pose proof (cmp_anti (cmp := OpId_Compare) i j). pose proof (cmp_eq (cmp := OpId_Compare) i j).
    pose proof (cmp_trans (cmp := OpId_Compare) st i j). pose proof (cmp_trans (cmp := OpId_Compare) st j i).
    pose proof (cmp_trans_le (cmp := OpId_Compare) j i st). pose proof (cmp_trans_le (cmp := OpId_Compare) i j st).
    pose proof (cmp_anti (cmp := OpId_Compare) i st). pose proof (cmp_anti (cmp := OpId_Compare) j st).
    assert (OpId_Compare i j ≠ 0) by tauto.
    destruct (Z.ltb_spec 0 (OpId_Compare j st)), (Z.ltb_spec 0 (OpId_Compare i st)); unfold vwith_sort; cbn [v_stamp v_parent v_sort v_body v_tomb];
      repeat match goal with |- context [0 <? ?x] => destruct (Z.ltb_spec 0 x) end; try done; lia. }
  destruct a as [|i|k i|x|x], b as [|j|k' j|y|y]; cbn [wcomm] in Hc; try done; try (by apply Hs).
  all: cbn [effect fmap option_fmap option_map]; f_equal; destruct v as [p s st bo to]; cbn [v_stamp].
  all: repeat (unfold vwith_tomb, vwith_sort, vwith_body; cbn [v_stamp v_parent v_sort v_body v_tomb]).
  all: try (by destruct (0 <? _)); try (by destruct bo); try (destruct bo; by destruct (0 <? _)).
  - by rewrite !bury_del_join, !del_join_assoc, (del_join_comm (Some i)).
  - destruct bo as [|k e]; [done|]. cbn [v_parent v_sort v_stamp v_body v_tomb]. by rewrite (edit_text_comm e x y).
Qed.

Lemma apply_write_comm m n a k b : n ≠ k ∨ wcomm a b → apply_write (apply_write m (n, a)) (k, b) = apply_write (apply_write m (k, b)) (n, a).
Proof.
  intros H. unfold apply_write. simpl. destruct (decide (n = k)) as [->|]; [|by rewrite partial_alter_partial_alter_ne].
  destruct H as [|H]; [done|]. rewrite !partial_alter_partial_alter_eq. apply partial_alter_ext. intros o _. symmetry. by apply effect_comm.
Qed.

(** *** Operations *)

Lemma writes_in m op n w : (n, w) ∈ writes m op →
  n ∈ touches op ∧
  match w with
  | WNew _ => n ∈ news op
  | WSort _ i => i = o_Id op
  | WText _ => n ∈ texts_on op ∧ ∀ x, ¬ both_edit x op ∧ ¬ both_edit op x
  | WEdit ops => n ∈ texts_on op ∧ ∃ p, o_Kind op = TreeOpLeafEdit n p ops
  | WTomb _ => True
  end.
Proof.
  destruct op as [id kind]. unfold writes, touches, news, texts_on, both_edit. cbn [o_Kind o_Id].
  destruct kind as [i p key seed|k|k key|k prev ops|k new key at_ prev|l r pl pr].
  1-4: intros [= -> ->]%list_elem_of_singleton; split; [set_solver|]; try done; try (split; [set_solver|eauto]); set_solver.
  - destruct (leaf_of m k) as [[[v lk] e]|]; [|by intros ?%elem_of_nil].
    intros [[= -> ->]|[= -> ->]%list_elem_of_singleton]%elem_of_cons; (split; [set_solver|]); [|set_solver].
    split; [set_solver|]. intros x. destruct (o_Kind x); tauto.
  - destruct (leaf_of m l) as [[[v lk] e]|]; [|by intros ?%elem_of_nil]. destruct (leaf_of m r) as [[[v' lk'] e']|]; [|by intros ?%elem_of_nil].
    intros [[= -> ->]|[= -> ->]%list_elem_of_singleton]%elem_of_cons; (split; [set_solver|]); [|done].
    split; [set_solver|]. intros x. destruct (o_Kind x); tauto.
Qed.

Lemma writes_comm m a b : ¬ conflict a b → o_Id a ≠ o_Id b → ∀ x y,
  x ∈ writes m a → y ∈ writes m b → x.1 ≠ y.1 ∨ wcomm x.2 y.2.
Proof.
  intros Hc Hid [n w] [k u] Hx Hy. simpl. destruct (decide (n = k)) as [->|]; [|by left]. right.
  apply writes_in in Hx as [Tx Hx]. apply writes_in in Hy as [Ty Hy]. unfold conflict in Hc. rewrite !Exists_exists in Hc.
  destruct w as [v|i|s i|xs|e].
  - destruct Hc. left. eauto.
  - destruct u; try done. destruct Hc. right; left. eauto.
  - destruct u; try done; [|by subst]. destruct Hc. right; left. eauto.
  - destruct u as [v|j|s' j|ys|e']; try done; [destruct Hc; right; left; eauto| |].
    + destruct Hx as [T1 [p E1]], Hy as [T2 [p' E2]]. destruct (decide (both_edit a b)) as [Hb|Hb].
      * unfold both_edit in Hb. by rewrite E1, E2 in Hb.
      * destruct Hc. right; right. eauto.
    + destruct Hx as [T1 _], Hy as [T2 Hn]. destruct Hc. right; right. split; [eauto|apply Hn].
  - destruct u as [v|j|s' j|ys|e']; try done; [destruct Hc; right; left; eauto| |].
    + destruct Hx as [T1 Hn], Hy as [T2 _]. destruct Hc. right; right. split; [eauto|apply Hn].
    + destruct Hx as [T1 Hn], Hy as [T2 _]. destruct Hc. right; right. split; [eauto|apply Hn].
Qed.

(** A write that is not to the text or the existence of [n] leaves what a split
    or a merge reads of it. *)
Definition reads (m : gmap OpId vnode) (n : OpId) : option (option OpId * vbody) := (λ v, (v_parent v, v_body v)) <$> m !! n.

Lemma leaf_reads m m' n : reads m n = reads m' n →
  (λ t, (v_parent t.1.1, t.1.2, t.2)) <$> leaf_of m n = (λ t, (v_parent t.1.1, t.1.2, t.2)) <$> leaf_of m' n.
Proof.
  unfold reads, leaf_of. destruct (m !! n) as [v|], (m' !! n) as [v'|]; simpl; try done. intros [= Hp Hb]. rewrite Hb.
  destruct (v_body v'); simpl; [done|]. by rewrite Hp.
Qed.

Lemma apply_write_reads m n k w : n ≠ k ∨ (match w with WTomb _ | WSort _ _ => True | _ => False end) →
  reads (apply_write m (k, w)) n = reads m n.
Proof.
  intros H. unfold reads, apply_write. simpl. destruct (decide (n = k)) as [->|]; [|by rewrite lookup_partial_alter_ne].
  rewrite lookup_partial_alter_eq. destruct H as [|H]; [done|].
  destruct w as [v|i|s i|xs|e]; try done; destruct (m !! k) as [v|]; simpl; try done. by destruct (0 <? _).
Qed.

(** The leaves an operation chooses its writes by. *)
Definition reads_of (op : TreeOp) : list OpId :=
  match o_Kind op with TreeOpSplitLeaf n _ _ _ _ => [n] | TreeOpMergeLeaves l r _ _ => [l; r] | _ => [] end.

Lemma writes_reads m m' op : (∀ n, n ∈ reads_of op → reads m n = reads m' n) → writes m op = writes m' op.
Proof.
  destruct op as [id kind]. unfold writes, reads_of. cbn [o_Kind o_Id].
  destruct kind as [i p key seed|k|k key|k prev ops|k new key at_ prev|l r pl pr]; try done; intros H.
  - pose proof (leaf_reads m m' k (H k ltac:(set_solver))) as Hl.
    destruct (leaf_of m k) as [[[v lk] e]|], (leaf_of m' k) as [[[v' lk'] e']|]; simpl in Hl; try done. by injection Hl as -> -> ->.
  - pose proof (leaf_reads m m' l (H l ltac:(set_solver))) as Hl. pose proof (leaf_reads m m' r (H r ltac:(set_solver))) as Hr.
    destruct (leaf_of m l) as [[[v lk] e]|], (leaf_of m' l) as [[[v' lk'] e']|]; simpl in Hl; try done. injection Hl as _ _ ->.
    destruct (leaf_of m r) as [[[w rk] x]|], (leaf_of m' r) as [[[w' rk'] x']|]; simpl in Hr; try done. by injection Hr as _ _ ->.
Qed.

Lemma writes_stable m a b : ¬ conflict a b → writes (vstep m a) b = writes m b.
Proof.
  intros Hc. apply writes_reads. intros n Hn.
  assert (Ht : n ∈ texts_on b ∧ n ∈ touches b ∧ ∀ x, ¬ both_edit x b).
  { unfold reads_of, texts_on, touches, both_edit in *. destruct b as [id kind]. cbn [o_Kind] in *. destruct kind; try (by apply elem_of_nil in Hn).
    all: split; [done|]; split; [set_solver|]; intros x; destruct (o_Kind x); tauto. }
  destruct Ht as (T1 & T2 & Hnb). unfold vstep. assert (Hw : ∀ k w, (k, w) ∈ writes m a → n ≠ k ∨ (match w with WTomb _ | WSort _ _ => True | _ => False end)).
  { intros k w Hkw. destruct (decide (n = k)) as [<-|]; [|by left]. right. apply writes_in in Hkw as [_ Hkw].
    unfold conflict in Hc. rewrite !Exists_exists in Hc. destruct w; try done; destruct Hc; [left; eauto| |]; right; right; (split; [|apply Hnb]);
      destruct Hkw as [? _]; eauto. }
  revert Hw. generalize (writes m a) as l. intros l. revert m. induction l as [|[k w] l IH]; intros m Hw; [done|]. simpl.
  rewrite IH by (intros; apply (Hw _ w0); set_solver). apply apply_write_reads, Hw. apply list_elem_of_here.
Qed.

Lemma conflict_sym a b : conflict a b → conflict b a.
Proof.
  unfold conflict. rewrite !Exists_exists. intros [H|[H|[(n & H1 & H2) Hn]]]; [tauto|tauto|]. right; right. split; [eauto|].
  intros Hb. apply Hn. revert Hb. unfold both_edit. destruct (o_Kind a), (o_Kind b); try done. unfold agree. rewrite !Forall_forall.
  intros Hb x Hx. apply Forall_forall. intros y Hy E. specialize (Hb y Hy). rewrite Forall_forall in Hb. destruct (Hb x Hx) as [-> ->]; done.
Qed.

Lemma vstep_comm m a b : ¬ conflict a b → o_Id a ≠ o_Id b → vstep (vstep m a) b = vstep (vstep m b) a.
Proof.
  intros Hc Hid. unfold vstep at 1 3. rewrite (writes_stable m a b Hc).
  rewrite (writes_stable m b a) by (intros ?%conflict_sym; done).
  unfold vstep. apply foldl_swap. intros [n w] [k u] s Hx Hy. apply apply_write_comm. apply (writes_comm m a b Hc Hid _ _ Hx Hy).
Qed.

(** ** Logs of the same operations *)

Definition earlier (l : list TreeOp) (a b : TreeOp) : Prop := ∃ l1 l2, l = l1 ++ l2 ∧ a ∈ l1 ∧ b ∈ l2.

Lemma run_from_converges m l1 l2 :
  NoDup (o_Id <$> l1) → l1 ≡ₚ l2 → (∀ a b, conflict a b → earlier l1 a b → earlier l2 a b) →
  foldl vstep m l1 = foldl vstep m l2.
Proof.
  revert m l2. induction l1 as [|a l1 IH]; intros m l2 Hnd Hp He; [by apply Permutation_nil_l in Hp as ->|].
  assert (Ha : a ∈ l2) by (rewrite <-Hp; apply list_elem_of_here). apply list_elem_of_split in Ha as (p & q & ->).
  apply Permutation_cons_app_inv in Hp. cbn [fmap list_fmap] in Hnd. apply NoDup_cons in Hnd as [Hna Hnd].
  assert (Hin : ∀ b, b ∈ p ++ q → b ∈ l1) by (intros b Hb; by rewrite Hp).
  assert (Hne : ∀ b, b ∈ l1 → o_Id b ≠ o_Id a) by (intros b Hb E; apply Hna; rewrite <-E; by apply list_elem_of_fmap_2).
  assert (Hnd2 : NoDup (p ++ q)) by (rewrite <-Hp; by eapply NoDup_fmap_1).
  assert (Hc : ∀ b, b ∈ p → ¬ conflict a b).
  { intros b Hb Hab. destruct (He a b Hab) as (l & l' & E & Hal & Hbl).
    - exists [a], l1. split_and!; [done|apply list_elem_of_here|]. apply Hin. set_solver.
    - assert (a ∉ p ++ q) by (intros Hx; by apply (Hne a (Hin a Hx))).
      assert (a ∈ p ∨ b ∈ q) as [?|?]; [|set_solver|apply NoDup_app in Hnd2 as (_ & Hd & _); by apply (Hd b)].
      clear -E Hal Hbl H Hb Hne Hin. apply app_eq_inv in E as [(k & -> & E)|(k & -> & E)].
      + set_solver.
      + destruct k as [|y k]; simpl in E; [rewrite app_nil_r in Hal; set_solver|]. injection E as -> ->. set_solver. }
  transitivity (foldl vstep m (a :: p ++ q)).
  - simpl. apply IH; [done|done|]. intros x y Hxy (u & v & -> & Hx & Hy).
    destruct (He x y Hxy) as (u' & v' & E & Hx' & Hy').
    { exists (a :: u), v. split_and!; [done|set_solver|done]. }
    assert (x ≠ a) by (intros ->; apply (Hne a); [set_solver|done]). assert (y ≠ a) by (intros ->; apply (Hne a); [set_solver|done]).
    apply app_eq_inv in E as [(k & -> & E)|(k & -> & E)].
    + exists u', (k ++ q). split_and!; [by rewrite (assoc_L (++))|done|set_solver].
    + destruct k as [|z k]; simpl in E.
      * subst v'. rewrite app_nil_r in Hx'. exists p, q. split_and!; [done|done|set_solver].
      * injection E as -> ->. exists (p ++ k), v'. split_and!; [by rewrite (assoc_L (++))|set_solver|done].
  - rewrite foldl_app. simpl. rewrite foldl_app. f_equal. clear -Hc Hne Hin. revert m.
    induction p as [|b p IHp]; intros m; [done|]. simpl. rewrite <-IHp by set_solver. f_equal. apply vstep_comm; [apply Hc; set_solver|].
    intros E. apply (Hne b); [apply Hin; set_solver|done].
Qed.

(** Two logs of the same operations that put the conflicting ones in the same
    order have the same run. *)
Lemma run_converges l1 l2 :
  NoDup (o_Id <$> l1) → l1 ≡ₚ l2 → (∀ a b, conflict a b → earlier l1 a b → earlier l2 a b) → run l1 = run l2.
Proof. apply run_from_converges. Qed.
