(* ===== verification/LosslessSync.v ===== *)
(** * LosslessSync: replicas of the document tree (lossless_tree_crdt.go)

    The invariant of a replica: its nodes form a tree, its index is the inverse of
    the parents, its frontier holds exactly the operations of its log, and its
    nodes are what the run of the log gives.  Every operation keeps it; one
    exchange of [Diff] and [ApplyUpdate] delivers every missing operation
    whatever was buffered before, and the drain ends. *)

From S2P Require Import Prelude Hlc TextCrdt LosslessTree LosslessView.

Local Open Scope Z_scope.

(** ** Shapes: the part of a node that never changes *)

Definition is_leaf (b : vbody) : bool := match b with VLeaf _ _ => true | VElement _ => false end.
Abbreviation shapes := (gmap OpId (option OpId * bool)).
Definition shape (m : gmap OpId vnode) : shapes := (λ v, (v_parent v, is_leaf (v_body v))) <$> m.

(** A tree: one element root, every other node under one that was there first. *)
Record tree_wf (s : shapes) : Prop := {
  tw_root : s !! TreeRoot = Some (None, false);
  tw_parents n p b : s !! n = Some (p, b) → n ≠ TreeRoot → is_Some p;
  tw_rank : ∃ rank : OpId → nat, ∀ n p b, s !! n = Some (p, b) →
    (rank n < size s)%nat ∧ ∀ q, p = Some q → is_Some (s !! q) ∧ (rank q < rank n)%nat;
}.

Lemma tree_wf_insert s n p b : tree_wf s → s !! n = None → is_Some (s !! p) → tree_wf (<[n := (Some p, b)]> s).
Proof.
  intros [Hr Hp [rank Hk]] Hn Hs. assert (n ≠ p) by (intros ->; rewrite Hn in Hs; by destruct Hs).
  split.
  - rewrite lookup_insert_ne; [done|]. intros ->. congruence.
  - intros k q c. destruct (decide (n = k)) as [<-|]; [rewrite lookup_insert_eq; by intros [= <- <-]|]. rewrite lookup_insert_ne by done. apply Hp.
  - exists (λ k, if decide (k = n) then size s else rank k). intros k q c. rewrite map_size_insert_None by done.
    assert (Hold : ∀ k, is_Some (s !! k) → k ≠ n) by (intros ? [? ?] ->; congruence).
    destruct (decide (n = k)) as [<-|].
    + rewrite lookup_insert_eq, decide_True by done. intros [= <- <-]. split; [lia|]. intros q [= <-].
      rewrite lookup_insert_ne by done. split; [done|]. rewrite decide_False by done.
      destruct Hs as [[p' c] Hs]. by apply Hk in Hs as [? _].
    + rewrite lookup_insert_ne by done. intros E. rewrite (decide_False (P := k = n)) by done. destruct (Hk _ _ _ E) as [H1 H2]. split; [lia|].
      intros q' ->. destruct (H2 q' eq_refl) as [H3 H4]. pose proof (Hold q' H3). rewrite decide_False, lookup_insert_ne by done. done.
Qed.

Lemma shape_lookup m n : shape m !! n = (λ v, (v_parent v, is_leaf (v_body v))) <$> m !! n.
Proof. apply lookup_fmap. Qed.

Lemma shape_write m n w : shape (apply_write m (n, w)) =
  match w with WNew v => if decide (is_Some (m !! n)) then shape m else <[n := (v_parent v, is_leaf (v_body v))]> (shape m) | _ => shape m end.
Proof.
  assert (Hs : match w with WNew _ => False | _ => True end → shape (apply_write m (n, w)) = shape m).
  { intros Hw. apply map_eq. intros i. rewrite !shape_lookup. unfold apply_write. simpl.
    destruct (decide (n = i)) as [<-|]; [rewrite lookup_partial_alter_eq|by rewrite lookup_partial_alter_ne].
    destruct (m !! n) as [[p so st bo to]|]; destruct w; simpl; try done; try (by destruct (0 <? _)); by destruct bo. }
  destruct w as [v| | | |]; try (by apply Hs). case_decide as Hd.
  - destruct Hd as [x Hx]. by rewrite (apply_write_old _ _ _ _ Hx).
  - rewrite apply_write_new; [unfold shape; by rewrite fmap_insert|]. by apply eq_None_not_Some.
Qed.

(** ** Readiness *)

Definition known (ids : list OpId) (i : OpId) : Prop := i ∈ ids ∨ Counter i ≤ 0 ∧ Peer i ∈ Peer <$> ids.
Definition ready (s : shapes) (ids : list OpId) (op : TreeOp) : Prop :=
  match o_Kind op with
  | TreeOpCreateNode _ p _ _ => is_Some (s !! p)
  | TreeOpTombstone n => is_Some (s !! n)
  | TreeOpReorder n _ => is_Some (s !! n)
  | TreeOpLeafEdit n prev _ => is_Some (s !! n) ∧ known ids prev
  | TreeOpSplitLeaf n _ _ _ prev => is_Some (s !! n) ∧ known ids prev
  | TreeOpMergeLeaves l r pl pr => is_Some (s !! l) ∧ is_Some (s !! r) ∧ known ids pl ∧ known ids pr
  end.
Definition valid (l : list TreeOp) : Prop := ∀ p op q, l = p ++ op :: q → ready (shape (run p)) (o_Id <$> p) op.

Lemma vrun_snoc l op : run (l ++ [op]) = vstep (run l) op.
Proof. unfold run. by rewrite foldl_app. Qed.

Lemma valid_snoc l op : valid l → ready (shape (run l)) (o_Id <$> l) op → valid (l ++ [op]).
Proof.
  intros Hv Hr p o q E. destruct q as [|x q] using rev_ind.
  - apply app_inj_tail in E as [<- <-]. done.
  - rewrite app_comm_cons, (assoc_L (++)) in E. apply app_inj_tail in E as [-> _]. by eapply Hv.
Qed.
Lemma valid_prefix p q : valid (p ++ q) → valid p.
Proof. intros Hv a op b ->. apply (Hv a op (b ++ q)). by rewrite <-(assoc_L (++)). Qed.

Lemma ready_mono s s' ids ids' op : s ⊆ s' → ids ⊆ ids' → ready s ids op → ready s' ids' op.
Proof.
  intros Hs Hi. assert (Hn : ∀ n, is_Some (s !! n) → is_Some (s' !! n)) by (intros n [x Hx]; eexists; by eapply lookup_weaken).
  assert (Hk : ∀ i, known ids i → known ids' i).
  { intros i [?|[? (j & E & ?)%list_elem_of_fmap]]; [left; by apply Hi|right; split; [done|]]. rewrite E. apply list_elem_of_fmap_2. by apply Hi. }
  unfold ready. destruct (o_Kind op); naive_solver.
Qed.

(** What an operation makes, and what a ready one does to the shapes: nothing, or
    one new node under one that is there. *)
Definition made (s : shapes) (op : TreeOp) : option (option OpId * bool) :=
  match o_Kind op with
  | TreeOpCreateNode _ p _ seed => Some (Some p, match seed with TreeNodeSeedLeaf _ _ => true | TreeNodeSeedElement _ => false end)
  | TreeOpSplitLeaf n _ _ _ _ => match s !! n with Some (p, true) => Some (p, true) | _ => None end
  | _ => None
  end.
Inductive grows (op : TreeOp) (s : shapes) : shapes → Prop :=
  | grows_not : made s op = None ∨ is_Some (s !! o_Id op) → grows op s s
  | grows_node p b : made s op = Some (Some p, b) → s !! o_Id op = None → is_Some (s !! p) → grows op s (<[o_Id op := (Some p, b)]> s).

Lemma grows_inv op s s' : grows op s s' →
  s' = s ∧ (made s op = None ∨ is_Some (s !! o_Id op)) ∨
  ∃ p b, s' = <[o_Id op := (Some p, b)]> s ∧ made s op = Some (Some p, b) ∧ s !! o_Id op = None ∧ is_Some (s !! p).
Proof. destruct 1; [by left|right; eauto 10]. Qed.

Lemma leaf_shape m n v k e : leaf_of m n = Some (v, k, e) → m !! n = Some v ∧ v_body v = VLeaf k e ∧ shape m !! n = Some (v_parent v, true).
Proof.
  unfold leaf_of. rewrite shape_lookup. destruct (m !! n) as [w|]; [|done]. cbn [mbind option_bind].
  destruct (v_body w) as [|k' e'] eqn:E; [done|]. intros [= <- <- <-]. simpl. by rewrite E.
Qed.

Lemma leaf_parent s n p : tree_wf s → s !! n = Some (p, true) → ∃ q, p = Some q ∧ is_Some (s !! q).
Proof.
  intros [Hr Hp [rank Hk]] Hn. destruct (Hp n p true Hn) as [q ->]; [intros ->; congruence|].
  exists q. split; [done|]. destruct (Hk _ _ _ Hn) as [_ H]. by apply H.
Qed.

Lemma leaf_none m n : leaf_of m n = None → match shape m !! n with Some (p, true) => Some (p, true) | _ => None end = None.
Proof. unfold leaf_of. rewrite shape_lookup. destruct (m !! n) as [v|]; [|done]. simpl. by destruct (v_body v). Qed.

Lemma vstep_grows m ids op : tree_wf (shape m) → op_wf op → ready (shape m) ids op → grows op (shape m) (shape (vstep m op)).
Proof.
  intros Ht [_ Hw] Hr. unfold ready, vstep, writes in *. destruct op as [id kind]. cbn [o_Kind o_Id] in *.
  destruct kind as [i p key seed|n|n key|n prev ops|n new key at_ prev|l r pl pr]; cbn [foldl]; rewrite ?shape_write; try (apply grows_not; by left).
  - destruct Hw as [-> _]. case_decide as Hd; [apply grows_not; right; cbn [o_Id]; by rewrite shape_lookup, fmap_is_Some|].
    cbn [v_parent v_body]. apply (grows_node (mkTreeOp id _)); [unfold made; by destruct seed| |done].
    cbn [o_Id]. rewrite shape_lookup. apply eq_None_not_Some in Hd. by rewrite Hd.
  - destruct (leaf_of m n) as [[[v k] e]|] eqn:El; [|apply grows_not; left; by apply leaf_none]. cbn [foldl]. rewrite !shape_write.
    apply leaf_shape in El as (Hn & Hb & Hs). destruct (leaf_parent _ _ _ Ht Hs) as (q & Eq & Hq).
    assert (Hso : ∀ i, is_Some (apply_write m (n, WText (fresh (Peer n) (take (Z.to_nat at_) (text_str e)))) !! i) ↔ is_Some (shape m !! i)).
    { intros i. rewrite <-(shape_write m n (WText (fresh (Peer n) (take (Z.to_nat at_) (text_str e))))), shape_lookup. by rewrite fmap_is_Some. }
    destruct Hw as [-> _]. case_decide as Hd; [apply grows_not; right; by apply Hso|].
    cbn [v_parent v_body]. rewrite Eq in *. apply (grows_node (mkTreeOp id _)); [unfold made; cbn [o_Kind]; by rewrite Hs| |done].
    cbn [o_Id]. apply eq_None_not_Some. by rewrite <-Hso.
  - destruct (leaf_of m l) as [[[v k] e]|]; [|apply grows_not; by left]. destruct (leaf_of m r) as [[[v' k'] e']|]; [|apply grows_not; by left].
    cbn [foldl]. rewrite !shape_write. apply grows_not. by left.
Qed.

Lemma grows_wf op s s' : grows op s s' → tree_wf s → tree_wf s'.
Proof. destruct 1; [done|]. intros. by apply tree_wf_insert. Qed.
Lemma grows_sub op s s' : grows op s s' → s ⊆ s'.
Proof. destruct 1; [done|]. by apply insert_subseteq. Qed.

Lemma shape_init : shape vinit = {[TreeRoot := (None, false)]}.
Proof. unfold shape, vinit, views, NewLosslessTreeCrdt. cbn [nodes]. by rewrite !map_fmap_singleton. Qed.
Lemma init_wf : tree_wf (shape vinit).
Proof.
  rewrite shape_init. split.
  - apply lookup_singleton_eq.
  - intros n p b [<- [= <- <-]]%lookup_singleton_Some. done.
  - exists (λ _, O). intros n p b [<- [= <- <-]]%lookup_singleton_Some. rewrite map_size_singleton. split; [lia|done].
Qed.

Section logs.
Context (l : list TreeOp) (Hv : valid l) (Hw : Forall op_wf l).

Lemma run_tree : tree_wf (shape (run l)).
Proof.
  revert Hv Hw. induction l as [|op k IH] using rev_ind; intros Hv Hw; [apply init_wf|].
  apply Forall_app in Hw as [Hk Ho]. rewrite Forall_singleton in Ho. specialize (IH (valid_prefix _ _ Hv) Hk).
  rewrite vrun_snoc. eapply grows_wf; [|exact IH]. apply (vstep_grows _ (o_Id <$> k)); [done|done|]. by apply (Hv k op []).
Qed.
End logs.

Lemma run_grows p op q : valid (p ++ op :: q) → Forall op_wf (p ++ op :: q) → grows op (shape (run p)) (shape (run (p ++ [op]))).
Proof.
  intros Hv [Hp Hq]%Forall_app. apply Forall_cons in Hq as [Ho _]. rewrite vrun_snoc.
  apply (vstep_grows _ (o_Id <$> p)); [apply run_tree; [by eapply valid_prefix|done]|done|by apply (Hv p op q)].
Qed.

Lemma shape_mono p q : valid (p ++ q) → Forall op_wf (p ++ q) → shape (run p) ⊆ shape (run (p ++ q)).
Proof.
  induction q as [|op q IH] using rev_ind; intros Hv Hw; [by rewrite app_nil_r|]. rewrite (assoc_L (++)) in *.
  transitivity (shape (run (p ++ q))); [apply IH; [by eapply valid_prefix|by apply Forall_app in Hw as [? _]]|].
  eapply grows_sub, (run_grows _ _ []); done.
Qed.

(** The nodes are the root and those the operations of the log name. *)
Lemma shape_from l n x : valid l → Forall op_wf l → shape (run l) !! n = Some x → n = TreeRoot ∨ n ∈ o_Id <$> l.
Proof.
  revert x. induction l as [|op l IH] using rev_ind; intros x Hv Hw Hn.
  - unfold run in Hn. cbn [foldl] in Hn. rewrite shape_init in Hn. apply lookup_singleton_Some in Hn as [<- _]. by left.
  - pose proof (run_grows l op [] Hv Hw) as Hg. assert (Hl : ∀ y, shape (run l) !! n = Some y → n = TreeRoot ∨ n ∈ o_Id <$> l ++ [op]).
    { intros y Hy. rewrite fmap_app, elem_of_app. destruct (IH y); [by eapply valid_prefix|by apply Forall_app in Hw as [? _]|done|by left|by right; left]. }
    apply grows_inv in Hg as [[E _]|(p & b & E & _)]; rewrite E in Hn; [by eapply Hl|].
    destruct (decide (o_Id op = n)) as [<-|]; [right; rewrite fmap_app, elem_of_app; right; apply list_elem_of_here|].
    rewrite lookup_insert_ne in Hn by done. by eapply Hl.
Qed.

(** A log that holds the operations of another has its nodes. *)
Lemma shape_sub p l : valid p → valid l → Forall op_wf p → Forall op_wf l → NoDup (o_Id <$> l) → p ⊆ l →
  shape (run p) ⊆ shape (run l).
Proof.
  intros Vp Vl Wp Wl Hnd. induction p as [|op p IH] using rev_ind; intros Hs.
  - apply (shape_mono [] l); done.
  - assert (IH' : shape (run p) ⊆ shape (run l)) by (apply IH; [by eapply valid_prefix|by apply Forall_app in Wp as [? _]|set_solver]).
    pose proof (run_grows p op [] Vp Wp) as Hg. apply grows_inv in Hg as [[-> _]|(q & b & -> & Hm & Hn & Hq)]; [done|].
    apply insert_subseteq_l; [|done].
    assert (Hin : op ∈ l) by (apply Hs; set_solver). apply list_elem_of_split in Hin as (a & c & ->).
    pose proof (run_grows a op c Vl Wl) as Hg.
    assert (Ha : shape (run a) ⊆ shape (run (a ++ op :: c))) by (apply shape_mono; done).
    assert (Hma : made (shape (run a)) op = Some (Some q, b)).
    { pose proof (Vl a op c eq_refl) as Hr. revert Hm. unfold made, ready in *. destruct (o_Kind op) as [| | | |n new key at_ prev|]; try done.
      destruct (shape (run p) !! n) as [[par []]|] eqn:En; try done. intros [= -> <-]. eapply lookup_weaken in En; [|exact IH'].
      destruct Hr as [[y Hy] _]. pose proof (lookup_weaken _ _ _ _ Hy Ha) as Hy'. assert (y = (Some q, true)) as -> by congruence. by rewrite Hy. }
    assert (Hfresh : shape (run a) !! o_Id op = None).
    { destruct (shape (run a) !! o_Id op) as [y|] eqn:E'; [|done]. exfalso. apply Forall_app in Wl as [Wa Wo]. apply Forall_cons in Wo as [[Hpos _] _].
      destruct (shape_from a (o_Id op) y) as [Hroot|Hin]; [by eapply valid_prefix|done|done|rewrite Hroot in Hpos; simpl in Hpos; lia|].
      rewrite fmap_app in Hnd. apply NoDup_app in Hnd as (_ & Hd & _). apply (Hd _ Hin). csimpl. apply list_elem_of_here. }
    apply grows_inv in Hg as [[_ [H|[? H]]]|(q' & b' & E' & Hm' & _)]; [congruence|congruence|]. rewrite Hma in Hm'. injection Hm' as <- <-.
    replace (a ++ op :: c) with ((a ++ [op]) ++ c) in * by by rewrite <-(assoc_L (++)).
    eapply lookup_weaken; [|by apply shape_mono]. rewrite E'. apply lookup_insert_eq.
Qed.

(** ** The index, the names and the heads of the nodes *)

Definition bucket (t : LosslessTreeCrdt) (p : OpId) : list OpId := default [] (childrenByParent t !! p).
Record nodes_ok (ids : list OpId) (t : LosslessTreeCrdt) : Prop := {
  no_ids n r : get t n = Some r → n_id r = n;
  no_bucket p : NoDup (bucket t p);
  no_index p c : c ∈ bucket t p ↔ ∃ r, get t c = Some r ∧ parent r = Some p;
  no_heads n r k x : get t n = Some r → body r = Leaf k x → textHead r ∈ ids;
}.

Lemma nodes_ok_mono ids ids' t : ids ⊆ ids' → nodes_ok ids t → nodes_ok ids' t.
Proof. intros Hs [? ? ? Hh]. split; try done. intros. apply Hs. by eapply Hh. Qed.

Lemma bucket_indexAdd p c ix q : default [] (indexAdd p c ix !! q) =
  if decide (p = q) then (if decide (c ∈ default [] (ix !! p)) then default [] (ix !! p) else default [] (ix !! p) ++ [c]) else default [] (ix !! q).
Proof.
  unfold indexAdd. destruct (decide (c ∈ default [] (ix !! p))); destruct (decide (p = q)) as [->|]; try done.
  - by rewrite lookup_insert_eq.
  - by rewrite lookup_insert_ne.
Qed.

Lemma bucket_insert_node n t q : bucket (insert_node n t) q =
  if decide (parent n = Some q) then (if decide (n_id n ∈ bucket t q) then bucket t q else bucket t q ++ [n_id n]) else bucket t q.
Proof.
  unfold bucket, insert_node. destruct (parent n) as [p|]; cbn [childrenByParent with_index with_nodes]; [|by rewrite decide_False].
  rewrite bucket_indexAdd. destruct (decide (p = q)) as [->|]; [by rewrite (decide_True (P := Some q = Some q))|by rewrite decide_False by congruence].
Qed.

Lemma nodes_ok_insert ids n t : nodes_ok ids t → get t (n_id n) = None → textHead n ∈ ids → nodes_ok ids (insert_node n t).
Proof.
  intros [H1 H2 H3 H4] Hn Hh.
  assert (Hni : ∀ q, n_id n ∉ bucket t q) by (intros q (r & E & _)%H3; congruence).
  split.
  - intros k r. rewrite get_insert_node. case_decide; [intros [= <-]; done|apply H1].
  - intros q. rewrite bucket_insert_node. destruct (decide (parent n = Some q)); [|done]. rewrite decide_False by done.
    apply NoDup_app. split_and!; [done| |apply NoDup_singleton]. intros x Hx ->%list_elem_of_singleton. by apply (Hni q).
  - intros q c. rewrite bucket_insert_node, get_insert_node, (decide_False (P := _ ∈ _)) by done.
    destruct (decide (parent n = Some q)) as [Hq|Hq].
    + rewrite elem_of_app, list_elem_of_singleton. destruct (decide (n_id n = c)) as [<-|]; [naive_solver|]. rewrite H3. naive_solver.
    + destruct (decide (n_id n = c)) as [<-|]; [|apply H3]. split; [intros Hx; by apply Hni in Hx|intros (r & [= <-] & ?); done].
  - intros k r lk x. rewrite get_insert_node. case_decide; [intros [= <-]; done|apply H4].
Qed.

Lemma get_alter t n f i : get (with_nodes (alter f n) t) i = if decide (n = i) then f <$> get t i else get t i.
Proof.
  unfold get. simpl. case_decide as Hd; [by rewrite Hd, lookup_alter_eq|by rewrite lookup_alter_ne].
Qed.

(** An update that keeps the name and the parent, and keeps the head or sets one
    of [ids]. *)
Lemma nodes_ok_alter ids t n f : nodes_ok ids t → (∀ r, get t n = Some r → n_id (f r) = n_id r ∧ parent (f r) = parent r ∧
    (textHead (f r) ∈ ids ∨ textHead (f r) = textHead r ∧ is_leaf (view_body (body (f r))) = is_leaf (view_body (body r)))) →
  nodes_ok ids (with_nodes (alter f n) t).
Proof.
  intros [H1 H2 H3 H4] Hf. split.
  - intros k r. rewrite get_alter. case_decide as Hd; [|apply H1]. subst k. destruct (get t n) as [r'|] eqn:E; [|done].
    intros [= <-]. destruct (Hf r' eq_refl) as [-> _]. by apply H1.
  - done.
  - intros p c. change (bucket (with_nodes (alter f n) t) p) with (bucket t p). rewrite H3, get_alter. case_decide as Hd; [|done]. subst c.
    destruct (get t n) as [r'|] eqn:E; simpl; [|naive_solver]. destruct (Hf r' eq_refl) as (_ & Hp & _).
    split; intros (r & [= <-] & Hr); eexists; (split; [done|]); congruence.
  - intros k r lk x. rewrite get_alter. case_decide as Hd; [|apply H4]. subst k. destruct (get t n) as [r'|] eqn:E; [|done].
    intros [= <-] Hb. destruct (Hf r' eq_refl) as (_ & _ & [H|[-> Hl]]); [done|]. rewrite Hb in Hl. simpl in Hl.
    destruct (body r') as [|k' x'] eqn:E'; [done|]. by eapply H4.
Qed.

Lemma applyOp_nodes ids t op t' : nodes_ok ids t → o_Id op ∈ ids → applyOp t op = Some t' → nodes_ok ids t'.
Proof.
  intros Ht Hid. destruct op as [id kind]. unfold applyOp. cbn [o_Kind o_Id] in *.
  destruct kind as [i p key seed|n|n key|n prev ops|n new key at_ prev|l r pl pr].
  - destruct (get t i) eqn:E; [by intros [= <-]|]. destruct (seed_body i seed) as [b|]; [|done]. intros [= <-]. by apply nodes_ok_insert.
  - intros [= <-]. apply nodes_ok_alter; [done|]. intros r _. split_and!; [done..|]. by right.
  - intros [= <-]. apply nodes_ok_alter; [done|]. intros r _. destruct (0 <? _); (split_and!; [done..|]; by right).
  - destruct (get t n) as [r|] eqn:E; [|by intros [= <-]]. destruct (body r) as [|k x] eqn:Eb; [by intros [= <-]|].
    destruct (ApplyDelta x ops) as [[x' b]|]; [|done]. cbn [mbind option_bind]. intros [= <-].
    rewrite (insert_as_alter t n r (λ r, with_head id (with_body (Leaf k x') r)) E). apply nodes_ok_alter; [done|].
    intros r' _. split_and!; [done..|]. by left.
  - unfold applySplit. destruct (get t n) as [r|] eqn:E; [|by intros [= <-]]. destruct (body r) as [|k x] eqn:Eb; [by intros [= <-]|].
    destruct (Text x) as [[x' s]|]; [|done]. cbn [mbind option_bind]. destruct (at_ <? 0); [done|].
    destruct (TextCrdtFromStr (Peer n) _) as [h|]; [|done]. cbn [mbind option_bind]. destruct (TextCrdtFromStr (Peer new) _) as [tl_|]; [|done].
    cbn [mbind option_bind]. rewrite (insert_as_alter t n r (λ r, with_head id (with_body (Leaf k h) r)) E).
    assert (H1 : nodes_ok ids (with_nodes (alter (λ r, with_head id (with_body (Leaf k h) r)) n) t)).
    { apply nodes_ok_alter; [done|]. intros r' _. split_and!; [done..|]. by left. }
    destruct (get (with_nodes _ t) new) eqn:En; intros [= <-]; [done|]. by apply nodes_ok_insert.
  - unfold applyMerge. destruct (get t l) as [nl|] eqn:El; [|by intros [= <-]]. destruct (get t r) as [nr|] eqn:Er; [|by intros [= <-]].
    destruct (body nl) as [|kl xl] eqn:Bl; [by intros [= <-]|]. destruct (body nr) as [|kr xr] eqn:Br; [by intros [= <-]|].
    destruct (Text xl) as [[? sl]|]; [|done]. cbn [mbind option_bind]. destruct (Text xr) as [[xr' sr]|]; [|done]. cbn [mbind option_bind].
    destruct (TextCrdtFromStr (Peer l) _) as [c|]; [|done]. cbn [mbind option_bind]. intros [= <-].
    apply nodes_ok_alter; [apply nodes_ok_alter; [apply nodes_ok_alter; [done|]|]|].
    + intros r' Hr'. split_and!; [done..|]. right. split; [done|]. assert (r' = nr) as -> by congruence. by rewrite Br.
    + intros r' _. split_and!; [done..|]. by left.
    + intros r' _. split_and!; [done..|]. by right.
Qed.

Lemma applyOp_frame t op t' : applyOp t op = Some t' → same_frame t t'.
Proof.
  destruct op as [id kind]. unfold applyOp. cbn [o_Kind o_Id].
  assert (Hi : ∀ n t, same_frame t (insert_node n t)) by (intros n u; unfold insert_node; by destruct (parent n)).
  destruct kind as [i p key seed|n|n key|n prev ops|n new key at_ prev|l r pl pr].
  - destruct (get t i); [by intros [= <-]|]. destruct (seed_body i seed) as [b|]; [|done]. by intros [= <-].
  - by intros [= <-].
  - by intros [= <-].
  - destruct (get t n) as [r|]; [|by intros [= <-]]. destruct (body r) as [|k x]; [by intros [= <-]|].
    destruct (ApplyDelta x ops) as [[x' b]|]; [|done]. by intros [= <-].
  - unfold applySplit. destruct (get t n) as [r|]; [|by intros [= <-]]. destruct (body r) as [|k x]; [by intros [= <-]|].
    destruct (Text x) as [[x' s]|]; [|done]. cbn [mbind option_bind]. destruct (at_ <? 0); [done|].
    destruct (TextCrdtFromStr (Peer n) _) as [h|]; [|done]. cbn [mbind option_bind]. destruct (TextCrdtFromStr (Peer new) _) as [tl_|]; [|done].
    cbn [mbind option_bind]. destruct (get (with_nodes _ t) new); intros [= <-]; [done|]. unfold insert_node; cbn [parent]; by destruct (parent r).
  - unfold applyMerge. destruct (get t l) as [nl|]; [|by intros [= <-]]. destruct (get t r) as [nr|]; [|by intros [= <-]].
    destruct (body nl) as [|kl xl]; [by intros [= <-]|]. destruct (body nr) as [|kr xr]; [by intros [= <-]|].
    destruct (Text xl) as [[? sl]|]; [|done]. cbn [mbind option_bind]. destruct (Text xr) as [[xr' sr]|]; [|done]. cbn [mbind option_bind].
    destruct (TextCrdtFromStr (Peer l) _) as [c|]; [|done]. by intros [= <-].
Qed.

(** ** The invariant of a replica *)

(** The operations of one document: each id names one, all are well formed, and
    no order of them makes a text of more than half of [cap]. *)
Record universe (U : list TreeOp) : Prop := {
  un_ids : NoDup (o_Id <$> U);
  un_wf : Forall op_wf U;
  un_fits l : NoDup l → l ⊆ U → fits (run l);
}.

Section universe.
Context (U : list TreeOp) (HU : universe U).

Lemma un_eq a b : a ∈ U → b ∈ U → o_Id a = o_Id b → a = b.
Proof.
  intros Ha Hb E. apply list_elem_of_lookup in Ha as [i Hi]. apply list_elem_of_lookup in Hb as [j Hj].
  assert (i = j) as ->; [|congruence]. eapply NoDup_lookup; [apply (un_ids U HU)|by rewrite list_lookup_fmap, Hi|by rewrite list_lookup_fmap, Hj, E].
Qed.

Lemma un_op op : op ∈ U → op_wf op.
Proof. intros H. pose proof (un_wf U HU) as Hw. rewrite Forall_forall in Hw. by apply Hw. Qed.
Lemma un_sub l : l ⊆ U → Forall op_wf l.
Proof. intros H. apply Forall_forall. intros op Hop. by apply un_op, H. Qed.

Record tree_inv (t : LosslessTreeCrdt) : Prop := {
  ti_nodes : nodes_ok (o_Id <$> log t) t;
  ti_texts : texts_ok t;
  ti_views : views t = run (log t);
  ti_valid : valid (log t);
  ti_frontier : frontier_of (frontier t) (o_Id <$> log t);
  ti_log : NoDup (o_Id <$> log t);
  ti_sub : log t ⊆ U;
  ti_buffered : buffered t ⊆ U;
  ti_clock : 0 ≤ t_counter t ≤ cap;
  ti_seen op : op ∈ log t → Counter (o_Id op) ≤ t_counter t;
  ti_waiting op : op ∈ buffered t → Counter (o_Id op) ≤ t_counter t;
}.

Lemma ti_fits t : tree_inv t → fits (views t).
Proof. intros Ht. rewrite (ti_views t Ht). apply (un_fits U HU); [eapply NoDup_fmap_1, ti_log, Ht|apply Ht]. Qed.
Lemma ti_tree t : tree_inv t → tree_wf (shape (views t)).
Proof. intros Ht. rewrite (ti_views t Ht). apply run_tree; [apply Ht|]. apply un_sub, Ht. Qed.

Lemma ready_spec t op : tree_inv t → dependenciesReady t op = true ↔ ready (shape (views t)) (o_Id <$> log t) op.
Proof.
  intros Ht. assert (Hp : ∀ n, bool_decide (is_Some (get t n)) = true ↔ is_Some (shape (views t) !! n)).
  { intros n. rewrite bool_decide_eq_true, shape_lookup, views_lookup, !fmap_is_Some. done. }
  pose proof (fo_holds _ _ (ti_frontier t Ht)) as Hf. unfold dependenciesReady, ready, known.
  destruct (o_Kind op); rewrite ?andb_true_iff, ?Hp, ?Hf; tauto.
Qed.

Lemma Contains_log t op : tree_inv t → op ∈ U → Contains (frontier t) (o_Id op) = true ↔ op ∈ log t.
Proof.
  intros Ht Ho. rewrite (fo_holds _ _ (ti_frontier t Ht)). destruct (un_op op Ho) as [[Hp _] _]. split.
  - intros [(op' & E & Hin)%list_elem_of_fmap|[? _]]; [|lia]. by rewrite (un_eq op op' Ho (ti_sub t Ht _ Hin) E).
  - intros Hin. left. by apply list_elem_of_fmap_2.
Qed.

(** Applying a ready operation that is not held succeeds and keeps the invariant. *)
Lemma commit_ok t op : tree_inv t → op ∈ U → op ∉ log t → Counter (o_Id op) ≤ t_counter t →
  ready (shape (views t)) (o_Id <$> log t) op →
  ∃ t1, applyOp t op = Some t1 ∧ tree_inv (record t1 op) ∧ log (record t1 op) = log t ++ [op] ∧
    buffered (record t1 op) = buffered t ∧ t_counter (record t1 op) = t_counter t ∧ t_peer (record t1 op) = t_peer t.
Proof.
  intros Ht Ho Hn Hc Hr. pose proof (un_op op Ho) as Hw.
  destruct (applyOp_view t op (ti_texts t Ht) (ti_fits t Ht) Hw) as (t1 & E & T1 & (F1 & F2 & F3 & F4 & F5) & V1).
  exists t1. split; [done|]. unfold record. cbn [log buffered t_counter t_peer]. rewrite F4. split_and!; [|done..].
  assert (Hids : o_Id <$> log t ++ [op] = (o_Id <$> log t) ++ [o_Id op]) by by rewrite fmap_app.
  split; cbn [log buffered t_counter frontier]; rewrite ?F2, ?F3, ?F4, ?F5, ?Hids.
  - assert (Hn1 : nodes_ok ((o_Id <$> log t) ++ [o_Id op]) t1).
    { apply (applyOp_nodes _ t op t1); [|set_solver|exact E]. eapply nodes_ok_mono; [|apply Ht]. set_solver. }
    destruct Hn1. by split.
  - exact T1.
  - change (views (mkTree _ _ (nodes t1) _ _ _ _)) with (views t1). by rewrite V1, (ti_views t Ht), vrun_snoc.
  - apply valid_snoc; [apply Ht|]. by rewrite <-(ti_views t Ht).
  - apply Observe_ok; [apply Ht|]. destruct Hw as [Hw _]. unfold cap in Hw. zrange.
  - apply NoDup_app. split_and!; [apply Ht| |apply NoDup_singleton]. intros i Hi ->%list_elem_of_singleton. apply Hn.
    apply Contains_log; [done..|]. apply (fo_holds _ _ (ti_frontier t Ht)). by left.
  - intros x [Hx| ->%list_elem_of_singleton]%elem_of_app; [by apply (ti_sub t Ht)|done].
  - apply Ht.
  - apply Ht.
  - intros x [Hx| ->%list_elem_of_singleton]%elem_of_app; [by apply (ti_seen t Ht)|done].
  - apply Ht.
Qed.

Lemma with_buffered_inv t b : tree_inv t → b ⊆ U → (∀ op, op ∈ b → Counter (o_Id op) ≤ t_counter t) → tree_inv (with_buffered b t).
Proof. intros [[] ? ? ? ? ? ? ? ? ? ?] Hb. by split; [split|..]. Qed.
Lemma with_counter_inv t c : tree_inv t → t_counter t ≤ c ≤ cap → tree_inv (with_counter c t).
Proof.
  intros [[] ? ? ? ? ? ? ? Hc Hs Hw] Hb.
  split; try done; [cbn [t_counter with_counter]; lia|..]; intros op Hop; cbn [t_counter with_counter]; [specialize (Hs op Hop)|specialize (Hw op Hop)]; lia.
Qed.

(** ** The drain *)

Lemma drain_pass_ok t pending pr : tree_inv t → pending ⊆ U → (∀ op, op ∈ pending → Counter (o_Id op) ≤ t_counter t) →
  ∃ t' b l rest, drain_pass t pending pr = Some (t', b) ∧ tree_inv t' ∧ log t' = log t ++ l ∧ buffered t' = buffered t ++ rest ∧
    t_counter t' = t_counter t ∧ t_peer t' = t_peer t ∧
    l ⊆ pending ∧ rest ⊆ pending ∧ (∀ op, op ∈ pending → op ∈ log t' ∨ op ∈ rest) ∧ (length l + length rest ≤ length pending)%nat ∧
    (b = true ↔ (pr = true ∨ l ≠ [])) ∧ (l = [] → Forall (λ op, op ∉ log t ∧ dependenciesReady t op = false) rest).
Proof.
  revert t pr. induction pending as [|op pending IH]; intros t pr Ht Hs Hc.
  - exists t, pr, [], []. rewrite !app_nil_r. split_and!; try done; [by intros op ?%elem_of_nil|split; [by left|by intros [?|?]]].
  - assert (Ho : op ∈ U) by (apply Hs, list_elem_of_here). assert (Hs' : pending ⊆ U) by set_solver.
    assert (Hc' : ∀ o, o ∈ pending → Counter (o_Id o) ≤ t_counter t) by (intros; apply Hc; set_solver). cbn [drain_pass].
    destruct (Contains (frontier t) (o_Id op)) eqn:Ef; [apply Contains_log in Ef; [|done..]|].
    + destruct (IH t pr Ht Hs' Hc') as (t' & b & l & rest & -> & I1 & I2 & I3 & I4 & I5 & I6 & I7 & I8 & I9 & I10 & I11).
      exists t', b, l, rest. split_and!; try done; [set_solver|set_solver| |simpl; lia].
      intros x [->|Hx]%elem_of_cons; [left; rewrite I2; set_solver|by apply I8].
    + assert (Hno : op ∉ log t) by (rewrite <-(Contains_log t op Ht Ho), Ef; done).
      destruct (dependenciesReady t op) eqn:Er.
      * destruct (commit_ok t op Ht Ho Hno) as (t1 & -> & C1 & C2 & C3 & C4 & C5); [apply Hc, list_elem_of_here|by apply ready_spec|].
        cbn [mbind option_bind].
        destruct (IH (record t1 op) true C1 Hs') as (t' & b & l & rest & -> & I1 & I2 & I3 & I4 & I5 & I6 & I7 & I8 & I9 & I10 & I11); [by rewrite C4|].
        exists t', b, (op :: l), rest. rewrite C2, <-(assoc_L (++)) in I2. rewrite C3 in I3. rewrite C4 in I4. rewrite C5 in I5.
        split_and!; try done; [set_solver|set_solver| |simpl; lia|].
        -- intros x [->|Hx]%elem_of_cons; [left; rewrite I2; set_solver|by apply I8].
        -- split; [intros _; by right|]. intros _. apply I10. by left.
      * destruct (IH (with_buffered (buffered t ++ [op]) t) pr) as (t' & b & l & rest & -> & I1 & I2 & I3 & I4 & I5 & I6 & I7 & I8 & I9 & I10 & I11).
        { pose proof (ti_buffered t Ht). apply with_buffered_inv; [done|set_solver|].
          intros o [?| ->%list_elem_of_singleton]%elem_of_app; [by apply (ti_waiting t Ht)|apply Hc, list_elem_of_here]. }
        { done. } { done. }
        cbn [buffered with_buffered] in I3. rewrite <-(assoc_L (++)) in I3.
        exists t', b, l, (op :: rest). split_and!; try done; [set_solver|set_solver| |simpl; lia|].
        -- intros x [->|Hx]%elem_of_cons; [right; set_solver|]. destruct (I8 x Hx); [by left|right; set_solver].
        -- intros ->. constructor; [done|]. by apply I11.
Qed.

(** The drain ends; what it leaves in the buffer is not held and not ready. *)
Lemma drain_loop_ok rounds t : (length (buffered t) < rounds)%nat → tree_inv t →
  ∃ t' l, drain_loop rounds t = Some t' ∧ tree_inv t' ∧ log t' = log t ++ l ∧ l ⊆ buffered t ∧ buffered t' ⊆ buffered t ∧
    t_counter t' = t_counter t ∧ t_peer t' = t_peer t ∧
    (∀ op, op ∈ buffered t → op ∈ log t' ∨ op ∈ buffered t') ∧
    Forall (λ op, op ∉ log t' ∧ dependenciesReady t' op = false) (buffered t').
Proof.
  revert t. induction rounds as [|rounds IH]; intros t Hr Ht; [lia|]. cbn [drain_loop].
  destruct (drain_pass_ok (with_buffered [] t) (buffered t) false) as (t' & b & l & rest & -> & I1 & I2 & I3 & I4 & I5 & I6 & I7 & I8 & I9 & I10 & I11);
    [apply with_buffered_inv; [done|set_solver|set_solver]|apply Ht|apply Ht|].
  cbn [mbind option_bind]. simpl in I2, I3, I4, I5. destruct b.
  - assert (l ≠ []) by (destruct (proj1 I10 eq_refl); done). assert (0 < length l)%nat by (destruct l; [done|simpl; lia]).
    destruct (IH t') as (t2 & l2 & E & J1 & J2 & J3 & J4 & J5 & J6 & J7 & J8); [rewrite I3; lia|done|].
    exists t2, (l ++ l2). rewrite I3 in *. rewrite J2, I2 in J7, J8. rewrite J2, I2, (assoc_L (++)).
    split_and!; try done; [set_solver|set_solver|congruence|congruence|].
    intros op Hop. destruct (I8 op Hop) as [H1|H1]; [left; rewrite I2 in H1; set_solver|by apply J7].
  - assert (l = []) as -> by (destruct l; [done|]; assert (false = true) by (apply I10; by right); done).
    exists t', []. rewrite I3 in *. split_and!; try done.
    (* nothing was applied, so the pass only rebuilt the buffer *)
    specialize (I11 eq_refl). rewrite app_nil_r in I2. eapply Forall_impl; [exact I11|]. intros op [H1 H2]. rewrite I2. split; [done|].
    destruct (dependenciesReady t' op) eqn:E; [|done]. apply ready_spec in E; [|done].
    rewrite (ti_views t' I1), I2 in E. rewrite <-(ti_views t Ht) in E. apply (ready_spec t op Ht) in E.
    by rewrite <-H2, <-E.
Qed.

(** ** Receiving an update *)

Lemma receive_ok t op : tree_inv t → op ∈ U →
  tree_inv (receive t op) ∧ log (receive t op) = log t ∧ (op ∈ log t ∨ op ∈ buffered (receive t op)) ∧
  t_peer (receive t op) = t_peer t ∧
  (∀ o, o ∈ buffered t → o ∈ buffered (receive t op)) ∧ (∀ o, o ∈ buffered (receive t op) → o = op ∨ o ∈ buffered t).
Proof.
  intros Ht Ho. unfold receive. destruct (un_op op Ho) as [[Hp1 Hp2] _].
  set (c := if t_counter t <? Counter (o_Id op) then Counter (o_Id op) else t_counter t).
  assert (Hc : t_counter t ≤ c ≤ cap ∧ Counter (o_Id op) ≤ c).
  { unfold c. pose proof (ti_clock t Ht). destruct (Z.ltb_spec (t_counter t) (Counter (o_Id op))); lia. }
  assert (E : (if t_counter t <? Counter (o_Id op) then with_counter (Counter (o_Id op)) t else t) = with_counter c t).
  { unfold c. destruct (t_counter t <? _); [done|by destruct t]. }
  rewrite E. assert (Ht' : tree_inv (with_counter c t)) by (apply with_counter_inv; [done|lia]).
  change (frontier (with_counter c t)) with (frontier t). destruct (Contains (frontier t) (o_Id op)) eqn:Ef.
  - apply Contains_log in Ef; [|done..]. split_and!; try done; [by left|by right].
  - split_and!; try done.
    + pose proof (ti_buffered t Ht). apply with_buffered_inv; [done|set_solver|].
      intros o [?| ->%list_elem_of_singleton]%elem_of_app; [by apply (ti_waiting _ Ht')|]. simpl. lia.
    + right. simpl. set_solver.
    + simpl. set_solver.
    + simpl. set_solver.
Qed.

Lemma receive_all_ok t l : tree_inv t → l ⊆ U →
  let t' := foldl receive t l in
  tree_inv t' ∧ log t' = log t ∧ t_peer t' = t_peer t ∧ (∀ o, o ∈ l → o ∈ log t ∨ o ∈ buffered t') ∧
  (∀ o, o ∈ buffered t → o ∈ buffered t') ∧ (∀ o, o ∈ buffered t' → o ∈ l ∨ o ∈ buffered t).
Proof.
  revert t. induction l as [|op l IH]; intros t Ht Hl; cbn [foldl].
  - split_and!; try done; [set_solver|by right].
  - destruct (receive_ok t op Ht) as (R1 & R2 & R3 & R4 & R5 & R6); [set_solver|].
    destruct (IH (receive t op) R1) as (I1 & I2 & I3 & I4 & I5 & I6); [set_solver|].
    split_and!; [done|congruence|congruence| | |].
    + intros o [->|Ho]%elem_of_cons; [destruct R3; [by left|right; by apply I5]|]. rewrite <-R2. by apply I4.
    + intros o Ho. by apply I5, R5.
    + intros o Ho. destruct (I6 o Ho) as [?|Hx]; [set_solver|]. destruct (R6 o Hx) as [->|?]; set_solver.
Qed.

(** Any update is applied: the log grows by operations received now or before,
    each received operation is held or still waits, and what waits is neither held
    nor ready. *)
Lemma ApplyUpdate_ok t d : tree_inv t → u_Ops d ⊆ U →
  ∃ t' l, ApplyUpdate t d = Some t' ∧ tree_inv t' ∧ log t' = log t ++ l ∧ t_peer t' = t_peer t ∧
    (∀ op, op ∈ l → op ∈ u_Ops d ∨ op ∈ buffered t) ∧
    (∀ op, op ∈ u_Ops d ∨ op ∈ buffered t → op ∈ log t' ∨ op ∈ buffered t') ∧
    Forall (λ op, op ∉ log t' ∧ dependenciesReady t' op = false) (buffered t').
Proof.
  intros Ht Hd. destruct (receive_all_ok t (u_Ops d) Ht Hd) as (R1 & R2 & R3 & R4 & R5 & R6). unfold ApplyUpdate, drainBuffered.
  set (t1 := foldl receive t (u_Ops d)) in *.
  destruct (drain_loop_ok (S (length (buffered t1))) t1 ltac:(lia) R1) as (t' & l & E & J1 & J2 & J3 & J4 & J5 & J6 & J7 & J8).
  rewrite R2 in J2. exists t', l. split_and!; try done; [congruence| |].
  - intros op Hop. by apply R6, J3.
  - intros op [Hop|Hop]; [|by apply J7, R5]. destruct (R4 op Hop) as [H|H]; [left; rewrite J2; set_solver|by apply J7].
Qed.

Lemma Diff_elem t f op : op ∈ u_Ops (Diff t f) ↔ op ∈ log t ∧ Contains f (o_Id op) = false.
Proof. unfold Diff. cbn [u_Ops]. rewrite merge_sort_Permutation, list_elem_of_filter. tauto. Qed.

Lemma sync_ok t u : tree_inv t → tree_inv u →
  ∃ u' l, ApplyUpdate u (Diff t (Frontier u)) = Some u' ∧ tree_inv u' ∧ log u' = log u ++ l ∧
    (∀ op, op ∈ l → op ∈ log t ∨ op ∈ buffered u) ∧ log t ⊆ log u'.
Proof.
  intros Ht Hu. destruct (ApplyUpdate_ok u (Diff t (Frontier u)) Hu) as (u' & l & E & I1 & I2 & I3 & I4 & I5 & I6).
  { intros op [Hop _]%Diff_elem. by apply (ti_sub t Ht). }
  exists u', l. split_and!; try done. { intros op Hop. destruct (I4 op Hop) as [[? _]%Diff_elem|?]; [by left|by right]. }
  assert (Hp : ∀ p q, log t = p ++ q → p ⊆ log u'); [|by apply (Hp (log t) []); rewrite app_nil_r].
  intros p. induction p as [|op p IH] using rev_ind; intros q Eq; [set_solver|]. rewrite <-(assoc_L (++)) in Eq. simpl in Eq.
  specialize (IH _ Eq). assert (Hin : op ∈ log t) by (rewrite Eq; set_solver). pose proof (ti_sub t Ht op Hin) as HopU.
  intros x [Hx| ->%list_elem_of_singleton]%elem_of_app; [by apply IH|].
  destruct (Contains (frontier u) (o_Id op)) eqn:Ec; [apply (Contains_log u op Hu HopU) in Ec; rewrite I2; set_solver|].
  destruct (I5 op) as [?|Hb]; [left; by apply Diff_elem|done|]. rewrite Forall_forall in I6. destruct (I6 op Hb) as [_ Hr].
  assert (Hready : dependenciesReady u' op = true); [|congruence]. apply ready_spec; [done|]. rewrite (ti_views u' I1).
  pose proof (ti_valid t Ht) as Hv. pose proof (un_sub _ (ti_sub t Ht)) as Hw. rewrite Eq in Hv, Hw.
  eapply ready_mono; [| |by apply (Hv p op q)].
  - apply shape_sub; [by eapply valid_prefix|apply I1|by apply Forall_app in Hw as [? _]|by apply un_sub, I1|apply I1|done].
  - intros i (o & -> & Ho)%list_elem_of_fmap. apply list_elem_of_fmap_2. by apply IH.
Qed.
End universe.
