(* ===== verification/LosslessRender.v ===== *)
(** * LosslessRender: reading and editing the document tree (lossless_tree_crdt.go)

    [Render] ends and is a function of the view; every operation of a replica
    keeps the invariant of [LosslessSync].  Theorems: an exchange delivers every
    missing operation, replicas that order conflicting operations alike render
    alike. *)

From S2P Require Import Prelude Hlc TextCrdt LosslessTree LosslessView LosslessSync.

Local Open Scope Z_scope.

(** ** Reading *)

Definition nview (r : treeNode) : OpId * vnode * OpId := (n_id r, view r, textHead r).
(** [t'] is [t] after some reads: only the caches of texts differ. *)
Record reread (t t' : LosslessTreeCrdt) : Prop := {
  rr_frame : same_frame t t';
  rr_index : childrenByParent t' = childrenByParent t;
  rr_nodes n : nview <$> get t' n = nview <$> get t n;
  rr_texts : texts_ok t → texts_ok t';
}.

#[export] Instance reread_refl : Reflexive reread.
Proof. intros t. by split. Qed.
#[export] Instance reread_trans : Transitive reread.
Proof.
  intros t u v [(F1 & F2 & F3 & F4 & F5) I N T] [(G1 & G2 & G3 & G4 & G5) J M S]. split; [|congruence| |auto].
  - split_and!; congruence.
  - intros n. by rewrite M.
Qed.

Lemma reread_get t t' n r : reread t t' → get t n = Some r →
  ∃ r', get t' n = Some r' ∧ n_id r' = n_id r ∧ view r' = view r ∧ textHead r' = textHead r.
Proof.
  intros Hr E. pose proof (rr_nodes _ _ Hr n) as H. rewrite E in H. destruct (get t' n) as [r'|]; [|done]. simpl in H.
  injection H as H1 H2 H3 H4 H5 H6 H7. exists r'. split_and!; [done|done| |done]. unfold view. congruence.
Qed.
Lemma reread_get' t t' n r' : reread t t' → get t' n = Some r' →
  ∃ r, get t n = Some r ∧ n_id r' = n_id r ∧ view r' = view r ∧ textHead r' = textHead r.
Proof.
  intros Hr E. pose proof (rr_nodes _ _ Hr n) as H. rewrite E in H. destruct (get t n) as [r|]; [|done]. simpl in H.
  injection H as H1 H2 H3 H4 H5 H6 H7. exists r. split_and!; [done|done| |done]. unfold view. congruence.
Qed.
Lemma reread_views t t' : reread t t' → views t' = views t.
Proof.
  intros Hr. apply map_eq. intros n. rewrite !views_lookup. pose proof (rr_nodes _ _ Hr n) as H.
  destruct (get t' n) as [r'|], (get t n) as [r|]; try done. simpl in *. injection H as H1 H2 H3 H4 H5 H6 H7. f_equal. unfold view. congruence.
Qed.

Lemma reread_nodes ids t t' : nodes_ok ids t → reread t t' → nodes_ok ids t'.
Proof.
  intros [N1 N2 N3 N4] Hr.
  assert (Hb : ∀ p, bucket t' p = bucket t p) by (intros p; unfold bucket; by rewrite (rr_index _ _ Hr)).
  split.
  - intros n r' E. destruct (reread_get' _ _ _ _ Hr E) as (r & E' & -> & _). by apply N1.
  - intros p. rewrite Hb. apply N2.
  - intros p c. rewrite Hb, N3. split.
    + intros (r & E & Hp). destruct (reread_get _ _ _ _ Hr E) as (r' & E' & _ & V & _). exists r'. split; [done|].
      change (v_parent (view r') = Some p). by rewrite V.
    + intros (r & E & Hp). destruct (reread_get' _ _ _ _ Hr E) as (r' & E' & _ & V & _). exists r'. split; [done|].
      change (v_parent (view r') = Some p). by rewrite <-V.
  - intros n r' k x E Hbody. destruct (reread_get' _ _ _ _ Hr E) as (r & E' & _ & V & ->). apply (f_equal v_body) in V. simpl in V.
    rewrite Hbody in V. simpl in V. destruct (body r) as [|k' x'] eqn:Eb; [done|]. by eapply N4.
Qed.
Lemma reread_inv U t t' : tree_inv U t → reread t t' → tree_inv U t'.
Proof.
  intros Ht Hr. pose proof (rr_frame _ _ Hr) as (F1 & F2 & F3 & F4 & F5). split; rewrite ?F2, ?F3, ?F4, ?F5; try apply Ht.
  - eapply reread_nodes; [apply Ht|done].
  - by apply (rr_texts _ _ Hr), Ht.
  - rewrite (reread_views _ _ Hr). apply Ht.
Qed.

Lemma get_set_body n b t i : get (set_body n b t) i = if decide (n = i) then with_body b <$> get t i else get t i.
Proof. apply get_alter. Qed.

Lemma reread_leaf t n r k x x' : get t n = Some r → body r = Leaf k x → elems x' = elems x → text_ok x' → reread t (set_body n (Leaf k x') t).
Proof.
  intros E Eb He Hx. split; [done|done| |].
  - intros i. rewrite get_set_body. case_decide as Hd; [|done]. subst i. rewrite E. simpl. unfold nview, view. simpl. rewrite Eb. simpl. by rewrite He.
  - intros Ht i r' k' y. rewrite get_set_body. case_decide as Hd; [|apply Ht]. subst i. rewrite E. simpl. intros [= <-]. simpl. by intros [= _ <-].
Qed.

Lemma Text_inv x x' s : text_ok x → Text x = Some (x', s) → s = text_str (elems x) ∧ text_ok x' ∧ elems x' = elems x.
Proof. intros Hx. destruct (text_read x Hx) as (y & -> & Hy & He). by intros [= -> <-]. Qed.

(** Reading a leaf gives its text. *)
Lemma LeafText_ok t n r k x : texts_ok t → get t n = Some r → body r = Leaf k x →
  ∃ t', LeafText t n = Some (t', text_str (elems x)) ∧ reread t t'.
Proof.
  intros Ht E Eb. unfold LeafText. rewrite E. cbn [mbind option_bind]. rewrite Eb.
  destruct (text_read x (Ht _ _ _ _ E Eb)) as (x' & -> & Hx & He). cbn [mbind option_bind]. eexists. split; [done|]. by eapply reread_leaf.
Qed.
Lemma LeafText_inv t n t' s : texts_ok t → LeafText t n = Some (t', s) →
  reread t t' ∧ ∃ r k x, get t n = Some r ∧ body r = Leaf k x ∧ s = text_str (elems x).
Proof.
  intros Ht H. unfold LeafText in H. destruct (get t n) as [r|] eqn:E; [|done]. cbn [mbind option_bind] in H.
  destruct (body r) as [|k x] eqn:Eb; [done|]. destruct (Text x) as [[x' s']|] eqn:Et; [|done]. cbn [mbind option_bind] in H.
  injection H as <- <-. destruct (Text_inv _ _ _ (Ht _ _ _ _ E Eb) Et) as (-> & Hx & He). split; [by eapply reread_leaf|eauto 10].
Qed.

(** ** Children in order *)

Definition v_live (m : gmap OpId vnode) (p c : OpId) : Prop := ∃ v, m !! c = Some v ∧ v_parent v = Some p ∧ v_tomb v = None.
Definition v_key (m : gmap OpId vnode) (c : OpId) : TreeSortKey := from_option v_sort (mkSort [] 0) (m !! c).
Definition v_later (m : gmap OpId vnode) (a b : OpId) : Prop := compare (v_key m a) (v_key m b) ≤ 0.
#[export] Instance v_later_dec m a b : Decision (v_later m a b).
Proof. unfold v_later. apply _. Defined.
Definition vchildren (m : gmap OpId vnode) (p : OpId) : list OpId :=
  merge_sort (v_later m) (filter (λ e : OpId * vnode, v_parent e.2 = Some p ∧ v_tomb e.2 = None) (map_to_list m)).*1.
(** Live siblings have keys of their own. *)
Definition distinct (m : gmap OpId vnode) : Prop := ∀ p a b, v_live m p a → v_live m p b → v_key m a = v_key m b → a = b.

#[export] Instance v_later_trans m : Transitive (v_later m).
Proof. intros a b c. apply (cmp_trans_le (cmp := compare)). Qed.
#[export] Instance v_later_total m : Total (v_later m).
Proof. intros a b. unfold v_later. rewrite (cmp_anti (cmp := compare) (v_key m a) (v_key m b)). lia. Qed.

Lemma vchildren_elem m p c : c ∈ vchildren m p ↔ v_live m p c.
Proof.
  unfold vchildren, v_live. rewrite merge_sort_Permutation, list_elem_of_fmap. split.
  - intros ([i v] & -> & [[Hp Ht] Hin]%list_elem_of_filter). apply elem_of_map_to_list in Hin. eauto.
  - intros (v & E & Hp & Ht). exists (c, v). split; [done|]. apply list_elem_of_filter. split; [done|]. by apply elem_of_map_to_list.
Qed.
Lemma vchildren_NoDup m p : NoDup (vchildren m p).
Proof.
  unfold vchildren. rewrite merge_sort_Permutation. pose proof (NoDup_fst_map_to_list m) as Hnd.
  induction (map_to_list m) as [|e l IH]; [constructor|]. csimpl. cbn [fmap list_fmap] in Hnd. apply NoDup_cons in Hnd as [Hni Hnd].
  rewrite filter_cons. case_decide; [|by apply IH]. csimpl. constructor; [|by apply IH].
  intros (x & Hx & [_ Hin]%list_elem_of_filter)%list_elem_of_fmap. apply Hni. rewrite Hx. by apply list_elem_of_fmap_2.
Qed.
Lemma vchildren_sorted m p : StronglySorted (v_later m) (vchildren m p).
Proof. apply StronglySorted_merge_sort; apply _. Qed.

(** The one list with the right members in the right order. *)
Lemma vchildren_eq m p l : distinct m → NoDup l → StronglySorted (v_later m) l → (∀ c, c ∈ l ↔ v_live m p c) → vchildren m p = l.
Proof.
  intros Hd Hnd Hs Hl. apply (StronglySorted_unique_strong (v_later m)); [|apply vchildren_sorted|done|].
  - intros a b Ha%vchildren_elem Hb%Hl H1 H2. apply (Hd p); [done|done|]. by apply (cmp_antisym_le (cmp := compare)).
  - apply NoDup_Permutation; [apply vchildren_NoDup|done|]. intros c. by rewrite vchildren_elem, Hl.
Qed.

Lemma v_key_get t n r : get t n = Some r → v_key (views t) n = sort r.
Proof. intros E. unfold v_key. by rewrite views_lookup, E. Qed.

Lemma liveChildren_view ids t p : nodes_ok ids t → distinct (views t) → liveChildren t p = vchildren (views t) p.
Proof.
  intros [N1 N2 N3 _] Hd. symmetry. unfold liveChildren. change (default [] (childrenByParent t !! p)) with (bucket t p).
  set (kids := omap (live_node t) (bucket t p)).
  assert (Hk : ∀ r, r ∈ kids ↔ ∃ c, get t c = Some r ∧ parent r = Some p ∧ tomb r = None).
  { intros r. unfold kids. rewrite list_elem_of_omap. unfold live_node. split.
    - intros (c & Hc & E). apply N3 in Hc as (r' & E' & Hp). rewrite E' in E. cbn [mbind option_bind] in E.
      destruct (tomb r') eqn:Et; [done|]. injection E as ->. eauto.
    - intros (c & E & Hp & Ht). exists c. split; [apply N3; eauto|]. rewrite E. cbn [mbind option_bind]. by rewrite Ht. }
  assert (Hids : ∀ r, r ∈ kids → get t (n_id r) = Some r).
  { intros r (c & E & _)%Hk. by rewrite (N1 _ _ E). }
  apply vchildren_eq; [done| | |].
  - rewrite (proj1 (sort_slice_spec kids)). unfold kids. clear Hk Hids kids. pose proof (N2 p) as Hnd.
    induction (bucket t p) as [|c l IH]; [constructor|]. apply NoDup_cons in Hnd as [Hc Hnd]. csimpl.
    destruct (live_node t c) as [r|] eqn:E; [|by apply IH]. csimpl. constructor; [|by apply IH].
    unfold live_node in E. destruct (get t c) as [r'|] eqn:Eg; [|done]. cbn [mbind option_bind] in E. destruct (tomb r'); [done|]. injection E as ->.
    rewrite (N1 _ _ Eg). intros (r2 & E2 & (c2 & Hc2 & E3)%list_elem_of_omap)%list_elem_of_fmap. unfold live_node in E3.
    destruct (get t c2) as [r3|] eqn:Eg2; [|done]. cbn [mbind option_bind] in E3. destruct (tomb r3); [done|]. injection E3 as ->.
    rewrite (N1 _ _ Eg2) in E2. by subst.
  - assert (Hs : StronglySorted no_later (sort_slice kids)) by apply sort_slice_spec.
    assert (Hin : ∀ r, r ∈ sort_slice kids → get t (n_id r) = Some r) by (intros r; rewrite (proj1 (sort_slice_spec kids)); apply Hids).
    induction Hs as [|r l Hs IH Hr]; [constructor|]. cbn [fmap list_fmap]. constructor; [apply IH; intros; apply Hin; set_solver|].
    apply Forall_fmap. rewrite Forall_forall in Hr. apply Forall_forall. intros r' Hr'. unfold compose, v_later.
    rewrite (v_key_get t (n_id r) r), (v_key_get t (n_id r') r') by (apply Hin; set_solver). specialize (Hr r' Hr'). unfold no_later in Hr.
    rewrite (cmp_anti (cmp := compare) (sort r) (sort r')) in Hr. lia.
  - intros c. rewrite (proj1 (sort_slice_spec kids)), list_elem_of_fmap. unfold v_live. split.
    + intros (r & -> & (c' & E & Hp & Ht)%Hk). exists (view r). rewrite views_lookup, (N1 _ _ E), E. done.
    + intros (v & E & Hp & Ht). rewrite views_lookup in E. destruct (get t c) as [r|] eqn:Eg; [|done]. injection E as <-.
      exists r. split; [by rewrite (N1 _ _ Eg)|]. apply Hk. eauto.
Qed.

(** ** Rendering *)

Fixpoint vrender (depth : nat) (m : gmap OpId vnode) (id : OpId) : list string :=
  match depth with
  | O => []
  | S depth =>
      match m !! id with
      | None => []
      | Some v => match v_body v with VLeaf _ e => text_str e | VElement _ => concat (vrender depth m <$> vchildren m id) end
      end
  end.
Definition vtext (m : gmap OpId vnode) : list string := vrender (S (size m)) m TreeRoot.

(** What reading needs of a replica. *)
Record sound (t : LosslessTreeCrdt) : Prop := {
  so_nodes : ∃ ids, nodes_ok ids t;
  so_texts : texts_ok t;
  so_tree : tree_wf (shape (views t));
}.

Lemma inv_sound U t : universe U → tree_inv U t → sound t.
Proof. intros HU Ht. split; [eexists; apply Ht|apply Ht|by eapply ti_tree]. Qed.
Lemma reread_sound t t' : sound t → reread t t' → sound t'.
Proof.
  intros [[ids Hn] Ht Hw] Hr. split; [exists ids; by eapply reread_nodes|by apply (rr_texts _ _ Hr)|by rewrite (reread_views _ _ Hr)].
Qed.

Lemma walk_list_ok f g t l : sound t →
  (∀ t', sound t' → reread t t' → ∀ c, c ∈ l → ∃ t2, f t' c = Some (t2, g c) ∧ reread t' t2) →
  ∃ t', walk_list f t l = Some (t', concat (g <$> l)) ∧ reread t t'.
Proof.
  intros Ht Hf. assert (H : ∀ l', l' ⊆ l → ∀ t1, sound t1 → reread t t1 →
    ∃ t', walk_list f t1 l' = Some (t', concat (g <$> l')) ∧ reread t t'); [|by apply (H l); [| |reflexivity]].
  intros l'. induction l' as [|c l' IH]; intros Hl t1 H1 R1; cbn [walk_list]; [by exists t1|].
  destruct (Hf t1 H1 R1 c) as (t2 & -> & R2); [set_solver|]. cbn [mbind option_bind].
  destruct (IH ltac:(set_solver) t2) as (t3 & -> & R3); [by eapply reread_sound|by etransitivity|]. cbn [mbind option_bind]. by exists t3.
Qed.

Definition rank_ok (s : shapes) (rank : OpId → nat) : Prop := ∀ n p b, s !! n = Some (p, b) →
  (rank n < size s)%nat ∧ ∀ q, p = Some q → is_Some (s !! q) ∧ (rank q < rank n)%nat.

Lemma walk_ok (rank : OpId → nat) t depth id :
  rank_ok (shape (views t)) rank →
  distinct (views t) → sound t → is_Some (shape (views t) !! id) → (size (shape (views t)) ≤ rank id + depth)%nat →
  ∃ t', walk depth t id = Some (t', vrender depth (views t) id) ∧ reread t t'.
Proof.
  intros Hrank Hd Ht Hid Hdep. remember (views t) as m eqn:Em. symmetry in Em. revert t id Ht Em Hid Hdep.
  induction depth as [|depth IH]; intros t id Ht Em Hid Hdep.
  - destruct Hid as [[p b] E]. apply Hrank in E as [? _]. lia.
  - cbn [walk vrender]. rewrite <-Em, views_lookup. destruct (get t id) as [r|] eqn:E; [|by exists t]. simpl.
    destruct (body r) as [k|k x] eqn:Eb; simpl.
    + destruct (so_nodes t Ht) as [ids Hids]. rewrite (liveChildren_view ids _ _ Hids) by by rewrite Em. rewrite Em.
      apply walk_list_ok; [done|]. intros t' Ht' Hr c Hc. apply vchildren_elem in Hc as (v & Ec & Hp & _).
      assert (Es : shape m !! c = Some (Some id, is_leaf (v_body v))) by (rewrite shape_lookup, Ec; simpl; by rewrite Hp).
      destruct (Hrank _ _ _ Es) as [_ H]. destruct (H id eq_refl) as [_ Hlt].
      apply IH; [done|by rewrite (reread_views _ _ Hr)|by rewrite Es|lia].
    + destruct (text_read x (so_texts t Ht _ _ _ _ E Eb)) as (x' & -> & Hx & He). cbn [mbind option_bind].
      eexists. split; [done|]. by eapply reread_leaf.
Qed.

(** Rendering ends and is the text of the view. *)
Lemma Render_ok t : sound t → distinct (views t) → ∃ t', Render t = Some (t', vtext (views t)) ∧ reread t t'.
Proof.
  intros Ht Hd. destruct (so_tree t Ht) as [Hroot _ [rank Hrank]]. unfold Render, vtext.
  assert (Hs : size (nodes t) = size (views t)) by (unfold views; by rewrite map_size_fmap).
  rewrite Hs. apply (walk_ok rank); [done|done|done|by rewrite Hroot|]. unfold shape. rewrite map_size_fmap. lia.
Qed.

(** ** What an edit of a leaf sends *)

(** [m'] is [m] with characters and deletions newer than [c]. *)
Record grown (c : Z) (m m' : gmap OpId textElem) : Prop := {
  g_old id e : m !! id = Some e → ∃ e', m' !! id = Some e' ∧ ch e' = ch e ∧ origin e' = origin e ∧
    (deleted e' = deleted e ∨ deleted e = None ∧ ∃ d, deleted e' = Some d ∧ c < Counter d);
  g_new id e' : m' !! id = Some e' → m !! id = None → c < Counter id;
}.

Lemma grown_refl c m : grown c m m.
Proof. split; [intros id e E; exists e; split_and!; [done..|by left]|congruence]. Qed.
Lemma grown_trans c m1 m2 m3 : grown c m1 m2 → grown c m2 m3 → grown c m1 m3.
Proof.
  intros [O1 N1] [O2 N2]. split.
  - intros id e E. destruct (O1 _ _ E) as (e2 & E2 & C2 & G2 & D2). destruct (O2 _ _ E2) as (e3 & E3 & C3 & G3 & D3).
    exists e3. split_and!; [done|congruence|congruence|]. destruct D3 as [D3|(D3 & d & Hd)].
    + rewrite D3. done.
    + destruct D2 as [D2|(D2 & d2 & Hd2 & _)]; [right; split; [congruence|eauto]|congruence].
  - intros id e E Hn. destruct (m2 !! id) as [e2|] eqn:E2; [by eapply N1|by eapply N2].
Qed.

Lemma Delete_grown x i x' : TextCrdt.inv x → counter x + 1 < max_i64 → TextCrdt.Delete x i = Some x' →
  grown (counter x) (elems x) (elems x') ∧ counter x ≤ counter x' ≤ counter x + 1.
Proof.
  intros Hi Hr H. destruct (orderedIds_ok x false Hi) as (x1 & v & Ho & Hv & Hi1 & He & Hc & Hp). unfold TextCrdt.Delete in H.
  rewrite Ho in H. cbn [mbind option_bind] in H. destruct (_ || _) in H.
  { injection H as <-. rewrite He, Hc. split; [apply grown_refl|lia]. }
  destruct (v !! Z.to_nat i) as [id|]; [|done]. cbn [mbind option_bind] in H. destruct (elems x1 !! id) as [e|] eqn:Ee; [|done].
  cbn [mbind option_bind] in H. pose proof (inv_counter x Hi). rewrite nextId_room in H by lia.
  destruct (deleted e) as [d|] eqn:Ed; injection H as <-; cbn [elems counter]; rewrite He, ?Hc in *; (split; [|lia]); [apply grown_refl|].
  split.
  - intros j e' E. destruct (decide (id = j)) as [<-|]; [|rewrite lookup_insert_ne by done; exists e'; split_and!; [done..|by left]].
    rewrite lookup_insert_eq. assert (e' = e) as -> by congruence. eexists. split; [done|]. cbn [ch origin deleted]. split_and!; [done..|].
    right. split; [done|]. eexists. split; [done|]. cbn [Counter]. lia.
  - intros j e' E Hn. destruct (decide (id = j)) as [<-|]; [congruence|]. rewrite lookup_insert_ne in E by done. congruence.
Qed.

Lemma insert_chain_grown s x o c : (∀ id e, elems x !! id = Some e → Counter id ≤ counter x) → 0 ≤ counter x → c ≤ counter x →
  counter x + Z.of_nat (length s) < max_i64 →
  grown c (elems x) (elems (insert_chain x o s)) ∧ counter (insert_chain x o s) = counter x + Z.of_nat (length s).
Proof.
  revert x o. induction s as [|a s IH]; intros x o Hw H0 Hc Hr; [split; [apply grown_refl|simpl; lia]|].
  cbn [insert_chain length] in *. unfold nextId. rewrite i64_small by zrange. unfold with_elems.
  cbn [elems counter TextCrdt.peer orderedLiveCache orderedAllCache].
  set (id := mkOpId (counter x + 1) (TextCrdt.peer x)). set (y := mkTextCrdt _ _ (<[id := _]> _) _ _).
  assert (Hfresh : elems x !! id = None).
  { destruct (elems x !! id) as [e|] eqn:E; [|done]. apply Hw in E. cbn [Counter id] in E. lia. }
  assert (Hg : grown c (elems x) (elems y)).
  { split; unfold y; cbn [elems].
    - intros j e E. exists e. rewrite lookup_insert_ne by congruence. split_and!; [done..|by left].
    - intros j e E Hn. destruct (decide (id = j)) as [<-|]; [cbn [Counter id]; lia|]. rewrite lookup_insert_ne in E by done. congruence. }
  destruct (IH y (Some id)) as [I1 I2]; try (unfold y; cbn [counter elems]; lia).
  - unfold y. cbn [counter elems]. intros j e [[<- _]|[_ E]]%lookup_insert_Some; [cbn [Counter id]; lia|]. apply Hw in E. lia.
  - split; [by eapply grown_trans|]. rewrite I2. unfold y. cbn [counter]. lia.
Qed.

Lemma InsertStr_grown x i s x' c : TextCrdt.inv x → c ≤ counter x → counter x + Z.of_nat (length s) < max_i64 → InsertStr x i s = Some x' →
  grown c (elems x) (elems x') ∧ counter x' = counter x + Z.of_nat (length s).
Proof.
  intros Hi Hc Hr H. destruct (orderedIds_ok x false Hi) as (x1 & v & Ho & Hv & Hi1 & He & Hcc & Hp). unfold InsertStr in H.
  rewrite Ho in H. cbn [mbind option_bind] in H. destruct (i <? 0); [done|]. injection H as <-.
  destruct (insert_chain_grown s (invalidateOrdered x1) (left_origin v i) c) as [G1 G2]; unfold invalidateOrdered in *; cbn [elems counter] in *; rewrite ?He, ?Hcc in *.
  - intros id e E. destruct (inv_wf x Hi _ _ E) as [[_ H] _]. done.
  - apply inv_counter, Hi.
  - done.
  - done.
  - done.
Qed.

(** [n] deletions at one index remove what follows it. *)
Lemma delete_loop_ok n x i s c : TextCrdt.inv x → text_of (elems x) = Some s → c ≤ counter x → counter x + Z.of_nat n < max_i64 → (i + n ≤ length s)%nat →
  ∃ x', delete_loop n x (Z.of_nat i) = Some x' ∧ TextCrdt.inv x' ∧ text_of (elems x') = Some (take i s ++ drop (i + n) s) ∧
    grown c (elems x) (elems x') ∧ counter x ≤ counter x' ≤ counter x + Z.of_nat n.
Proof.
  revert x s. induction n as [|n IH]; intros x s Hi Hs Hc Hr Hn; cbn [delete_loop].
  - exists x. rewrite Nat.add_0_r, take_drop. split_and!; [done|done|done|apply grown_refl|lia|lia].
  - destruct (Delete_ok x (Z.of_nat i) s Hi Hs) as (x1 & E & I1 & T1); [lia|]. rewrite E. cbn [mbind option_bind].
    destruct (Delete_grown x _ x1 Hi ltac:(lia) E) as [G1 C1].
    rewrite (proj2 (Z.ltb_ge _ _)), (proj2 (Z.leb_gt _ _)) in T1 by lia. cbn [orb] in T1. rewrite Nat2Z.id in T1.
    assert (Hl : length (delete i s) = (length s - 1)%nat) by (rewrite length_delete; [done|apply lookup_lt_is_Some; lia]).
    destruct (IH x1 (delete i s) I1 T1) as (x' & E' & I' & T' & G' & C'); [lia|lia|lia|].
    exists x'. split_and!; [done|done| | |lia|lia].
    + rewrite T'. f_equal. rewrite delete_take_drop. rewrite take_app_le, take_take by (rewrite length_take; lia).
      rewrite Nat.min_l by lia. f_equal. rewrite drop_app_ge by (rewrite length_take; lia). rewrite length_take, drop_drop. f_equal. lia.
    + eapply grown_trans; [|exact G']. destruct G1 as [O N]. split.
      * intros id e He. destruct (O id e He) as (e' & H1 & H2 & H3 & H4). exists e'. split_and!; try done.
        destruct H4 as [?|(? & d & ? & ?)]; [by left|right; split; [done|]]. exists d. split; [done|lia].
      * intros id e' He Hno. specialize (N id e' He Hno). lia.
Qed.

(** The delta of an edit, applied to what the leaf was or to what it is now, gives
    what it is now. *)
Lemma edit_delta x m' : TextCrdt.inv x → text_wf (counter m') (elems m') → grown (counter x) (elems x) (elems m') →
  let ops := DeltaSince m' (VersionVector x) in edit_text (elems x) ops = elems m' ∧ edit_text (elems m') ops = elems m'.
Proof.
  intros Hi Hw [Ho Hn] ops. unfold edit_text, ops, DeltaSince. rewrite op_entry_entry_op.
  assert (Hseen : ∀ id, 0 < Counter id → seen (VersionVector x) id = true → Counter id ≤ counter x).
  { intros id Hp Hs. apply VersionVector_seen in Hs as (op & (j & e & Hj & Hop) & _ & Hle); [|done|done].
    destruct (inv_wf x Hi _ _ Hj) as (H1 & _ & H3). destruct Hop as [->|Hd]; [lia|]. apply H3 in Hd. lia. }
  split; apply map_eq; intros i; destruct (delta_entries_lookup (VersionVector x) (elems m') i) as [Hnd Hl];
    change (base.filter _ (map_to_list (elems m'))) with (delta_entries (VersionVector x) (elems m')); rewrite fold_merge_lookup, Hl by done.
  - destruct (elems m' !! i) as [e'|] eqn:E'; cbn [mbind option_bind].
    + destruct (Hw _ _ E') as (P1 & _ & P3). destruct (elems x !! i) as [e|] eqn:E.
      * destruct (Ho _ _ E) as (e2 & E2 & C2 & G2 & D2). assert (e2 = e') as -> by congruence.
        destruct (is_new (VersionVector x) (i, e')) eqn:En.
        -- rewrite join_text_Some. f_equal. destruct e' as [c' g' d']. cbn [ch origin deleted] in *. f_equal; [done|done|].
           destruct D2 as [->|(-> & d & -> & _)]; [apply del_join_idem|done].
        -- f_equal. destruct e as [c g d], e' as [c' g' d']. cbn [ch origin deleted] in *. f_equal; [done|done|].
           destruct D2 as [->|(-> & d0 & -> & Hd)]; [done|]. unfold is_new in En. cbn [fst snd deleted] in En. apply orb_false_iff in En as [_ En].
           apply negb_false_iff in En. apply Hseen in En; [lia|]. specialize (P3 d0 eq_refl). lia.
      * assert (is_new (VersionVector x) (i, e') = true) as ->; [|done]. unfold is_new. cbn [fst snd]. apply orb_true_iff. left.
        apply negb_true_iff. destruct (seen (VersionVector x) i) eqn:Es; [|done]. apply Hseen in Es; [|lia]. specialize (Hn _ _ E' E). lia.
    + destruct (elems x !! i) as [e|] eqn:E; [|done]. destruct (Ho _ _ E) as (e2 & E2 & _). congruence.
  - destruct (elems m' !! i) as [e'|] eqn:E'; cbn [mbind option_bind]; [|done]. destruct (is_new _ _); [|done].
    rewrite join_text_Some, del_join_idem. by destruct e'.
Qed.

(** ** Local operations *)

Lemma bytes_loop_le s b pos cp k : bytes_loop s b pos cp = Some k → cp ≤ k ≤ cp + Z.of_nat (length s).
Proof.
  revert pos cp. induction s as [|r s IH]; intros pos cp; cbn [bytes_loop length].
  - destruct (pos =? b); [|done]. intros [= <-]. lia.
  - destruct (pos =? b); [intros [= <-]; lia|]. destruct (b <? _); [done|]. intros H%IH. lia.
Qed.
Lemma byteToCodePoint_le s b k : byteToCodePoint s b = Some k → 0 ≤ k ≤ Z.of_nat (length s).
Proof. unfold byteToCodePoint. destruct (b <? 0); [done|]. intros H%bytes_loop_le. lia. Qed.

Section local.
Context (U : list TreeOp) (HU : universe U).

Lemma commitLocal_log t op t' : commitLocal t op = Some t' → log t' = log t ++ [op].
Proof.
  unfold commitLocal. destruct (applyOp t op) as [t1|] eqn:E; [|done]. cbn [mbind option_bind]. intros [= <-].
  apply applyOp_frame in E as (_ & _ & _ & E & _). simpl. by rewrite E.
Qed.

Lemma next_fresh t op : tree_inv U t → op ∈ U → o_Id op = (nextOpId t).2 →
  tree_inv U (nextOpId t).1 ∧ op ∉ log (nextOpId t).1 ∧ Counter (o_Id op) ≤ t_counter (nextOpId t).1.
Proof.
  intros Ht Ho E. pose proof (un_op U HU op Ho) as [[H1 H2] _]. pose proof (ti_clock U t Ht) as Hc. unfold nextOpId in *. cbn [fst snd] in *.
  assert (Hs : t_counter t +ₛ 1 = t_counter t + 1) by (apply i64_small; unfold cap in *; zrange). rewrite Hs in *. rewrite E in *. cbn [Counter] in *.
  split_and!; [apply with_counter_inv; [done|lia]| |simpl; lia]. simpl. intros Hin. apply (ti_seen U t Ht) in Hin. rewrite E in Hin. simpl in Hin. lia.
Qed.

(** A local operation that is ready is applied, logged and keeps the invariant. *)
Lemma commitLocal_ok t op : tree_inv U t → op ∈ U → o_Id op = (nextOpId t).2 → ready (shape (views t)) (o_Id <$> log t) op →
  ∃ t', commitLocal (nextOpId t).1 op = Some t' ∧ tree_inv U t' ∧ views t' = vstep (views t) op.
Proof.
  intros Ht Ho E Hr. destruct (next_fresh t op Ht Ho E) as (N1 & N2 & N3).
  destruct (commit_ok U HU (nextOpId t).1 op N1 Ho N2 N3 Hr) as (t1 & E1 & I1 & L1 & _). unfold commitLocal. rewrite E1. cbn [mbind option_bind].
  exists (record t1 op). split_and!; [done|done|]. rewrite (ti_views U _ I1), L1, vrun_snoc. by rewrite <-(ti_views U _ N1).
Qed.
Lemma commitLocal_inv t op t' : commitLocal (nextOpId t).1 op = Some t' → tree_inv U t → op ∈ U → o_Id op = (nextOpId t).2 →
  ready (shape (views t)) (o_Id <$> log t) op → tree_inv U t'.
Proof. intros H Ht Ho E Hr. destruct (commitLocal_ok t op Ht Ho E Hr) as (t2 & E2 & I2 & _). congruence. Qed.

(** The same of an operation that is not one of the document. *)
Lemma commit_sound t op : tree_inv U t → op_wf op → ready (shape (views t)) (o_Id <$> log t) op →
  ∃ t', commitLocal (nextOpId t).1 op = Some t' ∧ sound t' ∧ views t' = vstep (views t) op.
Proof.
  intros Ht Hw Hr. set (t0 := (nextOpId t).1). assert (H0 : texts_ok t0) by apply (ti_texts U t Ht).
  assert (Hn : nodes_ok (o_Id <$> log t) t0) by (destruct (ti_nodes U t Ht); by split).
  destruct (applyOp_view t0 op H0 (ti_fits U HU t Ht) Hw) as (t1 & E & T1 & _ & V1). unfold commitLocal. rewrite E. cbn [mbind option_bind].
  exists (record t1 op). split; [done|]. split; [|exact V1]. split.
  - exists ((o_Id <$> log t) ++ [o_Id op]). assert (H1 : nodes_ok ((o_Id <$> log t) ++ [o_Id op]) t1).
    { apply (applyOp_nodes _ t0 op t1); [|set_solver|exact E]. eapply nodes_ok_mono; [|exact Hn]. set_solver. }
    destruct H1. by split.
  - exact T1.
  - change (views (record t1 op)) with (views t1). rewrite V1. eapply grows_wf; [|by eapply ti_tree].
    by apply (vstep_grows _ (o_Id <$> log t)); [eapply ti_tree|..].
Qed.

Lemma shape_get t n r : get t n = Some r → is_Some (shape (views t) !! n).
Proof. intros E. rewrite shape_lookup, views_lookup, E. done. Qed.
Lemma known_head t n r k x : tree_inv U t → get t n = Some r → body r = Leaf k x → known (o_Id <$> log t) (textHead r).
Proof. intros Ht E Eb. left. by eapply (ti_nodes U t Ht). Qed.

Lemma CreateNode_inv t p a s t' id : tree_inv U t → CreateNode t p a s = Some (t', id) → log t' ⊆ U → tree_inv U t'.
Proof.
  intros Ht H HL. unfold CreateNode in H. destruct (get t p) as [r|] eqn:E; [|done]. cbn [mbind option_bind] in H.
  change (nextOpId t) with ((nextOpId t).1, (nextOpId t).2) in H. cbv iota beta in H.
  destruct (commitLocal _ _) as [t1|] eqn:Ec; [|done]. cbn [mbind option_bind] in H. injection H as <- <-.
  pose proof (commitLocal_log _ _ _ Ec) as El. apply (commitLocal_inv _ _ _ Ec Ht); [|reflexivity|].
  - apply HL. rewrite El. set_solver.
  - by eapply shape_get.
Qed.
Lemma TombstoneNode_inv t n t' : tree_inv U t → TombstoneNode t n = Some t' → log t' ⊆ U → tree_inv U t'.
Proof.
  intros Ht H HL. unfold TombstoneNode in H. destruct (get t n) as [r|] eqn:E; [|done]. cbn [mbind option_bind] in H.
  destruct (decide (n = TreeRoot)); [done|]. change (nextOpId t) with ((nextOpId t).1, (nextOpId t).2) in H. cbv iota beta in H.
  pose proof (commitLocal_log _ _ _ H) as El. apply (commitLocal_inv _ _ _ H Ht); [|reflexivity|].
  - apply HL. rewrite El. set_solver.
  - by eapply shape_get.
Qed.
Lemma ReorderChild_inv t n a t' : tree_inv U t → ReorderChild t n a = Some t' → log t' ⊆ U → tree_inv U t'.
Proof.
  intros Ht H HL. unfold ReorderChild in H. destruct (get t n) as [r|] eqn:E; [|done]. cbn [mbind option_bind] in H.
  destruct (parent r) as [p|]; [|done]. cbn [mbind option_bind] in H. change (nextOpId t) with ((nextOpId t).1, (nextOpId t).2) in H. cbv iota beta in H.
  pose proof (commitLocal_log _ _ _ H) as El. apply (commitLocal_inv _ _ _ H Ht); [|reflexivity|].
  - apply HL. rewrite El. set_solver.
  - by eapply shape_get.
Qed.
Lemma SplitLeaf_inv t n b t' id : tree_inv U t → SplitLeaf t n b = Some (t', id) → log t' ⊆ U → tree_inv U t'.
Proof.
  intros Ht H HL. unfold SplitLeaf in H. destruct (LeafText t n) as [[t1 s]|] eqn:E; [|done]. cbn [mbind option_bind] in H.
  destruct (LeafText_inv _ _ _ _ (ti_texts U t Ht) E) as (R1 & r & k & x & Er & Eb & ->). pose proof (reread_inv U _ _ Ht R1) as Ht1.
  destruct (byteToCodePoint _ b) as [at_|]; [|done]. cbn [mbind option_bind] in H. destruct (get t1 n) as [r1|] eqn:Er1; [|done].
  cbn [mbind option_bind] in H. destruct (parent r1) as [p|]; [|done]. cbn [mbind option_bind] in H.
  change (nextOpId t1) with ((nextOpId t1).1, (nextOpId t1).2) in H. cbv iota beta in H.
  destruct (commitLocal _ _) as [t2|] eqn:Ec; [|done]. cbn [mbind option_bind] in H. injection H as <- <-.
  pose proof (commitLocal_log _ _ _ Ec) as El. apply (commitLocal_inv _ _ _ Ec Ht1); [|reflexivity|].
  - apply HL. rewrite El. set_solver.
  - split; [by eapply shape_get|]. destruct (reread_get' _ _ _ _ R1 Er1) as (r0 & Er0 & _ & V & Hh). assert (r0 = r) as -> by congruence.
    rewrite Hh. destruct (rr_frame _ _ R1) as (_ & _ & _ & -> & _). by eapply known_head.
Qed.
Lemma MergeAdjacentLeaves_inv t l r t' : tree_inv U t → MergeAdjacentLeaves t l r = Some t' → log t' ⊆ U → tree_inv U t'.
Proof.
  intros Ht H HL. unfold MergeAdjacentLeaves in H. destruct (LeafText t l) as [[t1 sl]|] eqn:E1; [|done]. cbn [mbind option_bind] in H.
  destruct (LeafText_inv _ _ _ _ (ti_texts U t Ht) E1) as (R1 & nl & kl & xl & Enl & Bl & _). pose proof (reread_inv U _ _ Ht R1) as Ht1.
  destruct (LeafText t1 r) as [[t2 sr]|] eqn:E2; [|done]. cbn [mbind option_bind] in H.
  destruct (LeafText_inv _ _ _ _ (ti_texts U t1 Ht1) E2) as (R2 & nr & kr & xr & Enr & Br & _). pose proof (reread_inv U _ _ Ht1 R2) as Ht2.
  destruct (get t2 l) as [nl2|] eqn:El2; [|done]. cbn [mbind option_bind] in H. destruct (parent nl2) as [p|]; [|done]. cbn [mbind option_bind] in H.
  destruct (index_of l _) as [idx|]; [|done]. cbn [mbind option_bind] in H. destruct (liveChildren t2 p !! S idx) as [next|]; [|done].
  cbn [mbind option_bind] in H. destruct (decide (next = r)); [|done]. destruct (get t2 r) as [nr2|] eqn:Er2; [|done]. cbn [mbind option_bind] in H.
  change (nextOpId t2) with ((nextOpId t2).1, (nextOpId t2).2) in H. cbv iota beta in H.
  pose proof (commitLocal_log _ _ _ H) as El. destruct (rr_frame _ _ R1) as (_ & _ & _ & L1 & _). destruct (rr_frame _ _ R2) as (_ & _ & _ & L2 & _).
  apply (commitLocal_inv _ _ _ H Ht2); [|reflexivity|].
  - apply HL. rewrite El. set_solver.
  - split_and!; [by eapply shape_get|by eapply shape_get| |].
    + destruct (reread_get' _ _ _ _ R2 El2) as (n1 & En1 & _ & _ & H1). destruct (reread_get' _ _ _ _ R1 En1) as (n0 & En0 & _ & _ & H0).
      rewrite H1, H0, L2, L1. assert (n0 = nl) as -> by congruence. by eapply known_head.
    + destruct (reread_get' _ _ _ _ R2 Er2) as (n1 & En1 & _ & _ & H1). assert (n1 = nr) as -> by congruence.
      rewrite H1, L2. by eapply known_head.
Qed.

Lemma fork_text_ok x p : text_ok x → text_ok (TextCrdt.Fork x p) ∧ elems (TextCrdt.Fork x p) = elems x ∧ counter (TextCrdt.Fork x p) = counter x.
Proof. intros [[H1 H2 H3] Hc]. split; [|done]. split; [|done]. split; simpl; [done|apply cache_ok_none|done]. Qed.

(** The text an edit leaves: [st] and [en] are where it starts and where the
    deletion ends, as character counts. *)
Definition splice (s : list string) (st en : Z) (ins : list string) : list string :=
  take (Z.to_nat st) s ++ ins ++ drop (Z.to_nat (Z.max st en)) s.

(** The local half of an edit, on the leaf's text. *)
Lemma edit_text_ok x s st en ins : text_ok x → text_of (elems x) = Some s → 0 ≤ st ≤ Z.of_nat (length s) → en ≤ Z.of_nat (length s) →
  counter x + Z.of_nat (length s) + Z.of_nat (length ins) ≤ cap →
  ∃ x1 x', delete_loop (Z.to_nat (en - st)) x st = Some x1 ∧ InsertStr x1 st ins = Some x' ∧ text_ok x' ∧
    grown (counter x) (elems x) (elems x') ∧ text_str (elems x') = splice s st en ins.
Proof.
  intros [Hi Hc] Hs Hst Hen Hroom. unfold cap in *.
  destruct (delete_loop_ok (Z.to_nat (en - st)) x (Z.to_nat st) s (counter x)) as (x1 & E1 & I1 & T1 & G1 & C1); [done|done|lia|zrange|lia|].
  rewrite Z2Nat.id in E1 by lia. destruct (InsertStr_ok x1 st ins _ I1 T1) as (x' & E2 & I2 & T2); [lia|zrange|].
  destruct (InsertStr_grown x1 st ins x' (counter x) I1) as [G2 C2]; [lia|zrange|done|].
  exists x1, x'. split_and!; [done|done|split; [done|unfold cap; lia]|by eapply grown_trans|].
  unfold text_str, splice. rewrite T2. cbn [default from_option id]. unfold place. rewrite (proj2 (Z.leb_le _ _)).
  - rewrite take_app_le, take_take by (rewrite length_take; lia). rewrite Nat.min_id. f_equal. f_equal.
    rewrite drop_app_ge by (rewrite length_take; lia). rewrite length_take, drop_drop. f_equal. lia.
  - rewrite length_app, length_take. lia.
Qed.

Lemma text_of_str x : text_ok x → text_of (elems x) = Some (text_str (elems x)).
Proof. intros [Hi _]. destruct (Text_ok x Hi) as (x' & v & _ & Hv & _). unfold text_str. by rewrite (text_of_walk _ _ Hv). Qed.

Lemma delta_wf x vv : TextCrdt.inv x → counter x ≤ cap → Forall (entry_wf ∘ op_entry) (DeltaSince x vv) ∧ NoDup (op_entry <$> DeltaSince x vv).*1.
Proof.
  intros Hi Hc. unfold DeltaSince. rewrite op_entry_entry_op. change (base.filter _ (map_to_list (elems x))) with (delta_entries vv (elems x)). split.
  - apply Forall_forall. intros op (ie & -> & Hin)%list_elem_of_fmap. unfold delta_entries in Hin. apply list_elem_of_filter in Hin as [_ Hin].
    destruct ie as [i e]. apply elem_of_map_to_list in Hin. unfold compose, entry_wf. cbn. apply (inv_wf x Hi) in Hin. destruct e.
    eapply elem_wf_mono; [exact Hc|exact Hin].
  - apply (delta_entries_lookup vv (elems x) (mkOpId 0 0)).
Qed.

(** An edit in range with room for its ids: the delta it logs, what becomes of
    the view, and the invariant, when the operation is one of the document. *)
Lemma EditLeaf_run t n a d ins r k x st en :
  tree_inv U t → get t n = Some r → body r = Leaf k x → let s := text_str (elems x) in
  byteToCodePoint s a = Some st → byteToCodePoint s (a +ₛ d) = Some en →
  counter x + Z.of_nat (length s) + Z.of_nat (length ins) ≤ cap → t_counter t < cap →
  ∃ ops m t', let op := mkTreeOp (nextOpId t).2 (TreeOpLeafEdit n (textHead r) ops) in
    EditLeaf t n a d ins = Some t' ∧ op_wf op ∧ log t' = log t ++ [op] ∧
    views t' = <[n := vwith_body (VLeaf k m) (view r)]> (views t) ∧ text_str m = splice s st en ins ∧
    sound t' ∧ (op ∈ U → tree_inv U t').
Proof.
  intros Ht Er Eb s Ha Hd Hroom Hclock. pose proof (byteToCodePoint_le _ _ _ Ha). pose proof (byteToCodePoint_le _ _ _ Hd).
  destruct (text_read x (ti_texts U t Ht _ _ _ _ Er Eb)) as (x1 & ET & Hx1 & Ex1).
  pose proof (Text_counter _ _ _ ET) as Hc1. set (t1 := set_body n (Leaf k x1) t).
  assert (R1 : reread t t1) by by eapply reread_leaf. pose proof (reread_inv U _ _ Ht R1) as Ht1.
  assert (Er1 : get t1 n = Some (with_body (Leaf k x1) r)) by (unfold t1; rewrite get_set_body, decide_True, Er by done; done).
  set (y := TextCrdt.Fork x1 (t_peer t1)). destruct (fork_text_ok x1 (t_peer t1) Hx1) as (Hy & Ey & Cy). fold y in Hy, Ey, Cy.
  destruct (edit_text_ok y s st en ins Hy) as (xd & x' & E1 & E2 & Hx' & G & T');
    [rewrite Ey, Ex1; by apply text_of_str, (ti_texts U t Ht _ _ _ _ Er Eb)|lia|lia|rewrite Cy, Hc1; done|].
  set (ops := DeltaSince x' (VersionVector y)). destruct (edit_delta y x' (proj1 Hy) (inv_wf x' (proj1 Hx')) G) as [D1 D2]. fold ops in D1, D2.
  destruct (delta_wf x' (VersionVector y) (proj1 Hx') (proj2 Hx')) as [W1 W2]. fold ops in W1, W2.
  set (op := mkTreeOp (nextOpId t).2 (TreeOpLeafEdit n (textHead r) ops)).
  pose proof (ti_clock U t Ht) as Hclk. assert (Hnext : t_counter t +ₛ 1 = t_counter t + 1) by (apply i64_small; unfold cap in *; zrange).
  assert (Hwf : op_wf op) by (split; [unfold op, nextOpId; cbn [o_Id snd Counter]; rewrite Hnext; lia|done]).
  destruct (apply_delta_ok x' ops Hx' W1 W2) as (x3 & b & E3 & Hx3 & Ex3). rewrite D2 in Ex3.
  set (t2 := (nextOpId (set_body n (Leaf k x') t1)).1).
  assert (Er2 : get t2 n = Some (with_body (Leaf k x') r)).
  { change (get t2 n) with (get (set_body n (Leaf k x') t1) n). by rewrite get_set_body, decide_True, Er1 by done. }
  set (t3 := record (with_nodes (<[n := with_head (o_Id op) (with_body (Leaf k x3) (with_body (Leaf k x') r))]>) t2) op).
  assert (Ec : commitLocal t2 op = Some t3).
  { unfold commitLocal, applyOp, op. cbn [o_Kind]. rewrite Er2. cbn [mbind option_bind with_body body]. rewrite E3. done. }
  assert (Hready : ready (shape (views t1)) (o_Id <$> log t1) op).
  { split; [by eapply shape_get|]. destruct (rr_frame _ _ R1) as (_ & _ & _ & -> & _). by eapply known_head. }
  destruct (commit_sound t1 op Ht1 Hwf Hready) as (tc & Etc & Stc & _).
  assert (Rc : reread tc t3).
  { pose proof Etc as Etc'. destruct (apply_delta_ok x1 ops Hx1 W1 W2) as (y3 & b' & E4 & _ & Ey3). rewrite <-Ey, D1 in Ey3.
  unfold commitLocal, applyOp in Etc. cbn [o_Kind op] in Etc. change (get (nextOpId t1).1 n) with (get t1 n) in Etc. rewrite Er1 in Etc.
  cbn [mbind option_bind with_body body] in Etc. rewrite E4 in Etc. cbn [mbind option_bind] in Etc. injection Etc as <-.
  assert (Hget : ∀ (h : OpId) z (u : LosslessTreeCrdt) o i, nodes u = nodes t1 ∨ nodes u = nodes (set_body n (Leaf k x') t1) →
    get (record (with_nodes (<[n := with_head h (with_body (Leaf k z) r)]>) u) o) i =
      if decide (n = i) then Some (with_head h (with_body (Leaf k z) r)) else get t i).
  { intros h z u o i Hu. unfold get. cbn [record nodes with_nodes]. destruct (decide (n = i)) as [<-|Hne]; [by rewrite lookup_insert_eq|].
    rewrite lookup_insert_ne by done. destruct Hu as [->| ->]; [|unfold set_body; cbn [nodes with_nodes]; rewrite lookup_alter_ne by done];
      unfold t1, set_body; cbn [nodes with_nodes]; by rewrite lookup_alter_ne. }
  split; [done|done| |].
  * intros i. change (with_body (Leaf k x3) (with_body (Leaf k x') r)) with (with_body (Leaf k x3) r) in t3.
    change (with_body (Leaf k y3) (with_body (Leaf k x1) r)) with (with_body (Leaf k y3) r). unfold t3. rewrite !Hget by auto.
    destruct (decide (n = i)); [|done]. simpl. unfold nview, view. simpl. by rewrite Ex3, Ey3.
  * intros Hc i r' k' z. unfold t3. change (with_body (Leaf k x3) (with_body (Leaf k x') r)) with (with_body (Leaf k x3) r). rewrite Hget by auto.
    destruct (decide (n = i)); [intros [= <-]; cbn [with_head with_body body]; by intros [= _ <-]|apply (ti_texts U t Ht)]. }
  exists ops, (elems x'), t3. cbv zeta. fold op. split_and!; [|done|done| |done|by eapply reread_sound|].
  - unfold EditLeaf, LeafText. rewrite Er. cbn [mbind option_bind]. rewrite Eb, ET. cbn [mbind option_bind]. fold s. rewrite Ha. cbn [mbind option_bind].
    rewrite Hd. cbn [mbind option_bind]. fold t1. rewrite Er1. cbn [mbind option_bind with_body body textHead]. fold y. rewrite E1. cbn [mbind option_bind].
    rewrite E2. cbn [mbind option_bind]. fold ops. exact Ec.
  - apply map_eq. intros i. rewrite views_lookup. unfold t3. change (get (record ?u op) i) with (get u i).
    rewrite (insert_as_alter t2 n (with_body (Leaf k x') r) (λ r, with_head (o_Id op) (with_body (Leaf k x3) r)) Er2), get_alter.
    destruct (decide (n = i)) as [<-|].
    + rewrite lookup_insert_eq, Er2. simpl. f_equal. unfold view, vwith_body. simpl. by rewrite Ex3.
    + rewrite lookup_insert_ne, views_lookup by done. change (get t2 i) with (get (set_body n (Leaf k x') t1) i). unfold t1.
      rewrite !get_set_body, !decide_False by done. done.
  - intros HopU. eapply reread_inv; [|exact Rc]. by apply (commitLocal_inv _ _ _ Etc Ht1 HopU).
Qed.

Lemma EditLeaf_inv t n a d ins t' : tree_inv U t → EditLeaf t n a d ins = Some t' → log t' ⊆ U → t_counter t < cap →
  (∀ r k x, get t n = Some r → body r = Leaf k x → counter x + Z.of_nat (length (text_str (elems x))) + Z.of_nat (length ins) ≤ cap) → tree_inv U t'.
Proof.
  intros Ht H HL Hc Hroom. pose proof H as H'. unfold EditLeaf in H'. destruct (LeafText t n) as [[t1 s]|] eqn:E; [|done]. cbn [mbind option_bind] in H'.
  destruct (LeafText_inv _ _ _ _ (ti_texts U t Ht) E) as (R1 & r & k & x & Er & Eb & ->).
  destruct (byteToCodePoint _ a) as [st|] eqn:Ha; [|done]. cbn [mbind option_bind] in H'.
  destruct (byteToCodePoint _ (a +ₛ d)) as [en|] eqn:Hd; [|done].
  destruct (EditLeaf_run t n a d ins r k x st en Ht Er Eb Ha Hd (Hroom _ _ _ Er Eb) Hc) as (ops & m & t2 & E2 & _ & L2 & _ & _ & _ & I2).
  assert (t2 = t') as -> by congruence. apply I2, HL. rewrite L2. set_solver.
Qed.

(** A fork keeps the invariant whatever order its index is rebuilt in. *)
Lemma fold_indexAdd l ix q :
  NoDup (default [] (ix !! q)) → (∀ c, c ∈ l.*1 → c ∉ default [] (ix !! q)) → NoDup l.*1 →
  let ix' := foldl (λ ix (e : OpId * treeNode), match parent e.2 with Some p => indexAdd p e.1 ix | None => ix end) ix l in
  NoDup (default [] (ix' !! q)) ∧ ∀ c, c ∈ default [] (ix' !! q) ↔ c ∈ default [] (ix !! q) ∨ ∃ r, (c, r) ∈ l ∧ parent r = Some q.
Proof.
  revert ix. induction l as [|[c r] l IH]; intros ix Hnd Hni Hl; cbn [foldl].
  { split; [done|]. intros c. split; [by left|]. intros [?|(r & Hx & _)]; [done|by apply elem_of_nil in Hx]. }
  csimpl in Hl. csimpl in Hni. apply NoDup_cons in Hl as [Hc Hl]. cbn [fst snd].
  set (ix1 := match parent r with Some p => indexAdd p c ix | None => ix end).
  assert (E1 : default [] (ix1 !! q) = if decide (parent r = Some q) then default [] (ix !! q) ++ [c] else default [] (ix !! q)).
  { unfold ix1. destruct (parent r) as [p|]; [|by rewrite decide_False]. rewrite bucket_indexAdd. destruct (decide (p = q)) as [->|];
      [rewrite (decide_True (P := Some q = Some q)) by done; rewrite decide_False; [done|apply Hni; set_solver]|by rewrite decide_False by congruence]. }
  destruct (IH ix1) as [I1 I2].
  - rewrite E1. case_decide; [|done]. apply NoDup_app. split_and!; [done| |apply NoDup_singleton]. intros x Hx ->%list_elem_of_singleton. apply (Hni c); set_solver.
  - intros x Hx. rewrite E1. pose proof (Hni x ltac:(set_solver)). case_decide; [|done]. intros [?| ->%list_elem_of_singleton]%elem_of_app; done.
  - done.
  - split; [done|]. intros x. rewrite I2, E1. setoid_rewrite elem_of_cons. case_decide as Hp.
    + rewrite elem_of_app, list_elem_of_singleton. naive_solver.
    + naive_solver.
Qed.

Definition forked (t : LosslessTreeCrdt) : gmap OpId treeNode := (λ n, with_body (clone_body (body n)) n) <$> nodes t.
Lemma ForkIn_inv order t p : tree_inv U t → order ≡ₚ map_to_list (forked t) → tree_inv U (ForkIn order t p) ∧ views (ForkIn order t p) = views t.
Proof.
  intros Ht Ho. pose proof (ti_nodes U t Ht) as [N1 N2 N3 N4].
  assert (Hget : ∀ n, get (ForkIn order t p) n = (λ n, with_body (clone_body (body n)) n) <$> get t n) by (intros n; apply lookup_fmap).
  assert (Hv : views (ForkIn order t p) = views t).
  { apply map_eq. intros n. rewrite !views_lookup, Hget. destruct (get t n) as [r|]; [|done]. simpl. f_equal. unfold view. simpl. by destruct (body r). }
  split; [|done]. assert (Hb : ∀ q, NoDup (bucket (ForkIn order t p) q) ∧ ∀ c, c ∈ bucket (ForkIn order t p) q ↔ ∃ r, get (ForkIn order t p) c = Some r ∧ parent r = Some q).
  { intros q. destruct (fold_indexAdd order ∅ q) as [I1 I2]; [rewrite lookup_empty; constructor|intros c _; rewrite lookup_empty; apply not_elem_of_nil|rewrite Ho; apply NoDup_fst_map_to_list|].
    split; [exact I1|]. intros c. rewrite (I2 c), lookup_empty.
    assert (Hin : ∀ r, (c, r) ∈ order ↔ get (ForkIn order t p) c = Some r) by (intros r; etransitivity; [exact (elem_of_Permutation_proper (c, r) _ _ Ho)|apply elem_of_map_to_list]).
    split; [intros [?%elem_of_nil|(r & H & ?)]; [done|]|intros (r & H & ?); right]; exists r; (split; [by apply Hin|done]). }
  split; try apply Ht.
  - split.
    + intros n r. rewrite Hget. destruct (get t n) as [r0|] eqn:E; [|done]. intros [= <-]. exact (N1 n r0 E).
    + intros q. apply Hb.
    + intros q. apply Hb.
    + intros n r k x. rewrite Hget. destruct (get t n) as [r0|] eqn:E; [|done]. intros [= <-] Eb. cbn [with_body body textHead] in *.
      destruct (body r0) as [|k0 x0] eqn:Eb0; [done|]. by eapply N4.
  - intros n r k x. rewrite Hget. destruct (get t n) as [r0|] eqn:E; [|done]. intros [= <-] Eb. cbn [with_body body] in Eb.
    destruct (body r0) as [|k0 x0] eqn:Eb0; [done|]. cbn [clone_body] in Eb. injection Eb as _ <-. apply fork_text_ok, (ti_texts U t Ht _ _ _ _ E Eb0).
  - rewrite Hv. apply Ht.
Qed.

Lemma new_inv p : tree_inv U (NewLosslessTreeCrdt p).
Proof.
  assert (Hg : ∀ n r, get (NewLosslessTreeCrdt p) n = Some r → n = TreeRoot ∧ r = mkNode TreeRoot None (mkSort [] 0) TreeRoot (Element "root") None TreeRoot).
  { intros n r. unfold get, NewLosslessTreeCrdt. cbn [nodes]. intros [<- <-]%lookup_singleton_Some. done. }
  split; try done; try (intros op Hin; by apply elem_of_nil in Hin).
  - split.
    + intros n r [-> ->]%Hg. done.
    + intros q. unfold bucket. cbn [childrenByParent NewLosslessTreeCrdt]. rewrite lookup_empty. constructor.
    + intros q c. unfold bucket. cbn [childrenByParent NewLosslessTreeCrdt]. rewrite lookup_empty. split; [by intros ?%elem_of_nil|].
      intros (r & [_ ->]%Hg & Hp). done.
    + intros n r k x [_ ->]%Hg Hb. done.
  - intros n r k x [_ ->]%Hg Hb. done.
  - intros a op b E. by destruct a.
  - apply frontier_of_empty.
  - constructor.
Qed.
End local.

(** ** Replicas of a document *)

(** What a replica of the document [U] comes to by reading, editing (with ids to
    spare), receiving and forking. *)
Inductive reach (U : list TreeOp) : LosslessTreeCrdt → Prop :=
  | reach_new p : reach U (NewLosslessTreeCrdt p)
  | reach_read t t' n s : reach U t → LeafText t n = Some (t', s) → reach U t'
  | reach_create t t' p a s id : reach U t → CreateNode t p a s = Some (t', id) → log t' ⊆ U → reach U t'
  | reach_tombstone t t' n : reach U t → TombstoneNode t n = Some t' → log t' ⊆ U → reach U t'
  | reach_reorder t t' n a : reach U t → ReorderChild t n a = Some t' → log t' ⊆ U → reach U t'
  | reach_edit t t' n a d ins : reach U t → EditLeaf t n a d ins = Some t' → log t' ⊆ U → t_counter t < cap →
      (∀ r k x, get t n = Some r → body r = Leaf k x → counter x + Z.of_nat (length (text_str (elems x))) + Z.of_nat (length ins) ≤ cap) → reach U t'
  | reach_split t t' n b id : reach U t → SplitLeaf t n b = Some (t', id) → log t' ⊆ U → reach U t'
  | reach_merge t t' l r : reach U t → MergeAdjacentLeaves t l r = Some t' → log t' ⊆ U → reach U t'
  | reach_update t t' d : reach U t → u_Ops d ⊆ U → ApplyUpdate t d = Some t' → reach U t'
  | reach_fork t order p : reach U t → order ≡ₚ map_to_list (forked t) → reach U (ForkIn order t p).

Lemma tree_reach_inv U t : universe U → reach U t → tree_inv U t.
Proof.
  intros HU. induction 1 as [p|t t' n s _ IH E|t t' p a s id _ IH E HL|t t' n _ IH E HL|t t' n a _ IH E HL|t t' n a d ins _ IH E HL Hc Hr|t t' n b id _ IH E HL
    |t t' l r _ IH E HL|t t' d _ IH Hd E|t order p _ IH Ho].
  - apply new_inv.
  - destruct (LeafText_inv _ _ _ _ (ti_texts U t IH) E) as [R _]. by eapply reread_inv.
  - by eapply CreateNode_inv.
  - by eapply TombstoneNode_inv.
  - by eapply ReorderChild_inv.
  - by eapply EditLeaf_inv.
  - by eapply SplitLeaf_inv.
  - by eapply MergeAdjacentLeaves_inv.
  - destruct (ApplyUpdate_ok U HU t d IH Hd) as (t2 & l & E2 & I2 & _). congruence.
  - by apply ForkIn_inv.
Qed.

(** C16: one exchange brings a replica up to date.  Whatever was delivered before,
    in whatever order and with whatever gaps, applying what [Diff] sends for the
    receiver's frontier returns (the drain ends); the receiver then holds every
    operation of the sender, nothing but its own, the sender's and what it had
    buffered, and the sender's next [Diff] is empty. *)
Theorem LosslessTree_sync_delivers U t u : universe U → reach U t → reach U u →
  ∃ u' l, ApplyUpdate u (Diff t (Frontier u)) = Some u' ∧ log u' = log u ++ l ∧ log t ⊆ log u' ∧
    (∀ op, op ∈ l → op ∈ log t ∨ op ∈ buffered u) ∧ u_Ops (Diff t (Frontier u')) = [].
Proof.
  intros HU Ht%tree_reach_inv Hu%tree_reach_inv; [|done..]. destruct (sync_ok U HU t u Ht Hu) as (u' & l & E & I & L & Hl & Hs).
  exists u', l. split_and!; [done..|]. destruct (u_Ops (Diff t (Frontier u'))) as [|op ops] eqn:Ed; [done|exfalso].
  assert (Hin : op ∈ u_Ops (Diff t (Frontier u'))) by (rewrite Ed; apply list_elem_of_here). apply Diff_elem in Hin as [Hin Hc].
  assert (Contains (frontier u') (o_Id op) = true); [|unfold Frontier in Hc; congruence].
  apply (Contains_log U HU); [done|by apply (ti_sub U t Ht)|by apply Hs].
Qed.

(** C17: replicas that hold the same operations and applied the conflicting ones in
    one order render the same text, whatever the order of the others: creations,
    deletions, moves and edits commute; a split or a merge has to be ordered with
    the other text operations of its leaves.  Live siblings need keys of their
    own. *)
Theorem LosslessTree_converges U t u : universe U → reach U t → reach U u →
  log t ≡ₚ log u → (∀ a b, conflict a b → earlier (log t) a b → earlier (log u) a b) → distinct (views t) →
  ∃ t' u' s, Render t = Some (t', s) ∧ Render u = Some (u', s).
Proof.
  intros HU Ht%tree_reach_inv Hu%tree_reach_inv Hp Hc Hd; [|done..].
  assert (Hv : views t = views u).
  { rewrite (ti_views U t Ht), (ti_views U u Hu). apply run_converges; [apply Ht|done|done]. }
  destruct (Render_ok t (inv_sound U t HU Ht) Hd) as (t' & E & _). rewrite Hv in Hd, E.
  destruct (Render_ok u (inv_sound U u HU Hu) Hd) as (u' & E' & _). eauto.
Qed.

(** ** Concrete replicas *)

Definition or_new (o : option LosslessTreeCrdt) : LosslessTreeCrdt := default (NewLosslessTreeCrdt 0) o.
Lemma or_new_Some o : bool_decide (is_Some o) = true → o = Some (or_new o).
Proof. intros [x ->]%bool_decide_eq_true. done. Qed.
Definition d_elem : OpId := mkOpId 1 1.
Definition d_leaf : OpId := mkOpId 2 1.
Definition d0 : LosslessTreeCrdt := or_new (fst <$> CreateNode (NewLosslessTreeCrdt 1) TreeRoot None (TreeNodeSeedElement "doc")).
Definition d1 : LosslessTreeCrdt := or_new (fst <$> CreateNode d0 d_elem None (TreeNodeSeedLeaf LeafKindRaw ["a"; "b"; "c"]%string)).
Definition d_fork (p : PeerId) : LosslessTreeCrdt := ForkIn (map_to_list (forked d1)) d1 p.
(** Peer 1 edits the leaf while a fork at peer 2 puts another one behind it. *)
Definition d_t : LosslessTreeCrdt := or_new (EditLeaf d1 d_leaf 1 1 ["X"]%string).
Definition d_u : LosslessTreeCrdt := or_new (fst <$> CreateNode (d_fork 2) d_elem (Some d_leaf) (TreeNodeSeedLeaf LeafKindTrivia ["!"]%string)).
Definition d_U : list TreeOp := log d_t ++ drop 2 (log d_u).
Definition d_t' : LosslessTreeCrdt := or_new (ApplyUpdate d_t (Diff d_u (Frontier d_t))).
Definition d_u' : LosslessTreeCrdt := or_new (ApplyUpdate d_u (Diff d_t (Frontier d_u))).

Example d_render : snd <$> Render d_t' = Some ["a"; "X"; "c"; "!"]%string.
Proof. reflexivity. Qed.

#[export] Instance elem_wf_dec c id e : Decision (elem_wf c id e).
Proof.
  refine (cast_if (decide ((0 < Counter id ≤ c) ∧ Forall (λ o, 0 < Counter o < Counter id) (option_list (origin e)) ∧
    Forall (λ d, 0 < Counter d ≤ c) (option_list (deleted e))))); unfold elem_wf; destruct (origin e), (deleted e); simpl in *;
    rewrite ?Forall_singleton, ?Forall_nil in *; naive_solver.
Defined.
#[export] Instance op_wf_dec op : Decision (op_wf op).
Proof. unfold op_wf, entry_wf, compose. repeat case_match; apply _. Defined.
Definition fits_node (v : vnode) : Prop := match v_body v with VLeaf _ e => 2 * Z.of_nat (length (text_str e)) ≤ cap | VElement _ => True end.
#[export] Instance fits_node_dec v : Decision (fits_node v).
Proof. unfold fits_node. case_match; apply _. Defined.
#[export] Instance earlier_dec l a b : Decision (earlier l a b).
Proof.
  destruct (decide (Exists (λ i, a ∈ take i l ∧ b ∈ drop i l) (seq 0 (S (length l))))) as [H|H]; [left|right].
  - apply Exists_exists in H as (i & _ & Ha & Hb). exists (take i l), (drop i l). by rewrite take_drop.
  - intros (l1 & l2 & -> & Ha & Hb). apply H, Exists_exists. exists (length l1). split.
    + apply elem_of_seq. rewrite length_app. lia.
    + by rewrite take_app_length, drop_app_length.
Defined.

(** Finite checks of the three hypotheses. *)
Lemma universe_check U :
  NoDup (o_Id <$> U) → Forall op_wf U →
  Forall (λ p, Forall (λ i, Forall (λ e : OpId * vnode, fits_node e.2) (map_to_list (run (take i p)))) (seq 0 (S (length U)))) (permutations U) → universe U.
Proof.
  intros H1 H2 H3. split; [done|done|]. intros l Hnd Hs n v k e Hn Hb.
  destruct (submseteq_Permutation l U) as [r Hr]; [by apply NoDup_submseteq|].
  rewrite Forall_forall in H3. specialize (H3 (l ++ r)). rewrite permutations_Permutation in H3. specialize (H3 Hr).
  rewrite Forall_forall in H3. specialize (H3 (length l)). rewrite take_app_length in H3.
  assert (Hl : length l ∈ seq 0 (S (length U))) by (apply elem_of_seq; rewrite Hr, length_app; lia). specialize (H3 Hl).
  rewrite Forall_forall in H3. specialize (H3 (n, v)). rewrite elem_of_map_to_list in H3. specialize (H3 Hn). unfold fits_node in H3. cbn [snd] in H3. by rewrite Hb in H3.
Qed.
Lemma distinct_check m :
  Forall (λ x : OpId * vnode, Forall (λ y : OpId * vnode, v_parent x.2 = v_parent y.2 → v_tomb x.2 = None → v_tomb y.2 = None → v_sort x.2 = v_sort y.2 → x.1 = y.1)
    (map_to_list m)) (map_to_list m) → distinct m.
Proof.
  rewrite Forall_forall. intros H p a b (v & Ea & Pa & Ta) (w & Eb & Pb & Tb) Hk. specialize (H (a, v)). rewrite elem_of_map_to_list in H. specialize (H Ea).
  rewrite Forall_forall in H. specialize (H (b, w)). rewrite elem_of_map_to_list in H. apply (H Eb); cbn [fst snd]; try congruence.
  unfold v_key in Hk. by rewrite Ea, Eb in Hk.
Qed.
Lemma order_check l1 l2 : Forall (λ a, Forall (λ b, conflict a b → earlier l1 a b → earlier l2 a b) l1) l1 → ∀ a b, conflict a b → earlier l1 a b → earlier l2 a b.
Proof.
  rewrite Forall_forall. intros H a b Hc He. pose proof He as (x & y & -> & Ha & Hb). specialize (H a ltac:(set_solver)).
  rewrite Forall_forall in H. apply H; [set_solver|done..].
Qed.

Lemma d_universe : universe d_U.
Proof.
  apply universe_check.
  - apply (bool_decide_unpack _). vm_compute. exact I.
  - apply (bool_decide_unpack _). vm_compute. exact I.
  - apply (bool_decide_unpack _). vm_compute. exact I.
Qed.

Lemma d_reach : reach d_U d_t ∧ reach d_U d_u.
Proof.
  assert (H1 : reach d_U d1).
  { apply (reach_create d_U d0 d1 d_elem None (TreeNodeSeedLeaf LeafKindRaw ["a"; "b"; "c"]%string) d_leaf).
    - apply (reach_create d_U (NewLosslessTreeCrdt 1) d0 TreeRoot None (TreeNodeSeedElement "doc") d_elem); [apply reach_new|reflexivity|].
      apply (bool_decide_unpack _). vm_compute. exact I.
    - reflexivity.
    - apply (bool_decide_unpack _). vm_compute. exact I. }
  split.
  - apply (reach_edit d_U d1 d_t d_leaf 1 1 ["X"]%string H1); [reflexivity| |reflexivity|].
    + apply (bool_decide_unpack _). vm_compute. exact I.
    + intros r k x E. vm_compute in E. injection E as <-. cbn [body]. intros [= <- <-]. vm_compute. discriminate.
  - apply (reach_create d_U (d_fork 2) d_u d_elem (Some d_leaf) (TreeNodeSeedLeaf LeafKindTrivia ["!"]%string) (mkOpId 3 2)); [|reflexivity|].
    + by apply reach_fork.
    + apply (bool_decide_unpack _). vm_compute. exact I.
Qed.

Lemma LosslessTree_sync_delivers_witness :
  ∃ u' l, ApplyUpdate d_u (Diff d_t (Frontier d_u)) = Some u' ∧ log u' = log d_u ++ l ∧ log d_t ⊆ log u' ∧
    (∀ op, op ∈ l → op ∈ log d_t ∨ op ∈ buffered d_u) ∧ u_Ops (Diff d_t (Frontier u')) = [].
Proof. exact (LosslessTree_sync_delivers d_U d_t d_u d_universe (proj1 d_reach) (proj2 d_reach)). Defined.

Lemma d_reach' : reach d_U d_t' ∧ reach d_U d_u'.
Proof.
  destruct d_reach as [H1 H2]. split.
  - apply (reach_update d_U d_t d_t' (Diff d_u (Frontier d_t)) H1); [|apply or_new_Some; vm_compute; exact eq_refl]. apply (bool_decide_unpack _). vm_compute. exact I.
  - apply (reach_update d_U d_u d_u' (Diff d_t (Frontier d_u)) H2); [|apply or_new_Some; vm_compute; exact eq_refl]. apply (bool_decide_unpack _). vm_compute. exact I.
Qed.

Lemma LosslessTree_converges_witness : ∃ t' u' s, Render d_t' = Some (t', s) ∧ Render d_u' = Some (u', s).
Proof.
  apply (LosslessTree_converges d_U d_t' d_u' d_universe (proj1 d_reach') (proj2 d_reach')).
  - apply (bool_decide_unpack _). vm_compute. exact I.
  - apply order_check. apply (bool_decide_unpack _). vm_compute. exact I.
  - apply distinct_check. apply (bool_decide_unpack _). vm_compute. exact I.
Defined.

(** ** Where the tree departs from what it says *)

Definition shown (t : LosslessTreeCrdt) : option (list string) := snd <$> Render t.
Definition pull (u t : LosslessTreeCrdt) : LosslessTreeCrdt := or_new (ApplyUpdate u (Diff t (Frontier u))).

(** A split reseeds the leaf from the text it finds, so an edit made at the same
    time is kept by the replica that applies it first and lost by the other:
    the replicas hold the same operations and render different texts. *)
Definition x_edit : LosslessTreeCrdt := or_new (EditLeaf (d_fork 2) d_leaf 3 0 ["X"]%string).
Definition x_split : LosslessTreeCrdt := or_new (fst <$> SplitLeaf (d_fork 3) d_leaf 1).
Lemma edit_split_diverge :
  log (pull x_edit x_split) ≡ₚ log (pull x_split x_edit) ∧
  shown (pull x_edit x_split) = Some ["a"; "b"; "c"; "X"]%string ∧ shown (pull x_split x_edit) = Some ["a"; "b"; "c"]%string.
Proof. split; [|by split; reflexivity]. apply (bool_decide_unpack _). vm_compute. exact I. Qed.

(** A split names one head as what it depends on.  Made after two concurrent edits
    it is applied by a replica that has only one of them, and splits another
    text. *)
Definition x_e1 : LosslessTreeCrdt := or_new (EditLeaf (d_fork 2) d_leaf 0 0 ["X"]%string).
Definition x_e2 : LosslessTreeCrdt := or_new (EditLeaf (d_fork 3) d_leaf 3 0 ["Y"]%string).
Definition x_both : LosslessTreeCrdt := or_new (fst <$> SplitLeaf (pull x_e1 x_e2) d_leaf 2).
Definition x_late : LosslessTreeCrdt :=
  pull (or_new (ApplyUpdate (d_fork 4) (mkUpdate (base.filter (λ o, Peer (o_Id o) = 3 ∨ Counter (o_Id o) = 4) (log x_both))))) x_both.
Lemma one_head_is_not_enough :
  log x_late ≡ₚ log x_both ∧ buffered x_late = [] ∧
  snd <$> LeafText x_both d_leaf = Some ["X"; "a"]%string ∧ snd <$> LeafText x_late d_leaf = Some ["X"; "a"; "b"]%string.
Proof. split; [|by split_and!; reflexivity]. apply (bool_decide_unpack _). vm_compute. exact I. Qed.

(** Two peers that insert at one place make keys that differ in the peer only;
    nothing lies between those, so splitting the first of the two leaves puts its
    tail behind the second: a split changes the text. *)
Definition x_u : LosslessTreeCrdt := or_new (fst <$> CreateNode (d_fork 2) d_elem (Some d_leaf) (TreeNodeSeedLeaf LeafKindRaw ["U"; "T"]%string)).
Definition x_v : LosslessTreeCrdt := or_new (fst <$> CreateNode (d_fork 3) d_elem (Some d_leaf) (TreeNodeSeedLeaf LeafKindRaw ["V"]%string)).
Definition x_tie : LosslessTreeCrdt := pull x_u x_v.
Lemma split_at_tie_moves_text :
  shown x_tie = Some ["a"; "b"; "c"; "U"; "T"; "V"]%string ∧
  shown (or_new (fst <$> SplitLeaf x_tie (mkOpId 3 2) 1)) = Some ["a"; "b"; "c"; "U"; "V"; "T"]%string.
Proof. split; reflexivity. Qed.

(** Two insertions by one peer at such a place get one key, and then siblings are
    ordered as they arrived. *)
Definition x_k1 : LosslessTreeCrdt := or_new (fst <$> CreateNode x_tie d_elem (Some (mkOpId 3 2)) (TreeNodeSeedLeaf LeafKindRaw ["1"]%string)).
Definition x_k2 : LosslessTreeCrdt := or_new (fst <$> CreateNode x_k1 d_elem (Some (mkOpId 3 2)) (TreeNodeSeedLeaf LeafKindRaw ["2"]%string)).
Definition x_k3 : LosslessTreeCrdt := or_new (ApplyUpdate x_tie (mkUpdate (reverse (u_Ops (Diff x_k2 (Frontier x_tie)))))).
Lemma equal_keys_by_arrival :
  log x_k2 ≡ₚ log x_k3 ∧ shown x_k2 = Some ["a"; "b"; "c"; "U"; "T"; "V"; "1"; "2"]%string ∧
  shown x_k3 = Some ["a"; "b"; "c"; "U"; "T"; "V"; "2"; "1"]%string.
Proof. split; [|by split; reflexivity]. apply (bool_decide_unpack _). vm_compute. exact I. Qed.
