(* ===== verification/LosslessEdit.v ===== *)
(** * LosslessEdit: what editing does to the document (lossless_tree_crdt.go)

    The rendered text is the texts of the leaves in document order, each leaf once.
    An edit splices one leaf's text and moves nothing; splitting a leaf and merging
    two neighbours leave the text as it is. *)

From S2P Require Import Prelude Hlc TextCrdt SeqCrdt LosslessTree LosslessView LosslessSync LosslessRender.

Local Open Scope Z_scope.

(** ** The leaves in document order *)

Fixpoint vleaves (depth : nat) (m : gmap OpId vnode) (id : OpId) : list OpId :=
  match depth with
  | O => []
  | S depth =>
      match m !! id with
      | None => []
      | Some v => if is_leaf (v_body v) then [id] else concat (vleaves depth m <$> vchildren m id)
      end
  end.
Definition leaf_text (m : gmap OpId vnode) (n : OpId) : list string :=
  match m !! n with Some v => match v_body v with VLeaf _ e => text_str e | VElement _ => [] end | None => [] end.
Definition document (m : gmap OpId vnode) : list OpId := vleaves (S (size m)) m TreeRoot.

Lemma concat_concat {A B} (f : A → list B) (ls : list (list A)) : concat (f <$> concat ls) = concat ((λ l, concat (f <$> l)) <$> ls).
Proof. induction ls as [|l ls IH]; [done|]. csimpl. by rewrite fmap_app, concat_app, IH. Qed.

Lemma elem_of_concat {A} (x : A) ls : x ∈ concat ls ↔ ∃ l, x ∈ l ∧ l ∈ ls.
Proof.
  induction ls as [|l ls IH]; simpl.
  - split; [by intros ?%elem_of_nil|intros (l & _ & Hl); by apply elem_of_nil in Hl].
  - rewrite elem_of_app, IH. setoid_rewrite elem_of_cons. naive_solver.
Qed.

Lemma vrender_leaves depth m id : vrender depth m id = concat (leaf_text m <$> vleaves depth m id).
Proof.
  revert id. induction depth as [|depth IH]; intros id; [done|]. cbn [vrender vleaves]. destruct (m !! id) as [v|] eqn:E; [|done].
  destruct (v_body v) as [k|k e] eqn:Eb; cbn [is_leaf].
  - rewrite concat_concat. f_equal. rewrite <-list_fmap_compose. apply list_fmap_ext. intros i c _. apply IH.
  - csimpl. unfold leaf_text. by rewrite E, Eb, app_nil_r.
Qed.

(** *** Each leaf once *)

Section rank.
Context (m : gmap OpId vnode) (rank : OpId → nat) (Hrank : rank_ok (shape m) rank).

Definition child (p c : OpId) : Prop := ∃ v, m !! c = Some v ∧ v_parent v = Some p.
Lemma child_rank p c : child p c → (rank p < rank c)%nat ∧ (rank c < size m)%nat ∧ is_Some (m !! p).
Proof.
  intros (v & E & Hp). assert (Es : shape m !! c = Some (Some p, is_leaf (v_body v))) by (rewrite shape_lookup, E; simpl; by rewrite Hp).
  destruct (Hrank _ _ _ Es) as [H1 H2]. destruct (H2 p eq_refl) as [H3 H4]. unfold shape in H1. rewrite map_size_fmap in H1.
  rewrite shape_lookup, fmap_is_Some in H3. done.
Qed.
Lemma below_rank p c : rtc child p c → p = c ∨ (rank p < rank c)%nat.
Proof. induction 1 as [|x y z H _ IH]; [by left|]. right. apply child_rank in H as (? & _ & _). destruct IH as [->|?]; lia. Qed.
Lemma below_linear a b x : rtc child a x → rtc child b x → rtc child a b ∨ rtc child b a.
Proof.
  intros Ha. revert b. refine (rtc_ind_r (λ x, ∀ b, rtc child b x → rtc child a b ∨ rtc child b a) a _ _ x Ha); [by right|].
  clear x Ha. intros y x Ha Hyx IH b Hb. apply rtc_inv_r in Hb as [->|(z & Hbz & Hzx)]; [left; by eapply rtc_r|].
  destruct Hyx as (v & E & Hv), Hzx as (w & E' & Hw). assert (z = y) as -> by congruence. by apply IH.
Qed.
Lemma siblings_apart p a b x : child p a → child p b → rtc child a x → rtc child b x → a = b.
Proof.
  assert (H : ∀ a b, child p a → child p b → rtc child a b → a = b).
  { intros a' b' Ha Hb Hab. apply rtc_inv_r in Hab as [->|(z & Haz & Hz)]; [done|exfalso].
    destruct Hb as (v & E & Hv), Hz as (w & E' & Hw). assert (z = p) as -> by congruence.
    apply child_rank in Ha as [? _]. apply below_rank in Haz as [->|?]; lia. }
  intros Ha Hb Hax Hbx. destruct (below_linear a b x Hax Hbx) as [?|?]; [by apply H|symmetry; by apply H].
Qed.

Lemma vchildren_child p c : c ∈ vchildren m p → child p c.
Proof. intros (v & E & Hp & _)%vchildren_elem. by exists v. Qed.
Lemma vleaves_below depth id x : x ∈ vleaves depth m id → rtc child id x.
Proof.
  revert id. induction depth as [|depth IH]; intros id; cbn [vleaves]; [by intros ?%elem_of_nil|].
  destruct (m !! id) as [v|]; [|by intros ?%elem_of_nil]. destruct (is_leaf _); [by intros ->%list_elem_of_singleton|].
  intros (l & Hx & (c & -> & Hc)%list_elem_of_fmap)%elem_of_concat. eapply rtc_l; [by apply vchildren_child|by apply IH].
Qed.
Lemma vleaves_NoDup depth id : NoDup (vleaves depth m id).
Proof.
  revert id. induction depth as [|depth IH]; intros id; cbn [vleaves]; [constructor|]. destruct (m !! id) as [v|]; [|constructor].
  destruct (is_leaf _); [apply NoDup_singleton|].
  assert (Hch : ∀ c, c ∈ vchildren m id → child id c) by apply vchildren_child. pose proof (vchildren_NoDup m id) as Hnd.
  induction (vchildren m id) as [|c l IHl]; [constructor|]. csimpl. apply NoDup_cons in Hnd as [Hc Hnd]. apply NoDup_app. split_and!.
  - apply IH.
  - intros x Hx (k & Hxk & (c' & -> & Hc')%list_elem_of_fmap)%elem_of_concat. apply vleaves_below in Hx, Hxk.
    assert (c = c') as -> by (eapply (siblings_apart id); [apply Hch; set_solver|apply Hch; set_solver|done|done]). done.
  - apply IHl; [|done]. intros c' Hc'. apply Hch. set_solver.
Qed.

(** More depth than the tree has changes nothing. *)
Lemma vrender_enough depth depth' id : is_Some (m !! id) → (size m ≤ rank id + depth)%nat → (depth ≤ depth')%nat →
  vrender depth' m id = vrender depth m id.
Proof.
  revert depth' id. induction depth as [|depth IH]; intros depth' id [v E] Hd Hle.
  - assert (Es : shape m !! id = Some (v_parent v, is_leaf (v_body v))) by by rewrite shape_lookup, E.
    destruct (Hrank _ _ _ Es) as [H _]. unfold shape in H. rewrite map_size_fmap in H. lia.
  - destruct depth' as [|depth']; [lia|]. cbn [vrender]. rewrite E. destruct (v_body v); [|done]. f_equal. apply list_fmap_ext.
    intros i c Hc. apply list_elem_of_lookup_2, vchildren_child in Hc. pose proof (child_rank _ _ Hc) as (H1 & _ & _).
    destruct Hc as (w & Ec & _). apply IH; [by rewrite Ec|lia|lia].
Qed.
End rank.

Lemma document_NoDup m : tree_wf (shape m) → NoDup (document m).
Proof. intros [_ _ [rank Hrank]]. by apply (vleaves_NoDup m rank). Qed.
Lemma vtext_document m : vtext m = concat (leaf_text m <$> document m).
Proof. apply vrender_leaves. Qed.
Lemma vtext_deep m depth : tree_wf (shape m) → (size m < depth)%nat → vrender depth m TreeRoot = vtext m.
Proof.
  intros [Hr _ [rank Hrank]] Hd. apply (vrender_enough m rank Hrank); [|lia|lia].
  rewrite shape_lookup in Hr. apply fmap_Some in Hr as (v & E & _). by rewrite E.
Qed.

(** ** Children after a change *)

Lemma sorted_ext m m' l : StronglySorted (v_later m) l → (∀ c, c ∈ l → v_key m' c = v_key m c) → StronglySorted (v_later m') l.
Proof.
  induction 1 as [|c l Hs IH Hc]; intros Hk; [constructor|]. constructor; [apply IH; intros; apply Hk; set_solver|].
  rewrite Forall_forall in Hc. apply Forall_forall. intros x Hx. unfold v_later. rewrite !Hk by set_solver. by apply Hc.
Qed.
Lemma vchildren_ext m m' q : distinct m' → (∀ c, v_live m' q c ↔ v_live m q c) → (∀ c, v_live m q c → v_key m' c = v_key m c) →
  vchildren m' q = vchildren m q.
Proof.
  intros Hd Hl Hk. apply vchildren_eq; [done|apply vchildren_NoDup| |].
  - eapply sorted_ext; [apply vchildren_sorted|]. intros c Hc%vchildren_elem. by apply Hk.
  - intros c. by rewrite vchildren_elem, Hl.
Qed.

(** *** An edit *)

Section edit.
Context (m : gmap OpId vnode) (n : OpId) (v : vnode) (k : LeafKind) (e e' : gmap OpId textElem).
Context (Hn : m !! n = Some v) (Hb : v_body v = VLeaf k e) (Hd : distinct m).
Local Abbreviation m' := (<[n := vwith_body (VLeaf k e') v]> m).

Lemma edit_live q c : v_live m' q c ↔ v_live m q c.
Proof.
  unfold v_live. destruct (decide (n = c)) as [<-|]; [|by rewrite lookup_insert_ne].
  rewrite lookup_insert_eq, Hn. split; intros (w & [= <-] & Hw); eexists; (split; [done|]); done.
Qed.
Lemma edit_key c : v_key m' c = v_key m c.
Proof. unfold v_key. destruct (decide (n = c)) as [<-|]; [|by rewrite lookup_insert_ne]. by rewrite lookup_insert_eq, Hn. Qed.
Lemma edit_distinct : distinct m'.
Proof. intros q a b Ha%edit_live Hb'%edit_live. rewrite !edit_key. by apply (Hd q). Qed.
Lemma edit_children q : vchildren m' q = vchildren m q.
Proof. apply vchildren_ext; [apply edit_distinct|apply edit_live|intros c _; apply edit_key]. Qed.
Lemma edit_leaves depth id : vleaves depth m' id = vleaves depth m id.
Proof.
  revert id. induction depth as [|depth IH]; intros id; [done|]. cbn [vleaves]. destruct (decide (n = id)) as [<-|].
  - rewrite lookup_insert_eq, Hn. cbn [vwith_body v_body is_leaf]. by rewrite Hb.
  - rewrite lookup_insert_ne by done. destruct (m !! id); [|done]. destruct (is_leaf _); [done|]. rewrite edit_children.
    f_equal. apply list_fmap_ext. intros i c _. apply IH.
Qed.
Lemma edit_leaf_text x : leaf_text m' x = if decide (x = n) then text_str e' else leaf_text m x.
Proof.
  unfold leaf_text. case_decide as Hx; [subst; by rewrite lookup_insert_eq|by rewrite lookup_insert_ne].
Qed.
Lemma edit_vtext : vtext m' = concat ((λ x, if decide (x = n) then text_str e' else leaf_text m x) <$> document m).
Proof.
  rewrite vtext_document. unfold document. rewrite edit_leaves, map_size_insert_Some by by rewrite Hn. f_equal.
  apply list_fmap_ext. intros i x _. apply edit_leaf_text.
Qed.
End edit.

(** *** A merge of neighbours *)

Lemma v_live_parent m p q c : v_live m p c → v_live m q c → p = q.
Proof. intros (v & E & Hp & _) (w & E' & Hq & _). congruence. Qed.

(** Nodes with one body and the same live children render alike. *)
Section merge.
Context (m : gmap OpId vnode) (l r p id : OpId) (vl vr : vnode) (kl kr : LeafKind) (el er c : gmap OpId textElem) (before after : list OpId).
Context (Hl : m !! l = Some vl) (Hr : m !! r = Some vr) (Bl : v_body vl = VLeaf kl el) (Br : v_body vr = VLeaf kr er).
Context (Hd : distinct m) (Hc : vchildren m p = before ++ l :: r :: after) (Ht : text_str c = text_str el ++ text_str er).
Local Abbreviation m' := (apply_write (apply_write m (l, WText c)) (r, WTomb id)).

Lemma merge_ne : l ≠ r.
Proof. intros ->. pose proof (vchildren_NoDup m p) as H. rewrite Hc in H. apply NoDup_app in H as (_ & _ & H). apply NoDup_cons in H as [H _]. set_solver. Qed.
Lemma merge_lookup x : m' !! x = if decide (x = r) then Some (vwith_tomb (bury id (v_tomb vr)) vr) else
  if decide (x = l) then Some (vwith_body (VLeaf kl c) vl) else m !! x.
Proof.
  pose proof merge_ne as Hne. unfold apply_write. cbn [fst snd]. destruct (decide (x = r)) as [->|].
  - rewrite lookup_partial_alter_eq, lookup_partial_alter_ne, Hr by done. done.
  - rewrite lookup_partial_alter_ne by done. destruct (decide (x = l)) as [->|]; [|by rewrite lookup_partial_alter_ne].
    rewrite lookup_partial_alter_eq, Hl. simpl. by rewrite Bl.
Qed.
Lemma merge_live q x : v_live m' q x ↔ v_live m q x ∧ x ≠ r.
Proof.
  unfold v_live. rewrite merge_lookup. destruct (decide (x = r)) as [->|].
  - split; [intros (w & [= <-] & _ & H); simpl in H|tauto]. unfold bury in H. destruct (v_tomb vr); done.
  - destruct (decide (x = l)) as [->|]; [|naive_solver]. rewrite Hl. split; [intros (w & [= <-] & Hw); split; [eexists; split; [done|]; done|done]|].
    intros [(w & [= <-] & Hw) _]. eexists. split; [done|]. done.
Qed.
Lemma merge_key x : v_key m' x = v_key m x.
Proof.
  unfold v_key. rewrite merge_lookup. destruct (decide (x = r)) as [->|]; [by rewrite Hr|]. destruct (decide (x = l)) as [->|]; [by rewrite Hl|done].
Qed.
Lemma merge_distinct : distinct m'.
Proof. intros q a b [Ha _]%merge_live [Hb _]%merge_live. rewrite !merge_key. by apply (Hd q). Qed.
Lemma merge_children q : vchildren m' q = if decide (q = p) then before ++ l :: after else vchildren m q.
Proof.
  pose proof (vchildren_NoDup m p) as Hnd. pose proof (vchildren_sorted m p) as Hs. rewrite Hc in Hnd, Hs.
  assert (Hin : ∀ x, x ∈ before ++ l :: r :: after ↔ v_live m p x) by (intros x; rewrite <-Hc; apply vchildren_elem).
  assert (Hrr : r ∉ before ++ l :: after).
  { pose proof merge_ne. apply NoDup_app in Hnd as (_ & H1 & H2). apply NoDup_cons in H2 as [_ H2]. apply NoDup_cons in H2 as [H2 _].
    intros [Hx|[Hx|Hx]%elem_of_cons]%elem_of_app; [apply (H1 r Hx); set_solver|congruence|done]. }
  case_decide as Hq; [subst q|].
  - apply vchildren_eq; [apply merge_distinct| | |].
    + apply NoDup_app in Hnd as (H1 & H2 & H3). apply NoDup_cons in H3 as [H3 H4]. apply NoDup_cons in H4 as [H4 H5].
      apply NoDup_app. split_and!; [done|intros x Hx Hy; apply (H2 x Hx); set_solver|]. apply NoDup_cons. split; [set_solver|done].
    + apply (sorted_ext m); [|intros; apply merge_key]. apply StronglySorted_app in Hs as (H1 & H2 & H3). apply StronglySorted_app.
      inversion_clear H3 as [|? ? H4 H5]. inversion_clear H4 as [|? ? H6 H7]. apply Forall_cons in H5 as [_ H5]. split_and!; [|done|by constructor].
      intros x1 x2 Hx1 Hx2. apply H1; [done|]. set_solver.
    + intros x. rewrite merge_live, <-Hin. split; [|set_solver]. intros Hx. split; [set_solver|]. intros ->. done.
  - apply vchildren_ext; [apply merge_distinct| |intros; apply merge_key]. intros x. rewrite merge_live. split; [tauto|].
    intros Hx. split; [done|]. intros ->. apply Hq. apply (v_live_parent m _ _ r Hx), Hin. set_solver.
Qed.
Lemma merge_render depth x : x ≠ r → x ≠ l → vrender depth m' x = vrender depth m x.
Proof.
  revert x. induction depth as [|depth IH]; intros x Hxr Hxl; [done|]. cbn [vrender]. rewrite merge_lookup, !decide_False by done.
  destruct (m !! x) as [v|]; [|done]. destruct (v_body v); [|done]. rewrite merge_children.
  assert (Hother : ∀ y, y ∈ vchildren m x → x ≠ p → y ≠ r ∧ y ≠ l).
  { intros y Hy Hx. apply vchildren_elem in Hy. split; intros ->; apply Hx; apply (v_live_parent m _ _ _ Hy), vchildren_elem; rewrite Hc; set_solver. }
  destruct (decide (x = p)) as [->|].
  - rewrite Hc. pose proof (vchildren_NoDup m p) as Hnd. rewrite Hc in Hnd. apply NoDup_app in Hnd as (_ & N2 & N3).
    apply NoDup_cons in N3 as [N3 N4]. apply NoDup_cons in N4 as [N4 _]. rewrite !fmap_app, !fmap_cons, !concat_app. cbn [concat]. f_equal.
    + f_equal. apply list_fmap_ext. intros i y Hy%list_elem_of_lookup_2. pose proof (N2 y Hy). apply IH; set_solver.
    + rewrite (assoc_L (++)). f_equal.
      * destruct depth as [|depth']; [done|]. cbn [vrender]. rewrite merge_lookup, decide_False, decide_True by (done || apply merge_ne).
        cbn [vwith_body v_body]. by rewrite Hl, Hr, Bl, Br.
      * f_equal. apply list_fmap_ext. intros i y Hy%list_elem_of_lookup_2. apply IH; set_solver.
  - f_equal. apply list_fmap_ext. intros i y Hy%list_elem_of_lookup_2. destruct (Hother y Hy) as [??]; [done|]. by apply IH.
Qed.
Lemma merge_size : size m' = size m.
Proof.
  assert (H : dom m' = dom m); [|by rewrite <-!size_dom, H]. apply set_eq. intros x. rewrite !elem_of_dom, merge_lookup.
  destruct (decide (x = r)) as [->|]; [by rewrite Hr|]. destruct (decide (x = l)) as [->|]; [by rewrite Hl|done].
Qed.
Lemma merge_vtext : tree_wf (shape m) → vtext m' = vtext m.
Proof.
  intros [Hroot _ _]. unfold vtext. rewrite merge_size. apply merge_render.
  - intros E. rewrite shape_lookup, E, Hr in Hroot. simpl in Hroot. by rewrite Br in Hroot.
  - intros E. rewrite shape_lookup, E, Hl in Hroot. simpl in Hroot. by rewrite Bl in Hroot.
Qed.
End merge.

(** *** A split *)

Section split.
Context (m : gmap OpId vnode) (n new p id : OpId) (v : vnode) (k : LeafKind) (e h tl_ : gmap OpId textElem) (key : TreeSortKey) (before after : list OpId).
Context (Hn : m !! n = Some v) (Bn : v_body v = VLeaf k e) (Hp : v_parent v = Some p) (Hnew : m !! new = None).
Context (Hd : distinct m) (Hc : vchildren m p = before ++ n :: after) (Ht : text_str e = text_str h ++ text_str tl_).
Context (Hlo : compare (v_key m n) key < 0) (Hhi : ∀ x, head after = Some x → compare key (v_key m x) < 0).
Local Abbreviation m' := (apply_write (apply_write m (n, WText h)) (new, WNew (mkView (Some p) key id (VLeaf k tl_) None))).

Lemma split_ne : n ≠ new.
Proof. congruence. Qed.
Lemma split_lookup x : m' !! x = if decide (x = new) then Some (mkView (Some p) key id (VLeaf k tl_) None) else
  if decide (x = n) then Some (vwith_body (VLeaf k h) v) else m !! x.
Proof.
  pose proof split_ne as Hne. unfold apply_write. cbn [fst snd]. destruct (decide (x = new)) as [->|].
  - rewrite lookup_partial_alter_eq, lookup_partial_alter_ne, Hnew by done. done.
  - rewrite lookup_partial_alter_ne by done. destruct (decide (x = n)) as [->|]; [|by rewrite lookup_partial_alter_ne].
    rewrite lookup_partial_alter_eq, Hn. simpl. by rewrite Bn.
Qed.
Lemma split_live q x : v_live m' q x ↔ v_live m q x ∨ x = new ∧ q = p.
Proof.
  unfold v_live. rewrite split_lookup. destruct (decide (x = new)) as [->|].
  - rewrite Hnew. split; [intros (w & [= <-] & H & _); simpl in H; right; split; congruence|].
    intros [(w & ? & _)|[_ ->]]; [done|]. eexists. split; [done|]. done.
  - destruct (decide (x = n)) as [->|]; [|naive_solver]. rewrite Hn. split.
    + intros (w & [= <-] & Hw). left. eexists. split; [done|]. done.
    + intros [(w & [= <-] & Hw)|[? _]]; [|by destruct split_ne]. eexists. split; [done|]. done.
Qed.
Lemma split_key x : v_key m' x = if decide (x = new) then key else v_key m x.
Proof.
  unfold v_key. rewrite split_lookup. destruct (decide (x = new)) as [->|]; [done|]. destruct (decide (x = n)) as [->|]; [by rewrite Hn|done].
Qed.
(** The new key lies between those before and those after. *)
Lemma split_place x : x ∈ before ++ n :: after → x ≠ new ∧ (x ∈ before ++ [n] → compare (v_key m x) key < 0) ∧ (x ∈ after → compare key (v_key m x) < 0).
Proof.
  intros Hx. pose proof (vchildren_sorted m p) as Hs. rewrite Hc in Hs. apply StronglySorted_app in Hs as (S1 & _ & S2).
  inversion_clear S2 as [|? ? S3 S4]. split_and!.
  - intros ->. assert (Hl : v_live m p new) by (apply vchildren_elem; by rewrite Hc). destruct Hl as (w & E & _). congruence.
  - intros [Hx'| ->%list_elem_of_singleton]%elem_of_app; [|done].
    assert (Hle : v_later m x n) by (apply S1; [done|apply list_elem_of_here]). unfold v_later in Hle.
    pose proof (cmp_trans_le (cmp := compare) (v_key m x) (v_key m n) key). pose proof (cmp_eq (cmp := compare) (v_key m x) key) as Heq.
    destruct (decide (compare (v_key m x) key = 0)) as [E|]; [|lia]. apply Heq in E. rewrite E in Hle.
    rewrite (cmp_anti (cmp := compare) (v_key m n) key) in Hle. lia.
  - intros Hx'. destruct after as [|y after']; [by apply elem_of_nil in Hx'|]. specialize (Hhi y eq_refl).
    inversion_clear S3 as [|? ? S5 S6]. apply elem_of_cons in Hx' as [->|Hx']; [done|]. rewrite Forall_forall in S6. specialize (S6 x Hx'). unfold v_later in S6.
    pose proof (cmp_trans_le (cmp := compare) key (v_key m y) (v_key m x)). pose proof (cmp_eq (cmp := compare) key (v_key m x)) as Heq.
    destruct (decide (compare key (v_key m x) = 0)) as [E|]; [|lia]. apply Heq in E. rewrite <-E in S6.
    rewrite (cmp_anti (cmp := compare) key (v_key m y)) in S6. lia.
Qed.
Lemma split_in x : x ∈ before ++ n :: after ↔ v_live m p x.
Proof. rewrite <-Hc. apply vchildren_elem. Qed.
Lemma split_apart x : v_live m p x → x ≠ new ∧ v_key m x ≠ key.
Proof.
  intros Hx%split_in. destruct (split_place x Hx) as (H1 & H2 & H3). split; [done|]. intros E. rewrite E in *.
  pose proof (cmp_refl (cmp := compare) key). assert (x ∈ before ++ [n] ∨ x ∈ after) as [?|?] by set_solver; [specialize (H2 H0)|specialize (H3 H0)]; lia.
Qed.
Lemma split_distinct : distinct m'.
Proof.
  intros q a b Ha%split_live Hb%split_live. rewrite !split_key.
  destruct Ha as [Ha|[-> ->]], Hb as [Hb|[-> Hq]]; rewrite ?(decide_True (P := new = new)) by done; [| | |done].
  - assert (Hnn : ∀ x, v_live m q x → x ≠ new) by (intros x (w & E & _) ->; congruence). rewrite !decide_False by by apply Hnn. by apply (Hd q).
  - subst q. destruct (split_apart a Ha). rewrite decide_False by done. done.
  - destruct (split_apart b Hb). rewrite decide_False by done. congruence.
Qed.
Lemma split_children q : vchildren m' q = if decide (q = p) then before ++ n :: new :: after else vchildren m q.
Proof.
  pose proof (vchildren_NoDup m p) as Hnd. pose proof (vchildren_sorted m p) as Hs. rewrite Hc in Hnd, Hs.
  assert (Hkey : ∀ x, x ∈ before ++ n :: after → v_key m' x = v_key m x) by (intros x Hx; rewrite split_key, decide_False; [done|by apply split_place]).
  case_decide as Hq; [subst q|].
  - apply vchildren_eq; [apply split_distinct| | |].
    + apply NoDup_app in Hnd as (H1 & H2 & H3). apply NoDup_cons in H3 as [H3 H4].
      assert (Hnn : new ∉ before ++ n :: after) by (intros Hx; by apply split_place in Hx as [? _]).
      apply NoDup_app. split_and!; [done|intros x Hx Hy; apply (H2 x Hx); set_solver|]. apply NoDup_cons. split; [pose proof split_ne; set_solver|].
      apply NoDup_cons. split; [set_solver|done].
    + apply (sorted_ext m m') in Hs; [|done]. apply StronglySorted_app in Hs as (S1 & S2 & S3). inversion_clear S3 as [|? ? S4 S5].
      assert (Hnk : v_key m' new = key) by by rewrite split_key, decide_True. apply StronglySorted_app. split_and!; [|done|].
      * intros x y Hx [->|[->|Hy]%elem_of_cons]%elem_of_cons; [apply S1; set_solver| |apply S1; set_solver].
        unfold v_later. rewrite Hnk, Hkey by set_solver. destruct (split_place x) as (_ & H & _); [set_solver|]. specialize (H ltac:(set_solver)). lia.
      * constructor; [constructor; [done|]|].
        -- apply Forall_forall. intros x Hx. unfold v_later. rewrite Hnk, Hkey by set_solver. destruct (split_place x) as (_ & _ & H); [set_solver|]. specialize (H Hx). lia.
        -- constructor; [|done]. unfold v_later. rewrite Hnk, Hkey by set_solver. lia.
    + intros x. rewrite split_live, <-split_in. set_solver.
  - apply vchildren_ext; [apply split_distinct| |].
    + intros x. rewrite split_live. split; [intros [?|[_ ?]]; done|by left].
    + intros x (w & E & _). rewrite split_key, decide_False; [done|]. congruence.
Qed.
Lemma split_render depth x : x ≠ n → x ≠ new → vrender depth m' x = vrender depth m x.
Proof.
  revert x. induction depth as [|depth IH]; intros x Hxr Hxl; [done|]. cbn [vrender]. rewrite split_lookup, !decide_False by done.
  destruct (m !! x) as [w|]; [|done]. destruct (v_body w); [|done]. rewrite split_children.
  assert (Hnn : ∀ y, y ∈ vchildren m x → y ≠ new) by (intros y (z & E & _)%vchildren_elem ->; congruence).
  destruct (decide (x = p)) as [->|].
  - rewrite Hc in *. pose proof (vchildren_NoDup m p) as Hnd. rewrite Hc in Hnd. apply NoDup_app in Hnd as (_ & N2 & N3).
    apply NoDup_cons in N3 as [N3 _]. rewrite !fmap_app, !fmap_cons, !concat_app. cbn [concat]. f_equal.
    + f_equal. apply list_fmap_ext. intros i y Hy%list_elem_of_lookup_2. apply IH; [intros ->; apply (N2 n Hy); set_solver|apply Hnn; set_solver].
    + rewrite (assoc_L (++)). f_equal.
      * destruct depth as [|depth']; [done|]. cbn [vrender]. rewrite !split_lookup, decide_False, !decide_True by (done || apply split_ne).
        cbn [vwith_body v_body]. by rewrite Hn, Bn.
      * f_equal. apply list_fmap_ext. intros i y Hy%list_elem_of_lookup_2. apply IH; [set_solver|apply Hnn; set_solver].
  - f_equal. apply list_fmap_ext. intros i y Hy%list_elem_of_lookup_2. apply IH; [|by apply Hnn]. intros ->. apply vchildren_elem in Hy.
    destruct Hy as (z & E & Hz & _). congruence.
Qed.
Lemma split_vtext : tree_wf (shape m) → vtext m' = vtext m.
Proof.
  intros Hw. assert (Hs : size m' = S (size m)).
  { assert (H : dom m' = {[new]} ∪ dom m).
    { apply set_eq. intros x. rewrite elem_of_union, elem_of_singleton, !elem_of_dom, split_lookup.
      destruct (decide (x = new)) as [->|]; [split; [by left|done]|]. destruct (decide (x = n)) as [->|]; [rewrite Hn; split; [by right|done]|].
      split; [by right|by intros [?|?]]. }
    rewrite <-!size_dom, H, size_union by (apply disjoint_singleton_l; by apply not_elem_of_dom). by rewrite size_singleton. }
  unfold vtext at 1. rewrite Hs, split_render; [apply vtext_deep; [done|lia]| |].
  - intros E. pose proof (tw_root _ Hw) as Hr. rewrite shape_lookup, E, Hn in Hr. simpl in Hr. by rewrite Bn in Hr.
  - intros E. pose proof (tw_root _ Hw) as Hr. by rewrite shape_lookup, E, Hnew in Hr.
Qed.
End split.

(** ** Keys between siblings *)

Lemma frac_below a b : compare_frac (Frac a) (Frac b) < 0 → compare a b < 0.
Proof. unfold compare. intros H. rewrite (proj2 (Z.eqb_neq _ 0)) by lia. done. Qed.

(** The live children of [p] have fractions of their own, made by
    [treeKeyBetween]: no two peers inserted at one place. *)
Record untied (m : gmap OpId vnode) (p : OpId) : Prop := {
  ut_canon a : v_live m p a → canon (Frac (v_key m a)) ∧ Frac (v_key m a) ≠ [];
  ut_apart a b : v_live m p a → v_live m p b → Frac (v_key m a) = Frac (v_key m b) → a = b;
}.

Lemma position_app x l l' : x ∉ l → index_of x (l ++ x :: l') = Some (length l).
Proof.
  induction l as [|y l IH]; intros Hx; cbn [app index_of length]; [by rewrite decide_True|].
  rewrite decide_False by set_solver. by rewrite IH by set_solver.
Qed.

Lemma frac_of_view t x : is_Some (views t !! x) → frac_of t x = Some (Frac (v_key (views t) x)).
Proof. unfold frac_of, v_key. rewrite views_lookup. destruct (get t x) as [r|]; [done|]. by intros [? ?]. Qed.

(** The key of a node put behind [n] lies between [n]'s and the next one's. *)
Lemma keyAfter_between t p n before after : liveChildren t p = before ++ n :: after → vchildren (views t) p = before ++ n :: after → untied (views t) p →
  let key := keyAfter t p (Some n) in
  compare (v_key (views t) n) key < 0 ∧ ∀ x, head after = Some x → compare key (v_key (views t) x) < 0.
Proof.
  intros Hl Hc [U1 U2]. set (m := views t) in *. unfold keyAfter. rewrite Hl.
  pose proof (vchildren_NoDup m p) as Hnd. pose proof (vchildren_sorted m p) as Hs. rewrite Hc in Hnd, Hs. apply NoDup_app in Hnd as (_ & N2 & N3).
  assert (Hin : ∀ x, x ∈ before ++ n :: after → v_live m p x) by (intros x; rewrite <-Hc; apply vchildren_elem).
  assert (Hsome : ∀ x, x ∈ before ++ n :: after → frac_of t x = Some (Frac (v_key m x))).
  { intros x Hx. apply frac_of_view. apply Hin in Hx as (w & E & _). by exists w. }
  rewrite position_app by (intros Hx; apply (N2 n Hx); set_solver). rewrite Hsome by set_solver.
  replace ((before ++ n :: after) !! S (length before)) with (head after)
    by (rewrite lookup_app_r by lia; replace (S (length before) - length before)%nat with 1%nat by lia; by destruct after).
  set (hi := head after ≫= frac_of t).
  assert (Hhi : ∀ x, head after = Some x → hi = Some (Frac (v_key m x)) ∧ compare_frac (Frac (v_key m n)) (Frac (v_key m x)) < 0 ∧ v_live m p x).
  { intros x Hx. destruct after as [|y after']; [done|]. injection Hx as ->. split; [unfold hi; simpl; apply Hsome; set_solver|]. split; [|apply Hin; set_solver].
    apply StronglySorted_app in Hs as (_ & _ & Hs). inversion_clear Hs as [|? ? S1 S2]. apply Forall_cons in S2 as [Hle _]. unfold v_later, compare in Hle.
    destruct (Z.eqb_spec (compare_frac (Frac (v_key m n)) (Frac (v_key m x))) 0) as [E|]; [|simpl in Hle; lia].
    apply (cmp_eq (cmp := compare_frac)) in E. assert (n = x) as -> by (apply U2; [apply Hin; set_solver|apply Hin; set_solver|done]).
    apply NoDup_cons in N3 as [N3 _]. set_solver. }
  assert (Hcase : hi = None ∨ ∃ x, head after = Some x) by (unfold hi; destruct after as [|y after']; [by left|right; by exists y]).
  destruct (U1 n) as [Cn _]; [apply Hin; set_solver|].
  destruct (keyBetween_strictly_between (Some (Frac (v_key m n))) hi) as (_ & K1 & K2).
  - by intros l [= <-].
  - intros h Eh. destruct Hcase as [E|[x Hx]]; [congruence|]. destruct (Hhi x Hx) as (E & _ & Lx). rewrite E in Eh. injection Eh as <-. by apply U1.
  - intros l h [= <-] Eh. destruct Hcase as [E|[x Hx]]; [congruence|]. destruct (Hhi x Hx) as (E & Hlt & _). rewrite E in Eh. injection Eh as <-. exact Hlt.
  - intros Eh. destruct Hcase as [E|[x Hx]]; [congruence|]. destruct (Hhi x Hx) as (E & _ & Lx). rewrite E in Eh. injection Eh as Eh. by apply U1 in Lx as [_ ?].
  - assert (Hk : treeKeyBetween (Some (Frac (v_key m n))) hi = SeqCrdt.keyBetween (Some (Frac (v_key m n))) hi).
    { apply treeKeyBetween_seq.
      - intros l [= <-]. apply Cn.
      - intros h Eh. destruct Hcase as [E|[x Hx]]; [congruence|]. destruct (Hhi x Hx) as (E & _ & Lx). rewrite E in Eh. injection Eh as <-. by apply U1 in Lx as [[? _] _]. }
    rewrite <-Hk in K1, K2.
    split; [apply frac_below; exact (K1 _ eq_refl)|]. intros x Hx. apply frac_below. apply K2. by destruct (Hhi x Hx) as (-> & _).
Qed.

(** ** The local operations *)

Section edits.
Context (U : list TreeOp) (HU : universe U) (t : LosslessTreeCrdt) (Ht : tree_inv U t) (Hd : distinct (views t)) (Hclock : t_counter t < cap).

Lemma clock_next : (nextOpId t).2 = mkOpId (t_counter t + 1) (t_peer t).
Proof.
  pose proof (ti_clock U t Ht). unfold nextOpId. cbn [snd]. f_equal. apply i64_small. unfold cap in *. zrange.
Qed.
Lemma clock_reread t1 : reread t t1 → (nextOpId t1).2 = (nextOpId t).2.
Proof. intros R. destruct (rr_frame _ _ R) as (E1 & E2 & _). unfold nextOpId. cbn [snd]. by rewrite E1, E2. Qed.
Lemma new_op_wf o : match o with TreeOpCreateNode _ _ _ _ | TreeOpLeafEdit _ _ _ => False | TreeOpSplitLeaf _ new _ at_ _ => new = (nextOpId t).2 ∧ 0 ≤ at_ | _ => True end →
  op_wf (mkTreeOp (nextOpId t).2 o).
Proof. pose proof (ti_clock U t Ht). intros Ho. split; [rewrite clock_next; cbn [o_Id Counter]; lia|]. by destruct o. Qed.
Lemma next_absent : views t !! (nextOpId t).2 = None.
Proof.
  destruct (views t !! (nextOpId t).2) as [w|] eqn:E; [exfalso|done]. pose proof (ti_clock U t Ht).
  destruct (shape_from (log t) (nextOpId t).2 (v_parent w, is_leaf (v_body w))) as [H0|H0].
  - apply Ht.
  - apply (un_sub U HU), Ht.
  - by rewrite <-(ti_views U t Ht), shape_lookup, E.
  - rewrite clock_next in H0. apply (f_equal Counter) in H0. cbn [TreeRoot Counter] in H0. lia.
  - apply list_elem_of_fmap in H0 as (op & H1 & H2). apply (ti_seen U t Ht) in H2. rewrite <-H1, clock_next in H2. cbn [Counter] in H2. lia.
Qed.

Lemma leaf_of_get n r k x : get t n = Some r → body r = Leaf k x → leaf_of (views t) n = Some (view r, k, elems x).
Proof. intros E Eb. rewrite leaf_of_views, E. cbn [mbind option_bind]. by rewrite Eb. Qed.

(** Splitting a live leaf of untied siblings. *)
Lemma SplitLeaf_run n r k x p b at_ : get t n = Some r → body r = Leaf k x → tomb r = None → parent r = Some p →
  byteToCodePoint (text_str (elems x)) b = Some at_ → untied (views t) p →
  ∃ t' id, SplitLeaf t n b = Some (t', id) ∧ sound t' ∧ distinct (views t') ∧ vtext (views t') = vtext (views t) ∧
    leaf_text (views t') n = take (Z.to_nat at_) (text_str (elems x)) ∧ leaf_text (views t') id = drop (Z.to_nat at_) (text_str (elems x)).
Proof.
  intros Er Eb Etomb Ep Hb Hu. set (s := text_str (elems x)) in *. pose proof (byteToCodePoint_le _ _ _ Hb) as Hle.
  destruct (LeafText_ok t n r k x (ti_texts U t Ht) Er Eb) as (t1 & ET & R1). fold s in ET. pose proof (reread_inv U _ _ Ht R1) as Ht1.
  pose proof (reread_views _ _ R1) as Ev. destruct (reread_get _ _ _ _ R1 Er) as (r1 & Er1 & _ & V1 & H1).
  assert (Hlive : n ∈ vchildren (views t) p) by (apply vchildren_elem; exists (view r); rewrite views_lookup, Er; done).
  apply list_elem_of_split in Hlive as (before & after & Hch).
  assert (Hlc : liveChildren t1 p = before ++ n :: after) by (rewrite (liveChildren_view _ _ _ (ti_nodes U t1 Ht1)), Ev; [done|by rewrite Ev]).
  destruct (keyAfter_between t1 p n before after Hlc) as [K1 K2]; [by rewrite Ev|by rewrite Ev|]. set (key := keyAfter t1 p (Some n)) in *. rewrite Ev in K1, K2.
  set (id := (nextOpId t).2). set (op := mkTreeOp id (TreeOpSplitLeaf n id key at_ (textHead r1))).
  assert (Hwf : op_wf op) by (apply new_op_wf; split; [done|lia]).
  assert (Hready : ready (shape (views t1)) (o_Id <$> log t1) op).
  { split; [by eapply shape_get|]. rewrite H1. destruct (rr_frame _ _ R1) as (_ & _ & _ & -> & _). by eapply known_head. }
  destruct (commit_sound U HU t1 op Ht1 Hwf Hready) as (t' & Ec & Hs & Hv). exists t', id.
  assert (Hfit : Z.of_nat (length s) ≤ cap) by (pose proof (fits_get t n r k x (ti_fits U HU t Ht) Er Eb); fold s in H; lia).
  destruct (fresh_ok (Peer n) (take (Z.to_nat at_) s)) as (_ & _ & _ & _ & F1); [rewrite length_take; lia|].
  destruct (fresh_ok (Peer id) (drop (Z.to_nat at_) s)) as (_ & _ & _ & _ & F2); [rewrite length_drop; lia|].
  assert (Hvn : views t !! n = Some (view r)) by by rewrite views_lookup, Er.
  assert (Hvb : v_body (view r) = VLeaf k (elems x)) by (simpl; by rewrite Eb).
  assert (Hm : views t' = apply_write (apply_write (views t) (n, WText (fresh (Peer n) (take (Z.to_nat at_) s))))
    (id, WNew (mkView (Some p) key id (VLeaf k (fresh (Peer id) (drop (Z.to_nat at_) s))) None))).
  { rewrite Hv, Ev. unfold vstep, writes, op. cbn [o_Kind o_Id]. rewrite (leaf_of_get n r k x Er Eb). fold s. cbn [foldl]. by rewrite <-Ep. }
  rewrite Hm. split_and!; [|done| | | |].
  - unfold SplitLeaf. rewrite ET. cbn [mbind option_bind]. rewrite Hb. cbn [mbind option_bind]. rewrite Er1. cbn [mbind option_bind].
    apply (f_equal v_parent) in V1. simpl in V1. rewrite V1, Ep. cbn [mbind option_bind]. fold key.
    change (nextOpId t1) with ((nextOpId t1).1, (nextOpId t1).2). cbv iota beta. rewrite (clock_reread t1 R1). fold id. fold op.
    rewrite Ec. done.
  - eapply split_distinct; try done; [apply next_absent|by rewrite F1, F2, take_drop].
  - eapply split_vtext; try done; [apply next_absent|by rewrite F1, F2, take_drop|by eapply ti_tree].
  - unfold leaf_text. rewrite (split_lookup (views t) n id p id (view r) k (elems x)); [|done|done|apply next_absent].
    assert (n ≠ id) by (intros ->; unfold id in Hvn; by rewrite next_absent in Hvn). rewrite decide_False, decide_True by done. simpl. exact F1.
  - unfold leaf_text. rewrite (split_lookup (views t) n id p id (view r) k (elems x)); [|done|done|apply next_absent].
    rewrite decide_True by done. simpl. exact F2.
Qed.

(** Merging two live leaves that follow each other. *)
Lemma MergeAdjacentLeaves_run l r p before after nl kl xl nr kr xr : get t l = Some nl → body nl = Leaf kl xl → parent nl = Some p →
  get t r = Some nr → body nr = Leaf kr xr → Children t p = before ++ l :: r :: after →
  ∃ t', MergeAdjacentLeaves t l r = Some t' ∧ sound t' ∧ distinct (views t') ∧ vtext (views t') = vtext (views t) ∧
    leaf_text (views t') l = text_str (elems xl) ++ text_str (elems xr).
Proof.
  intros El Bl Ep Er Br Hch. unfold Children in Hch. rewrite (liveChildren_view _ _ _ (ti_nodes U t Ht) Hd) in Hch.
  destruct (LeafText_ok t l nl kl xl (ti_texts U t Ht) El Bl) as (t1 & ET1 & R1). pose proof (reread_inv U _ _ Ht R1) as Ht1.
  destruct (reread_get _ _ _ _ R1 Er) as (nr1 & Er1 & _ & Vr1 & Hr1).
  assert (∃ kr1 xr1, body nr1 = Leaf kr1 xr1) as (kr1 & xr1 & Br1).
  { apply (f_equal v_body) in Vr1. simpl in Vr1. rewrite Br in Vr1. simpl in Vr1. destruct (body nr1); [done|eauto]. }
  destruct (LeafText_ok t1 r nr1 kr1 xr1 (ti_texts U t1 Ht1) Er1 Br1) as (t2 & ET2 & R2). pose proof (reread_inv U _ _ Ht1 R2) as Ht2.
  pose proof (transitivity R1 R2) as R. pose proof (reread_views _ _ R) as Ev.
  destruct (reread_get _ _ _ _ R El) as (nl2 & El2 & _ & Vl2 & Hl2). destruct (reread_get _ _ _ _ R Er) as (nr2 & Er2 & _ & _ & Hr2).
  assert (Hlc : liveChildren t2 p = before ++ l :: r :: after) by (rewrite (liveChildren_view _ _ _ (ti_nodes U t2 Ht2)), Ev; [done|by rewrite Ev]).
  set (id := (nextOpId t).2). set (op := mkTreeOp id (TreeOpMergeLeaves l r (textHead nl2) (textHead nr2))).
  assert (Hwf : op_wf op) by by apply new_op_wf.
  assert (Hready : ready (shape (views t2)) (o_Id <$> log t2) op).
  { unfold ready, op. cbn [o_Kind]. rewrite Hl2, Hr2. destruct (rr_frame _ _ R) as (_ & _ & _ & -> & _). split_and!; [by eapply shape_get|by eapply shape_get|by eapply known_head|by eapply known_head]. }
  destruct (commit_sound U HU t2 op Ht2 Hwf Hready) as (t' & Ec & Hs & Hv). exists t'.
  set (c := fresh (Peer l) (text_str (elems xl) ++ text_str (elems xr))).
  destruct (fresh_ok (Peer l) (text_str (elems xl) ++ text_str (elems xr))) as (_ & _ & _ & _ & F1).
  { pose proof (fits_get t l nl kl xl (ti_fits U HU t Ht) El Bl). pose proof (fits_get t r nr kr xr (ti_fits U HU t Ht) Er Br). rewrite length_app. lia. }
  fold c in F1. assert (Hm : views t' = apply_write (apply_write (views t) (l, WText c)) (r, WTomb id)).
  { rewrite Hv, Ev. unfold vstep, writes, op. cbn [o_Kind o_Id]. by rewrite (leaf_of_get l nl kl xl El Bl), (leaf_of_get r nr kr xr Er Br). }
  assert (Hvl : views t !! l = Some (view nl)) by by rewrite views_lookup, El. assert (Hvr : views t !! r = Some (view nr)) by by rewrite views_lookup, Er.
  assert (Hbl : v_body (view nl) = VLeaf kl (elems xl)) by (simpl; by rewrite Bl). assert (Hbr : v_body (view nr) = VLeaf kr (elems xr)) by (simpl; by rewrite Br).
  rewrite Hm. split_and!; [|done| | |].
  - unfold MergeAdjacentLeaves. rewrite ET1. cbn [mbind option_bind]. rewrite ET2. cbn [mbind option_bind]. rewrite El2. cbn [mbind option_bind].
    apply (f_equal v_parent) in Vl2. simpl in Vl2. rewrite Vl2, Ep. cbn [mbind option_bind]. rewrite Hlc.
    pose proof (vchildren_NoDup (views t) p) as Hnd. rewrite Hch in Hnd. apply NoDup_app in Hnd as (_ & N2 & _).
    rewrite position_app by (intros Hx; apply (N2 l Hx); set_solver). cbn [mbind option_bind].
    rewrite lookup_app_r by lia. replace (S (length before) - length before)%nat with 1%nat by lia. cbn [lookup list_lookup mbind option_bind].
    rewrite decide_True by done. rewrite Er2. cbn [mbind option_bind].
    change (nextOpId t2) with ((nextOpId t2).1, (nextOpId t2).2). cbv iota beta. rewrite (clock_reread t2 R). exact Ec.
  - by eapply merge_distinct.
  - eapply merge_vtext; try done. by eapply ti_tree.
  - unfold leaf_text. rewrite (merge_lookup (views t) l r p id (view nl) (view nr) kl kr (elems xl) (elems xr) c before after) by done.
    assert (l ≠ r) by (eapply merge_ne; done). rewrite decide_False, decide_True by done. simpl. exact F1.
Qed.
End edits.

Definition renders (t : LosslessTreeCrdt) (s : list string) : Prop := ∃ t', Render t = Some (t', s).
Lemma sound_renders t : sound t → distinct (views t) → renders t (vtext (views t)).
Proof. intros Hs Hd. destruct (Render_ok t Hs Hd) as (t' & E & _). by exists t'. Qed.

(** C18: losslessness under editing, in a replica that was reached from a new
    document by local operations and deliveries ([reach]; all operations come from
    one [universe], in which an identifier names one operation and no text outgrows
    half of [cap]), whose live siblings have sort keys of their own throughout the
    tree ([distinct]; insertions between two siblings whose keys differ in the peer
    only can tie keys, and then the render follows the order of arrival,
    [equal_keys_by_arrival]), and whose counters are below [cap].  The
    rendered text is the leaves' texts in document order, each leaf once.  An edit
    at byte offsets that fall on characters succeeds and splices exactly the leaf it
    names; splitting a live leaf whose siblings have fractions of their own, and
    merging two leaves that follow each other, succeed, put the characters where
    they belong and leave the rendered text as it is. *)
Theorem LosslessTree_edits_render U t : universe U → reach U t → distinct (views t) → t_counter t < cap →
  let m := views t in
  NoDup (document m) ∧ renders t (concat (leaf_text m <$> document m)) ∧
  (∀ n r k x a d ins st en, get t n = Some r → body r = Leaf k x → let s := text_str (elems x) in
     byteToCodePoint s a = Some st → byteToCodePoint s (a +ₛ d) = Some en →
     counter x + Z.of_nat (length s) + Z.of_nat (length ins) ≤ cap →
     ∃ t', EditLeaf t n a d ins = Some t' ∧
       renders t' (concat ((λ y, if decide (y = n) then splice s st en ins else leaf_text m y) <$> document m))) ∧
  (∀ n r k x p b at_, get t n = Some r → body r = Leaf k x → tomb r = None → parent r = Some p → let s := text_str (elems x) in
     byteToCodePoint s b = Some at_ → untied m p →
     ∃ t' id, SplitLeaf t n b = Some (t', id) ∧ renders t' (vtext m) ∧
       leaf_text (views t') n = take (Z.to_nat at_) s ∧ leaf_text (views t') id = drop (Z.to_nat at_) s) ∧
  (∀ l r p before after nl kl xl nr kr xr, get t l = Some nl → body nl = Leaf kl xl → parent nl = Some p →
     get t r = Some nr → body nr = Leaf kr xr → Children t p = before ++ l :: r :: after →
     ∃ t', MergeAdjacentLeaves t l r = Some t' ∧ renders t' (vtext m) ∧
       leaf_text (views t') l = text_str (elems xl) ++ text_str (elems xr)).
Proof.
  intros HU Ht%tree_reach_inv Hd Hclock m; [|done]. rewrite <-vtext_document. split_and!.
  - by eapply document_NoDup, ti_tree.
  - apply sound_renders; [by eapply inv_sound|done].
  - intros n r k x a d ins st en Er Eb s Ha Hb Hroom.
    destruct (EditLeaf_run U HU t n a d ins r k x st en Ht Er Eb Ha Hb Hroom Hclock) as (ops & e & t' & E & _ & _ & Ev & Ht' & Hs & _).
    exists t'. split; [done|]. assert (Hvn : m !! n = Some (view r)) by (unfold m; by rewrite views_lookup, Er).
    assert (Hvb : v_body (view r) = VLeaf k (elems x)) by (simpl; by rewrite Eb). pose proof (edit_vtext m n (view r) k (elems x) e Hvn Hvb Hd) as Hx. fold s in Ht'. rewrite Ht' in Hx.
    rewrite <-Hx. unfold m. rewrite <-Ev. apply sound_renders; [done|]. rewrite Ev. by eapply edit_distinct.
  - intros n r k x p b at_ Er Eb Et Ep s Hb Hu. destruct (SplitLeaf_run U HU t Ht Hd Hclock n r k x p b at_ Er Eb Et Ep Hb Hu) as (t' & id & E & Hs & Hd' & Hv & H1 & H2).
    exists t', id. split_and!; [done| |done|done]. unfold m. rewrite <-Hv. by apply sound_renders.
  - intros l r p before after nl kl xl nr kr xr El Bl Ep Er Br Hc.
    destruct (MergeAdjacentLeaves_run U HU t Ht Hd Hclock l r p before after nl kl xl nr kr xr El Bl Ep Er Br Hc) as (t' & E & Hs & Hd' & Hv & H1).
    exists t'. split_and!; [done| |done]. unfold m. rewrite <-Hv. by apply sound_renders.
Qed.

(** ** The witness: the merged replica of LosslessRender's demonstration *)

Definition untied_at (m : gmap OpId vnode) (p : OpId) : Prop :=
  Forall (λ x : OpId * vnode, v_parent x.2 = Some p → v_tomb x.2 = None →
    (Forall (λ c, 0 ≤ c ∧ c < 256) (Frac (v_sort x.2)) ∧ last (Frac (v_sort x.2)) ≠ Some 0) ∧ Frac (v_sort x.2) ≠ [] ∧
    Forall (λ y : OpId * vnode, v_parent y.2 = Some p → v_tomb y.2 = None → Frac (v_sort x.2) = Frac (v_sort y.2) → x.1 = y.1) (map_to_list m)) (map_to_list m).
Lemma untied_check m p : untied_at m p → untied m p.
Proof.
  unfold untied_at. rewrite Forall_forall. intros H. split.
  - intros a (v & Ea & Pa & Ta). unfold v_key. rewrite Ea. specialize (H (a, v)). rewrite elem_of_map_to_list in H. specialize (H Ea Pa Ta) as (H1 & H2 & _). done.
  - intros a b (v & Ea & Pa & Ta) (w & Eb & Pb & Tb). unfold v_key. rewrite Ea, Eb. intros Hk.
    specialize (H (a, v)). rewrite elem_of_map_to_list in H. specialize (H Ea Pa Ta) as (_ & _ & H). rewrite Forall_forall in H.
    specialize (H (b, w)). rewrite elem_of_map_to_list in H. by apply (H Eb).
Qed.

Definition d_bang : OpId := mkOpId 3 2.
Definition node_of (t : LosslessTreeCrdt) (n : OpId) : treeNode :=
  default (mkNode n None (mkSort [] 0) n (Element "") None n) (get t n).
Definition text_of (t : LosslessTreeCrdt) (n : OpId) : TextCrdt := match body (node_of t n) with Leaf _ x => x | Element _ => NewTextCrdt 0 end.

Lemma d_nodes :
  get d_t' d_leaf = Some (node_of d_t' d_leaf) ∧ get d_t' d_bang = Some (node_of d_t' d_bang) ∧
  body (node_of d_t' d_leaf) = Leaf LeafKindRaw (text_of d_t' d_leaf) ∧ body (node_of d_t' d_bang) = Leaf LeafKindTrivia (text_of d_t' d_bang).
Proof. split_and!; vm_compute; exact eq_refl. Qed.
Lemma d_shape :
  tomb (node_of d_t' d_leaf) = None ∧ parent (node_of d_t' d_leaf) = Some d_elem ∧
  text_str (elems (text_of d_t' d_leaf)) = ["a"; "X"; "c"]%string ∧ Children d_t' d_elem = [] ++ d_leaf :: d_bang :: [].
Proof. split_and!; vm_compute; exact eq_refl. Qed.

Lemma LosslessTree_edits_render_witness :
  renders d_t' ["a"; "X"; "c"; "!"]%string ∧
  (∃ t', EditLeaf d_t' d_leaf 0 1 ["Z"]%string = Some t' ∧ renders t' ["Z"; "X"; "c"; "!"]%string) ∧
  (∃ t' id, SplitLeaf d_t' d_leaf 1 = Some (t', id) ∧ renders t' ["a"; "X"; "c"; "!"]%string) ∧
  (∃ t', MergeAdjacentLeaves d_t' d_leaf d_bang = Some t' ∧ renders t' ["a"; "X"; "c"; "!"]%string).
Proof.
  destruct d_nodes as (G1 & G2 & B1 & B2), d_shape as (T1 & P1 & S1 & C1).
  destruct (LosslessTree_edits_render d_U d_t' d_universe (proj1 d_reach')) as (_ & Hr & He & Hs & Hm).
  - apply distinct_check. apply (bool_decide_unpack _). vm_compute. exact I.
  - vm_compute. exact eq_refl.
  - split_and!.
    + exact Hr.
    + destruct (He _ _ _ _ 0 1 ["Z"]%string 0 1 G1 B1) as (t' & E & R); [by rewrite S1|by rewrite S1|vm_compute; discriminate|].
      exists t'. split; [exact E|]. rewrite S1 in R. exact R.
    + destruct (Hs _ _ _ _ d_elem 1 1 G1 B1 T1 P1) as (t' & id & E & R & _); [by rewrite S1|apply untied_check; apply (bool_decide_unpack _); vm_compute; exact I|].
      exists t', id. split; [exact E|exact R].
    + destruct (Hm _ _ _ _ _ _ _ _ _ _ _ G1 B1 P1 G2 B2 C1) as (t' & E & R & _). exists t'. split; [exact E|exact R].
Defined.

(** Splitting a deleted leaf brings its tail back: the new leaf is not deleted. *)
Definition x_dead : LosslessTreeCrdt := or_new (TombstoneNode d1 d_leaf).
Lemma split_revives_tail :
  shown x_dead = Some [] ∧ shown (or_new (fst <$> SplitLeaf x_dead d_leaf 1)) = Some ["b"; "c"]%string.
Proof. split; reflexivity. Qed.
