(* ===== verification/SignalWire.v ===== *)
(** * SignalWire: the frames of the signaling protocol (signaling.go)

    Client and server frames and their json value trees, one tagged object each,
    with the conventions of [Wire.v].  A relayed payload is the tree it spells. *)

From S2P Require Import Prelude Hlc MsgpackCodec Wire.
Local Open Scope Z_scope.

(** ** Codes and modes *)

(** [signaling.go] [lines 50-70 SignalingErrorCode] *)
Inductive SignalingErrorCode :=
  | SignalingErrorBadMessage | SignalingErrorNotJoined | SignalingErrorAlreadyJoined
  | SignalingErrorDuplicatePeer | SignalingErrorUnknownTarget | SignalingErrorPermissionDenied.
(** [signaling.go] [SignalingErrorCode.Wire] *)
Definition code_Wire (c : SignalingErrorCode) : list Z :=
  key match c with
      | SignalingErrorBadMessage => "bad_message" | SignalingErrorNotJoined => "not_joined" | SignalingErrorAlreadyJoined => "already_joined"
      | SignalingErrorDuplicatePeer => "duplicate_peer" | SignalingErrorUnknownTarget => "unknown_target"
      | SignalingErrorPermissionDenied => "permission_denied"
      end.
(** [signaling.go] [lines 76-84 SignalingMode] *)
Inductive SignalingMode := SignalingModeOpen | SignalingModeAllowlist.
#[export] Instance SignalingErrorCode_eq_dec : EqDecision SignalingErrorCode.
Proof. solve_decision. Defined.
#[export] Instance SignalingMode_eq_dec : EqDecision SignalingMode.
Proof. solve_decision. Defined.

(** ** Frames *)

(** A nil capability list is [None]; so is an empty payload.
    [signaling.go] [type ClientMessage] *)
Inductive ClientMessage :=
  | ClientJoin (Peer : PeerId) (Capabilities : option (list (list Z)))
  | ClientOffer (To : PeerId) (Sdp : list Z)
  | ClientAnswer (To : PeerId) (Sdp : list Z)
  | ClientIce (To : PeerId) (Candidate : list Z)
  | ClientRelay (To : PeerId) (Payload : option tree)
  | ClientLeave.
(** [signaling.go] [type ServerMessage] *)
Inductive ServerMessage :=
  | ServerWelcome (Peer : PeerId) (Peers : list PeerId)
  | ServerPeerJoined (Peer : PeerId)
  | ServerPeerLeft (Peer : PeerId)
  | ServerOffer (From : PeerId) (Sdp : list Z)
  | ServerAnswer (From : PeerId) (Sdp : list Z)
  | ServerIce (From : PeerId) (Candidate : list Z)
  | ServerRelay (From : PeerId) (Payload : option tree)
  | ServerError (Code Message : list Z).

(** [signaling.go] [newServerError] *)
Definition newServerError (code : SignalingErrorCode) (message : list Z) : ServerMessage := ServerError (code_Wire code) message.
(** [signaling.go] [relayPayload] *)
Definition relayPayload (p : option tree) : tree := default TNull p.

(** The object of a frame: its discriminant and its fields. *)
Definition frame (type : string) (fields : list (string * tree)) : tree :=
  TMap ((key "type", str_tree (key type)) :: map (λ f, (key f.1, f.2)) fields).
(** [signaling.go] [ClientJoin.MarshalJSON] *)
Definition ClientJoin_MarshalJSON (peer : PeerId) (caps : option (list (list Z))) : tree :=
  match caps with
  | None => frame "join" [("peer", TNum peer)]%string
  | Some caps => frame "join" [("peer", TNum peer); ("capabilities", TArr (map str_tree caps))]%string
  end.
(** [signaling.go] [ClientOffer.MarshalJSON] *)
Definition ClientOffer_MarshalJSON (to : PeerId) (s : list Z) : tree := frame "offer" [("to", TNum to); ("sdp", str_tree s)]%string.
(** [signaling.go] [ClientAnswer.MarshalJSON] *)
Definition ClientAnswer_MarshalJSON (to : PeerId) (s : list Z) : tree := frame "answer" [("to", TNum to); ("sdp", str_tree s)]%string.
(** [signaling.go] [ClientIce.MarshalJSON] *)
Definition ClientIce_MarshalJSON (to : PeerId) (s : list Z) : tree := frame "ice" [("to", TNum to); ("candidate", str_tree s)]%string.
(** [signaling.go] [ClientRelay.MarshalJSON] *)
Definition ClientRelay_MarshalJSON (to : PeerId) (p : option tree) : tree := frame "relay" [("to", TNum to); ("payload", relayPayload p)]%string.
(** [signaling.go] [ClientLeave.MarshalJSON] *)
Definition ClientLeave_MarshalJSON : tree := frame "leave" [].
Definition ClientMessage_MarshalJSON (m : ClientMessage) : tree :=
  match m with
  | ClientJoin p c => ClientJoin_MarshalJSON p c | ClientOffer to s => ClientOffer_MarshalJSON to s
  | ClientAnswer to s => ClientAnswer_MarshalJSON to s | ClientIce to c => ClientIce_MarshalJSON to c
  | ClientRelay to p => ClientRelay_MarshalJSON to p | ClientLeave => ClientLeave_MarshalJSON
  end.

(** [signaling.go] [ServerWelcome.MarshalJSON] *)
Definition ServerWelcome_MarshalJSON (p : PeerId) (ps : list PeerId) : tree := frame "welcome" [("peer", TNum p); ("peers", TArr (map TNum ps))]%string.
(** [signaling.go] [ServerPeerJoined.MarshalJSON] *)
Definition ServerPeerJoined_MarshalJSON (p : PeerId) : tree := frame "peer-joined" [("peer", TNum p)]%string.
(** [signaling.go] [ServerPeerLeft.MarshalJSON] *)
Definition ServerPeerLeft_MarshalJSON (p : PeerId) : tree := frame "peer-left" [("peer", TNum p)]%string.
(** [signaling.go] [ServerOffer.MarshalJSON] *)
Definition ServerOffer_MarshalJSON (from : PeerId) (s : list Z) : tree := frame "offer" [("from", TNum from); ("sdp", str_tree s)]%string.
(** [signaling.go] [ServerAnswer.MarshalJSON] *)
Definition ServerAnswer_MarshalJSON (from : PeerId) (s : list Z) : tree := frame "answer" [("from", TNum from); ("sdp", str_tree s)]%string.
(** [signaling.go] [ServerIce.MarshalJSON] *)
Definition ServerIce_MarshalJSON (from : PeerId) (s : list Z) : tree := frame "ice" [("from", TNum from); ("candidate", str_tree s)]%string.
(** [signaling.go] [ServerRelay.MarshalJSON] *)
Definition ServerRelay_MarshalJSON (from : PeerId) (p : option tree) : tree := frame "relay" [("from", TNum from); ("payload", relayPayload p)]%string.
(** [signaling.go] [ServerError.MarshalJSON] *)
Definition ServerError_MarshalJSON (code message : list Z) : tree := frame "error" [("code", str_tree code); ("message", str_tree message)]%string.
Definition ServerMessage_MarshalJSON (m : ServerMessage) : tree :=
  match m with
  | ServerWelcome p ps => ServerWelcome_MarshalJSON p ps | ServerPeerJoined p => ServerPeerJoined_MarshalJSON p
  | ServerPeerLeft p => ServerPeerLeft_MarshalJSON p | ServerOffer f s => ServerOffer_MarshalJSON f s
  | ServerAnswer f s => ServerAnswer_MarshalJSON f s | ServerIce f c => ServerIce_MarshalJSON f c
  | ServerRelay f p => ServerRelay_MarshalJSON f p | ServerError c m => ServerError_MarshalJSON c m
  end.

(** ** Decoding *)

(** A null is a nil map.
    [signaling.go] [rejectUnknownFields] *)
Definition rejectUnknownFields (t : tree) (allowed : list string) : option unit :=
  match t with
  | TMap m => if forallb (λ e, existsb (tagIs e.1) allowed) m then Some () else None
  | TNull => Some ()
  | _ => None
  end.
(** A slice that tells nil from empty. *)
Definition d_opt_slice {A} (elem : tree → option A) (_ : option (list A)) (t : tree) : option (option (list A)) :=
  match t with TArr l => l ← mapM elem l; Some (Some l) | TNull => Some None | _ => None end.
(** The two fields of a directed frame. *)
Definition directed (t : tree) (peer body : string) : option (PeerId * list Z) :=
  rejectUnknownFields t ["type"; peer; body]%string;; m ← object t;
  p ← field peer d_int64 0 m; s ← field body d_string [] m; Some (p, s).
Definition relayed (t : tree) (peer : string) : option (PeerId * option tree) :=
  rejectUnknownFields t ["type"; peer; "payload"]%string;; m ← object t;
  p ← field peer d_int64 0 m; raw ← field "payload" d_raw None m; Some (p, raw).
Definition about_peer (t : tree) : option PeerId :=
  rejectUnknownFields t ["type"; "peer"]%string;; m ← object t; field "peer" d_int64 0 m.
Definition disc_Type (t : tree) : option (list Z) := m ← object t; field "type" d_string [] m.

(** [signaling.go] [ParseClientMessage] *)
Definition ParseClientMessage (t : tree) : option ClientMessage :=
  type ← disc_Type t;
  if tagIs type "join" then
    rejectUnknownFields t ["type"; "peer"; "capabilities"]%string;; m ← object t;
    p ← field "peer" d_int64 0 m; c ← field "capabilities" (d_opt_slice (d_string [])) None m; Some (ClientJoin p c)
  else if tagIs type "offer" then '(to, s) ← directed t "to" "sdp"; Some (ClientOffer to s)
  else if tagIs type "answer" then '(to, s) ← directed t "to" "sdp"; Some (ClientAnswer to s)
  else if tagIs type "ice" then '(to, c) ← directed t "to" "candidate"; Some (ClientIce to c)
  else if tagIs type "relay" then '(to, p) ← relayed t "to"; Some (ClientRelay to p)
  else if tagIs type "leave" then rejectUnknownFields t ["type"]%string;; Some ClientLeave
  else None.

(** [signaling.go] [ParseServerMessage] *)
Definition ParseServerMessage (t : tree) : option ServerMessage :=
  type ← disc_Type t;
  if tagIs type "welcome" then
    rejectUnknownFields t ["type"; "peer"; "peers"]%string;; m ← object t;
    p ← field "peer" d_int64 0 m; ps ← field "peers" (d_slice (d_int64 0)) [] m;
    if existsb (λ rosterPeer, rosterPeer =? p) ps then None else Some (ServerWelcome p ps)
  else if tagIs type "peer-joined" then p ← about_peer t; Some (ServerPeerJoined p)
  else if tagIs type "peer-left" then p ← about_peer t; Some (ServerPeerLeft p)
  else if tagIs type "offer" then '(from, s) ← directed t "from" "sdp"; Some (ServerOffer from s)
  else if tagIs type "answer" then '(from, s) ← directed t "from" "sdp"; Some (ServerAnswer from s)
  else if tagIs type "ice" then '(from, c) ← directed t "from" "candidate"; Some (ServerIce from c)
  else if tagIs type "relay" then '(from, p) ← relayed t "from"; Some (ServerRelay from p)
  else if tagIs type "error" then
    rejectUnknownFields t ["type"; "code"; "message"]%string;; m ← object t;
    c ← field "code" d_string [] m; msg ← field "message" d_string [] m; Some (ServerError c msg)
  else None.

(** ** What a frame may be *)

Definition ok_client (m : ClientMessage) : Prop :=
  match m with
  | ClientJoin p c => is_i64 p ∧ match c with Some c => Forall utf8 c | None => True end
  | ClientOffer to s | ClientAnswer to s | ClientIce to s => is_i64 to ∧ utf8 s
  | ClientRelay to p => is_i64 to ∧ is_Some p
  | ClientLeave => True
  end.
Definition ok_server (m : ServerMessage) : Prop :=
  match m with
  | ServerWelcome p ps => is_i64 p ∧ Forall is_i64 ps ∧ p ∉ ps
  | ServerPeerJoined p | ServerPeerLeft p => is_i64 p
  | ServerOffer f s | ServerAnswer f s | ServerIce f s => is_i64 f ∧ utf8 s
  | ServerRelay f p => is_i64 f ∧ is_Some p
  | ServerError c m => utf8 c ∧ utf8 m
  end.

Lemma str_tree_utf8 s : utf8 s → str_tree s = TStr s.
Proof. intros H. unfold str_tree. by rewrite H. Qed.
Lemma strs_read l : Forall utf8 l → mapM (d_string []) (map str_tree l) = Some l.
Proof. induction 1 as [|s l Hs _ IH]; [done|]. cbn [map mapM]. rewrite str_tree_utf8 by done. cbn [d_string mbind option_bind]. by rewrite IH. Qed.
Lemma nums_read l : Forall is_i64 l → mapM (d_int64 0) (map TNum l) = Some l.
Proof. induction 1 as [|n l Hn _ IH]; [done|]. cbn [map mapM]. rewrite d_int64_num by done. cbn [mbind option_bind]. by rewrite IH. Qed.
Lemma not_listed p ps : p ∉ ps → existsb (λ q, q =? p) ps = false.
Proof.
  intros H. apply not_true_iff_false. intros (q & Hq & E)%existsb_exists. apply Z.eqb_eq in E as ->. by apply H, list_elem_of_In.
Qed.

(** Run a decoder on a frame: its keys are literals, so what is looked up among
    them is computed. *)
Ltac computed e := let r := eval vm_compute in e in change e with r.
Ltac run_frame :=
  repeat (lazymatch goal with |- context [disc_Type ?t] => computed (disc_Type t) end); cbn [mbind option_bind];
  repeat (lazymatch goal with |- context [if tagIs ?a ?b then _ else _] => computed (tagIs a b) end; cbv iota);
  unfold directed, relayed, about_peer;
  repeat (lazymatch goal with |- context [rejectUnknownFields ?t ?l] => computed (rejectUnknownFields t l) end; cbn [mbind option_bind]);
  cbn [frame map fst snd object mbind option_bind]; fields;
  repeat (cbn [mbind option_bind d_string d_slice d_opt_slice d_raw]; first [rewrite d_int64_num by done | rewrite str_tree_utf8 by done | rewrite strs_read by done | rewrite nums_read by done]);
  cbn [mbind option_bind d_string d_raw].

Lemma client_read m : ok_client m → ParseClientMessage (ClientMessage_MarshalJSON m) = Some m.
Proof.
  unfold ParseClientMessage. destruct m as [p [c|]|to s|to s|to s|to [p|]|]; cbn [ok_client ClientMessage_MarshalJSON]; unfold ClientJoin_MarshalJSON, ClientOffer_MarshalJSON, ClientAnswer_MarshalJSON, ClientIce_MarshalJSON, ClientRelay_MarshalJSON, ClientLeave_MarshalJSON;
    intros Ho; try destruct Ho as [H1 H2]; try by destruct H2.
  all: by run_frame.
Qed.
Lemma server_read m : ok_server m → ParseServerMessage (ServerMessage_MarshalJSON m) = Some m.
Proof.
  unfold ParseServerMessage. destruct m as [p ps|p|p|f s|f s|f s|f [p|]|c m]; cbn [ok_server ServerMessage_MarshalJSON]; unfold ServerWelcome_MarshalJSON, ServerPeerJoined_MarshalJSON, ServerPeerLeft_MarshalJSON,
    ServerOffer_MarshalJSON, ServerAnswer_MarshalJSON, ServerIce_MarshalJSON, ServerRelay_MarshalJSON, ServerError_MarshalJSON; intros Ho; try destruct Ho as [H1 H2]; try by destruct H2.
  1: { destruct H2 as [H2 H3]. run_frame. by rewrite not_listed. }
  all: by run_frame.
Qed.

(** The fields a frame's type has. *)
Definition client_fields (m : ClientMessage) : list string :=
  match m with
  | ClientJoin _ _ => ["type"; "peer"; "capabilities"] | ClientOffer _ _ | ClientAnswer _ _ => ["type"; "to"; "sdp"]
  | ClientIce _ _ => ["type"; "to"; "candidate"] | ClientRelay _ _ => ["type"; "to"; "payload"] | ClientLeave => ["type"]
  end%string.
Definition server_fields (m : ServerMessage) : list string :=
  match m with
  | ServerWelcome _ _ => ["type"; "peer"; "peers"] | ServerPeerJoined _ | ServerPeerLeft _ => ["type"; "peer"]
  | ServerOffer _ _ | ServerAnswer _ _ => ["type"; "from"; "sdp"] | ServerIce _ _ => ["type"; "from"; "candidate"]
  | ServerRelay _ _ => ["type"; "from"; "payload"] | ServerError _ _ => ["type"; "code"; "message"]
  end%string.
(** An object whose keys are all among [allowed]. *)
Definition only_keys (t : tree) (allowed : list string) : Prop := ∃ m, t = TMap m ∧ ∀ e, e ∈ m → e.1 ∈ map key allowed.

Lemma reject_only t allowed : t ≠ TNull → rejectUnknownFields t allowed = Some () → only_keys t allowed.
Proof.
  intros Hn. destruct t; try done. cbn [rejectUnknownFields]. destruct (forallb _ _) eqn:E; [|done]. intros _.
  eexists. split; [done|]. intros e He. rewrite forallb_forall in E. specialize (E e (proj1 (list_elem_of_In _ _) He)).
  apply existsb_exists in E as (s & Hs & E). apply bool_decide_eq_true in E as ->. apply list_elem_of_In, in_map, Hs.
Qed.
Lemma directed_only t p b r : t ≠ TNull → directed t p b = Some r → only_keys t ["type"; p; b].
Proof. unfold directed. intros Hn H. apply bind_Some in H as ([] & H & _). by apply reject_only. Qed.
Lemma relayed_only t p r : t ≠ TNull → relayed t p = Some r → only_keys t ["type"; p; "payload"]%string.
Proof. unfold relayed. intros Hn H. apply bind_Some in H as ([] & H & _). by apply reject_only. Qed.
Lemma about_only t r : t ≠ TNull → about_peer t = Some r → only_keys t ["type"; "peer"]%string.
Proof. unfold about_peer. intros Hn H. apply bind_Some in H as ([] & H & _). by apply reject_only. Qed.
(** Take the branch of a decoder that returned. *)
Ltac branch H :=
  lazymatch type of H with
  | (if ?b then _ else _) = Some _ => destruct b; [|branch H]
  | None = Some _ => discriminate H
  | _ => idtac
  end.
Ltac took := repeat match goal with
  | H : (_ ≫= _) = Some _ |- _ => apply bind_Some in H as (? & ? & H) | x : () |- _ => destruct x | x : (_ * _)%type |- _ => destruct x
  | H : (if ?b then None else _) = Some _ |- _ => destruct b eqn:?; [discriminate H|] | H : Some _ = Some _ |- _ => injection H as <- end.

Lemma client_strict t m : ParseClientMessage t = Some m → only_keys t (client_fields m).
Proof.
  unfold ParseClientMessage. intros H. assert (Hn : t ≠ TNull) by by intros ->.
  apply bind_Some in H as (type & _ & H).
  branch H; took; first [by apply reject_only | by eapply directed_only | by eapply relayed_only].
Qed.
Lemma server_strict t m : ParseServerMessage t = Some m → only_keys t (server_fields m) ∧ ∀ p ps, m = ServerWelcome p ps → p ∉ ps.
Proof.
  unfold ParseServerMessage. intros H. assert (Hn : t ≠ TNull) by by intros ->.
  apply bind_Some in H as (type & _ & H).
  branch H; took; (split; [first [by apply reject_only | by eapply directed_only | by eapply relayed_only | by eapply about_only]|]); try done.
  intros p ps [= <- <-] Hin. apply list_elem_of_In in Hin. enough (true = false) by done. erewrite <-Heqb. symmetry.
  apply existsb_exists. eexists. split; [exact Hin|apply Z.eqb_refl].
Qed.

(** A signaling frame survives the wire: what a client or a server writes is
    read back as it was (ids within int64, strings in UTF-8, a payload present, a
    roster without the peer it welcomes), and a decoder accepts no object with a
    field its type does not have, nor a roster that lists the peer welcomed. *)
Theorem Signal_frames_roundtrip :
  (∀ m, ok_client m → ParseClientMessage (ClientMessage_MarshalJSON m) = Some m) ∧
  (∀ m, ok_server m → ParseServerMessage (ServerMessage_MarshalJSON m) = Some m) ∧
  (∀ t m, ParseClientMessage t = Some m → only_keys t (client_fields m)) ∧
  (∀ t m, ParseServerMessage t = Some m → only_keys t (server_fields m) ∧ ∀ p ps, m = ServerWelcome p ps → p ∉ ps).
Proof. exact (conj client_read (conj server_read (conj client_strict server_strict))). Qed.
Lemma Signal_frames_roundtrip_witness :
  ParseClientMessage (ClientMessage_MarshalJSON (ClientJoin 7 (Some [key "crdt"]))) = Some (ClientJoin 7 (Some [key "crdt"])) ∧
  ParseServerMessage (ServerMessage_MarshalJSON (ServerWelcome 7 [1; 2])) = Some (ServerWelcome 7 [1; 2]).
Proof.
  destruct Signal_frames_roundtrip as (Hc & Hs & _). split.
  - apply Hc. split; [done|]. apply Forall_singleton. by vm_compute.
  - apply Hs. split_and!; [done|by repeat constructor|]. by apply (bool_decide_unpack _).
Defined.

(** A field that is missing is not missed: an offer without a target goes to peer
    0 with an empty description, a join without an id joins as peer 0. *)
Lemma missing_fields_default :
  ParseClientMessage (TMap [(key "type", TStr (key "offer"))]) = Some (ClientOffer 0 []) ∧
  ParseClientMessage (TMap [(key "type", TStr (key "join"))]) = Some (ClientJoin 0 None).
Proof. done. Qed.
