(* ===== verification/Signaling.v ===== *)
(** * Signaling: the room that brokers peer discovery (signaling.go)

    The room's state belongs to one goroutine, the owner; a connection has a reader,
    which hands frames to the owner one at a time, and a pump, which buffers what the
    owner feeds it.  A run is a sequence of events: commands the owner executes
    whole, and the moves of readers and pumps in between.  The owner's sends to a
    pump are part of its command, for an open connection has a pump that is always
    ready ([Room_survives]).  A connection is a place in the heap, for an id can be
    used again after a disconnect while the old reader still runs. *)

From stdpp Require Import pretty.
From S2P Require Import Prelude Hlc Wire SignalWire.
Local Open Scope Z_scope.

Section room.
Context {C : Type} `{Countable C}.
(** The order in which Go ranges over a map of connections. *)
Context (ord : list C → list C).

(** ** State *)

(** [signaling.go] [type RoutedFrame] *)
Record RoutedFrame := NewRoutedFrame { ConnID : C; Message : ServerMessage }.
(** [held] is the frame the reader took and waits to dispatch; [c_closed] is that
    [teardown] closed [closed] and [feed]; [out] is what the transport was handed.
    [signaling.go] [type ClientConn] *)
Record ClientConn := mkConn {
  c_connID : C;
  reading : bool;
  held : option ClientMessage;
  c_closed : bool;
  pumping : bool;
  buf : list ServerMessage;
  out : list ServerMessage;
}.
(** [signaling.go] [type roomOwner] *)
Record roomOwner := mkOwner {
  mode : SignalingMode;
  connToPeer : gmap C PeerId;
  peerToConn : gmap PeerId C;
  joinAllowed : gset PeerId;
  signalAllowed : gmap PeerId (gset PeerId);
  conns : gmap C nat;
}.
(** [signaling.go] [type SignalingRoom] *)
Record SignalingRoom := mkRoom { owner : roomOwner; heap : list ClientConn; done_ : bool; running : bool }.

Definition with_peers (f : gmap C PeerId) (g : gmap PeerId C) (o : roomOwner) : roomOwner :=
  mkOwner (mode o) f g (joinAllowed o) (signalAllowed o) (conns o).
Definition with_conns (f : gmap C nat → gmap C nat) (o : roomOwner) : roomOwner :=
  mkOwner (mode o) (connToPeer o) (peerToConn o) (joinAllowed o) (signalAllowed o) (f (conns o)).
Definition with_reader (r : bool) (m : option ClientMessage) (k : ClientConn) : ClientConn :=
  mkConn (c_connID k) r m (c_closed k) (pumping k) (buf k) (out k).
Definition with_pump (p : bool) (b o : list ServerMessage) (k : ClientConn) : ClientConn :=
  mkConn (c_connID k) (reading k) (held k) (c_closed k) p b o.
Definition with_closed (k : ClientConn) : ClientConn :=
  mkConn (c_connID k) (reading k) (held k) true (pumping k) (buf k) (out k).

(** The mode [""] is the open one.
    [signaling.go] [NewSignalingRoom] *)
Definition NewSignalingRoom (mode : SignalingMode) : SignalingRoom :=
  mkRoom (mkOwner mode ∅ ∅ ∅ ∅ ∅) [] false true.

(** ** Routing *)

(** [signaling.go] [roomOwner.roster] *)
Definition roster (o : roomOwner) : list PeerId := peers_sorted (dom (peerToConn o)).
(** [signaling.go] [roomOwner.errFrame] *)
Definition errFrame (out : list RoutedFrame) (c : C) (code : SignalingErrorCode) (msg : string) : list RoutedFrame :=
  out ++ [NewRoutedFrame c (newServerError code (key msg))].
Definition peer_text (p : PeerId) (rest : string) : string := ("peer " +:+ pretty p +:+ rest)%string.
(** [signaling.go] [roomOwner.join] *)
Definition join (o : roomOwner) (out : list RoutedFrame) (c : C) (peer : PeerId) : roomOwner * list RoutedFrame :=
  match connToPeer o !! c with
  | Some _ => (o, errFrame out c SignalingErrorAlreadyJoined "connection already joined")
  | None =>
      if decide (mode o = SignalingModeAllowlist ∧ peer ∉ joinAllowed o) then
        (o, errFrame out c SignalingErrorPermissionDenied (peer_text peer " is not allowed to join"))
      else match peerToConn o !! peer with
      | Some _ => (o, errFrame out c SignalingErrorDuplicatePeer (peer_text peer " is already in this session"))
      | None =>
          let o := with_peers (<[c := peer]> (connToPeer o)) (<[peer := c]> (peerToConn o)) o in
          let others := filter (λ p, p ≠ peer) (roster o) in
          (o, out ++ [NewRoutedFrame c (ServerWelcome peer others)] ++
                omap (λ q, c' ← peerToConn o !! q; Some (NewRoutedFrame c' (ServerPeerJoined peer))) (filter (λ p, p ≠ peer) (roster o)))
      end
  end.
(** [signaling.go] [roomOwner.leaveInto] *)
Definition leaveInto (o : roomOwner) (out : list RoutedFrame) (c : C) : roomOwner * list RoutedFrame :=
  match connToPeer o !! c with
  | None => (o, out)
  | Some peer =>
      let o := with_peers (delete c (connToPeer o)) (delete peer (peerToConn o)) o in
      (o, out ++ map (λ c', NewRoutedFrame c' (ServerPeerLeft peer)) (ord (elements (dom (connToPeer o)))))
  end.
(** [signaling.go] [roomOwner.leave] *)
Definition leave (o : roomOwner) (c : C) : roomOwner * list RoutedFrame := leaveInto o [] c.
(** [signaling.go] [roomOwner.forward] *)
Definition forward (o : roomOwner) (out : list RoutedFrame) (c : C) (to : PeerId) (build : PeerId → ServerMessage) : list RoutedFrame :=
  match connToPeer o !! c with
  | None => errFrame out c SignalingErrorNotJoined "join before signaling"
  | Some from =>
      if decide (mode o = SignalingModeAllowlist ∧ to ∉ default ∅ (signalAllowed o !! from)) then
        errFrame out c SignalingErrorPermissionDenied (peer_text from (" is not allowed to signal peer " +:+ pretty to))
      else match peerToConn o !! to with
      | None => errFrame out c SignalingErrorUnknownTarget (peer_text to " is not in this session")
      | Some target => out ++ [NewRoutedFrame target (build from)]
      end
  end.
(** [signaling.go] [roomOwner.route] *)
Definition route (o : roomOwner) (c : C) (m : ClientMessage) : roomOwner * list RoutedFrame :=
  match m with
  | ClientJoin p _ => join o [] c p
  | ClientLeave => leaveInto o [] c
  | ClientOffer to s => (o, forward o [] c to (λ from, ServerOffer from s))
  | ClientAnswer to s => (o, forward o [] c to (λ from, ServerAnswer from s))
  | ClientIce to s => (o, forward o [] c to (λ from, ServerIce from s))
  | ClientRelay to p => (o, forward o [] c to (λ from, ServerRelay from p))
  end.

(** ** Commands of the owner

    [None] is a panic, a send on a closed channel or a second close, or an owner
    that waits for a pump that has gone. *)

(** The body of the loop.
    [signaling.go] [lines 978-982 roomOwner.dispatchFrames] *)
Definition feed (cs : gmap C nat) (hp : list ClientConn) (f : RoutedFrame) : option (list ClientConn) :=
  match cs !! ConnID f with
  | None => Some hp
  | Some h =>
      k ← hp !! h;
      if c_closed k || negb (pumping k) then None
      else Some (<[h := with_pump true (buf k ++ [Message f]) (out k) k]> hp)
  end.
(** [signaling.go] [roomOwner.dispatchFrames] *)
Fixpoint dispatchFrames (cs : gmap C nat) (hp : list ClientConn) (fs : list RoutedFrame) : option (list ClientConn) :=
  match fs with [] => Some hp | f :: fs => hp ← feed cs hp f; dispatchFrames cs hp fs end.
(** [signaling.go] [ClientConn.teardown] *)
Definition teardown (hp : list ClientConn) (h : nat) : option (list ClientConn) :=
  k ← hp !! h; if c_closed k then None else Some (<[h := with_closed k]> hp).

Definition state : Type := roomOwner * list ClientConn.
(** [signaling.go] [roomOwner.connect] *)
Definition connect (s : state) (c : C) : option (state * nat) :=
  let '(o, hp) := s in
  match conns o !! c with
  | Some _ => None
  | None => Some ((with_conns (<[c := length hp]>) o, hp ++ [mkConn c true None false true [] []]), length hp)
  end.
(** [signaling.go] [roomOwner.receive] *)
Definition receive (s : state) (c : C) (m : ClientMessage) : option state :=
  let '(o, fs) := route s.1 c m in hp ← dispatchFrames (conns o) s.2 fs; Some (o, hp).
(** [signaling.go] [roomOwner.disconnect] *)
Definition disconnect (s : state) (c : C) : option state :=
  let '(o, fs) := leave s.1 c in
  hp ← dispatchFrames (conns o) s.2 fs;
  match conns o !! c with
  | Some h => hp ← teardown hp h; Some (with_conns (delete c) o, hp)
  | None => Some (o, hp)
  end.
(** [signaling.go] [SignalingRoom.AllowJoin] *)
Definition AllowJoin (o : roomOwner) (p : PeerId) : roomOwner :=
  mkOwner (mode o) (connToPeer o) (peerToConn o) ({[p]} ∪ joinAllowed o) (signalAllowed o) (conns o).
(** [signaling.go] [SignalingRoom.AllowSignal] *)
Definition AllowSignal (o : roomOwner) (from target : PeerId) : roomOwner :=
  mkOwner (mode o) (connToPeer o) (peerToConn o) (joinAllowed o)
    (<[from := {[target]} ∪ default ∅ (signalAllowed o !! from)]> (signalAllowed o)) (conns o).
Fixpoint teardown_all (hp : list ClientConn) (hs : list nat) : option (list ClientConn) :=
  match hs with [] => Some hp | h :: hs => hp ← teardown hp h; teardown_all hp hs end.
(** [signaling.go] [roomOwner.shutdown] *)
Definition shutdown (s : state) : option state :=
  hp ← teardown_all s.2 (snd <$> map_to_list (conns s.1)); Some (with_conns (λ _, ∅) s.1, hp).
(** A closed room answers nobody.
    [signaling.go] [SignalingRoom.Roster] *)
Definition Roster (r : SignalingRoom) : list PeerId := if running r then roster (owner r) else [].
(** [signaling.go] [SignalingRoom.Size] *)
Definition Size (r : SignalingRoom) : nat := if running r then size (peerToConn (owner r)) else 0%nat.

(** ** Events *)

Inductive event :=
  | Connect (c : C)               (* [Connect] executed by the owner *)
  | Disconnect (c : C)            (* [Disconnect] executed by the owner *)
  | Grant (p : PeerId)            (* [AllowJoin] executed by the owner *)
  | GrantSignal (p q : PeerId)    (* [AllowSignal] executed by the owner *)
  | Receive (h : nat)             (* the owner executes what the reader of [h] dispatches *)
  | Send (h : nat) (m : ClientMessage) (* the reader of [h] takes a frame from the transport *)
  | HangUp (h : nat)              (* the transport closed the inbound channel *)
  | ReaderStop (h : nat)          (* the reader sees [closed] or [done] *)
  | Abandon (h : nat)             (* the reader's dispatch sees [done] *)
  | Deliver (h : nat)             (* the pump hands a frame to the transport *)
  | PumpStop (h : nat)            (* the pump sees [feed] closed *)
  | Close                         (* [Close] closes [done] *)
  | Shutdown.                     (* the owner sees [done] *)

Definition command (r : SignalingRoom) (f : state → option state) : option SignalingRoom :=
  if running r then '(o, hp) ← f (owner r, heap r); Some (mkRoom o hp (done_ r) true) else None.
Definition at_conn (r : SignalingRoom) (h : nat) (f : ClientConn → option ClientConn) : option SignalingRoom :=
  k ← heap r !! h; k ← f k; Some (mkRoom (owner r) (<[h := k]> (heap r)) (done_ r) (running r)).
Definition idle (k : ClientConn) : bool := reading k && bool_decide (held k = None).

(** The pump's turns: hand over the oldest frame, or stop when [feed] is closed.
    [signaling.go] [ClientConn.pump] *)
Definition pump (stop : bool) (k : ClientConn) : option ClientConn :=
  if negb (pumping k) then None
  else if stop then if c_closed k then Some (with_pump false [] (out k) k) else None
  else match buf k with [] => None | m :: b => Some (with_pump true b (out k ++ [m]) k) end.
(** The reader's turns: take a frame ([Some]), or stop.
    [signaling.go] [ClientConn.readLoop] *)
Definition readLoop (may_stop : bool) (m : option ClientMessage) (k : ClientConn) : option ClientConn :=
  if negb (idle k) then None
  else match m with
       | Some m => Some (with_reader true (Some m) k)
       | None => if may_stop then Some (with_reader false None k) else None
       end.
(** What a run of the room's goroutines does at one event; [None] when it cannot
    happen now.
    [signaling.go] [SignalingRoom.run] *)
Definition step (r : SignalingRoom) (e : event) : option SignalingRoom :=
  match e with
  | Connect c => command r (λ s, Some (from_option fst s (connect s c)))
  | Disconnect c => command r (λ s, disconnect s c)
  | Grant p => command r (λ s, Some (AllowJoin s.1 p, s.2))
  | GrantSignal p q => command r (λ s, Some (AllowSignal s.1 p q, s.2))
  | Receive h =>
      k ← heap r !! h; m ← held k;
      command r (λ s, receive (s.1, <[h := with_reader (reading k) None k]> s.2) (c_connID k) m)
  | Send h m => at_conn r h (readLoop false (Some m))
  | HangUp h => at_conn r h (readLoop true None)
  | ReaderStop h => at_conn r h (λ k, readLoop (c_closed k || done_ r) None k)
  | Abandon h => at_conn r h (λ k, if done_ r && bool_decide (is_Some (held k)) then Some (with_reader (reading k) None k) else None)
  | Deliver h => at_conn r h (pump false)
  | PumpStop h => at_conn r h (pump true)
  | Close => Some (mkRoom (owner r) (heap r) true (running r))
  | Shutdown => if done_ r && running r then '(o, hp) ← shutdown (owner r, heap r); Some (mkRoom o hp true false) else None
  end.
Fixpoint steps (r : SignalingRoom) (es : list event) : option SignalingRoom :=
  match es with [] => Some r | e :: es => r ← step r e; steps r es end.

(** ** What a command feeds *)

Definition fed (k : ClientConn) : list ServerMessage := out k ++ buf k.
(** Every registered connection is open and its pump runs. *)
Definition open_conns (cs : gmap C nat) (hp : list ClientConn) : Prop :=
  ∀ c h, cs !! c = Some h → ∃ k, hp !! h = Some k ∧ c_connID k = c ∧ c_closed k = false ∧ pumping k = true.
(** Of the frames, those for the connection at [h]. *)
Definition sent (cs : gmap C nat) (fs : list RoutedFrame) (h : nat) : list ServerMessage :=
  Message <$> filter (λ f, cs !! ConnID f = Some h) fs.
Definition grow (ms : list ServerMessage) (k : ClientConn) : ClientConn := with_pump (pumping k) (buf k ++ ms) (out k) k.

Lemma grow_nil k : grow [] k = k.
Proof. unfold grow, with_pump. rewrite app_nil_r. by destruct k. Qed.
Lemma grow_grow a b k : grow b (grow a k) = grow (a ++ b) k.
Proof. unfold grow, with_pump. cbn. by rewrite app_assoc. Qed.
Lemma fed_grow ms k : fed (grow ms k) = fed k ++ ms.
Proof. unfold fed. cbn. by rewrite app_assoc. Qed.
Lemma open_inj cs hp c c' h : open_conns cs hp → cs !! c = Some h → cs !! c' = Some h → c = c'.
Proof. intros Ho Hc Hc'. destruct (Ho c h Hc) as (k & E & <- & _), (Ho c' h Hc') as (k' & E' & <- & _). congruence. Qed.
Lemma sent_cons cs f fs h : sent cs (f :: fs) h = (if decide (cs !! ConnID f = Some h) then [Message f] else []) ++ sent cs fs h.
Proof. unfold sent. rewrite filter_cons. by case_decide. Qed.
Lemma sent_app cs a b h : sent cs (a ++ b) h = sent cs a h ++ sent cs b h.
Proof. unfold sent. by rewrite filter_app, fmap_app. Qed.
Lemma elem_of_sent cs fs h m : m ∈ sent cs fs h ↔ ∃ f, f ∈ fs ∧ cs !! ConnID f = Some h ∧ Message f = m.
Proof.
  unfold sent. rewrite list_elem_of_fmap. split.
  - intros (f & -> & [Hc Hf]%list_elem_of_filter). by exists f.
  - intros (f & Hf & Hc & <-). exists f. split; [done|]. by apply list_elem_of_filter.
Qed.

Lemma feed_ok cs hp f : open_conns cs hp →
  ∃ hp', feed cs hp f = Some hp' ∧ length hp' = length hp ∧ ∀ h, hp' !! h = grow (sent cs [f] h) <$> hp !! h.
Proof.
  intros Ho. unfold feed. destruct (cs !! ConnID f) as [h0|] eqn:E.
  - destruct (Ho _ _ E) as (k & Ek & _ & Hcl & Hp). rewrite Ek. cbn [mbind option_bind]. rewrite Hcl, Hp. cbn [orb negb].
    eexists. split; [done|]. split; [by rewrite length_insert|]. intros h. rewrite sent_cons, E, app_nil_r. destruct (decide (h0 = h)) as [<-|Hne].
    + rewrite decide_True by done. rewrite list_lookup_insert_eq by (by eapply lookup_lt_Some). rewrite Ek. cbn [fmap option_fmap option_map]. unfold grow. by rewrite Hp.
    + rewrite decide_False by congruence. rewrite list_lookup_insert_ne by done. destruct (hp !! h) as [k'|]; [|done]. cbn. by rewrite grow_nil.
  - exists hp. split_and!; [done|done|]. intros h. rewrite sent_cons, E, app_nil_r, decide_False by done. destruct (hp !! h) as [k'|]; [|done]. cbn. by rewrite grow_nil.
Qed.
Lemma open_grown cs hp hp' fs : open_conns cs hp → (∀ h, hp' !! h = grow (sent cs fs h) <$> hp !! h) → open_conns cs hp'.
Proof. intros Ho Hg c h Hc. destruct (Ho c h Hc) as (k & Ek & H1). rewrite Hg, Ek. cbn. eexists. split; [done|exact H1]. Qed.
Lemma dispatch_ok cs hp fs : open_conns cs hp →
  ∃ hp', dispatchFrames cs hp fs = Some hp' ∧ length hp' = length hp ∧ ∀ h, hp' !! h = grow (sent cs fs h) <$> hp !! h.
Proof.
  revert hp. induction fs as [|f fs IH]; intros hp Ho.
  - exists hp. split_and!; [done|done|]. intros h. destruct (hp !! h) as [k|]; [|done]. cbn. by rewrite grow_nil.
  - destruct (feed_ok cs hp f Ho) as (hp1 & E1 & L1 & G1). destruct (IH hp1) as (hp2 & E2 & L2 & G2); [by eapply open_grown|].
    exists hp2. cbn [dispatchFrames]. rewrite E1. split_and!; [done|congruence|]. intros h. rewrite G2, G1. change (f :: fs) with ([f] ++ fs).
    rewrite sent_app. destruct (hp !! h) as [k|]; [|done]. cbn [fmap option_fmap option_map]. by rewrite grow_grow.
Qed.

(** ** The registry *)

(** The two maps are inverse, and in allowlist mode whoever is in was let in. *)
Record registry_ok (o : roomOwner) : Prop := {
  rg_inverse c p : connToPeer o !! c = Some p ↔ peerToConn o !! p = Some c;
  rg_allowed c p : mode o = SignalingModeAllowlist → connToPeer o !! c = Some p → p ∈ joinAllowed o;
}.
(** An owner whose connections are open, and the only open ones. *)
Record owner_ok (s : state) : Prop := {
  ow_registry : registry_ok s.1;
  ow_open : open_conns (conns s.1) s.2;
  ow_registered h k : s.2 !! h = Some k → c_closed k = false → conns s.1 !! c_connID k = Some h;
}.

Lemma roster_elem o p : p ∈ roster o ↔ is_Some (peerToConn o !! p).
Proof. unfold roster, peers_sorted. rewrite merge_sort_Permutation, elem_of_elements. apply elem_of_dom. Qed.

Lemma leaveInto_registry o fs c : registry_ok o → registry_ok (leaveInto o fs c).1.
Proof.
  intros [Hi Ha]. unfold leaveInto. destruct (connToPeer o !! c) as [p|] eqn:E; [|by split]. cbn [fst]. split; cbn.
  - intros c' q. rewrite !lookup_delete_Some, Hi. split; intros [Hne Hq]; (split; [|done]); intros ->.
    + apply Hne. apply Hi in E. congruence.
    + apply Hne. apply Hi in Hq. congruence.
  - intros c' q Hm [_ Hq]%lookup_delete_Some. by eapply Ha.
Qed.
Lemma join_registry o fs c p : registry_ok o → registry_ok (join o fs c p).1.
Proof.
  intros [Hi Ha]. unfold join. destruct (connToPeer o !! c) as [q|] eqn:E; [by split|]. destruct (decide _) as [|Hal]; [by split|].
  destruct (peerToConn o !! p) as [c'|] eqn:Ep; [by split|]. cbn [fst]. split; cbn.
  - intros c' q. destruct (decide (c = c')) as [<-|Hc], (decide (p = q)) as [<-|Hq].
    + by rewrite !lookup_insert_eq.
    + rewrite lookup_insert_eq, lookup_insert_ne by done. split; [congruence|]. intros Hx%Hi. congruence.
    + rewrite lookup_insert_eq, lookup_insert_ne by done. split; [intros Hx%Hi|]; congruence.
    + by rewrite !lookup_insert_ne.
  - intros c' q Hm. destruct (decide (c = c')) as [<-|Hc]; [rewrite lookup_insert_eq|rewrite lookup_insert_ne by done; by apply Ha].
    intros [= <-]. destruct (decide (p ∈ joinAllowed o)); [done|]. by destruct Hal.
Qed.
Lemma route_registry o c m : registry_ok o → registry_ok (route o c m).1.
Proof. intros Ho. destruct m; cbn [route fst]; try done; [by apply join_registry|by apply leaveInto_registry]. Qed.
Lemma leaveInto_conns o fs c : conns (leaveInto o fs c).1 = conns o.
Proof. unfold leaveInto. by destruct (connToPeer o !! c). Qed.
Lemma route_conns o c m : conns (route o c m).1 = conns o.
Proof.
  destruct m; cbn [route fst]; try done; [|apply leaveInto_conns]. unfold join. destruct (connToPeer o !! c); [done|].
  destruct (decide _); [done|]. by destruct (peerToConn o !! Peer).
Qed.

(** ** Commands keep the owner's invariant *)

Lemma grown_owner o o' hp hp' fs : owner_ok (o, hp) → conns o' = conns o → registry_ok o' →
  (∀ h, hp' !! h = grow (sent (conns o) fs h) <$> hp !! h) → owner_ok (o', hp').
Proof.
  intros [_ Ho Hr] Ec Hreg Hg. split; cbn [fst snd] in *; [done|rewrite Ec; by eapply open_grown|].
  intros h k. rewrite Ec, Hg. destruct (hp !! h) as [k0|] eqn:E; [|done]. intros [= <-] Hc. by apply (Hr h k0).
Qed.
Lemma room_receive_ok s c m : owner_ok s → ∃ hp', receive s c m = Some ((route s.1 c m).1, hp') ∧ length hp' = length s.2 ∧
  (∀ h, hp' !! h = grow (sent (conns s.1) (route s.1 c m).2 h) <$> s.2 !! h) ∧ owner_ok ((route s.1 c m).1, hp').
Proof.
  intros Hs. destruct (dispatch_ok (conns s.1) s.2 (route s.1 c m).2 (ow_open s Hs)) as (hp' & E & L & G). exists hp'.
  unfold receive. pose proof (route_conns s.1 c m) as Ec. pose proof (route_registry s.1 c m (ow_registry s Hs)) as Hreg.
  destruct (route s.1 c m) as [o fs]. cbn [fst snd] in *. rewrite Ec, E. split_and!; [done..|].
  destruct s as [o0 hp]. by eapply grown_owner.
Qed.
Lemma room_teardown_ok o hp c h : owner_ok (o, hp) → conns o !! c = Some h →
  ∃ k, hp !! h = Some k ∧ teardown hp h = Some (<[h := with_closed k]> hp) ∧ owner_ok (with_conns (delete c) o, <[h := with_closed k]> hp).
Proof.
  intros [Hreg Ho Hr] Hc. cbn [fst snd] in *. destruct (Ho c h Hc) as (k & Ek & Hid & Hcl & Hp). exists k. split; [done|]. unfold teardown. rewrite Ek. cbn [mbind option_bind].
  rewrite Hcl. split; [done|]. split; cbn [fst snd with_conns conns].
  - split; apply Hreg.
  - intros c' h' [Hne Hc']%lookup_delete_Some. destruct (Ho c' h' Hc') as (k' & Ek' & Hid' & Hx). exists k'. split; [|done].
    rewrite list_lookup_insert_ne; [done|]. intros <-. by apply Hne, (open_inj (conns o) hp c c' h).
  - intros h' k' Hk' Hcl'. destruct (decide (h = h')) as [<-|Hne].
    + rewrite list_lookup_insert_eq in Hk' by (by eapply lookup_lt_Some). by injection Hk' as <-.
    + rewrite list_lookup_insert_ne in Hk' by done. apply lookup_delete_Some. split; [|by apply Hr]. intros ->. pose proof (Hr h' k' Hk' Hcl'). congruence.
Qed.
Definition closes (b : bool) (k : ClientConn) : ClientConn := if b then with_closed k else k.
Lemma with_conns_miss c o : conns o !! c = None → with_conns (delete c) o = o.
Proof. intros Hc. unfold with_conns. rewrite delete_id by done. by destruct o. Qed.
Lemma disconnect_ok s c : owner_ok s → ∃ hp', disconnect s c = Some (with_conns (delete c) (leave s.1 c).1, hp') ∧ length hp' = length s.2 ∧
  (∀ h, hp' !! h = (λ k, closes (bool_decide (conns s.1 !! c = Some h)) (grow (sent (conns s.1) (leave s.1 c).2 h) k)) <$> s.2 !! h) ∧
  owner_ok (with_conns (delete c) (leave s.1 c).1, hp').
Proof.
  intros Hs. destruct (dispatch_ok (conns s.1) s.2 (leave s.1 c).2 (ow_open s Hs)) as (hp1 & E & L & G).
  pose proof (leaveInto_conns s.1 [] c) as Ec. pose proof (leaveInto_registry s.1 [] c (ow_registry s Hs)) as Hreg.
  unfold disconnect, leave in *. destruct (leaveInto s.1 [] c) as [o fs]. cbn [fst snd] in *. rewrite Ec, E. cbn [mbind option_bind].
  destruct s as [o0 hp]. cbn [fst snd] in *. assert (H1 : owner_ok (o, hp1)) by by eapply grown_owner.
  destruct (conns o0 !! c) as [h0|] eqn:Eh.
  - rewrite <-Ec in Eh. destruct (room_teardown_ok o hp1 c h0 H1 Eh) as (k & Ek & Et & H2). rewrite Et. cbn [mbind option_bind]. eexists. split; [done|].
    split; [by rewrite length_insert|]. split; [|done]. intros h. destruct (decide (h0 = h)) as [<-|Hne].
    + rewrite list_lookup_insert_eq by (by eapply lookup_lt_Some). rewrite G in Ek. destruct (hp !! h0) as [k0|]; [|done]. injection Ek as <-. cbn.
      by rewrite bool_decide_eq_true_2.
    + rewrite list_lookup_insert_ne, G by done. destruct (hp !! h); [|done]. cbn. by rewrite bool_decide_eq_false_2 by congruence.
  - exists hp1. rewrite with_conns_miss by congruence. split_and!; [done|done| |done]. intros h. rewrite G. destruct (hp !! h); [|done]. cbn. by rewrite bool_decide_eq_false_2.
Qed.

Lemma connect_new o hp c : owner_ok (o, hp) → conns o !! c = None →
  owner_ok (with_conns (<[c := length hp]>) o, hp ++ [mkConn c true None false true [] []]).
Proof.
  intros [Hreg Ho Hr] Hc. cbn [fst snd] in *. split; cbn [fst snd with_conns conns].
  - split; apply Hreg.
  - intros c' h. destruct (decide (c = c')) as [<-|Hne].
    + rewrite lookup_insert_eq. intros [= <-]. eexists. split; [by rewrite lookup_app_r, Nat.sub_diag|done].
    + rewrite lookup_insert_ne by done. intros Hc'. destruct (Ho c' h Hc') as (k & Ek & Hk). exists k. split; [|done]. rewrite lookup_app_l; [done|]. by eapply lookup_lt_Some.
  - intros h k [Hk|[Hl Hk]]%lookup_app_Some Hcl.
    + pose proof (Hr h k Hk Hcl) as Hx. rewrite lookup_insert_ne; [done|]. intros ->. congruence.
    + apply list_lookup_singleton_Some in Hk as [Hz <-]. cbn. rewrite lookup_insert_eq. f_equal. lia.
Qed.
Lemma connect_ok s c : owner_ok s → owner_ok (from_option fst s (connect s c)).
Proof.
  intros Hs. unfold connect. destruct s as [o hp]. destruct (conns o !! c) eqn:E; [done|]. by apply connect_new.
Qed.

Lemma teardown_all_ok hp hs : NoDup hs → (∀ h, h ∈ hs → ∃ k, hp !! h = Some k ∧ c_closed k = false) →
  ∃ hp', teardown_all hp hs = Some hp' ∧ length hp' = length hp ∧ ∀ h, hp' !! h = closes (bool_decide (h ∈ hs)) <$> hp !! h.
Proof.
  revert hp. induction hs as [|h hs IH]; intros hp Hnd Hop.
  - exists hp. split_and!; [done|done|]. intros h. destruct (hp !! h); [|done]. done.
  - apply NoDup_cons in Hnd as [Hn Hnd]. destruct (Hop h) as (k & Ek & Hk); [by left|]. destruct (IH (<[h := with_closed k]> hp)) as (hp' & E & L & G); [done| |].
    + intros h' Hh'. destruct (Hop h') as (k' & Ek' & Hk'); [by right|]. exists k'. split; [|done]. rewrite list_lookup_insert_ne; [done|]. by intros ->.
    + exists hp'. cbn [teardown_all]. unfold teardown. rewrite Ek. cbn [mbind option_bind]. rewrite Hk. cbn [mbind option_bind]. rewrite E.
      split_and!; [done|by rewrite L, length_insert|]. intros h'. rewrite G. destruct (decide (h = h')) as [<-|Hne].
      * rewrite list_lookup_insert_eq by (by eapply lookup_lt_Some). rewrite Ek. cbn. rewrite bool_decide_eq_false_2, bool_decide_eq_true_2 by (done || by left). done.
      * rewrite list_lookup_insert_ne by done. destruct (hp !! h') as [k'|]; [|done]. cbn. do 2 f_equal. apply bool_decide_ext. rewrite elem_of_cons. naive_solver.
Qed.
Lemma shutdown_ok s : owner_ok s → ∃ hp', shutdown s = Some (with_conns (λ _, ∅) s.1, hp') ∧ length hp' = length s.2 ∧
  (∀ h, hp' !! h = with_closed <$> s.2 !! h) ∧ owner_ok (with_conns (λ _, ∅) s.1, hp').
Proof.
  destruct s as [o hp]. intros [Hreg Ho Hr]. cbn [fst snd] in *.
  assert (Hin : ∀ h, h ∈ snd <$> map_to_list (conns o) ↔ ∃ c, conns o !! c = Some h).
  { intros h. rewrite list_elem_of_fmap. split; [intros ([c h'] & -> & Hc%elem_of_map_to_list); by exists c|]. intros [c Hc]. exists (c, h). by rewrite elem_of_map_to_list. }
  destruct (teardown_all_ok hp (snd <$> map_to_list (conns o))) as (hp' & E & L & G).
  - apply NoDup_fmap_2_strong; [|apply NoDup_map_to_list]. intros [c h] [c' h'] Hc%elem_of_map_to_list Hc'%elem_of_map_to_list. cbn. intros ->.
    f_equal. by apply (open_inj (conns o) hp c c' h').
  - intros h [c Hc]%Hin. destruct (Ho c h Hc) as (k & Ek & _ & Hk & _). by exists k.
  - assert (Hg : ∀ h, hp' !! h = with_closed <$> hp !! h).
    { intros h. rewrite G. destruct (hp !! h) as [k|] eqn:Ek; [|done]. cbn. f_equal. destruct (c_closed k) eqn:Hk; unfold closes; case_bool_decide as Hx; try done.
      - destruct k. unfold with_closed. cbn in *. by subst.
      - destruct Hx. apply Hin. exists (c_connID k). by apply Hr. }
    exists hp'. unfold shutdown. cbn [fst snd]. rewrite E. split_and!; [done..|]. split; cbn [fst snd with_conns conns].
    + split; apply Hreg.
    + intros c h Hc. by rewrite lookup_empty in Hc.
    + intros h k Hk Hcl. rewrite Hg in Hk. destruct (hp !! h); [|done]. by injection Hk as <-.
Qed.

(** ** Every event keeps the room's invariant *)

Record room_ok (r : SignalingRoom) : Prop := {
  ro_owner : owner_ok (owner r, heap r);
  ro_stopped : running r = false → conns (owner r) = ∅ ∧ done_ r = true;
}.
Lemma new_room_ok m : room_ok (NewSignalingRoom m).
Proof.
  split; [|done]. split; cbn [fst snd NewSignalingRoom owner heap conns].
  - split; cbn; intros c p; [by rewrite !lookup_empty|]. by rewrite lookup_empty.
  - intros c h Hc. by rewrite lookup_empty in Hc.
  - intros h k Hk. by rewrite lookup_nil in Hk.
Qed.

(** A move of one connection's goroutines. *)
Definition local (k k' : ClientConn) : Prop :=
  c_connID k' = c_connID k ∧ c_closed k' = c_closed k ∧ (c_closed k = false → pumping k' = pumping k).
Lemma local_owner o hp h k k' : owner_ok (o, hp) → hp !! h = Some k → local k k' → owner_ok (o, <[h := k']> hp).
Proof.
  intros [Hreg Ho Hr] Ek (L1 & L2 & L3). pose proof (lookup_lt_Some _ _ _ Ek) as Hlt. split; cbn [fst snd] in *; [done| |].
  - intros c h' Hc. destruct (Ho c h' Hc) as (k0 & Ek0 & Hid & Hcl & Hp). destruct (decide (h = h')) as [<-|Hne].
    + rewrite list_lookup_insert_eq by done. replace k0 with k in * by congruence. exists k'. rewrite L1, L2, L3 by done. done.
    + rewrite list_lookup_insert_ne by done. by exists k0.
  - intros h' k0. destruct (decide (h = h')) as [<-|Hne].
    + rewrite list_lookup_insert_eq by done. intros [= <-]. rewrite L1, L2. by apply Hr.
    + rewrite list_lookup_insert_ne by done. apply Hr.
Qed.
Lemma pump_local b k k' : pump b k = Some k' → local k k'.
Proof.
  unfold pump, local. destruct (pumping k) eqn:Ep; [|done]. cbn [negb]. destruct b; [destruct (c_closed k) eqn:Ec; [|done]|destruct (buf k); [done|]]; intros [= <-]; cbn; done.
Qed.
Lemma reader_local r m k : local k (with_reader r m k).
Proof. done. Qed.
Lemma readLoop_local b m k k' : readLoop b m k = Some k' → local k k'.
Proof. unfold readLoop. destruct (idle k); [|done]. cbn [negb]. destruct m; [intros [= <-]; done|]. destruct b; [intros [= <-]; done|done]. Qed.

Lemma at_conn_ok r h f r' : room_ok r → at_conn r h f = Some r' → (∀ k k', f k = Some k' → local k k') → room_ok r'.
Proof.
  intros [Ho Hs] (k & Ek & (k' & Ef & E)%bind_Some)%bind_Some Hl. injection E as <-. split; [|done]. cbn. eapply local_owner; [done..|]. by apply Hl.
Qed.
Lemma command_ok r f r' : room_ok r → command r f = Some r' → (∀ s', f (owner r, heap r) = Some s' → owner_ok s') → room_ok r'.
Proof.
  intros [Ho Hs]. unfold command. destruct (running r); [|done]. intros ([o hp] & Ef & E)%bind_Some Hf. injection E as <-. split; [|done]. by apply Hf.
Qed.
Lemma receive_held r h k : room_ok r → heap r !! h = Some k → owner_ok (owner r, <[h := with_reader (reading k) None k]> (heap r)).
Proof. intros [Ho _] Ek. by eapply local_owner. Qed.
Lemma room_step_ok r e r' : room_ok r → step r e = Some r' → room_ok r'.
Proof.
  intros Hr. destruct e as [c|c|p|p q|h|h m|h|h|h|h|h| |]; cbn [step]; intros E.
  - eapply command_ok; [done..|]. intros s' [= <-]. exact (connect_ok (owner r, heap r) c (ro_owner r Hr)).
  - eapply command_ok; [done..|]. intros s' Es. destruct (disconnect_ok (owner r, heap r) c (ro_owner r Hr)) as (hp' & E' & _ & _ & H1). congruence.
  - eapply command_ok; [done..|]. intros s' [= <-]. destruct Hr as [[[Hi Ha] Ho Hx] _]. split; [|done..]. split; [done|]. cbn in *. intros c p' Hm Hc. set_solver.
  - eapply command_ok; [done..|]. intros s' [= <-]. destruct Hr as [[[Hi Ha] Ho Hx] _]. by split.
  - apply bind_Some in E as (k & Ek & (m & Em & E)%bind_Some). eapply command_ok; [done..|]. intros s' Es. cbn [fst snd] in Es.
    destruct (room_receive_ok _ (c_connID k) m (receive_held r h k Hr Ek)) as (hp' & E' & _ & _ & H1). cbn [fst snd] in *. congruence.
  - eapply at_conn_ok; [done..|]. intros k k'. apply readLoop_local.
  - eapply at_conn_ok; [done..|]. intros k k'. apply readLoop_local.
  - eapply at_conn_ok; [done..|]. intros k k'. apply readLoop_local.
  - eapply at_conn_ok; [done..|]. intros k k'. destruct (done_ r); [|done]. cbn [andb]. case_bool_decide; [|done]. by intros [= <-].
  - eapply at_conn_ok; [done..|]. intros k k'. apply pump_local.
  - eapply at_conn_ok; [done..|]. intros k k'. apply pump_local.
  - injection E as <-. destruct Hr as [Ho Hs]. split; [done|]. intros Hn. split; [by apply Hs|done].
  - destruct (done_ r && running r); [|done]. destruct (shutdown_ok (owner r, heap r) (ro_owner r Hr)) as (hp' & E' & _ & _ & H1). rewrite E' in E. injection E as <-. by split.
Qed.
Lemma room_steps_ok es r r' : room_ok r → steps r es = Some r' → room_ok r'.
Proof.
  revert r. induction es as [|e es IH]; intros r Hr; cbn [steps]; [by intros [= <-]|]. intros (r1 & E & Hs)%bind_Some. eapply IH; [|done]. by eapply room_step_ok.
Qed.

(** ** What a client knows of the room *)

(** A client that follows the frames it gets knows its id and the others. *)
Definition see (v : option (PeerId * gset PeerId)) (m : ServerMessage) : option (PeerId * gset PeerId) :=
  match m with
  | ServerWelcome p ps => Some (p, list_to_set ps)
  | ServerPeerJoined q => (λ v, (v.1, {[q]} ∪ v.2)) <$> v
  | ServerPeerLeft q => (λ v, (v.1, v.2 ∖ {[q]})) <$> v
  | _ => v
  end.
Definition view (ms : list ServerMessage) : option (PeerId * gset PeerId) := foldl see None ms.
(** Frames that say nothing about the roster. *)
Definition quiet (m : ServerMessage) : Prop :=
  match m with ServerWelcome _ _ | ServerPeerJoined _ | ServerPeerLeft _ => False | _ => True end.
Definition others (o : roomOwner) (p : PeerId) : gset PeerId := dom (peerToConn o) ∖ {[p]}.
(** Every joined connection is registered, and its frames tell it the others. *)
Definition tracked (o : roomOwner) (hp : list ClientConn) : Prop :=
  ∀ c p, connToPeer o !! c = Some p → ∃ h k, conns o !! c = Some h ∧ hp !! h = Some k ∧ view (fed k) = Some (p, others o p).

Lemma view_app a b : view (a ++ b) = foldl see (view a) b.
Proof. apply foldl_app. Qed.
Lemma see_quiet v ms : Forall quiet ms → foldl see v ms = v.
Proof. intros Hq. induction Hq as [|m ms Hm _ IH] in v |-*; [done|]. cbn [foldl]. rewrite IH. by destruct m. Qed.
Lemma see_same m p S ms : ms ≠ [] → Forall (.= m) ms → see (see (Some (p, S)) m) m = see (Some (p, S)) m → foldl see (Some (p, S)) ms = see (Some (p, S)) m.
Proof.
  intros Hne Hm Hi. destruct Hm as [|x ms -> Hm]; [done|]. cbn [foldl]. clear Hne. induction Hm as [|x ms -> _ IH]; [done|]. cbn [foldl]. by rewrite Hi.
Qed.
Lemma joined_twice p S q : see (see (Some (p, S)) (ServerPeerJoined q)) (ServerPeerJoined q) = see (Some (p, S)) (ServerPeerJoined q).
Proof. cbn. do 2 f_equal. set_solver. Qed.
Lemma left_twice p S q : see (see (Some (p, S)) (ServerPeerLeft q)) (ServerPeerLeft q) = see (Some (p, S)) (ServerPeerLeft q).
Proof. cbn. do 2 f_equal. set_solver. Qed.

Lemma sent_quiet cs fs h : Forall (λ f, quiet (Message f)) fs → Forall quiet (sent cs fs h).
Proof. rewrite !Forall_forall. intros Hq m (f & Hf & _ & <-)%elem_of_sent. by apply Hq. Qed.
Lemma err_quiet c code msg : Forall (λ f, quiet (Message f)) (errFrame [] c code msg).
Proof. by apply Forall_singleton. Qed.
Lemma forward_quiet o c to build : (∀ p, quiet (build p)) → Forall (λ f, quiet (Message f)) (forward o [] c to build).
Proof.
  intros Hq. unfold forward. destruct (connToPeer o !! c); [|apply err_quiet]. destruct (decide _); [apply err_quiet|].
  destruct (peerToConn o !! to); [|apply err_quiet]. apply Forall_singleton, Hq.
Qed.

(** Frames that are quiet, and no change of who is in, keep every view. *)
Lemma tracked_quiet o hp hp' fs : tracked o hp → Forall (λ f, quiet (Message f)) fs →
  (∀ h, hp' !! h = grow (sent (conns o) fs h) <$> hp !! h) → tracked o hp'.
Proof.
  intros Ht Hq Hg c p Hc. destruct (Ht c p Hc) as (h & k & Eh & Ek & Ev). exists h, (grow (sent (conns o) fs h) k). split_and!; [done|by rewrite Hg, Ek|].
  by rewrite fed_grow, view_app, see_quiet by by apply sent_quiet.
Qed.

Lemma join_tracked o hp hp' c p : registry_ok o → open_conns (conns o) hp → tracked o hp → is_Some (conns o !! c) →
  (∀ h, hp' !! h = grow (sent (conns o) (join o [] c p).2 h) <$> hp !! h) → tracked (join o [] c p).1 hp'.
Proof.
  intros [Hi _] Ho Ht [hc Hc]. unfold join. destruct (connToPeer o !! c) as [q|] eqn:E; [intros Hg; by eapply tracked_quiet, Hg; [|apply err_quiet]|].
  destruct (decide _); [intros Hg; by eapply tracked_quiet, Hg; [|apply err_quiet]|].
  destruct (peerToConn o !! p) as [c'|] eqn:Ep; [intros Hg; by eapply tracked_quiet, Hg; [|apply err_quiet]|].
  set (o' := with_peers _ _ o). set (notes := omap _ _). cbn [fst snd app]. intros Hg c1 q Hq.
  assert (Hdom : dom (peerToConn o') = {[p]} ∪ dom (peerToConn o)) by (cbn; by rewrite dom_insert_L).
  assert (Hpn : p ∉ dom (peerToConn o)) by by apply not_elem_of_dom.
  assert (Hnote : ∀ f, f ∈ notes ↔ ∃ q c', q ≠ p ∧ peerToConn o !! q = Some c' ∧ f = NewRoutedFrame c' (ServerPeerJoined p)).
  { intros f. unfold notes. rewrite list_elem_of_omap. split.
    - intros (q' & [Hne _]%list_elem_of_filter & (c' & Hc' & [= <-])%bind_Some). exists q', c'. split_and!; [done| |done]. cbn in Hc'. by rewrite lookup_insert_ne in Hc' by done.
    - intros (q' & c' & Hne & Hc' & ->). exists q'. split.
      + apply list_elem_of_filter. split; [done|]. apply roster_elem. cbn. rewrite lookup_insert_ne by done. by exists c'.
      + cbn. rewrite lookup_insert_ne by done. by rewrite Hc'. }
  destruct (decide (c = c1)) as [<-|Hne].
  - cbn in Hq. rewrite lookup_insert_eq in Hq. injection Hq as <-. destruct (Ho c hc Hc) as (k & Ek & _). eexists hc, _. split_and!; [done|by rewrite Hg, Ek|].
    rewrite fed_grow, view_app, sent_cons. cbn [ConnID]. rewrite decide_True by done. cbn [Message app foldl see].
    rewrite see_quiet.
    + f_equal. f_equal. unfold others. rewrite Hdom. apply set_eq. intros x. rewrite elem_of_list_to_set, list_elem_of_filter, roster_elem, <-elem_of_dom, Hdom. set_solver.
    + apply Forall_forall. intros m (f & (q' & c' & Hq' & Hc' & ->)%Hnote & Hh & _)%elem_of_sent. exfalso. cbn in Hh.
      rewrite (open_inj (conns o) hp c' c hc Ho Hh Hc) in Hc'. apply Hi in Hc'. congruence.
  - cbn in Hq. rewrite lookup_insert_ne in Hq by done. destruct (Ht c1 q Hq) as (h & k & Eh & Ek & Ev). eexists h, _. split_and!; [done|by rewrite Hg, Ek|].
    assert (Hqp : q ≠ p) by (intros ->; apply Hi in Hq; congruence).
    rewrite fed_grow, view_app, Ev, sent_cons. cbn [ConnID]. rewrite decide_False by (intros Hh; by apply Hne, (open_inj (conns o) hp c c1 h)). cbn [app].
    rewrite (see_same (ServerPeerJoined p)); [| | |apply joined_twice].
    + cbn. f_equal. f_equal. unfold others. rewrite Hdom. set_solver.
    + intros Hnil. assert (ServerPeerJoined p ∈ sent (conns o) notes h) as Hin; [|rewrite Hnil in Hin; set_solver].
      apply elem_of_sent. exists (NewRoutedFrame c1 (ServerPeerJoined p)). split_and!; [|done|done]. apply Hnote. exists q, c1. split_and!; [done|by apply Hi|done].
    + apply Forall_forall. intros m (f & (q' & c' & _ & _ & ->)%Hnote & _ & <-)%elem_of_sent. done.
Qed.

Section ordered.
Context (Hord : ∀ l, ord l ≡ₚ l).

Lemma leave_tracked o hp hp' c (b : nat → bool) : registry_ok o → tracked o hp →
  (∀ h, hp' !! h = (λ k, closes (b h) (grow (sent (conns o) (leaveInto o [] c).2 h) k)) <$> hp !! h) → tracked (leaveInto o [] c).1 hp'.
Proof.
  intros [Hi _] Ht. unfold leaveInto. destruct (connToPeer o !! c) as [p|] eqn:E.
  - set (o' := with_peers _ _ o). cbn [fst snd app]. intros Hg c1 q Hq. cbn in Hq. apply lookup_delete_Some in Hq as [Hne Hq].
    destruct (Ht c1 q Hq) as (h & k & Eh & Ek & Ev). eexists h, _. split_and!; [done|by rewrite Hg, Ek|].
    assert (Hfed : ∀ b k, fed (closes b k) = fed k) by by intros []. rewrite Hfed, fed_grow, view_app, Ev.
    rewrite (see_same (ServerPeerLeft p)); [| | |apply left_twice].
    + cbn. f_equal. f_equal. unfold others. cbn. rewrite dom_delete_L. set_solver.
    + intros Hnil. assert (ServerPeerLeft p ∈ sent (conns o) (map (λ c', NewRoutedFrame c' (ServerPeerLeft p)) (ord (elements (dom (connToPeer o'))))) h) as Hin; [|rewrite Hnil in Hin; set_solver].
      apply elem_of_sent. exists (NewRoutedFrame c1 (ServerPeerLeft p)). split_and!; [|done|done]. apply list_elem_of_fmap. exists c1. split; [done|].
      rewrite Hord, elem_of_elements. cbn. rewrite dom_delete_L. apply elem_of_difference. split; [by apply elem_of_dom_2 in Hq|set_solver].
    + apply Forall_forall. intros m (f & (c' & -> & _)%list_elem_of_fmap & _ & <-)%elem_of_sent. done.
  - cbn [fst snd]. intros Hg c1 q Hq. destruct (Ht c1 q Hq) as (h & k & Eh & Ek & Ev). eexists h, _. split_and!; [done|by rewrite Hg, Ek|].
    unfold sent. cbn. rewrite grow_nil. by destruct (b h).
Qed.
Lemma tracked_forget o hp c : connToPeer o !! c = None → tracked o hp → tracked (with_conns (delete c) o) hp.
Proof.
  intros Hc Ht c1 q Hq. cbn in Hq. destruct (Ht c1 q Hq) as (h & k & Eh & Ek & Ev). exists h, k. split_and!; [|done|done].
  cbn. rewrite lookup_delete_ne; [done|]. by intros ->; congruence.
Qed.
Lemma leave_out o c : connToPeer (leaveInto o [] c).1 !! c = None.
Proof. unfold leaveInto. destruct (connToPeer o !! c) eqn:E; [|done]. cbn. by rewrite lookup_delete_eq. Qed.
Lemma disconnect_tracked s c s' : owner_ok s → tracked s.1 s.2 → disconnect s c = Some s' → tracked s'.1 s'.2.
Proof.
  intros Hs Ht E. destruct (disconnect_ok s c Hs) as (hp' & E' & _ & Hg & _). rewrite E in E'. injection E' as ->. cbn [fst snd].
  apply tracked_forget; [apply leave_out|]. eapply leave_tracked; [apply Hs|done|]. intros h. exact (Hg h).
Qed.
Lemma receive_tracked s c m s' : owner_ok s → tracked s.1 s.2 → is_Some (conns s.1 !! c) → receive s c m = Some s' → tracked s'.1 s'.2.
Proof.
  intros Hs Ht Hc E. destruct (room_receive_ok s c m Hs) as (hp' & E' & _ & Hg & _). rewrite E in E'. injection E' as ->. cbn [fst snd].
  destruct m as [p cs|to x|to x|to x|to x|]; cbn [route fst snd] in *.
  2-5: (refine (tracked_quiet _ _ _ _ Ht _ Hg); by apply forward_quiet).
  - eapply join_tracked; [apply Hs|apply Hs|done..].
  - eapply (leave_tracked _ _ _ c (λ _, false)); [apply Hs|done|exact Hg].
Qed.

(** ** Orderly runs *)

(** The owner executes a frame only of a connection that is still registered. *)
Definition in_order (r : SignalingRoom) (e : event) : bool :=
  match e with Receive h => match heap r !! h with Some k => negb (c_closed k) | None => true end | _ => true end.
Fixpoint orderly (r : SignalingRoom) (es : list event) : bool :=
  match es with
  | [] => true
  | e :: es => in_order r e && match step r e with Some r' => orderly r' es | None => true end
  end.
Lemma tracked_local o hp h k k' : tracked o hp → hp !! h = Some k → fed k' = fed k → tracked o (<[h := k']> hp).
Proof.
  intros Ht Ek Ef c p Hc. destruct (Ht c p Hc) as (h' & k0 & Eh & Ek0 & Ev). destruct (decide (h = h')) as [<-|Hne].
  - exists h, k'. split_and!; [done|by rewrite list_lookup_insert_eq by (by eapply lookup_lt_Some)|]. rewrite Ef. congruence.
  - exists h', k0. split_and!; [done|by rewrite list_lookup_insert_ne|done].
Qed.
Lemma tracked_reader o hp h k b m : tracked o hp → hp !! h = Some k → tracked o (<[h := with_reader b m k]> hp).
Proof. intros Ht Ek. by eapply tracked_local. Qed.
Lemma tracked_reading o hp b m h k k' : tracked o hp → hp !! h = Some k → readLoop b m k = Some k' → tracked o (<[h := k']> hp).
Proof.
  intros Ht Ek. unfold readLoop. destruct (idle k); [|done]. cbn [negb]. destruct m; [intros [= <-]; by apply tracked_reader|]. destruct b; [|done]. intros [= <-]. by apply tracked_reader.
Qed.
Definition tracked_room (r : SignalingRoom) : Prop := running r = true → tracked (owner r) (heap r).
Lemma tracked_at r h f r' : tracked_room r → at_conn r h f = Some r' →
  (∀ k k', heap r !! h = Some k → f k = Some k' → tracked (owner r) (heap r) → tracked (owner r) (<[h := k']> (heap r))) → tracked_room r'.
Proof.
  intros Ht (k & Ek & (k' & Ef & E)%bind_Some)%bind_Some Hl. injection E as <-. intros Hrun. cbn in *. eapply Hl; [done|done|by apply Ht].
Qed.
Lemma tracked_command r f r' : tracked_room r → command r f = Some r' →
  (∀ s', tracked (owner r) (heap r) → f (owner r, heap r) = Some s' → tracked s'.1 s'.2) → tracked_room r'.
Proof.
  intros Ht. unfold command. destruct (running r) eqn:Er; [|done]. intros ([o hp] & Ef & E)%bind_Some Hf. injection E as <-. intros _. cbn. apply (Hf (o, hp)); [by apply Ht|done].
Qed.
Lemma connect_tracked o hp c : tracked o hp → tracked (from_option fst (o, hp) (connect (o, hp) c)).1 (from_option fst (o, hp) (connect (o, hp) c)).2.
Proof.
  intros Ht. unfold connect. destruct (conns o !! c) eqn:E; [done|]. cbn. intros c1 p Hc1. cbn in Hc1. destruct (Ht c1 p Hc1) as (h & k & Eh & Ek & Ev).
  exists h, k. split_and!; [|rewrite lookup_app_l; [done|by eapply lookup_lt_Some]|done]. cbn. rewrite lookup_insert_ne; [done|]. intros ->. congruence.
Qed.
Lemma step_tracked r e r' : room_ok r → tracked_room r → in_order r e = true → step r e = Some r' → tracked_room r'.
Proof.
  intros Hr Ht Ho. destruct e as [c|c|p|p q|h|h m|h|h|h|h|h| |]; cbn [step]; intros E.
  - eapply tracked_command; [done..|]. intros s' Hx [= <-]. by apply connect_tracked.
  - eapply tracked_command; [done..|]. intros s' Hx Es. exact (disconnect_tracked (owner r, heap r) c s' (ro_owner r Hr) Hx Es).
  - eapply tracked_command; [done..|]. by intros s' Hx [= <-].
  - eapply tracked_command; [done..|]. by intros s' Hx [= <-].
  - apply bind_Some in E as (k & Ek & (m & Em & E)%bind_Some). eapply tracked_command; [done..|]. intros s' Hx Es. cbn [fst snd] in Es.
    cbn in Ho. rewrite Ek in Ho. apply negb_true_iff in Ho. eapply (receive_tracked _ _ _ _ (receive_held r h k Hr Ek)), Es.
    + cbn. by apply tracked_reader.
    + cbn. exists h. by eapply (ow_registered _ (ro_owner r Hr)).
  - eapply tracked_at; [done..|]. intros k k' Ek Ef Hx. eapply tracked_reading; [exact Hx|exact Ek|exact Ef].
  - eapply tracked_at; [done..|]. intros k k' Ek Ef Hx. eapply tracked_reading; [exact Hx|exact Ek|exact Ef].
  - eapply tracked_at; [done..|]. intros k k' Ek Ef Hx. eapply tracked_reading; [exact Hx|exact Ek|exact Ef].
  - eapply tracked_at; [done..|]. intros k k' Ek Ef Hx. destruct (done_ r); [|done]. cbn [andb] in Ef. case_bool_decide; [|done]. injection Ef as <-. by apply tracked_reader.
  - eapply tracked_at; [done..|]. intros k k' Ek Ef Hx. unfold pump in Ef. destruct (pumping k); [|done]. cbn [negb] in Ef. destruct (buf k) as [|m b] eqn:Eb; [done|].
    injection Ef as <-. eapply tracked_local; [done..|]. unfold fed. cbn. by rewrite Eb, <-app_assoc.
  - intros Hrun. apply bind_Some in E as (k & Ek & (k' & Ef & E)%bind_Some). injection E as <-. cbn in *. intros c p Hc. destruct (Ht Hrun c p Hc) as (h' & k0 & Eh & Ek0 & Ev).
    exists h', k0. split_and!; [done| |done]. rewrite list_lookup_insert_ne; [done|]. intros <-. destruct (ow_open _ (ro_owner r Hr) c h Eh) as (k1 & Ek1 & _ & Hcl & _). cbn in *.
    replace k1 with k in * by congruence. unfold pump in Ef. rewrite Hcl in Ef. by destruct (pumping k).
  - injection E as <-. exact Ht.
  - destruct (done_ r && running r); [|done]. apply bind_Some in E as ([o hp] & _ & E). by injection E as <-.
Qed.
Lemma steps_tracked es r r' : room_ok r → tracked_room r → orderly r es = true → steps r es = Some r' → tracked_room r'.
Proof.
  revert r. induction es as [|e es IH]; intros r Hr Ht Ho; cbn [steps orderly] in *; [by intros [= <-]|]. intros (r1 & E & Hs)%bind_Some.
  rewrite E in Ho. apply andb_true_iff in Ho as [H1 H2]. eapply IH; [by eapply room_step_ok|by eapply step_tracked|done..].
Qed.
End ordered.

(** ** Directed frames *)

(** A frame to one peer: the peer, and what it becomes for a sender. *)
Definition directed_to (m : ClientMessage) : option (PeerId * (PeerId → ServerMessage)) :=
  match m with
  | ClientOffer to s => Some (to, λ from, ServerOffer from s) | ClientAnswer to s => Some (to, λ from, ServerAnswer from s)
  | ClientIce to s => Some (to, λ from, ServerIce from s) | ClientRelay to p => Some (to, λ from, ServerRelay from p)
  | ClientJoin _ _ | ClientLeave => None
  end.
(** The sender a frame names. *)
Definition From_of (m : ServerMessage) : option PeerId :=
  match m with ServerOffer f _ | ServerAnswer f _ | ServerIce f _ | ServerRelay f _ => Some f | _ => None end.
(** [from] may send to [to]. *)
Definition granted (o : roomOwner) (from to : PeerId) : Prop := mode o = SignalingModeAllowlist → to ∈ default ∅ (signalAllowed o !! from).
#[export] Instance granted_dec o from to : Decision (granted o from to).
Proof. unfold granted. apply _. Defined.
(** The frame that answers a directed frame, and the connection it goes to. *)
Definition answer (o : roomOwner) (c : C) (to : PeerId) (build : PeerId → ServerMessage) : C * ServerMessage :=
  match connToPeer o !! c with
  | None => (c, newServerError SignalingErrorNotJoined (key "join before signaling"))
  | Some from =>
      if decide (granted o from to) then
        match peerToConn o !! to with
        | Some target => (target, build from)
        | None => (c, newServerError SignalingErrorUnknownTarget (key (peer_text to " is not in this session")))
        end
      else (c, newServerError SignalingErrorPermissionDenied (key (peer_text from (" is not allowed to signal peer " +:+ pretty to))))
  end.
(** From [r] to [r'] exactly the connection registered for [c] was fed [msg]. *)
Definition fed_only (r r' : SignalingRoom) (c : C) (msg : ServerMessage) : Prop :=
  length (heap r') = length (heap r) ∧
  ∀ h k, heap r !! h = Some k → ∃ k', heap r' !! h = Some k' ∧ out k' = out k ∧
    fed k' = fed k ++ (if decide (conns (owner r) !! c = Some h) then [msg] else []).

Lemma forward_answer o c to build : forward o [] c to build = [NewRoutedFrame (answer o c to build).1 (answer o c to build).2].
Proof.
  unfold forward, answer. destruct (connToPeer o !! c) as [from|]; [|done]. destruct (decide (granted o from to)) as [Hg|Hg].
  - rewrite decide_False by (unfold granted in Hg; tauto). by destruct (peerToConn o !! to).
  - rewrite decide_True; [done|]. unfold granted in Hg. destruct (decide (mode o = SignalingModeAllowlist)), (decide (to ∈ default ∅ (signalAllowed o !! from))); tauto.
Qed.
Lemma route_directed o c m to build : directed_to m = Some (to, build) → route o c m = (o, [NewRoutedFrame (answer o c to build).1 (answer o c to build).2]).
Proof. by destruct m; intros [= <- <-]; cbn [route]; rewrite forward_answer. Qed.

Lemma Receive_runs r h k m : room_ok r → running r = true → heap r !! h = Some k → held k = Some m →
  ∃ r', step r (Receive h) = Some r' ∧ owner r' = (route (owner r) (c_connID k) m).1 ∧ length (heap r') = length (heap r) ∧
  ∀ h' k0, heap r !! h' = Some k0 → ∃ k', heap r' !! h' = Some k' ∧ out k' = out k0 ∧ fed k' = fed k0 ++ sent (conns (owner r)) (route (owner r) (c_connID k) m).2 h'.
Proof.
  intros Hr Hrun Ek Em. destruct (room_receive_ok _ (c_connID k) m (receive_held r h k Hr Ek)) as (hp' & E & L & G & _). cbn [fst snd] in *.
  eexists. cbn [step]. rewrite Ek. cbn [mbind option_bind]. rewrite Em. cbn [mbind option_bind]. unfold command. rewrite Hrun. cbn [fst snd]. rewrite E.
  split; [done|]. cbn. split_and!; [done|by rewrite L, length_insert|]. intros h' k0 Ek0. rewrite G. destruct (decide (h = h')) as [<-|Hne].
  - rewrite list_lookup_insert_eq by (by eapply lookup_lt_Some). replace k0 with k by congruence. eexists. split; [done|]. split; [done|]. by rewrite fed_grow.
  - rewrite list_lookup_insert_ne, Ek0 by done. eexists. split; [done|]. split; [done|]. by rewrite fed_grow.
Qed.

(** Only directed frames make frames that name a sender. *)
Lemma route_names o c m f : f ∈ (route o c m).2 → is_Some (From_of (Message f)) → ∃ to build, directed_to m = Some (to, build).
Proof.
  intros Hf [p Hp]. destruct m as [q cs|to s|to s|to s|to s|]; cbn [directed_to]; eauto; exfalso; cbn [route] in Hf.
  - unfold join in Hf. destruct (connToPeer o !! c); [apply list_elem_of_singleton in Hf; by subst|]. destruct (decide _); [apply list_elem_of_singleton in Hf; by subst|].
    destruct (peerToConn o !! q); [apply list_elem_of_singleton in Hf; by subst|]. cbn [snd app] in Hf. apply elem_of_cons in Hf as [->|Hf]; [done|].
    apply list_elem_of_omap in Hf as (q' & _ & (c' & _ & [= <-])%bind_Some). done.
  - unfold leaveInto in Hf. destruct (connToPeer o !! c); cbn [snd app] in Hf; [|set_solver]. apply list_elem_of_fmap in Hf as (c' & -> & _). done.
Qed.
Lemma leave_names o c f : f ∈ (leave o c).2 → From_of (Message f) = None.
Proof. unfold leave, leaveInto. destruct (connToPeer o !! c); cbn [snd app]; [|set_solver]. by intros (c' & -> & _)%list_elem_of_fmap. Qed.
Lemma directed_stamp m to build p : directed_to m = Some (to, build) → From_of (build p) = Some p.
Proof. by destruct m; intros [= <- <-]. Qed.
Lemma answer_names o c m to build p : directed_to m = Some (to, build) → From_of (answer o c to build).2 = Some p →
  connToPeer o !! c = Some p ∧ granted o p to ∧ peerToConn o !! to = Some (answer o c to build).1 ∧ (answer o c to build).2 = build p.
Proof.
  intros Hm. unfold answer. destruct (connToPeer o !! c) as [from|]; [|done]. destruct (decide _) as [Hg|]; [|done].
  destruct (peerToConn o !! to) as [tc|] eqn:E; [|done]. cbn [fst snd]. rewrite (directed_stamp m to build from Hm). by intros [= <-].
Qed.

Lemma app_same {A} (l new : list A) : l = l ++ new → new = [].
Proof. intros E. apply (f_equal length) in E. rewrite length_app in E. destruct new; [done|simpl in E; lia]. Qed.
Lemma local_feeds r h f r' h0 k k' new : at_conn r h f = Some r' → (∀ k k', f k = Some k' → ∃ lost, fed k = fed k' ++ lost) →
  heap r !! h0 = Some k → heap r' !! h0 = Some k' → fed k' = fed k ++ new → new = [].
Proof.
  intros (k1 & Ek1 & (k2 & Ef & E)%bind_Some)%bind_Some Hf Ek. injection E as <-. cbn. destruct (decide (h = h0)) as [<-|Hne].
  - rewrite list_lookup_insert_eq by (by eapply lookup_lt_Some). intros [= <-] E. replace k1 with k in * by congruence. destruct (Hf k k2 Ef) as [lost El].
    rewrite El, <-app_assoc in E. apply app_same in E. by apply app_eq_nil in E as [_ ?].
  - rewrite list_lookup_insert_ne by done. intros E' E. replace k' with k in * by congruence. by apply app_same in E.
Qed.
Lemma reading_feeds b m k k' : readLoop b m k = Some k' → ∃ lost, fed k = fed k' ++ lost.
Proof.
  unfold readLoop. intros E. exists []. rewrite app_nil_r. destruct (idle k); [|done]. cbn [negb] in E. destruct m; [by injection E as <-|]. destruct b; [by injection E as <-|done].
Qed.
Lemma pump_feeds b k k' : pump b k = Some k' → ∃ lost, fed k = fed k' ++ lost.
Proof.
  unfold pump, fed. destruct (pumping k); [|done]. cbn [negb]. destruct b.
  - destruct (c_closed k); [|done]. intros [= <-]. exists (buf k). cbn. by rewrite app_nil_r.
  - destruct (buf k) as [|m b]; [done|]. intros [= <-]. exists []. cbn. by rewrite app_nil_r, <-app_assoc.
Qed.

(** Who is fed what at an event. *)
Lemma step_feeds r e r' h k k' new : room_ok r → step r e = Some r' → heap r !! h = Some k → heap r' !! h = Some k' → fed k' = fed k ++ new →
  new = [] ∨ (∃ c, e = Disconnect c ∧ new = sent (conns (owner r)) (leave (owner r) c).2 h) ∨
  ∃ h0 k0 m, e = Receive h0 ∧ heap r !! h0 = Some k0 ∧ held k0 = Some m ∧ new = sent (conns (owner r)) (route (owner r) (c_connID k0) m).2 h.
Proof.
  intros Hr Es Ek Ek' Ef. destruct e as [c|c|p|p q|h0|h0 m|h0|h0|h0|h0|h0| |]; cbn [step] in Es.
  - left. unfold command in Es. destruct (running r); [|done]. apply bind_Some in Es as ([o hp] & Ec & E). injection E as <-. injection Ec as Ec. cbn in Ek'.
    revert Ec. destruct (conns (owner r) !! c); cbn; intros [= <- <-]; [|rewrite lookup_app_l in Ek' by (by eapply lookup_lt_Some)]; replace k' with k in * by congruence; by apply app_same in Ef.
  - right. left. exists c. split; [done|]. unfold command in Es. destruct (running r); [|done]. apply bind_Some in Es as ([o hp] & Ec & E). injection E as <-. cbn in Ek'.
    destruct (disconnect_ok (owner r, heap r) c (ro_owner r Hr)) as (hp' & E' & _ & G & _). rewrite Ec in E'. injection E' as -> ->. cbn [fst snd] in G.
    rewrite G, Ek in Ek'. injection Ek' as <-. assert (Hfed : ∀ b k, fed (closes b k) = fed k) by by intros []. rewrite Hfed, fed_grow in Ef. by apply app_inv_head in Ef.
  - left. unfold command in Es. destruct (running r); [|done]. injection Es as <-. cbn in Ek'. replace k' with k in * by congruence. by apply app_same in Ef.
  - left. unfold command in Es. destruct (running r); [|done]. injection Es as <-. cbn in Ek'. replace k' with k in * by congruence. by apply app_same in Ef.
  - right. right. pose proof Es as Es'. apply bind_Some in Es as (k0 & Ek0 & (m & Em & Es)%bind_Some). exists h0, k0, m. split_and!; [done..|].
    assert (running r = true) as Hrun by (unfold command in Es; by destruct (running r)).
    destruct (Receive_runs r h0 k0 m Hr Hrun Ek0 Em) as (r1 & E1 & _ & _ & H1). cbn [step] in E1. rewrite Es' in E1. injection E1 as <-.
    destruct (H1 h k Ek) as (k1 & Ek1 & _ & Ef1). replace k1 with k' in * by congruence. rewrite Ef1 in Ef. by apply app_inv_head in Ef.
  - left. eapply local_feeds; [done| |done..]. intros ??. apply reading_feeds.
  - left. eapply local_feeds; [done| |done..]. intros ??. apply reading_feeds.
  - left. eapply local_feeds; [done| |done..]. intros ??. apply reading_feeds.
  - left. eapply local_feeds; [done| |done..]. intros ?? Ex. exists []. rewrite app_nil_r. destruct (done_ r); [|done]. cbn [andb] in Ex. case_bool_decide; [|done]. by injection Ex as <-.
  - left. eapply local_feeds; [done| |done..]. intros ??. apply pump_feeds.
  - left. eapply local_feeds; [done| |done..]. intros ??. apply pump_feeds.
  - left. injection Es as <-. cbn in Ek'. replace k' with k in * by congruence. by apply app_same in Ef.
  - left. destruct (done_ r && running r); [|done]. destruct (shutdown_ok (owner r, heap r) (ro_owner r Hr)) as (hp' & E' & _ & G & _). rewrite E' in Es. injection Es as <-. cbn in Ek', G.
    rewrite G, Ek in Ek'. injection Ek' as <-. change (fed (with_closed k)) with (fed k) in Ef. by apply app_same in Ef.
Qed.

(** ** Closing *)

Definition stopped (k : ClientConn) : Prop := reading k = false ∧ pumping k = false.
Lemma steps_app r es es' r' : steps r es = Some r' → steps r (es ++ es') = steps r' es'.
Proof.
  revert r. induction es as [|e es IH]; intros r; cbn [steps app]; [by intros [= <-]|]. destruct (step r e) as [r1|]; [|done]. apply IH.
Qed.
Definition put (r : SignalingRoom) (h : nat) (k : ClientConn) : SignalingRoom := mkRoom (owner r) (<[h := k]> (heap r)) (done_ r) (running r).
Lemma at_conn_put r h f k k' : heap r !! h = Some k → f k = Some k' → at_conn r h f = Some (put r h k').
Proof. intros Ek Ef. unfold at_conn. rewrite Ek. cbn [mbind option_bind]. by rewrite Ef. Qed.
Lemma put_put r h k k' : put (put r h k) h k' = put r h k'.
Proof. unfold put. cbn. by rewrite list_insert_insert_eq. Qed.
Lemma put_same r h k : heap r !! h = Some k → put r h k = r.
Proof. intros E. unfold put. rewrite list_insert_id by done. by destruct r. Qed.
Lemma put_lookup r h k k' : heap r !! h = Some k → heap (put r h k') !! h = Some k'.
Proof. intros E. cbn. by rewrite list_lookup_insert_eq by (by eapply lookup_lt_Some). Qed.

(** A reader gives up what it holds and stops. *)
Lemma stop_reader r h k : done_ r = true → heap r !! h = Some k →
  ∃ es k', steps r es = Some (put r h k') ∧ (length es ≤ 2)%nat ∧ reading k' = false ∧ pumping k' = pumping k ∧ c_closed k' = c_closed k.
Proof.
  intros Hd Ek. destruct (reading k) eqn:Er.
  - assert (∃ es k1, steps r es = Some (put r h k1) ∧ (length es ≤ 1)%nat ∧ k1 = with_reader true None k) as (es & k1 & E1 & L1 & ->).
    { destruct (held k) as [m|] eqn:Em.
      - exists [Abandon h], (with_reader true None k). split_and!; [|done|done]. cbn [steps step]. rewrite (at_conn_put r h _ k (with_reader true None k) Ek); [done|].
        rewrite Hd, bool_decide_eq_true_2 by (rewrite Em; eauto). by rewrite Er.
      - exists [], (with_reader true None k). split_and!; [|simpl; lia|done]. cbn. f_equal. symmetry. rewrite put_same; [done|]. rewrite Ek. f_equal. destruct k; cbn in *; by subst. }
    exists (es ++ [ReaderStop h]), (with_reader false None k). split_and!; [|rewrite length_app; simpl; lia|done..].
    rewrite (steps_app _ _ _ _ E1). cbn [steps step]. rewrite (at_conn_put _ h _ _ (with_reader false None k) (put_lookup r h k _ Ek)).
    + cbn [mbind option_bind]. by rewrite put_put.
    + cbn [done_ put]. rewrite Hd, orb_true_r. done.
  - exists [], k. rewrite put_same by done. split_and!; [done|simpl; lia|done..].
Qed.
Lemma stop_conn r h k : done_ r = true → heap r !! h = Some k → c_closed k = true →
  ∃ es k', steps r es = Some (put r h k') ∧ (length es ≤ 3)%nat ∧ stopped k' ∧ c_closed k' = true.
Proof.
  intros Hd Ek Hc. destruct (stop_reader r h k Hd Ek) as (es & k1 & E & L & Hr & Hp & Hcl). rewrite Hc in Hcl. destruct (pumping k1) eqn:Ep.
  - exists (es ++ [PumpStop h]), (with_pump false [] (out k1) k1). split_and!; [|rewrite length_app; simpl; lia|done|done].
    rewrite (steps_app _ _ _ _ E). cbn [steps step]. rewrite (at_conn_put _ h _ _ (with_pump false [] (out k1) k1) (put_lookup r h k _ Ek)).
    + cbn [mbind option_bind]. by rewrite put_put.
    + unfold pump. rewrite Ep, Hcl. done.
  - exists es, k1. split_and!; [done|lia|done|done].
Qed.
Lemma stop_prefix r n : done_ r = true → Forall (λ k, c_closed k = true) (heap r) → (n ≤ length (heap r))%nat →
  ∃ es r', steps r es = Some r' ∧ (length es ≤ 3 * n)%nat ∧ running r' = running r ∧ done_ r' = true ∧ length (heap r') = length (heap r) ∧
    Forall (λ k, c_closed k = true) (heap r') ∧ Forall stopped (take n (heap r')).
Proof.
  intros Hd Hc. induction n as [|n IH]; intros Hn.
  - by exists [], r.
  - destruct IH as (es & r1 & E & L & Hrun & Hd1 & Hl & Hc1 & Hs); [lia|].
    destruct (heap r1 !! n) as [k|] eqn:Ek; [|apply lookup_ge_None in Ek; lia]. destruct (stop_conn r1 n k Hd1 Ek) as (es' & k' & E' & L' & Hk & Hck).
    { rewrite Forall_forall in Hc1. apply Hc1. by eapply list_elem_of_lookup_2. }
    exists (es ++ es'), (put r1 n k'). split_and!; [by rewrite (steps_app _ _ _ _ E)|rewrite length_app; lia|done|done|cbn; rewrite length_insert; lia|by apply Forall_insert|].
    cbn. rewrite (take_S_r _ _ k') by (rewrite list_lookup_insert_eq; [done|lia]). rewrite take_insert_ge by lia. by apply Forall_app_2; [|apply Forall_singleton].
Qed.
Lemma close_stops r : room_ok r → ∃ es r', steps r (Close :: es) = Some r' ∧ (length es ≤ S (3 * length (heap r)))%nat ∧ running r' = false ∧ Forall stopped (heap r').
Proof.
  intros Hr. set (r1 := mkRoom (owner r) (heap r) true (running r)). assert (Hr1 : room_ok r1) by by apply (room_step_ok r Close).
  assert (∃ es r2, steps r1 es = Some r2 ∧ (length es ≤ 1)%nat ∧ running r2 = false ∧ done_ r2 = true ∧ length (heap r2) = length (heap r)) as (es & r2 & E & L & Hrun & Hd & Hl).
  { destruct (running r) eqn:Er; [|exists [], r1; split_and!; [done|simpl; lia|done..]]. destruct (shutdown_ok (owner r1, heap r1) (ro_owner r1 Hr1)) as (hp' & E & L & _ & _).
    eexists [Shutdown], _. cbn [steps step]. change (done_ r1 && running r1) with true. cbv iota. rewrite E. split_and!; [reflexivity|simpl; lia|done|done|exact L]. }
  assert (Hr2 : room_ok r2) by by eapply room_steps_ok. destruct (stop_prefix r2 (length (heap r2)) Hd) as (es' & r3 & E' & L' & Hrun' & _ & Hl' & _ & Hs).
  - apply Forall_forall. intros k (h & Ek)%list_elem_of_lookup. destruct (c_closed k) eqn:Hc; [done|]. pose proof (ow_registered _ (ro_owner r2 Hr2) h k Ek Hc) as Hx. cbn in Hx.
    destruct (ro_stopped r2 Hr2 Hrun) as [E0 _]. rewrite E0, lookup_empty in Hx. done.
  - lia.
  - exists (es ++ es'), r3. cbn [steps step]. split_and!; [|rewrite length_app; lia|congruence|].
    + cbn [mbind option_bind]. fold r1. by rewrite (steps_app _ _ _ _ E).
    + rewrite <-Hl', firstn_all in Hs. done.
Qed.

(** ** What the room promises *)

(** C19: a client's frames are the room.  In a run in which the owner executes no
    frame of a connection it has already dropped, the client on a joined connection
    that follows the frames fed to it (welcome, joined, left) knows exactly the
    other members, and every joined connection is live; the roster lists each
    member once, in order, and [Size] counts it. *)
Theorem Room_views_track_roster md es r : (∀ l, ord l ≡ₚ l) → orderly (NewSignalingRoom md) es = true → steps (NewSignalingRoom md) es = Some r → running r = true →
  (∀ c p, connToPeer (owner r) !! c = Some p →
     ∃ h k, conns (owner r) !! c = Some h ∧ heap r !! h = Some k ∧ c_connID k = c ∧ c_closed k = false ∧
       p ∈ Roster r ∧ view (fed k) = Some (p, list_to_set (Roster r) ∖ {[p]})) ∧
  (∀ p, p ∈ Roster r ↔ ∃ c, connToPeer (owner r) !! c = Some p) ∧ NoDup (Roster r) ∧ StronglySorted Z.le (Roster r) ∧ Size r = length (Roster r).
Proof.
  intros Hord Ho Es Hrun. pose proof (room_steps_ok es _ r (new_room_ok md) Es) as Hr. assert (Ht : tracked (owner r) (heap r)).
  { eapply (steps_tracked Hord es _ r (new_room_ok md)); [|done..]. intros _ c p Hc. cbn in Hc. by rewrite lookup_empty in Hc. }
  unfold Roster, Size. rewrite Hrun. assert (Hset : list_to_set (roster (owner r)) = dom (peerToConn (owner r))).
  { apply set_eq. intros p. by rewrite elem_of_list_to_set, roster_elem, elem_of_dom. }
  pose proof (rg_inverse _ (ow_registry _ (ro_owner r Hr))) as Hi. cbn in Hi. split_and!.
  - intros c p Hc. destruct (Ht c p Hc) as (h & k & Eh & Ek & Ev). exists h, k. destruct (ow_open _ (ro_owner r Hr) c h Eh) as (k0 & Ek0 & Hid & Hcl & _). cbn in Ek0.
    replace k0 with k in * by congruence. split_and!; [done..| |by rewrite Hset]. apply roster_elem. exists c. by apply Hi.
  - intros p. rewrite roster_elem. split; intros [c Hc]; exists c; by apply Hi.
  - unfold roster, peers_sorted. rewrite merge_sort_Permutation. apply NoDup_elements.
  - unfold roster, peers_sorted. apply (StronglySorted_merge_sort Z.le).
  - unfold roster, peers_sorted. rewrite merge_sort_Permutation. by rewrite <-(size_dom (peerToConn (owner r))).
Qed.

(** C20: a sender cannot name itself.  A directed frame leaves the registry as it is and
    has one effect: it reaches the target, stamped with the peer its connection's id is
    registered as, if that peer has joined, may signal the target, and the target is in
    the session; else the sender, and nobody else, is told the first of these that
    fails.  In any state and at any event, whatever is fed to a connection under the
    name of a peer was sent on a connection of the id that is registered as that peer,
    was meant for the peer the receiver joined as, and was granted; and when the owner
    has not dropped that connection, it is the very one registered.  A frame that a
    reader held when its connection was dropped is routed by the id all the same, and
    then goes out under the name of whoever connected under the id again
    ([stale_offer_names_successor]); an orderly run has no such event. *)
Theorem Room_no_spoofing md es r : steps (NewSignalingRoom md) es = Some r →
  (∀ h k m to build, running r = true → heap r !! h = Some k → held k = Some m → directed_to m = Some (to, build) →
     let a := answer (owner r) (c_connID k) to build in
     ∃ r', step r (Receive h) = Some r' ∧ owner r' = owner r ∧ fed_only r r' a.1 a.2) ∧
  (∀ e r' h k k' new msg p, step r e = Some r' → heap r !! h = Some k → heap r' !! h = Some k' → fed k' = fed k ++ new → msg ∈ new → From_of msg = Some p →
     ∃ h0 k0 m to build, e = Receive h0 ∧ heap r !! h0 = Some k0 ∧ held k0 = Some m ∧ directed_to m = Some (to, build) ∧
       connToPeer (owner r) !! c_connID k0 = Some p ∧ msg = build p ∧ granted (owner r) p to ∧ connToPeer (owner r) !! c_connID k = Some to ∧
       (in_order r e = true → conns (owner r) !! c_connID k0 = Some h0)).
Proof.
  intros Es. pose proof (room_steps_ok es _ r (new_room_ok md) Es) as Hr. split.
  - intros h k m to build Hrun Ek Em Hm a. destruct (Receive_runs r h k m Hr Hrun Ek Em) as (r' & E & Eo & L & H1). rewrite (route_directed _ _ _ _ _ Hm) in Eo, H1.
    exists r'. split; [done|]. split; [exact Eo|]. split; [done|]. intros h' k0 Ek0. destruct (H1 h' k0 Ek0) as (k' & Ek' & Eout & Ef). exists k'. split_and!; [done|done|].
    rewrite Ef. cbn [snd]. rewrite sent_cons. unfold sent. cbn. by rewrite app_nil_r.
  - intros e r' h k k' new msg p Ee Ek Ek' Ef Hin Hp. destruct (step_feeds r e r' h k k' new Hr Ee Ek Ek' Ef) as [->|[(c & -> & ->)|(h0 & k0 & m & -> & Ek0 & Em & ->)]].
    + set_solver.
    + apply elem_of_sent in Hin as (f & Hf & _ & <-). apply leave_names in Hf. congruence.
    + apply elem_of_sent in Hin as (f & Hf & Hh & <-). destruct (route_names _ _ _ _ Hf) as (to & build & Hm); [eauto|].
      rewrite (route_directed _ _ _ _ _ Hm) in Hf. apply list_elem_of_singleton in Hf as ->. cbn in Hh, Hp.
      destruct (answer_names _ _ _ _ _ _ Hm Hp) as (H1 & H2 & H3 & H4). exists h0, k0, m, to, build. split_and!; [done..| |].
      2: { cbn. rewrite Ek0. intros Ho%negb_true_iff. exact (ow_registered _ (ro_owner r Hr) h0 k0 Ek0 Ho). }
      apply (rg_inverse _ (ow_registry _ (ro_owner r Hr))) in H3. cbn in H3. destruct (ow_open _ (ro_owner r Hr) _ h Hh) as (k1 & Ek1 & Hid & _). cbn in Ek1. congruence.
Qed.

Definition owner_event (r : SignalingRoom) (e : event) : Prop :=
  match e with
  | Connect _ | Disconnect _ | Grant _ | GrantSignal _ _ => True
  | Receive h => ∃ k m, heap r !! h = Some k ∧ held k = Some m
  | _ => False
  end.

(** The room survives any interleaving.  Connections and peers stay in
    one-to-one correspondence and an allowlist is kept; a command never panics,
    sends on a closed channel or waits for a pump that has gone; and from any state
    closing the room stops every goroutine within three moves a connection and one
    of the owner. *)
Theorem Room_survives md es r : steps (NewSignalingRoom md) es = Some r →
  registry_ok (owner r) ∧ (running r = true → ∀ e, owner_event r e → is_Some (step r e)) ∧
  ∃ es' r', steps r (Close :: es') = Some r' ∧ (length es' ≤ S (3 * length (heap r)))%nat ∧ running r' = false ∧ Forall stopped (heap r').
Proof.
  intros Es. pose proof (room_steps_ok es _ r (new_room_ok md) Es) as Hr. split_and!; [apply Hr| |by apply close_stops].
  intros Hrun e He. destruct e as [c|c|p|p q|h|h m|h|h|h|h|h| |]; cbn [step owner_event] in *; try done; unfold command; rewrite ?Hrun; try by eexists.
  - destruct (from_option _ _ _) as [o hp]. by eexists.
  - destruct (disconnect_ok (owner r, heap r) c (ro_owner r Hr)) as (hp' & E & _). rewrite E. by eexists.
  - destruct He as (k & m & Ek & Em). destruct (Receive_runs r h k m Hr Hrun Ek Em) as (r' & E & _). exists r'. cbn [step] in E. unfold command in E. rewrite Hrun in E. exact E.
Qed.
End room.

(** ** Concrete runs *)

Abbreviation srun es := (steps (λ l : list nat, l) (NewSignalingRoom SignalingModeOpen) es).
(** Two clients join, the first makes the second an offer, which its reader holds. *)
Definition s_events : list (@event nat) :=
  [Connect 1%nat; Connect 2%nat; Send 0%nat (ClientJoin 10 None); Receive 0%nat; Send 1%nat (ClientJoin 20 None); Receive 1%nat; Deliver 0%nat;
   Send 0%nat (ClientOffer 20 (key "sdp"))].
Definition s_room : @SignalingRoom nat _ _ := default (NewSignalingRoom SignalingModeOpen) (srun s_events).
Lemma s_run : srun s_events = Some s_room.
Proof. vm_compute. exact eq_refl. Qed.
Definition conn_at (r : @SignalingRoom nat _ _) (h : nat) : ClientConn := default (mkConn 0%nat false None true false [] []) (heap r !! h).
Lemma s_conns : heap s_room !! 0%nat = Some (conn_at s_room 0) ∧ held (conn_at s_room 0) = Some (ClientOffer 20 (key "sdp")) ∧
  heap s_room !! 1%nat = Some (conn_at s_room 1).
Proof. split_and!; vm_compute; exact eq_refl. Qed.

Example s_fed : fed (conn_at s_room 0) = [ServerWelcome 10 []; ServerPeerJoined 20] ∧ fed (conn_at s_room 1) = [ServerWelcome 20 [10]].
Proof. split; vm_compute; exact eq_refl. Qed.

Lemma Room_views_track_roster_witness : ∃ h k, conns (owner s_room) !! 2%nat = Some h ∧ heap s_room !! h = Some k ∧ view (fed k) = Some (20, list_to_set (Roster s_room) ∖ {[20]}).
Proof.
  destruct (Room_views_track_roster (λ l, l) SignalingModeOpen s_events s_room) as [H1 _].
  - done.
  - vm_compute. exact eq_refl.
  - exact s_run.
  - vm_compute. exact eq_refl.
  - destruct (H1 2%nat 20) as (h & k & E1 & E2 & _ & _ & _ & E3); [vm_compute; exact eq_refl|]. exists h, k. exact (conj E1 (conj E2 E3)).
Defined.
Lemma Room_no_spoofing_witness :
  ∃ r', step (λ l, l) s_room (Receive 0) = Some r' ∧ fed_only s_room r' 2%nat (ServerOffer 10 (key "sdp")).
Proof.
  destruct (Room_no_spoofing (λ l, l) SignalingModeOpen s_events s_room s_run) as [H1 _]. destruct s_conns as (E1 & E2 & _).
  destruct (H1 0%nat _ _ 20 (λ from, ServerOffer from (key "sdp")) ltac:(vm_compute; exact eq_refl) E1 E2 ltac:(reflexivity)) as (r' & E & _ & Hf).
  exists r'. split; [exact E|]. replace (answer _ _ _ _) with (2%nat, ServerOffer 10 (key "sdp")) in Hf by (vm_compute; exact eq_refl). exact Hf.
Defined.
Lemma Room_survives_witness : is_Some (step (λ l, l) s_room (Disconnect 1%nat)) ∧
  ∃ es' r', steps (λ l, l) s_room (Close :: es') = Some r' ∧ running r' = false ∧ Forall stopped (heap r').
Proof.
  destruct (Room_survives (λ l, l) SignalingModeOpen s_events s_room s_run) as (_ & H1 & es' & r' & E & _ & E1 & E2). split.
  - apply H1; [vm_compute; exact eq_refl|exact I].
  - exists es', r'. exact (conj E (conj E1 E2)).
Defined.

(** ** Where the room departs from what it says *)

(** A reader that holds a join when its connection is dropped still dispatches it:
    the peer is in the roster with no connection behind it, stays there, and nobody
    can join as that peer. *)
Definition ghost_events : list (@event nat) := [Connect 1%nat; Send 0%nat (ClientJoin 10 None); Disconnect 1%nat; Receive 0%nat].
Lemma stale_join_leaves_ghost :
  ∃ r, srun (ghost_events ++ [Connect 2%nat; Send 1%nat (ClientJoin 10 None); Receive 1%nat]) = Some r ∧
    Roster r = [10] ∧ conns (owner r) !! 1%nat = None ∧ connToPeer (owner r) !! 1%nat = Some 10 ∧
    fed (conn_at r 1) = [newServerError SignalingErrorDuplicatePeer (key "peer 10 is already in this session")].
Proof. eexists. split; [vm_compute; exact eq_refl|]. split_and!; vm_compute; exact eq_refl. Qed.
(** When the id has been connected again, the stale join joins the new connection. *)
Lemma stale_join_hits_successor :
  ∃ r, srun [Connect 1%nat; Send 0%nat (ClientJoin 10 None); Disconnect 1%nat; Connect 1%nat; Receive 0%nat] = Some r ∧ fed (conn_at r 1) = [ServerWelcome 10 []].
Proof. eexists. split; vm_compute; exact eq_refl. Qed.
(** And so does a stale offer: peer 10 is fed an offer of peer 30, who never made one,
    from a connection that was peer 20's. *)
Definition stale_offer_events : list (@event nat) :=
  [Connect 1%nat; Connect 2%nat; Send 0%nat (ClientJoin 10 None); Receive 0%nat; Send 1%nat (ClientJoin 20 None); Receive 1%nat;
   Send 1%nat (ClientOffer 10 (key "sdp")); Disconnect 2%nat; Connect 2%nat; Send 2%nat (ClientJoin 30 None); Receive 2%nat; Receive 1%nat].
Lemma stale_offer_names_successor :
  orderly (λ l : list nat, l) (NewSignalingRoom SignalingModeOpen) stale_offer_events = false ∧
  ∃ r, srun stale_offer_events = Some r ∧ last (fed (conn_at r 0)) = Some (ServerOffer 30 (key "sdp")).
Proof. split; [vm_compute; exact eq_refl|]. eexists. split; vm_compute; exact eq_refl. Qed.
(** A pump whose [feed] is closed stops with frames in its buffer. *)
Lemma teardown_drops_frames :
  ∃ r, srun [Connect 1%nat; Send 0%nat (ClientJoin 10 None); Receive 0%nat; Disconnect 1%nat; PumpStop 0%nat] = Some r ∧
    out (conn_at r 0) = [] ∧ pumping (conn_at r 0) = false.
Proof. eexists. split; [vm_compute; exact eq_refl|]. split; vm_compute; exact eq_refl. Qed.
