(* ===== verification/StableId.v ===== *)
(** * StableId: identity for blocks of text (stable_id.go)

    A string is the list of its code points.  A similarity is the quotient of two
    counts of words; its float64 is compared as the rational itself, which is what
    float division gives for counts below 2^26: quotients of such counts that
    differ do so by more than a rounding. *)

From Stdlib Require Import QArith.
From S2P Require Import Prelude Wire.
Local Open Scope Z_scope.

(** ** Blocks and keys *)

Definition text : Type := list Z.
(** [stable_id.go] [type Block] *)
Record Block := mkBlock { Text : text; Anchor : option text }.
(** [stable_id.go] [NewBlock] *)
Definition NewBlock (t : text) : Block := mkBlock t None.
(** [stable_id.go] [NewAnchoredBlock] *)
Definition NewAnchoredBlock (anchor t : text) : Block := mkBlock t (Some anchor).
(** [stable_id.go] [type BlockKey] *)
Inductive BlockKey :=
  | AnchoredBlockKey (AnchorValue : text)
  | ContentBlockKey (ContentValue : Z).
(** [stable_id.go] [BlockKey.IsAnchored] *)
Definition IsAnchored (k : BlockKey) : bool := match k with AnchoredBlockKey _ => true | _ => false end.
(** [stable_id.go] [BlockKey.IsContent] *)
Definition IsContent (k : BlockKey) : bool := negb (IsAnchored k).
(** [stable_id.go] [BlockKey.Equals] *)
Definition Equals (a b : BlockKey) : bool :=
  match a, b with
  | AnchoredBlockKey x, AnchoredBlockKey y => bool_decide (x = y)
  | ContentBlockKey x, ContentBlockKey y => x =? y
  | _, _ => false
  end.
Definition hex_digit (d : Z) : Z := if d <? 10 then 48 + d else 87 + d.
(** The format [%016x]. *)
Definition hex16 (n : Z) : text := map (λ i, hex_digit (Z.land (Z.shiftr n (4 * Z.of_nat i)) 15)) (reverse (seq 0 16)).
(** [stable_id.go] [BlockKey.AsString] *)
Definition AsString (k : BlockKey) : text :=
  match k with AnchoredBlockKey a => key "a:" ++ a | ContentBlockKey n => key "c:" ++ hex16 n end.

(** ** Words and the content hash *)

(** The class [\s] of the regexp package. *)
Definition is_space (c : Z) : bool := existsb (Z.eqb c) [9; 10; 12; 13; 32].
(** [whitespaceRe.Split]: the pieces between the runs of spaces; [run] is that the
    last character was a space. *)
Fixpoint Split (run : bool) (cur s : text) : list text :=
  match s with
  | [] => [cur]
  | c :: s => if is_space c then if run then Split true [] s else cur :: Split true [] s else Split false (cur ++ [c]) s
  end.
Definition nonempty (w : text) : Prop := w ≠ [].
#[export] Instance nonempty_dec w : Decision (nonempty w).
Proof. unfold nonempty. apply _. Defined.
(** [stable_id.go] [tokenize] *)
Definition tokenize (s : text) : list text := filter nonempty (Split false [] s).
(** [strings.Join] with one space. *)
Fixpoint Join (ws : list text) : text := match ws with [] => [] | [w] => w | w :: ws => w ++ 32 :: Join ws end.
(** [stable_id.go] [Normalize] *)
Definition Normalize (t : text) : text := Join (filter nonempty (Split false [] t)).
(** [utf16.Encode]. *)
Definition utf16 (r : Z) : list Z :=
  if (0 <=? r) && (r <? 55296) || (57344 <=? r) && (r <? 65536) then [r]
  else if (65536 <=? r) && (r <=? 1114111) then
    let r := r - 65536 in [Z.lor 55296 (Z.land (Z.shiftr r 10) 1023); Z.lor 56320 (Z.land r 1023)]
  else [65533].
(** The loop over the code units.
    [stable_id.go] [lines 139-150 utf8Bytes] *)
Definition unit_bytes (r : Z) : list Z :=
  if r <? 128 then [r]
  else if r <? 2048 then [Z.lor 192 (Z.shiftr r 6); Z.lor 128 (Z.land r 63)]
  else [Z.lor 224 (Z.shiftr r 12); Z.lor 128 (Z.land (Z.shiftr r 6) 63); Z.lor 128 (Z.land r 63)].
(** [stable_id.go] [utf8Bytes] *)
Definition utf8Bytes (s : text) : list Z := mjoin (map unit_bytes (mjoin (map utf16 s))).
(** [stable_id.go] [ContentHash] *)
Definition ContentHash (t : text) : Z :=
  foldl (λ hash b, Z.lxor hash b *ᵤ 1099511628211) 14695981039346656037 (utf8Bytes (Normalize t)).
(** [stable_id.go] [BlockKeyOf] *)
Definition BlockKeyOf (b : Block) : BlockKey :=
  match Anchor b with Some a => AnchoredBlockKey a | None => ContentBlockKey (ContentHash (Text b)) end.

(** ** Similarity *)

(** One row of the table, from the left: [diag], the head of [prev] and [left] are
    [prev[j-1]], [prev[j]] and [curr[j-1]].
    [stable_id.go] [lines 171-180 lcsLen] *)
Fixpoint lcs_row (x : text) (b : list text) (diag : nat) (prev : list nat) (left : nat) : list nat :=
  match b, prev with
  | y :: b, up :: prev =>
      let v := if decide (x = y) then S diag else if (left <? up)%nat then up else left in
      v :: lcs_row x b up prev v
  | _, _ => []
  end.
(** [stable_id.go] [lcsLen] *)
Definition lcsLen (a b : list text) : nat :=
  match a, b with
  | [], _ | _, [] => O
  | _, _ => default O (last (foldl (λ prev x, O :: lcs_row x b (hd O prev) (tl prev) O) (replicate (S (length b)) O) a))
  end.
(** [stable_id.go] [Similarity] *)
Definition Similarity (a b : text) : Q :=
  let ta := tokenize a in let tb := tokenize b in
  match ta, tb with
  | [], [] => 1
  | [], _ | _, [] => 0
  | _, _ => Z.of_nat (2 * lcsLen ta tb) # Pos.of_nat (length ta + length tb)
  end.
(** [stable_id.go] [lines 24-26 EditThreshold] *)
Definition EditThreshold : Q := 1 # 2.

(** ** Alignment *)

(** [stable_id.go] [type Match] *)
Inductive Match := MatchSame (oldIndex : nat) | MatchEdited (oldIndex : nat) (similarity : Q) | MatchInserted.
(** [stable_id.go] [type Alignment] *)
Record Alignment := mkAlignment { NewMatches : list Match; Removed : list nat }.

(** The lowest unused old index with an equal key.
    [stable_id.go] [lines 276-283 Align] *)
Fixpoint first_equal (k : BlockKey) (oldKeys : list BlockKey) (oldUsed : list bool) (oi : nat) : option nat :=
  match oldKeys, oldUsed with
  | k' :: oldKeys, u :: oldUsed => if negb u && Equals k k' then Some oi else first_equal k oldKeys oldUsed (S oi)
  | _, _ => None
  end.
(** [stable_id.go] [lines 274-284 Align] *)
Fixpoint pass1 (oldKeys newKeys : list BlockKey) (oldUsed : list bool) : list (option nat) * list bool :=
  match newKeys with
  | [] => ([], oldUsed)
  | k :: newKeys =>
      let m := first_equal k oldKeys oldUsed 0 in
      let '(ms, oldUsed) := pass1 oldKeys newKeys (match m with Some oi => <[oi := true]> oldUsed | None => oldUsed end) in
      (m :: ms, oldUsed)
  end.
Definition Qgt_bool (x y : Q) : bool := negb (Qle_bool x y).
(** The best candidate so far: index, similarity, distance. *)
Definition best : Type := option nat * Q * Z.
(** [stable_id.go] [lines 295-307 Align] *)
Definition consider (ni : nat) (new : Block) (b : best) (oi : nat) (old : Block) (used : bool) : best :=
  if used then b
  else
    let '(bestOi, bestSim, bestDist) := b in
    let sim := Similarity (Text new) (Text old) in
    let dist := Z.abs (Z.of_nat oi - Z.of_nat ni) in
    if Qgt_bool sim bestSim || (Qeq_bool sim bestSim && Qle_bool EditThreshold sim && (dist <? bestDist)) then (Some oi, sim, dist) else b.
(** [stable_id.go] [lines 291-308 Align] *)
Fixpoint best_match (ni : nat) (new : Block) (olds : list Block) (oldUsed : list bool) (oi : nat) (b : best) : best :=
  match olds, oldUsed with
  | old :: olds, u :: oldUsed => best_match ni new olds oldUsed (S oi) (consider ni new b oi old u)
  | _, _ => b
  end.
(** [stable_id.go] [lines 286-316 Align] *)
Fixpoint pass2 (olds news : list Block) (ms : list (option nat)) (ni : nat) (oldUsed : list bool) : list Match * list bool :=
  match news, ms with
  | new :: news, Some oi :: ms => let '(r, oldUsed) := pass2 olds news ms (S ni) oldUsed in (MatchSame oi :: r, oldUsed)
  | new :: news, None :: ms =>
      let '(bestOi, bestSim, _) := best_match ni new olds oldUsed 0 (None, 0%Q, max_i64) in
      match bestOi with
      | Some oi =>
          if Qle_bool EditThreshold bestSim then
            let '(r, oldUsed) := pass2 olds news ms (S ni) (<[oi := true]> oldUsed) in (MatchEdited oi bestSim :: r, oldUsed)
          else let '(r, oldUsed) := pass2 olds news ms (S ni) oldUsed in (MatchInserted :: r, oldUsed)
      | None => let '(r, oldUsed) := pass2 olds news ms (S ni) oldUsed in (MatchInserted :: r, oldUsed)
      end
  | _, _ => ([], oldUsed)
  end.
(** [stable_id.go] [lines 318-323 Align] *)
Definition unused (oldUsed : list bool) : list nat := filter (λ oi, oldUsed !! oi = Some false) (seq 0 (length oldUsed)).
(** [stable_id.go] [Align] *)
Definition Align (oldBlocks newBlocks : list Block) : Alignment :=
  let oldKeys := map BlockKeyOf oldBlocks in
  let newKeys := map BlockKeyOf newBlocks in
  let '(ms, oldUsed) := pass1 oldKeys newKeys (replicate (length oldBlocks) false) in
  let '(matches, oldUsed) := pass2 oldBlocks newBlocks ms 0 oldUsed in
  mkAlignment matches (unused oldUsed).
(** [None] is an index out of range.
    [stable_id.go] [AssignStableKeys] *)
Definition AssignStableKeys (oldBlocks newBlocks : list Block) : option (list text) :=
  let alignment := Align oldBlocks newBlocks in
  mapM (λ '(new, m), match m with
                     | MatchInserted => Some (AsString (BlockKeyOf new))
                     | MatchSame oi | MatchEdited oi _ => old ← oldBlocks !! oi; Some (AsString (BlockKeyOf old))
                     end) (zip newBlocks (NewMatches alignment)).

Example hash_empty : ContentHash [] = 14695981039346656037.
Proof. reflexivity. Qed.
Example key_hello : AsString (BlockKeyOf (NewBlock (key "a"))) = key "c:af63dc4c8601ec8c".
Proof. vm_compute. reflexivity. Qed.

(** ** The longest common subsequence *)

(** The recurrence, on the words read so far, last first. *)
Fixpoint lc (a : list text) : list text → nat :=
  match a with
  | [] => λ _, O
  | x :: a' => fix go b := match b with [] => O | y :: b' => if decide (x = y) then S (lc a' b') else Nat.max (lc a' (y :: b')) (go b') end
  end.
(** The prefixes of [b] after [rb], reversed. *)
Fixpoint pre (rb b : list text) : list (list text) := match b with [] => [] | y :: b => (y :: rb) :: pre (y :: rb) b end.

Lemma lc_nil_r a : lc a [] = O.
Proof. by destruct a. Qed.
Lemma lc_cons x a y b : lc (x :: a) (y :: b) = if decide (x = y) then S (lc a b) else Nat.max (lc a (y :: b)) (lc (x :: a) b).
Proof. done. Qed.
Lemma row_ok x ra b rb : lcs_row x b (lc ra rb) (lc ra <$> pre rb b) (lc (x :: ra) rb) = lc (x :: ra) <$> pre rb b.
Proof.
  revert rb. induction b as [|y b IH]; intros rb; [done|]. cbn [pre lcs_row]. rewrite !fmap_cons.
  assert (E : (if decide (x = y) then S (lc ra rb) else if (lc (x :: ra) rb <? lc ra (y :: rb))%nat then lc ra (y :: rb) else lc (x :: ra) rb) = lc (x :: ra) (y :: rb)).
  { rewrite lc_cons. case_decide; [done|]. destruct (Nat.ltb_spec (lc (x :: ra) rb) (lc ra (y :: rb))); lia. }
  rewrite E. f_equal. apply IH.
Qed.
Lemma rows_ok b a ra : foldl (λ prev x, O :: lcs_row x b (hd O prev) (tl prev) O) (O :: (lc ra <$> pre [] b)) a = O :: (lc (rev_append a ra) <$> pre [] b).
Proof.
  revert ra. induction a as [|x a IH]; intros ra; [done|]. cbn [foldl hd tl rev_append]. rewrite <-IH. f_equal. f_equal.
  pose proof (row_ok x ra b []) as R. rewrite !lc_nil_r in R. by rewrite R.
Qed.
Lemma pre_last b rb : b ≠ [] → last (pre rb b) = Some (rev_append b rb).
Proof.
  revert rb. induction b as [|y b IH]; intros rb Hb; [done|]. destruct b as [|z b]; [done|]. change (pre rb (y :: z :: b)) with ((y :: rb) :: pre (y :: rb) (z :: b)).
  rewrite last_cons, IH by done. done.
Qed.
Lemma pre_zero b rb : lc [] <$> pre rb b = replicate (length b) O.
Proof. revert rb. induction b as [|y b IH]; intros rb; [done|]. cbn [pre length replicate]. rewrite fmap_cons, IH. done. Qed.
Lemma lcsLen_lc a b : lcsLen a b = lc (reverse a) (reverse b).
Proof.
  unfold lcsLen. destruct a as [|x a]; [done|]. destruct b as [|y b]; [by rewrite reverse_nil, lc_nil_r|].
  change (replicate (S (length (y :: b))) O) with (O :: replicate (length (y :: b)) O). rewrite <-(pre_zero (y :: b) []), rows_ok, last_cons, fmap_last, pre_last by done. done.
Qed.

Lemma lc_common a b : ∃ s, s `sublist_of` a ∧ s `sublist_of` b ∧ length s = lc a b.
Proof.
  revert b. induction a as [|x a IH]; intros b; [exists []; split_and!; [constructor|apply sublist_nil_l|done]|]. induction b as [|y b IHb].
  - exists []. split_and!; [apply sublist_nil_l|constructor|done].
  - rewrite lc_cons. destruct (decide (x = y)) as [<-|Hne].
    + destruct (IH b) as (s & H1 & H2 & H3). exists (x :: s). split_and!; [by apply sublist_skip|by apply sublist_skip|simpl; by f_equal].
    + destruct (IH (y :: b)) as (s & H1 & H2 & H3), IHb as (s' & H1' & H2' & H3'). destruct (Nat.max_spec (lc a (y :: b)) (lc (x :: a) b)) as [[_ ->]|[_ ->]].
      * exists s'. split_and!; [done|by apply sublist_cons|done].
      * exists s. split_and!; [by apply sublist_cons|done|done].
Qed.
Lemma sublist_head {A} (z x : A) s l : (z :: s) `sublist_of` (x :: l) → s `sublist_of` l ∧ (z = x ∨ (z :: s) `sublist_of` l).
Proof.
  intros Hs. inversion Hs; subst; [by split; [|left]|]. split; [|by right]. etrans; [by apply sublist_cons|done].
Qed.
Lemma lc_max a b s : s `sublist_of` a → s `sublist_of` b → (length s ≤ lc a b)%nat.
Proof.
  revert b s. induction a as [|x a IH]; intros b s Ha Hb; [by apply sublist_nil_r in Ha as ->|]. revert s Ha Hb. induction b as [|y b IHb]; intros s Ha Hb; [by apply sublist_nil_r in Hb as ->|].
  rewrite lc_cons. destruct s as [|z s]; [simpl; lia|]. pose proof (sublist_head _ _ _ _ Ha) as [A1 A2]. pose proof (sublist_head _ _ _ _ Hb) as [B1 B2]. destruct (decide (x = y)) as [<-|Hne].
  - simpl. apply le_n_S. by apply IH.
  - destruct A2 as [->|A2]; [|pose proof (IH (y :: b) (z :: s) A2 Hb); lia]. destruct B2 as [->|B2]; [done|]. pose proof (IHb (x :: s) Ha B2). lia.
Qed.

Lemma sublist_rev {A} (s l : list A) : s `sublist_of` l → reverse s `sublist_of` reverse l.
Proof.
  induction 1 as [|x s l _ IH|x s l _ IH]; [constructor| |]; rewrite ?reverse_cons.
  - by apply sublist_app.
  - by apply sublist_inserts_r.
Qed.
(** The words of one text and of another, in order, that both have. *)
Definition common (s a b : list text) : Prop := s `sublist_of` a ∧ s `sublist_of` b.
Lemma lcs_common a b : ∃ s, common s a b ∧ length s = lcsLen a b.
Proof.
  rewrite lcsLen_lc. destruct (lc_common (reverse a) (reverse b)) as (s & H1 & H2 & H3). exists (reverse s). split; [split|by rewrite length_reverse].
  - rewrite <-(reverse_involutive a). by apply sublist_rev.
  - rewrite <-(reverse_involutive b). by apply sublist_rev.
Qed.
Lemma lcs_max s a b : common s a b → (length s ≤ lcsLen a b)%nat.
Proof. intros [H1 H2]. rewrite lcsLen_lc, <-(length_reverse s). apply lc_max; by apply sublist_rev. Qed.

(** ** Words *)

Definition word (w : text) : Prop := w ≠ [] ∧ Forall (λ c, is_space c = false) w.
Lemma split_word run cur w s : Forall (λ c, is_space c = false) w → Split run cur (w ++ s) = Split (match w with [] => run | _ => false end) (cur ++ w) s.
Proof.
  intros Hw. induction Hw as [|c w Hc Hw IH] in run, cur |-*; [by rewrite app_nil_r|]. cbn [app Split]. rewrite Hc, IH, <-app_assoc. by destruct w.
Qed.
Lemma split_words run cur s : Forall (λ c, is_space c = false) cur → Forall (λ w, Forall (λ c, is_space c = false) w) (Split run cur s).
Proof.
  intros Hcur. induction s as [|c s IH] in run, cur, Hcur |-*; cbn [Split]; [by apply Forall_singleton|]. destruct (is_space c) eqn:Hc.
  - destruct run; [by apply IH|]. constructor; [done|by apply IH].
  - apply IH. apply Forall_app. split; [done|by apply Forall_singleton].
Qed.
Lemma tokenize_words s : Forall word (tokenize s).
Proof.
  unfold tokenize. apply Forall_forall. intros w [Hn Hw]%list_elem_of_filter. split; [done|].
  pose proof (split_words false [] s (Forall_nil_2 _)) as H. rewrite Forall_forall in H. by apply H.
Qed.
Lemma split_join ws : Forall word ws → filter nonempty (Split false [] (Join ws)) = ws.
Proof.
  intros Hws. assert (∀ run cur, ws ≠ [] → cur = [] → filter nonempty (Split run cur (Join ws)) = ws) as H.
  - intros run cur Hne ->. clear Hne. revert run. induction Hws as [|w ws [Hn Hw] Hws IH]; intros run; [done|]. destruct ws as [|w' ws].
    + cbn [Join]. rewrite <-(app_nil_r w) at 1. rewrite split_word by done. cbn [Split app]. rewrite filter_cons, decide_True by done. done.
    + change (Join (w :: w' :: ws)) with (w ++ 32 :: Join (w' :: ws)). rewrite split_word by done. cbn [app].
      replace (match w with [] => run | _ :: _ => false end) with false by by destruct w. cbn [Split]. change (is_space 32) with true. cbv iota.
      rewrite filter_cons, decide_True by done. f_equal. apply IH.
  - destruct ws as [|w ws]; [done|]. by apply H.
Qed.

Lemma normalize_words s : tokenize (Normalize s) = tokenize s.
Proof. exact (split_join (tokenize s) (tokenize_words s)). Qed.
Lemma normalize_same a b : Normalize a = Normalize b ↔ tokenize a = tokenize b.
Proof.
  split; [intros E; by rewrite <-normalize_words, E, normalize_words|]. intros E. unfold Normalize. fold (tokenize a) (tokenize b). by rewrite E.
Qed.

Lemma sublist_whole {A} (s l : list A) : s `sublist_of` l → (length l ≤ length s)%nat → s = l.
Proof.
  induction 1 as [|x s l Hs IH|x s l Hs IH]; [done| |]; simpl; intros Hl.
  - f_equal. apply IH. lia.
  - apply sublist_length in Hs. lia.
Qed.
Lemma lcs_bounds a b : (lcsLen a b ≤ length a)%nat ∧ (lcsLen a b ≤ length b)%nat.
Proof. destruct (lcs_common a b) as (s & [H1 H2] & <-). split; by apply sublist_length. Qed.
Lemma lcs_sym a b : lcsLen a b = lcsLen b a.
Proof.
  assert (∀ a b, (lcsLen a b ≤ lcsLen b a)%nat) as H; [|pose proof (H a b); pose proof (H b a); lia].
  intros a' b'. destruct (lcs_common a' b') as (s & [H1 H2] & <-). by apply lcs_max.
Qed.
Lemma lcs_same a b : lcsLen a b = length a → lcsLen a b = length b → a = b.
Proof.
  destruct (lcs_common a b) as (s & [H1 H2] & <-). intros Ha Hb. rewrite <-(sublist_whole s a H1), <-(sublist_whole s b H2) by lia. done.
Qed.
Lemma lcs_refl a : lcsLen a a = length a.
Proof. pose proof (lcs_bounds a a). pose proof (lcs_max a a a (conj (reflexivity _) (reflexivity _))). lia. Qed.

(** The quotient of the definition, for texts that are not both blank. *)
Lemma similarity_quotient a b : let ta := tokenize a in let tb := tokenize b in (0 < length ta + length tb)%nat →
  (Similarity a b == Z.of_nat (2 * lcsLen ta tb) # Pos.of_nat (length ta + length tb))%Q.
Proof.
  intros ta tb Hn. unfold Similarity. fold ta tb. clearbody ta tb.
  destruct ta as [|x ta], tb as [|y tb]; [simpl in Hn; lia|done..].
Qed.

Lemma similarity_blank a b : tokenize a = [] → tokenize b = [] → Similarity a b = 1%Q.
Proof. unfold Similarity. by intros -> ->. Qed.
Lemma similarity_words a b a' b' : tokenize a = tokenize a' → tokenize b = tokenize b' → Similarity a b = Similarity a' b'.
Proof. unfold Similarity. by intros -> ->. Qed.

(** C26: similarity is what it says.  The two rolling rows compute the length of a
    longest common subsequence of the two texts' words: some common subsequence has
    it and none is longer.  The similarity is twice that over the number of words,
    lies between 0 and 1, is symmetric, is 1 for texts with the same words and for
    no others, and does not see spacing. *)
Theorem Similarity_is_word_lcs a b : let ta := tokenize a in let tb := tokenize b in
  ((∃ s, common s ta tb ∧ length s = lcsLen ta tb) ∧ ∀ s, common s ta tb → (length s ≤ lcsLen ta tb)%nat) ∧
  (if decide (ta = [] ∧ tb = []) then Similarity a b == 1 else Similarity a b == Z.of_nat (2 * lcsLen ta tb) # Pos.of_nat (length ta + length tb))%Q ∧
  (0 <= Similarity a b <= 1)%Q ∧ (Similarity a b == Similarity b a)%Q ∧ (Similarity a b == 1 ↔ ta = tb)%Q ∧
  Similarity (Normalize a) (Normalize b) = Similarity a b.
Proof.
  intros ta tb. pose proof (lcs_bounds ta tb) as [Ba Bb]. split; [split; [apply lcs_common|intros s; apply lcs_max]|].
  assert (Hw : Similarity (Normalize a) (Normalize b) = Similarity a b) by (apply similarity_words; apply normalize_words). rewrite Hw. clear Hw.
  case_decide as Hn.
  - destruct Hn as [Ea Eb]. rewrite !similarity_blank by done. split; [done|]. split; [by split; vm_compute|]. split; [done|]. split; [by rewrite Ea, Eb|done].
  - assert (Hl : (0 < length ta + length tb)%nat) by (destruct ta; [destruct tb; [by destruct Hn|]|]; simpl; lia).
    pose proof (similarity_quotient a b Hl) as E. pose proof (similarity_quotient b a) as E'. cbv zeta in E, E'. fold ta tb in E, E'. rewrite lcs_sym, (Nat.add_comm (length tb)) in E'. specialize (E' Hl).
    assert (Hp : Z.pos (Pos.of_nat (length ta + length tb)) = Z.of_nat (length ta + length tb)) by lia. rewrite E'. split; [exact E|]. split; [|split; [exact E|split; [|done]]].
    + rewrite E. unfold Qle. cbn -[Z.of_nat Nat.mul]. split; lia.
    + rewrite E. unfold Qeq. cbn -[Z.of_nat Nat.mul]. rewrite Hp. split.
      * intros Hx. apply lcs_same; lia.
      * intros Hx. rewrite <-Hx in *. rewrite lcs_refl. lia.
Qed.

(** ** Keys *)

Lemma hex_digit_inj a b : 0 ≤ a < 16 → 0 ≤ b < 16 → hex_digit a = hex_digit b → a = b.
Proof. unfold hex_digit. intros Ha Hb. destruct (Z.ltb_spec a 10), (Z.ltb_spec b 10); lia. Qed.
Lemma nibble_range n i : 0 ≤ Z.land (Z.shiftr n i) 15 < 16.
Proof. change 15 with (Z.ones 4). rewrite Z.land_ones by lia. by apply Z.mod_pos_bound. Qed.
Lemma nibbles_inj a b : is_u64 a → is_u64 b → (∀ i, (i < 16)%nat → Z.land (Z.shiftr a (4 * Z.of_nat i)) 15 = Z.land (Z.shiftr b (4 * Z.of_nat i)) 15) → a = b.
Proof.
  intros Ha Hb Hn. apply Z.bits_inj'. intros k Hk. destruct (Z.lt_ge_cases k 64) as [Hlt|Hge].
  - assert (0 ≤ k / 4 < 16) as Hq by (split; [apply Z.div_pos|apply Z.div_lt_upper_bound]; lia). specialize (Hn (Z.to_nat (k / 4)) ltac:(lia)). apply (f_equal (λ z, Z.testbit z (k mod 4))) in Hn.
    pose proof (Z.mod_pos_bound k 4 ltac:(lia)). pose proof (Z.div_mod k 4 ltac:(lia)). rewrite !Z.land_spec, !Z.shiftr_spec in Hn by lia.
    change 15 with (Z.ones 4) in Hn. rewrite Z.ones_spec_low, !andb_true_r in Hn by lia.
    replace (k mod 4 + 4 * Z.of_nat (Z.to_nat (k / 4))) with k in Hn by lia. exact Hn.
  - assert (Hbits : ∀ x, is_u64 x → Z.testbit x k = false).
    { intros x Hx. destruct (decide (x = 0)) as [->|]; [apply Z.bits_0|]. apply Z.bits_above_log2; [zrange|].
      assert (Z.log2 x < 64); [|lia]. apply Z.log2_lt_pow2; zrange. }
    by rewrite !Hbits.
Qed.
Lemma hex16_inj a b : is_u64 a → is_u64 b → hex16 a = hex16 b → a = b.
Proof.
  intros Ha Hb E. apply nibbles_inj; [done..|]. intros i Hi. unfold hex16 in E.
  assert (Hx : ∀ n, map (λ i, hex_digit (Z.land (Z.shiftr n (4 * Z.of_nat i)) 15)) (reverse (seq 0 16)) !! (15 - i)%nat = Some (hex_digit (Z.land (Z.shiftr n (4 * Z.of_nat i)) 15))).
  { intros n. change (map ?f ?l) with (f <$> l). rewrite list_lookup_fmap, reverse_lookup by (rewrite length_seq; lia). rewrite length_seq.
    replace (16 - S (15 - i))%nat with i by lia. rewrite lookup_seq_lt by lia. done. }
  pose proof (Hx a) as Xa. rewrite E, Hx in Xa. injection Xa as Xa. symmetry. apply hex_digit_inj; [apply nibble_range..|done].
Qed.
Lemma hash_u64 t : is_u64 (ContentHash t).
Proof.
  unfold ContentHash. assert (H : ∀ l h, is_u64 h → is_u64 (foldl (λ hash b, Z.lxor hash b *ᵤ 1099511628211) h l)).
  { induction l as [|b l IH]; intros h Hh; [done|]. apply IH. unfold is_u64, u64. by apply Z.mod_pos_bound. }
  by apply H.
Qed.
(** A key whose content value is a uint64. *)
Definition key_ok (k : BlockKey) : Prop := match k with AnchoredBlockKey _ => True | ContentBlockKey n => is_u64 n end.
Lemma block_key_ok b : key_ok (BlockKeyOf b).
Proof. unfold BlockKeyOf. destruct (Anchor b); [done|apply hash_u64]. Qed.
Lemma Equals_eq a b : Equals a b = true ↔ a = b.
Proof. destruct a, b; cbn; rewrite ?bool_decide_eq_true, ?Z.eqb_eq; split; congruence. Qed.
(** The two key spaces are apart, and keys are told apart by their strings. *)
Lemma AsString_inj a b : key_ok a → key_ok b → AsString a = AsString b → a = b.
Proof.
  destruct a as [x|n], b as [y|m]; cbn [AsString key_ok]; intros Ha Hb E.
  - apply app_inv_head in E. congruence.
  - cbn in E. discriminate E.
  - cbn in E. discriminate E.
  - apply app_inv_head in E. f_equal. by apply hex16_inj.
Qed.

(** ** The alignment *)

Lemma first_equal_ok k keys used oi : length used = length keys →
  match first_equal k keys used oi with
  | Some j => ∃ i k', j = (oi + i)%nat ∧ used !! i = Some false ∧ keys !! i = Some k' ∧ Equals k k' = true
  | None => ∀ i k', used !! i = Some false → keys !! i = Some k' → Equals k k' = false
  end.
Proof.
  revert used oi. induction keys as [|k0 keys IH]; intros [|u used] oi Hl; try done. cbn [first_equal]. injection Hl as Hl. destruct u; cbn [negb andb].
  - specialize (IH used (S oi) Hl). destruct (first_equal k keys used (S oi)).
    + destruct IH as (i & k' & -> & H1 & H2 & H3). exists (S i), k'. split_and!; [lia|done..].
    + intros [|i] k' Hu Hk; [done|]. by apply (IH i).
  - destruct (Equals k k0) eqn:E.
    + exists 0%nat, k0. split_and!; [lia|done..].
    + specialize (IH used (S oi) Hl). destruct (first_equal k keys used (S oi)).
      * destruct IH as (i & k' & -> & H1 & H2 & H3). exists (S i), k'. split_and!; [lia|done..].
      * intros [|i] k' Hu Hk; [by injection Hk as <-|]. by apply (IH i).
Qed.

Definition taken (used : list bool) (oi : nat) : Prop := used !! oi = Some true.
Lemma take_one used oi j : used !! oi = Some false → taken (<[oi := true]> used) j ↔ taken used j ∨ j = oi.
Proof.
  intros E. unfold taken. destruct (decide (oi = j)) as [<-|Hne].
  - rewrite list_lookup_insert_eq by (by eapply lookup_lt_Some). tauto.
  - rewrite list_lookup_insert_ne by done. naive_solver.
Qed.
Lemma free_mono (used : list bool) (oi j : nat) : <[oi := true]> used !! j = Some false → used !! j = Some false ∧ j ≠ oi.
Proof.
  destruct (decide (oi = j)) as [<-|Hne]; [|rewrite list_lookup_insert_ne by done; split; [done|congruence]].
  intros E. pose proof (lookup_lt_Some _ _ _ E) as Hl. rewrite length_insert in Hl. by rewrite list_lookup_insert_eq in E.
Qed.

(** The first pass: each new key takes the first free equal one. *)
Record pass1_ok (oldKeys newKeys : list BlockKey) (used : list bool) (ms : list (option nat)) (used' : list bool) : Prop := {
  p1_length : length ms = length newKeys ∧ length used' = length used;
  p1_taken oi : taken used' oi ↔ taken used oi ∨ Some oi ∈ ms;
  p1_equal ni k oi : newKeys !! ni = Some k → ms !! ni = Some (Some oi) →
    used !! oi = Some false ∧ ∃ k', oldKeys !! oi = Some k' ∧ Equals k k' = true;
  p1_none ni k oi k' : newKeys !! ni = Some k → ms !! ni = Some None → used' !! oi = Some false → oldKeys !! oi = Some k' → Equals k k' = false;
  p1_once : NoDup (omap id ms);
}.
Lemma pass1_spec oldKeys newKeys used : length used = length oldKeys →
  pass1_ok oldKeys newKeys used (pass1 oldKeys newKeys used).1 (pass1 oldKeys newKeys used).2.
Proof.
  revert used. induction newKeys as [|k newKeys IH]; intros used Hl.
  - cbn. split; [done|set_solver|done|done|constructor].
  - cbn [pass1]. pose proof (first_equal_ok k oldKeys used 0 Hl) as Hf. set (used1 := match first_equal k oldKeys used 0 with Some oi => <[oi := true]> used | None => used end).
    assert (Hl1 : length used1 = length used) by (unfold used1; destruct (first_equal k oldKeys used 0); [apply length_insert|done]).
    specialize (IH used1 ltac:(congruence)). destruct (pass1 oldKeys newKeys used1) as [ms used'] eqn:E. cbn [fst snd] in *. destruct IH as [[I1 I2] I3 I4 I5 I6].
    assert (Hfree : ∀ j, used' !! j = Some false → used !! j = Some false).
    { intros j Hj. assert (¬ taken used j) as Hn.
      - intros Ht. assert (taken used' j) as Hx; [|unfold taken in Hx; congruence]. apply I3. left. unfold used1. destruct (first_equal k oldKeys used 0) as [oi|] eqn:Ef; [|done].
        destruct Hf as (i & k' & -> & Hu & _). apply take_one; [done|by left].
      - pose proof (lookup_lt_Some _ _ _ Hj) as Hj'. rewrite I2, Hl1 in Hj'. destruct (lookup_lt_is_Some_2 used j Hj') as [[] Eb]; [|done]. by destruct Hn. }
    split.
    + simpl. split; [by f_equal|congruence].
    + intros oi. rewrite I3, elem_of_cons. unfold used1. destruct (first_equal k oldKeys used 0) as [j|]; [|naive_solver]. destruct Hf as (i & k' & -> & Hu & _).
      cbn in *. rewrite take_one by done. naive_solver.
    + intros [|ni] k1 oi Hk Hm; cbn in Hk, Hm.
      * injection Hk as ->. injection Hm as Hm. rewrite Hm in Hf. destruct Hf as (i & k' & -> & Hu & Hk' & He). split; [done|]. by exists k'.
      * destruct (I4 ni k1 oi Hk Hm) as [Hu Hx]. split; [|done]. unfold used1 in Hu. destruct (first_equal k oldKeys used 0); [by apply free_mono in Hu as [? _]|done].
    + intros [|ni] k1 oi k' Hk Hm Hu Hk'; cbn in Hk, Hm; [|by eapply I5]. injection Hk as ->. injection Hm as Hm. rewrite Hm in Hf. apply (Hf oi); [by apply Hfree|done].
    + cbn. unfold used1 in *. destruct (first_equal k oldKeys used 0) as [j|] eqn:Ef; cbn; [|done]. destruct Hf as (i & k' & Hj & Hu & _). cbn in Hj. subst j.
      constructor; [|done]. intros Hin%list_elem_of_omap. destruct Hin as (x & Hx & Ex). cbn in Ex. subst x. apply list_elem_of_lookup in Hx as [ni Hx].
      destruct (lookup_lt_is_Some_2 newKeys ni) as [k2 Ek2]; [rewrite <-I1; by eapply lookup_lt_Some|]. destruct (I4 ni k2 i Ek2 Hx) as [Hx2 _]. by apply free_mono in Hx2 as [_ ?].
Qed.

(** The best of the candidates: most similar, then nearest. *)
Definition dist (oi ni : nat) : Z := Z.abs (Z.of_nat oi - Z.of_nat ni).
Definition best_of (ni : nat) (new : Block) (cand : nat → Block → Prop) (b : best) : Prop :=
  let '(bo, bs, bd) := b in
  match bo with
  | None => bs = 0%Q ∧ ∀ oi old, cand oi old → (Similarity (Text new) (Text old) <= 0)%Q
  | Some oi =>
      (∃ old, cand oi old ∧ bs = Similarity (Text new) (Text old)) ∧ bd = dist oi ni ∧
      ∀ oi' old', cand oi' old' → let sim := Similarity (Text new) (Text old') in
        (sim <= bs)%Q ∧ ((EditThreshold <= sim)%Q → (sim == bs)%Q → bd ≤ dist oi' ni)
  end.
Lemma Qgt_bool_spec x y : if Qgt_bool x y then (y < x)%Q else (x <= y)%Q.
Proof.
  unfold Qgt_bool. destruct (Qle_bool x y) eqn:E; cbn; [by apply Qle_bool_iff|]. apply Qnot_le_lt. intros Hx%Qle_bool_iff. congruence.
Qed.
Lemma consider_ok ni new cand b oi old : best_of ni new cand b → best_of ni new (λ i o, cand i o ∨ i = oi ∧ o = old) (consider ni new b oi old false).
Proof.
  destruct b as [[bo bs] bd]. unfold consider. fold (dist oi ni). set (sim := Similarity (Text new) (Text old)). intros Hb.
  pose proof (Qgt_bool_spec sim bs) as Hgt. destruct (Qgt_bool sim bs); cbn [orb].
  - cbn. split_and!; [exists old; split; [by right|done]|done|]. intros i o [Hc|[-> ->]]; [|split; [apply Qle_refl|done]].
    assert ((Similarity (Text new) (Text o) <= bs)%Q) as Hle.
    { destruct bo; cbn in Hb; [by apply Hb in Hc as [? _]|]. destruct Hb as [-> Hb]. by apply (Hb i). }
    split; [apply Qlt_le_weak; by eapply Qle_lt_trans|]. intros _ Heq. exfalso. apply (Qlt_irrefl bs). eapply Qlt_le_trans; [exact Hgt|]. by rewrite <-Heq.
  - destruct (Qeq_bool sim bs && Qle_bool EditThreshold sim && (dist oi ni <? bd)) eqn:E.
    + apply andb_true_iff in E as [[E1%Qeq_bool_iff E2%Qle_bool_iff]%andb_true_iff E3%Z.ltb_lt]. destruct bo as [bo|]; cbn in Hb.
      * destruct Hb as (_ & Hd & Hb). cbn. split_and!; [exists old; split; [by right|done]|done|]. intros i o [Hc|[-> ->]]; [|split; [apply Qle_refl|done]].
        destruct (Hb i o Hc) as [H1 H2]. split; [by rewrite E1|]. intros Ht Heq. rewrite E1 in Heq. specialize (H2 Ht Heq). lia.
      * destruct Hb as [-> _]. exfalso. rewrite E1 in E2. by apply Qle_bool_iff in E2.
    + destruct bo as [bo|]; cbn in Hb |- *.
      * destruct Hb as ((o1 & Hc1 & Ho1) & Hd & Hb). split_and!; [exists o1; split; [by left|done]|done|]. intros i o [Hc|[-> ->]]; [by apply Hb|]. fold sim. split; [done|].
        intros Ht Heq. apply Qle_bool_iff in Ht. apply Qeq_bool_iff in Heq. rewrite Ht, Heq in E. cbn in E. apply Z.ltb_ge in E. lia.
      * destruct Hb as [-> Hb]. split; [done|]. intros i o [Hc|[-> ->]]; [by apply (Hb i)|done].
Qed.
Lemma best_weaken ni new (c c' : nat → Block → Prop) b : (∀ i o, c i o ↔ c' i o) → best_of ni new c b → best_of ni new c' b.
Proof.
  intros Hc. destruct b as [[[bo|] bs] bd]; cbn.
  - intros ((o & H1 & H2) & H3 & H4). split_and!; [exists o; split; [by apply Hc|done]|done|]. intros i o' Ho. by apply H4, Hc.
  - intros [H1 H2]. split; [done|]. intros i o Ho. by apply (H2 i), Hc.
Qed.
Lemma best_match_ok ni new olds used oi cand b : length used = length olds → best_of ni new cand b →
  best_of ni new (λ i o, cand i o ∨ ∃ j, i = (oi + j)%nat ∧ used !! j = Some false ∧ olds !! j = Some o) (best_match ni new olds used oi b).
Proof.
  revert used oi cand b. induction olds as [|old olds IH]; intros [|u used] oi cand b Hl Hb; try done; cbn [best_match].
  - eapply best_weaken, Hb. intros i o. split; [by left|]. by intros [?|(j & _ & ? & _)].
  - injection Hl as Hl. destruct u.
    + eapply best_weaken, (IH used (S oi) cand b Hl Hb). intros i o. split; (intros [Hc|(j & -> & H1 & H2)]; [by left|right]).
      * exists (S j). split_and!; [lia|done..].
      * destruct j as [|j]; [done|]. exists j. split_and!; [lia|done..].
    + eapply best_weaken, (IH used (S oi) _ _ Hl (consider_ok ni new cand b oi old Hb)). intros i o. split.
      * intros [[Hc|[-> ->]]|(j & -> & H1 & H2)]; [by left|right; exists 0%nat; split_and!; [lia|done..]|right; exists (S j); split_and!; [lia|done..]].
      * intros [Hc|([|j] & -> & H1 & H2)]; [by left; left| |right; exists j; split_and!; [lia|done..]]. left. right. split; [lia|]. by injection H2 as ->.
Qed.

Definition old_index (m : Match) : option nat := match m with MatchSame oi | MatchEdited oi _ => Some oi | MatchInserted => None end.
Definition edited (m : Match) : option nat := match m with MatchEdited oi _ => Some oi | _ => None end.
(** What the second pass makes of the new block at place [ni]. *)
Definition placed (olds : list Block) (used used' : list bool) (ni : nat) (new : Block) (m : option nat) (r : Match) : Prop :=
  let sim old := Similarity (Text new) (Text old) in
  match r with
  | MatchSame oi => m = Some oi
  | MatchEdited oi s =>
      m = None ∧ used !! oi = Some false ∧ (∃ old, olds !! oi = Some old ∧ s = sim old) ∧ (EditThreshold <= s)%Q ∧
      ∀ oi' old', used' !! oi' = Some false → olds !! oi' = Some old' → (sim old' <= s)%Q ∧ ((sim old' == s)%Q → dist oi ni ≤ dist oi' ni)
  | MatchInserted => m = None ∧ ∀ oi' old', used' !! oi' = Some false → olds !! oi' = Some old' → (sim old' < EditThreshold)%Q
  end.
Record pass2_ok (olds news : list Block) (ms : list (option nat)) (ni : nat) (used : list bool) (r : list Match) (used' : list bool) : Prop := {
  p2_length : length r = length news ∧ length used' = length used;
  p2_taken oi : taken used' oi ↔ taken used oi ∨ oi ∈ omap edited r;
  p2_placed i new m x : news !! i = Some new → ms !! i = Some m → r !! i = Some x → placed olds used used' (ni + i) new m x;
  p2_free oi : oi ∈ omap edited r → used !! oi = Some false;
  p2_once : NoDup (omap edited r);
}.
Lemma free_before used used' (P : nat → Prop) j : length used' = length used → (∀ oi, taken used' oi ↔ taken used oi ∨ P oi) → used' !! j = Some false → used !! j = Some false.
Proof.
  intros Hl Ht Hj. pose proof (lookup_lt_Some _ _ _ Hj) as Hj'. rewrite Hl in Hj'. destruct (lookup_lt_is_Some_2 used j Hj') as [[] Eb]; [|done].
  assert (taken used' j) as Hx; [apply Ht; by left|]. unfold taken in Hx. congruence.
Qed.
Lemma placed_mono olds used1 used used' ni new m x : (∀ j, used1 !! j = Some false → used !! j = Some false) → placed olds used1 used' ni new m x → placed olds used used' ni new m x.
Proof. intros Hj. destruct x; cbn; [done| |done]. intros (H1 & H2 & H3). split_and!; [done|by apply Hj|apply H3..]. Qed.

(** One more block placed in front. *)
Lemma pass2_cons olds news ms ni used new m x r used1 used' :
  pass2_ok olds news ms (S ni) used1 r used' → length used1 = length used →
  (∀ oi, taken used1 oi ↔ taken used oi ∨ edited x = Some oi) → (∀ oi, edited x = Some oi → used !! oi = Some false) →
  placed olds used used' ni new m x → pass2_ok olds (new :: news) (m :: ms) ni used (x :: r) used'.
Proof.
  intros [[P1 P2] P3 P4 P5 P6] Hl Ht Hu Hx.
  assert (Hfree : ∀ j, used1 !! j = Some false → used !! j = Some false) by (intros j; by apply (free_before used used1 (λ oi, edited x = Some oi))).
  split.
  - simpl. split; [by f_equal|congruence].
  - intros oi. rewrite P3, Ht. cbn. destruct (edited x) as [oi'|]; cbn; rewrite ?elem_of_cons; naive_solver.
  - intros [|i] new' m' x' H1 H2 H3; cbn in H1, H2, H3.
    + injection H1 as <-. injection H2 as <-. injection H3 as <-. by rewrite Nat.add_0_r.
    + rewrite <-Nat.add_succ_comm. eapply placed_mono; [exact Hfree|by apply P4].
  - intros oi. cbn. destruct (edited x) as [oi'|] eqn:Ex; cbn; rewrite ?elem_of_cons; [intros [->|Hin]|intros Hin]; [by apply Hu|by apply Hfree, P5..].
  - cbn. destruct (edited x) as [oi|] eqn:Ex; cbn; [|done]. constructor; [|done]. intros Hin%P5.
    assert (taken used1 oi) as Hto by (apply Ht; by right). unfold taken in Hto. congruence.
Qed.

Lemma pass2_spec olds news ms ni used : length ms = length news → length used = length olds →
  pass2_ok olds news ms ni used (pass2 olds news ms ni used).1 (pass2 olds news ms ni used).2.
Proof.
  revert ms ni used. induction news as [|new news IH]; intros [|m ms] ni used Hl Hu; try done.
  - cbn. split; [done|set_solver|done|set_solver|constructor].
  - injection Hl as Hl. destruct m as [oi|]; cbn [pass2].
    + specialize (IH ms (S ni) used Hl Hu). destruct (pass2 olds news ms (S ni) used) as [r used']. cbn [fst snd] in *.
      eapply pass2_cons; [exact IH|done|intros oi'; cbn; naive_solver|done|done].
    + assert (Hb : best_of ni new (λ i o, used !! i = Some false ∧ olds !! i = Some o) (best_match ni new olds used 0 (None, 0%Q, max_i64))).
      { eapply best_weaken, (best_match_ok ni new olds used 0 (λ _ _, False)); [|done|split; done]. intros i o. split; [by intros [[]|(j & -> & H1 & H2)]|]. intros [H1 H2]. right. by exists i. }
      destruct (best_match ni new olds used 0 (None, 0%Q, max_i64)) as [[[oi|] bs] bd]; cbn in Hb.
      * destruct Hb as ((old & [Hc1 Hc2] & Hs) & Hd & Hb). destruct (Qle_bool EditThreshold bs) eqn:Et.
        -- apply Qle_bool_iff in Et. specialize (IH ms (S ni) (<[oi := true]> used) Hl). rewrite length_insert in IH. specialize (IH Hu).
           destruct (pass2 olds news ms (S ni) (<[oi := true]> used)) as [r used']. cbn [fst snd] in *.
           eapply pass2_cons; [exact IH|apply length_insert|intros oi'; cbn; rewrite take_one by done; naive_solver|by intros oi' [= <-]|].
           cbn. split_and!; [done|done|by exists old|done|]. intros oi' old' Hf Ho.
           apply (free_before (<[oi := true]> used) used' (λ oi, oi ∈ omap edited r)) in Hf; [|apply IH|apply IH]. apply free_mono in Hf as [Hf _].
           destruct (Hb oi' old' (conj Hf Ho)) as [H1 H2]. split; [done|]. intros Heq. rewrite <-Hd. apply H2; [by rewrite Heq|done].
        -- specialize (IH ms (S ni) used Hl Hu). destruct (pass2 olds news ms (S ni) used) as [r used']. cbn [fst snd] in *.
           eapply pass2_cons; [exact IH|done|intros oi'; cbn; naive_solver|done|]. cbn. split; [done|]. intros oi' old' Hf Ho.
           apply (free_before used used' (λ oi, oi ∈ omap edited r)) in Hf; [|apply IH|apply IH]. destruct (Hb oi' old' (conj Hf Ho)) as [H1 _].
           eapply Qle_lt_trans; [exact H1|]. apply Qnot_le_lt. intros Hx%Qle_bool_iff. congruence.
      * destruct Hb as [-> Hb]. specialize (IH ms (S ni) used Hl Hu). destruct (pass2 olds news ms (S ni) used) as [r used']. cbn [fst snd] in *.
        eapply pass2_cons; [exact IH|done|intros oi'; cbn; naive_solver|done|]. cbn. split; [done|]. intros oi' old' Hf Ho.
        apply (free_before used used' (λ oi, oi ∈ omap edited r)) in Hf; [|apply IH|apply IH].
        eapply Qle_lt_trans; [by apply (Hb oi' old')|done].
Qed.

Lemma NoDup_omap_iff {A B} (f : A → option B) l :
  NoDup (omap f l) ↔ ∀ i j a b x, l !! i = Some a → l !! j = Some b → f a = Some x → f b = Some x → i = j.
Proof.
  induction l as [|a l IH]; [split; [done|by constructor]|]. split.
  - intros Hnd. assert (Hl : NoDup (omap f l)) by (cbn in Hnd; destruct (f a); [by apply NoDup_cons in Hnd as [_ ?]|done]).
    assert (Ha : ∀ j b x, l !! j = Some b → f a = Some x → f b = Some x → False).
    { intros j b x Hj Ha Hb. cbn in Hnd. rewrite Ha in Hnd. apply NoDup_cons in Hnd as [Hn _]. apply Hn, list_elem_of_omap. exists b. split; [by eapply list_elem_of_lookup_2|done]. }
    intros [|i] [|j] a' b x Hi Hj Hfa Hfb; cbn in Hi, Hj; [done|injection Hi as ->; by destruct (Ha j b x)|injection Hj as ->; by destruct (Ha i a' x)|].
    f_equal. by eapply IH.
  - intros H. assert (Hl : NoDup (omap f l)) by (apply IH; intros i j a' b x Hi Hj Hfa Hfb; assert (S i = S j) by (by eapply (H (S i) (S j))); lia).
    cbn. destruct (f a) as [x|] eqn:Ea; [|done]. constructor; [|done]. intros (b & Hb & Eb)%list_elem_of_omap. apply list_elem_of_lookup in Hb as [j Hj].
    assert (0%nat = S j) by (by eapply (H 0%nat (S j))). lia.
Qed.
Lemma unused_elem used oi : oi ∈ unused used ↔ used !! oi = Some false.
Proof.
  unfold unused. rewrite list_elem_of_filter, elem_of_seq. split; [by intros [? _]|]. intros H. split; [done|]. pose proof (lookup_lt_Some _ _ _ H). lia.
Qed.
Lemma unused_sorted used : StronglySorted lt (unused used).
Proof.
  unfold unused. generalize (length used), 0%nat. intros n. induction n as [|n IH]; intros k; cbn [seq]; [constructor|]. rewrite filter_cons. case_decide; [|apply IH].
  constructor; [apply IH|]. apply Forall_forall. intros x [_ Hx%elem_of_seq]%list_elem_of_filter. lia.
Qed.

(** What the alignment owes a new block. *)
Definition aligned (old : list Block) (removed : list nat) (ni : nat) (new : Block) (m : Match) : Prop :=
  let same o := Equals (BlockKeyOf new) (BlockKeyOf o) in
  let sim o := Similarity (Text new) (Text o) in
  match m with
  | MatchSame oi => ∃ o, old !! oi = Some o ∧ same o = true
  | MatchEdited oi s =>
      (∃ o, old !! oi = Some o ∧ s = sim o) ∧ (EditThreshold <= s)%Q ∧
      ∀ oi' o', oi' ∈ removed → old !! oi' = Some o' → same o' = false ∧ (sim o' <= s)%Q ∧ ((sim o' == s)%Q → dist oi ni ≤ dist oi' ni)
  | MatchInserted => ∀ oi' o', oi' ∈ removed → old !! oi' = Some o' → same o' = false ∧ (sim o' < EditThreshold)%Q
  end.
Definition align_ok (old new : list Block) (a : Alignment) : Prop :=
  length (NewMatches a) = length new ∧
  NoDup (omap old_index (NewMatches a)) ∧
  (∀ oi, oi ∈ Removed a ↔ (oi < length old)%nat ∧ oi ∉ omap old_index (NewMatches a)) ∧ StronglySorted lt (Removed a) ∧
  ∀ ni n m, new !! ni = Some n → NewMatches a !! ni = Some m → aligned old (Removed a) ni n m.

Lemma Align_ok old new : align_ok old new (Align old new).
Proof.
  unfold Align. pose proof (pass1_spec (map BlockKeyOf old) (map BlockKeyOf new) (replicate (length old) false)) as H1.
  rewrite length_replicate, length_map in H1. specialize (H1 eq_refl). destruct (pass1 _ _ _) as [ms used1]. cbn [fst snd] in H1. destruct H1 as [[L1 L2] T1 E1 N1 O1].
  rewrite length_map in L1. rewrite length_replicate in L2. pose proof (pass2_spec old new ms 0 used1 L1 L2) as H2. destruct (pass2 old new ms 0 used1) as [r used2]. cbn [fst snd] in H2.
  destruct H2 as [[L3 L4] T2 P2 F2 O2]. assert (T0 : ∀ oi, taken used1 oi ↔ Some oi ∈ ms).
  { intros oi. rewrite T1. split; [|by right]. intros [Hx|?]; [|done]. unfold taken in Hx. by apply lookup_replicate in Hx as [? _]. }
  assert (Hat : ∀ i, (i < length new)%nat → ∃ n m x, new !! i = Some n ∧ ms !! i = Some m ∧ r !! i = Some x ∧ placed old used1 used2 i n m x).
  { intros i Hi. destruct (lookup_lt_is_Some_2 new i Hi) as [n En], (lookup_lt_is_Some_2 ms i) as [m Em], (lookup_lt_is_Some_2 r i) as [x Ex]; [lia..|]. exists n, m, x. split_and!; [done..|]. by apply (P2 i). }
  assert (Hplaced : ∀ i n m x, new !! i = Some n → ms !! i = Some m → r !! i = Some x → placed old used1 used2 i n m x) by (intros i; apply (P2 i)).
  assert (Hsame : ∀ i oi, ms !! i = Some (Some oi) ↔ r !! i = Some (MatchSame oi)).
  { intros i oi. split; intros Hi; (destruct (Hat i) as (n & m & x & H1 & H2 & H3 & H4); [apply lookup_lt_Some in Hi; lia|]).
    - rewrite Hi in H2. injection H2 as <-. destruct x; cbn in H4; [by injection H4 as <-|by destruct H4..].
    - rewrite Hi in H3. injection H3 as <-. cbn in H4. congruence. }
  assert (Htaken : ∀ oi, taken used2 oi ↔ oi ∈ omap old_index r).
  { intros oi. rewrite T2, T0, !list_elem_of_omap. split.
    - intros [[i Hi]%list_elem_of_lookup|(x & Hx & Ex)].
      + exists (MatchSame oi). split; [|done]. apply Hsame in Hi. by eapply list_elem_of_lookup_2.
      + exists x. split; [done|]. by destruct x.
    - intros (x & Hx & Ex). destruct x as [oi'|oi' s|]; cbn in Ex; [| |done]; injection Ex as ->.
      + left. apply list_elem_of_lookup in Hx as [i Hi]. apply Hsame in Hi. by eapply list_elem_of_lookup_2.
      + right. by exists (MatchEdited oi s). }
  assert (Hrem : ∀ oi, oi ∈ unused used2 ↔ (oi < length old)%nat ∧ oi ∉ omap old_index r).
  { intros oi. rewrite unused_elem, <-Htaken. unfold taken. split.
    - intros Hu. split; [apply lookup_lt_Some in Hu; lia|congruence].
    - intros [Hl Hn]. destruct (lookup_lt_is_Some_2 used2 oi) as [[] E]; [lia|done|done]. }
  split; [exact L3|]. cbn [NewMatches Removed]. split; [|split; [exact Hrem|split; [apply unused_sorted|]]].
  - apply NoDup_omap_iff. intros i j a b x Hi Hj Ha Hb. pose proof (proj1 (NoDup_omap_iff id ms) O1) as O1'. pose proof (proj1 (NoDup_omap_iff edited r) O2) as O2'.
    assert (Hmix : ∀ i j s, r !! i = Some (MatchSame x) → r !! j = Some (MatchEdited x s) → False).
    { intros i' j' s Hi' Hj'. apply Hsame in Hi'. assert (taken used1 x) as Hx by (apply T0; by eapply list_elem_of_lookup_2).
      assert (used1 !! x = Some false) as Hy; [|unfold taken in Hx; congruence]. apply F2, list_elem_of_omap. exists (MatchEdited x s). split; [by eapply list_elem_of_lookup_2|done]. }
    destruct a as [oa|oa sa|], b as [ob|ob sb|]; cbn in Ha, Hb; try done; injection Ha as ->; injection Hb as ->.
    + apply Hsame in Hi, Hj. by eapply (O1' i j (Some x) (Some x) x).
    + by destruct (Hmix i j sb).
    + by destruct (Hmix j i sa).
    + by eapply (O2' i j (MatchEdited x sa) (MatchEdited x sb) x).
  - intros ni n m Hn Hm. destruct (lookup_lt_is_Some_2 ms ni) as [m1 Em]; [apply lookup_lt_Some in Hn; lia|]. pose proof (Hplaced ni n m1 m Hn Em Hm) as Hp.
    assert (Hkey : map BlockKeyOf new !! ni = Some (BlockKeyOf n)) by (change (map ?f ?l) with (f <$> l); by rewrite list_lookup_fmap, Hn).
    assert (Hdiff : m1 = None → ∀ oi' o', oi' ∈ unused used2 → old !! oi' = Some o' → Equals (BlockKeyOf n) (BlockKeyOf o') = false).
    { intros -> oi' o' Hu%unused_elem Ho. apply (N1 ni _ oi' _ Hkey Em); [by apply (free_before used1 used2 (λ oi, oi ∈ omap edited r))|].
      change (map ?f ?l) with (f <$> l). by rewrite list_lookup_fmap, Ho. }
    destruct m as [oi|oi s|]; cbn in Hp |- *.
    + subst m1. destruct (E1 ni _ oi Hkey Em) as (_ & k' & Hk' & He). change (map ?f ?l) with (f <$> l) in Hk'. rewrite list_lookup_fmap in Hk'.
      apply fmap_Some in Hk' as (o & Ho & ->). by exists o.
    + destruct Hp as (-> & _ & Hs & Ht & Hb). split; [done|]. split; [done|]. intros oi' o' Hu Ho. split; [by eapply Hdiff|]. apply Hb; [by apply unused_elem|done].
    + destruct Hp as (-> & Hb). intros oi' o' Hu Ho. split; [by eapply Hdiff|]. eapply Hb; [by apply unused_elem|done].
Qed.

(** C25: identity flows along a sound alignment.  Every new block is matched to one
    old block or to none, no old block twice, and the removed indices are the old
    ones left, in order.  A [Same] match has an equal key.  An [Edited] match has
    the similarity it names, at least the threshold, and no block left over is more
    similar, or as similar and nearer; an [Inserted] block has no old block left
    over with its key or at the threshold.  Keys are assigned to all blocks: a
    block matched [Same] or inserted has its own, an edited one its predecessor's,
    and different keys have different strings. *)
Theorem AssignStableKeys_flows_identity old new :
  let a := Align old new in
  align_ok old new a ∧
  (∃ keys, AssignStableKeys old new = Some keys ∧ length keys = length new ∧
    ∀ ni n m k, new !! ni = Some n → NewMatches a !! ni = Some m → keys !! ni = Some k →
      match m with
      | MatchSame _ | MatchInserted => k = AsString (BlockKeyOf n)
      | MatchEdited oi _ => ∃ o, old !! oi = Some o ∧ k = AsString (BlockKeyOf o)
      end) ∧
  ∀ b b', AsString (BlockKeyOf b) = AsString (BlockKeyOf b') → BlockKeyOf b = BlockKeyOf b'.
Proof.
  intros a. pose proof (Align_ok old new) as Ha. fold a in Ha. split; [done|]. split; [|intros b b'; apply AsString_inj; apply block_key_ok].
  destruct Ha as (L & _ & _ & _ & Hm). unfold AssignStableKeys. fold a. set (f := λ '(new, m), match m with MatchInserted => Some (AsString (BlockKeyOf new)) | _ => _ end).
  assert (Hf : ∀ ni n m, new !! ni = Some n → NewMatches a !! ni = Some m → ∃ k, f (n, m) = Some k ∧
    match m with MatchSame _ | MatchInserted => k = AsString (BlockKeyOf n) | MatchEdited oi _ => ∃ o, old !! oi = Some o ∧ k = AsString (BlockKeyOf o) end).
  { intros ni n m En Em. specialize (Hm ni n m En Em). destruct m as [oi|oi s|]; cbn in Hm |- *.
    - destruct Hm as (o & Ho & He). rewrite Ho. cbn. eexists. split; [done|]. apply Equals_eq in He. by rewrite He.
    - destruct Hm as ((o & Ho & _) & _). rewrite Ho. cbn. eexists. split; [done|]. by exists o.
    - by eexists. }
  assert (is_Some (mapM f (zip new (NewMatches a)))) as [keys Hk].
  { apply mapM_is_Some, Forall_forall. intros [n m] [ni Hni]%list_elem_of_lookup. apply lookup_zip_Some in Hni as [En Em]. destruct (Hf ni n m En Em) as (k & E & _). by exists k. }
  exists keys. split; [done|]. pose proof Hk as Hk2. apply mapM_Some in Hk2. split.
  - rewrite <-(Forall2_length _ _ _ Hk2), length_zip. lia.
  - intros ni n m k En Em Ek. destruct (Hf ni n m En Em) as (k' & E & Hx).
    destruct (Forall2_lookup_l _ _ _ ni (n, m) Hk2) as (k2 & Ek2 & E2); [by apply lookup_zip_Some|]. replace k with k' by congruence. exact Hx.
Qed.

(** ** Where identity is lost *)

Definition words3 (c : string) : Block := NewBlock (key ("a b " +:+ c)).
(** Keys are computed from the old text and not carried along: two edits in a row
    change the key. *)
Lemma identity_lost_by_second_edit :
  AssignStableKeys [words3 "c"] [words3 "d"] = Some [AsString (BlockKeyOf (words3 "c"))] ∧
  AssignStableKeys [words3 "d"] [words3 "e"] = Some [AsString (BlockKeyOf (words3 "d"))] ∧ BlockKeyOf (words3 "c") ≠ BlockKeyOf (words3 "d").
Proof. split; [vm_compute; exact eq_refl|]. split; [vm_compute; exact eq_refl|]. by vm_compute. Qed.
(** Blocks with the same text get the same key. *)
Lemma twins_share_a_key : AssignStableKeys [] [words3 "c"; words3 "c"] = Some [AsString (BlockKeyOf (words3 "c")); AsString (BlockKeyOf (words3 "c"))].
Proof. vm_compute. exact eq_refl. Qed.
(** An anchored block similar to one with another anchor takes that one's key. *)
Lemma anchor_overridden : AssignStableKeys [NewAnchoredBlock (key "x") (key "hello world")] [NewAnchoredBlock (key "y") (key "hello world")] = Some [key "a:x"].
Proof. vm_compute. exact eq_refl. Qed.
