(* ===== verification/TreeWire.v ===== *)
(** * TreeWire: the json trees of tree and text operations (lossless_tree_crdt.go,
    text_crdt.go)

    Conventions are those of [Wire.v].  A tree operation is decoded by
    [encoding/json] into structs, where a missing field is a zero; the strict
    decoders of text operations ([OpIdFromWire], [TextOpFromWire]) work on trees
    decoded to [any]. *)

From Stdlib Require Import Ascii.
From S2P Require Import Prelude Hlc MsgpackCodec Wire TextCrdt LosslessTree.
Local Open Scope Z_scope.

(** ** Characters

    The text of a leaf is the list of its characters; on the wire it is their
    bytes. *)

Fixpoint chars_ (fuel : nat) (l : list Z) : list string :=
  match fuel, l with
  | O, _ | _, [] => []
  | S fuel, _ => let n := Nat.max 1 (utf8_len l) in unkey (take n l) :: chars_ fuel (drop n l)
  end.
Definition chars (l : list Z) : list string := chars_ (length l) l.
Definition bytes_of (s : list string) : list Z := mjoin (map key s).

(** ** Encoding *)

Definition OpId_tree (id : OpId) : tree := TMap [(key "counter", TNum (Counter id)); (key "peer", TNum (Peer id))].
Definition OpId_ptr_tree (id : option OpId) : tree := match id with Some id => OpId_tree id | None => TNull end.
Definition SortKey_tree (k : TreeSortKey) : tree := TMap [(key "frac", TArr (map TNum (Frac k))); (key "peer", TNum (k_Peer k))].
Definition TextOp_tree (op : TextOp) : tree :=
  TMap [(key "id", OpId_tree (Id op)); (key "ch", str_tree (key (Ch op))); (key "origin", OpId_ptr_tree (Origin op)); (key "deleted", OpId_ptr_tree (Deleted op))].
Definition kind_name (k : LeafKind) : string :=
  match k with LeafKindToken => "Token" | LeafKindTrivia => "Trivia" | LeafKindRaw => "Raw" | LeafKindError => "Error" end.

(** [lossless_tree_crdt.go] [TreeNodeSeedElement.MarshalJSON] *)
Definition TreeNodeSeedElement_MarshalJSON (kind : string) : tree := taggedJSON "Element" (TMap [(key "kind", str_tree (key kind))]).
(** [lossless_tree_crdt.go] [TreeNodeSeedLeaf.MarshalJSON] *)
Definition TreeNodeSeedLeaf_MarshalJSON (kind : LeafKind) (text : list string) : tree :=
  taggedJSON "Leaf" (TMap [(key "kind", str_tree (key (kind_name kind))); (key "text", str_tree (bytes_of text))]).
Definition seed_tree (s : TreeNodeSeed) : tree :=
  match s with TreeNodeSeedElement k => TreeNodeSeedElement_MarshalJSON k | TreeNodeSeedLeaf k t => TreeNodeSeedLeaf_MarshalJSON k t end.
(** [lossless_tree_crdt.go] [TreeOpCreateNode.MarshalJSON] *)
Definition TreeOpCreateNode_MarshalJSON (id parent : OpId) (sort : TreeSortKey) (seed : TreeNodeSeed) : tree :=
  taggedJSON "CreateNode" (TMap [(key "id", OpId_tree id); (key "parent", OpId_tree parent); (key "sort", SortKey_tree sort); (key "seed", seed_tree seed)]).
(** [lossless_tree_crdt.go] [TreeOpTombstone.MarshalJSON] *)
Definition TreeOpTombstone_MarshalJSON (node : OpId) : tree := taggedJSON "Tombstone" (TMap [(key "node", OpId_tree node)]).
(** [lossless_tree_crdt.go] [TreeOpReorder.MarshalJSON] *)
Definition TreeOpReorder_MarshalJSON (node : OpId) (sort : TreeSortKey) : tree :=
  taggedJSON "Reorder" (TMap [(key "node", OpId_tree node); (key "sort", SortKey_tree sort)]).
(** [lossless_tree_crdt.go] [TreeOpLeafEdit.MarshalJSON] *)
Definition TreeOpLeafEdit_MarshalJSON (node prev : OpId) (ops : list TextOp) : tree :=
  taggedJSON "LeafEdit" (TMap [(key "node", OpId_tree node); (key "prev", OpId_tree prev); (key "ops", TArr (map TextOp_tree ops))]).
(** [lossless_tree_crdt.go] [TreeOpSplitLeaf.MarshalJSON] *)
Definition TreeOpSplitLeaf_MarshalJSON (node new : OpId) (sort : TreeSortKey) (atChar : Z) (prev : OpId) : tree :=
  taggedJSON "SplitLeaf" (TMap [(key "node", OpId_tree node); (key "new", OpId_tree new); (key "sort", SortKey_tree sort); (key "at_char", TNum atChar);
    (key "prev", OpId_tree prev)]).
(** [lossless_tree_crdt.go] [TreeOpMergeLeaves.MarshalJSON] *)
Definition TreeOpMergeLeaves_MarshalJSON (l r prevLeft prevRight : OpId) : tree :=
  taggedJSON "MergeLeaves" (TMap [(key "left", OpId_tree l); (key "right", OpId_tree r); (key "prev_left", OpId_tree prevLeft); (key "prev_right", OpId_tree prevRight)]).
Definition kind_tree (k : TreeOpKind) : tree :=
  match k with
  | TreeOpCreateNode id p s seed => TreeOpCreateNode_MarshalJSON id p s seed | TreeOpTombstone n => TreeOpTombstone_MarshalJSON n
  | TreeOpReorder n s => TreeOpReorder_MarshalJSON n s | TreeOpLeafEdit n p ops => TreeOpLeafEdit_MarshalJSON n p ops
  | TreeOpSplitLeaf n new s a p => TreeOpSplitLeaf_MarshalJSON n new s a p | TreeOpMergeLeaves l r pl pr => TreeOpMergeLeaves_MarshalJSON l r pl pr
  end.
(** [lossless_tree_crdt.go] [TreeOp.MarshalJSON] *)
Definition TreeOp_MarshalJSON (op : TreeOp) : tree := TMap [(key "id", OpId_tree (o_Id op)); (key "kind", kind_tree (o_Kind op))].
(** [lossless_tree_crdt.go] [TreeUpdate.MarshalJSON] *)
Definition TreeUpdate_MarshalJSON (u : TreeUpdate) : tree := TMap [(key "ops", TArr (map TreeOp_MarshalJSON (u_Ops u)))].

(** ** Decoding into structs *)

Definition zero_id : OpId := mkOpId 0 0.
Definition d_OpId (old : OpId) (t : tree) : option OpId :=
  m ← object t; c ← field "counter" d_int64 (Counter old) m; p ← field "peer" d_int64 (Peer old) m; Some (mkOpId c p).
Definition d_OpId_ptr (old : option OpId) (t : tree) : option (option OpId) :=
  match t with TNull => Some None | _ => id ← d_OpId (default zero_id old) t; Some (Some id) end.
Definition zero_sort : TreeSortKey := mkSort [] 0.
Definition d_SortKey (old : TreeSortKey) (t : tree) : option TreeSortKey :=
  m ← object t; f ← field "frac" (d_slice (d_int64 0)) (Frac old) m; p ← field "peer" d_int64 (k_Peer old) m; Some (mkSort f p).
Definition d_TextOp (t : tree) : option TextOp :=
  m ← object t; id ← field "id" d_OpId zero_id m; ch ← field "ch" d_string [] m;
  o ← field "origin" d_OpId_ptr None m; d ← field "deleted" d_OpId_ptr None m; Some (mkTextOp id (unkey ch) o d).
(** [lossless_tree_crdt.go] [validateSortKeyFrac] *)
Definition validateSortKeyFrac (frac : list Z) : option unit :=
  if existsb (λ v, (v <? 0) || (255 <? v)) frac then None else Some ().
(** [lossless_tree_crdt.go] [leafKindFromWireLower] *)
Definition leafKindFromWireLower (v : list Z) : option LeafKind :=
  if tagIs v "token" then Some LeafKindToken else if tagIs v "trivia" then Some LeafKindTrivia
  else if tagIs v "raw" then Some LeafKindRaw else if tagIs v "error" then Some LeafKindError else None.
(** The canonical names, tried after the lower-case ones.
    [lossless_tree_crdt.go] [lines 252-262 unmarshalTreeNodeSeed] *)
Definition leafKind_of (v : list Z) : option LeafKind :=
  match leafKindFromWireLower v with
  | Some k => Some k
  | None =>
      if tagIs v "Token" then Some LeafKindToken else if tagIs v "Trivia" then Some LeafKindTrivia
      else if tagIs v "Raw" then Some LeafKindRaw else if tagIs v "Error" then Some LeafKindError else None
  end.
(** [lossless_tree_crdt.go] [unmarshalTreeNodeSeed] *)
Definition unmarshalTreeNodeSeed (t : tree) : option TreeNodeSeed :=
  '(tag, body) ← splitTagged t;
  if tagIs tag "Element" then m ← object body; k ← field "kind" d_string [] m; Some (TreeNodeSeedElement (unkey k))
  else if tagIs tag "Leaf" then
    m ← object body; k ← field "kind" d_string [] m; text ← field "text" d_string [] m;
    kind ← leafKind_of k; Some (TreeNodeSeedLeaf kind (chars text))
  else None.
(** [lossless_tree_crdt.go] [unmarshalTreeOpKind] *)
Definition unmarshalTreeOpKind (t : tree) : option TreeOpKind :=
  '(tag, body) ← splitTagged t;
  if tagIs tag "CreateNode" then
    m ← object body; id ← field "id" d_OpId zero_id m; p ← field "parent" d_OpId zero_id m; s ← field "sort" d_SortKey zero_sort m;
    raw ← field "seed" d_raw None m;
    validateSortKeyFrac (Frac s);; raw ← raw; seed ← unmarshalTreeNodeSeed raw; Some (TreeOpCreateNode id p s seed)
  else if tagIs tag "Tombstone" then m ← object body; n ← field "node" d_OpId zero_id m; Some (TreeOpTombstone n)
  else if tagIs tag "Reorder" then
    m ← object body; n ← field "node" d_OpId zero_id m; s ← field "sort" d_SortKey zero_sort m;
    validateSortKeyFrac (Frac s);; Some (TreeOpReorder n s)
  else if tagIs tag "LeafEdit" then
    m ← object body; n ← field "node" d_OpId zero_id m; p ← field "prev" d_OpId zero_id m; ops ← field "ops" (d_slice d_TextOp) [] m;
    Some (TreeOpLeafEdit n p ops)
  else if tagIs tag "SplitLeaf" then
    m ← object body; n ← field "node" d_OpId zero_id m; new ← field "new" d_OpId zero_id m; s ← field "sort" d_SortKey zero_sort m;
    a ← field "at_char" d_int64 0 m; p ← field "prev" d_OpId zero_id m;
    validateSortKeyFrac (Frac s);; Some (TreeOpSplitLeaf n new s a p)
  else if tagIs tag "MergeLeaves" then
    m ← object body; l ← field "left" d_OpId zero_id m; r ← field "right" d_OpId zero_id m;
    pl ← field "prev_left" d_OpId zero_id m; pr ← field "prev_right" d_OpId zero_id m; Some (TreeOpMergeLeaves l r pl pr)
  else None.
(** [lossless_tree_crdt.go] [TreeOp.UnmarshalJSON] *)
Definition TreeOp_UnmarshalJSON (t : tree) : option TreeOp :=
  m ← object t; id ← field "id" d_OpId zero_id m; raw ← field "kind" d_raw None m; raw ← raw; k ← unmarshalTreeOpKind raw; Some (mkTreeOp id k).
(** [lossless_tree_crdt.go] [TreeUpdate.UnmarshalJSON] *)
Definition TreeUpdate_UnmarshalJSON (t : tree) : option TreeUpdate :=
  m ← object t; ops ← field "ops" (d_slice TreeOp_UnmarshalJSON) [] m; Some (mkUpdate ops).
(** [lossless_tree_crdt.go] [TreeUpdateFromWire] *)
Definition TreeUpdateFromWire (t : tree) : option TreeUpdate := TreeUpdate_UnmarshalJSON t.

(** ** The strict decoders of text operations *)

(** A number decoded with [UseNumber].
    [text_crdt.go] [wireInt64] *)
Definition wireInt64 (t : option tree) : option Z := match t with Some (TNum n) => if decide (is_i64 n) then Some n else None | _ => None end.
(** [text_crdt.go] [OpIdFromWire] *)
Definition OpIdFromWire (t : option tree) : option OpId :=
  match t with
  | Some (TMap m) => c ← wireInt64 (lookupKey (key "counter") m); p ← wireInt64 (lookupKey (key "peer") m); Some (mkOpId c p)
  | _ => None
  end.
Definition opt_id (t : option tree) : option (option OpId) :=
  match t with None | Some TNull => Some None | _ => id ← OpIdFromWire t; Some (Some id) end.
(** [text_crdt.go] [TextOpFromWire] *)
Definition TextOpFromWire (t : tree) : option TextOp :=
  match t with
  | TMap m =>
      id ← OpIdFromWire (lookupKey (key "id") m);
      ch ← (match lookupKey (key "ch") m with Some (TStr s) => Some (unkey s) | _ => None end);
      o ← opt_id (lookupKey (key "origin") m); d ← opt_id (lookupKey (key "deleted") m); Some (mkTextOp id ch o d)
  | _ => None
  end.
(** [text_crdt.go] [OpId.ToWire] *)
Definition OpId_ToWire (id : OpId) : tree := OpId_tree id.
(** [text_crdt.go] [TextOp.ToWire] *)
Definition TextOp_ToWire (op : TextOp) : tree :=
  TMap [(key "id", OpId_ToWire (Id op)); (key "ch", str_tree (key (Ch op)));
    (key "origin", match Origin op with Some o => OpId_ToWire o | None => TNull end); (key "deleted", match Deleted op with Some d => OpId_ToWire d | None => TNull end)].

(** ** What an update may hold *)

Definition ok_id (id : OpId) : Prop := is_i64 (Counter id) ∧ is_i64 (Peer id).
Definition ok_ptr (id : option OpId) : Prop := match id with Some id => ok_id id | None => True end.
Definition ok_sort (k : TreeSortKey) : Prop := Forall byte (Frac k) ∧ is_i64 (k_Peer k).
Definition ok_name (s : string) : Prop := utf8 (key s).
(** One character: its bytes are one well-formed sequence. *)
Definition ok_char (c : string) : Prop := (0 < utf8_len (key c))%nat ∧ utf8_len (key c) = length (key c).
Definition ok_text_op (op : TextOp) : Prop := ok_id (Id op) ∧ ok_name (Ch op) ∧ ok_ptr (Origin op) ∧ ok_ptr (Deleted op).
Definition ok_seed (s : TreeNodeSeed) : Prop := match s with TreeNodeSeedElement k => ok_name k | TreeNodeSeedLeaf _ t => Forall ok_char t end.
Definition ok_kind (k : TreeOpKind) : Prop :=
  match k with
  | TreeOpCreateNode id p s seed => ok_id id ∧ ok_id p ∧ ok_sort s ∧ ok_seed seed
  | TreeOpTombstone n => ok_id n
  | TreeOpReorder n s => ok_id n ∧ ok_sort s
  | TreeOpLeafEdit n p ops => ok_id n ∧ ok_id p ∧ Forall ok_text_op ops
  | TreeOpSplitLeaf n new s a p => ok_id n ∧ ok_id new ∧ ok_sort s ∧ is_i64 a ∧ ok_id p
  | TreeOpMergeLeaves l r pl pr => ok_id l ∧ ok_id r ∧ ok_id pl ∧ ok_id pr
  end.
Definition ok_tree_op (op : TreeOp) : Prop := ok_id (o_Id op) ∧ ok_kind (o_Kind op).
Definition ok_update (u : TreeUpdate) : Prop := Forall ok_tree_op (u_Ops u).

(** ** Characters and their bytes *)

Lemma utf8_len_app l r n : utf8_len l = S n → utf8_len (l ++ r) = S n.
Proof.
  destruct l as [|a l]; [done|]. cbn [utf8_len app]. destruct (a <=? 127); [done|]. destruct (cont 194 223 a); [by destruct l|].
  destruct (cont 224 239 a); [by destruct l as [|b [|c l]]|]. destruct (cont 240 244 a); [|done]. by destruct l as [|b [|c [|d l]]].
Qed.
Lemma char_len c r : ok_char c → utf8_len (key c ++ r) = length (key c).
Proof. intros [Hp Hl]. rewrite <-Hl. destruct (utf8_len (key c)) as [|n] eqn:E; [lia|]. by apply utf8_len_app. Qed.
Lemma chars_step fuel l : l ≠ [] → chars_ (S fuel) l = let n := Nat.max 1 (utf8_len l) in unkey (take n l) :: chars_ fuel (drop n l).
Proof. by destruct l. Qed.
Lemma coerce_step fuel l n : utf8_len l = S n → coerceUtf8_ (S fuel) l = take (S n) l ++ coerceUtf8_ fuel (drop (S n) l).
Proof. intros E. destruct l; [done|]. unfold coerceUtf8_. fold coerceUtf8_. by rewrite E. Qed.
Lemma bytes_cons c text : bytes_of (c :: text) = key c ++ bytes_of text.
Proof. done. Qed.
Lemma key_pos c : ok_char c → ∃ n, length (key c) = S n.
Proof. intros [Hp <-]. destruct (utf8_len (key c)); [lia|eauto]. Qed.
Lemma chars_bytes text fuel : Forall ok_char text → (length (bytes_of text) ≤ fuel)%nat → chars_ fuel (bytes_of text) = text.
Proof.
  intros Ht. induction Ht as [|c text Hc Ht IH] in fuel |-*; [by destruct fuel|]. rewrite bytes_cons, length_app. destruct (key_pos c Hc) as [n E]. rewrite E.
  intros Hf. destruct fuel as [|fuel]; [lia|]. rewrite chars_step by (destruct (key c); [discriminate E|done]). cbn zeta. rewrite char_len by done.
  replace (Nat.max 1 (length (key c))) with (length (key c)) by lia. rewrite take_app_length, drop_app_length, unkey_key, IH by lia. done.
Qed.
Lemma coerce_chars text fuel : Forall ok_char text → (length (bytes_of text) ≤ fuel)%nat → coerceUtf8_ fuel (bytes_of text) = bytes_of text.
Proof.
  intros Ht. induction Ht as [|c text Hc Ht IH] in fuel |-*; [by destruct fuel|]. rewrite bytes_cons, length_app. destruct (key_pos c Hc) as [n E]. rewrite E.
  intros Hf. destruct fuel as [|fuel]; [lia|]. rewrite (coerce_step _ _ n) by by rewrite char_len. rewrite <-E, take_app_length, drop_app_length, IH by lia. done.
Qed.
Lemma text_utf8 text : Forall ok_char text → utf8 (bytes_of text) ∧ chars (bytes_of text) = text.
Proof. intros Ht. split; [by apply coerce_chars|by apply chars_bytes]. Qed.

(** ** Round trips *)

Lemma str_utf8 s : utf8 s → str_tree s = TStr s.
Proof. intros H. unfold str_tree. by rewrite H. Qed.
Ltac solve_fields := repeat (cbn [mbind option_bind d_string d_raw Counter Peer Frac k_Peer default from_option];
  first [rewrite d_int64_num by done | rewrite str_utf8 by done]); cbn [mbind option_bind d_string d_raw].
Lemma id_read old id : ok_id id → d_OpId old (OpId_tree id) = Some id.
Proof. destruct id as [c p]. intros [Hc Hp]. cbn [Counter Peer] in *. unfold d_OpId, OpId_tree. cbn [object mbind option_bind]. fields. solve_fields. done. Qed.
Lemma ptr_read old id : ok_ptr id → d_OpId_ptr old (OpId_ptr_tree id) = Some id.
Proof. destruct id as [id|]; [|done]. intros Hi. unfold d_OpId_ptr, OpId_ptr_tree. change (OpId_tree id) with (TMap [(key "counter", TNum (Counter id)); (key "peer", TNum (Peer id))]) at 1.
  cbv iota. by rewrite id_read.
Qed.
Lemma ints_read l : Forall is_i64 l → mapM (d_int64 0) (map TNum l) = Some l.
Proof. induction 1 as [|n l Hn _ IH]; [done|]. cbn [map mapM]. rewrite d_int64_num by done. cbn [mbind option_bind]. by rewrite IH. Qed.
Lemma bytes_i64 l : Forall byte l → Forall is_i64 l.
Proof. intros H. eapply Forall_impl; [exact H|]. unfold byte. intros. zrange. Qed.
Lemma sort_read old k : ok_sort k → d_SortKey old (SortKey_tree k) = Some k ∧ validateSortKeyFrac (Frac k) = Some ().
Proof.
  destruct k as [f p]. intros [Hf Hp]. cbn [Frac k_Peer] in *. split.
  - unfold d_SortKey, SortKey_tree. cbn [object mbind option_bind Frac k_Peer]. fields. cbn [d_slice]. rewrite ints_read by by apply bytes_i64. solve_fields. done.
  - unfold validateSortKeyFrac. destruct (existsb _ f) eqn:E; [exfalso|done]. apply existsb_exists in E as (v & Hv%list_elem_of_In & Hb). rewrite Forall_forall in Hf. specialize (Hf v Hv).
    unfold byte in Hf. apply orb_true_iff in Hb as [Hb%Z.ltb_lt|Hb%Z.ltb_lt]; lia.
Qed.
Lemma map_read {A} (P : A → Prop) (enc : A → tree) dec l : (∀ a, P a → dec (enc a) = Some a) → Forall P l → mapM dec (map enc l) = Some l.
Proof. intros Hd. induction 1 as [|a l Ha _ IH]; [done|]. cbn [map mapM]. rewrite Hd by done. cbn [mbind option_bind]. by rewrite IH. Qed.
Ltac ids := repeat (cbn [mbind option_bind]; first [rewrite id_read by done | rewrite ptr_read by done]); cbn [mbind option_bind].
Lemma text_op_read op : ok_text_op op → d_TextOp (TextOp_tree op) = Some op.
Proof.
  destruct op as [id ch o d]. intros (Hi & Hc & Ho & Hd). cbn [Id Ch Origin Deleted] in *. unfold d_TextOp, TextOp_tree. cbn [Id Ch Origin Deleted object mbind option_bind]. fields.
  rewrite str_utf8 by done. cbn [d_string]. ids. by rewrite unkey_key.
Qed.
Lemma kind_read k : utf8 (key (kind_name k)) ∧ leafKind_of (key (kind_name k)) = Some k.
Proof. by destruct k. Qed.
(** Go into the body of a tagged value and take the branch of its tag. *)
Ltac open_tag :=
  unfold unmarshalTreeNodeSeed, unmarshalTreeOpKind, TreeNodeSeedElement_MarshalJSON, TreeNodeSeedLeaf_MarshalJSON, TreeOpCreateNode_MarshalJSON, TreeOpTombstone_MarshalJSON,
    TreeOpReorder_MarshalJSON, TreeOpLeafEdit_MarshalJSON, TreeOpSplitLeaf_MarshalJSON, TreeOpMergeLeaves_MarshalJSON, taggedJSON;
  cbn [splitTagged mbind option_bind];
  repeat (lazymatch goal with |- context [if tagIs ?a ?b then _ else _] => let r := eval vm_compute in (tagIs a b) in change (tagIs a b) with r end; cbv iota);
  cbn [object mbind option_bind].
Lemma seed_read s : ok_seed s → unmarshalTreeNodeSeed (seed_tree s) = Some s.
Proof.
  destruct s as [k|k t]; cbn [ok_seed seed_tree]; intros Ho.
  - open_tag. fields. rewrite str_utf8 by done. cbn [d_string mbind option_bind]. by rewrite unkey_key.
  - destruct (text_utf8 t Ho) as [Hu Hc], (kind_read k) as [Hk Hr]. open_tag. fields. rewrite !str_utf8 by done. cbn [d_string mbind option_bind]. rewrite Hr.
    cbn [mbind option_bind]. by rewrite Hc.
Qed.
Lemma tree_kind_read k : ok_kind k → unmarshalTreeOpKind (kind_tree k) = Some k.
Proof.
  destruct k as [id p s seed|n|n s|n p ops|n new s a p|l r pl pr]; cbn [ok_kind kind_tree]; intros Ho.
  - destruct Ho as (H1 & H2 & H3 & H4), (sort_read zero_sort s H3) as [S1 S2]. open_tag. fields. ids. rewrite S1. cbn [mbind option_bind d_raw]. rewrite S2.
    cbn [mbind option_bind]. by rewrite seed_read.
  - open_tag. fields. by ids.
  - destruct Ho as (H1 & H3), (sort_read zero_sort s H3) as [S1 S2]. open_tag. fields. ids. rewrite S1. cbn [mbind option_bind]. by rewrite S2.
  - destruct Ho as (H1 & H2 & H3). open_tag. fields. ids. cbn [d_slice]. by rewrite (map_read ok_text_op TextOp_tree d_TextOp ops text_op_read H3).
  - destruct Ho as (H1 & H2 & H3 & H4 & H5), (sort_read zero_sort s H3) as [S1 S2]. open_tag. fields. ids. rewrite S1. cbn [mbind option_bind].
    rewrite d_int64_num by done. ids. by rewrite S2.
  - destruct Ho as (H1 & H2 & H3 & H4). open_tag. fields. by ids.
Qed.
Lemma tree_op_read op : ok_tree_op op → TreeOp_UnmarshalJSON (TreeOp_MarshalJSON op) = Some op.
Proof.
  destruct op as [id k]. intros [H1 H2]. cbn [o_Id o_Kind] in *. unfold TreeOp_UnmarshalJSON, TreeOp_MarshalJSON. cbn [o_Id o_Kind object mbind option_bind]. fields. ids.
  cbn [d_raw mbind option_bind]. by rewrite tree_kind_read.
Qed.

(** ** The strict decoders *)

Lemma strict_id id : ok_id id → OpIdFromWire (Some (OpId_ToWire id)) = Some id.
Proof.
  destruct id as [c p]. intros [Hc Hp]. cbn [Counter Peer] in *. transitivity (c ← wireInt64 (Some (TNum c)); p ← wireInt64 (Some (TNum p)); Some (mkOpId c p)); [reflexivity|].
  unfold wireInt64. by rewrite !decide_True by done.
Qed.
Lemma strict_opt id : ok_ptr id → opt_id (Some (match id with Some id => OpId_ToWire id | None => TNull end)) = Some id.
Proof. destruct id as [id|]; [|done]. intros Hi. transitivity (id ← OpIdFromWire (Some (OpId_ToWire id)); Some (Some id)); [reflexivity|]. by rewrite strict_id. Qed.
Lemma strict_op op : ok_text_op op → TextOpFromWire (TextOp_ToWire op) = Some op.
Proof.
  destruct op as [id ch o d]. intros (Hi & Hc & Ho & Hd). cbn [Id Ch Origin Deleted] in *.
  transitivity (id ← OpIdFromWire (Some (OpId_ToWire id)); ch ← (match str_tree (key ch) with TStr s => Some (unkey s) | _ => None end);
    o ← opt_id (Some (match o with Some o => OpId_ToWire o | None => TNull end)); d ← opt_id (Some (match d with Some d => OpId_ToWire d | None => TNull end)); Some (mkTextOp id ch o d)); [reflexivity|].
  rewrite strict_id by done. cbn [mbind option_bind]. rewrite str_utf8 by done. cbn [mbind option_bind]. rewrite !strict_opt by done. cbn [mbind option_bind]. by rewrite unkey_key.
Qed.
(** The strict decoder takes nothing for granted: an id it returns was there. *)
Lemma strict_present t op : TextOpFromWire t = Some op → ∃ m mi c p, t = TMap m ∧ lookupKey (key "id") m = Some (TMap mi) ∧
  lookupKey (key "counter") mi = Some (TNum c) ∧ lookupKey (key "peer") mi = Some (TNum p) ∧ Id op = mkOpId c p ∧ ok_id (Id op).
Proof.
  destruct t as [| | | | | |m| |]; try done. unfold TextOpFromWire. intros (id & Hi & (ch & _ & (o & _ & (d & _ & [= <-])%bind_Some)%bind_Some)%bind_Some)%bind_Some.
  unfold OpIdFromWire in Hi. destruct (lookupKey (key "id") m) as [[| | | | | |mi| |]|] eqn:Em; try done.
  apply bind_Some in Hi as (c & Hc & (p & Hp & [= <-])%bind_Some). unfold wireInt64 in Hc, Hp.
  destruct (lookupKey (key "counter") mi) as [[| | |c'| | | | |]|] eqn:Ec; try done. destruct (lookupKey (key "peer") mi) as [[| | |p'| | | | |]|] eqn:Ep; try done.
  destruct (decide (is_i64 c')); [|done]. destruct (decide (is_i64 p')); [|done]. injection Hc as ->. injection Hp as ->. exists m, mi, c, p. done.
Qed.

(** A sort key of the operation, if it has one, is made of bytes. *)
Definition key_bytes_ok (op : TreeOp) : Prop :=
  match o_Kind op with TreeOpCreateNode _ _ s _ | TreeOpReorder _ s | TreeOpSplitLeaf _ _ s _ _ => Forall byte (Frac s) | _ => True end.
Lemma validated frac u : validateSortKeyFrac frac = Some u → Forall byte frac.
Proof.
  unfold validateSortKeyFrac. destruct (existsb _ frac) eqn:E; [done|]. intros _. apply Forall_forall. intros v Hv. unfold byte.
  assert (((v <? 0) || (255 <? v)) = false) as Hb; [|apply orb_false_iff in Hb as [?%Z.ltb_ge ?%Z.ltb_ge]; lia].
  destruct ((v <? 0) || (255 <? v)) eqn:Ev; [|done]. rewrite <-E. symmetry. apply existsb_exists. exists v. split; [by apply list_elem_of_In|done].
Qed.
Lemma decoded_kind t k id : unmarshalTreeOpKind t = Some k → key_bytes_ok (mkTreeOp id k).
Proof.
  unfold unmarshalTreeOpKind. intros ([tag body] & _ & H)%bind_Some.
  repeat match type of H with (if ?b then _ else _) = Some _ => destruct b; [|] end; [..|done];
    repeat (apply bind_Some in H as (? & ? & H)); injection H as <-; cbn; try done; by eapply validated.
Qed.
Lemma mapM_all {A B} (f : A → option B) (P : B → Prop) l r : (∀ a b, f a = Some b → P b) → mapM f l = Some r → Forall P r.
Proof. intros Hf Hm. apply mapM_Some in Hm. induction Hm as [|a b l r Hab _ IH]; constructor; [by eapply Hf|done]. Qed.
Lemma decoded_op t op : TreeOp_UnmarshalJSON t = Some op → key_bytes_ok op.
Proof. unfold TreeOp_UnmarshalJSON. intros H. repeat (apply bind_Some in H as (? & ? & H)). injection H as <-. by eapply decoded_kind. Qed.
Lemma decoded_field m old ops : Forall key_bytes_ok old → field "ops" (d_slice TreeOp_UnmarshalJSON) old m = Some ops → Forall key_bytes_ok ops.
Proof.
  rewrite field_hits. generalize (hits "ops" m). intros l. revert old. induction l as [|e l IH]; intros old Ho; cbn [foldl]; [by intros [= <-]|]. cbn [mbind option_bind].
  destruct (d_slice TreeOp_UnmarshalJSON old e.2) as [new|] eqn:E.
  - apply IH. unfold d_slice in E. destruct e.2; try done; [by injection E as <-|]. eapply mapM_all, E. apply decoded_op.
  - intros Hn. exfalso. clear IH E. induction l as [|e' l IH]; [done|]. by apply IH.
Qed.

(** An update survives the wire: its json tree is decoded to the same
    operations, ids, keys, texts and embedded text operations (ids and offsets
    within int64, keys of bytes, strings in UTF-8).  No update is accepted with a
    sort key that is not made of bytes.  The strict decoder of text operations reads
    back what [ToWire] writes and returns no id that was not there. *)
Theorem TreeUpdate_roundtrip :
  (∀ u, ok_update u → TreeUpdateFromWire (TreeUpdate_MarshalJSON u) = Some u) ∧
  (∀ t u, TreeUpdateFromWire t = Some u → Forall key_bytes_ok (u_Ops u)) ∧
  (∀ op, ok_text_op op → TextOpFromWire (TextOp_ToWire op) = Some op) ∧
  (∀ t op, TextOpFromWire t = Some op → ∃ m mi c p, t = TMap m ∧ lookupKey (key "id") m = Some (TMap mi) ∧
     lookupKey (key "counter") mi = Some (TNum c) ∧ lookupKey (key "peer") mi = Some (TNum p) ∧ Id op = mkOpId c p ∧ ok_id (Id op)).
Proof.
  split; [|split; [|split; [apply strict_op|apply strict_present]]].
  - intros [ops] Ho. unfold TreeUpdateFromWire, TreeUpdate_UnmarshalJSON, TreeUpdate_MarshalJSON. cbn [object mbind option_bind u_Ops]. fields. cbn [d_slice].
    by rewrite (map_read ok_tree_op TreeOp_MarshalJSON TreeOp_UnmarshalJSON ops tree_op_read Ho).
  - intros t u. unfold TreeUpdateFromWire, TreeUpdate_UnmarshalJSON. intros (m & _ & (ops & Hf & [= <-])%bind_Some)%bind_Some. by eapply decoded_field, Hf.
Qed.

(** The decoder of tree operations is not strict: a text operation without an id
    decodes as one with the root's id, which the strict decoder refuses and which no
    text survives; a deletion without a node deletes the root. *)
Definition loose_op : tree := TMap [(key "ch", TStr (key "x"))].
Lemma missing_ids_are_roots :
  d_TextOp loose_op = Some (mkTextOp textRootKey "x" None None) ∧ TextOpFromWire loose_op = None ∧
  TreeOp_UnmarshalJSON (TMap [(key "kind", TMap [(key "Tombstone", TMap [])])]) = Some (mkTreeOp (mkOpId 0 0) (TreeOpTombstone TreeRoot)).
Proof. split_and!; reflexivity. Qed.
