(* ===== verification/ReplayEncode.v ===== *)
(** * ReplayEncode: the canonical bytes of an observed value (replay.go)

    A Go value is what reflection shows of it: its kind and its parts.  A string
    or byte string is the list of its bytes.  The values are trees: one that
    reaches itself through a pointer has no encoding, the code follows it until
    its stack is gone. *)

From Stdlib Require Import Ascii.
From stdpp Require Import pretty.
From S2P Require Import Prelude MsgpackCodec Wire StableId.
Local Open Scope Z_scope.

(** ** Values *)

Definition bytes : Type := list Z.

(** [VRef] is a pointer or an interface that is not nil; [VBytes] a slice
    ([true]) or array of [uint8]; a field of a struct carries its name and
    whether it is exported; [VOther] any other kind, by the name of its type.
    The entries of a map are in the order of one iteration. *)
Inductive Value :=
  | VNil
  | VRef (v : Value)
  | VBool (b : bool)
  | VInt (n : Z)
  | VUint (n : Z)
  | VFloat (bits : Z)
  | VString (s : bytes)
  | VBytes (slice : bool) (b : bytes)
  | VSeq (vs : list Value)
  | VSet (vs : list Value)
  | VMap (es : list (Value * Value))
  | VStruct (typ : bytes) (fs : list (bytes * bool * Value))
  | VOther (typ : bytes).

(** [replay.go] [type ReplayEncodingError] *)
Record ReplayEncodingError := mkEncodingError { e_Path : bytes; TypeName : bytes }.

(** What the encoding asks of the standard library: the digest of crypto/sha256,
    32 bytes, and the [%v] text of a map key, which only an error message shows
    (it prints the address of a pointer). *)
Class Stdlib := {
  Sum256 : bytes → bytes;
  Sprintv : Value → bytes;
  Sum256_length b : length (Sum256 b) = 32%nat;
  Sum256_bytes b : Forall byte (Sum256 b);
}.

(** ** Frames *)

(** [strconv.AppendInt] in base ten, on no prefix. *)
Definition AppendInt (n : Z) : bytes := key (pretty n).
(** [replay.go] [appendReplayFrame] *)
Definition appendReplayFrame (dst : bytes) (tag : Z) (body : bytes) : bytes :=
  ((dst ++ [tag]) ++ AppendInt (Z.of_nat (length body))) ++ [58] ++ body.

(** [sort.Strings] *)
Fixpoint bytes_le (a b : bytes) : bool :=
  match a, b with
  | [], _ => true
  | _ :: _, [] => false
  | x :: a, y :: b => (x <? y) || (x =? y) && bytes_le a b
  end.
Definition Strings : list bytes → list bytes := merge_sort bytes_le.

(** [math.Float64bits] of a float given by its bit pattern. *)
Definition Float64bits (bits : Z) : Z := u64 bits.

Definition result : Type := (ReplayEncodingError + bytes)%type.
Definition encoder : Type := bytes → Value → bytes → result.

Section encode.
Context `{Stdlib}.

(** [replay.go] [replayBytesOf] *)
Definition replayBytesOf (slice : bool) (v : bytes) : bytes :=
  if slice then v else map (λ i, v !!! i) (seq 0 (length v)).

(** The parts of the composite kinds, over the encoder of their elements. *)
Section parts.
Context (encode : encoder).

(** [replay.go] [appendReplaySequence]: the loop and the frame. *)
Fixpoint sequence_loop (body : bytes) (vs : list Value) (path : bytes) (i : Z) : result :=
  match vs with
  | [] => inr body
  | v :: vs =>
      match encode body v (path ++ key "[" ++ AppendInt i ++ key "]") with
      | inl err => inl err
      | inr body => sequence_loop body vs path (i + 1)
      end
  end.
(** [replay.go] [appendReplaySequence] *)
Definition appendReplaySequence (dst : bytes) (vs : list Value) (path : bytes) : result :=
  match sequence_loop [] vs path 0 with
  | inl err => inl err
  | inr body => inr (appendReplayFrame dst 108 body)
  end.

(** The members collected so far stand for the set [seen] too: both hold the
    same encodings. *)
Fixpoint set_loop (members : list bytes) (vs : list Value) (path : bytes) : ReplayEncodingError + list bytes :=
  match vs with
  | [] => inr members
  | v :: vs =>
      match encode [] v (path ++ key "{}") with
      | inl err => inl err
      | inr encoded =>
          if decide (encoded ∈ members) then set_loop members vs path else set_loop (members ++ [encoded]) vs path
      end
  end.
(** [replay.go] [appendReplaySet] *)
Definition appendReplaySet (dst : bytes) (vs : list Value) (path : bytes) : result :=
  match set_loop [] vs path with
  | inl err => inl err
  | inr members => inr (appendReplayFrame dst 116 (mjoin (Strings members)))
  end.

Fixpoint map_loop (entries : list bytes) (es : list (Value * Value)) (path : bytes) : ReplayEncodingError + list bytes :=
  match es with
  | [] => inr entries
  | (k, v) :: es =>
      match encode [] k (path ++ key "[key]") with
      | inl err => inl err
      | inr encoded =>
          match encode encoded v (path ++ key "[" ++ Sprintv k ++ key "]") with
          | inl err => inl err
          | inr encoded => map_loop (entries ++ [encoded]) es path
          end
      end
  end.
(** [replay.go] [appendReplayMap] *)
Definition appendReplayMap (dst : bytes) (es : list (Value * Value)) (path : bytes) : result :=
  match map_loop [] es path with
  | inl err => inl err
  | inr entries => inr (appendReplayFrame dst 109 (mjoin (Strings entries)))
  end.

(** A name goes through [reflect.ValueOf]: it is the frame of a string, and
    never an error. *)
Fixpoint struct_loop (body : bytes) (fs : list (bytes * bool * Value)) (path : bytes) (exported : nat) : ReplayEncodingError + bytes * nat :=
  match fs with
  | [] => inr (body, exported)
  | (name, true, v) :: fs =>
      match encode (appendReplayFrame body 115 name) v (path ++ key "." ++ name) with
      | inl err => inl err
      | inr body => struct_loop body fs path (S exported)
      end
  | (_, false, _) :: fs => struct_loop body fs path exported
  end.
(** [replay.go] [appendReplayStruct] *)
Definition appendReplayStruct (dst typ : bytes) (fs : list (bytes * bool * Value)) (path : bytes) : result :=
  match struct_loop (appendReplayFrame [] 115 typ) fs path 0 with
  | inl err => inl err
  | inr (body, exported) =>
      if decide (exported = 0%nat) then inl (mkEncodingError path typ) else inr (appendReplayFrame dst 100 body)
  end.
End parts.

(** [replay.go] [appendReplayCanonical] *)
Fixpoint appendReplayCanonical (dst : bytes) (v : Value) (path : bytes) {struct v} : result :=
  match v with
  | VNil => inr (dst ++ key "n0:")
  | VRef v => appendReplayCanonical dst v path
  | VBool true => inr (dst ++ key "b1:1")
  | VBool false => inr (dst ++ key "b1:0")
  | VInt n => inr (appendReplayFrame dst 105 (AppendInt n))
  | VUint n => inr (appendReplayFrame dst 105 (AppendInt n))
  | VFloat bits => inr (appendReplayFrame dst 102 (hex16 (Float64bits bits)))
  | VString s => inr (appendReplayFrame dst 115 s)
  | VBytes slice b => inr (appendReplayFrame dst 121 (replayBytesOf slice b))
  | VSeq vs => appendReplaySequence appendReplayCanonical dst vs path
  | VSet vs => appendReplaySet appendReplayCanonical dst vs path
  | VMap es => appendReplayMap appendReplayCanonical dst es path
  | VStruct typ fs => appendReplayStruct appendReplayCanonical dst typ fs path
  | VOther typ => inl (mkEncodingError path typ)
  end.
(** [replay.go] [ReplayCanonicalBytes] *)
Definition ReplayCanonicalBytes (v : Value) : result := appendReplayCanonical [] v (key "value").

(** [hex.EncodeToString] *)
Definition EncodeToString (b : bytes) : bytes :=
  mjoin (map (λ c, [hex_digit (Z.land (Z.shiftr c 4) 15); hex_digit (Z.land c 15)]) b).
(** [replay.go] [ReplayCanonicalDigest] *)
Definition ReplayCanonicalDigest (v : Value) : result :=
  match ReplayCanonicalBytes v with
  | inl err => inl err
  | inr encoded => inr (EncodeToString (Sum256 encoded))
  end.
End encode.

(** ** What is one value *)

Fixpoint strip (v : Value) : Value := match v with VRef v => strip v | _ => v end.

Section all2.
Context {A B : Type} (R : A → B → Prop).
Fixpoint all2 (l : list A) (k : list B) : Prop :=
  match l, k with
  | [], [] => True
  | x :: l, y :: k => R x y ∧ all2 l k
  | _, _ => False
  end.
Fixpoint some1 (l : list A) (y : B) : Prop := match l with [] => False | x :: l => R x y ∨ some1 l y end.
Fixpoint each1 (l : list A) (k : list B) : Prop := match l with [] => True | x :: l => (∃ y, y ∈ k ∧ R x y) ∧ each1 l k end.
End all2.

Definition exported (fs : list (bytes * bool * Value)) : list (bytes * bool * Value) := base.filter (λ f, f.1.2 = true) fs.
Section same_fields.
Context (R : Value → Value → Prop).
Fixpoint same_fields (fs gs : list (bytes * bool * Value)) : Prop :=
  match fs with
  | [] => gs = []
  | (name, true, v) :: fs => match gs with (name', _, w) :: gs => name = name' ∧ R v w ∧ same_fields fs gs | [] => False end
  | (_, false, _) :: fs => same_fields fs gs
  end.
End same_fields.

(** Equality of observed values: a pointer or interface is what it holds, signed
    and unsigned integers are numbers, floats are bit patterns, a slice or array
    is a sequence, a set ignores order and repetition, a map is its entries in
    any order, a struct its type name and its exported fields. *)
Fixpoint Same (v w : Value) : Prop :=
  match v with
  | VRef v => Same v w
  | VNil => strip w = VNil
  | VBool b => strip w = VBool b
  | VInt n | VUint n => match strip w with VInt m | VUint m => n = m | _ => False end
  | VFloat b => match strip w with VFloat c => u64 b = u64 c | _ => False end
  | VString s => strip w = VString s
  | VBytes _ b => match strip w with VBytes _ c => b = c | _ => False end
  | VSeq vs => match strip w with VSeq ws => all2 Same vs ws | _ => False end
  | VSet vs => match strip w with VSet ws => each1 Same vs ws ∧ (∀ x, x ∈ ws → some1 Same vs x) | _ => False end
  | VMap es =>
      match strip w with
      | VMap fs => ∃ gs, gs ≡ₚ fs ∧ all2 (λ e g, Same e.1 g.1 ∧ Same e.2 g.2) es gs
      | _ => False
      end
  | VStruct t fs => match strip w with VStruct t' gs => t = t' ∧ same_fields Same fs (exported gs) | _ => False end
  | VOther _ => False
  end.

(** ** Induction over values *)

Section Value_ind.
Context (P : Value → Prop) (Hnil : P VNil) (Href : ∀ v, P v → P (VRef v)) (Hbool : ∀ b, P (VBool b))
  (Hint : ∀ n, P (VInt n)) (Huint : ∀ n, P (VUint n)) (Hfloat : ∀ b, P (VFloat b)) (Hstr : ∀ s, P (VString s))
  (Hbytes : ∀ a b, P (VBytes a b)) (Hseq : ∀ vs, Forall P vs → P (VSeq vs)) (Hset : ∀ vs, Forall P vs → P (VSet vs))
  (Hmap : ∀ es, Forall (λ e, P e.1 ∧ P e.2) es → P (VMap es)) (Hstruct : ∀ t fs, Forall (λ f, P f.2) fs → P (VStruct t fs))
  (Hother : ∀ t, P (VOther t)).
Fixpoint Value_nested (v : Value) : P v :=
  match v with
  | VNil => Hnil
  | VRef v => Href v (Value_nested v)
  | VBool b => Hbool b
  | VInt n => Hint n
  | VUint n => Huint n
  | VFloat b => Hfloat b
  | VString s => Hstr s
  | VBytes a b => Hbytes a b
  | VSeq vs => Hseq vs ((fix go l : Forall P l := match l with [] => Forall_nil_2 _ | v :: l => Forall_cons_2 _ _ _ (Value_nested v) (go l) end) vs)
  | VSet vs => Hset vs ((fix go l : Forall P l := match l with [] => Forall_nil_2 _ | v :: l => Forall_cons_2 _ _ _ (Value_nested v) (go l) end) vs)
  | VMap es => Hmap es ((fix go l : Forall (λ e, P e.1 ∧ P e.2) l :=
      match l with [] => Forall_nil_2 _ | e :: l => Forall_cons_2 _ _ _ (conj (Value_nested e.1) (Value_nested e.2)) (go l) end) es)
  | VStruct t fs => Hstruct t fs ((fix go l : Forall (λ f, P f.2) l :=
      match l with [] => Forall_nil_2 _ | f :: l => Forall_cons_2 _ _ _ (Value_nested f.2) (go l) end) fs)
  | VOther t => Hother t
  end.
End Value_ind.

(** ** Frames delimit themselves *)

Lemma key_inj s t : key s = key t → s = t.
Proof.
  unfold key. intros He. rewrite <-(String.string_of_list_ascii_of_string s), <-(String.string_of_list_ascii_of_string t). f_equal.
  revert He. generalize (String.list_ascii_of_string s) (String.list_ascii_of_string t). intros l k.
  apply list_fmap_eq_inj. intros a b Hab. apply N2Z.inj in Hab. rewrite <-(ascii_N_embedding a), <-(ascii_N_embedding b). by f_equal.
Qed.
Lemma AppendInt_inj m n : AppendInt m = AppendInt n → m = n.
Proof. intros He. apply key_inj in He. by apply (inj pretty) in He. Qed.

Lemma digit_no_colon n : pretty_N_char n ≠ ":"%char.
Proof. unfold pretty_N_char. repeat case_match; done. Qed.
Definition no_colon (s : string) : Prop := 58 ∉ key s.
Lemma no_colon_cons c s : c ≠ ":"%char → no_colon s → no_colon (String c s).
Proof.
  unfold no_colon, key. simpl. intros Hc Hs. rewrite elem_of_cons. intros [He|He]; [|done]. apply Hc.
  rewrite <-(ascii_N_embedding c). replace (N_of_ascii c) with 58%N by lia. done.
Qed.
Lemma digits_no_colon x s : no_colon s → no_colon (pretty_N_go x s).
Proof.
  revert s. induction (N.lt_wf_0 x) as [x _ IH]; intros s Hs. destruct (decide (0 < x)%N).
  - rewrite pretty_N_go_step by done. apply IH; [by apply N.div_lt|]. apply no_colon_cons; [apply digit_no_colon|done].
  - replace x with 0%N by lia. by rewrite pretty_N_go_0.
Qed.
Lemma nat_no_colon (n : nat) : 58 ∉ AppendInt (Z.of_nat n).
Proof.
  assert (H0 : no_colon "") by (unfold no_colon; simpl; apply not_elem_of_nil).
  change (no_colon (pretty (Z.of_nat n))). destruct n as [|n]; [apply no_colon_cons; done|].
  change (no_colon (pretty (N.pos (Pos.of_succ_nat n)))). unfold pretty, pretty_N. case_decide; [done|]. by apply digits_no_colon.
Qed.

Lemma colon_split {A} (x : A) a b r s : x ∉ a → x ∉ b → a ++ x :: r = b ++ x :: s → a = b ∧ r = s.
Proof.
  revert b. induction a as [|y a IH]; intros [|z b]; simpl; rewrite ?not_elem_of_cons; intros Ha Hb [=]; subst; [done|naive_solver..|].
  destruct (IH b) as [-> ->]; naive_solver.
Qed.

Definition frame (tag : Z) (body : bytes) : bytes := appendReplayFrame [] tag body.
Lemma appendReplayFrame_dst dst tag body : appendReplayFrame dst tag body = dst ++ frame tag body.
Proof. unfold frame, appendReplayFrame. by rewrite <-!(assoc app). Qed.
Lemma frame_inj t b t' b' r s : frame t b ++ r = frame t' b' ++ s → t = t' ∧ b = b' ∧ r = s.
Proof.
  unfold frame, appendReplayFrame. simpl. intros [= -> He]. rewrite <-!(assoc app) in He. simpl in He.
  apply colon_split in He as [Hn He]; [|apply nat_no_colon..]. apply AppendInt_inj in Hn. apply app_inj_1 in He as [-> ->]; [done|lia].
Qed.
Lemma frame_eq t b t' b' : frame t b = frame t' b' ↔ t = t' ∧ b = b'.
Proof. split; [|by intros [-> ->]]. intros He. destruct (frame_inj t b t' b' [] []) as (-> & -> & _); [by rewrite !app_nil_r|done]. Qed.

(** Words of a code that delimits itself: their concatenation is read back. *)
Definition delimits (P : bytes → Prop) : Prop := ∀ a b r s, P a → P b → a ++ r = b ++ s → a = b ∧ r = s.
Definition is_frame (a : bytes) : Prop := ∃ t b, a = frame t b.
Definition is_pair (a : bytes) : Prop := ∃ k v, is_frame k ∧ is_frame v ∧ a = k ++ v.
Lemma frames_delimit : delimits is_frame.
Proof. intros ? ? r s (t & b & ->) (t' & b' & ->) He. by apply frame_inj in He as (-> & -> & ->). Qed.
Lemma pair_inj k v k' v' r s : is_frame k → is_frame v → is_frame k' → is_frame v' →
  (k ++ v) ++ r = (k' ++ v') ++ s → k = k' ∧ v = v' ∧ r = s.
Proof.
  intros Hk Hv Hk' Hv'. rewrite <-!(assoc app). intros He. apply frames_delimit in He as [-> He]; [|done..].
  by apply frames_delimit in He as [-> ->].
Qed.
Lemma pairs_delimit : delimits is_pair.
Proof. intros ? ? r s (k & v & Hk & Hv & ->) (k' & v' & Hk' & Hv' & ->) He. by apply pair_inj in He as (-> & -> & ->). Qed.
Lemma frame_nonempty a : is_frame a → a ≠ [].
Proof. by intros (t & b & ->). Qed.
Lemma pair_nonempty a : is_pair a → a ≠ [].
Proof. intros (k & v & Hk & _ & ->) [-> _]%app_eq_nil. by apply frame_nonempty in Hk. Qed.
Lemma words_inj P (es fs : list bytes) : delimits P → (∀ a, P a → a ≠ []) → Forall P es → Forall P fs → mjoin es = mjoin fs → es = fs.
Proof.
  intros Hd Hn He. revert fs. induction He as [|e es He Hes IH]; intros fs Hf Hj; destruct Hf as [|f fs Hf Hfs]; simpl in Hj; [done|..].
  - symmetry in Hj. apply app_eq_nil in Hj as [-> _]. by destruct (Hn _ Hf).
  - apply app_eq_nil in Hj as [-> _]. by destruct (Hn _ He).
  - apply Hd in Hj as [-> Hj]; [|done..]. f_equal. by apply IH.
Qed.

(** ** The order of byte strings *)

#[export] Instance bytes_le_total : Total bytes_le.
Proof.
  intros a. induction a as [|x a IH]; intros [|y b]; simpl; [by left..|by right|].
  rewrite !Is_true_true, !orb_true_iff, !andb_true_iff, !Z.ltb_lt, !Z.eqb_eq.
  destruct (Z.lt_trichotomy x y) as [?|[->|?]]; [by left; left| |by right; left]. destruct (IH b) as [?%Is_true_true|?%Is_true_true]; auto.
Qed.
#[export] Instance bytes_le_trans : Transitive bytes_le.
Proof.
  intros a. induction a as [|x a IH]; intros [|y b] [|z c]; simpl; try done.
  rewrite !Is_true_true, !orb_true_iff, !andb_true_iff, !Z.ltb_lt, !Z.eqb_eq. intros [?|[-> Ha]] [?|[-> Hb]]; [left; lia|by left|by left|].
  right. split; [done|]. apply Is_true_true. apply (IH b); by apply Is_true_true.
Qed.
#[export] Instance bytes_le_anti : AntiSymm (=) bytes_le.
Proof.
  intros a. induction a as [|x a IH]; intros [|y b]; simpl; try done.
  rewrite !Is_true_true, !orb_true_iff, !andb_true_iff, !Z.ltb_lt, !Z.eqb_eq. intros [?|[-> Ha]] [?|[He Hb]]; try lia.
  f_equal. apply IH; by apply Is_true_true.
Qed.
Lemma Strings_perm l : Strings l ≡ₚ l.
Proof. apply merge_sort_Permutation. Qed.
Lemma Strings_sorted l : StronglySorted bytes_le (Strings l).
Proof. apply (StronglySorted_merge_sort bytes_le). Qed.
Lemma Strings_eq l k : Strings l = Strings k ↔ l ≡ₚ k.
Proof.
  split; [intros He; by rewrite <-(Strings_perm l), He, Strings_perm|].
  intros He. apply (StronglySorted_unique bytes_le); [apply Strings_sorted..|]. by rewrite !Strings_perm.
Qed.
#[export] Instance Strings_proper : Proper ((≡ₚ) ==> (=)) Strings.
Proof. intros l k Hp. by apply Strings_eq. Qed.

#[local] Opaque frame appendReplayFrame.

(** ** The encoding as a function of the value alone *)

(** The types of the parts that have no encoding, in the order they are met. *)
Fixpoint offenders (v : Value) : list bytes :=
  match v with
  | VRef v => offenders v
  | VSeq vs | VSet vs => mjoin (map offenders vs)
  | VMap es => mjoin (map (λ e, offenders e.1 ++ offenders e.2) es)
  | VStruct t fs =>
      if existsb (λ f, f.1.2) fs then mjoin (map (λ f, if f.1.2 : bool then offenders f.2 else []) fs) else [t]
  | VOther t => [t]
  | _ => []
  end.
(** A value with an encoding. *)
Definition Encodable (v : Value) : Prop := offenders v = [].
#[export] Instance Encodable_dec v : Decision (Encodable v).
Proof. unfold Encodable. apply _. Defined.

Definition once (es : list bytes) : list bytes := foldl (λ m e, if decide (e ∈ m) then m else m ++ [e]) [] es.

Fixpoint canon (v : Value) : bytes :=
  match v with
  | VNil => frame 110 []
  | VRef v => canon v
  | VBool b => frame 98 [if b then 49 else 48]
  | VInt n | VUint n => frame 105 (AppendInt n)
  | VFloat b => frame 102 (hex16 (u64 b))
  | VString s => frame 115 s
  | VBytes _ b => frame 121 b
  | VSeq vs => frame 108 (mjoin (map canon vs))
  | VSet vs => frame 116 (mjoin (Strings (once (map canon vs))))
  | VMap es => frame 109 (mjoin (Strings (map (λ e, canon e.1 ++ canon e.2) es)))
  | VStruct t fs => frame 100 (frame 115 t ++ mjoin (map (λ f, if f.1.2 : bool then frame 115 f.1.1 ++ canon f.2 else []) fs))
  | VOther _ => []
  end.

(** What the code returns: the result, or an error that names the first offender. *)
Definition reports {A} (os : list bytes) (r : ReplayEncodingError + A) (good : A) : Prop :=
  match os with [] => r = inr good | t :: _ => ∃ p, r = inl (mkEncodingError p t) end.

Lemma reports_bind {A B} os os' (r : ReplayEncodingError + A) x (f : A → ReplayEncodingError + B) y :
  reports os r x → reports os' (f x) y → reports (os ++ os') (match r with inl e => inl e | inr b => f b end) y.
Proof. destruct os as [|t os]; simpl; [by intros ->|]. by intros [p ->]; exists p. Qed.
Lemma reports_done {A B} os (r : ReplayEncodingError + A) x (f : A → B) y : reports os r x → y = f x →
  reports os (match r with inl e => inl e | inr b => inr (f b) end) y.
Proof. intros Hr ->. rewrite <-(app_nil_r os). eapply reports_bind; [exact Hr|done]. Qed.

Lemma replayBytesOf_id slice b : replayBytesOf slice b = b.
Proof.
  destruct slice; [done|]. unfold replayBytesOf. apply list_eq. intros i. change (map ?f ?l) with (f <$> l). rewrite list_lookup_fmap.
  destruct (decide (i < length b)%nat) as [Hi|Hi].
  - rewrite lookup_seq_lt by done. simpl. symmetry. by apply list_lookup_lookup_total_lt.
  - rewrite lookup_seq_ge by lia. symmetry. apply lookup_ge_None. lia.
Qed.

Lemma exported_cons n (ex : bool) v fs : exported ((n, ex, v) :: fs) = if ex then (n, ex, v) :: exported fs else exported fs.
Proof. by destruct ex. Qed.
Lemma exported_elem fs f : f ∈ exported fs ↔ f.1.2 = true ∧ f ∈ fs.
Proof. unfold exported. by rewrite list_elem_of_filter. Qed.
#[local] Opaque exported.

Section refine.
Context `{Stdlib}.
Let encodes v : Prop := ∀ dst p, reports (offenders v) (appendReplayCanonical dst v p) (dst ++ canon v).

Lemma sequence_loop_spec vs body p i : Forall (λ v, encodes v) vs →
  reports (mjoin (map offenders vs)) (sequence_loop appendReplayCanonical body vs p i) (body ++ mjoin (map canon vs)).
Proof.
  intros Hv. revert body i. induction Hv as [|v vs Hv _ IH]; intros body i; simpl; [by rewrite app_nil_r|].
  rewrite (assoc app). eapply reports_bind; [apply Hv|apply IH].
Qed.
Lemma set_loop_spec vs members p : Forall (λ v, encodes v) vs →
  reports (mjoin (map offenders vs)) (set_loop appendReplayCanonical members vs p)
    (foldl (λ m e, if decide (e ∈ m) then m else m ++ [e]) members (map canon vs)).
Proof.
  intros Hv. revert members. induction Hv as [|v vs Hv _ IH]; intros members; simpl; [done|].
  eapply reports_bind; [apply Hv|]. simpl. case_decide; apply IH.
Qed.
Lemma map_loop_spec es entries p : Forall (λ e, encodes e.1 ∧ encodes e.2) es →
  reports (mjoin (map (λ e, offenders e.1 ++ offenders e.2) es)) (map_loop appendReplayCanonical entries es p)
    (entries ++ map (λ e, canon e.1 ++ canon e.2) es).
Proof.
  intros He. revert entries. induction He as [|[k v] es [Hk Hv] _ IH]; intros entries; simpl in *; [by rewrite app_nil_r|].
  rewrite <-(assoc app). eapply reports_bind; [apply Hk|]. eapply reports_bind; [apply Hv|]. simpl.
  specialize (IH (entries ++ [canon k ++ canon v])). by rewrite <-(assoc app) in IH.
Qed.
Lemma struct_loop_spec fs body p n : Forall (λ f, encodes f.2) fs →
  reports (mjoin (map (λ f, if f.1.2 : bool then offenders f.2 else []) fs)) (struct_loop appendReplayCanonical body fs p n)
    (body ++ mjoin (map (λ f, if f.1.2 : bool then frame 115 f.1.1 ++ canon f.2 else []) fs), (n + length (exported fs))%nat).
Proof.
  intros Hf. revert body n. induction Hf as [|[[name ex] v] fs Hv _ IH]; intros body n; simpl in *; [by rewrite app_nil_r, Nat.add_0_r|].
  destruct ex; simpl.
  - eapply reports_bind; [apply Hv|]. simpl. specialize (IH (appendReplayFrame body 115 name ++ canon v) (S n)).
    rewrite appendReplayFrame_dst, exported_cons in *. simpl. rewrite <-!(assoc app) in *. by rewrite Nat.add_succ_r.
  - rewrite exported_cons. apply IH.
Qed.
Lemma exported_none fs : existsb (λ f, f.1.2) fs = false ↔ exported fs = [].
Proof. induction fs as [|[[name []] v] fs IH]; rewrite ?exported_cons; simpl; [done|done|apply IH]. Qed.

Lemma encode_spec v dst p : reports (offenders v) (appendReplayCanonical dst v p) (dst ++ canon v).
Proof.
  revert dst p. induction v as [|v IH|[]|n|n|b|s|sl b|vs IH|vs IH|es IH|t fs IH|t] using Value_nested; intros dst p; simpl;
    rewrite ?appendReplayFrame_dst, ?replayBytesOf_id; try done; [..|by eexists].
  - unfold appendReplaySequence. eapply (reports_done _ _ _ (appendReplayFrame dst 108)); [by apply sequence_loop_spec|]. by rewrite appendReplayFrame_dst.
  - unfold appendReplaySet. eapply (reports_done _ _ _ (λ m, appendReplayFrame dst 116 (mjoin (Strings m)))); [by apply set_loop_spec|]. by rewrite appendReplayFrame_dst.
  - unfold appendReplayMap. eapply (reports_done _ _ _ (λ m, appendReplayFrame dst 109 (mjoin (Strings m)))); [by apply map_loop_spec|]. by rewrite appendReplayFrame_dst.
  - unfold appendReplayStruct. pose proof (struct_loop_spec fs (appendReplayFrame [] 115 t) p 0 IH) as Hl. simpl in Hl.
    destruct (existsb _ fs) eqn:He.
    + rewrite <-(app_nil_r (mjoin _)). eapply reports_bind; [exact Hl|]. simpl. rewrite decide_False.
      * by rewrite appendReplayFrame_dst.
      * intros Hn%length_zero_iff_nil%exported_none. congruence.
    + pose proof He as Hx%exported_none. rewrite Hx in Hl.
      replace (mjoin (map _ fs)) with (@nil bytes) in Hl; [simpl in Hl; rewrite Hl; simpl; by eexists|].
      clear -He. induction fs as [|[[name []] v] fs IH]; simpl in *; [done..|by apply IH].
Qed.
End refine.

Lemma canon_frame v : Encodable v → is_frame (canon v).
Proof. induction v using Value_nested; unfold Encodable; simpl; intros; first [discriminate | by apply IHv | by eexists _, _]. Qed.
Lemma strip_strip v : strip (strip v) = strip v.
Proof. by induction v. Qed.
Lemma strip_not_ref v w : strip v ≠ VRef w.
Proof. by induction v. Qed.
Lemma canon_strip v : canon (strip v) = canon v.
Proof. by induction v. Qed.
Lemma offenders_strip v : offenders (strip v) = offenders v.
Proof. by induction v. Qed.
Lemma Same_strip v w : Same v (strip w) ↔ Same v w.
Proof. induction v; simpl; rewrite ?strip_strip; done. Qed.

Lemma mjoin_nil {A} (ls : list (list A)) : mjoin ls = [] ↔ Forall (λ l, l = []) ls.
Proof.
  induction ls as [|l ls IH]; simpl; [by split; auto|]. rewrite Forall_cons, <-IH. split; [by intros ?%app_eq_nil|by intros [-> ->]].
Qed.
Lemma offenders_all {A} (f : A → list bytes) l : mjoin (map f l) = [] ↔ Forall (λ x, f x = []) l.
Proof. rewrite mjoin_nil. change (map f l) with (f <$> l). by rewrite Forall_fmap. Qed.
Lemma canon_frames vs : Forall Encodable vs → Forall is_frame (map canon vs).
Proof. intros Hv. change (map canon vs) with (canon <$> vs). apply Forall_fmap. eapply Forall_impl; [exact Hv|apply canon_frame]. Qed.

(** *** Sequences *)
Lemma all2_canon vs ws : Forall (λ v, ∀ w, Encodable v → Encodable w → canon v = canon w ↔ Same v w) vs →
  Forall Encodable vs → Forall Encodable ws → map canon vs = map canon ws ↔ all2 Same vs ws.
Proof.
  intros IH. revert ws. induction IH as [|v vs Hv _ IH]; intros [|w ws] He Hf; simpl; [by split..|].
  rewrite Forall_cons in He, Hf. destruct He as [He Hes], Hf as [Hf Hfs].
  rewrite <-(Hv w), <-(IH ws) by done. split; [by intros [= -> ->]|by intros [-> ->]].
Qed.

(** *** Sets *)
Lemma once_spec es m : NoDup m → let k := foldl (λ m e, if decide (e ∈ m) then m else m ++ [e]) m es in
  NoDup k ∧ ∀ e : bytes, e ∈ k ↔ e ∈ m ∨ e ∈ es.
Proof.
  revert m. induction es as [|e es IH]; intros m Hm k; simpl in *; [set_solver|]. subst k. case_decide as Hin.
  - destruct (IH m Hm) as [Hn He]. split; [done|]. intros x. rewrite He. set_solver.
  - destruct (IH (m ++ [e])) as [Hn He]; [apply NoDup_app; split_and!; [done|set_solver|apply NoDup_singleton]|].
    split; [done|]. intros x. rewrite He. set_solver.
Qed.
Lemma once_elem es e : e ∈ once es ↔ e ∈ es.
Proof. destruct (once_spec es [] (NoDup_nil_2)) as [_ He]. unfold once. rewrite He. set_solver. Qed.
Lemma once_nodup es : NoDup (once es).
Proof. by destruct (once_spec es [] (NoDup_nil_2)). Qed.
Lemma once_perm es fs : once es ≡ₚ once fs ↔ ∀ e, e ∈ es ↔ e ∈ fs.
Proof.
  split; [intros Hp e; by rewrite <-(once_elem es), <-(once_elem fs), Hp|].
  intros He. apply NoDup_Permutation; [apply once_nodup..|]. intros e. by rewrite !once_elem.
Qed.
Lemma each1_spec {A B} (R : A → B → Prop) l k : each1 R l k ↔ ∀ x, x ∈ l → ∃ y, y ∈ k ∧ R x y.
Proof.
  induction l as [|x l IH]; simpl; [set_solver|]. rewrite IH. split; [intros [H1 H2] z [->|Hz]%elem_of_cons; auto|].
  intros Hx. split; [apply Hx; left|]. intros z Hz. apply Hx. by right.
Qed.
Lemma some1_spec {A B} (R : A → B → Prop) l y : some1 R l y ↔ ∃ x, x ∈ l ∧ R x y.
Proof.
  induction l as [|x l IH]; simpl; [set_solver|]. rewrite IH. split; [intros [Hx|(z & Hz & Hr)]; [exists x|exists z]; split; set_solver|].
  intros (z & [->|Hz]%elem_of_cons & Hr); [by left|right; by exists z].
Qed.
Lemma sets_canon vs ws : Forall (λ v, ∀ w, Encodable v → Encodable w → canon v = canon w ↔ Same v w) vs →
  Forall Encodable vs → Forall Encodable ws →
  (∀ e, e ∈ map canon vs ↔ e ∈ map canon ws) ↔ each1 Same vs ws ∧ (∀ x, x ∈ ws → some1 Same vs x).
Proof.
  rewrite !Forall_forall. intros IH Hv Hw. rewrite each1_spec. setoid_rewrite some1_spec.
  assert (Hm : ∀ e us, e ∈ map canon us ↔ ∃ u, e = canon u ∧ u ∈ us) by (intros e us; apply list_elem_of_fmap).
  setoid_rewrite Hm. split.
  - intros He. split.
    + intros x Hx. destruct (proj1 (He (canon x))) as (y & Hy & Hyw); [by exists x|]. exists y. split; [done|]. apply IH; auto.
    + intros y Hy. destruct (proj2 (He (canon y))) as (x & Hx & Hxv); [by exists y|]. exists x. split; [done|]. apply IH; auto.
  - intros [H1 H2] e. split; intros (u & -> & Hu).
    + destruct (H1 u Hu) as (y & Hy & Hs). exists y. split; [|done]. apply IH; auto.
    + destruct (H2 u Hu) as (x & Hx & Hs). exists x. split; [|done]. symmetry. apply IH; auto.
Qed.

(** *** Maps *)
Definition entry (e : Value * Value) : bytes := canon e.1 ++ canon e.2.
Definition entry_ok (e : Value * Value) : Prop := Encodable e.1 ∧ Encodable e.2.
Lemma entry_pair e : entry_ok e → is_pair (entry e).
Proof. intros [? ?]. exists (canon e.1), (canon e.2). auto using canon_frame. Qed.
Lemma entry_inj e f : entry_ok e → entry_ok f → entry e = entry f ↔ canon e.1 = canon f.1 ∧ canon e.2 = canon f.2.
Proof.
  unfold entry. intros [? ?] [? ?]. split; [|by intros [-> ->]]. intros He.
  destruct (pair_inj (canon e.1) (canon e.2) (canon f.1) (canon f.2) [] []) as (-> & -> & _); auto using canon_frame. by rewrite !app_nil_r.
Qed.
Lemma all2_entries es gs :
  Forall (λ e, (∀ w, Encodable e.1 → Encodable w → canon e.1 = canon w ↔ Same e.1 w) ∧
               (∀ w, Encodable e.2 → Encodable w → canon e.2 = canon w ↔ Same e.2 w)) es →
  Forall entry_ok es → Forall entry_ok gs →
  map entry es = map entry gs ↔ all2 (λ e g, Same e.1 g.1 ∧ Same e.2 g.2) es gs.
Proof.
  intros IH. revert gs. induction IH as [|e es [H1 H2] _ IH]; intros [|g gs] He Hg; simpl; [by split..|].
  rewrite Forall_cons in He, Hg. destruct He as [He Hes], Hg as [Hg Hgs]. rewrite <-(IH gs) by done.
  destruct He as [He1 He2], Hg as [Hg1 Hg2]. rewrite <-(H1 g.1), <-(H2 g.2), <-entry_inj by done.
  split; [by intros [= -> ->]|by intros [-> ->]].
Qed.
Lemma permuted_map {A B} (f : A → B) l k : k ≡ₚ map f l → ∃ l', l' ≡ₚ l ∧ k = map f l'.
Proof. intros Hp. destruct (Permutation_map_inv f _ Hp) as (l' & -> & Hl). by exists l'. Qed.

(** *** Structs *)
Definition field (f : bytes * bool * Value) : bytes := if f.1.2 then frame 115 f.1.1 ++ canon f.2 else [].
Lemma mjoin_exported fs : mjoin (map field fs) = mjoin (map field (exported fs)).
Proof. induction fs as [|[[n []] v] fs IH]; rewrite ?exported_cons; simpl; [done|by f_equal|done]. Qed.
Definition field_ok (f : bytes * bool * Value) : Prop := f.1.2 = true → Encodable f.2.
Lemma field_pair f : f.1.2 = true → field_ok f → is_pair (field f).
Proof. intros He Hf. unfold field. rewrite He. exists (frame 115 f.1.1), (canon f.2). split_and!; [by eexists _, _|by apply canon_frame, Hf|done]. Qed.
Lemma fields_canon fs gs : Forall (λ f, ∀ w, Encodable f.2 → Encodable w → canon f.2 = canon w ↔ Same f.2 w) fs →
  Forall field_ok fs → Forall field_ok gs → Forall (λ g, g.1.2 = true) gs →
  map field (exported fs) = map field gs ↔ same_fields Same fs gs.
Proof.
  intros IH. revert gs. induction IH as [|[[n ex] v] fs Hv _ IH]; intros gs Hf Hg Hx.
  - simpl. destruct gs; simpl; done.
  - rewrite Forall_cons in Hf. destruct Hf as [Hf Hfs]. destruct ex; rewrite exported_cons; simpl in *; [|by apply IH].
    destruct gs as [|[[n' ex'] w] gs]; simpl; [done|]. rewrite Forall_cons in Hg, Hx. destruct Hg as [Hg Hgs], Hx as [Hx Hxs]. simpl in *; subst ex'.
    rewrite <-(IH gs), <-(Hv w) by (done || by first [apply Hf|apply Hg]). unfold field at 1 3. simpl. split; [|by intros (-> & -> & ->)].
    intros [He ->]%cons_eq_inj. destruct (pair_inj (frame 115 n) (canon v) (frame 115 n') (canon w) [] []) as (Hn & Hc & _);
      [by eexists _, _|by apply canon_frame, Hf|by eexists _, _|by apply canon_frame, Hg|by rewrite !app_nil_r|].
    apply frame_eq in Hn as [_ ->]. by rewrite Hc.
Qed.
Lemma struct_ok t fs : Encodable (VStruct t fs) ↔ exported fs ≠ [] ∧ Forall field_ok fs.
Proof.
  unfold Encodable. simpl. destruct (existsb _ fs) eqn:He.
  - rewrite offenders_all. split.
    + intros Hf. split; [intros Hn%exported_none; congruence|]. eapply Forall_impl; [exact Hf|]. intros [[n []] v]; unfold field_ok, Encodable; simpl; naive_solver.
    + intros [_ Hf]. eapply Forall_impl; [exact Hf|]. intros [[n []] v]; unfold field_ok, Encodable; simpl; naive_solver.
  - apply exported_none in He. split; [done|]. by intros [? _].
Qed.

(** *** The two directions *)

Lemma seq_ok vs : Encodable (VSeq vs) ↔ Forall Encodable vs.
Proof. apply offenders_all. Qed.
Lemma map_ok es : Encodable (VMap es) ↔ Forall entry_ok es.
Proof.
  unfold Encodable. simpl. rewrite offenders_all. apply Forall_iff. intros e. unfold entry_ok, Encodable. split; [apply app_eq_nil|by intros [-> ->]].
Qed.
Lemma canon_Same v w : Encodable v → Encodable w → canon v = canon w ↔ Same v w.
Proof.
  revert w. induction v as [|v IH|b|n|n|b|s|sl b|vs IH|vs IH|es IH|t fs IH|t] using Value_nested; intros w Hv Hw; [|by apply IH|..|done];
    rewrite <-Same_strip, <-(canon_strip w); unfold Encodable in Hw; rewrite <-offenders_strip in Hw; fold (Encodable (strip w)) in Hw;
    pose proof (strip_not_ref w) as Hr; pose proof (strip_strip w) as Hss; destruct (strip w) as [|u|c|m|m|c|s'|sl' c|ws|ws|gs|t' gs|t'];
    try (by destruct (Hr u)); try done; clear Hr Hss; cbn [canon Same strip]; rewrite ?frame_eq; try (by split; [intros [? ?]|]).
  - split; [intros [_ [=]]|intros [= ->]]; [by destruct b, c|done].
  - split; [intros [_ ->%AppendInt_inj]|intros ->]; done.
  - split; [intros [_ ->%AppendInt_inj]|intros ->]; done.
  - split; [intros [_ ->%AppendInt_inj]|intros ->]; done.
  - split; [intros [_ ->%AppendInt_inj]|intros ->]; done.
  - split; [intros [_ He%hex16_inj]|intros ->]; auto using u64_range.
  - split; [intros [_ ->]|intros [= ->]]; done.
  - apply seq_ok in Hv, Hw. rewrite <-all2_canon by done. split; [intros [_ He]|by intros ->].
    by apply (words_inj is_frame) in He; auto using frames_delimit, frame_nonempty, canon_frames.
  - apply seq_ok in Hv, Hw. rewrite <-sets_canon, <-once_perm, <-Strings_eq by done. split; [intros [_ He]|by intros ->].
    apply (words_inj is_frame) in He; [done|apply frames_delimit|apply frame_nonempty|..]; rewrite Strings_perm;
      apply Forall_forall; intros e; rewrite once_elem; revert e; apply Forall_forall; by apply canon_frames.
  - apply map_ok in Hv, Hw. fold entry. split.
    + intros [_ He]. apply (words_inj is_pair) in He; [|apply pairs_delimit|apply pair_nonempty|..].
      2,3: rewrite Strings_perm; change (map ?f ?l) with (f <$> l); apply Forall_fmap; eapply Forall_impl; [done|apply entry_pair].
      apply Strings_eq, permuted_map in He as (gs' & Hp & He). exists gs'. split; [done|]. apply all2_entries; [done..|by rewrite Hp|done].
    + intros (gs' & Hp & He). split; [done|]. apply all2_entries in He; [|done..|by rewrite Hp]. f_equal. apply Strings_eq. change (map entry es ≡ₚ map entry gs). by rewrite He, Hp.
  - change (mjoin (map _ fs)) with (mjoin (map field fs)). change (mjoin (map _ gs)) with (mjoin (map field gs)). apply struct_ok in Hv as [_ Hv], Hw as [_ Hw]. rewrite (mjoin_exported fs), (mjoin_exported gs).
    assert (Hok : ∀ l, Forall field_ok l → Forall is_pair (map field (exported l))).
    { intros l Hl. change (map ?f ?l) with (f <$> l). apply Forall_fmap, Forall_forall. intros f [Hx Hf]%exported_elem. rewrite Forall_forall in Hl. apply field_pair; auto. }
    rewrite <-fields_canon; [|done|done| |].
    + split; [|by intros [-> ->]]. intros [_ He]. apply frame_inj in He as (_ & -> & He). split; [done|].
      apply (words_inj is_pair) in He; auto using pairs_delimit, pair_nonempty.
    + apply Forall_forall. intros f [_ Hf]%exported_elem. rewrite Forall_forall in Hw. auto.
    + apply Forall_forall. intros f [Hx _]%exported_elem. done.
Qed.

(** A value that is the same as one with an encoding has one. *)
Lemma all2_elem {A B} (R : A → B → Prop) l k y : all2 R l k → y ∈ k → ∃ x, x ∈ l ∧ R x y.
Proof.
  revert k. induction l as [|x l IH]; intros [|z k]; simpl; try done; [by intros _ ?%not_elem_of_nil|].
  intros [Hr Hl] [->|Hy]%elem_of_cons; [exists x; split; [by left|done]|]. destruct (IH k Hl Hy) as (x' & ? & ?). exists x'. split; [by right|done].
Qed.
Lemma same_fields_elem R fs gs g : same_fields R fs gs → g ∈ gs → ∃ f, f ∈ fs ∧ f.1.2 = true ∧ R f.2 g.2.
Proof.
  revert gs. induction fs as [|[[n ex] v] fs IH]; intros gs Hs Hg; [simpl in Hs; subst; by apply not_elem_of_nil in Hg|].
  destruct ex; simpl in Hs.
  - destruct gs as [|[[n' ex'] w] gs]; [done|]. destruct Hs as (-> & Hr & Hs). apply elem_of_cons in Hg as [->|Hg].
    + exists (n', true, v). split; [by left|done].
    + destruct (IH gs Hs Hg) as (f & ? & ?). exists f. split; [by right|done].
  - destruct (IH gs Hs Hg) as (f & ? & ?). exists f. split; [by right|done].
Qed.
Lemma Same_Encodable v w : Same v w → Encodable v → Encodable w.
Proof.
  revert w. induction v as [|v IH|b|n|n|b|s|sl b|vs IH|vs IH|es IH|t fs IH|t] using Value_nested; intros w Hs Hv; [|by apply IH|..|done];
    unfold Encodable; rewrite <-offenders_strip; fold (Encodable (strip w)); cbn [Same] in Hs;
    destruct (strip w) as [|u|c|m|m|c|s'|sl' c|ws|ws|gs|t' gs|t']; try done.
  - apply seq_ok, Forall_forall. intros y Hy. destruct (all2_elem _ _ _ _ Hs Hy) as (x & Hx & Hr). apply seq_ok in Hv. rewrite Forall_forall in IH, Hv. eauto.
  - apply seq_ok, Forall_forall. intros y Hy. destruct Hs as [_ Hs]. apply Hs in Hy. apply some1_spec in Hy as (x & Hx & Hr). apply seq_ok in Hv. rewrite Forall_forall in IH, Hv. eauto.
  - apply map_ok, Forall_forall. intros y Hy. destruct Hs as (gs' & Hp & Hs). rewrite <-Hp in Hy. destruct (all2_elem _ _ _ _ Hs Hy) as (x & Hx & H1 & H2).
    apply map_ok in Hv. rewrite Forall_forall in IH, Hv. destruct (Hv x Hx), (IH x Hx). split; eauto.
  - destruct Hs as [-> Hs]. apply struct_ok in Hv as [Hn Hv]. apply struct_ok. split.
    + intros Hg. rewrite Hg in Hs. apply Hn. clear -Hs. induction fs as [|[[n []] v] fs IH]; rewrite ?exported_cons; simpl in *; auto; done.
    + apply Forall_forall. intros g Hg Hx. destruct (same_fields_elem _ _ _ g Hs) as (f & Hf & He & Hr); [by apply exported_elem|].
      rewrite Forall_forall in IH, Hv. apply (IH f Hf g.2 Hr). by apply Hv.
Qed.

(** ** Digests *)

Lemma hex_digit_pair a b : byte a → byte b →
  [hex_digit (Z.land (Z.shiftr a 4) 15); hex_digit (Z.land a 15)] = [hex_digit (Z.land (Z.shiftr b 4) 15); hex_digit (Z.land b 15)] → a = b.
Proof.
  intros Ha Hb [=H1 H2]. apply hex_digit_inj in H1; [|apply nibble_range..].
  apply hex_digit_inj in H2; [|rewrite <-(Z.shiftr_0_r a) at 1; apply nibble_range|rewrite <-(Z.shiftr_0_r b) at 1; apply nibble_range].
  change 15 with (Z.ones 4) in *. unfold byte in *. rewrite !Z.land_ones, ?Z.shiftr_div_pow2 in * by lia. change (2 ^ 4) with 16 in *.
  assert (a / 16 < 16 ∧ b / 16 < 16) as [? ?] by (split; apply Z.div_lt_upper_bound; lia).
  rewrite (Z.mod_small (a / 16)), (Z.mod_small (b / 16)) in H1 by (split; [apply Z.div_pos; lia|done]).
  rewrite (Z.div_mod a 16), (Z.div_mod b 16) by lia. congruence.
Qed.
Lemma EncodeToString_inj a b : Forall byte a → Forall byte b → EncodeToString a = EncodeToString b → a = b.
Proof.
  intros Ha. revert b. induction Ha as [|x a Hx Ha IH]; intros b Hb; destruct Hb as [|y b Hy Hb]; unfold EncodeToString; simpl; try done.
  intros He. f_equal; [|apply IH; [done|]; unfold EncodeToString; congruence]. apply hex_digit_pair; [done..|congruence].
Qed.
Lemma EncodeToString_length b : length (EncodeToString b) = (2 * length b)%nat.
Proof. induction b as [|x b IH]; [done|]. unfold EncodeToString in *. simpl. rewrite IH. lia. Qed.

Section digests.
Context `{Stdlib}.
(** The digest of a value with an encoding. *)
Definition digest (v : Value) : bytes := EncodeToString (Sum256 (canon v)).
(** Two byte strings that SHA-256 fails to tell apart. *)
Definition collide (a b : bytes) : Prop := a ≠ b ∧ Sum256 a = Sum256 b.

Lemma canonical_digest v : reports (offenders v) (ReplayCanonicalDigest v) (digest v).
Proof. unfold ReplayCanonicalDigest. eapply (reports_done _ _ _ (λ b, EncodeToString (Sum256 b))); [apply encode_spec|done]. Qed.
Lemma canonical_digest_ok v : Encodable v → ReplayCanonicalDigest v = inr (digest v).
Proof. intros Hv. pose proof (canonical_digest v) as Hr. unfold Encodable in Hv. by rewrite Hv in Hr. Qed.
Lemma canonical_digest_inv v d : ReplayCanonicalDigest v = inr d → Encodable v ∧ d = digest v.
Proof.
  pose proof (canonical_digest v) as Hr. intros Hd. unfold Encodable. destruct (offenders v); simpl in Hr; [rewrite Hr in Hd; naive_solver|].
  destruct Hr as [p Hr]. by rewrite Hr in Hd.
Qed.
Lemma digest_nonempty v : digest v ≠ [].
Proof. intros He%(f_equal length). unfold digest in He. by rewrite EncodeToString_length, Sum256_length in He. Qed.
Lemma digest_eq v w : Encodable v → Encodable w → digest v = digest w ↔ Same v w ∨ collide (canon v) (canon w).
Proof.
  intros Hv Hw. rewrite <-canon_Same by done. unfold digest, collide. split.
  - intros He%EncodeToString_inj; [|apply Sum256_bytes..]. destruct (decide (canon v = canon w)); auto.
  - by intros [->|[_ ->]].
Qed.

(** ** The property *)

(** C21: The canonical encoding is defined exactly on the values without an
    unsupported part; it gives two values one encoding exactly when they are the
    same value; and on any other value it is an error that names the type of the
    first unsupported part. *)
Theorem ReplayCanonicalBytes_canonical v :
  match offenders v with
  | [] => ∃ b, ReplayCanonicalBytes v = inr b ∧ ∀ w, ReplayCanonicalBytes w = inr b ↔ Same v w
  | t :: _ => ∃ p, ReplayCanonicalBytes v = inl (mkEncodingError p t)
  end.
Proof.
  pose proof (encode_spec v [] (key "value")) as Hr. destruct (offenders v) as [|t os] eqn:Hv; [|done].
  exists (canon v). split; [done|]. intros w. pose proof (encode_spec w [] (key "value")) as Hw. split.
  - intros He. unfold ReplayCanonicalBytes in He. destruct (offenders w) eqn:Hwo; simpl in Hw; [|destruct Hw; congruence].
    apply canon_Same; [done..|congruence].
  - intros Hs. pose proof (Same_Encodable v w Hs Hv) as He. unfold Encodable in He. rewrite He in Hw. simpl in Hw.
    unfold ReplayCanonicalBytes. rewrite Hw. f_equal. symmetry. by apply canon_Same.
Qed.
End digests.

(** A checksum in the place of SHA-256, to run the definitions. *)
Definition checksum (b : bytes) : bytes :=
  map (λ i, foldl (λ h c, (h * (2 * Z.of_nat i + 3) + c + 1) mod 65521) 7 b mod 256) (seq 0 32).
#[export] Program Instance checksum_stdlib : Stdlib := {| Sum256 := checksum; Sprintv := λ _, key "?" |}.
Next Obligation. intros b. unfold checksum. by rewrite length_map, length_seq. Qed.
Next Obligation. intros b. unfold checksum. change (map ?f ?l) with (f <$> l). apply Forall_fmap, Forall_true. intros i. by apply Z.mod_pos_bound. Qed.

(** Pieces cannot run together, order does not matter in a map and does in a
    sequence, and a channel has no encoding. *)
Lemma canonical_examples :
  ReplayCanonicalBytes (VSeq [VString (key "a"); VString (key "bc")]) = inr (key "l9:s1:as2:bc") ∧
  ReplayCanonicalBytes (VSeq [VString (key "ab"); VString (key "c")]) = inr (key "l9:s2:abs1:c") ∧
  ReplayCanonicalBytes (VMap [(VString (key "k"), VInt 1); (VString (key "j"), VRef (VUint 2))]) =
    ReplayCanonicalBytes (VMap [(VString (key "j"), VInt 2); (VRef (VString (key "k")), VInt 1)]) ∧
  ReplayCanonicalBytes (VSet [VInt 1; VUint 1]) = inr (key "t4:i1:1") ∧
  ReplayCanonicalBytes (VSeq [VNil; VOther (key "chan int")]) = inl (mkEncodingError (key "value[1]") (key "chan int")).
Proof. split_and!; vm_compute; exact eq_refl. Qed.
Lemma ReplayCanonicalBytes_canonical_witness :
  (∃ b, ReplayCanonicalBytes (VInt 1) = inr b ∧ ∀ w, ReplayCanonicalBytes w = inr b ↔ Same (VInt 1) w) ∧ Same (VInt 1) (VRef (VUint 1)).
Proof. split; [exact (ReplayCanonicalBytes_canonical (VInt 1))|reflexivity]. Defined.
