(* ===== verification/Replay.v ===== *)
(** * Replay: the replay-equivalence proof harness (replay.go)

    A graph is an object over a world [W]: everything its two methods can read or
    change, the caches of the graph, clocks and shared variables included.  So two
    graphs built from one constructor may well behave differently, which is what
    the harness is there to notice.  A map of observed values is a [gmap]; where
    the code ranges over one the model takes the order of [map_to_list], and only
    which of several encoding errors is returned depends on it. *)

From Stdlib Require Import Ascii.
From stdpp Require Import pretty.
From S2P Require Import Prelude Outbox MsgpackCodec Wire StableId ReplayEncode.
Local Open Scope Z_scope.

(** ** Errors *)

(** [replay.go] [type ReplayDivergence] *)
Record ReplayDivergence := mkDivergence {
  d_Seq : Z; d_Label : bytes; Kind : bytes; Expected : bytes; Actual : bytes; Preview : bytes }.

(** The faults [replayErrorf] reports, by what its message shows. *)
Inductive ProofFault :=
  | SeqNegative (seq : Z)
  | NameEmpty (i : Z)
  | NotIncreasing (seq previous : Z)
  | FrameNotEncoded (epoch : Z)
  | StrideBelowOne (stride : Z)
  | NoCheckpoints
  | UnsupportedSchema (version : Z)
  | NoBuildFunction
  | TooFewReplays (n : Z)
  | NoFingerprint
  | NoEventLog
  | NoGraph
  | CheckpointCounts (expected actual : nat).

(** The family of [ErrReplayProof].
    [replay.go] [type ReplayLogMismatchError] [type ReplayStrideMismatchError] [type ReplayDivergenceError] *)
Inductive ReplayError :=
  | ErrProof (fault : ProofFault)
  | ErrEncoding (err : ReplayEncodingError)
  | ErrLogMismatch (ExpectedDigest ActualDigest : bytes)
  | ErrStrideMismatch (ExpectedStride ActualStride : Z)
  | ErrDivergence (Divergences : list ReplayDivergence).

Definition outcome (A : Type) : Type := (ReplayError + A)%type.
Definition bind {A B} (f : A → outcome B) (r : outcome A) : outcome B := match r with inl err => inl err | inr a => f a end.
Notation "x ←? r ; k" := (bind (λ x, k) r) (at level 100, r at next level, k at level 200, right associativity).
Definition encoding {A} (r : ReplayEncodingError + A) : outcome A := match r with inl err => inl (ErrEncoding err) | inr a => inr a end.
Definition replayErrorf {A} (fault : ProofFault) : outcome A := inl (ErrProof fault).
Notation observation := (gmap bytes Value).

(** ** The log *)

(** [replay.go] [type ReplayEvent] *)
Record ReplayEvent := mkEvent { Seq : Z; Name : bytes; Payload : Value }.
(** [replay.go] [type ReplayRecord] *)
Record ReplayRecord := mkRecord { r_Name : bytes; r_Payload : Value }.
(** [replay.go] [type ReplayLog] *)
Record ReplayLog := mkLog { events : list ReplayEvent; l_digest : bytes }.

(** An event as reflection shows it; [Payload] is an interface, [VNil] or [VRef]. *)
Definition event_value (e : ReplayEvent) : Value :=
  VStruct (key "lazily.ReplayEvent") [(key "Seq", true, VInt (Seq e)); (key "Name", true, VString (Name e)); (key "Payload", true, Payload e)].
Definition events_value (es : list ReplayEvent) : Value := VSeq (map event_value es).

Section replay.
Context `{Stdlib}.

(** The order check of [NewReplayLog], at index [i] after [previous]. *)
Fixpoint check_events (i previous : Z) (es : list ReplayEvent) : outcome unit :=
  match es with
  | [] => inr tt
  | e :: es =>
      if Seq e <? 0 then replayErrorf (SeqNegative (Seq e))
      else if decide (Name e = []) then replayErrorf (NameEmpty i)
      else if (0 <? i) && (Seq e <=? previous) then replayErrorf (NotIncreasing (Seq e) previous)
      else check_events (i + 1) (Seq e) es
  end.
(** [replay.go] [NewReplayLog] *)
Definition NewReplayLog (owned : list ReplayEvent) : outcome ReplayLog :=
  _ ←? check_events 0 0 owned;
  digest ←? encoding (ReplayCanonicalDigest (events_value owned));
  inr (mkLog owned digest).
(** [replay.go] [NewReplayLogFromRecords] *)
Definition NewReplayLogFromRecords (records : list ReplayRecord) : outcome ReplayLog :=
  NewReplayLog (imap (λ i r, mkEvent (Z.of_nat i) (r_Name r) (r_Payload r)) records).
(** [replay.go] [ReplayLog.Digest] *)
Definition Digest (l : ReplayLog) : bytes := l_digest l.
(** [replay.go] [ReplayLog.Len] *)
Definition Len (l : ReplayLog) : nat := length (events l).
(** [replay.go] [ReplayLog.Event] *)
Definition Event (l : ReplayLog) (i : nat) : option ReplayEvent := events l !! i.
(** [replay.go] [ReplayLog.Events] *)
Definition Events (l : ReplayLog) : list ReplayEvent := events l.

Section outbox.
Context {Msg O : Type} `{!FrameCodec Msg bytes, !DurableOutbox Msg O}.
Fixpoint frames_to_events (name : bytes) (entries : list (Z * Msg)) : outcome (list ReplayEvent) :=
  match entries with
  | [] => inr []
  | (epoch, msg) :: entries =>
      match MarshalJSON msg with
      | None => replayErrorf (FrameNotEncoded epoch)
      | Some frame => es ←? frames_to_events name entries; inr (mkEvent (i64 epoch) name (VRef (VBytes true frame)) :: es)
      end
  end.
(** [replay.go] [ReplayLogFromOutbox] *)
Definition ReplayLogFromOutbox (outbox : O) (cursor : Z) (name : bytes) : O * outcome ReplayLog :=
  let name := if decide (name = []) then key "frame" else name in
  let '(outbox, entries) := ReplayFrom outbox cursor in
  (outbox, es ←? frames_to_events name entries; NewReplayLog es).
End outbox.

(** ** The fingerprint *)

(** [replay.go] [type ReplayCell] *)
Record ReplayCell := mkCell { Label : bytes; c_Digest : bytes }.
(** [replay.go] [type ReplayCheckpoint] *)
Record ReplayCheckpoint := mkCheckpoint { c_Seq : Z; Cells : list ReplayCell }.
(** [replay.go] [type ReplayFingerprint] *)
Record ReplayFingerprint := mkFingerprint { logDigest : bytes; f_stride : Z; checkpoints : list ReplayCheckpoint; f_digest : bytes }.
(** [replay.go] [lines 74-74 ReplayInitialSeq] *)
Definition ReplayInitialSeq : Z := -1.

Definition label_le (a b : ReplayCell) : bool := bytes_le (Label a) (Label b).
Fixpoint digest_cells (observed : list (bytes * Value)) : ReplayEncodingError + list ReplayCell :=
  match observed with
  | [] => inr []
  | (label, value) :: observed =>
      match ReplayCanonicalDigest value with
      | inl err => inl err
      | inr d => match digest_cells observed with inl err => inl err | inr cells => inr (mkCell label d :: cells) end
      end
  end.
(** [replay.go] [NewReplayCheckpoint] *)
Definition NewReplayCheckpoint (seq : Z) (observed : observation) : outcome ReplayCheckpoint :=
  cells ←? encoding (digest_cells (map_to_list observed));
  inr (mkCheckpoint seq (merge_sort label_le cells)).
(** [replay.go] [ReplayCheckpoint.Digests] *)
Definition Digests (c : ReplayCheckpoint) : gmap bytes bytes := foldl (λ out cell, <[Label cell := c_Digest cell]> out) ∅ (Cells c).

Definition cell_value (c : ReplayCell) : Value :=
  VStruct (key "lazily.ReplayCell") [(key "Label", true, VString (Label c)); (key "Digest", true, VString (c_Digest c))].
Definition checkpoint_value (c : ReplayCheckpoint) : Value :=
  VStruct (key "lazily.ReplayCheckpoint") [(key "Seq", true, VInt (c_Seq c)); (key "Cells", true, VSeq (map cell_value (Cells c)))].
Definition fingerprint_value (logDigest : bytes) (stride : Z) (cs : list ReplayCheckpoint) : Value :=
  VSeq [VRef (VString logDigest); VRef (VInt stride); VRef (VSeq (map checkpoint_value cs))].
(** [replay.go] [NewReplayFingerprint] *)
Definition NewReplayFingerprint (logDigest : bytes) (stride : Z) (cs : list ReplayCheckpoint) : outcome ReplayFingerprint :=
  if stride <? 1 then replayErrorf (StrideBelowOne stride)
  else match cs with
  | [] => replayErrorf NoCheckpoints
  | _ =>
      digest ←? encoding (ReplayCanonicalDigest (fingerprint_value logDigest stride cs));
      inr (mkFingerprint logDigest stride cs digest)
  end.
(** [replay.go] [ReplayFingerprint.CheckpointSeqs] *)
Definition CheckpointSeqs (f : ReplayFingerprint) : list Z := map c_Seq (checkpoints f).
(** [replay.go] [ReplayFingerprint.Final] *)
Definition Final (f : ReplayFingerprint) : option ReplayCheckpoint := last (checkpoints f).

(** [replay.go] [type ReplayCheckpointWire] *)
Record ReplayCheckpointWire := mkCheckpointWire { w_Seq : Z; w_Cells : gmap bytes bytes }.
(** [replay.go] [type ReplayFingerprintWire] *)
Record ReplayFingerprintWire := mkFingerprintWire {
  SchemaVersion : Z; w_LogDigest : bytes; w_Stride : Z; w_Checkpoints : list ReplayCheckpointWire }.
(** [replay.go] [ReplayFingerprint.Wire] *)
Definition FWire (f : ReplayFingerprint) : ReplayFingerprintWire :=
  mkFingerprintWire 1 (logDigest f) (f_stride f) (map (λ c, mkCheckpointWire (c_Seq c) (Digests c)) (checkpoints f)).
(** [replay.go] [ReplayFingerprintFromWire] *)
Definition ReplayFingerprintFromWire (wire : ReplayFingerprintWire) : outcome ReplayFingerprint :=
  if decide (SchemaVersion wire = 1) then
    NewReplayFingerprint (w_LogDigest wire) (w_Stride wire)
      (map (λ c, mkCheckpoint (w_Seq c) (merge_sort label_le (map (λ '(l, d), mkCell l d) (map_to_list (w_Cells c))))) (w_Checkpoints wire))
  else replayErrorf (UnsupportedSchema (SchemaVersion wire)).

(** ** The harness *)

Section harness.
Context {W : Type}.

(** The interface of a graph: methods that change the world.
    [replay.go] [type ReplayGraph] *)
Record ReplayGraph := mkGraph { Apply : ReplayEvent → W → W; Observe : W → observation * W }.
(** A constructor of graphs, [None] a nil graph. *)
Definition builder : Type := W → option ReplayGraph * W.
(** [replay.go] [type ReplayHarness] *)
Record ReplayHarness := mkHarness { build : builder; h_stride : Z }.
(** [replay.go] [ReplayWithStride] *)
Definition ReplayWithStride (n : Z) (h : ReplayHarness) : ReplayHarness := mkHarness (build h) n.
(** [replay.go] [NewReplayHarness] *)
Definition NewReplayHarness (b : option builder) (options : list (ReplayHarness → ReplayHarness)) : outcome ReplayHarness :=
  match b with
  | None => replayErrorf NoBuildFunction
  | Some b =>
      let harness := foldl (λ h option, option h) (mkHarness b 1) options in
      if h_stride harness <? 1 then replayErrorf (StrideBelowOne (h_stride harness)) else inr harness
  end.

(** The loop of [replay] from event [index] on. *)
Fixpoint replay_loop (g : ReplayGraph) (stride : Z) (total : nat) (index : nat) (es : list ReplayEvent)
    (cs : list ReplayCheckpoint) (observed : list observation) (w : W) : outcome (list ReplayCheckpoint * list observation) * W :=
  match es with
  | [] => (inr (cs, observed), w)
  | e :: es =>
      let w := Apply g e w in
      if negb (Z.of_nat (S index) mod stride =? 0) && negb (S index =? total)%nat
      then replay_loop g stride total (S index) es cs observed w
      else
        let '(sample, w) := Observe g w in
        match NewReplayCheckpoint (Seq e) sample with
        | inl err => (inl err, w)
        | inr c => replay_loop g stride total (S index) es (cs ++ [c]) (observed ++ [sample]) w
        end
  end.
(** [replay.go] [ReplayHarness.replay] *)
Definition replay (h : ReplayHarness) (log : option ReplayLog) (w : W) : outcome (ReplayFingerprint * list observation) * W :=
  match log with
  | None => (replayErrorf NoEventLog, w)
  | Some log =>
      match build h w with
      | (None, w) => (replayErrorf NoGraph, w)
      | (Some g, w) =>
          let '(sample, w) := Observe g w in
          match NewReplayCheckpoint ReplayInitialSeq sample with
          | inl err => (inl err, w)
          | inr c =>
              let '(r, w) := replay_loop g (h_stride h) (Len log) 0 (events log) [c] [sample] w in
              (cso ←? r; fp ←? NewReplayFingerprint (Digest log) (h_stride h) cso.1; inr (fp, cso.2), w)
          end
      end
  end.
(** [replay.go] [ReplayHarness.Record] *)
Definition Record_ (h : ReplayHarness) (log : option ReplayLog) (w : W) : outcome ReplayFingerprint * W :=
  let '(r, w) := replay h log w in (fpo ←? r; inr fpo.1, w).

(** [replay.go] [replayRevalidate] *)
Definition replayRevalidate (fingerprint : option ReplayFingerprint) (replayed : ReplayFingerprint) : outcome ReplayFingerprint :=
  match fingerprint with
  | None => replayErrorf NoFingerprint
  | Some f =>
      if decide (logDigest f = logDigest replayed) then
        if f_stride f =? f_stride replayed then inr f else inl (ErrStrideMismatch (f_stride f) (f_stride replayed))
      else inl (ErrLogMismatch (logDigest f) (logDigest replayed))
  end.

(** [replay.go] [replayPreview] *)
Definition replayPreview (value : Value) : bytes :=
  let text := Sprintv value in
  if decide (120 < length text)%nat then take 119 text ++ [226; 128; 166] else text.

(** The divergence of one label, if any.  A digest that is missing is the empty
    string, as a Go map lookup gives it.
    [replay.go] [lines 880-905 replayCompare] *)
Definition compare_label (seq : Z) (want got : gmap bytes bytes) (sample : option observation) (label : bytes) : option ReplayDivergence :=
  let wantDigest := default [] (want !! label) in
  let gotDigest := default [] (got !! label) in
  if decide (wantDigest = gotDigest) then None
  else
    let kind := match got !! label, want !! label with None, _ => key "missing" | _, None => key "unexpected" | _, _ => key "value" end in
    let preview := match sample with Some o => match o !! label with Some v => replayPreview v | None => [] end | None => [] end in
    Some (mkDivergence seq label kind wantDigest gotDigest preview).
(** [replay.go] [lines 866-879 replayCompare] *)
Definition compare_checkpoint (want got : ReplayCheckpoint) (sample : option observation) : list ReplayDivergence :=
  let labels := (map_to_list (Digests want)).*1 ++ base.filter (λ l, Digests want !! l = None) (map_to_list (Digests got)).*1 in
  omap (compare_label (c_Seq want) (Digests want) (Digests got) sample) (Strings labels).
(** The walk over the shared checkpoints, [observed] from the same index on: the
    first one with a divergence ends it. *)
Fixpoint compare_loop (expected actual : list ReplayCheckpoint) (observed : list observation) : list ReplayDivergence :=
  match expected, actual with
  | want :: expected, got :: actual =>
      match compare_checkpoint want got (head observed) with
      | [] => compare_loop expected actual (tail observed)
      | ds => ds
      end
  | _, _ => []
  end.
(** [replay.go] [replayCompare] *)
Definition replayCompare (expected actual : ReplayFingerprint) (observed : list observation) : outcome (list ReplayDivergence) :=
  match compare_loop (checkpoints expected) (checkpoints actual) observed with
  | [] =>
      if decide (length (checkpoints expected) = length (checkpoints actual)) then inr []
      else replayErrorf (CheckpointCounts (length (checkpoints expected)) (length (checkpoints actual)))
  | ds => inr ds
  end.

(** [replay.go] [ReplayHarness.Check] *)
Definition Check_ (h : ReplayHarness) (log : option ReplayLog) (fingerprint : option ReplayFingerprint) (w : W) :
    outcome (list ReplayDivergence) * W :=
  let '(r, w) := replay h log w in
  (fpo ←? r; f ←? replayRevalidate fingerprint fpo.1; replayCompare f fpo.1 fpo.2, w).
(** [replay.go] [ReplayHarness.Verify] *)
Definition Verify (h : ReplayHarness) (log : option ReplayLog) (fingerprint : option ReplayFingerprint) (w : W) : outcome ReplayFingerprint * W :=
  let '(r, w) := replay h log w in
  (fpo ←? r; f ←? replayRevalidate fingerprint fpo.1; ds ←? replayCompare f fpo.1 fpo.2;
   match ds with [] => inr fpo.1 | _ => inl (ErrDivergence ds) end, w).
Fixpoint prove_loop (h : ReplayHarness) (log : option ReplayLog) (f : ReplayFingerprint) (n : nat) (w : W) : outcome ReplayFingerprint * W :=
  match n with
  | O => (inr f, w)
  | S n => match Verify h log (Some f) w with (inl err, w) => (inl err, w) | (inr _, w) => prove_loop h log f n w end
  end.
(** [replay.go] [ReplayHarness.Prove] *)
Definition Prove (h : ReplayHarness) (log : option ReplayLog) (replays : Z) (w : W) : outcome ReplayFingerprint * W :=
  if replays <? 2 then (replayErrorf (TooFewReplays replays), w)
  else match Record_ h log w with
  | (inl err, w) => (inl err, w)
  | (inr f, w) => prove_loop h log f (Z.to_nat (replays - 1)) w
  end.
End harness.
End replay.
Arguments ReplayGraph : clear implicits.
Arguments ReplayHarness : clear implicits.

(** ** Errors and results *)

Lemma bind_inr {A B} (f : A → outcome B) r y : bind f r = inr y ↔ ∃ x, r = inr x ∧ f x = inr y.
Proof. destruct r as [err|x]; simpl; [split; [done|by intros (? & ? & _)]|]. split; [intros; by exists x|by intros (? & [= ->] & ?)]. Qed.
Lemma encoding_inr {A} (r : ReplayEncodingError + A) y : encoding r = inr y ↔ r = inr y.
Proof. destruct r; simpl; naive_solver. Qed.

Section facts.
Context `{Stdlib}.

(** ** The log *)

Definition ordered (es : list ReplayEvent) : Prop :=
  Forall (λ e, 0 ≤ Seq e ∧ Name e ≠ []) es ∧ StronglySorted Z.lt (map Seq es).
Definition same_event (e f : ReplayEvent) : Prop := Seq e = Seq f ∧ Name e = Name f ∧ Same (Payload e) (Payload f).

Lemma seqs_above x es : Forall (Z.lt x) (map Seq es) ↔ Forall (λ e, x < Seq e) es.
Proof. change (map Seq es) with (Seq <$> es). by rewrite Forall_fmap. Qed.
Lemma check_events_spec es i previous : 0 ≤ i → check_events i previous es = inr tt ↔
  ordered es ∧ (0 < i → Forall (λ e, previous < Seq e) es).
Proof.
  unfold ordered. revert i previous. induction es as [|e es IH]; intros i previous Hi; simpl; [by split; repeat constructor|].
  rewrite Forall_cons. destruct (Z.ltb_spec (Seq e) 0); [split; [done|]; intros [[[[? _] _] _] _]; lia|].
  case_decide; [split; [done|]; intros [[[[_ ?] _] _] _]; done|].
  destruct (0 <? i) eqn:Hp; simpl.
  1: destruct (Z.leb_spec (Seq e) previous); [split; [done|]; intros [_ Hf]; apply Z.ltb_lt, Hf in Hp; apply Forall_cons in Hp as [? _]; lia|].
  all: rewrite IH by lia; split.
  - intros [[Hf Hs] Hb]. specialize (Hb ltac:(lia)). split; [split; [done|]; constructor; [done|]|].
    + by apply seqs_above.
    + intros _. rewrite Forall_cons. split; [lia|]. eapply Forall_impl; [done|]. simpl. lia.
  - intros [[[_ Hf] Hs] _]. apply StronglySorted_cons in Hs as [Hb Hs]. split; [done|]. intros _.
    by apply seqs_above.
  - intros [[Hf Hs] Hb]. specialize (Hb ltac:(lia)). split; [split; [done|]; constructor; [done|]|apply Z.ltb_ge in Hp; lia].
    by apply seqs_above.
  - intros [[[_ Hf] Hs] _]. apply StronglySorted_cons in Hs as [Hb Hs]. split; [done|]. intros _.
    by apply seqs_above.
Qed.

Lemma event_encodable e : Encodable (event_value e) ↔ Encodable (Payload e).
Proof. unfold Encodable. simpl. by rewrite app_nil_r. Qed.
Lemma events_encodable es : Encodable (events_value es) ↔ Forall (λ e, Encodable (Payload e)) es.
Proof.
  unfold events_value. rewrite seq_ok. change (map ?f ?l) with (f <$> l). rewrite Forall_fmap. apply Forall_iff. intros e. apply event_encodable.
Qed.
Lemma events_same es fs : Same (events_value es) (events_value fs) ↔ Forall2 same_event es fs.
Proof.
  change (all2 Same (map event_value es) (map event_value fs) ↔ Forall2 same_event es fs).
  revert fs. induction es as [|e es IH]; intros [|f fs]; simpl; [by split; auto|by split; [|intros []%Forall2_nil_cons_inv]|by split; [|intros []%Forall2_cons_nil_inv]|].
  rewrite Forall2_cons, IH. unfold same_event. split; [intros [(_ & _ & ? & _ & [=] & _ & ? & _) ?]; done|intros [(-> & -> & ?) ?]; done].
Qed.

Lemma NewReplayLog_inv es l : NewReplayLog es = inr l ↔
  (ordered es ∧ Forall (λ e, Encodable (Payload e)) es) ∧ l = mkLog es (digest (events_value es)).
Proof.
  unfold NewReplayLog. rewrite bind_inr. setoid_rewrite bind_inr. setoid_rewrite encoding_inr. split.
  - intros ([] & Hc & d & [He ->]%canonical_digest_inv & [= <-]). apply check_events_spec in Hc as [Ho _]; [|done]. by rewrite <-events_encodable.
  - intros [[Ho He] ->]. exists tt. split; [by apply check_events_spec|]. exists (digest (events_value es)).
    split; [|done]. by apply canonical_digest_ok, events_encodable.
Qed.
Lemma log_digest_eq es fs l k : NewReplayLog es = inr l → NewReplayLog fs = inr k →
  Digest l = Digest k ↔ Forall2 same_event es fs ∨ collide (canon (events_value es)) (canon (events_value fs)).
Proof.
  intros [[_ He] ->]%NewReplayLog_inv [[_ Hf] ->]%NewReplayLog_inv. unfold Digest. simpl.
  rewrite digest_eq by (by apply events_encodable). by rewrite events_same.
Qed.
Lemma records_ordered rs : Forall (λ r, r_Name r ≠ []) rs →
  ordered (imap (λ i r, mkEvent (Z.of_nat i) (r_Name r) (r_Payload r)) rs).
Proof.
  intros Hr. assert (Hg : ∀ k, let es := imap (λ i r, mkEvent (Z.of_nat (k + i)) (r_Name r) (r_Payload r)) rs in
    ordered es ∧ Forall (λ e, Z.of_nat k ≤ Seq e) es).
  2: { apply (Hg 0%nat). }
  unfold ordered. induction Hr as [|r rs Hr Hrs IH]; intros k; simpl; [by repeat constructor|].
  destruct (IH (S k)) as [[Hf Hs] Hb].
  rewrite (imap_ext _ (λ i r, mkEvent (Z.of_nat (S k + i)) (r_Name r) (r_Payload r)) rs) by (intros; simpl; do 2 f_equal; lia).
  rewrite !Forall_cons. simpl. split_and!; [lia|done|done| |lia|].
  - constructor; [done|]. apply seqs_above. eapply Forall_impl; [exact Hb|]. simpl. lia.
  - eapply Forall_impl; [exact Hb|]. simpl. lia.
Qed.

(** ** Checkpoints *)

(** The checkpoint of an observation whose values all have an encoding. *)
Definition observable (o : observation) : Prop := map_Forall (λ _, Encodable) o.
Definition digests (o : observation) : gmap bytes bytes := digest <$> o.
Definition cells_of (m : gmap bytes bytes) : list ReplayCell := merge_sort label_le (map (λ '(l, d), mkCell l d) (map_to_list m)).
Definition checkpoint (seq : Z) (o : observation) : ReplayCheckpoint := mkCheckpoint seq (cells_of (digests o)).

Lemma digest_cells_inv l cells : digest_cells l = inr cells ↔
  Forall (λ x, Encodable x.2) l ∧ cells = map (λ x, mkCell x.1 (digest x.2)) l.
Proof.
  revert cells. induction l as [|[label v] l IH]; intros cells; simpl; [naive_solver|]. rewrite Forall_cons. simpl.
  destruct (ReplayCanonicalDigest v) as [err|d] eqn:Hd.
  - split; [done|]. intros [[He _] _]. by rewrite canonical_digest_ok in Hd.
  - apply canonical_digest_inv in Hd as [He ->]. destruct (digest_cells l) as [err|cs]; split.
    + done.
    + intros [[_ Hl] _]. destruct (IH (map (λ x, mkCell x.1 (digest x.2)) l)) as [_ Hx]. by discriminate Hx.
    + intros [= <-]. destruct (IH cs) as [[Hl ->] _]; done.
    + intros [[_ Hl] ->]. do 2 f_equal. by apply IH.
Qed.
Lemma cells_of_digests o : cells_of (digests o) = merge_sort label_le (map (λ x, mkCell x.1 (digest x.2)) (map_to_list o)).
Proof.
  unfold cells_of, digests. rewrite map_to_list_fmap. f_equal. change (map ?f ?l) with (f <$> l). rewrite <-list_fmap_compose.
  apply list_fmap_ext. by intros i [l v] _.
Qed.
Lemma observable_list o : observable o ↔ Forall (λ x, Encodable x.2) (map_to_list o).
Proof. unfold observable. rewrite map_Forall_to_list. apply Forall_iff. by intros [l v]. Qed.
Lemma NewReplayCheckpoint_inv seq o c : NewReplayCheckpoint seq o = inr c ↔ observable o ∧ c = checkpoint seq o.
Proof.
  unfold NewReplayCheckpoint, checkpoint. rewrite observable_list, bind_inr, cells_of_digests. setoid_rewrite encoding_inr. setoid_rewrite digest_cells_inv.
  split.
  - by intros (cells & [Ho ->] & [= <-]).
  - intros [Ho ->]. eexists. split; [split; [exact Ho|reflexivity]|done].
Qed.

#[export] Instance label_le_total : Total label_le.
Proof. intros a b. apply (total bytes_le). Qed.
#[export] Instance label_le_trans : Transitive label_le.
Proof. intros a b c. apply (transitivity (R := bytes_le)). Qed.

(** The cells of a checkpoint built by the code: sorted, one per label. *)
Definition cells_wf (cs : list ReplayCell) : Prop := NoDup (map Label cs) ∧ StronglySorted label_le cs.
Lemma cells_of_wf m : cells_wf (cells_of m).
Proof.
  unfold cells_of. split; [|apply (StronglySorted_merge_sort label_le)]. change (map ?f ?l) with (f <$> l) at 1.
  rewrite merge_sort_Permutation. change (map ?f ?l) with (f <$> l). rewrite <-list_fmap_compose.
  rewrite (list_fmap_ext _ fst); [apply NoDup_fst_map_to_list|]. by intros i [l d] _.
Qed.
Lemma Digests_list c : Digests c = list_to_map (reverse (map (λ x, (Label x, c_Digest x)) (Cells c))).
Proof.
  unfold Digests. generalize (Cells c). intros cs. induction cs as [|x cs IH] using rev_ind; [done|].
  rewrite foldl_snoc, map_app, reverse_app, IH. done.
Qed.
Lemma Digests_perm seq cs ks : NoDup (map Label cs) → cs ≡ₚ ks → Digests (mkCheckpoint seq cs) = Digests (mkCheckpoint seq ks).
Proof.
  intros Hn Hp. rewrite !Digests_list. simpl. apply list_to_map_proper.
  - rewrite reverse_Permutation. change (map ?f ?l) with (f <$> l). by rewrite <-list_fmap_compose.
  - by rewrite !reverse_Permutation, Hp.
Qed.
Lemma Digests_cells seq m : Digests (mkCheckpoint seq (cells_of m)) = m.
Proof.
  rewrite (Digests_perm _ _ (map (λ '(l, d), mkCell l d) (map_to_list m))); [|apply cells_of_wf|apply merge_sort_Permutation].
  rewrite Digests_list. simpl. rewrite <-(list_to_map_to_list m) at 2. apply list_to_map_proper.
  - rewrite reverse_Permutation. change (map ?f ?l) with (f <$> l). rewrite <-!list_fmap_compose.
    rewrite (list_fmap_ext _ fst); [apply NoDup_fst_map_to_list|]. by intros i [l d] _.
  - rewrite reverse_Permutation. change (map ?f ?l) with (f <$> l). rewrite <-list_fmap_compose.
    rewrite (list_fmap_ext _ id), list_fmap_id; [done|]. by intros i [l d] _.
Qed.
Lemma Digests_checkpoint seq o : Digests (checkpoint seq o) = digests o.
Proof. apply Digests_cells. Qed.
Lemma cells_of_Digests seq cs : cells_wf cs → cells_of (Digests (mkCheckpoint seq cs)) = cs.
Proof.
  intros [Hn Hs]. set (m := Digests _).
  assert (Hp : cells_of m ≡ₚ cs).
  { unfold cells_of. rewrite merge_sort_Permutation. unfold m. rewrite Digests_list. simpl.
    rewrite map_to_list_to_map.
    - rewrite reverse_Permutation. change (map ?f ?l) with (f <$> l). rewrite <-list_fmap_compose.
      rewrite (list_fmap_ext _ id), list_fmap_id; [done|]. by intros i [l d] _.
    - rewrite reverse_Permutation. change (map ?f ?l) with (f <$> l). by rewrite <-list_fmap_compose. }
  apply (StronglySorted_unique_strong label_le); [|apply cells_of_wf|done|done].
  intros x y Hx Hy H1 H2. rewrite Hp in Hx. assert (Hl : Label x = Label y) by (by apply (anti_symm bytes_le)).
  apply list_elem_of_lookup in Hx as [i Hi], Hy as [j Hj].
  assert (i = j) as ->; [|congruence]. eapply (NoDup_lookup _ _ _ (Label x) Hn); change (map ?f ?l) with (f <$> l); rewrite list_lookup_fmap.
  - by rewrite Hi.
  - rewrite Hj. simpl. by f_equal.
Qed.

(** ** Fingerprints *)

Lemma strings_encodable cs : Forall (λ c, Encodable (checkpoint_value c)) cs.
Proof.
  apply Forall_true. intros c. unfold Encodable. simpl. rewrite app_nil_r. apply offenders_all, Forall_forall. intros v Hv.
  change (map ?f ?l) with (f <$> l) in Hv. apply list_elem_of_fmap in Hv as (x & -> & _). done.
Qed.
Lemma fingerprint_encodable d s cs : Encodable (fingerprint_value d s cs).
Proof.
  unfold Encodable. simpl. rewrite app_nil_r. apply offenders_all. change (map ?f ?l) with (f <$> l). apply Forall_fmap, strings_encodable.
Qed.
Definition fingerprint_of (d : bytes) (s : Z) (cs : list ReplayCheckpoint) : ReplayFingerprint :=
  mkFingerprint d s cs (digest (fingerprint_value d s cs)).
Lemma NewReplayFingerprint_inv d s cs fp : NewReplayFingerprint d s cs = inr fp ↔ 1 ≤ s ∧ cs ≠ [] ∧ fp = fingerprint_of d s cs.
Proof.
  unfold NewReplayFingerprint. destruct (Z.ltb_spec s 1); [split; [done|lia]|].
  destruct cs as [|c cs]; [split; [done|]; by intros (_ & ? & _)|].
  rewrite bind_inr. setoid_rewrite encoding_inr. rewrite canonical_digest_ok by apply fingerprint_encodable. split.
  - by intros (d' & [= <-] & [= <-]).
  - intros (_ & _ & ->). by eexists.
Qed.

(** The fingerprints the code builds out of its own checkpoints. *)
Definition fingerprint_wf (fp : ReplayFingerprint) : Prop :=
  ∃ d s cs, NewReplayFingerprint d s cs = inr fp ∧ Forall (λ c, cells_wf (Cells c)) cs.
Lemma fingerprint_wire fp : fingerprint_wf fp → ReplayFingerprintFromWire (FWire fp) = inr fp.
Proof.
  intros (d & s & cs & Hfp & Hwf). pose proof Hfp as (Hs & Hne & ->)%NewReplayFingerprint_inv.
  unfold ReplayFingerprintFromWire, FWire. simpl. rewrite <-Hfp. f_equal. rewrite map_map.
  clear -Hwf. induction Hwf as [|[q ks] cs Hc _ IH]; simpl; [done|]. f_equal; [|done]. f_equal.
  by apply (cells_of_Digests q).
Qed.

(** ** The replay *)

Section harness_facts.
Context {W : Type}.
Implicit Types (h : ReplayHarness W) (g : ReplayGraph W) (w : W).

(** Whether the event at [index] is followed by a checkpoint. *)
Definition samples (stride : Z) (total index : nat) : bool := (Z.of_nat (S index) mod stride =? 0) || (S index =? total)%nat.
Fixpoint sampled (stride : Z) (total index : nat) (es : list ReplayEvent) : list Z :=
  match es with
  | [] => []
  | e :: es => (if samples stride total index then [Seq e] else []) ++ sampled stride total (S index) es
  end.
(** The sequence numbers of the checkpoints of a replay. *)
Definition checkpoint_seqs h (log : ReplayLog) : list Z := ReplayInitialSeq :: sampled (h_stride h) (Len log) 0 (events log).
Definition checkpoints_of (seqs : list Z) (obs : list observation) : list ReplayCheckpoint := zip_with checkpoint seqs obs.

Lemma replay_loop_samples g stride total index e es cs obs w :
  replay_loop g stride total index (e :: es) cs obs w =
  if samples stride total index then
    match NewReplayCheckpoint (Seq e) (Observe g (Apply g e w)).1 with
    | inl err => (inl err, (Observe g (Apply g e w)).2)
    | inr c => replay_loop g stride total (S index) es (cs ++ [c]) (obs ++ [(Observe g (Apply g e w)).1]) (Observe g (Apply g e w)).2
    end
  else replay_loop g stride total (S index) es cs obs (Apply g e w).
Proof.
  unfold samples. simpl. rewrite <-negb_orb. destruct (_ || _); simpl; [|done]. by destruct (Observe g (Apply g e w)).
Qed.
Lemma replay_loop_inv g stride total index es cs obs w cs' obs' w' :
  replay_loop g stride total index es cs obs w = (inr (cs', obs'), w') →
  ∃ os, length os = length (sampled stride total index es) ∧ Forall observable os ∧
    cs' = cs ++ checkpoints_of (sampled stride total index es) os ∧ obs' = obs ++ os.
Proof.
  revert index cs obs w. induction es as [|e es IH]; intros index cs obs w.
  - simpl. intros [= <- <- <-]. exists []. unfold checkpoints_of. simpl. by rewrite !app_nil_r.
  - rewrite replay_loop_samples. simpl. destruct (samples stride total index); [|apply IH].
    destruct (NewReplayCheckpoint _ _) as [|c] eqn:Hc; [done|]. apply NewReplayCheckpoint_inv in Hc as [Ho ->].
    intros (os & Hl & Hos & -> & ->)%IH. exists ((Observe g (Apply g e w)).1 :: os). simpl. rewrite Hl, <-!(assoc app). split_and!; auto.
Qed.
Lemma replay_inv h log w fp obs w' : replay h (Some log) w = (inr (fp, obs), w') →
  1 ≤ h_stride h ∧ length obs = length (checkpoint_seqs h log) ∧ Forall observable obs ∧
  fp = fingerprint_of (Digest log) (h_stride h) (checkpoints_of (checkpoint_seqs h log) obs).
Proof.
  unfold replay. destruct (build h w) as [[g|] w1]; [|done]. destruct (Observe g w1) as [o w2].
  destruct (NewReplayCheckpoint _ _) as [|c] eqn:Hc; [done|]. apply NewReplayCheckpoint_inv in Hc as [Ho ->].
  destruct (replay_loop _ _ _ _ _ _ _ _) as [r w3] eqn:Hr. intros [=Hb ->]. apply bind_inr in Hb as ([cs os] & -> & Hb).
  apply bind_inr in Hb as (fp' & Hf & [= <- <-]). apply replay_loop_inv in Hr as (os' & Hl & Hos & -> & ->).
  apply NewReplayFingerprint_inv in Hf as (Hs & _ & ->). simpl. split_and!; auto.
Qed.

Lemma sampled_elem stride total index es q : q ∈ sampled stride total index es ↔
  ∃ i e, es !! i = Some e ∧ q = Seq e ∧ samples stride total (index + i) = true.
Proof.
  revert index. induction es as [|e es IH]; intros index; simpl.
  - split; [by intros ?%not_elem_of_nil|]. intros (i & e & He & _). by rewrite lookup_nil in He.
  - rewrite elem_of_app, IH. split.
    + intros [Hq|(i & e' & Hi & -> & Hs)].
      * destruct (samples stride total index) eqn:Hs; [|by apply not_elem_of_nil in Hq]. apply list_elem_of_singleton in Hq as ->.
        exists 0%nat, e. by rewrite Nat.add_0_r.
      * exists (S i), e'. by rewrite Nat.add_succ_r.
    + intros ([|i] & e' & Hi & -> & Hs); simpl in Hi.
      * injection Hi as ->. left. rewrite Nat.add_0_r in Hs. rewrite Hs. by left.
      * right. exists i, e'. by rewrite Nat.add_succ_r in Hs.
Qed.
Lemma sampled_last stride total index es e : total = (index + S (length es))%nat →
  last (sampled stride total index (es ++ [e])) = Some (Seq e).
Proof.
  revert index. induction es as [|x es IH]; intros index Ht; simpl.
  - unfold samples. rewrite orb_comm. replace (S index =? total)%nat with true by (symmetry; apply Nat.eqb_eq; simpl in Ht; lia). done.
  - rewrite last_app, IH by (simpl in Ht; lia). done.
Qed.

(** ** The comparison *)

(** The digests of two checkpoints agree, a missing one read as empty. *)
Definition agree (want got : ReplayCheckpoint) : Prop := ∀ l, default [] (Digests want !! l) = default [] (Digests got !! l).

Lemma compare_label_none seq want got s l : compare_label seq want got s l = None ↔ default [] (want !! l) = default [] (got !! l).
Proof. unfold compare_label. by case_decide. Qed.
Lemma compare_label_some seq want got s l d : compare_label seq want got s l = Some d →
  d_Label d = l ∧ d_Seq d = seq ∧ Expected d = default [] (want !! l) ∧ Actual d = default [] (got !! l) ∧ Expected d ≠ Actual d.
Proof. unfold compare_label. case_decide; [done|]. by intros [= <-]. Qed.

Definition labels (want got : ReplayCheckpoint) : list bytes :=
  Strings ((map_to_list (Digests want)).*1 ++ base.filter (λ l, Digests want !! l = None) (map_to_list (Digests got)).*1).
Lemma labels_elem want got l : l ∈ labels want got ↔ is_Some (Digests want !! l) ∨ is_Some (Digests got !! l).
Proof.
  assert (Hk : ∀ m : gmap bytes bytes, l ∈ (map_to_list m).*1 ↔ is_Some (m !! l)).
  { intros m. rewrite list_elem_of_fmap. split.
    - intros ([k d] & -> & Hd). apply elem_of_map_to_list in Hd. by exists d.
    - intros [d Hd]. exists (l, d). split; [done|by apply elem_of_map_to_list]. }
  unfold labels. rewrite Strings_perm, elem_of_app, list_elem_of_filter, !Hk.
  destruct (Digests want !! l) eqn:Hw; [naive_solver|]. split; [intros [?|[_ ?]]; auto|]. intros [[? ?]|?]; [done|by right].
Qed.
Lemma labels_nodup want got : NoDup (labels want got).
Proof.
  unfold labels. rewrite Strings_perm. apply NoDup_app. split_and!; [apply NoDup_fst_map_to_list| |apply NoDup_filter, NoDup_fst_map_to_list].
  intros l ([k d] & -> & Hd%elem_of_map_to_list)%list_elem_of_fmap [Hn _]%list_elem_of_filter. simpl in Hn. congruence.
Qed.
Lemma omap_labels seq want got s (ls : list bytes) (P : list bytes → Prop) :
  P [] → (∀ l ls ks, P (l :: ls) → ks `sublist_of` ls → P ks → P (l :: ks)) → (∀ l ls, P (l :: ls) → P ls) →
  P ls → P (map d_Label (omap (compare_label seq want got s) ls)) ∧ map d_Label (omap (compare_label seq want got s) ls) `sublist_of` ls.
Proof.
  intros H0 H1 H2. induction ls as [|l ls IH]; intros Hp; simpl; [by split; [|constructor]|].
  destruct (IH (H2 _ _ Hp)) as [Hpl Hs]. destruct (compare_label _ _ _ _ l) as [d|] eqn:Hd; simpl; [|by split; [|constructor]].
  apply compare_label_some in Hd as [-> _]. split; [eauto|by constructor].
Qed.
Lemma compare_checkpoint_sorted want got s :
  let ds := compare_checkpoint want got s in NoDup (map d_Label ds) ∧ StronglySorted bytes_le (map d_Label ds).
Proof.
  simpl. split.
  - apply (omap_labels _ _ _ _ (labels want got) NoDup); [constructor| | |apply labels_nodup].
    + intros l ls ks [Hl _]%NoDup_cons Hs Hn. apply NoDup_cons. split; [|done]. intros Hin. apply Hl. eapply sublist_subseteq; eauto.
    + by intros l ls [_ ?]%NoDup_cons.
  - apply (omap_labels _ _ _ _ (labels want got) (StronglySorted bytes_le)); [constructor| | |apply Strings_sorted].
    + intros l ls ks [Hl _]%StronglySorted_cons Hs Hn. apply StronglySorted_cons. split; [|done].
      rewrite Forall_forall in *. intros x Hx. apply Hl. eapply sublist_subseteq; eauto.
    + by intros l ls [_ ?]%StronglySorted_cons.
Qed.
Lemma compare_checkpoint_elem want got s d :
  d ∈ compare_checkpoint want got s ↔ ∃ l, compare_label (c_Seq want) (Digests want) (Digests got) s l = Some d.
Proof.
  unfold compare_checkpoint. rewrite list_elem_of_omap. split; [intros (l & _ & Hd); by exists l|].
  intros [l Hd]. exists l. split; [|done]. apply labels_elem. unfold compare_label in Hd.
  destruct (Digests want !! l); [left; by eexists|]. destruct (Digests got !! l); [right; by eexists|]. by case_decide.
Qed.
Lemma compare_checkpoint_nil want got s : compare_checkpoint want got s = [] ↔ agree want got.
Proof.
  split.
  - intros He l. apply (compare_label_none (c_Seq want) _ _ s). destruct (compare_label _ _ _ s l) as [d|] eqn:Hd; [|done].
    assert (Hin : d ∈ compare_checkpoint want got s) by (apply compare_checkpoint_elem; eauto). rewrite He in Hin. by apply not_elem_of_nil in Hin.
  - intros Ha. destruct (compare_checkpoint want got s) as [|d ds] eqn:He; [done|].
    assert (Hin : d ∈ compare_checkpoint want got s) by (rewrite He; left). apply compare_checkpoint_elem in Hin as [l Hl].
    pose proof (Ha l) as Hn. apply (compare_label_none (c_Seq want) _ _ s) in Hn. congruence.
Qed.

(** Where the first [n] checkpoints agree. *)
Definition agree_upto (n : nat) (es cs : list ReplayCheckpoint) : Prop :=
  ∀ i want got, (i < n)%nat → es !! i = Some want → cs !! i = Some got → agree want got.
Lemma compare_loop_spec es cs obs :
  (compare_loop es cs obs = [] ∧ ∀ n, agree_upto n es cs) ∨
  (∃ i want got, es !! i = Some want ∧ cs !! i = Some got ∧ agree_upto i es cs ∧ ¬ agree want got ∧
    compare_loop es cs obs = compare_checkpoint want got (obs !! i)).
Proof.
  revert cs obs. induction es as [|want es IH]; intros [|got cs] obs; simpl;
    [left; split; [done|]; intros n i a b _ Ha Hb; first [by rewrite lookup_nil in Ha|by rewrite lookup_nil in Hb]..|].
  rewrite head_lookup. destruct (compare_checkpoint want got (obs !! 0%nat)) as [|d ds] eqn:Hd.
  - apply compare_checkpoint_nil in Hd. destruct (IH cs (tail obs)) as [[-> Ha]|(i & a & b & Hi & Hj & Ha & Hn & ->)].
    + left. split; [done|]. intros n [|i] a b Hi; simpl; [by intros [= <-] [= <-]|]. intros Hx Hy. exact (Ha (S i) i a b ltac:(lia) Hx Hy).
    + right. exists (S i), a, b. split_and!; [done|done| |done|by rewrite <-lookup_tail].
      intros [|k] x y Hk; simpl; [by intros [= <-] [= <-]|]. intros Hx Hy. exact (Ha k x y ltac:(lia) Hx Hy).
  - right. exists 0%nat, want, got. split_and!; [done|done|by intros i ? ? ?; lia| |done].
    intros Ha. apply (compare_checkpoint_nil want got (obs !! 0%nat)) in Ha. congruence.
Qed.
Lemma compare_loop_refl cs obs : compare_loop cs cs obs = [].
Proof.
  destruct (compare_loop_spec cs cs obs) as [[? _]|(i & a & b & Ha & Hb & _ & Hn & _)]; [done|]. rewrite Ha in Hb. injection Hb as ->. by destruct Hn.
Qed.

(** ** What the harness reports *)

Definition comparable h (log : ReplayLog) (f : ReplayFingerprint) : Prop := logDigest f = Digest log ∧ f_stride f = h_stride h.

(** [ds] tells how the first checkpoints that disagree differ. *)
Definition divergent (f fp : ReplayFingerprint) (ds : list ReplayDivergence) : Prop :=
  ∃ i want got, checkpoints f !! i = Some want ∧ checkpoints fp !! i = Some got ∧
    agree_upto i (checkpoints f) (checkpoints fp) ∧ Forall (λ d, d_Seq d = c_Seq want) ds ∧
    NoDup (map d_Label ds) ∧ StronglySorted bytes_le (map d_Label ds) ∧
    ∀ l, l ∈ map d_Label ds ↔ default [] (Digests want !! l) ≠ default [] (Digests got !! l).

(** The outcome of a check of fingerprint [f] against a replay that recorded [fp]. *)
Definition reported h log (f fp : ReplayFingerprint) (r : outcome (list ReplayDivergence)) : Prop :=
  match r with
  | inl (ErrLogMismatch e a) => e = logDigest f ∧ a = Digest log ∧ e ≠ a
  | inl (ErrStrideMismatch e a) => logDigest f = Digest log ∧ e = f_stride f ∧ a = h_stride h ∧ e ≠ a
  | inl (ErrProof (CheckpointCounts n m)) =>
      comparable h log f ∧ n = length (checkpoints f) ∧ m = length (checkpoints fp) ∧ n ≠ m ∧ ∀ k, agree_upto k (checkpoints f) (checkpoints fp)
  | inl _ => False
  | inr [] => comparable h log f ∧ length (checkpoints f) = length (checkpoints fp) ∧ ∀ k, agree_upto k (checkpoints f) (checkpoints fp)
  | inr ds =>
      comparable h log f ∧ divergent f fp ds
  end.

Lemma Check_replay h log f w fp obs w' : replay h (Some log) w = (inr (fp, obs), w') →
  Check_ h (Some log) (Some f) w = (bind (λ f, replayCompare f fp obs) (replayRevalidate (Some f) fp), w') ∧
  Verify h (Some log) (Some f) w = (match (Check_ h (Some log) (Some f) w).1 with inl err => inl err | inr [] => inr fp | inr ds => inl (ErrDivergence ds) end, w').
Proof.
  intros Hr. unfold Check_, Verify. rewrite Hr. split; [done|]. cbn [bind fst snd]. f_equal.
  destruct (replayRevalidate (Some f) fp) as [|f']; [done|]. simpl. by destruct (replayCompare f' fp obs).
Qed.
Lemma divergences_labels want got s l : l ∈ map d_Label (compare_checkpoint want got s) ↔ default [] (Digests want !! l) ≠ default [] (Digests got !! l).
Proof.
  change (map d_Label ?x) with (d_Label <$> x). rewrite list_elem_of_fmap. split.
  - intros (d & -> & [l' Hd]%compare_checkpoint_elem). by apply compare_label_some in Hd as (-> & _ & <- & <- & ?).
  - intros Hn. destruct (compare_label (c_Seq want) (Digests want) (Digests got) s l) as [d|] eqn:Hd; [|by apply compare_label_none in Hd].
    exists d. split; [by apply compare_label_some in Hd as [-> _]|]. apply compare_checkpoint_elem. by exists l.
Qed.

Lemma replayed_digests fp h log w obs w' i got l : replay h (Some log) w = (inr (fp, obs), w') →
  checkpoints fp !! i = Some got → Digests got !! l ≠ Some [].
Proof.
  intros (_ & _ & _ & ->)%replay_inv. cbn [fingerprint_of checkpoints]. unfold checkpoints_of. rewrite lookup_zip_with.
  intros (q & Hq & (o & Ho & [= <-])%bind_Some)%bind_Some. rewrite Digests_checkpoint. unfold digests. rewrite lookup_fmap.
  destruct (o !! l) as [v|]; simpl; [|done]. intros [= Hn]. by apply (digest_nonempty v).
Qed.
(** Where no recorded digest is empty, checkpoints agree only when they are the same
    cells. *)
Lemma agree_exact want got : (∀ l, Digests want !! l ≠ Some []) → (∀ l, Digests got !! l ≠ Some []) →
  agree want got ↔ Digests want = Digests got.
Proof.
  intros Hw Hg. split; [|by intros He l; rewrite He]. intros Ha. apply map_eq. intros l. specialize (Ha l). specialize (Hw l). specialize (Hg l).
  destruct (Digests want !! l), (Digests got !! l); simpl in *; congruence.
Qed.

(** C23: Whatever a graph does, log and fingerprint given or not.  A replay that fails
    (no log, no graph, a sampled value without an encoding) makes Check and Verify
    return that error, whatever the fingerprint.  A missing fingerprint is an error
    then.  Otherwise a check reports exactly one of: the fingerprint belongs to another
    log, decided before any value is compared; to another stride; the checkpoint counts
    differ; nothing; or the divergences of the first checkpoint whose digests differ,
    one for each label that differs there, in label order and with that checkpoint's
    sequence number; and Verify fails unless there are none.  A label that is missing
    reads as the empty digest: checkpoints that agree hold the same cells provided the
    fingerprint records no empty digest, which a replay never writes and JSON may. *)
Theorem Check_localizes h (log : option ReplayLog) (f : option ReplayFingerprint) w
    (r := (Check_ h log f w).1) (v := (Verify h log f w).1) :
  match (replay h log w).1, f, log with
  | inl err, _, _ => r = inl err ∧ v = inl err
  | inr _, None, _ => r = inl (ErrProof NoFingerprint) ∧ v = inl (ErrProof NoFingerprint)
  | inr (fp, _), Some f, Some log =>
      reported h log f fp r ∧ v = match r with inl err => inl err | inr [] => inr fp | inr ds => inl (ErrDivergence ds) end ∧
      ∀ i want got, checkpoints f !! i = Some want → checkpoints fp !! i = Some got →
        (∀ l, Digests want !! l ≠ Some []) → agree want got ↔ Digests want = Digests got
  | inr _, _, None => False
  end.
Proof.
  destruct (replay h log w) as [[err|[fp obs]] w'] eqn:Hr; cbn [fst].
  { unfold r, v, Check_, Verify. by rewrite Hr. }
  destruct f as [f|]; [|unfold r, v, Check_, Verify; by rewrite Hr]. destruct log as [log|]; [|done].
  destruct (Check_replay h log f w fp obs w' Hr) as [Hc Hv]. unfold v. rewrite Hv. split; [|split; [done|]]; last first.
  { intros i want got _ Hg Hw. apply agree_exact; [done|]. intros l. by eapply replayed_digests. }
  unfold r. rewrite Hc. simpl. apply replay_inv in Hr as (_ & _ & _ & Hfp).
  assert (logDigest fp = Digest log ∧ f_stride fp = h_stride h) as [Hl Hs] by (by rewrite Hfp). rewrite Hl, Hs.
  case_decide as Hd; [|done]. destruct (Z.eqb_spec (f_stride f) (h_stride h)) as [He|He]; [|done]. simpl. unfold replayCompare.
  destruct (compare_loop_spec (checkpoints f) (checkpoints fp) obs) as [[-> Ha]|(i & want & got & Hi & Hj & Ha & Hn & ->)].
  - case_decide; simpl; by split_and!.
  - assert (Hne : compare_checkpoint want got (obs !! i) ≠ []) by (by intros ?%compare_checkpoint_nil).
    assert (Hdv : divergent f fp (compare_checkpoint want got (obs !! i))); [|by destruct (compare_checkpoint want got (obs !! i))].
    destruct (compare_checkpoint_sorted want got (obs !! i)) as [Hnd Hso].
    exists i, want, got. split_and!; [done..| |done|done|intros l; apply divergences_labels].
    apply Forall_forall. intros x [l Hx]%compare_checkpoint_elem. by apply compare_label_some in Hx as (_ & -> & _).
Qed.

(** ** What a verified fingerprint means *)

(** Two observations of the same labels with the same values, short of a SHA-256
    collision between two values' encodings. *)
Definition same_observation (o o' : observation) : Prop :=
  dom o = dom o' ∧ ∀ l v v', o !! l = Some v → o' !! l = Some v' → Same v v' ∨ collide (canon v) (canon v').

Lemma agree_observations q q' o o' : observable o → observable o' →
  agree (checkpoint q o) (checkpoint q' o') ↔ same_observation o o'.
Proof.
  intros Ho Ho'. unfold agree, same_observation. rewrite !Digests_checkpoint. unfold digests. setoid_rewrite lookup_fmap. split.
  - intros Ha. split.
    + apply set_eq. intros l. rewrite !elem_of_dom. specialize (Ha l).
      destruct (o !! l) as [v|], (o' !! l) as [v'|]; simpl in Ha; [by split; eexists|exfalso; by apply (digest_nonempty v)|exfalso; by apply (digest_nonempty v')|done].
    + intros l v v' Hv Hv'. specialize (Ha l). rewrite Hv, Hv' in Ha. simpl in Ha.
      apply digest_eq; [by eapply Ho|by eapply Ho'|done].
  - intros [Hd Hs] l. destruct (o !! l) as [v|] eqn:Hv, (o' !! l) as [v'|] eqn:Hv'; simpl; [| | |done].
    + apply digest_eq; [by eapply Ho|by eapply Ho'|by eapply Hs].
    + apply not_elem_of_dom in Hv'. destruct Hv'. rewrite <-Hd. apply elem_of_dom. by eexists.
    + apply not_elem_of_dom in Hv. destruct Hv. rewrite Hd. apply elem_of_dom. by eexists.
Qed.
Lemma checkpoints_lookup seqs obs i : length obs = length seqs →
  checkpoints_of seqs obs !! i = match seqs !! i, obs !! i with Some q, Some o => Some (checkpoint q o) | _, _ => None end.
Proof. intros _. unfold checkpoints_of. rewrite lookup_zip_with. by destruct (seqs !! i), (obs !! i). Qed.
Lemma checkpoints_length seqs obs : length obs = length seqs → length (checkpoints_of seqs obs) = length obs.
Proof. intros Hl. unfold checkpoints_of. rewrite length_zip_with. lia. Qed.

Lemma sampled_same stride total index es fs : Forall2 same_event es fs → sampled stride total index es = sampled stride total index fs.
Proof. intros Hf. revert index. induction Hf as [|e f es fs [He _] _ IH]; intros index; simpl; [done|]. by rewrite IH, He. Qed.

Lemma agree_same_digests o o' q : observable o → observable o' → same_observation o o' → checkpoint q o = checkpoint q o'.
Proof.
  intros Ho Ho' [Hd Hs]. unfold checkpoint. do 2 f_equal. unfold digests. apply map_eq. intros l. rewrite !lookup_fmap.
  destruct (o !! l) as [v|] eqn:Hv, (o' !! l) as [v'|] eqn:Hv'; simpl; [| | |done].
  - f_equal. apply digest_eq; [by eapply Ho|by eapply Ho'|by eapply Hs].
  - apply not_elem_of_dom in Hv'. destruct Hv'. rewrite <-Hd. apply elem_of_dom. by eexists.
  - apply not_elem_of_dom in Hv. destruct Hv. rewrite Hd. apply elem_of_dom. by eexists.
Qed.
Lemma checkpoints_same seqs obs obs' : Forall observable obs → Forall observable obs' → Forall2 same_observation obs obs' →
  checkpoints_of seqs obs = checkpoints_of seqs obs'.
Proof.
  intros Ho Ho' Hs. revert seqs. induction Hs as [|o o' obs obs' Hx _ IH]; intros [|q seqs]; [done..|]. unfold checkpoints_of in *. simpl.
  apply Forall_cons in Ho as [? ?], Ho' as [? ?]. by rewrite IH, (agree_same_digests o o').
Qed.

(** A check that reports nothing compared the whole of both fingerprints. *)
Lemma checked_silent h log f w fp obs w' : replay h (Some log) w = (inr (fp, obs), w') →
  bind (λ f, replayCompare f fp obs) (replayRevalidate (Some f) fp) = inr [] →
  comparable h log f ∧ length (checkpoints f) = length (checkpoints fp) ∧ ∀ k, agree_upto k (checkpoints f) (checkpoints fp).
Proof.
  intros (_ & _ & _ & Hfp)%replay_inv. assert (logDigest fp = Digest log ∧ f_stride fp = h_stride h) as [Hl Hs] by (by rewrite Hfp).
  simpl. rewrite Hl, Hs. case_decide as Hd; [|done]. destruct (Z.eqb_spec (f_stride f) (h_stride h)) as [He|He]; [|done]. simpl. unfold replayCompare.
  destruct (compare_loop_spec (checkpoints f) (checkpoints fp) obs) as [[-> Ha]|(i & want & got & _ & _ & _ & Hn & ->)].
  - by case_decide.
  - destruct (compare_checkpoint want got (obs !! i)) eqn:Hx; [by apply compare_checkpoint_nil in Hx|done].
Qed.

(** Two observations of the same labels with the same values. *)
Definition same_values (o o' : observation) : Prop :=
  dom o = dom o' ∧ ∀ l v v', o !! l = Some v → o' !! l = Some v' → Same v v'.
(** Two values observed under one label at one checkpoint whose encodings collide. *)
Definition values_collide (obs obs' : list observation) : Prop :=
  ∃ i o o' l v v', obs !! i = Some o ∧ obs' !! i = Some o' ∧ o !! l = Some v ∧ o' !! l = Some v' ∧ collide (canon v) (canon v').

#[local] Instance collide_dec a b : Decision (collide a b).
Proof. unfold collide. apply _. Defined.
Lemma same_or_collide o o' : same_observation o o' → same_values o o' ∨ ∃ l v v', o !! l = Some v ∧ o' !! l = Some v' ∧ collide (canon v) (canon v').
Proof.
  intros [Hd Hs]. set (P l v := match o' !! l with Some v' => ¬ collide (canon v) (canon v') | None => True end).
  assert (HP : ∀ l v, Decision (P l v)) by (intros l v; unfold P; destruct (o' !! l); apply _).
  destruct (decide (map_Forall P o)) as [Hf|Hf].
  - left. split; [done|]. intros l v v' Hv Hv'. destruct (Hs l v v' Hv Hv') as [|Hc]; [done|].
    specialize (Hf l v Hv). unfold P in Hf. by rewrite Hv' in Hf.
  - right. apply map_not_Forall in Hf as (l & v & Hv & Hn); [|done]. unfold P in Hn. destruct (o' !! l) as [v'|] eqn:Hv'; [|by destruct Hn].
    exists l, v, v'. split_and!; [done|done|]. by destruct (decide (collide (canon v) (canon v'))).
Qed.
Lemma observations_same_or_collide obs obs' : Forall2 same_observation obs obs' → Forall2 same_values obs obs' ∨ values_collide obs obs'.
Proof.
  induction 1 as [|o o' obs obs' Ho _ [IH|IH]]; [by left; constructor|..].
  - destruct (same_or_collide o o' Ho) as [Hs|(l & v & v' & ?)]; [left; by constructor|right]. exists 0%nat, o, o', l, v, v'. by split.
  - right. destruct IH as (i & x). by exists (S i).
Qed.

(** C22: A fingerprint that one harness recorded from a log verifies against the
    replay of another log on another graph only if the strides are equal and
    either SHA-256 collides, on the encodings of the two logs or on those of two values
    the runs observed under one label at one checkpoint, or the logs hold the same
    events, the two runs observed the same labels and the same values at every
    checkpoint, and the fingerprint returned is the one given. *)
Theorem Verify_certifies h0 h es0 es log0 log w0 w fp obs0 obs fp1 fp2 w1 w2 w3 :
  NewReplayLog es0 = inr log0 → NewReplayLog es = inr log →
  replay h0 (Some log0) w0 = (inr (fp, obs0), w1) → replay h (Some log) w = (inr (fp1, obs), w2) →
  Verify h (Some log) (Some fp) w = (inr fp2, w3) →
  h_stride h0 = h_stride h ∧
  ((collide (canon (events_value es0)) (canon (events_value es)) ∨ values_collide obs0 obs) ∨
   Forall2 same_event es0 es ∧ Forall2 same_values obs0 obs ∧ fp2 = fp).
Proof.
  intros Hl0 Hl Hr0 Hr Hv. destruct (Check_replay h log fp w fp1 obs w2 Hr) as [Hc Hv']. rewrite Hv in Hv'. injection Hv' as Hv' _.
  destruct (Check_ h (Some log) (Some fp) w).1 as [|[|d ds]] eqn:Hck; [done| |done]. injection Hv' as <-.
  rewrite Hc in Hck. destruct (checked_silent _ _ _ _ _ _ _ Hr Hck) as ([Hd Hs] & Hlen & Ha).
  apply replay_inv in Hr0 as (_ & Hn0 & Ho0 & ->), Hr as (_ & Hn & Ho & ->). cbn [fingerprint_of logDigest f_stride checkpoints] in Hd, Hs, Hlen, Ha. split; [done|].
  pose proof Hd as Hdig. apply (log_digest_eq _ _ _ _ Hl0 Hl) in Hd as [He|Hc']; [|by left; left].
  rewrite !checkpoints_length in Hlen by done.
  assert (Hobs : Forall2 same_observation obs0 obs).
  { apply Forall2_same_length_lookup. split; [done|]. intros i o o' Hi Hi'.
    assert (Hq : ∀ (l : list observation) (s : list Z), length l = length s → is_Some (l !! i) → is_Some (s !! i)) by (intros l s Hls; rewrite !lookup_lt_is_Some; lia).
    destruct (Hq obs0 (checkpoint_seqs h0 log0) Hn0) as [q Hq0]; [by eexists|]. destruct (Hq obs (checkpoint_seqs h log) Hn) as [q' Hq1]; [by eexists|].
    rewrite Forall_lookup in Ho0, Ho. apply (agree_observations q q'); [by eapply Ho0|by eapply Ho|].
    apply (Ha (S i) i); [lia|rewrite checkpoints_lookup by done; by rewrite Hq0, Hi|rewrite checkpoints_lookup by done; by rewrite Hq1, Hi']. }
  destruct (observations_same_or_collide _ _ Hobs) as [Hval|Hcol]; [right|by left; right]. split; [done|]. split; [done|].
  assert (Hq : checkpoint_seqs h0 log0 = checkpoint_seqs h log).
  { apply NewReplayLog_inv in Hl0 as [_ ->], Hl as [_ ->]. unfold checkpoint_seqs, Len. simpl. by rewrite (Forall2_length _ _ _ He), (sampled_same _ _ _ _ _ He), Hs. }
  by rewrite Hdig, Hs, Hq, (checkpoints_same _ _ _ Ho0 Ho Hobs).
Qed.

(** ** Graphs that are a function of their log *)

(** What the documentation asks of a graph: built fresh, whatever the world, and
    from then on observing a function of the events applied to it.  Observing may
    change the world (caches fill), not what is observed. *)
Class ReplaySafe (h : ReplayHarness W) (view : list ReplayEvent → observation) (I : ReplayGraph W → list ReplayEvent → W → Prop) : Prop := {
  safe_build w : ∃ g w', build h w = (Some g, w') ∧ I g [] w';
  safe_apply g es e w : I g es w → I g (es ++ [e]) (Apply g e w);
  safe_observe g es w : I g es w → (Observe g w).1 = view es ∧ I g es (Observe g w).2;
}.

(** The observations of a replay, computed from the log alone. *)
Fixpoint views (view : list ReplayEvent → observation) (stride : Z) (total index : nat) (past es : list ReplayEvent) : list observation :=
  match es with
  | [] => []
  | e :: es => (if samples stride total index then [view (past ++ [e])] else []) ++ views view stride total (S index) (past ++ [e]) es
  end.
Definition log_views (view : list ReplayEvent → observation) h (log : ReplayLog) : list observation :=
  view [] :: views view (h_stride h) (Len log) 0 [] (events log).
Definition view_fingerprint (view : list ReplayEvent → observation) h (log : ReplayLog) : ReplayFingerprint :=
  fingerprint_of (Digest log) (h_stride h) (checkpoints_of (checkpoint_seqs h log) (log_views view h log)).

Lemma unobservable seq o : ¬ observable o → ∃ err, NewReplayCheckpoint seq o = inl (ErrEncoding err).
Proof.
  intros Ho. destruct (NewReplayCheckpoint seq o) as [err|c] eqn:Hc; [|by apply NewReplayCheckpoint_inv in Hc as [? _]].
  unfold NewReplayCheckpoint in Hc. destruct (digest_cells (map_to_list o)) as [e|]; simpl in Hc; [|done]. injection Hc as <-. by exists e.
Qed.
Lemma NewReplayCheckpoint_ok seq o : observable o → NewReplayCheckpoint seq o = inr (checkpoint seq o).
Proof. intros Ho. by apply NewReplayCheckpoint_inv. Qed.

Section safe.
Context (h : ReplayHarness W) (view : list ReplayEvent → observation) (I : ReplayGraph W → list ReplayEvent → W → Prop) `{!ReplaySafe h view I}.

Lemma replay_loop_safe g stride total index past es cs obs w : I g past w →
  (Forall observable (views view stride total index past es) → ∃ w', replay_loop g stride total index es cs obs w =
    (inr (cs ++ checkpoints_of (sampled stride total index es) (views view stride total index past es), obs ++ views view stride total index past es), w')) ∧
  (¬ Forall observable (views view stride total index past es) → ∃ err w', replay_loop g stride total index es cs obs w = (inl (ErrEncoding err), w')).
Proof.
  revert index past cs obs w. induction es as [|e es IH]; intros index past cs obs w Hi.
  - simpl. unfold checkpoints_of. simpl. rewrite !app_nil_r. split; [by eexists|by intros []].
  - rewrite replay_loop_samples. simpl. pose proof (safe_apply g past e w Hi) as Hi'. destruct (samples stride total index); [|by apply IH].
    destruct (safe_observe g _ _ Hi') as [-> Hi'']. simpl. destruct (decide (Forall (λ o, Is_true (bool_decide (map_Forall (λ _, Encodable) o))) [view (past ++ [e])])) as [Ho|Ho].
    + rewrite Forall_singleton, bool_decide_spec in Ho. rewrite NewReplayCheckpoint_ok by done. rewrite Forall_cons.
      destruct (IH (S index) (past ++ [e]) (cs ++ [checkpoint (Seq e) (view (past ++ [e]))]) (obs ++ [view (past ++ [e])]) _ Hi'') as [Hok Hbad]. split.
      * intros [_ Hv]. destruct (Hok Hv) as [w' ->]. exists w'. unfold checkpoints_of. simpl. by rewrite <-!(assoc app).
      * intros Hn. apply Hbad. intros Hv. by apply Hn.
    + rewrite Forall_singleton, bool_decide_spec in Ho. destruct (unobservable (Seq e) _ Ho) as [err ->]. split; [by intros [? _]%Forall_cons|]. intros _. by eexists _, _.
Qed.
Lemma replay_safe log w : 1 ≤ h_stride h →
  (Forall observable (log_views view h log) → ∃ w', replay h (Some log) w = (inr (view_fingerprint view h log, log_views view h log), w')) ∧
  (¬ Forall observable (log_views view h log) → ∃ err w', replay h (Some log) w = (inl (ErrEncoding err), w')).
Proof.
  intros Hs. unfold replay, log_views, view_fingerprint, log_views, checkpoint_seqs. destruct (safe_build w) as (g & w1 & -> & Hi).
  destruct (safe_observe g _ _ Hi) as [Ho Hi']. destruct (Observe g w1) as [o w2]. simpl in Ho, Hi'. subst o.
  destruct (decide (map_Forall (λ _, Encodable) (view []))) as [Hv|Hv].
  - rewrite NewReplayCheckpoint_ok by done. rewrite Forall_cons.
    destruct (replay_loop_safe g (h_stride h) (Len log) 0 [] (events log) [checkpoint ReplayInitialSeq (view [])] [view []] w2 Hi') as [Hok Hbad]. split.
    + intros [_ Hvs]. destruct (Hok Hvs) as [w' ->]. exists w'. cbn [bind fst snd].
      assert (Hf : ∀ cs, cs ≠ [] → NewReplayFingerprint (Digest log) (h_stride h) cs = inr (fingerprint_of (Digest log) (h_stride h) cs)) by (intros; by apply NewReplayFingerprint_inv).
      by rewrite Hf.
    + intros Hn. destruct Hbad as (err & w' & ->); [intros Hvs; by apply Hn|]. by eexists _, _.
  - destruct (unobservable ReplayInitialSeq _ Hv) as [err ->]. split; [by intros [? _]%Forall_cons|]. intros _. by eexists _, _.
Qed.
Lemma Verify_safe log w : 1 ≤ h_stride h → Forall observable (log_views view h log) →
  ∃ w', Verify h (Some log) (Some (view_fingerprint view h log)) w = (inr (view_fingerprint view h log), w').
Proof.
  intros Hs Ho. destruct (replay_safe log w Hs) as [[w' Hr] _]; [done|]. exists w'. unfold Verify. rewrite Hr. cbn [bind fst snd].
  unfold replayRevalidate. rewrite decide_True, Z.eqb_refl by done. cbn [bind]. unfold replayCompare. rewrite compare_loop_refl, decide_True by done. done.
Qed.
End safe.

(** C24: Replay equivalence: for a graph that is a function of its log, proving
    any number of replays from two on succeeds, from any world, exactly when every sampled
    value has an encoding, and otherwise is an encoding error; the fingerprint is
    that of the graph's specification, so that it verifies on every other graph
    with the same specification; its checkpoints are the initial state, the
    events at multiples of the stride and the last event. *)
Theorem Prove_certifies_pure_graphs h view I log (n : Z) w :
  ReplaySafe h view I → 1 ≤ h_stride h → 2 ≤ n →
  (¬ Forall observable (log_views view h log) → ∃ err w', Prove h (Some log) n w = (inl (ErrEncoding err), w')) ∧
  (Forall observable (log_views view h log) →
   let fp := view_fingerprint view h log in
   (∃ w', Prove h (Some log) n w = (inr fp, w')) ∧
   (∀ h' I' w2, ReplaySafe h' view I' → h_stride h' = h_stride h → ∃ w', Verify h' (Some log) (Some fp) w2 = (inr fp, w')) ∧
   (∀ q, q ∈ CheckpointSeqs fp ↔ q = ReplayInitialSeq ∨
      ∃ i e, events log !! i = Some e ∧ q = Seq e ∧ (Z.of_nat (S i) mod h_stride h = 0 ∨ S i = Len log))).
Proof.
  intros Hsafe Hs Hn. unfold Prove, Record_. destruct (Z.ltb_spec n 2); [lia|]. destruct (replay_safe h view I log w Hs) as [Hok Hbad]. split.
  { intros Ho. destruct (Hbad Ho) as (err & w' & ->). by eexists _, _. }
  intros Ho. set (fp := view_fingerprint view h log). split_and!.
  - destruct (Hok Ho) as [w' ->]. cbn [bind fst]. fold fp. clear Hok Hbad Hn. generalize (Z.to_nat (n - 1)). intros k. revert w'.
    induction k as [|k IH]; intros w'; [by eexists|]. simpl. destruct (Verify_safe h view I log w' Hs Ho) as [w3 Hv]. fold fp in Hv. rewrite Hv. apply IH.
  - intros h' I' w2 Hsafe' He. assert (Hfp : fp = view_fingerprint view h' log).
    { unfold fp, view_fingerprint, log_views, checkpoint_seqs. by rewrite He. }
    rewrite Hfp. apply (Verify_safe h' view I'); [lia|]. unfold log_views in *. by rewrite He.
  - intros q. assert (Hl : ∀ i, samples (h_stride h) (Len log) (0 + i) = true ↔ Z.of_nat (S i) mod h_stride h = 0 ∨ S i = Len log).
    { intros i. unfold samples. by rewrite orb_true_iff, Z.eqb_eq, Nat.eqb_eq. }
    assert (Hq : CheckpointSeqs fp = checkpoint_seqs h log); [|rewrite Hq; unfold checkpoint_seqs; rewrite elem_of_cons, sampled_elem; by setoid_rewrite Hl].
    unfold CheckpointSeqs, fp, view_fingerprint, fingerprint_of, checkpoints_of. cbn [checkpoints].
    assert (Hlen : length (checkpoint_seqs h log) = length (log_views view h log)).
    { unfold checkpoint_seqs, log_views. simpl. f_equal. generalize 0%nat (@nil ReplayEvent). induction (events log) as [|e es IH]; intros i past; simpl; [done|].
      rewrite !length_app, (IH _ (past ++ [e])). by destruct (samples _ _ _). }
    revert Hlen. generalize (checkpoint_seqs h log) (log_views view h log). induction l as [|s l IH]; intros [|o os]; simpl; try done.
    intros [= Hl']. f_equal. by apply IH.
Qed.

(** The fingerprint of any replay survives its JSON form. *)
Theorem Fingerprint_wire_roundtrip h log w fp obs w' :
  replay h (Some log) w = (inr (fp, obs), w') → ReplayFingerprintFromWire (FWire fp) = inr fp.
Proof.
  intros Hr. apply fingerprint_wire. pose proof Hr as (Hs & Hl & Ho & ->)%replay_inv.
  eexists _, _, _. split.
  - apply NewReplayFingerprint_inv. split_and!; [exact Hs| |reflexivity]. destruct obs; [by unfold checkpoint_seqs in Hl|done].
  - apply Forall_forall. intros c Hc. apply list_elem_of_lookup in Hc as [i Hi]. rewrite checkpoints_lookup in Hi by done.
    destruct (checkpoint_seqs h log !! i), (obs !! i); simplify_eq. apply cells_of_wf.
Qed.
End harness_facts.
End facts.

(** ** Logs out of an outbox *)

Section outbox_log.
Context `{Stdlib} {Msg O : Type} `{!FrameCodec Msg bytes, !DurableOutbox Msg O}.

Lemma frames_to_events_inv name (entries : list (Z * Msg)) es : frames_to_events name entries = inr es →
  Forall2 (λ en e, ∃ f, MarshalJSON en.2 = Some f ∧ e = mkEvent (i64 en.1) name (VRef (VBytes true f))) entries es.
Proof.
  revert es. induction entries as [|[epoch msg] entries IH]; intros es; simpl; [by intros [= <-]|].
  destruct (MarshalJSON msg) as [f|] eqn:Hf; [|done]. intros (es' & Hes & [= <-])%bind_inr. constructor; [by exists f|by apply IH].
Qed.
Lemma frames_to_events_ok name (entries : list (Z * Msg)) : Forall (λ en, is_Some (MarshalJSON en.2)) entries → ∃ es, frames_to_events name entries = inr es.
Proof.
  induction 1 as [|[epoch msg] entries [f Hf] _ [es IH]]; simpl in *; [by eexists|]. rewrite Hf, IH. by eexists.
Qed.

(** The log of an outbox has the retained epochs for sequence numbers and the
    frames' bytes for payloads, as long as the epochs fit an int64; one beyond is
    refused. *)
Lemma ReplayLogFromOutbox_epochs (o : O) (w : gmap Z Msg) (a c : Z) name : outbox_rep o w a →
  let entries := scan_after (Z.max a c) w in
  Forall (λ en, is_Some (MarshalJSON en.2)) entries → Forall (λ en, is_u64 en.1) entries →
  (Forall (λ en, en.1 < two63) entries →
    ∃ es l, (ReplayLogFromOutbox o c name).2 = inr l ∧ NewReplayLog es = inr l ∧ map Seq es = entries.*1 ∧
      Forall2 (λ en e, ∃ f, MarshalJSON en.2 = Some f ∧ Payload e = VRef (VBytes true f)) entries es) ∧
  (¬ Forall (λ en, en.1 < two63) entries → ∃ fault, (ReplayLogFromOutbox o c name).2 = inl (ErrProof fault)).
Proof.
  intros Ho entries Hm Hu. unfold ReplayLogFromOutbox. destruct (ReplayFrom_rep o w a c Ho) as [_ Hr]. destruct (ReplayFrom o c) as [o' ens]. simpl in Hr. subst ens.
  fold entries. set (nm := if decide (name = []) then key "frame" else name).
  assert (Hnm : nm ≠ []) by (unfold nm; by case_decide).
  destruct (frames_to_events_ok nm entries Hm) as [es He]. simpl. rewrite He. simpl. pose proof (frames_to_events_inv _ _ _ He) as Hes.
  assert (Hp : Forall (λ e, Encodable (Payload e)) es) by (clear -Hes; induction Hes as [|? ? ? ? (f & _ & ->)]; constructor; done).
  split.
  - intros Hb. assert (Hq : map Seq es = entries.*1).
    { clear -Hes Hu Hb. induction Hes as [|[e m] y l k (f & Hf & ->) _ IH]; simpl; [done|]. apply Forall_cons in Hu as [He Hu], Hb as [Hb1 Hb].
      rewrite i64_small by (simpl in *; zrange). f_equal. by apply IH. }
    exists es, (mkLog es (digest (events_value es))). assert (Hl : NewReplayLog es = inr (mkLog es (digest (events_value es)))).
    { apply NewReplayLog_inv. split_and!; [|done|done]. split; [|rewrite Hq; apply scan_after_sorted].
      clear -Hes Hu Hb Hnm. induction Hes as [|[e m] y l k (f & Hf & ->) _ IH]; constructor.
      - apply Forall_cons in Hu as [He Hu], Hb as [Hb1 Hb]. simpl in *. rewrite i64_small by zrange. split; [zrange|done].
      - apply Forall_cons in Hu as [_ Hu], Hb as [_ Hb]. by apply IH. }
    split_and!; [done|done|done|]. eapply Forall2_impl; [exact Hes|]. intros en e (f & Hf & ->). by exists f.
  - intros Hb. destruct (NewReplayLog es) as [err|l] eqn:Hl.
    + unfold NewReplayLog in Hl. rewrite canonical_digest_ok in Hl by (by apply events_encodable). simpl in Hl.
      destruct (check_events 0 0 es) as [err'|] eqn:Hc; [|done]. simpl in Hl. injection Hl as <-. clear -Hc.
      assert (Hg : ∀ i p, check_events i p es = inl err' → ∃ fault, err' = ErrProof fault); [|destruct (Hg _ _ Hc) as [ft ->]; by exists ft].
      clear Hc. induction es as [|e es IH]; intros i p; simpl; [done|]. repeat case_match; try (intros [= <-]; by eexists). apply IH.
    + destruct Hb. apply NewReplayLog_inv in Hl as [[[Hf _] _] _]. clear -Hes Hu Hf.
      induction Hes as [|[e m] y l' k (f & _ & ->) _ IH]; constructor; apply Forall_cons in Hu as [Hu1 Hu], Hf as [[Hf1 _] Hf]; [|by apply IH].
      simpl in *. destruct (decide (e < two63)); [done|]. exfalso. revert Hf1. unfold i64. replace ((e + two63) mod two64) with (e + two63 - two64); [zrange|].
      symmetry. rewrite <-(Z_mod_plus_full _ (-1)), Z.mod_small by zrange. lia.
Qed.
End outbox_log.

(** ** A counter, and one that is not a function of its log *)

Definition counter_view (es : list ReplayEvent) : observation :=
  {[ key "sum" := VInt (foldl (λ s e, match Payload e with VInt n => s + n | _ => s end) 0 es) ]}.
Definition counter_graph : ReplayGraph Z :=
  mkGraph (λ e w, match Payload e with VInt n => w + n | _ => w end) (λ w, ({[ key "sum" := VInt w ]}, w)).
(** Its state starts afresh with each build. *)
Definition counter : ReplayHarness Z := mkHarness (λ _, (Some counter_graph, 0)) 2.
(** Its state is a variable the graphs share. *)
Definition leaky : ReplayHarness Z := mkHarness (λ w, (Some counter_graph, w)) 2.
#[export] Instance counter_safe : ReplaySafe counter counter_view (λ g es w,
  g = counter_graph ∧ w = foldl (λ s e, match Payload e with VInt n => s + n | _ => s end) 0 es).
Proof.
  split.
  - intros w. by exists counter_graph, 0.
  - intros g es e w [-> ->]. by rewrite foldl_snoc.
  - intros g es w [-> ->]. done.
Qed.

Definition demo_events : list ReplayEvent := [mkEvent 3 (key "add") (VInt 1); mkEvent 5 (key "add") (VInt 2); mkEvent 9 (key "add") (VInt 3)].
Definition reversed_events : list ReplayEvent := [mkEvent 3 (key "add") (VInt 3); mkEvent 5 (key "add") (VInt 2); mkEvent 9 (key "add") (VInt 1)].
Definition demo_log : ReplayLog := mkLog demo_events (digest (events_value demo_events)).
Definition reversed_log : ReplayLog := mkLog reversed_events (digest (events_value reversed_events)).
Definition demo_fp : ReplayFingerprint := view_fingerprint counter_view counter demo_log.

Lemma demo_replays :
  CheckpointSeqs demo_fp = [-1; 5; 9] ∧
  (Verify counter (Some demo_log) (Some demo_fp) 77).1 = inr demo_fp ∧
  (Prove counter (Some demo_log) 3 77).1 = inr demo_fp ∧
  (∃ d, (Prove leaky (Some demo_log) 2 0).1 = inl (ErrDivergence [d]) ∧ d_Seq d = -1 ∧ Kind d = key "value") ∧
  (∃ a b, (Verify counter (Some reversed_log) (Some demo_fp) 0).1 = inl (ErrLogMismatch a b)).
Proof. split_and!; try (vm_compute; exact eq_refl); [eexists; split_and!; vm_compute; exact eq_refl|eexists _, _; vm_compute; exact eq_refl]. Qed.

(** The sequence numbers of a fingerprint read from JSON are not compared: one
    that was altered verifies, and what Verify returns is not what it was given. *)
Lemma Verify_ignores_seqs :
  let wire := mkFingerprintWire 1 (Digest demo_log) 2
    (map (λ c, mkCheckpointWire (c_Seq c + 40) (Digests c)) (checkpoints demo_fp)) in
  ∃ altered, ReplayFingerprintFromWire wire = inr altered ∧
    (Verify counter (Some demo_log) (Some altered) 0).1 = inr demo_fp ∧ CheckpointSeqs altered ≠ CheckpointSeqs demo_fp.
Proof. eexists. split_and!; [vm_compute; exact eq_refl|vm_compute; exact eq_refl|vm_compute; discriminate]. Qed.
(** A cell recorded with an empty digest may be missing from the replay: the lookup
    of a missing label gives the same empty string. *)
Lemma Check_misses_empty_digest :
  let f := fingerprint_of (Digest demo_log) 2
    (map (λ c, mkCheckpoint (c_Seq c) (mkCell (key "gone") [] :: Cells c)) (checkpoints demo_fp)) in
  (Check_ counter (Some demo_log) (Some f) 0).1 = inr [].
Proof. vm_compute. exact eq_refl. Qed.

Lemma demo_replay w : ∃ obs w', replay counter (Some demo_log) w = (inr (demo_fp, obs), w').
Proof.
  destruct (replay_safe counter counter_view _ demo_log w) as [[w' Hr] _]; [done| |by eexists _, _].
  apply (bool_decide_unpack _). vm_compute. exact I.
Qed.
Lemma demo_new : NewReplayLog demo_events = inr demo_log.
Proof. vm_compute. exact eq_refl. Qed.

Lemma Check_localizes_witness :
  reported counter reversed_log demo_fp (view_fingerprint counter_view counter reversed_log) (Check_ counter (Some reversed_log) (Some demo_fp) 0).1.
Proof.
  destruct (replay_safe counter counter_view _ reversed_log 0) as [[w' Hr] _]; [done|apply (bool_decide_unpack _); vm_compute; exact I|].
  pose proof (Check_localizes counter (Some reversed_log) (Some demo_fp) 0) as Hx. rewrite Hr in Hx. exact (proj1 Hx).
Defined.
Lemma Verify_certifies_witness : ∃ obs obs' : list observation,
  (collide (canon (events_value demo_events)) (canon (events_value demo_events)) ∨ values_collide obs obs') ∨ Forall2 same_event demo_events demo_events ∧ Forall2 same_values obs obs' ∧ demo_fp = demo_fp.
Proof.
  destruct (demo_replay 5) as (obs & w1 & Hr0), (demo_replay 8) as (obs' & w2 & Hr).
  destruct (Verify_safe counter counter_view _ demo_log 8) as [w3 Hv]; [done|apply (bool_decide_unpack _); vm_compute; exact I|].
  exists obs, obs'. exact (proj2 (Verify_certifies counter counter _ _ demo_log demo_log 5 8 demo_fp obs obs' demo_fp demo_fp w1 w2 w3 demo_new demo_new Hr0 Hr Hv)).
Defined.
Lemma Prove_certifies_pure_graphs_witness : ∃ w', Prove counter (Some demo_log) 4 11 = (inr demo_fp, w').
Proof.
  refine (proj1 (proj2 (Prove_certifies_pure_graphs counter counter_view _ demo_log 4 11 counter_safe ltac:(done) ltac:(done)) _)).
  apply (bool_decide_unpack _). vm_compute. exact I.
Defined.
Lemma Fingerprint_wire_roundtrip_witness : ReplayFingerprintFromWire (FWire demo_fp) = inr demo_fp.
Proof.
  destruct (demo_replay 5) as (obs & w1 & Hr). exact (Fingerprint_wire_roundtrip counter demo_log 5 demo_fp obs w1 Hr).
Defined.
