(* ===== verification/Projection.v ===== *)
(** * Projection: publishing state (latest_durable_projection.go, state_projection.go)

    The reactive shell of the latest-durable projection, a version cell over the
    core of LatestDurable, and the mirror that turns the slots a graph invalidated
    and resolved into one delta per flush.  A cell is the value it holds: writing a
    value it already has changes nothing, and any other value reaches its readers. *)

From S2P Require Import Prelude LatestDurable MsgpackCodec Wire StableId Permissions.
Local Open Scope Z_scope.

(** ** The shell *)

Section shell.
Context {K V : Type} `{Countable K} `{!EqDecision V}.

(** [latest_durable_projection.go] [type LatestDurableProjection] *)
Record LatestDurableProjection := mkProjection {
  core : LatestDurableProjectionCore K V; stateReader : Z; version : Z }.
(** [latest_durable_projection.go] [NewLatestDurableProjection] *)
Definition NewLatestDurableProjection (generation : Z) : LatestDurableProjection :=
  mkProjection (NewLatestDurableProjectionCore generation) 0 0.
(** The core has already been changed when [publish] runs.
    [latest_durable_projection.go] [LatestDurableProjection.publish] *)
Definition publish (p : LatestDurableProjection) (change : bool) : LatestDurableProjection :=
  if negb change then p else let v := u64 (version p + 1) in mkProjection (core p) v v.
Definition with_core (p : LatestDurableProjection) (c : LatestDurableProjectionCore K V) : LatestDurableProjection :=
  mkProjection c (stateReader p) (version p).

(** [latest_durable_projection.go] [LatestDurableProjection.UpsertDesired] *)
Definition P_UpsertDesired p key epoch (value : V) : LatestDurableProjection * LatestDurableUpsert :=
  let '(c, change, outcome) := UpsertDesired (core p) key epoch value in (publish (with_core p c) change, outcome).
(** [latest_durable_projection.go] [LatestDurableProjection.Claim] *)
Definition P_Claim p key generation : LatestDurableProjection * LatestDurableClaim K V :=
  let '(c, change, outcome) := Claim (core p) key generation in (publish (with_core p c) change, outcome).
(** [latest_durable_projection.go] [LatestDurableProjection.AckApplied] *)
Definition P_AckApplied p key generation epoch : LatestDurableProjection * LatestDurableAck :=
  let '(c, change, outcome) := AckApplied (core p) key generation epoch in (publish (with_core p c) change, outcome).
(** [latest_durable_projection.go] [LatestDurableProjection.FailRetryable] *)
Definition P_FailRetryable p key generation epoch : LatestDurableProjection * LatestDurableFailure :=
  let '(c, change, outcome) := FailRetryable (core p) key generation epoch in (publish (with_core p c) change, outcome).
(** [latest_durable_projection.go] [LatestDurableProjection.Reconnect] *)
Definition P_Reconnect p generation : LatestDurableProjection * LatestDurableReconnect :=
  let '(c, change, outcome) := Reconnect (core p) generation in (publish (with_core p c) change, outcome).
(** [latest_durable_projection.go] [LatestDurableProjection.Generation] *)
Definition P_Generation p : Z := generation (core p).
(** [latest_durable_projection.go] [LatestDurableProjection.Count] *)
Definition P_Count p : nat := Count (core p).
(** [latest_durable_projection.go] [LatestDurableProjection.State] *)
Definition P_State p key : option (latestDurableEntry K V) := State (core p) key.
(** [latest_durable_projection.go] [LatestDurableProjection.Snapshot] *)
Definition P_Snapshot p : Z * gmap K (latestDurableEntry K V) := LatestDurable.Snapshot (core p).
(** [latest_durable_projection.go] [LatestDurableProjection.StateReader] *)
Definition StateReader p : Z := stateReader p.

(** One call of the shell. *)
Definition p_step (p : LatestDurableProjection) (op : ldOp K V) : LatestDurableProjection :=
  match op with
  | LdUpsert key epoch v => (P_UpsertDesired p key epoch v).1
  | LdClaim key gen => (P_Claim p key gen).1
  | LdAck key gen epoch => (P_AckApplied p key gen epoch).1
  | LdFail key gen epoch => (P_FailRetryable p key gen epoch).1
  | LdReconnect gen => (P_Reconnect p gen).1
  end.
End shell.
Arguments LatestDurableProjection _ _ {_ _}.

(** ** The mirror *)

(** [state_projection.go] [type StateProjectionMirror] *)
Record StateProjectionMirror := mkMirror { dirty : gset Z; values : gmap Z IpcValue; baseEpoch : Z }.
(** [state_projection.go] [NewStateProjectionMirror] *)
Definition NewStateProjectionMirror : StateProjectionMirror := mkMirror ∅ ∅ 0.
(** [state_projection.go] [StateProjectionMirror.MarkDirty] *)
Definition MarkDirty (m : StateProjectionMirror) (node : Z) : StateProjectionMirror := mkMirror ({[node]} ∪ dirty m) (values m) (baseEpoch m).
(** [state_projection.go] [StateProjectionMirror.Resolve] *)
Definition Resolve (m : StateProjectionMirror) (node : Z) (value : IpcValue) : StateProjectionMirror :=
  mkMirror (dirty m ∖ {[node]}) (<[node := value]> (values m)) (baseEpoch m).
(** [state_projection.go] [StateProjectionMirror.IsDirty] *)
Definition IsDirty (m : StateProjectionMirror) (node : Z) : bool := bool_decide (node ∈ dirty m).
(** [state_projection.go] [StateProjectionMirror.DirtyNodes] *)
Definition DirtyNodes (m : StateProjectionMirror) : list Z := merge_sort Z.le (elements (dirty m)).
(** The payload of a resolved node; the default is never read.
    [state_projection.go] [StateProjectionMirror.Flush] *)
Definition Flush (m : StateProjectionMirror) : StateProjectionMirror * Delta :=
  let dirty := merge_sort Z.le (elements (dirty m)) in
  let resolved := merge_sort Z.le (elements (dom (values m))) in
  let ops := map DeltaOpInvalidate dirty ++ map (λ n, DeltaOpSlotValue n (default (IpcValueInline []) (values m !! n))) resolved in
  let delta := DeltaNext (baseEpoch m) ops in
  (mkMirror ∅ ∅ (d_Epoch delta), delta).
(** [state_projection.go] [StateProjectionMirror.BaseEpoch] *)
Definition BaseEpoch_ (m : StateProjectionMirror) : Z := baseEpoch m.

(** A string is the list of its code points.
    [state_projection.go] [DocumentHash] *)
Definition DocumentHash (path : list Z) : Z :=
  foldl (λ hash unit, u64 (Z.lxor hash unit * 1099511628211)) 14695981039346656037 (mjoin (map utf16 path)).
(** An event: its id and its fact, a map of JSON values.
    [state_projection.go] [BuildStateEvent] *)
Definition BuildStateEvent (docHash eventType : list Z) (fields : gmap (list Z) tree) (eventSuffix : list Z) : list Z * gmap (list Z) tree :=
  (docHash ++ key ":" ++ eventSuffix, fields ∪ {[ key "type" := TStr eventType; key "document_hash" := TStr docHash ]}).

(** ** The version is the state *)

Section shell_facts.
Context {K V : Type} `{Countable K} `{!EqDecision V}.
Implicit Types (c : LatestDurableProjectionCore K V) (p : LatestDurableProjection K V).

(** What a reader can tell of a core: its generation and the entry of each key,
    an entry never made read as empty. *)
Definition same_state c c' : Prop := generation c = generation c' ∧ ∀ k, lookup_entry c k = lookup_entry c' k.
Definition changed c (op : ldOp K V) : bool :=
  match op with
  | LdUpsert key ep v => (UpsertDesired c key ep v).1.2
  | LdClaim key gen => (Claim c key gen).1.2
  | LdAck key gen ep => (AckApplied c key gen ep).1.2
  | LdFail key gen ep => (FailRetryable c key gen ep).1.2
  | LdReconnect gen => (Reconnect c gen).1.2
  end.

Lemma same_entry c k : same_state c (entry c k).1.
Proof. destruct (entry_spec c k) as (_ & Hg & Hk). split; intros; [by rewrite Hg|by rewrite Hk]. Qed.
Lemma same_refl c : same_state c c.
Proof. done. Qed.
Lemma set_differs c k e : e ≠ lookup_entry c k → ¬ same_state c (set_entry (entry c k).1 k e).
Proof. intros Hne [_ He]. apply Hne. rewrite (He k), set_entry_lookup. by rewrite decide_True. Qed.

Lemma entry_eta c k : entry c k = ((entry c k).1, lookup_entry c k).
Proof. destruct (entry_spec c k) as (<- & _). by destruct (entry c k). Qed.
Lemma newest_desired (r : LatestDurableRevision V) (i : option (LatestDurableEnvelope K V)) d o :
  newest_revision (mkEntry (Some r) i d) = o → ∃ n, o = Some n ∧ (rEpoch r < rEpoch n ∨ n = r).
Proof. unfold newest_revision. simpl. intros <-. destruct i as [i|]; [|by eauto]. destruct (Z.ltb_spec (rEpoch r) (eEpoch i)); eauto. Qed.
(** An operation reports a change exactly when it makes one. *)
Lemma changed_spec c op : changed c op = true ↔ ¬ same_state c (ld_step c op).
Proof.
  assert (Hno : ∀ c', same_state c c' → false = true ↔ ¬ same_state c c') by (intros; split; [done|by intros []]).
  assert (Hyes : ∀ c', ¬ same_state c c' → true = true ↔ ¬ same_state c c') by done.
  destruct op as [k ep v|k gen|k gen ep|k gen ep|gen]; simpl.
  - unfold UpsertDesired. rewrite entry_eta.
    repeat case_match; simplify_eq/=; first [apply Hno, same_entry|apply Hyes, set_differs; intros He; rewrite <-He in *; simpl in *].
    all: match goal with Hn : newest_revision _ = _ |- _ => apply newest_desired in Hn as (n & ? & [?| ->]); simplify_eq/=; try lia end.
  - unfold Claim. case_match; [apply Hno, same_refl|]. rewrite entry_eta.
    repeat case_match; simplify_eq/=; first [apply Hno, same_entry|apply Hyes, set_differs; intros He; rewrite <-He in *; simplify_eq/=].
  - unfold AckApplied. case_match; [apply Hno, same_refl|]. rewrite entry_eta.
    repeat case_match; simplify_eq/=; first [apply Hno, same_entry|apply Hyes, set_differs; intros He; rewrite <-He in *; simplify_eq/=].
  - unfold FailRetryable. case_match; [apply Hno, same_refl|]. rewrite entry_eta.
    repeat case_match; simplify_eq/=; first [apply Hno, same_entry|apply Hyes, set_differs; intros He; rewrite <-He in *; simplify_eq/=].
  - unfold Reconnect. case_match; [apply Hno, same_refl|]. case_match; [apply Hno, same_refl|]. apply Hyes. intros [Hg _]. simpl in Hg. apply Z.eqb_neq in H1. congruence.
Qed.

Lemma p_step_spec p op : p_step p op = publish (with_core p (ld_step (core p) op)) (changed (core p) op).
Proof.
  destruct op; simpl; [unfold P_UpsertDesired; destruct (UpsertDesired _ _ _ _) as [[? ?] ?]|unfold P_Claim; destruct (Claim _ _ _) as [[? ?] ?]
    |unfold P_AckApplied; destruct (AckApplied _ _ _ _) as [[? ?] ?]|unfold P_FailRetryable; destruct (FailRetryable _ _ _ _) as [[? ?] ?]
    |unfold P_Reconnect; destruct (Reconnect _ _) as [[? ?] ?]]; done.
Qed.
Lemma version_moves v : is_u64 v → u64 (v + 1) ≠ v.
Proof.
  intros Hv. destruct (decide (v = max_u64)) as [->|Hn]; [by vm_compute|]. rewrite u64_small; [lia|zrange].
Qed.

(** How many calls of a run change something. *)
Fixpoint transitions c (ops : list (ldOp K V)) : nat :=
  match ops with [] => O | op :: ops => ((if changed c op then 1 else 0) + transitions (ld_step c op) ops)%nat end.
Lemma p_run_spec p ops : version p = stateReader p → let q := foldl p_step p ops in
  core q = foldl ld_step (core p) ops ∧ version q = stateReader q ∧
  (is_u64 (stateReader p) → stateReader q = u64 (stateReader p + Z.of_nat (transitions (core p) ops))).
Proof.
  revert p. induction ops as [|op ops IH]; intros p Hv; simpl; [split_and!; [done..|]; intros; by rewrite Z.add_0_r, u64_small|].
  rewrite p_step_spec. unfold publish. destruct (changed (core p) op); simpl.
  - destruct (IH (mkProjection (ld_step (core p) op) (u64 (version p + 1)) (u64 (version p + 1)))) as (Hc & Hq & Hr); [done|].
    split_and!; [done..|]. intros _. rewrite Hr by apply u64_range. simpl. rewrite Hv. unfold u64. rewrite Zplus_mod_idemp_l. f_equal. lia.
  - by apply (IH (with_core p (ld_step (core p) op))).
Qed.

(** The version cell of the projection is true to its state: over any run it
    holds the number of transitions modulo 2^64, and a call writes a new value to
    it exactly when the generation or the entry of some key reads differently
    afterwards. *)
Theorem Projection_publishes_changes gen (ops : list (ldOp K V)) op :
  let p := foldl p_step (NewLatestDurableProjection gen) ops in
  core p = foldl ld_step (NewLatestDurableProjectionCore gen) ops ∧
  StateReader p = u64 (Z.of_nat (transitions (NewLatestDurableProjectionCore gen) ops)) ∧
  (StateReader (p_step p op) ≠ StateReader p ↔ ¬ same_state (core p) (core (p_step p op))).
Proof.
  destruct (p_run_spec (NewLatestDurableProjection gen) ops) as (Hc & Hv & Hr); [done|]. specialize (Hr ltac:(done)). intros p. fold p in Hc, Hv, Hr.
  split_and!; [done|done|]. rewrite p_step_spec. unfold publish. destruct (changed (core p) op) eqn:Hch; simpl.
  - apply changed_spec in Hch. split; [done|]. intros _. unfold StateReader. simpl. rewrite Hv. apply version_moves. rewrite Hr. apply u64_range.
  - split; [done|]. intros Hn. apply changed_spec in Hn. congruence.
Qed.
End shell_facts.

(** ** The flush *)

Inductive mirrorOp := MMark (node : Z) | MResolve (node : Z) (value : IpcValue).
Definition mirror_step (m : StateProjectionMirror) (op : mirrorOp) : StateProjectionMirror :=
  match op with MMark n => MarkDirty m n | MResolve n v => Resolve m n v end.
(** The last word on a node: dirty, and its last value. *)
Definition left_dirty (ops : list mirrorOp) (n : Z) : bool :=
  foldl (λ d op, match op with MMark k => if k =? n then true else d | MResolve k _ => if k =? n then false else d end) false ops.
Definition last_value (ops : list mirrorOp) (n : Z) : option IpcValue :=
  foldl (λ v op, match op with MMark _ => v | MResolve k w => if k =? n then Some w else v end) None ops.

Lemma sorted_nodes (X : gset Z) : StronglySorted Z.lt (merge_sort Z.le (elements X)) ∧ ∀ n, n ∈ merge_sort Z.le (elements X) ↔ n ∈ X.
Proof.
  assert (He : ∀ n, n ∈ merge_sort Z.le (elements X) ↔ n ∈ X) by (intros n; by rewrite merge_sort_Permutation, elem_of_elements).
  split; [|done]. assert (Hn : NoDup (merge_sort Z.le (elements X))) by (rewrite merge_sort_Permutation; apply NoDup_elements).
  pose proof (StronglySorted_merge_sort Z.le (elements X)) as Hs. clear He.
  induction Hs as [|x l Hs IH Hx]; constructor; apply NoDup_cons in Hn as [Hin Hn]; [by apply IH|].
  rewrite Forall_forall in *. intros y Hy. specialize (Hx y Hy). destruct (decide (x = y)) as [->|]; [done|lia].
Qed.
Lemma mirror_run b ops : let m := foldl mirror_step (mkMirror ∅ ∅ b) ops in
  baseEpoch m = b ∧ (∀ n, IsDirty m n = left_dirty ops n) ∧ ∀ n, values m !! n = last_value ops n.
Proof.
  induction ops as [|op ops IH] using rev_ind; [done|]. unfold left_dirty, last_value in *. simpl in *. rewrite !foldl_snoc. destruct IH as (Hb & Hd & Hv).
  destruct op as [k|k w]; simpl; split_and!; [done| | |done| |]; intros n; rewrite ?foldl_snoc; try done; specialize (Hd n); specialize (Hv n).
  - unfold IsDirty in *. simpl. rewrite <-Hd. destruct (Z.eqb_spec k n) as [->|]; [|apply bool_decide_ext]; [apply bool_decide_eq_true|]; set_solver.
  - unfold IsDirty in *. simpl. rewrite <-Hd. destruct (Z.eqb_spec k n) as [->|]; [apply bool_decide_eq_false|apply bool_decide_ext]; set_solver.
  - rewrite <-Hv. destruct (Z.eqb_spec k n) as [->|]; [by rewrite lookup_insert_eq|by rewrite lookup_insert_ne].
Qed.

(** A flush is the minimal account of what happened since the last one: first
    an invalidation for each node marked dirty and not resolved afterwards, then
    the last value of each resolved node, each group in ascending order without
    repetition; it clears the mirror, and its epoch is the one a receiver at the
    base epoch accepts. *)
Theorem Mirror_flush_exact b ops :
  let '(m, delta) := Flush (foldl mirror_step (mkMirror ∅ ∅ b) ops) in
  (∃ ds vs, d_Ops delta = map DeltaOpInvalidate ds ++ map (λ '(n, v), DeltaOpSlotValue n v) vs ∧
    StronglySorted Z.lt ds ∧ StronglySorted Z.lt vs.*1 ∧
    (∀ n, n ∈ ds ↔ left_dirty ops n = true) ∧ (∀ n v, (n, v) ∈ vs ↔ last_value ops n = Some v)) ∧
  dirty m = ∅ ∧ values m = ∅ ∧ BaseEpoch delta = b ∧ ApplyStatus delta b = DeltaApplyStatusApply (baseEpoch m).
Proof.
  destruct (mirror_run b ops) as (Hb & Hd & Hv). set (m := foldl _ _ _) in *. unfold Flush. rewrite Hb. split.
  - destruct (sorted_nodes (dirty m)) as [Hs1 He1], (sorted_nodes (dom (values m))) as [Hs2 He2].
    exists (merge_sort Z.le (elements (dirty m))), (map (λ n, (n, default (IpcValueInline []) (values m !! n))) (merge_sort Z.le (elements (dom (values m))))).
    rewrite map_map. split_and!; [done|done| | |].
    + change (map ?f ?l) with (f <$> l). rewrite <-list_fmap_compose. simpl. by rewrite list_fmap_id.
    + intros n. rewrite He1, <-Hd. unfold IsDirty. by rewrite bool_decide_eq_true.
    + intros n v. change (map ?f ?l) with (f <$> l). rewrite list_elem_of_fmap, <-Hv. split.
      * intros (k & [= -> ->] & [w Hw]%He2%elem_of_dom). by rewrite Hw.
      * intros Hw. exists n. rewrite He2, Hw. split; [done|]. apply elem_of_dom. by eexists.
  - split_and!; [done..|]. unfold ApplyStatus, IsNextAfter, DeltaNext. simpl. by rewrite !Z.eqb_refl.
Qed.

(** A node dirtied again after it was resolved goes out as an invalidation followed
    by its stale value, which a receiver takes for current. *)
Lemma redirtied_sends_stale_value (v : IpcValue) :
  d_Ops (Flush (MarkDirty (Resolve (MarkDirty NewStateProjectionMirror 7) 7 v) 7)).2 = [DeltaOpInvalidate 7; DeltaOpSlotValue 7 v].
Proof. vm_compute. exact eq_refl. Qed.

(** The published vectors of FNV-1a, on code units. *)
Lemma DocumentHash_vectors :
  DocumentHash [] = 14695981039346656037 ∧ DocumentHash (key "a") = 12638187200555641996 ∧ DocumentHash (key "foobar") = 9625390261332436968.
Proof. split_and!; vm_compute; exact eq_refl. Qed.
(** The fields of an event are merged over its type and its document hash. *)
Lemma BuildStateEvent_merges d t fields suffix k : (BuildStateEvent d t fields suffix).2 !! k =
  match fields !! k with Some v => Some v | None =>
    if decide (k = key "type") then Some (TStr t) else if decide (k = key "document_hash") then Some (TStr d) else None end.
Proof.
  unfold BuildStateEvent. cbn [snd]. destruct (fields !! k) as [v|] eqn:Hk; [by apply lookup_union_Some_l|]. rewrite lookup_union_r by done.
  case_decide; [subst; by apply lookup_insert_eq|]. rewrite lookup_insert_ne by done. case_decide; [subst; by apply lookup_singleton_eq|]. by apply lookup_singleton_ne.
Qed.
