(* ===== verification/SemTree.v ===== *)
(** * SemTree: a memoised fold over a tree (sem_tree.go)

    The tree is a program over the kernel: per node a source for its value, a
    source for the list of its children and a computed that folds them.  The
    theorems run on the kernel's own operations and hold for every order in which
    Go ranges over its edge sets.  They are about a context that holds one tree and
    no effects: what readers outside a tree may add is the kernel's contract. *)

From S2P Require Import Prelude Kernel KernelMark KernelPull KernelRun KernelHistory.

(** ** A context without effects *)

Section quiet.
Context {V : Type} `{EqDecision V} (zero : V).
Context (ord : @ctx V → gset nat → list nat) (reads R : nat → nat → Prop) `{HO : !PullOrder ord reads R}.
Implicit Types (c : @ctx V) (n m : nat).

(** No live effect, and none scheduled. *)
Definition quiet c : Prop :=
  (∀ m, is_effect (getn c m) = true → disposed (getn c m) = true ∧ dependencies (getn c m) = ∅) ∧ pendingEffects c = [].
(** At rest and quiet. *)
Definition idle c : Prop := Top reads c ∧ quiet c.

Lemma mark_visit_quiet e c : quiet c → quiet (mark_visit true e c).1.
Proof.
  intros [Hq Hp]. pose proof (mark_visit_shape true e c) as Hs. split.
  - intros m. specialize (Hs m). intros Hm. rewrite (skel_disposed _ _ Hs), (skel_dependencies _ _ Hs). apply Hq. by rewrite <-(skel_effect _ _ Hs).
  - unfold mark_visit. destruct (disposed (getn c (me_node e))) eqn:Hd; [done|].
    destruct (self (getn c (me_node e))) as [s|k|ef] eqn:Es; simpl.
    + unfold onInvalidate. by rewrite Es.
    + unfold onInvalidate. destruct (me_force e); [rewrite getn_updn_eq; simpl|]; by rewrite Es.
    + assert (disposed (getn c (me_node e)) = true) by (apply Hq; unfold is_effect; by rewrite Es). congruence.
Qed.
Lemma mark_run_quiet st c c' : mark_run ord true st c c' → quiet c → quiet c'.
Proof.
  intros Hr. remember true as b. induction Hr as [|e st c c1 p c' Hv _ IH]; [done|]. subst. intros Hq. apply IH; try done.
  pose proof (mark_visit_quiet e c Hq) as Hx. by rewrite Hv in Hx.
Qed.

(** What a write in such a context does, and only does. *)
Record wrote n v c c' : Prop := {
  wr_idle : idle c';
  wr_next : next c' = next c;
  wr_other m : m ≠ n → is_effect (getn c m) = false → fixed (getn c' m) = fixed (getn c m);
  wr_self s : self (getn c n) = ASource s → self (getn c' n) = ASource (MkSource v (s_policy s)) ∧ disposed (getn c' n) = disposed (getn c n);
  wr_cached m : cachedNow (getn c m) = true → cachedNow (getn c' m) = false → tc (edge c) n m;
  wr_noop s : self (getn c n) = ASource s → s_value s = v → c' = c;
}.

Lemma flush_quiet fuel c : 0 < fuel → pendingEffects c = [] → flushingEffects c = false →
  ∃ c', flushEffects ord zero fuel c = Ok tt c' ∧ nodes c' = nodes c ∧ pendingEffects c' = [].
Proof.
  intros Hf Hp Hfl. destruct fuel as [|fuel]; [lia|]. simpl. rewrite Hfl.
  unfold deferred, mbind, M_bind, modify, drain. destruct fuel; simpl; rewrite Hp; eexists; done.
Qed.

Lemma write_edges n v c : let c1 := updn n (with_self (on_source (λ s, MkSource v (s_policy s)))) c in
  (edges_ok c → edges_ok c1) ∧ (flags_ok c → flags_ok c1) ∧ (quiet c → quiet c1) ∧ (∀ m, cachedNow (getn c1 m) = cachedNow (getn c m)) ∧
  (∀ m, dependents (getn c1 m) = dependents (getn c m)) ∧ (∀ m, m ≠ n → getn c1 m = getn c m) ∧
  (∀ s, self (getn c n) = ASource s → self (getn c1 n) = ASource (MkSource v (s_policy s)) ∧ disposed (getn c1 n) = disposed (getn c n)).
Proof.
  intros c1. assert (Hg : ∀ m, getn c1 m = if decide (m = n) then with_self (on_source (λ s, MkSource v (s_policy s))) (getn c n) else getn c m) by (intros; apply getn_updn).
  assert (Hk : ∀ m, dependents (getn c1 m) = dependents (getn c m) ∧ dependencies (getn c1 m) = dependencies (getn c m) ∧
    is_source (getn c1 m) = is_source (getn c m) ∧ is_effect (getn c1 m) = is_effect (getn c m) ∧ is_cacheable (getn c1 m) = is_cacheable (getn c m) ∧
    disposed (getn c1 m) = disposed (getn c m) ∧ cachedNow (getn c1 m) = cachedNow (getn c m) ∧ dirty (getn c1 m) = dirty (getn c m) ∧
    forceRecompute (getn c1 m) = forceRecompute (getn c m)).
  { intros m. rewrite Hg. case_decide as Hm; [subst m|by split_and!].
    unfold is_source, is_effect, is_cacheable, cachedNow. simpl. destruct (self (getn c n)); by split_and!. }
  split_and!.
  - intros [H1 H2 H3]. split; intros a b; destruct (Hk a) as (Ka & Kb & Kc & _), (Hk b) as (La & Lb & Lc & Ld & _); rewrite ?Ka, ?Kb, ?Kc, ?La, ?Lb, ?Ld; eauto.
  - intros [H1 H2 H3]. split; intros m; destruct (Hk m) as (_ & _ & _ & _ & Ke & Kf & Kg & Kh & Ki); rewrite ?Ke, ?Kf, ?Kg, ?Kh, ?Ki; eauto.
  - intros [Hq Hp]. split; [|done]. intros m. destruct (Hk m) as (_ & -> & _ & -> & _ & -> & _). apply Hq.
  - intros m. apply Hk.
  - intros m. apply Hk.
  - intros m Hm. rewrite Hg. by case_decide.
  - intros s Hs. rewrite Hg, decide_True by done. unfold with_self; simpl. by rewrite Hs.
Qed.

Lemma edge_same c c1 : (∀ m, dependents (getn c1 m) = dependents (getn c m)) → ∀ a b, tc (edge c1) a b → tc (edge c) a b.
Proof.
  intros Hd a b Ht. induction Ht as [x y Hxy|x y z Hxy _ IH]; unfold edge in Hxy; rewrite Hd in Hxy; [by apply tc_once|by eapply tc_l].
Qed.

Lemma invalidate_quiet n c : edges_ok c → flags_ok c → quiet c → is_source (getn c n) = true →
  ∃ c', invalidate ord n c = Ok tt c' ∧ same_shape c c' ∧ quiet c' ∧ statics c' = statics c ∧ getn c' n = getn c n ∧
    ∀ m, cachedNow (getn c m) = true → cachedNow (getn c' m) = false → tc (edge c) n m.
Proof using HO.
  intros He Hf Hq Hsrc. destruct (markDependents_runs ord po_perm true n c He) as (st & c' & Hm & Hr & Hst).
  exists c'. split_and!.
  - unfold invalidate, onInvalidate, is_cacheable. unfold is_source in Hsrc. by destruct (self (getn c n)).
  - by eapply mark_run_shape.
  - by eapply mark_run_quiet.
  - by eapply mark_run_statics.
  - assert (Hns : ∀ b, n ∉ dependents (getn c b)) by (intros b Hb; apply (e_src _ He) in Hb; congruence).
    eapply (mark_run_untouched ord po_perm); [exact Hr|exact Hns|]. intros e [_ Hin]%Hst Hx. apply (Hns n). by rewrite <-Hx at 1.
  - intros m Hc Hc'. assert (Hre : reach c st m) by (by eapply (mark_run_cached ord po_perm)).
    destruct Hre as (e & [_ Hin]%Hst & Hrt). eapply tc_rtc_r; [by apply tc_once|done].
Qed.

Lemma fixed_skel (nd nd' : @node V) : skel nd' = skel nd → is_effect nd = false → fixed nd' = fixed nd.
Proof.
  intros Hs He. pose proof (skel_disposed _ _ Hs) as Hd. unfold fixed. rewrite Hd. f_equal.
  unfold skel, with_stale, with_self in Hs. unfold is_effect in He. injection Hs as Hs. simpl in Hs.
  destruct (self nd) as [s|k|e], (self nd') as [s'|k'|e']; simpl in Hs; try done; [congruence|]. injection Hs. congruence.
Qed.

(** A write in a context without effects. *)
Lemma quiet_set fuel n v c s : idle c → op_fuel c ≤ fuel → self (getn c n) = ASource s → disposed (getn c n) = false →
  ∃ c', Set' ord zero fuel n v c = Ok tt c' ∧ wrote n v c c'.
Proof using All.
  intros [HT Hq] Hf Hs Hd. destruct (keeps_Top reads _ c HT (exec_Set zero ord reads R fuel c Hf HT n v)) as (c' & H1 & HT' & Hnx & _).
  exists c'. split; [done|]. pose proof HT as (HK & Hb & _ & Hfl). pose proof (k_inv _ _ _ HK) as HI.
  unfold Set', Set_ in H1. rewrite Hs, Hd in H1. destruct (decide (v = s_value s)) as [Hv|Hv].
  { injection H1 as <-. split; [by split|done|done| |congruence|done]. intros s' Hs'. rewrite Hs in Hs'. injection Hs' as <-. rewrite Hv, Hs. by destruct s. }
  destruct (write_edges n v c) as (W1 & W2 & W3 & W4 & W5 & W6 & W7). set (c1 := updn n _ c) in *. simpl in *.
  unfold cellChanged in H1. rewrite decide_False in H1 by (change (batchDepth c1) with (batchDepth c); lia).
  destruct (W7 s Hs) as [Hself Hdis].
  destruct (invalidate_quiet n c1) as (c2 & H2 & Hsh & Hq2 & Hst2 & Hn2 & Hc2);
    [apply W1, HI|apply W2, HI|by apply W3|unfold is_source; by rewrite Hself|].
  unfold mbind, M_bind in H1. rewrite H2 in H1.
  destruct (flush_quiet fuel c2) as (c3 & H3 & Hno3 & Hp3); [unfold op_fuel, flush_fuel in Hf; lia|by apply Hq2| |].
  { assert (Hfl1 : flushingEffects c2 = flushingEffects c1) by (by injection Hst2). rewrite Hfl1. exact Hfl. }
  rewrite H3 in H1. injection H1 as <-. assert (Hg3 : ∀ m, getn c3 m = getn c2 m) by (intros m; unfold getn; by rewrite Hno3).
  split.
  - split; [done|]. split; [|done]. intros m. rewrite Hg3. apply Hq2.
  - done.
  - intros m Hm Ee. rewrite Hg3. specialize (Hsh m). rewrite W6 in Hsh by done. by apply fixed_skel.
  - intros s' Hs'. rewrite Hs in Hs'. injection Hs' as <-. by rewrite Hg3, Hn2.
  - intros m Hca Hcb. apply (edge_same c c1 W5). apply Hc2; [by rewrite W4|by rewrite <-Hg3].
  - intros s' Hs'. rewrite Hs in Hs'. injection Hs' as <-. congruence.
Qed.

(** A read in a context without effects. *)
Lemma quiet_get fuel n c : idle c → op_fuel c ≤ fuel → readable (getn c n) = true →
  ∃ v c', Get ord zero fuel n c = Ok v c' ∧ den c (S n) n = Some v ∧ idle c' ∧ next c' = next c ∧ ∀ m, fixed (getn c' m) = fixed (getn c m).
Proof using All.
  intros [HT [Hq Hp]] Hf Hn. pose proof HT as (HK & Hb & Hbc & Hfl).
  destruct (exec_Get zero ord reads R fuel c Hf HT n Hn) as (v & c' & Hg & Hv & HT' & Hnx & _).
  destruct (Get_ok zero reads R po_reads po_trans po_lt ord po_perm po_below fuel n c) as (v' & c'' & Hg' & _ & _ & Hpf).
  { pose proof (k_inv _ _ _ HK) as HI. by rewrite Hbc in HI. }
  { done. }
  { apply HK. }
  { apply (readable_lt _ _ _ _ HK) in Hn. unfold op_fuel, flush_fuel in Hf. lia. }
  rewrite Hg in Hg'. injection Hg' as <- <-. exists v, c'. pose proof (pf_fixed _ _ _ _ Hpf) as Hx. split_and!; [done|done| |done|done].
  split; [done|]. split.
  - intros m. rewrite (fixed_effect _ _ (Hx m)), (fixed_disposed _ _ (Hx m)). intros He. rewrite (pf_deps _ _ _ _ Hpf); [by apply Hq| |done].
    right. unfold is_effect, is_cacheable in *. by destruct (self (getn c m)).
  - pose proof (pf_pend _ _ _ _ Hpf) as Hpp. unfold pend in Hpp. injection Hpp as Hpp _. congruence.
Qed.

Record created (p : concrete) c c' : Prop := {
  cr_idle : idle c';
  cr_next : next c' = S (next c);
  cr_other m : m ≠ next c → getn c' m = getn c m;
  cr_self : self (getn c' (next c)) = p ∧ disposed (getn c' (next c)) = false;
}.
Lemma born_quiet p kind c : idle c → is_effect (newReactiveBase p) = false → quiet (born p kind c).
Proof.
  intros [_ [Hq Hp]] He. destruct (born_facts p kind c) as (B1 & B2 & B3 & B4 & _). split.
  - intros m. destruct (decide (m = next c)) as [->|Hm]; [|rewrite B1 by done; apply Hq].
    destruct B2 as (Hs & _). unfold is_effect in *. rewrite Hs. simpl in He. by rewrite He.
  - unfold pend in B4. injection B4 as B4 _. congruence.
Qed.
Lemma quiet_new_source v policy c : idle c →
  ∃ c', NewSourceWithPolicy v policy c = Ok (next c) c' ∧ created (ASource (MkSource v policy)) c c'.
Proof using HO.
  intros Hi. pose proof Hi as [HT _]. destruct (new_source_ok ord reads R v policy c HT) as (c' & H1 & HT' & Hn & _). exists c'. split; [done|].
  assert (Hc : c' = born (ASource (MkSource v policy)) occupantSource c) by (unfold NewSourceWithPolicy in H1; by injection H1).
  destruct (born_facts (ASource (MkSource v policy)) occupantSource c) as (B1 & (Hs & _ & _ & Hd & _) & _).
  rewrite <-Hc in *. split; [|done|done|done]. split; [done|]. rewrite Hc. by apply born_quiet.
Qed.
Lemma quiet_new_computed k c : idle c → all_reads (λ d, reads (next c) d ∧ readable (getn c d) = true) k →
  ∃ c', NewComputed k c = Ok (next c) c' ∧
    created (AComputed (MkComputed k (Some (λ prev next, bool_decide (prev = next))) None false false false)) c c'.
Proof using HO.
  intros Hi Hk. pose proof Hi as [HT _].
  destruct (new_computed_ok ord reads R k (Some (λ prev next, bool_decide (prev = next))) c HT Hk) as (c' & H1 & HT' & Hn & _).
  { intros g u v [= <-]. by intros ?%bool_decide_eq_true. }
  exists c'. split; [done|]. set (p := AComputed _).
  assert (Hc : c' = registerSlot (next c) (born p occupantComputed c)) by (unfold new_computed in H1; by injection H1).
  destruct (born_facts p occupantComputed c) as (B1 & (Hs & _ & _ & Hd & _) & _).
  destruct (born_quiet p occupantComputed c Hi) as [Hq Hp]; [done|].
  assert (Hg : ∀ m, self (getn c' m) = self (getn (born p occupantComputed c) m) ∧ disposed (getn c' m) = disposed (getn (born p occupantComputed c) m) ∧
    dependencies (getn c' m) = dependencies (getn (born p occupantComputed c) m) ∧
    (m ≠ next c → getn c' m = getn (born p occupantComputed c) m)).
  { intros m. rewrite Hc. unfold registerSlot. change (getn (with_slots ?f ?x)) with (getn x). rewrite getn_updn. case_decide as Hm; [rewrite Hm; split_and!; [done|done|done|by intros []]|done]. }
  split; [|done| |].
  - split; [done|]. split; [|by rewrite Hc]. intros m. destruct (Hg m) as (Hgs & Hgd & Hge & _). unfold is_effect. rewrite Hgs, Hgd, Hge. apply Hq.
  - intros m Hm. destruct (Hg m) as (_ & _ & _ & Hx). rewrite Hx by done. by apply B1.
  - destruct (Hg (next c)) as (-> & -> & _). done.
Qed.
End quiet.

(** ** The tree *)

Section sem_tree.
Context {V D : Type} `{EqDecision V, EqDecision D}.

(** What a cell or slot of the tree holds: a node's value, the boxed list of its
    children (a pointer, by the number of its allocation, and the list behind it)
    or a derived value.
    [sem_tree.go] [type semChildKeys] *)
Inductive sval := SVal (v : V) | SKeys (box : nat) (order : list string) | SDer (d : D).
#[export] Instance sval_eq_dec : EqDecision sval.
Proof. solve_decision. Defined.

(** The children: an order, if given, and the named specifications.
    [sem_tree.go] [type TreeNodeSpec] [type TreeNodeChildren] *)
Inductive TreeNodeSpec := Spec (ID : string) (Value : V) (Children : option (option (list string) * list (string * TreeNodeSpec))).

(** [sem_tree.go] [type semNode] *)
Record semNode := mkNode { id : string; valueCell : nat; childKeysCell : nat; childSlots : gmap string nat; slot : nat }.
(** A node is addressed by the identity of its value cell: [heap] is what the
    pointers point to and [tnodes] the map from ids to pointers; [boxes] numbers the
    lists of children.
    [sem_tree.go] [type SemTree] *)
Record SemTree := mkTree { heap : gmap nat semNode; tnodes : gmap string nat; rootID : string; boxes : nat }.

(** [sem_tree.go] [sortedTreeChildKeys] *)
Definition sortedTreeChildKeys (m : list (string * TreeNodeSpec)) : list string := merge_sort (λ a b, Is_true (String.leb a b)) m.*1.

Context (fold : V → list D → D) (ord : @ctx sval → gset nat → list nat) (zero : sval).

(** The derived values of the children still in the list, read in order. *)
Fixpoint read_children (slots : gmap string nat) (order : list string) (ds : list D) (k : list D → @comp sval) : @comp sval :=
  match order with
  | [] => k ds
  | kid :: order =>
      match slots !! kid with
      | Some s => Read true s (λ d, match d with SDer d => read_children slots order (ds ++ [d]) k | _ => Ret d end)
      | None => read_children slots order ds k
      end
  end.
(** [sem_tree.go] [lines 113-123 SemTree.build] *)
Definition slot_compute (vc kc : nat) (slots : gmap string nat) : @comp sval :=
  Read true vc (λ v, Read true kc (λ keys,
    match v, keys with
    | SVal v, SKeys _ order => read_children slots order [] (λ ds, Ret (SDer (fold v ds)))
    | _, _ => Ret v
    end)).

Section children.
Context (bld : TreeNodeSpec → SemTree → @M sval (SemTree * semNode)) (values : list (string * TreeNodeSpec)).
Fixpoint assoc_build (key : string) (vs : list (string * TreeNodeSpec)) : option (SemTree → @M sval (SemTree * semNode)) :=
  match vs with [] => None | (k, s) :: vs => if decide (k = key) then Some (bld s) else assoc_build key vs end.
(** The loop over the order.
    [sem_tree.go] [lines 99-107 SemTree.build] *)
Fixpoint build_children (order : list string) (t : SemTree) (childOrder : list string) (slots : gmap string nat) :
    @M sval (SemTree * list string * gmap string nat) :=
  match order with
  | [] => mret (t, childOrder, slots)
  | key :: order =>
      match assoc_build key values with
      | None => build_children order t childOrder slots
      | Some b => r ← b t; build_children order r.1 (childOrder ++ [id r.2]) (<[id r.2 := slot r.2]> slots)
      end
  end.
End children.

(** [sem_tree.go] [SemTree.build] *)
Fixpoint build (spec : TreeNodeSpec) (t : SemTree) : @M sval (SemTree * semNode) :=
  match spec with
  | Spec i v kids =>
      vc ← NewSource (SVal v);
      let t := mkTree (heap t) (<[i := vc]> (tnodes t)) (rootID t) (boxes t) in
      r ← match kids with
          | None => mret (t, [], ∅)
          | Some (order, values) =>
              build_children build values (match order with Some order => order | None => sortedTreeChildKeys values end) t [] ∅
          end;
      let '(t, childOrder, slots) := r in
      kc ← NewSource (SKeys (boxes t) childOrder);
      s ← NewComputed (slot_compute vc kc slots);
      let node := mkNode i vc kc slots s in
      mret (mkTree (<[vc := node]> (heap t)) (tnodes t) (rootID t) (S (boxes t)), node)
  end.
(** [sem_tree.go] [BuildSemTree] *)
Definition BuildSemTree (rootSpec : TreeNodeSpec) : @M sval SemTree :=
  match rootSpec with Spec i _ _ => r ← build rootSpec (mkTree ∅ ∅ i 0); mret r.1 end.

Definition node_of (t : SemTree) (i : string) : option semNode := p ← tnodes t !! i; heap t !! p.
(** An unknown node is the error [Some i].
    [sem_tree.go] [SemTree.SetValue] *)
Definition SetValue (fuel : nat) (t : SemTree) (i : string) (v : V) : @M sval (option string) :=
  match node_of t i with
  | None => mret (Some i)
  | Some node => Set' ord zero fuel (valueCell node) (SVal v);; mret None
  end.
(** Peeking a source is reading its value.
    [sem_tree.go] [SemTree.RemoveChild] *)
Definition RemoveChild (fuel : nat) (t : SemTree) (parentID childID : string) : @M sval (SemTree * option string) :=
  match node_of t parentID with
  | None => mret (t, Some parentID)
  | Some node =>
      prev ← gets (λ c, match self (getn c (childKeysCell node)) with ASource s => match s_value s with SKeys _ order => order | _ => [] end | _ => [] end);
      let filtered := base.filter (λ k, k ≠ childID) prev in
      Set' ord zero fuel (childKeysCell node) (SKeys (boxes t) filtered);;
      mret (mkTree (heap t) (tnodes t) (rootID t) (S (boxes t)), None)
  end.
Definition derived (v : sval) : option D := match v with SDer d => Some d | _ => None end.
(** [sem_tree.go] [SemTree.NodeValue] *)
Definition NodeValue (fuel : nat) (t : SemTree) (i : string) : @M sval (option D) :=
  match node_of t i with None => mret None | Some node => v ← Get ord zero fuel (slot node); mret (derived v) end.
(** [sem_tree.go] [SemTree.Value] *)
Definition Value (fuel : nat) (t : SemTree) : @M sval (option D) := NodeValue fuel t (rootID t).
(** [sem_tree.go] [SemTree.IsCached] *)
Definition IsCached (t : SemTree) (i : string) (c : @ctx sval) : bool :=
  match node_of t i with None => false | Some node => cachedNow (getn c (slot node)) end.
(** [sem_tree.go] [SemTree.NodeHandle] *)
Definition NodeHandle (t : SemTree) (i : string) : option nat := slot <$> node_of t i.
(** [sem_tree.go] [SemTree.RootHandle] *)
Definition RootHandle (t : SemTree) : option nat := NodeHandle t (rootID t).

(** ** The tree a specification describes *)

Inductive rose := Rose (i : string) (v : V) (kids : list rose).
Definition r_id (r : rose) : string := match r with Rose i _ _ => i end.
Definition r_val (r : rose) : V := match r with Rose _ v _ => v end.
Definition r_kids (r : rose) : list rose := match r with Rose _ _ kids => kids end.

Section assoc.
Context (f : TreeNodeSpec → rose).
Fixpoint assoc_rose (key : string) (vs : list (string * TreeNodeSpec)) : option rose :=
  match vs with [] => None | (k, s) :: vs => if decide (k = key) then Some (f s) else assoc_rose key vs end.
End assoc.
(** The children in order, those without a specification left out. *)
Fixpoint rose_of (spec : TreeNodeSpec) : rose :=
  match spec with
  | Spec i v None => Rose i v []
  | Spec i v (Some (order, values)) =>
      Rose i v (omap (λ key, assoc_rose rose_of key values) (match order with Some order => order | None => sortedTreeChildKeys values end))
  end.

(** The state of the tree: the values written and the links removed. *)
Record edits := mkEdits { written : gmap string V; removed : gset (string * string) }.
Definition kept (a : edits) (parent : string) (k : rose) : bool := bool_decide ((parent, r_id k) ∉ removed a).
(** The fold, with no memory. *)
Fixpoint folded (a : edits) (r : rose) : D :=
  match r with
  | Rose i v kids => fold (default v (written a !! i)) (mjoin (map (λ k, if kept a i k then [folded a k] else []) kids))
  end.
End sem_tree.
Arguments sval : clear implicits.
Arguments TreeNodeSpec : clear implicits.
Arguments rose : clear implicits.
Arguments edits : clear implicits.

(** ** Where the nodes of a tree are allocated

    A subtree built at [n] takes the identities from [n] up: its value cell is [n],
    its children follow, then the cell of their list and the slot. *)

Section places.
Context {V : Type}.
Notation rose := (rose V).
Implicit Types (r k : rose) (n m : nat).

Section rose_ind.
Context (P : rose → Prop) (HP : ∀ i v kids, Forall P kids → P (Rose i v kids)).
Fixpoint rose_nested r : P r :=
  match r with
  | Rose i v kids => HP i v kids ((fix go l : Forall P l := match l with [] => Forall_nil_2 _ | k :: l => Forall_cons_2 _ _ _ (rose_nested k) (go l) end) kids)
  end.
End rose_ind.

Fixpoint sz r : nat := match r with Rose _ _ kids => S (S (S (foldr (λ k s, sz k + s) 0 kids))) end.
Definition slot_at r n : nat := n + sz r - 1.
Definition keys_at r n : nat := n + sz r - 2.
(** Children side by side from [n] on. *)
Fixpoint row (kids : list rose) n : list (rose * nat) := match kids with [] => [] | k :: kids => (k, n) :: row kids (n + sz k) end.
Definition kids_at r n : list (rose * nat) := row (r_kids r) (S n).
Section below_row.
Context (f : rose → nat → list (rose * nat)).
Fixpoint row_with (kids : list rose) n : list (rose * nat) := match kids with [] => [] | k :: kids => f k n ++ row_with kids (n + sz k) end.
End below_row.
(** Every subtree with its place. *)
Fixpoint nodes_at r n : list (rose * nat) := (r, n) :: row_with nodes_at (r_kids r) (S n).

Definition width (kids : list rose) : nat := foldr (λ k s, sz k + s) 0 kids.
Lemma sz_kids r : sz r = S (S (S (width (r_kids r)))).
Proof. by destruct r. Qed.
Lemma row_bounds kids n k m : (k, m) ∈ row kids n → n ≤ m ∧ m + sz k ≤ n + width kids ∧ k ∈ kids.
Proof.
  revert n. induction kids as [|x kids IH]; intros n; simpl; [by intros ?%not_elem_of_nil|].
  intros [[= -> ->]|Hk]%elem_of_cons; [split_and!; [lia|lia|by left]|]. destruct (IH _ Hk) as (? & ? & ?). split_and!; [lia|lia|by right].
Qed.
Lemma kids_bounds r n k m : (k, m) ∈ kids_at r n → S n ≤ m ∧ m + sz k ≤ n + sz r - 2 ∧ k ∈ r_kids r.
Proof. unfold kids_at. intros Hk. apply row_bounds in Hk. rewrite (sz_kids r). destruct Hk as (? & ? & ?). split_and!; [lia|lia|done]. Qed.
(** Two children of a row are one or apart. *)
Lemma row_apart kids n k m k' m' : (k, m) ∈ row kids n → (k', m') ∈ row kids n → (k, m) = (k', m') ∨ m + sz k ≤ m' ∨ m' + sz k' ≤ m.
Proof.
  revert n. induction kids as [|x kids IH]; intros n; simpl; [by intros ?%not_elem_of_nil|].
  intros [[= -> ->]|Hk]%elem_of_cons [[= -> ->]|Hk']%elem_of_cons; [by left| | |by eapply IH].
  - apply row_bounds in Hk'. right; left; lia.
  - apply row_bounds in Hk. right; right; lia.
Qed.
Lemma row_with_spec kids n p : p ∈ row_with nodes_at kids n ↔ ∃ k m, (k, m) ∈ row kids n ∧ p ∈ nodes_at k m.
Proof.
  revert n. induction kids as [|x kids IH]; intros n; simpl.
  - split; [by intros ?%not_elem_of_nil|by intros (? & ? & ?%not_elem_of_nil & _)].
  - rewrite elem_of_app, IH. split.
    + intros [Hp|(k & m & Hk & Hp)]; [exists x, n; split; [left|done]|exists k, m; split; [by right|done]].
    + intros (k & m & [[= -> ->]|Hk]%elem_of_cons & Hp); [by left|right; eauto].
Qed.
Lemma nodes_at_spec r n p : p ∈ nodes_at r n ↔ p = (r, n) ∨ ∃ k m, (k, m) ∈ kids_at r n ∧ p ∈ nodes_at k m.
Proof. destruct r as [i v kids]. cbn [nodes_at r_kids]. rewrite elem_of_cons, row_with_spec. done. Qed.

Lemma nodes_bounds r n r' n' : (r', n') ∈ nodes_at r n → n ≤ n' ∧ n' + sz r' ≤ n + sz r ∧ ((r', n') = (r, n) ∨ n < n' ∧ n' + sz r' ≤ n + sz r - 2).
Proof.
  revert n. induction r as [i v kids IH] using rose_nested. intros n Hp. apply nodes_at_spec in Hp as [[= -> ->]|(k & m & Hk & Hp)]; [split_and!; [lia|lia|by left]|].
  apply kids_bounds in Hk as (? & ? & Hin). rewrite Forall_forall in IH. destruct (IH k Hin m Hp) as (? & ? & _). simpl in Hin. split_and!; [lia|lia|right; lia].
Qed.
(** Two subtrees are one, apart, or one strictly inside the other. *)
Lemma nodes_laminar r n a x b y : (a, x) ∈ nodes_at r n → (b, y) ∈ nodes_at r n →
  (a, x) = (b, y) ∨ x + sz a ≤ y ∨ y + sz b ≤ x ∨ (x < y ∧ y + sz b ≤ x + sz a - 2) ∨ (y < x ∧ x + sz a ≤ y + sz b - 2).
Proof.
  revert n. induction r as [i v kids IH] using rose_nested. intros n Ha Hb.
  pose proof (nodes_bounds _ _ _ _ Ha) as (_ & _ & Ha3). pose proof (nodes_bounds _ _ _ _ Hb) as (_ & _ & Hb3).
  apply nodes_at_spec in Ha as [[= -> ->]|(k & m & Hk & Hp)].
  { destruct Hb3 as [[= -> ->]|?]; [by left|right; right; right; left; lia]. }
  apply nodes_at_spec in Hb as [[= -> ->]|(k' & m' & Hk' & Hp')].
  { destruct Ha3 as [[= -> ->]|?]; [by left|right; right; right; right; lia]. }
  destruct (row_apart _ _ _ _ _ _ Hk Hk') as [[= <- <-]|Hap].
  - rewrite Forall_forall in IH. apply (IH k (proj2 (proj2 (kids_bounds _ _ _ _ Hk))) m Hp Hp').
  - apply nodes_bounds in Hp as (? & ? & _), Hp' as (? & ? & _). lia.
Qed.

(** What the slot of a node reads, and what lies in its subtree. *)
Definition tree_reads (root : rose) (m d : nat) : Prop :=
  ∃ r n, (r, n) ∈ nodes_at root 0 ∧ m = slot_at r n ∧ (d = n ∨ d = keys_at r n ∨ ∃ k b, (k, b) ∈ kids_at r n ∧ d = slot_at k b).
Definition tree_below (root : rose) (m d : nat) : Prop := ∃ r n, (r, n) ∈ nodes_at root 0 ∧ m = slot_at r n ∧ n ≤ d < m.

Lemma kids_nodes root r n k b : (r, n) ∈ nodes_at root 0 → (k, b) ∈ kids_at r n → (k, b) ∈ nodes_at root 0.
Proof.
  revert r n. generalize 0. induction root as [i v kids IH] using rose_nested. intros n0 r n Hr Hk. apply nodes_at_spec in Hr as [[= -> ->]|(x & m & Hx & Hr)].
  - apply nodes_at_spec. right. exists k, b. split; [done|]. apply nodes_at_spec. by left.
  - apply nodes_at_spec. right. exists x, m. split; [done|]. rewrite Forall_forall in IH. eapply IH; [apply kids_bounds in Hx; apply Hx|done|done].
Qed.
Lemma same_slot root a x b y : (a, x) ∈ nodes_at root 0 → (b, y) ∈ nodes_at root 0 → slot_at a x = slot_at b y → (a, x) = (b, y).
Proof.
  intros Ha Hb He. destruct (nodes_laminar _ _ _ _ _ _ Ha Hb) as [?|Hl]; [done|]. unfold slot_at in He. pose proof (sz_kids a). pose proof (sz_kids b). lia.
Qed.
(** Whatever order Go visits the edges in, it is one the kernel's theorems cover. *)
Lemma tree_order {A} (ord : @ctx A → gset nat → list nat) root : (∀ c s, ord c s ≡ₚ elements s) → PullOrder ord (tree_reads root) (tree_below root).
Proof.
  intros Hp. apply shortcut_free_order; [done|..].
  - intros m d (r & n & Hr & -> & Hd). exists r, n. split_and!; [done|done| |]; unfold slot_at, keys_at in *; pose proof (sz_kids r);
      destruct Hd as [->|[->|(k & b & Hk & ->)]]; try lia; apply kids_bounds in Hk; pose proof (sz_kids k); lia.
  - intros a b d (r & n & Hr & -> & Hb) (r' & n' & Hr' & -> & Hd). exists r, n. split_and!; [done|done| |lia].
    destruct (nodes_laminar _ _ _ _ _ _ Hr Hr') as [[= <- <-]|Hl]; [lia|]. unfold slot_at in *. pose proof (sz_kids r). pose proof (sz_kids r'). lia.
  - intros m d (r & n & _ & _ & Hd). lia.
  - intros m a b (r & n & Hr & -> & Ha) (r2 & n2 & Hr2 & Hs & Hb) (r' & n' & Hr' & -> & Hbelow).
    injection (same_slot _ _ _ _ _ Hr Hr2 Hs) as <- <-. pose proof (sz_kids r). pose proof (sz_kids r').
    assert (Hk : (r', n') ∈ kids_at r n).
    { destruct Ha as [Ha|[Ha|(k & b' & Hk & Ha)]].
      - exfalso. destruct (nodes_laminar _ _ _ _ _ _ Hr Hr') as [[= <- <-]|Hl]; unfold slot_at, keys_at in *; lia.
      - exfalso. destruct (nodes_laminar _ _ _ _ _ _ Hr Hr') as [[= <- <-]|Hl]; unfold slot_at, keys_at in *; lia.
      - by injection (same_slot _ _ _ _ _ Hr' (kids_nodes _ _ _ _ _ Hr Hk) Ha) as -> ->. }
    pose proof (kids_bounds _ _ _ _ Hk) as (? & ? & _).
    destruct Hb as [->|[->|(k2 & b2 & Hk2 & ->)]]; [unfold slot_at, keys_at in *; lia..|].
    pose proof (sz_kids k2). destruct (row_apart _ _ _ _ _ _ Hk Hk2) as [[= <- <-]|Hap]; unfold slot_at in *; lia.
Qed.
End places.

(** ** The tree in the context *)

Section facts.
Context {V D : Type} `{EqDecision V, EqDecision D}.
Context (fold : V → list D → D) (ord : @ctx (sval V D) → gset nat → list nat) (zero : sval V D).
Notation rose := (rose V).
Notation ctx := (@ctx (sval V D)).
Implicit Types (r k : rose) (n m : nat) (c : ctx) (a : edits V).

Definition no_edits : edits V := mkEdits ∅ ∅.
Definition live_kids a r : list rose := base.filter (λ k, kept a (r_id r) k = true) (r_kids r).
Definition live_value a r : V := default (r_val r) (written a !! r_id r).
Definition slots_at r n : gmap string nat := foldl (λ s kb, <[r_id kb.1 := slot_at kb.1 kb.2]> s) ∅ (kids_at r n).
Definition handles r n : semNode := mkNode (r_id r) n (keys_at r n) (slots_at r n) (slot_at r n).

(** The three nodes of one tree node hold what the edits made of it. *)
Record placed a c r n : Prop := {
  pl_value : ∃ p, self (getn c n) = ASource (MkSource (SVal (live_value a r)) p) ∧ disposed (getn c n) = false;
  pl_keys : ∃ b p, self (getn c (keys_at r n)) = ASource (MkSource (SKeys b (map r_id (live_kids a r))) p) ∧ disposed (getn c (keys_at r n)) = false;
  pl_slot : ∃ q, self (getn c (slot_at r n)) = AComputed q ∧ compute q = slot_compute fold n (keys_at r n) (slots_at r n) ∧
    disposed (getn c (slot_at r n)) = false;
}.
Lemma placed_ext a c c' r n : (∀ m, n ≤ m < n + sz r → getn c' m = getn c m) → placed a c r n → placed a c' r n.
Proof.
  intros Hg [H1 H2 H3]. pose proof (sz_kids r). split; [rewrite Hg by lia|rewrite Hg by (unfold keys_at; lia)|rewrite Hg by (unfold slot_at; lia)]; done.
Qed.

Fixpoint r_ids r : list string := match r with Rose i _ kids => i :: mjoin (map r_ids kids) end.

Context (root : rose).
Notation reads := (tree_reads root).
Context (R : nat → nat → Prop) `{HO : !PullOrder ord reads R}.

(** The nodes [L], named [I], have been built from [n] to [e]. *)
Record built (L : list (rose * nat)) (n e : nat) (I : list string) (t : SemTree) c (t' : SemTree) c' : Prop := {
  b_idle : idle reads c';
  b_next : next c' = e;
  b_old m : m < n → getn c' m = getn c m;
  b_in r m : (r, m) ∈ L → n ≤ m ∧ m + sz r ≤ e ∧ r_id r ∈ I;
  b_placed r m : (r, m) ∈ L → placed no_edits c' r m;
  b_heap r m : (r, m) ∈ L → heap t' !! m = Some (handles r m);
  b_heap_old p : p < n ∨ e ≤ p → heap t' !! p = heap t !! p;
  b_ids r m : (r, m) ∈ L → tnodes t' !! r_id r = Some m;
  b_ids_old i : i ∉ I → tnodes t' !! i = tnodes t !! i;
  b_root : rootID t' = rootID t;
}.
Lemma built_app L1 L2 n e1 e2 I1 I2 t c t1 c1 t2 c2 : n ≤ e1 → e1 ≤ e2 → (∀ i, i ∈ I1 → i ∉ I2) →
  built L1 n e1 I1 t c t1 c1 → built L2 e1 e2 I2 t1 c1 t2 c2 → built (L1 ++ L2) n e2 (I1 ++ I2) t c t2 c2.
Proof.
  intros Hn He Hd B1 B2. pose proof (b_in _ _ _ _ _ _ _ _ B1) as Hin1. pose proof (b_in _ _ _ _ _ _ _ _ B2) as Hin2.
  split; try setoid_rewrite elem_of_app; [apply B2|apply B2|..].
  - intros m Hm. rewrite (b_old _ _ _ _ _ _ _ _ B2) by lia. by apply (b_old _ _ _ _ _ _ _ _ B1).
  - intros r m [Hr|Hr]; [destruct (Hin1 r m Hr) as (? & ? & ?)|destruct (Hin2 r m Hr) as (? & ? & ?)]; split_and!; auto; lia.
  - intros r m [Hr|Hr]; [|by apply B2]. apply (placed_ext _ c1); [|by apply B1]. intros x Hx.
    destruct (Hin1 r m Hr) as (? & ? & _). apply (b_old _ _ _ _ _ _ _ _ B2). lia.
  - intros r m [Hr|Hr]; [|by apply B2]. destruct (Hin1 r m Hr) as (? & ? & _). pose proof (sz_kids r).
    rewrite (b_heap_old _ _ _ _ _ _ _ _ B2) by lia. by apply B1.
  - intros p Hp. rewrite (b_heap_old _ _ _ _ _ _ _ _ B2) by lia. apply B1. lia.
  - intros r m [Hr|Hr]; [|by apply B2]. destruct (Hin1 r m Hr) as (_ & _ & Hi). rewrite (b_ids_old _ _ _ _ _ _ _ _ B2) by auto. by apply B1.
  - intros i Hi. rewrite (b_ids_old _ _ _ _ _ _ _ _ B2), (b_ids_old _ _ _ _ _ _ _ _ B1) by auto. done.
  - rewrite (b_root _ _ _ _ _ _ _ _ B2). apply B1.
Qed.
Lemma built_nil t c : idle reads c → built [] (next c) (next c) [] t c t c.
Proof. intros Hi. split; try done; intros r m Hr; by apply not_elem_of_nil in Hr. Qed.

Lemma filter_all {A} (P : A → Prop) `{∀ x, Decision (P x)} (l : list A) : (∀ x, P x) → base.filter P l = l.
Proof. intros HP. induction l as [|x l IH]; [done|]. by rewrite filter_cons_True, IH. Qed.
Lemma live_all r : live_kids no_edits r = r_kids r.
Proof. unfold live_kids. apply filter_all. intros k. unfold kept. apply bool_decide_eq_true. simpl. set_solver. Qed.

(** One node, its children built already. *)
Lemma slots_at_elem r n i s : slots_at r n !! i = Some s → ∃ k b, (k, b) ∈ kids_at r n ∧ s = slot_at k b.
Proof.
  unfold slots_at. assert (Hg : ∀ l (s0 : gmap string nat), foldl (λ s kb, <[r_id kb.1 := slot_at kb.1 kb.2]> s) s0 l !! i = Some s →
    s0 !! i = Some s ∨ ∃ k b, (k, b) ∈ l ∧ s = slot_at (V := V) k b).
  { induction l as [|[k b] l IH]; intros s0; simpl; [by left|]. intros [Hi|(k' & b' & Hin & ->)]%IH; [|right; exists k', b'; split; [by right|done]].
    apply lookup_insert_Some in Hi as [[_ <-]|[_ Hi]]; [right; exists k, b; split; [left|done]|by left]. }
  intros [Hi|?]%Hg; [by rewrite lookup_empty in Hi|done].
Qed.
Lemma read_children_ok Q slots order ds (k : list D → _) : (∀ i s, slots !! i = Some s → Q s) → (∀ ds, all_reads Q (k ds)) → all_reads Q (read_children (V := V) (D := D) slots order ds k).
Proof.
  intros Hs Hk. revert ds. induction order as [|i order IH]; intros ds; simpl; [apply Hk|]. destruct (slots !! i) as [s|] eqn:Hi; [|apply IH].
  split_and!; [done|by eapply Hs|]. intros [| |d]; [done|done|apply IH].
Qed.

Lemma row_mem kids n r m : (r, m) ∈ row kids n → (r, m) ∈ row_with nodes_at kids n.
Proof. intros Hr. apply row_with_spec. exists r, m. split; [done|]. apply nodes_at_spec. by left. Qed.

Section Spec_ind.
Context (P : TreeNodeSpec V → Prop) (HP : ∀ i v kids, match kids with None => True | Some (_, values) => Forall (λ kv, P kv.2) values end → P (Spec i v kids)).
Fixpoint Spec_nested (s : TreeNodeSpec V) : P s :=
  match s with
  | Spec i v None => HP i v None I
  | Spec i v (Some (order, values)) =>
      HP i v (Some (order, values)) ((fix go l : Forall (λ kv, P kv.2) l :=
        match l with [] => Forall_nil_2 _ | kv :: l => Forall_cons_2 _ _ _ (Spec_nested kv.2) (go l) end) values)
  end.
End Spec_ind.

Definition builds (s : TreeNodeSpec V) : Prop := ∀ n t c, idle reads c → next c = n → NoDup (r_ids (rose_of s)) →
  (rose_of s, n) ∈ nodes_at root 0 → ∃ t' c', build fold s t c = Ok (t', handles (rose_of s) n) c' ∧
    built (nodes_at (rose_of s) n) n (n + sz (rose_of s)) (r_ids (rose_of s)) t c t' c'.

Lemma assoc_both key vs : Forall (λ kv, builds kv.2) vs →
  match assoc_build (build fold) key vs with
  | None => assoc_rose rose_of key vs = None
  | Some b => ∃ s, b = build (D := D) fold s ∧ builds s ∧ assoc_rose rose_of key vs = Some (rose_of s)
  end.
Proof.
  induction 1 as [|[k' s] vs Hs _ IH]; simpl; [done|]. case_decide; [|done]. exists s. by split_and!.
Qed.
Lemma build_children_ok values order t co slots c : Forall (λ kv, builds kv.2) values → idle reads c →
  let kids := omap (λ key, assoc_rose rose_of key values) order in
  NoDup (mjoin (map r_ids kids)) → (∀ k b, (k, b) ∈ row kids (next c) → (k, b) ∈ nodes_at root 0) →
  ∃ t' c', build_children (build fold) values order t co slots c =
      Ok (t', co ++ map r_id kids, foldl (λ s kb, <[r_id kb.1 := slot_at kb.1 kb.2]> s) slots (row kids (next c))) c' ∧
    built (row_with nodes_at kids (next c)) (next c) (next c + width kids) (mjoin (map r_ids kids)) t c t' c'.
Proof.
  intros Hv. revert t co slots c. induction order as [|key order IH]; intros t co slots c Hi kids Hn Hr; simpl in *.
  - exists t, c. rewrite app_nil_r. split; [done|]. rewrite Nat.add_0_r. by apply built_nil.
  - pose proof (assoc_both key values Hv) as Ha. destruct (assoc_build _ key values) as [b|]; [|subst kids; rewrite Ha in *; by apply IH].
    destruct Ha as (s & -> & Hs & Ha). subst kids. rewrite Ha in *. simpl in *. apply NoDup_app in Hn as (Hn1 & Hd & Hn2).
    destruct (Hs (next c) t c Hi eq_refl Hn1) as (t1 & c1 & Hb1 & B1); [apply Hr; left|].
    unfold mbind, M_bind. rewrite Hb1. cbn [fst snd id slot handles]. pose proof (b_next _ _ _ _ _ _ _ _ B1) as Hnx.
    destruct (IH t1 (co ++ [r_id (rose_of s)]) (<[r_id (rose_of s) := slot_at (rose_of s) (next c)]> slots) c1) as (t2 & c2 & Hb2 & B2);
      [apply B1|done|intros k b Hk; apply Hr; right; by rewrite <-Hnx|].
    exists t2, c2. rewrite Hb2, Hnx, <-(assoc app). split; [done|]. rewrite Hnx in B2. rewrite Nat.add_assoc. eapply (built_app _ _ _ (next c + sz (rose_of s)) _ _ _ t c t1 c1); [lia|lia|done|exact B1|exact B2].
Qed.

Lemma build_ok s : builds s.
Proof using HO.
  induction s as [i v kids Hkids] using Spec_nested. intros n t c Hi Hnx Hn Hin. set (r := rose_of (Spec i v kids)) in *.
  assert (Hr : r_id r = i ∧ r_val r = v) by (unfold r; destruct kids as [[? ?]|]; done). destruct Hr as [Hrid Hrval].
  assert (Hids : r_ids r = i :: mjoin (map r_ids (r_kids r))) by (rewrite <-Hrid; by destruct r).
  simpl. destruct (quiet_new_source ord reads R (SVal v) (λ _ op, op) c Hi) as (c1 & H1 & [I1 N1 O1 [S1 D1]]).
  unfold mbind at 1, M_bind at 1. change (NewSource (SVal v) c) with (NewSourceWithPolicy (SVal v) (λ _ op, op) c). rewrite H1. cbv iota.
  set (t1 := mkTree (heap t) (<[i := next c]> (tnodes t)) (rootID t) (boxes t)).
  rewrite Hids in Hn. apply NoDup_cons in Hn as [Hni Hn].
  assert (Hch : ∃ t2 c2, (match kids with None => mret (t1, [], ∅) | Some (order, values) =>
      build_children (build fold) values (match order with Some order => order | None => sortedTreeChildKeys values end) t1 [] ∅ end : M _) c1 =
      Ok (t2, map r_id (r_kids r), slots_at r n) c2 ∧ built (row_with nodes_at (r_kids r) (S n)) (S n) (S n + width (r_kids r)) (mjoin (map r_ids (r_kids r))) t1 c1 t2 c2).
  { assert (Hk : next c1 = S n) by (by rewrite N1, Hnx). destruct kids as [[order values]|].
    - pose proof (build_children_ok values (match order with Some order => order | None => sortedTreeChildKeys values end) t1 [] ∅ c1 Hkids I1 Hn) as Hx.
      rewrite Hk in Hx. apply Hx. intros k b Hkb. by apply (kids_nodes root r n).
    - exists t1, c1. split; [done|]. rewrite <-Hk. simpl. rewrite Nat.add_0_r. by apply built_nil. }
  destruct Hch as (t2 & c2 & H2 & B2). unfold mbind at 1, M_bind at 1. rewrite H2.
  destruct (quiet_new_source ord reads R (SKeys (boxes t2) (map r_id (r_kids r))) (λ _ op, op) c2) as (c3 & H3 & [I3 N3 O3 [S3 D3]]); [apply B2|].
  unfold mbind at 1, M_bind at 1. change (NewSource ?x c2) with (NewSourceWithPolicy x (λ _ op, op) c2). rewrite H3. cbv iota.
  pose proof (b_next _ _ _ _ _ _ _ _ B2) as N2. pose proof (sz_kids r) as Hsz.
  assert (Hkc : next c2 = keys_at r n) by (rewrite N2; unfold keys_at; lia). assert (Hsl : next c3 = slot_at r n) by (rewrite N3, Hkc; unfold slot_at, keys_at; lia).
  assert (Hold : ∀ m, m < S n + width (r_kids r) → getn c3 m = getn c2 m) by (intros m Hm; apply O3; lia).
  assert (Hself : getn c3 n = getn c1 n) by (rewrite Hold by lia; apply (b_old _ _ _ _ _ _ _ _ B2); lia). subst n.
  destruct (quiet_new_computed ord reads R (slot_compute fold (next c) (next c2) (slots_at r (next c))) c3) as (c4 & H4 & [I4 N4 O4 [S4 D4]]); [done| |].
  { rewrite Hsl, Hkc. assert (Hread : ∀ d, reads (slot_at r (next c)) d ↔ reads (slot_at r (next c)) d) by done.
    unfold slot_compute. cbn [all_reads]. split_and!; [done| | |].
    - exists r, (next c). split_and!; [done|done|by left].
    - rewrite Hself. unfold readable, is_effect. by rewrite D1, S1.
    - intros x. split_and!; [done| | |].
      + exists r, (next c). split_and!; [done|done|right; by left].
      + rewrite <-Hkc. unfold readable, is_effect. by rewrite D3, S3.
      + intros y. destruct x as [x| |]; [|done|done]. destruct y as [|b order|]; [done| |done].
        apply read_children_ok; [|done]. intros j sl (k & b' & Hk & ->)%slots_at_elem. split.
        * exists r, (next c). split_and!; [done|done|right; right; eauto].
        * destruct (pl_slot _ _ _ _ (b_placed _ _ _ _ _ _ _ _ B2 k b' (row_mem _ _ _ _ Hk))) as (q & Hq & _ & Hd).
          apply kids_bounds in Hk as (? & ? & _). pose proof (sz_kids k). rewrite Hold by (unfold slot_at; lia).
          unfold readable, is_effect. by rewrite Hd, Hq. }
  unfold mbind at 1, M_bind at 1. rewrite H4. cbv iota. eexists _, c4. split; [unfold handles; rewrite Hrid, Hkc, Hsl; done|].
  assert (Hold4 : ∀ m, m < next c3 → getn c4 m = getn c3 m) by (intros m Hm; apply O4; lia).
  assert (Hnodes : nodes_at r (next c) = (r, next c) :: row_with nodes_at (r_kids r) (S (next c))) by (by destruct r).
  assert (Hroot : placed no_edits c4 r (next c)).
  { split.
    - exists (λ _ op, op). rewrite Hold4, Hself by lia. by rewrite S1, D1, <-Hrval.
    - exists (boxes t2), (λ _ op, op). rewrite <-Hkc, Hold4, live_all by lia. by rewrite S3, D3.
    - rewrite <-Hsl. eexists. split_and!; [exact S4|by rewrite <-Hkc|done]. }
  assert (Hrange : ∀ r' m, (r', m) ∈ row_with nodes_at (r_kids r) (S (next c)) → S (next c) ≤ m ∧ m + sz r' ≤ S (next c) + width (r_kids r) ∧ r_id r' ∈ mjoin (map r_ids (r_kids r)) ∧ m ≠ next c).
  { intros r' m Hm. destruct (b_in _ _ _ _ _ _ _ _ B2 r' m Hm) as (? & ? & ?). split_and!; [lia|lia|done|lia]. }
  rewrite Hnodes, Hids. split; [done|lia|..].
  - intros m Hm. rewrite Hold4, Hold, (b_old _ _ _ _ _ _ _ _ B2) by lia. apply O1. lia.
  - intros r' m [[= -> ->]|Hm]%elem_of_cons; [split_and!; [lia|lia|rewrite Hrid; left]|].
    destruct (Hrange r' m Hm) as (? & ? & ? & _). split_and!; [lia|lia|by right].
  - intros r' m [[= -> ->]|Hm]%elem_of_cons; [done|]. destruct (Hrange r' m Hm) as (? & ? & _).
    apply (placed_ext _ c2); [|by apply B2]. intros x Hx. rewrite Hold4, Hold by lia. done.
  - intros r' m [[= -> ->]|Hm]%elem_of_cons; cbn [heap]; [by rewrite lookup_insert_eq; unfold handles; rewrite ?Hrid, ?Hkc, ?Hsl|].
    destruct (Hrange r' m Hm) as (_ & _ & _ & ?). rewrite lookup_insert_ne by done. by apply B2.
  - intros p Hp. cbn [heap]. rewrite lookup_insert_ne by lia. apply (b_heap_old _ _ _ _ _ _ _ _ B2). lia.
  - intros r' m [[= -> ->]|Hm]%elem_of_cons; cbn [tnodes]; [|by apply B2].
    rewrite (b_ids_old _ _ _ _ _ _ _ _ B2) by (by rewrite Hrid). rewrite Hrid. apply lookup_insert_eq.
  - intros j [Hj Hj']%not_elem_of_cons. cbn [tnodes]. rewrite (b_ids_old _ _ _ _ _ _ _ _ B2) by done. by apply lookup_insert_ne.
  - apply (b_root _ _ _ _ _ _ _ _ B2).
Qed.
(** ** Names *)

Implicit Types (kids : list rose).
Lemma r_ids_eq r : r_ids r = r_id r :: mjoin (map r_ids (r_kids r)).
Proof. by destruct r. Qed.
Lemma row_fst kids n : (row kids n).*1 = kids.
Proof. revert n. induction kids as [|k kids IH]; intros n; simpl; [done|]. by rewrite IH. Qed.
Lemma row_place kids n k : k ∈ kids → ∃ b, (k, b) ∈ row kids n.
Proof. intros Hk. rewrite <-(row_fst kids n) in Hk. apply list_elem_of_fmap in Hk as ([k' b] & -> & Hk). by exists b. Qed.
Lemma ids_nodes r n i : i ∈ r_ids r ↔ ∃ r' m, (r', m) ∈ nodes_at r n ∧ r_id r' = i.
Proof.
  revert n. induction r as [j v kids IH] using rose_nested. intros n. rewrite r_ids_eq, elem_of_cons, list_elem_of_join. rewrite Forall_forall in IH.
  setoid_rewrite nodes_at_spec. split.
  - intros [->|(l & Hi & Hl)]; [exists (Rose j v kids), n; split; [by left|done]|].
    apply list_elem_of_fmap in Hl as (k & -> & Hk). destruct (row_place kids (S n) k Hk) as [b Hb]. apply (IH k Hk b) in Hi as (r' & m & Hr & Hi).
    exists r', m. split; [right; exists k, b; split; [done|exact Hr]|done].
  - intros (r' & m & [[= -> ->]|(k & b & Hk & Hr)] & Hi); [by left|right]. pose proof (kids_bounds _ _ _ _ Hk) as (_ & _ & Hin).
    exists (r_ids k). split; [apply (IH k Hin b); eauto|]. apply list_elem_of_fmap. eauto.
Qed.
Lemma join_nodup {A} (f : rose → list A) kids : NoDup (mjoin (map f kids)) →
  (∀ k, k ∈ kids → NoDup (f k)) ∧ ∀ n k b k' b' x, (k, b) ∈ row kids n → (k', b') ∈ row kids n → x ∈ f k → x ∈ f k' → (k, b) = (k', b').
Proof.
  induction kids as [|y kids IH]; simpl; [intros _; split; intros; by match goal with H : _ ∈ [] |- _ => apply not_elem_of_nil in H end|].
  intros (Hy & Hd & Hn)%NoDup_app. destruct (IH Hn) as [H1 H2]. split; [intros k [->|Hk]%elem_of_cons; auto|].
  assert (Hin : ∀ n k b x, (k, b) ∈ row kids n → x ∈ f k → x ∈ mjoin (map f kids)).
  { intros n k b x Hk Hx. apply row_bounds in Hk as (_ & _ & Hk). apply list_elem_of_join. exists (f k). split; [done|]. apply list_elem_of_fmap. eauto. }
  intros n k b k' b' x [[= -> ->]|Hk]%elem_of_cons [[= -> ->]|Hk']%elem_of_cons Hx Hx'; [done|exfalso; eapply Hd; eauto..|by eapply H2].
Qed.
Lemma nodes_nodup r n r' m : NoDup (r_ids r) → (r', m) ∈ nodes_at r n → NoDup (r_ids r').
Proof.
  revert n. induction r as [i v kids IH] using rose_nested. intros n Hn [[= -> ->]|(k & b & Hk & Hr)]%nodes_at_spec; [done|].
  pose proof (kids_bounds _ _ _ _ Hk) as (_ & _ & Hin). rewrite Forall_forall in IH. rewrite r_ids_eq in Hn. apply NoDup_cons in Hn as [_ Hn].
  eapply IH; [exact Hin| |exact Hr]. destruct (join_nodup r_ids kids Hn) as [H1 _]. by apply H1.
Qed.
Lemma same_id r n x y x' y' : NoDup (r_ids r) → (x, y) ∈ nodes_at r n → (x', y') ∈ nodes_at r n → r_id x = r_id x' → (x, y) = (x', y').
Proof.
  revert n. induction r as [i v kids IH] using rose_nested. intros n Hn Hx Hx' He. rewrite r_ids_eq in Hn. apply NoDup_cons in Hn as [Hi Hn].
  rewrite Forall_forall in IH. destruct (join_nodup r_ids _ Hn) as [Hk1 Hk2].
  assert (Hsub : ∀ z w, (∃ k b, (k, b) ∈ kids_at (Rose i v kids) n ∧ (z, w) ∈ nodes_at k b) → r_id z ∈ mjoin (map r_ids kids)).
  { intros z w (k & b & Hk & Hz). apply list_elem_of_join. exists (r_ids k). split; [apply (ids_nodes k b); eauto|].
    apply kids_bounds in Hk as (_ & _ & Hk). apply list_elem_of_fmap. eauto. }
  apply nodes_at_spec in Hx as [[= -> ->]|Hx], Hx' as [[= -> ->]|Hx']; [done|apply Hsub in Hx'; rewrite <-He in Hx'; done|apply Hsub in Hx; rewrite He in Hx; done|].
  destruct Hx as (k & b & Hk & Hx), Hx' as (k' & b' & Hk' & Hx').
  assert ((k, b) = (k', b')) as [= <- <-].
  { apply (Hk2 _ _ _ _ _ (r_id x) Hk Hk'); [apply (ids_nodes k b); eauto|rewrite He; apply (ids_nodes k' b'); eauto]. }
  pose proof (kids_bounds _ _ _ _ Hk) as (_ & _ & Hin). by eapply (IH k Hin b); [apply Hk1| | |].
Qed.
Lemma slots_at_kid r n k b : NoDup (r_ids r) → (k, b) ∈ kids_at r n → slots_at r n !! r_id k = Some (slot_at k b).
Proof.
  intros Hn. rewrite r_ids_eq in Hn. apply NoDup_cons in Hn as [_ Hn]. unfold slots_at, kids_at. revert Hn.
  generalize (r_kids r) (S n) (∅ : gmap string nat). intros kids. induction kids as [|x kids IH]; intros m s Hn Hk; simpl in *; [by apply not_elem_of_nil in Hk|].
  apply NoDup_app in Hn as (_ & Hd & Hn). apply elem_of_cons in Hk as [[= -> ->]|Hk]; [|by apply IH].
  assert (Hx : r_id x ∉ mjoin (map r_ids kids)) by (apply Hd; rewrite r_ids_eq; left).
  assert (Hg : ∀ l p (s : gmap string nat), l = map fst (row l p) → r_id x ∉ mjoin (map r_ids l) →
    foldl (λ s kb, <[r_id kb.1 := slot_at kb.1 kb.2]> s) s (row l p) !! r_id x = s !! r_id x).
  { clear. intros l p s _. revert p s. induction l as [|y l IH]; intros p s Hl; simpl in *; [done|]. rewrite not_elem_of_app in Hl. destruct Hl as [Hy Hl].
    rewrite IH by done. apply lookup_insert_ne. intros Hxy. apply Hy. rewrite r_ids_eq, Hxy. left. }
  rewrite Hg; [apply lookup_insert_eq|by rewrite <-(row_fst kids (m + sz x)) at 1|done].
Qed.

(** ** What the slots denote *)

Lemma read_children_eval a env (slots : gmap string nat) (ks : list (rose * nat)) ds (k : list D → @comp (sval V D)) :
  Forall (λ kb, slots !! r_id kb.1 = Some (slot_at kb.1 kb.2) ∧ env (slot_at kb.1 kb.2) = Some (SDer (folded fold a kb.1))) ks →
  fst <$> eval env (read_children slots (map r_id ks.*1) ds k) = fst <$> eval env (k (ds ++ map (folded fold a) ks.*1)).
Proof.
  intros Hks. revert ds. induction Hks as [|[x b] ks [Hs He] _ IH]; intros ds; simpl in *; [by rewrite app_nil_r|].
  rewrite Hs. simpl. rewrite He. simpl. specialize (IH (ds ++ [folded fold a x])). rewrite <-(assoc app) in IH. simpl in IH.
  change (list_fmap (rose * nat)%type rose fst ks) with (ks.*1). rewrite <-IH.
  by destruct (eval env (read_children slots (map r_id ks.*1) (ds ++ [folded fold a x]) k)) as [[? ?]|].
Qed.
Lemma folded_live a r : folded fold a r = fold (live_value a r) (map (folded fold a) (live_kids a r)).
Proof.
  destruct r as [i v kids]. unfold live_kids, live_value. cbn [folded r_kids r_id r_val]. f_equal.
  induction kids as [|k kids IH]; [done|]. rewrite filter_cons. simpl. destruct (kept a i k); simpl; [by f_equal|done].
Qed.
Lemma live_row a r n : (base.filter (λ kb, kept a (r_id r) kb.1 = true) (kids_at r n)).*1 = live_kids a r.
Proof.
  unfold kids_at, live_kids. generalize (r_kids r) (S n). intros kids. induction kids as [|k kids IH]; intros m; [done|]. simpl. rewrite !filter_cons. simpl.
  destruct (kept a (r_id r) k); simpl; [f_equal|]; apply IH.
Qed.
Lemma den_folded a c n0 fuel r n : NoDup (r_ids r) → (∀ r' m, (r', m) ∈ nodes_at r n → placed a c r' m) → n0 = slot_at r n → n0 < fuel →
  den c fuel n0 = Some (SDer (folded fold a r)).
Proof.
  revert n0 fuel n. induction r as [i v kids IH] using rose_nested. intros n0 fuel n Hnd Hp -> Hf. set (r := Rose i v kids) in *.
  rewrite folded_live.
  destruct (Hp r n) as [(p1 & Hv & _) (b2 & p2 & Hk & _) (q & Hs & Hq & _)]; [apply nodes_at_spec; by left|].
  pose proof (sz_kids r) as Hsz. destruct fuel as [|fuel]; [lia|]. simpl. rewrite Hs, Hq. unfold slot_compute. simpl.
  unfold slot_at in Hf. destruct fuel as [|fuel]; [lia|]. cbn [den]. rewrite Hv, Hk. simpl.
  assert (Hkids : ∀ k b, (k, b) ∈ kids_at r n → den c (S fuel) (slot_at k b) = Some (SDer (folded fold a k))).
  { intros k b Hkb. pose proof (kids_bounds _ _ _ _ Hkb) as (? & ? & Hin). pose proof (sz_kids k). rewrite Forall_forall in IH.
    apply (IH k Hin _ _ b); [|intros r' m Hr; apply Hp, nodes_at_spec; right; eauto|done|unfold slot_at; lia].
    eapply (nodes_nodup r n k b); [done|]. apply nodes_at_spec. right. exists k, b. split; [done|]. apply nodes_at_spec. by left. }
  pose proof (read_children_eval a (den c (S fuel)) (slots_at r n) (base.filter (λ kb, kept a (r_id r) kb.1 = true) (kids_at r n)) [] (λ ds, Ret (SDer (fold (live_value a r) ds)))) as He.
  assert (Hall : Forall (λ kb, slots_at r n !! r_id kb.1 = Some (slot_at kb.1 kb.2) ∧ den c (S fuel) (slot_at kb.1 kb.2) = Some (SDer (folded fold a kb.1)))
    (base.filter (λ kb, kept a (r_id r) kb.1 = true) (kids_at r n))).
  { apply Forall_forall. intros [k b] [_ Hkb]%list_elem_of_filter. split; [by apply slots_at_kid|by apply Hkids]. }
  rewrite (live_row a r n) in He. specialize (He Hall). cbn [den] in He. simpl in He. revert He. match goal with |- fst <$> ?x = _ → _ => destruct x as [[w ws]|] end; simpl; [|done]. intros [= ->]. done.
Qed.
(** ** The operations *)

Lemma fixed_source_eq (nd nd' : @node (sval V D)) s : fixed nd' = fixed nd → self nd = ASource s → self nd' = ASource s ∧ disposed nd' = disposed nd.
Proof. intros Hf Hs. pose proof (fixed_disposed _ _ Hf) as Hd. unfold fixed in Hf. rewrite Hs in Hf. destruct (self nd'); simplify_eq/=. done. Qed.
Lemma fixed_computed_eq (nd nd' : @node (sval V D)) q : fixed nd' = fixed nd → self nd = AComputed q →
  ∃ q', self nd' = AComputed q' ∧ compute q' = compute q ∧ disposed nd' = disposed nd.
Proof.
  intros Hf Hs. pose proof (fixed_disposed _ _ Hf) as Hd. unfold fixed in Hf. rewrite Hs in Hf. destruct (self nd') as [|q'|]; simplify_eq/=. by exists q'.
Qed.
Lemma placed_fixed a c c' r n : fixed (getn c' n) = fixed (getn c n) → fixed (getn c' (keys_at r n)) = fixed (getn c (keys_at r n)) →
  fixed (getn c' (slot_at r n)) = fixed (getn c (slot_at r n)) → placed a c r n → placed a c' r n.
Proof.
  intros F1 F2 F3 [(p & H1 & D1) (b & p2 & H2 & D2) (q & H3 & Hq & D3)]. split.
  - exists p. destruct (fixed_source_eq _ _ _ F1 H1) as [-> ->]. done.
  - exists b, p2. destruct (fixed_source_eq _ _ _ F2 H2) as [-> ->]. done.
  - destruct (fixed_computed_eq _ _ _ F3 H3) as (q' & -> & Hc & ->). exists q'. by rewrite Hc.
Qed.

(** The cells of two nodes are apart. *)
Lemma cells_apart r m r' m' : (r, m) ∈ nodes_at root 0 → (r', m') ∈ nodes_at root 0 → ((r, m) = (r', m') ∨ m ≠ m' ∧ keys_at r m ≠ keys_at r' m') ∧
  m ≠ keys_at r' m' ∧ m ≠ slot_at r' m' ∧ keys_at r m ≠ slot_at r' m'.
Proof.
  intros Hr Hr'. pose proof (sz_kids r). pose proof (sz_kids r'). unfold keys_at, slot_at.
  destruct (nodes_laminar _ _ _ _ _ _ Hr Hr') as [[= <- <-]|Hl]; [split_and!; [by left|lia|lia|lia]|]. split_and!; [right; lia|lia|lia|lia].
Qed.

(** The tree [t] in context [c] is the root's tree under the edits [a]. *)
Record holds a (t : SemTree) c : Prop := {
  h_idle : idle reads c;
  h_placed r m : (r, m) ∈ nodes_at root 0 → placed a c r m;
  h_node r m : (r, m) ∈ nodes_at root 0 → node_of t (r_id r) = Some (handles r m);
  h_none i : i ∉ r_ids root → node_of t i = None;
  h_root : rootID t = r_id root;
}.
Definition set_value a (i : string) (v : V) : edits V := mkEdits (<[i := v]> (written a)) (removed a).
Definition remove_link a (parent child : string) : edits V := mkEdits (written a) ({[(parent, child)]} ∪ removed a).

Lemma live_kids_removed a r child : map r_id (live_kids (remove_link a (r_id r) child) r) = base.filter (λ j : string, j ≠ child) (map r_id (live_kids a r)).
Proof.
  unfold live_kids. induction (r_kids r) as [|k kids IH]; [done|]. rewrite !filter_cons.
  assert (Hk : kept (remove_link a (r_id r) child) (r_id r) k = kept a (r_id r) k && negb (bool_decide (r_id k = child))).
  { unfold kept, remove_link. simpl. apply eq_true_iff_eq. rewrite andb_true_iff, negb_true_iff, !bool_decide_eq_true, bool_decide_eq_false. set_solver. }
  rewrite Hk. destruct (kept a (r_id r) k); simpl; [|apply IH]. rewrite filter_cons. destruct (decide (r_id k = child)) as [He|He].
  - rewrite bool_decide_eq_true_2 by done. simpl. rewrite (decide_False (P := r_id k ≠ child)) by auto. apply IH.
  - rewrite bool_decide_eq_false_2 by done. simpl. rewrite decide_True by done. simpl. by f_equal.
Qed.
Lemma live_kids_other a r parent child : r_id r ≠ parent → live_kids (remove_link a parent child) r = live_kids a r.
Proof.
  intros Hn. unfold live_kids. induction (r_kids r) as [|k kids IH]; [done|]. rewrite !filter_cons.
  assert (Hk : kept (remove_link a parent child) (r_id r) k = kept a (r_id r) k) by (unfold kept; apply bool_decide_ext; simpl; set_solver).
  rewrite Hk. by rewrite IH.
Qed.

Lemma nodes_inside r0 n0 r m r' m' : (r, m) ∈ nodes_at r0 n0 → (r', m') ∈ nodes_at r0 n0 → m' ≤ m < m' + sz r' → (r, m) ∈ nodes_at r' m'.
Proof.
  revert n0. induction r0 as [i v kids IH] using rose_nested. intros n0 Hr Hr' Hm. pose proof Hr as Hr0. pose proof Hr' as Hr0'.
  apply nodes_at_spec in Hr' as [[= -> ->]|(k' & b' & Hk' & Hr')]; [done|]. apply nodes_at_spec in Hr as [[= -> ->]|(k & b & Hk & Hr)].
  - apply nodes_bounds in Hr' as (? & _). apply kids_bounds in Hk' as (? & _). lia.
  - pose proof (nodes_bounds _ _ _ _ Hr) as (? & ? & _). pose proof (nodes_bounds _ _ _ _ Hr') as (? & ? & _). pose proof (sz_kids r).
    destruct (row_apart _ _ _ _ _ _ Hk Hk') as [[= <- <-]|Hap]; [|lia]. rewrite Forall_forall in IH.
    eapply (IH k (proj2 (proj2 (kids_bounds _ _ _ _ Hk)))); eauto.
Qed.

Section step.
Context (Hnd : NoDup (r_ids root)) (a : edits V) (t : SemTree) (c : ctx) (Hh : holds a t c) (fuel : nat) (Hf : op_fuel c ≤ fuel).

Lemma placed_readable r m : (r, m) ∈ nodes_at root 0 → readable (getn c (slot_at r m)) = true.
Proof using All. intros Hr. destruct (h_placed _ _ _ Hh r m Hr) as [_ _ (q & Hq & _ & Hd)]. unfold readable, is_effect. by rewrite Hd, Hq. Qed.

(** An edge of the graph is a read of the tree. *)
Lemma edges_in_tree x y : tc (edge c) x y → tree_below root y x.
Proof using All.
  destruct (tree_order ord root po_perm) as [_ Hreads Htrans _ _].
  assert (He : ∀ x y, edge c x y → tree_below root y x).
  { intros u w Hu. apply Hreads. pose proof (h_idle _ _ _ Hh) as [(HK & _) [Hq _]]. pose proof (k_inv _ _ _ HK) as HI. unfold edge in Hu.
    pose proof (e_src _ (i_edges _ _ _ _ HI) _ _ Hu) as Hns. apply (e_sym _ (i_edges _ _ _ _ HI)) in Hu.
    apply (i_deps _ _ _ _ HI) in Hu as Hd. apply Hd. unfold is_cacheable, is_source in *. destruct (self (getn c w)) as [|?|e] eqn:Ew; [done|done|].
    destruct (Hq w) as [_ Hno]; [unfold is_effect; by rewrite Ew|]. rewrite Hno in Hu. by apply not_elem_of_empty in Hu. }
  intros Ht. induction Ht as [x y Hxy|x y z Hxy _ IH]; [by apply He|]. eapply Htrans; [exact IH|by apply He].
Qed.
(** What a write at a cell of node [(r, m)] leaves as it was. *)
Lemma wrote_elsewhere n v c' r m : (r, m) ∈ nodes_at root 0 → n = m ∨ n = keys_at r m → wrote reads n v c c' →
  (∀ r' m', (r', m') ∈ nodes_at root 0 → (r', m') ≠ (r, m) → placed a c' r' m') ∧
  (n = keys_at r m → ∃ p, self (getn c' m) = ASource (MkSource (SVal (live_value a r)) p) ∧ disposed (getn c' m) = false) ∧
  (n = m → ∃ b p, self (getn c' (keys_at r m)) = ASource (MkSource (SKeys b (map r_id (live_kids a r))) p) ∧ disposed (getn c' (keys_at r m)) = false) ∧
  (∃ q, self (getn c' (slot_at r m)) = AComputed q ∧ compute q = slot_compute fold m (keys_at r m) (slots_at r m) ∧ disposed (getn c' (slot_at r m)) = false) ∧
  (∀ r' m', (r', m') ∈ nodes_at root 0 → (r, m) ∉ nodes_at r' m' → cachedNow (getn c (slot_at r' m')) = true → cachedNow (getn c' (slot_at r' m')) = true).
Proof using All.
  intros Hr Hn Hw. destruct (h_placed _ _ _ Hh r m Hr) as [(p1 & S1 & D1) (b2 & p2 & S2 & D2) (q & S3 & Hq & D3)].
  destruct (cells_apart r m r m Hr Hr) as (_ & A1 & A2 & A3).
  assert (Hx : ∀ x, x ≠ n → is_effect (getn c x) = false → fixed (getn c' x) = fixed (getn c x)) by (intros x; apply (wr_other _ _ _ _ _ Hw)).
  split_and!.
  - intros r' m' Hr' Hne. destruct (h_placed _ _ _ Hh r' m' Hr') as [(p1' & S1' & _) (b2' & p2' & S2' & _) (q' & S3' & _)].
    destruct (cells_apart r m r' m' Hr Hr') as ([?|[B0 B4]] & B1 & B2 & B3); [congruence|]. destruct (cells_apart r' m' r m Hr' Hr) as (_ & C1 & C2 & C3).
    apply (placed_fixed a c); [| | |by apply Hh]; apply Hx; [destruct Hn; congruence|unfold is_effect; by rewrite S1'|destruct Hn; congruence|unfold is_effect; by rewrite S2'|destruct Hn; congruence|unfold is_effect; by rewrite S3'].
  - intros ->. exists p1. destruct (fixed_source_eq (getn c m) (getn c' m) _ (Hx m A1 ltac:(unfold is_effect; by rewrite S1)) S1) as [-> ->]. done.
  - intros ->. exists b2, p2. destruct (fixed_source_eq (getn c (keys_at r m)) (getn c' (keys_at r m)) _ (Hx _ (not_eq_sym A1) ltac:(unfold is_effect; by rewrite S2)) S2) as [-> ->]. done.
  - destruct (fixed_computed_eq (getn c (slot_at r m)) (getn c' (slot_at r m)) q) as (q' & -> & Hc & ->); [|done|exists q'; by rewrite Hc].
    apply Hx; [destruct Hn; congruence|unfold is_effect; by rewrite S3].
  - intros r' m' Hr' Hout Hc. destruct (cachedNow (getn c' (slot_at r' m'))) eqn:Hc'; [done|]. exfalso. apply Hout.
    pose proof (wr_cached _ _ _ _ _ Hw _ Hc Hc') as Ht. apply edges_in_tree in Ht as (r2 & m2 & Hr2 & Hs & Hin).
    injection (same_slot _ _ _ _ _ Hr' Hr2 Hs) as <- <-. apply (nodes_inside root 0); [done|done|].
    pose proof (sz_kids r). pose proof (sz_kids r'). destruct Hn as [->| ->]; [unfold slot_at in Hin; lia|].
    destruct (nodes_laminar _ _ _ _ _ _ Hr Hr') as [[= <- <-]|Hl]; [lia|]. unfold slot_at, keys_at in Hin. lia.
Qed.

Lemma SetValue_ok i v : ∃ err c', SetValue ord zero fuel t i v c = Ok err c' ∧
  match err with
  | Some _ => i ∉ r_ids root ∧ c' = c
  | None => i ∈ r_ids root ∧ holds (set_value a i v) t c' ∧
      ∀ r' m', (r', m') ∈ nodes_at root 0 → i ∉ r_ids r' → cachedNow (getn c (slot_at r' m')) = true → cachedNow (getn c' (slot_at r' m')) = true
  end.
Proof using All.
  unfold SetValue. destruct (decide (i ∈ r_ids root)) as [Hi|Hi]; [|rewrite (h_none _ _ _ Hh i Hi); by exists (Some i), c].
  apply (ids_nodes root 0) in Hi as (r & m & Hr & <-). rewrite (h_node _ _ _ Hh r m Hr). cbn [valueCell handles].
  destruct (h_placed _ _ _ Hh r m Hr) as [(p & Hs & Hd) _ _].
  destruct (quiet_set zero ord reads R fuel m (SVal v) c _ (h_idle _ _ _ Hh) Hf Hs Hd) as (c' & H1 & Hw).
  exists None, c'. unfold mbind, M_bind. rewrite H1. split; [done|]. destruct (wrote_elsewhere m (SVal v) c' r m Hr (or_introl eq_refl) Hw) as (He & _ & Hk & Hq & Hc).
  destruct (wr_self _ _ _ _ _ Hw _ Hs) as [Hs' Hd']. split_and!; [apply (ids_nodes root 0); eauto| |].
  - split; [apply Hw| |apply Hh|apply Hh|apply Hh]. intros r' m' Hr'. destruct (decide (m' = m)) as [->|Hne].
    + destruct (cells_apart r m r' m Hr Hr') as ([[= <-]|[? _]] & _); [|done]. split; [|by apply Hk|exact Hq].
      exists p. unfold live_value, set_value. simpl. rewrite lookup_insert_eq, Hd'. simpl. by split; [rewrite Hs'|].
    + destruct (He r' m' Hr') as [(p' & P1 & P2) P3 P4]; [congruence|]. split; [|exact P3|exact P4]. exists p'. rewrite P1. split; [|done].
      unfold live_value, set_value. simpl. rewrite lookup_insert_ne; [done|]. intros Hid. pose proof (same_id _ _ _ _ _ _ Hnd Hr Hr' Hid). congruence.
  - intros r' m' Hr' Hout. apply Hc; [done|]. intros Hin. apply Hout, (ids_nodes r' m'). eauto.
Qed.
Lemma RemoveChild_ok parent child : ∃ t' err c', RemoveChild ord zero fuel t parent child c = Ok (t', err) c' ∧
  match err with
  | Some _ => parent ∉ r_ids root ∧ t' = t ∧ c' = c
  | None => parent ∈ r_ids root ∧ holds (remove_link a parent child) t' c' ∧
      ∀ r' m', (r', m') ∈ nodes_at root 0 → parent ∉ r_ids r' → cachedNow (getn c (slot_at r' m')) = true → cachedNow (getn c' (slot_at r' m')) = true
  end.
Proof using All.
  unfold RemoveChild. destruct (decide (parent ∈ r_ids root)) as [Hi|Hi]; [|rewrite (h_none _ _ _ Hh parent Hi); by exists t, (Some parent), c].
  apply (ids_nodes root 0) in Hi as (r & m & Hr & <-). rewrite (h_node _ _ _ Hh r m Hr). cbn [childKeysCell handles].
  destruct (h_placed _ _ _ Hh r m Hr) as [_ (b & p & Hs & Hd) _].
  unfold mbind at 1, M_bind at 1, gets. rewrite Hs. cbn [s_value].
  destruct (quiet_set zero ord reads R fuel (keys_at r m) (SKeys (boxes t) (base.filter (λ j : string, j ≠ child) (map r_id (live_kids a r)))) c _ (h_idle _ _ _ Hh) Hf Hs Hd) as (c' & H1 & Hw).
  eexists _, None, c'. unfold mbind, M_bind. rewrite H1. split; [done|].
  destruct (wrote_elsewhere (keys_at r m) _ c' r m Hr (or_intror eq_refl) Hw) as (He & Hv & _ & Hq & Hc).
  destruct (wr_self _ _ _ _ _ Hw _ Hs) as [Hs' Hd']. split_and!; [apply (ids_nodes root 0); eauto| |].
  - split; [apply Hw| |apply Hh|apply Hh|apply Hh]. intros r' m' Hr'. destruct (decide (m' = m)) as [->|Hne].
    + destruct (cells_apart r m r' m Hr Hr') as ([[= <-]|[? _]] & _); [|done]. split; [by apply Hv| |exact Hq].
      exists (boxes t), p. rewrite live_kids_removed, Hd'. by split; [rewrite Hs'|].
    + destruct (He r' m' Hr') as [P1 (b' & p' & P2 & P3) P4]; [congruence|]. split; [exact P1| |exact P4]. exists b', p'. split; [|done].
      rewrite live_kids_other; [done|]. intros Hid. pose proof (same_id _ _ _ _ _ _ Hnd Hr' Hr Hid). congruence.
  - intros r' m' Hr' Hout. apply Hc; [done|]. intros Hin. apply Hout, (ids_nodes r' m'). eauto.
Qed.
Lemma NodeValue_ok i : ∃ d c', NodeValue ord zero fuel t i c = Ok d c' ∧ holds a t c' ∧
  match d with
  | None => i ∉ r_ids root
  | Some d => ∃ r m, (r, m) ∈ nodes_at root 0 ∧ r_id r = i ∧ d = folded fold a r
  end.
Proof using All.
  unfold NodeValue. destruct (decide (i ∈ r_ids root)) as [Hi|Hi]; [|rewrite (h_none _ _ _ Hh i Hi); by exists None, c].
  apply (ids_nodes root 0) in Hi as (r & m & Hr & <-). rewrite (h_node _ _ _ Hh r m Hr). cbn [slot handles].
  destruct (quiet_get zero ord reads R fuel (slot_at r m) c (h_idle _ _ _ Hh) Hf (placed_readable r m Hr)) as (v & c' & H1 & Hv & Hi' & _ & Hfx).
  assert (Hden : den c (S (slot_at r m)) (slot_at r m) = Some (SDer (folded fold a r))).
  { apply (den_folded a c _ _ r m); [by eapply nodes_nodup|intros r' m' Hr'|done|lia]. apply Hh.
    clear -Hr Hr'. revert Hr. generalize 0. induction root as [i0 v0 kids0 IH] using rose_nested. intros n0 [[= -> ->]|(k & b & Hk & Hr)]%nodes_at_spec; [done|].
    apply nodes_at_spec. right. exists k, b. split; [done|]. rewrite Forall_forall in IH. apply (IH k (proj2 (proj2 (kids_bounds _ _ _ _ Hk))) b Hr). }
  rewrite Hden in Hv. injection Hv as <-. exists (Some (folded fold a r)), c'. unfold mbind, M_bind. rewrite H1. split_and!; [done| |eauto].
  split; [done| |apply Hh|apply Hh|apply Hh]. intros r' m' Hr'. apply (placed_fixed a c); [apply Hfx|apply Hfx|apply Hfx|by apply Hh].
Qed.
End step.
End facts.
(** ** Histories of a tree *)

Section history.
Context {V D : Type} `{EqDecision V, EqDecision D}.
Context (fold : V → list D → D) (ord : @ctx (sval V D) → gset nat → list nat) (zero : sval V D).
Context (spec : TreeNodeSpec V).
Notation root := (rose_of spec).

(** Everything the program can make of a tree built alone in a new context: reads,
    value edits and removed links, each given enough fuel. *)
Inductive reached : edits V → SemTree → @ctx (sval V D) → Prop :=
  | reached_build t c : BuildSemTree fold spec NewContext = Ok t c → reached no_edits t c
  | reached_read a t c fuel i d c' : reached a t c → op_fuel c ≤ fuel → NodeValue ord zero fuel t i c = Ok d c' → reached a t c'
  | reached_set a t c fuel i v err c' : reached a t c → op_fuel c ≤ fuel → SetValue ord zero fuel t i v c = Ok err c' →
      reached (match err with None => set_value a i v | Some _ => a end) t c'
  | reached_remove a t c fuel parent child t' err c' : reached a t c → op_fuel c ≤ fuel →
      RemoveChild ord zero fuel t parent child c = Ok (t', err) c' →
      reached (match err with None => remove_link a parent child | Some _ => a end) t' c'.

(** The subtrees of the tree. *)
Definition subtrees : list (rose V) := (nodes_at root 0).*1.
(** What was cached stays cached below and beside an edit at [i]: everywhere but in
    the nodes that have [i] below them. *)
Definition caches_kept (i : string) (t : SemTree) (c : @ctx (sval V D)) (t' : SemTree) (c' : @ctx (sval V D)) : Prop :=
  ∀ r, r ∈ subtrees → i ∉ r_ids r → IsCached t (r_id r) c = true → IsCached t' (r_id r) c' = true.

Context (ord_perm : ∀ c s, ord c s ≡ₚ elements s) (Hnd : NoDup (r_ids root)).
#[local] Instance order : PullOrder ord (tree_reads root) (tree_below root) := tree_order ord root ord_perm.
Notation holds := (holds fold root).

Lemma NewContext_idle : idle (tree_reads root) (NewContext (V := sval V D)).
Proof using ord_perm.
  split; [exact (NewContext_Top ord (tree_reads root) (tree_below root))|]. split; [|done]. intros m _. unfold getn. simpl. by rewrite lookup_empty.
Qed.
Lemma BuildSemTree_ok : ∃ t c, BuildSemTree fold spec NewContext = Ok t c ∧ holds no_edits t c.
Proof using All.
  assert (Hroot : (root, 0) ∈ nodes_at root 0) by (apply nodes_at_spec; by left).
  unfold BuildSemTree. destruct spec as [i v kids] eqn:Es. rewrite <-Es in *.
  destruct (build_ok fold ord root (tree_below root) spec 0 (mkTree ∅ ∅ i 0) NewContext NewContext_idle eq_refl Hnd Hroot) as (t & c & Hb & B).
  exists t, c. unfold mbind, M_bind. rewrite Hb. split; [done|]. rewrite Nat.add_0_l in B. split.
  - apply B.
  - intros r m. apply (b_placed _ _ _ _ _ _ _ _ _ _ B).
  - intros r m Hr. unfold node_of. rewrite (b_ids _ _ _ _ _ _ _ _ _ _ B r m Hr). simpl. by apply (b_heap _ _ _ _ _ _ _ _ _ _ B).
  - intros j Hj. unfold node_of. by rewrite (b_ids_old _ _ _ _ _ _ _ _ _ _ B j Hj).
  - rewrite (b_root _ _ _ _ _ _ _ _ _ _ B). rewrite Es. by destruct kids as [[? ?]|].
Qed.
Lemma reached_holds a t c : reached a t c → holds a t c.
Proof using All.
  induction 1 as [t c Hb|a t c fuel i d c' _ IH Hf He|a t c fuel i v err c' _ IH Hf He|a t c fuel p k t' err c' _ IH Hf He].
  - destruct BuildSemTree_ok as (t' & c' & Hb' & Hh). rewrite Hb in Hb'. by injection Hb' as <- <-.
  - destruct (NodeValue_ok fold ord zero root (tree_below root) Hnd a t c IH fuel Hf i) as (d' & c2 & He' & Hh & _). rewrite He in He'. by injection He' as <- <-.
  - destruct (SetValue_ok fold ord zero root (tree_below root) Hnd a t c IH fuel Hf i v) as (err' & c2 & He' & Hh).
    rewrite He in He'. injection He' as <- <-. destruct err; [by destruct Hh as [_ ->]|apply Hh].
  - destruct (RemoveChild_ok fold ord zero root (tree_below root) Hnd a t c IH fuel Hf p k) as (t2 & err' & c2 & He' & Hh).
    rewrite He in He'. injection He' as <- <- <-. destruct err; [by destruct Hh as (_ & -> & ->)|apply Hh].
Qed.
Lemma IsCached_at a t c r m : holds a t c → (r, m) ∈ nodes_at root 0 → IsCached t (r_id r) c = cachedNow (getn c (slot_at r m)).
Proof using. intros Hh Hr. unfold IsCached. by rewrite (h_node _ _ _ _ _ Hh r m Hr). Qed.
Lemma caches_kept_at i a a' t c t' c' : holds a t c → holds a' t' c' →
  (∀ r m, (r, m) ∈ nodes_at root 0 → i ∉ r_ids r → cachedNow (getn c (slot_at r m)) = true → cachedNow (getn c' (slot_at r m)) = true) → caches_kept i t c t' c'.
Proof using.
  intros Hh Hh' Hc r Hr Hi. apply list_elem_of_fmap in Hr as ([r' m] & -> & Hr). simpl in *. rewrite (IsCached_at a t c r' m), (IsCached_at a' t' c' r' m) by done. by apply Hc.
Qed.

(** C6: A memoised tree is its fold: whatever sequence of reads, value edits and
    removed links came before, the derived value of a node is the fold of its
    subtree as the edits left it, in every order in which Go may visit the edges of
    the graph.  Every operation returns, an unknown node is an error that changes
    nothing, and an edit leaves every cached value in place but those of the edited
    node and its ancestors. *)
Theorem SemTree_is_its_fold :
  (∃ t c, BuildSemTree fold spec NewContext = Ok t c ∧ reached no_edits t c) ∧
  ∀ a t c fuel i, reached a t c → op_fuel c ≤ fuel →
    (∃ d c', NodeValue ord zero fuel t i c = Ok d c' ∧ reached a t c' ∧
      match d with None => i ∉ r_ids root | Some d => ∃ r, r ∈ subtrees ∧ r_id r = i ∧ d = folded fold a r end) ∧
    (∀ v, ∃ err c', SetValue ord zero fuel t i v c = Ok err c' ∧
      match err with
      | Some _ => i ∉ r_ids root ∧ c' = c
      | None => i ∈ r_ids root ∧ reached (set_value a i v) t c' ∧ caches_kept i t c t c'
      end) ∧
    (∀ child, ∃ t' err c', RemoveChild ord zero fuel t i child c = Ok (t', err) c' ∧
      match err with
      | Some _ => i ∉ r_ids root ∧ t' = t ∧ c' = c
      | None => i ∈ r_ids root ∧ reached (remove_link a i child) t' c' ∧ caches_kept i t c t' c'
      end).
Proof using All.
  split; [destruct BuildSemTree_ok as (t & c & Hb & _); exists t, c; split; [done|by constructor]|].
  intros a t c fuel i Hr Hf. pose proof (reached_holds a t c Hr) as Hh. split_and!.
  - destruct (NodeValue_ok fold ord zero root (tree_below root) Hnd a t c Hh fuel Hf i) as (d & c' & He & _ & Hd). exists d, c'. split_and!; [done|by eapply reached_read|].
    destruct d as [d|]; [|done]. destruct Hd as (r & m & Hm & Hi & ->). exists r. split_and!; [|done|done]. apply list_elem_of_fmap. by exists (r, m).
  - intros v. destruct (SetValue_ok fold ord zero root (tree_below root) Hnd a t c Hh fuel Hf i v) as (err & c' & He & Hd). exists err, c'. split; [done|].
    destruct err as [e|]; [done|]. destruct Hd as (Hi & Hh' & Hc). split_and!; [done|exact (reached_set a t c fuel i v None c' Hr Hf He)|by eapply caches_kept_at].
  - intros child. destruct (RemoveChild_ok fold ord zero root (tree_below root) Hnd a t c Hh fuel Hf i child) as (t' & err & c' & He & Hd). exists t', err, c'. split; [done|].
    destruct err as [e|]; [done|]. destruct Hd as (Hi & Hh' & Hc). split_and!; [done|exact (reached_remove a t c fuel i child t' None c' Hr Hf He)|by eapply caches_kept_at].
Qed.
End history.

(** ** A tree of three nodes, summed *)

Definition demo_spec : TreeNodeSpec Z :=
  Spec "root"%string 1%Z (Some (Some ["a"; "gone"; "b"]%string, [("b"%string, Spec "nb"%string 20%Z None); ("a"%string, Spec "na"%string 300%Z None)])).
Definition demo_fold (v : Z) (ds : list Z) : Z := foldl Z.add v ds.
Definition demo_ord : @ctx (sval Z Z) → gset nat → list nat := λ _ s, elements s.

Lemma demo_nodup : NoDup (r_ids (rose_of demo_spec)).
Proof. apply (bool_decide_unpack _). vm_compute. exact I. Qed.
(** An edit of one leaf leaves the other leaf cached and the root stale. *)
Lemma demo_tree : match BuildSemTree demo_fold demo_spec NewContext with
  | Ok t c =>
      match (NodeValue demo_ord (SDer 0%Z) (op_fuel c) t "root" c) with
      | Ok d c1 => d = Some 321%Z ∧
          match SetValue demo_ord (SDer 0%Z) (op_fuel c1) t "na" 4%Z c1 with
          | Ok err c2 => err = None ∧ IsCached t "nb" c2 = true ∧ IsCached t "na" c2 = false ∧ IsCached t "root" c2 = false ∧
              match RemoveChild demo_ord (SDer 0%Z) (op_fuel c2) t "root" "nb" c2 with
              | Ok (t', _) c3 => match NodeValue demo_ord (SDer 0%Z) (op_fuel c3) t' "root" c3 with Ok d _ => d = Some 5%Z | _ => False end
              | _ => False
              end
          | _ => False
          end
      | _ => False
      end
  | _ => False
  end.
Proof. vm_compute. repeat split. Qed.
Lemma SemTree_is_its_fold_witness :
  ∃ t c, BuildSemTree demo_fold demo_spec NewContext = Ok t c ∧ reached demo_fold demo_ord (SDer 0%Z) demo_spec no_edits t c.
Proof. exact (proj1 (SemTree_is_its_fold demo_fold demo_ord (SDer 0%Z) demo_spec (λ c s, reflexivity (elements s)) demo_nodup)). Defined.
